(* ===== verification/_CoqProject ===== *)
-Q . S2P
Prelude.v
GoStr.v
Regex.v
Float64.v
Parse.v
Film.v
Score.v
Paths.v
Storage.v
Engine.v
Net.v
Access.v
Cache.v
Listing.v
Jobs.v
Rows.v
Queue.v
Drain.v
Hls.v
Match.v
Franchise.v
Relations.v
Pick.v
Episode.v
Wire.v
Await.v
Watch.v
Lists.v
Sync.v
Mal.v
Trackers.v
Race.v
Records.v
Fetch.v
Decimal.v
Bencode.v
Coding.v
Yield.v
Player.v
Track.v
Start.v
Identity.v
Ahead.v
Session.v
Peers.v
Segments.v
Watcher.v
Catalogue.v
Int160.v
Secure.v
Nodes.v
Ordered.v
Nearest.v
Traverse.v
Bep44.v
Kad.v
Pieces.v
