(* ===== verification/Prelude.v ===== *)
(** * kuro: a verification library

    kuro (Go, [src/cmd/kuro] and [src/internal]) finds anime releases, ranks
    them, downloads them with a BitTorrent engine of its own into a cache folder
    kept within a byte budget, plays them, keeps the viewer's list in step with
    AniList and MyAnimeList, and answers other devices at home over HTTP.  This
    library models the parts that decide: what a release's name says, which release is
    started, which file of a torrent is the wanted episode, where bytes go on
    disk and what may be deleted, what is streamed, what counts as watched, what
    the trackers are told, what is news, who gets in, how the distributed hash table is
    kept and walked, and when recurring work runs.
    Definitions keep the source's names and its order of tests; every error
    return is a branch of the model.

    ** How the parts meet

    A show's episodes come from several sources ([Catalogue]).  A search's releases are
    parsed ([Parse]), taken for a show by name ([Identity]), matched to a title ([Match]), checked
    against the episode asked for ([Episode], over the franchise of [Franchise] and
    [Relations]) and judged against a series' films ([Film]); [Score] ranks them.
    Pressing play ([Start]) takes a file, a release held, one resolved ahead ([Ahead]) or a search;
    it races the best candidates ([Race]) after pausing other downloads
    ([Yield]); the watcher ([Watcher]) announces and queues what has aired; a prefetch or the
    queue ([Rows], [Queue], [Drain]) fetches a release ([Fetch]) and records it ([Records]);
    [Pick] chooses the torrent's file and [Await] waits for its bytes.  The engine lays the
    torrent out on disk ([Storage], names by [layout], places by [Segments]) inside the cache folder
    ([Paths]), serves and removes it ([Engine]), drops peers that hold it up ([Peers]), and keeps
    what it holds over a restart ([Session]); its torrents are bencoded ([Decimal], [Bencode],
    [Coding]), its peers spoken to in messages ([Wire]) and found through a DHT node ([Int160], [Secure],
    [Nodes], [Ordered], [Nearest], [Traverse], [Bep44], [Kad]), and its pieces asked for in
    an order kept as they change ([Pieces]).  What is played is encoded in
    segments ([Hls]) or handed to a player ([Player]) that a tracker follows ([Track]); what is seen
    is recorded ([Watch]) and pushed to the trackers ([Lists], [Sync], [Mal], [Trackers]).  The
    cache ([Cache]) accounts for every download and evicts, deletes and forgets them, through the
    engine's listing ([Listing]).  The scheduler ([Jobs]) runs the sweep among the rest; [Access]
    guards the routes through which other devices reach all of it.

    ** Files

    Shared ground:
    - this file: machine integers ([wrap64], Go's 64-bit arithmetic), Go's
      [(T, error)] as [result], slices, a stable sort, list lemmas, tactics
      ([bool_prop], [split_if], [i64_simpl]) and the hint database [kuro];
    - [GoStr]: strings as bytes, UTF-8 decoding, case mapping, trimming,
      splitting, [strconv]; [Decimal]: numbers as text, exactly;
    - [Regex]: RE2 patterns read as spelled, a leftmost-first matcher, and its
      soundness for the declarative language of an expression;
    - [Float64]: doubles by [SpecFloat], and [math.Log1p].

    Finding a release:
    - [Parse]: internal/parse (release.go, language.go, video.go);
    - [Film]: internal/film/film.go; [Score]: internal/score (score.go, specs.go);
    - [Match]: internal/match and internal/corpus/normalise.go; [Identity]:
      library/identity.go;
    - [Franchise], [Relations]: store/franchise.go and library/relations.go; [Catalogue]:
      store/episodes.go;
    - [Episode]: library/episode.go; [Pick]: torrent/client.go and
      filmseries.go, the choice of a file.

    Downloads:
    - [Paths]: path/filepath on Unix, and [torrent.Within] (torrent/client.go);
    - [Storage]: internal/engine/storage.go and layout.go, with the version 1
      layout of bt/metainfo and the completion record of bt/storage; [Segments]:
      bt/segments;
    - [Engine], [Listing]: internal/engine/torrents.go (removal, forgetting,
      verification, ranges; details and listing) and api.go; [Session]:
      engine/session.go; [Peers]: engine/peers.go, regroup.go and the focus of engine.go;
    - [Cache]: internal/library/cache.go and internal/store/cache.go;
    - [Rows], [Queue], [Drain]: store/queue.go, library/queue.go, and that the
      queue drains;
    - [Records], [Fetch]: the release records of store/playback.go and cache.go,
      and fetchRelease of library/prefetch.go; [Watcher]: library/watcher.go and
      store/notify.go;
    - [Await]: torrent/client.go's Stats, WaitLive and Await;
    - [Wire]: bt/peer_protocol; [Bencode], [Coding]: bt/bencode; [Pieces]:
      bt/internal/request-strategy.

    The DHT (bt/dht):
    - [Int160]: int160 and the choice of an identifier in a bucket; [Secure]: security.go;
    - [Nodes]: table.go, bucket.go, node.go; [Ordered], [Nearest]: k-nearest-nodes over a
      container interface; [Traverse]: traversal; [Bep44]: bep44; [Kad]: server.go,
      tokens.go, transactions, peer-store, krpc/msg.go.

    Playing, and what follows from it:
    - [Start], [Ahead]: library/play.go's Start, attach and candidates, stage.go, and
      prefetch.go's resolves; [Race], [Yield]: play.go's race of candidates, and yield,
      resumeYielded and Suspend;
    - [Hls]: transcode/hls.go; [Player]: internal/player; [Track]: play.go's track, save,
      watched and advance; [Watch]: store/playback.go and history.go;
    - [Lists], [Sync], [Mal], [Trackers]: store/sync.go, tracker.go and
      library.go; library/sync.go and mal.go; mal/list.go.

    Around them: [Net], [Access] (server/access.go and approval.go with
    store/access.go) and [Jobs] (internal/jobs/jobs.go).

    ** State and operations

    Handlers are functions from the state to the new state and a response
    ([Access.handle], [Cache.Sweep], [Engine.remove], [Storage.WriteAt],
    [Kad.handleQuery], [Session.restore]); loops
    over slices are structural recursions in the slice's order.  Where goroutines
    meet, the stretches between two locks, or between two calls to a store or to
    the engine, are the steps of a relation ([Jobs.step], [Queue.apply], [Hls.apply],
    [Race.step], [Sync.step], [Yield.step], [Ahead.step], [Traverse.step]); states a component
    can come to are an inductive predicate ([Nodes.reachable], [Watcher.reachable]); where one
    routine waits and the rest of the program may act, what happens meanwhile is an argument
    ([meanwhile] in [Fetch] and [Start], [edits] in [Mal], [clicks] in [Trackers]).  A player's
    events pass through a bounded channel that drops them when full ([Player], [Track]); the calls a
    start or a tracker makes are the list of its acts, in order.  [Peers] states what a
    table should say from the history of the calls that filled it.  A Go map walked in no fixed
    order is a list in an arbitrary order, and so are rows of a query that does not
    order them.  The disk is a finite map or set of paths, the database's tables are
    lists or maps of rows with the columns the queries join, and what an operating
    system, a database, a site or the engine may refuse is an argument.

    ** What the theorems show

    - Storage, Segments: what is written is what is read, across any number of files
      ([WriteAt_ReadAt]); an extent is located as what it shares with each file
      ([extents_located]); a write, even one failing half way, changes nothing
      else; names are stable and distinct but for one construction ([top_collision]).
    - Engine, Listing, Session, Peers: a removal refines the cache's deletion
      ([remove_refines]) and takes no other torrent's files (a lemma); what is saved
      comes back ([session_restored]); who is dropped as silent is who was
      ([silent_exactly]).
    - Cache: its order, accounting and stopping point ([Sweep_spec]); as lemmas, that
      eviction never leaves the cache folder, and that making room is all or nothing.
    - Queue: at most one download in hand ([one_in_hand]); everything in the queue
      comes to an end ([queue_drains]).
    - Records, Fetch, Watcher: a fetch that fails leaves nothing running of its own
      ([fetch_failed]); an episode is announced once ([announced_once]); as lemmas, what is
      recorded is found, and what is superseded is nobody's.
    - Start, Ahead, Race, Yield: an episode starts again from what it played
      ([start_again]), on record ([start_records]), with its calls in order (a lemma); what is
      resolved ahead is handed over once ([resolves_sparing]); a race ends ([race_ends]),
      returns the best release ready ([race_wins]) and leaves nothing behind ([race_leaves]); what
      was paused to make way is resumed ([yielded_come_back]), with the two exceptions its file states.
    - Hls: one encoder at a time ([one_encoder]); a segment served is whole
      ([served_whole]).
    - Track, Watch: an episode is followed to its end ([followed_to_the_end]) and its
      reports are the player's ([reports_truthful]); it counts as watched by playing
      ([watched_by_playing]).
    - Lists, Sync, Mal, Trackers: edits survive a merge ([merge_agrees]); as lemmas, a pull
      settles, a refused token stops a run, favourites agree.
    - Score, Match, Identity, Catalogue: the ranking is a stable sort by an order
      ([Rank_sorted]); a title matched is the best there is ([Match_spec]); a show of one-word names is
      named by those words ([one_word_exact]); sources are layered, the first deciding which
      episodes there are ([sources_layered]); which episode is next ([NextEpisode_spec]).
    - Franchise, Relations: the numbering is the connected components' in broadcast
      order ([Fetch_numbers], over lemmas on rebuilding whole or in part).
    - Pieces: the pieces to request are found by priority, within the storage's room and
      the bound on what is unverified ([requests_in_order]).
    - Wire, Coding: messages and bencoded values come back as they were written
      ([decode_encode], [Unmarshal_Marshal]); decoding ends and keeps types
      ([Decode_returns], [Decode_typed]).
    - The DHT: the table stays in order under any traffic ([table_in_order]); a traversal that stalls
      has the nearest ([stalled_nearest]) and asks no node twice ([asks_once]); a token lasts its
      intervals and no longer ([token_lasts]); which packets are fatal ([packet_panics]).
    - Access: no request is served but from an admitted device ([guard_served]).

    Each file holds, besides, the lemmas its theorems rest on, and traces that
    show where the code does other than its comments say.

    ** Bounds and fuel

    [int] and [int64] are 64-bit, with wrap-around where the code's arithmetic
    can reach it; sums of file sizes in [Cache] are unbounded integers, as the
    files of one disk cannot overflow them; [Segments] bounds a torrent by [limit] (2^61 bytes), under
    which no sum of it overflows.  [Regex.star_loop] has fuel: one more
    than the input left, which every iteration must shorten.  [Franchise.walk]'s is
    one more than the edges' weight, proved enough; [Hls.first_not]'s
    is the number of files; [Bencode]'s is one more than the input's length, and
    [Decode_returns] shows it is never used up.  [Segments.search] halves an interval no longer than its
    fuel; [Nearest.trim]'s is the length of the container, of which each turn deletes one; [Kad]'s token loop
    makes maxIntervalDelta + 1 turns, and ten bytes hold any 64-bit varint.  [Catalogue.upto] adds at most 5000
    numbers by its own test.  The loops of [Await] and of [Start.awaitHead] run a bound on
    polls that their lemmas give; [Race] makes at most 5n + 1 moves for n
    candidates; the worker of [Queue] decreases the measure of [Drain].  The other
    recursions are structural.

    ** Parameters and assumptions

    [Unicode]: case mapping and classes above ASCII (instantiated by
    [ascii_unicode] in the witnesses).  [Crypto]: the digest of a device's cookie
    and the host of a parsed URL.  Fresh secrets, the clock, failures of the
    database, the disk and the engine.  What ffmpeg does to its files ([Hls]); what
    AniList promises of its clock and ids ([Sync.step]); what the sites, indexers and
    the engine answer; golang.org/x/text's folding and mark stripping ([Match]);
    missinggo.IsEmptyValue ([Bencode]); the sorted containers of three packages, by their laws
    ([Ordered], with an implementation); multiless, whose first unequal comparison decides ([Pieces]); SHA-1 and Ed25519 ([Bep44], [Kad]); maphash ([Nearest]).
    [Start] takes the race as an argument that delivers one of its candidates or nothing, which is what [Race]
    proves of it.  In [Fetch], [Mal], [Trackers] and [Catalogue] statements
    on the local database succeed; in [Fetch] deletions go through and an [Add] that
    fails adds nothing.  [Watcher] polls one at a time.  Floating-point fused multiply-add is not used on amd64, the
    platform modelled; paths are Unix paths.

    ** Not modelled, and why

    Of the bundled BitTorrent client, a fork of a library: its connections, choking,
    trackers and web seeds, whose logic is spread over callbacks between goroutines and sockets; of the DHT its sockets,
    rate limits and maintenance loop.  The network clients (indexers, AniList, MyAnimeList, metadata), the
    processes of players and ffmpeg, their command lines and subtitles are input and output.  Sound filters print
    gains from [math.Pow], which has no model here.  SQL beyond the rows named above, the pages' queries, library
    scanning, updates, certificates, Windows calls, the HTTP handlers that only pass calls on, and the web interface
    are left out. *)
From stdpp Require Import base gmap strings list fin_maps.
From stdpp Require sorting.
From Stdlib Require Import ZArith Lia Permutation Sorted.

#[global] Open Scope Z_scope.

(** ** Machine integers

    Go's [int] and [int64] are 64-bit two's complement on the platforms kuro
    builds for; [wrap64] is the wrap-around of every arithmetic result. *)

Definition wrap64 (z : Z) : Z := (z + 2 ^ 63) mod 2 ^ 64 - 2 ^ 63.

Definition in64 (z : Z) : Prop := - 2 ^ 63 <= z < 2 ^ 63.

Definition i64_add (a b : Z) : Z := wrap64 (a + b).
Definition i64_sub (a b : Z) : Z := wrap64 (a - b).
Definition i64_mul (a b : Z) : Z := wrap64 (a * b).
(** Go's [/] truncates towards zero. *)
Definition i64_div (a b : Z) : Z := wrap64 (Z.quot a b).

Declare Scope go_scope.
Delimit Scope go_scope with go.
Notation "a ⊞ b" := (i64_add a b) (at level 50, left associativity) : go_scope.
Notation "a ⊟ b" := (i64_sub a b) (at level 50, left associativity) : go_scope.
#[global] Open Scope go_scope.

Lemma wrap64_small z : in64 z -> wrap64 z = z.
Proof. unfold in64, wrap64. intros H. rewrite Z.mod_small; lia. Qed.

Lemma wrap64_in64 z : in64 (wrap64 z).
Proof.
  unfold in64, wrap64.
  pose proof (Z.mod_pos_bound (z + 2 ^ 63) (2 ^ 64) eq_refl). lia.
Qed.

Lemma i64_add_small a b : in64 (a + b) -> a ⊞ b = a + b.
Proof. apply wrap64_small. Qed.

Lemma i64_sub_small a b : in64 (a - b) -> a ⊟ b = a - b.
Proof. apply wrap64_small. Qed.

Lemma i64_mul_small a b : in64 (a * b) -> i64_mul a b = a * b.
Proof. apply wrap64_small. Qed.

Lemma i64_div_small a b : in64 (Z.quot a b) -> i64_div a b = Z.quot a b.
Proof. apply wrap64_small. Qed.

(** Discharges the no-overflow side condition of a machine operation from the
    linear facts in the context. *)
Ltac no_overflow := unfold in64 in *; lia.

(** Rewrites every machine sum or difference that the context shows not to
    overflow. *)
Ltac i64_simpl :=
  repeat first
    [ rewrite i64_add_small by no_overflow
    | rewrite i64_sub_small by no_overflow
    | rewrite i64_mul_small by no_overflow ].

(** ** Automation shared by the components *)

Create HintDb kuro.
#[export] Hint Resolve wrap64_in64 : kuro.

(** Case analysis on the tests of a handler: [if]s on booleans and matches on
    options, pairs and results, remembering the outcome. *)
Ltac split_if :=
  match goal with
  | |- context [if ?b then _ else _] => destruct b eqn:?
  | H : context [if ?b then _ else _] |- _ => destruct b eqn:?
  end.

Ltac bool_prop :=
  repeat match goal with
  | H : (_ && _)%bool = true |- _ => apply andb_true_iff in H; destruct H
  | H : (_ || _)%bool = false |- _ => apply orb_false_iff in H; destruct H
  | H : negb _ = true |- _ => apply negb_true_iff in H
  | H : negb _ = false |- _ => apply negb_false_iff in H
  | H : (_ =? _) = true |- _ => apply Z.eqb_eq in H
  | H : (_ =? _) = false |- _ => apply Z.eqb_neq in H
  | H : (_ <? _) = true |- _ => apply Z.ltb_lt in H
  | H : (_ <? _) = false |- _ => apply Z.ltb_ge in H
  | H : (_ <=? _) = true |- _ => apply Z.leb_le in H
  | H : (_ <=? _) = false |- _ => apply Z.leb_gt in H
  | H : bool_decide _ = true |- _ => apply bool_decide_eq_true in H
  | H : bool_decide _ = false |- _ => apply bool_decide_eq_false in H
  end.

(** ** Errors *)

(** A Go function returning [(T, error)]. *)
Inductive result (E A : Type) : Type :=
  | Ok (a : A)
  | Err (e : E).
Arguments Ok {E A} a.
Arguments Err {E A} e.

(** ** Slices

    [slice l lo hi] is Go's [l[lo:hi]], for bounds the caller has checked. *)

Definition slice {A} (l : list A) (lo hi : Z) : list A :=
  take (Z.to_nat (hi - lo)) (drop (Z.to_nat lo) l).

(** [splice l lo src] is [copy(l[lo:], src)] for an [src] that fits. *)
Definition splice {A} (l : list A) (lo : Z) (src : list A) : list A :=
  take (Z.to_nat lo) l ++ src ++ drop (Z.to_nat lo + length src) l.

Lemma length_slice {A} (l : list A) lo hi :
  0 <= lo <= hi -> hi <= Z.of_nat (length l) ->
  Z.of_nat (length (slice l lo hi)) = hi - lo.
Proof. intros. unfold slice. rewrite length_take, length_drop. lia. Qed.

Lemma length_splice {A} (l src : list A) lo :
  0 <= lo -> lo + Z.of_nat (length src) <= Z.of_nat (length l) ->
  length (splice l lo src) = length l.
Proof.
  intros. unfold splice. rewrite !length_app, length_take, length_drop. lia.
Qed.

Lemma lookup_slice {A} (l : list A) lo hi i :
  0 <= lo -> (i < Z.to_nat (hi - lo))%nat ->
  slice l lo hi !! i = l !! (Z.to_nat lo + i)%nat.
Proof.
  intros. unfold slice. rewrite lookup_take_lt by done. by rewrite lookup_drop.
Qed.

Lemma lookup_splice_in {A} (l src : list A) lo i :
  0 <= lo -> lo <= Z.of_nat (length l) -> (i < length src)%nat ->
  splice l lo src !! (Z.to_nat lo + i)%nat = src !! i.
Proof.
  intros. unfold splice.
  rewrite lookup_app_r by (rewrite length_take; lia).
  rewrite length_take, lookup_app_l by lia. f_equal. lia.
Qed.

Lemma lookup_splice_out {A} (l src : list A) lo i :
  0 <= lo -> lo + Z.of_nat (length src) <= Z.of_nat (length l) ->
  (i < Z.to_nat lo \/ Z.to_nat lo + length src <= i)%nat ->
  splice l lo src !! i = l !! i.
Proof.
  intros Hlo Hlen [Hi|Hi]; unfold splice.
  - rewrite lookup_app_l by (rewrite length_take; lia).
    by rewrite lookup_take_lt.
  - rewrite lookup_app_r by (rewrite length_take; lia).
    rewrite length_take, lookup_app_r by lia.
    rewrite lookup_drop. f_equal. lia.
Qed.

(** ** Filtering and searching

    The code's loops filter and search by boolean tests. *)

Lemma elem_of_filter_b {A} (f : A -> bool) (l : list A) x : x ∈ List.filter f l <-> x ∈ l /\ f x = true.
Proof. rewrite !list_elem_of_In. apply filter_In. Qed.

Lemma existsb_elem {A} (f : A -> bool) (l : list A) : existsb f l = true <-> exists x, x ∈ l /\ f x = true.
Proof. rewrite existsb_exists. by setoid_rewrite list_elem_of_In. Qed.

Lemma existsb_none {A} (f : A -> bool) (l : list A) x : existsb f l = false -> x ∈ l -> f x = false.
Proof.
  intros Hn Hx. destruct (f x) eqn:E; [|done].
  rewrite (proj2 (existsb_elem f l)) in Hn by eauto. discriminate.
Qed.

Lemma existsb_perm {A} (f : A -> bool) (l l' : list A) : l ≡ₚ l' -> existsb f l = existsb f l'.
Proof. intros Hp. induction Hp; simpl; try congruence. destruct (f x), (f y); done. Qed.

Lemma elem_of_concat_map {A B} (f : A -> list B) (l : list A) b :
  b ∈ concat (map f l) <-> exists x, x ∈ l /\ b ∈ f x.
Proof.
  induction l as [|x l IH]; simpl.
  - split; [intros Hb; by apply not_elem_of_nil in Hb|intros (x & Hx & _); by apply not_elem_of_nil in Hx].
  - rewrite elem_of_app, IH. setoid_rewrite elem_of_cons. naive_solver.
Qed.

Lemma filter_ext_in {A} (f g : A -> bool) l : (forall x, x ∈ l -> f x = g x) -> List.filter f l = List.filter g l.
Proof. intros Hfg. apply List.filter_ext_in. intros x Hx. by apply Hfg, list_elem_of_In. Qed.

(** ** Sorting

    A stable sort: [slices.SortStableFunc], [slices.Sort], whose equal elements
    are alike, and, up to twelve elements, [slices.SortFunc]. *)

Fixpoint insert_sorted {A} (lt : A -> A -> bool) (x : A) (l : list A) : list A :=
  match l with
  | [] => [x]
  | y :: l' => if lt x y then x :: l else y :: insert_sorted lt x l'
  end.

Definition sort_by {A} (lt : A -> A -> bool) (l : list A) : list A :=
  foldl (fun acc x => insert_sorted lt x acc) [] l.

Lemma insert_sorted_perm {A} (lt : A -> A -> bool) x l : insert_sorted lt x l ≡ₚ x :: l.
Proof.
  induction l as [|y l IH]; simpl; [done|]. destruct (lt x y); [done|]. rewrite IH. constructor.
Qed.

Lemma sort_by_perm {A} (lt : A -> A -> bool) l : sort_by lt l ≡ₚ l.
Proof.
  unfold sort_by. rewrite <- (app_nil_r l) at 2. generalize (@nil A) as acc.
  induction l as [|x l IH]; intros acc; simpl; [done|].
  rewrite IH, insert_sorted_perm. rewrite <- Permutation_middle. done.
Qed.

Section sorted.
Context {A : Type} (lt : A -> A -> bool) (f : A -> Z).
Context (lt_measure : forall a b, lt a b = (f a <? f b)).

Lemma insert_sorted_sorted x l :
  StronglySorted (fun a b => f a <= f b) l ->
  StronglySorted (fun a b => f a <= f b) (insert_sorted lt x l).
Proof.
  induction 1 as [|y l Hs IH Hy]; simpl.
  - repeat constructor.
  - rewrite lt_measure. destruct (f x <? f y) eqn:E; bool_prop.
    + constructor; [by constructor|]. constructor; [lia|].
      eapply List.Forall_impl; [|exact Hy]. simpl. lia.
    + constructor; [done|]. rewrite insert_sorted_perm. by constructor.
Qed.

Lemma sort_by_sorted l : StronglySorted (fun a b => f a <= f b) (sort_by lt l).
Proof.
  unfold sort_by.
  assert (StronglySorted (fun a b => f a <= f b) []) as Hnil by constructor.
  revert Hnil. generalize (@nil A) as acc.
  induction l as [|x l IH]; intros acc Hs; simpl; [done|]. apply IH, insert_sorted_sorted, Hs.
Qed.
End sorted.

(** Sorting by a comparison that is not a measure: asymmetric, and transitive where
    it does not hold. *)
Section sorted_by.
Context {A : Type} (lt : A -> A -> bool).
Context (lt_asym : forall a b, lt a b = true -> lt b a = false).
Context (lt_weak : forall a b c, lt b a = false -> lt c b = false -> lt c a = false).

Lemma insert_sorted_by x l :
  StronglySorted (fun a b => lt b a = false) l -> StronglySorted (fun a b => lt b a = false) (insert_sorted lt x l).
Proof using lt_asym lt_weak.
  induction 1 as [|y l Hs IH Hy]; simpl; [repeat constructor|].
  destruct (lt x y) eqn:E.
  - constructor; [by constructor|]. constructor; [by apply lt_asym|].
    eapply List.Forall_impl; [|exact Hy]. intros z Hz. simpl in Hz. apply (lt_weak x y z); [by apply lt_asym|done].
  - constructor; [done|]. rewrite insert_sorted_perm. by constructor.
Qed.

Lemma sort_by_sorts l : StronglySorted (fun a b => lt b a = false) (sort_by lt l).
Proof using lt_asym lt_weak.
  unfold sort_by. assert (StronglySorted (fun a b => lt b a = false) []) as Hnil by constructor.
  revert Hnil. generalize (@nil A) as acc.
  induction l as [|x l IH]; intros acc Hs; simpl; [done|]. apply IH, insert_sorted_by, Hs.
Qed.

(** Where no two elements tie, the order they came in is no matter. *)
Lemma sort_by_unique l l' :
  l ≡ₚ l' -> (forall a b, a ∈ l -> b ∈ l -> lt a b = false -> lt b a = false -> a = b) ->
  sort_by lt l = sort_by lt l'.
Proof using lt_asym lt_weak.
  intros Hp Hanti. apply (sorting.StronglySorted_unique_strong (fun a b => lt b a = false)).
  - intros a b Ha Hb H1 H2. rewrite sort_by_perm in Ha, Hb. rewrite <- Hp in Hb. auto.
  - apply sort_by_sorts.
  - apply sort_by_sorts.
  - by rewrite !sort_by_perm.
Qed.
End sorted_by.

Lemma sorted_snoc {A} (R : A -> A -> Prop) l x :
  StronglySorted R (l ++ [x]) <-> StronglySorted R l /\ Forall (fun y => R y x) l.
Proof.
  induction l as [|y l IH]; simpl; [by split; repeat constructor|]. split.
  - intros [Hs Hy]%StronglySorted_inv. apply IH in Hs as [Hs Hx].
    apply Forall_app in Hy as [Hy Hyx]. apply List.Forall_cons_iff in Hyx as [Hyx _].
    split; by constructor.
  - intros [[Hs Hy]%StronglySorted_inv [Hyx Hx]%List.Forall_cons_iff]. constructor; [by apply IH|].
    apply Forall_app. split; [done|]. by repeat constructor.
Qed.

Lemma StronglySorted_rev {A} (R : A -> A -> Prop) l :
  StronglySorted R l -> StronglySorted (fun a b => R b a) (rev l).
Proof.
  induction 1 as [|x l Hs IH Hx]; simpl; [constructor|].
  apply sorted_snoc. split; [done|]. by apply Forall_rev.
Qed.
