(* ===== verification/GoStr.v ===== *)
(** * Go strings

    A Go [string] is a sequence of bytes, here Rocq's [string].  This file
    models the parts of the language and of [strings], [strconv], [unicode]
    and [unicode/utf8] that kuro's packages use: decoding to runes exactly as
    the runtime does (overlong forms, surrogates and truncated sequences are
    one U+FFFD per byte), case mapping, trimming, searching, splitting and
    number parsing.

    The Unicode tables above ASCII are not reproduced: they are the class
    [Unicode], a parameter of everything that reads them. *)
From stdpp Require Import base gmap strings list pretty.
From Stdlib Require Import ZArith Lia.
From S2P Require Import Prelude.

(** ** Bytes and runes *)

Definition byte_at (c : Ascii.ascii) : Z := Z.of_N (Ascii.N_of_ascii c).
Definition byte_of (z : Z) : Ascii.ascii := Ascii.ascii_of_N (Z.to_N (z mod 256)).

Definition rune_error : Z := 65533.

Definition is_cont (lo hi : Z) (c : Ascii.ascii) : bool :=
  (lo <=? byte_at c) && (byte_at c <=? hi).

(** [utf8.DecodeRuneInString]: the rune at the front and its width. *)
Definition decode_rune (s : string) : Z * nat :=
  match s with
  | EmptyString => (rune_error, 0%nat)
  | String c0 s1 =>
      let b0 := byte_at c0 in
      if b0 <? 128 then (b0, 1%nat)
      else
        let two lo hi k :=
          match s1 with
          | String c1 s2 =>
              if is_cont lo hi c1 then k (byte_at c1 - 128) s2
              else (rune_error, 1%nat)
          | EmptyString => (rune_error, 1%nat)
          end in
        let cont k (s : string) :=
          match s with
          | String c s' =>
              if is_cont 128 191 c then k (byte_at c - 128) s'
              else (rune_error, 1%nat)
          | EmptyString => (rune_error, 1%nat)
          end in
        let three lo hi :=
          two lo hi (fun x1 s2 => cont (fun x2 _ =>
            ((b0 - 224) * 4096 + x1 * 64 + x2, 3%nat)) s2) in
        let four lo hi :=
          two lo hi (fun x1 s2 => cont (fun x2 s3 => cont (fun x3 _ =>
            ((b0 - 240) * 262144 + x1 * 4096 + x2 * 64 + x3, 4%nat)) s3) s2) in
        if (194 <=? b0) && (b0 <=? 223) then
          two 128 191 (fun x1 _ => ((b0 - 192) * 64 + x1, 2%nat))
        else if b0 =? 224 then three 160 191
        else if b0 =? 237 then three 128 159
        else if (225 <=? b0) && (b0 <=? 239) then three 128 191
        else if b0 =? 240 then four 144 191
        else if (241 <=? b0) && (b0 <=? 243) then four 128 191
        else if b0 =? 244 then four 128 143
        else (rune_error, 1%nat)
  end.

(** [utf8.AppendRune]. *)
Definition encode_rune (r : Z) : string :=
  let b z := String (byte_of z) in
  if (0 <=? r) && (r <? 128) then b r ""
  else if (128 <=? r) && (r <? 2048) then
    b (192 + r / 64) (b (128 + r mod 64) "")
  else if (2048 <=? r) && (r <? 65536) && negb ((55296 <=? r) && (r <=? 57343)) then
    b (224 + r / 4096) (b (128 + (r / 64) mod 64) (b (128 + r mod 64) ""))
  else if (65536 <=? r) && (r <=? 1114111) then
    b (240 + r / 262144) (b (128 + (r / 4096) mod 64)
      (b (128 + (r / 64) mod 64) (b (128 + r mod 64) "")))
  else b 239 (b 191 (b 189 "")).

(** A rune of a string with the bytes that spell it. *)
Record tok := Tok { t_rune : Z; t_raw : string }.

Definition t_width (t : tok) : nat := String.length (t_raw t).

Fixpoint runes_from (s : string) (skip : nat) : list tok :=
  match s with
  | EmptyString => []
  | String _ s' =>
      match skip with
      | S k => runes_from s' k
      | O => let '(r, w) := decode_rune s in
             Tok r (String.substring 0 w s) :: runes_from s' (pred w)
      end
  end.

(** [for _, r := range s]. *)
Definition runes (s : string) : list tok := runes_from s 0.

Fixpoint raw_of (l : list tok) : string :=
  match l with
  | [] => ""
  | t :: l' => t_raw t +:+ raw_of l'
  end.

(** ** Character classes

    ASCII is concrete; above it the tables are a parameter. *)

Class Unicode := {
  u_lower : Z -> Z;
  u_upper : Z -> Z;
  (** the other members of the rune's [unicode.SimpleFold] orbit *)
  u_orbit : Z -> list Z;
  u_letter : Z -> bool;
  u_number : Z -> bool;
  (** no rune above ASCII other than the two of [orbit] folds to ASCII *)
  u_orbit_high : forall r x, 128 <= r -> In x (u_orbit r) -> 128 <= x;
}.

(** A concrete table for evaluation: above ASCII every rune is its own case and
    a letter. *)
Definition ascii_unicode : Unicode := {|
  u_lower r := r; u_upper r := r; u_orbit _ := []; u_letter _ := true;
  u_number _ := false; u_orbit_high := fun r x _ (h : In x []) => match h with end |}.

Definition ascii_upper (r : Z) : bool := (65 <=? r) && (r <=? 90).
Definition ascii_lower (r : Z) : bool := (97 <=? r) && (r <=? 122).
Definition is_ascii_digit (r : Z) : bool := (48 <=? r) && (r <=? 57).

Section Unicode.
Context `{Unicode}.

(** [unicode.ToLower], [unicode.ToUpper]. *)
Definition rune_lower (r : Z) : Z :=
  if r <? 128 then (if ascii_upper r then r + 32 else r) else u_lower r.
Definition rune_upper (r : Z) : Z :=
  if r <? 128 then (if ascii_lower r then r - 32 else r) else u_upper r.

(** The orbit of a rune under simple case folding.  Two non-ASCII runes fold
    to ASCII letters: the Kelvin sign and the long s. *)
Definition orbit (r : Z) : list Z :=
  if ascii_upper r || ascii_lower r then
    let u := if ascii_upper r then r else r - 32 in
    [u; u + 32] ++ (if u =? 75 then [8490] else []) ++ (if u =? 83 then [383] else [])
  else if r =? 8490 then [75; 107; 8490]
  else if r =? 383 then [83; 115; 383]
  else if r <? 128 then [r]
  else r :: u_orbit r.

Definition fold_eq (a b : Z) : bool := existsb (Z.eqb b) (orbit a).

(** [unicode.IsLetter], and the class [\p{N}]. *)
Definition is_letter (r : Z) : bool :=
  if r <? 128 then ascii_upper r || ascii_lower r else u_letter r.
Definition is_number (r : Z) : bool :=
  if r <? 128 then is_ascii_digit r else u_number r.

(** [unicode.IsSpace]: the White_Space property. *)
Definition is_space (r : Z) : bool :=
  ((9 <=? r) && (r <=? 13)) || (r =? 32) || (r =? 133) || (r =? 160) ||
  (r =? 5760) || ((8192 <=? r) && (r <=? 8202)) || (r =? 8232) || (r =? 8233) ||
  (r =? 8239) || (r =? 8287) || (r =? 12288).

(** [strings.ToLower], [strings.ToUpper]: an undecodable byte becomes U+FFFD. *)
Definition to_lower (s : string) : string :=
  foldr (fun t acc => encode_rune (rune_lower (t_rune t)) +:+ acc) "" (runes s).
Definition to_upper (s : string) : string :=
  foldr (fun t acc => encode_rune (rune_upper (t_rune t)) +:+ acc) "" (runes s).

(** [strings.EqualFold]. *)
Fixpoint equal_fold_toks (a b : list tok) : bool :=
  match a, b with
  | [], [] => true
  | x :: a', y :: b' => fold_eq (t_rune x) (t_rune y) && equal_fold_toks a' b'
  | _, _ => false
  end.
Definition equal_fold (a b : string) : bool := equal_fold_toks (runes a) (runes b).

(** [strings.ContainsFunc(s, unicode.IsLetter)]. *)
Definition has_letter (s : string) : bool :=
  existsb (fun t => is_letter (t_rune t)) (runes s).
End Unicode.

(** ** Trimming *)

Fixpoint drop_while {A} (p : A -> bool) (l : list A) : list A :=
  match l with
  | [] => []
  | x :: l' => if p x then drop_while p l' else l
  end.

Definition trim_func (p : Z -> bool) (s : string) : string :=
  let f := drop_while (fun t => p (t_rune t)) in
  raw_of (reverse (f (reverse (f (runes s))))).

Definition trim_right_func (p : Z -> bool) (s : string) : string :=
  raw_of (reverse (drop_while (fun t => p (t_rune t)) (reverse (runes s)))).

Definition in_cutset (cut : string) (r : Z) : bool :=
  existsb (fun t => t_rune t =? r) (runes cut).

(** [strings.TrimSpace], [strings.Trim], [strings.TrimRight]. *)
Definition trim_space (s : string) : string := trim_func is_space s.
Definition trim (s cut : string) : string := trim_func (in_cutset cut) s.
Definition trim_right (s cut : string) : string := trim_right_func (in_cutset cut) s.

(** ** Searching *)

Definition has_prefix (s p : string) : bool := String.prefix p s.

Definition has_suffix (s p : string) : bool :=
  (String.length p <=? String.length s)%nat &&
  String.eqb (String.substring (String.length s - String.length p) (String.length p) s) p.

Definition trim_prefix (s p : string) : string :=
  if has_prefix s p
  then String.substring (String.length p) (String.length s - String.length p) s
  else s.

Definition trim_suffix (s p : string) : string :=
  if has_suffix s p then String.substring 0 (String.length s - String.length p) s else s.

Fixpoint index_from (sub s : string) (n : nat) : option nat :=
  if String.prefix sub s then Some n
  else match s with
       | EmptyString => None
       | String _ s' => index_from sub s' (S n)
       end.

(** [strings.Index], [strings.Contains]. *)
Definition index (s sub : string) : option nat := index_from sub s 0.
Definition contains (s sub : string) : bool :=
  match index s sub with Some _ => true | None => false end.

Fixpoint last_index_from (sub s : string) (n : nat) (best : option nat) : option nat :=
  let best := if String.prefix sub s then Some n else best in
  match s with
  | EmptyString => best
  | String _ s' => last_index_from sub s' (S n) best
  end.

(** [strings.LastIndex]. *)
Definition last_index (s sub : string) : option nat := last_index_from sub s 0 None.

(** [strings.ContainsAny]. *)
Definition contains_any (s chars : string) : bool :=
  existsb (fun t => in_cutset chars (t_rune t)) (runes s).

(** ** Splitting and joining *)

Fixpoint split_acc (sep s acc : string) (skip : nat) : list string :=
  match s with
  | EmptyString => [acc]
  | String c s' =>
      match skip with
      | S k => split_acc sep s' acc k
      | O => if String.prefix sep s
             then acc :: split_acc sep s' "" (pred (String.length sep))
             else split_acc sep s' (acc +:+ String c "") 0
      end
  end.

(** [strings.Split] for a non-empty separator. *)
Definition split (s sep : string) : list string := split_acc sep s "" 0.

(** [strings.Join]. *)
Definition join (l : list string) (sep : string) : string := String.concat sep l.

(** [strings.ReplaceAll] and [strings.Count] for a non-empty [old]. *)
Definition replace_all (s old new : string) : string := join (split s old) new.
Definition count (s sub : string) : nat := pred (length (split s sub)).

Fixpoint fields_acc (l : list tok) (cur : string) : list string :=
  match l with
  | [] => if String.eqb cur "" then [] else [cur]
  | t :: l' =>
      if is_space (t_rune t)
      then (if String.eqb cur "" then [] else [cur]) ++ fields_acc l' ""
      else fields_acc l' (cur +:+ t_raw t)
  end.

(** [strings.Fields]. *)
Definition fields (s : string) : list string := fields_acc (runes s) "".

(** ** Numbers *)

Fixpoint digits_value (s : string) (acc : Z) : option Z :=
  match s with
  | EmptyString => Some acc
  | String c s' =>
      if is_ascii_digit (byte_at c)
      then digits_value s' (acc * 10 + (byte_at c - 48))
      else None
  end.

(** [strconv.Atoi]: the value and whether the error is nil.  A syntax error
    yields 0, a number out of range the nearest bound. *)
Definition atoi (s : string) : Z * bool :=
  let '(neg, body) :=
    match s with
    | String c s' =>
        if byte_at c =? 45 then (true, s')
        else if byte_at c =? 43 then (false, s') else (false, s)
    | EmptyString => (false, s)
    end in
  match body with
  | EmptyString => (0, false)
  | _ =>
      match digits_value body 0 with
      | None => (0, false)
      | Some v =>
          let v := if neg then - v else v in
          if v <? - 2 ^ 63 then (- 2 ^ 63, false)
          else if 2 ^ 63 <=? v then (2 ^ 63 - 1, false)
          else (v, true)
      end
  end.

(** [n, _ := strconv.Atoi(s)]. *)
Definition atoi_val (s : string) : Z := fst (atoi s).

(** [%d]. *)
Definition itoa (z : Z) : string := pretty z.

(** ** Byte access *)

Definition byte_index (s : string) (i : nat) : option Z :=
  byte_at <$> String.get i s.

(** [s[lo:hi]] for checked bounds. *)
Definition substr (s : string) (lo hi : nat) : string := String.substring lo (hi - lo) s.

Definition str_from (s : string) (lo : nat) : string := substr s lo (String.length s).
Definition str_to (s : string) (hi : nat) : string := substr s 0 hi.

(** ** Lemmas *)

Lemma string_app_length a b :
  String.length (a +:+ b) = (String.length a + String.length b)%nat.
Proof. induction a; simpl; auto. Qed.

Lemma string_app_nil_r a : a +:+ "" = a.
Proof.
  induction a as [|c a IH]; [done|].
  change (String c (a +:+ "") = String c a). by rewrite IH.
Qed.

Lemma string_app_assoc a b c : (a +:+ b) +:+ c = a +:+ (b +:+ c).
Proof.
  induction a as [|x a IH]; [done|].
  change (String x ((a +:+ b) +:+ c) = String x (a +:+ (b +:+ c))). by rewrite IH.
Qed.

Lemma drop_while_head {A} (p : A -> bool) l x l' :
  drop_while p l = x :: l' -> p x = false.
Proof. induction l as [|y l IH]; simpl; [done|]. destruct (p y) eqn:E; naive_solver. Qed.

Lemma drop_while_suffix {A} (p : A -> bool) l : exists k, l = k ++ drop_while p l.
Proof.
  induction l as [|y l [k IH]]; simpl; [by exists []|].
  destruct (p y); [|by exists []]. exists (y :: k). simpl. congruence.
Qed.

Lemma digits_value_bound s acc v :
  0 <= acc -> digits_value s acc = Some v ->
  0 <= v < (acc + 1) * 10 ^ Z.of_nat (String.length s).
Proof.
  revert acc. induction s as [|c s IH]; simpl; intros acc Hacc Hv.
  - injection Hv as <-. lia.
  - destruct (is_ascii_digit (byte_at c)) eqn:D; [|done].
    unfold is_ascii_digit in D. bool_prop.
    apply IH in Hv; [|lia].
    rewrite Nat2Z.inj_succ, Z.pow_succ_r by lia.
    assert (0 < 10 ^ Z.of_nat (String.length s)) by (apply Z.pow_pos_nonneg; lia).
    nia.
Qed.

(** *** Decoding loses nothing *)

Fixpoint str_drop (n : nat) (s : string) : string :=
  match n, s with
  | O, _ => s
  | S n', String _ s' => str_drop n' s'
  | S _, EmptyString => ""
  end.

(** One rune is at least a byte and no longer than the string; only ASCII bytes
    decode below 128, and they spell themselves. *)
Definition decode_ok (s : string) (p : Z * nat) : Prop :=
  (1 <= snd p <= String.length s)%nat /\ 0 <= fst p /\
  (fst p < 128 -> snd p = 1%nat /\ exists c s', s = String c s' /\ byte_at c = fst p).

Lemma byte_at_range c : 0 <= byte_at c < 256.
Proof.
  unfold byte_at. pose proof (Ascii.N_ascii_bounded c).
  split; [apply N2Z.is_nonneg|]. change 256 with (Z.of_N 256). by apply N2Z.inj_lt.
Qed.

Lemma byte_of_at c : byte_of (byte_at c) = c.
Proof.
  unfold byte_of. rewrite Z.mod_small by apply byte_at_range.
  unfold byte_at. rewrite N2Z.id. apply Ascii.ascii_N_embedding.
Qed.

Lemma byte_at_of z : 0 <= z < 256 -> byte_at (byte_of z) = z.
Proof.
  intros Hz. unfold byte_at, byte_of. rewrite Z.mod_small by lia.
  rewrite Ascii.N_ascii_embedding; lia.
Qed.

Lemma is_cont_bounds lo hi c : is_cont lo hi c = true -> lo <= byte_at c <= hi.
Proof. unfold is_cont. intros. bool_prop. lia. Qed.

Lemma decode_rune_ok c s : decode_ok (String c s) (decode_rune (String c s)).
Proof.
  pose proof (byte_at_range c) as Hc.
  assert (Herr : decode_ok (String c s) (rune_error, 1%nat)).
  { unfold decode_ok, rune_error; simpl. repeat split; try lia. }
  unfold decode_rune; fold byte_at.
  repeat first
    [ assumption
    | match goal with
      | |- decode_ok _ (match ?s with EmptyString => _ | String _ _ => _ end) =>
          destruct s; simpl
      | |- decode_ok _ (if is_cont ?a ?b ?x then _ else _) =>
          destruct (is_cont a b x) eqn:?
      | |- decode_ok _ (if ?b then _ else _) => destruct b eqn:?
      end ];
    repeat match goal with
      | H : is_cont _ _ _ = true |- _ => apply is_cont_bounds in H
      end; bool_prop;
    unfold decode_ok; simpl; repeat split; try lia; eauto.
Qed.

(** A token of a decoded string: an ASCII rune is spelled by its own byte. *)
Definition tok_ok (t : tok) : Prop :=
  0 <= t_rune t /\ (t_rune t < 128 -> t_raw t = String (byte_of (t_rune t)) "").

Lemma substring_0_0 s : String.substring 0 0 s = "".
Proof. by destruct s. Qed.

Lemma substring_0_drop n s :
  (n <= String.length s)%nat -> String.substring 0 n s +:+ str_drop n s = s.
Proof.
  revert n. induction s as [|c s IH]; intros [|n] Hn; simpl in *; try done; try lia.
  change (String c (String.substring 0 n s +:+ str_drop n s) = String c s).
  by rewrite IH by lia.
Qed.

Lemma runes_from_spec s skip :
  (skip <= String.length s)%nat ->
  raw_of (runes_from s skip) = str_drop skip s /\ Forall tok_ok (runes_from s skip).
Proof.
  revert skip. induction s as [|c s IH]; intros skip Hs.
  { by destruct skip; simpl in *; try lia. }
  destruct skip as [|k]; [|apply IH; simpl in Hs; lia].
  pose proof (decode_rune_ok c s) as (Hw & Hpos & Hascii).
  cbn [runes_from]. destruct (decode_rune (String c s)) as [r w]. simpl in *.
  destruct w as [|w]; [lia|]. destruct (IH w) as [IH1 IH2]; [lia|]. simpl. split.
  - change (String c (String.substring 0 w s +:+ raw_of (runes_from s w)) = String c s).
    by rewrite IH1, substring_0_drop by lia.
  - constructor; [|done]. split; [done|]. simpl. intros Hr.
    destruct (Hascii Hr) as [? (c' & s' & ? & Hb)]. simplify_eq.
    by rewrite byte_of_at, substring_0_0.
Qed.

Lemma raw_of_runes s : raw_of (runes s) = s.
Proof. by apply runes_from_spec; lia. Qed.

Lemma runes_ok s : Forall tok_ok (runes s).
Proof. apply runes_from_spec; lia. Qed.
