(* ===== verification/Regex.v ===== *)
(** * Go regular expressions

    kuro's parsers are written with [regexp]; this file models the part of
    RE2 syntax their patterns use and the leftmost-first matching the package
    documents.  [compile] reads a pattern as it is spelled in the source, so
    that the parsers' definitions quote the source's patterns; [re_match] is a
    backtracking matcher with Perl's preference order, which RE2's
    leftmost-first semantics agrees with.

    [lang] is the declarative counterpart: the token sequences an expression
    can consume, anchors aside.  [find_sound] states that whatever the matcher
    reports, each capture group spans a piece of the input in the language of
    the group's expression; the parsers' bounds follow from it. *)
From stdpp Require Import base gmap strings list.
From Stdlib Require Import ZArith Lia.
From S2P Require Import Prelude GoStr.

(** ** Syntax *)

Inductive citem :=
  | CRange (lo hi : Z)
  | CDigit
  | CSpace
  | CWord
  | CLetter
  | CNumber.

Record cset := CSet { cs_neg : bool; cs_fold : bool; cs_items : list citem }.

Inductive re :=
  | RFail
  | REps
  | RSet (c : cset)
  | RCat (a b : re)
  | RAlt (a b : re)
  | RRep (mn : nat) (mx : option nat) (r : re)
  | RCap (n : nat) (r : re)
  | RBol
  | REol
  | RWordB.

(** ** Reading a pattern *)

Definition escape_class (c : Z) : option citem :=
  if c =? 100 then Some CDigit          (* \d *)
  else if c =? 115 then Some CSpace     (* \s *)
  else if c =? 119 then Some CWord      (* \w *)
  else None.

(** One class item or escaped literal after a backslash. *)
Definition p_escape (l : list Z) : option (citem * list Z) :=
  match l with
  | 112 :: 123 :: 76 :: 125 :: l' => Some (CLetter, l')   (* \p{L} *)
  | 112 :: 123 :: 78 :: 125 :: l' => Some (CNumber, l')   (* \p{N} *)
  | c :: l' =>
      match escape_class c with
      | Some it => Some (it, l')
      | None => if is_ascii_digit c || ascii_upper c || ascii_lower c then None
                else Some (CRange c c, l')
      end
  | [] => None
  end.

Fixpoint p_class (fuel : nat) (acc : list citem) (l : list Z) : option (list citem * list Z) :=
  match fuel with
  | O => None
  | S f =>
      let range c l' :=
        match l' with
        | 45 :: 93 :: _ => p_class f (CRange c c :: acc) l'
        | 45 :: 92 :: _ => None
        | 45 :: d :: l'' => p_class f (CRange c d :: acc) l''
        | _ => p_class f (CRange c c :: acc) l'
        end in
      match l with
      | [] => None
      | 93 :: l' => Some (rev acc, l')                    (* ] *)
      | 92 :: l' =>                                       (* \ *)
          match p_escape l' with
          | Some (CRange c _, l'') => range c l''
          | Some (it, l'') => p_class f (it :: acc) l''
          | None => None
          end
      | c :: l' => range c l'
      end
  end.

Fixpoint p_num (l : list Z) (acc : option nat) : option nat * list Z :=
  match l with
  | c :: l' =>
      if is_ascii_digit c
      then p_num l' (Some (default 0%nat acc * 10 + Z.to_nat (c - 48))%nat)
      else (acc, l)
  | [] => (acc, l)
  end.

(** A quantifier after an atom. *)
Definition p_quant (r : re) (l : list Z) : option (re * list Z) :=
  match l with
  | 42 :: l' => Some (RRep 0 None r, l')
  | 43 :: l' => Some (RRep 1 None r, l')
  | 63 :: l' => Some (RRep 0 (Some 1%nat) r, l')
  | 123 :: l' =>
      match p_num l' None with
      | (Some m, 125 :: l'') => Some (RRep m (Some m) r, l'')
      | (Some m, 44 :: l'') =>
          match p_num l'' None with
          | (Some n, 125 :: l3) => Some (RRep m (Some n) r, l3)
          | (None, 125 :: l3) => Some (RRep m None r, l3)
          | _ => None
          end
      | _ => None
      end
  | _ => Some (r, l)
  end.

Definition cat_rev (l : list re) : re :=
  match l with
  | [] => REps
  | r :: l' => foldl (fun acc x => RCat x acc) r l'
  end.

Definition alt_rev (l : list re) : re :=
  match l with
  | [] => RFail
  | r :: l' => foldl (fun acc x => RAlt x acc) r l'
  end.

(** Reads alternatives up to a closing parenthesis or the end. *)
Fixpoint p_re (fuel : nat) (fold : bool) (nc : nat) (cur alts : list re) (l : list Z)
  : option (re * nat * list Z) :=
  match fuel with
  | O => None
  | S f =>
      let atom nc r l' :=
        match p_quant r l' with
        | Some (r', l'') => p_re f fold nc (r' :: cur) alts l''
        | None => None
        end in
      let lit it l' := atom nc (RSet (CSet false fold [it])) l' in
      match l with
      | [] => Some (alt_rev (cat_rev cur :: alts), nc, [])
      | 41 :: _ => Some (alt_rev (cat_rev cur :: alts), nc, l)
      | 124 :: l' => p_re f fold nc [] (cat_rev cur :: alts) l'
      | 40 :: 63 :: 105 :: 41 :: l' => p_re f true nc cur alts l'      (* (?i) *)
      | 40 :: 63 :: 58 :: l' =>                                         (* (?: *)
          match p_re f fold nc [] [] l' with
          | Some (r, nc', 41 :: l'') => atom nc' r l''
          | _ => None
          end
      | 40 :: l' =>
          match p_re f fold (S nc) [] [] l' with
          | Some (r, nc', 41 :: l'') => atom nc' (RCap (S nc) r) l''
          | _ => None
          end
      | 94 :: l' => p_re f fold nc (RBol :: cur) alts l'
      | 36 :: l' => p_re f fold nc (REol :: cur) alts l'
      | 91 :: 94 :: l' =>
          match p_class f [] l' with
          | Some (its, l'') => atom nc (RSet (CSet true fold its)) l''
          | None => None
          end
      | 91 :: l' =>
          match p_class f [] l' with
          | Some (its, l'') => atom nc (RSet (CSet false fold its)) l''
          | None => None
          end
      | 92 :: 98 :: l' => p_re f fold nc (RWordB :: cur) alts l'        (* \b *)
      | 92 :: l' =>
          match p_escape l' with
          | Some (it, l'') => lit it l''
          | None => None
          end
      | c :: l' => lit (CRange c c) l'
      end
  end.

(** [regexp.MustCompile]; [RFail] for a pattern outside the fragment. *)
Definition compile (p : string) : re :=
  let l := map t_rune (runes p) in
  match p_re (S (2 * length l)) false 0 [] [] l with
  | Some (r, _, []) => r
  | _ => RFail
  end.

(** ** Matching *)

Definition is_word (r : Z) : bool :=
  is_ascii_digit r || ascii_upper r || ascii_lower r || (r =? 95).

Record cur := Cur { c_prev : option Z; c_rest : list tok; c_pos : nat }.

Definition step_cur (c : cur) (t : tok) (rest : list tok) : cur :=
  Cur (Some (t_rune t)) rest (c_pos c + t_width t).

(** Capture group [n] spans bytes [a] to [b]; the newest entry first. *)
Definition caps := list (nat * (nat * nat)).

Section Match.
Context `{Unicode}.

Definition item_mem (it : citem) (r : Z) : bool :=
  match it with
  | CRange lo hi => (lo <=? r) && (r <=? hi)
  | CDigit => is_ascii_digit r
  | CSpace => (r =? 9) || (r =? 10) || (r =? 12) || (r =? 13) || (r =? 32)
  | CWord => is_word r
  | CLetter => is_letter r
  | CNumber => is_number r
  end.

Definition cset_mem (c : cset) (r : Z) : bool :=
  xorb (cs_neg c)
    (existsb (fun it => if cs_fold c then existsb (item_mem it) (orbit r) else item_mem it r)
       (cs_items c)).

Definition word_boundary (c : cur) : bool :=
  let before := match c_prev c with Some r => is_word r | None => false end in
  let after := match c_rest c with t :: _ => is_word (t_rune t) | [] => false end in
  xorb before after.

(** What follows a sub-match; [None] makes the matcher try the next choice. *)
Definition cont (A : Type) := cur -> caps -> option A.

Section Loops.
Context {A : Type} (body : cur -> caps -> cont A -> option A) (k : cont A).

(** Greedy repetition: once more if possible, else continue.  [fuel] is one
    more than the tokens left, and every iteration consumes a token. *)
Fixpoint star_loop (fuel : nat) (mx : option nat) (c : cur) (cp : caps) : option A :=
  match fuel, mx with
  | O, _ | _, Some O => k c cp
  | S f, _ =>
      match body c cp (fun c' cp' =>
              if (length (c_rest c') <? length (c_rest c))%nat
              then star_loop f (pred <$> mx) c' cp' else None) with
      | Some x => Some x
      | None => k c cp
      end
  end.

Fixpoint rep_loop (mn : nat) (mx : option nat) (c : cur) (cp : caps) : option A :=
  match mn with
  | O => star_loop (S (length (c_rest c))) mx c cp
  | S m => body c cp (rep_loop m (pred <$> mx))
  end.
End Loops.

Fixpoint re_match {A} (r : re) (c : cur) (cp : caps) (k : cont A) : option A :=
  match r with
  | RFail => None
  | REps => k c cp
  | RSet cs =>
      match c_rest c with
      | t :: rest => if cset_mem cs (t_rune t) then k (step_cur c t rest) cp else None
      | [] => None
      end
  | RCat a b => re_match a c cp (fun c' cp' => re_match b c' cp' k)
  | RAlt a b =>
      match re_match a c cp k with
      | Some x => Some x
      | None => re_match b c cp k
      end
  | RRep mn mx r => rep_loop (re_match r) k mn mx c cp
  | RCap n r =>
      re_match r c cp (fun c' cp' => k c' ((n, (c_pos c, c_pos c')) :: cp'))
  | RBol => match c_prev c with None => k c cp | Some _ => None end
  | REol => match c_rest c with [] => k c cp | _ => None end
  | RWordB => if word_boundary c then k c cp else None
  end.

(** A match: the span of bytes and the groups. *)
Record mtch := Mtch { m_start : nat; m_end : nat; m_caps : caps }.

Definition match_at (r : re) (c : cur) : option mtch :=
  re_match r c [] (fun c' cp => Some (Mtch (c_pos c) (c_pos c') cp)).

(** The leftmost match at or after the cursor. *)
Fixpoint find_from (r : re) (prev : option Z) (rest : list tok) (pos : nat) : option mtch :=
  match match_at r (Cur prev rest pos) with
  | Some m => Some m
  | None =>
      match rest with
      | [] => None
      | t :: rest' => find_from r (Some (t_rune t)) rest' (pos + t_width t)
      end
  end.

Definition find (r : re) (s : string) : option mtch := find_from r None (runes s) 0.

(** [MatchString]. *)
Definition matches (r : re) (s : string) : bool :=
  match find r s with Some _ => true | None => false end.

(** The cursor at byte [pos]. *)
Fixpoint seek (prev : option Z) (rest : list tok) (at_ pos : nat) : cur :=
  match rest with
  | t :: rest' =>
      if (pos <=? at_)%nat then Cur prev rest at_
      else seek (Some (t_rune t)) rest' (at_ + t_width t) pos
  | [] => Cur prev [] at_
  end.

Definition find_pos (r : re) (l : list tok) (pos : nat) : option mtch :=
  let c := seek None l 0 pos in find_from r (c_prev c) (c_rest c) (c_pos c).

Definition width_at (l : list tok) (pos : nat) : option nat :=
  match c_rest (seek None l 0 pos) with t :: _ => Some (t_width t) | [] => None end.

(** [FindAll]: successive non-overlapping matches; an empty match right after
    the previous one is dropped. *)
Fixpoint find_all_loop (fuel : nat) (r : re) (l : list tok) (len pos : nat)
    (prev_end : option nat) : list mtch :=
  match fuel with
  | O => []
  | S f =>
      if (len <? pos)%nat then []
      else
        match find_pos r l pos with
        | None => []
        | Some m =>
            let empty := (m_end m =? pos)%nat in
            let accept := negb (empty && bool_decide (prev_end = Some (m_start m))) in
            let pos' := if empty
                        then match width_at l pos with
                             | Some w => (pos + w)%nat | None => S len end
                        else m_end m in
            (if accept then [m] else []) ++
              find_all_loop f r l len pos' (Some (m_end m))
        end
  end.

Definition find_all (r : re) (s : string) : list mtch :=
  let len := String.length s in find_all_loop (S (S len)) r (runes s) len 0 None.

(** [ReplaceAllStringFunc] and its relatives: [repl] gives the text put in
    place of a match. *)
Fixpoint replace_loop (fuel : nat) (r : re) (s : string) (l : list tok)
    (search last : nat) (repl : mtch -> string) : string :=
  match fuel with
  | O => str_from s last
  | S f =>
      let len := String.length s in
      if (len <? search)%nat then str_from s last
      else
        match find_pos r l search with
        | None => str_from s last
        | Some m =>
            let text := if ((last <? m_end m) || (m_start m =? 0))%nat then repl m else "" in
            let w := default 0%nat (width_at l search) in
            let search' := if (m_end m <? search + w)%nat then (search + w)%nat
                           else if (m_end m <? search + 1)%nat then (search + 1)%nat
                           else m_end m in
            substr s last (m_start m) +:+ text +:+
              replace_loop f r s l search' (m_end m) repl
        end
  end.

Definition replace_fun (r : re) (s : string) (repl : mtch -> string) : string :=
  replace_loop (S (S (String.length s))) r s (runes s) 0 0 repl.

(** [ReplaceAllString] with a template holding no group reference. *)
Definition replace (r : re) (s repl : string) : string := replace_fun r s (fun _ => repl).

(** [Regexp.Split(s, -1)]. *)
Definition re_split (r : re) (s : string) : list string :=
  if String.eqb s "" then [""]
  else
    let go := fix go (ms : list mtch) (beg end_ : nat) : list string :=
      match ms with
      | [] => if (end_ =? String.length s)%nat then [] else [str_from s beg]
      | m :: ms' =>
          (if (m_end m =? 0)%nat then [] else [substr s beg (m_start m)]) ++
            go ms' (m_end m) (m_start m)
      end in
    go (find_all r s) 0%nat 0%nat.
End Match.

(** ** Groups of a match *)

Fixpoint cap_lookup (cp : caps) (n : nat) : option (nat * nat) :=
  match cp with
  | [] => None
  | (m, ab) :: cp' => if (m =? n)%nat then Some ab else cap_lookup cp' n
  end.

Definition group_span (m : mtch) (n : nat) : option (nat * nat) := cap_lookup (m_caps m) n.

(** [m[n]] of [FindStringSubmatch]: a group that took no part is "". *)
Definition group (s : string) (m : mtch) (n : nat) : string :=
  match group_span m n with
  | Some (a, b) => substr s a b
  | None => ""
  end.

Definition whole (s : string) (m : mtch) : string := substr s (m_start m) (m_end m).

(** ** Soundness

    [lang r] is the set of token sequences the expression can consume; the
    anchors consume nothing. *)

Section Lang.
Context `{Unicode}.

Fixpoint lang (r : re) (seg : list tok) : Prop :=
  match r with
  | RFail => False
  | REps | RBol | REol | RWordB => seg = []
  | RSet cs => exists t, seg = [t] /\ cset_mem cs (t_rune t) = true
  | RCat a b => exists s1 s2, seg = s1 ++ s2 /\ lang a s1 /\ lang b s2
  | RAlt a b => lang a seg \/ lang b seg
  | RRep mn mx r =>
      exists parts, seg = concat parts /\ Forall (lang r) parts /\
        (mn <= length parts)%nat /\
        match mx with Some m => (length parts <= Nat.max mn m)%nat | None => True end
  | RCap _ r => lang r seg
  end.

(** The expressions of the capture groups. *)
Fixpoint groups (r : re) : list (nat * re) :=
  match r with
  | RCat a b | RAlt a b => groups a ++ groups b
  | RRep _ _ r => groups r
  | RCap n r => (n, r) :: groups r
  | _ => []
  end.

Fixpoint bytes (l : list tok) : nat :=
  match l with [] => 0%nat | t :: l' => (t_width t + bytes l')%nat end.

Lemma bytes_app a b : bytes (a ++ b) = (bytes a + bytes b)%nat.
Proof. induction a; simpl; lia. Qed.

Lemma raw_of_app a b : raw_of (a ++ b) = raw_of a +:+ raw_of b.
Proof. induction a; simpl; [done|]. by rewrite IHa, string_app_assoc. Qed.

Lemma length_raw_of l : String.length (raw_of l) = bytes l.
Proof. induction l; simpl; [done|]. rewrite string_app_length. unfold t_width. lia. Qed.

(** The cursor stands inside the input. *)
Definition cur_in (all : list tok) (c : cur) : Prop :=
  exists before, all = before ++ c_rest c /\ bytes before = c_pos c.

(** [c'] is [c] moved over [seg]. *)
Definition moved (c : cur) (seg : list tok) (c' : cur) : Prop :=
  c_rest c = seg ++ c_rest c' /\ c_pos c' = (c_pos c + bytes seg)%nat.

Lemma moved_refl c : moved c [] c.
Proof. split; simpl; [done|lia]. Qed.

Lemma moved_trans c1 s1 c2 s2 c3 :
  moved c1 s1 c2 -> moved c2 s2 c3 -> moved c1 (s1 ++ s2) c3.
Proof.
  intros [H1 P1] [H2 P2]. split.
  - by rewrite H1, H2, (assoc_L (++)).
  - rewrite P2, P1, bytes_app. lia.
Qed.

Lemma cur_in_moved all c seg c' : cur_in all c -> moved c seg c' -> cur_in all c'.
Proof.
  intros (before & -> & Hb) [Hr Hp]. exists (before ++ seg). split.
  - by rewrite Hr, (assoc_L (++)).
  - rewrite bytes_app. lia.
Qed.

(** A capture entry: it spans a piece of the input its group can consume. *)
Definition entry_ok (all : list tok) (gs : list (nat * re)) (e : nat * (nat * nat)) : Prop :=
  exists r pre seg post, In (fst e, r) gs /\ lang r seg /\ all = pre ++ seg ++ post /\
    bytes pre = fst (snd e) /\ (bytes pre + bytes seg)%nat = snd (snd e).

Lemma entry_ok_mono all gs gs' e : incl gs gs' -> entry_ok all gs e -> entry_ok all gs' e.
Proof. intros Hi (r & pre & seg & post & Hin & ?). exists r, pre, seg, post. auto. Qed.

(** What a successful sub-match hands to its continuation. *)
Definition yields {A} (all : list tok) (r : re) (c : cur) (cp : caps) (k : cont A) (x : A) :=
  exists c' new seg, k c' (new ++ cp) = Some x /\ moved c seg c' /\ lang r seg /\
    Forall (entry_ok all (groups r)) new.

Definition sound_at {A} (all : list tok) (r : re)
    (body : cur -> caps -> cont A -> option A) : Prop :=
  forall c cp k x, cur_in all c -> body c cp k = Some x -> yields all r c cp k x.

Lemma star_loop_sound {A} all r body (k : cont A) :
  sound_at all r body ->
  forall fuel mx c cp x, cur_in all c -> star_loop body k fuel mx c cp = Some x ->
  exists c' new parts, k c' (new ++ cp) = Some x /\ moved c (concat parts) c' /\
    Forall (lang r) parts /\ Forall (entry_ok all (groups r)) new /\
    match mx with Some m => (length parts <= m)%nat | None => True end.
Proof.
  intros Hb. induction fuel as [|f IH]; intros mx c cp x Hc Hs; simpl in Hs.
  { exists c, [], []. repeat split; auto using moved_refl; destruct mx; simpl; auto with lia. }
  assert (Hstop : k c cp = Some x ->
    exists c' new parts, k c' (new ++ cp) = Some x /\ moved c (concat parts) c' /\
      Forall (lang r) parts /\ Forall (entry_ok all (groups r)) new /\
      match mx with Some m => (length parts <= m)%nat | None => True end).
  { intros. exists c, [], []. repeat split; auto using moved_refl; destruct mx; simpl; auto with lia. }
  destruct mx as [[|m]|]; [by apply Hstop| |];
    (destruct (body c cp _) as [y|] eqn:E; [|by apply Hstop]; simplify_eq;
     apply Hb in E as (c1 & new1 & seg1 & E & M1 & L1 & F1); [|done];
     destruct (length (c_rest c1) <? length (c_rest c))%nat; [|done];
     apply IH in E as (c2 & new2 & parts & E & M2 & L2 & F2 & Hlen);
       [|by eapply cur_in_moved];
     exists c2, (new2 ++ new1), (seg1 :: parts); rewrite <- (assoc_L (++));
     repeat split; auto; try (by eapply moved_trans); try (by apply Forall_app);
     simpl in *; try lia; exact I).
Qed.

Lemma rep_loop_sound {A} all r body (k : cont A) :
  sound_at all r body ->
  forall mn mx c cp x, cur_in all c -> rep_loop body k mn mx c cp = Some x ->
  yields all (RRep mn mx r) c cp k x.
Proof.
  intros Hb. induction mn as [|mn IH]; intros mx c cp x Hc Hs.
  - apply (star_loop_sound _ _ _ _ Hb) in Hs as (c' & new & parts & E & M & L & F & Hl); [|done].
    exists c', new, (concat parts). repeat split; auto; try apply M.
    exists parts. repeat split; auto with lia.
  - cbn [rep_loop] in Hs. apply Hb in Hs as (c1 & new1 & seg1 & E & M1 & L1 & F1); [|done].
    apply IH in E as (c2 & new2 & seg2 & E & M2 & (parts & -> & L2 & Hmn & Hmx) & F2);
      [|by eapply cur_in_moved].
    exists c2, (new2 ++ new1), (seg1 ++ concat parts). rewrite <- (assoc_L (++)).
    repeat split; auto; try (by eapply moved_trans); try (by apply Forall_app).
    exists (seg1 :: parts). repeat split; auto; simpl; [lia|].
    destruct mx; simpl in *; auto; lia.
Qed.

(** A successful match consumed a piece of the input in the language of the
    expression, and every group it recorded spans such a piece. *)
Lemma re_match_sound {A} all r : @sound_at A all r (re_match r).
Proof.
  induction r as [| |cs|r1 IHr1 r2 IHr2|r1 IHr1 r2 IHr2|mn mx r IHr|n r IHr| | |];
    intros c cp k x Hc Hs; simpl in Hs.
  - done.
  - exists c, [], []. repeat split; auto; simpl; lia.
  - destruct (c_rest c) as [|t rest] eqn:E; [done|].
    destruct (cset_mem _ _) eqn:M; [|done].
    exists (step_cur c t rest), [], [t].
    repeat split; simpl; auto; try lia. by exists t.
  - apply IHr1 in Hs as (c1 & new1 & seg1 & E & M1 & L1 & F1); [|done].
    apply IHr2 in E as (c2 & new2 & seg2 & E & M2 & L2 & F2); [|by eapply cur_in_moved].
    exists c2, (new2 ++ new1), (seg1 ++ seg2). rewrite <- (assoc_L (++)).
    repeat split; auto; try (by eapply moved_trans).
    + by exists seg1, seg2.
    + apply Forall_app; split; eapply Forall_impl; eauto;
        intros; eapply entry_ok_mono; eauto; simpl; auto using incl_appl, incl_appr, incl_refl.
  - destruct (re_match r1 c cp k) eqn:E; simplify_eq.
    + apply IHr1 in E as (c1 & new1 & seg1 & E & M1 & L1 & F1); [|done].
      exists c1, new1, seg1. repeat split; auto; try apply M1; [by left|].
      eapply Forall_impl; eauto. intros; eapply entry_ok_mono; eauto; simpl.
      auto using incl_appl, incl_refl.
    + apply IHr2 in Hs as (c1 & new1 & seg1 & E1 & M1 & L1 & F1); [|done].
      exists c1, new1, seg1. repeat split; auto; try apply M1; [by right|].
      eapply Forall_impl; eauto. intros; eapply entry_ok_mono; eauto; simpl.
      auto using incl_appr, incl_refl.
  - by apply (rep_loop_sound all r (re_match r) k IHr) in Hs.
  - apply IHr in Hs as (c1 & new1 & seg1 & E & M1 & L1 & F1); [|done].
    exists c1, ((n, (c_pos c, c_pos c1)) :: new1), seg1.
    repeat split; auto; try apply M1. constructor.
    + destruct Hc as (before & Hall & Hb). destruct M1 as [Hr Hp].
      exists r, before, seg1, (c_rest c1). simpl. repeat split; auto; try congruence; lia.
    + eapply Forall_impl; eauto. intros; eapply entry_ok_mono; eauto; simpl.
      intros y Hy; by right.
  - destruct (c_prev c); [done|]. exists c, [], []. repeat split; auto; simpl; lia.
  - destruct (c_rest c) eqn:E; [|done]. exists c, [], []. repeat split; auto; simpl; rewrite ?E; auto; lia.
  - destruct (word_boundary c); [|done]. exists c, [], []. repeat split; auto; simpl; lia.
Qed.

Lemma cap_lookup_in cp n ab : cap_lookup cp n = Some ab -> In (n, ab) cp.
Proof.
  induction cp as [|[m e] cp IH]; simpl; [done|].
  destruct (Nat.eqb_spec m n); intros; simplify_eq; auto.
Qed.

(** A match of [r] in [all]: its span, and its groups' spans. *)
Definition match_ok (all : list tok) (r : re) (m : mtch) : Prop :=
  (exists pre seg post, all = pre ++ seg ++ post /\ lang r seg /\
     bytes pre = m_start m /\ (bytes pre + bytes seg)%nat = m_end m) /\
  Forall (entry_ok all (groups r)) (m_caps m).

Lemma match_at_sound all r c m :
  cur_in all c -> match_at r c = Some m -> match_ok all r m /\ m_start m = c_pos c.
Proof.
  intros Hc Hm. apply (re_match_sound all) in Hm as (c' & new & seg & E & [Hr Hp] & L & F); [|done].
  rewrite app_nil_r in E. simplify_eq. simpl. split; [|done]. split; [|done].
  destruct Hc as (before & Hall & Hb). exists before, seg, (c_rest c'). simpl.
  repeat split; auto; try congruence; lia.
Qed.

Lemma find_from_sound all r rest prev pos m :
  cur_in all (Cur prev rest pos) -> find_from r prev rest pos = Some m ->
  match_ok all r m /\ (pos <= m_start m)%nat.
Proof.
  revert prev pos. induction rest as [|t rest IH]; intros prev pos Hc Hf; simpl in Hf;
    destruct (match_at r _) eqn:E; simplify_eq;
    try (apply (match_at_sound all) in E as [? E]; [|done]; simpl in E; split; auto with lia).
  apply IH in Hf as [? ?]; [split; auto; lia|].
  destruct Hc as (before & Hall & Hb). simpl in *. exists (before ++ [t]).
  rewrite <- (assoc_L (++)). simpl. rewrite bytes_app. simpl. split; [done|lia].
Qed.

Lemma find_sound r s m : find r s = Some m -> match_ok (runes s) r m.
Proof. intros Hf. apply (find_from_sound (runes s)) in Hf as [? ?]; [done|]. by exists []. Qed.

Lemma seek_in all prev rest at_ pos :
  cur_in all (Cur prev rest at_) -> cur_in all (seek prev rest at_ pos).
Proof.
  revert prev at_. induction rest as [|t rest IH]; intros prev at_ Hc; simpl; [done|].
  destruct (pos <=? at_)%nat; [done|]. apply IH. destruct Hc as (before & Hall & Hb).
  exists (before ++ [t]). simpl in *. rewrite <- (assoc_L (++)), bytes_app. simpl. split; [done|lia].
Qed.

Lemma find_pos_sound r l pos m : find_pos r l pos = Some m -> match_ok l r m.
Proof.
  unfold find_pos. cbv zeta. intros Hf.
  assert (Hc : cur_in l (seek None l 0 pos)) by (apply seek_in; by exists []).
  destruct (seek None l 0 pos) as [prev rest p]. simpl in Hf.
  by apply (find_from_sound l) in Hf as [? _].
Qed.

Lemma find_all_loop_sound r l fuel len pos pe m :
  In m (find_all_loop fuel r l len pos pe) -> match_ok l r m.
Proof.
  revert pos pe. induction fuel as [|f IH]; intros pos pe Hin; simpl in Hin; [done|].
  destruct (len <? pos)%nat; [done|]. destruct (find_pos r l pos) as [m'|] eqn:E; [|done].
  apply in_app_or in Hin as [Hin|Hin]; [|by eapply IH].
  destruct (negb _); [|done]. destruct Hin as [<-|[]]. by eapply find_pos_sound.
Qed.

Lemma find_all_sound r s m : In m (find_all r s) -> match_ok (runes s) r m.
Proof. apply find_all_loop_sound. Qed.
End Lang.

(** ** The text of a group *)

Lemma substring_app_l a b n : String.substring (String.length a) n (a +:+ b) = String.substring 0 n b.
Proof. induction a; [done|]. by simpl. Qed.

Lemma substring_prefix a b : String.substring 0 (String.length a) (a +:+ b) = a.
Proof.
  induction a as [|c a IH]; [by destruct b|].
  change (String c (String.substring 0 (String.length a) (a +:+ b)) = String c a). by rewrite IH.
Qed.

Section GroupText.
Context `{Unicode}.

(** The text of a group that took part is spelled by tokens its expression
    can consume. *)
Lemma group_sound r s m n :
  match_ok (runes s) r m -> group_span m n <> None ->
  exists r' seg, In (n, r') (groups r) /\ lang r' seg /\ group s m n = raw_of seg /\
    Forall tok_ok seg.
Proof.
  intros [_ F] Hn. unfold group.
  destruct (group_span m n) as [[a b]|] eqn:E; [|done]. apply cap_lookup_in in E.
  rewrite List.Forall_forall in F. apply F in E as (r' & pre & seg & post & Hin & L & Hs & Ha & Hb).
  simpl in *. subst a b. exists r', seg. repeat split; auto.
  - unfold substr. rewrite <- (raw_of_runes s), Hs, !raw_of_app, <- !length_raw_of.
    rewrite substring_app_l. replace (_ - _)%nat with (String.length (raw_of seg)) by lia.
    apply substring_prefix.
  - pose proof (runes_ok s) as Hok. rewrite Hs in Hok. by apply Forall_app in Hok as [_ [? _]%Forall_app].
Qed.

Lemma lang_RRep_set mn mx cs seg :
  lang (RRep mn mx (RSet cs)) seg ->
  Forall (fun t => cset_mem cs (t_rune t) = true) seg /\ (mn <= length seg)%nat /\
  match mx with Some m => (length seg <= Nat.max mn m)%nat | None => True end.
Proof.
  intros (parts & -> & F & Hmn & Hmx).
  assert (length (concat parts) = length parts /\
          Forall (fun t => cset_mem cs (t_rune t) = true) (concat parts)) as [-> ?].
  { clear Hmn Hmx. induction F as [|p parts (t & -> & Ht) F [IH1 IH2]]; simpl; [done|].
    split; [lia|by constructor]. }
  repeat split; auto.
Qed.
End GroupText.

(** A run of ASCII digits is a decimal number. *)
Lemma digits_raw (seg : list tok) acc :
  Forall tok_ok seg -> Forall (fun t => is_ascii_digit (t_rune t) = true) seg ->
  String.length (raw_of seg) = length seg /\ is_Some (digits_value (raw_of seg) acc).
Proof.
  revert acc. induction seg as [|t seg IH]; intros acc Hok Hd; simpl; [by eauto|].
  apply Forall_cons in Hok as [[Hp Hraw] Hok]. apply Forall_cons in Hd as [Ht Hd].
  assert (Hr : 48 <= t_rune t <= 57) by (unfold is_ascii_digit in Ht; bool_prop; lia).
  rewrite Hraw by lia. simpl.
  assert (Hb := byte_at_of (t_rune t) ltac:(lia)).
  change ("" +:+ raw_of seg) with (raw_of seg). rewrite Hb, Ht. destruct (IH (acc * 10 + (t_rune t - 48)) Hok Hd). split; [lia|done].
Qed.

Lemma atoi_digits (seg : list tok) :
  Forall tok_ok seg -> Forall (fun t => is_ascii_digit (t_rune t) = true) seg ->
  (1 <= length seg <= 18)%nat ->
  0 <= atoi_val (raw_of seg) < 10 ^ Z.of_nat (length seg).
Proof.
  intros Hok Hd Hl. destruct (digits_raw seg 0 Hok Hd) as [Hlen [v Hv]].
  pose proof (digits_value_bound _ _ _ (Z.le_refl 0) Hv) as Hb. rewrite Hlen in Hb.
  assert (10 ^ Z.of_nat (length seg) <= 10 ^ 18) by (apply Z.pow_le_mono_r; lia).
  destruct seg as [|t seg]; [simpl in Hl; lia|].
  apply Forall_cons in Hok as [[Hp Hraw] _]. apply Forall_cons in Hd as [Ht _].
  unfold atoi_val, atoi. cbn [raw_of] in *.
  assert (Hr : 48 <= t_rune t <= 57) by (unfold is_ascii_digit in Ht; bool_prop; lia).
  rewrite Hraw in * by lia.
  change (String (byte_of (t_rune t)) "" +:+ raw_of seg) with (String (byte_of (t_rune t)) (raw_of seg)) in *.
  assert (Hbt := byte_at_of (t_rune t) ltac:(lia)).
  cbv beta iota. rewrite Hbt. destruct (Z.eqb_spec (t_rune t) 45); [lia|]. destruct (Z.eqb_spec (t_rune t) 43); [lia|].
  rewrite Hv. assert (v < 2 ^ 63).
  { apply Z.lt_le_trans with (10 ^ 18); [|by compute]. rewrite Z.mul_1_l in Hb. lia. }
  destruct (Z.ltb_spec v (- 2 ^ 63)); [lia|].
  destruct (Z.leb_spec (2 ^ 63) v); [lia|]. rewrite Z.mul_1_l in Hb. done.
Qed.

(** A set matching exactly the ASCII digits, whatever its fold flag. *)
Definition digit_set (c : cset) : bool :=
  negb (cs_neg c) && match cs_items c with [CDigit] => true | _ => false end.

(** [r] is [\d{mn,mx}] with [1 <= lo <= mn] and [mx <= top]. *)
Definition digit_run (lo top : nat) (r : re) : bool :=
  match r with
  | RSet c => digit_set c && (lo =? 1)%nat && (1 <=? top)%nat
  | RRep mn (Some mx) (RSet c) =>
      digit_set c && (1 <=? lo)%nat && (lo <=? mn)%nat && (mn <=? mx)%nat && (mx <=? top)%nat
  | _ => false
  end.

(** Every group numbered [n] is such a run. *)
Definition digit_group (lo top : nat) (r : re) (n : nat) : bool :=
  forallb (fun '(m, g) => negb (m =? n)%nat || digit_run lo top g) (groups r).

Section Digits.
Context `{Unicode}.

Lemma orbit_digit r : existsb is_ascii_digit (orbit r) = true -> is_ascii_digit r = true.
Proof.
  unfold orbit. destruct (ascii_upper r || ascii_lower r) eqn:E.
  { set (u := if ascii_upper r then r else r - 32).
    assert (Hu : 65 <= u <= 90).
    { subst u. unfold ascii_upper, ascii_lower in *. destruct ((65 <=? r) && (r <=? 90)) eqn:E1;
        simpl in E; bool_prop; lia. }
    intros (x & Hin & Hx)%existsb_exists. exfalso. clearbody u. clear E.
    unfold is_ascii_digit in Hx. bool_prop.
    destruct (u =? 75), (u =? 83); simpl in Hin; intuition lia. }
  destruct (Z.eqb_spec r 8490); [by subst|]. destruct (Z.eqb_spec r 383); [by subst|].
  destruct (r <? 128) eqn:E1; simpl; [by rewrite orb_false_r|].
  intros [|Hx]%orb_true_iff; [done|]. apply existsb_exists in Hx as (x & Hin & Hx).
  bool_prop. apply u_orbit_high in Hin; [|lia]. unfold is_ascii_digit in Hx. bool_prop. lia.
Qed.

Lemma orbit_digit_eq r d : In d (orbit r) -> is_ascii_digit d = true -> r = d.
Proof.
  intros Hin Hd. assert (Hr : is_ascii_digit r = true)
    by (apply orbit_digit, existsb_exists; eauto).
  unfold orbit, ascii_upper, ascii_lower, is_ascii_digit in *. bool_prop.
  replace ((65 <=? r) && (r <=? 90) || (97 <=? r) && (r <=? 122)) with false in Hin by lia.
  replace (r =? 8490) with false in Hin by lia. replace (r =? 383) with false in Hin by lia.
  replace (r <? 128) with true in Hin by lia. by destruct Hin.
Qed.

(** A literal digit matches itself only, in either case mode. *)
Lemma digit_lit_mem fold d r :
  is_ascii_digit d = true -> cset_mem (CSet false fold [CRange d d]) r = true -> r = d.
Proof.
  intros Hd. unfold cset_mem. simpl. rewrite orb_false_r. destruct fold.
  - intros (x & Hin & Hx)%existsb_exists. unfold item_mem in Hx. bool_prop.
    assert (x = d) as -> by lia.
    by apply orbit_digit_eq.
  - intros. bool_prop. lia.
Qed.

Lemma digit_set_mem c r : digit_set c = true -> cset_mem c r = true -> is_ascii_digit r = true.
Proof.
  unfold digit_set, cset_mem. destruct c as [neg fold its]; simpl. intros Hd Hm. bool_prop. subst.
  destruct its as [|[] [|]]; try done. simpl in Hm. rewrite orb_false_r in Hm.
  destruct fold; [by apply orbit_digit|done].
Qed.

Lemma digit_run_lang lo top r seg :
  digit_run lo top r = true -> lang r seg ->
  Forall (fun t => is_ascii_digit (t_rune t) = true) seg /\ (1 <= lo <= length seg)%nat /\ (length seg <= top)%nat.
Proof.
  assert (Himp : forall c seg, digit_set c = true ->
    Forall (fun t => cset_mem c (t_rune t) = true) seg ->
    Forall (fun t => is_ascii_digit (t_rune t) = true) seg).
  { intros c s Hc F. eapply Forall_impl; [exact F|]. simpl. eauto using digit_set_mem. }
  destruct r as [| |c| | |mn [mx|] []| | | |]; try done; cbn [digit_run]; intros Hd L; bool_prop.
  - destruct L as (t & -> & Ht).
    repeat match goal with
           | E : (_ <=? _)%nat = true |- _ => apply Nat.leb_le in E
           | E : (_ =? _)%nat = true |- _ => apply Nat.eqb_eq in E end.
    split; [repeat constructor; eauto using digit_set_mem|simpl; lia].
  - apply lang_RRep_set in L as (F & ? & ?).
    repeat match goal with E : (_ <=? _)%nat = true |- _ => apply Nat.leb_le in E end.
    split; [eauto|lia].
Qed.

(** A digit group reads as a number of at most [top] digits; a group that took
    no part reads as 0. *)
Lemma digit_group_text lo top r s m n :
  match_ok (runes s) r m -> digit_group lo top r n = true ->
  group s m n = "" \/
  exists seg, group s m n = raw_of seg /\ Forall tok_ok seg /\
    Forall (fun t => is_ascii_digit (t_rune t) = true) seg /\
    (1 <= lo <= length seg)%nat /\ (length seg <= top)%nat.
Proof.
  intros Hf Hd. destruct (group_span m n) eqn:E; [right|left; by unfold group; rewrite E].
  destruct (group_sound r s m n Hf) as (r' & seg & Hin & L & Hg & Hok); [by rewrite E|].
  exists seg. unfold digit_group in Hd. rewrite forallb_forall in Hd. apply Hd in Hin.
  rewrite Nat.eqb_refl in Hin. destruct (digit_run_lang lo top r' seg Hin L) as (? & ? & ?). auto.
Qed.

Lemma digit_group_bound lo top r s m n :
  match_ok (runes s) r m -> digit_group lo top r n = true -> (top <= 18)%nat ->
  0 <= atoi_val (group s m n) < 10 ^ Z.of_nat top.
Proof.
  intros Hf Hd Ht. destruct (digit_group_text lo top r s m n Hf Hd) as [->|(seg & -> & ? & ? & ? & ?)].
  - split; [done|]. apply Z.pow_pos_nonneg; lia.
  - assert (1 <= length seg <= 18)%nat by lia.
    pose proof (atoi_digits seg ltac:(done) ltac:(done) ltac:(done)).
    assert (10 ^ Z.of_nat (length seg) <= 10 ^ Z.of_nat top) by (apply Z.pow_le_mono_r; lia). lia.
Qed.
End Digits.
