(* ===== verification/Float64.v ===== *)
(** * IEEE-754 doubles

    Go's [float64] arithmetic, through the Standard Library's executable
    specification of binary floating point ([SpecFloat], precision 53, maximal
    exponent 1024), so that scores and ratios are the program's own values and
    not rationals standing for them.  Every operation rounds to nearest even;
    the compiler's permission to fuse a multiplication with an addition is not
    used on amd64, the platform modelled.

    The comparisons are proved to behave as a strict weak order away from NaN,
    and the ratios of small counts to compare as the rationals do. *)
From stdpp Require Import base list.
From Stdlib Require Import ZArith Lia.
From Stdlib Require Export SpecFloat.
From S2P Require Import Prelude.

Definition f64 : Type := spec_float.

Definition prec : Z := 53.
Definition emax : Z := 1024.

Definition fadd : f64 -> f64 -> f64 := SFadd prec emax.
Definition fsub : f64 -> f64 -> f64 := SFsub prec emax.
Definition fmul : f64 -> f64 -> f64 := SFmul prec emax.
Definition fdiv : f64 -> f64 -> f64 := SFdiv prec emax.
Definition flt : f64 -> f64 -> bool := SFltb.
Definition fle : f64 -> f64 -> bool := SFleb.
Definition feq : f64 -> f64 -> bool := SFeqb.
(** [a > b], [a >= b]. *)
Definition fgt (a b : f64) : bool := flt b a.
Definition fge (a b : f64) : bool := fle b a.

(** [float64(n)]. *)
Definition of_int (z : Z) : f64 := binary_normalize prec emax z 0 false.

(** A decimal constant: the double nearest to [num / den]. *)
Definition of_ratio (num den : Z) : f64 := fdiv (of_int num) (of_int den).

(** The builtin [min] on floats. *)
Definition fmin (a b : f64) : f64 :=
  match a, b with
  | S754_nan, _ | _, S754_nan => S754_nan
  | S754_zero s, S754_zero t => S754_zero (s || t)
  | _, _ => if flt b a then b else a
  end.

(** [int64(f)]: truncation; out of range, amd64 yields the smallest integer. *)
Definition to_i64 (f : f64) : Z :=
  let chk z := if (- 2 ^ 63 <=? z) && (z <? 2 ^ 63) then z else - 2 ^ 63 in
  match f with
  | S754_finite s m e =>
      let a := if 0 <=? e then Zpos m * 2 ^ e else Zpos m / 2 ^ (- e) in
      chk (if s then - a else a)
  | S754_zero _ => 0
  | _ => - 2 ^ 63
  end.

Definition is_nan (f : f64) : bool := match f with S754_nan => true | _ => false end.

Definition is_finite (f : f64) : bool :=
  match f with S754_zero _ | S754_finite _ _ _ => true | _ => false end.

(** ** Order

    A double that is not NaN has a place on a line: the key compares sign, then
    exponent, then mantissa, as [SFcompare] does. *)

Definition key (f : f64) : Z * Z * Z :=
  match f with
  | S754_infinity true => (-2, 0, 0)
  | S754_finite true m e => (-1, - e, Zneg m)
  | S754_zero _ => (0, 0, 0)
  | S754_finite false m e => (1, e, Zpos m)
  | S754_infinity false => (2, 0, 0)
  | S754_nan => (3, 0, 0)
  end.

Definition key_lt (a b : Z * Z * Z) : Prop :=
  let '(a1, a2, a3) := a in let '(b1, b2, b3) := b in
  a1 < b1 \/ (a1 = b1 /\ (a2 < b2 \/ (a2 = b2 /\ a3 < b3))).

Lemma flt_key a b :
  is_nan a = false -> is_nan b = false -> flt a b = true <-> key_lt (key a) (key b).
Proof.
  unfold flt, SFltb, SFcompare, key_lt.
  destruct a as [sa|sa| |sa ma ea], b as [sb|sb| |sb mb eb]; simpl; try done;
    intros _ _; destruct sa; try destruct sb; simpl; try (split; intros; lia || done);
    destruct (Z.compare_spec ea eb); simpl; try (split; intros; lia || done);
    rewrite ?Pos.compare_cont_spec; simpl;
    fold (Pos.compare ma mb);
    destruct (Pos.compare_spec ma mb); simpl; split; intros; try lia; try done.
Qed.

Lemma flt_irrefl a : flt a a = false.
Proof.
  destruct (is_nan a) eqn:E; [by destruct a|].
  apply not_true_iff_false. rewrite flt_key by done. unfold key_lt.
  destruct (key a) as [[? ?] ?]. lia.
Qed.

Lemma flt_asym a b : flt a b = true -> flt b a = false.
Proof.
  intros Hab. apply not_true_iff_false. intros Hba.
  destruct (is_nan a) eqn:Ea; [by destruct a|]. destruct (is_nan b) eqn:Eb; [by destruct a, b|].
  rewrite flt_key in Hab, Hba by done. unfold key_lt in *.
  destruct (key a) as [[? ?] ?], (key b) as [[? ?] ?]. lia.
Qed.

Lemma flt_trans a b c : flt a b = true -> flt b c = true -> flt a c = true.
Proof.
  intros Hab Hbc.
  assert (is_nan a = false /\ is_nan b = false /\ is_nan c = false) as (? & ? & ?).
  { repeat split; [by destruct a|by destruct a, b|by destruct b, c]. }
  rewrite flt_key in * by done. unfold key_lt in *.
  destruct (key a) as [[? ?] ?], (key b) as [[? ?] ?], (key c) as [[? ?] ?]. lia.
Qed.

(** Away from NaN, not being below is transitive too. *)
Lemma fge_trans a b c :
  is_nan a = false -> is_nan b = false -> is_nan c = false ->
  flt a b = false -> flt b c = false -> flt a c = false.
Proof.
  intros Ha Hb Hc Hab Hbc. apply not_true_iff_false.
  apply not_true_iff_false in Hab, Hbc. rewrite flt_key in * by done. unfold key_lt in *.
  destruct (key a) as [[? ?] ?], (key b) as [[? ?] ?], (key c) as [[? ?] ?]. lia.
Qed.

(** Equal doubles compare alike with everything. *)
Lemma feq_key a b :
  is_nan a = false -> is_nan b = false -> feq a b = true <-> key a = key b.
Proof.
  unfold feq, SFeqb, SFcompare.
  destruct a as [sa|sa| |sa ma ea], b as [sb|sb| |sb mb eb]; simpl; try done;
    intros _ _; destruct sa; try destruct sb; simpl; try (split; intros; simplify_eq; done);
    destruct (Z.compare_spec ea eb); simpl; try (split; intros; simplify_eq; lia || done);
    fold (Pos.compare ma mb);
    destruct (Pos.compare_spec ma mb); simpl; split; intros; simplify_eq; try lia; done.
Qed.

(** ** No NaN out of ordinary sums

    Rounding never makes a NaN: the mantissa it starts from stays non-negative
    through the shifts.  So sums and products with finite constants are never
    NaN, which is what makes scores comparable. *)

Lemma shr_m_nonneg mrs e n : 0 <= shr_m mrs -> 0 <= shr_m (fst (shr mrs e n)).
Proof.
  intros Hm. unfold shr. destruct n as [|p|p]; simpl; try done.
  assert (forall r, 0 <= shr_m r -> 0 <= shr_m (shr_1 r)) as H1.
  { intros [m r s]; simpl. by destruct m as [|[p'|p'|]|[p'|p'|]]. }
  revert mrs Hm. induction p as [p IH|p IH|]; intros mrs Hm; simpl; auto.
Qed.

Lemma shr_fexp_nonneg m e l : 0 <= m -> 0 <= shr_m (fst (shr_fexp prec emax m e l)).
Proof.
  intros Hm. unfold shr_fexp. apply shr_m_nonneg. by destruct l as [|[]].
Qed.

Lemma round_nearest_even_nonneg m l : 0 <= m -> 0 <= round_nearest_even m l.
Proof. intros. destruct l as [|[]]; simpl; try lia. destruct (Z.even m); lia. Qed.

Lemma binary_round_aux_not_nan s m e l : 0 <= m -> is_nan (binary_round_aux prec emax s m e l) = false.
Proof.
  intros Hm. unfold binary_round_aux.
  pose proof (shr_fexp_nonneg m e l Hm) as H1.
  destruct (shr_fexp prec emax m e l) as [r1 e1]. simpl in H1.
  pose proof (shr_fexp_nonneg _ e1 loc_Exact (round_nearest_even_nonneg _ (loc_of_shr_record r1) H1)) as H2.
  destruct (shr_fexp prec emax _ e1 loc_Exact) as [r2 e2]. simpl in H2.
  destruct (shr_m r2); [done|by destruct (_ <=? _)|lia].
Qed.

Lemma binary_round_not_nan s m e : is_nan (binary_round prec emax s m e) = false.
Proof.
  unfold binary_round. destruct (shl_align _ _ _). by apply binary_round_aux_not_nan.
Qed.

Lemma binary_normalize_not_nan m e s : is_nan (binary_normalize prec emax m e s) = false.
Proof. destruct m; [done|apply binary_round_not_nan..]. Qed.

Lemma of_int_not_nan n : is_nan (of_int n) = false.
Proof. apply binary_normalize_not_nan. Qed.

Lemma fadd_not_nan a b : is_nan a = false -> is_finite b = true -> is_nan (fadd a b) = false.
Proof.
  unfold fadd. destruct a as [[]|[]| |], b as [[]|[]| |]; try done.
  intros _ _. unfold SFadd. apply binary_normalize_not_nan.
Qed.

Lemma fsub_not_nan a b : is_nan a = false -> is_finite b = true -> is_nan (fsub a b) = false.
Proof.
  unfold fsub. destruct a as [[]|[]| |], b as [[]|[]| |]; try done.
  intros _ _. unfold SFsub. apply binary_normalize_not_nan.
Qed.

(** A finite constant that is not zero. *)
Definition is_constant (f : f64) : bool := match f with S754_finite _ _ _ => true | _ => false end.

Lemma fmul_not_nan a b : is_nan a = false -> is_constant b = true -> is_nan (fmul a b) = false.
Proof.
  unfold fmul. destruct a, b; try done. intros _ _. unfold SFmul. by apply binary_round_aux_not_nan.
Qed.

(** Zero plus anything is that thing. *)
Lemma fadd_zero_not_nan s b : is_nan b = false -> is_nan (fadd (S754_zero s) b) = false.
Proof. by destruct s, b as [[]| | |]. Qed.

Lemma flt_zero_or_not a : is_nan a = false -> flt a (S754_zero false) = false \/ flt a (S754_zero false) = true.
Proof. destruct (flt a (S754_zero false)); auto. Qed.

#[export] Hint Resolve of_int_not_nan fadd_not_nan fsub_not_nan fmul_not_nan : kuro.

(** ** [math.Log1p]

    Go's implementation (the FreeBSD algorithm: an argument reduction to
    [1 + x = 2^k (1 + f)] and a polynomial in [f / (2 + f)]), as amd64 runs it,
    for the finite non-negative arguments the program gives it. *)

Module Log1p.
(** A double by its bits. *)
Definition of_bits (z : Z) : f64 :=
  let s := Z.testbit z 63 in
  let e := Z.land (Z.shiftr z 52) 2047 in
  let m := Z.land z (2 ^ 52 - 1) in
  if e =? 0 then match m with Zpos p => S754_finite s p (-1074) | _ => S754_zero s end
  else match m + 2 ^ 52 with Zpos p => S754_finite s p (e - 1075) | _ => S754_zero s end.

(** The bits of a normal positive double: exponent field and fraction. *)
Definition exponent_of (f : f64) : Z :=
  match f with S754_finite _ m e => e + 52 | _ => 0 end.
Definition fraction_of (f : f64) : Z :=
  match f with S754_finite _ m _ => Z.land (Zpos m) (2 ^ 52 - 1) | _ => 0 end.

Definition one : f64 := Eval vm_compute in of_int 1.
Definition two : f64 := Eval vm_compute in of_int 2.
Definition half : f64 := Eval vm_compute in of_ratio 1 2.
Definition Sqrt2M1 : f64 := Eval vm_compute in of_bits 0x3fda827999fcef34.
Definition Small : f64 := Eval vm_compute in of_bits 0x3e20000000000000.
Definition Tiny : f64 := Eval vm_compute in of_ratio 1 (2 ^ 54).
Definition Two53 : f64 := Eval vm_compute in of_int (2 ^ 53).
Definition Ln2Hi : f64 := Eval vm_compute in of_bits 0x3fe62e42fee00000.
Definition Ln2Lo : f64 := Eval vm_compute in of_bits 0x3dea39ef35793c76.
Definition twoThirds : f64 := Eval vm_compute in of_ratio 66666666666666666 100000000000000000.
Definition Lp : list f64 := Eval vm_compute in
  map of_bits [0x3FE5555555555593; 0x3FD999999997FA04; 0x3FD2492494229359; 0x3FCC71C51D8E78AF;
               0x3FC7466496CB03DE; 0x3FC39A09D078C69F; 0x3FC2F112DF3E5244].

(** [Lp1 + z*(Lp2 + z*(... + z*Lp7))]. *)
Definition poly (z : f64) : f64 :=
  match rev Lp with
  | [] => S754_zero false
  | l7 :: rest => foldl (fun acc c => fadd c (fmul z acc)) l7 rest
  end.

(** The value once [1 + x = 2^k (1 + f)], with [c] the rounding correction. *)
Definition reduced (k : Z) (f c : f64) (iu : Z) : f64 :=
  let kf := of_int k in
  let hfsq := fmul (fmul half f) f in
  if iu =? 0 then
    if feq f (S754_zero false) then
      if k =? 0 then S754_zero false
      else fadd (fmul kf Ln2Hi) (fadd c (fmul kf Ln2Lo))
    else
      let r := fmul hfsq (fsub one (fmul twoThirds f)) in
      if k =? 0 then fsub f r
      else fsub (fmul kf Ln2Hi) (fsub (fsub r (fadd (fmul kf Ln2Lo) c)) f)
  else
    let s := fdiv f (fadd two f) in
    let z := fmul s s in
    let r := fmul z (poly z) in
    if k =? 0 then fsub f (fsub hfsq (fmul s (fadd hfsq r)))
    else
      let lo := fadd (fmul s (fadd hfsq r)) (fadd (fmul kf Ln2Lo) c) in
      fsub (fmul kf Ln2Hi) (fsub (fsub hfsq lo) f).

Definition log1p (x : f64) : f64 :=
  match x with
  | S754_nan => S754_nan
  | S754_infinity false => S754_infinity false
  | S754_zero s => S754_zero s
  | _ =>
      if flt x Tiny then x
      else if flt x Small then fsub x (fmul (fmul x x) half)
      else if flt x Sqrt2M1 then reduced 0 x (S754_zero false) 1
      else
        let big := negb (flt x Two53) in
        let u := if big then x else fadd one x in
        let k := exponent_of u in
        let c := if big then S754_zero false
                 else fdiv (if 0 <? k then fsub one (fsub u x) else fsub x (fsub u one)) u in
        let iu := fraction_of u in
        if iu <? 0x0006a09e667f3bcd
        then reduced k (fsub (of_bits (Z.lor iu 0x3ff0000000000000)) one) c iu
        else reduced (k + 1) (fsub (of_bits (Z.lor iu 0x3fe0000000000000)) one) c
               (Z.shiftr (2 ^ 52 - iu) 2)
  end.
End Log1p.
