(* ===== verification/Parse.v ===== *)
(** * Release names: internal/parse

    [release.go] reads a torrent's name by fansub and scene convention into a
    [Release]: group, season, part, episode or episode range, quality tags,
    subtitle languages and the show's title.  [language.go] names the subtitle
    languages a name claims, [video.go] the files a player opens.

    Every definition keeps the name of the Go function or variable it models,
    and every pattern is the source's, read by [Regex.compile]. *)
From stdpp Require Import base gmap strings list pretty.
From Stdlib Require Import ZArith Lia.
From S2P Require Import Prelude GoStr Regex.

(** ** video.go *)

Definition videoExt : list string :=
  [".mkv"; ".mp4"; ".avi"; ".ts"; ".m2ts"; ".webm"; ".mov"; ".m4v"; ".ogm"; ".wmv"].

Definition IsVideo `{Unicode} (name : string) : bool :=
  let lower := to_lower name in
  existsb (fun ext => has_suffix lower ext) videoExt.

Definition VideoExt (ext : string) : bool := existsb (String.eqb ext) videoExt.

(** A path's last element without its extension; a leading dot is no extension. *)
Definition BaseName (path : string) : string :=
  let path := replace_all path "\" "/" in
  let path := match last_index path "/" with
              | Some i => str_from path (S i) | None => path end in
  match last_index path "." with
  | Some (S i) => str_to path (S i)
  | _ => path
  end.

(** ** The patterns of release.go *)

Module Patterns.
Definition bracketed := Eval vm_compute in compile "[\[\(]([^\]\)]*)[\]\)]".
Definition leadGroup := Eval vm_compute in compile "^\[([^\]]+)\]".
Definition sceneGroup := Eval vm_compute in compile "-([A-Za-z0-9]+)$".
Definition crc32Re := Eval vm_compute in compile "(?i)^[0-9A-F]{8}$".
Definition resolution := Eval vm_compute in
  compile "(?i)(?:\b|_|BD|WEB|DVD|HDTV|Rip)(\d{3,4})[pi]\b|\b(\d{3,4})x(\d{3,4})\b".
Definition seasonEp := Eval vm_compute in compile "(?i)\bS(\d{1,2})\s*E(\d{1,4})\b".
Definition seasonEpSpan := Eval vm_compute in
  compile "(?i)\bS(\d{1,2})\s*E(\d{1,4})\s*[-~]\s*(?:S\d{1,2})?E?(\d{1,4})\b".
Definition bracketEp := Eval vm_compute in compile "\[(\d{1,4})(?:v(\d))?\]".
Definition dashEp := Eval vm_compute in compile "(?:^|\s)-\s*(\d{1,4})(?:v(\d))?(?:\s|$)".
Definition rangeEp := Eval vm_compute in
  compile "(?:^|[\s\(\[])(\d{1,4})\s*[-~]\s*(\d{1,4})(?:[\s\)\]]|$)".
Definition markedEp := Eval vm_compute in
  compile "(?i)(?:^|[\s._\-\[(])E(?:P|PISODE)?\.?\s*(\d{1,4})(?:v(\d))?\b".
Definition listedEp := Eval vm_compute in compile "(?i)\bE(\d{1,4})(?:[\s,]+E(\d{1,4}))+\b".
Definition seasonOnly := Eval vm_compute in
  compile "(?i)\b(?:S(\d{1,2})|Season\s*(\d{1,2}))\b|\b(\d)(?:nd|rd|th)\s*Season\b|\bS(\d{1,2})SP\d{1,4}(?:\s*-\s*\d{1,4})?\b".
Definition partOnly := Eval vm_compute in compile "(?i)\b(?:part|cour)\s*(\d{1,2}|IV|I{1,3})\b".
Definition bitDepthRe := Eval vm_compute in compile "(?i)\b(8|10)\s*-?\s*bits?\b|\bhi(10)p\b".
Definition extRe := Eval vm_compute in compile "(?i)\.(mkv|mp4|avi|ts|m2ts|webm)$".

Definition metaTokens : string :=
  "\d{3,4}[pi]|BD|BDRip|BDMV|Blu-?ray|Remux|WEB-?DL|WEB-?Rip|WEB|HDTV|TVRip|DVD|DVDRip|CR|HIDIVE|AMZN|NF|Baha|Funi|x26[45]|H\.?26[45]|HEVC|AVC|AV1|VP9|MPEG-?2|AAC|FLAC|Opus|E?-?AC-?3|DDP?|DTS|TrueHD|Dual|Multi|10-?bits?|8-?bits?|Hi10P|Complete|Batch".
Definition metaStart := Eval vm_compute in
  compile ("(?i)[\s._]+\b(" +:+ metaTokens +:+ ")\b").
Definition bareEp := Eval vm_compute in
  compile ("(?i)(?:^|[\s._])(?:(\d{2,3})(?:v(\d))?[\s._]+|(\d{2})(?:v(\d))?[\s._]*\[)(" +:+ metaTokens +:+ ")\b").
Definition dotSeparated := Eval vm_compute in compile "[._]".
Definition endAfterEp := Eval vm_compute in
  compile "(?i)((?:^|\s)-\s*\d{1,4}(?:v\d)?)\s+(?:end|final)\b".
Definition trailingNumeral := Eval vm_compute in
  compile "(?i)\s+(II|III|IV|V|VI|VII|VIII|IX|X|[2-9])[!?.]*$".
Definition altName := Eval vm_compute in compile "\s+[|/]\s+".

Definition dualAudio := Eval vm_compute in
  compile "(?i)\b(?:dual[\s-]?audio|multi[\s-]?audio|dual)\b".

Definition sources : list (re * string) := Eval vm_compute in
  [ (compile "bd\s*remux|blu-?ray\s*remux|remux", "BDRemux");
    (compile "\bbdrip\b|\bbd(?:_?\d{3,4}[pi])?\b|blu-?ray|\bbdmv\b", "BD");
    (compile "\bdvdrip\b|\bdvd\b", "DVD");
    (compile "web-?dl|web-?rip|\bweb(?:_?\d{3,4}[pi])?\b|\bcr\b|hidive|\bamzn\b|\bnf\b|\bbaha\b|funi", "WEB");
    (compile "\bhdtv\b|\btvrip\b|\bbs11\b|\bbs\d{1,2}\b|\btx\b", "TV") ].

Definition codecs : list (re * string) := Eval vm_compute in
  [ (compile "\bav1\b", "AV1");
    (compile "x\s*265|h\.?\s*265|hevc", "HEVC");
    (compile "x\s*264|h\.?\s*264|\bavc\b", "H264");
    (compile "\bmpeg-?2\b", "MPEG2");
    (compile "\bvp9\b", "VP9") ].

Definition audioCodecs : list (re * string) := Eval vm_compute in
  [ (compile "\be-?ac-?3\b|\bddp\b|dolby\s*digital\s*plus", "EAC3");
    (compile "\bac-?3\b", "AC3");
    (compile "\btruehd\b", "TrueHD");
    (compile "\bdts(?:-hd)?\b", "DTS");
    (compile "\bflac(?:\d(?:\.\d)?)?\b", "FLAC");
    (compile "\bopus(?:\d(?:\.\d)?)?\b", "Opus");
    (compile "\baac(?:\d(?:\.\d)?)?\b", "AAC") ].
End Patterns.
Import Patterns.

(** ** language.go *)

Module Language.
Definition subtitleMarkers : list (string * re) := Eval vm_compute in
  [ ("en", compile ("(?i)\b(?:eng(?:lish)?)[\s._-]*(?:sub(?:s|bed|title)?s?)\b" +:+
                    "|\bsub(?:s|title)?s?[\s._-]*\(?\s*eng?\b" +:+
                    "|\[eng?(?:lish)?\]" +:+
                    "|\bmulti[\s._-]*(?:sub|subtitle)s?\b|\bmultiple[\s._-]*subtitles?\b"));
    ("zh", compile ("简体|简繁|繁体|繁體|简日|繁日|中文|字幕组|双语|简中|繁中" +:+
                    "|(?i)\b(?:chs|cht|big5|gb_?jp|chinese)\b"));
    ("es", compile "(?i)\b(?:spa(?:nish)?|castellano|espa[nñ]ol|latino)[\s._-]*sub|\[esp?\]");
    ("pt", compile "(?i)\blegendado\b|\bpt-?br\b|\bportugu[eê]s\b");
    ("ru", compile "(?i)\brus(?:sian)?\b|русск|\[ru\]");
    ("ar", compile "(?i)\barabic\b|\bmutamer\b|مترجم");
    ("id", compile "(?i)\bindo(?:nesian?)?[\s._-]*sub\b");
    ("vi", compile "(?i)\bviet(?:sub|namese)\b");
    ("th", compile "(?i)\bthai[\s._-]*sub\b");
    ("ko", compile "(?i)\bkor(?:ean)?[\s._-]*sub\b|한국어");
    ("fr", compile "(?i)\b(?:vostfr|french|fre)[\s._-]*sub\b|\bvostfr\b");
    ("de", compile "(?i)\bger(?:man)?[\s._-]*sub\b|\bdeutsch\b");
    ("it", compile "(?i)\bita(?:lian)?[\s._-]*sub\b") ].

Definition hardSubbed := Eval vm_compute in
  compile "内嵌|硬字幕|(?i)\bhard[\s._-]?sub(?:bed|s)?\b".
End Language.
Import Language.

Definition detectSubtitles `{Unicode} (name : string) : list string * bool :=
  (omap (fun '(lang, r) => if matches r name then Some lang else None) subtitleMarkers,
   matches hardSubbed name).

(** ** release.go *)

Record Release := mkRelease {
  Raw : string;
  Title : string;
  Group : string;
  Season : Z;
  Part : Z;
  Episode : Z;
  EpisodeEnd : Z;
  Version : Z;
  Resolution : string;
  Source : string;
  Codec : string;
  BitDepth : Z;
  Audio : list string;
  DualAudio : bool;
  Subtitles : list string;
  HardSub : bool;
  Batch : bool;
  CRC32 : string;
  Extension : string;
}.

Section Parse.
Context `{Unicode}.

Definition HasSubtitleLanguage (r : Release) (langs : list string) : bool :=
  existsb (fun want => existsb (fun got => equal_fold want got) (Subtitles r)) langs.

Definition isResolution (s : string) : bool := matches resolution s.

Definition isDotSeparated (s : string) : bool :=
  (count s " " <? count s "." + count s "_")%nat.

Fixpoint firstMatch (lower : string) (table : list (re * string)) : string :=
  match table with
  | [] => ""
  | (r, name) :: table' => if matches r lower then name else firstMatch lower table'
  end.

Definition isBatch (lower : string) : bool :=
  existsb (contains lower)
    ["[batch]"; "(batch)"; "batch"; "complete"; "bd box"; "season 1-"; "s1-"].

(** A tag that says something else than a name: a checksum, a resolution or a
    quality token. *)
Definition is_tag (field : string) : bool :=
  matches crc32Re field || isResolution field || matches metaStart (" " +:+ field).

Definition detectGroup (work : string) : string :=
  match find leadGroup work with
  | Some m => trim_space (group work m 1)
  | None =>
      let stripped := trim_space (replace bracketed work " ") in
      match find sceneGroup stripped with
      | Some m => group stripped m 1
      | None =>
          let fix go (tokens : list mtch) : string :=
            match tokens with
            | [] => ""
            | tok :: tokens' =>
                let field := trim_space (group work tok 1) in
                if String.eqb field "" || (20 <? String.length field)%nat ||
                   contains_any field " ."
                then go tokens'
                else if is_tag field then go tokens'
                else field
            end in
          go (rev (find_all bracketed work))
      end
  end.

Definition romanParts (s : string) : Z :=
  if String.eqb s "I" then 1 else if String.eqb s "II" then 2
  else if String.eqb s "III" then 3 else if String.eqb s "IV" then 4 else 0.

Definition partNumber (work : string) : Z :=
  match find partOnly work with
  | None => 0
  | Some m =>
      let '(n, ok) := atoi (group work m 1) in
      if ok then n else romanParts (to_upper (group work m 1))
  end.

Definition PartOf (title : string) : Z := partNumber title.

Definition hasWordBefore (work : string) (idx : nat) : bool :=
  let head := str_to work idx in
  let head := match find leadGroup head with
              | Some m => str_from head (String.length (whole head m))
              | None => head
              end in
  has_letter head.

(** The six indexes bareEpisode returns: the match, the number, the version. *)
Record bare := Bare { b_start : nat; b_end : nat; b_num : nat * nat; b_ver : option (nat * nat) }.

Definition bareEpisode (work : string) : option bare :=
  let pick m :=
    match group_span m 1 with
    | Some num => Some (Bare (m_start m) (m_end m) num (group_span m 2))
    | None =>
        (fun num => Bare (m_start m) (m_end m) num (group_span m 4)) <$> group_span m 3
    end in
  let before m := match m_start m with O => None | S i => byte_index work i end in
  let fix go (ms : list mtch) : option bare :=
    match ms with
    | [] => None
    | m :: ms' =>
        match pick m with
        | None => go ms'
        | Some b =>
            if negb (hasWordBefore work (fst (b_num b))) then go ms'
            else if match before m with Some c => is_ascii_digit c | None => false end
            then go ms'
            else if match before m, byte_index work (m_start m) with
                    | Some c, Some 46 => in_cutset "hHxX" c
                    | _, _ => false
                    end
            then go ms'
            else Some b
        end
    end in
  go (find_all bareEp work).

(** The number and the version of "[05v2]". *)
Definition bracketEpisode (work : string) : option (string * string) :=
  let fix go (ms : list mtch) :=
    match ms with
    | [] => None
    | m :: ms' =>
        let num := group work m 1 in
        let n := atoi_val num in
        if (String.length num =? 4)%nat && (1900 <=? n) && (n <=? 2100) then go ms'
        else Some (num, group work m 2)
    end in
  go (find_all bracketEp work).

(** The season a name states with no episode: the first group that took part. *)
Definition statedSeason (work : string) : Z :=
  match find seasonOnly work with
  | None => 0
  | Some m =>
      let fix go (gs : list nat) :=
        match gs with
        | [] => 0
        | g :: gs' => if String.eqb (group work m g) "" then go gs'
                      else atoi_val (group work m g)
        end in
      go [1; 2; 3; 4]%nat
  end.

(** The last byte of a string, as a string. *)
Definition last_byte (s : string) : string := str_from s (pred (String.length s)).

(** The range of rangeEp when numbering takes it for a batch. *)
Definition rangeNumbers (work : string) (batch : bool) : option (Z * Z) :=
  match find rangeEp work with
  | None => None
  | Some m =>
      let lo := atoi_val (group work m 1) in
      let hi := atoi_val (group work m 2) in
      let span := whole work m in
      let separated := contains span " - " || contains span " ~ " in
      let lead := trim_right (str_to work (from_option fst 0%nat (group_span m 1))) " " in
      let opens := String.eqb lead "" || contains_any (last_byte lead) "-~([" in
      if (lo <? hi) && (batch || negb separated || opens) then Some (lo, hi) else None
  end.

Definition listedNumbers (work : string) : option (Z * Z) :=
  match find listedEp work with
  | None => None
  | Some m =>
      let lo := atoi_val (group work m 1) in
      let hi := atoi_val (group work m 2) in
      if lo <? hi then Some (lo, hi) else None
  end.

(** The number and version of a single episode, by the first form that has one. *)
Definition singleEpisode (work : string) : option (string * string) :=
  match find dashEp work with
  | Some m => Some (group work m 1, group work m 2)
  | None =>
      match find markedEp work with
      | Some m => Some (group work m 1, group work m 2)
      | None =>
          match bareEpisode work with
          | Some b =>
              Some (substr work (fst (b_num b)) (snd (b_num b)),
                    match b_ver b with Some (v0, v1) => substr work v0 v1 | None => "" end)
          | None => bracketEpisode work
          end
      end
  end.

(** (season, episode, end, version) *)
Definition numbering (work : string) (batch : bool) : Z * Z * Z * Z :=
  let span :=
    match find seasonEpSpan work with
    | Some m =>
        let season := atoi_val (group work m 1) in
        let episode := atoi_val (group work m 2) in
        let end_ := atoi_val (group work m 3) in
        if episode <? end_ then Some (season, episode, end_, 0) else None
    | None => None
    end in
  match span with
  | Some r => r
  | None =>
      match find seasonEp work with
      | Some m => (atoi_val (group work m 1), atoi_val (group work m 2), 0, 0)
      | None =>
          let season := statedSeason work in
          match rangeNumbers work batch with
          | Some (lo, hi) => (season, lo, hi, 0)
          | None =>
              match listedNumbers work with
              | Some (lo, hi) => (season, lo, hi, 0)
              | None =>
                  match singleEpisode work with
                  | Some (num, ver) =>
                      (season, atoi_val num, 0,
                       if String.eqb ver "" then 0 else atoi_val ver)
                  | None => (season, 0, 0, 0)
                  end
              end
          end
      end
  end.

Definition SeasonOf (title : string) : Z :=
  let '(season, _, _, _) := numbering title false in season.

Definition romanSeasons (s : string) : option Z :=
  let fix go l := match l with
                  | [] => None
                  | (k, v) :: l' => if String.eqb s k then Some v else go l'
                  end in
  go [("II", 2); ("III", 3); ("IV", 4); ("V", 5); ("VI", 6); ("VII", 7); ("VIII", 8);
      ("IX", 9); ("X", 10)].

Definition NumeralSeason (title : string) : Z * bool :=
  let cut title sep := match index title sep with
                       | Some (S i) => str_to title (S i) | _ => title end in
  let title := trim_space (cut (cut title ":") " - ") in
  match find trailingNumeral title with
  | None => (0, false)
  | Some m =>
      match romanSeasons (to_upper (group title m 1)) with
      | Some n => (n, true)
      | None => (atoi_val (group title m 1), false)
      end
  end.

Definition beforeEpisode (s : string) : string :=
  let fix go (res : list re) :=
    match res with
    | [] => s
    | r :: res' =>
        match find r s with
        | None => go res'
        | Some m =>
            if negb (has_letter (str_to s (m_start m))) then s
            else
              let rest := str_from s (m_end m) in
              match find altName rest with
              | Some alt => str_to s (m_end m) +:+ str_from rest (m_start alt)
              | None => str_to s (m_end m)
              end
        end
    end in
  go [seasonEp; dashEp; markedEp].

Definition bracketedTitle (work : string) (r : Release) : string :=
  let fix go (i : nat) (tokens : list mtch) :=
    match tokens with
    | [] => ""
    | tok :: tokens' =>
        let field := trim_space (group work tok 1) in
        if ((i =? 0)%nat && String.eqb field (Group r)) || negb (has_letter field)
        then go (S i) tokens'
        else if is_tag field then go (S i) tokens'
        else if match fst (detectSubtitles ("[" +:+ field +:+ "]")) with
                | [] => false | _ => true end
        then go (S i) tokens'
        else field
    end in
  go 0%nat (find_all bracketed work).

(** The work string without the bare episode number, when the release has one. *)
Definition withoutBare (work : string) (r : Release) : string :=
  match bareEpisode work with
  | Some b =>
      if 0 <? Episode r
      then
        let end_ := match b_ver b with Some (_, v1) => v1 | None => snd (b_num b) end in
        str_to work (b_start b) +:+ str_from work end_
      else work
  | None => work
  end.

(** The episode markers removed from a title. *)
Definition withoutEpisode (s : string) (r : Release) : string :=
  let s := replace seasonEpSpan s " " in
  let s := if (0 <? Episode r) && (EpisodeEnd r =? 0) then beforeEpisode s else s in
  let s := replace seasonEp s " " in
  let s := if 0 <? EpisodeEnd r then replace listedEp (replace rangeEp s " ") " " else s in
  let s := replace_fun endAfterEp s (fun m => group s m 1 +:+ " ") in
  let s := replace dashEp s " " in
  replace markedEp s " ".

Definition title (work : string) (r : Release) : string :=
  let work := withoutBare work r in
  let s := replace bracketed work " " in
  let s := if String.eqb (Group r) "" then s
           else trim_suffix (trim_space s) ("-" +:+ Group r) in
  let s := replace_all s "_" " " in
  let s := if isDotSeparated s then replace dotSeparated s " " else s in
  let s := if (0 <? Episode r) || Batch r then withoutEpisode s r else s in
  let s := if 0 <? Season r then replace seasonOnly s " " else s in
  let s := match find metaStart s with Some m => str_to s (m_start m) | None => s end in
  let out := trim (join (fields s) " ") " -_~," in
  if String.eqb out "" then bracketedTitle work r else out.

(** The last bracketed checksum, upper-cased. *)
Definition checksum (work : string) : string :=
  foldl (fun acc tok =>
           let field := trim_space (group work tok 1) in
           if matches crc32Re field && negb (isResolution field) then to_upper field else acc)
    "" (find_all bracketed work).

Definition resolutionOf (work : string) : string :=
  match find resolution work with
  | None => ""
  | Some m =>
      if negb (String.eqb (group work m 1) "") then group work m 1 +:+ "p"
      else if negb (String.eqb (group work m 3) "") then group work m 3 +:+ "p"
      else ""
  end.

(** The bit depth and the codec it implies. *)
Definition bitDepthOf (lower codec : string) : Z * string :=
  match find bitDepthRe lower with
  | None => (0, codec)
  | Some m =>
      if negb (String.eqb (group lower m 2) "")
      then (10, if String.eqb codec "" then "H264" else codec)
      else if negb (String.eqb (group lower m 1) "") then (atoi_val (group lower m 1), codec)
      else (0, codec)
  end.

Definition Parse (name : string) : Release :=
  let work := trim_space name in
  let '(ext, work) :=
    match find extRe work with
    | Some m => (to_lower (group work m 1), replace extRe work "")
    | None => ("", work)
    end in
  let work := if negb (contains work " ") && (2 <=? count work "_")%nat
              then replace_all work "_" " " else work in
  let lower := to_lower work in
  let '(subs, hard) := detectSubtitles name in
  let '(depth, codec) := bitDepthOf lower (firstMatch lower codecs) in
  let part := partNumber work in
  let batch := isBatch lower in
  let numbered := if 0 <? part then replace partOnly work " " else work in
  let '(season, episode, end_, version) := numbering numbered batch in
  let batch := if (0 <? season) && (episode =? 0) then true else batch in
  let batch := if episode <? end_ then true else batch in
  let r := {|
    Raw := name; Title := ""; Group := detectGroup work;
    Season := season; Part := part; Episode := episode; EpisodeEnd := end_;
    Version := version; Resolution := resolutionOf work;
    Source := firstMatch lower sources; Codec := codec; BitDepth := depth;
    Audio := omap (fun '(r, a) => if matches r lower then Some a else None) audioCodecs;
    DualAudio := matches dualAudio lower; Subtitles := subs; HardSub := hard;
    Batch := batch; CRC32 := checksum work; Extension := ext |} in
  {| Raw := Raw r; Title := title work r; Group := Group r; Season := Season r;
     Part := Part r; Episode := Episode r; EpisodeEnd := EpisodeEnd r;
     Version := Version r; Resolution := Resolution r; Source := Source r;
     Codec := Codec r; BitDepth := BitDepth r; Audio := Audio r;
     DualAudio := DualAudio r; Subtitles := Subtitles r; HardSub := HardSub r;
     Batch := Batch r; CRC32 := CRC32 r; Extension := Extension r |}.
End Parse.

(** ** Properties *)

Section Bounds.
Context `{Unicode}.

Lemma atoi_val_empty : atoi_val "" = 0.
Proof. done. Qed.

Lemma statedSeason_bound work : 0 <= statedSeason work <= 99.
Proof.
  unfold statedSeason. destruct (find seasonOnly work) as [m|] eqn:E; [|lia].
  cbv beta iota.
  pose proof (digit_group_bound 1 2 _ _ _ 1 (find_sound _ _ _ E) eq_refl ltac:(lia)) as B1.
  pose proof (digit_group_bound 1 2 _ _ _ 2 (find_sound _ _ _ E) eq_refl ltac:(lia)) as B2.
  pose proof (digit_group_bound 1 2 _ _ _ 3 (find_sound _ _ _ E) eq_refl ltac:(lia)) as B3.
  pose proof (digit_group_bound 1 2 _ _ _ 4 (find_sound _ _ _ E) eq_refl ltac:(lia)) as B4.
  simpl in B1, B2, B3, B4. repeat destruct (String.eqb _ _); lia.
Qed.

Lemma rangeNumbers_bound work batch lo hi :
  rangeNumbers work batch = Some (lo, hi) -> 0 <= lo < hi /\ hi <= 9999.
Proof.
  unfold rangeNumbers. destruct (find rangeEp work) as [m|] eqn:E; [|done]. cbv zeta.
  pose proof (digit_group_bound 1 4 _ _ _ 1 (find_sound _ _ _ E) eq_refl ltac:(lia)) as B1.
  pose proof (digit_group_bound 1 4 _ _ _ 2 (find_sound _ _ _ E) eq_refl ltac:(lia)) as B2.
  simpl in B1, B2. destruct (_ && _) eqn:C; [|done]. intros [= <- <-]. bool_prop. lia.
Qed.

Lemma listedNumbers_bound work lo hi :
  listedNumbers work = Some (lo, hi) -> 0 <= lo < hi /\ hi <= 9999.
Proof.
  unfold listedNumbers. destruct (find listedEp work) as [m|] eqn:E; [|done]. cbv zeta.
  pose proof (digit_group_bound 1 4 _ _ _ 1 (find_sound _ _ _ E) eq_refl ltac:(lia)) as B1.
  pose proof (digit_group_bound 1 4 _ _ _ 2 (find_sound _ _ _ E) eq_refl ltac:(lia)) as B2.
  simpl in B1, B2. destruct (_ <? _) eqn:C; [|done]. intros [= <- <-]. bool_prop. lia.
Qed.

(** What bareEpisode locates: a number and a version of the bareEp pattern. *)
Lemma bareEpisode_match work b :
  bareEpisode work = Some b ->
  exists m, match_ok (runes work) bareEp m /\
    ((group_span m 1 = Some (b_num b) /\ group_span m 2 = b_ver b) \/
     (group_span m 3 = Some (b_num b) /\ group_span m 4 = b_ver b)).
Proof.
  unfold bareEpisode. cbv zeta.
  assert (Hall : forall m, In m (find_all bareEp work) -> match_ok (runes work) bareEp m)
    by apply find_all_sound.
  revert Hall. induction (find_all bareEp work) as [|m ms IH]; intros Hall; [done|].
  cbv beta iota. intros Hb.
  assert (IH' := fun Hms => IH Hms). specialize (IH' ltac:(intros; apply Hall; by right)).
  destruct (group_span m 1) as [num|] eqn:E1.
  - repeat (destruct (if _ then _ else _) eqn:? in Hb || destruct (negb _) eqn:? in Hb).
    all: try (by apply IH').
    all: repeat match type of Hb with (if ?b then _ else _) = _ => destruct b end;
      try (by apply IH').
    all: injection Hb as <-; exists m; split; [apply Hall; by left|]; left; by rewrite E1.
  - destruct (group_span m 3) as [num|] eqn:E3; simpl in Hb; [|by apply IH'].
    repeat match type of Hb with (if ?b then _ else _) = _ => destruct b end;
      try (by apply IH').
    injection Hb as <-; exists m; split; [apply Hall; by left|]; right; by rewrite E3.
Qed.

Lemma singleEpisode_bound work num ver :
  singleEpisode work = Some (num, ver) ->
  0 <= atoi_val num <= 9999 /\ 0 <= atoi_val ver <= 9.
Proof.
  assert (Hg : forall r s m n k top, match_ok (runes s) r m ->
    digit_group 1 top r n = true -> (top <= 18)%nat -> k = 10 ^ Z.of_nat top - 1 ->
    0 <= atoi_val (group s m n) <= k).
  { intros r s m n k top Hm Hd Ht ->. pose proof (digit_group_bound 1 top r s m n Hm Hd Ht). lia. }
  unfold singleEpisode. destruct (find dashEp work) as [m|] eqn:E1.
  { intros [= <- <-]. split; [apply (Hg dashEp _ _ _ _ 4%nat)|apply (Hg dashEp _ _ _ _ 1%nat)];
      first [by apply find_sound|done|lia]. }
  destruct (find markedEp work) as [m|] eqn:E2.
  { intros [= <- <-]. split; [apply (Hg markedEp _ _ _ _ 4%nat)|apply (Hg markedEp _ _ _ _ 1%nat)];
      first [by apply find_sound|done|lia]. }
  destruct (bareEpisode work) as [b|] eqn:E3.
  - apply bareEpisode_match in E3 as (m & Hm & Hb). intros [= <- <-].
    assert (Htext : forall n ab, group_span m n = Some ab ->
              substr work (fst ab) (snd ab) = group work m n).
    { intros n [x y] Hn. unfold group. by rewrite Hn. }
    assert (Hver : forall n, group_span m n = b_ver b ->
              match b_ver b with Some (v0, v1) => substr work v0 v1 | None => "" end =
              group work m n).
    { intros n Hn. unfold group. rewrite Hn. by destruct (b_ver b) as [[? ?]|]. }
    destruct Hb as [[Hn Hv]|[Hn Hv]]; rewrite (Htext _ _ Hn), (Hver _ Hv).
    + pose proof (Hg bareEp work m 1%nat 999 3%nat Hm eq_refl ltac:(lia) eq_refl).
      pose proof (Hg bareEp work m 2%nat 9 1%nat Hm eq_refl ltac:(lia) eq_refl). lia.
    + pose proof (Hg bareEp work m 3%nat 999 3%nat Hm eq_refl ltac:(lia) eq_refl).
      pose proof (Hg bareEp work m 4%nat 9 1%nat Hm eq_refl ltac:(lia) eq_refl). lia.
  - unfold bracketEpisode. cbv zeta.
    assert (Hall : forall m, In m (find_all bracketEp work) -> match_ok (runes work) bracketEp m)
      by apply find_all_sound.
    revert Hall. induction (find_all bracketEp work) as [|m ms IH]; intros Hall; [done|].
    destruct (_ && _ && _).
    + apply IH. intros; apply Hall; by right.
    + intros [= <- <-]. assert (Hm : match_ok (runes work) bracketEp m) by (apply Hall; by left).
      pose proof (Hg bracketEp work m 1%nat 9999 4%nat Hm eq_refl ltac:(lia) eq_refl).
      pose proof (Hg bracketEp work m 2%nat 9 1%nat Hm eq_refl ltac:(lia) eq_refl). done.
Qed.

(** A number is 0 or in range, a range is increasing. *)
Definition numbers_ok (n : Z * Z * Z * Z) : Prop :=
  let '(season, episode, end_, version) := n in
  0 <= season <= 99 /\ 0 <= episode <= 9999 /\
  (end_ = 0 \/ episode < end_ <= 9999) /\ 0 <= version <= 9.

Lemma numbering_ok work batch : numbers_ok (numbering work batch).
Proof.
  pose proof (statedSeason_bound work) as Bs.
  assert (Hrest : numbers_ok
    match find seasonEp work with
    | Some m => (atoi_val (group work m 1), atoi_val (group work m 2), 0, 0)
    | None => match rangeNumbers work batch with
      | Some (lo, hi) => (statedSeason work, lo, hi, 0)
      | None => match listedNumbers work with
        | Some (lo, hi) => (statedSeason work, lo, hi, 0)
        | None => match singleEpisode work with
          | Some (num, ver) => (statedSeason work, atoi_val num, 0,
                                if String.eqb ver "" then 0 else atoi_val ver)
          | None => (statedSeason work, 0, 0, 0)
          end end end end).
  { destruct (find seasonEp work) as [m|] eqn:E2.
    { pose proof (digit_group_bound 1 2 _ _ _ 1 (find_sound _ _ _ E2) eq_refl ltac:(lia)) as B1.
      pose proof (digit_group_bound 1 4 _ _ _ 2 (find_sound _ _ _ E2) eq_refl ltac:(lia)) as B2.
      simpl in *. lia. }
    destruct (rangeNumbers work batch) as [[lo hi]|] eqn:E3.
    { apply rangeNumbers_bound in E3. simpl. lia. }
    destruct (listedNumbers work) as [[lo hi]|] eqn:E4.
    { apply listedNumbers_bound in E4. simpl. lia. }
    destruct (singleEpisode work) as [[num ver]|] eqn:E5; [|simpl; lia].
    apply singleEpisode_bound in E5. simpl. destruct (String.eqb ver ""); lia. }
  unfold numbering. destruct (find seasonEpSpan work) as [m|] eqn:E1; cbv zeta.
  - pose proof (digit_group_bound 1 2 _ _ _ 1 (find_sound _ _ _ E1) eq_refl ltac:(lia)) as B1.
    pose proof (digit_group_bound 1 4 _ _ _ 2 (find_sound _ _ _ E1) eq_refl ltac:(lia)) as B2.
    pose proof (digit_group_bound 1 4 _ _ _ 3 (find_sound _ _ _ E1) eq_refl ltac:(lia)) as B3.
    simpl in B1, B2, B3. destruct (_ <? _) eqn:C; [bool_prop; simpl; lia|].
    apply Hrest.
  - apply Hrest.
Qed.
End Bounds.

Section ParseProps.
Context `{Unicode}.

(** An upper-case letter other than K and S is reached from its own two cases
    only. *)
Lemma orbit_upper r d : In d (orbit r) -> 65 <= d <= 90 -> d <> 75 -> d <> 83 -> r = d \/ r = d + 32.
Proof.
  intros Hin Hd HK HS. unfold orbit in Hin.
  destruct (ascii_upper r || ascii_lower r) eqn:E.
  { unfold ascii_upper, ascii_lower in *. set (u := if (65 <=? r) && (r <=? 90) then r else r - 32) in *.
    assert (Hu : u = r /\ 65 <= u <= 90 \/ u = r - 32 /\ 65 <= u <= 90).
    { subst u. destruct ((65 <=? r) && (r <=? 90)) eqn:E1; lia. }
    clearbody u. clear E. destruct (u =? 75), (u =? 83); simpl in Hin; intuition lia. }
  destruct (r =? 8490) eqn:E2; [simpl in Hin; intuition lia|].
  destruct (r =? 383) eqn:E3; [simpl in Hin; intuition lia|].
  destruct (r <? 128) eqn:E4; [simpl in Hin; intuition lia|]. bool_prop.
  destruct Hin as [|Hin]; [lia|]. apply u_orbit_high in Hin; lia.
Qed.

(** A numeral's first letter, in either case, is no digit. *)
Lemma roman_not_number t seg fold :
  cset_mem (CSet false fold [CRange 73 73]) (t_rune t) = true -> tok_ok t ->
  snd (atoi (t_raw t +:+ raw_of seg)) = false.
Proof.
  intros Ht [Hp Hraw].
  assert (Hr : t_rune t = 73 \/ t_rune t = 105).
  { unfold cset_mem in Ht. simpl in Ht. rewrite orb_false_r in Ht. destruct fold; [|bool_prop; lia].
    apply existsb_exists in Ht as (x & Hin & Hx). unfold item_mem in Hx. bool_prop.
    assert (x = 73) as -> by lia. apply orbit_upper in Hin; lia. }
  rewrite Hraw by lia. destruct Hr as [-> | ->]; reflexivity.
Qed.

Lemma partNumber_bound work : 0 <= partNumber work <= 99.
Proof.
  unfold partNumber. destruct (find partOnly work) as [m|] eqn:E; [|lia].
  assert (Hr : forall s, 0 <= romanParts s <= 99)
    by (intros s; unfold romanParts; repeat destruct (String.eqb _ _); lia).
  destruct (group_span m 1) as [ab|] eqn:Es; [|unfold group; rewrite Es; by vm_compute].
  destruct (group_sound partOnly work m 1 (find_sound _ _ _ E)) as (r' & seg & Hin & L & Hg & Hok);
    [by rewrite Es|].
  rewrite Hg. destruct (atoi (raw_of seg)) as [n ok] eqn:Ea. destruct ok; [|apply Hr].
  simpl in Hin. destruct Hin as [[= <-]|[]].
  assert (Hn : n = atoi_val (raw_of seg)) by (unfold atoi_val; by rewrite Ea). subst n.
  destruct L as [L|[L|L]].
  - apply (digit_run_lang 1 2) in L as (? & ? & ?); [|done].
    pose proof (atoi_digits seg Hok ltac:(done) ltac:(lia)) as B.
    assert (10 ^ Z.of_nat (length seg) <= 10 ^ 2) by (apply Z.pow_le_mono_r; lia). lia.
  - exfalso. destruct L as (s1 & s2 & -> & (t & -> & Ht) & _). apply Forall_cons in Hok as [Hok _].
    apply (roman_not_number t s2 true) in Ht; [|done]. simpl in Ea. by rewrite Ea in Ht.
  - exfalso. apply lang_RRep_set in L as (F & Hl & _).
    destruct seg as [|t seg]; [simpl in Hl; lia|]. apply Forall_cons in F as [Ht _].
    apply Forall_cons in Hok as [Hok _].
    apply (roman_not_number t seg true) in Ht; [|done]. simpl in Ea. by rewrite Ea in Ht.
Qed.

Lemma bitDepthOf_values lower codec :
  let '(depth, codec') := bitDepthOf lower codec in
  (depth = 0 \/ depth = 8 \/ depth = 10) /\ (codec' = codec \/ (codec = "" /\ codec' = "H264")).
Proof.
  unfold bitDepthOf. destruct (find bitDepthRe lower) as [m|] eqn:E; [|auto].
  destruct (negb (String.eqb (group lower m 2) "")).
  { split; [auto|]. destruct (String.eqb_spec codec ""); auto. }
  destruct (negb (String.eqb (group lower m 1) "")) eqn:E1; [|auto]. split; [|auto].
  destruct (group_span m 1) as [ab|] eqn:Es; [|unfold group; rewrite Es; auto].
  destruct (group_sound bitDepthRe lower m 1 (find_sound _ _ _ E)) as (r' & seg & Hin & L & Hg & Hok);
    [by rewrite Es|].
  rewrite Hg. simpl in Hin. destruct Hin as [[= <-]|[[=]|[]]]. right. destruct L as [L|L].
  - left. destruct L as (t & -> & Ht). apply digit_lit_mem in Ht; [|done].
    apply Forall_cons in Hok as [[_ Hraw] _]. rewrite Ht in Hraw. simpl. by rewrite Hraw.
  - right. destruct L as (s1 & s2 & -> & (t1 & -> & H1) & (t2 & -> & H2)).
    apply digit_lit_mem in H1; [|done]. apply digit_lit_mem in H2; [|done].
    apply Forall_cons in Hok as [[_ Hraw1] [[_ Hraw2] _]%Forall_cons].
    rewrite H1 in Hraw1. rewrite H2 in Hraw2. simpl. by rewrite Hraw1, Hraw2.
Qed.

Lemma resolutionOf_form work :
  resolutionOf work = "" \/
  exists ds, resolutionOf work = ds +:+ "p" /\ (3 <= String.length ds <= 4)%nat /\
    is_Some (digits_value ds 0).
Proof.
  assert (Hg : forall m n, find resolution work = Some m ->
    digit_group 3 4 resolution n = true -> String.eqb (group work m n) "" = false ->
    exists ds, group work m n +:+ "p" = ds +:+ "p" /\ (3 <= String.length ds <= 4)%nat /\
      is_Some (digits_value ds 0)).
  { intros m n E Hd Hne. exists (group work m n).
    destruct (digit_group_text 3 4 _ _ _ _ (find_sound _ _ _ E) Hd)
      as [Hx|(seg & Hx & Hok & Hdig & ? & ?)]; [by rewrite Hx in Hne|].
    destruct (digits_raw seg 0 Hok Hdig) as [Hlen ?]. rewrite Hx. split; [done|]. split; [lia|done]. }
  unfold resolutionOf. destruct (find resolution work) as [m|] eqn:E; [|auto].
  destruct (String.eqb (group work m 1) "") eqn:E1; [|right; by apply Hg].
  destruct (String.eqb (group work m 3) "") eqn:E3; [auto|right; by apply Hg].
Qed.
End ParseProps.

Section ParseTheorems.
Context `{Unicode}.

(** What the rest of kuro may rely on in a parsed release. *)
Definition release_ok (r : Release) : Prop :=
  numbers_ok (Season r, Episode r, EpisodeEnd r, Version r) /\
  0 <= Part r <= 99 /\
  (BitDepth r = 0 \/ BitDepth r = 8 \/ BitDepth r = 10) /\
  (0 < Season r -> Episode r = 0 -> Batch r = true) /\
  (0 < EpisodeEnd r -> Batch r = true).

(** Parsing keeps the name it was given and yields a well-formed release:
    season at most 99, episode at most 9999, version at most 9, an episode end
    that is 0 or lies after the episode, part at most 99, bit depth 0, 8 or 10;
    and a season without an episode, or a range of episodes, is a batch. *)
Theorem Parse_ok (name : string) : Raw (Parse name) = name /\ release_ok (Parse name).
Proof.
  unfold Parse. cbv zeta. destruct (match find extRe _ with Some _ => _ | None => _ end) as [ext w].
  set (work := if _ && _ then _ else w). clearbody work.
  destruct (detectSubtitles name) as [subs hard].
  pose proof (bitDepthOf_values (to_lower work) (firstMatch (to_lower work) codecs)) as Hd.
  destruct (bitDepthOf _ _) as [depth codec].
  set (numbered := if 0 <? partNumber work then _ else _).
  pose proof (numbering_ok numbered (isBatch (to_lower work))) as Hn.
  destruct (numbering _ _) as [[[season episode] end_] version]. unfold release_ok; simpl.
  split; [done|]. split; [done|]. split; [apply partNumber_bound|]. split; [apply Hd|].
  split; intros; destruct (episode <? end_) eqn:E; bool_prop; try done; simpl in Hn.
  - destruct ((0 <? season) && (episode =? 0)) eqn:E2; [done|].
    apply andb_false_iff in E2 as [?|?]; bool_prop; lia.
  - lia.
Qed.

(** The resolution read from a name is empty or three to four digits
    followed by "p", whatever the name spells ("1080i", "1920x1080", "BD1080p"). *)
Theorem Parse_resolution (name : string) :
  Resolution (Parse name) = "" \/
  exists ds, Resolution (Parse name) = ds +:+ "p" /\ (3 <= String.length ds <= 4)%nat /\
    is_Some (digits_value ds 0).
Proof.
  unfold Parse. cbv zeta. destruct (match find extRe _ with Some _ => _ | None => _ end) as [ext w].
  destruct (detectSubtitles name). destruct (bitDepthOf _ _).
  destruct (numbering _ _) as [[[? ?] ?] ?]. simpl. apply resolutionOf_form.
Qed.

(** The bracket that names a group when nothing else does is no quality tag. *)
Definition group_like (field : string) : Prop :=
  is_tag field = false /\ (String.length field <= 20)%nat /\ contains_any field " ." = false.

(** With no leading bracket and no scene suffix, the group is empty or the
    content of a bracket that is neither a checksum, nor a resolution, nor a
    quality tag, has no space or dot and at most 20 bytes. *)
Theorem detectGroup_bracket (work : string) :
  find leadGroup work = None ->
  find sceneGroup (trim_space (replace bracketed work " ")) = None ->
  detectGroup work = "" \/
  (group_like (detectGroup work) /\
   exists m, In m (find_all bracketed work) /\ detectGroup work = trim_space (group work m 1)).
Proof.
  intros E1 E2. unfold detectGroup. rewrite E1, E2. cbv zeta.
  assert (Hin : forall m, In m (rev (find_all bracketed work)) -> In m (find_all bracketed work))
    by (intros m; apply in_rev).
  revert Hin. induction (rev (find_all bracketed work)) as [|m ms IH]; intros Hin; [by left|].
  assert (IH' := IH (fun x Hx => Hin x (or_intror Hx))). clear IH.
  destruct (_ || _ || _) eqn:E3; [done|]. destruct (is_tag _) eqn:E4; [done|].
  bool_prop. right. split.
  - repeat split; auto. by apply Nat.ltb_ge.
  - exists m. split; [apply Hin; by left|done].
Qed.
End ParseTheorems.

#[local] Existing Instance ascii_unicode.

Lemma detectGroup_bracket_witness :
  let work := "Some Show - 05 (1080p) [ASW]" in
  find leadGroup work = None /\ find sceneGroup (trim_space (replace bracketed work " ")) = None /\
  (detectGroup work = "" \/
   (group_like (detectGroup work) /\ exists m, In m (find_all bracketed work) /\
      detectGroup work = trim_space (group work m 1))).
Proof.
  cbv zeta. split; [vm_compute; reflexivity|]. split; [vm_compute; reflexivity|].
  apply (detectGroup_bracket "Some Show - 05 (1080p) [ASW]"); vm_compute; reflexivity.
Defined.

(** The repository's own cases, evaluated. *)
Example Parse_single :
  let r := Parse "[Group] Some Show - 05v2 (1080p) [DEADBEEF].mkv" in
  (Title r, Group r, Episode r, Version r, Resolution r, CRC32 r, Extension r) =
  ("Some Show", "Group", 5, 2, "1080p", "DEADBEEF", "mkv").
Proof. by vm_compute. Qed.

Example Parse_scene :
  let r := Parse "Some Show - S01E04 1080p CR WEB-DL DUAL AAC2.0 H.264-VARYG" in
  (Title r, Group r, Season r, Episode r, Source r, Codec r, Audio r, DualAudio r) =
  ("Some Show", "VARYG", 1, 4, "WEB", "H264", ["AAC"], true).
Proof. by vm_compute. Qed.

Example Parse_range_not_batch :
  let r := Parse "[Group] Steins;Gate 0 - 03 [1080p].mkv" in
  (Title r, Episode r, EpisodeEnd r, Batch r) = ("Steins;Gate 0", 3, 0, false).
Proof. by vm_compute. Qed.

Example Parse_listed :
  let r := Parse "Some Show [E41 E42 E43] [1080p DCPrip][AV1][OPUS]" in
  (Title r, Episode r, EpisodeEnd r, Batch r) = ("Some Show", 41, 43, true).
Proof. by vm_compute. Qed.
