(* ===== verification/Film.v ===== *)
(** * Films of one series: internal/film

    [film.go] tells the films of a series apart by the words of their subtitles
    and by the number they are catalogued under.  A [Key] holds one film's
    distinctive words against its siblings'; [judge] reads a release or file
    name into a verdict, [Pick] chooses the film's file in a torrent. *)
From stdpp Require Import base gmap strings list sets pretty.
From Stdlib Require Import ZArith Lia Permutation Sorted.
From S2P Require Import Prelude GoStr Regex Float64 Parse.

(** ** Data *)

Record Entry := mkEntry { e_titles : list string }.

Record Key := mkKey {
  k_number : Z;
  k_count : Z;
  k_own : list (list string);
  k_others : list (list (list string));
}.

Inductive Verdict := Unknown | Ours | Other.

#[export] Instance Verdict_eq_dec : EqDecision Verdict.
Proof. solve_decision. Defined.

Record File := mkFile { f_name : string; f_length : Z }.

(** ** Patterns *)

Module FilmPatterns.
Definition split := Eval vm_compute in compile "[^\p{L}\p{N}]+".
Definition square := Eval vm_compute in compile "\[[^\]]*\]".
Definition round := Eval vm_compute in compile "\(([^)]*)\)".
Definition digits := Eval vm_compute in compile "^\d{1,2}$".
Definition layout := Eval vm_compute in
  compile "(?i)(?:aac|flac|ac3|e-?ac-?3|dts(?:-?hd)?|opus|ddp?|truehd|l?pcm|ma)[\s._-]*\d\.\d".
Definition spanned := Eval vm_compute in
  compile "(?:^|[\s_])\d{1,2}\s*[-~]\s*\d{1,2}(?:$|[\s_])".
Definition marker := Eval vm_compute in
  compile "(?i)\b(?:chapter|movie|film|vol(?:ume)?)\.?\s*(\d{1,2})\b".
Definition alone := Eval vm_compute in
  compile "(?:^|[\s_-])(\d{1,2})(?:\.(\d))?(?:v\d)?(?:$|[\s_:-])".
End FilmPatterns.

Definition stop : list string :=
  ["the"; "and"; "with"; "from"; "part"; "movie"; "film"; "chapter"; "season";
   "gekijouban"; "complete"; "series"].

Definition mem_str (w : string) (l : list string) : bool := existsb (String.eqb w) l.

Section Film.
Context `{Unicode}.

(** ** Words *)

Definition tokens (name : string) : gset string :=
  list_to_set (List.filter (fun w => negb (String.eqb w ""))
                 (re_split FilmPatterns.split (to_lower name))).

Definition distinctive (title : string) : list string :=
  foldl (fun out w =>
           if (length (runes w) <? 4)%nat || mem_str w stop || mem_str w out then out
           else if snd (atoi w) then out
           else out ++ [w])
    [] (re_split FilmPatterns.split (to_lower title)).

(** The chapter a catalogue title names outright. *)
Definition stated (title : string) : Z :=
  match find FilmPatterns.marker title with
  | Some m => atoi_val (group title m 1)
  | None => 0
  end.

(** The film a name is numbered as, and whether it is a fraction ("6.5"). *)
Definition Number (name : string) : Z * bool :=
  match find FilmPatterns.marker name with
  | Some m => (atoi_val (group name m 1), false)
  | None =>
      let s := replace FilmPatterns.square name " " in
      let s := replace_fun FilmPatterns.round s (fun m =>
                 let g := whole s m in
                 let inner := trim_space (substr g 1 (pred (String.length g))) in
                 if matches FilmPatterns.digits inner then " " +:+ inner +:+ " " else " ") in
      let s := replace FilmPatterns.layout s " " in
      if matches FilmPatterns.spanned s then (0, false)
      else
        match find FilmPatterns.alone s with
        | None => (0, false)
        | Some m =>
            let n := atoi_val (group s m 1) in
            let frac := group s m 2 in
            if negb (String.eqb frac "") && negb (String.eqb frac "0") then (0, true)
            else (n, false)
        end
  end.

(** ** The key of one film against its series *)

(** How many entries carry the word in one of their titles. *)
Definition seen (all : list Entry) (w : string) : Z :=
  Z.of_nat (length (List.filter (fun e => existsb (fun t => mem_str w (distinctive t)) (e_titles e)) all)).

Definition common (all : list Entry) (w : string) : bool :=
  (2 <=? seen all w) && (Z.of_nat (length all) <=? seen all w * 2).

Definition sets (all : list Entry) (e : Entry) : list (list string) :=
  List.filter (fun words => (0 <? length words)%nat)
    (map (fun t => List.filter (fun w => negb (common all w)) (distinctive t)) (e_titles e)).

Fixpoint first_stated (titles : list string) : Z :=
  match titles with
  | [] => 0
  | t :: titles' => if 0 <? stated t then stated t else first_stated titles'
  end.

Definition New (own : Entry) (siblings : list Entry) : Key :=
  let all := own :: siblings in
  {| k_number := first_stated (e_titles own);
     k_count := Z.of_nat (length all);
     k_own := sets all own;
     k_others := map (sets all) siblings |}.

(** ** Judging a name *)

Record evidence := mkEvidence { ratio : f64; hits : Z }.

Definition no_evidence : evidence := mkEvidence (S754_zero false) 0.

Definition beats (e o : evidence) : bool :=
  fgt (ratio e) (ratio o) || (feq (ratio e) (ratio o) && (hits o <? hits e)).

(** The words of [t] the name carries, as a share of [t]. *)
Definition evidence_of (t : list string) (words : gset string) : evidence :=
  let h := Z.of_nat (length (List.filter (fun w => bool_decide (w ∈ words)) t)) in
  mkEvidence (fdiv (of_int h) (of_int (Z.of_nat (length t)))) h.

Definition half : f64 := of_ratio 1 2.

Definition fit (titles : list (list string)) (words : gset string) : evidence :=
  foldl (fun best t =>
           let e := evidence_of t words in
           if (0 <? hits e) && fge (ratio e) half && beats e best then e else best)
    no_evidence titles.

(** The best evidence for any sibling. *)
Definition theirs_of (k : Key) (words : gset string) : evidence :=
  foldl (fun best o => let e := fit o words in if beats e best then e else best)
    no_evidence (k_others k).

Definition judge (k : Key) (name : string) : Verdict * Z :=
  let words := tokens name in
  let ours := fit (k_own k) words in
  let theirs := theirs_of k words in
  let '(num, fractional) := Number name in
  let agrees := (0 <? k_number k) && (num =? k_number k) in
  let disagrees := (0 <? k_number k) && (0 <? num) && negb (num =? k_number k) in
  if (0 <? hits ours) && beats ours theirs then (Ours, if agrees then 3 else 2)
  else if beats theirs ours then (Other, 0)
  else if 0 <? hits ours then (if agrees then (Ours, 3) else (Other, 0))
  else if fractional || disagrees then (Other, 0)
  else if agrees then (Ours, 1)
  else (Unknown, 0).

Definition Match (k : Key) (name : string) : Verdict := fst (judge k name).

Definition Named (k : Key) (name : string) : bool :=
  let '(v, grade) := judge k name in bool_decide (v = Ours) && (2 <=? grade).

(** ** Picking a file *)

Definition file_at (files : list File) (i : nat) : File := nth i files (mkFile "" 0).
Definition length_at (files : list File) (i : nat) : Z := f_length (file_at files i).

(** The indexes of the files a player opens. *)
Definition videos_of (files : list File) : list nat :=
  List.filter (fun i => IsVideo (f_name (file_at files i))) (List.seq 0 (length files)).

(** The best grade, its first file, and the later files of the same grade. *)
Definition pick_step (k : Key) (files : list File) (floor : Z)
    (st : option nat * Z * list nat) (i : nat) : option nat * Z * list nat :=
  let '(best, grade, tied) := st in
  let '(v, g) := judge k (BaseName (f_name (file_at files i))) in
  if negb (bool_decide (v = Ours)) || ((g =? 1) && (length_at files i <? floor)) then st
  else if grade <? g then (Some i, g, [])
  else if g =? grade then (best, grade, tied ++ [i])
  else st.

Definition Pick (k : Key) (files : list File) : option nat * bool :=
  let videos := videos_of files in
  match videos with
  | [] => (None, false)
  | [v] => (Some v, negb (bool_decide (Match k (BaseName (f_name (file_at files v))) = Other)))
  | _ =>
      let lengths := sort_by Z.ltb (map (length_at files) videos) in
      let floor := i64_div (nth (length lengths / 2) lengths 0) 4 in
      let '(best, _, tied) := foldl (pick_step k files floor) (None, 0, []) videos in
      match best with
      | None => (None, false)
      | Some b =>
          let order := sort_by (fun x y => length_at files y <? length_at files x) (tied ++ [b]) in
          match order with
          | [t0] => (Some t0, true)
          | t0 :: t1 :: _ =>
              if (length_at files t1 <? floor) ||
                 (i64_mul (length_at files t1) 4 <=? length_at files t0)
              then (Some t0, true) else (Some b, false)
          | [] => (Some b, false)
          end
      end
  end.
End Film.

(** ** Evidence is ordered

    [beats] compares ratio first, then the number of words.  The ratios [fit]
    produces are never NaN, and away from NaN it is a strict weak order. *)

Definition proper (e : evidence) : Prop := is_nan (ratio e) = false.

Lemma beats_spec e o :
  proper e -> proper o ->
  beats e o = true <->
  key_lt (key (ratio o)) (key (ratio e)) \/ (key (ratio e) = key (ratio o) /\ hits o < hits e).
Proof.
  intros He Ho. unfold beats, fgt.
  rewrite orb_true_iff, andb_true_iff, flt_key, feq_key, Z.ltb_lt by done. done.
Qed.

Lemma beats_irrefl e : beats e e = false.
Proof.
  unfold beats, fgt. rewrite flt_irrefl, Z.ltb_irrefl. by rewrite andb_false_r.
Qed.

Lemma beats_asym e o : proper e -> proper o -> beats e o = true -> beats o e = false.
Proof.
  intros He Ho. rewrite beats_spec by done. intros Hb. apply not_true_iff_false.
  rewrite beats_spec by done. unfold key_lt in *.
  destruct (key (ratio e)) as [[??]?], (key (ratio o)) as [[??]?].
  intros [?|[? ?]]; destruct Hb as [?|[? ?]]; simplify_eq; lia.
Qed.

(** Not being beaten is transitive, so is beating one that is not beaten. *)
Lemma beats_weak a b c :
  proper a -> proper b -> proper c ->
  beats a b = true -> beats c b = false -> beats a c = true.
Proof.
  intros Ha Hb Hc. rewrite <- not_true_iff_false, !beats_spec by done. unfold key_lt.
  destruct (key (ratio a)) as [[a1 a2] a3], (key (ratio b)) as [[b1 b2] b3],
    (key (ratio c)) as [[c1 c2] c3].
  intros H1 H2.
  destruct (decide (c1 = b1 /\ c2 = b2 /\ c3 = b3)) as [(-> & -> & ->)|Hne].
  - destruct H1 as [?|[[= -> -> ->] ?]]; [left; lia|].
    destruct (decide (hits b < hits c)); [exfalso; apply H2; right; done|right; split; [done|lia]].
  - assert (c1 < b1 \/ c1 = b1 /\ (c2 < b2 \/ c2 = b2 /\ c3 < b3)).
    { destruct (decide (c1 < b1 \/ c1 = b1 /\ (c2 < b2 \/ c2 = b2 /\ c3 < b3))); [done|].
      exfalso. apply H2. left. lia. }
    left. destruct H1 as [?|[[= -> -> ->] ?]]; lia.
Qed.

(** Taking the best of a list, as [fit] and [theirs_of] do. *)
Definition best_of {A} (f : A -> evidence) (ok : A -> bool) (l : list A) (acc : evidence) : evidence :=
  foldl (fun best t => if ok t && beats (f t) best then f t else best) acc l.

Lemma best_of_in {A} (f : A -> evidence) ok l acc :
  best_of f ok l acc = acc \/ exists t, t ∈ l /\ ok t = true /\ best_of f ok l acc = f t.
Proof.
  unfold best_of. revert acc. induction l as [|t l IH]; intros acc; simpl; [by left|].
  destruct (IH (if ok t && beats (f t) acc then f t else acc)) as [->|(u & Hu & Hok & ->)].
  - destruct (ok t) eqn:Hok; simpl; [|by left].
    destruct (beats (f t) acc); [|by left].
    right. exists t. split; [left|done].
  - right. exists u. split; [by right|done].
Qed.

Lemma best_of_acc {A} (f : A -> evidence) ok l acc :
  proper acc -> (forall t, t ∈ l -> ok t = true -> proper (f t)) ->
  proper (best_of f ok l acc) /\ beats acc (best_of f ok l acc) = false.
Proof.
  intros Hacc Hl.
  assert (proper (best_of f ok l acc)) as Hp.
  { destruct (best_of_in f ok l acc) as [->|(t & ? & ? & ->)]; auto. }
  split; [done|]. revert acc Hacc Hl Hp. unfold best_of.
  induction l as [|t l IH]; intros acc Hacc Hl Hp; simpl in *; [apply beats_irrefl|].
  destruct (ok t && beats (f t) acc) eqn:E.
  - bool_prop. assert (proper (f t)) by (apply Hl; [left|done]).
    apply not_true_iff_false. intros Hb.
    assert (beats (f t) (foldl (fun best u => if ok u && beats (f u) best then f u else best) (f t) l) = false)
      as Hn.
    { apply IH; [done| |done]. intros; apply Hl; [by right|done]. }
    pose proof (beats_weak _ _ _ Hacc Hp ltac:(done) Hb Hn) as Hlt.
    rewrite (beats_asym acc (f t)) in *; done.
  - apply IH; [done| |done]. intros; apply Hl; [by right|done].
Qed.

Lemma best_of_max {A} (f : A -> evidence) ok l acc t :
  proper acc -> (forall u, u ∈ l -> ok u = true -> proper (f u)) ->
  t ∈ l -> ok t = true -> beats (f t) (best_of f ok l acc) = false.
Proof.
  intros Hacc Hl Ht Hok. revert acc Hacc Hl.
  induction l as [|u l IH]; intros acc Hacc Hl; [by apply elem_of_nil in Ht|].
  assert (forall v, v ∈ l -> ok v = true -> proper (f v)) as Hl' by (intros; apply Hl; [by right|done]).
  unfold best_of. simpl. apply elem_of_cons in Ht as [<-|Ht].
  - rewrite Hok; simpl.
    assert (proper (f t)) by (apply Hl; [left|done]).
    destruct (beats (f t) acc) eqn:E; [by apply best_of_acc|].
    apply not_true_iff_false. intros Hb.
    destruct (best_of_acc f ok l acc Hacc Hl') as [Hp Hn].
    pose proof (beats_weak (f t) _ acc ltac:(done) Hp Hacc Hb Hn). congruence.
  - apply IH; [done| |done]. destruct (ok u) eqn:?; simpl; [|done].
    destruct (beats _ _); [|done]. apply Hl; [left|done].
Qed.

Section Film_facts.
Context `{Unicode}.

(** ** What a verdict rests on *)

Definition carried (words : gset string) (t : list string) : bool :=
  (0 <? hits (evidence_of t words)) && fge (ratio (evidence_of t words)) half.

Lemma fit_best titles words :
  fit titles words = best_of (fun t => evidence_of t words) (carried words) titles no_evidence.
Proof. done. Qed.

Lemma theirs_best k words :
  theirs_of k words = best_of (fun o => fit o words) (fun _ => true) (k_others k) no_evidence.
Proof. done. Qed.

Lemma carried_proper words t : carried words t = true -> proper (evidence_of t words).
Proof.
  unfold carried, proper, fge, fle, SFleb. intros Hc. bool_prop.
  by destruct (ratio (evidence_of t words)).
Qed.

Lemma fit_proper titles words : proper (fit titles words).
Proof.
  rewrite fit_best. apply best_of_acc; [done|]. intros t _. apply carried_proper.
Qed.

Lemma theirs_proper k words : proper (theirs_of k words).
Proof. rewrite theirs_best. apply best_of_acc; [done|]. intros; apply fit_proper. Qed.

Lemma theirs_max k words o : o ∈ k_others k -> beats (fit o words) (theirs_of k words) = false.
Proof.
  intros Ho. rewrite theirs_best.
  apply (best_of_max (fun o => fit o words) (fun _ => true)); try done.
  intros; apply fit_proper.
Qed.

(** Evidence with a hit comes from a title the name carries. *)
Lemma fit_hits titles words :
  0 < hits (fit titles words) ->
  exists t, t ∈ titles /\ carried words t = true /\ fit titles words = evidence_of t words.
Proof.
  rewrite fit_best. intros Hh.
  destruct (best_of_in (fun t => evidence_of t words) (carried words) titles no_evidence)
    as [Hn|(t & Ht)]; [rewrite Hn in Hh; done|by exists t].
Qed.

Lemma judge_named k name :
  Named k name = true ->
  let words := tokens name in
  0 < hits (fit (k_own k) words) /\
  (beats (fit (k_own k) words) (theirs_of k words) = true \/
   beats (theirs_of k words) (fit (k_own k) words) = false /\
   0 < k_number k /\ Number name = (k_number k, snd (Number name))).
Proof.
  unfold Named, judge. destruct (Number name) as [num frac]; simpl.
  repeat split_if; simpl; intros; bool_prop; try done; split; auto; right; split_and!; auto; congruence.
Qed.

(** A common word is common whichever film is asked about. *)
Lemma seen_perm all all' w : all ≡ₚ all' -> seen all w = seen all' w.
Proof.
  intros Hp. unfold seen. f_equal. apply Permutation_length.
  induction Hp; simpl; repeat split_if; try done; try (by constructor); by etrans.
Qed.

Lemma common_perm all all' w : all ≡ₚ all' -> common all w = common all' w.
Proof.
  intros Hp. unfold common. by rewrite (seen_perm all all') by done; rewrite Hp.
Qed.

Lemma sets_perm all all' e : all ≡ₚ all' -> sets all e = sets all' e.
Proof.
  intros Hp. unfold sets. f_equal. apply map_ext. intros t.
  apply List.filter_ext. intros w. by rewrite (common_perm all all').
Qed.

Lemma sets_others own siblings e :
  e ∈ siblings -> sets (own :: siblings) e ∈ k_others (New own siblings).
Proof. intros He. simpl. by apply list_elem_of_fmap_2. Qed.

(** Two films of one series are never both named by the same name unless
    their catalogue titles state the same number, which the name then carries:
    evidence for one film is evidence against the other. *)
Theorem Named_exclusive (a b : Entry) (sa sb : list Entry) (name : string)
    (Hseries : a :: sa ≡ₚ b :: sb) (Hb : b ∈ sa) (Ha : a ∈ sb) :
  Named (New a sa) name = true -> Named (New b sb) name = true ->
  k_number (New a sa) = k_number (New b sb) /\ 0 < k_number (New a sa) /\
  fst (Number name) = k_number (New a sa).
Proof.
  intros Hna Hnb. apply judge_named in Hna, Hnb. cbv zeta in *.
  set (words := tokens name) in *.
  pose proof (theirs_max (New a sa) words _ (sets_others a sa b Hb)) as Hma.
  pose proof (theirs_max (New b sb) words _ (sets_others b sb a Ha)) as Hmb.
  rewrite (sets_perm _ _ _ Hseries) in Hma. rewrite <- (sets_perm _ _ _ Hseries) in Hmb.
  change (sets (b :: sb) b) with (k_own (New b sb)) in Hma.
  change (sets (a :: sa) a) with (k_own (New a sa)) in Hmb.
  pose proof (fit_proper (k_own (New a sa)) words) as Pa.
  pose proof (fit_proper (k_own (New b sb)) words) as Pb.
  pose proof (theirs_proper (New a sa) words) as Ta.
  pose proof (theirs_proper (New b sb) words) as Tb.
  destruct Hna as [_ [Hwa|(Hwa & Hka & Hnum)]], Hnb as [_ [Hwb|(Hwb & Hkb & Hnum')]].
  - exfalso. pose proof (beats_weak _ _ _ Pa Ta Pb Hwa Hma) as H1.
    pose proof (beats_weak _ _ _ Pb Tb Pa Hwb Hmb) as H2.
    rewrite (beats_asym _ _ Pa Pb H1) in H2. done.
  - exfalso. pose proof (beats_weak _ _ _ Pa Ta Pb Hwa Hma) as H1.
    pose proof (beats_weak _ _ _ Pa Pb Tb H1 Hwb). congruence.
  - exfalso. pose proof (beats_weak _ _ _ Pb Tb Pa Hwb Hmb) as H1.
    pose proof (beats_weak _ _ _ Pb Pa Ta H1 Hwa). congruence.
  - rewrite Hnum in Hnum'. simplify_eq. rewrite Hnum. simpl. auto.
Qed.

(** ** The half of a title's words *)

(** The ratio of small counts is at least one half exactly when the double
    says so. *)
Definition half_exact (n : nat) : bool :=
  forallb (fun h => Bool.eqb (fge (fdiv (of_int (Z.of_nat h)) (of_int (Z.of_nat n))) half)
                             ((Z.of_nat n <=? 2 * Z.of_nat h)))
    (List.seq 0 (S n)).

Lemma half_exact_64 : forallb half_exact (List.seq 1 64) = true.
Proof. vm_compute. reflexivity. Qed.

Lemma ratio_half h n :
  (1 <= n <= 64)%nat -> (h <= n)%nat ->
  fge (fdiv (of_int (Z.of_nat h)) (of_int (Z.of_nat n))) half = (Z.of_nat n <=? 2 * Z.of_nat h).
Proof.
  intros Hn Hh. pose proof half_exact_64 as Hall. rewrite forallb_forall in Hall.
  specialize (Hall n). unfold half_exact in Hall. rewrite in_seq, forallb_forall in Hall.
  apply eqb_prop, Hall; [lia|]. apply in_seq. lia.
Qed.

Lemma evidence_hits t words : 0 <= hits (evidence_of t words) <= Z.of_nat (length t).
Proof.
  simpl. pose proof (List.filter_length_le (fun w => bool_decide (w ∈ words)) t). lia.
Qed.

Lemma carried_half words t :
  (length t <= 64)%nat -> carried words t = true ->
  0 < hits (evidence_of t words) /\ Z.of_nat (length t) <= 2 * hits (evidence_of t words).
Proof.
  intros Hlen. unfold carried. intros Hc. bool_prop.
  pose proof (evidence_hits t words) as Hh.
  split; [lia|]. unfold evidence_of in *. simpl in *.
  rewrite ratio_half in H1 by lia. bool_prop. lia.
Qed.

(** A name confirms a film only by carrying at least half of the
    distinctive words of one of the film's own titles, and at least one: a
    number alone never does. *)
Theorem Named_words (k : Key) (name : string) :
  (forall t, t ∈ k_own k -> (length t <= 64)%nat) ->
  Named k name = true ->
  exists t, t ∈ k_own k /\
    let n := Z.of_nat (length (List.filter (fun w => bool_decide (w ∈ tokens name)) t)) in
    0 < n /\ Z.of_nat (length t) <= 2 * n.
Proof.
  intros Hlen Hn. apply judge_named in Hn as [Hh _].
  destruct (fit_hits _ _ Hh) as (t & Ht & Hc & _).
  exists t. split; [done|]. by apply (carried_half _ t); auto.
Qed.

Lemma Ours_grade k name g : judge k name = (Ours, g) -> 1 <= g <= 3.
Proof.
  unfold judge. destruct (Number name). repeat split_if; intros; simplify_eq; lia.
Qed.
End Film_facts.

(** ** Choosing *)

Section Pick_facts.
Context `{Unicode}.

(** The verdict and the grade [Pick] sees for a file, and the files it lets
    compete. *)
Definition seen_as (k : Key) (files : list File) (i : nat) : Verdict * Z :=
  judge k (BaseName (f_name (file_at files i))).

Definition competes (k : Key) (files : list File) (floor : Z) (i : nat) : bool :=
  bool_decide ((seen_as k files i).1 = Ours) &&
  negb (((seen_as k files i).2 =? 1) && (length_at files i <? floor)).

Definition median_floor (files : list File) : Z :=
  let lengths := sort_by Z.ltb (map (length_at files) (videos_of files)) in
  i64_div (nth (length lengths / 2) lengths 0) 4.

(** What the loop has found after the files [l]. *)
Definition pick_inv (k : Key) (files : list File) (floor : Z) (l : list nat)
    (st : option nat * Z * list nat) : Prop :=
  let '(best, grade, tied) := st in
  (forall j, j ∈ l -> competes k files floor j = true -> (seen_as k files j).2 <= grade) /\
  match best with
  | None => grade = 0 /\ tied = []
  | Some b => forall j, j ∈ b :: tied <->
      j ∈ l /\ competes k files floor j = true /\ (seen_as k files j).2 = grade
  end.

Lemma pick_step_inv k files floor l st i :
  pick_inv k files floor l st ->
  pick_inv k files floor (l ++ [i]) (pick_step k files floor st i).
Proof.
  destruct st as [[best grade] tied]. unfold pick_step.
  pose proof (eq_refl : seen_as k files i = judge k (BaseName (f_name (file_at files i)))) as Hs.
  destruct (judge k (BaseName (f_name (file_at files i)))) as [v g] eqn:Hj.
  assert (competes k files floor i = bool_decide (v = Ours) && negb ((g =? 1) && (length_at files i <? floor)))
    as Hc by (unfold competes; by rewrite Hs).
  assert (v = Ours -> 1 <= g) as Hg by (intros ->; apply Ours_grade in Hj; lia).
  intros [Hmax Hb].
  destruct (negb (bool_decide (v = Ours)) || ((g =? 1) && (length_at files i <? floor))) eqn:Hskip.
  { assert (competes k files floor i = false) as Hn.
    { rewrite Hc. by destruct (bool_decide (v = Ours)), ((g =? 1) && (length_at files i <? floor)). }
    split.
    - intros j Hj' ?. apply elem_of_app in Hj' as [?| ->%list_elem_of_singleton]; [auto|congruence].
    - destruct best as [b|]; [|done]. intros j. rewrite elem_of_app, Hb, list_elem_of_singleton.
      split; [naive_solver|]. intros [[?| ->] [? ?]]; [done|congruence]. }
  assert (competes k files floor i = true) as Hn.
  { rewrite Hc. by destruct (bool_decide (v = Ours)), ((g =? 1) && (length_at files i <? floor)). }
  assert (v = Ours) as Hv by (rewrite Hc in Hn; bool_prop; done).
  destruct (grade <? g) eqn:Hlt; [|destruct (g =? grade) eqn:Heq]; bool_prop.
  - split.
    + intros j Hj' ?. apply elem_of_app in Hj' as [?| ->%list_elem_of_singleton]; [|by rewrite Hs].
      transitivity grade; [auto|lia].
    + intros j. rewrite elem_of_app, !list_elem_of_singleton. split.
      * intros ->. rewrite Hs. auto.
      * intros [[Hj'| ->] [Hcj Hgj]]; [|done]. specialize (Hmax j Hj' Hcj). lia.
  - subst g. split.
    + intros j Hj' ?. apply elem_of_app in Hj' as [?| ->%list_elem_of_singleton]; [auto|by rewrite Hs].
    + destruct best as [b|]; [|lia || (specialize (Hg Hv); lia)].
      intros j. rewrite app_comm_cons, !elem_of_app, Hb, list_elem_of_singleton.
      split; [|naive_solver]. intros [?| ->]; [naive_solver|]. by rewrite Hs; auto.
  - split.
    + intros j Hj' ?. apply elem_of_app in Hj' as [?| ->%list_elem_of_singleton]; [auto|].
      rewrite Hs; simpl; lia.
    + destruct best as [b|]; [|done]. intros j. rewrite elem_of_app, Hb, list_elem_of_singleton.
      split; [naive_solver|]. intros [[?| ->] [? Hgj]]; [done|]. rewrite Hs in Hgj. simpl in Hgj. lia.
Qed.

Lemma pick_loop_inv k files floor l :
  pick_inv k files floor l (foldl (pick_step k files floor) (None, 0, []) l).
Proof.
  induction l as [|i l IH] using rev_ind; simpl.
  - split; [intros j Hj; by apply elem_of_nil in Hj|done].
  - rewrite foldl_app. simpl. by apply pick_step_inv.
Qed.

Lemma videos_of_spec files i :
  i ∈ videos_of files -> (i < length files)%nat /\ IsVideo (f_name (file_at files i)) = true.
Proof.
  unfold videos_of. rewrite list_elem_of_In, filter_In, in_seq. intros [? ?]. split; [lia|done].
Qed.

Lemma length_at_range files b :
  (forall f, f ∈ files -> 0 <= f_length f < b) -> forall i, (i < length files)%nat -> 0 <= length_at files i < b.
Proof.
  intros Hf i Hi. apply Hf. unfold file_at. apply list_elem_of_In, nth_In. done.
Qed.

(** The first of the files sorted by length is the longest, the second bounds
    the rest. *)
Lemma longest_first files tied t0 rest :
  sort_by (fun x y => length_at files y <? length_at files x) tied = t0 :: rest ->
  t0 ∈ tied /\ (forall j, j ∈ tied -> j = t0 \/ j ∈ rest) /\
  (forall t1 rest', rest = t1 :: rest' -> t1 ∈ tied /\
     forall j, j ∈ rest -> length_at files j <= length_at files t1).
Proof.
  intros Hs.
  pose proof (sort_by_perm (fun x y => length_at files y <? length_at files x) tied) as Hp.
  rewrite Hs in Hp.
  pose proof (sort_by_sorted (fun x y => length_at files y <? length_at files x)
                (fun x => - length_at files x)) as Hsort.
  specialize (Hsort ltac:(intros; simpl; destruct (Z.ltb_spec (length_at files b) (length_at files a)),
    (Z.ltb_spec (- length_at files a) (- length_at files b)); lia || done) tied).
  rewrite Hs in Hsort. apply StronglySorted_inv in Hsort as [Hsort _].
  split_and!.
  - rewrite <- Hp. left.
  - intros j. rewrite <- Hp. by rewrite elem_of_cons.
  - intros t1 rest' ->. split; [rewrite <- Hp; right; left|].
    apply StronglySorted_inv in Hsort as [_ Hall]. intros j [->|Hj]%elem_of_cons; [done|].
    rewrite List.Forall_forall in Hall. apply list_elem_of_In in Hj. specialize (Hall j Hj). simpl in Hall. lia.
Qed.

(** [i] is one of the best-graded files, and the others graded like it are
    small for the release or at most a quarter of its size. *)
Definition stands_out (k : Key) (files : list File) (floor : Z) (i : nat) : Prop :=
  competes k files floor i = true /\
  forall j, j ∈ videos_of files -> competes k files floor j = true -> j <> i ->
    (seen_as k files j).2 <= (seen_as k files i).2 /\
    ((seen_as k files j).2 = (seen_as k files i).2 ->
     length_at files j < floor \/ 4 * length_at files j <= length_at files i).

Lemma longest_stands_out k files floor b grade tied t0 rest :
  pick_inv k files floor (videos_of files) (Some b, grade, tied) ->
  sort_by (fun x y => length_at files y <? length_at files x) (tied ++ [b]) = t0 :: rest ->
  (forall t1 rest', rest = t1 :: rest' -> t1 ∈ videos_of files ->
     length_at files t1 < floor \/ 4 * length_at files t1 <= length_at files t0) ->
  t0 ∈ videos_of files /\ stands_out k files floor t0.
Proof.
  intros [Hmax Hin] Hs Hsmall.
  assert (forall j, j ∈ tied ++ [b] <-> j ∈ b :: tied) as Hcomm.
  { intros j. rewrite elem_of_app, !elem_of_cons, elem_of_nil. tauto. }
  destruct (longest_first _ _ _ _ Hs) as (H0 & Hrest & H1).
  apply Hcomm, Hin in H0 as (H0v & H0c & H0g).
  split; [done|]. split; [done|]. intros j Hj Hc Hne. rewrite H0g. split; [by apply Hmax|].
  intros Hg. assert (j ∈ rest) as Hjr.
  { destruct (Hrest j) as [?|?]; [by apply Hcomm, Hin|done|done]. }
  destruct rest as [|t1 rest']; [by apply elem_of_nil in Hjr|].
  destruct (H1 t1 rest' eq_refl) as [Ht1 Hle]. specialize (Hle j Hjr).
  apply Hcomm, Hin in Ht1 as (Ht1 & _).
  destruct (Hsmall t1 rest' eq_refl Ht1); [left|right]; lia.
Qed.

(** A file [Pick] is sure of is a video of the release that is not another
    film; among several it is one of the best-graded files named as this film,
    and every other file graded like it is small for the release or at most a
    quarter of its size. *)
Theorem Pick_stands_out (k : Key) (files : list File) (i : nat)
    (Hlen : forall f, f ∈ files -> 0 <= f_length f < 2 ^ 61) :
  Pick k files = (Some i, true) ->
  (i < length files)%nat /\ IsVideo (f_name (file_at files i)) = true /\
  (seen_as k files i).1 <> Other /\
  ((2 <= length (videos_of files))%nat -> stands_out k files (median_floor files) i).
Proof.
  unfold Pick. fold (median_floor files). destruct (videos_of files) as [|v [|v' vs]] eqn:Hv; [done| |].
  { intros [= <- Hm]. bool_prop.
    destruct (videos_of_spec files v) as [? ?]; [rewrite Hv; left|].
    split_and!; try done. simpl. lia. }
  cbv zeta. fold (median_floor files).
  rewrite <- Hv. set (floor := median_floor files) in *.
  pose proof (pick_loop_inv k files floor (videos_of files)) as Hinv.
  destruct (foldl _ _ _) as [[[b|] grade] tied]; [|done].
  destruct (sort_by _ (tied ++ [b])) as [|t0 rest] eqn:Hs; [done|].
  pose proof (longest_stands_out _ _ _ _ _ _ _ _ Hinv Hs) as Hlong.
  assert (Hdone : t0 ∈ videos_of files /\ stands_out k files floor t0 ->
    (t0 < length files)%nat /\ IsVideo (f_name (file_at files t0)) = true /\
    (seen_as k files t0).1 <> Other /\ ((2 <= length (videos_of files))%nat -> stands_out k files floor t0)).
  { intros [Hin Hst]. destruct (videos_of_spec _ _ Hin) as [? ?]. split_and!; auto.
    destruct Hst as [Hc _]. unfold competes in Hc. bool_prop. congruence. }
  destruct rest as [|t1 rest']; [intros [= <-]; apply Hdone, Hlong; by intros|].
  destruct (_ || _) eqn:Hor; [|done]. intros [= <-]. apply Hdone, Hlong.
  intros u rest'' [= <- <-] Ht1.
  destruct (length_at_range files _ Hlen t1) as [? ?]; [by apply videos_of_spec|].
  apply orb_true_iff in Hor as [?|Hq]; bool_prop; [by left|]. right.
  rewrite i64_mul_small in Hq by no_overflow. lia.
Qed.
End Pick_facts.

(** ** The properties at work on a catalogued series *)

#[local] Existing Instance ascii_unicode.

(** Two parts of "The Garden of Sinners" that share a subtitle. *)
Definition part_two : Entry :=
  mkEntry ["Satsujin Kousatsu (Zen)"; "Chapter 2: Murder Speculation Part A"].
Definition part_seven : Entry :=
  mkEntry ["Satsujin Kousatsu (Kou)"; "Chapter 2: Murder Speculation Part B"].
Definition part_three : Entry :=
  mkEntry ["Tsuukaku Zanryuu"; "Chapter 3: Remaining Sense of Pain"].

Definition part_six : Entry := mkEntry ["Boukyaku Rokuon"; "Chapter 6: Oblivion Recording"].
Definition part_one : Entry := mkEntry ["Fukan Fuukei"; "Chapter 1: Overlooking View"].

Lemma Named_exclusive_witness :
  k_number (New part_two [part_seven; part_three; part_six; part_one]) =
  k_number (New part_seven [part_two; part_three; part_six; part_one]) /\
  0 < k_number (New part_two [part_seven; part_three; part_six; part_one]) /\
  fst (Number "Chapter 2 - Murder Speculation") =
  k_number (New part_two [part_seven; part_three; part_six; part_one]).
Proof.
  apply (Named_exclusive part_two part_seven
           [part_seven; part_three; part_six; part_one]
           [part_two; part_three; part_six; part_one]
           "Chapter 2 - Murder Speculation").
  - apply perm_swap.
  - left.
  - left.
  - vm_compute. reflexivity.
  - vm_compute. reflexivity.
Defined.

Lemma Named_words_witness :
  exists t, t ∈ k_own (New part_three [part_two; part_six; part_one]) /\
    let n := Z.of_nat (length (List.filter
      (fun w => bool_decide (w ∈ tokens "[ANE] Tsuukaku Zanryuu [BD 1080p]")) t)) in
    0 < n /\ Z.of_nat (length t) <= 2 * n.
Proof.
  apply (Named_words (New part_three [part_two; part_six; part_one])
           "[ANE] Tsuukaku Zanryuu [BD 1080p]").
  - intros t Ht. assert (k_own (New part_three [part_two; part_six; part_one]) =
      [["tsuukaku"; "zanryuu"]; ["remaining"; "sense"; "pain"]]) as Hk by (vm_compute; reflexivity).
    rewrite Hk in Ht. clear Hk.
    repeat (apply elem_of_cons in Ht as [->|Ht]; [simpl; lia|]). destruct (not_elem_of_nil _ Ht).
  - vm_compute. reflexivity.
Defined.

Definition sinners_files : list File :=
  [mkFile "Intros/Cinema Intro 6 [1080p].mkv" 100;
   mkFile "Garden - 3 - Tsuukaku Zanryuu PV [1080p].mkv" 150;
   mkFile "Garden - 3 - Tsuukaku Zanryuu [1080p].mkv" 5620;
   mkFile "Garden - 6 - Oblivion Recording [1080p].mkv" 5980].

Lemma Pick_stands_out_witness :
  (2 < length sinners_files)%nat /\ IsVideo (f_name (file_at sinners_files 2)) = true /\
  (seen_as (New part_three [part_six; part_one]) sinners_files 2).1 <> Other /\
  ((2 <= length (videos_of sinners_files))%nat ->
   stands_out (New part_three [part_six; part_one]) sinners_files (median_floor sinners_files) 2).
Proof.
  apply (Pick_stands_out (New part_three [part_six; part_one]) sinners_files 2).
  - intros f Hf. unfold sinners_files in Hf.
    repeat (apply elem_of_cons in Hf as [->|Hf]; [simpl; lia|]). destruct (not_elem_of_nil _ Hf).
  - vm_compute. reflexivity.
Defined.
