(* ===== verification/Score.v ===== *)
(** * Ranking releases: internal/score

    [score.go] gives every torrent found for an episode a score, the reasons
    behind it and the rules that refuse it ([specs.go]), and orders them best
    first.  [Rank]'s insertion sort is modelled swap by swap on the slice, the
    scores are the program's own doubles, [math.Log1p] included. *)
From stdpp Require Import base gmap strings list pretty.
From Stdlib Require Import ZArith Lia Permutation Sorted.
From S2P Require Import Prelude GoStr Regex Float64 Parse Film.

(** ** Data *)

Record Tier := mkTier {
  t_Resolution : string;
  t_Source : string;
  t_Codec : string;
  t_BitDepth : Z;
}.

Definition zeroTier : Tier := mkTier "" "" "" 0.

Record Preferences := mkPreferences {
  Ladder : list Tier;
  MaxAutoBytes : Z;
  AllowHi10P : bool;
  PreferGroups : list string;
  AudioWanted : string;
  AllowRaw : bool;
  SubLanguages : list string;
  HardwareTranscode : bool;
}.

(** The fields of [indexer.Torrent] that scoring reads. *)
Record Torrent := mkTorrent {
  Title : string;
  Size : Z;
  Seeders : Z;
  SeedersKnown : bool;
  Category : string;
  Trusted : bool;
}.

Record Candidate := mkCandidate {
  c_torrent : Torrent;
  c_release : Release;
  SeaDexBest : bool;
  SeaDexGroup : bool;
  TotalEpisodes : Z;
  RuntimeMinutes : Z;
  Confirmed : bool;
  WrongShow : bool;
  c_film : option Key;
  WrongFilm : bool;
}.

Record Rejection := mkRejection { Rule : string; Reason : string }.

Record Result := mkResult {
  cand : Candidate;
  Score : f64;
  Reasons : list string;
  Playable : bool;
  AutoPick : bool;
  Blocked : string;
  Rejections : list Rejection;
  resRank : f64;
  unreadable : bool;
}.

(** ** Constants *)

Definition zero : f64 := S754_zero false.
Definition tierStep : f64 := Eval vm_compute in of_int 100.
Definition partialTier : f64 := Eval vm_compute in of_ratio 6 10.
Definition seaDexBestBonus : f64 := Eval vm_compute in of_int 260.
Definition seaDexGroup : f64 := Eval vm_compute in of_int 90.
Definition preferredGroup : f64 := Eval vm_compute in of_int 70.
Definition trustedBonus : f64 := Eval vm_compute in of_int 25.
Definition dualAudioBonus : f64 := Eval vm_compute in of_int 5.
Definition batchPenalty : f64 := Eval vm_compute in of_int 15.
Definition unknownScopePenalty : f64 := Eval vm_compute in of_int 25.
Definition seedWeight : f64 := Eval vm_compute in of_int 22.
Definition maxSeedBonus : f64 := Eval vm_compute in of_int 50.
Definition thinSwarm : Z := 5.
Definition thinSwarmPenalty : f64 := Eval vm_compute in of_int 30.
Definition subLanguageBonus : f64 := Eval vm_compute in of_int 15.
Definition wrongLanguage : f64 := Eval vm_compute in of_int 170.
Definition hardSubbedPenalty : f64 := Eval vm_compute in of_int 60.
Definition halfRank : f64 := Eval vm_compute in of_ratio 1 2.
Definition nominalRuntime : Z := 24.

(** ** Patterns *)

Module ScorePatterns.
Definition dubbed := Eval vm_compute in
  compile "(?i)\b(dub|dubbed|english[\s._-]?dub|eng[\s._-]?dub)\b".
Definition subbed := Eval vm_compute in
  compile "(?i)\b(sub|subbed|softsub|hardsub|multi[\s._-]?subs?|eng[\s._-]?subs?)\b".
Definition dualAudi := Eval vm_compute in compile "(?i)\bdual[\s._-]?audio\b".
Definition discImage := Eval vm_compute in
  compile "(?i)\b(bdmv|dvdiso|bdiso|iso|disc\s*\d*|avc\s+dts-hd)\b".
Definition sampleFile := Eval vm_compute in compile "(?i)\bsample\b".
Definition notVideo := Eval vm_compute in
  compile "(?i)\.(gxs|xdelta|zip|rar|7z|ass|ssa|srt|sub|idx|mka|flac|mp3|ogg|pdf|txt|nfo|exe|iso)$".
End ScorePatterns.

Definition tierUnplayable : Z := 1.
Definition tierWrongThing : Z := 2.
Definition tierHardware : Z := 3.
Definition tierPolicy : Z := 4.

Definition needsSoftwareTranscode (rel : Release) : bool :=
  if String.eqb (Codec rel) "HEVC" then true
  else if String.eqb (Codec rel) "H264" then BitDepth rel =? 10
  else false.

Definition isDigits (s : string) : bool :=
  negb (String.eqb s "") && forallb is_ascii_digit (map t_rune (runes s)).

(** ** Sizes *)

Definition SizeLimit (c : Candidate) (prefs : Preferences) : Z :=
  if (MaxAutoBytes prefs <=? 0) || (RuntimeMinutes c <=? nominalRuntime) then MaxAutoBytes prefs
  else
    let scaled := fdiv (fmul (of_int (MaxAutoBytes prefs)) (of_int (RuntimeMinutes c)))
                       (of_int nominalRuntime) in
    let limit := to_i64 scaled in
    if MaxAutoBytes prefs <? limit then limit else MaxAutoBytes prefs.

Definition EpisodeBytes (c : Candidate) : Z :=
  let t := c_torrent c in
  let r := c_release c in
  match c_film c with
  | Some film =>
      if Batch r && (1 <? k_count film) then i64_div (Size t) (k_count film) else Size t
  | None =>
      if negb (Batch r) && (0 <? Episode r) then Size t
      else
        let count := (EpisodeEnd r ⊟ Episode r) ⊞ 1 in
        let count := if count <? 2 then TotalEpisodes c else count in
        if count <? 2 then Size t else i64_div (Size t) count
  end.

(** ** Comparing results *)

(** Counted at a handful of seeders. *)
Definition thin (r : Result) : bool :=
  SeedersKnown (c_torrent (cand r)) && (Seeders (c_torrent (cand r)) <? thinSwarm).

Definition is_film (r : Result) : bool := match c_film (cand r) with Some _ => true | None => false end.
Definition no_resolution (r : Result) : bool := String.eqb (Resolution (c_release (cand r))) "".
Definition is_batch (r : Result) : bool := Batch (c_release (cand r)).

Definition fne (a b : f64) : bool := negb (feq a b).

Definition better (a b : Result) : bool :=
  if xorb (AutoPick a) (AutoPick b) then AutoPick a
  else if AutoPick a && xorb (no_resolution a) (no_resolution b) then no_resolution b
  else if xorb (Confirmed (cand a)) (Confirmed (cand b)) then Confirmed (cand a)
  else if AutoPick a && is_film a && is_film b && xorb (thin a) (thin b) then negb (thin a)
  else if AutoPick a && xorb (is_batch a) (is_batch b) then negb (is_batch a)
  else if AutoPick a && xorb (SeaDexBest (cand a)) (SeaDexBest (cand b)) then SeaDexBest (cand a)
  else if AutoPick a && fne (resRank a) (resRank b) then fgt (resRank a) (resRank b)
  else if AutoPick a && xorb (unreadable a) (unreadable b) then negb (unreadable a)
  else if AutoPick a && xorb (Playable a) (Playable b) then Playable a
  else fgt (Score a) (Score b).

(** One pass of the inner loop: [out[j]] moves down while it is better than its
    predecessor, by swaps. *)
Fixpoint sift (j : nat) (out : list Result) : list Result :=
  match j with
  | O => out
  | S j' =>
      match out !! j, out !! j' with
      | Some a, Some b =>
          if better a b then sift j' (<[j := b]> (<[j' := a]> out)) else out
      | _, _ => out
      end
  end.

Section Score.
Context `{Unicode}.

(** ** Tiers *)

Definition canonicalSource (s : string) : string :=
  let l := to_lower s in
  if String.eqb l "bdremux" then "BDRemux"
  else if String.eqb l "bd" then "BD"
  else if String.eqb l "web" then "WEB"
  else if String.eqb l "tv" then "TV"
  else if String.eqb l "dvd" then "DVD"
  else s.

Definition tier_part (t : Tier) (part : string) : Tier :=
  let part := trim_space part in
  if String.eqb part "" then t
  else if existsb (equal_fold part) ["BD"; "WEB"; "BDRemux"; "TV"; "DVD"]
  then mkTier (t_Resolution t) (canonicalSource part) (t_Codec t) (t_BitDepth t)
  else if existsb (equal_fold part) ["HEVC"; "H264"; "AV1"; "VP9"]
  then mkTier (t_Resolution t) (t_Source t) (to_upper part) (t_BitDepth t)
  else if isDigits part then
    let n := atoi_val part in
    if (n =? 8) || (n =? 10)
    then mkTier (t_Resolution t) (t_Source t) (t_Codec t) n
    else t
  else mkTier (to_lower part) (t_Source t) (t_Codec t) (t_BitDepth t).

Definition ParseTier (s : string) : Tier := foldl tier_part zeroTier (split s ":").

Definition tier_matches (t : Tier) (r : Release) : bool :=
  if negb (String.eqb (t_Resolution t) "") && negb (equal_fold (t_Resolution t) (Resolution r)) then false
  else if negb (String.eqb (t_Source t) "") && negb (equal_fold (t_Source t) (Source r)) then false
  else if negb (String.eqb (t_Codec t) "") && negb (equal_fold (t_Codec t) (Codec r)) then false
  else if negb (t_BitDepth t =? 0) && negb (t_BitDepth t =? BitDepth r) then false
  else true.

Definition DefaultPreferences : Preferences :=
  {| Ladder := [ParseTier "1080p:BD:HEVC:10"; ParseTier "1080p:BD"; ParseTier "1080p:WEB"; ParseTier "720p"];
     MaxAutoBytes := Z.shiftl 3 30;
     AllowHi10P := false;
     PreferGroups := [];
     AudioWanted := "sub";
     AllowRaw := false;
     SubLanguages := ["en"];
     HardwareTranscode := false |}.

(** ** Acceptance *)

Definition audioMismatch (rel : Release) (want : string) : bool :=
  if String.eqb want "" || String.eqb want "either" then false
  else if DualAudio rel || matches ScorePatterns.dualAudi (Raw rel) then false
  else if String.eqb want "dub" then negb (matches ScorePatterns.dubbed (Raw rel))
  else if String.eqb want "sub"
  then matches ScorePatterns.dubbed (Raw rel) && negb (matches ScorePatterns.subbed (Raw rel))
  else false.

Definition IsRaw (c : Candidate) : bool :=
  String.eqb (Extension (c_release c)) "ts" || contains (to_lower (Category (c_torrent c))) "raw".

Definition Unwanted (c : Candidate) (prefs : Preferences) : bool :=
  (negb (AllowRaw prefs) && IsRaw c) || audioMismatch (c_release c) (AudioWanted prefs).

Record spec := mkSpec {
  s_name : string;
  s_tier : Z;
  reject : Candidate -> Preferences -> string;
}.

Definition reason_if (b : bool) (reason : string) : string := if b then reason else "".

Definition specs : list spec :=
  [ mkSpec "wrong show" tierWrongThing (fun c _ => reason_if (WrongShow c) "names a different show");
    mkSpec "wrong film" tierWrongThing (fun c _ => reason_if (WrongFilm c) "a different film of the series");
    mkSpec "seeders" tierUnplayable (fun c _ =>
      reason_if (SeedersKnown (c_torrent c) && (Seeders (c_torrent c) =? 0)) "no seeders");
    mkSpec "disc image" tierUnplayable (fun c _ =>
      reason_if (matches ScorePatterns.discImage (Title (c_torrent c))) "disc image rather than an episode file");
    mkSpec "not a video" tierUnplayable (fun c _ =>
      reason_if (matches ScorePatterns.notVideo (trim_space (Title (c_torrent c)))) "not a video file");
    mkSpec "sample" tierUnplayable (fun c _ =>
      reason_if (matches ScorePatterns.sampleFile (Title (c_torrent c))) "sample clip");
    mkSpec "raw" tierWrongThing (fun c prefs =>
      if AllowRaw prefs then "" else reason_if (IsRaw c) "raw capture, no subtitles");
    mkSpec "audio" tierWrongThing (fun c prefs =>
      if negb (audioMismatch (c_release c) (AudioWanted prefs)) then ""
      else if String.eqb (AudioWanted prefs) "dub" then "no English dub" else "English dub only");
    mkSpec "hi10p" tierHardware (fun c prefs =>
      reason_if (negb (AllowHi10P prefs) && String.eqb (Codec (c_release c)) "H264" &&
                 (BitDepth (c_release c) =? 10)) "10-bit H.264 has no hardware decode");
    mkSpec "size" tierPolicy (fun c prefs =>
      reason_if ((0 <? MaxAutoBytes prefs) && (SizeLimit c prefs <? EpisodeBytes c))
        "larger than the automatic size limit") ].

(** The loop over the specs: [out] and the tier of its first rejection. *)
Fixpoint spec_loop (l : list spec) (c : Candidate) (prefs : Preferences)
    (out : list Rejection) (tier : Z) : list Rejection :=
  match l with
  | [] => out
  | s :: l' =>
      if (0 <? length out)%nat && negb (s_tier s =? tier) then out
      else
        let reason := reject s c prefs in
        if String.eqb reason "" then spec_loop l' c prefs out tier
        else spec_loop l' c prefs (out ++ [mkRejection (s_name s) reason])
               (if (length out =? 0)%nat then s_tier s else tier)
  end.

Definition evaluateSpecs (c : Candidate) (prefs : Preferences) : list Rejection :=
  spec_loop specs c prefs [] 0.

Definition RejectedOnlyAsRaw (r : Result) : bool :=
  negb (length (Rejections r) =? 0)%nat &&
  forallb (fun x => String.eqb (Rule x) "raw") (Rejections r).

Definition rejection_string (r : Rejection) : string := Rule r +:+ ": " +:+ Reason r.

(** ** Scoring

    The methods on [*Result] take the result and return it changed. *)

Definition set_score (r : Result) (s : f64) : Result :=
  mkResult (cand r) s (Reasons r) (Playable r) (AutoPick r) (Blocked r) (Rejections r)
    (resRank r) (unreadable r).
Definition plus (r : Result) (x : f64) : Result := set_score r (fadd (Score r) x).
Definition minus (r : Result) (x : f64) : Result := set_score r (fsub (Score r) x).
Definition add (r : Result) (reason : string) : Result :=
  mkResult (cand r) (Score r) (Reasons r ++ [reason]) (Playable r) (AutoPick r) (Blocked r)
    (Rejections r) (resRank r) (unreadable r).
Definition bonus (b : bool) (x : f64) (reason : string) (r : Result) : Result :=
  if b then add (plus r x) reason else r.
Definition set_unreadable (r : Result) : Result :=
  mkResult (cand r) (Score r) (Reasons r) (Playable r) (AutoPick r) (Blocked r) (Rejections r)
    (resRank r) true.

(** [resolutionRank]'s loop: tiers seen with a resolution, and the rank. *)
Fixpoint rank_loop (ladder : list Tier) (len i seen : Z) (res : string) (rank : f64) : Z * f64 :=
  match ladder with
  | [] => (seen, rank)
  | t :: ladder' =>
      if String.eqb (t_Resolution t) "" then rank_loop ladder' len (i + 1) seen res rank
      else rank_loop ladder' len (i + 1) (seen + 1) res
             (if String.eqb (t_Resolution t) res then of_int (len - i) else rank)
  end.

Definition resolutionRank (res : string) (prefs : Preferences) : f64 :=
  let res := to_lower res in
  if String.eqb res "" then zero
  else
    let '(seen, rank) := rank_loop (Ladder prefs) (Z.of_nat (length (Ladder prefs))) 0 0 res zero in
    if fgt rank zero then rank
    else if seen =? 0 then zero
    else halfRank.

Fixpoint ladder_loop (ladder : list Tier) (len i : Z) (r : Result) (rel : Release) : Result * bool :=
  match ladder with
  | [] => (r, false)
  | t :: ladder' =>
      if tier_matches t rel then
        (add (plus r (fmul (of_int (len - i)) tierStep)) ("matches quality tier " +:+ itoa (i + 1)), true)
      else ladder_loop ladder' len (i + 1) r rel
  end.

Definition applyLadder (r : Result) (rel : Release) (prefs : Preferences) : Result * bool :=
  ladder_loop (Ladder prefs) (Z.of_nat (length (Ladder prefs))) 0 r rel.

Definition applySubtitles (r : Result) (rel : Release) (prefs : Preferences) : Result :=
  match SubLanguages prefs, Subtitles rel with
  | [], _ | _, [] => r
  | _, _ =>
      if HasSubtitleLanguage rel (SubLanguages prefs) then
        add (plus r subLanguageBonus) ("subtitles in " +:+ join (Subtitles rel) ", ")
      else
        let r := add (set_unreadable (minus r wrongLanguage))
                   ("subtitles only in " +:+ join (Subtitles rel) ", ") in
        if HardSub rel then
          add (minus r hardSubbedPenalty) "hardsubbed, the track cannot be turned off"
        else r
  end.

(** The first preferred group the release is by. *)
Definition applyGroup (r : Result) (rel : Release) (prefs : Preferences) : Result :=
  if existsb (fun g => equal_fold g (Group rel)) (PreferGroups prefs)
  then add (plus r preferredGroup) ("preferred group " +:+ Group rel)
  else r.

Definition applySeaDex (r : Result) (c : Candidate) : Result :=
  if SeaDexBest c then add (plus r seaDexBestBonus) "curated best release on SeaDex"
  else if SeaDexGroup c then add (plus r seaDexGroup) "group appears in SeaDex picks"
  else r.

Definition applyScope (r : Result) (rel : Release) : Result :=
  if Batch rel then add (minus r batchPenalty) "batch, needs an extra step to find the episode"
  else if Episode rel =? 0
  then add (minus r unknownScopePenalty) "episode not stated in the name"
  else r.

(** [min(math.Log1p(float64(seeders))*seedWeight, maxSeedBonus)]. *)
Definition seedBonus (seeders : Z) : f64 :=
  fmin (fmul (Log1p.log1p (of_int seeders)) seedWeight) maxSeedBonus.

Definition applySeeders (r : Result) (t : Torrent) : Result :=
  if negb (SeedersKnown t) then add r "swarm size unknown"
  else if 0 <? Seeders t then
    let r := add (plus r (seedBonus (Seeders t))) (itoa (Seeders t) +:+ " seeders") in
    if Seeders t <? thinSwarm
    then add (minus r thinSwarmPenalty) "few seeders, expect a slow download"
    else r
  else r.

(** What the specs and the machine say, before any score. *)
Definition admitted (c : Candidate) (prefs : Preferences) : Result :=
  let rel := c_release c in
  let playable := HardwareTranscode prefs || negb (needsSoftwareTranscode rel) in
  let rejections := evaluateSpecs c prefs in
  {| cand := c;
     Score := zero;
     Reasons := if playable then [] else ["needs software transcoding on this machine; a seek may stall"];
     Playable := playable;
     AutoPick := (length rejections =? 0)%nat;
     Blocked := match rejections with x :: _ => Reason x | [] => "" end;
     Rejections := rejections;
     resRank := resolutionRank (Resolution rel) prefs;
     unreadable := false |}.

Definition evaluate (c : Candidate) (prefs : Preferences) : Result :=
  let rel := c_release c in
  let r := admitted c prefs in
  let '(r, laddered) := applyLadder r rel prefs in
  let r :=
    if laddered then r
    else
      let rank := resolutionRank (Resolution rel) prefs in
      if fgt rank zero then
        add (plus r (fmul (fmul rank tierStep) partialTier)) (Resolution rel +:+ ", unlabelled source")
      else r in
  let r := applySeaDex r c in
  let r := applyGroup r rel prefs in
  let r := applySubtitles r rel prefs in
  let r := bonus (Trusted (c_torrent c)) trustedBonus "trusted uploader" r in
  let r := bonus (DualAudio rel) dualAudioBonus "dual audio, Japanese track selectable" r in
  let r := applyScope r rel in
  let r := applySeeders r (c_torrent c) in
  if flt (Score r) zero then set_score r zero else r.

(** ** Ranking *)

Definition Rank (cands : list Candidate) (prefs : Preferences) : list Result :=
  let out := map (fun c => evaluate c prefs) cands in
  foldl (fun out i => sift i out) out (List.seq 1 (pred (length out))).

Definition Best (cands : list Candidate) (prefs : Preferences) : option Result :=
  match Rank cands prefs with
  | r :: _ => if AutoPick r then Some r else None
  | [] => None
  end.
End Score.

(** ** The order of results

    [better] compares lists of keys: every result has one, and on results whose
    scores are numbers, all or none of them films, [better] is the lexicographic
    order on it. *)

Fixpoint lex_gt (a b : list Z) : bool :=
  match a, b with
  | x :: a', y :: b' => (y <? x) || ((x =? y) && lex_gt a' b')
  | _ :: _, [] => true
  | [], _ => false
  end.

Lemma lex_gt_irrefl a : lex_gt a a = false.
Proof. induction a as [|x a IH]; simpl; [done|]. by rewrite Z.ltb_irrefl, IH, andb_false_r. Qed.

Lemma lex_gt_trans a b c : lex_gt a b = true -> lex_gt b c = true -> lex_gt a c = true.
Proof.
  revert b c. induction a as [|x a IH]; intros [|y b] [|z c]; simpl; try done.
  rewrite !orb_true_iff, !andb_true_iff, !Z.ltb_lt, !Z.eqb_eq.
  intros [?|[? ?]] [?|[? ?]]; try (left; lia). right. split; [lia|by eapply IH].
Qed.

Lemma lex_gt_total a b : lex_gt a b = false -> lex_gt b a = false -> a = b.
Proof.
  revert b. induction a as [|x a IH]; intros [|y b]; simpl; try done.
  rewrite !orb_false_iff, !andb_false_iff, !Z.ltb_ge, !Z.eqb_neq.
  intros [? H1] [? H2]. assert (x = y) as -> by lia.
  f_equal. apply IH; [destruct H1|destruct H2]; done.
Qed.

Lemma lex_gt_asym a b : lex_gt a b = true -> lex_gt b a = false.
Proof.
  intros Hab. apply not_true_iff_false. intros Hba.
  pose proof (lex_gt_trans _ _ _ Hab Hba) as Haa. by rewrite lex_gt_irrefl in Haa.
Qed.

(** Not being above is transitive. *)
Lemma lex_gt_weak a b c : lex_gt a b = false -> lex_gt b c = false -> lex_gt a c = false.
Proof.
  intros Hab Hbc. apply not_true_iff_false. intros Hac.
  destruct (lex_gt b a) eqn:Hba.
  - pose proof (lex_gt_trans _ _ _ Hba Hac). congruence.
  - rewrite (lex_gt_total _ _ Hab Hba) in Hac. congruence.
Qed.

Definition keyl (f : f64) : list Z := let '(a, b, c) := key f in [a; b; c].

Definition rank_key (r : Result) : list Z :=
  Z.b2z (AutoPick r) ::
  (if AutoPick r then
     Z.b2z (negb (no_resolution r)) :: Z.b2z (Confirmed (cand r)) ::
     Z.b2z (is_film r && negb (thin r)) :: Z.b2z (negb (is_batch r)) ::
     Z.b2z (SeaDexBest (cand r)) :: keyl (resRank r) ++
     Z.b2z (negb (unreadable r)) :: Z.b2z (Playable r) :: keyl (Score r) ++ []
   else Z.b2z (Confirmed (cand r)) :: keyl (Score r) ++ []).

(** The scores a result is compared by are numbers. *)
Definition numeric (r : Result) : Prop := is_nan (resRank r) = false /\ is_nan (Score r) = false.

Lemma lex_bool x y a b :
  lex_gt (Z.b2z x :: a) (Z.b2z y :: b) = if xorb x y then x else lex_gt a b.
Proof. by destruct x, y. Qed.

Lemma lex_float f g a b :
  is_nan f = false -> is_nan g = false ->
  lex_gt (keyl f ++ a) (keyl g ++ b) = if fne f g then fgt f g else lex_gt a b.
Proof.
  intros Hf Hg. unfold fne, fgt, keyl.
  destruct (feq f g) eqn:E; simpl.
  - apply feq_key in E; [|done..]. rewrite E. destruct (key g) as [[x y] z]. simpl.
    by rewrite !Z.ltb_irrefl, !Z.eqb_refl.
  - assert (key f <> key g) as Hne by (intros Hk; apply feq_key in Hk; [congruence|done..]).
    destruct (flt g f) eqn:L.
    + apply flt_key in L; [|done..]. unfold key_lt in L.
      destruct (key f) as [[f1 f2] f3], (key g) as [[g1 g2] g3]. simpl.
      rewrite !orb_true_iff, !andb_true_iff, !orb_true_iff, !andb_true_iff, !orb_true_iff,
        !Z.ltb_lt, !Z.eqb_eq. lia.
    + apply not_true_iff_false in L. rewrite flt_key in L by done. unfold key_lt in L.
      destruct (key f) as [[f1 f2] f3], (key g) as [[g1 g2] g3].
      assert (f1 <> g1 \/ f2 <> g2 \/ f3 <> g3) as Hne'.
      { destruct (decide (f1 = g1)), (decide (f2 = g2)), (decide (f3 = g3)); subst; auto. }
      clear Hne. apply not_true_iff_false. simpl.
      rewrite !orb_true_iff, !andb_true_iff, !orb_true_iff, !andb_true_iff, !orb_true_iff,
        !Z.ltb_lt, !Z.eqb_eq. lia.
Qed.

Lemma xorb_negb x y : xorb (negb x) (negb y) = xorb x y.
Proof. by destruct x, y. Qed.

Lemma fgt_feq f g : is_nan f = false -> is_nan g = false -> feq f g = true -> fgt f g = false.
Proof.
  intros Hf Hg E. apply feq_key in E; [|done..]. apply not_true_iff_false.
  unfold fgt. rewrite flt_key, E by done. unfold key_lt. destruct (key g) as [[? ?] ?]. lia.
Qed.

Lemma lex_last f g :
  is_nan f = false -> is_nan g = false -> lex_gt (keyl f ++ []) (keyl g ++ []) = fgt f g.
Proof.
  intros Hf Hg. rewrite lex_float by done. unfold fne.
  destruct (feq f g) eqn:E; simpl; [by rewrite fgt_feq|done].
Qed.

Lemma better_key a b :
  numeric a -> numeric b -> is_film a = is_film b ->
  better a b = lex_gt (rank_key a) (rank_key b).
Proof.
  intros [Ra Sa] [Rb Sb] Hf. unfold better, rank_key.
  rewrite lex_bool. destruct (xorb (AutoPick a) (AutoPick b)) eqn:Hx; [done|].
  apply xorb_eq in Hx. rewrite Hx. destruct (AutoPick b); cbn [andb].
  - rewrite !lex_bool, lex_float, !lex_bool, lex_last, !xorb_negb by done.
    rewrite <- Hf.
    destruct (xorb (no_resolution a) (no_resolution b)) eqn:Hr.
    { by destruct (no_resolution a), (no_resolution b). }
    destruct (xorb (Confirmed (cand a)) (Confirmed (cand b))); [done|].
    destruct (is_film a); simpl; [rewrite xorb_negb|]; done.
  - by rewrite lex_bool, lex_last.
Qed.

(** ** The sort

    [sift] on a prefix is insertion from the right: the prefix is kept
    reversed, its last element first. *)

Fixpoint insr (x : Result) (rp : list Result) : list Result :=
  match rp with
  | [] => [x]
  | y :: rp' => if better x y then y :: insr x rp' else x :: rp
  end.

Lemma sift_insr rp x rest :
  sift (length rp) (rev rp ++ x :: rest) = rev (insr x rp) ++ rest.
Proof.
  revert rest. induction rp as [|y rp IH]; intros rest; simpl; [done|].
  rewrite <- app_assoc; simpl.
  assert ((rev rp ++ y :: x :: rest) !! S (length rp) = Some x) as ->.
  { rewrite lookup_app_r, length_rev by (rewrite length_rev; lia).
    by replace (S (length rp) - length rp)%nat with 1%nat by lia. }
  assert ((rev rp ++ y :: x :: rest) !! length rp = Some y) as ->.
  { apply list_lookup_middle. by rewrite length_rev. }
  destruct (better x y).
  - assert (<[S (length rp):=y]> (<[length rp:=x]> (rev rp ++ y :: x :: rest))
            = rev rp ++ x :: y :: rest) as ->.
    { rewrite insert_app_r_alt, length_rev, Nat.sub_diag by (rewrite length_rev; lia).
      rewrite insert_app_r_alt, length_rev by (rewrite length_rev; lia).
      by replace (S (length rp) - length rp)%nat with 1%nat by lia. }
    rewrite IH. simpl. by rewrite <- app_assoc.
  - simpl. by rewrite <- !app_assoc.
Qed.

Lemma insr_perm x rp : insr x rp ≡ₚ x :: rp.
Proof.
  induction rp as [|y rp IH]; simpl; [done|]. destruct (better x y); [|done].
  rewrite IH. constructor.
Qed.

(** The whole sort, as insertions. *)
Lemma Rank_insr l rest :
  foldl (fun out i => sift i out) (rev l ++ rest) (List.seq (length l) (length rest)) =
  rev (foldl (fun rp x => insr x rp) l rest).
Proof.
  revert l. induction rest as [|x rest IH]; intros l; simpl; [by rewrite app_nil_r|].
  rewrite sift_insr.
  replace (S (length l)) with (length (insr x l)) by (rewrite insr_perm; done).
  apply IH.
Qed.

Section sorting.
(** Results that compare by their keys. *)
Context (P : Result -> Prop).
Context (P_better : forall a b, P a -> P b -> better a b = lex_gt (rank_key a) (rank_key b)).

Lemma insr_sorted x rp :
  P x -> Forall P rp ->
  StronglySorted (fun a b => better a b = false) rp ->
  StronglySorted (fun a b => better a b = false) (insr x rp).
Proof.
  intros Hx HP. induction 1 as [|y rp Hs IH Hy]; simpl; [repeat constructor|].
  apply List.Forall_cons_iff in HP as [Py HP].
  destruct (better x y) eqn:E.
  - constructor; [by apply IH|]. rewrite insr_perm. constructor; [|done].
    rewrite P_better in * by done. by apply lex_gt_asym.
  - constructor; [by constructor|]. constructor; [done|].
    rewrite List.Forall_forall in *. intros z Hz. specialize (Hy z Hz). specialize (HP z Hz).
    rewrite P_better in * by done. by eapply lex_gt_weak.
Qed.

(** Elements with one key keep their order. *)
Lemma insr_stable k x rp :
  P x -> Forall P rp ->
  List.filter (fun r => bool_decide (rank_key r = k)) (insr x rp) =
  List.filter (fun r => bool_decide (rank_key r = k)) (x :: rp).
Proof.
  intros Hx. induction rp as [|y rp IH]; intros HP; simpl; [done|].
  apply List.Forall_cons_iff in HP as [Py HP].
  destruct (better x y) eqn:E; [|done].
  assert (rank_key x <> rank_key y) as Hne.
  { intros Hk. rewrite P_better, Hk, lex_gt_irrefl in E by done. done. }
  simpl. rewrite IH by done. simpl.
  destruct (bool_decide_reflect (rank_key x = k)), (bool_decide_reflect (rank_key y = k)); try done.
  congruence.
Qed.

Lemma foldl_insr rp rest :
  Forall P rest -> Forall P rp ->
  StronglySorted (fun a b => better a b = false) rp ->
  let out := foldl (fun rp x => insr x rp) rp rest in
  out ≡ₚ rest ++ rp /\
  StronglySorted (fun a b => better a b = false) out /\
  forall k, List.filter (fun r => bool_decide (rank_key r = k)) out =
            List.filter (fun r => bool_decide (rank_key r = k)) (rev rest ++ rp).
Proof.
  revert rp. induction rest as [|x rest IH]; intros rp Hrest HP Hs; simpl; [done|].
  apply List.Forall_cons_iff in Hrest as [Px Hrest].
  destruct (IH (insr x rp)) as (Hp & Hs' & Hk); [done| |by apply insr_sorted|].
  { rewrite insr_perm. by constructor. }
  split_and!; [|done|].
  - rewrite Hp, insr_perm. by rewrite Permutation_middle.
  - intros k. rewrite Hk, <- app_assoc. simpl.
    by rewrite !List.filter_app, insr_stable.
Qed.
End sorting.

(** Sorted from best to worst: no later result is better than an earlier one. *)
Definition best_first (l : list Result) : Prop := StronglySorted (fun a b => better b a = false) l.

Lemma sort_results (P : Result -> Prop) l :
  (forall a b, P a -> P b -> better a b = lex_gt (rank_key a) (rank_key b)) ->
  Forall P l ->
  let out := foldl (fun out i => sift i out) l (List.seq 1 (pred (length l))) in
  out ≡ₚ l /\ best_first out /\
  forall k, List.filter (fun r => bool_decide (rank_key r = k)) out =
            List.filter (fun r => bool_decide (rank_key r = k)) l.
Proof.
  intros HP Hl. destruct l as [|x rest]; [by repeat split; constructor|].
  apply List.Forall_cons_iff in Hl as [Px Hrest].
  pose proof (Rank_insr [x] rest) as Hr. simpl in Hr. simpl. rewrite Hr.
  destruct (foldl_insr P HP [x] rest) as (Hp & Hs & Hk); [done|by repeat constructor..|].
  split_and!.
  - rewrite <- Permutation_rev, Hp. by rewrite Permutation_app_comm.
  - by apply StronglySorted_rev.
  - intros k. rewrite List.filter_rev, Hk, <- List.filter_rev, rev_app_distr, rev_involutive.
    done.
Qed.

(** ** What scoring leaves alone, and that a score is a number *)

(** The bonus for a swarm of [n] is finite: decided by evaluation. *)
Definition swarm_ok (t : Torrent) : bool :=
  negb (SeedersKnown t) || (Seeders t <=? 0) || is_finite (seedBonus (Seeders t)).


Definition scored (r r' : Result) : Prop :=
  cand r' = cand r /\ Playable r' = Playable r /\ AutoPick r' = AutoPick r /\
  Blocked r' = Blocked r /\ Rejections r' = Rejections r /\ resRank r' = resRank r /\
  (swarm_ok (c_torrent (cand r)) = true -> is_nan (Score r) = false -> is_nan (Score r') = false).

Lemma scored_refl r : scored r r.
Proof. by repeat split. Qed.

Lemma scored_trans a b c : scored a b -> scored b c -> scored a c.
Proof.
  intros (Hc & ? & ? & ? & ? & ? & Ha) (? & ? & ? & ? & ? & ? & Hb).
  rewrite Hc in Hb. repeat split; try congruence. auto.
Qed.

Lemma scored_add r s : scored r (add r s).
Proof. by repeat split. Qed.

Lemma scored_plus r x : is_finite x = true -> scored r (plus r x).
Proof. repeat split; simpl; auto with kuro. Qed.

Lemma scored_minus r x : is_finite x = true -> scored r (minus r x).
Proof. repeat split; simpl; auto with kuro. Qed.

Lemma scored_plus_add r x s : is_finite x = true -> scored r (add (plus r x) s).
Proof. repeat split; simpl; auto with kuro. Qed.

Lemma scored_minus_add r x s : is_finite x = true -> scored r (add (minus r x) s).
Proof. repeat split; simpl; auto with kuro. Qed.

Lemma scored_first r x s : Score r = zero -> is_nan x = false -> scored r (add (plus r x) s).
Proof. intros Hz Hx. repeat split. intros _ _. simpl. rewrite Hz. by apply fadd_zero_not_nan. Qed.

Lemma scored_bonus b x s r : is_finite x = true -> scored r (bonus b x s r).
Proof. intros. unfold bonus. destruct b; [by apply scored_plus_add|apply scored_refl]. Qed.

Create HintDb scored.
#[export] Hint Resolve scored_refl scored_add scored_plus_add scored_minus_add : scored.

Section Score_facts.
Context `{Unicode}.

Lemma applySeaDex_scored r c : scored r (applySeaDex r c).
Proof. unfold applySeaDex. repeat split_if; auto with scored. Qed.

Lemma applyGroup_scored r rel prefs : scored r (applyGroup r rel prefs).
Proof. unfold applyGroup. split_if; auto with scored. Qed.

Lemma applyScope_scored r rel : scored r (applyScope r rel).
Proof. unfold applyScope. repeat split_if; auto with scored. Qed.

Lemma applySubtitles_scored r rel prefs : scored r (applySubtitles r rel prefs).
Proof.
  unfold applySubtitles. destruct (SubLanguages prefs), (Subtitles rel); try apply scored_refl.
  split_if; [auto with scored|].
  assert (forall s, scored r (add (set_unreadable (minus r wrongLanguage)) s)) as Hu.
  { repeat split; simpl; auto with kuro. }
  split_if; [eapply scored_trans; [apply Hu|]|]; auto with scored.
Qed.

Lemma applySeeders_scored r : scored r (applySeeders r (c_torrent (cand r))).
Proof.
  unfold applySeeders. destruct (SeedersKnown (c_torrent (cand r))) eqn:Hk; simpl; [|auto with scored].
  destruct (0 <? Seeders (c_torrent (cand r))) eqn:Hs; [|apply scored_refl].
  assert (forall s, scored r (add (plus r (seedBonus (Seeders (c_torrent (cand r))))) s)) as Hp.
  { intros s. repeat split. unfold swarm_ok. rewrite Hk. simpl. intros [?|?]%orb_true_iff ?;
      [bool_prop; lia|auto with kuro]. }
  split_if; [eapply scored_trans; [apply Hp|]|]; auto with scored.
Qed.

(** The first addition is to zero, where anything but NaN is a number. *)
Lemma applyLadder_scored r rel prefs :
  Score r = zero -> scored r (applyLadder r rel prefs).1 /\
  ((applyLadder r rel prefs).2 = false -> (applyLadder r rel prefs).1 = r).
Proof.
  intros Hz. unfold applyLadder. generalize 0 as i. generalize (Z.of_nat (length (Ladder prefs))) as n.
  induction (Ladder prefs) as [|t l IH]; intros n i; simpl; [by split; [apply scored_refl|]|].
  destruct (tier_matches t rel); [|apply IH]. split; [|done].
  apply scored_first; auto with kuro.
Qed.

Lemma resolutionRank_not_nan res prefs : is_nan (resolutionRank res prefs) = false.
Proof.
  unfold resolutionRank. cbv zeta. split_if; [done|].
  assert (forall l n i seen rank, is_nan rank = false ->
    is_nan (rank_loop l n i seen (to_lower res) rank).2 = false) as Hl.
  { induction l as [|t l IH]; intros n i seen rank Hr; simpl; [done|].
    split_if; apply IH; [done|]. split_if; auto with kuro. }
  specialize (Hl (Ladder prefs) (Z.of_nat (length (Ladder prefs))) 0 0 zero eq_refl).
  destruct (rank_loop _ _ _ _ _ _) as [seen rank]. simpl in Hl.
  repeat split_if; auto.
Qed.

Lemma evaluate_scored c prefs : scored (admitted c prefs) (evaluate c prefs).
Proof.
  unfold evaluate.
  destruct (applyLadder_scored (admitted c prefs) (c_release c) prefs eq_refl) as [H1 H2].
  destruct (applyLadder (admitted c prefs) (c_release c) prefs) as [r1 laddered]. simpl in H1, H2.
  set (r2 := if laddered then r1 else _).
  assert (scored (admitted c prefs) r2) as Hr2.
  { subst r2. destruct laddered; [done|]. rewrite H2 by done. cbv zeta.
    split_if; [|apply scored_refl]. apply scored_first; [done|].
    auto using resolutionRank_not_nan with kuro. }
  clearbody r2. cbv zeta.
  set (r6 := applyScope _ _).
  assert (scored (admitted c prefs) r6) as Hr6.
  { subst r6.
    repeat (eapply scored_trans;
      [|first [apply applyScope_scored | by apply scored_bonus | apply applySubtitles_scored
              | apply applyGroup_scored | apply applySeaDex_scored]]).
    exact Hr2. }
  clearbody r6. eapply scored_trans; [exact Hr6|].
  destruct Hr6 as [Hc _]. simpl in Hc. rewrite <- Hc.
  eapply scored_trans; [apply applySeeders_scored|].
  split_if; [|apply scored_refl]. by repeat split.
Qed.

Lemma evaluate_numeric c prefs : swarm_ok (c_torrent c) = true -> numeric (evaluate c prefs).
Proof.
  intros Hok. destruct (evaluate_scored c prefs) as (_ & _ & _ & _ & _ & Hr & Hs).
  split; [rewrite Hr; apply resolutionRank_not_nan|by apply Hs].
Qed.

(** Whether a release may start by itself is the specs' verdict alone. *)
Lemma evaluate_fields c prefs :
  cand (evaluate c prefs) = c /\
  AutoPick (evaluate c prefs) = (length (evaluateSpecs c prefs) =? 0)%nat /\
  Rejections (evaluate c prefs) = evaluateSpecs c prefs.
Proof.
  destruct (evaluate_scored c prefs) as (Hc & _ & Ha & _ & Hj & _). by rewrite Hc, Ha, Hj.
Qed.

Lemma evaluate_film c prefs : is_film (evaluate c prefs) = match c_film c with Some _ => true | None => false end.
Proof. unfold is_film. by destruct (evaluate_fields c prefs) as (-> & _). Qed.

(** ** The properties *)

(** Candidates of one search: all films or none, each with a finite bonus. *)
Definition comparable (cands : list Candidate) : Prop :=
  (forall c, c ∈ cands -> swarm_ok (c_torrent c) = true) /\
  (forall c c', c ∈ cands -> c' ∈ cands -> is_Some (c_film c) -> is_Some (c_film c')).

(** The results of one search. *)
Definition of_search (cands : list Candidate) (prefs : Preferences) (r : Result) : Prop :=
  exists c, c ∈ cands /\ r = evaluate c prefs.

Lemma comparable_better cands prefs a b :
  comparable cands -> of_search cands prefs a -> of_search cands prefs b ->
  better a b = lex_gt (rank_key a) (rank_key b).
Proof.
  intros [Hs Hf] (ca & Ha & ->) (cb & Hb & ->).
  apply better_key; [by apply evaluate_numeric, Hs..|].
  rewrite !evaluate_film. pose proof (Hf _ _ Ha Hb) as Hab. pose proof (Hf _ _ Hb Ha) as Hba.
  destruct (c_film ca), (c_film cb); try done; [destruct Hab|destruct Hba]; done.
Qed.

Lemma of_search_all cands prefs : Forall (of_search cands prefs) (map (fun c => evaluate c prefs) cands).
Proof.
  apply List.Forall_forall. intros r Hr. apply in_map_iff in Hr as (c & <- & Hc).
  exists c. split; [by apply list_elem_of_In|done].
Qed.

Lemma Rank_sort_results cands prefs :
  comparable cands ->
  let out := Rank cands prefs in
  out ≡ₚ map (fun c => evaluate c prefs) cands /\ best_first out /\
  forall k, List.filter (fun r => bool_decide (rank_key r = k)) out =
    List.filter (fun r => bool_decide (rank_key r = k)) (map (fun c => evaluate c prefs) cands).
Proof.
  intros Hc. apply (sort_results (of_search cands prefs)); [|apply of_search_all].
  intros a b. by apply comparable_better.
Qed.

(** C9: [Rank] returns every candidate's evaluation exactly once, best first
    (no later result is better than an earlier one), and results that compare
    equal keep the order the indexers gave them. *)
Theorem Rank_sorted (cands : list Candidate) (prefs : Preferences) (Hc : comparable cands) :
  let out := Rank cands prefs in
  out ≡ₚ map (fun c => evaluate c prefs) cands /\
  best_first out /\
  forall k, List.filter (fun r => bool_decide (rank_key r = k)) out =
    List.filter (fun r => bool_decide (rank_key r = k)) (map (fun c => evaluate c prefs) cands).
Proof. by apply Rank_sort_results. Qed.

(** An eligible result is better than one that is not. *)
Lemma better_eligible a b : AutoPick a = true -> AutoPick b = false -> better a b = true.
Proof. intros Ha Hb. unfold better. by rewrite Ha, Hb. Qed.

(** The head of the ranking. *)
Lemma Rank_head cands prefs r rest :
  comparable cands -> Rank cands prefs = r :: rest ->
  of_search cands prefs r /\
  forall c, c ∈ cands -> better (evaluate c prefs) r = false.
Proof.
  intros Hc Hr. destruct (Rank_sort_results cands prefs Hc) as (Hp & Hs & _). rewrite Hr in Hp, Hs.
  assert (forall x, x ∈ r :: rest -> of_search cands prefs x) as Hall.
  { intros x. rewrite Hp. intros Hx. pose proof (of_search_all cands prefs) as Hf.
    rewrite List.Forall_forall in Hf. by apply Hf, list_elem_of_In. }
  split; [apply Hall; left|]. intros c Hin.
  assert (evaluate c prefs ∈ r :: rest) as [->|Hin']%elem_of_cons.
  { rewrite Hp. by apply (list_elem_of_fmap_2 (fun c => evaluate c prefs)). }
  - rewrite (comparable_better cands prefs) by (done || by apply Hall; left). apply lex_gt_irrefl.
  - apply StronglySorted_inv in Hs as [_ Hs]. rewrite List.Forall_forall in Hs.
    by apply Hs, list_elem_of_In.
Qed.

(** [Best] starts a release exactly when some candidate passes every rule;
    the one it starts passes them all and no candidate is better. *)
Theorem Best_spec (cands : list Candidate) (prefs : Preferences) (Hc : comparable cands) :
  match Best cands prefs with
  | Some r =>
      (exists c, c ∈ cands /\ r = evaluate c prefs /\ evaluateSpecs c prefs = []) /\
      forall c, c ∈ cands -> better (evaluate c prefs) r = false
  | None => forall c, c ∈ cands -> evaluateSpecs c prefs <> []
  end.
Proof.
  unfold Best. destruct (Rank cands prefs) as [|r rest] eqn:Hr.
  { intros c Hin. destruct (Rank_sort_results cands prefs Hc) as (Hp & _). rewrite Hr in Hp.
    apply Permutation_nil, map_eq_nil in Hp. subst. by apply elem_of_nil in Hin. }
  destruct (Rank_head cands prefs r rest Hc Hr) as [(c & Hin & ->) Hb].
  destruct (evaluate_fields c prefs) as (_ & Ha & _). rewrite Ha.
  destruct (evaluateSpecs c prefs) eqn:Hs; simpl.
  - split; [by exists c|done].
  - intros c' Hin' Hs'. specialize (Hb c' Hin').
    rewrite better_eligible in Hb; [done| |by rewrite Ha].
    destruct (evaluate_fields c' prefs) as (_ & -> & _). by rewrite Hs'.
Qed.

(** A candidate [Best] should prefer: it passes the rules, names its resolution,
    states the episode and is a single episode rather than a batch. *)
Definition ideal (c : Candidate) (prefs : Preferences) : bool :=
  (length (evaluateSpecs c prefs) =? 0)%nat && negb (String.eqb (Resolution (c_release c)) "") &&
  Confirmed c && negb (Batch (c_release c)).

(** A batch, a maybe or a release of unstated quality is a fallback: when
    some candidate is a confirmed single episode of stated resolution that
    passes the rules, so is the release [Best] starts. *)
Theorem Best_ideal (cands : list Candidate) (prefs : Preferences) (c : Candidate)
    (Hc : comparable cands) (Hfilm : forall c, c ∈ cands -> c_film c = None)
    (Hin : c ∈ cands) (Hideal : ideal c prefs = true) :
  exists c', c' ∈ cands /\ Best cands prefs = Some (evaluate c' prefs) /\ ideal c' prefs = true.
Proof.
  unfold Best. destruct (Rank cands prefs) as [|r rest] eqn:Hr.
  { destruct (Rank_sort_results cands prefs Hc) as (Hp & _). rewrite Hr in Hp.
    apply Permutation_nil, map_eq_nil in Hp. subst. by apply elem_of_nil in Hin. }
  destruct (Rank_head cands prefs r rest Hc Hr) as [(c' & Hin' & ->) Hb].
  specialize (Hb c Hin). exists c'. split; [done|].
  destruct (evaluate_fields c prefs) as (Hca & Haa & _), (evaluate_fields c' prefs) as (Hcb & Hab & _).
  unfold better, no_resolution, is_batch, is_film in Hb.
  rewrite Hca, Hcb, (Hfilm c Hin) in Hb. unfold ideal in *. bool_prop.
  rewrite Haa, Hab in *. rewrite H0 in Hb.
  destruct (length (evaluateSpecs c' prefs) =? 0)%nat; [|done]. simpl in *.
  rewrite H1, H2, H3 in Hb.
  destruct (String.eqb (Resolution (c_release c')) ""), (Confirmed c'), (Batch (c_release c')); done.
Qed.
End Score_facts.

(** ** The rules that refuse *)

Fixpoint take_while {A} (p : A -> bool) (l : list A) : list A :=
  match l with
  | [] => []
  | x :: l' => if p x then x :: take_while p l' else []
  end.

Section Specs_facts.
Context `{Unicode}.

Definition refuses (c : Candidate) (prefs : Preferences) (s : spec) : bool :=
  negb (String.eqb (reject s c prefs) "").

Definition rejection_of (c : Candidate) (prefs : Preferences) (s : spec) : Rejection :=
  mkRejection (s_name s) (reject s c prefs).

(** The specs reported: from the first that refuses, while the tier lasts. *)
Definition reported (l : list spec) (c : Candidate) (prefs : Preferences) : list spec :=
  match drop_while (fun s => negb (refuses c prefs s)) l with
  | [] => []
  | s0 :: rest =>
      List.filter (refuses c prefs) (s0 :: take_while (fun s => s_tier s =? s_tier s0) rest)
  end.

Lemma spec_loop_tier l c prefs out tier :
  out <> [] ->
  spec_loop l c prefs out tier =
  out ++ map (rejection_of c prefs)
           (List.filter (refuses c prefs) (take_while (fun s => s_tier s =? tier) l)).
Proof.
  revert out. induction l as [|s l IH]; intros out Hne; simpl; [by rewrite app_nil_r|].
  assert ((0 <? length out)%nat = true) as -> by (destruct out; done). simpl.
  destruct (s_tier s =? tier) eqn:Ht; simpl; [|by rewrite app_nil_r].
  unfold refuses at 1. destruct (String.eqb (reject s c prefs) "") eqn:Hr; simpl; [by apply IH|].
  assert ((length out =? 0)%nat = false) as -> by (destruct out; done).
  rewrite IH by (by destruct out). by rewrite <- app_assoc.
Qed.

Lemma spec_loop_reported l c prefs tier :
  spec_loop l c prefs [] tier = map (rejection_of c prefs) (reported l c prefs).
Proof.
  unfold reported. induction l as [|s l IH]; simpl; [done|].
  destruct (refuses c prefs s) eqn:Hr; simpl; unfold refuses in Hr; bool_prop; rewrite Hr; [|done].
  rewrite spec_loop_tier by done. unfold refuses at 2. rewrite Hr. done.
Qed.

Lemma drop_while_nil {A} (p : A -> bool) l : drop_while p l = [] <-> forallb p l = true.
Proof. induction l as [|x l IH]; simpl; [done|]. destruct (p x); simpl; [done|]. by split. Qed.

(** A release is refused exactly when some rule refuses it, and the reasons
    given are those of the rules that refuse, from the first such rule on, as
    long as the rules following it are of its tier. *)
Theorem evaluateSpecs_spec (c : Candidate) (prefs : Preferences) :
  (evaluateSpecs c prefs = [] <-> forallb (fun s => String.eqb (reject s c prefs) "") specs = true) /\
  evaluateSpecs c prefs = map (rejection_of c prefs) (reported specs c prefs).
Proof.
  unfold evaluateSpecs. rewrite spec_loop_reported. split; [|done].
  assert (forallb (fun s => String.eqb (reject s c prefs) "") specs =
          forallb (fun s => negb (refuses c prefs s)) specs) as ->.
  { generalize specs. induction l as [|s l IH]; simpl; [done|].
    unfold refuses. by rewrite IH, negb_involutive. }
  rewrite <- drop_while_nil. unfold reported.
  destruct (drop_while _ specs) as [|s0 rest] eqn:Hd; [done|].
  assert (refuses c prefs s0 = true) as Hs0.
  { destruct (refuses c prefs s0) eqn:E; [done|]. apply drop_while_head in Hd. by rewrite E in Hd. }
  simpl. by rewrite Hs0.
Qed.

(** What an episode is said to download is never more than its release:
    the whole of a single file, an equal share of a pack. *)
Theorem EpisodeBytes_bounds (c : Candidate) (Hsize : 0 <= Size (c_torrent c) < 2 ^ 63) :
  0 <= EpisodeBytes c <= Size (c_torrent c) /\
  (c_film c = None -> Batch (c_release c) = false -> 0 < Episode (c_release c) ->
   EpisodeBytes c = Size (c_torrent c)).
Proof.
  assert (forall n, 1 < n -> 0 <= i64_div (Size (c_torrent c)) n <= Size (c_torrent c)) as Hdiv.
  { intros n Hn. pose proof (Z.quot_pos (Size (c_torrent c)) n ltac:(lia) ltac:(lia)).
    assert (Z.quot (Size (c_torrent c)) n <= Size (c_torrent c)).
    { rewrite Z.quot_div_nonneg by lia. apply Z.div_le_upper_bound; [lia|]. nia. }
    rewrite i64_div_small by no_overflow. lia. }
  unfold EpisodeBytes. split.
  - destruct (c_film c) as [film|]; cbv zeta; repeat split_if; try lia; bool_prop; apply Hdiv; lia.
  - intros -> ->. intros He. simpl. by destruct (Z.ltb_spec 0 (Episode (c_release c))); [|lia].
Qed.

(** The limit on automatic downloads is never tightened by a runtime, even
    where scaling it overflows, and is the preference itself up to the nominal
    runtime. *)
Theorem SizeLimit_bounds (c : Candidate) (prefs : Preferences) (Hmax : in64 (MaxAutoBytes prefs)) :
  MaxAutoBytes prefs <= SizeLimit c prefs < 2 ^ 63 /\
  (RuntimeMinutes c <= nominalRuntime -> SizeLimit c prefs = MaxAutoBytes prefs).
Proof.
  assert (forall f, to_i64 f < 2 ^ 63) as Hlt.
  { intros f. unfold to_i64. destruct f; simpl; try lia.
    destruct ((_ <=? _) && _) eqn:E; [bool_prop; lia|lia]. }
  unfold SizeLimit, in64 in *. split.
  - cbv zeta. repeat split_if; try lia. bool_prop. split; [lia|apply Hlt].
  - intros Hr. apply Z.leb_le in Hr. by rewrite Hr, orb_true_r.
Qed.
End Specs_facts.

(** ** The properties at work *)

#[local] Existing Instance ascii_unicode.

(** The bonus of every swarm up to two thousand seeders is finite. *)
Lemma seedBonus_finite :
  forallb (fun n => is_finite (seedBonus (Z.of_nat n))) (List.seq 1 2000) = true.
Proof. vm_compute. reflexivity. Qed.

Lemma swarm_ok_2000 t : Seeders t <= 2000 -> swarm_ok t = true.
Proof.
  intros Ht. unfold swarm_ok. destruct (Z.leb_spec (Seeders t) 0); [by rewrite orb_true_r|].
  apply orb_true_iff. right. pose proof seedBonus_finite as Hall. rewrite forallb_forall in Hall.
  specialize (Hall (Z.to_nat (Seeders t))). rewrite Z2Nat.id in Hall by lia.
  apply Hall, in_seq. lia.
Qed.

Definition candidate (title : string) (seeders size : Z) : Candidate :=
  mkCandidate (mkTorrent title size seeders true "" false) (Parse title)
    false false 12 24 true false None false.

Definition search : list Candidate :=
  [candidate "[G] Show - 01 [720p][AAC].mkv" 50 524288000;
   candidate "[G] Show - 01 [1080p][WEB-DL][AAC].mkv" 3 1073741824;
   candidate "[G] Show - 01-12 [BD 1080p HEVC 10bit FLAC] (Batch)" 900 21474836480;
   candidate "[shincaps] Show 01 (BS11 1920x1080 MPEG2 AAC).ts" 30 1073741824].

Lemma search_comparable : comparable search.
Proof.
  split.
  - intros c Hc. apply swarm_ok_2000. unfold search in Hc.
    repeat (apply elem_of_cons in Hc as [->|Hc]; [simpl; lia|]). destruct (not_elem_of_nil _ Hc).
  - intros c c' Hc _ Hf. unfold search in Hc.
    repeat (apply elem_of_cons in Hc as [->|Hc]; [by destruct Hf|]). destruct (not_elem_of_nil _ Hc).
Qed.

Lemma Rank_sorted_witness :
  Rank search DefaultPreferences ≡ₚ map (fun c => evaluate c DefaultPreferences) search /\
  best_first (Rank search DefaultPreferences) /\
  forall k, List.filter (fun r => bool_decide (rank_key r = k)) (Rank search DefaultPreferences) =
    List.filter (fun r => bool_decide (rank_key r = k))
      (map (fun c => evaluate c DefaultPreferences) search).
Proof. apply (Rank_sorted search DefaultPreferences). exact search_comparable. Defined.

Lemma Best_spec_witness :
  match Best search DefaultPreferences with
  | Some r =>
      (exists c, c ∈ search /\ r = evaluate c DefaultPreferences /\
                 evaluateSpecs c DefaultPreferences = []) /\
      forall c, c ∈ search -> better (evaluate c DefaultPreferences) r = false
  | None => forall c, c ∈ search -> evaluateSpecs c DefaultPreferences <> []
  end.
Proof. apply (Best_spec search DefaultPreferences). exact search_comparable. Defined.

Lemma Best_ideal_witness :
  exists c', c' ∈ search /\ Best search DefaultPreferences = Some (evaluate c' DefaultPreferences) /\
    ideal c' DefaultPreferences = true.
Proof.
  apply (Best_ideal search DefaultPreferences (candidate "[G] Show - 01 [720p][AAC].mkv" 50 524288000)).
  - exact search_comparable.
  - intros c Hc. unfold search in Hc.
    repeat (apply elem_of_cons in Hc as [->|Hc]; [reflexivity|]). destruct (not_elem_of_nil _ Hc).
  - left.
  - vm_compute. reflexivity.
Defined.

Lemma EpisodeBytes_bounds_witness :
  let c := candidate "[G] Show - 01-12 [BD 1080p HEVC 10bit FLAC] (Batch)" 900 21474836480 in
  0 <= EpisodeBytes c <= Size (c_torrent c) /\
  (c_film c = None -> Batch (c_release c) = false -> 0 < Episode (c_release c) ->
   EpisodeBytes c = Size (c_torrent c)).
Proof.
  apply (EpisodeBytes_bounds (candidate "[G] Show - 01-12 [BD 1080p HEVC 10bit FLAC] (Batch)" 900 21474836480)).
  simpl. lia.
Defined.

Lemma SizeLimit_bounds_witness :
  let c := candidate "[G] Show - 01 [1080p].mkv" 9 21474836480 in
  MaxAutoBytes DefaultPreferences <= SizeLimit c DefaultPreferences < 2 ^ 63 /\
  (RuntimeMinutes c <= nominalRuntime -> SizeLimit c DefaultPreferences = MaxAutoBytes DefaultPreferences).
Proof.
  apply (SizeLimit_bounds (candidate "[G] Show - 01 [1080p].mkv" 9 21474836480) DefaultPreferences).
  unfold in64. change (MaxAutoBytes DefaultPreferences) with 3221225472. lia.
Defined.

(** The batch is the better quality, the single episode starts. *)
Example search_best :
  match Best search DefaultPreferences with
  | Some r => Score.Title (c_torrent (cand r))
  | None => ""
  end = "[G] Show - 01 [1080p][WEB-DL][AAC].mkv".
Proof. vm_compute. reflexivity. Qed.

(** A release of another show that is also a raw, both of the tier
    [tierWrongThing]: only the first reason is given, since rules of another
    tier stand between the two. *)
Lemma evaluateSpecs_stops_early :
  let raw := candidate "[shincaps] Show 01 (BS11 1920x1080 MPEG2 AAC).ts" 30 1073741824 in
  let c := mkCandidate (c_torrent raw) (c_release raw) false false 12 24 false true None false in
  evaluateSpecs raw DefaultPreferences = [mkRejection "raw" "raw capture, no subtitles"] /\
  evaluateSpecs c DefaultPreferences = [mkRejection "wrong show" "names a different show"].
Proof. vm_compute. split; reflexivity. Qed.
