(* ===== verification/Paths.v ===== *)
(** * Paths, and staying inside a directory: torrent.Within

    [path/filepath] as it is on Unix, where a path is its elements between
    slashes and whether it is rooted: [Clean], [Join] and [Rel] rewrite paths
    without looking at the disk.  [Within] (torrent/client.go) is what keeps a
    torrent's files inside the cache folder and a delete inside it too; it is
    proved to accept exactly the paths whose elements extend the directory's
    without climbing. *)
From stdpp Require Import base strings list.
From Stdlib Require Import ZArith Lia.
From S2P Require Import Prelude GoStr.

(** ** path/filepath *)

Definition dot : Ascii.ascii := Ascii.ascii_of_nat 46.
Definition slash : Ascii.ascii := Ascii.ascii_of_nat 47.

(** The text between slashes. *)
Fixpoint elems (s : string) : list string :=
  match s with
  | EmptyString => [""]
  | String c s' =>
      if Ascii.eqb c slash then "" :: elems s'
      else match elems s' with e :: es => String c e :: es | [] => [String c ""] end
  end.

Definition rooted (s : string) : bool := has_prefix s "/".

(** One element of [Clean]: [out] is kept reversed. *)
Definition clean_elem (root : bool) (out : list string) (e : string) : list string :=
  if String.eqb e "" || String.eqb e "." then out
  else if String.eqb e ".." then
    match out with
    | top :: out' => if String.eqb top ".." then ".." :: out else out'
    | [] => if root then [] else [".."]
    end
  else e :: out.

(** The elements a path has once cleaned. *)
Definition comps (s : string) : list string :=
  rev (foldl (clean_elem (rooted s)) [] (elems s)).

Definition path_of (root : bool) (cs : list string) : string :=
  match root, cs with
  | true, _ => "/" +:+ join cs "/"
  | false, [] => "."
  | false, _ => join cs "/"
  end.

Definition Clean (s : string) : string := path_of (rooted s) (comps s).

(** [Join] drops leading empty elements; joining nothing is the empty path. *)
Fixpoint Join (l : list string) : string :=
  match l with
  | [] => ""
  | e :: l' => if String.eqb e "" then Join l' else Clean (join l "/")
  end.

(** The elements left of each list past their common prefix. *)
Fixpoint past_common (b t : list string) : list string * list string :=
  match b, t with
  | x :: b', y :: t' => if String.eqb x y then past_common b' t' else (b, t)
  | _, _ => (b, t)
  end.

(** The elements [Rel] compares: "." is no element of the base, but one of a
    target. *)
Definition target_comps (s : string) : list string :=
  match rooted s, comps s with false, [] => ["."] | _, cs => cs end.

(** [Rel base targ], [None] where it fails. *)
Definition Rel (base targ : string) : option string :=
  if String.eqb (Clean base) (Clean targ) then Some "."
  else if negb (Bool.eqb (rooted base) (rooted targ)) then None
  else
    match past_common (comps base) (target_comps targ) with
    | ([], t) => Some (join t "/")
    | (b :: bs, t) =>
        if String.eqb b ".." then None
        else Some (join (map (fun _ => "..") (b :: bs) ++ t) "/")
    end.

(** ** torrent.Within *)

Definition Within (dir path : string) : bool :=
  if String.eqb dir "" || String.eqb path "" then false
  else match Rel (Clean dir) (Clean path) with
       | None => false
       | Some rel => String.eqb rel "." || (negb (String.eqb rel "..") && negb (has_prefix rel "../"))
       end.

(** ** Elements *)

Definition plain (e : string) : Prop :=
  e <> "" /\ e <> "." /\ forall i, String.get i e <> Some slash.

(** A cleaned path's elements: up first (never from the root), then down. *)
Definition well_formed (root : bool) (cs : list string) : Prop :=
  exists n rest, cs = replicate n ".." ++ rest /\ (root = true -> n = O) /\
    Forall (fun e => plain e /\ e <> "..") rest.

Lemma elems_no_slash s : Forall (fun e => forall i, String.get i e <> Some slash) (elems s).
Proof.
  induction s as [|c s IH]; simpl.
  - constructor; [|constructor]. by intros [].
  - destruct (Ascii.eqb c slash) eqn:E.
    + constructor; [by intros []|done].
    + apply Ascii.eqb_neq in E.
      destruct (elems s) as [|e es].
      * constructor; [|constructor]. intros [|[]]; simpl; congruence.
      * apply List.Forall_cons_iff in IH as [He Hes]. constructor; [|done].
        intros [|i]; simpl; [congruence|apply He].
Qed.

Lemma clean_elem_wf root out e :
  (forall i, String.get i e <> Some slash) ->
  well_formed root (rev out) -> well_formed root (rev (clean_elem root out e)).
Proof.
  intros He (n & rest & Hout & Hn & Hrest). unfold clean_elem.
  destruct (String.eqb_spec e ""), (String.eqb_spec e "."); simpl; try (by exists n, rest).
  destruct (String.eqb_spec e "..") as [->|Hdd]; simpl.
  2:{ exists n, (rest ++ [e]). rewrite Hout, app_assoc. split_and!; [done|done|].
      apply Forall_app. split; [done|]. by repeat constructor. }
  destruct out as [|top out']; simpl in Hout.
  { destruct root; [by exists n, rest|]. exists 1%nat, []. by repeat split; try constructor. }
  destruct (String.eqb_spec top "..") as [->|Htop]; simpl.
  - destruct rest as [|y rest' _] using rev_ind.
    + rewrite app_nil_r in Hout. exists (S n), []. split_and!; [|intros Hr; specialize (Hn Hr); subst n|done].
      * rewrite app_nil_r, Hout. symmetry. apply replicate_S_end.
      * by destruct (rev out').
    + rewrite app_assoc in Hout. apply app_inj_tail in Hout as [_ <-].
      apply Forall_app in Hrest as [_ Hy]. by apply List.Forall_cons_iff in Hy as [[_ Hy] _].
  - destruct rest as [|y rest' _] using rev_ind.
    + rewrite app_nil_r in Hout. destruct n as [|n]; [by destruct (rev out')|].
      rewrite replicate_S_end in Hout. apply app_inj_tail in Hout as [_ ?]. done.
    + rewrite app_assoc in Hout. apply app_inj_tail in Hout as [Hout _].
      exists n, rest'. split_and!; [done|done|]. by apply Forall_app in Hrest as [? _].
Qed.

Lemma comps_wf s : well_formed (rooted s) (comps s).
Proof.
  unfold comps. pose proof (elems_no_slash s) as He.
  assert (well_formed (rooted s) (rev [])) as H0 by (by exists O, []; repeat constructor).
  revert H0. generalize (@nil string) as out.
  induction (elems s) as [|e es IH]; intros out Hout; simpl; [done|].
  apply List.Forall_cons_iff in He as [He Hes]. apply (IH Hes). by apply clean_elem_wf.
Qed.

(** ** Cleaning twice is cleaning once *)

Lemma elems_app a b :
  (forall i, String.get i a <> Some slash) -> elems (a +:+ String slash b) = a :: elems b.
Proof.
  induction a as [|c a IH]; intros Ha; simpl; [done|].
  assert (Ascii.eqb c slash = false) as ->.
  { apply Ascii.eqb_neq. intros ->. by apply (Ha O). }
  by rewrite IH by (intros i; apply (Ha (S i))).
Qed.

Lemma elems_single a : (forall i, String.get i a <> Some slash) -> elems a = [a].
Proof.
  induction a as [|c a IH]; intros Ha; simpl; [done|].
  assert (Ascii.eqb c slash = false) as ->.
  { apply Ascii.eqb_neq. intros ->. by apply (Ha O). }
  by rewrite IH by (intros i; apply (Ha (S i))).
Qed.

Lemma join_cons a b cs : join (a :: b :: cs) "/" = a +:+ String slash (join (b :: cs) "/").
Proof. done. Qed.

Lemma elems_join cs :
  cs <> [] -> Forall (fun e => forall i, String.get i e <> Some slash) cs -> elems (join cs "/") = cs.
Proof.
  induction cs as [|a cs IH]; intros Hne Hcs; [done|].
  apply List.Forall_cons_iff in Hcs as [Ha Hcs].
  destruct cs as [|b cs]; [by apply elems_single|].
  rewrite join_cons, elems_app by done. f_equal. by apply IH.
Qed.

Lemma dots_no_slash i : String.get i ".." <> Some slash.
Proof. by destruct i as [|[|[]]]. Qed.

Lemma wf_no_slash root cs :
  well_formed root cs -> Forall (fun e => e <> "" /\ forall i, String.get i e <> Some slash) cs.
Proof.
  intros (n & rest & -> & _ & Hrest). apply Forall_app. split.
  - apply Forall_replicate. split; [done|]. intros i. apply dots_no_slash.
  - eapply List.Forall_impl; [|exact Hrest]. intros e [(? & _ & ?) _]. done.
Qed.

Lemma rev_replicate {A} n (x : A) : rev (replicate n x) = replicate n x.
Proof. induction n as [|n IH]; [done|]. by rewrite replicate_S_end at 1; rewrite rev_app_distr, IH. Qed.

Lemma fold_clean_wf root cs : well_formed root cs -> foldl (clean_elem root) [] cs = rev cs.
Proof.
  intros (n & rest & -> & Hn & Hrest). rewrite foldl_app, rev_app_distr.
  assert (foldl (clean_elem root) [] (replicate n "..") = replicate n "..") as ->.
  { destruct root; [by rewrite (Hn eq_refl)|]. clear.
    induction n as [|n IH]; [done|]. rewrite replicate_S_end, foldl_app, IH at 1. simpl.
    rewrite replicate_S_end at 1 || idtac. by destruct n. }
  assert (forall out, foldl (clean_elem root) out rest = rev rest ++ out) as ->.
  { induction rest as [|e rest IH]; intros out; simpl; [done|].
    apply List.Forall_cons_iff in Hrest as [[(H1 & H2 & _) H3] Hrest].
    rewrite (IH Hrest), <- app_assoc. f_equal. unfold clean_elem.
    by destruct (String.eqb_spec e ""), (String.eqb_spec e "."), (String.eqb_spec e ".."). }
  f_equal. symmetry. apply rev_replicate.
Qed.

Lemma has_prefix_cons a s b p :
  has_prefix (String a s) (String b p) = if Ascii.ascii_dec b a then has_prefix s p else false.
Proof. done. Qed.

Lemma rooted_path_of root cs : well_formed root cs -> rooted (path_of root cs) = root.
Proof.
  intros Hwf. apply wf_no_slash in Hwf.
  destruct root; [unfold rooted, has_prefix, path_of; simpl; by destruct (join cs "/")|].
  destruct cs as [|c cs]; [done|]. apply List.Forall_cons_iff in Hwf as [[Hne Hc] _].
  assert (exists a c', c = String a c' /\ a <> slash) as (a & c' & -> & Ha).
  { destruct c as [|a c']; [done|]. exists a, c'. split; [done|]. intros ->. by apply (Hc O). }
  assert (exists s, join (String a c' :: cs) "/" = String a s) as [s Hs].
  { destruct cs; [by exists c'|]. rewrite join_cons. simpl. eauto. }
  unfold path_of, rooted. rewrite Hs, has_prefix_cons.
  destruct (Ascii.ascii_dec _ _) as [He|]; [|done]. by rewrite <- He in Ha.
Qed.

Lemma comps_path_of root cs : well_formed root cs -> comps (path_of root cs) = cs.
Proof.
  intros Hwf. unfold comps. rewrite rooted_path_of by done.
  pose proof (wf_no_slash _ _ Hwf) as Hns.
  assert (Forall (fun e => forall i, String.get i e <> Some slash) cs) as Hns'.
  { eapply List.Forall_impl; [|exact Hns]. by intros ? []. }
  assert (foldl (clean_elem root) [] (elems (path_of root cs)) = rev cs) as ->;
    [|by rewrite rev_involutive].
  rewrite <- (fold_clean_wf _ _ Hwf). destruct cs as [|c cs]; [by destruct root|].
  destruct root.
  - change (path_of true (c :: cs)) with ("" +:+ String slash (join (c :: cs) "/")).
    rewrite elems_app, elems_join; [done|done|done|by intros []].
  - change (path_of false (c :: cs)) with (join (c :: cs) "/"). by rewrite elems_join.
Qed.

Lemma rooted_Clean s : rooted (Clean s) = rooted s.
Proof. apply rooted_path_of, comps_wf. Qed.

Lemma comps_Clean s : comps (Clean s) = comps s.
Proof. apply comps_path_of, comps_wf. Qed.

Lemma Clean_idemp s : Clean (Clean s) = Clean s.
Proof. unfold Clean at 1. by rewrite rooted_Clean, comps_Clean. Qed.

Lemma Clean_eq a b : Clean a = Clean b <-> rooted a = rooted b /\ comps a = comps b.
Proof.
  split.
  - intros Hab. by rewrite <- (rooted_Clean a), <- (comps_Clean a), Hab, rooted_Clean, comps_Clean.
  - unfold Clean. by intros [-> ->].
Qed.

Lemma past_common_spec b t :
  exists p, b = p ++ (past_common b t).1 /\ t = p ++ (past_common b t).2.
Proof.
  revert t. induction b as [|x b IH]; intros t; simpl; [by exists []|].
  destruct t as [|y t]; [by exists []|].
  destruct (String.eqb_spec x y) as [->|]; [|by exists []].
  destruct (IH t) as (p & Hb & Ht). exists (y :: p). simpl. by rewrite <- Hb, <- Ht.
Qed.

Lemma past_common_app b rest : past_common b (b ++ rest) = ([], rest).
Proof. induction b as [|x b IH]; simpl; [by destruct rest|]. by rewrite String.eqb_refl. Qed.

(** A relative path climbs when it starts with "..". *)
Definition climbs (rel : string) : bool := String.eqb rel ".." || has_prefix rel "../".

Lemma climbs_dots l : climbs (join (".." :: l) "/") = true.
Proof. destruct l as [|x l]; [done|]. rewrite join_cons. by destruct (join (x :: l) "/"). Qed.

Lemma climbs_plain c l :
  (forall i, String.get i c <> Some slash) -> c <> ".." -> climbs (join (c :: l) "/") = false.
Proof.
  intros Hc Hne. unfold climbs. apply orb_false_iff.
  assert (exists s, join (c :: l) "/" = c +:+ s /\ (s = "" \/ exists s', s = String slash s')) as (s & -> & Hs).
  { destruct l as [|x l]; [exists ""; by rewrite string_app_nil_r; auto|]. rewrite join_cons. eauto 10. }
  destruct c as [|c1 [|c2 [|c3 c]]].
  - by destruct Hs as [->|[s' ->]].
  - split; [apply String.eqb_neq; destruct Hs as [->|[s' ->]]; intros [=]|].
    destruct Hs as [->|[s' ->]]; cbv [String.append]; rewrite !has_prefix_cons;
      by destruct (Ascii.ascii_dec _ c1).
  - assert (~ (c1 = dot /\ c2 = dot)) as Hcc by (intros [-> ->]; done).
    split; [apply String.eqb_neq; intros [= -> -> _]; by apply Hcc|].
    cbv [String.append]. rewrite !has_prefix_cons.
    destruct (Ascii.ascii_dec _ c1) as [<-|]; [|done].
    destruct (Ascii.ascii_dec _ c2) as [<-|]; [|done]. exfalso. by apply Hcc.
  - pose proof (Hc 2%nat) as H2. simpl in H2. split; [apply String.eqb_neq; by intros [=]|].
    cbv [String.append]. rewrite !has_prefix_cons.
    destruct (Ascii.ascii_dec _ c1); [|done]. destruct (Ascii.ascii_dec _ c2); [|done].
    by destruct (Ascii.ascii_dec _ c3) as [<-|].
Qed.

Lemma target_comps_cases p :
  target_comps p = comps p \/ (rooted p = false /\ comps p = [] /\ target_comps p = ["."]).
Proof. unfold target_comps. destruct (rooted p), (comps p); auto. Qed.

Lemma comps_plain s c : c ∈ comps s -> c <> "." /\ forall i, String.get i c <> Some slash.
Proof.
  intros Hc. destruct (comps_wf s) as (n & rest & Hs & _ & Hrest). rewrite Hs in Hc.
  apply elem_of_app in Hc as [Hc|Hc].
  - apply elem_of_replicate in Hc as [-> _]. split; [done|]. intros i. apply dots_no_slash.
  - rewrite List.Forall_forall in Hrest. apply list_elem_of_In in Hc.
    by destruct (Hrest c Hc) as [(_ & ? & ?) _].
Qed.

(** What [Within] asks of the relative path. *)
Definition accepted (rel : string) : bool :=
  String.eqb rel "." || (negb (String.eqb rel "..") && negb (has_prefix rel "../")).

Lemma accepted_dots l : accepted (join (".." :: l) "/") = false.
Proof.
  pose proof (climbs_dots l) as Hc. unfold climbs in Hc. unfold accepted.
  assert (String.eqb (join (".." :: l) "/") "." = false) as ->.
  { destruct l; [done|]. by rewrite join_cons. }
  by destruct (String.eqb _ ".."), (has_prefix _ "../").
Qed.

Lemma accepted_plain c l :
  (forall i, String.get i c <> Some slash) -> c <> ".." -> accepted (join (c :: l) "/") = true.
Proof.
  intros Hc Hne. pose proof (climbs_plain c l Hc Hne) as Hcl. unfold climbs in Hcl.
  apply orb_false_iff in Hcl as [H1 H2]. unfold accepted. rewrite H1, H2. by rewrite orb_true_r.
Qed.

Lemma Rel_accepted d t :
  d <> t ->
  (forall c, c ∈ t -> forall i, String.get i c <> Some slash) ->
  match past_common d t with
  | ([], t') => accepted (join t' "/")
  | (b :: bs, t') =>
      if String.eqb b ".." then false else accepted (join (map (fun _ => "..") (b :: bs) ++ t') "/")
  end = true <-> exists rest, t = d ++ rest /\ head rest <> Some "..".
Proof.
  intros Hne Hns. split.
  - destruct (past_common_spec d t) as (p & Hb & Ht).
    destruct (past_common d t) as [[|b bs] t']; simpl in Hb, Ht.
    + intros Ha. exists t'. rewrite app_nil_r in Hb. split; [by rewrite Hb|].
      destruct t' as [|c l]; [done|]. intros [= ->]. by rewrite accepted_dots in Ha.
    + destruct (String.eqb b ".."); [done|]. cbn [map app]. by rewrite accepted_dots.
  - intros (rest & -> & Hh). rewrite past_common_app.
    destruct rest as [|c l].
    + by rewrite app_nil_r in Hne.
    + apply accepted_plain; [|intros ->; by apply Hh].
      apply Hns, elem_of_app. right. left.
Qed.

Lemma Within_iff (dir path : string) :
  Within dir path = true <->
  dir <> "" /\ path <> "" /\ rooted dir = rooted path /\
  exists rest, comps path = comps dir ++ rest /\ head rest <> Some "..".
Proof.
  unfold Within, Rel.
  destruct (String.eqb_spec dir ""); [by split; [|intros [? _]]|].
  destruct (String.eqb_spec path ""); [by split; [|intros (_ & ? & _)]|].
  rewrite !Clean_idemp, !rooted_Clean, !comps_Clean.
  assert (target_comps (Clean path) = target_comps path) as ->.
  { unfold target_comps. by rewrite rooted_Clean, comps_Clean. }
  destruct (String.eqb_spec (Clean dir) (Clean path)) as [He|Hne].
  { apply Clean_eq in He as [Hr Hc]. split; [|done]. intros _. split_and!; try done.
    exists []. by rewrite Hc, app_nil_r. }
  destruct (Bool.eqb_spec (rooted dir) (rooted path)) as [Hr|Hr]; simpl; [|by split; [|intros (_ & _ & ? & _)]].
  assert (comps dir <> comps path) as Hc by (intros ?; by apply Hne, Clean_eq).
  pose proof (Rel_accepted (comps dir) (target_comps path)) as Ha.
  destruct (target_comps_cases path) as [Ht|(Hrp & Hcp & Ht)]; rewrite Ht in *.
  - specialize (Ha Hc (fun c Hin => proj2 (comps_plain path c Hin))).
    transitivity (exists rest, comps path = comps dir ++ rest /\ head rest <> Some "..");
      [|by split; [intros ?|intros (_ & _ & _ & ?)]].
    rewrite <- Ha. by destruct (past_common _ _) as [[|b bs] t']; [|destruct (String.eqb b "..")].
  - destruct (comps dir) as [|b bs] eqn:Hd; [by rewrite Hcp in Hc|].
    assert (b <> ".") as Hb by (apply (comps_plain dir); rewrite Hd; left).
    split; [|intros (_ & _ & _ & rest & Hcp' & _); by rewrite Hcp in Hcp'].
    intros Hw. exfalso. revert Hw. cbn [past_common].
    destruct (String.eqb_spec b ".") as [->|]; [done|]. destruct (String.eqb b ".."); [done|].
    change (accepted (join (".." :: (map (fun _ => "..") bs ++ ["."])) "/") = true -> False).
    by rewrite accepted_dots.
Qed.

(** Everything kuro puts inside a directory is inside it. *)
Lemma Within_inside dir path :
  Within dir path = true -> comps dir `prefix_of` comps path /\ rooted dir = rooted path.
Proof.
  intros (_ & _ & Hr & rest & Hc & _)%Within_iff. split; [|done]. rewrite Hc. by exists rest.
Qed.

Lemma Within_trans a b c : Within a b = true -> Within b c = true -> Within a c = true.
Proof.
  intros (Ha & Hb & Hr & r1 & Hc1 & Hh1)%Within_iff (_ & Hc & Hr' & r2 & Hc2 & Hh2)%Within_iff.
  apply Within_iff. split_and!; try done; [congruence|].
  exists (r1 ++ r2). rewrite Hc2, Hc1, <- app_assoc. split; [done|]. by destruct r1.
Qed.

Lemma Within_refl a : a <> "" -> Within a a = true.
Proof. intros. apply Within_iff. split_and!; try done. exists []. by rewrite app_nil_r. Qed.

(** ** One element below a directory *)

Lemma elems_nonempty s : elems s <> [].
Proof. destruct s as [|c s]; [done|]. cbn [elems]. by destruct (Ascii.eqb c slash), (elems s). Qed.

Lemma elems_below dir name :
  (forall i, String.get i name <> Some slash) -> elems (dir +:+ String slash name) = elems dir ++ [name].
Proof.
  intros Hn. induction dir as [|c dir IH].
  - change (elems (String slash name) = [""] ++ [name]). cbn [elems]. by rewrite Ascii.eqb_refl, elems_single.
  - change (elems (String c (dir +:+ String slash name)) = elems (String c dir) ++ [name]).
    cbn [elems]. rewrite IH. destruct (Ascii.eqb c slash); [done|].
    pose proof (elems_nonempty dir). by destruct (elems dir).
Qed.

Lemma rooted_below dir rest : dir <> "" -> rooted (dir +:+ rest) = rooted dir.
Proof.
  destruct dir as [|c dir]; [done|]. intros _. cbv [String.append]. unfold rooted. rewrite !has_prefix_cons.
  assert (forall s, has_prefix s "" = true) as Hnil by (by intros []).
  destruct (Ascii.ascii_dec _ c); [|done]. by rewrite !Hnil.
Qed.

Lemma Join_nonempty dir name : dir <> "" -> Join [dir; name] <> "".
Proof.
  intros Hd. unfold Join. apply String.eqb_neq in Hd. rewrite Hd. unfold Clean, path_of.
  set (s := join _ _). pose proof (comps_wf s) as Hwf. apply wf_no_slash in Hwf.
  destruct (rooted s); [by destruct (join (comps s) "/")|].
  destruct (comps s) as [|c [|c' cs]]; [done| |].
  - apply List.Forall_cons_iff in Hwf as [[Hc _] _]. done.
  - rewrite join_cons. by destruct c.
Qed.

Lemma Join_below dir name :
  dir <> "" -> (forall i, String.get i name <> Some slash) ->
  rooted (Join [dir; name]) = rooted dir /\
  comps (Join [dir; name]) = rev (clean_elem (rooted dir) (rev (comps dir)) name).
Proof.
  intros Hd Hn. unfold Join. apply String.eqb_neq in Hd as Hd'. rewrite Hd'.
  rewrite rooted_Clean, comps_Clean.
  change (join [dir; name] "/") with (dir +:+ String slash name).
  rewrite (rooted_below dir) by done. split; [done|].
  unfold comps. rewrite (rooted_below dir), elems_below, foldl_app by done. simpl. by rewrite rev_involutive.
Qed.

Lemma Join_plain dir name :
  dir <> "" -> plain name -> name <> ".." -> comps (Join [dir; name]) = comps dir ++ [name].
Proof.
  intros Hd (He & Hdot & Hn) Hdd. destruct (Join_below dir name Hd Hn) as [_ ->].
  unfold clean_elem. apply String.eqb_neq in He, Hdot, Hdd. rewrite He, Hdot, Hdd. simpl.
  by rewrite rev_involutive.
Qed.

(** A name of one element below a directory: what is inside starts with it. *)
Lemma Within_below dir name path :
  dir <> "" -> plain name -> name <> ".." -> Within (Join [dir; name]) path = true ->
  exists rest, comps path = comps dir ++ name :: rest.
Proof.
  intros Hd Hp Hdd (_ & _ & _ & rest & -> & _)%Within_iff. exists rest.
  rewrite Join_plain by done. by rewrite <- app_assoc.
Qed.

(** Joining "." is the directory itself. *)
Lemma Within_dot dir path : dir <> "" -> Within (Join [dir; "."]) path = Within dir path.
Proof.
  intros Hd. destruct (Join_below dir "." Hd) as [Hr Hc]; [by intros [|[]]|].
  change (clean_elem (rooted dir) (rev (comps dir)) ".") with (rev (comps dir)) in Hc.
  rewrite rev_involutive in Hc.
  apply eq_true_iff_eq. rewrite !Within_iff, Hr, Hc.
  assert (Join [dir; "."] <> "") by (by apply Join_nonempty). tauto.
Qed.

(** Splitting at slashes is reading the elements. *)
Lemma split_slash s : split s "/" = elems s.
Proof.
  unfold split.
  assert (forall acc, split_acc "/" s acc 0 =
    match elems s with e :: es => (acc +:+ e) :: es | [] => [] end) as Hs.
  { induction s as [|c s IH]; intros acc; cbn [split_acc elems]; [by rewrite string_app_nil_r|].
    change (String.prefix "/" (String c s)) with (if Ascii.ascii_dec slash c then String.prefix "" s else false).
    destruct (Ascii.ascii_dec slash c) as [<-|Hc].
    - rewrite Ascii.eqb_refl. assert (String.prefix "" s = true) as -> by (by destruct s).
      simpl. rewrite IH, string_app_nil_r. by destruct (elems s).
    - assert (Ascii.eqb c slash = false) as -> by (apply Ascii.eqb_neq; congruence).
      rewrite IH. pose proof (elems_nonempty s). destruct (elems s) as [|e es]; [done|].
      by rewrite string_app_assoc. }
  rewrite Hs. by destruct (elems s).
Qed.

Lemma dots_prefix_below a b : has_prefix (a +:+ String slash b) ".." = has_prefix a "..".
Proof.
  destruct a as [|c1 [|c2 a]]; [done| |].
  - change (has_prefix (String c1 (String slash b)) ".." = has_prefix (String c1 "") "..").
    rewrite !has_prefix_cons. by destruct (Ascii.ascii_dec dot c1).
  - change (has_prefix (String c1 (String c2 (a +:+ String slash b))) ".." = has_prefix (String c1 (String c2 a)) "..").
    rewrite !has_prefix_cons. unfold has_prefix. by destruct (a +:+ String slash b), a.
Qed.

(** The first element of the relative path to something inside. *)
Lemma Rel_below dir path c rest :
  rooted dir = rooted path -> comps path = comps dir ++ c :: rest -> c <> ".." ->
  exists rel, Rel dir path = Some rel /\ List.hd "" (split rel "/") = c /\
    rel <> "." /\ (has_prefix c ".." = false -> has_prefix rel ".." = false).
Proof.
  intros Hr Hc Hdd. exists (join (c :: rest) "/").
  assert (c ∈ comps path) as Hin by (rewrite Hc; apply elem_of_app; right; left).
  destruct (comps_plain path c Hin) as [Hdot Hns].
  assert (c <> "") as Hne.
  { pose proof (wf_no_slash _ _ (comps_wf path)) as Hwf. rewrite Hc in Hwf.
    apply Forall_app in Hwf as [_ Hwf]. by apply List.Forall_cons_iff in Hwf as [[? _] _]. }
  assert (Forall (fun e => forall i, String.get i e <> Some slash) (c :: rest)) as Hall.
  { apply Forall_forall. intros x Hx. apply (comps_plain path x). rewrite Hc. apply elem_of_app. by right. }
  assert (elems (join (c :: rest) "/") = c :: rest) as He by (by apply elems_join).
  split_and!.
  - unfold Rel. destruct (String.eqb_spec (Clean dir) (Clean path)) as [Heq|_].
    { apply Clean_eq in Heq as [_ Heq]. rewrite Hc in Heq. exfalso.
      apply (f_equal length) in Heq. rewrite length_app in Heq. simpl in Heq. lia. }
    rewrite Hr, Bool.eqb_reflx. simpl.
    assert (target_comps path = comps path) as ->.
    { unfold target_comps. rewrite Hc. by destruct (rooted path), (comps dir). }
    by rewrite Hc, past_common_app.
  - by rewrite split_slash, He.
  - intros Hj. rewrite Hj in He. injection He as <- _. done.
  - intros Hp. destruct rest as [|b rest]; [done|]. by rewrite join_cons, dots_prefix_below.
Qed.

(** [Within dir path] holds exactly when both are named, both are rooted or
    neither is, and the path's elements, dots resolved, are the directory's
    followed by elements that do not begin by climbing out. *)
Theorem Within_spec (dir path : string) :
  Within dir path = true <->
  dir <> "" /\ path <> "" /\ rooted dir = rooted path /\
  exists rest, comps path = comps dir ++ rest /\ head rest <> Some "..".
Proof. exact (Within_iff dir path). Qed.
