(* ===== verification/Storage.v ===== *)
(** * Where torrents live on disk: internal/engine/{storage,layout}.go

    A torrent is one byte range cut into files.  [layout] decides the top name a
    torrent's files go under; [OpenTorrent] lays the files out as segments of
    the range, none outside the cache folder; [ReadAt], [WriteAt] and
    [Completion] work on whatever file parts a range meets ([each]).

    The disk is a finite map from paths to contents.  What an operating system
    may refuse ([io]: a failing open, a short write, a failing close) is an
    argument, so that every error path of the code is a branch of the model. *)
From stdpp Require Import base gmap strings list.
From Stdlib Require Import ZArith Lia.
From S2P Require Import Prelude GoStr Paths.

(** ** metainfo: the files of a torrent *)

Record FileInfo := mkFileInfo {
  fi_Length : Z;
  fi_Path : list string;
  fi_PathUtf8 : list string;
  fi_Attr : string;
  fi_TorrentOffset : Z;
}.

(** [i_tree] is what a version 2 file tree gives: whether it is a folder, and
    its files with their aligned offsets.  [i_pieces] is the length of the
    concatenated piece hashes. *)
Record Info := mkInfo {
  i_PieceLength : Z;
  i_pieces : Z;
  i_Name : string;
  i_NameUtf8 : string;
  i_Length : Z;
  i_Files : list FileInfo;
  i_tree : option (bool * list FileInfo);
}.

Definition BestPath (fi : FileInfo) : list string :=
  match fi_PathUtf8 fi with [] => fi_Path fi | p => p end.

Definition BestName (info : Info) : string :=
  if String.eqb (i_NameUtf8 info) "" then i_Name info else i_NameUtf8 info.

Definition IsDir (info : Info) : bool :=
  match i_tree info with
  | Some (dir, _) => dir
  | None => negb (length (i_Files info) =? 0)%nat
  end.

Definition at_offset (fi : FileInfo) (off : Z) : FileInfo :=
  mkFileInfo (fi_Length fi) (fi_Path fi) (fi_PathUtf8 fi) (fi_Attr fi) off.

Fixpoint lay_out (offset : Z) (files : list FileInfo) : list FileInfo :=
  match files with
  | [] => []
  | fi :: files' => at_offset fi offset :: lay_out (offset ⊞ fi_Length fi) files'
  end.

Definition UpvertedV1Files (info : Info) : list FileInfo :=
  match i_Files info with
  | [] => [mkFileInfo (i_Length info) [] [] "" 0]
  | files => lay_out 0 files
  end.

Definition UpvertedFilesIter (info : Info) : list FileInfo :=
  match i_tree info with
  | Some (_, files) => files
  | None => UpvertedV1Files info
  end.

(** ** layout.go *)

(** Names by hash, in hexadecimal. *)
Abbreviation tops := (gmap string string).

(** Another torrent holds the name. *)
Definition taken (l : tops) (name hash : string) : bool :=
  existsb (fun '(other, top) => String.eqb top name && negb (String.eqb other hash)) (map_to_list l).

(** [layout.top] on a nil layout is the name itself. *)
Definition top (l : option tops) (name hash : string) : string * option tops :=
  match l with
  | None => (name, None)
  | Some l =>
      match l !! hash with
      | Some t => (t, Some l)
      | None =>
          let name := if taken l name hash then name +:+ " [" +:+ str_to hash 8 +:+ "]" else name in
          (name, Some (<[hash := name]> l))
      end
  end.

Definition claim (l : option tops) (hash t : string) : option tops :=
  match l with
  | None => None
  | Some l => if String.eqb t "" then Some l else Some (<[hash := t]> l)
  end.

Definition forget (l : option tops) (hash : string) : option tops :=
  match l with
  | None => None
  | Some l => Some (delete hash l)
  end.

(** A torrent of the client: its hash, its info once known. *)
Record torrent := mkTorrent { t_hash : string; t_info : option Info }.

Definition folder (base : string) (l : option tops) (t : torrent) : string * option tops :=
  match t_info t with
  | Some info =>
      if IsDir info then
        let '(name, l) := top l (BestName info) (t_hash t) in (Join [base; name], l)
      else (Clean base, l)
  | None => (Clean base, l)
  end.

(** [layout.filePath] of a file of a torrent whose info is known; its second
    component, here as in [folder], is the layout after the names it decided. *)
Definition filePath (base : string) (l : option tops) (hash : string) (info : Info) (fi : FileInfo)
    : string * option tops :=
  if negb (IsDir info) then
    let '(name, l) := top l (BestName info) hash in (Join [base; name], l)
  else
    let '(dir, l) := folder base l (mkTorrent hash (Some info)) in
    (Join (dir :: BestPath fi), l).

(** ** storage.go *)

Record segment := mkSegment {
  s_path : string;
  s_offset : Z;
  s_length : Z;
  s_padding : bool;
}.

Inductive error :=
  | ErrEscapes
  | ErrNotExist
  | ErrUnexpectedEOF
  | ErrSystem (what : string).

(** What the operating system refuses, by path: each call's failure, for reads
    and writes with how many bytes went through first. *)
Record io := mkIO {
  open_fails : string -> bool;
  read_fails : string -> option nat;
  mkdir_fails : string -> bool;
  create_fails : string -> bool;
  write_fails : string -> option nat;
  close_fails : string -> bool;
  stat_fails : string -> bool;
  lookup_fails : bool;
}.

Definition no_faults : io :=
  mkIO (fun _ => false) (fun _ => None) (fun _ => false) (fun _ => false) (fun _ => None)
       (fun _ => false) (fun _ => false) false.

Abbreviation disk := (gmap string (list Z)).

(** One file of [OpenTorrent]. *)
Definition segment_of (base dir t : string) (info : Info) (fi : FileInfo) : segment :=
  mkSegment (if IsDir info then Join (dir :: BestPath fi) else Join [dir; t])
    (fi_TorrentOffset fi) (fi_Length fi) (contains (fi_Attr fi) "p").

Fixpoint open_files (base dir t : string) (info : Info) (files : list FileInfo)
    : result error (list segment) :=
  match files with
  | [] => Ok []
  | fi :: files' =>
      let s := segment_of base dir t info fi in
      if Within base (s_path s) then
        match open_files base dir t info files' with
        | Ok segs => Ok (s :: segs)
        | Err e => Err e
        end
      else Err ErrEscapes
  end.

Definition OpenTorrent (base : string) (l : option tops) (info : Info) (hash : string)
    : result error (list segment) * option tops :=
  let '(t, l) := top l (BestName info) hash in
  let dir := if IsDir info then Join [base; t] else Clean base in
  (open_files base dir t info (UpvertedFilesIter info), l).

(** [each]: [f] for every file part of the range, until one fails.  The state
    [S] is what the callbacks change. *)
Fixpoint each {S : Type} (files : list segment) (off fin : Z)
    (f : segment -> Z -> Z -> Z -> S -> S * option error) (st : S) : S * option error :=
  match files with
  | [] => (st, None)
  | s :: files' =>
      let lo := Z.max off (s_offset s) in
      let hi := Z.min fin (s_offset s ⊞ s_length s) in
      if hi <=? lo then each files' off fin f st
      else
        match f s (lo ⊟ s_offset s) (lo ⊟ off) (hi ⊟ lo) st with
        | (st, None) => each files' off fin f st
        | (st, Some e) => (st, Some e)
        end
  end.

(** The callback of [ReadAt], on the buffer. *)
Definition read_part (o : io) (d : disk) (s : segment) (fileOff bufOff n : Z) (b : list Z)
    : list Z * option error :=
  if s_padding s then (splice b bufOff (replicate (Z.to_nat n) 0), None)
  else if open_fails o (s_path s) then (b, Some (ErrSystem "open"))
  else
    match d !! s_path s with
    | None => (b, Some ErrNotExist)
    | Some content =>
        let got := slice content fileOff (fileOff + n) in
        match read_fails o (s_path s) with
        | Some k => (splice b bufOff (take k got), Some (ErrSystem "read"))
        | None =>
            (splice b bufOff got,
             if Z.of_nat (length got) <? n then Some ErrUnexpectedEOF else None)
        end
    end.

(** [ReadAt] fills the buffer and returns how much it read. *)
Definition ReadAt (o : io) (d : disk) (files : list segment) (pieceOffset : Z) (b : list Z) (off : Z)
    : list Z * (Z * option error) :=
  let base := pieceOffset ⊞ off in
  match each files base (base ⊞ Z.of_nat (length b)) (read_part o d) b with
  | (b, None) => (b, (Z.of_nat (length b), None))
  | (b, Some e) => (b, (0, Some e))
  end.

(** A file written at an offset grows with zeros up to it; writing nothing
    leaves it. *)
Definition write_file (content : list Z) (off : Z) (data : list Z) : list Z :=
  match data with
  | [] => content
  | _ => splice (content ++ replicate (Z.to_nat off - length content) 0) off data
  end.

(** The files a writer changes: the disk, and those marked sparse this run. *)
Record store := mkStore { on_disk : disk; sparse : gmap string bool }.

(** The callback of [WriteAt]. *)
Definition write_part (o : io) (b : list Z) (s : segment) (fileOff bufOff n : Z) (st : store)
    : store * option error :=
  if s_padding s then (st, None)
  else if mkdir_fails o (s_path s) then (st, Some (ErrSystem "mkdir"))
  else if create_fails o (s_path s) then (st, Some (ErrSystem "create"))
  else
    let content := default [] (on_disk st !! s_path s) in
    let marked := <[s_path s := true]> (sparse st) in
    let data := slice b bufOff (bufOff + n) in
    match write_fails o (s_path s) with
    | Some k =>
        (mkStore (<[s_path s := write_file content fileOff (take k data)]> (on_disk st)) marked,
         Some (ErrSystem "write"))
    | None =>
        (mkStore (<[s_path s := write_file content fileOff data]> (on_disk st)) marked,
         if close_fails o (s_path s) then Some (ErrSystem "close") else None)
    end.

Definition WriteAt (o : io) (st : store) (files : list segment) (pieceOffset : Z) (b : list Z) (off : Z)
    : store * (Z * option error) :=
  let base := pieceOffset ⊞ off in
  match each files base (base ⊞ Z.of_nat (length b)) (write_part o b) st with
  | (st, None) => (st, (Z.of_nat (length b), None))
  | (st, Some e) => (st, (0, Some e))
  end.

(** ** Completion records *)

Record Completion := mkCompletion { c_Err : option error; Complete : bool; Okay : bool }.

(** Recorded pieces: known complete, known incomplete, or unknown. *)
Abbreviation pieces := (gmap (string * Z) bool).

(** A piece of a torrent. *)
Record piece := mkPiece { p_hash : string; p_Index : Z; p_Offset : Z; p_Length : Z }.

Definition get_completion (ps : pieces) (p : piece) : Completion :=
  match ps !! (p_hash p, p_Index p) with
  | Some c => mkCompletion None c true
  | None => mkCompletion None false false
  end.

Definition MarkComplete (ps : pieces) (p : piece) : pieces := <[(p_hash p, p_Index p) := true]> ps.
Definition MarkNotComplete (ps : pieces) (p : piece) : pieces := <[(p_hash p, p_Index p) := false]> ps.

Definition on_disk_part (o : io) (d : disk) (s : segment) (fileOff _bufOff n : Z) (ok : bool)
    : bool * option error :=
  if s_padding s then (ok, None)
  else
    match d !! s_path s with
    | Some content =>
        if stat_fails o (s_path s) || (Z.of_nat (length content) <? fileOff ⊞ n)
        then (false, None) else (ok, None)
    | None => (false, None)
    end.

Definition onDisk (o : io) (d : disk) (files : list segment) (p : piece) : bool :=
  fst (each files (p_Offset p) (p_Offset p ⊞ p_Length p) (on_disk_part o d) true).

Definition completion (o : io) (d : disk) (files : list segment) (ps : pieces) (p : piece) : Completion :=
  let c := get_completion ps p in
  if lookup_fails o then mkCompletion None false false
  else if Okay c && negb (Complete c) then c
  else if negb (onDisk o d files p) then mkCompletion None false true
  else c.

(** ** Bytes *)

Lemma slice_all (l : list Z) : slice l 0 (Z.of_nat (length l)) = l.
Proof. unfold slice. rewrite Z.sub_0_r, Nat2Z.id, drop_0. by apply take_ge. Qed.

Lemma write_file_in c off data i :
  0 <= off -> (i < length data)%nat ->
  write_file c off data !! (Z.to_nat off + i)%nat = data !! i.
Proof.
  intros Hoff Hi. unfold write_file. destruct data as [|x data]; [simpl in Hi; lia|].
  apply lookup_splice_in; [lia| |done]. rewrite length_app, length_replicate. lia.
Qed.

Lemma write_file_out c off data i v :
  0 <= off -> c !! i = Some v ->
  (i < Z.to_nat off \/ Z.to_nat off + length data <= i)%nat ->
  write_file c off data !! i = Some v.
Proof.
  intros Hoff Hc Hi. unfold write_file. destruct data as [|x data]; [done|].
  pose proof (lookup_lt_Some _ _ _ Hc) as Hlt.
  unfold splice. destruct Hi as [Hi|Hi].
  - rewrite lookup_app_l by (rewrite length_take, length_app, length_replicate; lia).
    rewrite lookup_take_lt by lia. by apply lookup_app_l_Some.
  - rewrite lookup_app_r by (rewrite length_take; lia).
    rewrite length_take, length_app, length_replicate.
    rewrite lookup_app_r by lia. rewrite lookup_drop.
    replace (Z.to_nat off + length (x :: data) + _)%nat with i by lia.
    by apply lookup_app_l_Some.
Qed.

(** ** The parts of a range *)

(** Segments in order, without overlap, within [0, 2^62). *)
Fixpoint laid_out (from : Z) (files : list segment) : Prop :=
  match files with
  | [] => True
  | s :: files' =>
      from <= s_offset s /\ 0 <= s_length s /\ s_offset s + s_length s < 2 ^ 62 /\
      laid_out (s_offset s + s_length s) files'
  end.

Definition within (s : segment) (pos : Z) : Prop := s_offset s <= pos < s_offset s + s_length s.

Lemma laid_out_from from from' files : from' <= from -> laid_out from files -> laid_out from' files.
Proof. destruct files; simpl; [done|]. intuition lia. Qed.

Lemma laid_out_in from files s :
  laid_out from files -> s ∈ files ->
  from <= s_offset s /\ 0 <= s_length s /\ s_offset s + s_length s < 2 ^ 62.
Proof.
  revert from. induction files as [|x files IH]; intros from Hl Hs; [by apply elem_of_nil in Hs|].
  destruct Hl as (? & ? & ? & Hl). apply elem_of_cons in Hs as [->|Hs]; [done|].
  destruct (IH _ Hl Hs) as (? & ? & ?). lia.
Qed.

(** A position of the torrent lies in at most one file. *)
Lemma laid_out_tail from s files pos :
  laid_out from (s :: files) -> within s pos -> forall s', s' ∈ files -> ~ within s' pos.
Proof.
  intros (_ & _ & _ & Hl) Hp s' Hs' Hw. destruct (laid_out_in _ _ _ Hl Hs') as (? & _ & _).
  unfold within in *. lia.
Qed.

(** The byte of a position in a file: zero in padding. *)
Definition byte_of_segment (d : disk) (s : segment) (pos : Z) : option Z :=
  if s_padding s then Some 0
  else c ← d !! s_path s; c !! Z.to_nat (pos - s_offset s).

(** ** Reading *)

Lemma splice_in (b src : list Z) lo pos i :
  0 <= lo <= pos -> pos < lo + Z.of_nat (length src) ->
  lo + Z.of_nat (length src) <= Z.of_nat (length b) -> i = Z.to_nat pos ->
  splice b lo src !! i = src !! Z.to_nat (pos - lo).
Proof.
  intros H1 H2 H3 ->. replace (Z.to_nat pos) with (Z.to_nat lo + Z.to_nat (pos - lo))%nat by lia.
  apply lookup_splice_in; lia.
Qed.

Section read.
Context (o : io) (d : disk) (off : Z).

(** What one part of a read does: it keeps the buffer's length and everything
    outside the part, and, where it succeeds, fills the part with the file's
    bytes. *)
Lemma read_part_spec s lo n b b' e :
  read_part o d s (lo - s_offset s) (lo - off) n b = (b', e) ->
  0 <= off <= lo -> s_offset s <= lo -> 0 < n -> lo + n <= off + Z.of_nat (length b) ->
  length b' = length b /\
  (forall i, (off + Z.of_nat i < lo \/ lo + n <= off + Z.of_nat i) -> b' !! i = b !! i) /\
  (e = None -> forall i, lo <= off + Z.of_nat i < lo + n ->
     b' !! i = byte_of_segment d s (off + Z.of_nat i)).
Proof.
  intros Hr Hoff Hs Hn Hb. unfold read_part in Hr.
  assert (forall src, Z.of_nat (length src) <= n ->
    length (splice b (lo - off) src) = length b /\
    (forall i, (off + Z.of_nat i < lo \/ lo + n <= off + Z.of_nat i) ->
       splice b (lo - off) src !! i = b !! i)) as Hsp.
  { intros src Hlen. split; [apply length_splice; lia|].
    intros i Hi. apply lookup_splice_out; lia. }
  unfold byte_of_segment. destruct (s_padding s).
  { simplify_eq. destruct (Hsp (replicate (Z.to_nat n) 0)) as [? ?]; [rewrite length_replicate; lia|].
    split_and!; [done|done|]. intros _ i Hi.
    rewrite (splice_in _ _ _ (off + Z.of_nat i - off)) by (rewrite ?length_replicate; lia).
    apply lookup_replicate_2. lia. }
  destruct (open_fails o (s_path s)); [by simplify_eq|].
  destruct (d !! s_path s) as [content|]; [|by simplify_eq]. simpl.
  set (got := slice content (lo - s_offset s) (lo - s_offset s + n)) in *.
  assert (Z.of_nat (length got) <= n) as Hgot.
  { subst got. unfold slice. rewrite length_take, length_drop. lia. }
  destruct (read_fails o (s_path s)) as [k|].
  { simplify_eq. destruct (Hsp (take k got)) as [? ?]; [rewrite length_take; lia|done]. }
  simplify_eq. destruct (Hsp got Hgot) as [? ?]. split_and!; [done|done|].
  intros He i Hi. destruct (Z.ltb_spec (Z.of_nat (length got)) n); [done|].
  rewrite (splice_in _ _ _ (off + Z.of_nat i - off)) by lia.
  subst got. rewrite lookup_slice by lia. f_equal. lia.
Qed.

(** Where a read cannot fail: the files are there and long enough. *)
Definition readable (s : segment) (hi : Z) : Prop :=
  s_padding s = true \/
  open_fails o (s_path s) = false /\ read_fails o (s_path s) = None /\
  exists c, d !! s_path s = Some c /\ hi - s_offset s <= Z.of_nat (length c).

Lemma read_part_ok s lo n b :
  s_offset s <= lo -> 0 < n -> readable s (lo + n) ->
  snd (read_part o d s (lo - s_offset s) (lo - off) n b) = None.
Proof.
  intros Hs Hn. unfold readable, read_part.
  intros [->|(Ho & Hr & c & Hc & Hlen)]; [done|]. destruct (s_padding s); [done|].
  rewrite Ho, Hc, Hr. simpl.
  destruct (Z.ltb_spec (Z.of_nat (length (slice c (lo - s_offset s) (lo - s_offset s + n)))) n); [|done].
  unfold slice in *. rewrite length_take, length_drop in *. lia.
Qed.

(** The whole loop: the buffer outside the files is untouched, and a position
    some file holds gets the file's byte when the read succeeds. *)
Lemma each_read fin from files b b' e :
  each files off fin (read_part o d) b = (b', e) ->
  laid_out from files -> 0 <= off -> fin = off + Z.of_nat (length b) -> fin < 2 ^ 62 -> 0 <= from ->
  length b' = length b /\
  (forall i, (forall s, s ∈ files -> ~ within s (off + Z.of_nat i)) -> b' !! i = b !! i) /\
  (e = None -> forall s i, s ∈ files -> within s (off + Z.of_nat i) -> (i < length b)%nat ->
     b' !! i = byte_of_segment d s (off + Z.of_nat i)).
Proof.
  revert b from. induction files as [|s files IH]; intros b from He Hl Hoff Hfin Hmax Hfrom.
  { simpl in He. simplify_eq. split_and!; [done|done|]. intros _ s i Hs. by apply elem_of_nil in Hs. }
  pose proof Hl as (Hs1 & Hs2 & Hs3 & Hl'). simpl in He. rewrite i64_add_small in He by no_overflow.
  destruct (Z.leb_spec (Z.min fin (s_offset s + s_length s)) (Z.max off (s_offset s))) as [Hle|Hlt].
  { destruct (IH b _ He Hl' Hoff Hfin Hmax ltac:(lia)) as (Hlen & Hout & Hin).
    split_and!; [done| |].
    - intros i Hi. apply Hout. intros s' Hs'. apply Hi. by right.
    - intros Hn s' i [->|Hs']%elem_of_cons Hw Hi; [unfold within in Hw; lia|]. by apply Hin. }
  rewrite !i64_sub_small in He by no_overflow.
  set (lo := Z.max off (s_offset s)) in *. set (hi := Z.min fin (s_offset s + s_length s)) in *.
  destruct (read_part o d s (lo - s_offset s) (lo - off) (hi - lo) b) as [b1 e1] eqn:Hp.
  destruct (read_part_spec s lo (hi - lo) b b1 e1 Hp) as (Hlen1 & Hout1 & Hin1); [lia..|].
  assert (forall i, ~ within s (off + Z.of_nat i) -> b1 !! i = b !! i) as Hout1'.
  { intros i Hi. destruct (decide (i < length b)%nat).
    - apply Hout1. unfold within in Hi. lia.
    - rewrite !lookup_ge_None_2 by lia. done. }
  destruct e1 as [err|].
  { simplify_eq. split_and!; [done| |done]. intros i Hi. apply Hout1', Hi. left. }
  destruct (IH b1 _ He Hl' Hoff ltac:(lia) Hmax ltac:(lia)) as (Hlen & Hout & Hin).
  split_and!; [lia| |].
  - intros i Hi. rewrite Hout by (intros s' Hs'; apply Hi; by right). apply Hout1', Hi. left.
  - intros Hn s' i [->|Hs']%elem_of_cons Hw Hi; [|apply Hin; [done|done|done|lia]].
    rewrite Hout by (by eapply laid_out_tail). apply Hin1; [done|]. unfold within in Hw. lia.
Qed.

Lemma each_read_ok fin from files b :
  laid_out from files -> 0 <= off -> fin < 2 ^ 62 -> 0 <= from ->
  (forall s, s ∈ files -> Z.max off (s_offset s) < Z.min fin (s_offset s + s_length s) ->
     readable s (Z.min fin (s_offset s + s_length s))) ->
  snd (each files off fin (read_part o d) b) = None.
Proof.
  revert b from. induction files as [|s files IH]; intros b from Hl Hoff Hmax Hfrom Hr; [done|].
  destruct Hl as (Hs1 & Hs2 & Hs3 & Hl'). simpl. rewrite i64_add_small by no_overflow.
  assert (forall b, snd (each files off fin (read_part o d) b) = None) as Hrest.
  { intros b1. eapply IH; [done|done|done|lia|]. intros s' Hs'. apply Hr. by right. }
  destruct (Z.leb_spec (Z.min fin (s_offset s + s_length s)) (Z.max off (s_offset s))) as [Hle|Hlt];
    [done|].
  rewrite !i64_sub_small by no_overflow.
  pose proof (read_part_ok s (Z.max off (s_offset s))
    (Z.min fin (s_offset s + s_length s) - Z.max off (s_offset s)) b) as Hok.
  destruct (read_part _ _ _ _ _ _ _) as [b1 e1]. simpl in Hok. rewrite Hok; [done|lia|lia|].
  replace (_ + _) with (Z.min fin (s_offset s + s_length s)) by lia.
  apply Hr; [left|lia].
Qed.
End read.

(** ** Writing *)

(** The files a write reaches have paths of their own. *)
Definition own_paths (files : list segment) : Prop :=
  NoDup (map s_path (List.filter (fun s => negb (s_padding s)) files)).

Lemma own_paths_cons s files :
  own_paths (s :: files) ->
  own_paths files /\
  (s_padding s = false -> forall s', s' ∈ files -> s_padding s' = false -> s_path s' <> s_path s).
Proof.
  unfold own_paths. simpl. destruct (s_padding s); simpl; [by split|].
  intros [Hn Hd]%NoDup_cons. split; [done|]. intros _ s' Hs' Hp He. apply Hn.
  rewrite <- He. apply list_elem_of_fmap_2, list_elem_of_In, filter_In.
  by rewrite <- list_elem_of_In, Hp.
Qed.

Section write.
Context (o : io) (b : list Z) (off : Z).

(** One part: only its own file changes, and only in the part's range. *)
Lemma write_part_spec s lo n st st' e :
  write_part o b s (lo - s_offset s) (lo - off) n st = (st', e) ->
  0 <= off <= lo -> s_offset s <= lo -> 0 < n -> lo + n <= off + Z.of_nat (length b) ->
  (forall p, (s_padding s = true \/ p <> s_path s) -> on_disk st' !! p = on_disk st !! p) /\
  (forall pos v, ~ lo <= pos < lo + n -> s_offset s <= pos ->
     byte_of_segment (on_disk st) s pos = Some v -> byte_of_segment (on_disk st') s pos = Some v) /\
  (e = None -> s_padding s = false -> forall i, lo <= off + Z.of_nat i < lo + n ->
     byte_of_segment (on_disk st') s (off + Z.of_nat i) = b !! i).
Proof.
  intros Hw Hoff Hs Hn Hb. unfold write_part in Hw. unfold byte_of_segment.
  destruct (s_padding s) eqn:Hpad; [by simplify_eq|].
  destruct (mkdir_fails o _); [by simplify_eq|]. destruct (create_fails o _); [by simplify_eq|].
  set (content := default [] (on_disk st !! s_path s)) in *.
  set (data := slice b (lo - off) (lo - off + n)) in *.
  assert (Z.of_nat (length data) = n) as Hlen.
  { subst data. rewrite length_slice by lia. lia. }
  assert (forall src, (length src <= length data)%nat ->
    let d' := <[s_path s := write_file content (lo - s_offset s) src]> (on_disk st) in
    (forall p, (false = true \/ p <> s_path s) -> d' !! p = on_disk st !! p) /\
    (forall pos v, ~ lo <= pos < lo + n -> s_offset s <= pos ->
       (c ← on_disk st !! s_path s; c !! Z.to_nat (pos - s_offset s)) = Some v ->
       (c ← d' !! s_path s; c !! Z.to_nat (pos - s_offset s)) = Some v)) as Hkeep.
  { intros src Hsrc. cbv zeta. split.
    - intros p [?|Hp]; [done|]. by rewrite lookup_insert_ne.
    - intros pos v Hpos Hpos' Hv. rewrite lookup_insert_eq. simpl.
      apply write_file_out; [lia| |lia]. subst content.
      destruct (on_disk st !! s_path s); [done|done]. }
  destruct (write_fails o (s_path s)) as [k|]; simplify_eq; simpl.
  - destruct (Hkeep (take k data)) as [? ?]; [rewrite length_take; lia|done].
  - destruct (Hkeep data) as [? ?]; [done|]. split_and!; [done|done|].
    intros He _ i Hi. rewrite lookup_insert_eq. simpl.
    replace (Z.to_nat (off + Z.of_nat i - s_offset s)) with
      (Z.to_nat (lo - s_offset s) + Z.to_nat (off + Z.of_nat i - lo))%nat by lia.
    rewrite write_file_in by lia. subst data. rewrite lookup_slice by lia. f_equal. lia.
Qed.

Lemma byte_of_segment_ext d d' s pos :
  (s_padding s = false -> d' !! s_path s = d !! s_path s) ->
  byte_of_segment d' s pos = byte_of_segment d s pos.
Proof. unfold byte_of_segment. destruct (s_padding s); [done|]. by intros ->. Qed.

(** The whole loop: paths of no file are untouched; bytes outside the range
    survive, even when a part fails; and the range holds the buffer when it
    succeeds. *)
Lemma each_write fin from files st st' e :
  each files off fin (write_part o b) st = (st', e) ->
  laid_out from files -> own_paths files ->
  0 <= off -> fin = off + Z.of_nat (length b) -> fin < 2 ^ 62 -> 0 <= from ->
  (forall p, (forall s, s ∈ files -> s_padding s = false -> p <> s_path s) ->
     on_disk st' !! p = on_disk st !! p) /\
  (forall s pos v, s ∈ files -> within s pos -> ~ off <= pos < fin ->
     byte_of_segment (on_disk st) s pos = Some v -> byte_of_segment (on_disk st') s pos = Some v) /\
  (e = None -> forall s i, s ∈ files -> s_padding s = false -> within s (off + Z.of_nat i) ->
     (i < length b)%nat -> byte_of_segment (on_disk st') s (off + Z.of_nat i) = b !! i).
Proof.
  revert st from. induction files as [|s files IH]; intros st from He Hl Hp Hoff Hfin Hmax Hfrom.
  { simpl in He. simplify_eq. split_and!; [done|by intros s pos v Hs%elem_of_nil|by intros _ s i Hs%elem_of_nil]. }
  pose proof Hl as (Hs1 & Hs2 & Hs3 & Hl'). destruct (own_paths_cons _ _ Hp) as [Hp' Hown].
  simpl in He. rewrite i64_add_small in He by no_overflow.
  destruct (Z.leb_spec (Z.min fin (s_offset s + s_length s)) (Z.max off (s_offset s))) as [Hle|Hlt].
  { destruct (IH st _ He Hl' Hp' Hoff Hfin Hmax ltac:(lia)) as (Hfr & Hout & Hin).
    assert (s_padding s = false -> on_disk st' !! s_path s = on_disk st !! s_path s) as Hs.
    { intros Hpad. apply Hfr. intros s' Hs' Hpad' Heq. by eapply (Hown Hpad s'). }
    split_and!.
    - intros p Hfresh. apply Hfr. intros s' Hs'. apply Hfresh. by right.
    - intros s' pos v [->|Hs']%elem_of_cons Hw Hpos Hv; [|by eapply Hout].
      by rewrite (byte_of_segment_ext (on_disk st)).
    - intros Hn s' i [->|Hs']%elem_of_cons Hpad Hw Hi; [unfold within in Hw; lia|by apply Hin]. }
  rewrite !i64_sub_small in He by no_overflow.
  set (lo := Z.max off (s_offset s)) in *. set (hi := Z.min fin (s_offset s + s_length s)) in *.
  destruct (write_part o b s (lo - s_offset s) (lo - off) (hi - lo) st) as [st1 e1] eqn:Hw1.
  destruct (write_part_spec s lo (hi - lo) st st1 e1 Hw1) as (Hfr1 & Hout1 & Hin1); [lia..|].
  assert (forall s' pos, s' ∈ files ->
    byte_of_segment (on_disk st1) s' pos = byte_of_segment (on_disk st) s' pos) as Hother.
  { intros s' pos Hs'. apply byte_of_segment_ext. intros Hpad. apply Hfr1.
    destruct (s_padding s) eqn:E; [by left|right]. by apply Hown. }
  destruct e1 as [err|].
  { simplify_eq. split_and!; [| |done].
    - intros p Hfresh. apply Hfr1. destruct (s_padding s) eqn:E; [by left|right].
      apply Hfresh; [left|done].
    - intros s' pos v [->|Hs']%elem_of_cons Hw Hpos Hv; [|by rewrite Hother].
      apply Hout1; [lia|unfold within in Hw; lia|done]. }
  destruct (IH st1 _ He Hl' Hp' Hoff Hfin Hmax ltac:(lia)) as (Hfr & Hout & Hin).
  assert (s_padding s = false -> on_disk st' !! s_path s = on_disk st1 !! s_path s) as Hs.
  { intros Hpad. apply Hfr. intros s' Hs' Hpad' Heq. by eapply (Hown Hpad s'). }
  split_and!.
  - intros p Hfresh. rewrite Hfr by (intros s' Hs'; apply Hfresh; by right).
    apply Hfr1. destruct (s_padding s) eqn:E; [by left|right]. apply Hfresh; [left|done].
  - intros s' pos v [->|Hs']%elem_of_cons Hw Hpos Hv.
    + rewrite (byte_of_segment_ext (on_disk st1)) by done.
      apply Hout1; [lia|unfold within in Hw; lia|done].
    + apply Hout; [done|done|done|]. by rewrite Hother.
  - intros Hn s' i [->|Hs']%elem_of_cons Hpad Hw Hi; [|by apply Hin].
    rewrite (byte_of_segment_ext (on_disk st1)) by done. apply Hin1; [done|done|].
    unfold within in Hw. lia.
Qed.

(** Nothing fails where the system refuses nothing. *)
Lemma each_write_ok fin files st :
  o = no_faults -> snd (each files off fin (write_part o b) st) = None.
Proof.
  intros ->. revert st. induction files as [|s files IH]; intros st; simpl; [done|].
  destruct (_ <=? _); [done|]. unfold write_part at 1. destruct (s_padding s); [done|]. simpl. apply IH.
Qed.
End write.

(** ** Properties of the storage *)

(** Files that leave no gap from [from] to [fin]. *)
Fixpoint contiguous (from fin : Z) (files : list segment) : Prop :=
  match files with
  | [] => from = fin
  | s :: files' => s_offset s = from /\ contiguous (from + s_length s) fin files'
  end.

Lemma contiguous_cover from fin files pos :
  contiguous from fin files -> from <= pos < fin -> exists s, s ∈ files /\ within s pos.
Proof.
  revert from. induction files as [|s files IH]; intros from Hc Hpos; simpl in Hc; [lia|].
  destruct Hc as [Ho Hc]. destruct (decide (pos < from + s_length s)).
  - exists s. split; [left|]. unfold within. lia.
  - destruct (IH _ Hc ltac:(lia)) as (s' & ? & ?). exists s'. split; [by right|done].
Qed.

Section Storage_facts.
Context (files : list segment) (total : Z).
Context (Hlaid : laid_out 0 files) (Hown : own_paths files) (Htotal : total < 2 ^ 62).

Definition in_range (off : Z) (b : list Z) : Prop :=
  0 <= off /\ off + Z.of_nat (length b) <= total.

Lemma WriteAt_each o st pieceOffset b off :
  0 <= pieceOffset -> 0 <= off -> in_range (pieceOffset + off) b ->
  WriteAt o st files pieceOffset b off =
  match each files (pieceOffset + off) (pieceOffset + off + Z.of_nat (length b)) (write_part o b) st with
  | (st, None) => (st, (Z.of_nat (length b), None))
  | (st, Some e) => (st, (0, Some e))
  end.
Proof.
  intros Hp Ho [Hr1 Hr2]. unfold WriteAt. by rewrite !i64_add_small by no_overflow.
Qed.

Lemma ReadAt_each o d pieceOffset b off :
  0 <= pieceOffset -> 0 <= off -> in_range (pieceOffset + off) b ->
  ReadAt o d files pieceOffset b off =
  match each files (pieceOffset + off) (pieceOffset + off + Z.of_nat (length b)) (read_part o d) b with
  | (b, None) => (b, (Z.of_nat (length b), None))
  | (b, Some e) => (b, (0, Some e))
  end.
Proof.
  intros Hp Ho [Hr1 Hr2]. unfold ReadAt. by rewrite !i64_add_small by no_overflow.
Qed.
End Storage_facts.

(** C1: What is written is what is read: after a write the system let through,
    reading the same range of files without gaps or padding succeeds and gives
    the bytes written, wherever the range crosses from file to file. *)
Theorem WriteAt_ReadAt (files : list segment) (total : Z) (st : store)
    (pieceOffset off : Z) (b old : list Z)
    (Hlaid : laid_out 0 files) (Hown : own_paths files)
    (Hfull : contiguous 0 total files) (Hpad : forall s, s ∈ files -> s_padding s = false)
    (Htotal : total < 2 ^ 62) (Hp : 0 <= pieceOffset) (Ho : 0 <= off)
    (Hr : in_range total (pieceOffset + off) b) (Hold : length old = length b) :
  exists st', WriteAt no_faults st files pieceOffset b off = (st', (Z.of_nat (length b), None)) /\
    ReadAt no_faults (on_disk st') files pieceOffset old off = (b, (Z.of_nat (length b), None)).
Proof.
  rewrite (WriteAt_each files total) by done. destruct Hr as [Hr1 Hr2].
  set (at0 := pieceOffset + off) in *.
  destruct (each files at0 _ (write_part no_faults b) st) as [st' e] eqn:He.
  pose proof (each_write_ok no_faults b at0 (at0 + Z.of_nat (length b)) files st eq_refl) as Hok.
  rewrite He in Hok. simpl in Hok. subst e. exists st'. split; [done|].
  destruct (each_write _ _ _ _ _ _ _ _ _ He Hlaid Hown Hr1 eq_refl ltac:(lia) ltac:(lia))
    as (_ & _ & Hin). specialize (Hin eq_refl).
  rewrite (ReadAt_each files total) by (done || split; lia). fold at0.
  destruct (each files at0 _ (read_part no_faults (on_disk st')) old) as [b' e'] eqn:Hread.
  assert (e' = None) as ->.
  { change e' with (snd (b', e')). rewrite <- Hread.
    apply (each_read_ok _ _ _ _ 0); [done|done|lia|lia|].
    intros s Hs Hmeet. right. split_and!; [done|done|].
    destruct (laid_out_in _ _ _ Hlaid Hs) as (? & ? & ?).
    assert (within s (Z.min (at0 + Z.of_nat (length old)) (s_offset s + s_length s) - 1) /\
      at0 <= Z.min (at0 + Z.of_nat (length old)) (s_offset s + s_length s) - 1) as [Hw Hge].
    { unfold within. lia. }
    pose proof (Hin s (Z.to_nat (Z.min (at0 + Z.of_nat (length old)) (s_offset s + s_length s) - 1 - at0))
      Hs (Hpad s Hs)) as Hlast.
    rewrite Z2Nat.id in Hlast by lia.
    replace (at0 + (_ - at0)) with (Z.min (at0 + Z.of_nat (length old)) (s_offset s + s_length s) - 1)
      in Hlast by lia.
    specialize (Hlast Hw ltac:(lia)). unfold byte_of_segment in Hlast. rewrite (Hpad s Hs) in Hlast.
    assert (is_Some (b !! Z.to_nat (Z.min (at0 + Z.of_nat (length old)) (s_offset s + s_length s) - 1 - at0)))
      as [v Hv] by (apply lookup_lt_is_Some; lia).
    rewrite Hv in Hlast. apply bind_Some in Hlast as (c & Hc & Hlast).
    exists c. split; [done|]. apply lookup_lt_Some in Hlast. unfold within in Hw. lia. }
  destruct (each_read _ _ _ _ _ _ _ _ _ Hread Hlaid Hr1 eq_refl ltac:(lia) ltac:(lia))
    as (Hlen & _ & Hbytes). specialize (Hbytes eq_refl).
  assert (b' = b) as ->; [|by rewrite Hold in *].
  apply list_eq. intros i. destruct (decide (i < length b)%nat).
  - destruct (contiguous_cover 0 total files (at0 + Z.of_nat i) Hfull ltac:(lia)) as (s & Hs & Hw).
    rewrite (Hbytes s i Hs Hw) by lia. apply Hin; auto.
  - rewrite !lookup_ge_None_2 by lia. done.
Qed.

(** Whatever the system refuses half way, a write leaves every byte of the
    torrent outside its range as it was, and never touches a path that is no
    file of the torrent. *)
Theorem WriteAt_frame (o : io) (files : list segment) (total : Z) (st st' : store)
    (pieceOffset off : Z) (b : list Z) (res : Z * option error)
    (Hlaid : laid_out 0 files) (Hown : own_paths files) (Htotal : total < 2 ^ 62)
    (Hp : 0 <= pieceOffset) (Ho : 0 <= off) (Hr : in_range total (pieceOffset + off) b) :
  WriteAt o st files pieceOffset b off = (st', res) ->
  (forall p, p ∉ map s_path files -> on_disk st' !! p = on_disk st !! p) /\
  (forall s pos v, s ∈ files -> within s pos ->
     ~ pieceOffset + off <= pos < pieceOffset + off + Z.of_nat (length b) ->
     byte_of_segment (on_disk st) s pos = Some v -> byte_of_segment (on_disk st') s pos = Some v).
Proof.
  rewrite (WriteAt_each files total) by done. destruct Hr as [Hr1 Hr2].
  destruct (each files _ _ (write_part o b) st) as [st1 e] eqn:He. intros Hres.
  destruct (each_write _ _ _ _ _ _ _ _ _ He Hlaid Hown Hr1 eq_refl ltac:(lia) ltac:(lia))
    as (Hfr & Hout & _).
  assert (st1 = st') as -> by (destruct e; by simplify_eq).
  split; [|done]. intros q Hq. apply Hfr. intros s Hs _ ->. apply Hq. by apply list_elem_of_fmap_2.
Qed.

(** ** Completion follows the disk *)

Lemma each_on_disk o d off fin from files ok :
  laid_out from files -> 0 <= from -> 0 <= off -> fin < 2 ^ 62 ->
  each files off fin (on_disk_part o d) ok =
  (ok && forallb (fun s =>
     s_padding s || (Z.min fin (s_offset s + s_length s) <=? Z.max off (s_offset s)) ||
     match d !! s_path s with
     | Some c => negb (stat_fails o (s_path s)) &&
                 (Z.min fin (s_offset s + s_length s) - s_offset s <=? Z.of_nat (length c))
     | None => false
     end) files, None).
Proof.
  revert from ok. induction files as [|s files IH]; intros from ok Hl Hfrom Hoff Hfin; simpl.
  { by rewrite andb_true_r. }
  destruct Hl as (H1 & H2 & H3 & Hl). rewrite i64_add_small by no_overflow.
  destruct (Z.leb_spec (Z.min fin (s_offset s + s_length s)) (Z.max off (s_offset s))) as [Hle|Hlt].
  { rewrite orb_true_r. simpl. eapply IH; [done|lia..]. }
  rewrite !i64_sub_small by no_overflow. unfold on_disk_part at 1.
  destruct (s_padding s); simpl; [eapply IH; [done|lia..]|].
  destruct (d !! s_path s) as [c|]; [|rewrite (IH _ false Hl) by lia; by rewrite andb_false_r].
  rewrite i64_add_small by no_overflow.
  replace (Z.max off (s_offset s) - s_offset s +
           (Z.min fin (s_offset s + s_length s) - Z.max off (s_offset s)))
    with (Z.min fin (s_offset s + s_length s) - s_offset s) by lia.
  rewrite Z.ltb_antisym. destruct (stat_fails o (s_path s)); simpl.
  { rewrite (IH _ false Hl) by lia. by rewrite andb_false_r. }
  destruct (_ <=? Z.of_nat (length c)); simpl; rewrite (IH _ _ Hl) by lia; [done|].
  by rewrite andb_false_r.
Qed.

(** A piece counts as complete only while every file it spans is on disk and
    long enough to hold it; missing bytes are a known "no" whatever the record
    says, and a record that says no is believed without a look at the disk. *)
Theorem completion_spec (o : io) (d : disk) (files : list segment) (ps : pieces) (p : piece)
    (Hlaid : laid_out 0 files) (Hp : 0 <= p_Offset p) (Hlen : 0 <= p_Length p)
    (Hmax : p_Offset p + p_Length p < 2 ^ 62) (Hdb : lookup_fails o = false) :
  let c := completion o d files ps p in
  (Okay c = true -> Complete c = true ->
     ps !! (p_hash p, p_Index p) = Some true /\
     forall s, s ∈ files -> s_padding s = false ->
       s_offset s < p_Offset p + p_Length p -> p_Offset p < s_offset s + s_length s -> 0 < s_length s ->
       0 < p_Length p ->
       exists content, d !! s_path s = Some content /\
         Z.min (p_Offset p + p_Length p) (s_offset s + s_length s) - s_offset s <= Z.of_nat (length content)) /\
  (onDisk o d files p = false -> Okay c = true /\ Complete c = false) /\
  (onDisk o d files p = true -> c = get_completion ps p).
Proof.
  unfold completion. rewrite Hdb. unfold get_completion. split_and!.
  - destruct (ps !! (p_hash p, p_Index p)) as [r|]; simpl.
    + destruct r; simpl; [|done]. destruct (onDisk o d files p) eqn:Hd; simpl; [|done].
      intros _ _. split; [done|]. intros s Hs Hpad Hlo Hhi Hpos Hpos'.
      unfold onDisk in Hd. rewrite i64_add_small in Hd by no_overflow.
      rewrite (each_on_disk _ _ _ _ 0) in Hd by (done || lia). simpl in Hd.
      rewrite forallb_forall in Hd. specialize (Hd s ltac:(by apply list_elem_of_In)).
      rewrite Hpad in Hd. simpl in Hd. apply orb_true_iff in Hd as [Hd|Hd]; bool_prop; [lia|].
      destruct (d !! s_path s) as [content|]; [|done]. bool_prop. eauto.
    + by destruct (onDisk o d files p).
  - intros Hd. rewrite Hd. simpl. destruct (ps !! _) as [[]|]; done.
  - intros Hd. rewrite Hd. simpl. by destruct (ps !! _) as [[]|].
Qed.

(** ** Opening a torrent *)

Lemma open_files_spec base dir t info files segs :
  open_files base dir t info files = Ok segs ->
  segs = map (segment_of base dir t info) files /\
  forall s, s ∈ segs -> Within base (s_path s) = true.
Proof.
  revert segs. induction files as [|fi files IH]; intros segs Ho; simpl in Ho.
  { simplify_eq. split; [done|]. by intros s Hs%elem_of_nil. }
  destruct (Within base _) eqn:Hw; [|done].
  destruct (open_files base dir t info files) as [segs'|] eqn:Ho'; [|done]. simplify_eq.
  destruct (IH segs' eq_refl) as [-> Hin]. split; [done|].
  intros s [->|Hs]%elem_of_cons; [done|by apply Hin].
Qed.

Lemma open_files_err base dir t info files e :
  open_files base dir t info files = Err e ->
  exists fi, fi ∈ files /\ Within base (s_path (segment_of base dir t info fi)) = false.
Proof.
  induction files as [|fi files IH]; intros Ho; simpl in Ho; [done|].
  destruct (Within base _) eqn:Hw; [|exists fi; split; [left|done]].
  destruct (open_files base dir t info files); [done|].
  destruct (IH Ho) as (fi' & ? & ?). exists fi'. split; [by right|done].
Qed.

(** The bytes of a version 1 torrent. *)
Definition lengths (info : Info) : list Z :=
  match i_Files info with [] => [i_Length info] | files => map fi_Length files end.

Definition sum (l : list Z) : Z := foldr Z.add 0 l.

Lemma sum_nonneg l : Forall (fun n => 0 <= n) l -> 0 <= sum l.
Proof. induction 1; simpl; lia. Qed.

Lemma lay_out_segments base dir t info from files :
  0 <= from -> Forall (fun n => 0 <= n) (map fi_Length files) ->
  from + sum (map fi_Length files) < 2 ^ 62 ->
  let segs := map (segment_of base dir t info) (lay_out from files) in
  laid_out from segs /\ contiguous from (from + sum (map fi_Length files)) segs.
Proof.
  revert from. induction files as [|fi files IH]; intros from Hfrom Hl Hsum; simpl in *.
  { split; [done|lia]. }
  apply List.Forall_cons_iff in Hl as [Hfi Hl]. pose proof (sum_nonneg _ Hl).
  rewrite i64_add_small by no_overflow.
  destruct (IH (from + fi_Length fi)) as [H1 H2]; [lia|done|lia|].
  split; [split_and!; (done || lia)|]. split; [done|].
  by rewrite Z.add_assoc.
Qed.

(** An opened torrent has every file inside the cache folder, a torrent with
    a file outside is refused, and the files of a version 1 torrent are laid out
    one after the other, without gap or overlap, from zero to their total. *)
Theorem OpenTorrent_spec (base : string) (l : option tops) (info : Info) (hash : string) :
  match fst (OpenTorrent base l info hash) with
  | Ok segs =>
      (forall s, s ∈ segs -> comps base `prefix_of` comps (s_path s) /\ rooted base = rooted (s_path s)) /\
      (i_tree info = None -> Forall (fun n => 0 <= n) (lengths info) -> sum (lengths info) < 2 ^ 62 ->
       laid_out 0 segs /\ contiguous 0 (sum (lengths info)) segs)
  | Err e =>
      exists fi, fi ∈ UpvertedFilesIter info /\
        let t := fst (top l (BestName info) hash) in
        Within base (s_path (segment_of base (if IsDir info then Join [base; t] else Clean base) t info fi)) = false
  end.
Proof.
  unfold OpenTorrent. destruct (top l (BestName info) hash) as [t l'].
  destruct (open_files base _ t info (UpvertedFilesIter info)) as [segs|e] eqn:Ho; simpl.
  - destruct (open_files_spec _ _ _ _ _ _ Ho) as [Hsegs Hin]. split.
    + intros s Hs. by apply Within_inside, Hin.
    + intros Htree Hlen Hsum. subst segs. unfold UpvertedFilesIter, UpvertedV1Files, lengths in *.
      rewrite Htree. destruct (i_Files info) as [|fi files].
      * simpl in *. apply List.Forall_cons_iff in Hlen as [? _]. split; [split_and!; (done || lia)|].
        split; [done|lia].
      * apply (lay_out_segments base _ t info 0 (fi :: files)); [lia|done|done].
  - exact (open_files_err _ _ _ _ _ _ Ho).
Qed.

(** ** Names *)

(** No two torrents have one top name. *)
Definition distinct (l : tops) : Prop :=
  forall h1 h2 t, l !! h1 = Some t -> l !! h2 = Some t -> h1 = h2.

Lemma taken_spec l name hash :
  taken l name hash = true <-> exists other, l !! other = Some name /\ other <> hash.
Proof.
  unfold taken. rewrite existsb_exists. split.
  - intros ([other t] & Hin & He). bool_prop. apply String.eqb_eq in H as ->.
    apply String.eqb_neq in H0. exists other. split; [|done].
    by apply elem_of_map_to_list, list_elem_of_In.
  - intros (other & Ho & Hne). exists (other, name). split.
    + by apply list_elem_of_In, elem_of_map_to_list.
    + rewrite String.eqb_refl. simpl. by apply negb_true_iff, String.eqb_neq.
Qed.

Lemma top_kept l name hash t : l !! hash = Some t -> top (Some l) name hash = (t, Some l).
Proof. intros Ht. simpl. by rewrite Ht. Qed.

(** A torrent keeps the top name it was first given, and the name given to a
    new torrent is no other torrent's, unless some torrent is literally named
    like this one with its hash appended. *)
Theorem top_distinct (l : tops) (name hash : string)
    (Hd : distinct l)
    (Hfree : forall h, l !! h <> Some (name +:+ " [" +:+ str_to hash 8 +:+ "]")) :
  exists t l', top (Some l) name hash = (t, Some l') /\ distinct l' /\ l' !! hash = Some t /\
    (forall h, h <> hash -> l' !! h = l !! h) /\
    forall name', top (Some l') name' hash = (t, Some l').
Proof.
  destruct (l !! hash) as [t|] eqn:Hh.
  { exists t, l. rewrite (top_kept _ _ _ t) by done. split_and!; try done.
    intros name'. by apply top_kept. }
  simpl. rewrite Hh.
  set (t := if taken l name hash then _ else name).
  exists t, (<[hash := t]> l). split; [done|]. split_and!.
  - assert (forall h, l !! h <> Some t) as Hnew.
    { intros h Hl. destruct (taken l name hash) eqn:Ht; [by apply (Hfree h)|].
      assert (taken l name hash = true); [|congruence]. apply taken_spec.
      exists h. split; [done|]. intros ->. congruence. }
    intros h1 h2 t0 H1 H2.
    destruct (decide (h1 = hash)) as [->|], (decide (h2 = hash)) as [->|]; try done.
    + rewrite lookup_insert_eq in H1. rewrite lookup_insert_ne in H2 by done. simplify_eq. by destruct (Hnew h2).
    + rewrite lookup_insert_eq in H2. rewrite lookup_insert_ne in H1 by done. simplify_eq. by destruct (Hnew h1).
    + rewrite lookup_insert_ne in H1, H2 by done. by eapply Hd.
  - by rewrite lookup_insert_eq.
  - intros h Hne. by rewrite lookup_insert_ne.
  - intros name'. by rewrite lookup_insert_eq.
Qed.

(** The appended name is not checked in its turn: a torrent literally named
    "X [bbbbbbbb]" and the second torrent named "X", whose hash begins with
    bbbbbbbb, are given the same folder. *)
Theorem top_collision :
  let '(first, l) := top (Some ∅) "X [bbbbbbbb]" "cccccccc" in
  let '(_, l) := top l "X" "aaaaaaaa" in
  let '(second, l) := top l "X" "bbbbbbbb" in
  first = second.
Proof. vm_compute. reflexivity. Qed.

(** ** The properties at work *)

Definition season : Info :=
  mkInfo 4 40 "Show" "" 0
    [mkFileInfo 5 ["01.mkv"] [] "" 0; mkFileInfo 3 ["02.mkv"] [] "" 0] None.

Definition season_segments : list segment :=
  [mkSegment "/cache/Show/01.mkv" 0 5 false; mkSegment "/cache/Show/02.mkv" 5 3 false].

Example season_opens :
  fst (OpenTorrent "/cache" (Some ∅) season "abcdef0123") = Ok season_segments.
Proof. vm_compute. reflexivity. Qed.

(** A path climbing out of the cache is refused, even into a sibling named like
    it. *)
Example sibling_refused :
  fst (OpenTorrent "/tmp/cache" None
    (mkInfo 4 20 "pack" "" 0 [mkFileInfo 4 [".."; ".."; "cache2"; "x.mkv"] [] "" 0] None) "h") = Err ErrEscapes.
Proof. vm_compute. reflexivity. Qed.

Lemma season_own_paths : own_paths season_segments.
Proof. unfold own_paths. apply (bool_decide_unpack _). vm_compute. exact I. Qed.

Lemma WriteAt_ReadAt_witness :
  exists st', WriteAt no_faults (mkStore ∅ ∅) season_segments 4 [7; 8; 9] 0 = (st', (3, None)) /\
    ReadAt no_faults (on_disk st') season_segments 4 [0; 0; 0] 0 = ([7; 8; 9], (3, None)).
Proof.
  apply (WriteAt_ReadAt season_segments 8 (mkStore ∅ ∅) 4 0 [7; 8; 9] [0; 0; 0]).
  - simpl. lia.
  - exact season_own_paths.
  - simpl. lia.
  - intros s Hs. unfold season_segments in Hs.
    repeat (apply elem_of_cons in Hs as [->|Hs]; [reflexivity|]). destruct (not_elem_of_nil _ Hs).
  - lia.
  - lia.
  - lia.
  - unfold in_range. simpl. lia.
  - reflexivity.
Defined.

(** The second file refuses the write: the first part is written, the byte
    before it stays. *)
Definition second_refuses : io :=
  mkIO (fun _ => false) (fun _ => None) (fun _ => false)
    (fun p => String.eqb p "/cache/Show/02.mkv") (fun _ => None) (fun _ => false) (fun _ => false) false.

Definition before : store := mkStore {["/cache/Show/01.mkv" := [1; 2; 3; 4]]} ∅.
Definition half_written : store := fst (WriteAt second_refuses before season_segments 4 [7; 8; 9] 0).

Lemma WriteAt_frame_witness :
  (forall p, p ∉ map s_path season_segments -> on_disk half_written !! p = on_disk before !! p) /\
  (forall s pos v, s ∈ season_segments -> within s pos ->
     ~ 4 + 0 <= pos < 4 + 0 + Z.of_nat (length [7; 8; 9]) ->
     byte_of_segment (on_disk before) s pos = Some v -> byte_of_segment (on_disk half_written) s pos = Some v).
Proof.
  apply (WriteAt_frame second_refuses season_segments 8 before half_written 4 0 [7; 8; 9]
           (0, Some (ErrSystem "create"))).
  - simpl. lia.
  - exact season_own_paths.
  - lia.
  - lia.
  - lia.
  - unfold in_range. simpl. lia.
  - vm_compute. reflexivity.
Defined.

Lemma completion_spec_witness :
  let d : disk := {["/cache/Show/01.mkv" := [1; 2; 3; 4; 5]]} in
  let ps : pieces := {[("h", 0) := true]} in
  let p := mkPiece "h" 0 0 4 in
  let c := completion no_faults d season_segments ps p in
  (Okay c = true -> Complete c = true ->
     ps !! (p_hash p, p_Index p) = Some true /\
     forall s, s ∈ season_segments -> s_padding s = false ->
       s_offset s < p_Offset p + p_Length p -> p_Offset p < s_offset s + s_length s -> 0 < s_length s ->
       0 < p_Length p ->
       exists content, d !! s_path s = Some content /\
         Z.min (p_Offset p + p_Length p) (s_offset s + s_length s) - s_offset s <= Z.of_nat (length content)) /\
  (onDisk no_faults d season_segments p = false -> Okay c = true /\ Complete c = false) /\
  (onDisk no_faults d season_segments p = true -> c = get_completion ps p).
Proof.
  apply (completion_spec no_faults {["/cache/Show/01.mkv" := [1; 2; 3; 4; 5]]} season_segments
           {[("h", 0) := true]} (mkPiece "h" 0 0 4)).
  - simpl. lia.
  - simpl. lia.
  - simpl. lia.
  - simpl. lia.
  - reflexivity.
Defined.

Lemma top_distinct_witness :
  exists t l', top (Some {["aaaaaaaa" := "X"]}) "X" "bbbbbbbb" = (t, Some l') /\ distinct l' /\
    l' !! "bbbbbbbb" = Some t /\
    (forall h, h <> "bbbbbbbb" -> l' !! h = ({["aaaaaaaa" := "X"]} : tops) !! h) /\
    forall name', top (Some l') name' "bbbbbbbb" = (t, Some l').
Proof.
  apply (top_distinct {["aaaaaaaa" := "X"]} "X" "bbbbbbbb").
  - intros h1 h2 t H1 H2. apply lookup_singleton_Some in H1, H2. destruct H1, H2. congruence.
  - intros h Hh. apply lookup_singleton_Some in Hh as [_ Hh]. discriminate Hh.
Defined.
