(* ===== verification/Engine.v ===== *)
(** * What the engine holds: internal/engine/torrents.go

    Removing a torrent with its data ([remove], with [layout.shared] deciding
    what another torrent still uses), forgetting the records of deleted files
    ([forgetMissing]), whether a selection is finished ([verified]) and which
    stretches of a file are on disk ([fileRanges]).

    Torrents are held by hash, in the order the client lists them; the disk and
    the completion records are those of the storage. *)
From stdpp Require Import base gmap strings list.
From Stdlib Require Import ZArith Lia Sorted.
From S2P Require Import Prelude GoStr Paths Storage.

Record engine := mkEngine {
  held : list torrent;
  names : option tops;
  records : pieces;
  files_on : disk;
}.

(** ** layout.shared *)

Section Layout.
Context (base : string).

(** Whether [path] is a file of [o], under the names decided so far. *)
Fixpoint maps_to (l : option tops) (hash : string) (info : Info) (files : list FileInfo) (path : string)
    : bool * option tops :=
  match files with
  | [] => (false, l)
  | fi :: files' =>
      let '(p, l) := filePath base l hash info fi in
      if String.eqb p path then (true, l) else maps_to l hash info files' path
  end.

Fixpoint shared (l : option tops) (path hash : string) (others : list torrent) : bool * option tops :=
  match others with
  | [] => (false, l)
  | o :: others' =>
      match t_info o with
      | None => shared l path hash others'
      | Some info =>
          if String.eqb (t_hash o) hash then shared l path hash others'
          else
            match maps_to l (t_hash o) info (UpvertedFilesIter info) path with
            | (true, l) => (true, l)
            | (false, l) => shared l path hash others'
            end
      end
  end.

(** The paths [remove] deletes: those of the torrent's files no other holds. *)
Fixpoint own_files (l : option tops) (hash : string) (info : Info) (files : list FileInfo)
    (others : list torrent) : list string * option tops :=
  match files with
  | [] => ([], l)
  | fi :: files' =>
      let '(p, l) := filePath base l hash info fi in
      let '(sh, l) := shared l p hash others in
      let '(paths, l) := own_files l hash info files' others in
      (if sh then paths else p :: paths, l)
  end.
End Layout.

(** ** remove *)

Definition NumPieces (info : Info) : Z := i_pieces info `div` 20.

(** The records of pieces [from, from + n) set to incomplete. *)
Fixpoint clear_records (ps : pieces) (hash : string) (from : Z) (n : nat) : pieces :=
  match n with
  | O => ps
  | S n' => clear_records (<[(hash, from) := false]> ps) hash (from + 1) n'
  end.

(** [os.Remove] of each path; those the system refuses are kept and reported. *)
Fixpoint remove_files (refuses : string -> bool) (d : disk) (paths : list string) : disk * list string :=
  match paths with
  | [] => (d, [])
  | p :: paths' =>
      match d !! p with
      | None => remove_files refuses d paths'
      | Some _ =>
          if refuses p then
            let '(d, failed) := remove_files refuses d paths' in (d, p :: failed)
          else remove_files refuses (delete p d) paths'
      end
  end.

(** [remove]: the torrent leaves the engine; with [data], its own files go and
    its records say so; the paths that could not be removed are the error. *)
Definition remove (base : string) (refuses : string -> bool) (e : engine) (t : torrent) (data : bool)
    : engine * list string :=
  let others := List.filter (fun o => negb (String.eqb (t_hash o) (t_hash t))) (held e) in
  match t_info t, data with
  | Some info, true =>
      let '(paths, l) := own_files base (names e) (t_hash t) info (UpvertedFilesIter info) others in
      let '(d, failed) := remove_files refuses (files_on e) paths in
      (mkEngine others (forget l (t_hash t))
         (clear_records (records e) (t_hash t) 0 (Z.to_nat (NumPieces info))) d, failed)
  | _, _ => (mkEngine others (forget (names e) (t_hash t)) (records e) (files_on e), [])
  end.

(** ** forgetMissing *)

Definition BeginPieceIndex (pieceLength : Z) (fi : FileInfo) : Z :=
  if pieceLength =? 0 then 0 else i64_div (fi_TorrentOffset fi) pieceLength.

Definition EndPieceIndex (pieceLength : Z) (fi : FileInfo) : Z :=
  if pieceLength =? 0 then 0
  else i64_div (((fi_TorrentOffset fi ⊞ fi_Length fi) ⊞ pieceLength) ⊟ 1) pieceLength.

(** [os.Stat] finds the file. *)
Definition stat_ok (o : io) (d : disk) (p : string) : bool :=
  match d !! p with Some _ => negb (stat_fails o p) | None => false end.

Fixpoint forget_files (base : string) (o : io) (d : disk) (l : option tops) (hash : string)
    (info : Info) (files : list FileInfo) (ps : pieces) : pieces :=
  match files with
  | [] => ps
  | fi :: files' =>
      let '(p, l) := filePath base l hash info fi in
      let lo := BeginPieceIndex (i_PieceLength info) fi in
      let hi := EndPieceIndex (i_PieceLength info) fi in
      forget_files base o d l hash info files'
        (if stat_ok o d p then ps else clear_records ps hash lo (Z.to_nat (hi - lo)))
  end.

Definition forgetMissing (base : string) (o : io) (e : engine) (t : torrent) : engine :=
  match t_info t with
  | None => e
  | Some info =>
      mkEngine (held e) (names e)
        (forget_files base o (files_on e) (names e) (t_hash t) info (UpvertedFilesIter info) (records e))
        (files_on e)
  end.

(** ** Progress *)

(** A file's part of a piece, and whether the piece is complete. *)
Record file_piece := mkFilePiece { Bytes : Z; fp_Complete : bool }.

(** [verified]: every piece of every selected file passed its hash. *)
Fixpoint verified (files : list (list file_piece)) (i : nat) (selected : nat -> bool) : bool :=
  match files with
  | [] => true
  | f :: files' =>
      (negb (selected i) || forallb fp_Complete f) && verified files' (S i) selected
  end.

Record ByteRange := mkByteRange { From : Z; To : Z }.

(** [out.Ranges[n-1].To += p.Bytes] where the last range ends here. *)
Definition add_range (ranges : list ByteRange) (at_ n : Z) : list ByteRange :=
  match rev ranges with
  | r :: before =>
      if To r =? at_ then rev before ++ [mkByteRange (From r) (To r ⊞ n)]
      else ranges ++ [mkByteRange at_ (at_ ⊞ n)]
  | [] => [mkByteRange at_ (at_ ⊞ n)]
  end.

Fixpoint ranges_loop (ps : list file_piece) (at_ : Z) (ranges : list ByteRange) : list ByteRange :=
  match ps with
  | [] => ranges
  | p :: ps' =>
      ranges_loop ps' (at_ ⊞ Bytes p) (if fp_Complete p then add_range ranges at_ (Bytes p) else ranges)
  end.

Definition fileRanges (ps : list file_piece) : list ByteRange := ranges_loop ps 0 [].

(** ** A removal touches nothing else *)

(** Names decided for all: [filePath] decides no more. *)
Definition settled (l : tops) (t : torrent) : Prop := is_Some (l !! t_hash t).

(** The path of a file under settled names. *)
Definition path_in (base : string) (l : tops) (hash : string) (info : Info) (fi : FileInfo) : string :=
  fst (filePath base (Some l) hash info fi).

Lemma filePath_settled base l hash info fi :
  is_Some (l !! hash) -> filePath base (Some l) hash info fi = (path_in base l hash info fi, Some l).
Proof.
  intros [t Ht]. unfold path_in, filePath, folder. simpl.
  rewrite Ht. destruct (IsDir info); by simpl; rewrite ?Ht.
Qed.

Lemma maps_to_settled base l hash info files path :
  is_Some (l !! hash) ->
  maps_to base (Some l) hash info files path =
  (existsb (fun fi => String.eqb (path_in base l hash info fi) path) files, Some l).
Proof.
  intros Hl. induction files as [|fi files IH]; simpl; [done|].
  rewrite filePath_settled by done. by destruct (String.eqb _ path).
Qed.

(** Some torrent of [others], not [hash], has a file at [path]. *)
Definition uses (base : string) (l : tops) (path hash : string) (o : torrent) : bool :=
  match t_info o with
  | None => false
  | Some info =>
      negb (String.eqb (t_hash o) hash) &&
      existsb (fun fi => String.eqb (path_in base l (t_hash o) info fi) path) (UpvertedFilesIter info)
  end.

Lemma shared_settled base l path hash others :
  Forall (settled l) others ->
  shared base (Some l) path hash others = (existsb (uses base l path hash) others, Some l).
Proof.
  induction 1 as [|o others Ho Hos IH]; simpl; [done|].
  unfold uses at 1. destruct (t_info o) as [info|]; [|done].
  destruct (String.eqb (t_hash o) hash); [done|]. simpl.
  rewrite maps_to_settled by done. by destruct (existsb _ (UpvertedFilesIter info)).
Qed.

Lemma own_files_settled base l hash info files others :
  is_Some (l !! hash) -> Forall (settled l) others ->
  own_files base (Some l) hash info files others =
  (List.filter (fun p => negb (existsb (uses base l p hash) others))
     (map (path_in base l hash info) files), Some l).
Proof.
  intros Hl Ho. induction files as [|fi files IH]; simpl; [done|].
  rewrite filePath_settled, shared_settled, IH by done.
  by destruct (existsb (uses base l (path_in base l hash info fi) hash) others).
Qed.

Lemma clear_records_lookup ps hash from n k :
  clear_records ps hash from n !! k =
  if bool_decide (fst k = hash /\ from <= snd k < from + Z.of_nat n) then Some false else ps !! k.
Proof.
  revert ps from. induction n as [|n IH]; intros ps from; simpl.
  { case_bool_decide; [lia|done]. }
  rewrite IH. destruct k as [h i]. simpl.
  destruct (decide (h = hash /\ i = from)) as [[-> ->]|Hne].
  - rewrite lookup_insert_eq. rewrite (bool_decide_true (hash = hash /\ from <= from < _)) by (split; [done|lia]).
    by case_bool_decide.
  - rewrite lookup_insert_ne by (intros [= -> ->]; by apply Hne).
    rewrite (bool_decide_ext _ (h = hash /\ from <= i < from + Z.of_nat (S n))); [done|].
    split; intros [-> ?]; (split; [done|]); [lia|].
    assert (i <> from) by (intros ->; by apply Hne). lia.
Qed.

Lemma remove_files_spec refuses d paths d' failed :
  remove_files refuses d paths = (d', failed) ->
  (forall p, p ∉ paths -> d' !! p = d !! p) /\
  (forall p, p ∈ paths -> refuses p = false -> d' !! p = None) /\
  (forall p, p ∈ failed -> p ∈ paths /\ refuses p = true).
Proof.
  revert d d' failed. induction paths as [|q paths IH]; intros d d' failed Hr; simpl in Hr.
  { simplify_eq. split_and!; [done| |]; by intros p Hp%elem_of_nil. }
  destruct (d !! q) as [c|] eqn:Hq; [destruct (refuses q) eqn:Hf|].
  - destruct (remove_files refuses d paths) as [d1 f1] eqn:H1. simplify_eq.
    destruct (IH _ _ _ H1) as (Ha & Hb & Hc). split_and!.
    + intros p Hp. apply Ha. by intros ?; apply Hp; right.
    + intros p [->|Hp]%elem_of_cons Hrp; [congruence|by apply Hb].
    + intros p [->|Hp]%elem_of_cons; [split; [left|done]|]. destruct (Hc p Hp). split; [by right|done].
  - destruct (IH _ _ _ Hr) as (Ha & Hb & Hc). split_and!.
    + intros p Hp. apply not_elem_of_cons in Hp as [Hne Hp]. by rewrite Ha, lookup_delete_ne.
    + intros p [->|Hp]%elem_of_cons Hrp; [|by apply Hb].
      destruct (decide (q ∈ paths)); [by apply Hb|]. rewrite Ha by done. by rewrite lookup_delete_eq.
    + intros p Hp. destruct (Hc p Hp). split; [by right|done].
  - destruct (IH _ _ _ Hr) as (Ha & Hb & Hc). split_and!.
    + intros p Hp. apply Ha. by intros ?; apply Hp; right.
    + intros p [->|Hp]%elem_of_cons Hrp; [|by apply Hb].
      destruct (decide (q ∈ paths)); [by apply Hb|]. by rewrite Ha.
    + intros p Hp. destruct (Hc p Hp). split; [by right|done].
Qed.

(** Removing a torrent with its data deletes only its own files: every path
    that is not one of its files, and every file another held torrent also
    maps to, is left as it was. *)
Theorem remove_safe (base : string) (refuses : string -> bool) (e : engine) (l : tops)
    (t : torrent) (info : Info) (Hnames : names e = Some l) (Hinfo : t_info t = Some info)
    (Ht : settled l t) (Hheld : Forall (settled l) (held e)) :
  let e' := (remove base refuses e t true).1 in
  (forall p, (p ∉ map (path_in base l (t_hash t) info) (UpvertedFilesIter info) \/
              exists o, o ∈ held e /\ uses base l p (t_hash t) o = true) ->
     files_on e' !! p = files_on e !! p) /\
  (forall p, p ∈ map (path_in base l (t_hash t) info) (UpvertedFilesIter info) ->
     (forall o, o ∈ held e -> uses base l p (t_hash t) o = false) -> refuses p = false ->
     files_on e' !! p = None).
Proof.
  unfold remove. rewrite Hinfo, Hnames.
  set (others := List.filter _ (held e)).
  assert (Forall (settled l) others) as Ho.
  { subst others. rewrite List.Forall_forall in *. intros o Ho. apply filter_In in Ho as [Ho _]. by apply Hheld. }
  assert (forall p, existsb (uses base l p (t_hash t)) others = true <->
    exists o, o ∈ held e /\ uses base l p (t_hash t) o = true) as Huses.
  { intros p. rewrite existsb_exists. subst others. split.
    - intros (o & Ho' & Hu). apply filter_In in Ho' as [Ho' _]. exists o. by rewrite list_elem_of_In.
    - intros (o & Ho' & Hu). exists o. split; [|done]. apply filter_In. split; [by apply list_elem_of_In|].
      unfold uses in Hu. destruct (t_info o); [|done]. by apply andb_true_iff in Hu as [? _]. }
  rewrite own_files_settled by done.
  destruct (remove_files refuses (files_on e) _) as [d failed] eqn:Hr.
  destruct (remove_files_spec _ _ _ _ _ Hr) as (Ha & Hb & _). simpl. split.
  - intros p Hp. apply Ha. rewrite list_elem_of_In, filter_In, <- list_elem_of_In.
    intros [Hin Hn]. apply negb_true_iff in Hn. destruct Hp as [Hp|Hp]; [by apply Hp|].
    apply Huses in Hp. congruence.
  - intros p Hin Hnone Href. apply Hb; [|done].
    rewrite list_elem_of_In, filter_In, <- list_elem_of_In. split; [done|].
    apply negb_true_iff, not_true_iff_false. rewrite Huses. intros (o & Ho' & Hu).
    rewrite (Hnone o Ho') in Hu. done.
Qed.

(** After a removal with data no piece of the torrent is recorded complete,
    its name is free, it is no longer held, and the records and names of the
    others stand. *)
Theorem remove_forgets (base : string) (refuses : string -> bool) (e : engine) (l : tops)
    (t : torrent) (info : Info) (Hnames : names e = Some l) (Hinfo : t_info t = Some info)
    (Ht : settled l t) (Hheld : Forall (settled l) (held e)) :
  let e' := (remove base refuses e t true).1 in
  (forall i, 0 <= i < NumPieces info -> records e' !! (t_hash t, i) = Some false) /\
  (forall h i, h <> t_hash t -> records e' !! (h, i) = records e !! (h, i)) /\
  names e' = Some (delete (t_hash t) l) /\
  (forall o, o ∈ held e' <-> o ∈ held e /\ t_hash o <> t_hash t).
Proof.
  unfold remove. rewrite Hinfo, Hnames. set (others := List.filter _ (held e)).
  assert (Forall (settled l) others) as Ho.
  { subst others. rewrite List.Forall_forall in *. intros o Ho. apply filter_In in Ho as [Ho _]. by apply Hheld. }
  rewrite own_files_settled by done.
  destruct (remove_files refuses (files_on e) _) as [d failed]. simpl. split_and!.
  - intros i Hi. rewrite clear_records_lookup. case_bool_decide as Hn; [done|].
    exfalso. apply Hn. simpl. split; [done|lia].
  - intros h i Hne. rewrite clear_records_lookup. case_bool_decide as Hn; [|done].
    by destruct Hn as [? _].
  - done.
  - intros o. subst others. rewrite !list_elem_of_In, filter_In. rewrite negb_true_iff, String.eqb_neq. done.
Qed.

(** ** Ranges on disk *)

(** A position covered by some range. *)
Definition covered (rs : list ByteRange) (pos : Z) : Prop := exists r, r ∈ rs /\ From r <= pos < To r.

(** A position of a complete piece, counted from [at_]. *)
Fixpoint complete_at (ps : list file_piece) (at_ pos : Z) : Prop :=
  match ps with
  | [] => False
  | p :: ps' =>
      (fp_Complete p = true /\ at_ <= pos < at_ + Bytes p) \/ complete_at ps' (at_ + Bytes p) pos
  end.

Definition total_bytes (ps : list file_piece) : Z := sum (map Bytes ps).

(** Ranges in order with a gap between any two. *)
Definition separated (rs : list ByteRange) : Prop :=
  StronglySorted (fun r s => To r < From s) rs /\ Forall (fun r => From r < To r) rs.

Lemma covered_snoc rs r pos : covered (rs ++ [r]) pos <-> covered rs pos \/ From r <= pos < To r.
Proof.
  unfold covered. setoid_rewrite elem_of_app. setoid_rewrite list_elem_of_singleton. split.
  - intros (s & [Hs| ->] & Hp); [left; by exists s|by right].
  - intros [(s & Hs & Hp)|Hp]; [exists s; auto|exists r; auto].
Qed.

Lemma separated_snoc rs r :
  separated (rs ++ [r]) <-> separated rs /\ Forall (fun s => To s < From r) rs /\ From r < To r.
Proof.
  unfold separated. rewrite sorted_snoc, Forall_app, List.Forall_cons_iff. intuition.
Qed.

Lemma add_range_spec rs at_ n :
  0 <= at_ -> 0 < n -> at_ + n < 2 ^ 62 ->
  separated rs -> Forall (fun r => To r <= at_) rs ->
  separated (add_range rs at_ n) /\ Forall (fun r => To r <= at_ + n) (add_range rs at_ n) /\
  forall pos, covered (add_range rs at_ n) pos <-> covered rs pos \/ at_ <= pos < at_ + n.
Proof.
  intros Hat Hn Hmax Hs Hle. unfold add_range.
  assert (Forall (fun r => To r <= at_ + n) rs) as Hle'.
  { eapply List.Forall_impl; [|exact Hle]. simpl. lia. }
  destruct rs as [|r rs _] using rev_ind.
  { cbn [rev]. rewrite i64_add_small by no_overflow. change [mkByteRange at_ (at_ + n)] with ([] ++ [mkByteRange at_ (at_ + n)]).
    split_and!.
    - apply separated_snoc. simpl. split_and!; [done|constructor|lia].
    - repeat constructor. simpl. lia.
    - intros pos. by rewrite covered_snoc. }
  rewrite rev_app_distr. cbn [rev app]. rewrite rev_involutive.
  pose proof Hs as (Hs1 & Hgap & Hr)%separated_snoc.
  apply Forall_app in Hle as [Hle [Hrle _]%List.Forall_cons_iff].
  destruct (Z.eqb_spec (To r) at_) as [Heq|Hne].
  - rewrite i64_add_small by no_overflow. split_and!.
    + apply separated_snoc. simpl. split_and!; [done|done|lia].
    + apply Forall_app in Hle' as [Hle' _]. apply Forall_app. split; [done|].
      repeat constructor. simpl. lia.
    + intros pos. rewrite !covered_snoc. simpl. split; [intros [?|?]|intros [[?|?]|?]]; auto; try lia.
  - rewrite i64_add_small by no_overflow. split_and!.
    + apply separated_snoc. simpl. split_and!; [done| |lia]. apply Forall_app. split.
      * eapply List.Forall_impl; [|exact Hgap]. simpl. lia.
      * repeat constructor. lia.
    + apply Forall_app. split; [done|]. repeat constructor. simpl. lia.
    + intros pos. by rewrite covered_snoc.
Qed.

Lemma ranges_loop_spec ps at_ rs :
  Forall (fun p => 0 < Bytes p) ps -> 0 <= at_ -> at_ + total_bytes ps < 2 ^ 62 ->
  separated rs -> Forall (fun r => To r <= at_) rs ->
  let out := ranges_loop ps at_ rs in
  separated out /\ Forall (fun r => To r <= at_ + total_bytes ps) out /\
  forall pos, covered out pos <-> covered rs pos \/ complete_at ps at_ pos.
Proof.
  unfold total_bytes. revert at_ rs. induction ps as [|p ps IH]; intros at_ rs Hps Hat Hmax Hs Hle; simpl.
  { rewrite Z.add_0_r. split_and!; [done|done|]. intros pos. tauto. }
  apply List.Forall_cons_iff in Hps as [Hp Hps]. simpl in Hmax.
  assert (0 <= sum (map Bytes ps)) as Hnn.
  { apply sum_nonneg. apply List.Forall_map. eapply List.Forall_impl; [|exact Hps]. simpl. lia. }
  rewrite i64_add_small by no_overflow. rewrite Z.add_assoc.
  destruct (fp_Complete p).
  - destruct (add_range_spec rs at_ (Bytes p)) as (Hs1 & Hle1 & Hc1); [lia..|done|done|].
    destruct (IH (at_ + Bytes p) _ Hps ltac:(lia) ltac:(lia) Hs1 Hle1) as (Hs2 & Hle2 & Hc2).
    split_and!; [done|done|]. intros pos. rewrite Hc2, Hc1. tauto.
  - destruct (IH (at_ + Bytes p) rs Hps ltac:(lia) ltac:(lia) Hs) as (Hs2 & Hle2 & Hc2).
    { eapply List.Forall_impl; [|exact Hle]. simpl. lia. }
    split_and!; [done|done|]. intros pos. rewrite Hc2. intuition done.
Qed.

(** The stretches reported for a file are exactly the bytes of its complete
    pieces, merged as far as they go: in order, none empty, a gap between any
    two, all within the file. *)
Theorem fileRanges_spec (ps : list file_piece)
    (Hps : Forall (fun p => 0 < Bytes p) ps) (Hmax : total_bytes ps < 2 ^ 62) :
  separated (fileRanges ps) /\ Forall (fun r => To r <= total_bytes ps) (fileRanges ps) /\
  forall pos, covered (fileRanges ps) pos <-> complete_at ps 0 pos.
Proof.
  destruct (ranges_loop_spec ps 0 [] Hps) as (Hs & Hle & Hc); [lia|done|by split; constructor|done|].
  split_and!; [done|done|]. intros pos. unfold fileRanges. rewrite Hc.
  split; [|by right]. intros [(r & Hr & _)|?]; [by apply elem_of_nil in Hr|done].
Qed.

(** Before a torrent starts again, no piece of a file missing from the disk
    stays recorded complete, and the records of other torrents stand. *)
Theorem forgetMissing_spec (base : string) (o : io) (e : engine) (l : tops) (t : torrent) (info : Info)
    (Hnames : names e = Some l) (Hinfo : t_info t = Some info) (Ht : settled l t) :
  let e' := forgetMissing base o e t in
  (forall fi i, fi ∈ UpvertedFilesIter info -> files_on e !! path_in base l (t_hash t) info fi = None ->
     BeginPieceIndex (i_PieceLength info) fi <= i < EndPieceIndex (i_PieceLength info) fi ->
     records e' !! (t_hash t, i) = Some false) /\
  (forall h i, h <> t_hash t -> records e' !! (h, i) = records e !! (h, i)) /\
  files_on e' = files_on e.
Proof.
  unfold forgetMissing. rewrite Hinfo, Hnames. simpl.
  assert (forall files ps,
    let ps' := forget_files base o (files_on e) (Some l) (t_hash t) info files ps in
    (forall i, ps !! (t_hash t, i) = Some false -> ps' !! (t_hash t, i) = Some false) /\
    (forall fi i, fi ∈ files -> files_on e !! path_in base l (t_hash t) info fi = None ->
       BeginPieceIndex (i_PieceLength info) fi <= i < EndPieceIndex (i_PieceLength info) fi ->
       ps' !! (t_hash t, i) = Some false) /\
    (forall h i, h <> t_hash t -> ps' !! (h, i) = ps !! (h, i))) as Hall.
  { induction files as [|f files IH]; intros ps; simpl.
    { split_and!; [done| |done]. by intros fi i Hfi%elem_of_nil. }
    rewrite filePath_settled by done.
    set (ps1 := if stat_ok _ _ _ then ps else _).
    destruct (IH ps1) as (Hk & Hm & Ho). split_and!.
    - intros i Hi. apply Hk. subst ps1. destruct (stat_ok _ _ _); [done|].
      rewrite clear_records_lookup. by case_bool_decide.
    - intros fi i [->|Hfi]%elem_of_cons Hnone Hi; [|by eapply Hm].
      apply Hk. subst ps1. unfold stat_ok. rewrite Hnone, clear_records_lookup.
      case_bool_decide as Hn; [done|]. exfalso. apply Hn. simpl. split; [done|lia].
    - intros h i Hne. rewrite Ho by done. subst ps1. destruct (stat_ok _ _ _); [done|].
      rewrite clear_records_lookup. case_bool_decide as Hn; [|done]. by destruct Hn as [? _]. }
  destruct (Hall (UpvertedFilesIter info) (records e)) as (_ & Hm & Ho). by split_and!.
Qed.

(** ** The properties at work *)

(** Two torrents of one name: the second's folder carries its hash. *)
Definition show_a : torrent := mkTorrent "aaaaaaaa11" (Some season).
Definition show_b : torrent := mkTorrent "bbbbbbbb22" (Some season).

Definition both : engine :=
  mkEngine [show_a; show_b] (Some {["aaaaaaaa11" := "Show"; "bbbbbbbb22" := "Show [bbbbbbbb]"]})
    {[("aaaaaaaa11", 0) := true; ("aaaaaaaa11", 1) := true; ("bbbbbbbb22", 0) := true]}
    {["/cache/Show/01.mkv" := [1]; "/cache/Show [bbbbbbbb]/01.mkv" := [2]; "/cache/notes.txt" := [3]]}.

Definition both_names : tops := {["aaaaaaaa11" := "Show"; "bbbbbbbb22" := "Show [bbbbbbbb]"]}.

Lemma both_settled : Forall (settled both_names) (held both).
Proof. repeat constructor; vm_compute; eauto. Qed.

Lemma remove_safe_witness :
  let e' := (remove "/cache" (fun _ => false) both show_a true).1 in
  (forall p, (p ∉ map (path_in "/cache" both_names (t_hash show_a) season) (UpvertedFilesIter season) \/
              exists o, o ∈ held both /\ uses "/cache" both_names p (t_hash show_a) o = true) ->
     files_on e' !! p = files_on both !! p) /\
  (forall p, p ∈ map (path_in "/cache" both_names (t_hash show_a) season) (UpvertedFilesIter season) ->
     (forall o, o ∈ held both -> uses "/cache" both_names p (t_hash show_a) o = false) ->
     (fun _ : string => false) p = false ->
     files_on e' !! p = None).
Proof.
  apply (remove_safe "/cache" (fun _ => false) both both_names show_a season).
  - reflexivity.
  - reflexivity.
  - vm_compute. eauto.
  - exact both_settled.
Defined.

Lemma remove_forgets_witness :
  let e' := (remove "/cache" (fun _ => false) both show_a true).1 in
  (forall i, 0 <= i < NumPieces season -> records e' !! (t_hash show_a, i) = Some false) /\
  (forall h i, h <> t_hash show_a -> records e' !! (h, i) = records both !! (h, i)) /\
  names e' = Some (delete (t_hash show_a) both_names) /\
  (forall o, o ∈ held e' <-> o ∈ held both /\ t_hash o <> t_hash show_a).
Proof.
  apply (remove_forgets "/cache" (fun _ => false) both both_names show_a season).
  - reflexivity.
  - reflexivity.
  - vm_compute. eauto.
  - exact both_settled.
Defined.

Example both_removed :
  let e' := (remove "/cache" (fun _ => false) both show_a true).1 in
  (files_on e' !! "/cache/Show/01.mkv", files_on e' !! "/cache/Show [bbbbbbbb]/01.mkv") = (None, Some [2]).
Proof. vm_compute. reflexivity. Qed.

Lemma forgetMissing_spec_witness :
  let e' := forgetMissing "/cache" no_faults both show_a in
  (forall fi i, fi ∈ UpvertedFilesIter season ->
     files_on both !! path_in "/cache" both_names (t_hash show_a) season fi = None ->
     BeginPieceIndex (i_PieceLength season) fi <= i < EndPieceIndex (i_PieceLength season) fi ->
     records e' !! (t_hash show_a, i) = Some false) /\
  (forall h i, h <> t_hash show_a -> records e' !! (h, i) = records both !! (h, i)) /\
  files_on e' = files_on both.
Proof.
  apply (forgetMissing_spec "/cache" no_faults both both_names show_a season).
  - reflexivity.
  - reflexivity.
  - vm_compute. eauto.
Defined.

Lemma fileRanges_spec_witness :
  let ps := [mkFilePiece 4 true; mkFilePiece 4 true; mkFilePiece 4 false; mkFilePiece 2 true] in
  separated (fileRanges ps) /\ Forall (fun r => To r <= total_bytes ps) (fileRanges ps) /\
  forall pos, covered (fileRanges ps) pos <-> complete_at ps 0 pos.
Proof.
  apply (fileRanges_spec [mkFilePiece 4 true; mkFilePiece 4 true; mkFilePiece 4 false; mkFilePiece 2 true]).
  - repeat constructor.
  - reflexivity.
Defined.
