(* ===== verification/Net.v ===== *)
(** * Addresses: the parts of Go's net package the access guard uses

    [SplitHostPort] and [JoinHostPort], the textual forms of IPv4 and IPv6
    addresses ([ParseIP]) and their loopback and unspecified classes, as the
    standard library defines them. *)
From stdpp Require Import base strings list.
From Stdlib Require Import ZArith Lia.
From S2P Require Import Prelude GoStr.

(** ** host:port *)

(** [SplitHostPort]: [None] where it reports an error. *)
Definition SplitHostPort (hostport : string) : option (string * string) :=
  match last_index hostport ":" with
  | None => None
  | Some i =>
      let port := str_from hostport (S i) in
      if has_prefix hostport "[" then
        match index hostport "]" with
        | None => None
        | Some e =>
            if (S e =? i)%nat then
              if contains (str_from hostport 1) "[" || contains (str_from hostport (S e)) "]" then None
              else Some (substr hostport 1 e, port)
            else None
        end
      else
        let host := str_to hostport i in
        if contains host ":" || contains hostport "[" || contains hostport "]" then None
        else Some (host, port)
  end.

Definition JoinHostPort (host port : string) : string :=
  if contains host ":" then "[" +:+ host +:+ "]:" +:+ port else host +:+ ":" +:+ port.

(** ** Addresses: sixteen bytes, or the four of an IPv4 address *)

(** A decimal octet: no leading zero, at most 255. *)
Definition octet (s : string) : option Z :=
  match digits_value s 0 with
  | Some v =>
      if String.eqb s "" || ((1 <? String.length s)%nat && has_prefix s "0") || (255 <? v)
      then None else Some v
  | None => None
  end.

Definition parse_ipv4 (s : string) : option (list Z) :=
  match map octet (split s ".") with
  | [Some a; Some b; Some c; Some d] => Some [a; b; c; d]
  | _ => None
  end.

Definition hex_digit (r : Z) : option Z :=
  if (48 <=? r) && (r <=? 57) then Some (r - 48)
  else if (97 <=? r) && (r <=? 102) then Some (r - 87)
  else if (65 <=? r) && (r <=? 70) then Some (r - 55)
  else None.

(** The digits of one group: its value, how many, and what follows; [None] past
    four digits. *)
Fixpoint hex_group (s : string) (off acc : Z) : option (Z * Z * string) :=
  match s with
  | EmptyString => Some (acc, off, s)
  | String c s' =>
      match hex_digit (byte_at c) with
      | None => Some (acc, off, s)
      | Some d => if 3 <? off then None else hex_group s' (off + 1) (acc * 16 + d)
      end
  end.

(** The groups of an IPv6 address from its [i]-th byte on: the bytes read
    (reversed), where an ellipsis stood, and what is left.  A group takes two
    bytes, so eight turns are enough. *)
Fixpoint ipv6_groups (fuel : nat) (s : string) (bytes : list Z) (ellipsis : option nat)
    : option (list Z * option nat * string) :=
  match fuel with
  | O => Some (bytes, ellipsis, s)
  | S fuel' =>
      match hex_group s 0 0 with
      | None => None
      | Some (acc, off, rest) =>
          if off =? 0 then None
          else if has_prefix rest "." then
            if (match ellipsis with None => negb (length bytes =? 12)%nat | Some _ => false end)
               || (12 <? length bytes)%nat then None
            else match parse_ipv4 s with
                 | Some v4 => Some (rev v4 ++ bytes, ellipsis, "")
                 | None => None
                 end
          else
            let bytes := (acc `mod` 256) :: (acc / 256) :: bytes in
            match rest with
            | EmptyString => Some (bytes, ellipsis, "")
            | String c rest' =>
                if negb (byte_at c =? 58) || String.eqb rest' "" then None
                else if has_prefix rest' ":" then
                  match ellipsis with
                  | Some _ => None
                  | None =>
                      let rest'' := str_from rest' 1 in
                      if String.eqb rest'' "" then Some (bytes, Some (length bytes), "")
                      else ipv6_groups fuel' rest'' bytes (Some (length bytes))
                  end
                else ipv6_groups fuel' rest' bytes ellipsis
            end
      end
  end.

(** The ellipsis stands for the zero groups that are missing. *)
Definition parse_ipv6 (s : string) : option (list Z) :=
  let start := if has_prefix s "::" then (str_from s 2, Some O) else (s, None) in
  if String.eqb (fst start) "" && has_prefix s "::" then Some (replicate 16 0)
  else
    match ipv6_groups 8 (fst start) [] (snd start) with
    | Some (bytes, ellipsis, "") =>
        let n := length bytes in
        match ellipsis with
        | None => if (n =? 16)%nat then Some (rev bytes) else None
        | Some e =>
            if (n <? 16)%nat then Some (take e (rev bytes) ++ replicate (16 - n) 0 ++ drop e (rev bytes))
            else None
        end
    | _ => None
    end.

(** [ParseIP]: whichever of '.', ':' and '%' comes first decides the form; a
    zone is no address. *)
Fixpoint ip_form (s : string) : option bool :=
  match s with
  | EmptyString => None
  | String c s' =>
      if byte_at c =? 46 then Some true
      else if byte_at c =? 58 then Some false
      else if byte_at c =? 37 then None
      else ip_form s'
  end.

Definition ParseIP (s : string) : option (list Z) :=
  match ip_form s with
  | Some true => parse_ipv4 s
  | Some false => if contains s "%" then None else parse_ipv6 s
  | None => None
  end.

(** [IP.To4]: an IPv4 address, mapped into IPv6 or not. *)
Definition To4 (ip : list Z) : option (list Z) :=
  if (length ip =? 4)%nat then Some ip
  else if (length ip =? 16)%nat && bool_decide (take 12 ip = replicate 10 0 ++ [255; 255]) then Some (drop 12 ip)
  else None.

Definition IsLoopback (ip : list Z) : bool :=
  match To4 ip with
  | Some v4 => nth 0 v4 0 =? 127
  | None => bool_decide (ip = replicate 15 0 ++ [1])
  end.

Definition IsUnspecified (ip : list Z) : bool :=
  bool_decide (ip = [0; 0; 0; 0]) || bool_decide (ip = replicate 10 0 ++ [255; 255; 0; 0; 0; 0]) ||
  bool_decide (ip = replicate 16 0).

Example ipv6_forms :
  (ParseIP "::1", option_map IsLoopback (ParseIP "::1"), ParseIP "fe80::1:2"%string,
   option_map IsLoopback (ParseIP "::ffff:127.0.0.1"), ParseIP "1.2.3", ParseIP "1::2::3",
   ParseIP "01.2.3.4", SplitHostPort "[::1]:80", SplitHostPort "a:b:c") =
  (Some (replicate 15 0 ++ [1]), Some true,
   Some ([254; 128] ++ replicate 10 0 ++ [0; 1; 0; 2]),
   Some true, None, None, None, Some ("::1", "80"), None).
Proof. vm_compute. reflexivity. Qed.
