(* ===== verification/Access.v ===== *)
(** * Who gets in: internal/server/{access,approval}.go, internal/store/access.go

    kuro's server answers the machine it runs on freely, and other devices only
    when the network switch is on, they present the access token, and, where the
    host wants a say, they have been accepted.  [guard] wraps every route,
    [hostOnly] the routes that change the host; [admit_request] keeps the devices'
    standing in memory and in the database's [access_device] table.

    Handlers are functions from the server's state and a request to the new
    state and a response.  What the code does not own is an argument: the clock
    and fresh random secrets ([env]), database calls that fail, the digest of a
    device's cookie and the host part of a parsed URL ([Crypto]). *)
From stdpp Require Import base gmap strings list.
From Stdlib Require Import ZArith Lia.
From S2P Require Import Prelude GoStr Net.

(** ** Data *)

Definition approvalOff : string := "off".
Definition approvalOnce : string := "once".
Definition approvalAlways : string := "always".

Definition DevicePending : string := "pending".
Definition DeviceApproved : string := "approved".
Definition DeviceDenied : string := "denied".

(** Thirty minutes, in nanoseconds. *)
Definition approvalIdle : Z := 30 * 60 * 1000000000.
Definition maxPending : nat := 20.

Definition approvalSetting : string := "access.approval".
Definition accessSetting : string := "access.token".
Definition lanSetting : string := "access.lan".

(** A row of [access_device], keyed by its id. *)
Record Device := mkDevice {
  d_Name : string;
  d_Addr : string;
  d_Status : string;
  d_RequestedAt : Z;
  d_DecidedAt : Z;
}.

Record db := mkDb { settings : gmap string string; devices : gmap string Device }.

Record approvals := mkApprovals {
  loaded : bool;
  mode : string;
  status : gmap string string;
  seen : gmap string Z;
}.

(** [listener] is where [rebind] moved the listener last, [can_rebind] whether
    the build can. *)
Record server := mkServer {
  cfg_addr : string;
  can_rebind : bool;
  listener : string;
  token : string;
  appr : approvals;
  store : option db;
}.

Record request := mkRequest {
  Method : string;
  Path : string;
  RemoteAddr : string;
  Host : string;
  Authorization : string;
  Origin : string;
  SecFetchSite : string;
  Accept : string;
  UserAgent : string;
  query_token : string;
  access_cookie : option string;
  device_cookie : option string;
  is_tls : bool;
}.

(** What one request finds: the time in nanoseconds, the random secret it would
    draw, and the database calls that fail. *)
Record env := mkEnv {
  now : Z;
  secret : string;
  devices_fail : bool;
  setting_fails : bool;
  write_fails : bool;
  rebind_fails : bool;
}.

Inductive response :=
  | Served                                        (** handed to the route *)
  | Sent (code : Z) (body : list (string * string)) (** JSON, its fields of text *)
  | Waiting (status name : string)                (** the waiting page, 403 *)
  | Panicked.                                     (** no store to write to: the connection drops *)

(** Cookies set on the way. *)
Definition cookies : Type := list (string * string).

Class Crypto := {
  sha_id : string -> string;          (* the first 16 bytes of SHA-256, in hexadecimal *)
  url_host : string -> option string; (* url.Parse's host, None where it fails *)
}.

(** ** Addresses and requests *)

(** The host of an address, or all of it without a port. *)
Definition host_part (s : string) : string :=
  match SplitHostPort s with Some (h, _) => h | None => s end.

Definition isLoopback (remoteAddr : string) : bool :=
  match ParseIP (host_part remoteAddr) with Some ip => IsLoopback ip | None => false end.

Section Access.
Context `{Unicode} `{Crypto}.

Definition loopbackHost (host : string) : bool :=
  let h := to_lower (trim (host_part host) "[]") in
  if String.eqb h "localhost" then true
  else match ParseIP h with Some ip => IsLoopback ip | None => false end.

Definition deviceID (s : string) : string := sha_id s.

Definition LANAddr (configured : string) : string :=
  match SplitHostPort configured with
  | Some (_, port) => JoinHostPort "0.0.0.0" port
  | None => "0.0.0.0:4321"
  end.

Definition port (s : server) : string :=
  match SplitHostPort (cfg_addr s) with Some (_, port) => port | None => "4321" end.

Definition presented (r : request) : string :=
  if has_prefix (Authorization r) "Bearer " then trim_prefix (Authorization r) "Bearer "
  else if negb (String.eqb (query_token r) "") then query_token r
  else match access_cookie r with Some c => c | None => "" end.

Definition safeMethod (m : string) : bool :=
  String.eqb m "GET" || String.eqb m "HEAD" || String.eqb m "OPTIONS".

Definition sameOrigin (r : request) : bool :=
  if String.eqb (Origin r) "" then
    String.eqb (SecFetchSite r) "" || String.eqb (SecFetchSite r) "same-origin" ||
    String.eqb (SecFetchSite r) "none"
  else match url_host (Origin r) with Some h => equal_fold h (Host r) | None => false end.

Definition installAssets : list string :=
  ["/manifest.webmanifest"; "/icon.svg"; "/favicon.svg"; "/icon-192.png"; "/icon-512.png";
   "/icon-maskable-512.png"].

Definition onHost (r : request) : bool := isLoopback (RemoteAddr r) && loopbackHost (Host r).

(** ** Where the app listens *)

(** [Store.Setting]: empty without the row; its error is dropped by the callers
    here, so a failed read is empty too. *)
Definition setting (e : env) (d : db) (key : string) : string :=
  if setting_fails e then "" else default "" (settings d !! key).

Definition lanEnabled (e : env) (s : server) : bool :=
  match store s with None => false | Some d => String.eqb (setting e d lanSetting) "true" end.

Definition listening (e : env) (s : server) : string :=
  if lanEnabled e s then LANAddr (cfg_addr s) else cfg_addr s.

Definition bound (e : env) (s : server) : bool :=
  match SplitHostPort (listening e s) with
  | None => false
  | Some (host, _) =>
      if String.eqb host "" then true
      else match ParseIP host with Some ip => IsUnspecified ip || negb (IsLoopback ip) | None => false end
  end.

(** ** Devices *)

Definition set_appr (s : server) (a : approvals) : server :=
  mkServer (cfg_addr s) (can_rebind s) (listener s) (token s) a (store s).

Definition set_db (s : server) (d : db) : server :=
  mkServer (cfg_addr s) (can_rebind s) (listener s) (token s) (appr s) (Some d).

Definition loadApprovals (e : env) (s : server) : server :=
  if loaded (appr s) then s
  else
    match store s with
    | None => set_appr s (mkApprovals true approvalOff ∅ ∅)
    | Some d =>
        let m := setting e d approvalSetting in
        let m := if String.eqb m approvalOnce || String.eqb m approvalAlways then m else approvalOff in
        if devices_fail e then set_appr s (mkApprovals false approvalOnce ∅ ∅)
        else set_appr s (mkApprovals true m (d_Status <$> devices d) ∅)
    end.

(** [deniedAddr]: the request comes from the address of a device turned down. *)
Definition deniedAddr (e : env) (s : server) (r : request) : bool :=
  match store s with
  | None => false
  | Some d =>
      if devices_fail e then false
      else existsb (fun '(_, x) => String.eqb (d_Status x) DeviceDenied &&
                                   String.eqb (d_Addr x) (host_part (RemoteAddr r)))
             (map_to_list (devices d))
  end.

(** [Store.RequestAccess]: the row becomes pending; a decision's time stays. *)
Definition RequestAccess (e : env) (d : db) (id name addr : string) : option db :=
  if write_fails e then None
  else
    let decided := match devices d !! id with Some x => d_DecidedAt x | None => 0 end in
    Some (mkDb (settings d) (<[id := mkDevice name addr DevicePending (now e / 1000000000) decided]> (devices d))).

Definition DecideDevice (e : env) (d : db) (id st : string) : option db :=
  if write_fails e then None
  else Some (mkDb (settings d)
         (alter (fun x => mkDevice (d_Name x) (d_Addr x) st (d_RequestedAt x) (now e / 1000000000)) id (devices d))).

Definition DeleteDevice (e : env) (d : db) (id : string) : option db :=
  if write_fails e then None else Some (mkDb (settings d) (delete id (devices d))).

Definition SetSetting (e : env) (d : db) (key value : string) : option db :=
  if write_fails e then None else Some (mkDb (<[key := value]> (settings d)) (devices d)).

Definition set_status (a : approvals) (id st : string) : approvals :=
  mkApprovals (loaded a) (mode a) (<[id := st]> (status a)) (seen a).

Definition set_seen (a : approvals) (id : string) (t : Z) : approvals :=
  mkApprovals (loaded a) (mode a) (status a) (<[id := t]> (seen a)).

Definition pending (st : gmap string string) : nat :=
  size (filter (fun '(_, x) => x = DevicePending) st).

(** [requestAccess]: the device's new status. *)
Definition requestAccess (e : env) (s : server) (r : request) (id name : string)
    : server * string * cookies :=
  if (maxPending <=? pending (status (appr s)))%nat then (s, "full", [])
  else if String.eqb id "" && deniedAddr e s r then (s, DeviceDenied, [])
  else
    let '(id, cs) := if String.eqb id "" then (deviceID (secret e), [("kuro_device", secret e)])
                     else (id, []) in
    match store s with
    | None => (s, "full", cs) (* without a store the mode is off: not reached *)
    | Some d =>
        match RequestAccess e d id name (host_part (RemoteAddr r)) with
        | None => (s, "full", cs)
        | Some d => (set_db (set_appr s (set_status (appr s) id DevicePending)) d, DevicePending, cs)
        end
    end.

(** The first label whose mark the User-Agent contains. *)
Fixpoint pick (ua : string) (names : list (string * string)) : string :=
  match names with
  | [] => ""
  | (mark, label) :: names' => if contains ua mark then label else pick ua names'
  end.

Definition deviceName (ua : string) : string :=
  let system := pick ua [("Android", "Android"); ("iPhone", "iPhone"); ("iPad", "iPad");
    ("Windows", "Windows"); ("Mac OS X", "Mac"); ("CrOS", "ChromeOS"); ("Linux", "Linux")] in
  let browser := pick ua [("Firefox", "Firefox"); ("Edg", "Edge"); ("OPR", "Opera");
    ("SamsungBrowser", "Samsung Internet"); ("Chrome", "Chrome"); ("Safari", "Safari")] in
  if negb (String.eqb system "") && negb (String.eqb browser "")
  then browser +:+ " on " +:+ system
  else if negb (String.eqb (system +:+ browser) "") then system +:+ browser
  else "Unknown device".

Definition navigation (r : request) : bool :=
  String.eqb (Method r) "GET" && contains (Accept r) "text/html".

Definition id_of (r : request) : string :=
  match device_cookie r with
  | Some c => if String.eqb c "" then "" else deviceID c
  | None => ""
  end.

(** Seen within [approvalIdle]; a device never seen was last seen at the zero
    time, long past. *)
Definition recent (a : approvals) (id : string) (t : Z) : bool :=
  match seen a !! id with Some t0 => t - t0 <=? approvalIdle | None => false end.

Definition admit_request (e : env) (s : server) (r : request) : server * bool * response * cookies :=
  let s := loadApprovals e s in
  let a := appr s in
  if String.eqb (mode a) approvalOff then (s, true, Served, [])
  else
    let id := id_of r in
    let st := default "" (status a !! id) in
    if String.eqb st DeviceApproved && (String.eqb (mode a) approvalOnce || recent a id (now e)) then
      (set_appr s (set_seen a id (now e)), true, Served, [])
    else
      let st := if String.eqb st DeviceApproved then "" else st in
      let name := deviceName (UserAgent r) in
      let '(s, st, cs) :=
        if String.eqb st "" && (negb (String.eqb id "") || navigation r)
        then requestAccess e s r id name
        else (s, st, []) in
      (s, false,
       if String.eqb (Path r) "/api/access/me" then Sent 200 [("status", st); ("name", name)]
       else if navigation r then Waiting st name
       else Sent 403 [("error", "this device is waiting for the host to accept it"); ("approval", st)],
       cs).

(** ** guard *)

Definition guard (e : env) (s : server) (r : request) : server * response * cookies :=
  if negb (safeMethod (Method r)) && negb (sameOrigin r) then
    (s, Sent 403 [("error", "cross-site request refused")], [])
  else if onHost r then (s, Served, [])
  else if negb (isLoopback (RemoteAddr r)) && can_rebind s && negb (bound e s) then
    (s, Sent 403 [("error", "network access is off")], [])
  else if String.eqb (Method r) "GET" && bool_decide (Path r ∈ installAssets) then (s, Served, [])
  else if String.eqb (token s) "" then
    (s, Sent 503 [("error", "remote access is not configured")], [])
  else if negb (String.eqb (presented r) (token s)) then
    (s, Sent 401 [("error", "invalid or missing token")], [])
  else
    let paired := if String.eqb (query_token r) "" then [] else [("kuro_access", token s)] in
    let '(s, ok, resp, cs) := admit_request e s r in
    (s, if ok then Served else resp, paired ++ cs).

Definition hostOnly (r : request) : option response :=
  if negb (isLoopback (RemoteAddr r)) || negb (loopbackHost (Host r))
  then Some (Sent 403 [("error", "change this from the host machine")])
  else None.

(** ** The host's routes *)

Definition setApproval (e : env) (s : server) (m : string) : server * response :=
  if negb (String.eqb m approvalOff) && negb (String.eqb m approvalOnce) && negb (String.eqb m approvalAlways)
  then (s, Sent 400 [("error", "mode is off, once or always")])
  else
    match store s with
    | None => (s, Panicked)
    | Some d =>
        match SetSetting e d approvalSetting m with
        | None => (s, Sent 502 [("error", "set approval")])
        | Some d =>
            let s := loadApprovals e (set_db s d) in
            let a := appr s in
            (set_appr s (mkApprovals (loaded a) m (status a) (seen a)), Sent 200 [("mode", m)])
        end
    end.

Definition decideDevice (e : env) (s : server) (id st : string) : server * response :=
  if negb (String.eqb st DeviceApproved) && negb (String.eqb st DeviceDenied)
  then (s, Sent 400 [("error", "status is approved or denied")])
  else
    let s := loadApprovals e s in
    match status (appr s) !! id, store s with
    | None, _ => (s, Sent 404 [("error", "no such device")])
    | Some _, None => (s, Panicked)
    | Some _, Some d =>
        match DecideDevice e d id st with
        | None => (s, Sent 502 [("error", "decide device")])
        | Some d =>
            (set_db (set_appr s (set_seen (set_status (appr s) id st) id (now e))) d,
             Sent 200 [("status", st)])
        end
    end.

Definition removeDevice (e : env) (s : server) (id : string) : server * response :=
  let s := loadApprovals e s in
  match store s with
  | None => (s, Panicked)
  | Some d =>
      match DeleteDevice e d id with
      | None => (s, Sent 502 [("error", "remove device")])
      | Some d =>
          let a := appr s in
          (set_db (set_appr s (mkApprovals (loaded a) (mode a) (delete id (status a)) (delete id (seen a)))) d,
           Sent 200 [("removed", "true")])
      end
  end.

(** The devices page: under [approvalAlways] an accepted device away too long
    shows as lapsed. *)
Definition accessDevices (e : env) (s : server) : server * option (string * gmap string Device) :=
  match store s with
  | None => (s, None)
  | Some d =>
      if devices_fail e then (s, None)
      else
        let s := loadApprovals e s in
        let a := appr s in
        let shown := if String.eqb (mode a) approvalAlways then
                       map_imap (fun id x =>
                         Some (if String.eqb (d_Status x) DeviceApproved && negb (recent a id (now e))
                               then mkDevice (d_Name x) (d_Addr x) "lapsed" (d_RequestedAt x) (d_DecidedAt x)
                               else x)) (devices d)
                     else devices d in
        (s, Some (mode a, shown))
  end.

Definition setAccessNetwork (e : env) (s : server) (lan : bool) : server * response :=
  if negb (can_rebind s) then (s, Sent 503 [("error", "this build cannot move its listener")])
  else
    let addr := if lan then LANAddr (cfg_addr s) else cfg_addr s in
    if rebind_fails e then (s, Sent 502 [("error", "move the listener")])
    else
      let s := mkServer (cfg_addr s) (can_rebind s) addr (token s) (appr s) (store s) in
      match store s with
      | None => (s, Panicked)
      | Some d =>
          match SetSetting e d lanSetting (if lan then "true" else "false") with
          | None => (s, Sent 502 [("error", "save access setting")])
          | Some d => (set_db s d, Sent 200 [("listening", addr)])
          end
      end.

Definition rotateAccess (e : env) (s : server) : server * response :=
  match store s with
  | None => (s, Panicked)
  | Some d =>
      match SetSetting e d accessSetting (secret e) with
      | None => (s, Sent 502 [("error", "rotate access token")])
      | Some d =>
          (mkServer (cfg_addr s) (can_rebind s) (listener s) (secret e) (appr s) (Some d),
           Sent 200 [("token", secret e)])
      end
  end.

(** The routes that change who gets in, and any other. *)
Inductive route :=
  | SetApproval (m : string)
  | DecideRoute (id st : string)
  | RemoveRoute (id : string)
  | NetworkRoute (lan : bool)
  | RotateRoute
  | OtherRoute.

(** A request through the whole stack: [guard], then the route, the host's own
    behind [hostOnly]. *)
Definition handle (e : env) (s : server) (r : request) (rt : route) : server * response * cookies :=
  match guard e s r with
  | (s, Served, cs) =>
      match rt with
      | OtherRoute => (s, Served, cs)
      | _ =>
          match hostOnly r with
          | Some refused => (s, refused, cs)
          | None =>
              let '(s, resp) :=
                match rt with
                | SetApproval m => setApproval e s m
                | DecideRoute id st => decideDevice e s id st
                | RemoveRoute id => removeDevice e s id
                | NetworkRoute lan => setAccessNetwork e s lan
                | RotateRoute => rotateAccess e s
                | OtherRoute => (s, Served)
                end in
              (s, resp, cs)
          end
      end
  | (s, resp, cs) => (s, resp, cs)
  end.

(** A restart forgets what is only in memory; the token is read back. *)
Definition restart (s : server) : server :=
  mkServer (cfg_addr s) (can_rebind s) (listener s)
    (match store s with Some d => default (token s) (settings d !! accessSetting) | None => token s end)
    (mkApprovals false "" ∅ ∅) (store s).

Definition waitingText (status : string) : string * string :=
  if String.eqb status DeviceDenied then
    ("Access declined", "The host declined this device. They can remove it from Settings to let it ask again.")
  else if String.eqb status "full" then
    ("Too many requests", "Too many devices are waiting. Ask the host to clear the list in Settings, then reload.")
  else
    ("Waiting for the host", "Ask the person running kuro to accept this device. This page opens kuro as soon as they do.").

(** ** Histories *)

(** The server as requests and restarts move it, in environments of a kind. *)
Inductive step (ok : env -> Prop) : server -> server -> Prop :=
  | step_request e s r rt s' resp cs : ok e -> handle e s r rt = (s', resp, cs) -> step ok s s'
  | step_restart s : step ok s (restart s).

Inductive reachable (ok : env -> Prop) (s0 : server) : server -> Prop :=
  | reach_refl : reachable ok s0 s0
  | reach_step s s' : reachable ok s0 s -> step ok s s' -> reachable ok s0 s'.

(** The outcome of a request for access, whatever it was. *)
Ltac asked :=
  match goal with
  | |- context [if ?b then requestAccess ?e ?s ?r ?i ?n else ?x] =>
      destruct (if b then requestAccess e s r i n else x) as [[? ?] ?]
  end.

(** ** Who is served *)

Lemma loadApprovals_store e s : store (loadApprovals e s) = store s.
Proof.
  unfold loadApprovals. destruct (loaded (appr s)); [done|]. destruct (store s) eqn:Hs; [|done].
  by destruct (devices_fail e).
Qed.

(** The device a request comes from stands approved. *)
Definition admitted (e : env) (a : approvals) (r : request) : Prop :=
  mode a = approvalOff \/
  (status a !! id_of r = Some DeviceApproved /\ (mode a = approvalOnce \/ recent a (id_of r) (now e) = true)).

Lemma admit_ok e s r s' resp cs :
  admit_request e s r = (s', true, resp, cs) -> admitted e (appr (loadApprovals e s)) r.
Proof.
  unfold admit_request, admitted. cbv zeta. set (a := appr (loadApprovals e s)).
  destruct (String.eqb_spec (mode a) approvalOff) as [Hm|Hm]; [by left|].
  destruct (String.eqb_spec (default "" (status a !! id_of r)) DeviceApproved) as [Hd|Hd]; simpl.
  - destruct (String.eqb_spec (mode a) approvalOnce) as [Ho|Ho]; simpl.
    + intros _. right. split; [|by left]. by destruct (status a !! id_of r); simpl in Hd; subst.
    + destruct (recent a (id_of r) (now e)) eqn:Hr.
      * intros _. right. split; [|by right]. by destruct (status a !! id_of r); simpl in Hd; subst.
      * by asked.
  - by asked.
Qed.

Lemma admit_refused e s r s' resp cs : admit_request e s r = (s', false, resp, cs) -> resp <> Served.
Proof.
  unfold admit_request. cbv zeta. set (a := appr (loadApprovals e s)).
  destruct (String.eqb (mode a) approvalOff); [done|].
  match goal with |- context [if ?b then (set_appr _ _, _, _, _) else _] => destruct b end; [done|].
  asked. intros [= _ <- _].
  destruct (String.eqb (Path r) "/api/access/me"); [done|]. by destruct (navigation r).
Qed.

(** C39: A request reaches a route only if it is no cross-site change, and either
    comes from the machine itself under a loopback name, or arrives while the
    network is on and fetches an installer's public file or presents the access
    token from a device the host lets in. *)
Theorem guard_served (e : env) (s s' : server) (r : request) (cs : cookies) :
  guard e s r = (s', Served, cs) ->
  (safeMethod (Method r) = true \/ sameOrigin r = true) /\
  (onHost r = true \/
   ((isLoopback (RemoteAddr r) = true \/ can_rebind s = false \/ bound e s = true) /\
    ((Method r = "GET" /\ Path r ∈ installAssets) \/
     (token s <> "" /\ presented r = token s /\ admitted e (appr (loadApprovals e s)) r)))).
Proof.
  unfold guard.
  destruct (negb (safeMethod (Method r)) && negb (sameOrigin r)) eqn:Hcross; [done|].
  apply andb_false_iff in Hcross. intros Hg. split.
  { destruct Hcross; bool_prop; auto. }
  destruct (onHost r); [by left|right].
  destruct (negb (isLoopback (RemoteAddr r)) && can_rebind s && negb (bound e s)) eqn:Hnet; [done|].
  split.
  { destruct (isLoopback (RemoteAddr r)), (can_rebind s), (bound e s); auto. }
  destruct (String.eqb (Method r) "GET" && bool_decide (Path r ∈ installAssets)) eqn:Ha.
  { bool_prop. left. split; [by apply String.eqb_eq|done]. }
  right. destruct (String.eqb_spec (token s) "") as [|Ht]; [done|].
  destruct (String.eqb_spec (presented r) (token s)) as [Hp|]; [|done]. simpl in Hg.
  destruct (admit_request e s r) as [[[s1 ok] resp] cs1] eqn:Had. destruct ok.
  - split_and!; [done|done|]. by eapply admit_ok.
  - by apply admit_refused in Had; simplify_eq.
Qed.

(** ** What a request from elsewhere can change *)

(** Everything but the devices and the memory of them. *)
Definition same_host (s s' : server) : Prop :=
  cfg_addr s' = cfg_addr s /\ can_rebind s' = can_rebind s /\ listener s' = listener s /\
  token s' = token s /\ option_map settings (store s') = option_map settings (store s).

(** The table, a row turned pending at most. *)
Definition only_asks (d d' : gmap string Device) : Prop :=
  forall id, d' !! id = d !! id \/ exists x, d' !! id = Some x /\ d_Status x = DevicePending.

Definition devices_of (s : server) : gmap string Device :=
  match store s with Some d => devices d | None => ∅ end.

Lemma same_host_refl s : same_host s s.
Proof. by repeat split. Qed.

Lemma loadApprovals_same e s : same_host s (loadApprovals e s) /\ devices_of (loadApprovals e s) = devices_of s.
Proof.
  unfold devices_of. rewrite loadApprovals_store. split; [|done].
  unfold loadApprovals. destruct (loaded (appr s)); [by apply same_host_refl|].
  unfold same_host. destruct (store s) eqn:Hs; [destruct (devices_fail e)|]; simpl; by rewrite Hs.
Qed.

Lemma requestAccess_asks e s r id name s' st cs :
  requestAccess e s r id name = (s', st, cs) ->
  same_host s s' /\ only_asks (devices_of s) (devices_of s').
Proof.
  assert (forall s, same_host s s /\ only_asks (devices_of s) (devices_of s)) as Hrefl.
  { intros s0. split; [apply same_host_refl|]. intros i. by left. }
  unfold requestAccess. destruct (maxPending <=? _)%nat; [intros; simplify_eq; apply Hrefl|].
  destruct (String.eqb id "" && deniedAddr e s r); [intros; simplify_eq; apply Hrefl|].
  destruct (if String.eqb id "" then _ else _) as [id' cs'].
  destruct (store s) as [d|] eqn:Hs; [|intros; simplify_eq; apply Hrefl].
  unfold RequestAccess. destruct (write_fails e); [intros; simplify_eq; apply Hrefl|].
  intros [= <- _ _]. split; [unfold same_host; by rewrite Hs|].
  unfold devices_of. rewrite Hs. simpl. intros i.
  destruct (decide (id' = i)) as [->|Hne].
  - right. eexists. by rewrite lookup_insert_eq.
  - left. by rewrite lookup_insert_ne.
Qed.

Lemma admit_asks e s r s' ok resp cs :
  admit_request e s r = (s', ok, resp, cs) ->
  same_host s s' /\ only_asks (devices_of s) (devices_of s').
Proof.
  destruct (loadApprovals_same e s) as [Hsame Hdev]. unfold admit_request. cbv zeta. revert Hsame Hdev.
  generalize (loadApprovals e s) as s0. intros s0 Hsame Hdev.
  assert (only_asks (devices_of s) (devices_of s0)) as Hasks by (intros i; left; by rewrite Hdev).
  destruct (String.eqb (mode (appr s0)) approvalOff); [intros; by simplify_eq|].
  match goal with |- context [if ?b then (set_appr _ _, _, _, _) else _] => destruct b end.
  { intros [= <- _ _ _]. done. }
  match goal with |- context [if ?b then requestAccess _ _ _ _ _ else _] => destruct b end.
  - destruct (requestAccess _ _ _ _ _) as [[s1 st1] cs1] eqn:Hr.
    apply requestAccess_asks in Hr as [Hs1 Hd1]. intros [= <- _ _ _]. split.
    + destruct Hsame as (? & ? & ? & ? & ?), Hs1 as (? & ? & ? & ? & ?). repeat split; congruence.
    + intros i. rewrite <- Hdev. apply Hd1.
  - intros [= <- _ _ _]. done.
Qed.

Lemma guard_asks e s r s' resp cs :
  guard e s r = (s', resp, cs) ->
  same_host s s' /\ only_asks (devices_of s) (devices_of s').
Proof.
  assert (same_host s s /\ only_asks (devices_of s) (devices_of s)) as Hrefl.
  { split; [apply same_host_refl|]. intros i. by left. }
  unfold guard. repeat (split_if; [intros; by simplify_eq|]). cbv zeta.
  destruct (admit_request e s r) as [[[s1 ok] resp1] cs1] eqn:Had. intros [= <- _ _].
  by eapply admit_asks.
Qed.

Lemma hostOnly_onHost r : hostOnly r = None <-> onHost r = true.
Proof.
  unfold hostOnly, onHost. by destruct (isLoopback (RemoteAddr r)), (loopbackHost (Host r)).
Qed.

(** From anywhere else, the guard is all a request gets to. *)
Lemma handle_remote e s r rt : onHost r = false -> (handle e s r rt).1.1 = (guard e s r).1.1.
Proof.
  intros Hremote. unfold handle. destruct (guard e s r) as [[s1 resp1] cs1].
  assert (hostOnly r <> None) as Hh by (rewrite hostOnly_onHost; congruence).
  destruct (hostOnly r); [|done]. by destruct resp1; [destruct rt|..].
Qed.

(** A request that does not come from the machine itself, whatever it is and
    whatever token and cookies it carries, changes no setting, not the token and
    not the listener; of the devices it can only make one wait. *)
Theorem remote_request_effect (e : env) (s s' : server) (r : request) (rt : route)
    (resp : response) (cs : cookies) (Hremote : onHost r = false) :
  handle e s r rt = (s', resp, cs) ->
  same_host s s' /\ only_asks (devices_of s) (devices_of s').
Proof.
  intros Hh. pose proof (handle_remote e s r rt Hremote) as Hs. rewrite Hh in Hs. simpl in Hs. subst s'.
  destruct (guard e s r) as [[s1 resp1] cs1] eqn:Hg. by eapply guard_asks.
Qed.

(** The approved devices. *)
Definition approved (s : server) (id : string) : Prop :=
  exists x, devices_of s !! id = Some x /\ d_Status x = DeviceApproved.

Lemma only_asks_approved s s' id :
  only_asks (devices_of s) (devices_of s') -> approved s' id -> approved s id.
Proof.
  intros Ha (x & Hx & Hst). destruct (Ha id) as [He|(y & Hy & Hp)].
  - exists x. by rewrite <- He.
  - rewrite Hy in Hx. simplify_eq. rewrite Hp in Hst. done.
Qed.

Lemma setApproval_devices e s m : devices_of (setApproval e s m).1 = devices_of s.
Proof.
  unfold setApproval. split_if; [done|]. destruct (store s) as [d|] eqn:Hs; [|done].
  unfold SetSetting. destruct (write_fails e); [done|]. simpl.
  set (s1 := set_db _ _). destruct (loadApprovals_same e s1) as [_ Hd].
  unfold devices_of in *. simpl. rewrite Hd. simpl. by rewrite Hs.
Qed.

Lemma setAccessNetwork_devices e s lan : devices_of (setAccessNetwork e s lan).1 = devices_of s.
Proof.
  unfold setAccessNetwork. repeat (split_if; [done|]). simpl.
  destruct (store s) as [d|] eqn:Hs; [|by unfold devices_of; simpl; rewrite Hs].
  unfold SetSetting. destruct (write_fails e); unfold devices_of; simpl; by rewrite Hs.
Qed.

Lemma rotateAccess_devices e s : devices_of (rotateAccess e s).1 = devices_of s.
Proof.
  unfold rotateAccess. destruct (store s) as [d|] eqn:Hs; [|done].
  unfold SetSetting. destruct (write_fails e); [done|]. unfold devices_of. simpl. by rewrite Hs.
Qed.

Lemma removeDevice_approved e s id i : approved (removeDevice e s id).1 i -> approved s i.
Proof.
  destruct (loadApprovals_same e s) as [_ Hd].
  assert (approved (loadApprovals e s) i -> approved s i) as Hl by (unfold approved; by rewrite Hd).
  unfold removeDevice. cbv zeta.
  rewrite loadApprovals_store. destruct (store s) as [d|] eqn:Hs.
  - unfold DeleteDevice. destruct (write_fails e); [done|].
    unfold approved, devices_of. simpl. rewrite Hs.
    intros (x & [_ Hx]%lookup_delete_Some & Hst). by exists x.
  - done.
Qed.

Lemma decideDevice_approved e s id st i :
  approved (decideDevice e s id st).1 i -> approved s i \/ (i = id /\ st = DeviceApproved).
Proof.
  destruct (loadApprovals_same e s) as [_ Hd].
  assert (approved (loadApprovals e s) i -> approved s i) as Hl by (unfold approved; by rewrite Hd).
  unfold decideDevice. cbv zeta. split_if; [by left|].
  destruct (status (appr (loadApprovals e s)) !! id); [|by auto].
  rewrite loadApprovals_store. destruct (store s) as [d|] eqn:Hs; [|by auto].
  unfold DecideDevice. destruct (write_fails e); [by auto|].
  unfold approved, devices_of. simpl. rewrite Hs. intros (x & Hx & Hst).
  destruct (decide (id = i)) as [->|Hne].
  - rewrite lookup_alter_eq in Hx. destruct (devices d !! i) as [y|]; [|done].
    simpl in Hx. injection Hx as <-. simpl in Hst. by right.
  - rewrite lookup_alter_ne in Hx by done. left. by exists x.
Qed.

(** Nothing but the host's decision approves a device: one approved after a
    request was approved before it, or the request is the host accepting it. *)
Theorem approved_by_host (e : env) (s s' : server) (r : request) (rt : route)
    (resp : response) (cs : cookies) (id : string) :
  handle e s r rt = (s', resp, cs) -> approved s' id ->
  approved s id \/ (rt = DecideRoute id DeviceApproved /\ onHost r = true).
Proof.
  intros Hh Happ. destruct (onHost r) eqn:Hon.
  2:{ left. pose proof (handle_remote e s r rt Hon) as Hs. rewrite Hh in Hs. simpl in Hs. subst s'.
      destruct (guard e s r) as [[s1 resp1] cs1] eqn:Hg. apply guard_asks in Hg as [_ Hg].
      by eapply only_asks_approved. }
  unfold handle in Hh. destruct (guard e s r) as [[s1 resp1] cs1] eqn:Hg.
  apply guard_asks in Hg as [_ Hg].
  assert (approved s1 id -> approved s id) as Hback by (by apply only_asks_approved).
  apply hostOnly_onHost in Hon as Hho. rewrite Hho in Hh.
  destruct resp1; [|by simplify_eq; auto..].
  destruct rt as [m|i st|i|lan| |].
  - destruct (setApproval e s1 m) as [s2 r2] eqn:H2. simplify_eq. left. apply Hback.
    unfold approved in *. rewrite <- (setApproval_devices e s1 m). by rewrite H2.
  - destruct (decideDevice e s1 i st) as [s2 r2] eqn:H2. simplify_eq.
    destruct (decideDevice_approved e s1 i st id) as [?|[-> ->]]; [by rewrite H2|by auto|by right].
  - destruct (removeDevice e s1 i) as [s2 r2] eqn:H2. simplify_eq. left. apply Hback.
    apply (removeDevice_approved e s1 i). by rewrite H2.
  - destruct (setAccessNetwork e s1 lan) as [s2 r2] eqn:H2. simplify_eq. left. apply Hback.
    unfold approved in *. rewrite <- (setAccessNetwork_devices e s1 lan). by rewrite H2.
  - destruct (rotateAccess e s1) as [s2 r2] eqn:H2. simplify_eq. left. apply Hback.
    unfold approved in *. rewrite <- (rotateAccess_devices e s1). by rewrite H2.
  - simplify_eq. auto.
Qed.

(** ** Memory and table agree *)

(** Once loaded, the statuses in memory are the table's; no row has the empty
    id; and no more than [maxPending] devices wait. *)
Definition consistent (s : server) : Prop :=
  (loaded (appr s) = true -> status (appr s) = d_Status <$> devices_of s) /\
  devices_of s !! "" = None /\
  (pending (d_Status <$> devices_of s) <= maxPending)%nat.

Lemma pending_delete st id : (pending (delete id st) <= pending st)%nat.
Proof. apply map_subseteq_size, map_filter_subseteq_mono, delete_subseteq. Qed.

Lemma pending_insert st id x :
  (pending (<[id := x]> st) <= S (pending st))%nat /\
  (x <> DevicePending -> (pending (<[id := x]> st) <= pending st)%nat).
Proof.
  unfold pending. split.
  - destruct (decide (x = DevicePending)) as [Hx|Hx].
    + rewrite map_filter_insert_True by done. rewrite map_size_insert.
      destruct (_ !! id); simpl; lia.
    + rewrite map_filter_insert_False by done. etransitivity; [apply pending_delete|]. unfold pending. lia.
  - intros Hx. rewrite map_filter_insert_False by done. apply pending_delete.
Qed.

Definition calm (e : env) : Prop := devices_fail e = false.

Lemma loadApprovals_consistent e s :
  calm e -> consistent s -> consistent (loadApprovals e s) /\ loaded (appr (loadApprovals e s)) = true.
Proof.
  intros He (Hm & Hn & Hp). destruct (loadApprovals_same e s) as [_ Hd].
  unfold consistent. rewrite Hd. unfold loadApprovals in *.
  destruct (loaded (appr s)) eqn:Hl; [by rewrite Hl; split_and!; auto|].
  unfold devices_of in *. destruct (store s) as [d|] eqn:Hs; [rewrite He|]; simpl; by split_and!.
Qed.

Lemma set_memory_consistent s a :
  consistent s -> loaded a = loaded (appr s) -> status a = status (appr s) -> consistent (set_appr s a).
Proof. intros (Hm & Hn & Hp) Hl Hst. split_and!; [simpl; by rewrite Hl, Hst|done|done]. Qed.

(** The same change made to memory and table. *)
Lemma write_consistent s a d d' :
  store s = Some d -> status a = d_Status <$> devices d' -> devices d' !! "" = None ->
  (pending (d_Status <$> devices d') <= maxPending)%nat -> consistent (set_db (set_appr s a) d').
Proof. intros Hs Hst Hn Hp. by split_and!. Qed.

Section Laws.
(** A digest is never empty. *)
Context (sha_nonempty : forall x, sha_id x <> "").

Lemma requestAccess_consistent e s r id name s' st cs :
  consistent s -> loaded (appr s) = true ->
  requestAccess e s r id name = (s', st, cs) -> consistent s'.
Proof.
  intros Hc Hl. pose proof Hc as (Hm & Hn & Hp). specialize (Hm Hl). unfold requestAccess.
  destruct (Nat.leb_spec maxPending (pending (status (appr s)))) as [|Hlt]; [intros; by simplify_eq|].
  destruct (String.eqb id "" && deniedAddr e s r); [intros; by simplify_eq|].
  destruct (if String.eqb id "" then _ else _) as [id' cs'] eqn:Hid.
  assert (id' <> "") as Hne.
  { destruct (String.eqb_spec id ""); simplify_eq; [apply sha_nonempty|done]. }
  destruct (store s) as [d|] eqn:Hs; [|intros; by simplify_eq].
  unfold RequestAccess. destruct (write_fails e); [intros; by simplify_eq|].
  intros [= <- _ _]. unfold devices_of in *. rewrite Hs in *.
  apply (write_consistent _ _ d); simpl; [done| | |].
  - by rewrite fmap_insert, Hm.
  - by rewrite lookup_insert_ne.
  - rewrite fmap_insert. rewrite Hm in Hlt. simpl.
    destruct (pending_insert (d_Status <$> devices d) id' DevicePending) as [Hle _]. lia.
Qed.

Lemma admit_consistent e s r s' ok resp cs :
  calm e -> consistent s -> admit_request e s r = (s', ok, resp, cs) -> consistent s'.
Proof.
  intros He Hc. destruct (loadApprovals_consistent e s He Hc) as [Hc0 Hl0].
  unfold admit_request. cbv zeta. revert Hc0 Hl0. generalize (loadApprovals e s) as s0. intros s0 Hc0 Hl0.
  destruct (String.eqb (mode (appr s0)) approvalOff); [intros; by simplify_eq|].
  match goal with |- context [if ?b then (set_appr _ _, _, _, _) else _] => destruct b end.
  { intros [= <- _ _ _]. by apply set_memory_consistent. }
  match goal with |- context [if ?b then requestAccess _ _ _ _ _ else _] => destruct b end.
  - destruct (requestAccess _ _ _ _ _) as [[s1 st1] cs1] eqn:Hr. intros [= <- _ _ _].
    by eapply requestAccess_consistent.
  - intros [= <- _ _ _]. done.
Qed.

Lemma guard_consistent e s r s' resp cs :
  calm e -> consistent s -> guard e s r = (s', resp, cs) -> consistent s'.
Proof.
  intros He Hc. unfold guard. repeat (split_if; [intros; by simplify_eq|]). cbv zeta.
  destruct (admit_request e s r) as [[[s1 ok] resp1] cs1] eqn:Had. intros [= <- _ _].
  by eapply admit_consistent.
Qed.

(** A write to the settings leaves the devices alone. *)
Lemma set_settings_consistent s d d' :
  consistent s -> store s = Some d -> devices d' = devices d -> consistent (set_db s d').
Proof.
  intros (Hm & Hn & Hp) Hs Hd. unfold consistent, devices_of in *. rewrite Hs in *. simpl.
  by rewrite Hd.
Qed.

Lemma setApproval_consistent e s m : calm e -> consistent s -> consistent (setApproval e s m).1.
Proof.
  intros He Hc. unfold setApproval. split_if; [done|]. destruct (store s) as [d|] eqn:Hs; [|done].
  unfold SetSetting. destruct (write_fails e); [done|]. cbv zeta.
  apply set_memory_consistent; [|done..].
  apply loadApprovals_consistent; [done|]. by eapply set_settings_consistent.
Qed.

Lemma decideDevice_consistent e s id st : calm e -> consistent s -> consistent (decideDevice e s id st).1.
Proof.
  intros He Hc. unfold decideDevice. destruct (_ && _) eqn:Hst; [done|].
  destruct (loadApprovals_consistent e s He Hc) as [Hc0 Hl0]. cbv zeta.
  revert Hc0 Hl0. generalize (loadApprovals e s) as s0. intros s0 Hc0 Hl0.
  destruct (status (appr s0) !! id) eqn:Hid; [|done]. destruct (store s0) as [d|] eqn:Hs; [|done].
  unfold DecideDevice. destruct (write_fails e); [done|]. simpl.
  destruct Hc0 as (Hm & Hn & Hp). specialize (Hm Hl0). unfold devices_of in *. rewrite Hs in *.
  assert (exists x, devices d !! id = Some x) as [x Hx].
  { rewrite Hm, lookup_fmap in Hid. destruct (devices d !! id); [eauto|done]. }
  assert (d_Status <$> alter (fun x => mkDevice (d_Name x) (d_Addr x) st (d_RequestedAt x) (now e / 1000000000))
            id (devices d) = <[id := st]> (d_Status <$> devices d)) as Hmap.
  { apply map_eq. intros i. rewrite lookup_fmap. destruct (decide (id = i)) as [->|].
    - by rewrite lookup_alter_eq, lookup_insert_eq, Hx.
    - by rewrite lookup_alter_ne, lookup_insert_ne, lookup_fmap. }
  apply (write_consistent _ _ d); simpl; [done| | |].
  - by rewrite Hmap, Hm.
  - rewrite lookup_alter_ne; [done|]. intros ->. by rewrite Hn in Hx.
  - rewrite Hmap. etransitivity; [|exact Hp]. apply pending_insert. intros ->.
    by rewrite andb_false_iff in Hst; destruct Hst.
Qed.

Lemma removeDevice_consistent e s id : calm e -> consistent s -> consistent (removeDevice e s id).1.
Proof.
  intros He Hc. unfold removeDevice.
  destruct (loadApprovals_consistent e s He Hc) as [Hc0 Hl0]. cbv zeta.
  revert Hc0 Hl0. generalize (loadApprovals e s) as s0. intros s0 Hc0 Hl0.
  destruct (store s0) as [d|] eqn:Hs; [|done].
  unfold DeleteDevice. destruct (write_fails e); [done|]. simpl.
  destruct Hc0 as (Hm & Hn & Hp). specialize (Hm Hl0). unfold devices_of in *. rewrite Hs in *.
  apply (write_consistent _ _ d); simpl; [done| | |].
  - by rewrite fmap_delete, Hm.
  - by apply lookup_delete_None; right.
  - rewrite fmap_delete. etransitivity; [apply pending_delete|done].
Qed.

Lemma setAccessNetwork_consistent e s lan : consistent s -> consistent (setAccessNetwork e s lan).1.
Proof.
  intros Hc. unfold setAccessNetwork. repeat (split_if; [done|]). cbv zeta. simpl.
  destruct (store s) as [d|] eqn:Hs; [|unfold consistent, devices_of in *; simpl in *; by rewrite Hs in *].
  unfold SetSetting. destruct (write_fails e);
    unfold consistent, devices_of in *; simpl in *; by rewrite Hs in *.
Qed.

Lemma rotateAccess_consistent e s : consistent s -> consistent (rotateAccess e s).1.
Proof.
  intros Hc. unfold rotateAccess. destruct (store s) as [d|] eqn:Hs; [|done].
  unfold SetSetting. destruct (write_fails e); [done|].
  unfold consistent, devices_of in *; simpl in *; by rewrite Hs in *.
Qed.

Lemma handle_consistent e s r rt s' resp cs :
  calm e -> consistent s -> handle e s r rt = (s', resp, cs) -> consistent s'.
Proof.
  intros He Hc. unfold handle. destruct (guard e s r) as [[s1 resp1] cs1] eqn:Hg.
  apply guard_consistent in Hg as Hc1; [|done..].
  destruct resp1; [|intros; by simplify_eq..].
  assert (forall p : server * response, consistent p.1 ->
    (let '(s, resp) := p in (s, resp, cs1)) = (s', resp, cs) -> consistent s') as Hfin.
  { intros [s2 r2] Hp. intros; by simplify_eq. }
  destruct rt as [m|i st|i|lan| |]; try (destruct (hostOnly r); [intros; by simplify_eq|]).
  - apply Hfin. by apply setApproval_consistent.
  - apply Hfin. by apply decideDevice_consistent.
  - apply Hfin. by apply removeDevice_consistent.
  - apply Hfin. by apply setAccessNetwork_consistent.
  - apply Hfin. by apply rotateAccess_consistent.
  - intros; by simplify_eq.
Qed.

(** However requests and restarts interleave, as long as the device table
    can be read, the standing of every device in memory is the table's once
    loaded, no device is stored under an empty id, and at most twenty devices
    ever wait: a flood of requests cannot bury the real one. *)
Theorem reachable_consistent (s0 s : server) (Hinit : consistent s0) :
  reachable calm s0 s -> consistent s.
Proof.
  induction 1 as [|s s' _ IH Hstep]; [done|].
  destruct Hstep as [e s r rt s' resp cs He Hh|s]; [by eapply handle_consistent|].
  destruct IH as (Hm & Hn & Hp). by split_and!.
Qed.
End Laws.

(** A device the host declined is not let in and changes nothing, with its
    own cookie or, from its address, with none. *)
Theorem denied_stays_out (e : env) (s : server) (r : request)
    (Hc : consistent s) (Hl : loaded (appr s) = true) (Hm : mode (appr s) <> approvalOff)
    (He : calm e)
    (Hdenied : status (appr s) !! id_of r = Some DeviceDenied \/
               (id_of r = "" /\ deniedAddr e s r = true)) :
  exists resp, admit_request e s r = (s, false, resp, []).
Proof.
  unfold admit_request. cbv zeta. assert (loadApprovals e s = s) as -> by (unfold loadApprovals; by rewrite Hl).
  apply String.eqb_neq in Hm. rewrite Hm.
  destruct Hdenied as [Hst|[Hid Ha]].
  - rewrite Hst. simpl. eauto.
  - rewrite Hid. destruct Hc as (Hmir & Hn & _). rewrite (Hmir Hl), lookup_fmap, Hn. simpl.
    destruct (navigation r); [|eauto]. unfold requestAccess.
    destruct (maxPending <=? _)%nat; [eauto|]. rewrite Ha. simpl. eauto.
Qed.
End Access.

(** ** The properties at work *)

#[local] Existing Instance ascii_unicode.

(** A stand-in digest, injective and never empty, and hosts of "http://" URLs. *)
#[local] Instance sample_crypto : Crypto := {|
  sha_id x := "id-" +:+ x;
  url_host u := if has_prefix u "http://" then Some (trim_prefix u "http://") else None |}.

Definition calm_env (t : Z) : env := mkEnv t "fresh" false false false false.

(** Network on, a device's say wanted, one device accepted and one declined. *)
Definition house : server :=
  mkServer "127.0.0.1:4321" true "0.0.0.0:4321" "tok" (mkApprovals false "" ∅ ∅)
    (Some (mkDb {["access.lan" := "true"; "access.approval" := "once"]}
       {["id-phone" := mkDevice "Safari on iPhone" "192.168.1.7" "approved" 1 2;
         "id-tv" := mkDevice "Chrome on Linux" "192.168.1.9" "denied" 1 2]})).

Definition lan_request (addr : string) (cookie : option string) : request :=
  mkRequest "GET" "/" addr "192.168.1.2:4321" "Bearer tok" "" "" "text/html" "Mozilla iPhone Safari"
    "" None cookie false.

Definition host_request (m : string) : request :=
  mkRequest m "/" "127.0.0.1:50000" "localhost:4321" "" "" "" "text/html" "Mozilla Linux Firefox"
    "" None None false.

Definition phone_in : server :=
  let '(s, _, _) := guard (calm_env 5) house (lan_request "192.168.1.7:900" (Some "phone")) in s.

Lemma guard_served_witness :
  let r := lan_request "192.168.1.7:900" (Some "phone") in
  (safeMethod (Method r) = true \/ sameOrigin r = true) /\
  (onHost r = true \/
   ((isLoopback (RemoteAddr r) = true \/ can_rebind house = false \/ bound (calm_env 5) house = true) /\
    ((Method r = "GET" /\ Path r ∈ installAssets) \/
     (token house <> "" /\ presented r = token house /\
      admitted (calm_env 5) (appr (loadApprovals (calm_env 5) house)) r)))).
Proof.
  apply (guard_served (calm_env 5) house phone_in (lan_request "192.168.1.7:900" (Some "phone")) []).
  vm_compute. reflexivity.
Defined.

(** A new phone asks: it waits, under a fresh cookie. *)
Definition asked_once : server :=
  let '(s, _, _) := handle (calm_env 5) house (lan_request "192.168.1.20:900" None) RotateRoute in s.

Lemma remote_request_effect_witness :
  same_host house asked_once /\ only_asks (devices_of house) (devices_of asked_once).
Proof.
  apply (remote_request_effect (calm_env 5) house asked_once (lan_request "192.168.1.20:900" None)
           RotateRoute (Waiting "pending" "Safari on iPhone") [("kuro_device", "fresh")]).
  - vm_compute. reflexivity.
  - vm_compute. reflexivity.
Defined.

(** The host accepts it. *)
Definition accepted_new : server :=
  let '(s, _, _) := handle (calm_env 6) asked_once (host_request "POST") (DecideRoute "id-fresh" "approved") in s.

Lemma approved_by_host_witness :
  approved asked_once "id-fresh" \/
  (DecideRoute "id-fresh" "approved" = DecideRoute "id-fresh" DeviceApproved /\
   onHost (host_request "POST") = true).
Proof.
  apply (approved_by_host (calm_env 6) asked_once accepted_new (host_request "POST")
           (DecideRoute "id-fresh" "approved") (Sent 200 [("status", "approved")]) [] "id-fresh").
  - vm_compute. reflexivity.
  - exists (mkDevice "Safari on iPhone" "192.168.1.20" "approved" 0 0). vm_compute. split; reflexivity.
Defined.

Lemma house_consistent : consistent house.
Proof. split_and!; [by intros|reflexivity|vm_compute; lia]. Qed.

Lemma sample_nonempty : forall x, sha_id x <> "".
Proof. intros x. discriminate. Qed.

Lemma reachable_consistent_witness : consistent (restart accepted_new).
Proof.
  apply (reachable_consistent sample_nonempty house (restart accepted_new)).
  - exact house_consistent.
  - eapply reach_step; [|apply step_restart].
    eapply reach_step; [eapply reach_step; [apply reach_refl|]|].
    + eapply (step_request calm (calm_env 5) house (lan_request "192.168.1.20:900" None) RotateRoute asked_once);
        [reflexivity|vm_compute; reflexivity].
    + eapply (step_request calm (calm_env 6) asked_once (host_request "POST")
                (DecideRoute "id-fresh" "approved") accepted_new); [reflexivity|vm_compute; reflexivity].
Defined.

Lemma denied_stays_out_witness :
  exists resp, admit_request (calm_env 7) asked_once (lan_request "192.168.1.9:900" None) = (asked_once, false, resp, []).
Proof.
  apply (denied_stays_out (calm_env 7) asked_once (lan_request "192.168.1.9:900" None)).
  - apply (handle_consistent sample_nonempty (calm_env 5) house (lan_request "192.168.1.20:900" None)
             RotateRoute asked_once (Waiting "pending" "Safari on iPhone") [("kuro_device", "fresh")]);
      [reflexivity|exact house_consistent|vm_compute; reflexivity].
  - vm_compute. reflexivity.
  - vm_compute. discriminate.
  - reflexivity.
  - right. vm_compute. split; reflexivity.
Defined.

(** A failed read of the device table costs an accepted device its place:
    it is taken for a new one, and its row is turned from approved to pending
    (and so is a declined device's). *)
Theorem load_failure_demotes :
  let e := mkEnv 5 "fresh" true false false false in
  let after c := let '(s, _, _) := guard e house (lan_request "192.168.1.7:900" (Some c)) in
                 d_Status <$> devices_of s !! ("id-" +:+ c) in
  (d_Status <$> devices_of house !! "id-phone", after "phone",
   d_Status <$> devices_of house !! "id-tv", after "tv") =
  (Some "approved", Some "pending", Some "denied", Some "pending").
Proof. vm_compute. reflexivity. Qed.

(** The address of a declined device is asked about only when it sends no
    cookie at all: with one it makes up, the declined device waits again. *)
Theorem made_up_cookie_asks_again :
  let r := lan_request "192.168.1.9:900" in
  let outcome c := let '(_, _, resp, _) := admit_request (calm_env 5) house (r c) in resp in
  (outcome (Some "tv"), outcome None, outcome (Some "made up")) =
  (Waiting "denied" "Safari on iPhone", Waiting "denied" "Safari on iPhone",
   Waiting "pending" "Safari on iPhone").
Proof. vm_compute. reflexivity. Qed.
