(* ===== verification/Cache.v ===== *)
(** * The download cache: internal/library/cache.go, internal/store/cache.go

    Downloads are kept within a byte budget by evicting whole torrents, oldest
    first.  The state is what the code works on: the rows of [cache_entry] (with
    the columns its queries join to them), the torrents the engine holds, the
    files under the cache folder, and the cache's own memory of absent and
    unfinished downloads.

    Database and engine calls may fail ([io]); what other tables say (the
    budget, the episode last played, the episodes watched) is an argument of the
    operations that ask. *)
From stdpp Require Import base gmap strings list sets.
From Stdlib Require Import ZArith Lia Permutation Sorted.
From S2P Require Import Prelude GoStr Paths.

(** ** Data *)

(** File index for a download nobody has played. *)
Definition WholeTorrent : Z := -1.

Record CacheEntry := mkEntry {
  InfoHash : string;
  FileIndex : Z;
  Bytes : Z;
  Complete : bool;
  Pinned : bool;
  Kept : bool;
  Protected : bool;
  AnimeID : option Z;
  EpKey : string;
  LastPlayed : Z;
  Name : string;
}.

#[export] Instance CacheEntry_eq_dec : EqDecision CacheEntry.
Proof. solve_decision. Defined.

Record File := mkFile { f_Name : string; Components : list string; f_Length : Z; Included : bool }.

Record Detail := mkDetail { OutputFolder : string; Files : list File }.

Record Stats := mkStats {
  State : string;
  ProgressBytes : Z;
  Finished : bool;
  FileProgress : list Z;
}.

(** A torrent the engine lists. *)
Record held_torrent := mkHeld {
  h_ID : Z;
  h_hash : string;
  h_name : string;
  h_detail : Detail;
  h_stats : Stats;
}.

(** An unfinished download by its bytes, and when those last changed. *)
Record mark := mkMark { m_bytes : Z; m_since : Z }.

Record absence := mkAbsence { a_count : Z; a_since : Z }.

Record world := mkWorld {
  rows : list CacheEntry;
  engine : option (list held_torrent);
  disk : gset string;
  progress : gmap string mark;
  absent : gmap string absence;
}.

Inductive error := ErrUnavailable | ErrFailed (what : string).

(** The calls that fail, the clock in nanoseconds, and what files weigh. *)
Record io := mkIO {
  now : Z;
  list_fails : bool;
  details_fail : Z -> bool;
  stats_fail : Z -> bool;
  delete_fails : Z -> option error;
  entries_fail : bool;
  write_fails : string -> bool;
  remove_fails : string -> bool;
  allocated : string -> Z;
  (** The order a Go map of these keys is walked in. *)
  iter : list string -> list string;
  (** The torrents a fetch has in hand. *)
  claimed : string -> bool;
}.

Definition stalledAfter : Z := 12 * 3600 * 1000000000.
Definition forgetAfter : Z := 2.
Definition forgetAge : Z := 10 * 60 * 1000000000.

(** Fields of the world set one at a time. *)
Definition set_rows (w : world) (l : list CacheEntry) : world :=
  mkWorld l (engine w) (disk w) (progress w) (absent w).
Definition set_engine (w : world) (e : list held_torrent) (d : gset string) : world :=
  mkWorld (rows w) (Some e) d (progress w) (absent w).
Definition set_disk (w : world) (d : gset string) : world :=
  mkWorld (rows w) (engine w) d (progress w) (absent w).
Definition set_progress (w : world) (p : gmap string mark) : world :=
  mkWorld (rows w) (engine w) (disk w) p (absent w).
Definition set_absent (w : world) (a : gmap string absence) : world :=
  mkWorld (rows w) (engine w) (disk w) (progress w) a.

(** ** The table *)

(** The list's order: pinned first, then the most recently played. *)
Definition list_order (a b : CacheEntry) : bool :=
  (Pinned a && negb (Pinned b)) || (Bool.eqb (Pinned a) (Pinned b) && (LastPlayed b <? LastPlayed a)).

Definition CacheEntries (o : io) (w : world) : option (list CacheEntry) :=
  if entries_fail o then None else Some (sort_by list_order (rows w)).

(** What the budget sees: kept downloads are beside it. *)
Definition usage_of (l : list CacheEntry) : Z :=
  foldr (fun e n => if Kept e then n else Bytes e + n) 0 l.

Definition kept_bytes (l : list CacheEntry) : Z :=
  foldr (fun e n => if Kept e then Bytes e + n else n) 0 l.

Record CacheUsage := mkUsage {
  u_Bytes : Z; u_Budget : Z; u_Files : Z; u_Pinned : Z; u_Kept : Z; u_KeptBytes : Z;
  u_Entries : list CacheEntry;
}.

Definition cacheUsage (o : io) (w : world) (budget : Z) : option CacheUsage :=
  match CacheEntries o w with
  | None => None
  | Some l =>
      Some (mkUsage (usage_of l) budget (Z.of_nat (length l))
        (Z.of_nat (length (List.filter Pinned l))) (Z.of_nat (length (List.filter Kept l)))
        (kept_bytes l) l)
  end.

(** [DELETE ... WHERE info_hash = ?]. *)
Definition without (hash : string) (l : list CacheEntry) : list CacheEntry :=
  List.filter (fun e => negb (String.eqb (InfoHash e) hash)) l.

Definition DropTorrentCache (o : io) (w : world) (hash : string) : world * option error :=
  if write_fails o hash then (w, Some (ErrFailed "database"))
  else (set_rows w (without hash (rows w)), None).

Definition same_file (e : CacheEntry) (hash : string) (index : Z) : bool :=
  String.eqb (InfoHash e) hash && (FileIndex e =? index).

Definition DropCacheEntry (o : io) (w : world) (hash : string) (index : Z) : world * option error :=
  if write_fails o hash then (w, Some (ErrFailed "database"))
  else (set_rows w (List.filter (fun e => negb (same_file e hash index)) (rows w)), None).

Definition with_kept (e : CacheEntry) (k : bool) : CacheEntry :=
  mkEntry (InfoHash e) (FileIndex e) (Bytes e) (Complete e) (Pinned e) k (Protected e) (AnimeID e)
    (EpKey e) (LastPlayed e) (Name e).

Definition with_bytes (e : CacheEntry) (n : Z) (c : bool) : CacheEntry :=
  mkEntry (InfoHash e) (FileIndex e) n c (Pinned e) (Kept e) (Protected e) (AnimeID e)
    (EpKey e) (LastPlayed e) (Name e).

Definition with_pin (e : CacheEntry) (p : bool) (at_ : Z) : CacheEntry :=
  mkEntry (InfoHash e) (FileIndex e) (Bytes e) (Complete e) p (Kept e) (Protected e) (AnimeID e)
    (EpKey e) at_ (Name e).

Definition KeepDownload (o : io) (w : world) (hash : string) (k : bool) : world * option bool :=
  if write_fails o hash then (w, None)
  else (set_rows w (map (fun e => if String.eqb (InfoHash e) hash then with_kept e k else e) (rows w)),
        Some (existsb (fun e => String.eqb (InfoHash e) hash) (rows w))).

Definition KeepFile (o : io) (w : world) (hash : string) (index : Z) (k : bool) : world * option bool :=
  if write_fails o hash then (w, None)
  else (set_rows w (map (fun e => if same_file e hash index then with_kept e k else e) (rows w)),
        Some (existsb (fun e => same_file e hash index) (rows w))).

Definition SetCacheBytes (o : io) (w : world) (hash : string) (index n : Z) (c : bool)
    : world * option error :=
  if write_fails o hash then (w, Some (ErrFailed "database"))
  else (set_rows w (map (fun e => if same_file e hash index then with_bytes e n c else e) (rows w)), None).

Definition PinCache (o : io) (w : world) (hash : string) (index : Z) (p : bool) : world * option error :=
  if write_fails o hash then (w, Some (ErrFailed "database"))
  else (set_rows w (map (fun e => if same_file e hash index then with_pin e p (now o / 1000000000) else e)
          (rows w)), None).

Definition UnpinAll (w : world) : world :=
  set_rows w (map (fun e => with_pin e false (LastPlayed e)) (rows w)).

(** [PinOnly]: one episode plays at a time. *)
Definition PinOnly (o : io) (w : world) (hash : string) (index : Z) : world * option error :=
  if write_fails o hash then (w, Some (ErrFailed "database"))
  else (set_rows w (map (fun e =>
          if same_file e hash index then with_pin e true (now o / 1000000000)
          else if Pinned e then with_pin e false (LastPlayed e) else e) (rows w)), None).

Definition FileComplete (w : world) (hash : string) (index : Z) : bool :=
  match List.find (fun e => same_file e hash index) (rows w) with
  | Some e => Complete e
  | None => false
  end.

(** [TrackTorrent]: a whole-torrent row, unless there is one; a torrent on
    record keeps its name. *)
Definition TrackTorrent (o : io) (w : world) (hash name : string) : world * option error :=
  if write_fails o hash then (w, Some (ErrFailed "database"))
  else if existsb (fun e => same_file e hash WholeTorrent) (rows w) then (w, None)
  else (set_rows w (rows w ++ [mkEntry hash WholeTorrent 0 false false false false None ""
                                 (now o / 1000000000)
                                 (match List.find (fun e => String.eqb (InfoHash e) hash) (rows w) with
                                  | Some e => Name e
                                  | None => name
                                  end)]), None).

(** A show's playback rows, by episode key and whether watched, and its list
    row, by progress and status. *)
Record watch_rows := mkWatch { playback : list (string * bool); progress_of : Z; list_status : string }.

Definition played_numbers (l : list (string * bool)) : gset Z :=
  list_to_set (omap (fun '(key, _) => match atoi key with (n, true) => Some n | _ => None end) l).

Definition watched_numbers (l : list (string * bool)) : gset Z :=
  list_to_set (omap (fun '(key, w) => match atoi key with (n, true) => if w : bool then Some n else None | _ => None end) l).

(** [WatchedEpisodes]: finished in the player, or below the list's progress and
    never played; a finished show played again is a rewatch. *)
Definition WatchedEpisodes (r : watch_rows) : gset Z :=
  let n := if String.eqb (list_status r) "COMPLETED" then 0 else progress_of r in
  watched_numbers (playback r) ∪
  list_to_set (List.filter (fun k => negb (bool_decide (k ∈ played_numbers (playback r))))
                 (map (fun i => Z.of_nat i) (List.seq 1 (Z.to_nat n)))).

Section Cache.
Context `{Unicode}.
(** The cache folder, and the folders of kuro's own inside it. *)
Context (dir : string) (protected : list string).
#[local] Set Default Proof Using "Type".

(** ** Memory of unfinished downloads *)

Definition watch (o : io) (w : world) (hash : string) (bytes : Z) (done : bool) : world :=
  let hash := to_lower hash in
  if done then set_progress w (delete hash (progress w))
  else
    match progress w !! hash with
    | Some m => if m_bytes m =? bytes then w
                else set_progress w (<[hash := mkMark bytes (now o)]> (progress w))
    | None => set_progress w (<[hash := mkMark bytes (now o)]> (progress w))
    end.

Definition unwatch (w : world) (hash : string) : world :=
  set_progress w (delete (to_lower hash) (progress w)).

Definition stalled (o : io) (w : world) (hash : string) : bool :=
  match progress w !! hash with
  | Some m => stalledAfter <=? now o - m_since m
  | None => false
  end.

(** ** Evicting *)

Definition isProtected (path : string) : bool := existsb (Within path) protected.

Definition owns (d : Detail) : bool := Within dir (OutputFolder d).

Definition file_path (d : Detail) (f : File) : string :=
  match Components f with
  | [] => Join [OutputFolder d; f_Name f]
  | cs => Join [OutputFolder d; Join cs]
  end.

(** The paths of a torrent's files. *)
Definition paths_of (d : Detail) : list string :=
  map (fun f => file_path d f) (Files d).

(** [Client.Live]: ids by lowered hash, the last of a hash winning. *)
Definition live_id (l : list held_torrent) (hash : string) : option held_torrent :=
  List.find (fun t => negb (String.eqb (h_hash t) "") && String.eqb (to_lower (h_hash t)) hash) (rev l).

(** The engine deletes a torrent: it is listed no more and its files go, but
    those another torrent also maps to. *)
Definition engine_delete (l : list held_torrent) (d : gset string) (t : held_torrent)
    : list held_torrent * gset string :=
  let others := List.filter (fun x => negb (h_ID x =? h_ID t)) l in
  let shared := list_to_set (concat (map (fun x => paths_of (h_detail x)) others)) : gset string in
  (others, d ∖ (list_to_set (paths_of (h_detail t)) ∖ shared)).

Definition exists_on (d : gset string) (path : string) : bool :=
  existsb (Within path) (elements d).

Definition remove_all (d : gset string) (path : string) : gset string :=
  list_to_set (List.filter (fun p => negb (Within path p)) (elements d)).

(** A live torrent maps to the path: its folder, or one of its files. *)
Definition maps_there (o : io) (path : string) (t : held_torrent) : bool :=
  negb (details_fail o (h_ID t)) &&
  (String.eqb (Clean (OutputFolder (h_detail t))) (Clean path) ||
   existsb (fun f => String.eqb (Join [OutputFolder (h_detail t); f_Name f]) path) (Files (h_detail t))).

(** The row's name, or that of another row of its torrent. *)
Definition recorded_name (o : io) (w : world) (e : CacheEntry) : string :=
  if negb (String.eqb (Name e) "") then Name e
  else match CacheEntries o w with
       | Some rs =>
           match List.find (fun r => equal_fold (InfoHash r) (InfoHash e) && negb (String.eqb (Name r) "")) rs with
           | Some r => Name r
           | None => ""
           end
       | None => ""
       end.

Definition removeByName (o : io) (w : world) (e : CacheEntry) (l : list held_torrent)
    : world * option error :=
  let name := recorded_name o w e in
  if String.eqb name "" then (w, None)
  else
    let path := Join [dir; name] in
    if negb (Within dir path) then (w, Some (ErrFailed "outside the cache"))
    else if negb (exists_on (disk w) path) then (w, None)
    else if existsb (maps_there o path) (List.filter (fun t => negb (String.eqb (h_hash t) "")) l) then (w, None)
    else if remove_fails o path then (w, Some (ErrFailed "remove"))
    else (set_disk w (remove_all (disk w) path), None).

(** [evict]: the engine's torrent of the hash is deleted, or, one the engine
    lost, what its name says; then the record goes. *)
Definition evict (o : io) (w : world) (e : CacheEntry) : world * option error :=
  match engine w with
  | None => DropTorrentCache o w (InfoHash e)
  | Some l =>
      if list_fails o then (w, Some ErrUnavailable)
      else
        match live_id l (to_lower (InfoHash e)) with
        | Some t =>
            if details_fail o (h_ID t) then (w, Some (ErrFailed "details"))
            else if negb (owns (h_detail t)) then DropTorrentCache o w (InfoHash e)
            else
              match delete_fails o (h_ID t) with
              | Some ErrUnavailable => (w, Some ErrUnavailable)
              | Some (ErrFailed _) => DropTorrentCache o w (InfoHash e)
              | None =>
                  let '(l, d) := engine_delete l (disk w) t in
                  DropTorrentCache o (set_engine w l d) (InfoHash e)
              end
        | None =>
            let '(w, _) := removeByName o w e l in DropTorrentCache o w (InfoHash e)
        end
  end.

(** What evicting each torrent frees: eviction takes all of its files. *)
Definition torrentBytes (l : list CacheEntry) (hash : string) : Z :=
  foldr (fun e n => if String.eqb (InfoHash e) hash then Bytes e + n else n) 0 l.

(** An episode; [None] is none. *)
Definition is_episode (watching : option (Z * string)) (e : CacheEntry) : bool :=
  match AnimeID e, watching with
  | Some a, Some (b, key) => (a =? b) && String.eqb (EpKey e) key
  | Some a, None => (a =? 0) && String.eqb (EpKey e) ""
  | None, _ => false
  end.

Definition holds (is_stalled : string -> bool) (watching : option (Z * string)) (e : CacheEntry) : bool :=
  Pinned e || Kept e || is_episode watching e || (negb (Complete e) && negb (is_stalled (to_lower (InfoHash e)))).

(** The torrent of the hash has a row that holds it. *)
Definition is_held (l : list CacheEntry) (is_stalled : string -> bool) (watching : option (Z * string))
    (hash : string) : bool :=
  existsb (fun e => String.eqb (InfoHash e) hash && holds is_stalled watching e) l.

(** A torrent is as recent as its most recently played file. *)
Definition latest (l : list CacheEntry) (hash : string) : Z :=
  foldl (fun n e => if String.eqb (InfoHash e) hash then Z.max n (LastPlayed e) else n) 0 l.

Definition by_age (l : list CacheEntry) : list CacheEntry -> list CacheEntry :=
  sort_by (fun a b => latest l (InfoHash a) <? latest l (InfoHash b)).

Definition evictionOrder (l : list CacheEntry) (is_stalled : string -> bool)
    (watching : option (Z * string)) : list CacheEntry :=
  let free := List.filter (fun e => negb (is_held l is_stalled watching (InfoHash e))) l in
  by_age l (List.filter (fun e => negb (Protected e)) free) ++
  by_age l (List.filter Protected free).

Record SweepReport := mkReport { Before : Z; After : Z; Budget : Z; Evicted : Z; Freed : Z }.

(** [evictDownTo]: evicts in the given order until at or under the target. *)
Fixpoint evictDownTo (o : io) (w : world) (rep : SweepReport) (target : Z) (order : list CacheEntry)
    (freed : string -> Z) (gone : gset string) : world * SweepReport * gset string :=
  match order with
  | [] => (w, rep, gone)
  | e :: order' =>
      if After rep <=? target then (w, rep, gone)
      else if bool_decide (InfoHash e ∈ gone) then evictDownTo o w rep target order' freed gone
      else
        match evict o w e with
        | (w, Some _) => evictDownTo o w rep target order' freed gone
        | (w, None) =>
            evictDownTo o w
              (mkReport (Before rep) (After rep - freed (InfoHash e)) (Budget rep)
                 (Evicted rep + 1) (Freed rep + freed (InfoHash e)))
              target order' freed ({[InfoHash e]} ∪ gone)
        end
  end.

(** [Sweep] past its refresh, for a budget and the episode last played. *)
Definition sweep_down (o : io) (w : world) (budget : Z) (watching : option (Z * string))
    : world * option SweepReport :=
  match cacheUsage o w budget with
  | None => (w, None)
  | Some usage =>
      let l := u_Entries usage in
      let bytes := u_Bytes usage in
      let rep := mkReport bytes bytes budget 0 0 in
      if (budget <=? 0) || (bytes <=? budget) then (w, Some rep)
      else
        let '(w, rep, _) :=
          evictDownTo o w rep budget (evictionOrder l (stalled o w) watching) (torrentBytes l) ∅ in
        (w, Some rep)
  end.

(** ** MakeRoom *)

(** A torrent holding one unwatched episode of the show is spared whole. *)
Definition spared (l : list CacheEntry) (animeID : Z) (watched : gset Z) (hash : string) : bool :=
  existsb (fun e => String.eqb (InfoHash e) hash && bool_decide (AnimeID e = Some animeID) &&
                    match atoi (EpKey e) with (n, true) => negb (bool_decide (n ∈ watched)) | _ => true end) l.

(** What the torrents of an order free, each once. *)
Fixpoint available (order : list CacheEntry) (freed : string -> Z) (counted : gset string) : Z :=
  match order with
  | [] => 0
  | e :: order' =>
      if bool_decide (InfoHash e ∈ counted) then available order' freed counted
      else freed (InfoHash e) + available order' freed ({[InfoHash e]} ∪ counted)
  end.

Definition MakeRoom (o : io) (w : world) (budget need animeID : Z) (watched : gset Z)
    (watching : option (Z * string)) : world * bool :=
  match cacheUsage o w budget with
  | None => (w, false)
  | Some usage =>
      let l := u_Entries usage in
      let bytes := u_Bytes usage in
      let target := budget - need in
      if (budget <=? 0) || (bytes <=? target) then (w, true)
      else
        let order := List.filter (fun e => negb (spared l animeID watched (InfoHash e)))
                       (evictionOrder l (stalled o w) watching) in
        if target <? bytes - available order (torrentBytes l) ∅ then (w, false)
        else
          let '(w, rep, _) := evictDownTo o w (mkReport bytes bytes budget 0 0) target order (torrentBytes l) ∅ in
          (w, After rep <=? target)
  end.

(** ** AutoDelete *)

Definition auto_done (mode : string) (watched : gset Z) (ep : Z) : bool :=
  bool_decide (ep ∈ watched) &&
  (String.eqb mode "now" || (bool_decide (ep ⊞ 1 ∈ watched) && bool_decide (ep ⊞ 2 ∈ watched))).

(** The row vetoes its torrent's deletion. *)
Definition vetoes (animeID : Z) (mode : string) (downloads : bool) (watched : gset Z) (e : CacheEntry) : bool :=
  negb (bool_decide (AnimeID e = Some animeID)) ||
  match atoi (EpKey e) with
  | (ep, true) => Pinned e || (Kept e && negb downloads) || negb (auto_done mode watched ep)
  | _ => true
  end.

(** The torrents every row of which is done with, each once. *)
Definition deletable (animeID : Z) (mode : string) (downloads : bool) (watched : gset Z)
    (l : list CacheEntry) : list string :=
  let veto := map InfoHash (List.filter (vetoes animeID mode downloads watched) l) in
  List.filter (fun h => negb (bool_decide (h ∈ veto)))
    (remove_dups (map InfoHash (List.filter (fun e => negb (vetoes animeID mode downloads watched e)) l))).

(** The row [evict] is given when only a hash is known. *)
Definition named (hash : string) : CacheEntry := mkEntry hash 0 0 false false false false None "" 0 "".

Fixpoint evict_hashes (o : io) (w : world) (hashes : list string) (removed : Z) : world * Z :=
  match hashes with
  | [] => (w, removed)
  | h :: hashes' =>
      match evict o w (named h) with
      | (w, Some _) => evict_hashes o w hashes' removed
      | (w, None) => evict_hashes o w hashes' (removed + 1)
      end
  end.

Definition AutoDelete (o : io) (w : world) (animeID : Z) (mode : string) (downloads : bool)
    (watched : gset Z) : world * option Z :=
  if (animeID =? 0) || (negb (String.eqb mode "now") && negb (String.eqb mode "keep2")) then (w, Some 0)
  else
    match CacheEntries o w with
    | None => (w, None)
    | Some l =>
        let '(w, n) := evict_hashes o w (iter o (deletable animeID mode downloads watched l)) 0 in (w, Some n)
    end.

(** ** Keep, Remove, Clear *)

Definition Keep (o : io) (w : world) (hash : string) (k : bool) : world * option error :=
  match KeepDownload o w hash k with
  | (w, None) => (w, Some (ErrFailed "database"))
  | (w, Some true) => (w, None)
  | (w, Some false) => (w, Some (ErrFailed "no download"))
  end.

(** [dropSuperseded], for the hashes its query found. *)
Fixpoint dropSuperseded (o : io) (w : world) (hashes : list string) : world :=
  match hashes with
  | [] => w
  | hash :: hashes' =>
      let live := match engine w with Some l => if list_fails o then [] else l | None => [] end in
      match live_id live (to_lower hash) with
      | Some t =>
          match delete_fails o (h_ID t) with
          | Some _ => dropSuperseded o w hashes'
          | None =>
              let '(l, d) := engine_delete live (disk w) t in
              dropSuperseded o (fst (DropTorrentCache o (set_engine w l d) hash)) hashes'
          end
      | None => dropSuperseded o (fst (DropTorrentCache o w hash)) hashes'
      end
  end.

Definition liveID (o : io) (w : world) (hash : string) : option held_torrent :=
  match engine w with
  | None => None
  | Some l => if list_fails o then None else List.find (fun t => equal_fold (h_hash t) hash) l
  end.

Definition Remove (o : io) (w : world) (hash : string) : world * result error Z :=
  match CacheEntries o w with
  | None => (w, Err (ErrFailed "database"))
  | Some l =>
      let mine := List.filter (fun e => equal_fold (InfoHash e) hash) l in
      if existsb Pinned mine then (w, Err (ErrFailed "that episode is playing right now"))
      else
        match mine with
        | [] =>
            match liveID o w hash, engine w with
            | Some t, Some live =>
                if details_fail o (h_ID t) then (w, Err (ErrFailed "details"))
                else if negb (owns (h_detail t))
                then (w, Err (ErrFailed "that download is not in kuro's cache folder"))
                else
                  match delete_fails o (h_ID t) with
                  | Some e => (w, Err e)
                  | None => let '(live, d) := engine_delete live (disk w) t in (set_engine w live d, Ok 0)
                  end
            | _, _ => (w, Err (ErrFailed "no download"))
            end
        | _ =>
            let freed := foldr (fun e n => Bytes e + n) 0 mine in
            match evict o w (named hash) with
            | (w, None) => (w, Ok freed)
            | (w, Some e) => (w, Err e)
            end
        end
  end.

Fixpoint clear_loop (o : io) (w : world) (l : list CacheEntry) (held : string -> bool)
    (done : gset string) (bytes : string -> Z) (removed freed : Z) : world * (Z * Z) :=
  match l with
  | [] => (w, (removed, freed))
  | e :: l' =>
      let hash := to_lower (InfoHash e) in
      if held hash || bool_decide (hash ∈ done) then clear_loop o w l' held done bytes removed freed
      else
        match evict o w e with
        | (w, Some _) => clear_loop o w l' held done bytes removed freed
        | (w, None) => clear_loop o w l' held ({[hash]} ∪ done) bytes (removed + 1) (freed + bytes (InfoHash e))
        end
  end.

(** A row that keeps its torrent from [Clear]. *)
Definition spares (completedOnly : bool) (e : CacheEntry) : bool :=
  Pinned e || Kept e || (completedOnly && negb (Complete e)).

Definition Clear (o : io) (w : world) (completedOnly : bool) : world * option (Z * Z) :=
  match CacheEntries o w with
  | None => (w, None)
  | Some l =>
      let held hash := existsb (fun e => String.eqb (to_lower (InfoHash e)) hash && spares completedOnly e) l in
      let '(w, out) := clear_loop o w l held ∅ (torrentBytes l) 0 0 in (w, Some out)
  end.
(** ** What the engine says of a download *)

Definition Finished_ (o : io) (w : world) (hash : string) : bool :=
  match liveID o w hash with
  | Some t => negb (stats_fail o (h_ID t)) && Finished (h_stats t)
  | None => false
  end.

Definition Downloaded (o : io) (w : world) (hash : string) : Z :=
  match engine w with
  | None => 0
  | Some l =>
      if list_fails o then 0
      else
        match live_id l (to_lower hash) with
        | Some t => if stats_fail o (h_ID t) then 0 else ProgressBytes (h_stats t)
        | None => 0
        end
  end.

(** [Stats.FileDone]: the torrent's state where the file's is not told. *)
Definition FileDone (s : Stats) (d : Detail) (i : Z) : bool :=
  if (i <? 0) || (Z.of_nat (length (Files d)) <=? i) || (Z.of_nat (length (FileProgress s)) <=? i)
  then Finished s
  else
    match Files d !! Z.to_nat i, FileProgress s !! Z.to_nat i with
    | Some f, Some n => (0 <? f_Length f) && (f_Length f <=? n)
    | _, _ => Finished s
    end.

(** ** Refreshing *)

(** What the torrent's included files, or one of them, occupy on disk. *)
Definition heldBytes (o : io) (dk : gset string) (d : Detail) (fileIndex : Z) : Z :=
  foldr (fun '(i, f) total =>
    if negb (Included f) then total
    else if negb (fileIndex =? WholeTorrent) && negb (Z.of_nat i =? fileIndex) then total
    else if bool_decide (file_path d f ∈ dk) then allocated o (file_path d f) + total
    else total) 0 (imap (fun i f => (i, f)) (Files d)).

(** One more absence; true once gone long enough to forget. *)
Definition missing (o : io) (w : world) (hash : string) : world * bool :=
  let a := match absent w !! hash with Some a => a | None => mkAbsence 0 (now o) end in
  let a := mkAbsence (a_count a + 1) (a_since a) in
  (set_absent w (<[hash := a]> (absent w)),
   (forgetAfter <=? a_count a) && (forgetAge <=? now o - a_since a)).

Definition present (w : world) (hashes : gset string) : world :=
  set_absent w (filter (fun kv => kv.1 ∉ hashes) (absent w)).

(** A kept download still on disk stays on record. *)
Definition keptOnDisk (w : world) (l : list CacheEntry) : bool :=
  existsb (fun e => Kept e && negb (String.eqb (Name e) "") && exists_on (disk w) (Join [dir; Name e])) l.

Definition rows_of (l : list CacheEntry) (hash : string) : list CacheEntry :=
  List.filter (fun e => String.eqb (to_lower (InfoHash e)) hash) l.

Definition forget_one (o : io) (w : world) (l : list CacheEntry) (hash : string) : world * option error :=
  let '(w, m) := missing o w hash in
  if negb m || keptOnDisk w (rows_of l hash) then (w, None)
  else
    match rows_of l hash with
    | [] => (w, None)
    | e :: _ => DropTorrentCache o w (InfoHash e)
    end.

Fixpoint forget_loop (o : io) (w : world) (l : list CacheEntry) (hashes : list string) : world * option error :=
  match hashes with
  | [] => (w, None)
  | hash :: hashes' =>
      match forget_one o w l hash with
      | (w, None) => forget_loop o w l hashes'
      | (w, Some err) => (w, Some err)
      end
  end.

Definition forgetVanished (o : io) (w : world) (live : list held_torrent) : world * option error :=
  let held := list_to_set (map (fun t => to_lower (h_hash t)) live) : gset string in
  let w := present w held in
  match CacheEntries o w with
  | None => (w, Some (ErrFailed "database"))
  | Some l =>
      match live with
      | [] => (w, None)
      | _ =>
          let gone := List.filter (fun h => negb (bool_decide (h ∈ held)))
                        (remove_dups (map (fun e => to_lower (InfoHash e)) l)) in
          forget_loop o w l (iter o gone)
      end
  end.

Fixpoint adopt_loop (o : io) (w : world) (tracked : gset string) (live : list held_torrent) : world :=
  match live with
  | [] => w
  | t :: live' =>
      let hash := to_lower (h_hash t) in
      if String.eqb hash "" || bool_decide (hash ∈ tracked) || claimed o hash
         || details_fail o (h_ID t) || negb (owns (h_detail t))
      then adopt_loop o w tracked live'
      else adopt_loop o (fst (TrackTorrent o w hash (h_name t))) tracked live'
  end.

(** [adopt]: every torrent the engine holds in the cache folder gets a row. *)
Definition adopt (o : io) (w : world) (live : list held_torrent) : world :=
  match CacheEntries o w with
  | None => w
  | Some known => adopt_loop o w (list_to_set (map (fun e => to_lower (InfoHash e)) known)) live
  end.

Fixpoint refresh_rows (o : io) (w : world) (live : list held_torrent) (l : list CacheEntry)
    : world * option error :=
  match l with
  | [] => (w, None)
  | e :: l' =>
      match live_id live (to_lower (InfoHash e)) with
      | None => refresh_rows o w live l'
      | Some t =>
          if stats_fail o (h_ID t) || details_fail o (h_ID t) then refresh_rows o w live l'
          else
            let s := h_stats t in
            let d := h_detail t in
            let held := heldBytes o (disk w) d (FileIndex e) in
            let '(bytes, done) :=
              if FileIndex e =? WholeTorrent then (Z.max held (ProgressBytes s), Finished s)
              else (held, FileDone s d (FileIndex e)) in
            let w :=
              if String.eqb (State s) "live" then watch o w (InfoHash e) (ProgressBytes s) (Finished s)
              else unwatch w (InfoHash e) in
            match SetCacheBytes o w (InfoHash e) (FileIndex e) bytes done with
            | (w, Some err) => (w, Some err)
            | (w, None) => refresh_rows o w live l'
            end
      end
  end.

Definition refresh (o : io) (w : world) : world * option error :=
  match engine w with
  | None => (w, None)
  | Some live =>
      if list_fails o then (w, Some ErrUnavailable)
      else
        let w := adopt o w live in
        let '(w, _) := forgetVanished o w live in
        match CacheEntries o w with
        | None => (w, Some (ErrFailed "database"))
        | Some l => refresh_rows o w live l
        end
  end.

Definition Sweep (o : io) (w : world) (budget : Z) (watching : option (Z * string))
    : world * option SweepReport :=
  let '(w, _) := refresh o w in sweep_down o w budget watching.

(** ** Orphans *)

(** [TorrentNames]: the top-level name of each name or path on record. *)
Definition top_name (name : string) : option string :=
  match List.filter (fun s => negb (String.eqb s "")) (split (replace_all name "\" "/") "/") with
  | s :: _ => Some s
  | [] => None
  end.

Definition TorrentNames (names : list string) : list string := omap top_name names.

(** A held torrent keeps its folder, or each file written straight into the
    cache. *)
Definition keep_names (t : held_torrent) : list string :=
  let d := h_detail t in
  let files := concat (map (fun f => match Components f with c :: _ => [to_lower c] | [] => [] end
                                     ++ [to_lower (f_Name f)]) (Files d)) in
  to_lower (h_name t) ::
  match Rel dir (OutputFolder d) with
  | Some rel =>
      if negb (String.eqb rel ".") && negb (has_prefix rel "..")
      then [to_lower (List.hd "" (split rel "/"))]
      else files
  | None => files
  end.

Definition ours : list string := ["hls"; "thumbs"; "update"; "rqbit-session"; "engine-session"].

Fixpoint orphan_loop (o : io) (w : world) (dryRun : bool) (only : option (gset string))
    (keep : gset string) (entries : list string) (out : list (string * Z)) : world * list (string * Z) :=
  match entries with
  | [] => (w, out)
  | name :: entries' =>
      let skip := orphan_loop o w dryRun only keep entries' out in
      let path := Join [dir; name] in
      if bool_decide (name ∈ ours) || has_prefix name "chapters-" || bool_decide (to_lower name ∈ keep)
      then skip
      else if match only with Some names => negb (bool_decide (name ∈ names)) | None => false end then skip
      else if isProtected path then skip
      else
        let bytes := foldr (fun p n => allocated o p + n) 0 (List.filter (Within path) (elements (disk w))) in
        if dryRun then orphan_loop o w dryRun only keep entries' (out ++ [(name, bytes)])
        else if remove_fails o path then skip
        else orphan_loop o (set_disk w (remove_all (disk w) path)) dryRun only keep entries' (out ++ [(name, bytes)])
  end.

(** [orphans], for the names on record, the engine's list after the pause and
    what the cache folder lists; [None] where a query or listing fails. *)
Definition orphans (o : io) (w : world) (dryRun : bool) (only : option (gset string))
    (known : option (list string)) (again : option (list held_torrent)) (entries : option (list string))
    : world * option (list (string * Z)) :=
  match engine w, known with
  | Some list, Some known =>
      if list_fails o then (w, None)
      else
        match (if dryRun then Some [] else again) with
        | None => (w, None)
        | Some more =>
            let torrents := (list ++ more)%list in
            if existsb (fun t => details_fail o (h_ID t)) torrents then (w, None)
            else
              let keep := list_to_set (map to_lower (TorrentNames known) ++ concat (map keep_names torrents))
                : gset string in
              match entries with
              | None => (w, None)
              | Some entries => let '(w, out) := orphan_loop o w dryRun only keep entries [] in (w, Some out)
              end
        end
  | _, _ => (w, None)
  end.
(** ** Rows of a torrent *)

Lemma elem_of_without hash l e : e ∈ without hash l <-> e ∈ l /\ InfoHash e <> hash.
Proof. unfold without. rewrite elem_of_filter_b, negb_true_iff, String.eqb_neq. done. Qed.

(** The rows left once the torrents of [gone] went. *)
Definition rows_without (gone : gset string) (l : list CacheEntry) : list CacheEntry :=
  List.filter (fun e => negb (bool_decide (InfoHash e ∈ gone))) l.

Lemma elem_of_rows_without gone l e : e ∈ rows_without gone l <-> e ∈ l /\ InfoHash e ∉ gone.
Proof. unfold rows_without. rewrite elem_of_filter_b, negb_true_iff, bool_decide_eq_false. done. Qed.

Lemma rows_without_empty l : rows_without ∅ l = l.
Proof.
  induction l as [|e l IH]; simpl; [done|].
  rewrite bool_decide_eq_false_2 by set_solver. simpl. by f_equal.
Qed.

Lemma without_rows_without hash gone l : without hash (rows_without gone l) = rows_without ({[hash]} ∪ gone) l.
Proof.
  unfold without, rows_without. induction l as [|e l IH]; simpl; [done|].
  destruct (String.eqb_spec (InfoHash e) hash) as [E|E].
  - rewrite (bool_decide_eq_true_2 (InfoHash e ∈ {[hash]} ∪ gone)) by set_solver. simpl.
    destruct (bool_decide (InfoHash e ∈ gone)); simpl; [done|].
    rewrite (proj2 (String.eqb_eq _ _) E). simpl. done.
  - destruct (decide (InfoHash e ∈ gone)).
    + rewrite !bool_decide_eq_true_2 by set_solver. simpl. done.
    + rewrite !bool_decide_eq_false_2 by set_solver. simpl.
      rewrite (proj2 (String.eqb_neq _ _) E). simpl. by rewrite IH.
Qed.

(** ** One eviction *)

Lemma DropTorrentCache_rows o w hash :
  let '(w', r) := DropTorrentCache o w hash in
  rows w' = match r with Some _ => rows w | None => without hash (rows w) end /\ disk w' = disk w /\ engine w' = engine w.
Proof. unfold DropTorrentCache. by destruct (write_fails o hash). Qed.

Lemma removeByName_frame o w e l :
  let '(w', _) := removeByName o w e l in rows w' = rows w /\ engine w' = engine w.
Proof.
  unfold removeByName. cbv zeta. repeat (split_if; [simpl; done|]). simpl. done.
Qed.

(** Eviction forgets the torrent's rows, or, when it fails, none. *)
Lemma evict_rows o w e w' r :
  evict o w e = (w', r) -> rows w' = match r with Some _ => rows w | None => without (InfoHash e) (rows w) end.
Proof.
  intros Hev. unfold evict in Hev.
  pose proof (DropTorrentCache_rows o w (InfoHash e)) as Hd.
  destruct (engine w) as [l|]; [|rewrite Hev in Hd; exact (proj1 Hd)].
  destruct (list_fails o); [injection Hev as <- <-; reflexivity|].
  destruct (live_id l _) as [t|].
  - destruct (details_fail o _); [injection Hev as <- <-; reflexivity|].
    destruct (owns _); simpl in Hev; [|rewrite Hev in Hd; exact (proj1 Hd)].
    destruct (delete_fails o _) as [[]|].
    + injection Hev as <- <-; reflexivity.
    + rewrite Hev in Hd; exact (proj1 Hd).
    + unfold engine_delete in Hev. simpl in Hev.
      match type of Hev with DropTorrentCache o ?x _ = _ =>
        pose proof (DropTorrentCache_rows o x (InfoHash e)) as Hx end.
      rewrite Hev in Hx. by destruct Hx.
  - pose proof (removeByName_frame o w e l) as Hf. destruct (removeByName o w e l) as [w1 r1].
    pose proof (DropTorrentCache_rows o w1 (InfoHash e)) as Hx. rewrite Hev in Hx.
    destruct Hf as [Hf _], Hx as [Hx _]. by rewrite Hf in Hx.
Qed.

Definition live_named (l : list held_torrent) : list held_torrent :=
  List.filter (fun t => negb (String.eqb (h_hash t) "")) l.

Lemma removeByName_disk o w e l :
  let path := Join [dir; recorded_name o w e] in
  disk (removeByName o w e l).1 = disk w \/
  (disk (removeByName o w e l).1 = remove_all (disk w) path /\ Within dir path = true /\
   forall x, x ∈ live_named l -> maps_there o path x = false).
Proof.
  unfold removeByName. cbv zeta.
  destruct (String.eqb _ ""); [by left|]. destruct (Within dir _) eqn:Hw; simpl; [|by left].
  destruct (exists_on _ _); simpl; [|by left].
  destruct (existsb _ _) eqn:Hm; [by left|]. destruct (remove_fails o _); [by left|].
  right. split_and!; [done|done|]. intros x. by apply existsb_none.
Qed.

Lemma elem_of_remove_all d path p : p ∈ remove_all d path <-> p ∈ d /\ Within path p = false.
Proof.
  unfold remove_all. rewrite elem_of_list_to_set, elem_of_filter_b, elem_of_elements, negb_true_iff. done.
Qed.

Lemma DropTorrentCache_disk o w hash : disk (DropTorrentCache o w hash).1 = disk w.
Proof. unfold DropTorrentCache. by destruct (write_fails o hash). Qed.

Lemma elem_of_engine_delete l d t p :
  p ∈ (engine_delete l d t).2 <->
  p ∈ d /\ (p ∈ paths_of (h_detail t) ->
             exists x, x ∈ l /\ h_ID x <> h_ID t /\ p ∈ paths_of (h_detail x)).
Proof.
  unfold engine_delete. simpl. rewrite elem_of_difference, elem_of_difference, !elem_of_list_to_set.
  rewrite elem_of_concat_map. setoid_rewrite elem_of_filter_b.
  setoid_rewrite negb_true_iff. setoid_rewrite Z.eqb_neq.
  split; intros [Hd Hn]; (split; [done|]).
  - intros Hp. destruct (existsb (fun x => negb (h_ID x =? h_ID t) && bool_decide (p ∈ paths_of (h_detail x))) l) eqn:E.
    + apply existsb_elem in E as (x & Hx & E). bool_prop. eauto.
    + exfalso. apply Hn. split; [done|]. intros (x & [Hx Hid] & Hpx).
      apply (existsb_none _ _ x) in E; [|done]. apply Z.eqb_neq in Hid. simpl in E.
      by rewrite Hid, (bool_decide_eq_true_2 _ Hpx) in E.
  - intros [Hp Hno]. apply Hno. destruct (Hn Hp) as (x & Hx & Hid & Hpx). eauto.
Qed.

(** The files of each held torrent are under its folder. *)
Definition contained (l : list held_torrent) : Prop :=
  forall t p, t ∈ l -> p ∈ paths_of (h_detail t) -> Within (OutputFolder (h_detail t)) p = true.

Lemma live_id_in l hash t : live_id l hash = Some t -> t ∈ l /\ to_lower (h_hash t) = hash.
Proof.
  unfold live_id. intros Hf. apply find_some in Hf as [Hin Hf]. bool_prop.
  split; [apply list_elem_of_In; by apply in_rev|]. by apply String.eqb_eq.
Qed.
(** Evicting deletes no file outside the cache folder.  A torrent the engine
    holds loses its own files, never one another torrent also maps to; of one the
    engine lost, only what its name says goes, and not where a live torrent is. *)
Theorem evict_safe (o : io) (w : world) (e : CacheEntry) (l : list held_torrent) :
  engine w = Some l -> contained l ->
  disk (evict o w e).1 ⊆ disk w /\
  forall p, p ∈ disk w -> p ∉ disk (evict o w e).1 ->
    Within dir p = true /\
    match live_id l (to_lower (InfoHash e)) with
    | Some t =>
        owns (h_detail t) = true /\ p ∈ paths_of (h_detail t) /\
        forall x, x ∈ l -> h_ID x <> h_ID t -> p ∉ paths_of (h_detail x)
    | None =>
        Within (Join [dir; recorded_name o w e]) p = true /\
        forall x, x ∈ live_named l -> maps_there o (Join [dir; recorded_name o w e]) x = false
    end.
Proof.
  intros He Hc. unfold evict. rewrite He.
  assert (disk w ⊆ disk w /\ forall p, p ∈ disk w -> p ∉ disk w -> False) as Hsame by done.
  destruct (list_fails o); [naive_solver|].
  destruct (live_id l _) as [t|] eqn:Hl.
  - apply live_id_in in Hl as [Ht _].
    destruct (details_fail o _); [naive_solver|].
    destruct (owns (h_detail t)) eqn:Ho; simpl; [|rewrite DropTorrentCache_disk; naive_solver].
    destruct (delete_fails o _) as [[]|]; [naive_solver|rewrite DropTorrentCache_disk; naive_solver|].
    pose proof (elem_of_engine_delete l (disk w) t) as Hd'. unfold engine_delete in Hd'. simpl in Hd'.
    rewrite DropTorrentCache_disk. simpl.
    split; [intros p Hp; by apply Hd' in Hp as [? _]|].
    intros p Hp Hgone. rewrite Hd' in Hgone.
    destruct (decide (p ∈ paths_of (h_detail t))) as [Hin|]; [|tauto].
    split_and!; [|done|done|intros x Hx Hid Hpx; apply Hgone; eauto].
    eapply Within_trans; [exact Ho|]. by apply Hc.
  - pose proof (removeByName_disk o w e l) as Hr. cbv zeta in Hr.
    destruct (removeByName o w e l) as [w1 r1]. rewrite DropTorrentCache_disk. simpl in Hr.
    destruct Hr as [->|(-> & Hw & Hm)]; [naive_solver|].
    split; [intros p Hp; by apply elem_of_remove_all in Hp as [? _]|].
    intros p Hp Hgone. rewrite elem_of_remove_all in Hgone.
    destruct (Within (Join [dir; recorded_name o w e]) p) eqn:Hwp; [|tauto].
    split_and!; [by eapply Within_trans|done|done].
Qed.
(** ** Evicting in an order *)

Definition total (freed : string -> Z) (hashes : list string) : Z :=
  foldr (fun h n => freed h + n) 0 hashes.

Lemma total_app freed a b : total freed (a ++ b) = total freed a + total freed b.
Proof. induction a as [|h a IH]; simpl; [done|]. rewrite IH. lia. Qed.

(** What a run of [evictDownTo] did: the torrents that went, in the order given,
    are exactly those whose rows are gone, and it went no further than needed. *)
Record evicted (o : io) (w w' : world) (rep rep' : SweepReport) (target : Z) (order : list CacheEntry)
    (freed : string -> Z) (gone : gset string) (went : list string) : Prop := {
  ev_order : went `sublist_of` map InfoHash order;
  ev_once : NoDup went /\ (forall h, h ∈ went -> h ∉ gone);
  ev_rows : rows w' = rows_without (list_to_set went) (rows w);
  ev_after : After rep' = After rep - total freed went;
  ev_freed : Freed rep' = Freed rep + total freed went;
  ev_count : Evicted rep' = Evicted rep + Z.of_nat (length went);
  ev_same : Before rep' = Before rep /\ Budget rep' = Budget rep;
  ev_needed : forall pre h post, went = pre ++ h :: post -> target < After rep - total freed pre;
  ev_enough : After rep' <= target \/
    forall e, e ∈ order -> InfoHash e ∈ went \/ InfoHash e ∈ gone \/ exists w0, (evict o w0 e).2 <> None;
}.

Lemma evicted_nil o w rep target order freed gone :
  (After rep <= target \/ order = []) -> evicted o w w rep rep target order freed gone [].
Proof.
  intros Hstop. split; simpl; try lia; try done.
  - apply sublist_nil_l.
  - split; [constructor|]. intros h Hh. by apply not_elem_of_nil in Hh.
  - by rewrite rows_without_empty.
  - intros pre h post Hnil. by destruct pre.
  - destruct Hstop as [?| ->]; [by left|]. right. intros e He. by apply not_elem_of_nil in He.
Qed.

Lemma evictDownTo_evicted o freed target order : forall w rep gone,
  exists went, evicted o w (evictDownTo o w rep target order freed gone).1.1 rep
    (evictDownTo o w rep target order freed gone).1.2 target order freed gone went.
Proof.
  induction order as [|e order IH]; intros w rep gone; simpl.
  { exists []. apply evicted_nil. by right. }
  destruct (After rep <=? target) eqn:Ha; bool_prop.
  { exists []. apply evicted_nil. by left. }
  destruct (bool_decide (InfoHash e ∈ gone)) eqn:Hg; bool_prop.
  { destruct (IH w rep gone) as [went [? ? ? ? ? ? ? ? He]]. exists went. split; try done.
    - by apply sublist_cons.
    - destruct He as [?|He]; [by left|]. right. intros x [->|Hx]%elem_of_cons; auto. }
  destruct (evict o w e) as [w1 [err|]] eqn:Hev.
  - apply evict_rows in Hev as Hrows.
    destruct (IH w1 rep gone) as [went [? ? Hr ? ? ? ? ? He]]. exists went. split; try done.
    + by apply sublist_cons.
    + by rewrite Hr, Hrows.
    + destruct He as [?|He]; [by left|]. right. intros x [->|Hx]%elem_of_cons; [|auto].
      right. right. exists w. by rewrite Hev.
  - apply evict_rows in Hev as Hrows.
    match goal with |- context [evictDownTo o w1 ?r] => set (rep1 := r) end.
    destruct (IH w1 rep1 ({[InfoHash e]} ∪ gone)) as [went [Ho [Hn Hnew] Hr Hafter Hfreed Hcount Hsame Hneed He]].
    exists (InfoHash e :: went). split; simpl in *; try lia.
    + by apply sublist_skip.
    + split; [constructor; [|done]; intros Hin; apply (Hnew _ Hin); set_solver|].
      intros h [->|Hh]%elem_of_cons; [done|]. specialize (Hnew h Hh). set_solver.
    + rewrite Hr, Hrows. clear. unfold without, rows_without. induction (rows w) as [|x l IHl]; simpl; [done|].
      destruct (String.eqb_spec (InfoHash x) (InfoHash e)) as [->|E]; simpl.
      * rewrite (bool_decide_eq_true_2 (InfoHash e ∈ _)) by set_solver. simpl. exact IHl.
      * destruct (decide (InfoHash x ∈ went)).
        -- rewrite !bool_decide_eq_true_2 by (rewrite ?elem_of_union, ?elem_of_list_to_set; tauto). exact IHl.
        -- rewrite !bool_decide_eq_false_2
             by (rewrite ?elem_of_union, ?elem_of_singleton, ?elem_of_list_to_set; tauto). simpl. by f_equal.
    + intros [|h0 pre] h post [= <- Hw]; simpl; [lia|]. specialize (Hneed pre h post Hw). lia.
    + destruct He as [?|He]; [by left|]. right. intros x [->|Hx]%elem_of_cons; [left; left|].
      destruct (He x Hx) as [?|[?|?]]; [left; by right|set_solver|by auto].
Qed.
(** ** What rows weigh *)

#[local] Instance usage_of_perm : Proper ((≡ₚ) ==> (=)) usage_of.
Proof. intros l l' Hp. induction Hp; simpl; repeat case_match; lia. Qed.

#[local] Instance torrentBytes_perm : Proper ((≡ₚ) ==> (=) ==> (=)) torrentBytes.
Proof. intros l l' Hp h _ <-. induction Hp; simpl; repeat case_match; lia. Qed.

Lemma torrentBytes_without gone l h : h ∉ gone -> torrentBytes (rows_without gone l) h = torrentBytes l h.
Proof.
  intros Hh. unfold rows_without. induction l as [|e l IH]; simpl; [done|].
  destruct (String.eqb_spec (InfoHash e) h) as [E|E].
  - rewrite bool_decide_eq_false_2 by (by rewrite E). simpl. rewrite E, String.eqb_refl, IH. done.
  - destruct (bool_decide _); simpl; [done|]. apply String.eqb_neq in E. by rewrite E.
Qed.

Lemma usage_without hash l :
  (forall e, e ∈ l -> InfoHash e = hash -> Kept e = false) ->
  usage_of (without hash l) = usage_of l - torrentBytes l hash.
Proof.
  unfold without. induction l as [|e l IH]; intros Hk; simpl; [done|].
  assert (usage_of (List.filter (fun x => negb (String.eqb (InfoHash x) hash)) l) =
          usage_of l - torrentBytes l hash) as IHl by (rewrite <- IH; [lia|intros; apply Hk; [by right|done]]).
  destruct (String.eqb_spec (InfoHash e) hash) as [E|E]; simpl; [|destruct (Kept e); lia].
  rewrite (Hk e); [lia|left|done].
Qed.

Lemma usage_rows_without went l :
  NoDup went -> (forall e, e ∈ l -> InfoHash e ∈ went -> Kept e = false) ->
  usage_of (rows_without (list_to_set went) l) = usage_of l - total (torrentBytes l) went.
Proof.
  induction went as [|h went IH]; intros Hnd Hk; simpl.
  - rewrite rows_without_empty. lia.
  - apply NoDup_cons in Hnd as [Hh Hnd].
    rewrite <- without_rows_without, usage_without.
    + rewrite IH; [|done|intros e He Hin; apply Hk; [done|by right]].
      rewrite torrentBytes_without by (by rewrite elem_of_list_to_set). lia.
    + intros e [He _]%elem_of_rows_without <-. apply Hk; [done|left].
Qed.

Lemma total_ext f g l : (forall h, f h = g h) -> total f l = total g l.
Proof. intros Hfg. induction l as [|h l IH]; simpl; [done|]. by rewrite Hfg, IH. Qed.

Lemma total_perm l l' went : l ≡ₚ l' -> total (torrentBytes l) went = total (torrentBytes l') went.
Proof. intros Hp. apply total_ext. intros h. by rewrite Hp. Qed.

(** ** The order of eviction *)

Lemma elem_of_evictionOrder l st watching e :
  e ∈ evictionOrder l st watching <-> e ∈ l /\ is_held l st watching (InfoHash e) = false.
Proof.
  unfold evictionOrder, by_age. rewrite elem_of_app, !sort_by_perm, !elem_of_filter_b, !negb_true_iff.
  destruct (Protected e); naive_solver.
Qed.

Lemma is_held_iff l st watching hash :
  is_held l st watching hash = true <-> exists x, x ∈ l /\ InfoHash x = hash /\ holds st watching x = true.
Proof.
  unfold is_held. rewrite existsb_elem. setoid_rewrite andb_true_iff. by setoid_rewrite String.eqb_eq.
Qed.

(** A torrent none of whose rows holds it is not kept. *)
Lemma unheld_not_kept l st watching e :
  e ∈ l -> is_held l st watching (InfoHash e) = false -> Kept e = false.
Proof.
  intros He Hh. destruct (Kept e) eqn:E; [|done].
  rewrite (proj2 (is_held_iff l st watching (InfoHash e))) in Hh; [done|].
  exists e. split_and!; [done|done|]. unfold holds. rewrite E. by rewrite orb_true_r.
Qed.

Lemma latest_spec l hash :
  0 <= latest l hash /\
  (forall e, e ∈ l -> InfoHash e = hash -> LastPlayed e <= latest l hash) /\
  (latest l hash = 0 \/ exists e, e ∈ l /\ InfoHash e = hash /\ latest l hash = LastPlayed e).
Proof.
  unfold latest. set (f := fun n e => if String.eqb (InfoHash e) hash then Z.max n (LastPlayed e) else n).
  assert (forall n, n <= foldl f n l /\
    (forall e, e ∈ l -> InfoHash e = hash -> LastPlayed e <= foldl f n l) /\
    (foldl f n l = n \/ exists e, e ∈ l /\ InfoHash e = hash /\ foldl f n l = LastPlayed e)) as Hg; [|apply (Hg 0)].
  induction l as [|x l IH]; intros n; simpl.
  - split_and!; [lia|intros e He; by apply not_elem_of_nil in He|by left].
  - destruct (IH (f n x)) as (H1 & H2 & H3). clear IH.
    revert H1 H2 H3. generalize (foldl f (f n x) l). unfold f. intros m H1 H2 H3.
    destruct (String.eqb_spec (InfoHash x) hash) as [E|E]; split_and!.
    + lia.
    + intros e [->|He]%elem_of_cons ?; [lia|by apply H2].
    + destruct H3 as [H3|(e & He & ? & ?)]; [|right; exists e; split_and!; [by right|done|done]].
      destruct (Z.max_spec n (LastPlayed x)) as [[? Hm]|[? Hm]]; rewrite Hm in H3; [|by left].
      right. exists x. split_and!; [left|done|done].
    + lia.
    + intros e [->|He]%elem_of_cons ?; [done|by apply H2].
    + destruct H3 as [H3|(e & He & ? & ?)]; [by left|right; exists e; split_and!; [by right|done|done]].
Qed.

(** Eviction goes through every row of the torrents nothing holds, and no
    other: a pin, a keep, the episode in progress or an unfinished file of a
    moving download spares its whole torrent.  Shows in progress come last, and
    each group goes by when the torrent was last played, oldest first. *)
Theorem evictionOrder_spec (l : list CacheEntry) (is_stalled : string -> bool)
    (watching : option (Z * string)) :
  (forall e x, x ∈ l -> InfoHash x = InfoHash e -> holds is_stalled watching x = true ->
               e ∉ evictionOrder l is_stalled watching) /\
  evictionOrder l is_stalled watching ≡ₚ
    List.filter (fun e => negb (is_held l is_stalled watching (InfoHash e))) l /\
  exists plain inProgress,
    evictionOrder l is_stalled watching = plain ++ inProgress /\
    (forall e, e ∈ plain -> Protected e = false) /\ (forall e, e ∈ inProgress -> Protected e = true) /\
    let older a b := latest l (InfoHash a) <= latest l (InfoHash b) in
    StronglySorted older plain /\ StronglySorted older inProgress.
Proof.
  split_and!.
  - intros e x Hx Hh Hholds [_ Hfree]%elem_of_evictionOrder.
    rewrite (proj2 (is_held_iff l is_stalled watching _)) in Hfree by eauto. discriminate.
  - unfold evictionOrder, by_age. rewrite !sort_by_perm.
    induction (List.filter _ l) as [|x fl IH]; simpl; [done|].
    destruct (Protected x); simpl; [|by rewrite IH]. by rewrite <- Permutation_middle, IH.
  - eexists _, _. split; [reflexivity|]. unfold by_age. split_and!.
    + intros e He. rewrite sort_by_perm, elem_of_filter_b, negb_true_iff in He. tauto.
    + intros e He. rewrite sort_by_perm, elem_of_filter_b in He. tauto.
    + by apply sort_by_sorted.
    + by apply sort_by_sorted.
Qed.
(** ** Sweeping *)

Lemma is_held_perm l l' st watching h : l ≡ₚ l' -> is_held l st watching h = is_held l' st watching h.
Proof. apply existsb_perm. Qed.

Lemma CacheEntries_perm o w l : CacheEntries o w = Some l -> l ≡ₚ rows w.
Proof. unfold CacheEntries. destruct (entries_fail o); [done|]. intros [= <-]. apply sort_by_perm. Qed.

Section order.
Context (o : io) (w w' : world) (rep rep' : SweepReport) (target : Z) (order l : list CacheEntry).
Context (st : string -> bool) (watching : option (Z * string)) (went : list string).
Context (Hl : l ≡ₚ rows w).
Context (Horder : forall e, e ∈ order -> e ∈ evictionOrder l st watching).
Context (Hev : evicted o w w' rep rep' target order (torrentBytes l) ∅ went).

Lemma went_free h : h ∈ went -> is_held (rows w) st watching h = false.
Proof using All - (protected).
  intros Hh. pose proof (ev_order _ _ _ _ _ _ _ _ _ _ Hev) as Ho.
  apply (sublist_submseteq _ _), (elem_of_submseteq _ _ h) in Ho; [|done].
  apply list_elem_of_fmap in Ho as (e & -> & He). apply Horder, elem_of_evictionOrder in He as [_ He].
  by rewrite <- (is_held_perm l (rows w)).
Qed.

(** The report's figure is what the remaining rows weigh. *)
Lemma evicted_usage : After rep = usage_of l -> usage_of (rows w') = After rep'.
Proof using All - (protected).
  intros Ha. destruct Hev as [_ [Hnd _] Hr Hafter _ _ _ _ _]. rewrite Hr, usage_rows_without.
  - rewrite Hafter, Ha, (usage_of_perm _ _ Hl), (total_perm _ _ _ Hl). done.
  - done.
  - intros e He Hw. apply (unheld_not_kept (rows w) st watching); [done|]. by apply went_free.
Qed.

Lemma evicted_rest e :
  e ∈ evictionOrder l st watching \/ is_held (rows w) st watching (InfoHash e) = true ->
  e ∈ rows w' -> InfoHash e ∉ went.
Proof using All - (protected). destruct Hev as [_ _ -> _ _ _ _ _ _]. rewrite elem_of_rows_without, elem_of_list_to_set. tauto. Qed.
End order.

(** C6: A sweep reports what the remaining rows weigh.  It takes whole torrents
    that nothing holds, in the order of [evictionOrder], each only while the
    total is over the budget, and ends within the budget or with nothing left but
    what is held or could not be evicted. *)
Theorem Sweep_spec (o : io) (w w' : world) (budget : Z) (watching : option (Z * string)) (rep : SweepReport) :
  Sweep o w budget watching = (w', Some rep) ->
  let w1 := (refresh o w).1 in
  let held := is_held (rows w1) (stalled o w1) watching in
  Before rep = usage_of (rows w1) /\ After rep = usage_of (rows w') /\
  Freed rep = Before rep - After rep /\
  (exists went,
     went `sublist_of` map InfoHash (evictionOrder (sort_by list_order (rows w1)) (stalled o w1) watching) /\
     rows w' = rows_without (list_to_set went) (rows w1) /\ Evicted rep = Z.of_nat (length went) /\
     (forall h, h ∈ went -> held h = false) /\
     (forall pre h post, went = pre ++ h :: post ->
        0 < budget < usage_of (rows_without (list_to_set pre) (rows w1)))) /\
  (0 < budget -> After rep <= budget \/
     forall e, e ∈ rows w' -> held (InfoHash e) = true \/ exists w0, (evict o w0 e).2 <> None).
Proof.
  unfold Sweep. destruct (refresh o w) as [w1 r1]. simpl. unfold sweep_down, cacheUsage, CacheEntries.
  destruct (entries_fail o); [done|]. set (l := sort_by list_order (rows w1)). cbn [u_Entries u_Bytes].
  assert (l ≡ₚ rows w1) as Hl by apply sort_by_perm.
  destruct ((budget <=? 0) || (usage_of l <=? budget)) eqn:Hfit.
  { intros [= <- <-]. simpl. rewrite (usage_of_perm _ _ Hl) in *. split_and!; try lia.
    exists []. rewrite rows_without_empty. split_and!; try done; [apply sublist_nil_l| |].
    - intros h Hh. by apply not_elem_of_nil in Hh.
    - intros pre h post Hnil. by destruct pre. }
  apply orb_false_iff in Hfit as [Hb Hover]. bool_prop.
  set (rep0 := mkReport _ _ _ _ _). set (order := evictionOrder l (stalled o w1) watching).
  pose proof (evictDownTo_evicted o (torrentBytes l) budget order w1 rep0 ∅) as [went Hev].
  destruct (evictDownTo o w1 rep0 budget order (torrentBytes l) ∅) as [[w2 rep2] gone]. simpl in Hev.
  intros [= <- <-].
  assert (forall h, h ∈ went -> is_held (rows w1) (stalled o w1) watching h = false) as Hfree
    by (intros h; by apply (went_free o w1 w2 rep0 rep2 budget order l (stalled o w1) watching went)).
  assert (forall a, NoDup a -> (forall h, h ∈ a -> h ∈ went) ->
    usage_of (rows_without (list_to_set a) (rows w1)) = usage_of l - total (torrentBytes l) a) as Hpart.
  { intros a Ha Hsub. rewrite (usage_of_perm _ _ Hl), (total_perm _ _ _ Hl). apply usage_rows_without; [done|].
    intros e He Hin. eapply unheld_not_kept; [exact He|]. by apply Hfree, Hsub. }
  pose proof (evicted_usage _ _ _ _ _ _ _ _ _ _ _ Hl (fun e He => He) Hev eq_refl) as Hu.
  destruct Hev as [Hord [Hnd _] Hrows Hafter Hfreed Hcount [Hbefore _] Hneed Hend]. simpl in *.
  split_and!; try lia.
  - by rewrite Hbefore, Hl.
  - exists went. split_and!; try done. intros pre h post Hw. rewrite Hpart.
    + specialize (Hneed pre h post Hw). lia.
    + rewrite Hw in Hnd. by apply NoDup_app in Hnd as [? _].
    + intros x Hx. rewrite Hw. apply elem_of_app. by left.
  - intros _. destruct Hend as [?|Hend]; [by left|]. right. intros e He.
    destruct (is_held (rows w1) (stalled o w1) watching (InfoHash e)) eqn:E; [by left|right].
    rewrite Hrows in He. apply elem_of_rows_without in He as [He Hne]. rewrite elem_of_list_to_set in Hne.
    destruct (Hend e) as [?|[?|?]]; [|done|set_solver|done].
    apply elem_of_evictionOrder. split; [by rewrite Hl|]. by rewrite (is_held_perm l (rows w1)).
Qed.
(** ** Making room *)

(** [available] adds up each torrent of the order once. *)
Lemma available_total freed order : forall counted,
  exists ds, NoDup ds /\ (forall h, h ∈ ds <-> h ∉ counted /\ exists e, e ∈ order /\ InfoHash e = h) /\
    available order freed counted = total freed ds.
Proof.
  induction order as [|e order IH]; intros counted; simpl.
  - exists []. split_and!; [constructor| |done]. intros h. split.
    + intros Hh. by apply not_elem_of_nil in Hh.
    + intros (_ & x & Hx & _). by apply not_elem_of_nil in Hx.
  - setoid_rewrite elem_of_cons. destruct (bool_decide (InfoHash e ∈ counted)) eqn:Hc; bool_prop.
    + destruct (IH counted) as (ds & Hnd & Hin & Hav). exists ds. split_and!; [done| |done].
      intros h. rewrite Hin. naive_solver.
    + destruct (IH ({[InfoHash e]} ∪ counted)) as (ds & Hnd & Hin & Hav).
      exists (InfoHash e :: ds). split_and!.
      * constructor; [|done]. rewrite Hin. set_solver.
      * intros h. rewrite elem_of_cons, Hin, not_elem_of_union, not_elem_of_singleton.
        destruct (decide (h = InfoHash e)) as [->|]; naive_solver.
      * simpl. by rewrite Hav.
Qed.

(** The rows [MakeRoom] must leave: of torrents something holds, and of those
    with an episode of the show not yet watched. *)
Definition staying (w : world) (st : string -> bool) (watching : option (Z * string)) (animeID : Z)
    (watched : gset Z) : list CacheEntry :=
  List.filter (fun e => is_held (rows w) st watching (InfoHash e) || spared (rows w) animeID watched (InfoHash e))
    (rows w).

Lemma elem_of_room_order l st watching animeID watched e :
  e ∈ List.filter (fun e => negb (spared l animeID watched (InfoHash e))) (evictionOrder l st watching) <->
  e ∈ l /\ is_held l st watching (InfoHash e) = false /\ spared l animeID watched (InfoHash e) = false.
Proof. rewrite elem_of_filter_b, negb_true_iff, elem_of_evictionOrder. tauto. Qed.

(** Without every torrent of the order, what stays is left. *)
Lemma room_rest w l st watching animeID watched ds :
  l ≡ₚ rows w ->
  (forall h, h ∈ ds <-> exists e, e ∈ List.filter (fun e => negb (spared l animeID watched (InfoHash e)))
                                   (evictionOrder l st watching) /\ InfoHash e = h) ->
  rows_without (list_to_set ds) (rows w) = staying w st watching animeID watched.
Proof.
  intros Hl Hds. unfold rows_without, staying. apply filter_ext_in. intros e He.
  rewrite <- (is_held_perm l (rows w)) by done.
  assert (spared (rows w) animeID watched (InfoHash e) = spared l animeID watched (InfoHash e)) as ->
    by (symmetry; by apply existsb_perm).
  destruct (is_held l st watching (InfoHash e)) eqn:Eh, (spared l animeID watched (InfoHash e)) eqn:Es; simpl;
    apply eq_true_iff_eq; rewrite negb_true_iff, bool_decide_eq_false, elem_of_list_to_set, Hds;
    (split; [try done|]); intros Hx.
  all: try (intros (x & Hx' & Hh); apply elem_of_room_order in Hx' as (_ & ? & ?); congruence).
  exfalso. apply Hx. exists e. split; [|done]. apply elem_of_room_order. split_and!; [by rewrite Hl|done|done].
Qed.
Lemma room_left w l st watching animeID watched ds :
  l ≡ₚ rows w -> NoDup ds ->
  (forall h, h ∈ ds <-> exists e, e ∈ List.filter (fun e => negb (spared l animeID watched (InfoHash e)))
                                   (evictionOrder l st watching) /\ InfoHash e = h) ->
  usage_of (staying w st watching animeID watched) = usage_of (rows w) - total (torrentBytes (rows w)) ds.
Proof.
  intros Hl Hnd Hds. rewrite <- (room_rest w l st watching animeID watched ds) by done.
  apply usage_rows_without; [done|]. intros e He Hin. apply (unheld_not_kept (rows w) st watching); [done|].
  apply Hds in Hin as (x & Hx & <-). apply elem_of_room_order in Hx as (_ & Hx & _).
  by rewrite <- (is_held_perm l (rows w)).
Qed.

(** What a run of [MakeRoom]'s evictions leaves and frees. *)
Lemma room_evicted o w w' rep rep' budget need l st watching animeID watched ds went :
  let order := List.filter (fun e => negb (spared l animeID watched (InfoHash e))) (evictionOrder l st watching) in
  let stay := staying w st watching animeID watched in
  l ≡ₚ rows w -> NoDup ds -> (forall h, h ∈ ds <-> exists e, e ∈ order /\ InfoHash e = h) ->
  usage_of (rows w) - total (torrentBytes l) ds <= budget - need ->
  After rep = usage_of (rows w) ->
  evicted o w w' rep rep' (budget - need) order (torrentBytes l) ∅ went ->
  (forall e, e ∈ stay -> e ∈ rows w') /\ (forall e, e ∈ rows w' -> e ∈ rows w) /\
  usage_of (rows w') = After rep' /\
  (After rep' <= budget - need \/ exists e w0, (evict o w0 e).2 <> None).
Proof.
  intros order stay Hl Hnd Hds Henough Hrep Hev.
  assert (forall e, e ∈ order -> e ∈ evictionOrder l st watching) as Hsub
    by (intros e He; by apply elem_of_filter_b in He as [? _]).
  rewrite <- (usage_of_perm _ _ Hl) in Hrep.
  pose proof (evicted_usage _ _ _ _ _ _ _ _ _ _ _ Hl Hsub Hev Hrep) as Hu.
  destruct Hev as [Hord [Hnd' _] Hrows Hafter _ _ _ _ Hend].
  assert (forall h, h ∈ went -> h ∈ ds) as Hwent.
  { intros h Hh. apply (sublist_submseteq _ _), (elem_of_submseteq _ _ h) in Hord; [|done].
    apply list_elem_of_fmap in Hord as (x & -> & Hx). apply Hds. eauto. }
  split_and!; [| |done|].
  - intros e He. rewrite Hrows. unfold stay in He. rewrite <- (room_rest w l st watching animeID watched ds) in He by done.
    apply elem_of_rows_without in He as [He Hn]. apply elem_of_rows_without.
    split; [done|]. rewrite elem_of_list_to_set in *. auto.
  - intros e He. rewrite Hrows in He. by apply elem_of_rows_without in He as [? _].
  - destruct Hend as [?|Hend]; [by left|].
    destruct (decide (Forall (fun h => h ∈ went) ds)) as [Hall|Hsome%not_Forall_Exists]; [|right|apply _].
    + left. rewrite Hafter, Hrep, (usage_of_perm _ _ Hl).
      assert (went ≡ₚ ds) as Hp.
      { apply list.NoDup_Permutation; [done|done|]. rewrite Forall_forall in Hall. split; auto. }
      assert (total (torrentBytes l) went = total (torrentBytes l) ds); [|lia].
      clear -Hp. induction Hp; simpl; lia.
    + apply Exists_exists in Hsome as (h & Hh & Hn). apply Hds in Hh as (e & He & <-).
      destruct (Hend e He) as [?|[?|?]]; [done|set_solver|eauto].
Qed.

(** Making room never touches a torrent something holds, nor one with an
    episode of the show not yet watched; evicts nothing at all unless everything
    else would be enough; and says yes only once the bytes asked for fit, no only
    where they cannot or an eviction failed. *)
Theorem MakeRoom_spec (o : io) (w w' : world) (budget need animeID : Z) (watched : gset Z)
    (watching : option (Z * string)) (ok : bool) :
  MakeRoom o w budget need animeID watched watching = (w', ok) ->
  let st := stalled o w in
  let stay := staying w st watching animeID watched in
  (forall e, e ∈ stay -> e ∈ rows w') /\ (forall e, e ∈ rows w' -> e ∈ rows w) /\
  (ok = true -> budget <= 0 \/ usage_of (rows w') + need <= budget) /\
  (0 < budget < usage_of stay + need -> budget < usage_of (rows w) + need -> w' = w /\ ok = false) /\
  (ok = false -> CacheEntries o w = None \/ budget < usage_of stay + need \/
                 exists e w0, (evict o w0 e).2 <> None).
Proof.
  unfold MakeRoom, cacheUsage. destruct (CacheEntries o w) as [l|] eqn:Hce.
  2:{ intros [= <- <-]. cbv zeta. split_and!; auto; try done. by intros e [? _]%elem_of_filter_b. }
  apply CacheEntries_perm in Hce as Hl. cbn [u_Entries u_Bytes].
  pose proof (usage_of_perm _ _ Hl) as Hul. rewrite Hul.
  destruct ((budget <=? 0) || (usage_of (rows w) <=? budget - need)) eqn:Hfit.
  { intros [= <- <-]. cbv zeta. split_and!; auto; try lia. by intros e [? _]%elem_of_filter_b. }
  apply orb_false_iff in Hfit as [Hb Hover]. bool_prop. set (order := List.filter _ _).
  destruct (available_total (torrentBytes l) order ∅) as (ds & Hnd & Hds & ->).
  assert (forall h, h ∈ ds <-> exists e, e ∈ order /\ InfoHash e = h) as Hds'
    by (intros h; rewrite Hds; set_solver).
  pose proof (room_left w l (stalled o w) watching animeID watched ds Hl Hnd Hds') as Hleft.
  rewrite (total_perm _ _ _ Hl), <- Hleft. cbv zeta.
  set (stay := staying w (stalled o w) watching animeID watched) in *.
  destruct (budget - need <? usage_of stay) eqn:Henough; bool_prop.
  { intros [= <- <-]. split_and!; auto; try done; [by intros e [? _]%elem_of_filter_b|]. right. left. lia. }
  set (rep0 := mkReport _ _ _ _ _).
  pose proof (evictDownTo_evicted o (torrentBytes l) (budget - need) order w rep0 ∅) as [went Hev].
  destruct (evictDownTo o w rep0 (budget - need) order (torrentBytes l) ∅) as [[w2 rep2] gone]. simpl in Hev.
  intros [= <- <-].
  destruct (room_evicted o w w2 rep0 rep2 budget need l (stalled o w) watching animeID watched ds went)
    as (Hstay & Hin & Hu & Hend); [done|done|done|rewrite (total_perm _ _ _ Hl); lia|done|done|].
  split_and!; [done|done|intros ?; bool_prop; right; lia|lia|].
  intros Hno. bool_prop. destruct Hend as [?|?]; [lia|auto].
Qed.
(** ** Deleting watched episodes *)

Lemma evict_hashes_spec o hashes : forall w n,
  exists went, (forall h, h ∈ went -> h ∈ hashes) /\
    rows (evict_hashes o w hashes n).1 = rows_without (list_to_set went) (rows w) /\
    (evict_hashes o w hashes n).2 = n + Z.of_nat (length went) /\
    forall h, h ∈ hashes -> h ∈ went \/ exists w0, (evict o w0 (named h)).2 <> None.
Proof.
  induction hashes as [|h hashes IH]; intros w n; simpl.
  { exists []. rewrite rows_without_empty. split_and!; [done|done|simpl; lia|].
    intros h Hh. by apply not_elem_of_nil in Hh. }
  destruct (evict o w (named h)) as [w1 [err|]] eqn:Hev; apply evict_rows in Hev as Hrows.
  - destruct (IH w1 n) as (went & Hin & Hr & Hn & Hall). exists went. split_and!.
    + intros x Hx. right. auto.
    + by rewrite Hr, Hrows.
    + done.
    + intros x [->|Hx]%elem_of_cons; [right; exists w; by rewrite Hev|auto].
  - destruct (IH w1 (n + 1)) as (went & Hin & Hr & Hn & Hall). exists (went ++ [h]). split_and!.
    + intros x [Hx| ->%list_elem_of_singleton]%elem_of_app; [right; auto|left].
    + rewrite Hr, Hrows. unfold without, rows_without. simpl. clear.
      induction (rows w) as [|x l IHl]; simpl; [done|].
      destruct (String.eqb_spec (InfoHash x) h) as [E|E]; simpl; rewrite IHl.
      * rewrite (bool_decide_eq_true_2 (InfoHash x ∈ list_to_set (went ++ [h]))); [done|].
        rewrite elem_of_list_to_set, elem_of_app, E. right. left.
      * rewrite (bool_decide_ext (InfoHash x ∈ list_to_set (went ++ [h])) (InfoHash x ∈ (list_to_set went : gset string))); [done|].
        rewrite !elem_of_list_to_set, elem_of_app, list_elem_of_singleton. tauto.
    + rewrite Hn, length_app. simpl. lia.
    + intros x [->|Hx]%elem_of_cons; [left; apply elem_of_app; right; left|].
      destruct (Hall x Hx); [left; apply elem_of_app; by left|by right].
Qed.

(** The row is of an episode of the show, watched as the rule asks, neither
    playing nor kept (kept ones go only where downloads do). *)
Definition done_with (animeID : Z) (mode : string) (downloads : bool) (watched : gset Z) (e : CacheEntry) : Prop :=
  AnimeID e = Some animeID /\ Pinned e = false /\ (Kept e = true -> downloads = true) /\
  exists n, atoi (EpKey e) = (n, true) /\ n ∈ watched /\
    (mode = "now" \/ (n ⊞ 1 ∈ watched /\ n ⊞ 2 ∈ watched)).

Lemma vetoes_spec animeID mode downloads watched e :
  vetoes animeID mode downloads watched e = false <-> done_with animeID mode downloads watched e.
Proof.
  unfold vetoes, done_with, auto_done. rewrite orb_false_iff, negb_false_iff, bool_decide_eq_true.
  destruct (atoi (EpKey e)) as [n [|]]; [|naive_solver].
  rewrite !orb_false_iff, negb_false_iff, andb_true_iff, orb_true_iff, andb_true_iff, !bool_decide_eq_true, String.eqb_eq.
  destruct (Kept e), downloads; simpl; naive_solver.
Qed.

Lemma elem_of_deletable animeID mode downloads watched l h :
  h ∈ deletable animeID mode downloads watched l <->
  (exists e, e ∈ l /\ InfoHash e = h) /\
  forall e, e ∈ l -> InfoHash e = h -> done_with animeID mode downloads watched e.
Proof.
  unfold deletable. rewrite elem_of_filter_b, negb_true_iff, bool_decide_eq_false, elem_of_remove_dups.
  rewrite !list_elem_of_fmap. setoid_rewrite elem_of_filter_b. setoid_rewrite negb_true_iff.
  setoid_rewrite vetoes_spec. split.
  - intros [(e & -> & He & Hd) Hno]. split; [by exists e|]. intros x Hx Hh. apply vetoes_spec.
    destruct (vetoes animeID mode downloads watched x) eqn:E; [|done]. exfalso. apply Hno. by exists x.
  - intros [(e & He & <-) Hall]. split; [exists e; auto|]. intros (x & Hh & Hx & Hv).
    assert (done_with animeID mode downloads watched x) as Hd by (by apply Hall).
    apply vetoes_spec in Hd. congruence.
Qed.

(** Deleting watched episodes takes a torrent only when every row of it is of
    the show, watched as the chosen rule asks, not playing and not kept (or
    downloads are included); it takes all such torrents but those whose eviction
    fails, counts them, and does nothing under any other rule. *)
Theorem AutoDelete_spec (o : io) (w : world) (animeID : Z) (mode : string) (downloads : bool) (watched : gset Z)
    (Hiter : forall l, iter o l ≡ₚ l) :
  let '(w', r) := AutoDelete o w animeID mode downloads watched in
  (forall e, e ∈ rows w' -> e ∈ rows w) /\
  (forall e x, e ∈ rows w -> e ∉ rows w' -> x ∈ rows w -> InfoHash x = InfoHash e ->
     done_with animeID mode downloads watched x /\ (mode = "now" \/ mode = "keep2") /\ animeID <> 0) /\
  (animeID <> 0 -> mode = "now" \/ mode = "keep2" -> r <> None ->
   forall h, (exists e, e ∈ rows w /\ InfoHash e = h) ->
     (forall e, e ∈ rows w -> InfoHash e = h -> done_with animeID mode downloads watched e) ->
     (forall e, e ∈ rows w' -> InfoHash e <> h) \/ exists w0, (evict o w0 (named h)).2 <> None).
Proof.
  unfold AutoDelete.
  destruct ((animeID =? 0) || (negb (String.eqb mode "now") && negb (String.eqb mode "keep2"))) eqn:Hoff.
  { split_and!; [done|by intros|]. intros Ha Hm. exfalso.
    apply orb_true_iff in Hoff as [?|?]; bool_prop; [done|]. by destruct Hm as [-> | ->]. }
  apply orb_false_iff in Hoff as [Ha Hm]. bool_prop.
  assert (mode = "now" \/ mode = "keep2") as Hmode.
  { apply andb_false_iff in Hm as [Hm|Hm]; apply negb_false_iff, String.eqb_eq in Hm; auto. }
  destruct (CacheEntries o w) as [l|] eqn:Hce; [|split_and!; [done|by intros|done]].
  apply CacheEntries_perm in Hce as Hl. set (del := deletable _ _ _ _ _).
  destruct (evict_hashes_spec o (iter o del) w 0) as (went & Hin & Hr & Hn & Hall).
  destruct (evict_hashes o w (iter o del) 0) as [w' n]. simpl in *. split_and!.
  - intros e He. rewrite Hr in He. by apply elem_of_rows_without in He as [? _].
  - intros e x He Hgone Hx Hh. split; [|done]. rewrite Hr, elem_of_rows_without in Hgone.
    destruct (decide (InfoHash e ∈ went)) as [Hw|Hw]; [|exfalso; apply Hgone; by rewrite elem_of_list_to_set].
    apply Hin in Hw. rewrite Hiter in Hw. apply elem_of_deletable in Hw as [_ Hw].
    apply Hw; [by rewrite Hl|done].
  - intros _ _ _ h (e & He & Hh) Hdone. destruct (Hall h) as [Hw|Hf]; [|left|by right].
    + rewrite Hiter. apply elem_of_deletable. split; [exists e; by rewrite Hl|].
      intros x Hx. rewrite Hl in Hx. by apply Hdone.
    + intros x Hx <-. rewrite Hr in Hx. apply elem_of_rows_without in Hx as [_ Hx].
      by rewrite elem_of_list_to_set in Hx.
Qed.
(** ** Clearing *)

Lemma rows_without_app a b l :
  rows_without (list_to_set (a ++ b)) l = rows_without (list_to_set a) (rows_without (list_to_set b) l).
Proof.
  unfold rows_without. induction l as [|e l IH]; simpl; [done|].
  rewrite (bool_decide_ext (InfoHash e ∈ (list_to_set (a ++ b) : gset string)) (InfoHash e ∈ a \/ InfoHash e ∈ b))
    by (rewrite elem_of_list_to_set; apply elem_of_app).
  rewrite (bool_decide_ext (InfoHash e ∈ (list_to_set b : gset string)) (InfoHash e ∈ b)) by apply elem_of_list_to_set.
  destruct (decide (InfoHash e ∈ b)).
  - rewrite !bool_decide_eq_true_2 by auto. exact IH.
  - rewrite (bool_decide_eq_false_2 (InfoHash e ∈ b)) by done. simpl.
    rewrite (bool_decide_ext (InfoHash e ∈ (list_to_set a : gset string)) (InfoHash e ∈ a)) by apply elem_of_list_to_set.
    rewrite (bool_decide_ext (InfoHash e ∈ a \/ InfoHash e ∈ b) (InfoHash e ∈ a)) by tauto. by rewrite IH.
Qed.

Lemma rows_without_one h l : without h l = rows_without (list_to_set [h]) l.
Proof. rewrite <- (rows_without_empty l) at 1. rewrite without_rows_without. simpl. done. Qed.

Lemma clear_loop_spec o held bytes l : forall w done n freed,
  let r := clear_loop o w l held done bytes n freed in
  exists went : list string, rows r.1 = rows_without (list_to_set went) (rows w) /\
    NoDup (map to_lower went) /\
    (forall h, h ∈ went -> (exists e, e ∈ l /\ InfoHash e = h) /\ held (to_lower h) = false /\ to_lower h ∉ done) /\
    r.2 = (n + Z.of_nat (length went), freed + total bytes went) /\
    forall e, e ∈ l -> held (to_lower (InfoHash e)) = false ->
      to_lower (InfoHash e) ∈ map to_lower went \/ to_lower (InfoHash e) ∈ done \/ exists w0, (evict o w0 e).2 <> None.
Proof.
  induction l as [|e l IH]; intros w done n freed; simpl.
  { exists []. rewrite rows_without_empty. simpl. split_and!; [done|constructor| |f_equal; lia|].
    - intros h Hh. by apply not_elem_of_nil in Hh.
    - intros e He. by apply not_elem_of_nil in He. }
  assert (forall (w1 : gset string) (went : list string),
    (forall h, h ∈ went -> (exists x, x ∈ l /\ InfoHash x = h) /\ held (to_lower h) = false /\ to_lower h ∉ w1) ->
    forall h, h ∈ went -> (exists x, x ∈ e :: l /\ InfoHash x = h) /\ held (to_lower h) = false /\ to_lower h ∉ w1) as Hmore.
  { intros w1 went Hw h Hh. destruct (Hw h Hh) as [(x & Hx & Hxh) Hrest]. split; [exists x; split; [by right|done]|done]. }
  destruct (held (to_lower (InfoHash e))) eqn:Hheld; simpl.
  { destruct (IH w done n freed) as (went & Hr & Hnd & Hin & Hn & Hall). exists went.
    split_and!; [done|done|by apply Hmore|done|]. intros x [->|Hx]%elem_of_cons Hh; [congruence|auto]. }
  destruct (bool_decide (to_lower (InfoHash e) ∈ done)) eqn:Hd; bool_prop.
  { destruct (IH w done n freed) as (went & Hr & Hnd & Hin & Hn & Hall). exists went.
    split_and!; [done|done|by apply Hmore|done|]. intros x [->|Hx]%elem_of_cons Hh; auto. }
  destruct (evict o w e) as [w1 [err|]] eqn:Hev; apply evict_rows in Hev as Hrows.
  - destruct (IH w1 done n freed) as (went & Hr & Hnd & Hin & Hn & Hall). exists went.
    split_and!; [by rewrite Hr, Hrows|done|by apply Hmore|done|].
    intros x [->|Hx]%elem_of_cons Hh; [right; right; exists w; by rewrite Hev|auto].
  - destruct (IH w1 ({[to_lower (InfoHash e)]} ∪ done) (n + 1) (freed + bytes (InfoHash e)))
      as (went & Hr & Hnd & Hin & Hn & Hall). exists (went ++ [InfoHash e]). split_and!.
    + by rewrite Hr, Hrows, rows_without_app, <- rows_without_one.
    + rewrite map_app. apply NoDup_app. split_and!; [done| |apply NoDup_singleton].
      intros h (x & -> & Hx)%list_elem_of_fmap Heq%list_elem_of_singleton.
      destruct (Hin x Hx) as (_ & _ & Hno). set_solver.
    + intros h [Hh| ->%list_elem_of_singleton]%elem_of_app.
      * destruct (Hmore _ _ Hin h Hh) as (? & ? & ?). split_and!; [done|done|set_solver].
      * split_and!; [exists e; split; [left|done]|done|done].
    + rewrite Hn, length_app, total_app. simpl. f_equal; lia.
    + rewrite map_app. simpl. intros x [->|Hx]%elem_of_cons Hh; [left; apply elem_of_app; right; left|].
      destruct (Hall x Hx Hh) as [?|[Hs|?]]; [left; apply elem_of_app; by left| |by auto].
      apply elem_of_union in Hs as [->%elem_of_singleton|?]; [left; apply elem_of_app; right; left|by auto].
Qed.

(** Clearing spares every torrent with a file that is playing or kept, or,
    for completed ones only, unfinished; every other torrent goes whole, once,
    unless its eviction fails, and the report counts them and their bytes. *)
Theorem Clear_spec (o : io) (w : world) (completedOnly : bool) :
  let '(w', r) := Clear o w completedOnly in
  (forall e x, e ∈ rows w -> x ∈ rows w -> to_lower (InfoHash x) = to_lower (InfoHash e) ->
     spares completedOnly x = true -> e ∈ rows w') /\
  match r with
  | None => w' = w
  | Some (removed, freed) =>
      exists went : list string, rows w' = rows_without (list_to_set went) (rows w) /\ NoDup (map to_lower went) /\
        removed = Z.of_nat (length went) /\ freed = total (torrentBytes (rows w)) went /\
        forall e, e ∈ rows w ->
          (exists x, x ∈ rows w /\ to_lower (InfoHash x) = to_lower (InfoHash e) /\ spares completedOnly x = true) \/
          to_lower (InfoHash e) ∈ map to_lower went \/ exists w0, (evict o w0 e).2 <> None
  end.
Proof.
  unfold Clear. destruct (CacheEntries o w) as [l|] eqn:Hce; [|by split].
  apply CacheEntries_perm in Hce as Hl. set (held := fun hash => existsb _ l).
  assert (forall h, held h = true <-> exists x, x ∈ rows w /\ to_lower (InfoHash x) = h /\ spares completedOnly x = true) as Hheld.
  { intros h. unfold held. rewrite existsb_elem. setoid_rewrite andb_true_iff. setoid_rewrite String.eqb_eq.
    by setoid_rewrite Hl. }
  destruct (clear_loop_spec o held (torrentBytes l) l w ∅ 0 0) as (went & Hr & Hnd & Hin & Hn & Hall).
  destruct (clear_loop o w l held ∅ (torrentBytes l) 0 0) as [w' [n freed]]. simpl in *.
  injection Hn as -> ->. split.
  - intros e x He Hx Hh Hs. rewrite Hr. apply elem_of_rows_without. split; [done|].
    rewrite elem_of_list_to_set. intros Hw. destruct (Hin _ Hw) as (_ & Hno & _).
    rewrite (proj2 (Hheld _)) in Hno; [done|eauto].
  - exists went. split_and!; [done|done|done|by apply total_perm|]. intros e He.
    destruct (held (to_lower (InfoHash e))) eqn:E; [left; by apply Hheld|right].
    destruct (Hall e) as [?|[?|?]]; [by rewrite Hl|done|by left|set_solver|by right].
Qed.
(** ** Forgetting what vanished *)

(** What [forgetVanished] asks before it drops a torrent's rows. *)
Definition long_gone (o : io) (w : world) (hash : string) : Prop :=
  exists a, absent w !! hash = Some a /\ forgetAfter <= a_count a + 1 /\ forgetAge <= now o - a_since a.

Lemma missing_spec o w hash :
  rows (missing o w hash).1 = rows w /\ disk (missing o w hash).1 = disk w /\
  (forall h, h <> hash -> absent (missing o w hash).1 !! h = absent w !! h) /\
  ((missing o w hash).2 = true -> long_gone o w hash).
Proof.
  unfold missing, long_gone. simpl. split_and!; [done|done|intros h Hh; by rewrite lookup_insert_ne|].
  intros Hm. bool_prop. destruct (absent w !! hash) as [a|]; simpl in *; [eauto|].
  unfold forgetAge in *. lia.
Qed.

Lemma elem_of_rows_of l hash e : e ∈ rows_of l hash <-> e ∈ l /\ to_lower (InfoHash e) = hash.
Proof. unfold rows_of. by rewrite elem_of_filter_b, String.eqb_eq. Qed.

(** What may have gone of [w], leaving [w']: only rows of torrents among
    [hashes], long gone and not kept on disk. *)
Definition forgot (o : io) (l : list CacheEntry) (hashes : list string) (w w' : world) : Prop :=
  disk w' = disk w /\ (forall e, e ∈ rows w' -> e ∈ rows w) /\
  (forall h, h ∉ hashes -> absent w' !! h = absent w !! h) /\
  forall e, e ∈ rows w -> e ∉ rows w' ->
    let hash := to_lower (InfoHash e) in
    hash ∈ hashes /\ long_gone o w hash /\ keptOnDisk w (rows_of l hash) = false.

Lemma forget_one_spec o w l hash : forgot o l [hash] w (forget_one o w l hash).1.
Proof.
  destruct (missing_spec o w hash) as (Hmr & Hmd & Hma & Hml). unfold forget_one.
  destruct (missing o w hash) as [w1 m]. simpl in *.
  assert (forgot o l [hash] w w1) as Hsame.
  { split_and!; [done|by rewrite Hmr|intros h Hh; apply Hma; set_solver|by rewrite Hmr]. }
  destruct (negb m || keptOnDisk w1 (rows_of l hash)) eqn:E; [done|].
  apply orb_false_iff in E as [Hm Hk]. bool_prop.
  destruct (rows_of l hash) as [|x xs] eqn:Hrows; [done|].
  assert (to_lower (InfoHash x) = hash) as Hx.
  { apply (elem_of_rows_of l hash x). rewrite Hrows. left. }
  unfold DropTorrentCache. destruct (write_fails o _); [done|]. simpl. rewrite Hmr. split_and!; simpl.
  - done.
  - intros e [? _]%elem_of_without. done.
  - intros h Hh. apply Hma. set_solver.
  - intros e He Hno. rewrite elem_of_without in Hno.
    assert (InfoHash e = InfoHash x) as ->.
    { destruct (decide (InfoHash e = InfoHash x)); [done|]. exfalso. tauto. }
    rewrite Hx. split_and!; [left|by apply Hml|]. rewrite Hrows. unfold keptOnDisk in *. by rewrite <- Hmd.
Qed.

Lemma forgot_trans o l a b w1 w2 w3 :
  forgot o l a w1 w2 -> forgot o l b w2 w3 -> (forall h, h ∈ a -> h ∉ b) -> forgot o l (a ++ b) w1 w3.
Proof.
  intros (Hd & Hr & Ha & He) (Hd' & Hr' & Ha' & He') Hdisj. split_and!; [congruence|auto| |].
  - intros h [? ?]%not_elem_of_app. by rewrite Ha', Ha.
  - intros e Hin Hno hash. subst hash. destruct (decide (e ∈ rows w2)) as [H2|H2].
    + destruct (He' e H2 Hno) as (Hb & (x & Hx & Hold) & Hk). rewrite Ha in Hx by (intros ?; by eapply Hdisj).
      split_and!; [apply elem_of_app; by right|by exists x|].
      unfold keptOnDisk in *. by rewrite <- Hd.
    + destruct (He e Hin H2) as (Hb & Hg & Hk). split_and!; [apply elem_of_app; by left|done|done].
Qed.

Lemma forget_loop_spec o l hashes : forall w, NoDup hashes -> forgot o l hashes w (forget_loop o w l hashes).1.
Proof.
  induction hashes as [|hash hashes IH]; intros w Hnd; simpl; [done|].
  apply NoDup_cons in Hnd as [Hhash Hnd].
  pose proof (forget_one_spec o w l hash) as H1. destruct (forget_one o w l hash) as [w1 [err|]]; simpl in *.
  - destruct H1 as (? & ? & Ha & He). split_and!; [done|done|intros h Hh; apply Ha; set_solver|].
    intros e Hin Hno. destruct (He e Hin Hno) as (Hb & ? & ?). split_and!; [set_solver|done|done].
  - apply (forgot_trans o l [hash] hashes w w1); [done|by apply IH|]. intros h ->%list_elem_of_singleton. done.
Qed.

(** A download's rows are forgotten only when the engine lists torrents but
    not this one, has not in at least two listings at least ten minutes apart,
    and nothing kept of it is still on disk; files stay where they are, and a
    torrent listed again starts anew. *)
Theorem forgetVanished_spec (o : io) (w : world) (live : list held_torrent) (Hiter : forall l, iter o l ≡ₚ l) :
  let w' := (forgetVanished o w live).1 in
  disk w' = disk w /\ (forall e, e ∈ rows w' -> e ∈ rows w) /\
  (forall t, t ∈ live -> absent w' !! to_lower (h_hash t) = None) /\
  forall e, e ∈ rows w -> e ∉ rows w' ->
    let hash := to_lower (InfoHash e) in
    live <> [] /\ (forall t, t ∈ live -> to_lower (h_hash t) <> hash) /\
    (exists a, absent w !! hash = Some a /\ 2 <= a_count a + 1 /\ 10 * 60 * 1000000000 <= now o - a_since a) /\
    forall x, x ∈ rows w -> to_lower (InfoHash x) = hash -> Kept x = true -> Name x <> "" ->
      exists_on (disk w) (Join [dir; Name x]) = false.
Proof.
  unfold forgetVanished. set (held := list_to_set _). set (w1 := present w held).
  assert (forall h, h ∈ held <-> exists t, t ∈ live /\ to_lower (h_hash t) = h) as Hheld.
  { intros h. unfold held. rewrite elem_of_list_to_set, list_elem_of_fmap. naive_solver. }
  assert (forall h, h ∈ held -> absent w1 !! h = None) as Hpres.
  { intros h Hh. simpl. apply map_lookup_filter_None_2. right. intros a _ Hn. by apply Hn. }
  assert (forall h a, absent w1 !! h = Some a -> absent w !! h = Some a) as Hold.
  { intros h a Hh. simpl in Hh. by apply map_lookup_filter_Some in Hh as [? _]. }
  assert (disk w = disk w /\ (forall e, e ∈ rows w -> e ∈ rows w) /\
          (forall t, t ∈ live -> absent w1 !! to_lower (h_hash t) = None) /\
          (forall e, e ∈ rows w -> e ∉ rows w -> False)) as Hsame.
  { split_and!; auto. intros t Ht. apply Hpres, Hheld. eauto. }
  destruct (CacheEntries o w1) as [l|] eqn:Hce; [|naive_solver].
  apply CacheEntries_perm in Hce as Hl. simpl in Hl.
  destruct live as [|t0 live'] eqn:Hlive; [naive_solver|]. rewrite <- Hlive in *.
  set (gone := List.filter _ _).
  assert (NoDup (iter o gone)) as Hnd.
  { rewrite Hiter. apply base.NoDup_ListNoDup, List.NoDup_filter, base.NoDup_ListNoDup, NoDup_remove_dups. }
  assert (forall h, h ∈ iter o gone -> h ∉ held) as Hgone.
  { intros h Hh. rewrite Hiter in Hh. apply elem_of_filter_b in Hh as [_ Hh]. by bool_prop. }
  destruct (forget_loop_spec o l (iter o gone) w1 Hnd) as (Hd & Hr & Ha & He).
  split_and!; [done|done| |].
  - intros t Ht. rewrite Ha; [apply Hpres, Hheld; eauto|]. intros Hin. eapply Hgone; [exact Hin|].
    apply Hheld. eauto.
  - intros e Hin Hno. destruct (He e Hin Hno) as (Hh & (a & Hla & Hc & Hs) & Hk). split_and!.
    + by rewrite Hlive.
    + intros t Ht Heq. eapply Hgone; [exact Hh|]. apply Hheld. eauto.
    + exists a. unfold forgetAfter, forgetAge in *. split_and!; [by apply Hold|done|done].
    + intros x Hx Hxh Hkept Hname. apply (existsb_none _ _ x) in Hk.
      * cbv beta in Hk. rewrite Hkept in Hk. apply String.eqb_neq in Hname.
        rewrite Hname in Hk. exact Hk.
      * apply elem_of_rows_of. split; [by rewrite Hl|done].
Qed.
(** ** Orphans *)

(** What an entry of the cache folder has to be for the cleanup to take it. *)
Definition orphaned (only : option (gset string)) (keep : gset string) (name : string) : Prop :=
  name ∉ ours /\ has_prefix name "chapters-" = false /\ to_lower name ∉ keep /\
  (forall names, only = Some names -> name ∈ names) /\ isProtected (Join [dir; name]) = false.

Lemma orphan_loop_spec o dryRun only keep entries : forall w out,
  let w' := (orphan_loop o w dryRun only keep entries out).1 in
  rows w' = rows w /\ engine w' = engine w /\ (dryRun = true -> w' = w) /\ disk w' ⊆ disk w /\
  forall p, p ∈ disk w -> p ∉ disk w' ->
    exists name, name ∈ entries /\ Within (Join [dir; name]) p = true /\ orphaned only keep name.
Proof.
  induction entries as [|name entries IH]; intros w out; cbn [orphan_loop].
  { split_and!; done. }
  assert (forall w2 out2, rows w2 = rows w -> engine w2 = engine w -> (dryRun = true -> w2 = w) -> disk w2 ⊆ disk w ->
    (forall p, p ∈ disk w -> p ∉ disk w2 -> Within (Join [dir; name]) p = true /\ orphaned only keep name) ->
    let w' := (orphan_loop o w2 dryRun only keep entries out2).1 in
    rows w' = rows w /\ engine w' = engine w /\ (dryRun = true -> w' = w) /\ disk w' ⊆ disk w /\
    forall p, p ∈ disk w -> p ∉ disk w' ->
      exists n, n ∈ name :: entries /\ Within (Join [dir; n]) p = true /\ orphaned only keep n) as Hgo.
  { intros w2 out2 Hr He Hdry Hd Hgone. destruct (IH w2 out2) as (IHr & IHe & IHdry & IHd & IHg). split_and!.
    - congruence.
    - congruence.
    - intros Hdr. rewrite IHdry by done. auto.
    - set_solver.
    - intros p Hp Hno. destruct (decide (p ∈ disk w2)) as [H2|H2].
      + destruct (IHg p H2 Hno) as (n & Hn & ?). exists n. split; [by right|done].
      + exists name. split; [left|]. by apply Hgone. }
  assert (let w' := (orphan_loop o w dryRun only keep entries out).1 in
    rows w' = rows w /\ engine w' = engine w /\ (dryRun = true -> w' = w) /\ disk w' ⊆ disk w /\
    forall p, p ∈ disk w -> p ∉ disk w' ->
      exists n, n ∈ name :: entries /\ Within (Join [dir; n]) p = true /\ orphaned only keep n) as Hskip
    by (apply Hgo; naive_solver).
  destruct (bool_decide (name ∈ ours) || has_prefix name "chapters-" || bool_decide (to_lower name ∈ keep)) eqn:E1; [done|].
  destruct (match only with Some names => negb (bool_decide (name ∈ names)) | None => false end) eqn:E2; [done|].
  destruct (isProtected (Join [dir; name])) eqn:E3; [done|].
  destruct dryRun; [apply Hgo; naive_solver|]. destruct (remove_fails o (Join [dir; name])); [done|].
  apply Hgo; try done; cbn [set_disk disk].
  - intros p Hp. by apply elem_of_remove_all in Hp as [? _].
  - intros p Hp Hno. rewrite elem_of_remove_all in Hno.
    destruct (Within (Join [dir; name]) p); [split; [done|]|tauto].
    apply orb_false_iff in E1 as [E1 Ek]. apply orb_false_iff in E1 as [Eo Ec]. bool_prop.
    split_and!; [done|done|done| |done]. intros names ->. by bool_prop.
Qed.

(** A torrent in a folder of its own keeps that folder's name. *)
Lemma keep_names_folder t c rest :
  rooted dir = rooted (OutputFolder (h_detail t)) ->
  comps (OutputFolder (h_detail t)) = comps dir ++ c :: rest -> has_prefix c ".." = false ->
  to_lower c ∈ keep_names t.
Proof.
  intros Hr Hc Hp. unfold keep_names.
  assert (c <> "..") as Hdd by (by intros ->).
  destruct (Rel_below dir _ c rest Hr Hc Hdd) as (rel & -> & Hhd & Hne & Hpre).
  apply String.eqb_neq in Hne. rewrite Hne, Hpre, Hhd by done. simpl. right. left.
Qed.

(** The orphan cleanup changes nothing on a dry run or when a query or
    listing fails, and never a row.  What it deletes is an entry of the cache
    folder that is not kuro's own, holds no folder of kuro's, is among the names
    a person reviewed when there are any, and is named by no record and no torrent
    held before or after the pause; so no file of a torrent in its own folder
    goes. *)
Theorem orphans_safe (o : io) (w : world) (dryRun : bool) (only : option (gset string))
    (known : option (list string)) (again : option (list held_torrent)) (entries : option (list string)) :
  dir <> "" ->
  (forall names name, entries = Some names -> name ∈ names -> plain name /\ name <> "..") ->
  let '(w', r) := orphans o w dryRun only known again entries in
  rows w' = rows w /\ engine w' = engine w /\ (dryRun = true \/ r = None -> w' = w) /\ disk w' ⊆ disk w /\
  forall p, p ∈ disk w -> p ∉ disk w' ->
    exists name list more names,
      engine w = Some list /\ again = Some more /\ known = Some names /\
      Within (Join [dir; name]) p = true /\ name ∉ ours /\ isProtected (Join [dir; name]) = false /\
      (forall chosen, only = Some chosen -> name ∈ chosen) /\
      (forall n, n ∈ TorrentNames names -> to_lower n <> to_lower name) /\
      forall t, t ∈ (list ++ more)%list ->
        to_lower (h_name t) <> to_lower name /\
        (contained [t] ->
         (exists c rest, comps (OutputFolder (h_detail t)) = comps dir ++ c :: rest /\ has_prefix c ".." = false) ->
         owns (h_detail t) = true -> p ∉ paths_of (h_detail t)).
Proof.
  intros Hdir Hplain. unfold orphans.
  assert (rows w = rows w /\ engine w = engine w /\ disk w ⊆ disk w /\
          (forall p, p ∈ disk w -> p ∉ disk w -> False)) as Hsame by done.
  destruct (engine w) as [list|] eqn:He; [|naive_solver]. destruct known as [names|]; [|naive_solver].
  destruct (list_fails o); [naive_solver|].
  destruct (if dryRun then Some [] else again) as [more|] eqn:Hmore; [|naive_solver].
  destruct (existsb _ _); [naive_solver|]. destruct entries as [entries|]; [|naive_solver].
  set (keep := list_to_set _).
  destruct (orphan_loop_spec o dryRun only keep entries w []) as (Hr & Hen & Hdry & Hd & Hgone).
  destruct (orphan_loop o w dryRun only keep entries []) as [w' out]. simpl in *.
  split_and!; [done|congruence|intros [?|?]; [auto|done]|done|]. intros p Hp Hno.
  destruct (Hgone p Hp Hno) as (name & Hname & Hw & Hown & _ & Hkeep & Honly & Hprot).
  destruct (Hplain entries name eq_refl Hname) as [Hpl Hdd].
  assert (forall k, k ∈ map to_lower (TorrentNames names) \/
                    (exists t, t ∈ (list ++ more)%list /\ k ∈ keep_names t) -> k <> to_lower name) as Hk.
  { intros k Hk ->. apply Hkeep. unfold keep. rewrite elem_of_list_to_set, elem_of_app, elem_of_concat_map. done. }
  exists name, list, more, names. destruct dryRun; [by rewrite Hdry in Hno|].
  split_and!; try done.
  - intros n Hn. apply Hk. left. apply list_elem_of_fmap. eauto.
  - intros t Ht. split; [apply Hk; right; exists t; split; [done|left]|].
    intros Hcont (c & rest & Hc & Hcp) Howns Hpt.
    apply Within_iff in Howns as (_ & _ & Hroot & _).
    assert (to_lower c <> to_lower name) as Hcn.
    { apply Hk. right. exists t. split; [done|]. by eapply keep_names_folder. }
    destruct (Within_below dir name p Hdir Hpl Hdd Hw) as (r1 & Hp1).
    specialize (Hcont t p (proj2 (list_elem_of_singleton _ _) eq_refl) Hpt).
    apply Within_inside in Hcont as [[r2 Hp2] _]. rewrite Hp1, Hc, <- app_assoc in Hp2.
    apply app_inv_head in Hp2. simpl in Hp2. injection Hp2 as -> _. by apply Hcn.
Qed.

(** ** Two ways a deletion goes wrong *)

(** A download the engine lost whose recorded name is "." takes every file of
    the cache folder with it, kept downloads and kuro's own folders included,
    unless a torrent that maps to the folder itself is held. *)
Theorem evict_lost_dot (o : io) (w : world) (e : CacheEntry) (l : list held_torrent) :
  engine w = Some l -> list_fails o = false -> live_id l (to_lower (InfoHash e)) = None ->
  Name e = "." -> dir <> "" -> existsb (maps_there o (Join [dir; "."])) (live_named l) = false ->
  remove_fails o (Join [dir; "."]) = false ->
  forall p, p ∈ disk (evict o w e).1 <-> p ∈ disk w /\ Within dir p = false.
Proof.
  intros He Hlist Hlive Hname Hdir Hmaps Hremove p. unfold evict. rewrite He, Hlist, Hlive.
  assert (recorded_name o w e = ".") as Hrec by (unfold recorded_name; by rewrite Hname).
  assert (disk (removeByName o w e l).1 = remove_all (disk w) (Join [dir; "."]) \/
          (disk (removeByName o w e l).1 = disk w /\ exists_on (disk w) (Join [dir; "."]) = false)) as Hd.
  { assert (Within dir (Join [dir; "."]) = true) as Hself
      by (rewrite <- Within_dot by done; by apply Within_refl, Join_nonempty).
    unfold removeByName. rewrite Hrec. cbv zeta. unfold live_named in Hmaps. rewrite Hmaps, Hremove, Hself.
    cbn [negb]. destruct (exists_on (disk w) (Join [dir; "."])); [by left|by right]. }
  destruct (removeByName o w e l) as [w1 r1]. rewrite DropTorrentCache_disk. cbn [fst] in Hd.
  destruct Hd as [->|[-> Hno]].
  - by rewrite elem_of_remove_all, Within_dot.
  - split; [intros Hp|tauto]. split; [done|]. rewrite <- Within_dot by done.
    eapply existsb_none; [exact Hno|]. by apply elem_of_elements.
Qed.

(** Asked to delete a download by its hash in another case than the one on
    record, [Remove] deletes it from the engine and reports its bytes freed, but
    its rows stay. *)
Theorem Remove_other_case (o : io) (w : world) (hash : string) :
  entries_fail o = false ->
  (exists e, e ∈ rows w /\ equal_fold (InfoHash e) hash = true) ->
  (forall e, e ∈ rows w -> equal_fold (InfoHash e) hash = true -> Pinned e = false) ->
  (forall e, e ∈ rows w -> InfoHash e <> hash) ->
  rows (Remove o w hash).1 = rows w /\
  ((evict o w (named hash)).2 = None ->
   exists freed, Remove o w hash = ((evict o w (named hash)).1, Ok freed)).
Proof.
  intros Hok (e0 & He0 & Hfold) Hpin Hcase. unfold Remove, CacheEntries. rewrite Hok.
  set (mine := List.filter _ _).
  assert (e0 ∈ mine) as Hin by (apply elem_of_filter_b; split; [by rewrite sort_by_perm|done]).
  assert (existsb Pinned mine = false) as ->.
  { destruct (existsb Pinned mine) eqn:E; [|done]. apply existsb_elem in E as (x & Hx & Hp).
    apply elem_of_filter_b in Hx as [Hx Hf]. rewrite sort_by_perm in Hx. by rewrite (Hpin x Hx Hf) in Hp. }
  destruct mine as [|m ms]; [by apply not_elem_of_nil in Hin|].
  destruct (evict o w (named hash)) as [w' r] eqn:Hev. apply evict_rows in Hev as Hrows. split.
  - assert (without hash (rows w) = rows w) as Hsame.
    { unfold without. apply List.forallb_filter_id, List.forallb_forall. intros x Hx.
      apply negb_true_iff, String.eqb_neq, Hcase. by apply list_elem_of_In. }
    simpl in Hrows. rewrite Hsame in Hrows. by destruct r.
  - simpl. intros ->. eauto.
Qed.
End Cache.

(** ** The theorems at work *)

Definition calm : io :=
  mkIO (20 * 60 * 1000000000) false (fun _ => false) (fun _ => false) (fun _ => None) false (fun _ => false)
    (fun _ => false) (fun _ => 100) (fun l => l) (fun _ => false).

Definition one_file (id : Z) (hash name : string) : held_torrent :=
  mkHeld id hash name
    (mkDetail ("/cache/" +:+ name) [mkFile "1.mkv" ["1.mkv"] 100 true])
    (mkStats "live" 100 true [100]).

Definition library_held : list held_torrent := [one_file 1 "aa" "A"; one_file 3 "cc" "C"].

(** Three downloads of a hundred bytes: one watched, one kept that the engine
    lost, one of a show in progress. *)
Definition library : world :=
  mkWorld
    [mkEntry "aa" 0 100 true false false false (Some 1) "1" 10 "A";
     mkEntry "bb" 0 100 true false true false (Some 2) "1" 20 "B";
     mkEntry "cc" 0 100 true false false true (Some 3) "1" 30 "C"]
    (Some library_held)
    {["/cache/A/1.mkv"; "/cache/B/1.mkv"; "/cache/C/1.mkv"]} ∅ ∅.

#[local] Existing Instance ascii_unicode.

Lemma library_contained : contained library_held.
Proof.
  intros t p Ht Hp. unfold library_held in Ht. rewrite !elem_of_cons in Ht.
  destruct Ht as [->|[->|Ht]]; [| |by apply not_elem_of_nil in Ht];
    apply list_elem_of_singleton in Hp; subst p; vm_compute; reflexivity.
Defined.

Lemma evict_safe_witness :
  engine library = Some library_held /\
  disk (evict "/cache" calm library (named "aa")).1 ⊆ disk library /\
  "/cache/A/1.mkv" ∉ disk (evict "/cache" calm library (named "aa")).1.
Proof.
  split; [reflexivity|]. split.
  - apply (evict_safe "/cache" calm library (named "aa") library_held); [reflexivity|exact library_contained].
  - apply (bool_decide_unpack _). vm_compute. exact I.
Defined.

Lemma Sweep_spec_witness :
  let r := Sweep "/cache" calm library 150 None in
  r.2 = Some (mkReport 200 100 150 1 100) /\ 100 = usage_of (rows r.1).
Proof.
  set (r := Sweep _ _ _ _ _). cbv zeta.
  assert (r.2 = Some (mkReport 200 100 150 1 100)) as Hr by (vm_compute; reflexivity).
  split; [exact Hr|].
  destruct (Sweep_spec "/cache" calm library r.1 150 None (mkReport 200 100 150 1 100))
    as (_ & Hafter & _); [|exact Hafter].
  rewrite <- Hr. apply surjective_pairing.
Defined.

Lemma MakeRoom_spec_witness :
  let r := MakeRoom "/cache" calm library 250 100 3 ∅ None in
  r.2 = true /\ (250 <= 0 \/ usage_of (rows r.1) + 100 <= 250).
Proof.
  set (r := MakeRoom _ _ _ _ _ _ _ _). cbv zeta.
  assert (r.2 = true) as Hr by (vm_compute; reflexivity). split; [exact Hr|].
  destruct (MakeRoom_spec "/cache" calm library r.1 250 100 3 ∅ None r.2) as (_ & _ & Hok & _);
    [apply surjective_pairing|exact (Hok Hr)].
Defined.

Lemma AutoDelete_spec_witness :
  (forall l, iter calm l ≡ₚ l) /\
  (AutoDelete "/cache" calm library 1 "now" false {[1]}).2 = Some 1 /\
  forall e, e ∈ rows (AutoDelete "/cache" calm library 1 "now" false {[1]}).1 -> e ∈ rows library.
Proof.
  assert (forall l, iter calm l ≡ₚ l) as Hiter by (intros l; reflexivity).
  split; [exact Hiter|]. split; [vm_compute; reflexivity|].
  pose proof (AutoDelete_spec "/cache" calm library 1 "now" false {[1]} Hiter) as Ha.
  destruct (AutoDelete "/cache" calm library 1 "now" false {[1]}) as [w' r]. apply Ha.
Defined.

(** The kept download is on disk; the other vanished one goes at the second
    listing, twenty minutes after the first. *)
Definition library_before : world :=
  mkWorld (rows library) (engine library) (disk library) ∅
    {["aa" := mkAbsence 1 0; "bb" := mkAbsence 1 0]}.

Lemma forgetVanished_spec_witness :
  (forall l, iter calm l ≡ₚ l) /\
  map InfoHash (rows (forgetVanished "/cache" calm library_before [one_file 3 "cc" "C"]).1) = ["bb"; "cc"] /\
  disk (forgetVanished "/cache" calm library_before [one_file 3 "cc" "C"]).1 = disk library_before.
Proof.
  assert (forall l, iter calm l ≡ₚ l) as Hiter by (intros l; reflexivity).
  split; [exact Hiter|]. split; [vm_compute; reflexivity|].
  apply (forgetVanished_spec "/cache" calm library_before [one_file 3 "cc" "C"] Hiter).
Defined.

Lemma orphans_safe_witness :
  "/cache" <> "" /\
  (let r := orphans "/cache" [] calm library false None (Some ["B"]) (Some library_held) (Some ["A"; "B"; "C"; "hls"]) in
   r.2 = Some [] /\ rows r.1 = rows library).
Proof.
  split; [discriminate|]. split; [vm_compute; reflexivity|].
  pose proof (orphans_safe "/cache" [] calm library false None (Some ["B"]) (Some library_held)
    (Some ["A"; "B"; "C"; "hls"])) as Ho.
  destruct (orphans _ _ _ _ _ _ _ _ _) as [w' r]. apply Ho; [discriminate|].
  intros names name [= <-] Hn. rewrite !elem_of_cons in Hn.
  destruct Hn as [->|[->|[->|[->|Hn]]]]; [| | | |by apply not_elem_of_nil in Hn];
    (split; [|discriminate]); (split; [discriminate|]); (split; [discriminate|]);
    intros [|[|[|i]]]; discriminate.
Defined.

Definition lost_dot : CacheEntry := mkEntry "dd" 0 10 true false false false None "" 5 ".".

Lemma evict_lost_dot_witness :
  "/cache/B/1.mkv" ∈ disk library /\ "/cache/B/1.mkv" ∉ disk (evict "/cache" calm library lost_dot).1.
Proof.
  split; [apply (bool_decide_unpack _); vm_compute; exact I|].
  rewrite (evict_lost_dot "/cache" calm library lost_dot library_held).
  - intros [_ Hw]. revert Hw. vm_compute. discriminate.
  - reflexivity.
  - reflexivity.
  - vm_compute. reflexivity.
  - reflexivity.
  - discriminate.
  - vm_compute. reflexivity.
  - reflexivity.
Defined.

Lemma Remove_other_case_witness :
  rows (Remove "/cache" calm library "AA").1 = rows library /\
  (Remove "/cache" calm library "AA").2 = Ok 100 /\
  "/cache/A/1.mkv" ∉ disk (Remove "/cache" calm library "AA").1.
Proof.
  split; [|split; [vm_compute; reflexivity|apply (bool_decide_unpack _); vm_compute; exact I]].
  apply (Remove_other_case "/cache" calm library "AA").
  - reflexivity.
  - exists (mkEntry "aa" 0 100 true false false false (Some 1) "1" 10 "A"). split; [left|vm_compute; reflexivity].
  - intros e He _. cbn [library rows] in He. rewrite !elem_of_cons in He.
    destruct He as [->|[->|[->|He]]]; [reflexivity..|by apply not_elem_of_nil in He].
  - intros e He. cbn [library rows] in He. rewrite !elem_of_cons in He.
    destruct He as [->|[->|[->|He]]]; [discriminate..|by apply not_elem_of_nil in He].
Defined.
