(* ===== verification/Listing.v ===== *)
(** * What the engine tells the cache: internal/engine/torrents.go, api.go

    The cache works on listings and details the engine gives ([detailOf]) and
    asks it to delete ([Engine.remove]); Cache.v takes a deletion to be
    [engine_delete].  Here that is shown to be what the engine does: [remove] on
    the engine's own state, seen through its listing, is [engine_delete] on the
    listing.  It also shows where the listing misleads: a single file stored
    under a name of its own is listed under another. *)
From stdpp Require Import base gmap strings list sets fin_maps fin_map_dom.
From Stdlib Require Import ZArith Lia.
From S2P Require Import Prelude GoStr Paths Storage Engine Cache.

(** ** Details *)

Definition components (info : Info) (fi : FileInfo) : list string :=
  if IsDir info then BestPath fi else [BestName info].

Definition fileName (info : Info) (fi : FileInfo) : string := join (components info fi) "/".

Section Listing.
(** The cache folder; the engine's id of each torrent, what it selected, its
    statistics, and what a torrent is called before its file list is known. *)
Context (base : string) (id : string -> Z) (selected : string -> nat -> bool).
Context (stats : string -> Stats) (display : string -> string).

Definition detailOf (l : tops) (t : torrent) : Detail :=
  mkDetail (fst (folder base (Some l) t))
    match t_info t with
    | None => []
    | Some info =>
        imap (fun i fi => mkFile (fileName info fi) (components info fi) (fi_Length fi) (selected (t_hash t) i))
          (UpvertedFilesIter info)
    end.

Definition listed_as (l : tops) (t : torrent) : held_torrent :=
  mkHeld (id (t_hash t)) (t_hash t)
    match t_info t with Some info => BestName info | None => display (t_hash t) end
    (detailOf l t) (stats (t_hash t)).

Definition listing (l : tops) (held : list torrent) : list held_torrent := map (listed_as l) held.

(** ** The paths a detail names are the files' own *)

(** The elements a torrent names its files by are plain, and a single file is
    stored under the torrent's own name. *)
Definition well_named (l : tops) (t : torrent) : Prop :=
  match t_info t with
  | None => True
  | Some info =>
      is_Some (l !! t_hash t) /\
      (IsDir info = true -> forall fi, fi ∈ UpvertedFilesIter info ->
         BestPath fi <> [] /\ Forall (fun c => plain c /\ c <> "..") (BestPath fi)) /\
      (IsDir info = false ->
         l !! t_hash t = Some (BestName info) /\ plain (BestName info) /\ BestName info <> "..")
  end.

Lemma Join_plain_self cs :
  cs <> [] -> Forall (fun c => plain c /\ c <> "..") cs -> Join cs = join cs "/".
Proof.
  intros Hne Hcs.
  assert (well_formed false cs) as Hwf by (exists O, cs; split; [done|split; [done|exact Hcs]]).
  assert (path_of false cs = join cs "/") as Hp by (by destruct cs).
  destruct cs as [|c cs]; [done|].
  apply List.Forall_cons_iff in Hcs as [[(Hc & _) _] _]. cbn [Join]. apply String.eqb_neq in Hc. rewrite Hc.
  unfold Clean. rewrite <- Hp. by rewrite rooted_path_of, comps_path_of.
Qed.

Lemma Join_nested a cs :
  cs <> [] -> Forall (fun c => plain c /\ c <> "..") cs -> Join [a; Join cs] = Join (a :: cs).
Proof.
  intros Hne Hcs. rewrite (Join_plain_self cs) by done. destruct cs as [|c cs]; [done|].
  cbn [Join]. destruct (String.eqb a ""); [|done].
  apply List.Forall_cons_iff in Hcs as Hc. destruct Hc as [[(Hc & _) _] _].
  assert (join (c :: cs) "/" <> "") as Hj by (destruct cs; [done|]; rewrite join_cons; by destruct c).
  apply String.eqb_neq in Hj, Hc. by rewrite Hj, Hc.
Qed.

Lemma Join_Clean a name :
  a <> "" -> (forall i, String.get i name <> Some slash) -> Join [Clean a; name] = Join [a; name].
Proof.
  intros Ha Hn. assert (Clean a <> "") as Hca.
  { unfold Clean, path_of. pose proof (wf_no_slash _ _ (comps_wf a)) as Hwf.
    destruct (rooted a); [by destruct (join (comps a) "/")|]. destruct (comps a) as [|c [|d cs]]; [done| |].
    - by apply List.Forall_cons_iff in Hwf as [[? _] _].
    - rewrite join_cons. by destruct c. }
  assert (forall b, b <> "" -> Clean (Join [b; name]) = Join [b; name]) as Hcl.
  { intros b Hb. unfold Join. apply String.eqb_neq in Hb. rewrite Hb. apply Clean_idemp. }
  rewrite <- (Hcl a Ha), <- (Hcl _ Hca). apply Clean_eq.
  destruct (Join_below a name Ha Hn) as [-> ->], (Join_below (Clean a) name Hca Hn) as [-> ->].
  by rewrite rooted_Clean, comps_Clean.
Qed.

#[local] Arguments Join : simpl never.

Lemma paths_of_detailOf l t info :
  base <> "" -> t_info t = Some info -> well_named l t ->
  paths_of (detailOf l t) = map (path_in base l (t_hash t) info) (UpvertedFilesIter info).
Proof.
  intros Hbase Hi Hw. unfold well_named in Hw. rewrite Hi in Hw. destruct Hw as ([top Htop] & Hdir & Hsingle).
  assert (forall fi b, fi ∈ UpvertedFilesIter info ->
    file_path (detailOf l t) (mkFile (fileName info fi) (components info fi) (fi_Length fi) b) =
    path_in base l (t_hash t) info fi) as Hone.
  { intros fi b Hfi. unfold file_path, path_in, filePath, detailOf, folder, components. simpl. rewrite Hi.
    destruct (IsDir info) eqn:Hd; simpl; rewrite Htop; simpl.
    - destruct (Hdir eq_refl fi Hfi) as [Hne Hpl]. rewrite <- (Join_nested (Join [base; top]) (BestPath fi)) by done.
      by destruct (BestPath fi).
    - destruct (Hsingle eq_refl) as (Hn & Hpl & Hdd). rewrite Htop in Hn. injection Hn as ->.
      rewrite (Join_plain_self [BestName info]); [|done|constructor; [done|constructor]]. apply Join_Clean; [done|]. by destruct Hpl as (_ & _ & ?). }
  assert (forall files k, (forall fi, fi ∈ files -> fi ∈ UpvertedFilesIter info) ->
    map (fun f => file_path (detailOf l t) f)
      (imap (fun i fi => mkFile (fileName info fi) (components info fi) (fi_Length fi) (selected (t_hash t) (k + i)))
         files) = map (path_in base l (t_hash t) info) files) as Hall.
  { induction files as [|fi files IH]; intros k Hin; [done|]. rewrite imap_cons. cbn [map]. f_equal.
    - apply Hone, Hin. left.
    - rewrite <- (IH (S k)) by (intros; apply Hin; by right). f_equal. apply imap_ext. intros i x _. simpl.
      by rewrite Nat.add_succ_r. }
  unfold paths_of. rewrite <- (Hall _ O) by done. unfold detailOf at 2. simpl. by rewrite Hi.
Qed.
Lemma uses_detailOf l p hash o :
  base <> "" -> well_named l o -> t_hash o <> hash ->
  uses base l p hash o = true <-> p ∈ paths_of (detailOf l o).
Proof.
  intros Hb Hw Hh. unfold uses. apply String.eqb_neq in Hh.
  destruct (t_info o) as [info|] eqn:Hi.
  - rewrite (paths_of_detailOf l o info), Hh by done. simpl. rewrite existsb_elem, list_elem_of_fmap.
    setoid_rewrite String.eqb_eq. naive_solver.
  - split; [done|]. unfold paths_of, detailOf. rewrite Hi. intros Hp. by apply not_elem_of_nil in Hp.
Qed.

(** Forgetting a torrent's name changes no other torrent's listing. *)
Lemma listed_as_delete l t o :
  settled l o -> t_hash o <> t_hash t -> listed_as (delete (t_hash t) l) o = listed_as l o.
Proof.
  intros [top Htop] Hne. unfold listed_as. f_equal. unfold detailOf, folder. destruct (t_info o) as [info|]; [|done].
  destruct (IsDir info); [|done]. unfold Storage.top. by rewrite lookup_delete_ne, Htop.
Qed.

(** Leaving out one torrent, by id or by hash, is the same. *)
Lemma listing_without l t held :
  Forall (settled l) held ->
  (forall o, o ∈ held -> id (t_hash o) = id (t_hash t) -> t_hash o = t_hash t) ->
  List.filter (fun x => negb (h_ID x =? h_ID (listed_as l t))) (listing l held) =
  listing (delete (t_hash t) l) (List.filter (fun o => negb (String.eqb (t_hash o) (t_hash t))) held).
Proof.
  induction 1 as [|o held Ho Hs IH]; intros Hinj; [done|]. simpl in *.
  assert (forall x, x ∈ held -> id (t_hash x) = id (t_hash t) -> t_hash x = t_hash t) as Hinj'
    by (intros x Hx; apply Hinj; by right).
  destruct (String.eqb_spec (t_hash o) (t_hash t)) as [Heq|Hne]; simpl.
  - rewrite Heq, Z.eqb_refl. simpl. by apply IH.
  - assert (id (t_hash o) =? id (t_hash t) = false) as ->.
    { apply Z.eqb_neq. intros Hid. apply Hne, Hinj; [left|done]. }
    simpl. rewrite listed_as_delete by done. f_equal. by apply IH.
Qed.

End Listing.

(** ** At work *)

Definition ids (hash : string) : Z := if String.eqb hash "aaaaaaaa11" then 1 else 2.
Definition all_of (_ : string) (_ : nat) : bool := true.
Definition whole (_ : string) : Stats := mkStats "live" 4 true [4].
Definition unnamed (hash : string) : string := "infohash:" +:+ hash.


(** Two single files of one name: the second is stored under its hash. *)
Definition film : Info := mkInfo 4 20 "Film.mkv" "" 4 [] None.
Definition film_a : torrent := mkTorrent "aaaaaaaa11" (Some film).
Definition film_b : torrent := mkTorrent "bbbbbbbb22" (Some film).
Definition film_names : tops :=
  default ∅ (snd (top (snd (top (Some ∅) "Film.mkv" "aaaaaaaa11")) "Film.mkv" "bbbbbbbb22")).
Definition film_files : list string :=
  map (fun t => fst (filePath "/cache" (Some film_names) (t_hash t) film (mkFileInfo 4 [] [] "" 0))) [film_a; film_b].

#[local] Existing Instance ascii_unicode.

Definition film_world : world :=
  mkWorld [] (Some (listing "/cache" ids all_of whole unnamed film_names [film_a; film_b])) (list_to_set film_files) ∅ ∅.

(** A single file that shares its name with another held torrent's is stored
    under its name and hash but listed under its name alone, so the orphan
    cleanup takes it for nobody's and deletes it while the engine holds it; the
    other torrent's stays. *)
Theorem renamed_file_orphaned :
  film_files = ["/cache/Film.mkv"; "/cache/Film.mkv [bbbbbbbb]"] /\
  (forall f, f ∈ film_files -> f ∈ disk film_world) /\
  let r := orphans "/cache" [] calm film_world false None (Some ["Film.mkv"]) (engine film_world)
             (Some ["Film.mkv"; "Film.mkv [bbbbbbbb]"]) in
  r.2 = Some [("Film.mkv [bbbbbbbb]", 100)] /\
  "/cache/Film.mkv" ∈ disk r.1 /\ "/cache/Film.mkv [bbbbbbbb]" ∉ disk r.1.
Proof.
  split; [vm_compute; reflexivity|]. split; [intros f Hf; by apply elem_of_list_to_set|].
  split; [vm_compute; reflexivity|].
  split; apply (bool_decide_unpack _); vm_compute; exact I.
Qed.
