(* ===== verification/Jobs.v ===== *)
(** * Recurring work: internal/jobs/jobs.go

    The scheduler's jobs and what it remembers of each; the goroutines (one loop
    per job, one more for each run asked for by hand) are a step relation, every
    step one stretch of code under a lock or between two locks.  A run's outcome,
    the clock and the order of the steps are not the scheduler's to choose. *)
From stdpp Require Import base gmap strings list.
From Stdlib Require Import ZArith Lia Permutation.
From S2P Require Import Prelude Float64.

(** ** Data *)

Record Job := mkJob { j_Name : string; Every : Z; OnStart : bool; has_run : bool }.

(** Times are nanoseconds; [None] is the zero time. *)
Record entry := mkEntry {
  job : Job;
  running : bool;
  lastRun : option Z;
  lastOK : option Z;
  nextRun : option Z;
  runs : Z;
  failures : Z;
  lastErr : string;
  took : Z;
  consecutive : Z;
}.

Record Scheduler := mkScheduler { started : bool; entries : gmap string entry; order : list string }.

(** How a run ends: returning, or panicking. *)
Inductive outcome := Returned (err : option string) | Panics (value : string).

Inductive error := NoSuchJob | ErrRunning.

Record Status := mkStatus {
  s_Name : string; s_Every : Z; s_Running : bool; s_LastRun : option Z; s_LastOK : option Z;
  s_NextRun : option Z; s_Runs : Z; s_Failures : Z; s_LastErr : string; s_Took : option Z;
}.

(** ** Operations *)

Definition minute : Z := 60 * 1000000000.
Definition hour : Z := 60 * minute.

Definition New : Scheduler := mkScheduler false ∅ [].

Definition new_entry (j : Job) : entry := mkEntry j false None None None 0 0 "" 0 0.

Definition Add (s : Scheduler) (j : Job) : Scheduler :=
  if negb (has_run j) || String.eqb (j_Name j) "" then s
  else
    match entries s !! j_Name j with
    | Some _ => s
    | None => mkScheduler (started s) (<[j_Name j := new_entry j]> (entries s)) (order s ++ [j_Name j])
    end.

(** [math.Pow(2, n)] for a whole [n] is exact. *)
Definition backoff (base failures : Z) : Z :=
  let capped := Z.min failures 5 in
  let wait := to_i64 (fmul (of_int base) (of_int (2 ^ capped))) in
  Z.max (Z.min wait (6 * hour)) base.

Definition claim (now : Z) (e : entry) : option entry :=
  if running e then None
  else Some (mkEntry (job e) true (Some now) (lastOK e) (nextRun e) (runs e) (failures e) (lastErr e)
               (took e) (consecutive e)).

Definition safely (r : outcome) : option string :=
  match r with Returned err => err | Panics v => Some ("panic: " +:+ v) end.

(** What [finish] records of a run begun at [start]. *)
Definition finish (start now : Z) (e : entry) (r : outcome) : entry :=
  match safely r with
  | Some err =>
      mkEntry (job e) false (lastRun e) (lastOK e) (nextRun e) (runs e + 1) (failures e + 1) err
        (now - start) (consecutive e + 1)
  | None =>
      mkEntry (job e) false (lastRun e) (Some now) (nextRun e) (runs e + 1) (failures e) ""
        (now - start) 0
  end.

(** The wait a loop plans, and its record. *)
Definition wait_of (e : entry) : Z :=
  if 0 <? consecutive e then backoff (Every (job e)) (consecutive e) else Every (job e).

Definition plan (now : Z) (e : entry) : entry :=
  mkEntry (job e) (running e) (lastRun e) (lastOK e) (Some (now + wait_of e)) (runs e) (failures e)
    (lastErr e) (took e) (consecutive e).

Definition set_entry (s : Scheduler) (name : string) (e : entry) : Scheduler :=
  mkScheduler (started s) (<[name := e]> (entries s)) (order s).

(** [RunAs] up to the goroutine it starts. *)
Definition RunAs (now : Z) (s : Scheduler) (name : string) : Scheduler * option error :=
  match entries s !! name with
  | None => (s, Some NoSuchJob)
  | Some e =>
      match claim now e with
      | None => (s, Some ErrRunning)
      | Some e => (set_entry s name e, None)
      end
  end.

Definition status_of (name : string) (e : entry) : Status :=
  mkStatus name (Every (job e)) (running e) (lastRun e) (lastOK e) (nextRun e) (runs e) (failures e)
    (lastErr e) (if 0 <? took e then Some (took e) else None).

Definition status (s : Scheduler) : list Status :=
  omap (fun name => match entries s !! name with Some e => Some (status_of name e) | None => None end) (order s).

(** ** Goroutines *)

(** Where a job's loop is. *)
Inductive pc := Begin | Planning | Waiting (until : Z) | Running (start : Z).

(** [execute] up to the run itself: claimed, or refused. *)
Definition execute (now : Z) (s : Scheduler) (name : string) (e : entry) : Scheduler * pc :=
  match claim now e with
  | Some e => (set_entry s name e, Running now)
  | None => (s, Planning)
  end.

(** One turn of [loop] outside a run; [None] where it returns. *)
Definition loop_turn (now : Z) (s : Scheduler) (name : string) (at_ : pc) : option (Scheduler * pc) :=
  match entries s !! name with
  | None => None
  | Some e =>
      match at_ with
      | Begin => Some (if OnStart (job e) then execute now s name e else (s, Planning))
      | Planning => Some (set_entry s name (plan now e), Waiting (now + wait_of e))
      | Waiting t => Some (if t <=? now then execute now s name e else (s, Waiting t))
      | Running start => Some (s, Running start)
      end
  end.

(** The scheduler, its goroutines, the clock, and what every run so far came to,
    the latest first. *)
Record sys := mkSys {
  sched : Scheduler;
  loops : list (string * pc);
  flights : list (string * Z);
  clock : Z;
  history : list (string * option string);
}.

Definition set_sched (st : sys) (s : Scheduler) : sys := mkSys s (loops st) (flights st) (clock st) (history st).

Definition finished (st : sys) (name : string) (start : Z) (e : entry) (r : outcome) : Scheduler :=
  set_entry (sched st) name (finish start (clock st) e r).

Inductive step : sys -> sys -> Prop :=
  | step_add st j : step st (set_sched st (Add (sched st) j))
  | step_start st :
      step st (mkSys (mkScheduler true (entries (sched st)) (order (sched st)))
                 (loops st ++ map (fun name => (name, Begin)) (order (sched st)))
                 (flights st) (clock st) (history st))
  | step_turn st l1 l2 name at_ s' at' :
      loops st = l1 ++ (name, at_) :: l2 ->
      loop_turn (clock st) (sched st) name at_ = Some (s', at') ->
      step st (mkSys s' (l1 ++ (name, at') :: l2) (flights st) (clock st) (history st))
  | step_return st l1 l2 name at_ :
      loops st = l1 ++ (name, at_) :: l2 ->
      (loop_turn (clock st) (sched st) name at_ = None \/ exists t, at_ = Waiting t) ->
      step st (mkSys (sched st) (l1 ++ l2) (flights st) (clock st) (history st))
  | step_ran st l1 l2 name start e r :
      loops st = l1 ++ (name, Running start) :: l2 -> entries (sched st) !! name = Some e ->
      step st (mkSys (finished st name start e r) (l1 ++ (name, Planning) :: l2) (flights st) (clock st)
                 ((name, safely r) :: history st))
  | step_run st name s' :
      RunAs (clock st) (sched st) name = (s', None) ->
      step st (mkSys s' (loops st) ((name, clock st) :: flights st) (clock st) (history st))
  | step_landed st l1 l2 name start e r :
      flights st = l1 ++ (name, start) :: l2 -> entries (sched st) !! name = Some e ->
      step st (mkSys (finished st name start e r) (loops st) (l1 ++ l2) (clock st)
                 ((name, safely r) :: history st))
  | step_tick st t : clock st <= t -> step st (mkSys (sched st) (loops st) (flights st) t (history st)).

Definition init (t : Z) : sys := mkSys New [] [] t [].

Inductive reachable : sys -> Prop :=
  | reachable_init t : reachable (init t)
  | reachable_step st st' : reachable st -> step st st' -> reachable st'.

(** ** One run at a time *)

(** The jobs whose loop is in a run. *)
Fixpoint in_hand (l : list (string * pc)) : list string :=
  match l with
  | [] => []
  | (name, Running _) :: l' => name :: in_hand l'
  | _ :: l' => in_hand l'
  end.

(** The jobs with a run in hand, a loop's or one asked for. *)
Definition active (st : sys) : list string := in_hand (loops st) ++ map fst (flights st).

(** A loop's own part of them. *)
Definition run_at (name : string) (at_ : pc) : list string :=
  match at_ with Running _ => [name] | _ => [] end.

(** What the runs of a job came to, the latest first. *)
Definition outcomes (h : list (string * option string)) (name : string) : list (option string) :=
  map snd (List.filter (fun o => String.eqb (fst o) name) h).

Fixpoint failing (l : list (option string)) : Z :=
  match l with Some _ :: l' => 1 + failing l' | _ => 0 end.

Definition failed (l : list (option string)) : Z :=
  Z.of_nat (length (List.filter (fun o => match o with Some _ => true | None => false end) l)).

(** What is kept of a job agrees with its runs. *)
Definition recorded (h : list (option string)) (e : entry) : Prop :=
  runs e = Z.of_nat (length h) /\ failures e = failed h /\ consecutive e = failing h /\
  lastErr e = match h with Some err :: _ => err | _ => "" end.

(** Jobs on record are the ones listed, and no others have run. *)
Definition listed (s : Scheduler) (h : list (string * option string)) : Prop :=
  NoDup (order s) /\
  (forall name, name ∈ order s <-> is_Some (entries s !! name)) /\
  (forall name, outcomes h name <> [] -> is_Some (entries s !! name)).

(** The scheduler's invariant, for the runs in hand. *)
Record agrees (s : Scheduler) (act : list string) (h : list (string * option string)) : Prop := {
  ag_once : NoDup act;
  ag_running : forall name, name ∈ act <-> exists e, entries s !! name = Some e /\ running e = true;
  ag_recorded : forall name e, entries s !! name = Some e -> recorded (outcomes h name) e /\ j_Name (job e) = name;
  ag_listed : listed s h;
}.

#[local] Instance agrees_proper : Proper ((=) ==> (≡ₚ) ==> (=) ==> iff) agrees.
Proof.
  intros s _ <- a b Hp h _ <-. split; intros [H1 H2 H3 H4].
  - split; [by rewrite <- Hp|intros name; by rewrite <- Hp|done|done].
  - split; [by rewrite Hp|intros name; by rewrite Hp|done|done].
Qed.

Lemma listed_set s h name e e' : listed s h -> entries s !! name = Some e -> listed (set_entry s name e') h.
Proof.
  intros (Hnd & Ho & Hh) He. unfold listed, set_entry. simpl.
  refine (conj Hnd (conj _ _)); intros n; (destruct (decide (n = name)) as [->|Hn];
    [rewrite lookup_insert_eq|rewrite lookup_insert_ne by done; auto]).
  - rewrite Ho, He. by split; eauto.
  - eauto.
Qed.

(** A record rewritten without touching whether it runs or what it counts. *)
Lemma agrees_set s act h name e e' :
  agrees s act h -> entries s !! name = Some e -> running e' = running e -> job e' = job e ->
  (forall l, recorded l e -> recorded l e') -> agrees (set_entry s name e') act h.
Proof.
  intros [H1 H2 H3 H4] He Hr Hj Hrec. split; [done| | |by eapply listed_set]; simpl.
  - intros n. rewrite H2. destruct (decide (n = name)) as [->|Hn].
    + rewrite lookup_insert_eq, He. naive_solver congruence.
    + by rewrite lookup_insert_ne.
  - intros n x. destruct (decide (n = name)) as [->|Hn].
    + rewrite lookup_insert_eq. intros [= <-]. destruct (H3 name e He) as [? ?]. rewrite Hj. auto.
    + rewrite lookup_insert_ne by done. apply H3.
Qed.

Lemma agrees_claim s act h name e e' now :
  agrees s act h -> entries s !! name = Some e -> claim now e = Some e' ->
  agrees (set_entry s name e') (name :: act) h.
Proof.
  intros [H1 H2 H3 H4] He Hc. unfold claim in Hc.
  destruct (running e) eqn:Hr; [done|]. injection Hc as <-.
  assert (name ∉ act) as Hno by (rewrite H2; intros (x & Hx & Hrx); congruence).
  split; [by constructor| | |by eapply listed_set]; simpl.
  - intros n. rewrite elem_of_cons, H2. destruct (decide (n = name)) as [->|Hn].
    + rewrite lookup_insert_eq. naive_solver.
    + rewrite lookup_insert_ne by done. naive_solver.
  - intros n x. destruct (decide (n = name)) as [->|Hn].
    + rewrite lookup_insert_eq. intros [= <-]. by destruct (H3 name e He).
    + rewrite lookup_insert_ne by done. apply H3.
Qed.

Lemma outcomes_cons h name r n :
  outcomes ((name, r) :: h) n = if String.eqb name n then r :: outcomes h n else outcomes h n.
Proof. unfold outcomes. simpl. by destruct (String.eqb name n). Qed.

Lemma agrees_finish s act h name e start now r :
  agrees s (name :: act) h -> entries s !! name = Some e ->
  agrees (set_entry s name (finish start now e r)) act ((name, safely r) :: h).
Proof.
  intros [H1 H2 H3 H4] He. apply NoDup_cons in H1 as [Hno H1]. split; [done| | |]; simpl.
  - intros n. specialize (H2 n). rewrite elem_of_cons in H2. destruct (decide (n = name)) as [->|Hn].
    + rewrite lookup_insert_eq. split; [done|]. intros (x & [= <-] & Hx). unfold finish in Hx. by destruct (safely r).
    + rewrite lookup_insert_ne by done. naive_solver.
  - intros n x. rewrite outcomes_cons. destruct (String.eqb_spec name n) as [->|Hn].
    + rewrite lookup_insert_eq. intros [= <-]. destruct (H3 n e He) as [(Hruns & Hf & Hc & _) Hj].
      unfold recorded, finish, failed in *.
      destruct (safely r); simpl; rewrite Hruns, Hf, ?Hc; (split; [|done]); split_and!; try done; lia.
    + rewrite lookup_insert_ne by done. apply H3.
  - apply (listed_set s h name e (finish start now e r)) in H4 as (Hnd & Ho & Hh); [|done].
    refine (conj Hnd (conj Ho _)). intros n. rewrite outcomes_cons.
    destruct (String.eqb_spec name n) as [->|Hne]; [|apply Hh]. simpl. rewrite lookup_insert_eq. eauto.
Qed.

Lemma agrees_add s act h j : agrees s act h -> agrees (Add s j) act h.
Proof.
  intros Ha. unfold Add. destruct (_ || _); [done|].
  destruct (entries s !! j_Name j) as [e|] eqn:He; [done|].
  destruct Ha as [H1 H2 H3 (Hnd & Ho & Hh)].
  assert (outcomes h (j_Name j) = []) as Hnone.
  { destruct (outcomes h (j_Name j)) eqn:E; [done|]. destruct (Hh (j_Name j)) as [x Hx]; [by rewrite E|congruence]. }
  split; simpl; [done| | |refine (conj _ (conj _ _)); simpl].
  - intros n. rewrite H2. destruct (decide (n = j_Name j)) as [->|Hn].
    + rewrite lookup_insert_eq, He. naive_solver.
    + by rewrite lookup_insert_ne.
  - intros n x. destruct (decide (n = j_Name j)) as [->|Hn].
    + rewrite lookup_insert_eq, Hnone. by intros [= <-].
    + rewrite lookup_insert_ne by done. apply H3.
  - apply NoDup_app. split_and!; [done| |apply NoDup_singleton].
    intros n Hn ->%list_elem_of_singleton. apply Ho in Hn as [x Hx]. congruence.
  - intros n. rewrite elem_of_app, list_elem_of_singleton, Ho. destruct (decide (n = j_Name j)) as [->|Hn].
    + rewrite lookup_insert_eq. split; [eauto|by right].
    + rewrite lookup_insert_ne by done. naive_solver.
  - intros n Hn. destruct (decide (n = j_Name j)) as [->|Hne]; [rewrite lookup_insert_eq; eauto|].
    rewrite lookup_insert_ne by done. auto.
Qed.

Lemma in_hand_app a b : in_hand (a ++ b) = in_hand a ++ in_hand b.
Proof. induction a as [|[n []] a IH]; simpl; [done..|]. by rewrite IH. Qed.

Lemma active_loops l1 name at_ l2 (fl : list (string * Z)) :
  in_hand (l1 ++ (name, at_) :: l2) ++ map fst fl ≡ₚ run_at name at_ ++ (in_hand (l1 ++ l2) ++ map fst fl).
Proof.
  rewrite !in_hand_app. destruct at_; simpl; try done. by rewrite <- Permutation_middle.
Qed.

Lemma execute_agrees now s name e act h s' at' :
  agrees s act h -> entries s !! name = Some e -> execute now s name e = (s', at') ->
  agrees s' (run_at name at' ++ act) h.
Proof.
  intros Ha He. unfold execute. destruct (claim now e) as [e'|] eqn:Hc; intros [= <- <-]; [|done].
  by eapply agrees_claim.
Qed.

Lemma turn_agrees now s name at_ s' at' act h :
  agrees s (run_at name at_ ++ act) h ->
  loop_turn now s name at_ = Some (s', at') ->
  agrees s' (run_at name at' ++ act) h.
Proof.
  unfold loop_turn. intros Ha. destruct (entries s !! name) as [e|] eqn:He; [|done].
  destruct at_ as [| |t|start]; intros Ht; simpl in Ha.
  - destruct (OnStart (job e)); injection Ht as Ht; [by eapply execute_agrees|by simplify_eq].
  - injection Ht as <- <-. simpl. by eapply agrees_set.
  - destruct (t <=? now); injection Ht as Ht; [by eapply execute_agrees|by simplify_eq].
  - by injection Ht as <- <-.
Qed.

Lemma step_agrees st st' :
  step st st' -> agrees (sched st) (active st) (history st) -> agrees (sched st') (active st') (history st').
Proof.
  intros Hs Ha. destruct Hs as [st j|st|st l1 l2 name at_ s' at' Hl Ht|st l1 l2 name at_ Hl Hret
    |st l1 l2 name start e r Hl He|st name s' Hr|st l1 l2 name start e r Hl He|st t Ht];
    unfold active in *; simpl in *.
  - by apply agrees_add.
  - destruct Ha as [H1 H2 H3 H4]. rewrite in_hand_app.
    assert (in_hand (map (fun name => (name, Begin)) (order (sched st))) = []) as ->
      by (by induction (order (sched st))).
    rewrite app_nil_r. by split.
  - rewrite Hl, active_loops in Ha. rewrite active_loops. by eapply turn_agrees.
  - rewrite Hl, active_loops in Ha. destruct at_ as [| |t|start]; simpl in Ha; [done..|].
    destruct Hret as [Hret|[t Hret]]; [|done]. unfold loop_turn in Hret.
    destruct (entries (sched st) !! name) as [e|] eqn:He; [done|].
    exfalso.
    destruct (proj1 (ag_running _ _ _ Ha name)) as (x & Hx & _); [left|congruence].
  - rewrite Hl, active_loops in Ha. rewrite active_loops. simpl in *. by apply agrees_finish.
  - unfold RunAs in Hr. destruct (entries (sched st) !! name) as [e|] eqn:He; [|done].
    destruct (claim (clock st) e) as [e'|] eqn:Hc; [|done]. injection Hr as <-.
    rewrite <- Permutation_middle. by eapply agrees_claim.
  - assert (agrees (sched st) (name :: (in_hand (loops st) ++ map fst (l1 ++ l2))) (history st)) as Ha'.
    { rewrite Hl, !map_app in Ha. simpl in Ha. rewrite map_app. by rewrite <- !Permutation_middle in Ha. }
    by apply agrees_finish.
  - done.
Qed.

Lemma reachable_agrees st : reachable st -> agrees (sched st) (active st) (history st).
Proof.
  induction 1 as [t|st st' _ IH Hs]; [|by eapply step_agrees].
  split; simpl; [constructor| |done|].
  - intros name. split; [intros Hn; by apply not_elem_of_nil in Hn|by intros (e & He & _)].
  - split; [constructor|]. split; [|done]. intros name.
    split; [intros Hn; by apply not_elem_of_nil in Hn|by intros [e He]].
Qed.

(** However its loops, runs by hand and outcomes interleave, a job never has
    two runs in hand; it is marked running exactly while it has one, and a run
    asked for is refused exactly then; and its counts, its consecutive failures
    and its last error are those of the runs it has had. *)
Theorem reachable_scheduler (st : sys) (Hr : reachable st) :
  NoDup (active st) /\
  (forall name, name ∈ active st <->
     exists e, entries (sched st) !! name = Some e /\ running e = true) /\
  (forall name, (RunAs (clock st) (sched st) name).2 = Some ErrRunning <-> name ∈ active st) /\
  map s_Name (status (sched st)) = order (sched st) /\
  forall name e, entries (sched st) !! name = Some e ->
    let h := outcomes (history st) name in
    runs e = Z.of_nat (length h) /\ failures e = failed h /\ consecutive e = failing h /\
    lastErr e = match h with Some err :: _ => err | _ => "" end.
Proof.
  apply reachable_agrees in Hr as [H1 H2 H3 (_ & Hord & _)].
  refine (conj H1 (conj H2 (conj _ (conj _ _)))).
  - intros name. rewrite H2. unfold RunAs, claim.
    destruct (entries (sched st) !! name) as [e|] eqn:He.
    + destruct (running e) eqn:E; simpl; split; [eauto|done|done|].
      intros (x & [= <-] & Hx). congruence.
    + split; [done|]. by intros (x & Hx & _).
  - unfold status. assert (forall name, name ∈ order (sched st) -> is_Some (entries (sched st) !! name)) as Hall
      by (intros name; apply Hord). clear -Hall.
    induction (order (sched st)) as [|name l IH]; simpl; [done|].
    destruct (Hall name) as [e ->]; [left|]. simpl. f_equal. apply IH. intros n Hn. apply Hall. by right.
  - intros name e He. apply (H3 name e He).
Qed.

(** ** Backing off *)

(** The intervals of the jobs kuro registers. *)
Definition intervals : list Z := [2 * minute; 15 * minute; 30 * minute; 6 * hour; 24 * hour].

(** A failing job waits at least its own interval and at most six hours, or
    its interval where that is longer; for the intervals kuro uses the wait
    doubles with each failure up to thirty-two times, and a loop with no failure
    waits the interval itself. *)
Theorem backoff_spec :
  (forall base n, base <= backoff base n <= Z.max base (6 * hour)) /\
  (forall base n, base ∈ intervals -> 0 < n ->
     backoff base n = Z.max base (Z.min (base * 2 ^ Z.min n 5) (6 * hour))) /\
  forall e, Every (job e) <= wait_of e <= Z.max (Every (job e)) (6 * hour).
Proof.
  assert (forall base n, base <= backoff base n <= Z.max base (6 * hour)) as Hb by (intros; unfold backoff; lia).
  split; [exact Hb|]. split.
  - intros base n Hbase Hn. unfold backoff.
    assert (Z.min n 5 ∈ [1; 2; 3; 4; 5]) as Hm by (rewrite !elem_of_cons; lia).
    revert Hm. generalize (Z.min n 5) as m. intros m Hm.
    assert (to_i64 (fmul (of_int base) (of_int (2 ^ m))) = base * 2 ^ m) as ->; [|lia].
    unfold intervals in Hbase. rewrite !elem_of_cons in Hbase, Hm.
    destruct Hm as [->|[->|[->|[->|[->|Hm]]]]]; [..|by apply not_elem_of_nil in Hm];
      (destruct Hbase as [->|[->|[->|[->|[->|Hbase]]]]]; [..|by apply not_elem_of_nil in Hbase]);
      vm_compute; reflexivity.
  - intros e. unfold wait_of. destruct (0 <? consecutive e); [apply Hb|lia].
Qed.

(** A sweep that fails once, asked for while its loop waits. *)
Definition sweep_job : Job := mkJob "cache-sweep" (2 * minute) false true.

Lemma reachable_scheduler_witness :
  exists st, reachable st /\ active st = ["cache-sweep"] /\ history st = [("cache-sweep", Some "disk")] /\
    (RunAs (clock st) (sched st) "cache-sweep").2 = Some ErrRunning.
Proof.
  set (s0 := Add New sweep_job).
  set (st1 := set_sched (init 0) s0).
  set (s1 := (RunAs 0 s0 "cache-sweep").1).
  set (st2 := mkSys s1 [] [("cache-sweep", 0)] 0 []).
  set (s2 := set_entry s1 "cache-sweep" (finish 0 0 (default (new_entry sweep_job) (entries s1 !! "cache-sweep"))
                                           (Returned (Some "disk")))).
  set (st3 := mkSys s2 [] [] 0 [("cache-sweep", Some "disk")]).
  set (st4 := mkSys (RunAs 0 s2 "cache-sweep").1 [] [("cache-sweep", 0)] 0 [("cache-sweep", Some "disk")]).
  assert (reachable st4) as Hr.
  { apply (reachable_step st3 st4); [|apply (step_run st3); vm_compute; reflexivity].
    apply (reachable_step st2 st3);
      [|apply (step_landed st2 [] [] "cache-sweep" 0
          (default (new_entry sweep_job) (entries s1 !! "cache-sweep")) (Returned (Some "disk"))); vm_compute; reflexivity].
    apply (reachable_step st1 st2); [|apply (step_run st1); vm_compute; reflexivity].
    apply (reachable_step (init 0) st1); [constructor|apply step_add]. }
  exists st4. split; [exact Hr|]. split; [reflexivity|]. split; [reflexivity|].
  destruct (reachable_scheduler st4 Hr) as (_ & _ & Hrun & _). apply Hrun. left.
Defined.
