(* ===== verification/Rows.v ===== *)
(** * The download queue's table: internal/store/queue.go

    [download_queue] as a finite map from its primary key; each statement is a
    function from the table to the table and what it returns.  SQL leaves the
    order in which equal rows come to the engine: a query that orders rows takes
    the order the table was read in, [scan].  Clock readings are nanoseconds. *)
From stdpp Require Import base gmap strings list.
From Stdlib Require Import ZArith Lia.
From S2P Require Import Prelude GoStr.

(** ** Data *)

Inductive row_state := Pending | Active | Failed | Done.

#[export] Instance row_state_eq : EqDecision row_state.
Proof. solve_decision. Defined.

Abbreviation key := (Z * string)%type.

Record row := mkRow {
  episode : Z;
  season : Z;
  state : row_state;
  error : option string;
  queued_at : Z;
  started_at : option Z;
  info_hash : option string;
  release_name : option string;
  attempts : Z;
  retry_at : option Z;
}.

Abbreviation table := (gmap key row).

Record QueuedDownload := mkQueued {
  AnimeID : Z;
  EpKey : string;
  Episode : Z;
  Season : Z;
  State : row_state;
  Error : option string;
  Title : string;
  Cover : option string;
  InfoHash : string;
  Release : string;
  Attempts : Z;
  RetryAt : Z;
}.

Definition key_of (q : QueuedDownload) : key := (AnimeID q, EpKey q).

(** ** Clock and columns *)

Definition unix (now : Z) : Z := now / 1000000000.
Definition unix_milli (now : Z) : Z := now / 1000000.

Definition nullable (s : string) : option string := if String.eqb s "" then None else Some s.
Definition derefString (s : option string) : string := default "" s.

Definition set_state (r : row) (s : row_state) (err : option string) (started : option Z) : row :=
  mkRow (episode r) (season r) s err (queued_at r) started (info_hash r) (release_name r) (attempts r) (retry_at r).

(** ** Writing *)

(** [UPDATE ... WHERE anime_id = ? AND ep_key = ?] with a further condition, and
    whether it found its row. *)
Definition update (t : table) (k : key) (guard : row -> bool) (f : row -> row) : table * bool :=
  match t !! k with
  | Some r => if guard r then (<[k := f r]> t, true) else (t, false)
  | None => (t, false)
  end.

Definition is_active (r : row) : bool := bool_decide (state r = Active).
Definition is_pending (r : row) : bool := bool_decide (state r = Pending).

Definition SetQueuedRelease (t : table) (k : key) (infoHash name : string) : table * bool :=
  update t k (fun _ => true) (fun r =>
    mkRow (episode r) (season r) (if decide (state r = Failed) then Pending else state r) None (queued_at r)
      (started_at r) (nullable infoHash) (nullable name) 0 None).

(** The statement [Enqueue] runs for each episode. *)
Definition enqueue_one (now : Z) (animeID season : Z) (t : table) (ep : Z) : table :=
  let k := (animeID, itoa ep) in
  <[k := match t !! k with
         | None => mkRow ep season Pending None (unix now) None None None 0 None
         | Some r =>
             mkRow (episode r) (Rows.season r)
               (match state r with Failed | Done => Pending | s => s end) None (queued_at r) (started_at r)
               (info_hash r) (release_name r) 0 None
         end]> t.

Definition Enqueue (now : Z) (t : table) (animeID season : Z) (episodes : list Z) : table * Z :=
  if (animeID =? 0) || bool_decide (episodes = []) then (t, 0)
  else
    let eps := List.filter (fun e => negb (e <=? 0)) episodes in
    (foldl (enqueue_one now animeID season) t eps, Z.of_nat (length eps)).

(** ** The worker's statements *)

Definition due (milli : Z) (r : row) : bool :=
  is_pending r && match retry_at r with None => true | Some at_ => at_ <=? milli end.

(** [ORDER BY queued_at, episode] *)
Definition sooner (a b : row) : bool :=
  (queued_at a <? queued_at b) || ((queued_at a =? queued_at b) && (episode a <? episode b)).

Definition rows_in (scan : list key) (t : table) : list (key * row) :=
  omap (fun k => match t !! k with Some r => Some (k, r) | None => None end) scan.

(** [LIMIT 1]: the first of the rows read that none is before. *)
Fixpoint first_of (l : list (key * row)) : option (key * row) :=
  match l with
  | [] => None
  | x :: l' =>
      match first_of l' with
      | None => Some x
      | Some y => Some (if sooner y.2 x.2 then y else x)
      end
  end.

Definition first_due (scan : list key) (milli : Z) (t : table) : option (key * row) :=
  first_of (List.filter (fun x => due milli x.2) (rows_in scan t)).

Definition queued (k : key) (r : row) (s : row_state) : QueuedDownload :=
  mkQueued k.1 k.2 (episode r) (season r) s None "" None (derefString (info_hash r))
    (derefString (release_name r)) (attempts r) 0.

Definition NextQueued (scan : list key) (now : Z) (t : table) : table * option QueuedDownload :=
  match first_due scan (unix_milli now) t with
  | None => (t, None)
  | Some (k, r) =>
      (<[k := set_state r Active (error r) (Some (unix now))]> t, Some (queued k r Active))
  end.

Definition PeekQueued (scan : list key) (now : Z) (t : table) : option QueuedDownload :=
  match first_due scan (unix_milli now) t with
  | None => None
  | Some (k, r) =>
      Some (mkQueued k.1 k.2 (episode r) (season r) Pending None "" None (derefString (info_hash r)) "" 0 0)
  end.

Definition Defer (now : Z) (t : table) (k : key) (cause : string) (at_ : Z) : table :=
  fst (update t k is_active (fun r =>
    mkRow (episode r) (season r) Pending (Some cause) (unix now) None (info_hash r) (release_name r)
      (attempts r + 1) (Some (unix_milli at_)))).

Fixpoint min_of (l : list Z) : option Z :=
  match l with
  | [] => None
  | x :: l' => Some (match min_of l' with None => x | Some y => Z.min x y end)
  end.

(** In milliseconds. *)
Definition NextRetry (now : Z) (t : table) : option Z :=
  min_of (omap (fun x : key * row =>
    match retry_at x.2 with
    | Some at_ => if is_pending x.2 && (unix_milli now <? at_) then Some at_ else None
    | None => None
    end) (map_to_list t)).

Definition FinishQueued (t : table) (k : key) (cause : option string) : table :=
  match cause with
  | None => delete k t
  | Some err => fst (update t k (fun _ => true) (fun r => set_state r Failed (Some err) (started_at r)))
  end.

Definition RequeueActive (t : table) (k : key) : table * bool :=
  update t k is_active (fun r => set_state r Pending (error r) None).

Definition ResetActive (t : table) : table :=
  (fun r => if is_active r then set_state r Pending (error r) None else r) <$> t.

(** ** Moving, listing and dropping *)

Definition front (t : table) : option Z := min_of (map (fun x : key * row => queued_at x.2) (map_to_list t)).

Definition promote (t : table) (k : key) (states : list row_state) : table * bool :=
  update t k (fun r => bool_decide (state r ∈ states)) (fun r =>
    mkRow (episode r) (season r) (state r) (error r) (default (queued_at r) (front t) - 1) (started_at r)
      (info_hash r) (release_name r) (attempts r) None).

Definition Prioritise (t : table) (k : key) : table * bool := promote t k [Pending].
Definition Promote (t : table) (k : key) : table * bool := promote t k [Pending; Active].

Definition PickTitle (mode romaji : string) (english : option string) : string :=
  match english with
  | Some e =>
      if String.eqb mode "english" && negb (String.eqb e "") then e
      else if negb (String.eqb romaji "") then romaji else e
  | None => romaji
  end.

(** A show as the listing's join finds it. *)
Record anime := mkAnime { title_romaji : string; title_english : option string; cover_url : option string }.

Definition listed_before (a b : key * row) : bool :=
  match is_active a.2, is_active b.2 with
  | true, false => true
  | false, true => false
  | _, _ => sooner a.2 b.2
  end.

Definition listed_row (mode : string) (shows : gmap Z anime) (x : key * row) : QueuedDownload :=
  let (k, r) := x in
  mkQueued k.1 k.2 (episode r) (season r) (state r) (error r)
    (match shows !! k.1 with
     | Some a => PickTitle mode (title_romaji a) (title_english a)
     | None => ""
     end)
    (match shows !! k.1 with Some a => cover_url a | None => None end)
    (derefString (info_hash r)) (derefString (release_name r)) (attempts r) (default 0 (retry_at r)).

Definition QueuedDownloads (scan : list key) (mode : string) (shows : gmap Z anime) (t : table) :
    list QueuedDownload :=
  map (listed_row mode shows) (take 500 (sort_by listed_before (rows_in scan t))).

Definition Dequeue (t : table) (animeID : Z) (epKey : string) : table * Z :=
  let hit (k : key) := (k.1 =? animeID) && (String.eqb epKey "" || String.eqb k.2 epKey) in
  let t' := filter (fun x : key * row => negb (hit x.1) = true) t in
  (t', Z.of_nat (size t) - Z.of_nat (size t')).

Definition ClearQueue (t : table) : table * Z :=
  let t' := filter (fun x : key * row => is_active x.2 = true) t in
  (t', Z.of_nat (size t) - Z.of_nat (size t')).

(** ** Lemmas *)

Lemma update_lookup t k guard f k' :
  fst (update t k guard f) !! k' =
    if decide (k = k') then (fun r => if guard r then f r else r) <$> t !! k' else t !! k'.
Proof.
  unfold update. destruct (decide (k = k')) as [<-|Hne].
  - destruct (t !! k) as [r|] eqn:E; [|cbn [fst]; by rewrite E].
    destruct (guard r) eqn:G; cbn [fst].
    + rewrite lookup_insert_eq. cbn. by rewrite G.
    + rewrite E. cbn. by rewrite G.
  - destruct (t !! k) as [r|]; [|done]. destruct (guard r); [|done].
    cbn [fst]. by rewrite lookup_insert_ne.
Qed.

Lemma update_found t k guard f : snd (update t k guard f) = true -> exists r, t !! k = Some r /\ guard r = true.
Proof. unfold update. destruct (t !! k) as [r|]; [|done]. destruct (guard r) eqn:E; [eauto|done]. Qed.

(** An order in which the table's rows can be read. *)
Definition reads (scan : list key) (t : table) : Prop := scan ≡ₚ map fst (map_to_list t).

Lemma elem_of_reads scan t k : reads scan t -> k ∈ scan <-> is_Some (t !! k).
Proof.
  intros Hs. rewrite Hs, list_elem_of_fmap. split.
  - intros ([k' r] & -> & Hx%elem_of_map_to_list). eauto.
  - intros [r Hr]. exists (k, r). split; [done|]. by apply elem_of_map_to_list.
Qed.

Lemma update_reads scan t k guard f : reads scan t -> reads scan (fst (update t k guard f)).
Proof.
  intros Hs. apply list.NoDup_Permutation.
  - rewrite Hs. apply NoDup_fst_map_to_list.
  - apply NoDup_fst_map_to_list.
  - intros k'. rewrite (elem_of_reads scan t) by done.
    rewrite (elem_of_reads (map fst (map_to_list (fst (update t k guard f)))) _ k') by (unfold reads; done).
    rewrite update_lookup. destruct (decide (k = k')) as [<-|]; [|done].
    by destruct (t !! k).
Qed.

Lemma rows_in_spec scan t x : reads scan t -> x ∈ rows_in scan t <-> t !! x.1 = Some x.2.
Proof.
  intros Hs. unfold rows_in. rewrite list_elem_of_omap. split.
  - intros (k & _ & Hk). destruct (t !! k) eqn:E; [|done]. by injection Hk as <-.
  - intros Hx. exists x.1. rewrite Hx. split; [|by destruct x].
    apply (elem_of_reads scan t); eauto.
Qed.

Lemma sooner_spec a b :
  sooner a b = true <-> queued_at a < queued_at b \/ (queued_at a = queued_at b /\ episode a < episode b).
Proof. unfold sooner. rewrite orb_true_iff, andb_true_iff, !Z.ltb_lt, Z.eqb_eq. done. Qed.

Lemma not_sooner_spec a b :
  sooner a b = false <-> ~ (queued_at a < queued_at b \/ (queued_at a = queued_at b /\ episode a < episode b)).
Proof. rewrite <- sooner_spec. by destruct (sooner a b). Qed.

Lemma sooner_trans_neg a b c : sooner b a = false -> sooner c b = false -> sooner c a = false.
Proof. rewrite !not_sooner_spec. lia. Qed.

Lemma sooner_irrefl a : sooner a a = false.
Proof. rewrite not_sooner_spec. lia. Qed.

Lemma sooner_asym a b : sooner a b = true -> sooner b a = false.
Proof. rewrite not_sooner_spec, sooner_spec. lia. Qed.

Lemma first_of_none l : first_of l = None <-> l = [].
Proof. destruct l as [|x l]; simpl; [done|]. by destruct (first_of l). Qed.

Lemma first_of_some l x : first_of l = Some x -> x ∈ l /\ forall y, y ∈ l -> sooner y.2 x.2 = false.
Proof.
  revert x. induction l as [|z l IH]; intros x; simpl; [done|].
  destruct (first_of l) as [w|] eqn:E.
  - destruct (IH w eq_refl) as [Hw Hmin]. destruct (sooner w.2 z.2) eqn:Hb; intros [= <-].
    + split; [by right|]. intros y [->|Hy]%elem_of_cons; [by apply sooner_asym|auto].
    + split; [by left|]. intros y [->|Hy]%elem_of_cons; [apply sooner_irrefl|].
      by eapply sooner_trans_neg, Hmin.
  - intros [= <-]. apply first_of_none in E as ->. split; [by left|].
    intros y [->|Hy]%elem_of_cons; [apply sooner_irrefl|by apply not_elem_of_nil in Hy].
Qed.

Section first_due.
Context (scan : list key) (t : table) (milli : Z).
Context (Hscan : reads scan t).

Lemma first_due_some k r :
  first_due scan milli t = Some (k, r) ->
  t !! k = Some r /\ due milli r = true /\
  forall k' r', t !! k' = Some r' -> due milli r' = true -> sooner r' r = false.
Proof using Hscan.
  intros [[Hin Hd]%elem_of_filter_b Hmin]%first_of_some. apply rows_in_spec in Hin; [|done].
  refine (conj Hin (conj Hd _)). intros k' r' Hk' Hd'. apply (Hmin (k', r')).
  apply elem_of_filter_b. split; [|done]. by apply rows_in_spec.
Qed.

Lemma first_due_none :
  first_due scan milli t = None -> forall k r, t !! k = Some r -> due milli r = false.
Proof using Hscan.
  intros Hn%first_of_none k r Hk. destruct (due milli r) eqn:Hd; [|done].
  assert ((k, r) ∈ List.filter (fun x => due milli x.2) (rows_in scan t)) as Hin
    by (apply elem_of_filter_b; split; [by apply rows_in_spec|done]).
  rewrite Hn in Hin. by apply not_elem_of_nil in Hin.
Qed.

(** The only row no other is strictly after is the one found. *)
Lemma first_due_least k r :
  t !! k = Some r -> due milli r = true ->
  (forall k' r', t !! k' = Some r' -> k' <> k -> sooner r r' = true) ->
  first_due scan milli t = Some (k, r).
Proof using Hscan.
  intros Hk Hd Hl. destruct (first_due scan milli t) as [[k' r']|] eqn:E.
  - apply first_due_some in E as (Hk' & Hd' & Hmin). destruct (decide (k' = k)) as [->|Hne].
    + congruence.
    + specialize (Hl k' r' Hk' Hne). rewrite (Hmin k r Hk Hd) in Hl. done.
  - by rewrite (first_due_none E k r Hk) in Hd.
Qed.
End first_due.

Lemma min_of_spec l m : min_of l = Some m -> m ∈ l /\ forall x, x ∈ l -> m <= x.
Proof.
  revert m. induction l as [|x l IH]; intros m; simpl; [done|]. intros [= <-].
  destruct (min_of l) as [y|] eqn:E.
  - destruct (IH y eq_refl) as [Hy Hm]. split.
    + apply elem_of_cons. destruct (Z.min_spec x y) as [[_ ->]|[_ ->]]; auto.
    + intros z [->|Hz]%elem_of_cons; [lia|]. specialize (Hm z Hz). lia.
  - destruct l; [|by simpl in E; destruct (min_of l)]. split; [by left|].
    intros z ->%list_elem_of_singleton. lia.
Qed.

Lemma min_of_none l : min_of l = None <-> l = [].
Proof. by destruct l. Qed.

(** Wherever it waited, a promoted row ends before every other. *)
Lemma promote_front t k states t' :
  promote t k states = (t', true) ->
  exists r r', t !! k = Some r /\ t' !! k = Some r' /\ state r' = state r /\ retry_at r' = None /\
  state r ∈ states /\ forall k2 r2, t' !! k2 = Some r2 -> k2 <> k -> sooner r' r2 = true.
Proof.
  intros Hp. unfold promote, update in Hp. destruct (t !! k) as [r|] eqn:Hk; [|done].
  destruct (bool_decide _) eqn:Hs; [|done]. injection Hp as <-. bool_prop.
  exists r. rewrite lookup_insert_eq. eexists. split_and!; try done. simpl.
  intros k2 r2 Hk2 Hne. rewrite lookup_insert_ne in Hk2 by done.
  apply sooner_spec. left. simpl. unfold front.
  destruct (min_of _) as [m|] eqn:Hm; simpl.
  - apply min_of_spec in Hm as [_ Hm]. assert (m <= queued_at r2); [|lia]. apply Hm.
    apply list_elem_of_fmap. exists (k2, r2). split; [done|]. by apply elem_of_map_to_list.
  - apply min_of_none in Hm. assert (queued_at r2 ∈ @nil Z) as Hin; [|by apply not_elem_of_nil in Hin].
    rewrite <- Hm. apply list_elem_of_fmap. exists (k2, r2). split; [done|]. by apply elem_of_map_to_list.
Qed.

(** *** What no statement but the worker's own can do

    Nothing but a claim makes a row active, and nothing but [Defer] counts a try. *)
Definition modest (t t' : table) : Prop :=
  forall k r', t' !! k = Some r' ->
    (state r' = Active -> exists r, t !! k = Some r /\ state r = Active) /\
    (attempts r' = 0 \/ exists r, t !! k = Some r /\ attempts r' = attempts r).

#[export] Instance modest_preorder : PreOrder modest.
Proof.
  split.
  - intros t k r Hr. split; [eauto|]. right. eauto.
  - intros t1 t2 t3 H12 H23 k r3 Hr3. destruct (H23 k r3 Hr3) as [Ha Ht]. split.
    + intros Hs. destruct (Ha Hs) as (r2 & Hr2 & Hs2). by apply (H12 k r2).
    + destruct Ht as [Ht|(r2 & Hr2 & ->)]; [by left|]. by apply (H12 k r2).
Qed.

Lemma modest_update t k guard f :
  (forall r, guard r = true -> (state (f r) = Active -> state r = Active) /\
    (attempts (f r) = 0 \/ attempts (f r) = attempts r)) ->
  modest t (fst (update t k guard f)).
Proof.
  intros Hf k' r' Hr'. rewrite update_lookup in Hr'. destruct (decide (k = k')) as [<-|]; [|split; eauto].
  destruct (t !! k) as [r|]; [|done]. injection Hr' as <-. destruct (guard r) eqn:G; [|split; eauto].
  destruct (Hf r G) as [Hs Ht]. split; [eauto|]. destruct Ht as [Ht|Ht]; eauto.
Qed.

Lemma modest_filter (P : key * row -> Prop) `{!forall x, Decision (P x)} t : modest t (filter P t).
Proof. intros k r [Hr _]%map_lookup_filter_Some. split; eauto. Qed.

Lemma modest_promote t k states : modest t (fst (promote t k states)).
Proof. apply modest_update. auto. Qed.

Lemma modest_SetQueuedRelease t k hash name : modest t (fst (SetQueuedRelease t k hash name)).
Proof. apply modest_update. intros r _. simpl. split; [|by left]. by destruct (decide _). Qed.

Lemma modest_RequeueActive t k : modest t (fst (RequeueActive t k)).
Proof. apply modest_update. intros r _. split; [discriminate|by right]. Qed.

Lemma modest_enqueue_one now a season t ep : modest t (enqueue_one now a season t ep).
Proof.
  intros k r Hr. unfold enqueue_one in Hr. destruct (decide ((a, itoa ep) = k)) as [<-|Hne].
  - rewrite lookup_insert_eq in Hr. injection Hr as <-.
    destruct (t !! (a, itoa ep)) as [r|] eqn:E; simpl; [|by split; [|left]].
    split; [|by left]. intros Hs. exists r. split; [done|]. by destruct (state r).
  - rewrite lookup_insert_ne in Hr by done. split; eauto.
Qed.

Lemma modest_Enqueue now t a season eps : modest t (fst (Enqueue now t a season eps)).
Proof.
  unfold Enqueue. destruct (_ || _); [done|]. simpl. generalize (List.filter (fun e => negb (e <=? 0)) eps) as l.
  intros l. revert t. induction l as [|e l IH]; intros t; simpl; [done|].
  etransitivity; [apply modest_enqueue_one|apply IH].
Qed.

Lemma modest_FinishQueued t k cause : modest t (FinishQueued t k cause).
Proof.
  destruct cause; simpl; [apply modest_update; auto; intros; split; [discriminate|by right]|].
  intros k' r [_ Hr]%lookup_delete_Some. split; eauto.
Qed.

Lemma modest_ResetActive t : modest t (ResetActive t).
Proof.
  intros k r' Hr'. unfold ResetActive in Hr'. rewrite lookup_fmap in Hr'.
  destruct (t !! k) as [r|]; [|done]. injection Hr' as <-. destruct (is_active r) eqn:E; split; eauto; done.
Qed.

Lemma ResetActive_none t k r : ResetActive t !! k = Some r -> state r <> Active.
Proof.
  unfold ResetActive. rewrite lookup_fmap. destruct (t !! k) as [r0|]; [|done]. intros [= <-].
  destruct (is_active r0) eqn:E; [done|]. unfold is_active in E. by bool_prop.
Qed.

(** What the worker's statements do to the row in hand, and to no other. *)
Lemma RequeueActive_at t k r : (RequeueActive t k).1 !! k = Some r -> state r <> Active.
Proof.
  unfold RequeueActive. rewrite update_lookup, decide_True by done. destruct (t !! k) as [r0|]; [|done].
  intros [= <-]. destruct (is_active r0) eqn:E; [done|]. unfold is_active in E. by bool_prop.
Qed.

Lemma FinishQueued_at t k cause r : FinishQueued t k cause !! k = Some r -> state r = Failed.
Proof.
  destruct cause; simpl; [|by rewrite lookup_delete_eq]. rewrite update_lookup, decide_True by done.
  destruct (t !! k); [|done]. by intros [= <-].
Qed.

Lemma Defer_at now t k why at_ r :
  Defer now t k why at_ !! k = Some r ->
  state r <> Active /\ exists r0, t !! k = Some r0 /\
    (if is_active r0 then state r = Pending /\ attempts r = attempts r0 + 1 else r = r0).
Proof.
  unfold Defer. rewrite update_lookup, decide_True by done. destruct (t !! k) as [r0|]; [|done].
  intros [= <-]. destruct (is_active r0) eqn:E.
  - split; [done|]. exists r0. by rewrite E.
  - unfold is_active in E. bool_prop. split; [done|]. exists r0. split; [done|].
    unfold is_active. by rewrite bool_decide_eq_false_2.
Qed.

Lemma Defer_other now t k why at_ k' : k' <> k -> Defer now t k why at_ !! k' = t !! k'.
Proof. intros Hne. unfold Defer. rewrite update_lookup. by rewrite decide_False. Qed.

Lemma FinishQueued_other t k cause k' : k' <> k -> FinishQueued t k cause !! k' = t !! k'.
Proof.
  intros Hne. destruct cause; simpl; [rewrite update_lookup; by rewrite decide_False|by rewrite lookup_delete_ne].
Qed.

Lemma RequeueActive_other t k k' : k' <> k -> (RequeueActive t k).1 !! k' = t !! k'.
Proof. intros Hne. unfold RequeueActive. rewrite update_lookup. by rewrite decide_False. Qed.

Lemma NextQueued_claims scan now t t' q :
  reads scan t -> NextQueued scan now t = (t', Some q) ->
  exists r, t !! key_of q = Some r /\ state r = Pending /\ due (unix_milli now) r = true /\
    Attempts q = attempts r /\ t' = <[key_of q := set_state r Active (error r) (Some (unix now))]> t.
Proof.
  intros Hs. unfold NextQueued. destruct (first_due scan _ t) as [[k r]|] eqn:E; [|done].
  intros [= <- <-]. apply first_due_some in E as (Hk & Hd & _); [|done].
  assert (key_of (queued k r Active) = k) as -> by by destruct k.
  exists r. split_and!; try done. unfold due, is_pending in Hd. by bool_prop.
Qed.

(** The worker claims the first episode that is due, in the queue's order:
    it is waiting, its time has come, no other due episode is before it, its row
    alone changes, and what the worker is told is what the row said (a chosen
    release included).  It claims nothing only when nothing is due, and looking
    ahead sees exactly what would be claimed. *)
Theorem NextQueued_spec scan now t (Hscan : reads scan t) :
  match NextQueued scan now t with
  | (t', Some q) =>
      exists r, t !! key_of q = Some r /\ state r = Pending /\ due (unix_milli now) r = true /\
      (forall k r', t !! k = Some r' -> due (unix_milli now) r' = true -> sooner r' r = false) /\
      t' = <[key_of q := set_state r Active (error r) (Some (unix now))]> t /\
      Episode q = episode r /\ Season q = season r /\ Attempts q = attempts r /\
      InfoHash q = derefString (info_hash r) /\
      (exists p, PeekQueued scan now t = Some p /\ key_of p = key_of q /\ InfoHash p = InfoHash q)
  | (t', None) =>
      t' = t /\ PeekQueued scan now t = None /\ forall k r, t !! k = Some r -> due (unix_milli now) r = false
  end.
Proof.
  unfold NextQueued, PeekQueued. destruct (first_due _ _ _) as [[k r]|] eqn:E.
  - apply first_due_some in E as (Hk & Hd & Hmin); [|done].
    assert (key_of (queued k r Active) = k) as Hkey by by destruct k.
    exists r. rewrite Hkey. split_and!; try done.
    + unfold due, is_pending in Hd. by bool_prop.
    + eexists. split; [done|]. by destruct k.
  - split_and!; [done..|]. by apply first_due_none with (scan := scan).
Qed.

(** Asking for an episode now puts it first: if it was waiting, the worker's
    next claim is that episode, whatever else waits, however long it was told to
    wait after a failed try, and however equal rows are ordered. *)
Theorem Prioritise_next scan now t k t' (Hscan : reads scan t)
    (Hp : Prioritise t k = (t', true)) :
  exists q, snd (NextQueued scan now t') = Some q /\ key_of q = k /\
  (forall k', k' <> k -> t' !! k' = t !! k').
Proof.
  destruct (promote_front t k [Pending] t' Hp) as (r & r' & Hk & Hk' & Hs & Hr & Hin & Hfront).
  apply list_elem_of_singleton in Hin.
  assert (reads scan t') as Hscan'.
  { replace t' with (fst (Prioritise t k)) by by rewrite Hp. by apply update_reads. }
  exists (queued k r' Active). unfold NextQueued.
  rewrite (first_due_least scan t' (unix_milli now) Hscan' k r' Hk'); [|..|exact Hfront].
  - split_and!; [done|by destruct k|]. intros k' Hne.
    replace t' with (fst (Prioritise t k)) by by rewrite Hp.
    unfold Prioritise, promote. rewrite update_lookup. by rewrite decide_False.
  - unfold due, is_pending. rewrite Hs, Hin, Hr. done.
Qed.

(** *** At concrete tables *)

Definition two_waiting : table :=
  fst (Enqueue 5000000000 ∅ 7 1 [1; 2]).

Definition backwards : list key := [(7, "2"); (7, "1")].

Lemma backwards_scan : reads backwards two_waiting.
Proof.
  assert (map fst (map_to_list two_waiting) = [(7, "1"); (7, "2")]) as Hl by (vm_compute; reflexivity).
  unfold reads. rewrite Hl. constructor.
Qed.

Lemma NextQueued_spec_witness :
  exists t' q, NextQueued backwards 6000000000 two_waiting = (t', Some q) /\ key_of q = (7, "1") /\
  exists r, two_waiting !! key_of q = Some r /\ t' = <[key_of q := set_state r Active (error r) (Some (unix 6000000000))]> two_waiting.
Proof.
  pose proof (NextQueued_spec backwards 6000000000 two_waiting backwards_scan) as H.
  destruct (NextQueued backwards 6000000000 two_waiting) as [t' [q|]] eqn:E.
  - exists t', q. split; [done|]. split; [vm_compute in E; by injection E as <- <-|].
    destruct H as (r & Hr & _ & _ & _ & Ht & _). exists r. by split.
  - vm_compute in E. discriminate.
Defined.

Lemma Prioritise_next_witness :
  exists q, snd (NextQueued backwards 6000000000 (fst (Prioritise two_waiting (7, "2")))) = Some q /\
  key_of q = (7, "2").
Proof.
  destruct (Prioritise_next backwards 6000000000 two_waiting (7, "2") (fst (Prioritise two_waiting (7, "2")))
              backwards_scan) as (q & Hq & Hk & _); [vm_compute; reflexivity|].
  exists q. by split.
Defined.
