(* ===== verification/Queue.v ===== *)
(** * The download queue's worker: internal/library/queue.go

    One goroutine, [Run], takes the table's episodes one at a time ([work] is one
    stretch of it, between two locks or statements), while requests and streams
    act on the queue from others: a call is the list of its own atomic steps
    ([atom]), so that every interleaving of them is a path of [step].  What a
    download came to, what the database refuses and how long things take are not
    the queue's to choose: they are the arguments of a step. *)
From stdpp Require Import base gmap strings list.
From Stdlib Require Import ZArith Lia.
From S2P Require Import Prelude GoStr Rows.

(** ** Data *)

Record inFlight := mkFlight { animeID : Z; epKey : string; run : nat }.

(** [run] names the context that the flight's [stop] cancels. *)
Definition flight_key (f : inFlight) : key := (animeID f, epKey f).

Definition session_of (k : key) : string := (itoa k.1 +:+ "-") +:+ k.2.
Definition session (f : inFlight) : string := session_of (flight_key f).

Record Downloader := mkDownloader {
  current : option inFlight;
  userPaused : gset string;
  watching : gset string;
  paused : bool;
  wake : bool;
}.

Definition NewDownloader : Downloader := mkDownloader None ∅ ∅ false false.

(** An error of a download, as [errors.Is] and [errors.As] see it. *)
Record StallError := mkStall { Percent : string; Quiet : Z }.
Record failure := mkFailure {
  is_paused : bool;
  is_silent : bool;
  as_stall : option StallError;
  text : string;
}.

Definition second : Z := 1000000000.
Definition minute : Z := 60 * second.
Definition queueIdle : Z := 30 * second.
Definition queueRetries : Z := 2.
Definition queueRetryDelay : Z := 5 * minute.

(** Where the worker is. *)
Inductive pc :=
  | Booting
  | Restoring
  | Top
  | Asking
  | Claimed (q : QueuedDownload)
  | Fetching (q : QueuedDownload) (id : nat)
  | Fetched (q : QueuedDownload) (id : nat) (err : option failure)
  | Settling (q : QueuedDownload) (id : nat) (err : option failure)
  | AskingPaused (q : QueuedDownload)
  | Finishing (q : QueuedDownload) (cause : option string)
  | Resting
  | Waiting (until : Z)
  | Returned.

(** ** Reading an error *)

Definition swarmFailure (err : failure) : bool :=
  is_silent err || match as_stall err with Some _ => true | None => false end.

Definition plural (n : Z) : string := if n =? 1 then "" else "s".

(** [Duration.Round] to the minute, and the minutes of it. *)
Definition round_minutes (d : Z) : Z :=
  if d <? 0 then - ((- d + minute / 2) / minute) else (d + minute / 2) / minute.

Definition ErrSeedersSilent : string := "the seeders never answered".

Definition describe (err : failure) : string :=
  match as_stall err with
  | Some stall =>
      let minutes := Z.max 1 (round_minutes (Quiet stall)) in
      "no peers sent anything for " +:+ itoa minutes +:+ " minute" +:+ plural minutes +:+ "; " +:+
      Percent stall +:+ "% is on disk"
  | None => if is_silent err then ErrSeedersSilent else text err
  end.

(** ** The system *)

(** The steps of a call that other goroutines can come between. *)
Inductive atom :=
  | APrioritise (k : key)
  | APromote (k : key)
  | AStopOther (k : key)
  | AStopCurrent
  | AStop (id : nat)
  | ASetting (b : bool)
  | ASetPaused (b : bool)
  | AHold (sid : string)
  | ARelease (sid : string)
  | AWake
  | ADequeue (a : Z) (e : string)
  | ACancelStop (a : Z) (e : string)
  | ASetUserPaused (hash : string) (b : bool)
  | AEnqueue (a season : Z) (eps : list Z)
  | ASetQueuedRelease (k : key) (hash name : string)
  | AClearQueue.

#[export] Instance atom_eq : EqDecision atom.
Proof. solve_decision. Defined.

Record sys := mkSys {
  queue : table;
  setting : option string;
  dl : Downloader;
  worker : pc;
  calls : list (list atom);
  clock : Z;
  runs : nat;
  cancelled : gset nat;
  closing : bool;
}.

Definition with_queue (s : sys) (t : table) : sys :=
  mkSys t (setting s) (dl s) (worker s) (calls s) (clock s) (runs s) (cancelled s) (closing s).
Definition with_dl (s : sys) (d : Downloader) : sys :=
  mkSys (queue s) (setting s) d (worker s) (calls s) (clock s) (runs s) (cancelled s) (closing s).
Definition with_worker (s : sys) (p : pc) : sys :=
  mkSys (queue s) (setting s) (dl s) p (calls s) (clock s) (runs s) (cancelled s) (closing s).
Definition with_calls (s : sys) (c : list (list atom)) : sys :=
  mkSys (queue s) (setting s) (dl s) (worker s) c (clock s) (runs s) (cancelled s) (closing s).
Definition with_setting (s : sys) (v : string) : sys :=
  mkSys (queue s) (Some v) (dl s) (worker s) (calls s) (clock s) (runs s) (cancelled s) (closing s).
Definition cancel_run (s : sys) (id : nat) : sys :=
  mkSys (queue s) (setting s) (dl s) (worker s) (calls s) (clock s) (runs s) ({[id]} ∪ cancelled s) (closing s).
Definition with_clock (s : sys) (t : Z) : sys :=
  mkSys (queue s) (setting s) (dl s) (worker s) (calls s) t (runs s) (cancelled s) (closing s).

Definition set_current (d : Downloader) (c : option inFlight) : Downloader :=
  mkDownloader c (userPaused d) (watching d) (paused d) (wake d).
Definition set_watching (d : Downloader) (w : gset string) : Downloader :=
  mkDownloader (current d) (userPaused d) w (paused d) (wake d).
Definition set_paused (d : Downloader) (b : bool) : Downloader :=
  mkDownloader (current d) (userPaused d) (watching d) b (wake d).
Definition set_userPaused (d : Downloader) (u : gset string) : Downloader :=
  mkDownloader (current d) u (watching d) (paused d) (wake d).
Definition set_wake (d : Downloader) (b : bool) : Downloader :=
  mkDownloader (current d) (userPaused d) (watching d) (paused d) b.

(** ** Calls *)

Definition SetPaused (b : bool) : list atom := [ASetting b; ASetPaused b].
Definition Now (k : key) : list atom := [APrioritise k; AStopOther k] ++ SetPaused false.
Definition Restart (k : key) : list atom := [APromote k; AStopCurrent] ++ SetPaused false.
Definition Hold (sid : string) : list atom := [AHold sid].
Definition Release (sid : string) : list atom := [ARelease sid].
Definition Cancel (a : Z) (e : string) : list atom := [ADequeue a e; ACancelStop a e].
Definition SetUserPaused (hash : string) (b : bool) : list atom := [ASetUserPaused hash b].

(** What the server's handlers and the watcher run: downloads asked for
    ([downloadEpisode] and the like), a release chosen ([chooseRelease]). *)
Inductive request :=
  | RSetPaused (b : bool)
  | RNow (k : key)
  | RHold (sid : string)
  | RRelease (sid : string)
  | RCancel (a : Z) (e : string)
  | RSetUserPaused (hash : string) (b : bool)
  | REnqueue (a season : Z) (eps : list Z)
  | RChoose (a season ep : Z) (hash name : string)
  | RClear.

Definition program (r : request) : list atom :=
  match r with
  | RSetPaused b => SetPaused b
  | RNow k => Now k
  | RHold sid => Hold sid
  | RRelease sid => Release sid
  | RCancel a e => Cancel a e
  | RSetUserPaused h b => SetUserPaused h b
  | REnqueue a season eps => [AEnqueue a season eps; AWake]
  | RChoose a season ep hash name =>
      [AEnqueue a season [ep]; ASetQueuedRelease (a, itoa ep) hash name] ++ Restart (a, itoa ep) ++ [AWake]
  | RClear => [AClearQueue]
  end.

Definition stop_of (c : option inFlight) : list atom :=
  match c with Some f => [AStop (run f)] | None => [] end.

Section queue.
Context `{Unicode}.

(** One atom: the state after it, and what the call has yet to do on its account;
    [None] where the call returns early.  [ok]: the database does as it is told. *)
Definition exec (ok : bool) (a : atom) (s : sys) : sys * option (list atom) :=
  let d := dl s in
  let write (r : table * bool) : sys * option (list atom) :=
    if ok then (with_queue s r.1, if r.2 then Some [] else None) else (s, None) in
  let always (t : table) : sys * option (list atom) :=
    if ok then (with_queue s t, Some []) else (s, None) in
  match a with
  | APrioritise k => write (Prioritise (queue s) k)
  | APromote k => write (Promote (queue s) k)
  | AStopOther k =>
      (s, Some (match current d with
                | Some f => if decide (flight_key f = k) then [] else [AStop (run f)]
                | None => []
                end))
  | AStopCurrent => (s, Some (stop_of (current d)))
  | AStop id => (cancel_run s id, Some [])
  | ASetting b => if ok then (with_setting s (if b then "true" else "false"), Some []) else (s, None)
  | ASetPaused b =>
      (with_dl s (set_paused d b), Some ((if b then stop_of (current d) else []) ++ (if b then [] else [AWake])))
  | AHold sid =>
      (with_dl s (set_watching d ({[sid]} ∪ watching d)),
       Some (if decide (sid ∈ watching d) then []
             else match current d with
                  | Some f => if decide (session f = sid) then [] else [AStop (run f)]
                  | None => []
                  end))
  | ARelease sid =>
      let w := watching d ∖ {[sid]} in
      (with_dl s (set_watching d w), Some (if decide (w = ∅) then [AWake] else []))
  | AWake => (with_dl s (set_wake d true), Some [])
  | ADequeue a e => always (Dequeue (queue s) a e).1
  | ACancelStop a e =>
      (match current d with
       | Some f => if (animeID f =? a) && (String.eqb e "" || String.eqb (epKey f) e) then cancel_run s (run f) else s
       | None => s
       end, Some [])
  | ASetUserPaused hash b =>
      let h := to_lower hash in
      (with_dl s (set_userPaused d (if b then {[h]} ∪ userPaused d else userPaused d ∖ {[h]})), Some [])
  | AEnqueue a season eps => always (Enqueue (clock s) (queue s) a season eps).1
  | ASetQueuedRelease k hash name => always (SetQueuedRelease (queue s) k hash name).1
  | AClearQueue => always (ClearQueue (queue s)).1
  end.

(** ** The worker *)

Definition held (d : Downloader) : bool := paused d || negb (bool_decide (watching d = ∅)).

(** [restorePaused] *)
Definition restorePaused (ok : bool) (s : sys) : sys :=
  if ok && bool_decide (setting s = Some "true") then with_dl s (set_paused (dl s) true) else s.

Definition idle (ok : bool) (s : sys) : Z :=
  match (if ok then NextRetry (clock s) (queue s) else None) with
  | None => queueIdle
  | Some at_ => Z.max 1000000 (Z.min queueIdle (at_ * 1000000 - clock s))
  end.

(** How a download that ended is settled. *)
Inductive verdict :=
  | StoodDown
  | PausedFrom
  | TryLater (why : string) (wait : Z)
  | Ended (cause : option string).

(** [stopped]: its own context was cancelled, the worker's was not. *)
Definition outcome_of (stopped : bool) (q : QueuedDownload) (err : option failure) : verdict :=
  if stopped then StoodDown
  else
    match err with
    | None => Ended None
    | Some e =>
        if is_paused e then PausedFrom
        else if swarmFailure e && (Attempts q <? queueRetries) then
          TryLater (describe e) (queueRetryDelay * (Attempts q + 1))
        else
          Ended (Some (if 0 <? Attempts q
                       then "gave up after " +:+ itoa (Attempts q + 1) +:+ " tries: " +:+ describe e
                       else describe e))
    end.

(** What a stretch of the worker finds: whether the database works, the order in
    which it reads the table, how the download ended (when it has), and the
    torrent on record for the episode. *)
Record input := mkInput {
  db_ok : bool;
  scan : list key;
  ended : option (option failure);
  recorded : option string;
}.

(** [pausedByUser] *)
Definition pausedByUser (i : input) (d : Downloader) : bool :=
  match (if db_ok i then recorded i else None) with
  | Some hash => bool_decide (to_lower hash ∈ userPaused d)
  | None => false
  end.

(** The worker's context closed, every statement on it fails. *)
Definition works (i : input) (s : sys) : bool := db_ok i && negb (closing s).

Definition done_stepping (s : sys) : pc := if closing s then Returned else Top.

(** [work] of a download claimed: the flight is recorded, and stopped at once
    when a stream opened or a pause landed since [Run] looked. *)
Definition take_off (q : QueuedDownload) (s : sys) : sys :=
  let id := runs s in
  let s' := mkSys (queue s) (setting s) (set_current (dl s) (Some (mkFlight (AnimeID q) (EpKey q) id)))
              (Fetching q id) (calls s) (clock s) (S id) (cancelled s) (closing s) in
  if held (dl s) then cancel_run s' id else s'.

Definition settle (ok : bool) (q : QueuedDownload) (id : nat) (err : option failure) (s : sys) : sys :=
  match outcome_of (bool_decide (id ∈ cancelled s) && negb (closing s)) q err with
  | StoodDown =>
      with_worker (if ok then with_queue s (RequeueActive (queue s) (key_of q)).1 else s) (done_stepping s)
  | PausedFrom => with_worker s (AskingPaused q)
  | TryLater why wait =>
      with_worker (if ok then with_queue s (Defer (clock s) (queue s) (key_of q) why (clock s + wait)) else s)
        (done_stepping s)
  | Ended cause => with_worker s (Finishing q cause)
  end.

Definition work (i : input) (s : sys) : sys :=
  let ok := works i s in
  match worker s with
  | Booting => with_worker (if ok then with_queue s (ResetActive (queue s)) else s) Restoring
  | Restoring => with_worker (restorePaused ok s) Top
  | Top => with_worker s (if held (dl s) then Resting else Asking)
  | Asking =>
      if ok then
        match NextQueued (scan i) (clock s) (queue s) with
        | (t, Some q) => with_worker (with_queue s t) (Claimed q)
        | (t, None) => with_worker s Resting
        end
      else with_worker s Resting
  | Claimed q => take_off q s
  | Fetching q id => match ended i with Some err => with_worker s (Fetched q id err) | None => s end
  | Fetched q id err => with_worker (with_dl s (set_current (dl s) None)) (Settling q id err)
  | Settling q id err => settle ok q id err s
  | AskingPaused q =>
      if pausedByUser (mkInput ok (scan i) (ended i) (recorded i)) (dl s) then with_worker s (Finishing q None)
      else with_worker (if ok then with_queue s (RequeueActive (queue s) (key_of q)).1 else s) (done_stepping s)
  | Finishing q cause =>
      with_worker (if ok then with_queue s (FinishQueued (queue s) (key_of q) cause) else s) (done_stepping s)
  | Resting => with_worker s (if closing s then Returned else Waiting (clock s + idle ok s))
  | Waiting t =>
      if closing s then with_worker s Returned
      else if wake (dl s) then with_worker (with_dl s (set_wake (dl s) false)) Top
      else if t <=? clock s then with_worker s Top else s
  | Returned => s
  end.

(** ** Runs *)

Inductive event :=
  | EWork (i : input)
  | ECall (r : request)
  | EExec (n : nat) (ok : bool)
  | ETick (t : Z)
  | EClose
  | ERestart.

(** The [n]th call does its next atom. *)
Definition advance (n : nat) (ok : bool) (s : sys) : sys :=
  match calls s !! n with
  | Some (a :: rest) =>
      let (s', more) := exec ok a s in
      with_calls s' (<[n := match more with Some m => m ++ rest | None => [] end]> (calls s'))
  | _ => s
  end.

(** The process ends, at whatever point, and another starts on the same database. *)
Definition boot_again (s : sys) : sys :=
  mkSys (queue s) (setting s) NewDownloader Booting [] (clock s) (runs s) (cancelled s) false.

Definition close (s : sys) : sys :=
  mkSys (queue s) (setting s) (dl s) (worker s) (calls s) (clock s) (runs s) (cancelled s) true.

Definition apply (e : event) (s : sys) : sys :=
  match e with
  | EWork i => work i s
  | ECall r => with_calls s (program r :: calls s)
  | EExec n ok => advance n ok s
  | ETick t => with_clock s (Z.max (clock s) t)
  | EClose => close s
  | ERestart => boot_again s
  end.

(** [faults]: whether the database may fail. *)
Definition allowed (faults : bool) (e : event) (s : sys) : Prop :=
  match e with
  | EWork i => reads (scan i) (queue s) /\ (faults || db_ok i = true)
  | EExec n ok => faults || ok = true
  | _ => True
  end.

Definition begin_at (t : Z) (v : option string) : sys := mkSys ∅ v NewDownloader Booting [] t 0 ∅ false.

Inductive reachable (faults : bool) : sys -> Prop :=
  | reachable_start t v : reachable faults (begin_at t v)
  | reachable_step e s : reachable faults s -> allowed faults e s -> reachable faults (apply e s).

Definition replay (l : list event) (s : sys) : sys := foldl (fun s e => apply e s) s l.

Fixpoint all_allowed (faults : bool) (l : list event) (s : sys) : Prop :=
  match l with
  | [] => True
  | e :: l' => allowed faults e s /\ all_allowed faults l' (apply e s)
  end.

Lemma reachable_replay faults l s : reachable faults s -> all_allowed faults l s -> reachable faults (replay l s).
Proof using Type.
  revert s. induction l as [|e l IH]; intros s Hs; simpl; [done|]. intros [He Hl].
  apply IH; [by apply reachable_step|done].
Qed.

(** ** What the queue's memory keeps *)

(** The episode the worker has claimed and not yet settled. *)
Definition in_hand (p : pc) : option QueuedDownload :=
  match p with
  | Claimed q | Fetching q _ | Fetched q _ _ | Settling q _ _ | AskingPaused q | Finishing q _ => Some q
  | _ => None
  end.

Definition run_of (p : pc) : option nat :=
  match p with Fetching _ id | Fetched _ id _ | Settling _ id _ => Some id | _ => None end.

Definition flight_of (p : pc) : option inFlight :=
  match p with
  | Fetching q id | Fetched q id _ => Some (mkFlight (AnimeID q) (EpKey q) id)
  | _ => None
  end.

(** A call is about to cancel the run. *)
Definition stopping (c : list (list atom)) (id : nat) : Prop := exists l, l ∈ c /\ AStop id ∈ l.

(** Nothing asks the queue to stand down but the episode's own stream. *)
Definition clear_for (d : Downloader) (k : key) : Prop :=
  paused d = false /\ forall sid, sid ∈ watching d -> sid = session_of k.

Record memory (s : sys) : Prop := {
  mem_current : current (dl s) = flight_of (worker s);
  mem_yields : forall q id, worker s = Fetching q id -> id ∉ cancelled s ->
    stopping (calls s) id \/ clear_for (dl s) (key_of q);
  mem_heads : forall a rest, (a :: rest) ∈ calls s -> forall id, AStop id ∉ rest;
  mem_fresh : forall id, id ∈ cancelled s \/ stopping (calls s) id \/ run_of (worker s) = Some id -> (id < runs s)%nat;
}.

Definition is_stop (a : atom) : bool := match a with AStop _ => true | _ => false end.

Lemma no_stops l id : forallb (fun a => negb (is_stop a)) l = true -> AStop id ∉ l.
Proof using Type.
  intros Hl Hin. rewrite forallb_forall in Hl. apply list_elem_of_In, Hl in Hin. discriminate.
Qed.

Lemma program_no_stops r id : AStop id ∉ program r.
Proof using Type. apply no_stops. by destruct r. Qed.

Lemma program_heads r a rest id : a :: rest = program r -> AStop id ∉ rest.
Proof using Type. intros Hr Hin. apply (program_no_stops r id). rewrite <- Hr. by right. Qed.

Lemma stopping_head s id :
  memory s -> stopping (calls s) id <-> exists rest, (AStop id :: rest) ∈ calls s.
Proof using Type.
  intros Hm. split.
  - intros (l & Hl & Hin). destruct l as [|a rest]; [by apply not_elem_of_nil in Hin|].
    apply elem_of_cons in Hin as [<-|Hin]; [by exists rest|]. by apply (mem_heads s Hm _ _ Hl) in Hin.
  - intros [rest Hr]. exists (AStop id :: rest). split; [done|by left].
Qed.

(** What an atom touches. *)
Record touches (a : atom) (s s' : sys) (more : option (list atom)) : Prop := {
  to_worker : worker s' = worker s;
  to_calls : calls s' = calls s;
  to_runs : runs s' = runs s;
  to_closing : closing s' = closing s;
  to_current : current (dl s') = current (dl s);
  to_kept : cancelled s ⊆ cancelled s';
  to_cancelled : forall id, id ∈ cancelled s' ->
    id ∈ cancelled s \/ a = AStop id \/ exists f, current (dl s) = Some f /\ run f = id;
  to_more : forall m, more = Some m -> m = [] \/ m = [AWake] \/ exists f, current (dl s) = Some f /\ m = [AStop (run f)];
  to_stop : forall id, a = AStop id -> id ∈ cancelled s' /\ more = Some [];
  to_clear : forall f, current (dl s) = Some f -> clear_for (dl s) (flight_key f) ->
    more = Some [AStop (run f)] \/ clear_for (dl s') (flight_key f);
}.

Ltac touch :=
  repeat first [split_if | case_match]; simpl in *; try congruence;
  repeat match goal with H : Some _ = Some _ |- _ => injection H as H | H : (_, _) = (_, _) |- _ => injection H as <- <- end;
  simpl in *; subst; simpl; try set_solver; eauto 6.

Lemma exec_touches ok a s s' more : exec ok a s = (s', more) -> touches a s s' more.
Proof using Type.
  intros E. destruct a; simpl in E.
  all: split.
  all: try (touch; fail).
  all: injection E as <- <-.
  - intros m [= <-]. unfold stop_of. destruct (current _) as [f|]; eauto.
  - intros m [= <-]. unfold stop_of. destruct b, (current _) as [f|]; simpl; eauto.
  - intros f Hf [Hp Hw]. unfold stop_of. rewrite Hf. destruct b; simpl; [by left|by right].
  - intros f Hf [Hp Hw]. rewrite Hf. destruct (decide (sid ∈ watching (dl s))) as [Hin|Hnin].
    + right. split; [done|]. simpl. intros x Hx. apply Hw. set_solver.
    + destruct (decide (session f = sid)) as [<-|Hne]; [|by left]. right. split; [done|]. simpl.
      intros x Hx. apply elem_of_union in Hx as [->%elem_of_singleton|Hx]; [done|auto].
  - intros f Hf [Hp Hw]. right. split; [done|]. simpl. intros x Hx. apply Hw. set_solver.
Qed.

Lemma run_of_flight p f : flight_of p = Some f -> run_of p = Some (run f).
Proof using Type. destruct p; simpl; try done; by intros [= <-]. Qed.

Lemma insert_calls (c : list (list atom)) n a rest l l' :
  c !! n = Some (a :: rest) -> l' ∈ <[n := l]> c -> l' = l \/ l' ∈ c.
Proof using Type.
  intros Hn Hl. apply list_elem_of_lookup in Hl as [j Hj].
  destruct (decide (j = n)) as [->|Hne].
  - rewrite list_lookup_insert_eq in Hj by (by eapply lookup_lt_Some). injection Hj as <-. by left.
  - rewrite list_lookup_insert_ne in Hj by done. right. by eapply list_elem_of_lookup_2.
Qed.

Lemma kept_call (c : list (list atom)) n a rest l l' :
  c !! n = Some (a :: rest) -> l' ∈ c -> l' <> a :: rest -> l' ∈ <[n := l]> c.
Proof using Type.
  intros Hn Hl Hne. apply list_elem_of_lookup in Hl as [j Hj].
  assert (j <> n) by congruence. eapply list_elem_of_lookup_2. by rewrite list_lookup_insert_ne.
Qed.

Lemma new_call (c : list (list atom)) n a rest l :
  c !! n = Some (a :: rest) -> l ∈ <[n := l]> c.
Proof using Type.
  intros Hn. eapply (list_elem_of_lookup_2 _ n). apply list_lookup_insert_eq. by eapply lookup_lt_Some.
Qed.

Lemma memory_advance n ok s : memory s -> memory (advance n ok s).
Proof using Type.
  intros Hm. unfold advance. destruct (calls s !! n) as [[|a rest]|] eqn:Hn; [done| |done].
  destruct (exec ok a s) as [s' more] eqn:E. apply exec_touches in E as [].
  assert ((a :: rest) ∈ calls s) as Hin by (by eapply list_elem_of_lookup_2).
  assert (forall id, AStop id ∉ rest) as Hrest by (by apply (mem_heads s Hm a)).
  set (l := match more with Some m => m ++ rest | None => [] end).
  assert (Hl : forall id, AStop id ∈ l -> exists f, current (dl s) = Some f /\ run f = id).
  { subst l. intros id Hid. destruct more as [m|]; [|by apply not_elem_of_nil in Hid].
    apply elem_of_app in Hid as [Hid|Hid]; [|by apply Hrest in Hid].
    destruct (to_more0 m eq_refl) as [->|[->|(f & Hf & ->)]].
    - by apply not_elem_of_nil in Hid.
    - by apply list_elem_of_singleton in Hid.
    - apply list_elem_of_singleton in Hid as [= ->]. eauto. }
  assert (Hcur : forall f, current (dl s) = Some f -> (run f < runs s)%nat).
  { intros f Hf. apply (mem_fresh s Hm). right. right. apply run_of_flight. by rewrite <- (mem_current s Hm). }
  split; simpl.
  - rewrite to_current0, to_worker0. apply Hm.
  - rewrite to_worker0, to_calls0. intros q id Hw Hid.
    assert (current (dl s) = Some (mkFlight (AnimeID q) (EpKey q) id)) as Hf by (by rewrite (mem_current s Hm), Hw).
    destruct (mem_yields s Hm q id Hw) as [Hs|Hc]; [set_solver| |].
    + left. apply stopping_head in Hs as [rest' Hr]; [|done].
      destruct (decide (a = AStop id)) as [->|Hne]; [by destruct (to_stop0 id eq_refl)|].
      exists (AStop id :: rest'). split; [|by left]. eapply kept_call; [done..|]. congruence.
    + destruct (to_clear0 _ Hf Hc) as [Hmore|Hc']; [left|by right].
      exists l. subst l. rewrite Hmore. split; [by eapply new_call|by left].
  - rewrite to_calls0. intros b rest' Hb id. destruct (insert_calls _ _ _ _ _ _ Hn Hb) as [Hb'|Hb'].
    + subst l. destruct more as [m|]; [|done]. destruct (to_more0 m eq_refl) as [->|[->|(f & _ & ->)]]; simpl in Hb'.
      * intros Hid. apply (Hrest id). rewrite <- Hb'. by right.
      * injection Hb' as -> ->. apply Hrest.
      * injection Hb' as -> ->. apply Hrest.
    + by apply (mem_heads s Hm b).
  - rewrite to_runs0, to_worker0, to_calls0. intros id [Hid|[Hid|Hid]].
    + apply to_cancelled0 in Hid as [Hid|[->|(f & Hf & <-)]]; [apply (mem_fresh s Hm); auto| |auto].
      apply (mem_fresh s Hm). right. left. exists (AStop id :: rest). split; [done|by left].
    + destruct Hid as (l' & Hl' & Hid). destruct (insert_calls _ _ _ _ _ _ Hn Hl') as [->|Hl''].
      * destruct (Hl id Hid) as (f & Hf & <-). auto.
      * apply (mem_fresh s Hm). right. left. by exists l'.
    + apply (mem_fresh s Hm). auto.
Qed.

(** A state of the worker that is not fetching, with the same flights otherwise. *)
Lemma memory_settled s s' :
  memory s -> current (dl s') = flight_of (worker s') -> (forall q id, worker s' <> Fetching q id) ->
  calls s' = calls s -> runs s' = runs s -> cancelled s' = cancelled s ->
  (run_of (worker s') = None \/ run_of (worker s') = run_of (worker s)) -> memory s'.
Proof using Type.
  intros Hm Hc Hf Hcalls Hr Hca Hrun. split.
  - done.
  - intros q id Hw. by apply Hf in Hw.
  - rewrite Hcalls. apply Hm.
  - rewrite Hr, Hca, Hcalls. intros id Hid. apply (mem_fresh s Hm). destruct Hrun as [Hrun|Hrun]; rewrite Hrun in Hid; naive_solver.
Qed.

Lemma memory_take_off q s : memory s -> worker s = Claimed q -> memory (take_off q s).
Proof using Type.
  intros Hm Hw.
  assert (forall id, id ∈ cancelled s \/ stopping (calls s) id -> (id < runs s)%nat) as Hfresh
    by (intros id ?; apply (mem_fresh s Hm); tauto).
  unfold take_off. destruct (held (dl s)) eqn:Hh; split; simpl.
  - done.
  - intros q' id [= <- <-] Hid. set_solver.
  - apply Hm.
  - intros id [[->%elem_of_singleton|Hid]%elem_of_union|[Hid|[= <-]]]; [lia|apply Nat.lt_lt_succ_r, Hfresh; tauto..|lia].
  - done.
  - intros q' id [= <- <-] Hid. right. unfold held in Hh. bool_prop. split; [done|]. simpl. set_solver.
  - apply Hm.
  - intros id [Hid|[Hid|[= <-]]]; [apply Nat.lt_lt_succ_r, Hfresh; tauto..|lia].
Qed.

Lemma memory_work i s : memory s -> memory (work i s).
Proof using Type.
  intros Hm. pose proof (mem_current s Hm) as Hc. unfold work, settle, done_stepping, restorePaused.
  destruct (worker s) eqn:Hw; simpl in Hc.
  all: repeat match goal with |- memory (take_off _ _) => by apply memory_take_off | |- memory (if ?b then _ else _) => destruct b end.
  all: try done.
  all: repeat case_match; try done.
  all: eapply memory_settled; [exact Hm|..]; simpl; try (repeat split_if; done); try (rewrite ?Hc; done); rewrite ?Hw; repeat split_if; naive_solver.
Qed.

Lemma memory_apply e s : memory s -> memory (apply e s).
Proof using Type.
  intros Hm. destruct e; simpl.
  - by apply memory_work.
  - destruct Hm. split; simpl; [done| | |].
    + intros q id Hw Hid. destruct (mem_yields0 q id Hw Hid) as [(l & Hl & Hin)|]; [left|by right].
      exists l. split; [by right|done].
    + intros a rest [Hr|Hr]%elem_of_cons id; [by eapply program_heads|by apply (mem_heads0 a)].
    + intros id Hid. apply mem_fresh0. destruct Hid as [Hid|[(l & [->|Hl]%elem_of_cons & Hin)|Hid]]; auto.
      * by apply program_no_stops in Hin.
      * right. left. by exists l.
  - by apply memory_advance.
  - destruct Hm. by split.
  - destruct Hm. by split.
  - split; simpl; try done.
    + by intros a rest Hn%not_elem_of_nil.
    + intros id [Hid|[(l & Hl & _)|Hid]]; [|by apply not_elem_of_nil in Hl|done].
      apply (mem_fresh s Hm). auto.
Qed.

Lemma reachable_memory faults s : reachable faults s -> memory s.
Proof using Type.
  induction 1 as [t v|e s _ IH]; [|by apply memory_apply]. split; simpl; try done.
  - by intros a rest Hn%not_elem_of_nil.
  - intros id [Hid|[(l & Hl & _)|Hid]]; [set_solver|by apply not_elem_of_nil in Hl|done].
Qed.

(** ** What the table keeps, while the database works *)

Record orderly (s : sys) : Prop := {
  ord_active : forall k r, queue s !! k = Some r -> state r = Active ->
    worker s = Booting \/ closing s = true \/ exists q, in_hand (worker s) = Some q /\ key_of q = k;
  ord_tries : forall k r, queue s !! k = Some r -> 0 <= attempts r <= queueRetries;
  ord_hand : forall q, in_hand (worker s) = Some q -> 0 <= Attempts q <= queueRetries /\
    forall r, queue s !! key_of q = Some r -> attempts r <= Attempts q;
}.

Lemma orderly_modest s s' :
  orderly s -> modest (queue s) (queue s') -> worker s' = worker s -> closing s' = closing s -> orderly s'.
Proof using Type.
  intros Ho Hm Hw Hc. split; rewrite ?Hw, ?Hc.
  - intros k r' Hk Hs. destruct (Hm k r' Hk) as [Ha _]. destruct (Ha Hs) as (r & Hr & Hsr). by eapply ord_active.
  - intros k r' Hk. destruct (Hm k r' Hk) as [_ [->|(r & Hr & ->)]]; [unfold queueRetries; lia|by eapply ord_tries].
  - intros q Hq. destruct (ord_hand s Ho q Hq) as [Hb Hl]. split; [done|]. intros r' Hk.
    destruct (Hm _ r' Hk) as [_ [->|(r & Hr & ->)]]; [lia|by apply Hl].
Qed.

Lemma exec_modest ok a s : modest (queue s) (queue (exec ok a s).1).
Proof using Type.
  destruct a; simpl; repeat case_match; try done;
    first [apply modest_promote|apply modest_Enqueue|apply modest_SetQueuedRelease|apply modest_filter].
Qed.

Lemma orderly_advance n ok s : orderly s -> orderly (advance n ok s).
Proof using Type.
  intros Ho. unfold advance. destruct (calls s !! n) as [[|a rest]|]; [done| |done].
  pose proof (exec_modest ok a s) as Hm. destruct (exec ok a s) as [s' more] eqn:E.
  apply exec_touches in E as []. by apply (orderly_modest s).
Qed.

(** The worker lets go of what it had in hand, its row settled. *)
Lemma orderly_let_go s t p q :
  orderly s -> in_hand (worker s) = Some q -> in_hand p = None -> p <> Booting ->
  (forall k, k <> key_of q -> t !! k = queue s !! k) ->
  (forall r, t !! key_of q = Some r -> (state r = Active -> closing s = true) /\ 0 <= attempts r <= queueRetries) ->
  orderly (with_worker (with_queue s t) p).
Proof using Type.
  intros Ho Hq Hp Hb Hne Heq. split; simpl.
  - intros k r Hk Hs. destruct (decide (k = key_of q)) as [->|Hk'].
    + destruct (Heq r Hk) as [Hc _]. right. left. by apply Hc.
    + rewrite Hne in Hk by done. destruct (ord_active s Ho k r Hk Hs) as [Hw|[Hc|(q' & Hq' & Hk'')]].
      * by rewrite Hw in Hq.
      * by right; left.
      * congruence.
  - intros k r Hk. destruct (decide (k = key_of q)) as [->|Hk']; [by apply Heq|].
    rewrite Hne in Hk by done. by eapply ord_tries.
  - intros q' Hq'. congruence.
Qed.

(** Still in hand, further on. *)
Lemma orderly_onward s s' :
  orderly s -> queue s' = queue s -> closing s' = closing s -> in_hand (worker s') = in_hand (worker s) ->
  worker s <> Booting -> orderly s'.
Proof using Type.
  intros [Ha Ht Hh] Hq Hc Hi Hb. split; rewrite ?Hq, ?Hc, ?Hi; [|done..].
  intros k r Hk Hs. destruct (Ha k r Hk Hs) as [|[|]]; [done|by right; left|by right; right].
Qed.

Lemma done_stepping_free s : in_hand (done_stepping s) = None /\ done_stepping s <> Booting.
Proof using Type. unfold done_stepping. by destruct (closing s). Qed.

(** Nothing was written on the worker's way out: the program is closing. *)
Lemma orderly_drop s p :
  orderly s -> closing s = true -> in_hand p = None -> orderly (with_worker s p).
Proof using Type.
  intros [Ha Ht Hh] Hc Hp. split; simpl; [auto|done|]. intros q Hq. congruence.
Qed.

Lemma orderly_requeue (ok : bool) q s :
  orderly s -> in_hand (worker s) = Some q -> (ok = false -> closing s = true) ->
  orderly (with_worker (if ok then with_queue s (RequeueActive (queue s) (key_of q)).1 else s) (done_stepping s)).
Proof using Type.
  intros Ho Hq Hok. destruct (done_stepping_free s) as [Hd Hb]. destruct ok; [|apply orderly_drop; auto].
  apply (orderly_let_go s _ _ q); [done..|by apply RequeueActive_other|].
  intros r Hr. split; [by intros ?%(RequeueActive_at _ _ _ Hr)|].
  destruct (modest_RequeueActive _ _ _ _ Hr) as [_ [->|(r0 & Hr0 & ->)]]; [unfold queueRetries; lia|by eapply ord_tries].
Qed.

Lemma orderly_settle (ok : bool) q id err s :
  orderly s -> worker s = Settling q id err -> (ok = false -> closing s = true) -> orderly (settle ok q id err s).
Proof using Type.
  intros Ho Hw Hok. assert (in_hand (worker s) = Some q) as Hq by by rewrite Hw.
  unfold settle. destruct (outcome_of _ q err) as [| |why wait|cause] eqn:J; [by apply orderly_requeue| | |].
  - apply (orderly_onward s); try done; by rewrite Hw.
  - destruct (done_stepping_free s) as [Hd Hb]. destruct ok; [|apply orderly_drop; auto].
    apply (orderly_let_go s _ _ q); [done..|by apply Defer_other|].
    intros r Hr. apply Defer_at in Hr as [Hs (r0 & Hr0 & Hr)]. split; [done|].
    pose proof (ord_tries s Ho _ r0 Hr0). destruct (is_active r0); [|by subst].
    destruct (ord_hand s Ho q Hq) as [_ Hl]. specialize (Hl r0 Hr0). destruct Hr as [_ ->].
    unfold outcome_of in J. repeat case_match; try done. bool_prop. lia.
  - apply (orderly_onward s); try done; by rewrite Hw.
Qed.

Lemma orderly_finish (ok : bool) q cause s :
  orderly s -> in_hand (worker s) = Some q -> (ok = false -> closing s = true) ->
  orderly (with_worker (if ok then with_queue s (FinishQueued (queue s) (key_of q) cause) else s) (done_stepping s)).
Proof using Type.
  intros Ho Hq Hok. destruct (done_stepping_free s) as [Hd Hb]. destruct ok; [|apply orderly_drop; auto].
  apply (orderly_let_go s _ _ q); [done..|by apply FinishQueued_other|].
  intros r Hr. split; [by rewrite (FinishQueued_at _ _ _ _ Hr)|].
  destruct (modest_FinishQueued _ _ _ _ _ Hr) as [_ [->|(r0 & Hr0 & ->)]]; [unfold queueRetries; lia|by eapply ord_tries].
Qed.

Lemma orderly_ask i s t q :
  orderly s -> worker s = Asking -> reads (scan i) (queue s) ->
  NextQueued (scan i) (clock s) (queue s) = (t, Some q) -> orderly (with_worker (with_queue s t) (Claimed q)).
Proof using Type.
  intros Ho Hw Hr Hn. apply NextQueued_claims in Hn as (r & Hk & _ & _ & Ha & ->); [|done].
  pose proof (ord_tries s Ho _ r Hk) as Hb. split; simpl.
  - intros k r' Hk' Hs. right. destruct (decide (key_of q = k)) as [<-|Hne]; [right; eauto|].
    rewrite lookup_insert_ne in Hk' by done.
    destruct (ord_active s Ho k r' Hk' Hs) as [|[|(? & ? & _)]]; [congruence|by left|]. by rewrite Hw in *.
  - intros k r' Hk'. destruct (decide (key_of q = k)) as [<-|Hne].
    + rewrite lookup_insert_eq in Hk'. by injection Hk' as <-.
    + rewrite lookup_insert_ne in Hk' by done. by eapply ord_tries.
  - intros q' [= <-]. rewrite Ha. split; [done|]. intros r'. rewrite lookup_insert_eq. intros [= <-]. simpl. lia.
Qed.

Lemma orderly_work i s : orderly s -> reads (scan i) (queue s) -> db_ok i = true -> orderly (work i s).
Proof using Type.
  intros Ho Hr Hok. assert (works i s = false -> closing s = true) as Hw
    by (unfold works; rewrite Hok; by destruct (closing s)).
  unfold work. destruct (worker s) eqn:E; simpl.
  - (* Booting *) destruct (works i s) eqn:W; [|by apply orderly_drop; auto]. split; simpl.
    + intros k r Hk Hs. by apply ResetActive_none in Hk.
    + intros k r Hk. destruct (modest_ResetActive _ _ _ Hk) as [_ [->|(r0 & Hr0 & ->)]]; [unfold queueRetries; lia|by eapply ord_tries].
    + done.
  - unfold restorePaused. apply (orderly_onward s); simpl; rewrite ?E; try done; by destruct (_ && _).
  - apply (orderly_onward s); simpl; rewrite ?E; try done. by destruct (held _).
  - destruct (works i s) eqn:W; [|apply orderly_drop; auto].
    destruct (NextQueued _ _ _) as [t [q|]] eqn:N; [by eapply orderly_ask|].
    apply (orderly_onward s); simpl; rewrite ?E; done.
  - unfold take_off. apply (orderly_onward s); simpl; rewrite ?E; try done; by destruct (held _).
  - destruct (ended i); [|done]. apply (orderly_onward s); simpl; rewrite ?E; done.
  - apply (orderly_onward s); simpl; rewrite ?E; done.
  - by eapply orderly_settle.
  - destruct (pausedByUser _ _).
    + apply (orderly_onward s); simpl; rewrite ?E; done.
    + apply orderly_requeue; [done|by rewrite E|auto].
  - apply orderly_finish; [done|by rewrite E|auto].
  - apply (orderly_onward s); simpl; rewrite ?E; try done. by destruct (closing s).
  - repeat case_match; try done; apply (orderly_onward s); simpl; rewrite ?E; done.
  - done.
Qed.

Lemma reachable_orderly s : reachable false s -> orderly s.
Proof using Type.
  induction 1 as [t v|e s _ IH He]; [by split|]. destruct e; simpl in *.
  - destruct He. by apply orderly_work.
  - by apply (orderly_modest s).
  - by apply orderly_advance.
  - by apply (orderly_modest s).
  - destruct IH as [Ha Ht Hh]. split; simpl; auto.
  - destruct IH as [Ha Ht Hh]. split; simpl; auto. done.
Qed.

(** ** Quieting the engine at startup *)

(** A torrent of the engine's listing with its statistics, when they could be read. *)
Record stat := mkStat { st_hash : string; st_stats : option (bool * string) }.

Definition Checking (finished : bool) (st : string) : bool := String.eqb st "initializing" && negb finished.

(** [PauseUnfinished]: the hashes it asks the engine to pause, how many it kept,
    and those still being checked. *)
Fixpoint PauseUnfinished (keep : string -> bool) (l : list stat) : list string * Z * list string :=
  match l with
  | [] => ([], 0, [])
  | t :: l' =>
      let '(paused, kept, checking) := PauseUnfinished keep l' in
      match st_stats t with
      | None => (paused, kept, checking)
      | Some (finished, st) =>
          if finished || String.eqb st "paused" then (paused, kept, checking)
          else if Checking finished st then (paused, kept, to_lower (st_hash t) :: checking)
          else if keep (to_lower (st_hash t)) then (paused, 1 + kept, checking)
          else (st_hash t :: paused, kept, checking)
      end
  end.

(** What [quiet] reads; [None] where the read fails. *)
Record quiet_env := mkQuietEnv {
  prefetch_full : option bool;
  started : option (list string);
  pinned : option (list string);
  claimed : string -> bool;
}.

Definition read_started (e : quiet_env) : list string :=
  match prefetch_full e with Some true => default [] (started e) | _ => [] end.

Definition quiet_keep (e : quiet_env) (only : option (list string)) (hash : string) : bool :=
  bool_decide (hash ∈ read_started e) || bool_decide (hash ∈ map to_lower (default [] (pinned e))) ||
  claimed e (to_lower hash) || match only with Some o => negb (bool_decide (hash ∈ o)) | None => false end.

(** One pass: the torrents paused, and those to look at again. *)
Definition quiet_pass (e : quiet_env) (only : option (list string)) (listing : option (list stat)) :
    list string * list string :=
  match listing with
  | None => ([], [])
  | Some l =>
      let '(paused, _, checking) := PauseUnfinished (quiet_keep e only) l in
      (paused, List.filter (fun h => match only with Some o => bool_decide (h ∈ o) | None => true end) checking)
  end.

Lemma PauseUnfinished_spec keep l h :
  h ∈ (PauseUnfinished keep l).1.1 ->
  exists t st, t ∈ l /\ st_hash t = h /\ st_stats t = Some (false, st) /\ keep (to_lower h) = false /\
    st <> "initializing" /\ st <> "paused".
Proof using Type.
  induction l as [|t l IH]; simpl; [intros Hh; by apply not_elem_of_nil in Hh|].
  destruct (PauseUnfinished keep l) as [[p k] c]. simpl in IH.
  assert (h ∈ p -> exists t' st, t' ∈ t :: l /\ st_hash t' = h /\ st_stats t' = Some (false, st) /\
    keep (to_lower h) = false /\ st <> "initializing" /\ st <> "paused") as IH'.
  { intros Hh. destruct (IH Hh) as (t' & st & Ht & Hrest). exists t', st. split; [by right|done]. }
  destruct (st_stats t) as [[[] st]|] eqn:E; simpl; [done| |done].
  destruct (String.eqb_spec st "paused"); [done|]. unfold Checking. simpl.
  destruct (String.eqb_spec st "initializing"); simpl; [done|].
  destruct (keep (to_lower (st_hash t))) eqn:K; simpl; [done|].
  intros [->|Hh]%elem_of_cons; [|by apply IH']. exists t, st. split_and!; try done. by left.
Qed.

(** What a start pauses is unfinished and nobody's: not pinned, not being fetched,
    not begun by a viewer who keeps whole episodes; and a later look pauses only
    what was being checked at the start. *)
Lemma quiet_spares e only listing h :
  h ∈ (quiet_pass e only listing).1 ->
  claimed e (to_lower (to_lower h)) = false /\ to_lower h ∉ map to_lower (default [] (pinned e)) /\
  to_lower h ∉ read_started e /\ (forall o, only = Some o -> to_lower h ∈ o).
Proof using Type.
  unfold quiet_pass. destruct listing as [l|]; [|intros Hh; by apply not_elem_of_nil in Hh].
  pose proof (PauseUnfinished_spec (quiet_keep e only) l h) as Hs.
  destruct (PauseUnfinished _ l) as [[p k] c]. intros Hh. destruct (Hs Hh) as (_ & _ & _ & _ & _ & Hk & _).
  unfold quiet_keep in Hk. bool_prop. split_and!; try done. intros o ->. simpl in *.
  by apply negb_false_iff, bool_decide_eq_true in H1.
Qed.

(** ** Properties *)


(** The queue yields.  Under every interleaving, and whatever the database
    refuses, a download goes on only while the queue is not paused and no stream
    is open but that episode's own; otherwise its context is cancelled, or the
    call that found it is just about to cancel it.  This covers a stream opened or
    a pause landing while the worker is between looking and starting. *)
Theorem queue_yields faults s q id (Hr : reachable faults s) (Hf : worker s = Fetching q id) :
  id ∈ cancelled s \/ stopping (calls s) id \/
  (paused (dl s) = false /\ forall sid, sid ∈ watching (dl s) -> sid = session_of (key_of q)).
Proof using Type.
  pose proof (reachable_memory faults s Hr) as Hm.
  destruct (decide (id ∈ cancelled s)) as [|Hn]; [by left|right]. by apply (mem_yields s Hm).
Qed.

End queue.

(** *** At concrete runs *)

(** The worker's stretches from the start of the program to an episode claimed. *)
Definition ok_input (scan : list key) : input := mkInput true scan None None.

Definition to_claim : list event :=
  [EWork (ok_input []); EWork (ok_input []);
   ECall (REnqueue 7 1 [1]); EExec 0 true; EExec 0 true;
   EWork (ok_input [(7, "1")]); EWork (ok_input [(7, "1")])].

(** A cancel of that episode, run to its end, then the worker going on. *)
Definition cancel_then_fetch : list event :=
  to_claim ++ [ECall (RCancel 7 "1"); EExec 0 true; EExec 0 true; EWork (ok_input [])].

Definition replayed (l : list event) : sys := replay (H := ascii_unicode) l (begin_at 5000000000 None).

Lemma replayed_reachable l :
  all_allowed (H := ascii_unicode) false l (begin_at 5000000000 None) ->
  reachable (H := ascii_unicode) false (replayed l).
Proof. intros Hl. apply reachable_replay; [apply reachable_start|done]. Qed.

Lemma one_scan (t : table) :
  map fst (map_to_list t) = [(7, "1")] -> reads [(7, "1")] t.
Proof. intros Ht. unfold reads. by rewrite Ht. Qed.

Lemma no_scan (t : table) : map fst (map_to_list t) = [] -> reads [] t.
Proof. intros Ht. unfold reads. by rewrite Ht. Qed.

Ltac run_allowed :=
  repeat split; try done; first [apply no_scan; vm_compute; reflexivity|apply one_scan; vm_compute; reflexivity].

(** A cancel can miss the download it is for.  Between the claim of an episode
    and the record of its flight the worker holds no lock: a cancel that runs to
    its end there deletes the row and finds nothing to stop, and the episode it
    cancelled is then fetched, with no call left that would stop it and no row in
    the queue to show it. *)
Theorem cancel_missed :
  exists s q id, reachable (H := ascii_unicode) false s /\ worker s = Fetching q id /\ key_of q = (7, "1") /\
    id ∉ cancelled s /\ (forall l, l ∈ calls s -> l = []) /\ queue s !! key_of q = None /\
    s = replay (H := ascii_unicode) [EWork (ok_input [])]
          (replayed (to_claim ++ [ECall (RCancel 7 "1"); EExec 0 true; EExec 0 true])).
Proof.
  exists (replayed cancel_then_fetch), (mkQueued 7 "1" 1 1 Active None "" None "" "" 0 0), 0%nat.
  split; [apply replayed_reachable; run_allowed|]. split_and!; try (vm_compute; reflexivity).
  - vm_compute. done.
  - intros l Hl. assert (calls (replayed cancel_then_fetch) = [[]; []]) as Hc by (vm_compute; reflexivity).
    rewrite Hc in Hl. set_solver.
Qed.


(** Claimed, then a stream of another episode opens. *)
Definition to_fetch : list event :=
  to_claim ++ [ECall (RHold "9-1"); EExec 0 true; EWork (ok_input [(7, "1")])].

Lemma queue_yields_witness :
  let s := replayed to_fetch in
  0%nat ∈ cancelled s \/ stopping (calls s) 0 \/
  (paused (dl s) = false /\ forall sid, sid ∈ watching (dl s) -> sid = session_of (7, "1")).
Proof.
  apply (@queue_yields ascii_unicode false (replayed to_fetch) (mkQueued 7 "1" 1 1 Active None "" None "" "" 0 0));
    [apply replayed_reachable; run_allowed|vm_compute; reflexivity].
Defined.
