(* ===== verification/Drain.v ===== *)
(** * The queue drains

    With nobody pausing, watching or asking, every episode in the queue comes to
    an end, whatever its downloads come to and however long they take: the
    worker's turns decrease a measure. *)
From stdpp Require Import base gmap strings list.
From Stdlib Require Import ZArith Lia Relations.Relation_Operators Wellfounded.Lexicographic_Product.
From S2P Require Import Prelude GoStr Rows Queue.

(** ** What is left to do *)

Definition weight (r : row) : nat :=
  match state r with Pending | Active => Z.to_nat (queueRetries + 1 - attempts r) | _ => 0 end.

(** The downloads still to make, at most. *)
Definition load (t : table) : nat := sum_list (map (fun x : key * row => weight x.2) (map_to_list t)).

(** The latest time any episode waits for, in milliseconds. *)
Definition far (t : table) : Z :=
  foldr Z.max 0 (map (fun x : key * row => default 0 (retry_at x.2)) (map_to_list t)).

Definition settled (t : table) : Prop :=
  forall k r, t !! k = Some r -> state r <> Pending /\ state r <> Active.

Lemma load_delete t k r : t !! k = Some r -> load t = (weight r + load (delete k t))%nat.
Proof.
  intros Hk. unfold load. rewrite <- (map_to_list_delete t k r Hk). done.
Qed.

Lemma load_insert t k r r' : t !! k = Some r -> (load (<[k := r']> t) + weight r = load t + weight r')%nat.
Proof.
  intros Hk. rewrite (load_delete (<[k := r']> t) k r') by apply lookup_insert_eq.
  rewrite (load_delete t k r Hk), delete_insert_eq. lia.
Qed.

Lemma load_update t k guard f :
  (forall r, guard r = true -> weight (f r) = weight r) -> load (update t k guard f).1 = load t.
Proof.
  intros Hf. unfold update. destruct (t !! k) as [r|] eqn:E; [|done]. destruct (guard r) eqn:G; [|done].
  pose proof (load_insert t k r (f r) E) as Hl. rewrite (Hf r G) in Hl. simpl. lia.
Qed.

Lemma sum_list_zero l : sum_list l = 0%nat <-> forall x, x ∈ l -> x = 0%nat.
Proof.
  induction l as [|n l IH]; simpl.
  - split; [intros _ x Hx; by apply not_elem_of_nil in Hx|done].
  - rewrite Nat.eq_add_0, IH. setoid_rewrite elem_of_cons. naive_solver.
Qed.

Lemma load_zero t : load t = 0%nat <-> forall k r, t !! k = Some r -> weight r = 0%nat.
Proof.
  unfold load. rewrite sum_list_zero. split.
  - intros Hz k r Hk. apply Hz, list_elem_of_fmap. exists (k, r). split; [done|]. by apply elem_of_map_to_list.
  - intros Hz x ([k r] & -> & Hx)%list_elem_of_fmap. apply elem_of_map_to_list in Hx. by eapply Hz.
Qed.

Lemma far_spec t z : far t <= z <-> 0 <= z /\ forall k r, t !! k = Some r -> default 0 (retry_at r) <= z.
Proof.
  unfold far.
  assert (forall l, foldr Z.max 0 l <= z <-> 0 <= z /\ forall x, x ∈ l -> x <= z) as Hl.
  { induction l as [|x l IH]; simpl.
    - split; [intros; split; [done|intros x Hx; by apply not_elem_of_nil in Hx]|tauto].
    - rewrite Z.max_lub_iff, IH. setoid_rewrite elem_of_cons. naive_solver. }
  rewrite Hl. split; intros [H0 H]; (split; [done|]).
  - intros k r Hk. apply H, list_elem_of_fmap. exists (k, r). split; [done|]. by apply elem_of_map_to_list.
  - intros x ([k r] & -> & Hx)%list_elem_of_fmap. apply elem_of_map_to_list in Hx. by eapply H.
Qed.

(** Tables whose rows wait as long. *)
Lemma far_mono t t' :
  (forall k r', t' !! k = Some r' -> exists r, t !! k = Some r /\ retry_at r' = retry_at r) -> far t' <= far t.
Proof.
  intros Ht. apply far_spec. pose proof (proj1 (far_spec t (far t)) (Z.le_refl _)) as [H0 Hf].
  split; [done|]. intros k r' Hk. destruct (Ht k r' Hk) as (r & Hr & ->). by eapply Hf.
Qed.

Lemma far_update t k guard f :
  (forall r, guard r = true -> retry_at (f r) = retry_at r) -> far (update t k guard f).1 <= far t.
Proof.
  intros Hf. apply far_mono. intros k' r' Hr. rewrite update_lookup in Hr.
  destruct (decide (k = k')) as [<-|]; [|eauto]. destruct (t !! k) as [r|]; [|done]. injection Hr as <-.
  exists r. split; [done|]. destruct (guard r) eqn:G; auto.
Qed.

Lemma load_RequeueActive t k : load (RequeueActive t k).1 = load t.
Proof.
  apply load_update. intros r Hr. unfold is_active in Hr. bool_prop. unfold weight. by rewrite Hr.
Qed.

Lemma load_ResetActive t : load (ResetActive t) = load t.
Proof.
  unfold load, ResetActive. rewrite map_to_list_fmap, map_map. f_equal. apply map_ext. intros [k r].
  unfold weight. simpl. destruct (is_active r) eqn:E; [|done]. unfold is_active in E. bool_prop. by rewrite E.
Qed.

Lemma far_ResetActive t : far (ResetActive t) <= far t.
Proof.
  apply far_mono. intros k r'. unfold ResetActive. rewrite lookup_fmap. destruct (t !! k) as [r|]; [|done].
  intros [= <-]. exists r. split; [done|]. by destruct (is_active r).
Qed.

Lemma load_FinishQueued t k cause : (load (FinishQueued t k cause) <= load t)%nat.
Proof.
  destruct cause; simpl.
  - unfold update. destruct (t !! k) as [r|] eqn:E; [|done].
    pose proof (load_insert t k r (set_state r Failed (Some s) (started_at r)) E) as Hl.
    change (weight (set_state _ _ _ _)) with 0%nat in Hl. cbn [fst]. lia.
  - destruct (t !! k) as [r|] eqn:E; [rewrite (load_delete t k r E); lia|]. by rewrite delete_id.
Qed.

(** A row in hand, its download to be made or being made. *)
Definition on_hand (t : table) (k : key) : Prop :=
  exists r, t !! k = Some r /\ state r = Active /\ attempts r <= queueRetries.

Lemma weight_on_hand r : state r = Active -> attempts r <= queueRetries -> (0 < weight r)%nat.
Proof. intros Hs Ha. unfold weight. rewrite Hs. lia. Qed.

Lemma finish_lowers t k cause : on_hand t k -> (load (FinishQueued t k cause) < load t)%nat.
Proof.
  intros (r & Hk & Hs & Ha). pose proof (weight_on_hand r Hs Ha). destruct cause; simpl.
  - unfold update. rewrite Hk. pose proof (load_insert t k r (set_state r Failed (Some s) (started_at r)) Hk) as Hl.
    change (weight (set_state _ _ _ _)) with 0%nat in Hl. cbn [fst]. lia.
  - rewrite (load_delete t k r Hk). lia.
Qed.

Lemma defer_lowers now t k why at_ : on_hand t k -> (load (Defer now t k why at_) < load t)%nat.
Proof.
  intros (r & Hk & Hs & Ha). unfold Defer, update. rewrite Hk.
  replace (is_active r) with true by (unfold is_active; by rewrite bool_decide_eq_true_2).
  cbn [fst]. set (r' := mkRow _ _ _ _ _ _ _ _ _ _).
  pose proof (load_insert t k r r' Hk) as Hl.
  assert (weight r' < weight r)%nat; [|lia]. unfold weight. subst r'. cbn [state attempts]. rewrite Hs. unfold queueRetries in *. lia.
Qed.

Lemma defer_load now t k why at_ : (forall r, t !! k = Some r -> attempts r <= queueRetries) -> (load (Defer now t k why at_) <= load t)%nat.
Proof.
  intros Ha. destruct (t !! k) as [r|] eqn:Hk; [|unfold Defer, update; by rewrite Hk].
  destruct (decide (state r = Active)) as [Hs|Hs].
  - apply Nat.lt_le_incl, defer_lowers. exists r. auto.
  - unfold Defer, update. rewrite Hk.
    replace (is_active r) with false by (unfold is_active; by rewrite bool_decide_eq_false_2). done.
Qed.

(** ** Turns *)

Section drain.
Context `{Unicode}.

(** Nobody pauses the queue, watches, or has a call under way. *)
Record quiet (s : sys) : Prop := {
  qu_calls : forall l, l ∈ calls s -> l = [];
  qu_paused : paused (dl s) = false;
  qu_watching : watching (dl s) = ∅;
  qu_setting : setting s <> Some "true";
  qu_open : closing s = false;
  qu_running : worker s <> Returned;
}.

(** Time passes, and the worker takes a turn. *)
Definition turn (i : input) (t : Z) (s : sys) : sys := apply (EWork i) (apply (ETick t) s).

(** A turn the worker may take: the database works; a download it waits for has
    ended, and not by a pause; and it wakes only when it is time or it was told. *)
Record goes (i : input) (t : Z) (s : sys) : Prop := {
  go_reads : reads (scan i) (queue s);
  go_db : db_ok i = true;
  go_ended : forall q id, worker s = Fetching q id ->
    exists err, ended i = Some err /\ match err with Some e => is_paused e = false | None => True end;
  go_waited : forall u, worker s = Waiting u -> u <= Z.max (clock s) t \/ wake (dl s) = true;
}.

(** Every way the system can go on reaches [P]. *)
Inductive bound_to (P : sys -> Prop) (s : sys) : Prop :=
  | bound_now : P s -> bound_to P s
  | bound_later :
      (exists i t, goes i t s) -> (forall i t, goes i t s -> bound_to P (turn i t s)) -> bound_to P s.

(** ** The measure *)

Definition has_active (t : table) (k : key) : bool := match t !! k with Some r => is_active r | None => false end.

(** The download in hand may come to nothing: cancelled, paused, or its row taken
    back meanwhile. *)
Definition spoilt (s : sys) : nat :=
  let lost q := if has_active (queue s) (key_of q) then 0%nat else 1%nat in
  let cut (id : nat) q := if decide (id ∈ cancelled s) then 1%nat else lost q in
  match worker s with
  | Claimed q | Finishing q _ => lost q
  | Fetching q id => cut id q
  | Fetched q id err | Settling q id err =>
      match err with Some e => if is_paused e then 1%nat else cut id q | None => cut id q end
  | AskingPaused _ => 1%nat
  | _ => 0%nat
  end.

Definition woken (s : sys) : nat := if wake (dl s) then 1 else 0.

(** How long until every episode's time has come. *)
Definition horizon (s : sys) : nat := Z.to_nat (far (queue s) * 1000000 - clock s).

Definition rank (s : sys) : nat :=
  match worker s with
  | Booting => 11
  | Restoring => 10
  | Top => 9
  | Asking => 8
  | Claimed _ => 7
  | Fetching _ _ => 6
  | Fetched _ _ _ => 5
  | Settling _ _ _ => 4
  | AskingPaused _ => 3
  | Finishing _ _ => 2
  | Resting => if decide (horizon s = 0%nat) then 11 else 1
  | Waiting u => if decide (horizon s <> 0%nat /\ (clock s < u \/ wake (dl s) = true)) then 0 else 10
  | Returned => 0
  end.

Definition measure (s : sys) : nat * (nat * (nat * (nat * nat))) :=
  (load (queue s), (spoilt s, (woken s, (horizon s, rank s)))).

Definition down : nat * (nat * (nat * (nat * nat))) -> nat * (nat * (nat * (nat * nat))) -> Prop :=
  slexprod _ _ lt (slexprod _ _ lt (slexprod _ _ lt (slexprod _ _ lt lt))).

Lemma down_wf : well_founded down.
Proof using Type. unfold down. repeat apply wf_slexprod; apply lt_wf. Qed.

(** What a turn lowers first, when it raises nothing before it. *)
Definition lowers (s' s : sys) : Prop :=
  (load (queue s') < load (queue s) \/ (load (queue s') <= load (queue s) /\
  (spoilt s' < spoilt s \/ (spoilt s' <= spoilt s /\
  (woken s' < woken s \/ (woken s' <= woken s /\
  (horizon s' < horizon s \/ (horizon s' <= horizon s /\ rank s' < rank s))))))))%nat.

Lemma lowers_down s' s : lowers s' s -> down (measure s') (measure s).
Proof using Type.
  unfold lowers, down, measure.
  generalize (load (queue s')) (load (queue s)) (spoilt s') (spoilt s) (woken s') (woken s) (horizon s') (horizon s)
    (rank s') (rank s).
  intros l' l p' p w' w h' h r' r [Hl|[Hl Hp]]; [by left|].
  apply Nat.le_lteq in Hl as [Hl| ->]; [by left|]. right. destruct Hp as [Hp|[Hp Hw]]; [by left|].
  apply Nat.le_lteq in Hp as [Hp| ->]; [by left|]. right. destruct Hw as [Hw|[Hw Hh]]; [by left|].
  apply Nat.le_lteq in Hw as [Hw| ->]; [by left|]. right. destruct Hh as [Hh|[Hh Hr]]; [by left|].
  apply Nat.le_lteq in Hh as [Hh| ->]; [by left|]. by right.
Qed.

(** Time passing lowers nothing but the horizon. *)
Lemma horizon_tick t s : (horizon (with_clock s (Z.max (clock s) t)) <= horizon s)%nat.
Proof using Type. unfold horizon. simpl. lia. Qed.

(** ** Every turn lowers it *)

Section turn.
Context (i : input) (t : Z) (s : sys).
Context (Hgo : goes i t s) (Hq : quiet s) (Hm : memory s) (Ho : orderly s).

Let s0 := with_clock s (Z.max (clock s) t).

Lemma works_quiet : works i s0 = true.
Proof using Hgo Hq. unfold works. simpl. by rewrite (go_db _ _ _ Hgo), (qu_open s Hq). Qed.

Lemma held_quiet : held (dl s) = false.
Proof using Hq. unfold held. by rewrite (qu_paused s Hq), (qu_watching s Hq). Qed.

Lemma done_quiet s' : closing s' = closing s -> done_stepping s' = Top.
Proof using Hq. unfold done_stepping. intros ->. by rewrite (qu_open s Hq). Qed.

Lemma on_hand_held q :
  in_hand (worker s) = Some q -> has_active (queue s) (key_of q) = true -> on_hand (queue s) (key_of q).
Proof using Ho.
  intros Hw Hh. unfold has_active in Hh. destruct (queue s !! key_of q) as [r|] eqn:E; [|done].
  exists r. unfold is_active in Hh. bool_prop. split_and!; [done..|]. by destruct (ord_tries s Ho _ r E).
Qed.

Lemma lowers_rank s' :
  (load (queue s') <= load (queue s))%nat -> (spoilt s' <= spoilt s)%nat -> wake (dl s') = wake (dl s) ->
  far (queue s') <= far (queue s) -> clock s' = clock s0 -> (rank s' < rank s)%nat \/ (horizon s' < horizon s)%nat ->
  lowers s' s.
Proof using Type.
  intros Hl Hsp Hw Hf Hc Hr. unfold lowers, woken. rewrite Hw.
  assert (horizon s' <= horizon s)%nat by (unfold horizon; rewrite Hc; simpl; lia).
  right. split; [done|]. right. split; [done|]. right. split; [done|]. destruct Hr; auto.
Qed.

Lemma lowers_spoilt s' :
  (load (queue s') <= load (queue s))%nat -> (spoilt s' < spoilt s)%nat -> lowers s' s.
Proof using Type. intros Hl Hsp. right. auto. Qed.

(** Rows wait as long as they did, and weigh as much. *)
Lemma requeue_table k :
  load (RequeueActive (queue s) k).1 = load (queue s) /\ far (RequeueActive (queue s) k).1 <= far (queue s).
Proof using Type. split; [apply load_RequeueActive|]. by apply far_update. Qed.

Lemma turn_booting : worker s = Booting -> lowers (work i s0) s.
Proof using Hgo Hq.
  intros Hw. unfold work. rewrite works_quiet. simpl. rewrite Hw. apply lowers_rank; simpl; try done.
  - by rewrite load_ResetActive.
  - unfold spoilt. simpl. lia.
  - apply far_ResetActive.
  - left. unfold rank. simpl. rewrite Hw. lia.
Qed.

Lemma turn_claim : worker s = Asking -> load (queue s) <> 0%nat -> lowers (work i s0) s.
Proof using Hgo Hq Ho.
  intros Hw Hload. unfold work. rewrite works_quiet. simpl. rewrite Hw.
  destruct (NextQueued _ _ _) as [t' [q|]] eqn:N.
  - apply NextQueued_claims in N as (r & Hk & Hs & _ & _ & ->); [|exact (go_reads _ _ _ Hgo)].
    set (r' := set_state r Active _ _). assert (weight r' = weight r) as Hwt by (unfold weight, r'; simpl; by rewrite Hs).
    pose proof (load_insert (queue s) (key_of q) r r' Hk). apply lowers_rank; simpl; try done.
    + lia.
    + unfold spoilt at 1, has_active. simpl. rewrite lookup_insert_eq. simpl. lia.
    + apply far_mono. intros k r2 Hk2. destruct (decide (key_of q = k)) as [<-|Hne].
      * rewrite lookup_insert_eq in Hk2. injection Hk2 as <-. by exists r.
      * rewrite lookup_insert_ne in Hk2 by done. eauto.
    + left. unfold rank. simpl. rewrite Hw. lia.
  - assert (horizon s0 <> 0)%nat as Hh.
    { intros Hz. apply Hload, load_zero. intros k r Hk.
      assert (state r <> Active) as Hna.
      { intros Hs. destruct (ord_active s Ho k r Hk Hs) as [Hb|[Hc|(q & Hb & _)]].
        - congruence.
        - by rewrite (qu_open s Hq) in Hc.
        - by rewrite Hw in Hb. }
      unfold weight. destruct (state r) eqn:Hs; try done. exfalso.
      unfold NextQueued in N. destruct (first_due _ _ _) as [[k1 r1]|] eqn:F; [done|].
      pose proof (first_due_none _ _ _ (go_reads _ _ _ Hgo) F k r Hk) as Hd.
      unfold due, is_pending in Hd. rewrite Hs in Hd. simpl in Hd.
      destruct (retry_at r) as [at_|] eqn:Hat; [|done]. bool_prop.
      pose proof (proj2 (proj1 (far_spec (queue s) _) (Z.le_refl _)) k r Hk) as Hf. rewrite Hat in Hf. simpl in Hf.
      unfold horizon, unix_milli in *. simpl in Hz. 
      pose proof (Z.mul_succ_div_gt (Z.max (clock s) t) 1000000 eq_refl). lia. }
    apply lowers_rank; simpl; try done; [unfold spoilt; simpl; lia|].
    left. unfold rank. simpl. rewrite Hw. rewrite decide_False by done. lia.
Qed.

Lemma turn_idle :
  worker s = Restoring \/ worker s = Top \/ worker s = Resting -> lowers (work i s0) s.
Proof using Hgo Hq.
  intros Hw. unfold work. rewrite works_quiet. simpl.
  destruct Hw as [Hw|[Hw|Hw]]; rewrite Hw; simpl.
  - unfold restorePaused. simpl. rewrite bool_decide_eq_false_2 by apply (qu_setting s Hq). simpl.
    apply lowers_rank; simpl; try done; [unfold spoilt; simpl; lia|]. left. unfold rank. simpl. rewrite Hw. lia.
  - rewrite held_quiet. apply lowers_rank; simpl; try done; [unfold spoilt; simpl; lia|].
    left. unfold rank. simpl. rewrite Hw. lia.
  - rewrite (qu_open s Hq). apply lowers_rank; simpl; try done; [unfold spoilt; simpl; lia|].
    assert (0 < idle true s0) by (unfold idle, queueIdle, second; destruct (NextRetry _ _); lia).
    set (s' := with_worker _ _). assert (horizon s' = horizon s0) as Hs' by done.
    pose proof (horizon_tick t s) as Ht. fold s0 in Ht.
    destruct (decide (horizon s' < horizon s)%nat) as [|Hge]; [by right|left].
    unfold rank. rewrite Hw. subst s'. cbn [worker with_worker]. destruct (decide (horizon s = 0%nat)) as [Hz|Hz].
    + rewrite decide_False by lia. lia.
    + rewrite decide_True; [lia|]. split; [lia|]. left. simpl in *. lia.
Qed.

Lemma turn_waiting u : worker s = Waiting u -> lowers (work i s0) s.
Proof using Hgo Hq.
  intros Hw. unfold work. rewrite works_quiet. simpl. rewrite Hw. cbn [closing with_clock s0]. rewrite (qu_open s Hq).
  destruct (wake (dl s)) eqn:Hwk.
  - right. split; [done|]. right. split; [unfold spoilt; simpl; lia|]. left. unfold woken. simpl. rewrite Hwk. lia.
  - destruct (go_waited _ _ _ Hgo u Hw) as [Hu|]; [|congruence].
    rewrite (proj2 (Z.leb_le _ _) Hu). apply lowers_rank; simpl; try done; [unfold spoilt; simpl; lia|].
    unfold rank at 1 2. simpl. rewrite Hw, Hwk. destruct (decide (horizon s <> 0%nat /\ _)) as [[Hh [Hc|]]|Hn]; [right|done|left; lia].
    unfold horizon in *. simpl. lia.
Qed.

(** *** With an episode in hand *)

Definition lost (q : QueuedDownload) : nat := if has_active (queue s) (key_of q) then 0%nat else 1%nat.

(** The row in hand settled: a download fewer to make, or a spoilt one out of the way. *)
Lemma lowers_settled q t' :
  in_hand (worker s) = Some q -> (lost q <= spoilt s)%nat ->
  (on_hand (queue s) (key_of q) -> (load t' < load (queue s))%nat) -> (load t' <= load (queue s))%nat ->
  lowers (with_worker (with_queue s0 t') Top) s.
Proof using Ho.
  intros Hw Hl Hlt Hle. unfold lost in Hl. destruct (has_active (queue s) (key_of q)) eqn:Hh.
  - left. simpl. apply Hlt. by apply on_hand_held.
  - apply lowers_spoilt; simpl; [done|]. unfold spoilt at 1. simpl. lia.
Qed.

Lemma turn_take_off q : worker s = Claimed q -> lowers (work i s0) s.
Proof using Hgo Hq Hm.
  intros Hw. unfold work. simpl. rewrite Hw. unfold take_off. change (held (dl s0)) with (held (dl s)). rewrite held_quiet.
  apply lowers_rank; simpl; try done.
  - unfold spoilt. simpl. rewrite Hw. rewrite decide_False; [done|].
    intros Hc. assert (runs s < runs s)%nat; [|lia]. apply (mem_fresh s Hm). by left.
  - left. unfold rank. simpl. rewrite Hw. lia.
Qed.

Lemma turn_fetch q id :
  worker s = Fetching q id \/ (exists err, worker s = Fetched q id err) -> lowers (work i s0) s.
Proof using Hgo.
  intros [Hw|[err Hw]]; unfold work; simpl; rewrite Hw.
  - destruct (go_ended _ _ _ Hgo q id Hw) as (err & -> & Hb). apply lowers_rank; simpl; try done.
    + unfold spoilt. simpl. rewrite Hw. destruct err as [e|]; [by rewrite Hb|done].
    + left. unfold rank. simpl. rewrite Hw. lia.
  - apply lowers_rank; simpl; try done; [unfold spoilt; simpl; by rewrite Hw|].
    left. unfold rank. simpl. rewrite Hw. lia.
Qed.

Lemma turn_settle q id err : worker s = Settling q id err -> lowers (work i s0) s.
Proof using Hgo Hq Ho.
  intros Hw. assert (in_hand (worker s) = Some q) as Hh by by rewrite Hw.
  unfold work. simpl. rewrite Hw, works_quiet. unfold settle. cbn [cancelled closing with_clock s0].
  rewrite (qu_open s Hq), andb_true_r, !done_quiet by done.
  destruct (outcome_of _ q err) as [| |why wait|cause] eqn:J; unfold outcome_of in J; (destruct (bool_decide (id ∈ cancelled s)) eqn:Hc; [try done|try done]).
  - bool_prop. destruct (requeue_table (key_of q)) as [Hl _]. apply lowers_spoilt; simpl; [by rewrite Hl|].
    unfold spoilt. simpl. rewrite Hw. rewrite decide_True by done. destruct err as [e|]; [destruct (is_paused e)|]; lia.
  - repeat case_match; done.
  - destruct err as [e|]; [|done]. destruct (is_paused e) eqn:Hp; [|by repeat case_match].
    apply lowers_rank; simpl; try done.
    + unfold spoilt. simpl. rewrite Hw, Hp. done.
    + left. unfold rank. simpl. rewrite Hw. lia.
  - bool_prop. apply (lowers_settled q); [done| |apply defer_lowers|].
    + unfold spoilt, lost. rewrite Hw, decide_False by done. by destruct err as [e|]; [destruct (is_paused e)|].
    + apply defer_load. intros r Hr. by destruct (ord_tries s Ho _ r Hr).
  - bool_prop. apply lowers_rank; simpl; try done; [|left; unfold rank; simpl; rewrite Hw; lia].
    unfold spoilt. simpl. rewrite Hw, decide_False by done. by destruct err as [e|]; [destruct (is_paused e)|].
Qed.

Lemma turn_paused q : worker s = AskingPaused q -> lowers (work i s0) s.
Proof using Hgo Hq.
  intros Hw. unfold work. simpl. rewrite Hw, works_quiet, done_quiet by done.
  destruct (pausedByUser _ _).
  - apply lowers_rank; simpl; try done; [|left; unfold rank; simpl; rewrite Hw; lia].
    unfold spoilt. simpl. rewrite Hw. destruct (has_active _ _); lia.
  - destruct (requeue_table (key_of q)) as [Hl _]. apply lowers_spoilt; simpl; [by rewrite Hl|].
    unfold spoilt. simpl. rewrite Hw. lia.
Qed.

Lemma turn_finish q cause : worker s = Finishing q cause -> lowers (work i s0) s.
Proof using Hgo Hq Ho.
  intros Hw. unfold work. simpl. rewrite Hw, works_quiet, done_quiet by done.
  apply (lowers_settled q); [by rewrite Hw| |apply finish_lowers|apply load_FinishQueued].
  unfold spoilt, lost. by rewrite Hw.
Qed.

Lemma turn_lowers : load (queue s) <> 0%nat -> lowers (work i s0) s.
Proof using Hgo Hq Hm Ho.
  intros Hl. destruct (worker s) eqn:Hw;
    eauto using turn_booting, turn_claim, turn_idle, turn_waiting, turn_take_off, turn_settle, turn_paused, turn_finish, turn_fetch.
  by destruct (qu_running s Hq).
Qed.

(** ** And leaves it quiet *)

Lemma turn_quiet : quiet (work i s0).
Proof using Hgo Hq.
  destruct Hq as [Hc Hp Hwt Hs Hopen Hr].
  unfold work, settle, take_off, restorePaused. rewrite works_quiet. simpl. rewrite Hopen. rewrite !done_quiet by done.
  rewrite held_quiet. destruct (worker s) eqn:Hw; try done.
  all: repeat case_match; split; simpl; rewrite ?Hw; try done.
  all: bool_prop; done.
Qed.

End turn.

Lemma load_settled s : orderly s -> load (queue s) = 0%nat -> settled (queue s).
Proof using Type.
  intros Ho Hz k r Hk. pose proof (proj1 (load_zero _) Hz k r Hk) as Hw. pose proof (ord_tries s Ho k r Hk) as Ht.
  unfold weight in Hw. unfold queueRetries in *. destruct (state r); try done; lia.
Qed.

Lemma goes_some s : exists i t, goes i t s.
Proof using Type.
  exists (mkInput true (map fst (map_to_list (queue s))) (Some None) None).
  exists (match worker s with Waiting u => u | _ => 0 end). split; simpl.
  - by unfold reads.
  - done.
  - intros q id _. by exists None.
  - intros u ->. left. lia.
Qed.

(** C22: whatever state requests, streams, pauses and restarts have brought the
    queue to, once nobody pauses it, watches or asks for anything, every way the
    worker can go on ends with no episode waiting or downloading: each came down,
    failed, or was dropped.  That has_active whatever each download comes to (nothing
    but a pause of its torrent excluded), however long it takes, in whatever
    order equal rows are read, and through the waits for later tries. *)
Theorem queue_drains s (Hr : reachable false s) (Hq : quiet s) : bound_to (fun s => settled (queue s)) s.
Proof using Type.
  remember (measure s) as n eqn:Hn. revert s Hn Hr Hq.
  induction (down_wf n) as [n _ IH]. intros s -> Hr Hq.
  destruct (decide (load (queue s) = 0%nat)) as [Hz|Hz].
  - apply bound_now, load_settled; [by apply reachable_orderly|done].
  - apply bound_later; [apply goes_some|]. intros i t Hgo.
    assert (reachable false (turn i t s)) as Hr'.
    { apply reachable_step; [by apply reachable_step|]. destruct Hgo. by split. }
    eapply IH; [|reflexivity|done|by apply turn_quiet].
    apply lowers_down, turn_lowers; [done..|by eapply reachable_memory|by apply reachable_orderly|done].
Qed.

End drain.

(** Two episodes asked for, one of them already tried and put off. *)
Definition asked : list (@event) :=
  [ECall (REnqueue 7 1 [1; 2]); EExec 0 true; EExec 0 true].

Lemma queue_drains_witness :
  bound_to (H := ascii_unicode) (fun s => settled (queue s)) (replay (H := ascii_unicode) asked (begin_at 5000000000 None)).
Proof.
  apply (@queue_drains ascii_unicode).
  - apply reachable_replay; [apply reachable_start|]. repeat split.
  - assert (calls (replay (H := ascii_unicode) asked (begin_at 5000000000 None)) = [[]]) as Hc by (vm_compute; reflexivity).
    split; [|vm_compute; congruence..]. intros l. rewrite Hc. apply list_elem_of_singleton.
Defined.
