(* ===== verification/Hls.v ===== *)
(** * Stream sessions: internal/transcode/hls.go

    One session's encoder passes and the segment files they leave in its folder:
    launching, moving, stopping and seeing out an encoder, falling back to
    software, switching what is encoded, and deciding that a segment may be
    served.  The goroutines meet at two locks ([startMu], [mu]); an [event] is one
    stretch between them, or something an ffmpeg process does.  ffmpeg is not
    modelled beyond its contract: a pass writes its segments in order, one at a
    time, opening the next only when the last is closed; a process that is killed
    goes; and one that ends cleanly leaves a short last segment only when its
    source was cut short, and says so.  [whole] is the model's own mark on a
    segment that was closed whole; the code never reads it. *)
From stdpp Require Import base gmap strings list.
From Stdlib Require Import ZArith Lia.
From S2P Require Import Prelude GoStr Float64.

(** ** The playlist *)

Definition SegmentSeconds : f64 := of_int 6.
Definition restartAfterSegments : Z := 4.

Definition segmentCount (duration : f64) : Z :=
  let n := to_i64 (fdiv duration SegmentSeconds) in
  let n := if fge (fsub duration (fmul (of_int n) SegmentSeconds)) (of_int 1) then n + 1 else n in
  Z.max n 1.

(** ** ffmpeg's words *)

Definition softwareEncoder : string := "libx264".

Definition usesHardware (codec : string) : bool :=
  existsb (fun suffix => contains codec suffix) ["nvenc"; "qsv"; "amf"; "vaapi"].

Definition remote (source : string) : bool := has_prefix source "http://" || has_prefix source "https://".

Definition endedEarly (detail : string) : bool :=
  existsb (fun sign => contains detail sign)
    ["ends prematurely"; "Error during demuxing"; "I/O error"; "Input/output error"].

Definition cutShort (source detail : string) : bool := remote source && endedEarly detail.

Section ffmpeg.
Context `{Unicode}.

Definition encoderInitFailed (detail : string) : bool :=
  existsb (fun m => contains (to_lower detail) m)
    ["initializeencoder"; "openencodesessionex"; "cannot load"; "cannot init";
     "no capable devices"; "doesn't support"; "no device"; "error initializing";
     "init failed"; "not supported"; "failed to initialise"; "failed to initialize"].

Definition lastLines (s : string) (n : nat) : string :=
  let s := trim_space s in
  if String.eqb s "" then ""
  else
    let lines := split s (String (Ascii.ascii_of_nat 10) "") in
    join (map trim_space (drop (length lines - n) lines)) " | ".
End ffmpeg.

(** ** Data *)

(** A segment file: whether it is not empty, holds media, was closed whole; when it
    was last written and by which process. *)
Record seg := mkSeg { sized : bool; media : bool; whole : bool; mtime : Z; writer : nat }.

(** A process: where it began and when, the segment it writes or writes next,
    whether that one is open, how it ended (cleanly or not, and its last words),
    and whether it was told to go. *)
Record proc := mkProc {
  from : Z; began : Z; next : Z; opened : bool; exited : option (bool * string); killed : bool;
}.

(** What [startMu] holds a goroutine in the middle of. *)
Inductive after := Restarting (from : Z) | Wiping.

Inductive starting :=
  | Free
  | Chosen (a : after)
  | Stopping (r : option nat) (a : after)
  | Launching (from : Z)
  | Publishing (from : Z) (r : nat).

Record Session := mkSession {
  Source : string;
  Segments : Z;
  VideoCodec : string;
  VideoCopy : bool;
  run : option nat;
  ended : option nat;
  headFrom : Z;
  headTo : Z;
  closed : bool;
  fellBack : bool;
  waiters : gmap Z Z;
}.

Record sys := mkSys {
  ses : Session;
  files : gmap Z seg;
  init : bool;
  procs : gmap nat proc;
  fresh : nat;
  clock : Z;
  starter : starting;
}.

(** ** Reading the folder *)

Definition fileReady (s : sys) (n : Z) : bool := match files s !! n with Some f => sized f | None => false end.
Definition segmentReady (s : sys) (n : Z) : bool := match files s !! n with Some f => media f | None => false end.

(** [r.wrote(n)] *)
Definition wrote (s : sys) (r : nat) (n : Z) : bool :=
  match files s !! n, procs s !! r with
  | Some f, Some p => sized f && (began p <=? mtime f)
  | _, _ => false
  end.

(** [for ; ok(n); n++ {}]: the first that is not, with fuel. *)
Fixpoint first_not (ok : Z -> bool) (n : Z) (fuel : nat) : Z :=
  match fuel with
  | O => n
  | S fuel => if ok n then first_not ok (n + 1) fuel else n
  end.

(** Enough fuel for a loop over files that are there. *)
Definition enough (s : sys) : nat := S (size (files s)).

Definition nextStarted (s : sys) (n : Z) : bool :=
  match run (ses s) with
  | Some r =>
      match procs s !! r with
      | Some p => if from p <=? n then wrote s r (n + 1) else fileReady s (n + 1)
      | None => false
      end
  | None => fileReady s (n + 1)
  end.

Definition wroteWhole (s : sys) (n : Z) : bool :=
  match ended (ses s) with Some r => wrote s r n | None => false end.

Definition running (s : sys) : bool := match run (ses s) with Some _ => true | None => false end.

Definition shouldRestart (n from to : Z) (active : bool) : bool :=
  if negb active then true
  else if n <? from then true
  else if to + 1 + restartAfterSegments <? n then true
  else false.

(** ** Updates *)

Definition set_ses (s : sys) (x : Session) : sys := mkSys x (files s) (init s) (procs s) (fresh s) (clock s) (starter s).
Definition set_files (s : sys) (f : gmap Z seg) : sys := mkSys (ses s) f (init s) (procs s) (fresh s) (clock s) (starter s).
Definition set_init (s : sys) (b : bool) : sys := mkSys (ses s) (files s) b (procs s) (fresh s) (clock s) (starter s).
Definition set_procs (s : sys) (p : gmap nat proc) : sys := mkSys (ses s) (files s) (init s) p (fresh s) (clock s) (starter s).
Definition set_starter (s : sys) (x : starting) : sys := mkSys (ses s) (files s) (init s) (procs s) (fresh s) (clock s) x.

Definition set_run (x : Session) (r : option nat) : Session :=
  mkSession (Source x) (Segments x) (VideoCodec x) (VideoCopy x) r (ended x) (headFrom x) (headTo x) (closed x)
    (fellBack x) (waiters x).
Definition set_ended (x : Session) (r : option nat) : Session :=
  mkSession (Source x) (Segments x) (VideoCodec x) (VideoCopy x) (run x) r (headFrom x) (headTo x) (closed x)
    (fellBack x) (waiters x).
Definition set_head (x : Session) (a b : Z) : Session :=
  mkSession (Source x) (Segments x) (VideoCodec x) (VideoCopy x) (run x) (ended x) a b (closed x)
    (fellBack x) (waiters x).
Definition set_closed (x : Session) : Session :=
  mkSession (Source x) (Segments x) (VideoCodec x) (VideoCopy x) (run x) (ended x) (headFrom x) (headTo x) true
    (fellBack x) (waiters x).
Definition set_software (x : Session) : Session :=
  mkSession (Source x) (Segments x) softwareEncoder (VideoCopy x) (run x) (ended x) (headFrom x) (headTo x) (closed x)
    true (waiters x).
Definition set_plan (x : Session) (codec : string) (copy : bool) : Session :=
  mkSession (Source x) (Segments x) codec copy (run x) (ended x) (headFrom x) (headTo x) (closed x)
    (fellBack x) (waiters x).
Definition set_waiters (x : Session) (w : gmap Z Z) : Session :=
  mkSession (Source x) (Segments x) (VideoCodec x) (VideoCopy x) (run x) (ended x) (headFrom x) (headTo x) (closed x)
    (fellBack x) w.

(** ** The folder's writers *)

Definition remove_from (s : sys) (a b : Z) : sys :=
  set_files s (filter (fun x : Z * seg => negb ((a <=? x.1) && (x.1 <? b)) = true) (files s)).

Definition dropTail (s : sys) (r : nat) : sys :=
  match procs s !! r with
  | Some p =>
      let stop := first_not (wrote s r) (from p) (enough s) in
      if from p <? stop then set_files s (delete (stop - 1) (files s)) else s
  | None => s
  end.

(** [for n := from; fileReady(n); n++ { Remove }] *)
Definition clear_from (s : sys) (n : Z) : sys :=
  remove_from s n (first_not (fileReady s) n (enough s)).

Definition wipeOutput (s : sys) : sys := set_init (remove_from s 0 (Segments (ses s))) false.

(** [launch]: the next process, begun at a reading of the clock after every write
    so far. *)
Definition launch (s : sys) (from_ : Z) : sys * nat :=
  (mkSys (ses s) (files s) (init s) (<[fresh s := mkProc from_ (clock s + 1) from_ false None false]> (procs s))
     (S (fresh s)) (clock s + 1) (starter s), fresh s).

Definition kill (s : sys) (r : nat) : sys :=
  match procs s !! r with
  | Some p => set_procs s (<[r := mkProc (from p) (began p) (next p) (opened p) (exited p) true]> (procs s))
  | None => s
  end.

(** ** The loops end *)

Lemma first_not_spec ok n fuel :
  n <= first_not ok n fuel <= n + Z.of_nat fuel /\
  (forall i, n <= i < first_not ok n fuel -> ok i = true) /\
  (first_not ok n fuel < n + Z.of_nat fuel -> ok (first_not ok n fuel) = false).
Proof.
  revert n. induction fuel as [|fuel IH]; intros n; simpl; [repeat split; lia|].
  destruct (ok n) eqn:E; [|repeat split; [lia..|done]].
  destruct (IH (n + 1)) as ((Hlo & Hhi) & Hall & Hend). repeat split; [lia..| |intros; apply Hend; lia].
  intros i Hi. destruct (decide (i = n)) as [->|]; [done|]. apply Hall. lia.
Qed.

(** A loop over files that are there meets one that is not within as many turns as
    there are files, and one more. *)
Lemma first_not_enough (m : gmap Z seg) ok n :
  (forall i, ok i = true -> is_Some (m !! i)) -> ok (first_not ok n (S (size m))) = false.
Proof.
  intros Hok. destruct (first_not_spec ok n (S (size m))) as ((Hlo & Hhi) & Hall & Hend).
  destruct (decide (first_not ok n (S (size m)) < n + Z.of_nat (S (size m)))) as [|Hge]; [auto|exfalso].
  assert (list_to_set (seqZ n (Z.of_nat (S (size m)))) ⊆ dom m) as Hsub.
  { intros i Hi. apply elem_of_list_to_set, elem_of_seqZ in Hi. apply elem_of_dom, Hok, Hall. lia. }
  apply subseteq_size in Hsub. rewrite size_dom, size_list_to_set in Hsub by apply NoDup_seqZ.
  rewrite length_seqZ in Hsub. lia.
Qed.

Lemma wrote_file s r n : wrote s r n = true -> is_Some (files s !! n).
Proof. unfold wrote. destruct (files s !! n); [eauto|done]. Qed.

Lemma fileReady_file s n : fileReady s n = true -> is_Some (files s !! n).
Proof. unfold fileReady. destruct (files s !! n); [eauto|done]. Qed.

(** [dropTail]'s loop finds where the process's files stop. *)
Lemma dropTail_stop s r n :
  wrote s r (first_not (wrote s r) n (enough s)) = false.
Proof. apply first_not_enough. apply wrote_file. Qed.

Lemma first_not_is ok n m fuel :
  n <= m -> (forall i, n <= i < m -> ok i = true) -> ok m = false -> ok (first_not ok n fuel) = false ->
  first_not ok n fuel = m.
Proof.
  intros Hnm Hall Hm Hend. destruct (first_not_spec ok n fuel) as ((Hlo & _) & Hok & _).
  destruct (Z.lt_trichotomy (first_not ok n fuel) m) as [Hlt|[|Hgt]]; [|done|].
  - rewrite Hall in Hend by lia. done.
  - rewrite Hok in Hm by lia. done.
Qed.

(** ** Starting a pass, and switching what is encoded *)

(** [startLocked] up to its first unlock; [startIfIdle] first where [only_idle]. *)
Definition start (only_idle : bool) (from_ : Z) (s : sys) : sys :=
  let x := ses s in
  if closed x then s
  else if only_idle && running s then s
  else if running s && (headFrom x <=? from_) && (from_ - headFrom x <=? restartAfterSegments) then s
  else set_starter s (Chosen (Restarting from_)).

(** [SetAudioTrack] and [SetSound] up to theirs: the plan is made anew. *)
Definition switch (codec : string) (copy : bool) (s : sys) : sys :=
  if closed (ses s) then s
  else set_starter (set_ses s (set_head (set_plan (ses s) codec copy) (-1) (-1))) (Chosen Wiping).

(** [stop] up to its unlock: the pass taken off the session, and told to go. *)
Definition stop (s : sys) : sys * option nat :=
  let r := run (ses s) in
  let s' := set_ses s (set_ended (set_run (ses s) None) None) in
  (match r with Some r => kill s' r | None => s' end, r).

Definition gone (s : sys) (r : option nat) : bool :=
  match r with
  | None => true
  | Some r => match procs s !! r with Some p => match exited p with Some _ => true | None => false end | None => true end
  end.

(** A goroutine in the middle of a start or a switch goes on; [ok]: ffmpeg starts.
    The wait in [stop] is for the process to have gone; [awaitStranded] only
    delays the stop. *)
Definition go_on (ok : bool) (s : sys) : sys :=
  match starter s with
  | Free => s
  | Chosen a => let (s', r) := stop s in set_starter s' (Stopping r a)
  | Stopping r a =>
      if gone s r then
        match a with
        | Restarting from_ =>
            let s' := match r with Some r => dropTail s r | None => s end in
            set_starter (clear_from s' from_) (Launching from_)
        | Wiping => set_starter (wipeOutput s) Free
        end
      else s
  | Launching from_ =>
      if ok then let (s', r) := launch s from_ in set_starter s' (Publishing from_ r)
      else set_starter s Free
  | Publishing from_ r =>
      if closed (ses s) then set_starter (kill s r) Free
      else set_starter (set_ses s (set_head (set_run (ses s) (Some r)) from_ (from_ - 1))) Free
  end.

(** ** Seeing a pass out *)

Definition encoderLogLines : nat := 10.

Section await.
Context `{Unicode}.

Definition canFallBack (s : sys) (from_ : Z) (detail : string) : bool :=
  negb (fellBack (ses s)) && negb (VideoCopy (ses s)) && usesHardware (VideoCodec (ses s)) &&
  negb (fileReady s from_) && encoderInitFailed detail.

Definition switchToSoftware (s : sys) : sys :=
  let s' := set_ses s (set_software (ses s)) in
  if init s then wipeOutput s' else s'.

(** [ok]: the software pass starts. *)
Definition await (ok : bool) (r : nat) (s : sys) : sys :=
  match procs s !! r with
  | Some p =>
      match exited p with
      | None => s
      | Some (clean, stderr) =>
          let detail := lastLines stderr encoderLogLines in
          if negb (bool_decide (run (ses s) = Some r)) then s
          else
            let s1 := set_ses s (set_run (ses s) None) in
            if clean then
              let s2 := if cutShort (Source (ses s)) detail then dropTail s1 r else s1 in
              set_ses s2 (set_ended (ses s2) (Some r))
            else
              let retry := canFallBack s1 (from p) detail in
              let s2 := dropTail s1 r in
              if negb retry || closed (ses s) then set_ses s2 (set_ended (ses s2) (Some r))
              else
                let s3 := switchToSoftware s2 in
                if ok then
                  let (s4, q) := launch s3 (from p) in
                  set_ses s4 (set_head (set_run (ses s4) (Some q)) (from p) (from p - 1))
                else s3
      end
  | None => s
  end.

(** ** Waiting for a segment *)

Definition advanceHead (s : sys) : sys :=
  match run (ses s) with
  | None => s
  | Some r =>
      let to := first_not (fun n => wrote s r (n + 1) && wrote s r (n + 2)) (headTo (ses s)) (enough s) in
      set_ses s (set_head (ses s) (headFrom (ses s)) to)
  end.

(** What [ensureHead] asks for. *)
Definition ensureHead (s : sys) (n : Z) : bool :=
  shouldRestart n (headFrom (ses s)) (headTo (ses s)) (running s).

(** A waiter soon served by the pass running and not by one from [from_]. *)
Definition stranded (s : sys) (from_ : Z) : bool :=
  let x := ses s in
  existsb (fun n => negb (shouldRestart n (headFrom x) (headTo x) (running s)) &&
                    shouldRestart n from_ (from_ - 1) true)
    (map fst (map_to_list (waiters x))).

Definition addWaiter (s : sys) (n : Z) : sys :=
  let w := waiters (ses s) in set_ses s (set_waiters (ses s) (<[n := default 0 (w !! n) + 1]> w)).

Definition dropWaiter (s : sys) (n : Z) : sys :=
  let w := waiters (ses s) in
  let k := default 0 (w !! n) - 1 in
  set_ses s (set_waiters (ses s) (if k <=? 0 then delete n w else <[n := k]> w)).

(** One look of [WaitSegment]'s loop. *)
Inductive look := Serve | Relaunch | Missing | Sleep.

Definition wait_look (s : sys) (n : Z) (restarted : bool) : look :=
  if segmentReady s n && (nextStarted s n || (Segments (ses s) - 1 <=? n) || wroteWhole s n) then Serve
  else if negb (running s) then if restarted then Missing else Relaunch
  else Sleep.

(** ** Runs *)

Inductive event :=
  | EStart (only_idle : bool) (from : Z)
  | ESwitch (codec : string) (copy : bool)
  | EGoOn (ok : bool)
  | EAwait (ok : bool) (r : nat)
  | EAdvance
  | EWaiter (n : Z) (add : bool)
  | EClose
  | EHalt
  | ETick (d : Z)
  | EInit (r : nat)
  | EOpen (r : nat)
  | EWrite (r : nat) (media : bool)
  | EShut (r : nat)
  | EExit (r : nat) (clean : bool) (stderr : string).

(** What a living process does. *)
Definition on_proc (s : sys) (r : nat) (f : proc -> sys) : sys :=
  match procs s !! r with
  | Some p => match exited p with None => f p | Some _ => s end
  | None => s
  end.

Definition put (s : sys) (r : nat) (p : proc) (n : Z) (f : seg) : sys :=
  set_procs (set_files s (<[n := f]> (files s))) (<[r := p]> (procs s)).

Definition do_open (s : sys) (r : nat) : sys :=
  on_proc s r (fun p =>
    if opened p then s
    else put s r (mkProc (from p) (began p) (next p) true None (killed p)) (next p)
           (mkSeg false false false (clock s) r)).

Definition do_write (s : sys) (r : nat) (m : bool) : sys :=
  on_proc s r (fun p =>
    if opened p then
      put s r p (next p) (mkSeg true (m || segmentReady s (next p)) false (clock s) r)
    else s).

Definition do_shut (s : sys) (r : nat) : sys :=
  on_proc s r (fun p =>
    if opened p then
      put s r (mkProc (from p) (began p) (next p + 1) false None (killed p)) (next p)
        (mkSeg true true true (clock s) r)
    else s).

Definition do_exit (s : sys) (r : nat) (clean : bool) (stderr : string) : sys :=
  on_proc s r (fun p =>
    set_procs s (<[r := mkProc (from p) (began p) (next p) (opened p) (Some (clean, stderr)) (killed p)]> (procs s))).

Definition is_free (s : sys) : bool := match starter s with Free => true | _ => false end.

Definition apply (e : event) (s : sys) : sys :=
  match e with
  | EStart only_idle n => if is_free s then start only_idle n s else s
  | ESwitch codec copy => if is_free s then switch codec copy s else s
  | EGoOn ok => go_on ok s
  | EAwait ok r => await ok r s
  | EAdvance => advanceHead s
  | EWaiter n add => if add then addWaiter s n else dropWaiter s n
  | EClose => set_ses s (set_closed (ses s))
  | EHalt => if closed (ses s) then fst (stop s) else s
  | ETick d => mkSys (ses s) (files s) (init s) (procs s) (fresh s) (clock s + Z.max 0 d) (starter s)
  | EInit r => on_proc s r (fun _ => set_init s true)
  | EOpen r => do_open s r
  | EWrite r m => do_write s r m
  | EShut r => do_shut s r
  | EExit r clean stderr => do_exit s r clean stderr
  end.

(** ffmpeg's contract: it ends cleanly in the middle of a segment only when its
    source was cut short, and its last words say so. *)
Definition allowed (e : event) (s : sys) : Prop :=
  match e with
  | EExit r true stderr =>
      forall p, procs s !! r = Some p -> opened p = true ->
        cutShort (Source (ses s)) (lastLines stderr encoderLogLines) = true
  | _ => True
  end.

(** A session as [OpenProbing] makes it. *)
Definition opened_session (source codec : string) (copy : bool) (segments t : Z) : sys :=
  mkSys (mkSession source segments codec copy None None (-1) 0 false false ∅) ∅ false ∅ 0 t Free.

Inductive reachable : sys -> Prop :=
  | reachable_open source codec copy segments t : reachable (opened_session source codec copy segments t)
  | reachable_step e s : reachable s -> allowed e s -> reachable (apply e s).

(** ** What the folder holds

    Under [mu] and [startMu] a session answers for at most one process, [cur]: the
    pass running, one told to go, or one not yet put on record. *)

Definition is_live (p : proc) : Prop := exited p = None.

Record holding (src : string) (segs : Z) (fs : gmap Z seg) (ps : gmap nat proc) (fr : nat) (ck : Z) (cur : option nat) : Prop := {
  fo_live : forall r p, ps !! r = Some p -> is_live p -> cur = Some r;
  fo_procs : forall r p, ps !! r = Some p -> (r < fr)%nat /\ began p <= ck /\ from p <= next p;
  fo_known : forall r, cur = Some r -> is_Some (ps !! r);
  fo_words : forall r p stderr, ps !! r = Some p -> exited p = Some (true, stderr) -> opened p = true ->
    cutShort src (lastLines stderr encoderLogLines) = true;
  fo_files : forall n f, fs !! n = Some f -> mtime f <= ck /\ (media f = true -> sized f = true) /\ (writer f < fr)%nat;
  fo_stamp : forall n f p, fs !! n = Some f -> ps !! writer f = Some p -> began p <= mtime f;
  fo_whole : forall n f, 0 <= n < segs -> fs !! n = Some f -> media f = true -> whole f = true \/
    (cur = Some (writer f) /\ exists p, ps !! writer f = Some p /\ opened p = true /\ next p = n);
  fo_own : forall r p n f, cur = Some r -> ps !! r = Some p -> fs !! n = Some f -> began p <= mtime f ->
    writer f = r /\ from p <= n <= next p /\ (n = next p -> opened p = true);
  fo_all : forall r p n, cur = Some r -> ps !! r = Some p -> from p <= n < next p ->
    exists f, fs !! n = Some f /\ writer f = r /\ sized f = true;
  fo_open : forall r p, cur = Some r -> ps !! r = Some p -> opened p = true ->
    exists f, fs !! next p = Some f /\ writer f = r;
}.

(** Files taken away while no process is about. *)
Lemma folder_sub src segs fs fs' ps fr ck :
  holding src segs fs ps fr ck None -> fs' ⊆ fs -> holding src segs fs' ps fr ck None.
Proof using Type.
  intros [] Hs. assert (forall n f, fs' !! n = Some f -> fs !! n = Some f) as Hs' by (intros; by eapply lookup_weaken).
  split; eauto; discriminate.
Qed.

Lemma folder_tick src segs fs ps fr ck ck' cur : ck <= ck' -> holding src segs fs ps fr ck cur -> holding src segs fs ps fr ck' cur.
Proof using Type.
  intros Hle []. split; eauto.
  - intros r p Hp. destruct (fo_procs0 r p Hp) as (? & ? & ?). split_and!; [done|lia|done].
  - intros n f Hf. destruct (fo_files0 n f Hf) as (? & ? & ?). split_and!; [lia|done..].
Qed.

(** A process begun when no other is about. *)
Lemma folder_launch src segs fs ps fr ck from_ :
  holding src segs fs ps fr ck None ->
  holding src segs fs (<[fr := mkProc from_ (ck + 1) from_ false None false]> ps) (S fr) (ck + 1) (Some fr).
Proof using Type.
  intros []. assert (ps !! fr = None) as Hfr.
  { destruct (ps !! fr) as [p|] eqn:E; [|done]. destruct (fo_procs0 fr p E). lia. }
  assert (forall r p, <[fr := mkProc from_ (ck + 1) from_ false None false]> ps !! r = Some p ->
    (r = fr /\ p = mkProc from_ (ck + 1) from_ false None false) \/ (r <> fr /\ ps !! r = Some p)) as Hlk.
  { intros r p [[<- <-]|[Hne Hp]]%lookup_insert_Some; [by left|right; split; [congruence|done]]. }
  split.
  - intros r p Hp Hl. destruct (Hlk r p Hp) as [[-> _]|[_ Hp']]; [done|]. by specialize (fo_live0 r p Hp' Hl).
  - intros r p Hp. destruct (Hlk r p Hp) as [[-> ->]|[_ Hp']]; simpl; [split_and!; lia|].
    destruct (fo_procs0 r p Hp') as (? & ? & ?). split_and!; lia.
  - intros r [= <-]. rewrite lookup_insert_eq. eauto.
  - intros r p stderr Hp. destruct (Hlk r p Hp) as [[-> ->]|[_ Hp']]; [done|eauto].
  - intros n f Hf. destruct (fo_files0 n f Hf) as (? & ? & ?). split_and!; [lia|done|lia].
  - intros n f p Hf Hp. destruct (Hlk _ p Hp) as [[Hw ->]|[_ Hp']]; [|eauto].
    exfalso. destruct (fo_files0 n f Hf) as (_ & _ & ?). lia.
  - intros n f Hn Hf Hm. left. by destruct (fo_whole0 n f Hn Hf Hm) as [|[? _]].
  - intros r p n f [= <-] Hp Hf Hb. rewrite lookup_insert_eq in Hp. injection Hp as <-. simpl in Hb.
    destruct (fo_files0 n f Hf). lia.
  - intros r p n [= <-] Hp Hn. rewrite lookup_insert_eq in Hp. injection Hp as <-. simpl in Hn. lia.
  - intros r p [= <-] Hp Ho. rewrite lookup_insert_eq in Hp. by injection Hp as <-.
Qed.

(** The process about, and what it is. *)
Section about.
Context (src : string) (segs : Z) (fs : gmap Z seg) (ps : gmap nat proc) (fr : nat) (ck : Z) (r : nat) (p : proc).
Context (Hf : holding src segs fs ps fr ck (Some r)) (Hp : ps !! r = Some p).

(** It has gone, and its last segment was not left open. *)
Lemma folder_done : exited p <> None -> opened p = false -> holding src segs fs ps fr ck None.
Proof using Hf Hp.
  intros Hx Ho. destruct Hf. split; eauto; try discriminate.
  - intros r' p' Hp' Hl. specialize (fo_live0 r' p' Hp' Hl). unfold is_live in Hl. congruence.
  - intros n f Hr Hn Hm. destruct (fo_whole0 n f Hr Hn Hm) as [|([= ->] & p' & Hp' & Ho' & _)]; [by left|congruence].
Qed.

(** It has gone, and every segment of the playlist with it. *)
Lemma folder_wiped fs' :
  exited p <> None -> fs' ⊆ fs -> (forall n, 0 <= n < segs -> fs' !! n = None) -> holding src segs fs' ps fr ck None.
Proof using Hf Hp.
  intros Hx Hs Ht. assert (forall n f, fs' !! n = Some f -> fs !! n = Some f) as Hs' by (intros; by eapply lookup_weaken).
  destruct Hf. split; eauto; try discriminate.
  - intros r' p' Hp' Hl. specialize (fo_live0 r' p' Hp' Hl). unfold is_live in Hl. congruence.
  - intros n f Hr Hn. by rewrite Ht in Hn.
Qed.

(** It has gone, and the segment it left open with it. *)
Lemma folder_untailed fs' :
  exited p <> None -> fs' ⊆ fs -> (forall f, fs' !! next p = Some f -> media f = false \/ writer f <> r \/ opened p = false) ->
  holding src segs fs' ps fr ck None.
Proof using Hf Hp.
  intros Hx Hs Ht. assert (forall n f, fs' !! n = Some f -> fs !! n = Some f) as Hs' by (intros; by eapply lookup_weaken).
  destruct Hf. split; eauto; try discriminate.
  - intros r' p' Hp' Hl. specialize (fo_live0 r' p' Hp' Hl). unfold is_live in Hl. congruence.
  - intros n f Hr Hn Hm. destruct (fo_whole0 n f Hr (Hs' n f Hn) Hm) as [|([= Hw] & p' & Hp' & Ho' & Hnext)]; [by left|].
    exfalso. rewrite <- Hw, Hp in Hp'. injection Hp' as <-. subst n.
    destruct (Ht f Hn) as [|[|]]; congruence.
Qed.

(** Its own files, in order, and none beyond the one it has open. *)
Lemma wrote_own s n :
  files s = fs -> procs s = ps -> from p <= n ->
  wrote s r n = true <-> n < next p \/ (n = next p /\ opened p = true /\ exists f, fs !! n = Some f /\ sized f = true).
Proof using Hf Hp.
  intros Hfs Hps Hn. destruct Hf. unfold wrote. rewrite Hfs, Hps, Hp. split.
  - destruct (fs !! n) as [f|] eqn:E; [|done]. intros Hw. bool_prop.
    destruct (fo_own0 r p n f eq_refl Hp E) as (_ & Hb & Ho); [lia|].
    destruct (decide (n = next p)) as [->|]; [right; split_and!; eauto|left; lia].
  - intros [Hlt|(-> & Ho & f & Ef & Hsz)].
    + destruct (fo_all0 r p n eq_refl Hp) as (f & Ef & Hw & Hsz); [lia|]. rewrite Ef, Hsz. simpl.
      apply Z.leb_le. apply (fo_stamp0 n f p Ef). by rewrite Hw.
    + rewrite Ef, Hsz. simpl. destruct (fo_open0 r p eq_refl Hp Ho) as (f' & Ef' & Hw).
      rewrite Ef in Ef'. injection Ef' as <-. apply Z.leb_le. apply (fo_stamp0 (next p) f p Ef). by rewrite Hw.
Qed.

(** [dropTail] takes the segment the process left open, if anything of it is there. *)
Lemma folder_dropTail s :
  files s = fs -> procs s = ps -> exited p <> None -> holding src segs (files (dropTail s r)) ps fr ck None.
Proof using Hf Hp.
  intros Hfs Hps Hx. pose proof (fo_procs _ _ _ _ _ _ _ Hf r p Hp) as (_ & _ & Hnext).
  unfold dropTail. rewrite Hps, Hp. set (stop := first_not (wrote s r) (from p) (enough s)).
  assert (wrote s r stop = false) as Hend by apply dropTail_stop.
  destruct (first_not_spec (wrote s r) (from p) (enough s)) as ((Hlo & _) & Hall & _).
  fold stop in Hlo, Hall.
  destruct (opened p && match fs !! next p with Some f => sized f | None => false end) eqn:Hop.
  - bool_prop. destruct (fs !! next p) as [f|] eqn:Ef; [|done].
    assert (stop = next p + 1) as ->.
    { apply first_not_is; [lia| | |done].
      - intros i Hi. apply (wrote_own s); [done..|lia|]. destruct (decide (i = next p)) as [->|]; [right|left; lia].
        split_and!; eauto.
      - apply not_true_iff_false. intros Hw%(wrote_own s); [lia|done..|lia]. }
    rewrite (proj2 (Z.ltb_lt _ _)) by lia. simpl. replace (next p + 1 - 1) with (next p) by lia. rewrite Hfs.
    apply folder_untailed; [done|apply delete_subseteq|]. intros f'. by rewrite lookup_delete_eq.
  - apply folder_untailed; [done|destruct (from p <? stop); simpl; rewrite Hfs; [apply delete_subseteq|done]|].
    intros f Hf'. assert (fs !! next p = Some f) as Ef.
    { destruct (from p <? stop); simpl in Hf'; rewrite Hfs in Hf'; [|done]. by apply lookup_delete_Some in Hf' as [_ ?]. }
    destruct (opened p) eqn:Ho; [|auto]. left. destruct (media f) eqn:Hm; [|done].
    destruct (fo_files _ _ _ _ _ _ _ Hf _ _ Ef) as (_ & Hms & _).
    by rewrite Ef, (Hms Hm) in Hop.
Qed.

(** What it does while it lives. *)
Lemma folder_put n f p' :
  is_live p -> is_live p' -> from p' = from p -> began p' = began p ->
  writer f = r -> mtime f = ck -> n = next p ->
  (media f = true -> sized f = true) ->
  (next p' = next p /\ opened p' = true \/ next p' = next p + 1 /\ opened p' = false /\ sized f = true /\ whole f = true) ->
  holding src segs (<[n := f]> fs) (<[r := p']> ps) fr ck (Some r).
Proof using Hf Hp.
  intros Hl Hl' Hfrom Hbegan Hw Ht -> Hms Hstep. destruct Hf.
  pose proof (fo_procs0 r p Hp) as (Hfr & Hbc & Hfn).
  assert (forall r' q, <[r := p']> ps !! r' = Some q -> (r' = r /\ q = p') \/ (r' <> r /\ ps !! r' = Some q)) as Hlk.
  { intros r' q [[<- <-]|[Hne Hq]]%lookup_insert_Some; [by left|right; split; [congruence|done]]. }
  assert (forall m g, <[next p := f]> fs !! m = Some g -> (m = next p /\ g = f) \/ (m <> next p /\ fs !! m = Some g)) as Hlf.
  { intros m g [[<- <-]|[Hne Hg]]%lookup_insert_Some; [by left|right; split; [congruence|done]]. }
  split.
  - intros r' q Hq Hlq. destruct (Hlk r' q Hq) as [[-> ->]|[_ Hq']]; [done|eauto].
  - intros r' q Hq. destruct (Hlk r' q Hq) as [[-> ->]|[_ Hq']]; [rewrite Hfrom, Hbegan; split_and!; lia|eauto].
  - intros r' [= <-]. rewrite lookup_insert_eq. eauto.
  - intros r' q stderr Hq. destruct (Hlk r' q Hq) as [[-> ->]|[_ Hq']]; [unfold is_live in Hl'; congruence|eauto].
  - intros m g Hg. destruct (Hlf m g Hg) as [[-> ->]|[_ Hg']]; [rewrite Hw; split_and!; [lia|done..]|eauto].
  - intros m g q Hg Hq. destruct (Hlk _ q Hq) as [[Hr ->]|[Hr Hq']].
    + rewrite Hbegan. destruct (Hlf m g Hg) as [[-> ->]|[_ Hg']]; [lia|]. apply (fo_stamp0 m g p Hg'). by rewrite Hr.
    + destruct (Hlf m g Hg) as [[-> ->]|[_ Hg']]; [congruence|eauto].
  - intros m g Hmr Hg Hm. destruct (Hlf m g Hg) as [[-> ->]|[Hne Hg']].
    + destruct Hstep as [[Hn Ho]|(_ & _ & _ & Hwh)]; [right|by left]. rewrite Hw. split; [done|].
      exists p'. by rewrite lookup_insert_eq.
    + destruct (fo_whole0 m g Hmr Hg' Hm) as [|([= Hwg] & q & Hq & _ & Hnq)]; [by left|].
      rewrite <- Hwg in Hq. congruence.
  - intros r' q m g [= <-] Hq Hg Hb. rewrite lookup_insert_eq in Hq. injection Hq as <-. rewrite Hbegan in Hb. rewrite Hfrom.
    destruct (Hlf m g Hg) as [[-> ->]|[Hne Hg']].
    + split; [done|]. destruct Hstep as [[Hn Ho]|(Hn & _)]; rewrite Hn; (split; [lia|]); [done|lia].
    + destruct (fo_own0 r p m g eq_refl Hp Hg' Hb) as (Hwg & Hm & _). split; [done|].
      destruct Hstep as [[Hn Ho]|(Hn & _)]; rewrite Hn; (split; [lia|]); [done|lia].
  - intros r' q m [= <-] Hq Hm. rewrite lookup_insert_eq in Hq. injection Hq as <-. rewrite Hfrom in Hm.
    destruct (decide (m = next p)) as [->|Hne].
    + rewrite lookup_insert_eq. exists f. split_and!; [done..|]. destruct Hstep as [[Hn _]|(_ & _ & Hs & _)]; [lia|done].
    + rewrite lookup_insert_ne by congruence. apply (fo_all0 r p m eq_refl Hp).
      destruct Hstep as [[Hn _]|(Hn & _)]; lia.
  - intros r' q [= <-] Hq Ho. rewrite lookup_insert_eq in Hq. injection Hq as <-.
    destruct Hstep as [[Hn _]|(_ & Ho' & _)]; [|congruence]. rewrite Hn, lookup_insert_eq. eauto.
Qed.

(** It is told to go, or goes. *)
Lemma folder_mark p' :
  from p' = from p -> began p' = began p -> next p' = next p -> opened p' = opened p ->
  (forall stderr, exited p' = Some (true, stderr) -> opened p = true ->
     cutShort src (lastLines stderr encoderLogLines) = true) ->
  holding src segs fs (<[r := p']> ps) fr ck (Some r).
Proof using Hf Hp.
  intros Hfrom Hbegan Hnext Hopen Hwords. destruct Hf.
  assert (forall r' q, <[r := p']> ps !! r' = Some q -> (r' = r /\ q = p') \/ (r' <> r /\ ps !! r' = Some q)) as Hlk.
  { intros r' q [[<- <-]|[Hne Hq]]%lookup_insert_Some; [by left|right; split; [congruence|done]]. }
  split.
  - intros r' q Hq Hlq. destruct (Hlk r' q Hq) as [[-> ->]|[_ Hq']]; [done|eauto].
  - intros r' q Hq. destruct (Hlk r' q Hq) as [[-> ->]|[_ Hq']]; [rewrite Hfrom, Hbegan, Hnext; eauto|eauto].
  - intros r' [= <-]. rewrite lookup_insert_eq. eauto.
  - intros r' q stderr Hq Hx Ho. destruct (Hlk r' q Hq) as [[-> ->]|[_ Hq']]; [|eauto].
    rewrite Hopen in Ho. auto.
  - done.
  - intros m g q Hg Hq. destruct (Hlk _ q Hq) as [[Hr ->]|[_ Hq']]; [|eauto].
    rewrite Hbegan. apply (fo_stamp0 m g p Hg). by rewrite Hr.
  - intros m g Hmr Hg Hm. destruct (fo_whole0 m g Hmr Hg Hm) as [|([= Hwg] & q & Hq & Ho & Hn)]; [by left|right].
    rewrite <- Hwg. split; [done|]. exists p'. rewrite lookup_insert_eq. rewrite <- Hwg in Hq. split; [done|].
    rewrite Hp in Hq. injection Hq as <-. by rewrite Hopen, Hnext.
  - intros r' q m g [= <-] Hq Hg Hb. rewrite lookup_insert_eq in Hq. injection Hq as <-.
    rewrite Hfrom, Hnext, Hopen. rewrite Hbegan in Hb. eauto.
  - intros r' q m [= <-] Hq Hm. rewrite lookup_insert_eq in Hq. injection Hq as <-. rewrite Hfrom, Hnext in Hm. eauto.
  - intros r' q [= <-] Hq Ho. rewrite lookup_insert_eq in Hq. injection Hq as <-. rewrite Hopen in Ho. rewrite Hnext. eauto.
Qed.
End about.

(** ** The session's invariant *)

Definition current (s : sys) : option nat :=
  match run (ses s) with
  | Some r => Some r
  | None => match starter s with Stopping r _ => r | Publishing _ r => Some r | _ => None end
  end.

(** Between a pass taken off the session and the next one put on it. *)
Definition moving (s : sys) : bool :=
  match starter s with Stopping _ _ | Launching _ | Publishing _ _ => true | _ => false end.

Record inv (s : sys) : Prop := {
  inv_folder : holding (Source (ses s)) (Segments (ses s)) (files s) (procs s) (fresh s) (clock s) (current s);
  inv_moving : moving s = true -> run (ses s) = None /\ ended (ses s) = None;
  inv_ended : running s = true -> ended (ses s) = None;
}.

(** Steps that leave the folder, the processes and the one in charge as they are. *)
Lemma inv_aside s s' :
  inv s -> Source (ses s') = Source (ses s) -> Segments (ses s') = Segments (ses s) -> files s' = files s -> procs s' = procs s -> fresh s' = fresh s ->
  clock s <= clock s' -> run (ses s') = run (ses s) -> ended (ses s') = ended (ses s) ->
  (starter s' = starter s \/ (moving s = false /\ moving s' = false)) -> inv s'.
Proof using Type.
  intros [Hf Hm He] Hsrc Hseg Hfs Hps Hfr Hck Hrun Hend Hst.
  assert (current s' = current s) as Hcur.
  { unfold current. rewrite Hrun. destruct (run (ses s)); [done|]. destruct Hst as [->|[H1 H2]]; [done|].
    unfold moving in *. destruct (starter s), (starter s'); done. }
  split.
  - rewrite Hsrc, Hseg, Hfs, Hps, Hfr, Hcur. by eapply folder_tick.
  - rewrite Hrun, Hend. intros Hmv. apply Hm. unfold moving in *. destruct Hst as [Hst|[H1 H2]]; [by rewrite <- Hst|congruence].
  - unfold running in *. by rewrite Hrun, Hend.
Qed.

Lemma current_none s : run (ses s) = None -> starter s = Free \/ (exists a, starter s = Chosen a) \/ (exists n, starter s = Launching n) -> current s = None.
Proof using Type. intros Hr Hs. unfold current. rewrite Hr. by destruct Hs as [->|[[? ->]|[? ->]]]. Qed.

Lemma inv_stop s : inv s -> forall s' r a, stop s = (s', r) -> starter s = Chosen a -> inv (set_starter s' (Stopping r a)).
Proof using Type.
  intros [Hf Hm He] s' r a Hs Hst. unfold stop in Hs. injection Hs as <- <-.
  destruct (run (ses s)) as [r|] eqn:Hr.
  - assert (current s = Some r) as Hc by (unfold current; by rewrite Hr). rewrite Hc in Hf.
    destruct (fo_known _ _ _ _ _ _ _ Hf r eq_refl) as [p Hp]. unfold kill. cbn [procs set_ses]. rewrite Hp.
    split; simpl; try done. unfold current. simpl. apply (folder_mark _ _ _ _ _ _ _ _ Hf Hp); try done.
    intros stderr Hx Ho. simpl in Hx. by eapply (fo_words _ _ _ _ _ _ _ Hf).
  - assert (current s = None) as Hc by (unfold current; by rewrite Hr, Hst). rewrite Hc in Hf.
    split; simpl; done.
Qed.

Lemma filter_sub (f : gmap Z seg) (P : Z * seg -> Prop) `{!forall x, Decision (P x)} : filter P f ⊆ f.
Proof using Type. apply map_filter_subseteq. Qed.

Lemma clear_from_sub s n : files (clear_from s n) ⊆ files s.
Proof using Type. apply filter_sub. Qed.

Lemma wipeOutput_sub s : files (wipeOutput s) ⊆ files s.
Proof using Type. apply filter_sub. Qed.

Lemma gone_exited s r p : gone s (Some r) = true -> procs s !! r = Some p -> exited p <> None.
Proof using Type. unfold gone. intros Hg Hp. rewrite Hp in Hg. by destruct (exited p). Qed.

(** Once the process told to go has gone and its open segment with it, every file
    is whole. *)
Lemma folder_stopped s r :
  holding (Source (ses s)) (Segments (ses s)) (files s) (procs s) (fresh s) (clock s) r -> gone s r = true ->
  holding (Source (ses s)) (Segments (ses s)) (files (match r with Some r => dropTail s r | None => s end)) (procs s) (fresh s) (clock s) None.
Proof using Type.
  intros Hf Hg. destruct r as [r|]; [|done]. destruct (fo_known _ _ _ _ _ _ _ Hf r eq_refl) as [p Hp].
  apply (folder_dropTail _ _ _ _ _ _ _ _ Hf Hp); [done..|by eapply gone_exited].
Qed.

Lemma dropTail_rest s r :
  ses (dropTail s r) = ses s /\ procs (dropTail s r) = procs s /\ fresh (dropTail s r) = fresh s /\
  clock (dropTail s r) = clock s /\ starter (dropTail s r) = starter s.
Proof using Type. unfold dropTail. destruct (procs s !! r); [|done]. by destruct (_ <? _). Qed.

(** A state with nobody in charge, and its files some of what they were. *)
Lemma inv_none s s' :
  holding (Source (ses s)) (Segments (ses s)) (files s) (procs s) (fresh s) (clock s) None ->
  Source (ses s') = Source (ses s) -> Segments (ses s') = Segments (ses s) -> files s' ⊆ files s -> procs s' = procs s -> fresh s' = fresh s ->
  clock s' = clock s -> run (ses s') = None -> (forall r a, starter s' = Stopping r a -> False) ->
  (forall n r, starter s' = Publishing n r -> False) -> (moving s' = true -> ended (ses s') = None) -> inv s'.
Proof using Type.
  intros Hf Hsrc Hseg Hsub Hps Hfr Hck Hrun Hn1 Hn2 He. split.
  - assert (current s' = None) as ->.
    { unfold current. rewrite Hrun. destruct (starter s') eqn:E; try done; exfalso; eauto. }
    rewrite Hsrc, Hseg, Hps, Hfr, Hck. by eapply folder_sub.
  - auto.
  - unfold running. by rewrite Hrun.
Qed.

Lemma inv_still s s' :
  holding (Source (ses s)) (Segments (ses s)) (files s) (procs s) (fresh s) (clock s) None ->
  Source (ses s') = Source (ses s) -> Segments (ses s') = Segments (ses s) -> files s' ⊆ files s -> procs s' = procs s ->
  fresh s' = fresh s -> clock s' = clock s -> run (ses s') = None -> moving s' = false -> inv s'.
Proof using Type.
  intros Hf Hsrc Hseg Hsub Hps Hfr Hck Hrun Hmv. unfold moving in Hmv.
  eapply inv_none; try done.
  - intros r a Hst. by rewrite Hst in Hmv.
  - intros n r Hst. by rewrite Hst in Hmv.
  - unfold moving. congruence.
Qed.

Lemma inv_go_on ok s : inv s -> closed (ses s) = false -> inv (go_on ok s).
Proof using Type.
  intros Hi Hc. pose proof Hi as [Hf Hm He]. unfold go_on.
  destruct (starter s) as [|a|r a|n|n r] eqn:Hst; [done| | | |].
  - destruct (stop s) as [s' r] eqn:Hs. by eapply inv_stop.
  - destruct (gone s r) eqn:Hg; [|done].
    assert (moving s = true) as Hmv by (unfold moving; by rewrite Hst). destruct (Hm Hmv) as [Hrun Hend].
    assert (current s = r) as Hcur by (unfold current; by rewrite Hrun, Hst). rewrite Hcur in Hf.
    pose proof (folder_stopped s r Hf Hg) as Hn. destruct a as [n|].
    + assert (forall x, ses (match x with Some r => dropTail s r | None => s end) = ses s /\
        procs (match x with Some r => dropTail s r | None => s end) = procs s /\
        fresh (match x with Some r => dropTail s r | None => s end) = fresh s /\
        clock (match x with Some r => dropTail s r | None => s end) = clock s) as Hrest
        by (intros [x|]; [by destruct (dropTail_rest s x) as (? & ? & ? & ? & _)|done]).
      destruct (Hrest r) as (H1 & H2 & H3 & H4). rewrite <- H1, <- H2, <- H3, <- H4 in Hn.
      eapply inv_none; [exact Hn|..]; simpl; try done; first [apply clear_from_sub|by rewrite H1].
    + split; simpl; try done.
      unfold current. simpl. rewrite Hrun. destruct r as [r|]; [|by eapply folder_sub, wipeOutput_sub].
      destruct (fo_known _ _ _ _ _ _ _ Hf r eq_refl) as [p Hp].
      apply (folder_wiped _ _ _ _ _ _ _ _ Hf Hp); [by eapply gone_exited|apply wipeOutput_sub|].
      intros n Hn'. unfold wipeOutput, remove_from. simpl. apply map_lookup_filter_None. right. intros f _. simpl.
      rewrite (proj2 (Z.leb_le _ _)), (proj2 (Z.ltb_lt _ _)) by lia. done.
  - assert (moving s = true) as Hmv by (unfold moving; by rewrite Hst). destruct (Hm Hmv) as [Hrun Hend].
    assert (current s = None) as Hcur by (unfold current; by rewrite Hrun, Hst). rewrite Hcur in Hf.
    destruct ok; [|by eapply inv_none].
    unfold launch. split; simpl; try done.
    unfold current. simpl. rewrite Hrun. by apply folder_launch.
  - rewrite Hc. assert (moving s = true) as Hmv by (unfold moving; by rewrite Hst). destruct (Hm Hmv) as [Hrun Hend].
    assert (current s = Some r) as Hcur by (unfold current; by rewrite Hrun, Hst). rewrite Hcur in Hf.
    split; simpl; done.
Qed.

(** A process that begins with nobody in charge, put in charge at once. *)
Lemma inv_relaunch s from_ :
  holding (Source (ses s)) (Segments (ses s)) (files s) (procs s) (fresh s) (clock s) None ->
  moving s = false -> ended (ses s) = None ->
  inv (let (s', q) := launch s from_ in set_ses s' (set_head (set_run (ses s') (Some q)) from_ (from_ - 1))).
Proof using Type.
  intros Hf Hm He. unfold launch. split; simpl.
  - by apply folder_launch.
  - intros Hmv. unfold moving in *. simpl in Hmv. congruence.
  - done.
Qed.

Lemma switchToSoftware_rest s :
  files (switchToSoftware s) ⊆ files s /\ Source (ses (switchToSoftware s)) = Source (ses s) /\
  Segments (ses (switchToSoftware s)) = Segments (ses s) /\ procs (switchToSoftware s) = procs s /\
  fresh (switchToSoftware s) = fresh s /\ clock (switchToSoftware s) = clock s /\
  run (ses (switchToSoftware s)) = run (ses s) /\ ended (ses (switchToSoftware s)) = ended (ses s) /\
  moving (switchToSoftware s) = moving s.
Proof using Type.
  unfold switchToSoftware. destruct (init s); [|done]. split; [apply filter_sub|done].
Qed.

Lemma inv_await ok r s : inv s -> closed (ses s) = false -> inv (await ok r s).
Proof using Type.
  intros Hi Hc. pose proof Hi as [Hf Hm He]. unfold await.
  destruct (procs s !! r) as [p|] eqn:Hp; [|done]. destruct (exited p) as [[clean stderr]|] eqn:Hx; [|done].
  destruct (bool_decide (run (ses s) = Some r)) eqn:Hrun; [|done]. simpl. bool_prop.
  assert (moving s = false) as Hmv by (destruct (moving s); [by destruct (Hm eq_refl) as [? _]; congruence|done]).
  assert (current s = Some r) as Hcur by (unfold current; by rewrite Hrun). rewrite Hcur in Hf.
  assert (ended (ses s) = None) as Hend by (apply He; unfold running; by rewrite Hrun).
  set (s1 := set_ses s (set_run (ses s) None)).
  assert (Hd : holding (Source (ses s)) (Segments (ses s)) (files (dropTail s1 r)) (procs s) (fresh s) (clock s) None)
    by (apply (folder_dropTail _ _ _ _ _ _ _ _ Hf Hp); [done..|congruence]).
  destruct (dropTail_rest s1 r) as (R1 & R2 & R3 & R4 & R5).
  assert (Hs2 : inv (set_ses (dropTail s1 r) (set_ended (ses (dropTail s1 r)) (Some r)))).
  { eapply (inv_still (set_files s (files (dropTail s1 r)))); [exact Hd|..]; simpl; rewrite ?R1; try done.
    unfold moving. simpl. by rewrite R5. }
  destruct clean.
  - destruct (cutShort _ _) eqn:Hcut; [exact Hs2|].
    assert (opened p = false) as Ho.
    { destruct (opened p) eqn:Ho; [|done]. rewrite (fo_words _ _ _ _ _ _ _ Hf r p stderr Hp Hx Ho) in Hcut. done. }
    eapply (inv_still s); [eapply (folder_done _ _ _ _ _ _ _ _ Hf Hp); [congruence|done]|..]; done.
  - destruct (negb _ || _); [done|].
    destruct (switchToSoftware_rest (dropTail s1 r)) as (S1 & S2 & S3 & S4 & S5 & S6 & S7 & S8 & S9).
    assert (Hs3 : holding (Source (ses (switchToSoftware (dropTail s1 r)))) (Segments (ses (switchToSoftware (dropTail s1 r))))
      (files (switchToSoftware (dropTail s1 r))) (procs (switchToSoftware (dropTail s1 r)))
      (fresh (switchToSoftware (dropTail s1 r))) (clock (switchToSoftware (dropTail s1 r))) None).
    { rewrite S2, S3, S4, S5, S6, R1, R2, R3, R4. eapply folder_sub; [exact Hd|exact S1]. }
    assert (moving (switchToSoftware (dropTail s1 r)) = false) as Hmv3
      by (rewrite S9; unfold moving; rewrite R5; exact Hmv).
    assert (ended (ses (switchToSoftware (dropTail s1 r))) = None) as He3 by (rewrite S8, R1; exact Hend).
    destruct ok; [by apply inv_relaunch|].
    eapply inv_still; [exact Hs3|..]; try done. by rewrite S7, R1.
Qed.

(** What a living process does, it does as the one in charge. *)
Lemma inv_on_proc s r f :
  inv s ->
  (forall p, procs s !! r = Some p -> is_live p ->
    holding (Source (ses s)) (Segments (ses s)) (files s) (procs s) (fresh s) (clock s) (Some r) -> current s = Some r -> inv (f p)) ->
  inv (on_proc s r f).
Proof using Type.
  intros Hi Hstep. unfold on_proc. destruct (procs s !! r) as [p|] eqn:Hp; [|done].
  destruct (exited p) eqn:Hx; [done|]. pose proof (inv_folder s Hi) as Hf.
  assert (current s = Some r) as Hc by (by apply (fo_live _ _ _ _ _ _ _ Hf r p)).
  apply Hstep; try done. by rewrite <- Hc.
Qed.

(** The same process in charge, with another folder. *)
Lemma inv_folder_only s s' r :
  inv s -> current s = Some r ->
  holding (Source (ses s)) (Segments (ses s)) (files s') (procs s') (fresh s) (clock s) (Some r) ->
  ses s' = ses s -> fresh s' = fresh s -> clock s' = clock s -> starter s' = starter s -> inv s'.
Proof using Type.
  intros [Hf Hm He] Hc Hf' Hses Hfr Hck Hst. split.
  - unfold current in *. rewrite Hses, Hfr, Hck, Hst, Hc. done.
  - unfold moving in *. by rewrite Hst, Hses.
  - unfold running in *. by rewrite Hses.
Qed.

Lemma inv_apply e s : inv s -> closed (ses s) = false -> allowed e s -> inv (apply e s).
Proof using Type.
  intros Hi Hc Ha. destruct e as [oi n|codec copy|ok|ok r| |n add| | |d|r|r|r m|r|r clean stderr]; simpl.
  - unfold is_free. destruct (starter s) eqn:Hst; try done. unfold start. rewrite Hc.
    destruct (_ && running s); [done|]. destruct (_ && _); [done|].
    eapply inv_aside; try done. right. unfold moving. by rewrite Hst.
  - unfold is_free. destruct (starter s) eqn:Hst; try done. unfold switch. rewrite Hc.
    eapply inv_aside; try done. right. unfold moving. by rewrite Hst.
  - by apply inv_go_on.
  - by apply inv_await.
  - unfold advanceHead. destruct (run (ses s)) eqn:Hr; [|done]. eapply inv_aside; simpl; try done. by left.
  - destruct add; [unfold addWaiter|unfold dropWaiter]; (eapply inv_aside; simpl; try done; by left).
  - eapply inv_aside; simpl; try done. by left.
  - by rewrite Hc.
  - eapply inv_aside; simpl; try done; [lia|by left].
  - apply inv_on_proc; [done|]. intros p Hp Hl Hf Hcur. eapply inv_aside; simpl; try done. by left.
  - apply inv_on_proc; [done|]. intros p Hp Hl Hf Hcur. destruct (opened p) eqn:Ho; [done|].
    eapply inv_folder_only; try done. simpl. apply (folder_put _ _ _ _ _ _ _ _ Hf Hp); simpl; try done. by left.
  - apply inv_on_proc; [done|]. intros p Hp Hl Hf Hcur. destruct (opened p) eqn:Ho; [|done].
    eapply inv_folder_only; try done. simpl. apply (folder_put _ _ _ _ _ _ _ _ Hf Hp); simpl; try done. by left.
  - apply inv_on_proc; [done|]. intros p Hp Hl Hf Hcur. destruct (opened p) eqn:Ho; [|done].
    eapply inv_folder_only; try done. simpl. apply (folder_put _ _ _ _ _ _ _ _ Hf Hp); simpl; try done. by right.
  - apply inv_on_proc; [done|]. intros p Hp Hl Hf Hcur.
    eapply inv_folder_only; try done. simpl. apply (folder_mark _ _ _ _ _ _ _ _ Hf Hp); simpl; try done.
    intros w [= -> ->] Ho. simpl in Ha. by eapply Ha.
Qed.

Lemma closed_dropTail s r : closed (ses (dropTail s r)) = closed (ses s).
Proof using Type. by destruct (dropTail_rest s r) as (-> & _). Qed.

(** A session closed stays closed. *)
Lemma closed_apply e s : closed (ses (apply e s)) = false -> closed (ses s) = false.
Proof using Type.
  intros Hc. destruct (closed (ses s)) eqn:E; [|done]. rewrite <- Hc. symmetry.
  destruct e; simpl; unfold start, switch, go_on, stop, await, advanceHead, addWaiter, dropWaiter,
    do_open, do_write, do_shut, do_exit, on_proc, kill, launch, switchToSoftware.
  all: repeat first [done | rewrite closed_dropTail | progress simpl | case_match]; try done.
  all: try (rewrite ?closed_dropTail; simpl; congruence).
Qed.

Lemma reachable_inv s : reachable s -> closed (ses s) = false -> inv s.
Proof using Type.
  induction 1 as [source codec copy segments t|e s Hr IH Ha]; intros Hc.
  - split; [|done..]. simpl. split; try done; intros; by rewrite ?lookup_empty in *.
  - apply closed_apply in Hc as Hc'. by apply inv_apply; auto.
Qed.

(** ** Properties *)


Lemma served_inv s :
  inv s -> moving s = false -> forall n f, 0 <= n < Segments (ses s) -> files s !! n = Some f -> media f = true ->
  nextStarted s n || wroteWhole s n = true \/ running s = false -> whole f = true.
Proof using Type.
  intros [Hf Hm He] Hmv n f Hn Hfile Hmed Hs.
  destruct (fo_whole _ _ _ _ _ _ _ Hf n f Hn Hfile Hmed) as [|(Hc & p & Hp & Ho & Hnext)]; [done|exfalso].
  destruct (run (ses s)) as [r|] eqn:Hrun.
  - assert (current s = Some r) as Hcur by (unfold current; by rewrite Hrun). rewrite Hcur in Hf, Hc. injection Hc as ->.
    assert (running s = true) as Hr by (unfold running; by rewrite Hrun). destruct Hs as [Hs|Hs]; [|congruence].
    unfold wroteWhole in Hs. rewrite (He Hr), orb_false_r in Hs. unfold nextStarted in Hs. rewrite Hrun, Hp in Hs.
    pose proof (fo_procs _ _ _ _ _ _ _ Hf _ p Hp) as (_ & _ & Hfn).
    rewrite (proj2 (Z.leb_le _ _)) in Hs by lia.
    apply (wrote_own _ _ _ _ _ _ _ _ Hf Hp s) in Hs as [Hlt|[Hlt _]]; lia || done.
  - unfold current in Hc. rewrite Hrun in Hc. unfold moving in Hmv. by destruct (starter s).
Qed.


(** What an event does to the fallback. *)
Lemma fellBack_rest s :
  fellBack (ses (wipeOutput s)) = fellBack (ses s) /\ (forall r, fellBack (ses (dropTail s r)) = fellBack (ses s)) /\
  (forall r, fresh (dropTail s r) = fresh s) /\ (forall r, VideoCodec (ses (dropTail s r)) = VideoCodec (ses s)).
Proof using Type.
  split; [done|]. assert (forall r, ses (dropTail s r) = ses s /\ fresh (dropTail s r) = fresh s) as Hd
    by (intros r; by destruct (dropTail_rest s r) as (? & _ & ? & _)).
  split_and!; intros r; destruct (Hd r) as [Hs Hfr]; by rewrite ?Hs.
Qed.

Lemma fellBack_kept e s : fellBack (ses s) = true -> fellBack (ses (apply e s)) = true.
Proof using Type.
  intros Hb. destruct e; simpl; unfold start, switch, go_on, stop, await, advanceHead, addWaiter, dropWaiter,
    do_open, do_write, do_shut, do_exit, on_proc, kill, launch, switchToSoftware, clear_from.
  all: repeat first [done | rewrite (proj1 (proj2 (fellBack_rest _))) | progress simpl | case_match].
Qed.

(** An encoder is started again by itself at most once.  Seeing a pass out
    starts another only where a hardware encoder died before its first segment and
    none has been given up on in this session; the session is then in software,
    with none of the hardware's segments left beside the software's init, and
    nothing ever makes it forget: a software failure is reported, not retried. *)
Theorem fallback_once s :
  (fellBack (ses s) = true -> forall e, fellBack (ses (apply e s)) = true) /\
  (forall ok r, fresh (await ok r s) <> fresh s ->
     fellBack (ses s) = false /\ fellBack (ses (await ok r s)) = true /\
     usesHardware (VideoCodec (ses s)) = true /\ VideoCodec (ses (await ok r s)) = softwareEncoder /\
     (init s = true -> forall n, 0 <= n < Segments (ses s) -> files (await ok r s) !! n = None)).
Proof using Type.
  split; [intros Hb e; by apply fellBack_kept|]. intros ok r. unfold await.
  destruct (procs s !! r) as [p|]; [|done]. destruct (exited p) as [[clean stderr]|]; [|done].
  destruct (negb (bool_decide _)); [done|]. set (s1 := set_ses s (set_run (ses s) None)).
  destruct (dropTail_rest s1 r) as (R1 & R2 & R3 & R4 & R5). set (s2 := dropTail s1 r) in *.
  destruct clean; [destruct (cutShort _ _); simpl; by rewrite ?R3|].
  destruct (canFallBack s1 _ _) eqn:Hcan; simpl; [|by rewrite R3].
  destruct (closed (ses s)); simpl; [by rewrite R3|]. destruct ok; simpl.
  - intros _. unfold canFallBack in Hcan. bool_prop. split_and!; try done.
    + unfold switchToSoftware. by destruct (init s2).
    + unfold switchToSoftware. by destruct (init s2).
    + intros Hi n Hn. assert (init s2 = true) as Hi2 by (unfold s2, dropTail; destruct (procs s1 !! r); [by destruct (_ <? _)|done]).
      unfold switchToSoftware. rewrite Hi2. unfold wipeOutput, remove_from. simpl.
      apply map_lookup_filter_None. right. intros f _. simpl. rewrite R1. simpl.
      rewrite (proj2 (Z.leb_le _ _)), (proj2 (Z.ltb_lt _ _)) by lia. done.
  - intros Hfr. exfalso. apply Hfr. unfold switchToSoftware. destruct (init s2); simpl; by rewrite R3.
Qed.

Definition replay (l : list event) (s : sys) : sys := foldl (fun s e => apply e s) s l.

Fixpoint all_allowed (l : list event) (s : sys) : Prop :=
  match l with [] => True | e :: l' => allowed e s /\ all_allowed l' (apply e s) end.

Lemma reachable_events l s : reachable s -> all_allowed l s -> reachable (replay l s).
Proof using Type.
  revert s. induction l as [|e l IH]; intros s Hs; simpl; [done|]. intros [He Hl].
  apply IH; [by apply reachable_step|done].
Qed.
End await.

(** *** At concrete runs *)

Definition movie : string := "http://localhost/torrents/1/stream".

Definition played (codec : string) (l : list event) : sys :=
  replay (H := ascii_unicode) l (opened_session movie codec false 30 1000).

Lemma played_reachable codec l :
  all_allowed (H := ascii_unicode) l (opened_session movie codec false 30 1000) ->
  reachable (H := ascii_unicode) (played codec l).
Proof. intros Hl. apply reachable_events; [apply reachable_open|done]. Qed.

(** A pass started at a segment, from nothing to on record. *)
Definition pass_at (n : Z) : list event := [EStart false n; EGoOn true; EGoOn true; EGoOn true; EGoOn true].

(** It is told to go, goes in the middle of a segment, and the next is on record. *)
Definition moved (r : nat) (n : Z) : list event :=
  [EStart false n; EGoOn true; EExit r false "killed"; EGoOn true; EGoOn true; EGoOn true].

Definition writes (r : nat) : list event := [EOpen r; EWrite r true; EShut r].

Definition two_passes : list event :=
  pass_at 5 ++ writes 0 ++ writes 0 ++ [EOpen 0; EWrite 0 true] ++ moved 0 3 ++ writes 1 ++ [EOpen 1; EWrite 1 true].



(** A hardware encoder that cannot start here. *)
Definition no_hardware : list event := pass_at 0 ++ [EInit 0; EExit 0 false "Cannot load nvcuda.dll"].

Lemma fallback_once_witness :
  let s := played "h264_nvenc" no_hardware in
  fellBack (ses (await (H := ascii_unicode) true 0 s)) = true /\
  VideoCodec (ses (await (H := ascii_unicode) true 0 s)) = "libx264".
Proof.
  destruct (@fallback_once ascii_unicode (played "h264_nvenc" no_hardware)) as [_ Hf].
  destruct (Hf true 0%nat) as (_ & Hb & _ & Hc & _); [vm_compute; discriminate|]. by split.
Defined.

(** A segment can be served short.  While a pass is being stopped it is off the
    record and its last segment still on disk: a request for that segment, when an
    earlier pass left the one after it, is served the piece of it that was
    written. *)
Theorem tail_served :
  let s := played "libx264" (two_passes ++ [EStart false 20; EGoOn true]) in
  reachable (H := ascii_unicode) s /\ closed (ses s) = false /\
  exists f, files s !! 4 = Some f /\ whole f = false /\ wait_look s 4 false = Serve.
Proof.
  split; [apply played_reachable; repeat split|]. split; [vm_compute; reflexivity|].
  eexists. split; [vm_compute; reflexivity|]. split; vm_compute; reflexivity.
Qed.

(** So can one being written.  The look [WaitSegment] takes before its loop
    asks only whether media has begun: a segment the running pass is in the middle
    of is served by it, while the loop would wait for the next to begin. *)
Theorem first_look_short :
  let s := played "libx264" (pass_at 0 ++ [EOpen 0; EWrite 0 true]) in
  reachable (H := ascii_unicode) s /\ closed (ses s) = false /\ moving s = false /\
  segmentReady s 0 = true /\ wait_look s 0 false = Sleep /\
  exists f, files s !! 0 = Some f /\ whole f = false.
Proof.
  split; [apply played_reachable; repeat split|]. split_and!; try (vm_compute; reflexivity).
  eexists. split; vm_compute; reflexivity.
Qed.
