(* ===== verification/Match.v ===== *)
(** * Title matching: internal/match (match.go, dice.go), internal/corpus/normalise.go

    A parsed title is matched against the corpus: titles are normalised and folded,
    a token index proposes candidates, each is scored on its titles and then on
    season, year, format and episode, and the best is accepted, asked about or
    refused.  Scores are doubles.  golang.org/x/text's width folding and mark
    stripping are parameters. *)
From stdpp Require Import base gmap strings list.
From Stdlib Require Import ZArith Lia Sorted.
From S2P Require Import Prelude GoStr Float64.

(** golang.org/x/text: [width.Fold.String], and NFD, the removal of Mn and NFC in
    turn, which leaves the string as it was on an error. *)
Class Text := {
  width_fold : string -> string;
  strip_marks : string -> string;
}.

(** On ASCII both change nothing. *)
Definition ascii_text : Text := {| width_fold := fun s => s; strip_marks := fun s => s |}.

(** ** Replacing *)

(** [strings.NewReplacer(...).Replace]: left to right, the first pair in argument
    order that fits; [skip] bytes are part of one already replaced. *)
Fixpoint replacer (pairs : list (string * string)) (s : string) (skip : nat) : string :=
  match s with
  | EmptyString => ""
  | String c rest =>
      match skip with
      | S k => replacer pairs rest k
      | O =>
          match List.find (fun p => has_prefix s p.1) pairs with
          | Some p => p.2 +:+ replacer pairs rest (pred (String.length p.1))
          | None => String c (replacer pairs rest 0)
          end
      end
  end.

Definition replace_pairs (pairs : list (string * string)) (s : string) : string :=
  foldl (fun padded p => GoStr.replace_all padded p.1 p.2) ((" " +:+ s) +:+ " ") pairs.

(** A rune above ASCII, as Go's source spells it in UTF-8. *)
Definition rune (r : Z) : string := encode_rune r.

Definition macrons : list (string * string) := Eval vm_compute in
  [(rune 257, "aa"); (rune 299, "ii"); (rune 363, "uu"); (rune 275, "ee"); (rune 333, "ou");
   (rune 226, "aa"); (rune 238, "ii"); (rune 251, "uu"); (rune 234, "ee"); (rune 244, "ou")].

Definition quote : string := String (Ascii.ascii_of_nat 34) "".
Definition backslash : string := String (Ascii.ascii_of_nat 92) "".

Definition punctuation : list (string * string) := Eval vm_compute in
  [(":", " "); (";", " "); (",", " "); (".", " "); ("!", " "); ("?", " ");
   ("'", ""); (rune 8217, ""); (quote, " "); ("`", "");
   ("-", " "); (rune 8211, " "); (rune 8212, " "); ("_", " "); ("~", " ");
   ("(", " "); (")", " "); ("[", " "); ("]", " "); ("{", " "); ("}", " ");
   ("/", " "); (backslash, " "); ("|", " "); ("+", " "); ("*", " "); ("@", " "); ("#", " ");
   (rune 12288, " "); (rune 12539, " ")].

Definition seasonForms : list (string * string) :=
  [("1st season", " season 1 "); ("2nd season", " season 2 ");
   ("3rd season", " season 3 "); ("4th season", " season 4 ");
   ("5th season", " season 5 "); ("6th season", " season 6 ");
   ("season 1", " season 1 "); ("season 2", " season 2 ");
   ("season 3", " season 3 "); ("season 4", " season 4 ");
   (" s1 ", " season 1 "); (" s2 ", " season 2 ");
   (" s3 ", " season 3 "); (" s4 ", " season 4 ");
   ("part 1", " season 1 "); ("part 2", " season 2 ");
   ("cour 1", " season 1 "); ("cour 2", " season 2 ")].

Definition romanNumerals : list (string * string) :=
  [(" viii", " 8"); (" vii", " 7"); (" vi", " 6"); (" iv", " 4");
   (" iii", " 3"); (" ii", " 2"); (" ix", " 9"); (" x", " 10"); (" v", " 5")].

(** ** Bigrams *)

(** Two runes of a word of 64 bits; runes are below [2 ^ 32]. *)
Definition bigram (a b : Z) : Z := Z.lor (Z.shiftl a 32) b.

Fixpoint bigrams (l : list Z) : list Z :=
  match l with
  | a :: (b :: _) as l' => bigram a b :: bigrams l'
  | _ => []
  end.

Definition counts (l : list Z) : gmap Z Z := foldl (fun m k => <[k := default 0 (m !! k) + 1]> m) ∅ l.

(** The loop over the second string's bigrams: each found is used up. *)
Fixpoint shared_loop (m : gmap Z Z) (l : list Z) : Z :=
  match l with
  | [] => 0
  | k :: l' =>
      let c := default 0 (m !! k) in
      if 0 <? c then 1 + shared_loop (<[k := c - 1]> m) l' else shared_loop m l'
  end.

Definition rune_list (s : string) : list Z := map t_rune (runes s).

Definition dice (a b : string) : f64 :=
  if String.eqb a b then of_int 1
  else
    let ar := rune_list a in let br := rune_list b in
    if (length ar <? 2)%nat || (length br <? 2)%nat then of_int 0
    else
      let shared := shared_loop (counts (bigrams ar)) (bigrams br) in
      let total := (Z.of_nat (length ar) - 1) + (Z.of_nat (length br) - 1) in
      fdiv (fmul (of_int 2) (of_int shared)) (of_int total).

(** ** Normalising *)

Section text.
Context `{Unicode} `{Text}.

Definition one_spaced (s : string) : string := join (fields s) " ".

Definition Normalise (s : string) : string :=
  let s := width_fold (trim_space s) in
  let s := to_lower s in
  let s := replacer macrons s 0 in
  let s := GoStr.replace_all s "&" " and " in
  let s := replacer punctuation s 0 in
  let s := strip_marks s in
  let s := one_spaced s in
  let s := replace_pairs seasonForms s in
  let s := replace_pairs romanNumerals s in
  one_spaced s.

Definition Fold (s : string) : string :=
  let s := foldl (fun s v => GoStr.replace_all s (v +:+ v) v) (Normalise s) ["a"; "e"; "i"; "o"; "u"] in
  one_spaced (GoStr.replace_all s "ou" "o").

Definition noise (s : string) : bool :=
  bool_decide (s ∈ ["the"; "a"; "an"; "of"; "and"; "no"; "wa"; "ga"; "wo"; "ni"; "de"; "tv"; "season"; "part"; "cour"]).

Definition significant (norm : string) : list string :=
  List.filter (fun f => (1 <? String.length f)%nat && negb (noise f)) (fields norm).

(** ** The index *)

Record Media := mkMedia {
  ID : Z; Titles : list string; Format : string; Episodes : Z; Year : Z; Season : Z;
}.

Record Query := mkQuery {
  q_Title : string; q_Season : Z; q_Part : Z; q_Year : Z; q_Format : string; q_Episode : Z; Boost : gmap Z f64;
}.

Record titleKey := mkKey { k_raw : string; k_norm : string; k_fold : string; k_tokens : list string; k_main : bool }.

Record indexed := mkIndexed { ix_media : Media; ix_keys : list titleKey }.

(** Positions are [int32]s: a corpus has thousands of entries. *)
Record Index := mkIndex { media : list indexed; byToken : gmap string (list nat); byID : gmap Z nat }.

Definition NewIndex : Index := mkIndex [] ∅ ∅.

Definition keys_of (titles : list string) : list titleKey :=
  omap (fun x : nat * string =>
    let raw := trim_space x.2 in
    if String.eqb raw "" then None
    else
      let norm := Normalise raw in
      Some (mkKey (to_lower raw) norm (Fold raw) (significant norm) (Nat.eqb x.1 0)))
    (imap (fun i t => (i, t)) titles).

(** The tokens of an entry, each once: the code's is a set, ranged over in any
    order; each token's list gets the position once whatever the order. *)
Definition tokens_of (e : indexed) : list string := remove_dups (concat (map k_tokens (ix_keys e))).

(** Neighbouring short words run together. *)
Fixpoint compounds (l : list string) : list string :=
  match l with
  | a :: (b :: _) as l' =>
      (if (String.length a <=? 5)%nat && (String.length b <=? 5)%nat then [a +:+ b] else []) ++ compounds l'
  | _ => []
  end.

Definition compounds_of (e : indexed) : list string := concat (map (fun k => compounds (k_tokens k)) (ix_keys e)).

Definition post (pos : nat) (m : gmap string (list nat)) (tok : string) : gmap string (list nat) :=
  <[tok := default [] (m !! tok) ++ [pos]]> m.

Definition Add (ix : Index) (m : Media) : Index :=
  match Titles m with
  | [] => ix
  | _ =>
      let e := mkIndexed m (keys_of (Titles m)) in
      match ix_keys e with
      | [] => ix
      | _ =>
          let pos := length (media ix) in
          mkIndex (media ix ++ [e]) (foldl (post pos) (byToken ix) (tokens_of e ++ compounds_of e))
            (<[ID m := pos]> (byID ix))
      end
  end.

Definition index_of (l : list Media) : Index := foldl Add NewIndex l.

(** The posting lists' union, each position at its first. *)
Fixpoint union_of (l : list nat) (seen : list nat) : list nat :=
  match l with
  | [] => []
  | pos :: l' => if bool_decide (pos ∈ seen) then union_of l' seen else pos :: union_of l' (pos :: seen)
  end.

Definition candidates (ix : Index) (tokens : list string) : list nat :=
  union_of (concat (map (fun tok => default [] (byToken ix !! tok)) tokens)) [].

(** ** Scores *)

Definition n (z : Z) : f64 := of_int z.

Definition thresholdTokenHigh : f64 := of_ratio 90 100.
Definition thresholdTokenMedium : f64 := of_ratio 70 100.
Definition thresholdFuzzyHigh : f64 := of_ratio 90 100.
Definition thresholdFuzzyMedium : f64 := of_ratio 80 100.
Definition thresholdAccept : f64 := n 6.
Definition thresholdAuto : f64 := n 16.
Definition thresholdMargin : f64 := n 2.
Definition thresholdTitleFloor : f64 := n 2.

Definition complexity (tokens : list string) : f64 :=
  if (3 <=? length tokens)%nat then n 3 else if Nat.eqb (length tokens) 2 then n 1 else n 0.

Definition hits (a b : list string) : Z :=
  Z.of_nat (length (List.filter (fun t => bool_decide (t ∈ b)) a)).

(** The ratio, and whether one covers the other. *)
Definition tokenOverlap (a b : list string) : f64 * bool :=
  match a, b with
  | [], _ | _, [] => (n 0, false)
  | _, _ =>
      let h := hits a b in
      let la := Z.of_nat (length a) in let lb := Z.of_nat (length b) in
      (fdiv (n h) (n (Z.max la lb)), (h =? la) || (h =? lb))
  end.

Definition titleScore (rawQuery qn qf : string) (qt : list string) (k : titleKey) : f64 * string :=
  if equal_fold rawQuery (k_raw k) then (fadd (n 15) (complexity qt), "exact title")
  else if String.eqb qn (k_norm k) then (fadd (n 14) (complexity qt), "identical after normalisation")
  else if negb (String.eqb qf "") && String.eqb qf (k_fold k) then
    (fsub (fadd (n 14) (complexity qt)) (n 1), "identical after folding romanisation")
  else
    let '(shared, cover) := tokenOverlap qt (k_tokens k) in
    let la := Z.of_nat (length qt) in let lb := Z.of_nat (length (k_tokens k)) in
    if cover && (la =? lb) && (0 <? la) then (fadd (n 12) (complexity qt), "every word matches")
    else if cover then (fmul (n 10) (fdiv (n (Z.min la lb)) (n (Z.max la lb))), "all words present")
    else if fge shared thresholdTokenHigh then (n 8, "most words match")
    else if fge shared thresholdTokenMedium then (n 5, "several words match")
    else
      let d := dice qn (k_norm k) in
      if fge d thresholdFuzzyHigh then (fadd (n 6) (fmul (fsub d thresholdFuzzyHigh) (n 5)), "very similar spelling")
      else if fge d thresholdFuzzyMedium then (fadd (n 3) (fmul (fsub d thresholdFuzzyMedium) (n 5)), "similar spelling")
      else (d, "weak similarity").

Inductive Decision := Undecided | Auto | Ask.

Record Result := mkResult {
  MediaID : Z; Score : f64; Margin : f64; Matched : string; Reasons : list string; r_Decision : Decision;
}.

(** The loop over an entry's titles. *)
Fixpoint best_title (q : Query) (qn qf : string) (qt : list string) (l : list titleKey) (best : f64 * string * string) :
    f64 * string * string :=
  match l with
  | [] => best
  | k :: l' =>
      let '(s, why) := titleScore (q_Title q) qn qf qt k in
      let s := if k_main k then fadd s (n 2) else s in
      best_title q qn qf qt l' (if fgt s best.1.1 then (s, k_raw k, why) else best)
  end.

Definition plus (r : f64 * list string) (x : f64) (why : list string) : f64 * list string := (fadd r.1 x, r.2 ++ why).

Definition season_score (q : Query) (m : Media) (r : f64 * list string) : f64 * list string :=
  if (0 <? q_Season q) || (0 <? Season m) then
    if (q_Season q =? Season m) && (0 <? q_Season q) then plus r (n 5) ["season matches"]
    else if (0 <? q_Season q) && (0 <? Season m) && negb (q_Season q =? Season m) then plus r (n (-8)) ["different season"]
    else r
  else r.

Definition part_score (q : Query) (m : Media) (r : f64 * list string) : f64 * list string :=
  if (0 <? q_Part q) && (0 <? Season m) then
    if q_Part q =? Season m then plus r (n 3) [] else plus r (n (-5)) []
  else r.

Definition format_score (q : Query) (m : Media) (r : f64 * list string) : f64 * list string :=
  if negb (String.eqb (q_Format q) "") && negb (String.eqb (Format m) "") then
    if equal_fold (q_Format q) (Format m) then plus r (n 5) [] else plus r (n (-5)) ["different format"]
  else r.

Definition year_score (q : Query) (m : Media) (trust : f64) (r : f64 * list string) : f64 * list string :=
  if (0 <? q_Year q) && (0 <? Year m) then
    let d := i64_sub (q_Year q) (Year m) in
    if d =? 0 then plus r (fmul (n 4) trust) ["year matches"]
    else if (d =? 1) || (d =? -1) then plus r (fmul (n 2) trust) []
    else plus r (fmul (n (-10)) trust) ["year is far off"]
  else r.

Definition episode_score (q : Query) (m : Media) (r : f64 * list string) : f64 * list string :=
  if (0 <? q_Episode q) && (0 <? Episodes m) && (Episodes m <? q_Episode q) then
    plus r (n (-6)) ["episode number exceeds this entry"]
  else r.

Definition boost_score (q : Query) (m : Media) (r : f64 * list string) : f64 * list string :=
  let b := default (S754_zero false) (Boost q !! ID m) in
  if negb (feq b (n 0)) then plus r b ["on your list"] else r.

Definition score (q : Query) (qn qf : string) (qt : list string) (e : indexed) : option Result :=
  let '(best, matched, reason) := best_title q qn qf qt (ix_keys e) (n (-1), "", "") in
  if flt best thresholdTitleFloor then None
  else
    let trust := let t := fdiv best (n 6) in if fgt t (n 1) then n 1 else t in
    let m := ix_media e in
    let '(s, why) :=
      boost_score q m (episode_score q m (year_score q m trust (format_score q m (part_score q m
        (season_score q m (best, [reason])))))) in
    Some (mkResult (ID m) s (n 0) matched why Undecided).

(** ** Ranking *)

(** [int64(r.Score * 1000)] *)
Definition quantised (r : Result) : Z := to_i64 (fmul (Score r) (n 1000)).

Definition ahead (a b : Result) : bool :=
  if negb (quantised a =? quantised b) then quantised b <? quantised a else MediaID a <? MediaID b.

(** The first [k] of the results, for a positive [k]. *)
Definition cut (k : Z) (l : list Result) : list Result :=
  if (0 <? k) && (k <? Z.of_nat (length l)) then take (Z.to_nat k) l else l.

Definition Rank (ix : Index) (q : Query) (k : Z) : list Result :=
  let qn := Normalise (q_Title q) in
  if String.eqb qn "" then []
  else
    let qf := Fold (q_Title q) in
    let qt := significant qn in
    let results := omap (fun pos => match media ix !! pos with Some e => score q qn qf qt e | None => None end)
                     (candidates ix qt) in
    cut k (sort_by ahead results).

Definition decide_on (r : Result) (m : f64) : Result :=
  mkResult (MediaID r) (Score r) m (Matched r) (Reasons r)
    (if fge (Score r) thresholdAuto && fge m thresholdMargin then Auto else Ask).

Definition Match (ix : Index) (q : Query) : option Result :=
  match Rank ix q 5 with
  | [] => None
  | best :: rest =>
      if flt (Score best) thresholdAccept then None
      else
        let margin := match rest with [] => Score best | r :: _ => fsub (Score best) (Score r) end in
        Some (decide_on best margin)
  end.

End text.

(** ** What is shared, counted *)

Fixpoint drop_one (x : Z) (l : list Z) : list Z :=
  match l with [] => [] | y :: l' => if y =? x then l' else y :: drop_one x l' end.

Definition at_ (m : gmap Z Z) (k : Z) : Z := default 0 (m !! k).

Lemma at_insert m k v k' : at_ (<[k := v]> m) k' = if k =? k' then v else at_ m k'.
Proof.
  unfold at_. destruct (Z.eqb_spec k k') as [->|Hne]; [by rewrite lookup_insert_eq|by rewrite lookup_insert_ne].
Qed.

Lemma shared_loop_ext m m' l : (forall k, at_ m k = at_ m' k) -> shared_loop m l = shared_loop m' l.
Proof.
  revert m m'. induction l as [|k l IH]; intros m m' He; simpl; [done|].
  fold (at_ m k) (at_ m' k). rewrite (He k). destruct (0 <? at_ m' k); [|by apply IH].
  f_equal. apply IH. intros k'. rewrite !at_insert. by destruct (k =? k').
Qed.

(** One more of [x] on the left is one more shared, if one is left on the right. *)
Lemma shared_loop_incr m x l :
  (forall k, 0 <= at_ m k) ->
  shared_loop (<[x := at_ m x + 1]> m) l =
    if bool_decide (x ∈ l) then 1 + shared_loop m (drop_one x l) else shared_loop m l.
Proof.
  revert m. induction l as [|y l IH]; intros m Hm; simpl; [done|].
  fold (at_ (<[x := at_ m x + 1]> m) y) (at_ m y). rewrite at_insert.
  destruct (Z.eqb_spec x y) as [<-|Hne].
  - rewrite (proj2 (Z.ltb_lt _ _)) by (specialize (Hm x); lia). rewrite bool_decide_true by by left.
    rewrite Z.eqb_refl. f_equal. apply shared_loop_ext. intros k. rewrite !at_insert.
    destruct (Z.eqb_spec x k) as [<-|]; lia.
  - rewrite (proj2 (Z.eqb_neq y x)) by congruence.
    assert (bool_decide (x ∈ y :: l) = bool_decide (x ∈ l)) as ->
      by (apply bool_decide_ext; rewrite elem_of_cons; naive_solver congruence).
    destruct (0 <? at_ m y) eqn:E; bool_prop.
    + assert (shared_loop (<[y := at_ m y - 1]> (<[x := at_ m x + 1]> m)) l =
        shared_loop (<[x := at_ (<[y := at_ m y - 1]> m) x + 1]> (<[y := at_ m y - 1]> m)) l) as ->.
      { apply shared_loop_ext. intros k. rewrite !at_insert. rewrite (proj2 (Z.eqb_neq y x)) by congruence.
        by destruct (Z.eqb_spec x k) as [<-|]; [rewrite (proj2 (Z.eqb_neq y x)) by congruence|]. }
      rewrite IH by (intros k; rewrite at_insert; specialize (Hm k); destruct (y =? k); lia).
      destruct (bool_decide (x ∈ l)); simpl; fold (at_ m y); [|lia].
      rewrite (proj2 (Z.ltb_lt _ _)) by lia. lia.
    + rewrite IH by done. destruct (bool_decide (x ∈ l)); simpl; fold (at_ m y); [|done].
      by rewrite (proj2 (Z.ltb_ge _ _)) by lia.
Qed.

Definition tally (l : list Z) : gmap Z Z := foldr (fun k m => <[k := at_ m k + 1]> m) ∅ l.

Lemma tally_nonneg l k : 0 <= at_ (tally l) k.
Proof.
  induction l as [|x l IH]; simpl; [done|]. rewrite at_insert. destruct (Z.eqb_spec x k) as [->|]; [|done]. lia.
Qed.

Lemma counts_tally l k : at_ (counts l) k = at_ (tally l) k.
Proof.
  unfold counts.
  assert (forall m, at_ (foldl (fun m k => <[k := default 0 (m !! k) + 1]> m) m l) k = at_ m k + at_ (tally l) k) as Hg.
  { induction l as [|x l IH]; intros m; simpl; [unfold at_ at 3; rewrite lookup_empty; simpl; lia|].
    rewrite IH. fold (at_ m x). rewrite !at_insert. destruct (Z.eqb_spec x k) as [->|]; lia. }
  rewrite Hg. unfold at_ at 1. by rewrite lookup_empty.
Qed.

Lemma shared_loop_empty l : shared_loop ∅ l = 0.
Proof. induction l as [|k l IH]; simpl; [done|]. by rewrite lookup_empty. Qed.

(** One more of [x] on the right is one fewer of it on the left, if it is there. *)
Lemma tally_drop x l k : at_ (tally (drop_one x l)) k = if (x =? k) && bool_decide (x ∈ l) then at_ (tally l) k - 1 else at_ (tally l) k.
Proof.
  induction l as [|y l IH]; simpl.
  - by rewrite andb_false_r.
  - destruct (Z.eqb_spec y x) as [->|Hne].
    + rewrite bool_decide_true by by left. rewrite andb_true_r, at_insert. destruct (Z.eqb_spec x k) as [->|]; lia.
    + assert (bool_decide (x ∈ y :: l) = bool_decide (x ∈ l)) as ->
        by (apply bool_decide_ext; rewrite elem_of_cons; naive_solver congruence).
      simpl. rewrite !at_insert. destruct (Z.eqb_spec y k) as [->|]; [|done].
      rewrite IH, (proj2 (Z.eqb_neq x k)) by congruence. done.
Qed.

Lemma tally_elem x l : 0 < at_ (tally l) x <-> x ∈ l.
Proof.
  induction l as [|y l IH]; simpl.
  - unfold at_. rewrite lookup_empty. simpl. split; [lia|intros Hx; by apply not_elem_of_nil in Hx].
  - rewrite at_insert, elem_of_cons, <- IH. pose proof (tally_nonneg l x). destruct (Z.eqb_spec y x) as [->|Hne].
    + split; [by left|lia].
    + split; [by right|]. intros [->|]; [done|lia].
Qed.

Lemma shared_sym l1 l2 : shared_loop (tally l1) l2 = shared_loop (tally l2) l1.
Proof.
  revert l2. induction l1 as [|x l1 IH]; intros l2; [apply shared_loop_empty|].
  simpl. rewrite shared_loop_incr by apply tally_nonneg. fold (at_ (tally l2) x).
  destruct (bool_decide (x ∈ l2)) eqn:E.
  - bool_prop. rewrite (proj2 (Z.ltb_lt _ _)) by by apply tally_elem. rewrite IH. f_equal.
    apply shared_loop_ext. intros k. rewrite tally_drop, at_insert. rewrite bool_decide_true by done.
    rewrite andb_true_r. destruct (Z.eqb_spec x k) as [->|]; lia.
  - bool_prop. rewrite (proj2 (Z.ltb_ge _ _)); [apply IH|].
    pose proof (tally_nonneg l2 x). assert (~ 0 < at_ (tally l2) x) by by rewrite tally_elem. lia.
Qed.

(** No more is shared than either has. *)
Lemma shared_bounds m l : 0 <= shared_loop m l <= Z.of_nat (length l).
Proof.
  revert m. induction l as [|k l IH]; intros m; simpl; [lia|]. destruct (0 <? _).
  - specialize (IH (<[k := default 0 (m !! k) - 1]> m)). lia.
  - specialize (IH m). lia.
Qed.

Lemma length_bigrams l : length (bigrams l) = pred (length l).
Proof. induction l as [|a [|b l] IH]; [done..|]. simpl in *. by rewrite IH. Qed.

(** Spelling similarity does not depend on which title is asked about: it is
    symmetric for any two strings, it is 1 for equal ones, and it is twice the
    bigrams they have in common, counted with multiplicity and no more than either
    has, over the bigrams of both. *)
Theorem dice_spec a b :
  dice a b = dice b a /\ dice a a = of_int 1 /\
  (a <> b -> (2 <= length (rune_list a))%nat -> (2 <= length (rune_list b))%nat ->
   exists shared, 0 <= shared <= Z.min (Z.of_nat (length (bigrams (rune_list a)))) (Z.of_nat (length (bigrams (rune_list b)))) /\
     dice a b = fdiv (fmul (of_int 2) (of_int shared))
                  (of_int (Z.of_nat (length (bigrams (rune_list a)) + length (bigrams (rune_list b)))))).
Proof.
  assert (Hs : forall x y, shared_loop (counts (bigrams (rune_list x))) (bigrams (rune_list y)) =
    shared_loop (tally (bigrams (rune_list x))) (bigrams (rune_list y)))
    by (intros x y; apply shared_loop_ext, counts_tally).
  unfold dice. rewrite String.eqb_refl. split; [|split; [done|]].
  - rewrite (String.eqb_sym b a). destruct (String.eqb a b); [done|]. rewrite orb_comm. destruct (_ || _); [done|].
    rewrite !Hs, shared_sym. f_equal. f_equal. lia.
  - intros Hne Ha Hb. rewrite (proj2 (String.eqb_neq a b)) by done.
    rewrite (proj2 (Nat.ltb_ge _ _)) by done. rewrite (proj2 (Nat.ltb_ge _ _)) by done. simpl.
    exists (shared_loop (counts (bigrams (rune_list a))) (bigrams (rune_list b))). rewrite Hs. split.
    + pose proof (shared_bounds (tally (bigrams (rune_list a))) (bigrams (rune_list b))).
      pose proof (shared_bounds (tally (bigrams (rune_list b))) (bigrams (rune_list a))).
      rewrite shared_sym in *. rewrite (shared_sym (bigrams (rune_list b))) in *. lia.
    + f_equal. f_equal. rewrite !length_bigrams. lia.
Qed.

Lemma dice_spec_witness :
  dice "night" "nacht" = dice "nacht" "night" /\
  exists shared, 0 <= shared <= 4 /\ dice "night" "nacht" = fdiv (fmul (of_int 2) (of_int shared)) (of_int 8).
Proof.
  destruct (dice_spec "night" "nacht") as (Hs & _ & Hv). split; [exact Hs|].
  apply Hv; [discriminate|vm_compute; lia|vm_compute; lia].
Defined.

(** ** The index *)

Lemma union_of_elem l seen pos : pos ∈ union_of l seen <-> pos ∈ l /\ pos ∉ seen.
Proof.
  revert seen. induction l as [|p l IH]; intros seen; simpl.
  - split; [by intros Hx%not_elem_of_nil|]. by intros [Hx%not_elem_of_nil _].
  - case_bool_decide as Hp; [rewrite IH, elem_of_cons; naive_solver|].
    rewrite !elem_of_cons, IH, elem_of_cons. destruct (decide (pos = p)); naive_solver.
Qed.

Lemma union_of_nodup l seen : NoDup (union_of l seen).
Proof.
  revert seen. induction l as [|p l IH]; intros seen; simpl; [constructor|].
  case_bool_decide; [apply IH|]. constructor; [|apply IH]. rewrite union_of_elem, elem_of_cons. naive_solver.
Qed.

Lemma posts_elem pos toks m tok p :
  p ∈ default [] (foldl (post pos) m toks !! tok) <-> p ∈ default [] (m !! tok) \/ p = pos /\ tok ∈ toks.
Proof.
  revert m. induction toks as [|t toks IH]; intros m; simpl.
  - split; [by left|]. intros [?|[_ Hx%not_elem_of_nil]]; done.
  - rewrite IH, elem_of_cons. unfold post. destruct (decide (t = tok)) as [->|Hne].
    + rewrite lookup_insert_eq. simpl. rewrite elem_of_app, list_elem_of_singleton. naive_solver.
    + rewrite lookup_insert_ne by done. naive_solver.
Qed.

(** ** Lists chosen by position *)

Lemma chosen_cons {X Y} (pick : X -> option Y) x xs : omap pick (x :: xs) = option_list (pick x) ++ omap pick xs.
Proof. cbn. by destruct (pick x). Qed.

Section chosen.
Context {X Y : Type}.
Implicit Types (pick : X -> option Y) (keep : X -> bool) (xs : list X).

Lemma chosen_same pick pick' xs : (forall x, pick x = pick' x) -> omap pick xs = omap pick' xs.
Proof. intros He. apply list_omap_ext. induction xs; by constructor. Qed.

Lemma chosen_filter keep pick xs :
  omap pick (List.filter keep xs) = omap (fun x => if keep x then pick x else None) xs.
Proof.
  induction xs as [|x xs IH]; [done|]. cbn [List.filter]. rewrite chosen_cons, <- IH. destruct (keep x); [apply chosen_cons|done].
Qed.

(** Choosing twice is choosing once. *)
Lemma chosen_twice {W} (again : Y -> option W) pick xs :
  omap again (omap pick xs) = omap (fun x => match pick x with Some y => again y | None => None end) xs.
Proof.
  induction xs as [|x xs IH]; [done|]. rewrite !chosen_cons, omap_app, omap_option_list, IH. by destruct (pick x).
Qed.
End chosen.

(** Picking positions by what they hold picks the elements, in order. *)
Lemma chosen_positions {X} (keep : X -> bool) (xs : list X) :
  omap (fun pos => match xs !! pos with Some e => if keep e then Some e else None | None => None end) (seq 0 (length xs)) =
  List.filter keep xs.
Proof.
  induction xs as [|x xs IH]; [done|]. cbn [length seq List.filter]. rewrite <- seq_shift, chosen_cons.
  change ((x :: xs) !! 0%nat) with (Some x). rewrite <- IH.
  rewrite (list_omap_ext _ (fun pos => match xs !! pos with Some e => if keep e then Some e else None | None => None end)
    (map S _) (seq 0 (length xs))); [by destruct (keep x)|].
  apply Forall2_fmap_l, Forall_Forall2_diag. by apply Forall_true.
Qed.

#[export] Instance filter_b_perm {A} (p : A -> bool) : Proper (Permutation ==> Permutation) (List.filter p).
Proof.
  induction 1 as [|x l l' _ IH|x y l|l1 l2 l3 _ IH1 _ IH2]; simpl; [done|by destruct (p x); rewrite IH| |by etransitivity].
  destruct (p x), (p y); try done. apply Permutation_swap.
Qed.

Section ranking.
Context `{Unicode} `{Text}.

Definition entry_of (m : Media) : indexed := mkIndexed m (keys_of (Titles m)).

Definition has_title (m : Media) : bool := match keys_of (Titles m) with [] => false | _ => true end.

(** The words an entry is found by. *)
Definition words (e : indexed) : list string := tokens_of e ++ compounds_of e.

Definition touches (qt : list string) (e : indexed) : bool := existsb (fun tok => bool_decide (tok ∈ words e)) qt.

Lemma touches_spec qt e : touches qt e = true <-> exists tok, tok ∈ qt /\ tok ∈ words e.
Proof.
  unfold touches. rewrite existsb_exists. split.
  - intros (tok & Ht & Hw). apply list_elem_of_In in Ht. bool_prop. eauto.
  - intros (tok & Ht & Hw). exists tok. rewrite <- list_elem_of_In. split; [done|]. by apply bool_decide_true.
Qed.

Lemma Add_eq ix m :
  Add ix m = if has_title m
    then mkIndex (media ix ++ [entry_of m]) (foldl (post (length (media ix))) (byToken ix) (words (entry_of m)))
           (<[ID m := length (media ix)]> (byID ix))
    else ix.
Proof.
  unfold Add, has_title, words, entry_of. destruct (Titles m) as [|t l] eqn:E; [done|].
  simpl ix_keys. by destruct (keys_of (t :: l)).
Qed.

(** What the postings say: a word's are the entries found by it. *)
Definition well_posted (ix : Index) : Prop :=
  forall tok pos, pos ∈ default [] (byToken ix !! tok) <-> exists e, media ix !! pos = Some e /\ tok ∈ words e.

Lemma Add_posted ix m : well_posted ix -> well_posted (Add ix m).
Proof.
  intros Hw tok pos. rewrite Add_eq. destruct (has_title m); [|apply Hw]. simpl.
  rewrite posts_elem, (Hw tok pos). split.
  - intros [(e & He & Ht)|[-> Ht]].
    + exists e. split; [|done]. rewrite lookup_app_l; [done|]. by apply lookup_lt_Some in He.
    + exists (entry_of m). split; [|done]. by rewrite list_lookup_middle.
  - intros (e & He & Ht). apply lookup_app_Some in He as [He|[Hl He]]; [by left; eauto|].
    apply list_lookup_singleton_Some in He as [Hz <-]. right. split; [lia|done].
Qed.

Lemma index_posted l : well_posted (index_of l).
Proof.
  unfold index_of. assert (well_posted NewIndex) as Hn.
  { intros tok pos. simpl. rewrite lookup_empty. simpl. split; [by intros Hx%not_elem_of_nil|]. by intros (e & He & _). }
  revert Hn. generalize NewIndex. induction l as [|m l IH]; intros ix Hx; simpl; [done|]. apply IH, Add_posted, Hx.
Qed.

Lemma index_media l : media (index_of l) = map entry_of (List.filter has_title l).
Proof.
  unfold index_of. assert (forall ix, media (foldl Add ix l) = media ix ++ map entry_of (List.filter has_title l)) as Hg.
  { induction l as [|m l IH]; intros ix; simpl; [by rewrite app_nil_r|]. rewrite IH, Add_eq.
    destruct (has_title m); simpl; [|done]. by rewrite <- app_assoc. }
  by rewrite Hg.
Qed.

Lemma candidates_elem ix qt pos :
  well_posted ix -> pos ∈ candidates ix qt <-> exists e, media ix !! pos = Some e /\ touches qt e = true.
Proof.
  intros Hw. unfold candidates. rewrite union_of_elem, list_elem_of_In, in_concat. split.
  - intros [(l & Hl & Hp) _]. apply in_map_iff in Hl as (tok & <- & Ht). apply list_elem_of_In in Hp, Ht.
    apply Hw in Hp as (e & He & Hx). exists e. split; [done|]. apply touches_spec. eauto.
  - intros (e & He & (tok & Ht & Hx)%touches_spec). split; [|apply not_elem_of_nil].
    exists (default [] (byToken ix !! tok)). split.
    + apply in_map_iff. exists tok. by rewrite <- list_elem_of_In.
    + apply list_elem_of_In, Hw. eauto.
Qed.

(** The entries the candidates stand for are the corpus's entries found by a word
    of the query, in some order. *)
Lemma candidates_entries ix qt :
  well_posted ix ->
  omap (fun pos => media ix !! pos) (candidates ix qt) ≡ₚ List.filter (touches qt) (media ix).
Proof.
  intros Hw. rewrite <- (chosen_positions (touches qt)).
  set (held := fun pos => match media ix !! pos with Some e => touches qt e | None => false end).
  assert (candidates ix qt ≡ₚ List.filter held (seq 0 (length (media ix)))) as ->.
  { apply list.NoDup_Permutation.
    - apply union_of_nodup.
    - apply base.NoDup_ListNoDup, List.NoDup_filter, seq_NoDup.
    - intros pos. rewrite candidates_elem by done. rewrite list_elem_of_In, filter_In, in_seq.
      unfold held. split.
      + intros (e & He & Ht). rewrite He. apply lookup_lt_Some in He. split; [lia|done].
      + intros [_ Ht]. destruct (media ix !! pos); [eauto|done]. }
  rewrite chosen_filter. erewrite chosen_same; [reflexivity|]. intros pos. unfold held. by destruct (media ix !! pos).
Qed.

(** ** The ranking *)

(** The reference: every entry of the corpus found by a word of the query, scored,
    with no index. *)
Definition scored (l : list Media) (q : Query) : list Result :=
  let qn := Normalise (q_Title q) in
  if String.eqb qn "" then []
  else
    omap (score q qn (Fold (q_Title q)) (significant qn))
      (List.filter (touches (significant qn)) (map entry_of (List.filter has_title l))).

Lemma ahead_asym a b : ahead a b = true -> ahead b a = false.
Proof. unfold ahead. rewrite (Z.eqb_sym (quantised b)). destruct (_ =? _) eqn:E; simpl; bool_prop; lia. Qed.

Lemma ahead_weak a b c : ahead b a = false -> ahead c b = false -> ahead c a = false.
Proof.
  unfold ahead.
  destruct (Z.eqb_spec (quantised b) (quantised a)), (Z.eqb_spec (quantised c) (quantised b)),
    (Z.eqb_spec (quantised c) (quantised a)); simpl; bool_prop; lia.
Qed.

Lemma ahead_tie a b : ahead a b = false -> ahead b a = false -> MediaID a = MediaID b.
Proof.
  unfold ahead. rewrite (Z.eqb_sym (quantised b)). destruct (Z.eqb_spec (quantised a) (quantised b)); simpl;
    intros; bool_prop; lia.
Qed.

Lemma score_id q qn qf qt e r : score q qn qf qt e = Some r -> MediaID r = ID (ix_media e).
Proof.
  unfold score. destruct (best_title _ _ _ _ _ _) as [[best matched] reason]. destruct (flt _ _); [done|].
  destruct (boost_score _ _ _) as [s why]. by intros [= <-].
Qed.

(** Two results for one entry are one result. *)
Lemma scored_tie l q a b :
  base.NoDup (map ID l) -> a ∈ scored l q -> b ∈ scored l q -> MediaID a = MediaID b -> a = b.
Proof.
  intros Hd. unfold scored. destruct (String.eqb _ _); [by intros Hx%not_elem_of_nil|].
  intros (e & He & Ha)%list_elem_of_omap (e' & He' & Hb)%list_elem_of_omap Hi.
  pose proof (score_id _ _ _ _ _ _ Ha) as Ia. pose proof (score_id _ _ _ _ _ _ Hb) as Ib.
  apply list_elem_of_In, filter_In in He as [(m & <- & [Hm _]%filter_In)%in_map_iff _].
  apply list_elem_of_In, filter_In in He' as [(m' & <- & [Hm' _]%filter_In)%in_map_iff _].
  assert (m = m') as <-; [|congruence]. simpl in Ia, Ib.
  apply list_elem_of_In, list_elem_of_lookup in Hm as [i Hi']. apply list_elem_of_In, list_elem_of_lookup in Hm' as [j Hj].
  assert (i = j) as ->; [|congruence]. eapply (NoDup_lookup (map ID l)); [done|by rewrite list_lookup_fmap, Hi'|].
  rewrite list_lookup_fmap, Hj. simpl. congruence.
Qed.

Lemma Rank_scored l q k : base.NoDup (map ID l) -> Rank (index_of l) q k = cut k (sort_by ahead (scored l q)).
Proof.
  intros Hd. pose proof (scored_tie l q) as Ht. unfold Rank. unfold scored in *.
  destruct (String.eqb _ _) eqn:E; [unfold cut; by destruct (_ && _), (Z.to_nat k)|]. f_equal.
  apply sort_by_unique.
  - apply ahead_asym.
  - apply ahead_weak.
  - rewrite <- index_media, <- (candidates_entries _ _ (index_posted l)). by rewrite chosen_twice.
  - intros a b Ha Hb.
    rewrite <- (chosen_twice _ (fun pos => media (index_of l) !! pos)), (candidates_entries _ _ (index_posted l)), index_media in Ha, Hb.
    intros H1 H2. apply Ht; [done..|]. by apply ahead_tie.
Qed.

(** The index changes nothing but the time it takes: for a corpus of distinct
    ids, ranking through it is ranking every entry that shares a word or a run-together
    pair of words with the query, in an order that does not depend on how the
    postings happened to be laid out. *)
Theorem Rank_full_scan l l' q k :
  base.NoDup (map ID l) -> l ≡ₚ l' ->
  Rank (index_of l) q k = cut k (sort_by ahead (scored l q)) /\ Rank (index_of l) q k = Rank (index_of l') q k.
Proof.
  intros Hd Hp. split; [by apply Rank_scored|]. rewrite !Rank_scored; [|by rewrite <- Hp|done]. f_equal.
  apply sort_by_unique; [apply ahead_asym|apply ahead_weak| |].
  - unfold scored. destruct (String.eqb _ _); [done|]. f_equiv. 
    by rewrite Hp.
  - intros a b Ha Hb H1 H2. apply (scored_tie l q); [done..|]. by apply ahead_tie.
Qed.

(** [r] is the best there is. *)
Definition best_of (l : list Result) (r : Result) : Prop :=
  r ∈ l /\ forall r', r' ∈ l -> r' = r \/ ahead r r' = true.

Lemma best_of_perm l l' r : l ≡ₚ l' -> best_of l r -> best_of l' r.
Proof. intros Hp [Hr Hb]. split; [by rewrite <- Hp|]. intros r' Hr'. apply Hb. by rewrite Hp. Qed.

Lemma best_of_unique l r r' : best_of l r -> best_of l r' -> r = r'.
Proof.
  intros [Hr Hb] [Hr' Hb']. destruct (Hb r' Hr') as [|H1]; [done|]. destruct (Hb' r Hr) as [|H2]; [done|].
  apply ahead_asym in H1. congruence.
Qed.

(** The head of a part of the results in order is the best of that part. *)
Lemma sorted_best l q x rest :
  base.NoDup (map ID l) -> (forall r, r ∈ x :: rest -> r ∈ scored l q) ->
  StronglySorted (fun a b => ahead b a = false) (x :: rest) -> best_of (x :: rest) x.
Proof.
  intros Hd Hin [_ Hall]%StronglySorted_inv. rewrite List.Forall_forall in Hall.
  split; [by left|]. intros r Hr. destruct (ahead x r) eqn:Ea; [by right|left].
  pose proof (Hin r Hr) as Hr'. apply elem_of_cons in Hr as [->|Hr]; [done|].
  apply (scored_tie l q); [done|done|apply Hin; by left|]. apply ahead_tie; [|done]. by apply Hall, list_elem_of_In.
Qed.

Lemma cut_head k x l : cut (Z.pos k) (x :: l) = x :: take (pred (Pos.to_nat k)) l.
Proof.
  unfold cut. simpl (0 <? _). rewrite andb_true_l. destruct (Z.ltb_spec (Z.pos k) (Z.of_nat (length (x :: l)))) as [Hl|Hl].
  - rewrite Z2Nat.inj_pos. destruct (Pos2Nat.is_succ k) as [j ->]. done.
  - simpl length in Hl. by rewrite take_ge by lia.
Qed.

(** C27: what a title is matched to, for a corpus of distinct ids, is the best of all
    the entries that share a word with it (the higher score to a thousandth, then the
    lower id), and only if it scores six; it is acted on without asking exactly when it scores
    sixteen and is two ahead of the second best, or sixteen with no second. *)
Theorem Match_spec l q :
  base.NoDup (map ID l) ->
  match Match (index_of l) q with
  | None => forall best, best_of (scored l q) best -> flt (Score best) (of_int 6) = true
  | Some r => exists best margin,
      best_of (scored l q) best /\ flt (Score best) (of_int 6) = false /\ r = decide_on best margin /\
      (r_Decision r = Auto <-> fge (Score best) (of_int 16) = true /\ fge margin (of_int 2) = true) /\
      (scored l q = [best] -> margin = Score best) /\
      (forall others second, scored l q ≡ₚ best :: others -> best_of others second ->
        margin = fsub (Score best) (Score second))
  end.
Proof.
  intros Hd. unfold Match. rewrite Rank_scored by done.
  destruct (sort_by ahead (scored l q)) as [|best rest] eqn:E.
  - simpl. intros best [Hb _]. rewrite <- (sort_by_perm ahead), E in Hb. by apply not_elem_of_nil in Hb.
  - pose proof (sort_by_sorts ahead ahead_asym ahead_weak (scored l q)) as Hss.
    pose proof (sort_by_perm ahead (scored l q)) as Hp. rewrite E in Hss, Hp. rewrite cut_head.
    assert (Hbest : best_of (scored l q) best).
    { apply (best_of_perm (best :: rest)); [done|]. apply (sorted_best l q); [done| |done]. intros r Hr. by rewrite <- Hp. }
    change thresholdAccept with (of_int 6). destruct (flt (Score best) (of_int 6)) eqn:El.
    { intros b Hb. by rewrite (best_of_unique _ _ _ Hb Hbest). }
    do 2 eexists. split; [done|]. split; [done|]. split; [done|]. split; [|split].
    + unfold decide_on. simpl. change thresholdAuto with (of_int 16). change thresholdMargin with (of_int 2).
      destruct (fge (Score best) _), (fge _ _); simpl; naive_solver.
    + intros Hs. rewrite Hs in Hp. apply Permutation_length in Hp. destruct rest; [done|simpl in Hp; lia].
    + intros others second Ho Hsec. rewrite Ho in Hp. apply Permutation_cons_inv in Hp.
      apply StronglySorted_inv in Hss as [Hss _]. destruct rest as [|r rest].
      { apply Permutation_nil in Hp as ->. by destruct Hsec as [?%not_elem_of_nil _]. }
      simpl. f_equal. f_equal. apply (best_of_unique others); [|done]. apply (best_of_perm (r :: rest)); [done|].
      apply (sorted_best l q); [done| |done]. intros r' Hr'. rewrite Ho. right. by rewrite <- Hp.
Qed.
End ranking.

(** ** A small corpus *)

Definition frieren : Media := mkMedia 1 ["Sousou no Frieren"; "Frieren: Beyond Journey's End"] "TV" 28 2023 1.
Definition frieren2 : Media :=
  mkMedia 2 ["Sousou no Frieren 2nd Season"; "Frieren: Beyond Journey's End Season 2"] "TV" 0 2026 2.
Definition vinland : Media := mkMedia 3 ["Vinland Saga"] "TV" 24 2019 1.
Definition shelf : list Media := [frieren; frieren2; vinland].
Definition asked (title : string) : Query := mkQuery title 0 0 0 "" 5 ∅.

Definition ascii_rank := @Rank ascii_unicode ascii_text.
Definition ascii_match := @Match ascii_unicode ascii_text.
Definition ascii_index := @index_of ascii_unicode ascii_text.

(** Two entries share the words asked for: the plain title wins by three points. *)
Lemma Rank_full_scan_witness :
  ascii_rank (ascii_index shelf) (asked "Sousou no Frieren") 0 =
    ascii_rank (ascii_index (rev shelf)) (asked "Sousou no Frieren") 0 /\
  map MediaID (ascii_rank (ascii_index shelf) (asked "Sousou no Frieren") 0) = [1; 2].
Proof.
  split; [|vm_compute; reflexivity].
  refine (proj2 (@Rank_full_scan ascii_unicode ascii_text shelf (rev shelf) (asked "Sousou no Frieren") 0 _ _)).
  - apply base.NoDup_ListNoDup. repeat constructor; simpl; lia.
  - apply Permutation_rev.
Defined.

(** One word of both seasons' titles is asked about; a whole title is not. *)
Lemma Match_spec_witness :
  (exists r best margin, ascii_match (ascii_index shelf) (asked "Vinland Saga") = Some r /\ r_Decision r = Auto /\
     r = decide_on best margin /\ best_of (@scored ascii_unicode ascii_text shelf (asked "Vinland Saga")) best) /\
  (exists r, ascii_match (ascii_index shelf) (asked "Frieren") = Some r /\ r_Decision r = Ask).
Proof.
  split; [|eexists; split; vm_compute; reflexivity].
  assert (base.NoDup (map ID shelf)) as Hd by (apply base.NoDup_ListNoDup; repeat constructor; simpl; lia).
  pose proof (@Match_spec ascii_unicode ascii_text shelf (asked "Vinland Saga") Hd) as Hs. unfold ascii_match.
  destruct (@Match ascii_unicode ascii_text _ _) as [r|] eqn:E; [|vm_compute in E; discriminate].
  destruct Hs as (best & margin & Hb & _ & Hr & _). exists r, best, margin. split; [reflexivity|].
  split; [|by split]. vm_compute in E. by injection E as <-.
Defined.

(** A title that begins with a numeral's letters is respelt. *)
Example Normalise_numerals :
  @Normalise ascii_unicode ascii_text "Violet Evergarden" = "6olet evergarden" /\
  @Normalise ascii_unicode ascii_text "Vinland Saga" = "6nland saga".
Proof. vm_compute. by split. Qed.

(** Two season tags in a row need two passes. *)
Example Normalise_twice :
  @Normalise ascii_unicode ascii_text "Show S2 S2" = "show season 2 s2" /\
  @Normalise ascii_unicode ascii_text "show season 2 s2" = "show season 2 season 2".
Proof. vm_compute. by split. Qed.
