(* ===== verification/Franchise.v ===== *)
(** * Franchises: internal/store/franchise.go, internal/library/relations.go

    AniList's prequel and sequel edges, kept as rows, make one show of several
    entries: the rows' connected components are found by a stack, each is numbered in
    broadcast order, and only the components a walk touched are numbered again.  The
    rows of a query come in an order that is an argument. *)
From stdpp Require Import base gmap sets strings list relations.
From Stdlib Require Import ZArith Lia Sorted.
From S2P Require Import Prelude GoStr.

(** [relation] (migration 00006): anime_id, related_id, kind, all three the key. *)
Abbreviation relation_row := (Z * Z * string)%type.

(** The tables; [franchise] maps an anime to its root and ordinal, [start_date] and
    [corpus_year] hold the anime and corpus rows that exist, with their nullable column. *)
Record store := mkStore {
  relation : gset relation_row;
  franchise : gmap Z (Z * Z);
  relation_fetch : gmap Z Z;
  dead_anime : gset Z;
  start_date : gmap Z (option string);
  corpus_year : gmap Z (option Z);
}.

Definition set_relation (st : store) (r : gset relation_row) : store :=
  mkStore r (franchise st) (relation_fetch st) (dead_anime st) (start_date st) (corpus_year st).
Definition set_franchise (st : store) (f : gmap Z (Z * Z)) : store :=
  mkStore (relation st) f (relation_fetch st) (dead_anime st) (start_date st) (corpus_year st).
Definition set_fetch (st : store) (f : gmap Z Z) : store :=
  mkStore (relation st) (franchise st) f (dead_anime st) (start_date st) (corpus_year st).

Record Relation := mkRelation { AnimeID : Z; RelatedID : Z; Kind : string }.

Definition SeasonKinds (k : string) : bool := String.eqb k "PREQUEL" || String.eqb k "SEQUEL".

(** ** Rows *)

Definition MarkRelationsFetched (now : Z) (ids : list Z) (st : store) : store :=
  set_fetch st (foldl (fun f id => <[id := now]> f) (relation_fetch st) ids).

(** [None]: the database failed. *)
Definition RelationsStale (now animeID maxAge : Z) (ok : bool) (st : store) : bool :=
  if negb ok then false
  else match relation_fetch st !! animeID with
       | None => true
       | Some fetched_at => maxAge <=? now - fetched_at
       end.

Definition touches (id : Z) (r : relation_row) : bool := (r.1.1 =? id) || (r.1.2 =? id).

Definition HasRelations (animeID : Z) (st : store) : bool :=
  (0 <? length (List.filter (touches animeID) (elements (relation st))))%nat ||
  bool_decide (is_Some (franchise st !! animeID)).

Definition MarkNoRelations (animeID : Z) (st : store) : store :=
  if animeID =? 0 then st else set_relation st ({[(animeID, animeID, "NONE")]} ∪ relation st).

(** [DELETE FROM relation WHERE (anime_id = ? OR related_id = ?) AND kind <> 'NONE'] *)
Definition forget_edges (id : Z) (rs : gset relation_row) : gset relation_row :=
  filter (fun r => touches id r && negb (String.eqb r.2 "NONE") = false) rs.

Definition row_of (r : Relation) : relation_row := (AnimeID r, RelatedID r, Kind r).

Definition SaveRelations (fetched : list Z) (rels : list Relation) (st : store) : store :=
  match rels, fetched with
  | [], [] => st
  | _, _ =>
      set_relation st
        (foldl (fun rs r => if (AnimeID r =? 0) || (RelatedID r =? 0) then rs else {[row_of r]} ∪ rs)
           (foldl (fun rs id => forget_edges id rs) (relation st) fetched) rels)
  end.

(** ** The graph *)

Definition season_edge (dead : gset Z) (r : relation_row) : bool :=
  SeasonKinds r.2 && bool_decide (r.1.1 ∉ dead) && bool_decide (r.1.2 ∉ dead).

(** What the rebuild's first query reads, in the order of [elements]. *)
Definition season_rows (st : store) : list (Z * Z) :=
  map fst (List.filter (season_edge (dead_anime st)) (elements (relation st))).

Definition link (adj : gmap Z (list Z)) (a b : Z) : gmap Z (list Z) := <[a := default [] (adj !! a) ++ [b]]> adj.

Definition adjacency (rows : list (Z * Z)) : gmap Z (list Z) :=
  foldl (fun adj r => link (link adj r.1 r.2) r.2 r.1) ∅ rows.

Definition neighbours (adj : gmap Z (list Z)) (id : Z) : list Z := default [] (adj !! id).

(** The loop of [component]; the stack's top comes first. *)
Fixpoint walk (fuel : nat) (adj : gmap Z (list Z)) (stack : list Z) (seen : gset Z) (out : list Z) :
    option (list Z * gset Z) :=
  match stack with
  | [] => Some (out, seen)
  | id :: stack' =>
      match fuel with
      | O => None
      | S fuel' =>
          if bool_decide (id ∈ seen) then walk fuel' adj stack' seen out
          else walk fuel' adj (rev (neighbours adj id) ++ stack') ({[id]} ∪ seen) (out ++ [id])
      end
  end.

(** Each id's neighbours are pushed once at most. *)
Definition weight (adj : gmap Z (list Z)) : nat := map_fold (fun _ l n => (length l + n)%nat) 0%nat adj.

Definition component (start : Z) (adj : gmap Z (list Z)) (seen : gset Z) : option (list Z * gset Z) :=
  walk (S (weight adj)) adj [start] seen [].

Fixpoint components (starts : list Z) (adj : gmap Z (list Z)) (seen : gset Z) : option (list (list Z)) :=
  match starts with
  | [] => Some []
  | id :: starts' =>
      if bool_decide (id ∈ seen) || bool_decide (adj !! id = None) then components starts' adj seen
      else
        match component id adj seen with
        | None => None
        | Some (members, seen') =>
            match components starts' adj seen' with
            | None => None
            | Some groups => Some (members :: groups)
            end
        end
  end.

(** ** Dates *)

(** A year as ["%04d"] prints it. *)
Definition pad4 (y : Z) : string :=
  (if y <? 10 then "000" else if y <? 100 then "00" else if y <? 1000 then "0" else "") +:+ itoa y.

(** The query of [startDates]: the row's date without dashes, else the corpus's year. *)
Definition sql_date (st : store) (id : Z) : string :=
  let d := replace_all (default "" (default None (start_date st !! id))) "-" "" in
  if negb (String.eqb d "") then d
  else match default None (corpus_year st !! id) with
       | Some y => pad4 y +:+ "0000"
       | None => ""
       end.

Fixpoint atoi_digits (l : list tok) (acc : Z) : option Z :=
  match l with
  | [] => Some acc
  | t :: l' =>
      if (t_rune t <? 48) || (57 <? t_rune t) then None
      else atoi_digits l' (i64_add (i64_mul acc 10) (t_rune t - 48))
  end.

Definition atoiSafe (s : string) : option Z := atoi_digits (runes s) 0.

Definition startDate (known : gmap Z string) (st : store) (id : Z) : Z :=
  let date := sql_date st id in
  let k := replace_all (default "" (known !! id)) "-" "" in
  let date :=
    if String.eqb date "" ||
       ((String.length date =? 8)%nat && has_suffix date "0000" && (String.length k =? 8)%nat) then k else date in
  match atoiSafe date with
  | Some v => if 0 <? v then v else 99999999
  | None => 99999999
  end.

Definition startDates (groups : list (list Z)) (known : gmap Z string) (st : store) : gmap Z Z :=
  foldl (fun out id => <[id := startDate known st id]> out) ∅ (concat groups).

Definition dateOf (dates : gmap Z Z) (id : Z) : Z := default 99999999 (dates !! id).

Definition aired_before (date : Z -> Z) (a b : Z) : bool :=
  if negb (date a =? date b) then date a <? date b else a <? b.

(** ** Numbering *)

(** [DELETE FROM franchise WHERE anime_id = ? OR root_id = ?] *)
Definition delete_member (m : Z) (f : gmap Z (Z * Z)) : gmap Z (Z * Z) :=
  filter (fun x : Z * (Z * Z) => (x.1 =? m) || (x.2.1 =? m) = false) f.

(** An insertion of a key that is there fails, and the transaction with it. *)
Fixpoint insert_members (root ordinal : Z) (members : list Z) (f : gmap Z (Z * Z)) : option (gmap Z (Z * Z)) :=
  match members with
  | [] => Some f
  | m :: members' =>
      match f !! m with
      | Some _ => None
      | None => insert_members root (ordinal + 1) members' (<[m := (root, ordinal + 1)]> f)
      end
  end.

Fixpoint insert_groups (date : Z -> Z) (groups : list (list Z)) (f : gmap Z (Z * Z)) : option (gmap Z (Z * Z)) :=
  match groups with
  | [] => Some f
  | members :: groups' =>
      let sorted := sort_by (aired_before date) members in
      match insert_members (default 0 (head sorted)) 0 sorted f with
      | None => None
      | Some f' => insert_groups date groups' f'
      end
  end.

(** [rows] is what the first query reads; [None]: every franchise. *)
Definition RebuildFranchisesFor (rows : list (Z * Z)) (ids : option (list Z)) (known : gmap Z string) (st : store) :
    option (store * nat) :=
  let adj := adjacency rows in
  let starts := sort_by Z.ltb (match ids with None => elements (dom adj) | Some l => l end) in
  match components starts adj ∅ with
  | None => None
  | Some groups =>
      let dates := startDates groups known st in
      let cleared :=
        match ids with
        | None => ∅
        | Some l => foldl (fun f m => delete_member m f) (franchise st) (l ++ concat groups)
        end in
      match insert_groups (dateOf dates) groups cleared with
      | None => None
      | Some f => Some (set_franchise st f, length groups)
      end
  end.

Definition RebuildFranchises (rows : list (Z * Z)) (st : store) : option (store * nat) :=
  RebuildFranchisesFor rows None ∅ st.

(** ** The walk *)

Lemma elem_rev {A} (x : A) l : x ∈ rev l <-> x ∈ l.
Proof. rewrite !list_elem_of_In. by rewrite <- in_rev. Qed.

Section walk.
Context (adj : gmap Z (list Z)).

Definition edge (a b : Z) : Prop := b ∈ neighbours adj a.

(** What is left to push: the neighbours of the ids not yet seen. *)
Definition unseen (seen : gset Z) : gmap Z (list Z) := filter (fun x : Z * list Z => x.1 ∉ seen) adj.

Lemma weight_unseen seen id :
  id ∉ seen -> (weight (unseen ({[id]} ∪ seen)) + length (neighbours adj id) = weight (unseen seen))%nat.
Proof.
  intros Hs. unfold weight, neighbours. assert (unseen ({[id]} ∪ seen) = delete id (unseen seen)) as ->.
  { apply map_eq. intros k. apply option_eq. intros l.
    rewrite lookup_delete_Some. unfold unseen. rewrite !map_lookup_filter_Some. simpl. set_solver. }
  destruct (adj !! id) as [l|] eqn:E; simpl.
  - rewrite (map_fold_delete_L (fun _ l n => (length l + n)%nat) 0%nat id l (unseen seen)); [lia| |].
    + intros; lia.
    + unfold unseen. by apply map_lookup_filter_Some.
  - rewrite delete_id; [lia|]. unfold unseen. apply map_lookup_filter_None. by left.
Qed.

Lemma weight_empty_seen : unseen ∅ = adj.
Proof. unfold unseen. apply map_filter_id. set_solver. Qed.

Lemma weight_unseen_le seen : (weight (unseen seen) <= weight adj)%nat.
Proof.
  unfold unseen. induction seen as [|id seen Hid IH] using set_ind_L.
  - fold (unseen ∅). by rewrite weight_empty_seen.
  - fold (unseen seen) in IH. fold (unseen ({[id]} ∪ seen)). pose proof (weight_unseen seen id Hid). lia.
Qed.

(** The fuel is enough: a step takes the top off, and pushes an id's neighbours at
    most once. *)
Lemma walk_total fuel stack seen out :
  (length stack + weight (unseen seen) <= fuel)%nat -> is_Some (walk fuel adj stack seen out).
Proof.
  revert stack seen out. induction fuel as [|fuel IH]; intros [|id stack] seen out Hf; simpl in *;
    [by eexists|lia|by eexists|].
  case_bool_decide as Hs; apply IH; [lia|]. rewrite length_app, length_rev. pose proof (weight_unseen seen id Hs). lia.
Qed.

Lemma component_total start seen : is_Some (component start adj seen).
Proof. apply walk_total. simpl. pose proof (weight_unseen_le seen). lia. Qed.

(** What holds between steps of a walk from [start] that began having seen [before]. *)
Record walking (start : Z) (before : gset Z) (stack : list Z) (seen : gset Z) (out : list Z) : Prop := {
  walk_seen : forall x, x ∈ seen <-> x ∈ before \/ x ∈ out;
  walk_nodup : base.NoDup out;
  walk_new : forall x, x ∈ out -> x ∉ before;
  walk_reach : forall x, x ∈ stack \/ x ∈ out -> rtc edge start x;
  walk_closed : forall x y, x ∈ out -> edge x y -> y ∈ seen \/ y ∈ stack;
  walk_start : start ∈ out \/ start ∈ stack \/ start ∈ before;
}.

Lemma walk_invariant start before fuel stack seen out out' seen' :
  walking start before stack seen out -> walk fuel adj stack seen out = Some (out', seen') ->
  walking start before [] seen' out'.
Proof.
  revert stack seen out. induction fuel as [|fuel IH]; intros [|id stack] seen out Hw He; simpl in He;
    [by injection He as <- <-|done|by injection He as <- <-|].
  case_bool_decide as Hs; apply (IH _ _ _) in He; [done| |done|]; destruct Hw as [W1 W2 W3 W4 W5 W6].
  - split; [done..| | |].
    + intros x [Hx|Hx]; apply W4; [left; by right|by right].
    + intros x y Hx Hy. destruct (W5 x y Hx Hy) as [?|[->|?]%elem_of_cons]; auto.
    + destruct W6 as [?|[[->|?]%elem_of_cons|?]]; auto. apply W1 in Hs as [?|?]; auto.
  - assert (Hid : rtc edge start id) by (apply W4; left; by left).
    split.
    + intros x. rewrite elem_of_union, elem_of_singleton, elem_of_app, list_elem_of_singleton, W1. tauto.
    + apply list.NoDup_app. split; [done|]. split; [|apply NoDup_singleton].
      intros x Hx ->%list_elem_of_singleton. apply Hs, W1. by right.
    + intros x [Hx| ->%list_elem_of_singleton]%elem_of_app; [by apply W3|]. intros Hb. apply Hs, W1. by left.
    + intros x. rewrite !elem_of_app, elem_rev, list_elem_of_singleton. intros [[Hx|Hx]|[Hx| ->]].
      * by eapply rtc_r.
      * apply W4. left. by right.
      * apply W4. by right.
      * done.
    + intros x y. rewrite elem_of_app, list_elem_of_singleton, elem_of_union, elem_of_singleton, elem_of_app, elem_rev.
      intros [Hx| ->] Hy; [|by auto]. destruct (W5 x y Hx Hy) as [?|[->|?]%elem_of_cons]; auto.
    + rewrite !elem_of_app, list_elem_of_singleton. destruct W6 as [?|[[->|?]%elem_of_cons|?]]; auto.
Qed.

Lemma walking_start start before : walking start before [start] before [].
Proof.
  split; try (intros ? Hx; by apply not_elem_of_nil in Hx).
  - intros x. rewrite elem_of_nil. tauto.
  - constructor.
  - intros x [->%list_elem_of_singleton|Hx%not_elem_of_nil]; [done|done].
  - intros x y Hx. by apply not_elem_of_nil in Hx.
  - right. left. by left.
Qed.

Hypothesis edge_sym : forall a b, edge a b -> edge b a.

Lemma rtc_edge_sym a b : rtc edge a b -> rtc edge b a.
Proof using edge_sym. induction 1; [done|]. eapply rtc_r; [done|]. by apply edge_sym. Qed.

Definition closed (seen : gset Z) : Prop := forall x y, x ∈ seen -> edge x y -> y ∈ seen.

Lemma closed_rtc seen x y : closed seen -> rtc edge x y -> x ∈ seen -> y ∈ seen.
Proof. intros Hc. induction 1; [done|]. eauto. Qed.

Lemma component_spec start seen out seen' :
  closed seen -> start ∉ seen -> component start adj seen = Some (out, seen') ->
  base.NoDup out /\ (forall x, x ∈ out <-> rtc edge start x) /\
  (forall x, x ∈ seen' <-> x ∈ seen \/ x ∈ out) /\ closed seen'.
Proof using edge_sym.
  intros Hc Hs He. apply (walk_invariant start seen) in He; [|apply walking_start]. destruct He as [W1 W2 W3 W4 W5 W6].
  assert (Hst : start ∈ out) by (destruct W6 as [?|[?%not_elem_of_nil|?]]; done).
  assert (Hin : forall x y, x ∈ out -> edge x y -> y ∈ out).
  { intros x y Hx Hy. destruct (W5 x y Hx Hy) as [Hy'|?%not_elem_of_nil]; [|done].
    apply W1 in Hy' as [Hy'|]; [|done]. destruct (W3 x Hx). by apply (Hc y x), edge_sym. }
  split; [done|]. split; [|split; [done|]].
  - intros x. split; [intros Hx; apply W4; by right|]. intros Hr. clear -Hin Hst Hr. induction Hr; eauto.
  - intros x y [Hx|Hx]%W1 Hy; apply W1; [left; by apply (Hc x)|right; by apply (Hin x)].
Qed.

(** What the components found are: each a whole class of one of the starts, no two
    with a member in common, every start with an edge in one of them. *)
Record partition (starts : list Z) (seen : gset Z) (groups : list (list Z)) : Prop := {
  part_class : forall g, g ∈ groups -> exists s, s ∈ starts /\ s ∉ seen /\ adj !! s <> None /\ forall x, x ∈ g <-> rtc edge s x;
  part_nodup : base.NoDup (concat groups);
  part_new : forall x, x ∈ concat groups -> x ∉ seen;
  part_cover : forall s, s ∈ starts -> adj !! s <> None -> s ∈ seen \/ s ∈ concat groups;
}.

Lemma components_spec starts seen :
  closed seen -> exists groups, components starts adj seen = Some groups /\ partition starts seen groups.
Proof using edge_sym.
  revert seen. induction starts as [|id starts IH]; intros seen Hc; simpl.
  { exists []. split; [done|]. split; try (intros ? Hx; by apply not_elem_of_nil in Hx). constructor. }
  destruct (bool_decide (id ∈ seen) || bool_decide (adj !! id = None)) eqn:E.
  - destruct (IH seen Hc) as (gs & Hg & [P1 P2 P3 P4]). exists gs. split; [done|]. split; [|done..|].
    + intros g (s & Hs & Hr)%P1. exists s. split; [by right|done].
    + intros s [->|Hs]%elem_of_cons Ha; [|by auto]. apply orb_true_iff in E as [E|E]; bool_prop; [by left|done].
  - apply orb_false_iff in E as [Hs Ha]. bool_prop.
    destruct (component_total id seen) as [[out seen'] Hco]. rewrite Hco.
    destruct (component_spec id seen out seen' Hc Hs Hco) as (Hn & Hr & Hse & Hc').
    destruct (IH seen' Hc') as (gs & -> & [P1 P2 P3 P4]). exists (out :: gs). split; [done|].
    assert (Hid : id ∈ out) by (apply Hr; constructor).
    split.
    + intros g [->|(s & Hs' & Hss & Hrest)%P1]%elem_of_cons.
      * exists id. split; [by left|done].
      * exists s. split; [by right|]. split; [|done]. intros Hx. apply Hss, Hse. by left.
    + simpl. apply list.NoDup_app. split; [done|]. split; [|done]. intros x Hx Hx'. apply (P3 x Hx'), Hse. by right.
    + simpl. intros x [Hx|Hx]%elem_of_app; [|intros Hx'; apply (P3 x Hx), Hse; by left].
      intros Hx'. apply Hs. apply (closed_rtc seen x id Hc); [|done]. by apply rtc_edge_sym, Hr.
    + simpl. intros s [->|Hs']%elem_of_cons Ha'; rewrite elem_of_app; [by auto|].
      destruct (P4 s Hs' Ha') as [Hx%Hse|]; [|by auto]. tauto.
Qed.
End walk.

(** ** Edges and rows *)

Lemma neighbours_link adj a b x y : y ∈ neighbours (link adj a b) x <-> y ∈ neighbours adj x \/ x = a /\ y = b.
Proof.
  unfold neighbours, link. destruct (decide (a = x)) as [->|Hne].
  - rewrite lookup_insert_eq. simpl. rewrite elem_of_app, list_elem_of_singleton. naive_solver.
  - rewrite lookup_insert_ne by done. naive_solver.
Qed.

Lemma adjacency_edge rows a b : edge (adjacency rows) a b <-> (a, b) ∈ rows \/ (b, a) ∈ rows.
Proof.
  unfold edge, adjacency.
  assert (forall adj, b ∈ neighbours (foldl (fun adj r => link (link adj r.1 r.2) r.2 r.1) adj rows) a <->
    b ∈ neighbours adj a \/ (a, b) ∈ rows \/ (b, a) ∈ rows) as ->.
  { induction rows as [|[x y] rows IH]; intros adj; simpl; [rewrite !elem_of_nil; tauto|].
    rewrite IH, !neighbours_link, !elem_of_cons. naive_solver. }
  unfold neighbours. rewrite lookup_empty. simpl. rewrite elem_of_nil. tauto.
Qed.

Lemma adjacency_sym rows a b : edge (adjacency rows) a b -> edge (adjacency rows) b a.
Proof. rewrite !adjacency_edge. tauto. Qed.

Lemma foldl_keeps {A B} (P : A -> Prop) (f : A -> B -> A) l a :
  P a -> (forall a x, P a -> P (f a x)) -> P (foldl f a l).
Proof. intros Ha Hf. revert a Ha. induction l as [|x l IH]; simpl; auto. Qed.

(** An id is a key exactly when it has an edge. *)
Lemma adjacency_key rows a : adjacency rows !! a <> None <-> exists b, edge (adjacency rows) a b.
Proof.
  split.
  - assert (forall l, adjacency rows !! a = Some l -> l <> []) as Hne.
    { unfold adjacency. apply (foldl_keeps (fun adj => forall l, adj !! a = Some l -> l <> [])); [done|].
      intros adj [x y] Hadj. simpl.
      assert (forall adj x y, (forall l, adj !! a = Some l -> l <> []) ->
        forall l, link adj x y !! a = Some l -> l <> []) as Hl; [|by apply Hl, Hl].
      intros m u v Hm l. unfold link. destruct (decide (u = a)) as [->|]; [|rewrite lookup_insert_ne by done; apply Hm].
      rewrite lookup_insert_eq. intros [= <-]. by destruct (default [] (m !! a)). }
    intros Ha. unfold edge, neighbours. destruct (adjacency rows !! a) as [[|b l]|]; [by destruct (Hne [])| |done].
    exists b. by left.
  - intros (b & Hb) Hn. unfold edge, neighbours in Hb. rewrite Hn in Hb. by apply not_elem_of_nil in Hb.
Qed.

(** Two entries are linked when a prequel or sequel row joins two living ones. *)
Definition linked (st : store) (a b : Z) : Prop :=
  exists k, SeasonKinds k = true /\ ((a, b, k) ∈ relation st \/ (b, a, k) ∈ relation st) /\
    a ∉ dead_anime st /\ b ∉ dead_anime st.

Lemma season_rows_linked st rows a b : rows ≡ₚ season_rows st -> edge (adjacency rows) a b <-> linked st a b.
Proof.
  intros Hp. rewrite adjacency_edge, Hp. unfold season_rows, linked.
  assert (forall x y, (x, y) ∈ map fst (List.filter (season_edge (dead_anime st)) (elements (relation st))) <->
    exists k, SeasonKinds k = true /\ (x, y, k) ∈ relation st /\ x ∉ dead_anime st /\ y ∉ dead_anime st) as Hr.
  { intros x y. rewrite list_elem_of_In, in_map_iff. split.
    - intros ([[u v] k] & [= -> ->] & [He Hs]%filter_In). apply list_elem_of_In, elem_of_elements in He.
      unfold season_edge in Hs. simpl in Hs. apply andb_true_iff in Hs as [[Hk Hx]%andb_true_iff Hy]. bool_prop. eauto.
    - intros (k & Hk & Hin & Hx & Hy). exists (x, y, k). split; [done|]. apply filter_In. split.
      + by apply list_elem_of_In, elem_of_elements.
      + unfold season_edge. simpl. rewrite Hk, !bool_decide_true by done. done. }
  rewrite !Hr. naive_solver.
Qed.

(** ** Broadcast order *)

Section order.
Context (date : Z -> Z).

Lemma aired_asym a b : aired_before date a b = true -> aired_before date b a = false.
Proof. unfold aired_before. rewrite (Z.eqb_sym (date b)). destruct (_ =? _) eqn:E; simpl; intros; bool_prop; lia. Qed.

Lemma aired_weak a b c : aired_before date b a = false -> aired_before date c b = false -> aired_before date c a = false.
Proof.
  unfold aired_before. destruct (Z.eqb_spec (date b) (date a)), (Z.eqb_spec (date c) (date b)),
    (Z.eqb_spec (date c) (date a)); simpl; intros; bool_prop; lia.
Qed.

Lemma aired_total a b : aired_before date b a = false -> a <> b -> aired_before date a b = true.
Proof.
  unfold aired_before. rewrite (Z.eqb_sym (date b)). destruct (Z.eqb_spec (date a) (date b)); simpl;
    rewrite Z.ltb_ge, Z.ltb_lt; lia.
Qed.

Definition broadcast (members : list Z) : Prop := StronglySorted (fun a b => aired_before date a b = true) members.

Lemma sorted_broadcast members : base.NoDup members -> broadcast (sort_by (aired_before date) members).
Proof.
  intros Hn. pose proof (sort_by_sorts _ aired_asym aired_weak members) as Hs.
  rewrite <- (sort_by_perm (aired_before date)) in Hn. revert Hn Hs. unfold broadcast.
  generalize (sort_by (aired_before date) members). intros l Hn Hs.
  induction Hs as [|x l Hs IH Hx]; constructor; apply NoDup_cons in Hn as [Hx' Hn]; [by apply IH|].
  rewrite List.Forall_forall in *. intros y Hy. apply aired_total; [by apply Hx|]. intros ->. by apply Hx', list_elem_of_In.
Qed.

(** A set of entries has one broadcast order. *)
Lemma broadcast_unique l l' :
  base.NoDup l -> base.NoDup l' -> (forall x, x ∈ l <-> x ∈ l') -> broadcast l -> broadcast l' -> l = l'.
Proof.
  intros Hn Hn' He Hs Hs'. apply (sorting.StronglySorted_unique_strong (fun a b => aired_before date a b = true)); try done.
  - intros a b _ _ H1 H2. apply aired_asym in H1. congruence.
  - by apply list.NoDup_Permutation.
Qed.
End order.

Lemma broadcast_ext date date' members :
  (forall x, x ∈ members -> date x = date' x) -> broadcast date members -> broadcast date' members.
Proof.
  intros He Hb. unfold broadcast in *. induction Hb as [|x l Hs IH Hx]; constructor.
  - apply IH. intros y Hy. apply He. by right.
  - rewrite List.Forall_forall in *. intros y Hy. rewrite <- (Hx y Hy). unfold aired_before.
    rewrite !(He x) by by left. rewrite !(He y) by by right; apply list_elem_of_In. done.
Qed.

(** ** Numbers *)

Lemma insert_members_spec root o members f :
  base.NoDup members -> (forall m, m ∈ members -> f !! m = None) ->
  exists f', insert_members root o members f = Some f' /\
    (forall i m, members !! i = Some m -> f' !! m = Some (root, o + Z.of_nat i + 1)) /\
    (forall m, m ∉ members -> f' !! m = f !! m).
Proof.
  revert o f. induction members as [|m members IH]; intros o f Hn Hf; simpl.
  { exists f. by split. }
  apply NoDup_cons in Hn as [Hm Hn].
  rewrite Hf by by left.
  destruct (IH (o + 1) (<[m := (root, o + 1)]> f)) as (f' & -> & Hin & Hout); [done| |].
  { intros k Hk. rewrite lookup_insert_ne by (intros ->; done). apply Hf. by right. }
  exists f'. split; [done|]. split.
  - intros [|i] k Hk; simpl in Hk.
    + injection Hk as ->. rewrite Hout by done. rewrite lookup_insert_eq. do 2 f_equal; lia.
    + rewrite (Hin i k Hk). do 2 f_equal; lia.
  - intros k [Hne Hk]%not_elem_of_cons. rewrite Hout by done. by apply lookup_insert_ne.
Qed.

(** The row a member of a group gets. *)
Definition row_in (date : Z -> Z) (g : list Z) (m : Z) (v : Z * Z) : Prop :=
  exists i, sort_by (aired_before date) g !! i = Some m /\
    v = (default 0 (head (sort_by (aired_before date) g)), Z.of_nat i + 1).

Lemma insert_groups_spec date groups f :
  base.NoDup (concat groups) -> (forall m, m ∈ concat groups -> f !! m = None) ->
  exists f', insert_groups date groups f = Some f' /\
    (forall g m, g ∈ groups -> m ∈ g -> exists v, f' !! m = Some v /\ row_in date g m v) /\
    (forall m, m ∉ concat groups -> f' !! m = f !! m).
Proof.
  revert f. induction groups as [|g groups IH]; intros f Hn Hf; simpl in *.
  { exists f. split; [done|]. split; [|done]. intros g m Hg. by apply not_elem_of_nil in Hg. }
  apply list.NoDup_app in Hn as (Hg & Hd & Hn).
  assert (Hp : forall x, x ∈ sort_by (aired_before date) g <-> x ∈ g) by (intros x; by rewrite sort_by_perm).
  destruct (insert_members_spec (default 0 (head (sort_by (aired_before date) g))) 0 (sort_by (aired_before date) g) f)
    as (f1 & -> & Hin1 & Hout1); [by rewrite sort_by_perm| |].
  { intros m Hm%Hp. apply Hf, elem_of_app. by left. }
  destruct (IH f1) as (f' & -> & Hin & Hout); [done| |].
  { intros m Hm. rewrite Hout1; [apply Hf, elem_of_app; by right|]. rewrite Hp. intros Hx. by apply (Hd m). }
  exists f'. split; [done|]. split.
  - intros g' m [->|Hg']%elem_of_cons Hm; [|by apply Hin].
    apply Hp, list_elem_of_lookup in Hm as [i Hi]. eexists. split; [|by exists i].
    rewrite Hout; [by apply Hin1|]. apply Hd, Hp. by apply list_elem_of_lookup_2 in Hi.
  - intros m [Hm Hm']%not_elem_of_app. rewrite Hout, Hout1 by (rewrite ?Hp; done). done.
Qed.

(** ** What numbering promises *)

Section promise.
Context (L : Z -> Z -> Prop) (date : Z -> Z).

(** [a]'s row is right: its root is the first of its show in broadcast order, and
    its ordinal its place there. *)
Definition placed (a : Z) (v : Z * Z) : Prop :=
  exists members, base.NoDup members /\ (forall x, x ∈ members <-> rtc L a x) /\ broadcast date members /\
    head members = Some v.1 /\ 0 < v.2 /\ members !! Z.to_nat (v.2 - 1) = Some a.

(** Exactly the linked entries have rows, and theirs are right. *)
Definition Numbered (f : gmap Z (Z * Z)) : Prop :=
  forall a, match f !! a with None => forall b, ~ L a b | Some v => (exists b, L a b) /\ placed a v end.

Lemma Numbered_unique f f' : Numbered f -> Numbered f' -> f = f'.
Proof.
  intros H H'. apply map_eq. intros a. specialize (H a). specialize (H' a).
  destruct (f !! a) as [[r o]|], (f' !! a) as [[r' o']|]; [|by destruct H as [[b Hb] _], (H' b)|by destruct H' as [[b Hb] _], (H b)|done].
  destruct H as [_ (m & Hn & Hm & Hs & Hh & Ho & Hi)], H' as [_ (m' & Hn' & Hm' & Hs' & Hh' & Ho' & Hi')]. simpl in *.
  assert (m = m') as <- by (apply (broadcast_unique date); try done; intros x; by rewrite Hm, Hm').
  rewrite Hh in Hh'. injection Hh' as <-. pose proof (NoDup_lookup _ _ _ _ Hn Hi Hi'). do 2 f_equal. lia.
Qed.
End promise.

Lemma placed_ext L L' date date' a v :
  (forall x, rtc L a x <-> rtc L' a x) -> (forall x, rtc L a x -> date x = date' x) ->
  placed L date a v -> placed L' date' a v.
Proof.
  intros He Hd (m & Hn & Hm & Hs & Hr). exists m. split; [done|]. split; [intros x; by rewrite Hm, He|].
  split; [|done]. apply (broadcast_ext date); [|done]. intros x Hx. by apply Hd, Hm.
Qed.

Lemma row_placed L date date' g a v :
  base.NoDup g -> (forall x, x ∈ g <-> rtc L a x) -> (forall x, x ∈ g -> date' x = date x) ->
  row_in date' g a v -> placed L date a v.
Proof.
  intros Hn Hg Hd (i & Hi & ->). exists (sort_by (aired_before date') g).
  assert (Hp : forall x, x ∈ sort_by (aired_before date') g <-> x ∈ g) by (intros x; by rewrite sort_by_perm).
  split; [by rewrite sort_by_perm|]. split; [intros x; by rewrite Hp|]. split.
  { apply (broadcast_ext date'); [|by apply sorted_broadcast]. intros x Hx%Hp. by apply Hd. }
  simpl. split; [|split; [lia|]]; [|by replace (Z.to_nat (Z.of_nat i + 1 - 1)) with i by lia].
  by destruct (sort_by (aired_before date') g).
Qed.

Lemma delete_members l f a v :
  foldl (fun f m => delete_member m f) f l !! a = Some v <-> f !! a = Some v /\ a ∉ l /\ v.1 ∉ l.
Proof.
  revert f. induction l as [|m l IH]; intros f; simpl.
  - rewrite !elem_of_nil. tauto.
  - rewrite IH, !elem_of_cons. unfold delete_member. rewrite map_lookup_filter_Some. simpl.
    rewrite orb_false_iff, !Z.eqb_neq. intuition.
Qed.

Lemma startDates_spec groups known st a :
  a ∈ concat groups -> dateOf (startDates groups known st) a = startDate known st a.
Proof.
  unfold dateOf, startDates. intros Ha.
  assert (forall m, (a ∈ concat groups \/ m !! a = Some (startDate known st a)) ->
    foldl (fun out id => <[id := startDate known st id]> out) m (concat groups) !! a = Some (startDate known st a)) as ->;
    [|done|by left].
  clear Ha. induction (concat groups) as [|x l IH]; intros m [Ha|Ha]; simpl; [by apply not_elem_of_nil in Ha|done| |].
  - apply IH. apply elem_of_cons in Ha as [->|]; [right; by rewrite lookup_insert_eq|by left].
  - apply IH. right. destruct (decide (x = a)) as [->|]; [by rewrite lookup_insert_eq|by rewrite lookup_insert_ne].
Qed.

(** ** Rebuilding *)

(** The entries a rebuild of [ids] looks at. *)
Definition reached (st : store) (ids : option (list Z)) (a : Z) : Prop :=
  match ids with None => True | Some l => exists s, s ∈ l /\ rtc (linked st) s a end.

Lemma linked_sym st a b : linked st a b -> linked st b a.
Proof. intros (k & Hk & Hr & Ha & Hb). exists k. tauto. Qed.

Lemma rtc_linked_sym st a b : rtc (linked st) a b -> rtc (linked st) b a.
Proof. induction 1; [done|]. eapply rtc_r; [done|]. by apply linked_sym. Qed.

Lemma elem_of_concat {A} (x : A) ll : x ∈ concat ll <-> exists l, l ∈ ll /\ x ∈ l.
Proof.
  rewrite list_elem_of_In, in_concat. split; intros (l & Hl & Hx); exists l; by rewrite ?list_elem_of_In in *.
Qed.

Lemma NoDup_concat_part {A} (ll : list (list A)) l : base.NoDup (concat ll) -> l ∈ ll -> base.NoDup l.
Proof.
  induction ll as [|l' ll IH]; simpl; [by intros _ ?%not_elem_of_nil|].
  intros (Hl & _ & Hn)%list.NoDup_app [->|Hin]%elem_of_cons; auto.
Qed.

Lemma linked_rtc st s a : rtc (linked st) s a -> (exists b, linked st s b) -> exists b, linked st a b.
Proof. intros Hr Hs. apply rtc_inv_r in Hr as [<-|(y & _ & Hy)]; [done|]. exists y. by apply linked_sym. Qed.

Lemma rtc_adjacency st rows a b :
  rows ≡ₚ season_rows st -> rtc (edge (adjacency rows)) a b <-> rtc (linked st) a b.
Proof.
  intros Hp. split; induction 1; try done; eapply rtc_l; try done; by apply (season_rows_linked st rows).
Qed.

(** Numbering never fails, gives each linked entry it reaches its right row, and
    leaves every other as the deletions left it. *)
Lemma rebuild_rows rows ids known st :
  rows ≡ₚ season_rows st ->
  exists f groups,
    RebuildFranchisesFor rows ids known st = Some (set_franchise st f, length groups) /\
    (forall a, a ∈ concat groups <-> reached st ids a /\ exists b, linked st a b) /\
    (forall a, a ∈ concat groups -> exists v, f !! a = Some v /\ placed (linked st) (startDate known st) a v) /\
    (forall a v, a ∉ concat groups -> f !! a = Some v <->
      match ids with None => False
      | Some l => franchise st !! a = Some v /\ a ∉ l ++ concat groups /\ v.1 ∉ l ++ concat groups end).
Proof.
  intros Hp. set (adj := adjacency rows). set (starts := sort_by Z.ltb (match ids with None => elements (dom adj) | Some l => l end)).
  destruct (components_spec adj (adjacency_sym rows) starts ∅) as (groups & Hg & [P1 P2 P3 P4]); [by intros ??|].
  assert (Hr : forall s x, rtc (edge adj) s x <-> rtc (linked st) s x) by (intros; by apply rtc_adjacency).
  assert (Hk : forall s, adj !! s <> None <-> exists b, linked st s b).
  { intros s. unfold adj. rewrite adjacency_key. split; intros [b Hb]; exists b; by apply (season_rows_linked st rows). }
  assert (Hst : forall s, s ∈ starts <-> s ∈ match ids with None => elements (dom adj) | Some l => l end)
    by (intros s; unfold starts; by rewrite sort_by_perm).
  set (cleared := match ids with None => ∅
    | Some l => foldl (fun f m => delete_member m f) (franchise st) (l ++ concat groups) end).
  destruct (insert_groups_spec (dateOf (startDates groups known st)) groups cleared P2) as (f & Hf & Hin & Hout).
  { intros m Hm. unfold cleared. destruct ids as [l|]; [|apply lookup_empty].
    apply eq_None_not_Some. intros [v (_ & Hx & _)%delete_members]. apply Hx, elem_of_app. by right. }
  exists f, groups. split; [|split; [|split]].
  - unfold RebuildFranchisesFor. fold adj. fold starts. rewrite Hg. fold cleared. by rewrite Hf.
  - intros a. split.
    + intros (g & Hgg & Ha)%elem_of_concat. destruct (P1 g Hgg) as (s & Hs & _ & Hk' & Hc). apply Hk in Hk'. apply Hc, Hr in Ha.
      split; [|by apply (linked_rtc st s)]. destruct ids as [l|]; [|done]. exists s. split; [by apply Hst|done].
    + intros [Hre Hl]. assert (exists s, s ∈ starts /\ rtc (linked st) s a) as (s & Hs & Ha).
      { destruct ids as [l|]; [destruct Hre as (s & Hs & Ha); exists s; split; [by apply Hst|done]|].
        exists a. split; [|done]. apply Hst, elem_of_elements, elem_of_dom. apply Hk in Hl. by destruct (adj !! a). }
      assert (Hks : exists b, linked st s b) by (eapply linked_rtc; [by apply rtc_linked_sym|done]).
      destruct (P4 s Hs) as [Hx|(g & Hgg & Hsg)%elem_of_concat]; [by apply Hk|set_solver|].
      apply elem_of_concat. exists g. split; [done|]. destruct (P1 g Hgg) as (s' & _ & _ & _ & Hc).
      apply Hc. etransitivity; [by apply Hc|by apply Hr].
  - intros a (g & Hgg & Ha)%elem_of_concat. destruct (Hin g a Hgg Ha) as (v & Hv & Hrow). exists v. split; [done|].
    destruct (P1 g Hgg) as (s & _ & _ & _ & Hc). apply (row_placed _ _ (dateOf (startDates groups known st)) g).
    + by apply (NoDup_concat_part groups).
    + intros x. rewrite Hc, Hr. apply Hc, Hr in Ha. split; intros Hx; etransitivity; eauto using rtc_linked_sym.
    + intros x Hx. apply startDates_spec, elem_of_concat. eauto.
    + done.
  - intros a v Ha. rewrite Hout by done. unfold cleared. destruct ids as [l|]; [apply delete_members|].
    by rewrite lookup_empty.
Qed.

Lemma full_rebuild rows st :
  rows ≡ₚ season_rows st ->
  exists f n, RebuildFranchises rows st = Some (set_franchise st f, n) /\ Numbered (linked st) (startDate ∅ st) f.
Proof.
  intros Hp. destruct (rebuild_rows rows None ∅ st Hp) as (f & groups & He & Hg & Hin & Hout).
  exists f, (length groups). split; [done|]. intros a. destruct (decide (a ∈ concat groups)) as [Ha|Ha].
  - destruct (Hin a Ha) as (v & -> & Hv). split; [by apply Hg|done].
  - destruct (f !! a) as [v|] eqn:E; [by apply Hout in E|]. intros b Hb. apply Ha, Hg. split; [done|by exists b].
Qed.

(** Numbering everything never fails, whatever order the rows are read in, and
    leaves a table in which exactly the entries with a living prequel or sequel have a
    row, each with its show's first entry in broadcast order and its own place in
    that order; there is one such table. *)
Theorem RebuildFranchises_spec rows st :
  rows ≡ₚ season_rows st ->
  exists f n, RebuildFranchises rows st = Some (set_franchise st f, n) /\
    Numbered (linked st) (startDate ∅ st) f /\
    forall f', Numbered (linked st) (startDate ∅ st) f' -> f' = f.
Proof.
  intros Hp. destruct (full_rebuild rows st Hp) as (f & n & He & Hn). exists f, n. split; [done|]. split; [done|].
  intros f' Hf'. by apply (Numbered_unique _ _ f' f Hf').
Qed.

(** Away from the named ids nothing changed, so neither did any show there. *)
Lemma unreached_rtc st ids (before : Z -> Z -> Prop) a x :
  (forall u v, (u ∈ ids /\ v ∈ ids) \/ (before u v <-> linked st u v)) ->
  ~ reached st (Some ids) a -> rtc before a x \/ rtc (linked st) a x ->
  rtc before a x /\ rtc (linked st) a x /\ ~ reached st (Some ids) x.
Proof.
  intros He Ha Hx.
  assert (Hstep : forall u v, ~ reached st (Some ids) u -> before u v \/ linked st u v ->
    before u v /\ linked st u v /\ ~ reached st (Some ids) v).
  { intros u v Hu Huv. destruct (He u v) as [[Hi _]|Hiff]; [by destruct Hu; exists u|].
    assert (linked st u v) as Hl by (destruct Huv; [by apply Hiff|done]). split; [by apply Hiff|]. split; [done|].
    intros (s & Hs & Hr). apply Hu. exists s. split; [done|]. eapply rtc_r; [done|]. by apply linked_sym. }
  destruct Hx as [Hx|Hx]; induction Hx as [u|u v w Huv Hx IH]; try done;
    destruct (Hstep u v Ha) as (H1 & H2 & H3); auto; destruct (IH H3) as (I1 & I2 & I3);
    (split; [by eapply rtc_l|split; [by eapply rtc_l|done]]).
Qed.

Lemma partial_rebuild rows ids known (before : Z -> Z -> Prop) date date' st :
  rows ≡ₚ season_rows st ->
  Numbered before date (franchise st) ->
  (forall a b, (a ∈ ids /\ b ∈ ids) \/ (before a b <-> linked st a b)) ->
  (forall a, reached st (Some ids) a -> date' a = startDate known st a) ->
  (forall a, ~ reached st (Some ids) a -> date' a = date a) ->
  exists f n, RebuildFranchisesFor rows (Some ids) known st = Some (set_franchise st f, n) /\ Numbered (linked st) date' f.
Proof.
  intros Hp Hold He Hd Hd'. destruct (rebuild_rows rows (Some ids) known st Hp) as (f & groups & Hre & Hg & Hin & Hout).
  exists f, (length groups). split; [done|].
  intros a. destruct (decide (a ∈ concat groups)) as [Ha|Ha].
  - destruct (Hin a Ha) as (v & -> & Hv). split; [by apply Hg|].
    apply Hg in Ha as [(s & Hs & Hr) _]. apply (placed_ext (linked st) _ (startDate known st)); [done| |done].
    intros x Hx. symmetry. apply Hd. exists s. split; [done|]. by etransitivity.
  - destruct (decide (a ∈ ids)) as [Hi|Hi].
    { destruct (f !! a) as [v|] eqn:E; [apply Hout in E as (_ & [Hx _]%not_elem_of_app & _); [done|done]|].
      intros b Hb. apply Ha, Hg. split; [by exists a|by exists b]. }
    assert (Hu : ~ reached st (Some ids) a).
    { intros (s & Hs & Hr). apply Ha, Hg. split; [by exists s|]. apply rtc_inv_r in Hr as [->|(y & _ & Hy)]; [done|].
      exists y. by apply linked_sym. }
    assert (Hiff : forall b, before a b <-> linked st a b) by (intros b; destruct (He a b) as [[]|]; done).
    specialize (Hold a). destruct (franchise st !! a) as [v|] eqn:E.
    + destruct Hold as [[b Hb] Hv].
      assert (f !! a = Some v) as ->.
      { apply Hout; [done|]. split; [done|]. rewrite !not_elem_of_app. split; [done|].
        destruct Hv as (m & _ & Hm & _ & Hh & _). apply head_Some_elem_of, Hm in Hh.
        destruct (unreached_rtc st ids before a v.1 He Hu (or_introl Hh)) as (_ & _ & Hnr).
        split; [intros Hx; apply Hnr; by exists v.1|]. intros [Hx _]%Hg. by apply Hnr. }
      split; [exists b; by apply Hiff|]. apply (placed_ext before _ date); [| |done].
      * intros x. split; intros Hx; by destruct (unreached_rtc st ids before a x He Hu) as (? & ? & ?); auto.
      * intros x Hx. symmetry. apply Hd'. by destruct (unreached_rtc st ids before a x He Hu) as (? & ? & ?); auto.
    + destruct (f !! a) as [v|] eqn:Ef; [apply Hout in Ef as [Ef _]; [congruence|done]|].
      intros b Hb. by apply (Hold b), Hiff.
Qed.

(** The entries a rebuild looks at, as a set. *)
Lemma reached_set rows ids st :
  rows ≡ₚ season_rows st -> exists G : gset Z, forall a, reached st (Some ids) a <-> a ∈ G.
Proof.
  intros Hp. destruct (rebuild_rows rows (Some ids) ∅ st Hp) as (_ & groups & _ & Hg & _).
  exists (list_to_set (ids ++ concat groups)). intros a. rewrite elem_of_list_to_set, elem_of_app, Hg. split.
  - intros Hr. pose proof Hr as (s & Hs & Ha). apply rtc_inv_r in Ha as [->|(y & _ & Hy)]; [by left|right].
    split; [done|]. exists y. by apply linked_sym.
  - intros [Ha|[Hr _]]; [by exists a|done].
Qed.

(** Numbering only what a walk touched is numbering everything again.  If the
    table was right for the edges before, and every edge gained or lost since has both
    ends among the walked ids, then after the partial rebuild it is right for the
    edges now, with the walk's dates where it went and the old ones elsewhere. *)
Theorem RebuildFranchisesFor_spec rows ids known (before : Z -> Z -> Prop) date date' st :
  rows ≡ₚ season_rows st ->
  Numbered before date (franchise st) ->
  (forall a b, (a ∈ ids /\ b ∈ ids) \/ (before a b <-> linked st a b)) ->
  (forall a, reached st (Some ids) a -> date' a = startDate known st a) ->
  (forall a, ~ reached st (Some ids) a -> date' a = date a) ->
  exists f n, RebuildFranchisesFor rows (Some ids) known st = Some (set_franchise st f, n) /\
    Numbered (linked st) date' f /\
    ((forall a, date' a = startDate ∅ st a) -> exists k, RebuildFranchises rows st = Some (set_franchise st f, k)).
Proof.
  intros Hp Hold He Hd Hd'.
  destruct (partial_rebuild rows ids known before date date' st Hp Hold He Hd Hd') as (f & n & Hre & Hn).
  exists f, n. split; [done|]. split; [done|]. intros Hsame.
  destruct (full_rebuild rows st Hp) as (f' & k & Hk & Hn'). exists k. rewrite Hk. do 3 f_equal.
  apply (Numbered_unique _ _ f' f Hn'). intros a. specialize (Hn a). destruct (f !! a); [|done]. destruct Hn as [? Hv]. split; [done|].
  apply (placed_ext _ (linked st) _ (startDate ∅ st)) in Hv; try done.
Qed.

(** ** Three seasons *)

Definition seasons : store :=
  mkStore {[(1, 2, "SEQUEL"); (2, 3, "SEQUEL"); (3, 2, "PREQUEL"); (1, 9, "SIDE_STORY")]} ∅ ∅ ∅
    {[1 := Some "2019-04-01"; 2 := Some "2021-04-01"; 3 := None]} {[3 := Some 2024]}.

Definition seasons_numbered : gmap Z (Z * Z) := {[1 := (1, 1); 2 := (1, 2); 3 := (1, 3)]}.

Lemma RebuildFranchises_spec_witness :
  Numbered (linked seasons) (startDate ∅ seasons) seasons_numbered.
Proof.
  destruct (RebuildFranchises_spec (season_rows seasons) seasons (reflexivity _)) as (f & n & He & Hn & _).
  vm_compute in He. injection He as <- <-. exact Hn.
Defined.

Lemma RebuildFranchisesFor_spec_witness :
  exists f n, RebuildFranchisesFor (season_rows seasons) (Some [2; 1; 3]) ∅ seasons = Some (set_franchise seasons f, n) /\
    f !! 3 = Some (1, 3).
Proof.
  destruct (RebuildFranchisesFor_spec (season_rows seasons) [2; 1; 3] ∅ (fun _ _ => False) (startDate ∅ seasons)
    (startDate ∅ seasons) seasons (reflexivity _)) as (f & n & He & _ & _).
  - intros a. simpl. rewrite lookup_empty. by intros b [].
  - intros a b. destruct (decide (a ∈ [2; 1; 3] /\ b ∈ [2; 1; 3])) as [Hab|Hab]; [by left|right].
    split; [done|]. intros (k & Hk & Hr & _). apply Hab. simpl in Hr.
    destruct Hr as [Hr|Hr]; repeat (apply elem_of_union in Hr as [Hr|Hr]); apply elem_of_singleton in Hr; injection Hr as -> -> ->;
      try (vm_compute in Hk; discriminate Hk); (split; refine (bool_decide_unpack _ _); exact I).
  - done.
  - done.
  - exists f, n. split; [exact He|]. vm_compute in He. injection He as <- _. vm_compute. reflexivity.
Defined.
