(* ===== verification/Relations.v ===== *)
(** * The walk of a franchise: internal/library/relations.go

    A walk goes out from one anime along prequel and sequel edges, asking AniList for a
    page of entries per hop, saves the edges it was told of and has the shows it
    touched numbered again (Franchise).  AniList's answers, and what naming the
    members stores, are arguments. *)
From stdpp Require Import base gmap sets strings list relations.
From Stdlib Require Import ZArith Lia.
From S2P Require Import Prelude GoStr Franchise.

Record FuzzyDate := mkDate { Year : option Z; Month : option Z; Day : option Z }.

Definition pad2 (y : Z) : string := (if y <? 10 then "0" else "") +:+ itoa y.

(** [String]: ["%04d-%02d-%02d"] of numbers that are not negative. *)
Definition date_string (d : FuzzyDate) : string :=
  match Year d with
  | None => ""
  | Some y => pad4 y +:+ "-" +:+ pad2 (default 0 (Month d)) +:+ "-" +:+ pad2 (default 0 (Day d))
  end.

Record RelationEdge := mkEdge {
  e_Type : string; node_ID : Z; node_Type : string; node_Format : option string; node_StartDate : FuzzyDate;
}.

Record RelatedMedia := mkMedia { ID : Z; StartDate : FuzzyDate; Edges : list RelationEdge }.

Definition relatedEdges (k : string) : bool :=
  bool_decide (k ∈ ["SIDE_STORY"; "PARENT"; "SPIN_OFF"; "ALTERNATIVE"; "SUMMARY"; "PREQUEL"; "SEQUEL"]).

Definition relationsMaxAge : Z := 7 * 24 * 3600.

Definition maxHops : nat := 6.

Section walk.
Context `{Unicode}.

(** AniList's answer to one page of ids; [None] is an error. *)
Context (query : list Z -> option (list RelatedMedia)).

(** [Client.Relations] *)
Definition relations_of (ids : list Z) : option (list RelatedMedia) :=
  match ids with [] => Some [] | _ => query (take 25 ids) end.

Definition series (format : option string) : bool :=
  match format with
  | None => true
  | Some f => negb (bool_decide (to_upper f ∈ ["MOVIE"; "SPECIAL"; "OVA"; "MUSIC"]))
  end.

(** The walk's variables; [next] is the hop's own. *)
Record walk_state := mkWalk {
  seen : gset Z; next : list Z; saved : list Relation; walked : list Z; fetched : list Z;
  dates : gmap Z string; answered : bool;
}.

Definition note_date (id : Z) (d : FuzzyDate) (m : gmap Z string) : gmap Z string :=
  if String.eqb (date_string d) "" then m else <[id := date_string d]> m.

(** One edge of the entry [m]. *)
Definition edge_step (m : Z) (w : walk_state) (e : RelationEdge) : walk_state :=
  if negb (relatedEdges (e_Type e)) || negb (String.eqb (node_Type e) "ANIME") then w
  else
    let follow := SeasonKinds (e_Type e) && negb (bool_decide (node_ID e ∈ seen w)) in
    mkWalk (if follow then {[node_ID e]} ∪ seen w else seen w)
      (if follow then next w ++ [node_ID e] else next w)
      (saved w ++ [mkRelation m (node_ID e) (e_Type e)])
      (if series (node_Format e) then walked w else walked w ++ [node_ID e])
      (fetched w) (note_date (node_ID e) (node_StartDate e) (dates w)) (answered w).

Definition media_step (animeID : Z) (w : walk_state) (m : RelatedMedia) : walk_state :=
  foldl (edge_step (ID m))
    (mkWalk (seen w) (next w) (saved w) (walked w ++ [ID m]) (fetched w ++ [ID m])
       (note_date (ID m) (StartDate m) (dates w)) (answered w || (ID m =? animeID)))
    (Edges m).

Fixpoint hops (n : nat) (animeID : Z) (frontier : list Z) (w : walk_state) : option walk_state :=
  match n, frontier with
  | O, _ | _, [] => Some w
  | S n', _ =>
      match relations_of frontier with
      | None => None
      | Some media =>
          let w' := foldl (media_step animeID)
                      (mkWalk (seen w) [] (saved w) (walked w) (fetched w) (dates w) (answered w)) media in
          hops n' animeID (next w') w'
      end
  end.

Definition walk_from (animeID : Z) : option walk_state :=
  hops maxHops animeID [animeID] (mkWalk {[animeID]} [] [] [] [] ∅ false).

(** ** Fetch *)

(** Which of the database's calls work, and whether the answers were saved ones. *)
Record weather := mkWeather { used_saved : bool; mark_ok : bool; none_ok : bool; save_ok : bool; rebuild_ok : bool }.

(** What naming the members leaves: the anime rows it stored, the ids found dead. *)
Context (nameMembers : gset Z -> store -> store).

(** The order in which a query reads the rows. *)
Context (read : store -> list (Z * Z)).

(** The tables after, and the edges saved; [None] is an error. *)
Definition Fetch (wx : weather) (now animeID : Z) (st : store) : store * option nat :=
  match walk_from animeID with
  | None => (st, None)
  | Some w =>
      if used_saved wx then (st, Some 0%nat)
      else if negb (answered w) then (st, Some 0%nat)
      else
        let st1 := if mark_ok wx then MarkRelationsFetched now (walked w) st else st in
        match saved w with
        | [] => if none_ok wx then (MarkNoRelations animeID st1, Some 0%nat) else (st1, None)
        | _ =>
            if negb (save_ok wx) then (st1, None)
            else
              let st2 := nameMembers (seen w) (SaveRelations (fetched w) (saved w) st1) in
              match (if rebuild_ok wx then RebuildFranchisesFor (read st2) (Some (elements (seen w))) (dates w) st2 else None) with
              | None => (st2, None)
              | Some (st3, _) => (st3, Some (length (saved w)))
              end
        end
  end.

(** The members [Ensure] names: those of the show, or the anime alone when it has an
    anime row. *)
Definition Franchise_members (animeID : Z) (st : store) : gset Z :=
  match franchise st !! animeID with
  | Some (root, _) => filter (fun a => a ∉ dead_anime st) (dom (filter (fun x : Z * (Z * Z) => x.2.1 = root) (franchise st)))
  | None => ∅
  end.

Definition members_of (animeID : Z) (st : store) : gset Z :=
  if bool_decide (Franchise_members animeID st = ∅) then
    if bool_decide (is_Some (start_date st !! animeID)) then {[animeID]} else ∅
  else Franchise_members animeID st.

(** [Ensure]; the two checks and the member query may fail. *)
Definition Ensure (wx : weather) (has_ok stale_ok members_ok : bool) (now animeID : Z) (st : store) : store * bool :=
  if negb has_ok then (st, false)
  else if negb (HasRelations animeID st) || RelationsStale now animeID relationsMaxAge stale_ok st then
    let '(st', r) := Fetch wx now animeID st in (st', match r with Some _ => true | None => false end)
  else if members_ok then (nameMembers (members_of animeID st) st, true)
  else (st, false).

(** ** What a walk covers *)

(** The contract of the query: it answers for ids it was asked for. *)
Hypothesis query_asked : forall ids media m, query ids = Some media -> m ∈ media -> ID m ∈ ids.

Record covered (w : walk_state) : Prop := {
  cov_saved : forall r, r ∈ saved w -> SeasonKinds (Kind r) = true -> AnimeID r ∈ seen w /\ RelatedID r ∈ seen w;
  cov_fetched : forall x, x ∈ fetched w -> x ∈ seen w;
  cov_next : forall x, x ∈ next w -> x ∈ seen w;
}.

Lemma edge_step_covered m w e :
  m ∈ seen w -> covered w -> m ∈ seen (edge_step m w e) /\ covered (edge_step m w e).
Proof.
  intros Hm [C1 C2 C3]. unfold edge_step. destruct (_ || _); [by split|]. cbn [seen].
  assert (Hseen : forall x, x ∈ seen w ->
    x ∈ (if SeasonKinds (e_Type e) && negb (bool_decide (node_ID e ∈ seen w)) then {[node_ID e]} ∪ seen w else seen w))
    by (intros x Hx; destruct (_ && _); set_solver).
  split; [by apply Hseen|]. split; cbn [seen saved fetched next].
  - intros r [Hr| ->%list_elem_of_singleton]%elem_of_app Hk.
    + destruct (C1 r Hr Hk). split; by apply Hseen.
    + simpl in *. split; [by apply Hseen|]. rewrite Hk. case_bool_decide; simpl; set_solver.
  - intros x Hx. by apply Hseen, C2.
  - intros x. destruct (_ && _) eqn:E; [|apply C3]. intros [Hx|Hx%list_elem_of_singleton]%elem_of_app; set_solver.
Qed.

Lemma edge_step_seen m w e : seen w ⊆ seen (edge_step m w e).
Proof. unfold edge_step. destruct (_ || _); [done|]. simpl. destruct (_ && _); set_solver. Qed.

Lemma media_step_covered animeID w m :
  ID m ∈ seen w -> covered w -> covered (media_step animeID w m) /\ seen w ⊆ seen (media_step animeID w m).
Proof.
  intros Hm Hc. unfold media_step.
  apply (foldl_keeps (fun w' => covered w' /\ seen w ⊆ seen w')).
  - split; [|done]. destruct Hc as [C1 C2 C3]. split; [done| |done].
    cbn. intros x [Hx| ->%list_elem_of_singleton]%elem_of_app; [by apply C2|done].
  - intros w' e [Hc' Hs]. pose proof (edge_step_seen (ID m) w' e).
    destruct (edge_step_covered (ID m) w' e); [by apply Hs|done|]. split; [done|]. by etransitivity.
Qed.

(** Everything a hop does keeps to the seen ids. *)
Lemma hop_covered animeID media w :
  (forall m, m ∈ media -> ID m ∈ seen w) -> covered w ->
  covered (foldl (media_step animeID) w media) /\ seen w ⊆ seen (foldl (media_step animeID) w media).
Proof.
  revert w. induction media as [|m media IH]; intros w Hm Hc; simpl; [by split|].
  destruct (media_step_covered animeID w m) as [Hc' Hs]; [by apply Hm; left|done|].
  destruct (IH (media_step animeID w m)) as [Hc'' Hs']; [|done|split; [done|by etransitivity]].
  intros m' Hm'. apply Hs, Hm. by right.
Qed.

Lemma hops_covered n animeID frontier w w' :
  (forall x, x ∈ frontier -> x ∈ seen w) -> covered w -> hops n animeID frontier w = Some w' -> covered w'.
Proof using query_asked.
  revert frontier w. induction n as [|n IH]; intros frontier w Hf Hc; simpl; [by intros [= <-]|].
  destruct frontier as [|x frontier]; [by intros [= <-]|]. destruct (relations_of _) as [media|] eqn:E; [|done].
  set (w1 := mkWalk (seen w) [] (saved w) (walked w) (fetched w) (dates w) (answered w)).
  assert (Hc1 : covered w1) by (destruct Hc as [C1 C2 _]; split; [done|done|]; intros y Hy; by apply not_elem_of_nil in Hy).
  destruct (hop_covered animeID media w1) as [Hc2 _]; [|done|].
  { intros m Hm. apply Hf. apply (query_asked _ _ _ E) in Hm. apply list_elem_of_In in Hm.
    apply list_elem_of_In. rewrite <- (firstn_skipn 25 (x :: frontier)). apply in_app_iff. by left. }
  intros He. by apply (IH _ _ (cov_next _ Hc2) Hc2 He).
Qed.

Lemma walk_covered animeID w : walk_from animeID = Some w -> covered w.
Proof using query_asked.
  apply hops_covered; [intros x ->%list_elem_of_singleton; set_solver|].
  split; cbn; intros ? Hx; by apply not_elem_of_nil in Hx.
Qed.
End walk.

(** ** What is saved *)

Lemma forget_edges_elem (fetched : list Z) (rs : gset relation_row) r :
  r ∈ foldl (fun rs id => forget_edges id rs) rs fetched <->
  r ∈ rs /\ (r.2 = "NONE" \/ forall id, id ∈ fetched -> touches id r = false).
Proof.
  revert rs. induction fetched as [|id fetched IH]; intros rs; simpl.
  - split; [intros Hr; split; [done|right]; intros id Hid; by apply not_elem_of_nil in Hid|by intros [? _]].
  - rewrite IH. unfold forget_edges. rewrite elem_of_filter. setoid_rewrite elem_of_cons.
    destruct (String.eqb_spec r.2 "NONE") as [Hn|Hn]; simpl; rewrite ?andb_false_r, ?andb_true_r; naive_solver.
Qed.

Lemma SaveRelations_elem (fetched : list Z) (rels : list Relation) (st : store) (r : relation_row) :
  r ∈ relation (SaveRelations fetched rels st) <->
  (exists e, e ∈ rels /\ r = row_of e /\ AnimeID e <> 0 /\ RelatedID e <> 0) \/
  (r ∈ relation st /\ (r.2 = "NONE" \/ forall id, id ∈ fetched -> touches id r = false)).
Proof.
  assert (forall rs : gset relation_row,
    r ∈ foldl (fun rs r => if (AnimeID r =? 0) || (RelatedID r =? 0) then rs else {[row_of r]} ∪ rs) rs rels <->
    (exists e, e ∈ rels /\ r = row_of e /\ AnimeID e <> 0 /\ RelatedID e <> 0) \/ r ∈ rs) as Hf.
  { induction rels as [|e rels IH]; intros rs; simpl.
    - split; [by right|]. intros [(e & He & _)|]; [by apply not_elem_of_nil in He|done].
    - rewrite IH. setoid_rewrite elem_of_cons.
      destruct (Z.eqb_spec (AnimeID e) 0), (Z.eqb_spec (RelatedID e) 0); simpl; rewrite ?elem_of_union, ?elem_of_singleton;
        naive_solver. }
  rewrite <- forget_edges_elem, <- Hf. unfold SaveRelations. destruct rels, fetched; done.
Qed.

(** ** The walk and the numbers *)

(** What the save did to the links, seen from the walk: an edge that came or went has
    both ends among the walked ids. *)
Lemma save_links (fetched : list Z) (rels : list Relation) (seen : gset Z) st st' a b :
  relation st' = relation (SaveRelations fetched rels st) -> dead_anime st' = dead_anime st ->
  (forall r, r ∈ rels -> SeasonKinds (Kind r) = true -> AnimeID r ∈ seen /\ RelatedID r ∈ seen) ->
  (forall x, x ∈ fetched -> x ∈ seen) ->
  (forall x y, x ∈ fetched -> linked st x y -> y ∈ seen) ->
  (a ∈ elements seen /\ b ∈ elements seen) \/ (linked st a b <-> linked st' a b).
Proof.
  intros Hrel Hdead Hs Hf Hlost. destruct (decide (a ∈ seen /\ b ∈ seen)) as [[Ha Hb]|Hn].
  { left. by rewrite !elem_of_elements. }
  right. assert (Hrow : forall x y k, SeasonKinds k = true -> ~ (x ∈ seen /\ y ∈ seen) ->
    (x, y, k) ∈ relation st' -> (x, y, k) ∈ relation st).
  { intros x y k Hk Hxy Hr. rewrite Hrel in Hr. apply SaveRelations_elem in Hr as [(e & He & [= -> -> ->] & _)|[Hr _]]; [|done].
    destruct Hxy. by apply Hs. }
  assert (Hkeep : forall x y k, SeasonKinds k = true -> (forall id, id ∈ fetched -> id <> x /\ id <> y) ->
    (x, y, k) ∈ relation st -> (x, y, k) ∈ relation st').
  { intros x y k Hk Hxy Hr. rewrite Hrel. apply SaveRelations_elem. right. split; [done|right].
    intros id Hid. destruct (Hxy id Hid). unfold touches. simpl. apply orb_false_iff. rewrite !Z.eqb_neq. auto. }
  split; intros Hl; pose proof Hl as (k & Hk & Hr & Hda & Hdb).
  - assert (Hid : forall id, id ∈ fetched -> id <> a /\ id <> b).
    { intros id Hid. split; intros ->; destruct Hn; split; try (by apply Hf); (eapply Hlost; [done|]); [done|by apply linked_sym]. }
    exists k. rewrite Hdead. split; [done|]. split; [|done].
    destruct Hr; [left|right]; apply Hkeep; try done; intros id Hi; destruct (Hid id Hi); auto.
  - exists k. split; [done|]. split; [|by rewrite <- Hdead].
    destruct Hr; [left|right]; apply Hrow; try done; tauto.
Qed.

Lemma SaveRelations_frame (fetched : list Z) (rels : list Relation) st :
  franchise (SaveRelations fetched rels st) = franchise st /\ dead_anime (SaveRelations fetched rels st) = dead_anime st.
Proof. unfold SaveRelations. by destruct rels, fetched. Qed.

Lemma SaveRelations_relation (fetched : list Z) (rels : list Relation) st st' :
  relation st = relation st' -> relation (SaveRelations fetched rels st) = relation (SaveRelations fetched rels st').
Proof. unfold SaveRelations. intros He. destruct rels, fetched; simpl; by rewrite ?He. Qed.

Section numbers.
Context `{Unicode} (query : list Z -> option (list RelatedMedia)).
Context (nameMembers : gset Z -> store -> store) (read : store -> list (Z * Z)).
Hypothesis query_asked : forall ids media m, query ids = Some media -> m ∈ media -> ID m ∈ ids.
Hypothesis read_all : forall st, read st ≡ₚ season_rows st.

(** Naming the members touches neither edges nor numbers, and found none of them dead. *)
Definition names_only : Prop :=
  forall members st, relation (nameMembers members st) = relation st /\
    franchise (nameMembers members st) = franchise st /\ dead_anime (nameMembers members st) = dead_anime st.

End numbers.

(** ** What a walk leaves behind *)

(** An entry AniList answers for with no edges at all: whatever edges it had are kept,
    and its numbers with them. *)
Lemma Fetch_keeps_edges `{Unicode} query nameMembers read wx now animeID st w st' r :
  walk_from query animeID = Some w -> saved w = [] -> Fetch query nameMembers read wx now animeID st = (st', r) ->
  relation st ⊆ relation st' /\ franchise st' = franchise st.
Proof.
  intros Hw Hs. unfold Fetch. rewrite Hw, Hs. destruct (used_saved wx); [by intros [= <- _]|].
  destruct (negb _); [by intros [= <- _]|].
  assert (relation (if mark_ok wx then MarkRelationsFetched now (walked w) st else st) = relation st /\
    franchise (if mark_ok wx then MarkRelationsFetched now (walked w) st else st) = franchise st) as [Hr Hf]
    by by destruct (mark_ok wx).
  destruct (none_ok wx); intros [= <- _]; rewrite ?Hr, ?Hf; [|done].
  unfold MarkNoRelations. destruct (_ =? 0); simpl; rewrite ?Hr, ?Hf; [done|]. split; [set_solver|done].
Qed.

(** A save that fails: the walk is on record all the same. *)
Lemma Fetch_stamps_unsaved `{Unicode} query nameMembers read wx now animeID st w st' r :
  walk_from query animeID = Some w -> used_saved wx = false -> answered w = true -> saved w <> [] ->
  mark_ok wx = true -> save_ok wx = false -> Fetch query nameMembers read wx now animeID st = (st', r) ->
  r = None /\ relation st' = relation st /\ forall id, id ∈ walked w -> relation_fetch st' !! id = Some now.
Proof.
  intros Hw Hu Ha Hs Hm Hsv. unfold Fetch. rewrite Hw, Hu, Ha, Hm, Hsv. cbn [negb].
  destruct (saved w); [done|]. intros [= <- <-]. split; [done|]. split; [done|]. unfold MarkRelationsFetched. simpl.
  generalize (relation_fetch st). induction (walked w) as [|x xs IH] using rev_ind; intros f id Hid; [by apply not_elem_of_nil in Hid|].
  rewrite foldl_app. simpl. destruct (decide (x = id)) as [->|Hne]; [by rewrite lookup_insert_eq|].
  rewrite lookup_insert_ne by done. apply IH. apply elem_of_app in Hid as [|Hid%list_elem_of_singleton]; [done|congruence].
Qed.

(** ** A show of three seasons *)

Definition no_date : FuzzyDate := mkDate None None None.
Definition aired (y : Z) : FuzzyDate := mkDate (Some y) (Some 4) (Some 1).
Definition tv (kind : string) (id year : Z) : RelationEdge := mkEdge kind id "ANIME" (Some "TV") (aired year).

Definition answers (l : list RelatedMedia) (ids : list Z) : option (list RelatedMedia) :=
  Some (List.filter (fun m => bool_decide (ID m ∈ ids)) l).

Definition three_seasons : list RelatedMedia :=
  [mkMedia 1 (aired 2019) [tv "SEQUEL" 2 2021];
   mkMedia 2 (aired 2021) [tv "PREQUEL" 1 2019; tv "SEQUEL" 3 2024];
   mkMedia 3 (aired 2024) [tv "PREQUEL" 2 2021]].

(** The first season's sequel is a summary now. *)
Definition retyped : list RelatedMedia := [mkMedia 1 (aired 2019) [tv "SUMMARY" 2 2021]].

Definition empty_store : store := mkStore ∅ ∅ ∅ ∅ ∅ ∅.
Definition fair : weather := mkWeather false true true true true.

Definition fetch_with (l : list RelatedMedia) (animeID : Z) (st : store) : store * option nat :=
  @Fetch ascii_unicode (answers l) (fun _ st => st) season_rows fair 0 animeID st.

Definition walked_once : store := (fetch_with three_seasons 2 empty_store).1.

Lemma answers_asked l ids media m : answers l ids = Some media -> m ∈ media -> ID m ∈ ids.
Proof. intros [= <-] Hm. apply elem_of_filter_b in Hm as [_ Hm]. by bool_prop. Qed.


(** The later seasons are still each other's sequel, and have no numbers. *)
Example Fetch_drops_far_part :
  let st := (fetch_with retyped 1 walked_once).1 in linked st 2 3 /\ franchise st = ∅.
Proof.
  split; [|vm_compute; reflexivity]. exists "SEQUEL". split; [reflexivity|].
  split; [left|split]; refine (bool_decide_unpack _ _); vm_compute; exact I.
Qed.
