(* ===== verification/Pick.v ===== *)
(** * Which file of a torrent: internal/torrent/client.go

    A pack holds many files, an episode is one of them, and its name may count the
    episode in several ways.  This file reads the episode a file's name states,
    drops extras, decides which count the pack uses and picks the file. *)
From stdpp Require Import base gmap strings list.
From Stdlib Require Import ZArith Lia.
From S2P Require Import Prelude GoStr Regex Parse.

(** The fields of [torrent.File] the choice reads. *)
Record PackFile := mkPackFile { Name : string; Length : Z }.

(** ** The episode in a name *)

Module PickPatterns.
Definition extraName := Eval vm_compute in
  compile "(?i)(?:^|[\s_.\-\[(])(?:NC(?:OP|ED)|OP|ED|PV|CM|Menu|Preview|Trailer|Sample)\s*\d{0,2}(?:$|[\s_.\-\]\)v])".
Definition episodeTags := Eval vm_compute in compile "(?i)[\[\(][^\]\)]*[\]\)]|\b\d{3,4}[pi]\b|\bx?26[45]\b".
Definition bracketNum := Eval vm_compute in compile "\[(\d{1,4})(?:v\d)?\]".
Definition versionSuffix := Eval vm_compute in compile "(?i)(\d{1,4})v\d\b".
Definition episodeNum := Eval vm_compute in
  compile "(?i)(?:\bS\d{1,2}E(\d{1,4})\b|(?:^|[\s_.-])(\d{1,4})(?:[\s_.-]|$))".
Definition seasonEpisode := Eval vm_compute in compile "(?i)\bS\d{1,2}[\s._]?E(\d{1,4})\b".
Definition markedEpisode := Eval vm_compute in compile "(?i)(?:^|[\s._\-\[(])E(?:P|PISODE)?\.?\s*(\d{1,4})(?:v\d)?\b".
Definition dashed := Eval vm_compute in compile "[\s_]-[\s_]+(\d{1,4})(?:v\d)?(?:[\s_]|$)".
Definition audioLayout := Eval vm_compute in compile "(?i)(?:^|[\s_.-]|[a-z])[2567]\.[01](?:[\s_.-]|$)".
Definition fractional := Eval vm_compute in compile "(?:^|[\s_-])\d{1,4}\.\d(?:[\s_-]|$)".
End PickPatterns.
Import PickPatterns.

Definition extraDirs : list string :=
  ["extras"; "extra"; "sample"; "samples"; "trailers"; "trailer"; "featurettes"; "specials"; "sp"; "menu"; "menus";
   "bonus"; "cm"; "pv"].

Section Pick.
Context `{Unicode}.

(** A group of a pattern read as a number, when the pattern is there. *)
Definition read_group (r : re) (s : string) : option (string * Z) :=
  match find r s with
  | Some m => Some (group s m 1, atoi_val (group s m 1))
  | None => None
  end.

Definition a_year (text : string) (n : Z) : bool := (String.length text =? 4)%nat && (1900 <=? n) && (n <=? 2099).

(** The loop over the last pattern's matches, last first, and their groups. *)
Fixpoint last_number (texts : list string) : Z :=
  match texts with
  | [] => 0
  | text :: texts' =>
      if String.eqb text "" then last_number texts'
      else
        let n := atoi_val text in
        if (n <=? 0) || (5000 <=? n) then last_number texts'
        else if a_year text n then last_number texts'
        else n
  end.

Definition numbers_in (s : string) : list string :=
  concat (map (fun m => [group s m 1; group s m 2]) (rev (find_all episodeNum s))).

(** The number [r] states, if it states one that passes [ok]. *)
Definition stated (r : re) (s : string) (ok : string -> Z -> bool) : option Z :=
  match read_group r s with
  | Some (text, n) => if (0 <? n) && ok text n then Some n else None
  | None => None
  end.

Definition any_number (_ : string) (_ : Z) : bool := true.
Definition not_a_year (text : string) (n : Z) : bool := negb (a_year text n).

Definition episodeInName (name : string) : Z :=
  match stated bracketNum name not_a_year with
  | Some n => n
  | None =>
      let cleaned := replace episodeTags name " " in
      match stated seasonEpisode cleaned any_number with
      | Some n => n
      | None =>
          match stated markedEpisode cleaned any_number with
          | Some n => n
          | None =>
              let cleaned := replace audioLayout cleaned " " in
              if matches fractional cleaned then 0
              else
                match stated dashed cleaned not_a_year with
                | Some n => n
                | None =>
                    let cleaned := replace_fun versionSuffix cleaned (fun m => group cleaned m 1 +:+ " ") in
                    last_number (numbers_in cleaned)
                end
          end
      end
  end.

(** ** Choosing *)

Definition extra (path : string) : bool :=
  let path := replace_all path "\" "/" in
  let dirs := split path "/" in
  existsb (fun d => existsb (String.eqb (to_lower d)) extraDirs || has_prefix (to_lower d) "nc") (removelast dirs) ||
  matches extraName (BaseName path).

Definition file_at (files : list PackFile) (i : nat) : PackFile := nth i files (mkPackFile "" 0).

Definition name_at (files : list PackFile) (i : nat) : string := Name (file_at files i).
Definition size_at (files : list PackFile) (i : nat) : Z := Length (file_at files i).

(** The first longest of the files at [l]. *)
Definition longest (files : list PackFile) (l : list nat) : option nat :=
  foldl (fun best i =>
    match best with
    | None => Some i
    | Some b => if size_at files b <? size_at files i then Some i else best
    end) None l.

Definition PickVideo (files : list PackFile) : option nat :=
  longest files (List.filter (fun i => IsVideo (name_at files i)) (seq 0 (length files))).

Definition medianLength (files : list PackFile) (idx : list nat) : Z :=
  let lengths := sort_by Z.ltb (map (size_at files) idx) in
  nth (length lengths / 2) lengths 0.

(** Of several counts the pack holds, the one whose first episode is nearest the
    pack's own. *)
Definition distance (episode lowest n : Z) : Z :=
  let first := i64_sub n (i64_sub episode 1) in Z.max (i64_sub first lowest) (i64_sub lowest first).

Fixpoint nearest (episode lowest : Z) (held : list Z) (best d : Z) : Z :=
  match held with
  | [] => best
  | n :: held' =>
      let dn := distance episode lowest n in
      if (d <? 0) || (dn <? d) then nearest episode lowest held' n dn else nearest episode lowest held' best d
  end.

Definition packNumber (episode : Z) (numbers : list Z) (lowest highest : Z) : Z :=
  match numbers with
  | [] => 0
  | first :: _ =>
      match List.filter (fun n => negb ((n <? lowest) || (highest <? n))) numbers with
      | [n] => n
      | [] => first
      | (n :: _) as held => nearest episode lowest held n (-1)
      end
  end.

(** What the loop over a pack's videos collects: the number of each long enough, and
    the lowest and highest of them. *)
Definition number_step (files : list PackFile) (floor : Z) (st : gmap nat Z * Z * Z) (i : nat) : gmap nat Z * Z * Z :=
  let '(numbered, lowest, highest) := st in
  if size_at files i <? floor then st
  else
    let n := episodeInName (BaseName (name_at files i)) in
    if 0 <? n then
      (<[i := n]> numbered, if (lowest =? 0) || (n <? lowest) then n else lowest, Z.max highest n)
    else st.

Definition episodes_of (files : list PackFile) : list nat :=
  List.filter (fun i => IsVideo (name_at files i) && negb (extra (name_at files i))) (seq 0 (length files)).

Definition PickNumbered (files : list PackFile) (episode : Z) (numbers : list Z) : option nat :=
  let numbers := List.filter (fun n => negb (n <=? 0)) numbers in
  let episode := if (episode <=? 0) && negb (bool_decide (numbers = [])) then default 0 (head numbers) else episode in
  if episode <=? 0 then PickVideo files
  else
    match episodes_of files with
    | [] => None
    | [only] =>
        let got := episodeInName (BaseName (name_at files only)) in
        if existsb (Z.eqb got) numbers || ((got =? 0) && (episode <=? 1)) then Some only else None
    | videos =>
        let floor := i64_div (medianLength files videos) 4 in
        let '(numbered, lowest, highest) := foldl (number_step files floor) (∅, 0, 0) videos in
        let want := packNumber episode numbers lowest highest in
        longest files (List.filter (fun i => default 0 (numbered !! i) =? want) videos)
    end.

Definition PickEpisode (files : list PackFile) (numbers : list Z) : option nat :=
  match numbers with [] => PickVideo files | n :: _ => PickNumbered files n numbers end.
End Pick.

(** ** Facts *)

Section facts.
Context `{Unicode}.

Definition episode_at (files : list PackFile) (i : nat) : Z := episodeInName (BaseName (name_at files i)).

Lemma longest_from files l b0 :
  match foldl (fun best i => match best with None => Some i | Some b => if size_at files b <? size_at files i then Some i else best end)
      (Some b0) l with
  | None => False
  | Some b => (b = b0 \/ b ∈ l) /\ size_at files b0 <= size_at files b /\ forall i, i ∈ l -> size_at files i <= size_at files b
  end.
Proof.
  revert b0. induction l as [|x l IH]; intros b0; simpl.
  { split; [by left|]. split; [lia|]. intros i Hi. by apply not_elem_of_nil in Hi. }
  assert (Hgo : forall c, (c = b0 \/ c = x) -> size_at files b0 <= size_at files c -> size_at files x <= size_at files c ->
    match foldl (fun best i => match best with None => Some i | Some b => if size_at files b <? size_at files i then Some i else best end)
      (Some c) l with
    | None => False
    | Some b => (b = b0 \/ b ∈ x :: l) /\ size_at files b0 <= size_at files b /\ forall i, i ∈ x :: l -> size_at files i <= size_at files b
    end).
  { intros c Hc H0 Hx. specialize (IH c). destruct (foldl _ (Some c) l) as [b|]; [|done].
    destruct IH as (Hin & Hle & Hall). split; [|split; [lia|]].
    - rewrite elem_of_cons. destruct Hin as [->|]; tauto.
    - intros i [->|Hi]%elem_of_cons; [lia|auto]. }
  destruct (Z.ltb_spec (size_at files b0) (size_at files x)); apply Hgo; auto; lia.
Qed.

(** The longest of some files is one of them and no other is longer. *)
Lemma longest_spec files l :
  match longest files l with
  | None => l = []
  | Some b => b ∈ l /\ forall i, i ∈ l -> size_at files i <= size_at files b
  end.
Proof.
  destruct l as [|x l]; [done|]. unfold longest. simpl. pose proof (longest_from files l x) as Hl.
  destruct (foldl _ (Some x) l) as [b|]; [|done]. destruct Hl as (Hin & Hx & Hall). split.
  - apply elem_of_cons. tauto.
  - intros i [->|Hi]%elem_of_cons; auto.
Qed.

(** The numbers a pack's loop has noted after the files [l]. *)
Record noted (files : list PackFile) (floor : Z) (l : list nat) (st : gmap nat Z * Z * Z) : Prop := {
  noted_number : forall i, default 0 (st.1.1 !! i) =
    if bool_decide (i ∈ l) && (floor <=? size_at files i) && (0 <? episode_at files i) then episode_at files i else 0;
  noted_low : forall i, i ∈ l -> floor <= size_at files i -> 0 < episode_at files i ->
    0 < st.1.2 <= episode_at files i /\ episode_at files i <= st.2;
  noted_sign : 0 <= st.1.2;
}.

Lemma number_loop files floor l : noted files floor l (foldl (number_step files floor) (∅, 0, 0) l).
Proof.
  induction l as [|x l IH] using rev_ind.
  { split; [intros i; simpl; by rewrite lookup_empty|intros i Hi; by apply not_elem_of_nil in Hi|done]. }
  rewrite foldl_app. simpl. destruct (foldl _ _ l) as [[numbered lowest] highest]. destruct IH as [N L S0].
  unfold number_step. fold (episode_at files x). cbn [fst snd] in *.
  assert (Hin : forall i, bool_decide (i ∈ l ++ [x]) = bool_decide (i ∈ l) || (i =? x)%nat).
  { intros i. destruct (Nat.eqb_spec i x) as [->|Hne].
    - rewrite orb_true_r. apply bool_decide_true, elem_of_app. right. by left.
    - rewrite orb_false_r. apply bool_decide_ext. rewrite elem_of_app, list_elem_of_singleton. naive_solver. }
  destruct (Z.ltb_spec (size_at files x) floor) as [Hs|Hs]; [|destruct (Z.ltb_spec 0 (episode_at files x)) as [He|He]].
  - split; cbn [fst snd]; [intros i|intros i [Hi|Hi%list_elem_of_singleton]%elem_of_app; [by apply L|subst; lia]|done].
    rewrite N, Hin. destruct (Nat.eqb_spec i x) as [->|]; [|by rewrite orb_false_r].
    rewrite (proj2 (Z.leb_gt _ _)) by lia. by rewrite !andb_false_r.
  - split; cbn [fst snd].
    + intros i. rewrite Hin. destruct (Nat.eqb_spec i x) as [->|Hne].
      * rewrite lookup_insert_eq. simpl. rewrite orb_true_r, (proj2 (Z.leb_le _ _)), (proj2 (Z.ltb_lt _ _)) by lia. done.
      * rewrite lookup_insert_ne by congruence. by rewrite N, orb_false_r.
    + intros i [Hi|Hi%list_elem_of_singleton]%elem_of_app Hfl Hep.
      * destruct (L i Hi Hfl Hep) as [[H1 H2] H3].
        rewrite (proj2 (Z.eqb_neq lowest 0)) by lia. simpl. destruct (Z.ltb_spec (episode_at files x) lowest); lia.
      * subst. destruct (Z.eqb_spec lowest 0); simpl; [lia|]. destruct (Z.ltb_spec (episode_at files x) lowest); lia.
    + destruct (_ || _); lia.
  - split; cbn [fst snd]; [intros i|intros i [Hi|Hi%list_elem_of_singleton]%elem_of_app; [by apply L|subst; lia]|done].
    rewrite N, Hin. destruct (Nat.eqb_spec i x) as [->|]; [|by rewrite orb_false_r].
    rewrite (proj2 (Z.ltb_ge 0 _)) by lia. by rewrite !andb_false_r.
Qed.

(** ** The number read *)

(** Four digits make a year, and nothing shorter does. *)
Lemma year_text r s m n :
  match_ok (runes s) r m -> digit_group 1 4 r n = true -> 1900 <= atoi_val (group s m n) <= 2099 ->
  a_year (group s m n) (atoi_val (group s m n)) = true.
Proof.
  intros Hm Hd Hy. destruct (digit_group_text 1 4 r s m n Hm Hd) as [He|(seg & He & Hok & Hdig & Hlo & Hhi)].
  { rewrite He in Hy. change (atoi_val "") with 0 in Hy. lia. }
  pose proof (atoi_digits seg Hok Hdig ltac:(lia)) as Hb. pose proof (proj1 (digits_raw seg 0 Hok Hdig)) as Hlen.
  rewrite He in *. unfold a_year. rewrite Hlen. assert (length seg = 4%nat) as ->.
  { destruct (Nat.le_gt_cases 4 (length seg)); [lia|].
    assert (10 ^ Z.of_nat (length seg) <= 10 ^ 3) by (apply Z.pow_le_mono_r; lia). lia. }
  rewrite !andb_true_iff. split; [split|]; [done|apply Z.leb_le; lia|apply Z.leb_le; lia].
Qed.

Lemma stated_bound r s ok n :
  digit_group 1 4 r 1 = true -> stated r s ok = Some n ->
  0 < n < 10000 /\ (ok = not_a_year -> ~ 1900 <= n <= 2099).
Proof.
  intros Hd. unfold stated, read_group. destruct (find r s) as [m|] eqn:E; [|done].
  pose proof (digit_group_bound 1 4 _ _ _ 1 (find_sound _ _ _ E) Hd ltac:(lia)) as Hb.
  destruct ((0 <? _) && _) eqn:Eb; [|done]. intros [= <-]. apply andb_true_iff in Eb as [Hp Hok]. bool_prop.
  split; [lia|]. intros -> Hy. apply (year_text _ _ _ _ (find_sound _ _ _ E) Hd) in Hy.
  unfold not_a_year in Hok. by rewrite Hy in Hok.
Qed.

Lemma last_number_spec texts n :
  last_number texts = n -> n = 0 \/ 0 < n < 5000 /\ exists text, text ∈ texts /\ n = atoi_val text /\ a_year text n = false.
Proof.
  intros <-. induction texts as [|text texts IH]; simpl; [by left|].
  assert (Hr : last_number texts = 0 \/ 0 < last_number texts < 5000 /\
    exists t, t ∈ text :: texts /\ last_number texts = atoi_val t /\ a_year t (last_number texts) = false).
  { destruct IH as [|[Hb (t & Ht & Hrest)]]; [by left|right]. split; [done|]. exists t. split; [by right|done]. }
  destruct (String.eqb text ""); [done|]. destruct ((_ <=? 0) || _) eqn:Eb; [done|].
  destruct (a_year text (atoi_val text)) eqn:Ey; [done|]. right. apply orb_false_iff in Eb as [Hp Hm]. bool_prop.
  split; [lia|]. exists text. split; [by left|done].
Qed.

Lemma numbers_in_year s text :
  text ∈ numbers_in s -> 1900 <= atoi_val text <= 2099 -> a_year text (atoi_val text) = true.
Proof.
  unfold numbers_in. intros Ht. apply list_elem_of_In, in_concat in Ht as (l & Hl & Ht).
  apply in_map_iff in Hl as (m & <- & Hm). apply in_rev in Hm. apply find_all_sound in Hm.
  destruct Ht as [<-|[<-|[]]]; by apply (year_text _ _ _ _ Hm).
Qed.

(** The episode a file's name states has at most four digits, and is zero when
    the name states none; a number from 1900 to 2099 is taken for an episode only when it is
    marked as one ("S01E1999", "EP 2001"), never in a bracket, after a dash or on
    its own. *)
Theorem episodeInName_bounds name :
  0 <= episodeInName name < 10000 /\
  (1900 <= episodeInName name <= 2099 ->
   stated seasonEpisode (replace episodeTags name " ") any_number = Some (episodeInName name) \/
   stated markedEpisode (replace episodeTags name " ") any_number = Some (episodeInName name)).
Proof.
  unfold episodeInName. destruct (stated bracketNum name _) as [n|] eqn:E1.
  { apply stated_bound in E1 as [Hb Hy]; [|reflexivity]. specialize (Hy eq_refl). split; lia. }
  destruct (stated seasonEpisode _ _) as [n|] eqn:E2.
  { apply stated_bound in E2 as [Hb _]; [|reflexivity]. split; [lia|by left]. }
  destruct (stated markedEpisode _ _) as [n|] eqn:E3.
  { apply stated_bound in E3 as [Hb _]; [|reflexivity]. split; [lia|by right]. }
  destruct (matches fractional _); [lia|]. destruct (stated dashed _ _) as [n|] eqn:E4.
  { apply stated_bound in E4 as [Hb Hy]; [|reflexivity]. specialize (Hy eq_refl). split; lia. }
  set (texts := numbers_in _). destruct (last_number_spec texts _ eq_refl) as [->|[Hb (text & Ht & Hn & Hy)]]; [lia|].
  split; [lia|]. intros Hyr. rewrite Hn in Hyr, Hy. apply (numbers_in_year _ _ Ht) in Hyr; congruence.
Qed.

(** ** The count a pack uses *)

Definition small (n : Z) : Prop := 0 <= n < 2 ^ 32.

Lemma distance_abs episode lowest n :
  small episode -> small lowest -> small n -> distance episode lowest n = Z.abs (n - (episode - 1) - lowest).
Proof.
  unfold small, distance. intros. unfold i64_sub. rewrite !(wrap64_small (episode - 1)) by (unfold in64; lia).
  rewrite !(wrap64_small (n - (episode - 1))) by (unfold in64; lia). rewrite !wrap64_small by (unfold in64; lia). lia.
Qed.

Lemma nearest_spec episode lowest held best :
  small episode -> small lowest -> (forall n, n ∈ best :: held -> small n) ->
  forall d, d = distance episode lowest best \/ (d < 0 /\ head held = Some best) ->
  nearest episode lowest held best d ∈ best :: held /\
  forall n, n ∈ best :: held -> distance episode lowest (nearest episode lowest held best d) <= distance episode lowest n.
Proof.
  intros He Hl. revert best. induction held as [|x held IH]; intros best Hs d Hd; simpl.
  { split; [by left|]. intros n [->|Hn%not_elem_of_nil]%elem_of_cons; [lia|done]. }
  assert (Hpos : 0 <= distance episode lowest best) by (rewrite distance_abs by (try done; apply Hs; by left); lia).
  destruct ((d <? 0) || (distance episode lowest x <? d)) eqn:E.
  - destruct (IH x (fun n Hn => Hs n (list_elem_of_further _ _ _ Hn)) (distance episode lowest x) (or_introl eq_refl)) as [Hin Hmin].
    split; [by right|]. intros n [->|Hn]%elem_of_cons; [|by apply Hmin].
    pose proof (Hmin x (list_elem_of_here _ _)).
    destruct Hd as [->|[Hd [= ->]]]; [|done]. apply orb_true_iff in E as [E|E]; bool_prop; lia.
  - apply orb_false_iff in E as [E1 E2]. bool_prop. destruct Hd as [->|[Hd _]]; [|lia].
    destruct (IH best) with (d := distance episode lowest best) as [Hin Hmin];
      [intros n [->|Hn]%elem_of_cons; apply Hs; [by left|by right; right]|by left|].
    split; [apply elem_of_cons in Hin as [->|]; [by left|by right; right]|].
    intros n [->|[->|Hn]%elem_of_cons]%elem_of_cons; [apply Hmin; by left| |apply Hmin; by right].
    pose proof (Hmin best (list_elem_of_here _ _)). lia.
Qed.

(** Of the counts an episode may carry, the one a pack is read by is one of them;
    one the pack's numbers span is taken over one they do not, and of several the one
    that would put the entry's first episode nearest the pack's own first. *)
Theorem packNumber_spec episode numbers lowest highest :
  numbers <> [] -> small episode -> small lowest -> (forall n, n ∈ numbers -> small n) ->
  packNumber episode numbers lowest highest ∈ numbers /\
  forall n, n ∈ numbers -> lowest <= n <= highest ->
    lowest <= packNumber episode numbers lowest highest <= highest /\
    Z.abs (packNumber episode numbers lowest highest - (episode - 1) - lowest) <= Z.abs (n - (episode - 1) - lowest).
Proof.
  intros Hne He Hl Hs. destruct numbers as [|first rest]; [done|]. unfold packNumber.
  set (numbers := first :: rest) in *. set (held := List.filter _ numbers).
  assert (Hheld : forall n, n ∈ held <-> n ∈ numbers /\ lowest <= n <= highest).
  { intros n. unfold held. rewrite elem_of_filter_b, negb_true_iff, orb_false_iff, !Z.ltb_ge. tauto. }
  assert (Hbest : forall b, b ∈ held -> (forall n, n ∈ held -> distance episode lowest b <= distance episode lowest n) ->
    b ∈ numbers /\ forall n, n ∈ numbers -> lowest <= n <= highest -> lowest <= b <= highest /\
      Z.abs (b - (episode - 1) - lowest) <= Z.abs (n - (episode - 1) - lowest)).
  { intros b Hb Hmin. pose proof Hb as [Hin Hr]%Hheld. split; [done|]. intros n Hn Hnr. split; [done|].
    assert (Hn' : n ∈ held) by (by apply Hheld). specialize (Hmin n Hn'). by rewrite !distance_abs in Hmin by auto. }
  destruct held as [|x [|y held']] eqn:E.
  - split; [by left|]. intros n Hn Hr. exfalso. apply (not_elem_of_nil n), Hheld. by split.
  - apply Hbest; [by left|]. intros n ->%list_elem_of_singleton. lia.
  - cbv beta iota. rewrite <- E in *. destruct (nearest_spec episode lowest held x) with (d := -1) as [Hin Hmin]; try done.
    + intros n Hn. apply Hs. rewrite E in Hn. assert (Hx : n ∈ x :: y :: held') by (apply elem_of_cons in Hn as [->|]; [by left|done]).
      rewrite <- E in Hx. by apply Hheld in Hx as [? _].
    + right. split; [lia|]. by rewrite E.
    + apply Hbest.
      * apply elem_of_cons in Hin as [->|]; [rewrite E; by left|done].
      * intros n Hn. apply Hmin. by right.
Qed.

(** ** The file picked *)

Definition long_enough (files : list PackFile) (i : nat) : Prop :=
  i64_div (medianLength files (episodes_of files)) 4 <= size_at files i.

Lemma packNumber_in episode numbers lowest highest : numbers <> [] -> packNumber episode numbers lowest highest ∈ numbers.
Proof.
  intros Hne. destruct numbers as [|first rest]; [done|]. unfold packNumber. set (numbers := first :: rest).
  assert (Hheld : forall n, n ∈ List.filter (fun n => negb ((n <? lowest) || (highest <? n))) numbers -> n ∈ numbers)
    by (intros n [? _]%elem_of_filter_b; done).
  destruct (List.filter _ numbers) as [|x [|y held]]; [by left|apply Hheld; by left|].
  assert (Hn : forall l b d, nearest episode lowest l b d ∈ b :: l).
  { induction l as [|z l IH]; intros b d; simpl; [by left|].
    destruct (_ || _); [right; apply IH|]. destruct (elem_of_cons l (nearest episode lowest l b d) b) as [Hc _].
    destruct (Hc (IH b d)) as [->|]; [by left|by right; right]. }
  apply Hheld. cbv beta iota. specialize (Hn (x :: y :: held) x (-1)). apply elem_of_cons in Hn as [->|]; [by left|done].
Qed.

(** [PickNumbered], on every branch of an episode asked for. *)
Lemma picked files episode numbers :
  0 < episode -> (exists n, n ∈ numbers /\ 0 < n) ->
  match PickNumbered files episode numbers with
  | Some i =>
      i ∈ episodes_of files /\
      ((episode_at files i ∈ numbers /\ 0 < episode_at files i /\
        forall j, j ∈ episodes_of files -> long_enough files j -> episode_at files j = episode_at files i ->
          size_at files j <= size_at files i) \/
       (episodes_of files = [i] /\ episode_at files i = 0 /\ episode <= 1))
  | None =>
      exists want, want ∈ numbers /\ 0 < want /\
        forall j, j ∈ episodes_of files -> long_enough files j -> episode_at files j <> want
  end.
Proof.
  intros He (n0 & Hn0 & Hp0). unfold PickNumbered. set (ns := List.filter (fun n => negb (n <=? 0)) numbers).
  assert (Hns : forall n, n ∈ ns <-> n ∈ numbers /\ 0 < n).
  { intros n. unfold ns. rewrite elem_of_filter_b, negb_true_iff, Z.leb_gt. tauto. }
  assert (Hne : ns <> []) by (intros E; apply (not_elem_of_nil n0); rewrite <- E; by apply Hns).
  rewrite (proj2 (Z.leb_gt episode 0)) by lia. cbn [andb]. rewrite (proj2 (Z.leb_gt episode 0)) by lia.
  unfold long_enough. destruct (episodes_of files) as [|only [|second more]].
  - exists n0. split; [done|]. split; [done|]. intros j Hj. by apply not_elem_of_nil in Hj.
  - fold (episode_at files only). destruct (existsb _ ns || _) eqn:E.
    + split; [by left|]. apply orb_true_iff in E as [E|E].
      * left. apply existsb_exists in E as (n & Hn & E). bool_prop. subst n. apply list_elem_of_In, Hns in Hn as [? ?].
        split; [done|]. split; [done|]. intros j ->%list_elem_of_singleton. lia.
      * right. bool_prop. split; [done|]. lia.
    + exists n0. split; [done|]. split; [done|]. intros j ->%list_elem_of_singleton _ <-.
      apply orb_false_iff in E as [E _]. apply not_true_iff_false in E. apply E, existsb_exists.
      exists (episode_at files only). rewrite <- list_elem_of_In. split; [by apply Hns|apply Z.eqb_refl].
  - set (videos := only :: second :: more). set (floor := i64_div _ 4).
    pose proof (number_loop files floor videos) as Hnote. destruct (foldl _ _ videos) as [[numbered lowest] highest].
    destruct Hnote as [Hnum _ _]. cbn [fst snd] in Hnum. cbv zeta. set (want := packNumber episode ns lowest highest).
    assert (Hw : want ∈ ns) by (by apply packNumber_in). apply Hns in Hw as [Hw Hwp].
    pose proof (longest_spec files (List.filter (fun i => default 0 (numbered !! i) =? want) videos)) as Hlong.
    assert (Hcand : forall j, j ∈ List.filter (fun i => default 0 (numbered !! i) =? want) videos <->
      j ∈ videos /\ floor <= size_at files j /\ episode_at files j = want).
    { intros j. rewrite elem_of_filter_b, Hnum, Z.eqb_eq. destruct (bool_decide (j ∈ videos)) eqn:Ej; bool_prop; [|naive_solver lia].
      destruct (Z.leb_spec floor (size_at files j)), (Z.ltb_spec 0 (episode_at files j)); simpl; intuition lia. }
    destruct (longest files _) as [i|].
    + destruct Hlong as [Hi Hmax]. apply Hcand in Hi as (Hi & Hs & Ei). split; [done|left]. rewrite Ei. split; [done|].
      split; [done|]. intros j Hj Hfl Hje. apply Hmax, Hcand. done.
    + exists want. split; [done|]. split; [done|]. intros j Hj Hfl Hje. apply (not_elem_of_nil j). rewrite <- Hlong. by apply Hcand.
Qed.

(** The file picked for an episode is a video and no extra, and its name states a
    number the episode may carry; a lone video that states none stands for the first
    episode only.  In a pack no long enough file with the same number is longer, and when
    nothing is picked the pack has no long enough file of the number it was read by. *)
Theorem PickNumbered_spec files episode numbers :
  0 < episode -> (exists n, n ∈ numbers /\ 0 < n) ->
  match PickNumbered files episode numbers with
  | Some i =>
      i ∈ episodes_of files /\
      ((episode_at files i ∈ numbers /\ 0 < episode_at files i /\
        forall j, j ∈ episodes_of files -> long_enough files j -> episode_at files j = episode_at files i ->
          size_at files j <= size_at files i) \/
       (episodes_of files = [i] /\ episode_at files i = 0 /\ episode <= 1))
  | None =>
      exists want, want ∈ numbers /\ 0 < want /\
        forall j, j ∈ episodes_of files -> long_enough files j -> episode_at files j <> want
  end.
Proof. apply picked. Qed.
End facts.

(** With no positive number to look for, a pack's unnumbered files are what is
    looked for: [packNumber] answers zero, and zero is what an unnumbered file has. *)
Example PickNumbered_unnumbered :
  let files := [mkPackFile "Show - 01.mkv" 1400; mkPackFile "Show - 02.mkv" 1350; mkPackFile "Afterword.mkv" 600] in
  @PickNumbered ascii_unicode files 14 [] = Some 2%nat.
Proof. vm_compute. reflexivity. Qed.

(** ** A season pack *)

Definition season_pack : list PackFile :=
  [mkPackFile "Show/Extras/sample.mkv" 20; mkPackFile "Show/cover.jpg" 2;
   mkPackFile "Show/Show - 01 [1080p].mkv" 1400; mkPackFile "Show/Show - 02 [1080p].mkv" 1350;
   mkPackFile "Show/Show - 10 [1080p].mkv" 1380; mkPackFile "Show/Show - 11 [1080p].mkv" 2900;
   mkPackFile "Show/subs/Show - 10.ass" 60].

(** Episode 10, which may be called 22 elsewhere: file 4, and not the biggest. *)
Lemma PickNumbered_spec_witness :
  @PickNumbered ascii_unicode season_pack 10 [10; 22] = Some 4%nat /\
  @episode_at ascii_unicode season_pack 4 ∈ [10; 22].
Proof.
  assert (E : @PickNumbered ascii_unicode season_pack 10 [10; 22] = Some 4%nat) by (vm_compute; reflexivity).
  split; [exact E|].
  assert (Hn : exists n, n ∈ [10; 22] /\ 0 < n) by (exists 10; split; [by left|lia]).
  pose proof (@PickNumbered_spec ascii_unicode season_pack 10 [10; 22] ltac:(lia) Hn) as Hs.
  rewrite E in Hs. destruct Hs as [_ [(Hin & _)|(Hx & _)]]; [exact Hin|vm_compute in Hx; discriminate].
Defined.

(** A second cour catalogued from 1, whose pack counts 13 to 24: 2 or 14 is 14. *)
Lemma packNumber_spec_witness : packNumber 2 [2; 14] 13 24 = 14 /\ packNumber 2 [2; 14] 13 24 ∈ [2; 14].
Proof.
  split; [vm_compute; reflexivity|]. apply (packNumber_spec 2 [2; 14] 13 24); [discriminate|unfold small; lia..|].
  intros n Hn. repeat (apply elem_of_cons in Hn as [->|Hn]; [unfold small; lia|]). by apply not_elem_of_nil in Hn.
Defined.

(** A year is read only where it is marked. *)
Lemma episodeInName_bounds_witness :
  @stated ascii_unicode seasonEpisode (@replace ascii_unicode episodeTags "Detective S01E1999" " ") any_number = Some 1999 \/
  @stated ascii_unicode markedEpisode (@replace ascii_unicode episodeTags "Detective S01E1999" " ") any_number = Some 1999.
Proof.
  assert (E : @episodeInName ascii_unicode "Detective S01E1999" = 1999) by (vm_compute; reflexivity).
  pose proof (@episodeInName_bounds ascii_unicode "Detective S01E1999") as [_ Hy]. rewrite E in Hy. apply Hy. lia.
Defined.
