(* ===== verification/Episode.v ===== *)
(** * Is this release the episode asked for: internal/library/episode.go

    A tracker answers a search with releases named by whoever made them.  Before one
    is offered its name is checked against the request: the episode it states under any of
    the counts this entry's releases use, the season, the cour.  Those counts come from
    the franchise: earlier entries with their episode totals and titles.  The franchise,
    the titles and the catalogue's own numbers are what the store answers. *)
From stdpp Require Import base gmap sets strings list.
From Stdlib Require Import ZArith Lia.
From S2P Require Import Prelude GoStr Float64 Regex Parse Pick.

Module EpisodePatterns.
Definition wordSplit := Eval vm_compute in compile "[^\p{L}\p{N}]+".
Definition queryPunct := Eval vm_compute in
  compile ("[?!:;," +:+ String (Ascii.ascii_of_nat 34) "'’“”*~<>|/\\()\[\]{}]+").
Definition querySeason := Eval vm_compute in compile "(?i)\s*\b(?:S0*1|Season\s*1|1st\s+Season)\b".
Definition querySpace := Eval vm_compute in compile "\s{2,}".
Definition courSuffix := Eval vm_compute in
  compile "(?i)\s+(part|season|cour|final season)\s*\d*$|(?i)\s+\d(nd|rd|th|st)\s+season$".
End EpisodePatterns.
Import EpisodePatterns.

(** [store.EpisodeAlias] *)
Record EpisodeAlias := mkAlias { Tvdb : Z; Absolute : Z; StatedTvdb : bool; StatedAbsolute : bool }.

Definition no_alias : EpisodeAlias := mkAlias 0 0 false false.

Definition Numbers (a : EpisodeAlias) : list Z :=
  foldl (fun out n => if (0 <? n) && negb (bool_decide (n ∈ out)) then out ++ [n] else out) [] [Tvdb a; Absolute a].

Record Cour := mkCour { Own : list string; Siblings : list string; Later : bool; Bases : list (list string) }.

(** [Request], without the preferences. *)
Record Request := mkRequest {
  req_AnimeID : Z; req_Episode : Z; req_Season : Z; Alias : EpisodeAlias; req_Part : Z; Numerals : list Z;
  Counted : Z; req_Cour : Cour;
}.

(** The columns of [store.Season] that are read here. *)
Record Season_ := mkSeason {
  s_ID : Z; Ordinal : Z; Romaji : string; English : option string; Episodes : option Z; Format : option string;
}.

Definition stopWords : list string :=
  ["the"; "a"; "an"; "of"; "and"; "to"; "no"; "ga"; "wa"; "ni"; "de"; "wo"; "season"; "part"; "movie"; "tv"].

Section Episode.
Context `{Unicode}.

(** ** Words and titles *)

Definition significantWords (title : string) : list string :=
  List.filter (fun w =>
    negb ((length (runes w) <? 4)%nat || existsb (String.eqb (to_lower w)) stopWords) && negb (snd (atoi w)))
    (re_split wordSplit title).

Definition wordSet (titles : list string) : gset string :=
  list_to_set (map to_lower (concat (map significantWords titles))).

(** ["-– "], a hyphen, an en dash and a space. *)
Definition dashes : string := "-– ".

Definition cleanQuery (title : string) : string :=
  let out := replace queryPunct title " " in
  let out := replace querySeason out "" in
  let out := replace_all out "." " " in
  let out := replace querySpace out " " in
  trim_space (trim out dashes).

Fixpoint cut_last (title : string) (seps : list string) : string :=
  match seps with
  | [] => ""
  | sep :: seps' =>
      match last_index title sep with
      | Some i => if (8 <? i)%nat then trim_space (str_to title i) else cut_last title seps'
      | None => cut_last title seps'
      end
  end.

Definition baseTitle (title : string) : string :=
  let trimmed := replace courSuffix title "" in
  if negb (String.eqb trimmed title) then trim_space trimmed else cut_last title [" - "; " – "].

Definition is_series (format : option string) : bool :=
  match format with
  | None => true
  | Some f => negb (bool_decide (to_upper f ∈ ["MOVIE"; "SPECIAL"; "OVA"; "MUSIC"]))
  end.

(** ** The counts an episode goes by *)

Section store.
(** What the store answers: the show's seasons in order ([None]: it failed), and an
    entry's titles. *)
Context (franchise : Z -> option (list Season_)) (titles_of : Z -> list string).

(** The bases two names share. *)
Definition namedBy (bases : gset string) (names : list string) : bool :=
  existsb (fun n =>
    negb (String.eqb n "") &&
    (bool_decide (cleanQuery n ∈ bases) ||
     (negb (String.eqb (baseTitle n) "") && bool_decide (cleanQuery (baseTitle n) ∈ bases)))) names.

(** The loop over the seasons before the entry: [None] when one's total is unknown. *)
Fixpoint count_through (bases : gset string) (animeID : Z) (l : list Season_) (absolute run : Z) (counted split : bool) :
    option (Z * Z * bool) :=
  match l with
  | [] => Some (absolute, run, split)
  | s :: l' =>
      if s_ID s =? animeID then Some (absolute, run, split)
      else if negb (is_series (Format s)) then count_through bases animeID l' absolute run counted split
      else
        match Episodes s with
        | None => None
        | Some e =>
            if e <=? 0 then None
            else
              let absolute := i64_add absolute e in
              if namedBy bases (titles_of (s_ID s) ++ [Romaji s])
              then count_through bases animeID l' absolute (i64_add run e) true split
              else count_through bases animeID l' absolute 0 counted (split || counted)
        end
  end.

Definition bases_of (titles : list string) : gset string :=
  list_to_set (omap (fun t => if String.eqb (baseTitle t) "" then None else Some (cleanQuery (baseTitle t))) titles).

Definition derivedAlias (req : Request) (titles : list string) (english : string) : EpisodeAlias :=
  if req_Episode req <=? 0 then no_alias
  else
    match franchise (req_AnimeID req) with
    | None => no_alias
    | Some seasons =>
        if (length seasons <? 2)%nat then no_alias
        else
          match count_through (bases_of (english :: titles)) (req_AnimeID req) seasons 0 0 false false with
          | None => no_alias
          | Some (absolute, run, split) =>
              mkAlias (if (0 <? run) && negb split then i64_add run (req_Episode req) else 0)
                (if 0 <? absolute then i64_add absolute (req_Episode req) else 0) false false
          end
    end.

(** The first title that states one. *)
Definition first_stated (f : string -> Z) (titles : list string) : option Z :=
  head (omap (fun t => if 0 <? f t then Some (f t) else None) titles).

Definition laterSeason (animeID : Z) : bool :=
  match franchise animeID with
  | None => false
  | Some seasons =>
      match List.find (fun s => s_ID s =? animeID) seasons with Some s => 1 <? Ordinal s | None => false end
  end.

Fixpoint numeral_default (animeID : Z) (titles : list string) : Z :=
  match titles with
  | [] => 1
  | t :: titles' =>
      let '(n, roman) := NumeralSeason t in
      if n =? 0 then numeral_default animeID titles'
      else if roman || laterSeason animeID then n else numeral_default animeID titles'
  end.

Definition defaultSeason (animeID : Z) (titles : list string) : Z :=
  match first_stated SeasonOf titles with Some n => n | None => numeral_default animeID titles end.

Fixpoint season_place (animeID : Z) (l : list Season_) (season : Z) : Z :=
  match l with
  | [] => 0
  | s :: l' =>
      if negb (is_series (Format s)) then if s_ID s =? animeID then 0 else season_place animeID l' season
      else
        let season :=
          if (season =? 0) || (Z.max (PartOf (Romaji s)) (PartOf (default "" (English s))) <? 2)
          then season + 1 else season in
        if s_ID s =? animeID then season else season_place animeID l' season
  end.

Definition franchiseSeason (animeID : Z) : Z :=
  match franchise animeID with None => 0 | Some seasons => season_place animeID seasons 0 end.

(** The numerals the titles and their bases end in, each once. *)
Definition numerals (start : list Z) (titles : list string) : list Z :=
  foldl (fun out name =>
    let n := fst (NumeralSeason name) in if (0 <? n) && negb (bool_decide (n ∈ out)) then out ++ [n] else out)
    start (concat (map (fun t => [t; baseTitle t]) titles)).

(** ** Cours *)

Definition bases (titles : list string) : list (list string) :=
  omap (fun t =>
    let base := baseTitle t in
    let words := significantWords (if String.eqb base "" then t else base) in
    match words with [] => None | _ => Some (map to_lower words) end) titles.

Definition sorted_words (s : gset string) : list string := sort_by String.ltb (elements s).

(** An earlier series is named by this entry's base title. *)
Definition shares_base (all names : list string) : bool :=
  existsb (fun name => existsb (fun t =>
    negb (String.eqb (baseTitle t) "") && equal_fold (cleanQuery (baseTitle t)) (cleanQuery name)) all) names.

Definition cour (req : Request) (titles : list string) (english : string) : Cour :=
  let all := english :: titles in
  let later := (1 <? req_Season req) || (1 <? req_Part req) || (req_Episode req <? Tvdb (Alias req)) in
  match franchise (req_AnimeID req) with
  | None => mkCour [] [] later (bases all)
  | Some seasons =>
      let ordinal := default 0 (Ordinal <$> last (List.filter (fun s => s_ID s =? req_AnimeID req) seasons)) in
      let others := List.filter (fun s => negb (s_ID s =? req_AnimeID req)) seasons in
      let mine := wordSet all in
      let theirs := map (fun s => wordSet (titles_of (s_ID s))) others in
      let only_one w := (length (List.filter (fun t : gset string => bool_decide (w ∈ t)) theirs) =? 1)%nat in
      mkCour (sorted_words (foldl (fun own t => own ∖ t) mine theirs))
        (sorted_words (filter (fun w => only_one w = true) (⋃ theirs ∖ mine)))
        (later || existsb (fun s => (Ordinal s <? ordinal) && is_series (Format s) && shares_base all (titles_of (s_ID s))) others)
        (bases all)
  end.

(** [catalogued] is what [store.EpisodeAlias] answers. *)
Definition numbering (catalogued : EpisodeAlias) (req : Request) (titles : list string) (english : string) : Request :=
  let all := english :: titles in
  let part := match first_stated PartOf all with Some n => n | None => req_Part req end in
  let nums := numerals (Numerals req) all in
  let season := if req_Season req =? 0 then defaultSeason (req_AnimeID req) all else req_Season req in
  let counted := if (req_Season req =? 0) && (season =? 1) then franchiseSeason (req_AnimeID req) else Counted req in
  let req1 := mkRequest (req_AnimeID req) (req_Episode req) season catalogued part nums counted (req_Cour req) in
  let alias :=
    if negb (StatedTvdb catalogued) || negb (StatedAbsolute catalogued) then
      let derived := derivedAlias req1 titles english in
      mkAlias (if StatedTvdb catalogued then Tvdb catalogued else Tvdb derived)
        (if StatedAbsolute catalogued then Absolute catalogued else Absolute derived)
        (StatedTvdb catalogued) (StatedAbsolute catalogued)
    else catalogued in
  let req2 := mkRequest (req_AnimeID req) (req_Episode req) season alias part nums counted (req_Cour req) in
  mkRequest (req_AnimeID req) (req_Episode req) season alias part nums counted (cour req2 titles english).
End store.

(** ** The release against the request *)

Definition names_season (rel : Release) : gset string := wordSet [Title rel].

Definition numeralSeason (rel : Release) (req : Request) : Z :=
  if (0 <? Season rel) || (0 <? Part rel) then 0
  else
    let '(n, roman) := NumeralSeason (Title rel) in
    if (n <? 2) || (negb roman && bool_decide (n ∈ Numerals req) && negb (req_Season req =? n)) then 0 else n.

(** Whether it names this cour, and whether it names a sibling one. *)
Definition marked (rel : Release) (req : Request) : bool * bool :=
  let words := wordSet [Title rel] in
  let sibling := existsb (fun w => bool_decide (w ∈ words)) (Siblings (req_Cour req)) in
  let own := existsb (fun w => bool_decide (w ∈ words)) (Own (req_Cour req)) in
  (own || ((0 <? req_Part req) && (Part rel =? req_Part req)) ||
     ((1 <? req_Season req) && ((Season rel =? req_Season req) || (numeralSeason rel req =? req_Season req))), sibling).

Definition bare (rel : Release) (req : Request) : bool := Later (req_Cour req) && negb (fst (marked rel req)).

Definition numbersFor (rel : Release) (req : Request) : list Z :=
  (if bare rel req then [] else [req_Episode req]) ++ Numbers (Alias req).

Definition covers (rel : Release) (n : Z) : bool :=
  Batch rel && (Parse.Episode rel <=? n) && ((EpisodeEnd rel =? 0) || (n <=? EpisodeEnd rel)).

Definition namesShow (rel : Release) (req : Request) : bool :=
  let words := wordSet [Title rel] in
  existsb (fun base =>
    fge (fdiv (of_int (Z.of_nat (length (List.filter (fun w => bool_decide (w ∈ words)) base)))) (of_int (Z.of_nat (length base))))
      (of_ratio 1 2)) (Bases (req_Cour req)) ||
  bool_decide (Bases (req_Cour req) = []).

Definition names (rel : Release) (req : Request) : bool :=
  if namesShow rel req then true
  else
    let words := elements (wordSet [Title rel]) in
    negb (bool_decide (words = [])) &&
    existsb (fun base => forallb (fun w => bool_decide (w ∈ base)) words) (Bases (req_Cour req)).

Definition broadcast (rel : Release) (req : Request) : bool :=
  (1 <? Season rel) && Later (req_Cour req) && names rel req.

(** Whether the stated episode, or the stated batch, is this episode under some count. *)
Definition numbered (rel : Release) (req : Request) : bool * bool :=
  let '(stated, inBatch) :=
    if bare rel req then (false, false)
    else (Parse.Episode rel =? req_Episode req, covers rel (req_Episode req)) in
  let tvdb := Tvdb (Alias req) in
  let '(stated, inBatch) :=
    if (0 <? tvdb) && (namesShow rel req || broadcast rel req)
    then (stated || (Parse.Episode rel =? tvdb), inBatch || covers rel tvdb) else (stated, inBatch) in
  let abs := Absolute (Alias req) in
  if (0 <? abs) && names rel req
  then (stated || (Parse.Episode rel =? abs), inBatch || covers rel abs) else (stated, inBatch).

Definition confirms (rel : Release) (req : Request) : bool :=
  if req_Episode req <=? 0 then false
  else
    let '(stated, inBatch) := numbered rel req in
    if stated || (inBatch && (0 <? Parse.Episode rel)) then true
    else Batch rel && (Parse.Episode rel =? 0) && (0 <? Season rel) && (Season rel =? req_Season req) && negb (Later (req_Cour req)).

Definition verifies (rel : Release) (req : Request) : bool :=
  let '(own, sibling) := marked rel req in
  if sibling && negb own then false
  else if (0 <? req_Part req) && (0 <? Part rel) && negb (Part rel =? req_Part req) then false
  else if (0 <? req_Episode req) &&
          (let '(stated, inBatch) := numbered rel req in
           let unknownScope := (Parse.Episode rel =? 0) && negb (Batch rel) &&
             (0 <? length (numbersFor rel req))%nat && (own || namesShow rel req) in
           negb stated && negb inBatch && negb unknownScope) then false
  else if (req_Episode req <? Tvdb (Alias req)) && (Parse.Episode rel =? Tvdb (Alias req)) && broadcast rel req then true
  else if (1 <? req_Season req) && (0 <? Season rel) && negb (Season rel =? req_Season req) then false
  else if (0 <? numeralSeason rel req) && negb (numeralSeason rel req =? Z.max (req_Season req) 1) then false
  else if (req_Season req =? 1) && (1 <? Season rel) && negb (Season rel =? req_Season req) && negb (Season rel =? Counted req) then false
  else true.

(** ** Facts *)

Lemma Numbers_elem al n : n ∈ Numbers al <-> 0 < n /\ (n = Tvdb al \/ n = Absolute al).
Proof.
  unfold Numbers. cbn [foldl].
  assert (forall out x, n ∈ (if (0 <? x) && negb (bool_decide (x ∈ out)) then out ++ [x] else out) <->
    n ∈ out \/ (0 < n /\ n = x)) as Hstep.
  { intros out x. destruct (Z.ltb_spec 0 x); [|simpl; intuition lia]. case_bool_decide; simpl; [|rewrite elem_of_app, list_elem_of_singleton];
      intuition (subst; auto). }
  rewrite !Hstep, elem_of_nil. tauto.
Qed.

Lemma numbersFor_elem rel req n :
  n ∈ numbersFor rel req <->
  (bare rel req = false /\ n = req_Episode req) \/ (0 < n /\ (n = Tvdb (Alias req) \/ n = Absolute (Alias req))).
Proof. unfold numbersFor. rewrite elem_of_app, Numbers_elem. destruct (bare rel req); rewrite ?elem_of_nil, ?list_elem_of_singleton; naive_solver. Qed.

(** What a stated episode or batch was found to be is one of the counts. *)
Lemma numbered_spec rel req stated inBatch :
  numbered rel req = (stated, inBatch) ->
  (stated = true -> Parse.Episode rel ∈ numbersFor rel req) /\
  (inBatch = true -> exists n, n ∈ numbersFor rel req /\ covers rel n = true).
Proof.
  unfold numbered. setoid_rewrite numbersFor_elem. intros Hn.
  assert (H0 : let '(st, ib) := if bare rel req then (false, false) else (Parse.Episode rel =? req_Episode req, covers rel (req_Episode req)) in
    (st = true -> bare rel req = false /\ Parse.Episode rel = req_Episode req) /\
    (ib = true -> bare rel req = false /\ covers rel (req_Episode req) = true))
    by (destruct (bare rel req); [done|split; intros; bool_prop; auto]).
  destruct (if bare rel req then _ else _) as [st ib]. destruct H0 as [Hst Hib].
  destruct (Z.ltb_spec 0 (Tvdb (Alias req))) as [Ht|Ht], (Z.ltb_spec 0 (Absolute (Alias req))) as [Ha|Ha];
    destruct (namesShow rel req || broadcast rel req), (names rel req); cbn [andb] in Hn; injection Hn as <- <-;
    (split; [intros Hs; rewrite ?orb_true_iff, ?Z.eqb_eq in Hs; intuition lia|
             intros Hs; rewrite ?orb_true_iff in Hs; intuition eauto 10]).
Qed.

(** A release that verifies for an episode names it under one of the counts the
    entry's releases use, or is a batch that covers one of them, or names none. *)
Lemma verified_numbers rel req :
  verifies rel req = true -> 0 < req_Episode req ->
  (exists n, n ∈ numbersFor rel req) /\
  (Parse.Episode rel ∈ numbersFor rel req \/ (exists n, n ∈ numbersFor rel req /\ covers rel n = true) \/
   (Parse.Episode rel = 0 /\ Batch rel = false)).
Proof.
  intros Hv He. unfold verifies in Hv. destruct (marked rel req) as [own sibling].
  destruct (sibling && negb own); [done|]. destruct ((0 <? req_Part req) && _ && _); [done|].
  rewrite (proj2 (Z.ltb_lt 0 (req_Episode req)) He) in Hv. cbn [andb] in Hv.
  destruct (numbered rel req) as [stated inBatch] eqn:En. apply numbered_spec in En as [Hs Hb].
  destruct stated; [split; [eexists; by apply Hs|left; by apply Hs]|].
  destruct inBatch; [destruct (Hb eq_refl) as (n & Hn & Hc); split; [by exists n|right; left; by exists n]|].
  destruct (negb false && negb false && negb _) eqn:Eu; [done|]. cbn [negb andb] in Eu. apply negb_false_iff in Eu.
  apply andb_true_iff in Eu as [[[Hep Hba]%andb_true_iff Hl]%andb_true_iff _]. bool_prop. apply Nat.ltb_lt in Hl.
  split; [|right; right; done]. destruct (numbersFor rel req) as [|n l]; [simpl in Hl; lia|]. exists n. by left.
Qed.

(** A release that verifies is not demonstrably another episode: it names the one
    asked for under a count this entry's releases use, or is a batch that may hold it,
    or states none; its stated part is the entry's; it is not named for a sibling cour
    alone; and a stated season above the first is the entry's own, except the one TheTVDB
    files a later cour under, or the franchise's count for an entry that states none. *)
Theorem verifies_spec rel req :
  verifies rel req = true ->
  (0 < req_Episode req ->
   Parse.Episode rel ∈ numbersFor rel req \/ (exists n, n ∈ numbersFor rel req /\ covers rel n = true) \/
   (Parse.Episode rel = 0 /\ Batch rel = false /\ numbersFor rel req <> [])) /\
  (0 < req_Part req -> 0 < Part rel -> Part rel = req_Part req) /\
  ((marked rel req).2 = true -> (marked rel req).1 = true) /\
  (let by_tvdb := req_Episode req < Tvdb (Alias req) /\ Parse.Episode rel = Tvdb (Alias req) /\ broadcast rel req = true in
   (1 < req_Season req -> 0 < Season rel -> Season rel = req_Season req \/ by_tvdb) /\
   (req_Season req = 1 -> 1 < Season rel -> Season rel = Counted req \/ by_tvdb)).
Proof.
  intros Hv. split; [|split; [|split]].
  - intros He. destruct (verified_numbers rel req Hv He) as [[n Hn] [?|[?|[? ?]]]]; auto.
    right. right. split; [done|]. split; [done|]. intros E. rewrite E in Hn. by apply not_elem_of_nil in Hn.
  - intros Hp Hr. unfold verifies in Hv. destruct (marked rel req). destruct (_ && negb _); [done|].
    destruct (Z.eqb_spec (Part rel) (req_Part req)); [done|].
    by rewrite (proj2 (Z.ltb_lt _ _) Hp), (proj2 (Z.ltb_lt _ _) Hr) in Hv.
  - unfold verifies in Hv. destruct (marked rel req) as [[] []]; [done..|discriminate|done].
  - unfold verifies in Hv. destruct (marked rel req). destruct (_ && negb _); [done|].
    destruct ((0 <? req_Part req) && _ && _); [done|]. destruct ((0 <? req_Episode req) && _); [done|].
    destruct ((req_Episode req <? Tvdb (Alias req)) && _ && _) eqn:Et.
    { apply andb_true_iff in Et as [[Et1 Et2]%andb_true_iff Et3]. bool_prop. split; intros; right; done. }
    split; intros Hrs Hs; left.
    + destruct (Z.eqb_spec (Season rel) (req_Season req)); [done|].
      by rewrite (proj2 (Z.ltb_lt _ _) Hrs), (proj2 (Z.ltb_lt _ _) Hs) in Hv.
    + destruct ((1 <? req_Season req) && _ && _); [done|]. destruct ((0 <? numeralSeason rel req) && _); [done|].
      rewrite Hrs, (proj2 (Z.ltb_lt _ _) Hs) in Hv. rewrite (proj2 (Z.eqb_neq (Season rel) 1)) in Hv by lia.
      cbn in Hv. destruct (Z.eqb_spec (Season rel) (Counted req)); [done|discriminate].
Qed.

(** Verifying a release and picking its file compose: of a release that verifies for
    an episode, the file that is played is a video, no extra, and its name states one of
    the counts the entry's releases use for that episode, or it is the only video, unnumbered, of
    a release for the first. *)
Theorem verified_file rel req files i :
  verifies rel req = true -> 0 < req_Episode req ->
  PickNumbered files (req_Episode req) (numbersFor rel req) = Some i ->
  i ∈ episodes_of files /\
  (episode_at files i ∈ numbersFor rel req \/
   (episodes_of files = [i] /\ episode_at files i = 0 /\ req_Episode req = 1)).
Proof.
  intros Hv He Hp. destruct (verified_numbers rel req Hv He) as [[n Hn] _].
  assert (Hpos : exists n, n ∈ numbersFor rel req /\ 0 < n).
  { exists n. split; [done|]. apply numbersFor_elem in Hn as [[_ ->]|[]]; done. }
  pose proof (picked files (req_Episode req) (numbersFor rel req) He Hpos) as Hpk. rewrite Hp in Hpk.
  destruct Hpk as [Hin [(Hnum & _)|(Hone & Hz & Hle)]]; (split; [done|]); [by left|right]. split; [done|]. split; [done|]. lia.
Qed.

(** ** The counts *)

Section counts.
Context (franchise : Z -> option (list Season_)) (titles_of : Z -> list string).

(** The series before an entry in its show's order. *)
Fixpoint earlier (animeID : Z) (l : list Season_) : list Season_ :=
  match l with
  | [] => []
  | s :: l' => if s_ID s =? animeID then [] else (if is_series (Format s) then [s] else []) ++ earlier animeID l'
  end.

Definition total (s : Season_) : Z := default 0 (Episodes s).
Definition sum_from (z : Z) (l : list Season_) : Z := foldl (fun acc s => i64_add acc (total s)) z l.
Definition under (bases : gset string) (s : Season_) : bool := namedBy bases (titles_of (s_ID s) ++ [Romaji s]).

Lemma count_through_spec bases animeID l absolute run counted split a r sp :
  count_through titles_of bases animeID l absolute run counted split = Some (a, r, sp) ->
  Forall (fun s => 0 < total s) (earlier animeID l) /\ a = sum_from absolute (earlier animeID l) /\
  (sp = false -> split = false /\ exists others own, earlier animeID l = others ++ own /\
     Forall (fun s => under bases s = false) others /\ Forall (fun s => under bases s = true) own /\
     (counted = true -> others = []) /\ r = sum_from (match others with [] => run | _ => 0 end) own).
Proof.
  revert absolute run counted split. induction l as [|s l IH]; intros absolute run counted split; simpl.
  { intros [= <- <- <-]. split; [constructor|]. split; [done|]. intros ->. split; [done|]. by exists [], []. }
  destruct (s_ID s =? animeID).
  { intros [= <- <- <-]. split; [constructor|]. split; [done|]. intros ->. split; [done|]. by exists [], []. }
  destruct (is_series (Format s)); cbn [negb]; [|simpl; apply IH].
  destruct (Episodes s) as [e|] eqn:Ee; [|done]. destruct (Z.leb_spec e 0); [done|].
  assert (Ht : total s = e) by (unfold total; by rewrite Ee). fold (under bases s). cbn [app].
  destruct (under bases s) eqn:Eu; intros Hc; apply IH in Hc as (Hall & Ha & Hs).
  - split; [constructor; [lia|done]|]. split; [by rewrite Ha; unfold sum_from; simpl; rewrite Ht|].
    intros Hsp. destruct (Hs Hsp) as (Hsplit & others & own & He & Ho & Hn & Hcnt & Hr). split; [done|].
    rewrite (Hcnt eq_refl) in *. exists [], (s :: own). simpl in *. rewrite He. split; [done|]. split; [done|].
    split; [by constructor|]. split; [done|]. rewrite Hr. unfold sum_from. simpl. by rewrite Ht.
  - split; [constructor; [lia|done]|]. split; [by rewrite Ha; unfold sum_from; simpl; rewrite Ht|].
    intros Hsp. destruct (Hs Hsp) as (Hsplit & others & own & He & Ho & Hn & _ & Hr).
    apply orb_false_iff in Hsplit as [Hsplit Hcounted]. split; [done|].
    exists (s :: others), own. rewrite He. split; [done|]. split; [by constructor|]. split; [done|].
    split; [congruence|]. by destruct others.
Qed.

(** The counts worked out for an episode come from known totals.  The absolute
    one is the episode plus the totals of every earlier series of the show, all of them
    known; TheTVDB's is the episode plus the totals of the earlier series of the same
    name, which are then the ones right before it; an unknown total, or the same name
    on both sides of another, gives none. *)
Theorem derivedAlias_spec req titles english al :
  derivedAlias franchise titles_of req titles english = al ->
  (Absolute al <> 0 \/ Tvdb al <> 0 ->
   0 < req_Episode req /\ exists seasons, franchise (req_AnimeID req) = Some seasons /\
     let before := earlier (req_AnimeID req) seasons in
     Forall (fun s => 0 < total s) before /\
     (Absolute al <> 0 -> Absolute al = i64_add (sum_from 0 before) (req_Episode req)) /\
     (Tvdb al <> 0 -> exists others own, before = others ++ own /\
        Forall (fun s => under (bases_of (english :: titles)) s = false) others /\
        Forall (fun s => under (bases_of (english :: titles)) s = true) own /\
        Tvdb al = i64_add (sum_from 0 own) (req_Episode req))).
Proof.
  intros <-. unfold derivedAlias. destruct (Z.leb_spec (req_Episode req) 0); [by intros [|]|].
  destruct (franchise (req_AnimeID req)) as [seasons|]; [|by intros [|]]. destruct (length seasons <? 2)%nat; [by intros [|]|].
  destruct (count_through _ _ _ _ _ _ _ _) as [[[a r] sp]|] eqn:Ec; [|by intros [|]].
  apply count_through_spec in Ec as (Hall & Ha & Hs). intros _. split; [done|]. exists seasons. split; [done|].
  split; [done|]. split; simpl.
  - destruct (0 <? a); [|done]. intros _. by rewrite Ha.
  - destruct ((0 <? r) && negb sp) eqn:E; [|done]. intros _. apply andb_true_iff in E as [_ Esp%negb_true_iff].
    destruct (Hs Esp) as (_ & others & own & He & Ho & Hn & _ & Hr). exists others, own. split; [done|]. split; [done|].
    split; [done|]. rewrite Hr. by destruct others.
Qed.
End counts.
End Episode.

(** ** A show in two parts *)

Definition part_one : Season_ := mkSeason 1 1 "Show" None (Some 12) (Some "TV").
Definition part_two : Season_ := mkSeason 2 2 "Show Part 2" None (Some 12) (Some "TV").

Definition parts (_ : Z) : option (list Season_) := Some [part_one; part_two].
Definition part_titles (id : Z) : list string := if id =? 1 then ["Show"] else ["Show Part 2"].

Definition asks (episode : Z) : Request :=
  @numbering ascii_unicode parts part_titles no_alias
    (mkRequest 2 episode 0 no_alias 0 [] 0 (mkCour [] [] false [])) ["Show Part 2"] "".

(** The second part's second episode is the show's fourteenth. *)
Lemma derivedAlias_spec_witness :
  let al := @derivedAlias ascii_unicode parts part_titles (asks 2) ["Show Part 2"] "" in
  al = mkAlias 14 14 false false /\
  exists seasons, parts 2 = Some seasons /\ Absolute al = i64_add (sum_from 0 (@earlier ascii_unicode 2 seasons)) 2.
Proof.
  split; [vm_compute; reflexivity|].
  destruct (@derivedAlias_spec ascii_unicode parts part_titles (asks 2) ["Show Part 2"] "" _ eq_refl) as (_ & seasons & Hs & _ & Ha & _).
  - left. vm_compute. discriminate.
  - exists seasons. split; [exact Hs|]. apply Ha. vm_compute. discriminate.
Defined.

Definition counted_on : Release := @Parse ascii_unicode "[Group] Show - 14 [1080p].mkv".
Definition whole_show : Release := @Parse ascii_unicode "[Group] Show (01-24) [1080p] [Batch]".

(** Released as the fourteenth, it verifies as the second part's second. *)
Lemma verifies_spec_witness :
  @verifies ascii_unicode counted_on (asks 2) = true /\
  (Parse.Episode counted_on ∈ @numbersFor ascii_unicode counted_on (asks 2) \/
   (exists n, n ∈ @numbersFor ascii_unicode counted_on (asks 2) /\ covers counted_on n = true) \/
   (Parse.Episode counted_on = 0 /\ Batch counted_on = false /\ @numbersFor ascii_unicode counted_on (asks 2) <> [])).
Proof.
  assert (Hv : @verifies ascii_unicode counted_on (asks 2) = true) by (vm_compute; reflexivity).
  split; [exact Hv|]. destruct (@verifies_spec ascii_unicode counted_on (asks 2) Hv) as (He & _). apply He. reflexivity.
Defined.

Definition show_files : list PackFile :=
  [mkPackFile "Show - 01.mkv" 1400; mkPackFile "Show - 02.mkv" 1350; mkPackFile "Show - 14.mkv" 1380;
   mkPackFile "Extras/Show - 14 NCOP.mkv" 1500].

(** Of the whole show's pack, file three of four. *)
Lemma verified_file_witness :
  @PickNumbered ascii_unicode show_files 2 (@numbersFor ascii_unicode whole_show (asks 2)) = Some 2%nat /\
  @episode_at ascii_unicode show_files 2 ∈ @numbersFor ascii_unicode whole_show (asks 2).
Proof.
  assert (Hp : @PickNumbered ascii_unicode show_files (req_Episode (asks 2)) (@numbersFor ascii_unicode whole_show (asks 2)) = Some 2%nat)
    by (vm_compute; reflexivity).
  split; [exact Hp|].
  destruct (@verified_file ascii_unicode whole_show (asks 2) show_files 2) as [_ [Hn|(Hx & _)]].
  - vm_compute. reflexivity.
  - reflexivity.
  - exact Hp.
  - exact Hn.
  - vm_compute in Hx. discriminate.
Defined.
