(* ===== verification/Wire.v ===== *)
(** * Messages between peers: internal/bt/peer_protocol (msg.go, decoder.go, int.go, protocol.go)

    A message is a length, a type and fields the type decides, in big-endian bytes.
    The encoder measures the payload first and writes it second; the decoder reads
    from the connection through a reader limited to the length.  Bytes are numbers from 0
    to 255; a connection is the bytes that are still to come. *)
From stdpp Require Import base list.
From Stdlib Require Import ZArith Lia.
From S2P Require Import Prelude.

Abbreviation bytes := (list Z).

Inductive MessageType :=
  | Choke | Unchoke | Interested | NotInterested | Have | Bitfield_ | Request | Piece_ | Cancel
  | Port_
  | Suggest | HaveAll | HaveNone | Reject | AllowedFast
  | Extended
  | HashRequest | Hashes_ | HashReject
  | Other (code : Z).

Definition type_byte (t : MessageType) : Z :=
  match t with
  | Choke => 0 | Unchoke => 1 | Interested => 2 | NotInterested => 3 | Have => 4 | Bitfield_ => 5 | Request => 6
  | Piece_ => 7 | Cancel => 8 | Port_ => 9 | Suggest => 13 | HaveAll => 14 | HaveNone => 15 | Reject => 16
  | AllowedFast => 17 | Extended => 20 | HashRequest => 21 | Hashes_ => 22 | HashReject => 23
  | Other code => code
  end.

Definition known_types : list MessageType :=
  [Choke; Unchoke; Interested; NotInterested; Have; Bitfield_; Request; Piece_; Cancel; Port_; Suggest; HaveAll;
   HaveNone; Reject; AllowedFast; Extended; HashRequest; Hashes_; HashReject].

Definition type_of (c : Z) : MessageType :=
  match List.find (fun t => type_byte t =? c) known_types with Some t => t | None => Other c end.

(** The union of every type's fields. *)
Record Message := mkMessage {
  PiecesRoot : bytes; Piece : bytes; Bitfield : list bool; ExtendedPayload : bytes; Hashes : list bytes;
  Index : Z; Begin : Z; Length : Z; BaseLayer : Z; ProofLayers : Z; Port : Z;
  Type_ : MessageType; ExtendedID : Z; Keepalive : bool;
}.

Definition no_hash : bytes := replicate 32 0.

Definition empty_message : Message := mkMessage no_hash [] [] [] [] 0 0 0 0 0 0 Choke 0 false.

(** ** Numbers *)

Definition be32 (n : Z) : bytes :=
  [Z.shiftr n 24 mod 256; Z.shiftr n 16 mod 256; Z.shiftr n 8 mod 256; n mod 256].

Definition be16 (n : Z) : bytes := [Z.shiftr n 8 mod 256; n mod 256].

Definition of_be (b : bytes) : Z := foldl (fun acc x => acc * 256 + x) 0 b.

(** ** Encoding *)

Definition set_bit (b : bytes) (i : nat) : bytes :=
  <[(i / 8)%nat := Z.lor (nth (i / 8) b 0) (Z.shiftl 1 (Z.of_nat (7 - i mod 8)))]> b.

Definition marshalBitfield (bf : list bool) : bytes :=
  foldl (fun b x => if x.2 : bool then set_bit b x.1 else b) (replicate ((length bf + 7) / 8) 0)
    (imap (fun i have => (i, have)) bf).

Definition hash_common (msg : Message) : bytes :=
  PiecesRoot msg ++ be32 (BaseLayer msg) ++ be32 (Index msg) ++ be32 (Length msg) ++ be32 (ProofLayers msg).

(** The switch of [writePayloadTo]: [None] is the error of an unknown type. *)
Definition fields (msg : Message) : option bytes :=
  match Type_ msg with
  | Choke | Unchoke | Interested | NotInterested | HaveAll | HaveNone => Some []
  | Have | AllowedFast | Suggest => Some (be32 (Index msg))
  | Request | Cancel | Reject => Some (be32 (Index msg) ++ be32 (Begin msg) ++ be32 (Length msg))
  | Bitfield_ => Some (marshalBitfield (Bitfield msg))
  | Piece_ => Some (be32 (Index msg) ++ be32 (Begin msg) ++ Piece msg)
  | Extended => Some (ExtendedID msg :: ExtendedPayload msg)
  | Port_ => Some (be16 (Port msg))
  | HashRequest | HashReject => Some (hash_common msg)
  | Hashes_ => Some (hash_common msg ++ concat (Hashes msg))
  | Other _ => None
  end.

Definition payload (msg : Message) : option bytes :=
  if Keepalive msg then Some [] else option_map (fun f => type_byte (Type_ msg) :: f) (fields msg).

(** The length is counted in 32 bits. *)
Definition MarshalBinary (msg : Message) : option bytes :=
  option_map (fun p => be32 (Z.of_nat (length p) mod 2 ^ 32) ++ p) (payload msg).

(** ** Decoding *)

Inductive error := EOF | UnexpectedEOF | TooLong | Unused | PieceTooLong | Unhandled.

(** The limited reader: how much of the message is unread, and the connection. *)
Definition reader : Type := Z * bytes.

(** [io.ReadFull] of [k] bytes through [expectReader]. *)
Definition ReadFull (k : Z) (r : reader) : result error (bytes * reader) :=
  if (k <=? r.1) && (k <=? Z.of_nat (length r.2))
  then Ok (take (Z.to_nat k) r.2, (r.1 - k, drop (Z.to_nat k) r.2)) else Err UnexpectedEOF.

Notation "'let*' ( x , r ) := e 'in' f" :=
  (match e with Ok (x, r) => f | Err err => Err err end) (at level 200, x pattern, r name, e at level 100, f at level 200).

Definition ReadInteger (r : reader) : result error (Z * reader) :=
  let* (b, r) := ReadFull 4 r in Ok (of_be b, r).

Definition unmarshalBitfield (b : bytes) : list bool :=
  concat (map (fun c => map (fun i => Z.land (Z.shiftr c i) 1 =? 1) [7; 6; 5; 4; 3; 2; 1; 0]) b).

Definition set_index (m : Message) (i b l : Z) : Message :=
  mkMessage (PiecesRoot m) (Piece m) (Bitfield m) (ExtendedPayload m) (Hashes m) i b l (BaseLayer m) (ProofLayers m) (Port m)
    (Type_ m) (ExtendedID m) (Keepalive m).
Definition set_bitfield (m : Message) (bf : list bool) : Message :=
  mkMessage (PiecesRoot m) (Piece m) bf (ExtendedPayload m) (Hashes m) (Index m) (Begin m) (Length m) (BaseLayer m)
    (ProofLayers m) (Port m) (Type_ m) (ExtendedID m) (Keepalive m).
Definition set_piece (m : Message) (p : bytes) : Message :=
  mkMessage (PiecesRoot m) p (Bitfield m) (ExtendedPayload m) (Hashes m) (Index m) (Begin m) (Length m) (BaseLayer m)
    (ProofLayers m) (Port m) (Type_ m) (ExtendedID m) (Keepalive m).
Definition set_extended (m : Message) (id : Z) (p : bytes) : Message :=
  mkMessage (PiecesRoot m) (Piece m) (Bitfield m) p (Hashes m) (Index m) (Begin m) (Length m) (BaseLayer m)
    (ProofLayers m) (Port m) (Type_ m) id (Keepalive m).
Definition set_port (m : Message) (p : Z) : Message :=
  mkMessage (PiecesRoot m) (Piece m) (Bitfield m) (ExtendedPayload m) (Hashes m) (Index m) (Begin m) (Length m) (BaseLayer m)
    (ProofLayers m) p (Type_ m) (ExtendedID m) (Keepalive m).
Definition set_request (m : Message) (root : bytes) (base i l proof : Z) : Message :=
  mkMessage root (Piece m) (Bitfield m) (ExtendedPayload m) (Hashes m) i (Begin m) l base proof (Port m)
    (Type_ m) (ExtendedID m) (Keepalive m).
Definition set_hashes (m : Message) (hs : list bytes) : Message :=
  mkMessage (PiecesRoot m) (Piece m) (Bitfield m) (ExtendedPayload m) hs (Index m) (Begin m) (Length m) (BaseLayer m)
    (ProofLayers m) (Port m) (Type_ m) (ExtendedID m) (Keepalive m).
Definition set_type (m : Message) (t : MessageType) : Message :=
  mkMessage (PiecesRoot m) (Piece m) (Bitfield m) (ExtendedPayload m) (Hashes m) (Index m) (Begin m) (Length m) (BaseLayer m)
    (ProofLayers m) (Port m) t (ExtendedID m) (Keepalive m).
Definition set_keepalive (m : Message) : Message :=
  mkMessage (PiecesRoot m) (Piece m) (Bitfield m) (ExtendedPayload m) (Hashes m) (Index m) (Begin m) (Length m) (BaseLayer m)
    (ProofLayers m) (Port m) (Type_ m) (ExtendedID m) true.

Definition readHashRequest (m : Message) (r : reader) : result error (Message * reader) :=
  let* (root, r) := ReadFull 32 r in
  let* (base, r) := ReadInteger r in
  let* (i, r) := ReadInteger r in
  let* (l, r) := ReadInteger r in
  let* (proof, r) := ReadInteger r in
  Ok (set_request m root base i l proof, r).

Fixpoint read_hashes (n : nat) (r : reader) : result error (list bytes * reader) :=
  match n with
  | O => Ok ([], r)
  | S n' => let* (h, r) := ReadFull 32 r in let* (hs, r) := read_hashes n' r in Ok (h :: hs, r)
  end.

(** [pool] is the capacity of the pool's slices, if there is a pool. *)
Definition readMessageAfterType (pool : option Z) (m : Message) (r : reader) : result error (Message * reader) :=
  match Type_ m with
  | Choke | Unchoke | Interested | NotInterested | HaveAll | HaveNone => Ok (m, r)
  | Have | AllowedFast | Suggest => let* (i, r) := ReadInteger r in Ok (set_index m i (Begin m) (Length m), r)
  | Request | Cancel | Reject =>
      let* (i, r) := ReadInteger r in
      let* (b, r) := ReadInteger r in
      let* (l, r) := ReadInteger r in
      Ok (set_index m i b l, r)
  | Bitfield_ => let* (b, r) := ReadFull r.1 r in Ok (set_bitfield m (unmarshalBitfield b), r)
  | Piece_ =>
      let* (i, r) := ReadInteger r in
      let* (b, r) := ReadInteger r in
      if match pool with Some cap => cap <? r.1 | None => false end then Err PieceTooLong
      else let* (p, r) := ReadFull r.1 r in Ok (set_piece (set_index m i b (Length m)) p, r)
  | Extended =>
      let* (id, r) := ReadFull 1 r in
      let* (p, r) := ReadFull r.1 r in
      Ok (set_extended m (of_be id) p, r)
  | Port_ => let* (p, r) := ReadFull 2 r in Ok (set_port m (of_be p), r)
  | HashRequest | HashReject => readHashRequest m r
  | Hashes_ =>
      let* (m, r) := readHashRequest m r in
      let* (hs, r) := read_hashes (Z.to_nat ((r.1 + 31) / 32)) r in
      Ok (set_hashes m hs, r)
  | Other _ => Err Unhandled
  end.

(** [Decode]: the message and what is left of the connection. *)
Definition Decode (MaxLength : Z) (pool : option Z) (m : Message) (conn : bytes) : result error (Message * bytes) :=
  match conn with
  | [] => Err EOF
  | _ =>
      if (length conn <? 4)%nat then Err UnexpectedEOF
      else
        let len := of_be (take 4 conn) in
        let conn := drop 4 conn in
        if MaxLength <? len then Err TooLong
        else if len =? 0 then Ok (set_keepalive m, conn)
        else
          let* (c, r) := ReadFull 1 (len, conn) in
          let* (m, r) := readMessageAfterType pool (set_type m (type_of (of_be c))) r in
          if r.1 =? 0 then Ok (m, r.2) else Err Unused
  end.

(** [UnmarshalBinary]: a decoder with no maximum set, which is a maximum of zero;
    [None] is an error. *)
Definition UnmarshalBinary (m : Message) (b : bytes) : option Message :=
  match Decode 0 None m b with
  | Ok (m, []) => Some m
  | _ => None
  end.

(** ** Bytes *)

Definition is_byte (b : Z) : Prop := 0 <= b < 256.
Definition u32 (n : Z) : Prop := 0 <= n < 2 ^ 32.

Lemma be32_of n : u32 n -> of_be (be32 n) = n.
Proof. unfold u32, of_be, be32. intros Hn. simpl. rewrite !Z.shiftr_div_pow2 by lia. Z.to_euclidean_division_equations. lia. Qed.

Lemma of_be32 b : length b = 4%nat -> Forall is_byte b -> be32 (of_be b) = b /\ u32 (of_be b).
Proof.
  destruct b as [|w [|x [|y [|z [|]]]]]; try done. intros _ Hb.
  repeat (apply Forall_cons in Hb as [? Hb]). unfold is_byte, u32, be32, of_be in *. simpl. rewrite !Z.shiftr_div_pow2 by lia.
  split; [|lia]. repeat f_equal; Z.to_euclidean_division_equations; lia.
Qed.

Lemma be16_of n : 0 <= n < 2 ^ 16 -> of_be (be16 n) = n.
Proof. unfold of_be, be16. intros Hn. simpl. rewrite !Z.shiftr_div_pow2 by lia. Z.to_euclidean_division_equations. lia. Qed.

Lemma of_be16 b : length b = 2%nat -> Forall is_byte b -> be16 (of_be b) = b /\ 0 <= of_be b < 2 ^ 16.
Proof.
  destruct b as [|y [|z [|]]]; try done. intros _ Hb.
  repeat (apply Forall_cons in Hb as [? Hb]). unfold is_byte, be16, of_be in *. simpl. rewrite !Z.shiftr_div_pow2 by lia.
  split; [|lia]. repeat f_equal; Z.to_euclidean_division_equations; lia.
Qed.

(** ** Bit fields *)

Definition byte_bits (c : Z) : list bool := map (fun i => Z.land (Z.shiftr c i) 1 =? 1) [7; 6; 5; 4; 3; 2; 1; 0].

Definition bits_byte (l : list bool) : Z :=
  foldl (fun c x => if x.2 : bool then Z.lor c (Z.shiftl 1 (Z.of_nat (7 - x.1))) else c) 0 (imap (fun i b => (i, b)) l).

Lemma byte_bits_byte c : is_byte c -> bits_byte (byte_bits c) = c.
Proof.
  intros Hc. assert (forallb (fun n => bits_byte (byte_bits (Z.of_nat n)) =? Z.of_nat n) (seq 0 256) = true) as Hall
    by (vm_compute; reflexivity).
  rewrite forallb_forall in Hall. specialize (Hall (Z.to_nat c)). unfold is_byte in Hc.
  rewrite Z2Nat.id in Hall by lia. apply Z.eqb_eq, Hall, in_seq. lia.
Qed.

Lemma bits_byte_bits l : length l = 8%nat -> byte_bits (bits_byte l) = l /\ is_byte (bits_byte l).
Proof.
  destruct l as [|a [|b [|c [|d [|e [|f [|g [|h [|]]]]]]]]]; try done. intros _. unfold is_byte.
  destruct a, b, c, d, e, f, g, h; vm_compute; (split; [reflexivity|split; discriminate || reflexivity]).
Qed.

Lemma set_bit_skip c b i : set_bit (c :: b) (8 + i) = c :: set_bit b i.
Proof.
  unfold set_bit. replace (8 + i)%nat with (i + 1 * 8)%nat by lia.
  rewrite Nat.div_add, Nat.Div0.mod_add by lia. replace (i / 8 + 1)%nat with (S (i / 8)) by lia.
  done.
Qed.

Lemma set_bits_skip c (ps : list (nat * bool)) : forall b,
  foldl (fun b x => if x.2 : bool then set_bit b x.1 else b) (c :: b) ((fun x => ((8 + x.1)%nat, x.2)) <$> ps)
  = c :: foldl (fun b x => if x.2 : bool then set_bit b x.1 else b) b ps.
Proof.
  induction ps as [|[i v] ps IH]; intros b; [done|]. cbn [fmap list_fmap foldl fst snd].
  destruct v; [rewrite set_bit_skip|]; apply IH.
Qed.

(** The first eight bits make the first byte, the rest the rest. *)
Lemma marshal_step l bf : length l = 8%nat -> marshalBitfield (l ++ bf) = bits_byte l :: marshalBitfield bf.
Proof.
  intros Hl. unfold marshalBitfield. rewrite imap_app, foldl_app, length_app, Hl.
  replace ((8 + length bf + 7) / 8)%nat with (S ((length bf + 7) / 8))
    by (replace (8 + length bf + 7)%nat with (length bf + 7 + 1 * 8)%nat by lia; rewrite Nat.div_add by lia; lia).
  cbn [replicate]. set (tl := replicate _ 0).
  assert (foldl (fun b x => if x.2 : bool then set_bit b x.1 else b) (0 :: tl) (imap (fun i have => (i, have)) l) = bits_byte l :: tl)
    as ->.
  { destruct l as [|a [|b [|c [|d [|e [|f [|g [|h [|]]]]]]]]]; try done. by destruct a, b, c, d, e, f, g, h. }
  rewrite <- (set_bits_skip _ (imap (fun i have => (i, have)) bf)). f_equal.
  by rewrite fmap_imap.
Qed.

Lemma unmarshal_step c b : unmarshalBitfield (c :: b) = byte_bits c ++ unmarshalBitfield b.
Proof. reflexivity. Qed.

Lemma unmarshal_marshal n : forall bf, length bf = (8 * n)%nat -> unmarshalBitfield (marshalBitfield bf) = bf.
Proof.
  induction n as [|n IH]; intros bf Hbf; [by destruct bf|].
  rewrite <- (take_drop 8 bf). rewrite marshal_step by (rewrite length_take; lia).
  rewrite unmarshal_step, (proj1 (bits_byte_bits (take 8 bf) ltac:(rewrite length_take; lia))). f_equal. apply IH. rewrite length_drop. lia.
Qed.

Lemma marshal_unmarshal b : Forall is_byte b -> marshalBitfield (unmarshalBitfield b) = b.
Proof.
  induction 1 as [|c b Hc _ IH]; [done|]. rewrite unmarshal_step, marshal_step by done. by rewrite byte_bits_byte, IH.
Qed.

Lemma unmarshal_length b : length (unmarshalBitfield b) = (8 * length b)%nat.
Proof. induction b as [|c b IH]; [done|]. rewrite unmarshal_step, length_app, IH. simpl. lia. Qed.

Lemma marshal_bytes n : forall bf, length bf = (8 * n)%nat -> Forall is_byte (marshalBitfield bf).
Proof.
  induction n as [|n IH]; intros bf Hbf; [by destruct bf|].
  rewrite <- (take_drop 8 bf), marshal_step by (rewrite length_take; lia).
  constructor; [apply bits_byte_bits; rewrite length_take; lia|]. apply IH. rewrite length_drop. lia.
Qed.

(** ** Reading *)

Lemma ReadFull_app b n rest k : Z.of_nat (length b) = k -> k <= n -> ReadFull k (n, b ++ rest) = Ok (b, (n - k, rest)).
Proof.
  intros Hk Hn. unfold ReadFull. cbn [fst snd]. rewrite (proj2 (Z.leb_le k n)) by done.
  rewrite (proj2 (Z.leb_le _ _)) by (rewrite length_app; lia). rewrite <- Hk, Nat2Z.id.
  cbn [andb]. by rewrite take_app_length, drop_app_length.
Qed.

Lemma ReadFull_inv k n conn b r :
  0 <= k -> ReadFull k (n, conn) = Ok (b, r) -> Z.of_nat (length b) = k /\ r.1 = n - k /\ k <= n /\ conn = b ++ r.2.
Proof.
  unfold ReadFull. cbn [fst snd]. intros Hk. destruct (k <=? n) eqn:Hn; [|done].
  destruct (k <=? Z.of_nat (length conn)) eqn:Hc; [|done]. apply Z.leb_le in Hn, Hc.
  intros [= <- <-]. cbn [fst snd]. rewrite length_take, take_drop. split_and!; [lia|done..].
Qed.

Lemma ReadInteger_be32 i n rest : u32 i -> 4 <= n -> ReadInteger (n, be32 i ++ rest) = Ok (i, (n - 4, rest)).
Proof. intros Hi Hn. unfold ReadInteger. rewrite (ReadFull_app (be32 i)) by done. by rewrite be32_of. Qed.

Lemma ReadInteger_inv n conn i r :
  Forall is_byte conn -> ReadInteger (n, conn) = Ok (i, r) ->
  u32 i /\ r.1 = n - 4 /\ 4 <= n /\ conn = be32 i ++ r.2 /\ Forall is_byte r.2.
Proof.
  unfold ReadInteger. intros Hb. destruct (ReadFull 4 (n, conn)) as [[b r']|] eqn:Hr; [|done]. intros [= <- <-].
  apply ReadFull_inv in Hr as (Hl & Hn & Hle & ->); [|lia]. apply Forall_app in Hb as [Hb Hrest].
  destruct (of_be32 b) as [-> Hu]; [lia|done|]. done.
Qed.

Lemma read_hashes_app hs : forall n rest, Forall (fun h => length h = 32%nat) hs -> Z.of_nat (32 * length hs) <= n ->
  read_hashes (length hs) (n, concat hs ++ rest) = Ok (hs, (n - Z.of_nat (32 * length hs), rest)).
Proof.
  induction hs as [|h hs IH]; intros n rest Hhs Hn; cbn [length read_hashes concat].
  - do 2 f_equal. cbn [app]. f_equal. lia.
  - apply Forall_cons in Hhs as [Hh Hhs]. cbn [length] in Hn. rewrite <- app_assoc, (ReadFull_app h) by lia.
    rewrite IH by (done || lia). do 3 f_equal. lia.
Qed.

Lemma read_hashes_inv k : forall n conn hs r, read_hashes k (n, conn) = Ok (hs, r) ->
  length hs = k /\ Forall (fun h => length h = 32%nat) hs /\ r.1 = n - Z.of_nat (32 * k) /\ conn = concat hs ++ r.2.
Proof.
  induction k as [|k IH]; intros n conn hs r; cbn [read_hashes].
  - intros [= <- <-]. cbn [fst snd concat app]. split_and!; [done|constructor|lia|done].
  - destruct (ReadFull 32 (n, conn)) as [[h [n' c']]|] eqn:Hh; [|done].
    apply ReadFull_inv in Hh as (Hl & Hn & _ & Hc); [|lia]. cbn [fst snd] in *.
    destruct (read_hashes k (n', c')) as [[hs' r']|] eqn:Hr; [|done]. intros [= <- <-].
    apply IH in Hr as (<- & Hhs & Hn' & Hc'). cbn [length concat]. rewrite Hc, Hc', app_assoc.
    split_and!; [done|constructor; [lia|done]|lia|done].
Qed.

(** ** What a message's type says *)

(** A message with nothing but its type's fields, each within its width: a bit field of
    whole bytes, hashes of 32 bytes. *)
Definition wire_form (m : Message) : Prop :=
  let e := set_type empty_message (Type_ m) in
  let h := set_request e (PiecesRoot m) (BaseLayer m) (Index m) (Length m) (ProofLayers m) in
  let in_hash := length (PiecesRoot m) = 32%nat /\ u32 (BaseLayer m) /\ u32 (Index m) /\ u32 (Length m) /\ u32 (ProofLayers m) in
  if Keepalive m then m = set_keepalive empty_message
  else match Type_ m with
  | Choke | Unchoke | Interested | NotInterested | HaveAll | HaveNone => m = e
  | Have | AllowedFast | Suggest => m = set_index e (Index m) 0 0 /\ u32 (Index m)
  | Request | Cancel | Reject =>
      m = set_index e (Index m) (Begin m) (Length m) /\ u32 (Index m) /\ u32 (Begin m) /\ u32 (Length m)
  | Bitfield_ => m = set_bitfield e (Bitfield m) /\ exists n, length (Bitfield m) = (8 * n)%nat
  | Piece_ => m = set_piece (set_index e (Index m) (Begin m) 0) (Piece m) /\ u32 (Index m) /\ u32 (Begin m)
  | Extended => m = set_extended e (ExtendedID m) (ExtendedPayload m) /\ is_byte (ExtendedID m)
  | Port_ => m = set_port e (Port m) /\ 0 <= Port m < 2 ^ 16
  | HashRequest | HashReject => m = h /\ in_hash
  | Hashes_ => m = set_hashes h (Hashes m) /\ in_hash /\ Forall (fun x => length x = 32%nat) (Hashes m)
  | Other _ => False
  end.

(** The pool's slices hold the message's data. *)
Definition pool_holds (pool : option Z) (m : Message) : Prop :=
  match pool with Some cap => Type_ m = Piece_ -> Z.of_nat (length (Piece m)) <= cap | None => True end.

Lemma type_of_known t : (forall c, t <> Other c) -> type_of (type_byte t) = t.
Proof. destruct t as [| | | | | | | | | | | | | | | | | | |c]; try reflexivity. intros H. by destruct (H c). Qed.

Lemma type_byte_of c : type_byte (type_of c) = c.
Proof.
  unfold type_of. destruct (List.find _ known_types) as [t|] eqn:Hf; [|done].
  apply List.find_some in Hf as [_ Hf]. by apply Z.eqb_eq.
Qed.

Lemma marshalBitfield_length n bf : length bf = (8 * n)%nat -> length (marshalBitfield bf) = n.
Proof. intros H. pose proof (unmarshal_length (marshalBitfield bf)) as Hl. rewrite (unmarshal_marshal n) in Hl by done. lia. Qed.

Lemma hash_common_length m : length (PiecesRoot m) = 32%nat -> length (hash_common m) = 48%nat.
Proof. unfold hash_common. rewrite !length_app. simpl. lia. Qed.

Lemma readHashRequest_app m0 m n rest :
  length (PiecesRoot m) = 32%nat -> u32 (BaseLayer m) -> u32 (Index m) -> u32 (Length m) -> u32 (ProofLayers m) -> 48 <= n ->
  readHashRequest m0 (n, hash_common m ++ rest)
  = Ok (set_request m0 (PiecesRoot m) (BaseLayer m) (Index m) (Length m) (ProofLayers m), (n - 48, rest)).
Proof.
  intros Hroot Hb Hi Hl Hp Hn. unfold readHashRequest, hash_common. rewrite <- !app_assoc.
  rewrite (ReadFull_app (PiecesRoot m)) by lia. rewrite !ReadInteger_be32 by (done || lia). do 3 f_equal. lia.
Qed.

Lemma concat_length (hs : list bytes) : Forall (fun h => length h = 32%nat) hs -> length (concat hs) = (32 * length hs)%nat.
Proof. induction 1 as [|h hs Hh _ IH]; [done|]. cbn [concat length]. rewrite length_app. lia. Qed.

(** What the encoder wrote after the type, the decoder reads, and stops at its end. *)
Lemma read_fields pool m f rest :
  wire_form m -> Keepalive m = false -> fields m = Some f -> pool_holds pool m ->
  readMessageAfterType pool (set_type empty_message (Type_ m)) (Z.of_nat (length f), f ++ rest) = Ok (m, (0, rest)).
Proof.
  unfold wire_form, fields, readMessageAfterType, pool_holds.
  destruct m as [root piece bf ext hs i b l base proof port t id k].
  cbn [Type_ set_type Keepalive Index Begin Length Bitfield Piece ExtendedID ExtendedPayload Port Hashes PiecesRoot BaseLayer ProofLayers].
  intros Hm -> Hf Hpool. destruct t; try done; apply (inj Some) in Hf as <-.
  all: try (injection Hm as -> -> -> -> -> -> -> -> -> -> -> ->; done).
  all: try (destruct Hm as [[= -> -> -> -> -> -> -> -> -> -> ->] Hi]; by rewrite (ReadInteger_be32 _ _ rest)).
  all: try (destruct Hm as ([= -> -> -> -> -> -> -> -> ->] & Hi & Hb & Hl); rewrite <- !app_assoc, !ReadInteger_be32 by done; done).
  all: try (destruct Hm as ([= -> -> -> -> -> -> ->] & Hr & Hb & Hi & Hl & Hp); rewrite readHashRequest_app;
    rewrite ?hash_common_length by done; done).
  - destruct Hm as [[= -> -> -> -> -> -> -> -> -> -> ->] [n Hn]]. cbn [fst]. rewrite ReadFull_app, Z.sub_diag by lia.
    by rewrite (unmarshal_marshal n).
  - destruct Hm as ([= -> -> -> -> -> -> -> -> ->] & Hi & Hb). rewrite <- !app_assoc, !length_app, !ReadInteger_be32 by (done || simpl; lia).
    cbn [fst]. replace (_ - 4 - 4) with (Z.of_nat (length piece)) by (simpl; lia).
    assert (match pool with Some cap => cap <? Z.of_nat (length piece) | None => false end = false) as ->.
    { destruct pool as [cap|]; [|done]. apply Z.ltb_ge. auto. }
    by rewrite ReadFull_app, Z.sub_diag by lia.
  - destruct Hm as [[= -> -> -> -> -> -> -> -> -> -> ->] Hp]. rewrite (ReadFull_app (be16 port)) by done. by rewrite be16_of.
  - destruct Hm as [[= -> -> -> -> -> -> -> -> -> ->] Hid]. change ((id :: ext) ++ rest) with ([id] ++ (ext ++ rest)).
    rewrite (ReadFull_app [id]) by (simpl; lia). cbn [fst length].
    replace (Z.of_nat (S _) - 1) with (Z.of_nat (length ext)) by lia. by rewrite ReadFull_app, Z.sub_diag by lia.
  - destruct Hm as ([= -> -> -> -> -> ->] & (Hr & Hb & Hi & Hl & Hp) & Hhs). rewrite <- app_assoc, length_app, hash_common_length by done.
    rewrite readHashRequest_app by (done || lia). cbn [fst]. rewrite concat_length by done.
    replace ((_ - 48 + 31) / 32) with (Z.of_nat (length hs)) by (Z.to_euclidean_division_equations; lia).
    rewrite Nat2Z.id, read_hashes_app by (done || lia). do 3 f_equal. lia.
Qed.

(** ** Round trips *)

(** Behind the length, the decoder reads a type and its fields, and wants nothing left over. *)
Lemma Decode_frame MaxLength pool m c f rest :
  Z.of_nat (S (length f)) <= MaxLength -> Z.of_nat (S (length f)) < 2 ^ 32 ->
  Decode MaxLength pool m (be32 (Z.of_nat (S (length f))) ++ (c :: f) ++ rest)
  = let* (m, r) := readMessageAfterType pool (set_type m (type_of c)) (Z.of_nat (length f), f ++ rest) in
    if r.1 =? 0 then Ok (m, r.2) else Err Unused.
Proof.
  intros Hmax Hu. unfold Decode. set (n := Z.of_nat (S (length f))) in *.
  change (take 4 (be32 n ++ (c :: f) ++ rest)) with (be32 n). rewrite be32_of by (unfold u32; lia).
  change (drop 4 (be32 n ++ (c :: f) ++ rest)) with ([c] ++ (f ++ rest)).
  change (be32 n ++ (c :: f) ++ rest) with (Z.shiftr n 24 mod 256 :: Z.shiftr n 16 mod 256 :: Z.shiftr n 8 mod 256 :: n mod 256 :: c :: f ++ rest).
  cbn [length Nat.ltb Nat.leb]. rewrite (proj2 (Z.ltb_ge _ _)) by lia. rewrite (proj2 (Z.eqb_neq n 0)) by lia.
  rewrite (ReadFull_app [c]) by (simpl; lia). replace (n - 1) with (Z.of_nat (length f)) by lia.
  by replace (of_be [c]) with c by (unfold of_be; simpl; lia).
Qed.

Lemma wire_known m : wire_form m -> Keepalive m = false -> type_of (type_byte (Type_ m)) = Type_ m.
Proof. unfold wire_form. intros Hm Hk. rewrite Hk in Hm. apply type_of_known. intros c Hc. by rewrite Hc in Hm. Qed.

(** C14: A message put on a connection comes off it: every message whose fields are those of its type, encoded,
    is decoded to the same message by a fresh decoder whose maximum and pool allow its length,
    and what follows it on the connection is untouched, for every type the code knows and for a
    keepalive. *)
Theorem decode_encode MaxLength pool m b rest (Hm : wire_form m) (Hb : MarshalBinary m = Some b)
  (Hmax : Z.of_nat (length b) <= MaxLength + 4) (Hu : 0 <= MaxLength < 2 ^ 32) (Hpool : pool_holds pool m) :
  Decode MaxLength pool empty_message (b ++ rest) = Ok (m, rest).
Proof.
  unfold MarshalBinary, payload in Hb. destruct (Keepalive m) eqn:Hk.
  - unfold wire_form in Hm. rewrite Hk in Hm. subst m. apply (inj Some) in Hb as <-.
    change (Decode _ _ _ _) with (if MaxLength <? 0 then @Err error (Message * bytes) TooLong else Ok (set_keepalive empty_message, rest)).
    by rewrite (proj2 (Z.ltb_ge _ _)) by lia.
  - destruct (fields m) as [f|] eqn:Hf; [|done]. apply (inj Some) in Hb as <-. rewrite length_app in Hmax. cbn [length] in *.
    change (length (be32 _)) with 4%nat in Hmax. rewrite Z.mod_small by lia. rewrite <- app_assoc, Decode_frame by lia.
    by rewrite wire_known, read_fields.
Qed.

Lemma readHashRequest_inv m0 n conn m r : Forall is_byte conn -> readHashRequest m0 (n, conn) = Ok (m, r) ->
  let m' := set_request m0 (PiecesRoot m) (BaseLayer m) (Index m) (Length m) (ProofLayers m) in
  m = m' /\ length (PiecesRoot m) = 32%nat /\ u32 (BaseLayer m) /\ u32 (Index m) /\ u32 (Length m) /\ u32 (ProofLayers m)
  /\ r.1 = n - 48 /\ 48 <= n /\ conn = hash_common m ++ r.2 /\ Forall is_byte r.2.
Proof.
  intros Hc. unfold readHashRequest. destruct (ReadFull 32 (n, conn)) as [[root [n0 c0]]|] eqn:E0; [|done].
  apply ReadFull_inv in E0 as (Hl & Hn & _ & ->); [|lia]. cbn [fst snd] in *. apply Forall_app in Hc as [_ Hc].
  destruct (ReadInteger (n0, c0)) as [[base [n1 c1]]|] eqn:E1; [|done]. apply ReadInteger_inv in E1 as (? & ? & ? & -> & ?); [|done].
  cbn [fst snd] in *. destruct (ReadInteger (n1, c1)) as [[i [n2 c2]]|] eqn:E2; [|done]. apply ReadInteger_inv in E2 as (? & ? & ? & -> & ?); [|done].
  cbn [fst snd] in *. destruct (ReadInteger (n2, c2)) as [[l [n3 c3]]|] eqn:E3; [|done]. apply ReadInteger_inv in E3 as (? & ? & ? & -> & ?); [|done].
  cbn [fst snd] in *. destruct (ReadInteger (n3, c3)) as [[p [n4 c4]]|] eqn:E4; [|done]. apply ReadInteger_inv in E4 as (? & ? & ? & -> & ?); [|done].
  cbn [fst snd] in *. intros [= <- <-].
  cbn [set_request PiecesRoot BaseLayer Index Length ProofLayers fst snd]. unfold hash_common.
  cbn [set_request PiecesRoot BaseLayer Index Length ProofLayers]. rewrite <- !app_assoc. split_and!; (done || lia).
Qed.

(** What the decoder read after the type is what the encoder writes for the message it made. *)
Lemma read_fields_inv pool t n conn m r :
  0 <= n -> Forall is_byte conn -> readMessageAfterType pool (set_type empty_message t) (n, conn) = Ok (m, r) -> r.1 = 0 ->
  Type_ m = t /\ Keepalive m = false /\ wire_form m /\
  exists f, fields m = Some f /\ Z.of_nat (length f) = n /\ conn = f ++ r.2.
Proof.
  unfold readMessageAfterType. cbn [Type_ set_type]. intros Hn Hc Hr Hend.
  assert (forall q : Message * reader, Ok q = Ok (m, r) :> result error _ -> m = q.1 /\ r = q.2) as inv
    by (intros [? ?] [= <- <-]; done).
  destruct t; try done.
  all: try (apply inv in Hr as [-> ->]; cbn [fst snd] in *; split_and!; try done; exists []; subst n; done).
  all: try (destruct (ReadInteger (n, conn)) as [[i [n1 c1]]|] eqn:E1; [|done];
    apply ReadInteger_inv in E1 as (? & ? & ? & -> & ?); [|done]; cbn [fst snd] in * ).
  all: try (apply inv in Hr as [-> ->]; cbn [fst snd] in *; split_and!; try done; exists (be32 i); split_and!; [done|simpl; lia|done]).
  all: try (destruct (ReadInteger (n1, c1)) as [[b [n2 c2]]|] eqn:E2; [|done];
    apply ReadInteger_inv in E2 as (? & ? & ? & -> & ?); [|done]; cbn [fst snd] in * ).
  all: try (destruct (ReadInteger (n2, c2)) as [[l [n3 c3]]|] eqn:E3; [|done];
    apply ReadInteger_inv in E3 as (? & ? & ? & -> & ?); [|done]; cbn [fst snd] in *;
    apply inv in Hr as [-> ->]; cbn [fst snd] in *; split_and!; try done; exists (be32 i ++ be32 b ++ be32 l);
    rewrite <- !app_assoc; split_and!; [done|simpl; lia|done]).
  all: try (apply readHashRequest_inv in Hr as (Hm & ? & ? & ? & ? & ? & ? & ? & -> & ?); [|done];
    assert (Type_ m = Type_ (set_type empty_message _)) as Ht by (rewrite Hm; reflexivity); cbn [Type_ set_type] in Ht;
    assert (Keepalive m = false) as Hk by (rewrite Hm; reflexivity);
    split_and!; [done|done|unfold wire_form; rewrite Hk, Ht; done|];
    exists (hash_common m); unfold fields; rewrite Ht, hash_common_length by done; split_and!; [done|lia|done]).
  - (* a bit field *)
    cbn [fst] in Hr. destruct (ReadFull n (n, conn)) as [[b r']|] eqn:E1; [|done].
    apply ReadFull_inv in E1 as (? & ? & ? & ->); [|done]. apply inv in Hr as [-> ->]. cbn [fst snd] in *.
    apply Forall_app in Hc as [Hb _]. split_and!; try done.
    + split; [done|]. exists (length b). apply unmarshal_length.
    + exists b. split_and!; [|done..].
      change (fields _) with (Some (marshalBitfield (unmarshalBitfield b))). by rewrite marshal_unmarshal.
  - (* a piece *)
    destruct (match pool with Some _ => _ | None => _ end); [done|].
    destruct (ReadFull n2 (n2, c2)) as [[p r']|] eqn:E3; [|done].
    apply ReadFull_inv in E3 as (? & ? & ? & ->); [|lia]. apply inv in Hr as [-> ->]. cbn [fst snd] in *.
    split_and!; try done. exists (be32 i ++ be32 b ++ p). rewrite <- !app_assoc. split_and!; [done|simpl; lia|done].
  - (* a port *)
    destruct (ReadFull 2 (n, conn)) as [[p r']|] eqn:E1; [|done].
    apply ReadFull_inv in E1 as (? & ? & ? & ->); [|done]. apply inv in Hr as [-> ->]. cbn [fst snd] in *.
    apply Forall_app in Hc as [Hp _]. destruct (of_be16 p) as [Hbe ?]; [lia|done|].
    split_and!; try done. exists p. change (fields _) with (Some (be16 (of_be p))). rewrite Hbe. split_and!; [done|lia|done].
  - (* an extension *)
    destruct (ReadFull 1 (n, conn)) as [[e [n1 c1]]|] eqn:E1; [|done].
    apply ReadFull_inv in E1 as (? & ? & ? & ->); [|done]. cbn [fst snd] in *.
    destruct (ReadFull n1 (n1, c1)) as [[p r']|] eqn:E2; [|done].
    apply ReadFull_inv in E2 as (? & ? & ? & ->); [|lia]. apply inv in Hr as [-> ->]. cbn [fst snd] in *.
    destruct e as [|id [|]]; [simpl in *; lia| |simpl in *; lia]. apply Forall_app in Hc as [Hid _].
    apply Forall_cons in Hid as [Hid _]. replace (of_be [id]) with id by (unfold of_be; simpl; lia).
    split_and!; try done. exists (id :: p). split_and!; [done|simpl in *; lia|done].
  - (* hashes *)
    destruct (readHashRequest _ (n, conn)) as [[m' [n1 c1]]|] eqn:E1; [|done].
    apply readHashRequest_inv in E1 as (Hm & ? & ? & ? & ? & ? & ? & ? & -> & ?); [|done]. cbn [fst snd] in *.
    destruct (read_hashes _ (n1, c1)) as [[hs r']|] eqn:E2; [|done].
    apply read_hashes_inv in E2 as (? & ? & ? & ->). apply inv in Hr as [-> ->]. cbn [fst snd] in *.
    assert (Type_ m' = Hashes_) as Ht by (rewrite Hm; reflexivity).
    assert (Keepalive m' = false) as Hk by (rewrite Hm; reflexivity).
    split_and!; [done|done| |].
    + unfold wire_form. cbn [set_hashes Keepalive Type_ Hashes PiecesRoot BaseLayer Index Length ProofLayers]. rewrite Hk, Ht.
      split_and!; try done. by rewrite Hm at 1.
    + exists (hash_common m' ++ concat hs). unfold fields. cbn [Type_ set_hashes Hashes]. rewrite Ht.
      rewrite length_app, hash_common_length, concat_length by done. rewrite <- app_assoc. split_and!; [done|lia|done].
Qed.

(** What comes off a connection is what an encoder puts on it: a message decoded from any bytes carries
    nothing but its type's fields, and encoding it gives back exactly the bytes the decoder took,
    no more than the maximum and the length before it. *)
Theorem encode_decode MaxLength pool conn m rest (Hc : Forall is_byte conn)
  (Hd : Decode MaxLength pool empty_message conn = Ok (m, rest)) :
  wire_form m /\
  exists b, MarshalBinary m = Some b /\ conn = b ++ rest /\ Z.of_nat (length b) <= MaxLength + 4.
Proof.
  unfold Decode in Hd. destruct (length conn <? 4)%nat eqn:H4; [by destruct conn|]. apply Nat.ltb_ge in H4.
  rewrite <- (take_drop 4 conn) in Hc |- *. apply Forall_app in Hc as [Hl Hc].
  destruct (of_be32 (take 4 conn)) as [Hbe Hu]; [rewrite length_take; lia|done|].
  set (len := of_be (take 4 conn)) in *. rewrite <- Hbe in *. clearbody len.
  assert (exists x y, conn = x :: y) as (x & y & Hxy) by (destruct conn; simpl in *; [lia|eauto]).
  rewrite Hxy in Hd at 1. destruct (MaxLength <? len) eqn:Hmax; [done|]. apply Z.ltb_ge in Hmax.
  set (conn' := drop 4 conn) in *. clearbody conn'. destruct (len =? 0) eqn:H0.
  - apply Z.eqb_eq in H0. subst len. injection Hd as <- <-. split; [done|].
    exists (be32 0). split_and!; [done|done|simpl; lia].
  - apply Z.eqb_neq in H0. unfold u32 in Hu.
    destruct (ReadFull 1 (len, conn')) as [[c [n1 c1]]|] eqn:E1; [|done].
    apply ReadFull_inv in E1 as (? & ? & ? & ->); [|lia]. cbn [fst snd] in *. apply Forall_app in Hc as [Hc1 Hc2].
    destruct c as [|c [|]]; [simpl in *; lia| |simpl in *; lia]. replace (of_be [c]) with c in Hd by (unfold of_be; simpl; lia).
    destruct (readMessageAfterType _ _ _) as [[m' [n2 c2]]|] eqn:E2; [|done]. cbn [fst snd] in *.
    destruct (n2 =? 0) eqn:Hn2; [|done]. apply Z.eqb_eq in Hn2. injection Hd as <- <-.
    apply read_fields_inv in E2 as (Ht & Hk & Hm & f & Hf & Hlen & ->); [|lia|done|done]. split; [done|].
    exists (be32 len ++ c :: f). cbn [snd]. unfold MarshalBinary, payload. rewrite Hk, Hf, Ht, type_byte_of.
    cbn [option_map length]. rewrite Z.mod_small by lia. replace (Z.of_nat (S (length f))) with len by lia.
    rewrite <- app_assoc. split_and!; [done|done|]. rewrite length_app. cbn [length be32]. lia.
Qed.

(** [UnmarshalBinary] sets no maximum, so all it takes is a keepalive. *)
Lemma UnmarshalBinary_keepalive m b m' (Hb : Forall is_byte b) : UnmarshalBinary m b = Some m' -> b = [0; 0; 0; 0] /\ m' = set_keepalive m.
Proof.
  unfold UnmarshalBinary, Decode. destruct (length b <? 4)%nat eqn:H4; [by destruct b|]. apply Nat.ltb_ge in H4.
  rewrite <- (take_drop 4 b) in Hb. apply Forall_app in Hb as [Hl _].
  destruct (of_be32 (take 4 b)) as [Hbe Hu]; [rewrite length_take; lia|done|]. unfold u32 in Hu.
  intros Hd. assert (exists x y, b = x :: y) as (x & y & Hxy) by (destruct b; simpl in *; [lia|eauto]).
  rewrite Hxy in Hd at 1. destruct (0 <? of_be (take 4 b)) eqn:Hmax; [done|]. apply Z.ltb_ge in Hmax.
  replace (of_be (take 4 b)) with 0 in * by lia. destruct (drop 4 b) as [|] eqn:Hd4; [|done]. injection Hd as <-.
  split; [|done]. rewrite <- (take_drop 4 b), Hd4, app_nil_r. by rewrite <- Hbe.
Qed.

(** ** Witnesses *)

Definition request_message : Message := set_index (set_type empty_message Request) 7 16384 16384.

Lemma decode_encode_witness :
  Decode 64 None empty_message ([0; 0; 0; 13; 6; 0; 0; 0; 7; 0; 0; 64; 0; 0; 0; 64; 0] ++ [0; 0]) = Ok (request_message, [0; 0]).
Proof.
  apply (decode_encode 64 None request_message [0; 0; 0; 13; 6; 0; 0; 0; 7; 0; 0; 64; 0; 0; 0; 64; 0] [0; 0]).
  - unfold wire_form, u32. cbn. split; [reflexivity|]. lia.
  - reflexivity.
  - cbn. lia.
  - lia.
  - exact I.
Defined.

Lemma encode_decode_witness :
  wire_form (set_bitfield (set_type empty_message Bitfield_) [true; false; true; false; false; false; false; false]) /\
  exists b, MarshalBinary (set_bitfield (set_type empty_message Bitfield_) [true; false; true; false; false; false; false; false]) = Some b
    /\ [0; 0; 0; 2; 5; 160; 9] = b ++ [9] /\ Z.of_nat (length b) <= 64 + 4.
Proof.
  apply (encode_decode 64 (Some 16384)).
  - repeat (constructor; [unfold is_byte; lia|]). constructor.
  - reflexivity.
Defined.
