(* ===== verification/Await.v ===== *)
(** * Waiting for a torrent: internal/torrent/client.go (Stats, WaitLive, Await)

    The client polls the engine until a torrent is live or has all it was asked for.  What the
    engine answers poll by poll, when the caller's context ends and what the clock says
    are sequences; each loop is a step on its variables, run until it returns.  The
    theorems say that both loops return, whatever the engine answers, and what each way
    of returning means. *)
From stdpp Require Import base gmap strings list.
From Stdlib Require Import ZArith Lia.
From S2P Require Import Prelude GoStr Float64.

(** [torrent.Stats] without the files' progress; of [Live] the fields that are read. *)
Record Live := mkLive { FetchedBytes : Z; PeersLive : Z }.

Record Stats := mkStats {
  State : string; Error : string; ProgressBytes : Z; TotalBytes : Z; Finished : bool; live : option Live;
}.

Definition Peers (s : Stats) : Z := match live s with None => 0 | Some l => PeersLive l end.

Definition Received (s : Stats) : Z :=
  match live s with None => ProgressBytes s | Some l => Z.max (ProgressBytes s) (FetchedBytes l) end.

Definition Percent (s : Stats) : f64 :=
  if TotalBytes s =? 0 then of_int 0
  else fmul (fdiv (of_int (ProgressBytes s)) (of_int (TotalBytes s))) (of_int 100).

(** ** Loops *)

(** A loop's body returns, or goes round with new variables. *)
Section loop.
Context {V R : Type} (body : nat -> V -> V + R).

(** [fuel] rounds from round [k]. *)
Fixpoint loop (fuel k : nat) (v : V) : option R :=
  match fuel with
  | O => None
  | S fuel' => match body k v with inr r => Some r | inl v' => loop fuel' (S k) v' end
  end.

(** It returns [r] from round [k], whatever the fuel, if that is enough. *)
Definition returns (v0 : V) (k : nat) (r : R) : Prop := forall fuel, (k < fuel)%nat -> loop fuel 0 v0 = Some r.

(** A loop that keeps [I] and leaves [m] smaller each time round returns within [m] rounds,
    from variables that meet [I]. *)
Lemma loop_returns (I : nat -> V -> Prop) (m : nat -> V -> nat) v0 :
  I 0%nat v0 -> (forall k v v', I k v -> body k v = inl v' -> I (S k) v' /\ (m (S k) v' < m k v)%nat) ->
  exists k v r, (k <= m 0%nat v0)%nat /\ I k v /\ body k v = inr r /\ returns v0 k r.
Proof.
  intros H0 Hstep.
  assert (forall n k v, I k v -> (m k v <= n)%nat ->
    exists d v' r, (d <= n)%nat /\ I (k + d)%nat v' /\ body (k + d)%nat v' = inr r /\
      forall fuel, (d < fuel)%nat -> loop fuel k v = Some r) as Hrun.
  { induction n as [|n IH]; intros k v HI Hn; destruct (body k v) as [v'|r] eqn:Hb.
    1: destruct (Hstep k v v' HI Hb); lia.
    2: destruct (Hstep k v v' HI Hb) as [HI' Hlt]; destruct (IH (S k) v' HI' ltac:(lia)) as (d & w & r & Hd & HIw & Hbw & Hf);
      exists (S d), w, r; rewrite Nat.add_succ_r; split_and!; [lia|done|done|];
      intros [|fuel] Hlt'; [lia|]; cbn; rewrite Hb; apply Hf; lia.
    all: exists 0%nat, v, r; rewrite Nat.add_0_r; split_and!; [lia|done|done|]; intros [|fuel] Hf; [lia|]; cbn; by rewrite Hb. }
  destruct (Hrun (m 0%nat v0) 0%nat v0 H0 ltac:(lia)) as (d & v & r & ? & ? & ? & ?). exists d, v, r. by split_and!.
Qed.
End loop.

(** ** Await *)

Inductive awaited := Has_all | Unreachable | Failed (message : string) | Paused | Stalled (percent : f64) (quiet : Z) | Cancelled.

Section await.
(** What the engine answers the [k]th poll, [None] an error; whether the caller's
    context ends while the loop waits after it; the interval and the patience in nanoseconds. *)
Context (polls : nat -> option Stats) (cancelled : nat -> bool) (AwaitPoll stall : Z).

(** One round on [best] and [quiet]. *)
Definition await_body (k : nat) (v : Z * Z) : (Z * Z) + awaited :=
  let '(best, quiet) := v in
  match polls k with
  | None => inr Unreachable
  | Some stats =>
      if Finished stats then inr Has_all
      else if negb (String.eqb (Error stats) "") then inr (Failed (Error stats))
      else if String.eqb (State stats) "paused" then inr Paused
      else
        let wait best quiet := if cancelled k then inr Cancelled else inl (best, quiet) in
        if best <? ProgressBytes stats then wait (ProgressBytes stats) 0
        else
          let quiet := i64_add quiet AwaitPoll in
          if stall <=? quiet then inr (Stalled (Percent stats) quiet) else wait best quiet
  end.

Definition Await (fuel : nat) : option awaited := loop await_body fuel 0 (0, 0).
End await.

(** ** WaitLive *)

Inductive waited := Ready | Errored (message : string) | Would_not_start | Not_live | Given_up.

Section wait.
(** The clock when a round's answer is read and at its deadline check, and whether the
    engine starts the torrent when asked to in it. *)
Context (polls : nat -> option Stats) (cancelled : nat -> bool) (starts_it : nat -> bool).
Context (answered checked : nat -> Z) (timeout : Z).

(** The variables [until], [resumed] and [verified]. *)
Definition wait_body (k : nat) (v : Z * bool * Z) : (Z * bool * Z) + waited :=
  let '(until, resumed, verified) := v in
  let wait until resumed verified :=
    if until <? checked k then inr Not_live else if cancelled k then inr Given_up else inl (until, resumed, verified) in
  match polls k with
  | None => wait until resumed verified
  | Some stats =>
      if negb (String.eqb (Error stats) "") then inr (Errored (Error stats))
      else if String.eqb (State stats) "live" || Finished stats then inr Ready
      else if String.eqb (State stats) "initializing" && (verified <? ProgressBytes stats)
      then wait (answered k + timeout) resumed (ProgressBytes stats)
      else if String.eqb (State stats) "paused" && negb resumed
      then if starts_it k then wait until true verified else inr Would_not_start
      else wait until resumed verified
  end.

(** Entered at the time [start]. *)
Definition WaitLive (start : Z) (fuel : nat) : option waited := loop wait_body fuel 0 (start + timeout, false, 0).
End wait.

(** ** Returning *)

Definition under_way (s : Stats) : Prop := Finished s = false /\ Error s = "" /\ State s <> "paused".

Section await_facts.
Context (polls : nat -> option Stats) (cancelled : nat -> bool) (AwaitPoll stall total : Z).

Definition progress (k : nat) : Z := match polls k with Some s => ProgressBytes s | None => 0 end.

(** The most that had arrived before the [k]th poll. *)
Fixpoint most (k : nat) : Z := match k with O => 0 | S k' => Z.max (most k') (progress k') end.

(** The loop went round at [k]. *)
Definition went_on (k : nat) : Prop := cancelled k = false /\ exists s, polls k = Some s /\ under_way s.

(** [n] polls in a row brought nothing, for less than the patience. *)
Definition await_inv (k : nat) (v : Z * Z) : Prop :=
  (forall j, (j < k)%nat -> went_on j) /\ v.1 = most k /\ v.1 <= total /\
  exists n : nat, (n <= k)%nat /\ v.2 = Z.of_nat n * AwaitPoll /\ (n = 0%nat \/ v.2 < stall) /\ most (k - n) = most k.

Definition await_left (_ : nat) (v : Z * Z) : nat :=
  Z.to_nat ((total - v.1) * (Z.max 0 (stall / AwaitPoll) + 1) + Z.max 0 ((stall - v.2) / AwaitPoll)).

Context (Hpoll : 0 < AwaitPoll < 2 ^ 63) (Hstall : stall + AwaitPoll < 2 ^ 63).
Context (Htotal : 0 <= total) (Hbound : forall k s, polls k = Some s -> ProgressBytes s <= total).

Lemma progress_bound k : progress k <= total.
Proof. unfold progress. destruct (polls k) eqn:H; [by eapply Hbound|done]. Qed.

(** Inside the patience the sum of the waits does not wrap. *)
Lemma quiet_next k v : await_inv k v -> i64_add v.2 AwaitPoll = v.2 + AwaitPoll.
Proof. intros (_ & _ & _ & n & _ & Hv & Hn & _). apply i64_add_small. unfold in64. destruct Hn as [->|]; nia. Qed.

Lemma div_less a : AwaitPoll <= a -> (a - AwaitPoll) / AwaitPoll < a / AwaitPoll /\ 0 < a / AwaitPoll.
Proof.
  intros Ha. split; [|apply Z.div_str_pos; lia].
  replace a with (a - AwaitPoll + 1 * AwaitPoll) at 2 by lia. rewrite Z.div_add by lia. lia.
Qed.

Lemma await_step k v v' : await_inv k v -> await_body polls cancelled AwaitPoll stall k v = inl v' ->
  await_inv (S k) v' /\ (await_left (S k) v' < await_left k v)%nat.
Proof.
  intros HI. pose proof (quiet_next k v HI) as Hq. destruct HI as (Hon & Hbest & Hle & n & Hn & Hv & Hlt & Hmost).
  destruct v as [best quiet]. cbn [fst snd] in *. unfold await_body.
  destruct (polls k) as [s|] eqn:Hs; [|done]. destruct (Finished s) eqn:Hfin; [done|].
  destruct (String.eqb_spec (Error s) "") as [Herr|]; [|done]. destruct (String.eqb_spec (State s) "paused") as [|Hpa]; [done|].
  cbn [negb]. assert (progress k = ProgressBytes s) as Hpr by (unfold progress; by rewrite Hs).
  pose proof (Hbound k s Hs) as Hb. unfold await_inv, await_left.
  assert (cancelled k = false -> forall j, (j < S k)%nat -> went_on j) as Hon'.
  { intros Hc j Hj. destruct (decide (j = k)) as [->|]; [|apply Hon; lia]. split; [done|]. exists s. unfold under_way. auto. }
  rewrite Hq. destruct (Z.ltb_spec best (ProgressBytes s)) as [Hup|Hup].
  - destruct (cancelled k) eqn:Hc; [done|]. intros [= <-]. cbn [fst snd most]. rewrite Hpr. split.
    + split_and!; [auto|lia|lia|]. exists 0%nat. split_and!; [lia|lia|by left|]. cbn [Nat.sub most]. by rewrite ?Hpr.
    + rewrite Z.sub_0_r. assert (0 <= Z.max 0 ((stall - quiet) / AwaitPoll)) by lia.
      assert ((total - ProgressBytes s) * (Z.max 0 (stall / AwaitPoll) + 1) <= (total - best - 1) * (Z.max 0 (stall / AwaitPoll) + 1)) by nia.
      apply Z2Nat.inj_lt; nia.
  - destruct (Z.leb_spec stall (quiet + AwaitPoll)) as [|Hpat]; [done|]. destruct (cancelled k) eqn:Hc; [done|]. intros [= <-].
    cbn [fst snd most]. rewrite Hpr, Z.max_l by lia. split.
    + split_and!; [auto|done|done|]. exists (S n). split_and!; [lia|lia|right; lia|].
      cbn [Nat.sub most]. done.
    + destruct (div_less (stall - quiet) ltac:(lia)). replace (stall - (quiet + AwaitPoll)) with (stall - quiet - AwaitPoll) by lia.
      apply Z2Nat.inj_lt; nia.
Qed.
End await_facts.

(** What a return from round [k] says of the polls. *)
Definition await_means (polls : nat -> option Stats) (cancelled : nat -> bool) (AwaitPoll stall : Z) (k : nat) (o : awaited) : Prop :=
  match o with
  | Unreachable => polls k = None
  | Has_all => exists s, polls k = Some s /\ Finished s = true
  | Failed e => exists s, polls k = Some s /\ Finished s = false /\ Error s = e /\ e <> ""
  | Paused => exists s, polls k = Some s /\ Finished s = false /\ Error s = "" /\ State s = "paused"
  | Cancelled => cancelled k = true /\ exists s, polls k = Some s /\ under_way s
  | Stalled percent quiet =>
      exists s (n : nat), polls k = Some s /\ under_way s /\ percent = Percent s /\ (n <= S k)%nat /\ quiet = Z.of_nat n * AwaitPoll /\
        stall <= quiet < Z.max (stall + AwaitPoll) (2 * AwaitPoll) /\ most polls (S k - n) = most polls (S k)
  end.

(** Awaiting a download always ends, however the engine answers: within as many polls as the patience takes for
    each byte that could arrive.  It ends well exactly when a poll says the torrent is finished; it
    reports a stall only after polls over the whole patience that brought nothing, and at every
    poll before the last the torrent was under_way. *)
Theorem Await_returns polls cancelled AwaitPoll stall total (Hpoll : 0 < AwaitPoll < 2 ^ 63) (Hstall : stall + AwaitPoll < 2 ^ 63)
  (Htotal : 0 <= total) (Hbound : forall k s, polls k = Some s -> ProgressBytes s <= total) :
  exists k o,
    Z.of_nat k <= total * (Z.max 0 (stall / AwaitPoll) + 1) + Z.max 0 (stall / AwaitPoll) /\
    (forall fuel, (k < fuel)%nat -> Await polls cancelled AwaitPoll stall fuel = Some o) /\
    (forall j, (j < k)%nat -> went_on polls cancelled j) /\ await_means polls cancelled AwaitPoll stall k o.
Proof.
  destruct (loop_returns (await_body polls cancelled AwaitPoll stall) (await_inv polls cancelled AwaitPoll stall total)
    (await_left AwaitPoll stall total) (0, 0)) as (k & v & o & Hk & HI & Hb & Hret).
  { split_and!; [intros ? ?; lia|done|done|]. exists 0%nat. split_and!; [lia|done|by left|done]. }
  { intros. by apply (await_step polls cancelled). }
  exists k, o. split_and!; [|done|apply HI|].
  { unfold await_left in Hk. cbn [fst snd] in Hk. rewrite !Z.sub_0_r in Hk. apply Nat2Z.inj_le in Hk. rewrite Z2Nat.id in Hk; [done|]. nia. }
  pose proof (quiet_next polls cancelled AwaitPoll stall total Hpoll Hstall k v HI) as Hq.
  destruct HI as (_ & Hbest & _ & n & Hn & Hv & Hlt & Hmost). destruct v as [best quiet]. cbn [fst snd] in *.
  unfold await_body in Hb. unfold await_means. destruct (polls k) as [s|] eqn:Hs; [|by injection Hb as <-].
  destruct (Finished s) eqn:Hfin; [injection Hb as <-; eauto|].
  destruct (String.eqb_spec (Error s) "") as [Herr|Herr]; [|injection Hb as <-; eauto 10].
  destruct (String.eqb_spec (State s) "paused") as [Hpa|Hpa]; [injection Hb as <-; eauto 10|]. cbn [negb] in Hb.
  assert (under_way s) as Hrun by done. rewrite Hq in Hb.
  destruct (Z.ltb_spec best (ProgressBytes s)); [destruct (cancelled k); [|done]; injection Hb as <-; eauto|].
  destruct (Z.leb_spec stall (quiet + AwaitPoll)); [|destruct (cancelled k); [|done]; injection Hb as <-; eauto].
  injection Hb as <-. exists s, (S n). split_and!; try done; try lia.
  cbn [Nat.sub most]. rewrite Hmost. unfold progress. rewrite Hs. lia.
Qed.

(** ** Going live *)

Section live_facts.
Context (polls : nat -> option Stats) (cancelled : nat -> bool) (starts_it : nat -> bool).
Context (answered checked : nat -> Z) (timeout total tick : Z).

Definition live_left (k : nat) (v : Z * bool * Z) : nat :=
  let '(until, _, verified) := v in
  Z.to_nat ((total - verified) * (Z.max 0 (timeout / tick) + 2) + Z.max 0 ((until - checked k) / tick + 1)).

Definition live_inv (k : nat) (v : Z * bool * Z) : Prop := v.2 <= total.

Context (Htick : 0 < tick) (Hclock : forall k, answered k <= checked k /\ checked k + tick <= checked (S k)).
Context (Hbound : forall k s, polls k = Some s -> ProgressBytes s <= total).

(** The deadline comes a round nearer, or has been moved by bytes that cannot all come twice. *)
Lemma left_falls k until until' verified verified' :
  verified <= verified' <= total -> checked k <= until' ->
  (until' = until \/ (verified < verified' /\ until' = answered k + timeout)) ->
  (live_left (S k) (until', false, verified') < live_left k (until, false, verified))%nat.
Proof.
  intros Hv Hu Hcase. destruct (Hclock k) as [Ha Hc]. unfold live_left.
  assert ((until' - checked (S k)) / tick + 1 <= (until' - checked k) / tick).
  { replace ((until' - checked k) / tick) with ((until' - checked k - tick) / tick + 1)
      by (replace (until' - checked k) with (until' - checked k - tick + 1 * tick) at 2 by lia; rewrite Z.div_add by lia; lia).
    assert ((until' - checked (S k)) / tick <= (until' - checked k - tick) / tick) by (apply Z.div_le_mono; lia). lia. }
  assert (0 <= (until' - checked k) / tick) by (apply Z.div_pos; lia).
  destruct Hcase as [->|[Hlt ->]]; [apply Z2Nat.inj_lt; nia|].
  assert ((answered k + timeout - checked k) / tick <= timeout / tick) by (apply Z.div_le_mono; lia).
  set (N := timeout / tick) in *. clearbody N.
  assert ((total - verified') * (Z.max 0 N + 2) <= (total - verified - 1) * (Z.max 0 N + 2)) by nia.
  apply Z2Nat.inj_lt; nia.
Qed.

Lemma live_step k v v' : live_inv k v -> wait_body polls cancelled starts_it answered checked timeout k v = inl v' ->
  live_inv (S k) v' /\ (live_left (S k) v' < live_left k v)%nat.
Proof.
  destruct v as [[until resumed] verified]. unfold live_inv, wait_body. cbn [snd]. intros Hv.
  assert (forall until' resumed' verified', verified <= verified' <= total ->
    (until' = until \/ (verified < verified' /\ until' = answered k + timeout)) ->
    (if until' <? checked k then inr Not_live else if cancelled k then inr Given_up else inl (until', resumed', verified')) = inl v' ->
    v'.2 <= total /\ (live_left (S k) v' < live_left k (until, resumed, verified))%nat) as Hwait.
  { intros until' resumed' verified' Hle Hcase. destruct (Z.ltb_spec until' (checked k)); [done|].
    destruct (cancelled k); [done|]. intros [= <-]. split; [apply Hle|]. by apply left_falls. }
  destruct (polls k) as [s|] eqn:Hs; [|apply Hwait; auto; lia]. pose proof (Hbound k s Hs).
  destruct (negb (String.eqb (Error s) "")); [done|]. destruct (String.eqb (State s) "live" || Finished s); [done|].
  destruct (String.eqb (State s) "initializing" && (verified <? ProgressBytes s)) eqn:Hup.
  - apply andb_true_iff in Hup as [_ Hup]. apply Z.ltb_lt in Hup. apply Hwait; [lia|by right].
  - destruct (String.eqb (State s) "paused" && negb resumed); [destruct (starts_it k); [|done]|]; apply Hwait; auto; lia.
Qed.
End live_facts.

Definition wait_means (polls : nat -> option Stats) (cancelled starts_it : nat -> bool) (k : nat) (o : waited) : Prop :=
  match o with
  | Ready => exists s, polls k = Some s /\ Error s = "" /\ (State s = "live" \/ Finished s = true)
  | Errored e => exists s, polls k = Some s /\ Error s = e /\ e <> ""
  | Would_not_start => starts_it k = false /\ exists s, polls k = Some s /\ State s = "paused"
  | Given_up => cancelled k = true
  | Not_live => forall s, polls k = Some s -> Error s = "" /\ State s <> "live" /\ Finished s = false
  end.

(** Waiting for a torrent to go live always ends: with every round taking at least [tick], it returns within as many
    rounds as the timeout takes for each byte that could be checked, even while the engine answers
    nothing at all.  It ends well only on an answer that says live or finished, and gives up on
    time only when the last answer, if there was one, said neither and no error. *)
Theorem WaitLive_returns polls cancelled starts_it answered checked timeout total tick start (Htick : 0 < tick)
  (Hclock : forall k, answered k <= checked k /\ checked k + tick <= checked (S k)) (Hstart : start <= checked 0%nat)
  (Htotal : 0 <= total) (Hbound : forall k s, polls k = Some s -> ProgressBytes s <= total) :
  exists k o,
    Z.of_nat k <= (total + 1) * (Z.max 0 (timeout / tick) + 2) /\
    (forall fuel, (k < fuel)%nat -> WaitLive polls cancelled starts_it answered checked timeout start fuel = Some o) /\
    wait_means polls cancelled starts_it k o.
Proof.
  destruct (loop_returns (wait_body polls cancelled starts_it answered checked timeout) (live_inv total)
    (live_left checked timeout total tick) (start + timeout, false, 0)) as (k & v & o & Hk & HI & Hb & Hret).
  { unfold live_inv. cbn. lia. }
  { intros. by eapply live_step. }
  exists k, o. split_and!; [|done|].
  { unfold live_left in Hk. apply Nat2Z.inj_le in Hk. rewrite Z.sub_0_r in Hk.
    assert ((start + timeout - checked 0%nat) / tick <= timeout / tick) by (apply Z.div_le_mono; lia). rewrite Z2Nat.id in Hk by nia. nia. }
  clear Hk Hret HI. destruct v as [[until resumed] verified]. unfold wait_body in Hb. unfold wait_means.
  destruct (polls k) as [s|] eqn:Hs.
  2: { destruct (until <? checked k); [injection Hb as <-; done|]. destruct (cancelled k) eqn:Hc; [by injection Hb as <-|done]. }
  destruct (String.eqb_spec (Error s) "") as [Herr|Herr]; [|injection Hb as <-; eauto]. cbn [negb] in Hb.
  destruct (String.eqb_spec (State s) "live") as [Hl|Hl]; [injection Hb as <-; eauto 10|].
  destruct (Finished s) eqn:Hfin; [injection Hb as <-; eauto 10|]. cbn [orb] in Hb.
  assert (forall u r w, (if u <? checked k then inr Not_live else if cancelled k then inr Given_up else inl (u, r, w)) = inr o :> (Z * bool * Z) + waited ->
    (o = Not_live) \/ (o = Given_up /\ cancelled k = true)) as Hwait.
  { intros u r w. destruct (u <? checked k); [intros [= <-]; by left|]. destruct (cancelled k); [intros [= <-]; by right|done]. }
  assert ((o = Not_live) \/ (o = Given_up /\ cancelled k = true) \/ (o = Would_not_start /\ starts_it k = false /\ State s = "paused")) as Ho.
  { destruct (_ && _) in Hb; [apply Hwait in Hb; tauto|]. destruct (String.eqb_spec (State s) "paused"); [|apply Hwait in Hb; tauto].
    cbn [andb] in Hb. destruct (negb resumed); [|apply Hwait in Hb; tauto]. destruct (starts_it k); [apply Hwait in Hb; tauto|].
    injection Hb as <-. auto. }
  destruct Ho as [->|[[-> ?]|(-> & ? & ?)]]; eauto. intros s' [= <-]. done.
Qed.

(** ** Witnesses *)

(** One byte arrives with the second answer, then none: with six seconds' patience and five between
    polls the loop stalls. *)
Definition slow (k : nat) : option Stats := Some (mkStats "live" "" (if (k =? 0)%nat then 0 else 1) 2 false None).

Lemma Await_returns_witness : exists k o,
  Z.of_nat k <= 2 * (Z.max 0 (6 / 5) + 1) + Z.max 0 (6 / 5) /\
  (forall fuel, (k < fuel)%nat -> Await slow (fun _ => false) 5 6 fuel = Some o) /\
  (forall j, (j < k)%nat -> went_on slow (fun _ => false) j) /\ await_means slow (fun _ => false) 5 6 k o.
Proof.
  apply (Await_returns slow (fun _ => false) 5 6 2); try lia. intros k s Hk. unfold slow in Hk. injection Hk as <-.
  cbn. destruct (k =? 0)%nat; lia.
Defined.

Lemma WaitLive_returns_witness : exists k o,
  Z.of_nat k <= (2 + 1) * (Z.max 0 (60 / 1) + 2) /\
  (forall fuel, (k < fuel)%nat -> WaitLive (fun _ => None) (fun _ => false) (fun _ => true) Z.of_nat Z.of_nat 60 0 fuel = Some o) /\
  wait_means (fun _ => None) (fun _ => false) (fun _ => true) k o.
Proof. apply (WaitLive_returns _ _ _ _ _ 60 2 1 0); try lia. done. Defined.

Example slow_stalls : Await slow (fun _ => false) 5 6 9 = Some (Stalled (fmul (fdiv (of_int 1) (of_int 2)) (of_int 100)) 10).
Proof. reflexivity. Qed.
