(* ===== verification/Watch.v ===== *)
(** * Positions and what counts as watched: internal/store/playback.go, history.go, sync.go (DismissResume)

    [playback] holds where each episode stopped, how much of it has really played and whether it
    counts as watched.  The players report every few seconds; one transaction per
    report decides.  Positions are doubles, as the code's are; the threshold, a
    preference, and the clock are arguments. *)
From stdpp Require Import base gmap strings list.
From Stdlib Require Import ZArith Lia Floats.SpecFloat.
From S2P Require Import Prelude GoStr Float64.

Record Play := mkPlay {
  position_s : f64; duration_s : option f64; played_s : f64; p_watched : bool; play_count : Z; last_played_at : Z; dismissed : bool;
}.

Abbreviation ep := (Z * string)%type.

Record watching := mkWatching { playback : gmap ep Play; watch_time : gmap string f64 }.

(** [PlaybackState] *)
Record PlaybackState := mkReport { AnimeID : Z; EpKey : string; Position : f64; Duration : f64; Played : f64 }.

Definition zero : f64 := S754_zero false.
Definition playedShare : f64 := Eval vm_compute in of_ratio 1 2.
Definition maxPlayedPerReport : f64 := Eval vm_compute in of_int 120.
Definition resumeFrom : f64 := Eval vm_compute in of_int 15.

(** The builtin [max]. *)
Definition fmax (a b : f64) : f64 :=
  match a, b with
  | S754_nan, _ | _, S754_nan => S754_nan
  | S754_zero s, S754_zero t => S754_zero (s && t)
  | _, _ => if flt a b then b else a
  end.

Definition finished (position duration : f64) (watched : bool) (threshold : f64) : bool :=
  if fgt duration zero then fge position (fmul duration threshold) else watched.

Definition resumable (position duration : f64) (watched : bool) (threshold : f64) : bool :=
  fge position resumeFrom && negb (finished position duration watched threshold).

(** A preference out of range is the default, nine tenths. *)
Definition defaultThreshold : f64 := Eval vm_compute in of_ratio 9 10.

Definition thresholdFor (pref : option f64) : f64 :=
  match pref with
  | Some v => if fgt v zero && fle v (of_int 1) then v else defaultThreshold
  | None => defaultThreshold
  end.

(** ** A report *)

(** What the row says, or what a missing one counts as. *)
Definition row_of (t : gmap ep Play) (k : ep) : Play := default (mkPlay zero None zero false 0 0 false) (t !! k).

Definition step_of (p : PlaybackState) : f64 := fmax zero (fmin (Played p) maxPlayedPerReport).

Definition duration_of (r : Play) (p : PlaybackState) : f64 :=
  if fgt (Duration p) zero then Duration p else default zero (duration_s r).

Definition reached (threshold duration : f64) (p : PlaybackState) : bool :=
  fgt duration zero && fge (fdiv (Position p) duration) threshold.

(** The decision: the played total, and whether the episode now counts as watched. *)
Definition played_after (r : Play) (p : PlaybackState) : f64 := fadd (played_s r) (step_of p).

Definition watched_after (threshold : f64) (r : Play) (p : PlaybackState) : bool :=
  p_watched r ||
  (reached threshold (duration_of r p) p && fge (played_after r p) (fmul (duration_of r p) playedShare)).

(** [coalesce(nullif(excluded.duration_s, 0), playback.duration_s)] *)
Definition kept_duration (old : option f64) (new : f64) : option f64 := if feq new zero then old else Some new.

Definition SavePlayback (threshold : f64) (today : string) (now : Z) (p : PlaybackState) (s : watching) : watching * bool :=
  let k := (AnimeID p, EpKey p) in
  let r := row_of (playback s) k in
  let existed := bool_decide (is_Some (playback s !! k)) in
  let step := step_of p in
  let played := played_after r p in
  let times := if fgt step zero then partial_alter (fun t => Some (match t with Some x => fadd x step | None => step end)) today (watch_time s)
               else watch_time s in
  let watched := watched_after threshold r p in
  let position := if negb (reached threshold (duration_of r p) p) || watched || negb existed then Position p else position_s r in
  let done := if watched && negb (existed && p_watched r) then 1 else 0 in
  let resumed := fgt step zero in
  let row := match playback s !! k with
    | None => mkPlay position (Some (Duration p)) played watched done now false
    | Some old =>
        mkPlay position (kept_duration (duration_s old) (Duration p)) played (p_watched old || watched) (play_count old + done) now
          (if resumed then false else dismissed old)
    end in
  (mkWatching (<[k := row]> (playback s)) times, watched).

(** ** Going back to it *)

Definition ResumeAt (threshold : f64) (k : ep) (t : gmap ep Play) : f64 :=
  match t !! k with
  | None => zero
  | Some r => if resumable (position_s r) (default zero (duration_s r)) (p_watched r) threshold then position_s r else zero
  end.

Definition DismissResume (k : ep) (t : gmap ep Play) : gmap ep Play :=
  partial_alter (fun r => Some (match r with
    | None => mkPlay zero None zero false 0 0 true
    | Some r => mkPlay (position_s r) (duration_s r) (played_s r) (p_watched r) (play_count r) (last_played_at r) true
    end)) k t.

(** [latestFirst], and the latest row not dismissed. *)
Definition later (x y : ep * Play) : bool :=
  (last_played_at y.2 <? last_played_at x.2) ||
  ((last_played_at y.2 =? last_played_at x.2) &&
   ((negb (p_watched x.2) && p_watched y.2) || (Bool.eqb (p_watched x.2) (p_watched y.2) && String.ltb y.1.2 x.1.2))).

Definition LastInProgress (threshold : f64) (a : Z) (rows : list (ep * Play)) : option (string * f64) :=
  match sort_by later (List.filter (fun x => (x.1.1 =? a) && negb (dismissed x.2)) rows) with
  | [] => None
  | (k, r) :: _ =>
      if resumable (position_s r) (default zero (duration_s r)) (p_watched r) threshold then Some (k.2, position_s r) else None
  end.

(** The rows from the latest written back; [rows] in the order they were written. *)
Definition LastPlayed (rows : list (ep * Play)) : option ep :=
  match sort_by (fun x y => last_played_at y.2 <? last_played_at x.2) (rev rows) with
  | (k, r) :: _ => if p_watched r || dismissed r then None else Some k
  | [] => None
  end.

Definition ForgetHistory (a : Z) (epKey : string) (t : gmap ep Play) : gmap ep Play :=
  if negb (a =? 0) && negb (String.eqb epKey "") then delete (a, epKey) t
  else if negb (a =? 0) then filter (fun x : ep * Play => (x.1.1 =? a) = false) t
  else ∅.

(** ** What a report does *)

Definition key_of (p : PlaybackState) : ep := (AnimeID p, EpKey p).

Lemma SavePlayback_row thr today now p s :
  let r := row_of (playback s) (key_of p) in
  let '(s', w) := SavePlayback thr today now p s in
  w = watched_after thr r p /\
  exists r', playback s' = <[key_of p := r']> (playback s) /\
    p_watched r' = w /\ played_s r' = played_after r p /\ last_played_at r' = now /\
    play_count r' = play_count r + (if w && negb (p_watched r) then 1 else 0) /\
    dismissed r' = dismissed r && negb (fgt (step_of p) zero) /\
    (position_s r' = Position p \/
     (position_s r' = position_s r /\ w = false /\ reached thr (duration_of r p) p = true)).
Proof.
  unfold SavePlayback, key_of, row_of. set (k := (AnimeID p, EpKey p)). set (step := step_of p).
  destruct (playback s !! k) as [old|] eqn:Hold; cbn [default from_option id].
  - rewrite bool_decide_eq_true_2 by (by eexists). cbn [negb andb playback].
    set (w := watched_after thr old p). set (rch := reached thr (duration_of old p) p).
    assert (p_watched old = true -> w = true) as Hw by (unfold w, watched_after; by intros ->).
    split; [done|]. eexists. split; [done|]. cbn [p_watched played_s last_played_at play_count dismissed position_s].
    split_and!; try done.
    + destruct (p_watched old); [by rewrite Hw|done].
    + by destruct (fgt step zero), (dismissed old).
    + destruct rch; cbn [negb orb]; [|by left]. destruct w; [by left|by right].
  - rewrite bool_decide_eq_false_2 by (by intros [? ?]). cbn [negb andb playback p_watched play_count dismissed position_s].
    split; [done|]. eexists. split; [done|]. cbn [p_watched played_s last_played_at play_count dismissed position_s].
    set (w := watched_after _ _ _). clearbody w. rewrite orb_true_r. split_and!; try done. by left.
Qed.

(** Reports of one episode, one after another. *)
Fixpoint reports (thr : f64) (l : list (string * Z * PlaybackState)) (s : watching) : watching :=
  match l with
  | [] => s
  | (today, now, p) :: l' => reports thr l' (fst (SavePlayback thr today now p s))
  end.

(** What has played after the reports, added up as the code adds. *)
Definition played_sum (start : f64) (l : list PlaybackState) : f64 := foldl (fun acc p => fadd acc (step_of p)) start l.

(** A report that reaches the threshold when at least half has played. *)
Definition enough (thr : f64) (r : Play) (before : list PlaybackState) (p : PlaybackState) : Prop :=
  exists duration, fgt duration zero = true /\ fge (fdiv (Position p) duration) thr = true /\
    fge (played_sum (played_s r) (before ++ [p])) (fmul duration playedShare) = true /\
    (duration = Duration p \/ (fgt (Duration p) zero = false)).

Lemma reports_played thr k : forall l s, Forall (fun x => key_of x.2 = k) l ->
  played_s (row_of (playback (reports thr l s)) k) = played_sum (played_s (row_of (playback s) k)) (map snd l) /\
  (p_watched (row_of (playback (reports thr l s)) k) = true <->
   p_watched (row_of (playback s) k) = true \/
   exists before p after, map snd l = before ++ p :: after /\
     watched_after thr (row_of (playback (reports thr (take (length before) l) s)) k) p = true).
Proof.
  induction l as [|[[today now] p] l IH]; intros s Hl; cbn [reports].
  - split; [done|]. split; [by left|]. intros [?|(before & p & after & Heq & _)]; [done|by destruct before].
  - apply Forall_cons in Hl as [Hk Hl]. cbn [snd] in Hk.
    pose proof (SavePlayback_row thr today now p s) as Hrow. destruct (SavePlayback thr today now p s) as [s' w] eqn:Hs'.
    cbn [fst]. destruct Hrow as (Hw & r' & Ht & Hpw & Hps & _). destruct (IH s' Hl) as [IHp IHw]. rewrite Hk in *.
    assert (row_of (playback s') k = r') as Hr' by (unfold row_of; by rewrite Ht, lookup_insert_eq).
    rewrite Hr' in *. split.
    + rewrite IHp, Hps. done.
    + rewrite IHw, Hpw, Hw. split.
      * intros [Hnow|(before & q & after & Heq & Hq)].
        -- destruct (p_watched (row_of (playback s) k)) eqn:E; [by left|right]. exists [], p, (map snd l). done.
        -- right. exists (p :: before), q, after. cbn [map app snd length take reports]. rewrite Heq, Hs'. done.
      * intros [Hbefore|(before & q & after & Heq & Hq)].
        -- left. unfold watched_after. by rewrite Hbefore.
        -- destruct before as [|p' before]; cbn [map app snd] in Heq.
           ++ injection Heq as -> ->. by left.
           ++ injection Heq as -> Heq. right. exists before, q, after. split; [done|]. cbn [length take reports] in Hq. by rewrite Hs' in Hq.
Qed.

(** C29: an episode becomes watched only by playing it: if it did not count as watched before some reports and
    does after them, one of the reports put it past the threshold of a known length when
    at least half that length had really played, seeks not counted. *)
Theorem watched_by_playing thr k l s (Hl : Forall (fun x => key_of x.2 = k) l) (Hstart : p_watched (row_of (playback s) k) = false)
  (Hend : p_watched (row_of (playback (reports thr l s)) k) = true) :
  exists before p after, map snd l = before ++ p :: after /\ enough thr (row_of (playback s) k) before p.
Proof.
  destruct (reports_played thr k l s Hl) as [_ Hw]. apply Hw in Hend as [Hend|(before & p & after & Heq & Hp)]; [congruence|].
  (* the first such report *)
  clear Hw. remember (length before) as n eqn:Hn.
  revert before p after Heq Hp Hn. induction n as [n IH] using lt_wf_ind. intros before p after Heq Hp Hn.
  set (l0 := take n l) in *.
  assert (Forall (fun x => key_of x.2 = k) l0) as Hl0 by (by apply Forall_take).
  assert (map snd l0 = before) as Hl0s.
  { unfold l0. by rewrite <- firstn_map, Heq, Hn, take_app_length. }
  destruct (reports_played thr k l0 s Hl0) as [Hplayed Hw0].
  destruct (p_watched (row_of (playback (reports thr l0 s)) k)) eqn:Hearlier.
  - destruct (proj1 Hw0 eq_refl) as [|(b & q & a & Hb & Hq)]; [congruence|].
    assert (length b < n)%nat as Hlt by (rewrite Hn, <- Hl0s, Hb, length_app; simpl; lia).
    apply (IH (length b) Hlt b q (a ++ p :: after)); [|by (unfold l0 in Hq; rewrite take_take, Nat.min_l in Hq by lia)|done].
    rewrite Heq, <- Hl0s, Hb, <- app_assoc. done.
  - exists before, p, after. split; [done|]. unfold watched_after in Hp. rewrite Hearlier in Hp. cbn [orb] in Hp.
    apply andb_true_iff in Hp as [Hreach Hhalf]. unfold reached in Hreach. apply andb_true_iff in Hreach as [Hpos Hthr].
    exists (duration_of (row_of (playback (reports thr l0 s)) k) p). split_and!; [done|done| |].
    + unfold played_after in Hhalf. rewrite Hplayed, Hl0s in Hhalf. unfold played_sum in *. by rewrite foldl_app.
    + unfold duration_of. destruct (fgt (Duration p) zero); auto.
Qed.

(** ** Witnesses *)

Definition minute (at_s played : Z) : string * Z * PlaybackState :=
  ("2026-01-01", 0, mkReport 1 "1" (of_int at_s) (of_int 200) (of_int played)).

Definition sitting : list (string * Z * PlaybackState) := [minute 60 60; minute 110 50; minute 190 5].

Definition nothing_seen : watching := mkWatching ∅ ∅.

Lemma watched_by_playing_witness :
  exists before p after, map snd sitting = before ++ p :: after /\
    enough (of_ratio 9 10) (row_of (playback nothing_seen) (1, "1"%string)) before p.
Proof.
  apply (watched_by_playing (of_ratio 9 10) (1, "1"%string) sitting nothing_seen).
  - repeat constructor.
  - reflexivity.
  - vm_compute. reflexivity.
Defined.

(** A jump to the credits is not a watch, and keeps the place. *)
Example jump_not_watched :
  let s := reports (of_ratio 9 10) [minute 60 60; minute 199 5] nothing_seen in
  p_watched (row_of (playback s) (1, "1"%string)) = false /\ feq (position_s (row_of (playback s) (1, "1"%string))) (of_int 60) = true.
Proof. vm_compute. split; reflexivity. Qed.
