(* ===== verification/Lists.v ===== *)
(** * What has been watched: internal/store/sync.go, tracker.go, library.go (ImportList)

    The list the trackers share: [list_entry], one row per show with its status, progress,
    score and finished rewatches; [dirty], set until AniList has been told; [tracker_push],
    what MyAnimeList was last told.  A statement is a function on the tables.  The clock
    ([now], Unix seconds) and the day ([today]) are arguments; [corpus] is what
    the corpus knows of a show the library has no row for. *)
From stdpp Require Import base gmap sets strings list.
From Stdlib Require Import ZArith Lia.
From S2P Require Import Prelude GoStr Watch.

(** ** Tables *)

Record Entry := mkEntry {
  ID : Z; Status : option string; Progress : Z; Score : Z; Repeat : Z;
  StartedAt : option string; CompletedAt : option string;
  remote_updated : Z; local_updated : Z; dirty : bool; score_cleared : bool;
  anilist_failed : Z; mal_failed : Z;
}.

#[export] Instance Entry_eq : EqDecision Entry.
Proof. solve_decision. Defined.

(** [anime], as far as the lists read it. *)
Record Anime := mkAnime { mal_id : option Z; episode_count : option Z }.

(** A row of [tracker_push] for MyAnimeList. *)
Record Told := mkTold { told_progress : Z; told_status : string; told_score : Z }.

Record lists := mkLists {
  entries : gmap Z Entry; anime : gmap Z Anime; pushed : gmap Z Told; playback : gmap ep Play; follow : gset Z;
}.

Definition set_entries (s : lists) (f : gmap Z Entry -> gmap Z Entry) : lists :=
  mkLists (f (entries s)) (anime s) (pushed s) (playback s) (follow s).
Definition set_pushed (s : lists) (f : gmap Z Told -> gmap Z Told) : lists :=
  mkLists (entries s) (anime s) (f (pushed s)) (playback s) (follow s).
Definition set_playback (s : lists) (f : gmap ep Play -> gmap ep Play) : lists :=
  mkLists (entries s) (anime s) (pushed s) (f (playback s)) (follow s).

(** What a push would say of an entry. *)
Definition edited (e : Entry) (status : option string) (progress score repeat : Z) (completed : option string)
    (local : Z) (cleared d : bool) : Entry :=
  mkEntry (ID e) status progress score repeat (StartedAt e) completed (remote_updated e) local d cleared
    (anilist_failed e) (mal_failed e).

(** An edit is newer than the last, even within a second of it. *)
Definition bump (now : Z) (e : Entry) : Z := Z.max now (local_updated e + 1).

(** Local rows take the ids below the lowest, and below zero. *)
Definition fresh_id (t : gmap Z Entry) : Z := map_fold (fun _ e lowest => Z.min (ID e) lowest) 0 t - 1.

Definition new_entry (t : gmap Z Entry) (status : option string) (progress score repeat : Z)
    (began completed : option string) (now : Z) : Entry :=
  mkEntry (fresh_id t) status progress score repeat began completed 0 now true false 0 0.

Definition EnsureAnime (corpus : gmap Z Anime) (a : Z) (s : lists) : lists :=
  if a =? 0 then s
  else
    match anime s !! a with
    | Some _ => s
    | None => mkLists (entries s) (<[a := default (mkAnime None None) (corpus !! a)]> (anime s)) (pushed s) (playback s) (follow s)
    end.

Definition ListStatuses : list string := ["CURRENT"; "COMPLETED"; "PAUSED"; "DROPPED"; "PLANNING"; "REPEATING"].

Definition ValidStatus (status : string) : bool := existsb (String.eqb status) ListStatuses.

Definition is_status (s : string) (e : Entry) : bool := bool_decide (Status e = Some s).

Definition nullif (s : string) : option string := if String.eqb s "" then None else Some s.

(** ** Edits *)

(** The first statement of [MarkWatched], and how many rows it changed. *)
Definition mark_upsert (a episode now : Z) (today : string) (t : gmap Z Entry) : gmap Z Entry * bool :=
  match t !! a with
  | None => (<[a := new_entry t (Some "CURRENT") episode 0 0 (Some today) None now]> t, true)
  | Some e =>
      if (Progress e <? episode) || bool_decide (Status e = None) then
        let status := if is_status "COMPLETED" e || is_status "REPEATING" e then Status e else Some "CURRENT" in
        let began := match StartedAt e with Some d => Some d | None => Some today end in
        (<[a := mkEntry (ID e) status (Z.max (Progress e) episode) (Score e) (Repeat e) began (CompletedAt e)
                  (remote_updated e) (bump now e) (if Progress e <? episode then true else dirty e) (score_cleared e)
                  (anilist_failed e) (mal_failed e)]> t, true)
      else (t, false)
  end.

Definition all_watched (an : gmap Z Anime) (a : Z) (e : Entry) : bool :=
  match an !! a with
  | Some (mkAnime _ (Some n)) => (0 <? n) && (n <=? Progress e)
  | _ => false
  end.

(** The second: the last episode completes the entry. *)
Definition mark_complete (an : gmap Z Anime) (a : Z) (today : string) (t : gmap Z Entry) : gmap Z Entry :=
  match t !! a with
  | Some e =>
      if negb (is_status "COMPLETED" e) && negb (bool_decide (Status e = None)) && (0 <? Progress e) && all_watched an a e then
        <[a := edited e (Some "COMPLETED") (Progress e) (Score e) (Repeat e + (if is_status "REPEATING" e then 1 else 0))
                 (Some today) (local_updated e) (score_cleared e) true]> t
      else t
  | None => t
  end.

(** The two statements are two transactions. *)
Definition mark_first (corpus : gmap Z Anime) (a episode now : Z) (today : string) (s : lists) : lists * bool :=
  let s := EnsureAnime corpus a s in
  let '(t, changed) := mark_upsert a episode now today (entries s) in (set_entries s (fun _ => t), changed).

Definition mark_second (a : Z) (today : string) (s : lists) : lists := set_entries s (mark_complete (anime s) a today).

Definition MarkWatched (corpus : gmap Z Anime) (a episode now : Z) (today : string) (s : lists) : lists * bool :=
  if (a =? 0) || (episode <=? 0) then (s, false)
  else let '(s, changed) := mark_first corpus a episode now today s in (mark_second a today s, changed).

(** A key that begins with a digit, and the number it begins with. *)
Definition digit_of (c : Ascii.ascii) : option Z :=
  let n := Z.of_nat (Ascii.nat_of_ascii c) in if (48 <=? n) && (n <=? 57) then Some (n - 48) else None.

Fixpoint cast_digits (acc : Z) (s : string) : Z :=
  match s with
  | EmptyString => acc
  | String c s' => match digit_of c with Some d => cast_digits (10 * acc + d) s' | None => acc end
  end.

Definition key_from (episode : Z) (k : string) : bool :=
  match k with
  | String c _ => match digit_of c with Some _ => episode <=? cast_digits 0 k | None => false end
  | EmptyString => false
  end.

(** [watched = 0, position_s = 0, played_s = 0], and [dismissed]. *)
Definition unplay (d : bool) (p : Play) : Play := mkPlay zero (duration_s p) zero false (play_count p) (last_played_at p) d.

Definition Unwatch (a episode now : Z) (s : lists) : lists :=
  if (a =? 0) || (episode <=? 0) then s
  else
    let t := match entries s !! a with
      | Some e =>
          if (episode - 1 <? Progress e) || is_status "COMPLETED" e then
            <[a := edited e (if is_status "COMPLETED" e then Some "CURRENT" else Status e) (Z.min (Progress e) (episode - 1))
                     (Score e) (Repeat e) (if is_status "COMPLETED" e then None else CompletedAt e) (bump now e) (score_cleared e) true]>
              (entries s)
          else entries s
      | None => entries s
      end in
    set_playback (set_entries s (fun _ => t))
      (map_imap (fun k p => Some (if (k.1 =? a) && key_from episode k.2 then unplay (dismissed p) p else p))).

Definition SetScore (corpus : gmap Z Anime) (a score now : Z) (s : lists) : lists :=
  if (a =? 0) || (score <? 0) || (100 <? score) then s
  else
    let s := EnsureAnime corpus a s in
    set_entries s (fun t =>
      <[a := match t !! a with
             | None => new_entry t (Some "PLANNING") 0 score 0 None None now
             | Some e => edited e (Status e) (Progress e) score (Repeat e) (CompletedAt e) (bump now e) (score =? 0) true
             end]> t).

Record RemoteEntry := mkRemote { r_AnimeID : Z; r_Status : string; r_Progress : Z; r_Score : Z; r_Repeat : Z; Since : Z }.

Definition ApplyRemote (corpus : gmap Z Anime) (r : RemoteEntry) (now : Z) (today : string) (s : lists) : lists * bool :=
  let a := r_AnimeID r in
  if a =? 0 then (s, false)
  else
    let status := if negb (String.eqb (r_Status r) "") && negb (ValidStatus (r_Status r)) then "" else r_Status r in
    let s := EnsureAnime corpus a s in
    let t := entries s in
    let completed := if String.eqb status "COMPLETED" then Some today else None in
    match t !! a with
    | None => (set_entries s (fun _ => <[a := new_entry t (nullif status) (r_Progress r) (r_Score r) (r_Repeat r) None completed now]> t), true)
    | Some e =>
        if local_updated e <=? Since r then
          (set_entries s (fun _ =>
            <[a := edited e (match nullif status with Some x => Some x | None => Status e end) (r_Progress r) (r_Score r)
                     (Z.max (Repeat e) (r_Repeat r)) (match completed with Some d => Some d | None => CompletedAt e end)
                     (bump now e) (score_cleared e) true]> t), true)
        else (s, false)
    end.

Definition SetListStatus (corpus : gmap Z Anime) (a : Z) (status : string) (score now : Z) (today : string) (s : lists) : lists :=
  if (a =? 0) || String.eqb status "" then s
  else
    let s := EnsureAnime corpus a s in
    let t := entries s in
    let completed := if String.eqb status "COMPLETED" then Some today else None in
    let previous := default "" (t !! a ≫= Status) in
    let starting := String.eqb status "REPEATING" && negb (String.eqb previous "REPEATING") in
    let t' := <[a := match t !! a with
      | None => new_entry t (Some status) 0 (if score <? 0 then 0 else score) 0 None completed now
      | Some e =>
          edited e (Some status) (if starting then 0 else Progress e) (if score <? 0 then Score e else score) (Repeat e)
            (match completed with Some d => Some d | None => CompletedAt e end) (bump now e)
            (if score =? 0 then true else if 0 <? score then false else score_cleared e) true
      end]> t in
    let s := set_entries s (fun _ => t') in
    if starting then set_playback s (map_imap (fun k p => Some (if k.1 =? a then unplay false p else p))) else s.

(** ** Pushing to AniList *)

Definition clampLimit (v def max : Z) : Z := if (v <=? 0) || (max <? v) then def else v.

(** [DirtyEntries], from the rows in the order they were read; a MAL-only show has a negative id. *)
Definition push_before (x y : Z * Entry) : bool :=
  (anilist_failed x.2 <? anilist_failed y.2) ||
  ((anilist_failed x.2 =? anilist_failed y.2) && (local_updated x.2 <? local_updated y.2)).

Definition DirtyEntries (rows : list (Z * Entry)) (limit : Z) : list (Z * Entry) :=
  take (Z.to_nat (clampLimit limit 25 200))
    (sort_by push_before (List.filter (fun x => dirty x.2 && (0 <? x.1)) rows)).

(** Another row has the id: the statement fails, and changes nothing. *)
Definition id_taken (a id : Z) (t : gmap Z Entry) : bool :=
  existsb (fun x => negb (x.1 =? a) && (ID x.2 =? id)) (map_to_list t).

Definition ClearDirtyAt (a remoteID remoteUpdatedAt changed : Z) (s : lists) : option lists :=
  match entries s !! a with
  | None => Some s
  | Some e =>
      let id := if remoteID =? 0 then ID e else remoteID in
      if id_taken a id (entries s) then None
      else
        let seen := local_updated e <=? changed in
        Some (set_entries s (insert a
          (mkEntry id (Status e) (Progress e) (Score e) (Repeat e) (StartedAt e) (CompletedAt e) remoteUpdatedAt (local_updated e)
             (if seen then false else dirty e) (if seen then false else score_cleared e) 0 (mal_failed e))))
  end.

Inductive tracker := AniList | MAL.

Definition PushFailed (tr : tracker) (a now : Z) (s : lists) : lists :=
  set_entries s (alter (fun e =>
    mkEntry (ID e) (Status e) (Progress e) (Score e) (Repeat e) (StartedAt e) (CompletedAt e) (remote_updated e) (local_updated e)
      (dirty e) (score_cleared e) (match tr with AniList => now | MAL => anilist_failed e end)
      (match tr with AniList => mal_failed e | MAL => now end)) a).

Definition RemoveListEntry (a : Z) (s : lists) : lists :=
  mkLists (delete a (entries s)) (anime s) (delete a (pushed s)) (playback s) (follow s ∖ {[a]}).

(** ** Importing AniList's list *)

(** A row of the list as AniList answers it. *)
Record Listed := mkListed {
  l_ID : Z; l_AnimeID : Z; l_Status : option string; l_Progress : Z; l_Score : Z; l_Repeat : Z;
  l_StartedAt : option string; l_CompletedAt : option string; l_UpdatedAt : Z;
}.

#[export] Instance Listed_eq : EqDecision Listed.
Proof. solve_decision. Defined.

Inductive ImportMode := ImportMerge | ImportReplace.

Definition taken_over (e : Entry) (l : Listed) (id : Z) : Entry :=
  mkEntry id (l_Status l) (l_Progress l) (l_Score l) (l_Repeat l) (l_StartedAt l) (l_CompletedAt l) (l_UpdatedAt l)
    (local_updated e) false (score_cleared e) (anilist_failed e) (mal_failed e).

(** The guard of a merge. *)
Definition outranked (mode : ImportMode) (l : Listed) (e : Entry) : bool :=
  match mode with ImportMerge => negb (dirty e) && (remote_updated e <? l_UpdatedAt l) | ImportReplace => true end.

(** A row with the list entry's id comes first, then the show's own. *)
Definition upsert_listed (mode : ImportMode) (now : Z) (t : gmap Z Entry) (l : Listed) : gmap Z Entry :=
  match List.find (fun x => ID x.2 =? l_ID l) (map_to_list t) with
  | Some (a, e) => if outranked mode l e then <[a := taken_over e l (ID e)]> t else t
  | None =>
      match t !! l_AnimeID l with
      | Some e => if outranked mode l e then <[l_AnimeID l := taken_over e l (l_ID l)]> t else t
      | None =>
          <[l_AnimeID l := mkEntry (l_ID l) (l_Status l) (l_Progress l) (l_Score l) (l_Repeat l) (l_StartedAt l) (l_CompletedAt l)
                             (l_UpdatedAt l) now false false 0 0]> t
      end
  end.

Definition dropMissingEntries (keep : list Listed) (t : gmap Z Entry) : gmap Z Entry :=
  filter (fun x : Z * Entry => (x.1 <=? 0) || existsb (fun l => l_AnimeID l =? x.1) keep = true) t.

(** The entries of [ImportList], the shows' own columns having been stored before them. *)
Definition ImportList (mode : ImportMode) (now : Z) (l : list Listed) (s : lists) : lists :=
  set_entries s (fun t =>
    let t := foldl (upsert_listed mode now) t l in
    match mode with ImportMerge => t | ImportReplace => dropMissingEntries l t end).

(** ** Telling MyAnimeList *)

Record TrackerEntry := mkTracker {
  t_AnimeID : Z; RemoteID : Z; t_Status : string; t_Progress : Z; t_Episodes : Z; t_Repeat : Z; t_Score : Z; LastScore : Z;
}.

Definition status_text (e : Entry) : string := default "" (Status e).

(** Another entry speaks for the MAL id. *)
Definition sharesMALID (s : lists) (malID a : Z) (e : Entry) : bool :=
  existsb (fun x =>
    match anime s !! x.1 with
    | Some (mkAnime (Some m) _) =>
        (m =? malID) && negb (x.1 =? a) &&
        ((local_updated e <? local_updated x.2) || ((local_updated x.2 =? local_updated e) && (x.1 <? a)))
    | _ => false
    end) (map_to_list (entries s)).

Definition untold (p : option Told) (e : Entry) : bool :=
  match p with
  | None => true
  | Some p => negb (told_progress p =? Progress e) || negb (String.eqb (told_status p) (status_text e)) || negb (told_score p =? Score e)
  end.

(** One row of [pendingMAL]. *)
Definition pending (s : lists) (a : Z) (e : Entry) : option TrackerEntry :=
  match anime s !! a with
  | Some (mkAnime (Some malID) episodes) =>
      if (0 <? malID) && negb (sharesMALID s malID a e) && untold (pushed s !! a) e &&
         negb (String.eqb (status_text e) "" && (Progress e =? 0))
      then Some (mkTracker a malID (status_text e) (Progress e) (default 0 episodes) (Repeat e) (Score e)
                   (from_option told_score 0 (pushed s !! a)))
      else None
  | _ => None
  end.

Definition mal_before (x y : Z * Entry) : bool :=
  (mal_failed x.2 <? mal_failed y.2) || ((mal_failed x.2 =? mal_failed y.2) && (local_updated x.2 <? local_updated y.2)).

Definition PendingMALPush (s : lists) (a : Z) : option TrackerEntry := entries s !! a ≫= pending s a.

Definition PendingMALPushes (s : lists) (rows : list (Z * Entry)) (limit : Z) : list TrackerEntry :=
  take (Z.to_nat (clampLimit limit 25 200)) (omap (fun x => pending s x.1 x.2) (sort_by mal_before rows)).

Definition MarkPushed (a progress : Z) (status : string) (score : Z) (s : lists) : lists :=
  set_entries (set_pushed s (insert a (mkTold progress status score)))
    (alter (fun e =>
      mkEntry (ID e) (Status e) (Progress e) (Score e) (Repeat e) (StartedAt e) (CompletedAt e) (remote_updated e) (local_updated e)
        (dirty e) (score_cleared e) (anilist_failed e) 0) a).

Definition SeedPushed (marks : list TrackerEntry) (s : lists) : lists :=
  set_pushed s (fun p => foldl (fun p m =>
    if t_AnimeID m =? 0 then p else <[t_AnimeID m := mkTold (t_Progress m) (t_Status m) (t_Score m)]> p) p marks).
