(* ===== verification/Sync.v ===== *)
(** * Keeping the list and its trackers in agreement: internal/library/sync.go, mal.go

    AniList and the local list change behind each other's backs: the viewer edits here while a push
    is in flight, or on the site; a list read from the site is applied a moment later.
    The steps of a push and of a pull are separate steps of a relation, so that anything
    may come between them.  AniList is what its API says it is: it keeps what a
    save sends, stamps each change with its clock in seconds, and never gives two shows
    one entry id. *)
From stdpp Require Import base gmap sets strings list.
From Stdlib Require Import ZArith Lia.
From S2P Require Import Prelude GoStr Watch Lists.

(** ** A push *)

(** The variables of the mutation: a field left out keeps the site's value. *)
Record Sent := mkSent {
  s_Progress : Z; s_Status : option string; s_Score : option Z; s_Repeat : option Z; s_Completed : option (Z * Z * Z);
}.

Definition fuzzyDate (s : string) : option (Z * Z * Z) :=
  match split s "-" with
  | [y; m; d] =>
      if snd (atoi y) && snd (atoi m) && snd (atoi d) && negb (atoi_val y =? 0) then Some (atoi_val y, atoi_val m, atoi_val d) else None
  | _ => None
  end.

Section sync.
Context `{Unicode}.

(** [push] and [SetProgress]. *)
Definition sent (d : Entry) : Sent :=
  let status := default "" (Status d) in
  mkSent (Progress d) (if String.eqb status "" then None else Some status)
    (if (0 <? Score d) || (score_cleared d && (Score d =? 0)) then Some (Score d) else None)
    (if 0 <? Repeat d then Some (Repeat d) else None)
    (if equal_fold status "COMPLETED" then fuzzyDate (default "" (CompletedAt d)) else None).

(** The site's entry has what was sent. *)
Definition holds (v : Sent) (r : Listed) : Prop :=
  l_Progress r = s_Progress v /\
  (forall st, s_Status v = Some st -> l_Status r = Some st) /\
  (forall sc, s_Score v = Some sc -> l_Score r = sc) /\
  (forall n, s_Repeat v = Some n -> l_Repeat r = n).

(** ** The two sides *)

(** A push under way, of the show [anime], with the entry as read and, once the site has saved it,
    the id and the stamp it answered.  The push lock allows one. *)
Record inflight := mkPush { p_anime : Z; p_read : Entry; p_saved : option (Z * Z) }.

(** [stamp] is the latest stamp AniList gave a change of each show's entry; [pulls] the lists
    read from it so far, each of which may still be applied.  [unsure] is not the code's: the shows
    for which one of the ways below has let the two sides drift apart. *)
Record world := mkWorld {
  db : lists; site : gmap Z Listed; stamp : gmap Z Z; pulls : list (list Listed); push : option inflight; unsure : gset Z;
}.

Definition stamp_of (w : world) (a : Z) : Z := default 0 (stamp w !! a).
Definition row (w : world) (a : Z) : option Entry := entries (db w) !! a.

Definition set_db (w : world) (s : lists) : world := mkWorld s (site w) (stamp w) (pulls w) (push w) (unsure w).
Definition set_push (w : world) (p : option inflight) : world := mkWorld (db w) (site w) (stamp w) (pulls w) p (unsure w).
Definition drift (b : bool) (a : Z) (w : world) : world :=
  if b then mkWorld (db w) (site w) (stamp w) (pulls w) (push w) ({[a]} ∪ unsure w) else w.

Definition pushing (w : world) (a : Z) : bool := match push w with Some p => p_anime p =? a | None => false end.

(** Some list read holds a version of the show's entry with this stamp. *)
Definition pulled_at (w : world) (a u : Z) : bool :=
  existsb (existsb (fun l => (l_AnimeID l =? a) && (l_UpdatedAt l =? u))) (pulls w).

Context (corpus : gmap Z Anime) (owner : Z -> Z).

(** An entry AniList may hold for the show. *)
Definition listed_ok (a : Z) (r : Listed) : Prop := l_AnimeID r = a /\ 0 < l_ID r /\ owner (l_ID r) = a.

(** The first statement of [MarkWatched] gives a status without marking the row, when it had none and
    its progress is no less; the second completes the row without moving [local_updated]. *)
Definition silent_status (w : world) (a episode : Z) : bool :=
  match row w a with Some e => bool_decide (Status e = None) && negb (Progress e <? episode) && negb (dirty e) | None => false end.

Definition silent_completion (w : world) (a : Z) (today : string) : bool :=
  pushing w a && negb (bool_decide (mark_complete (anime (db w)) a today (entries (db w)) !! a = row w a)).

Definition saved_world (a : Z) (r : Listed) (w : world) : world :=
  mkWorld (db w) (<[a := r]> (site w)) (<[a := l_UpdatedAt r]> (stamp w)) (pulls w) (push w) (unsure w).

Inductive step : world -> world -> Prop :=
  (** The viewer's edits, and what MyAnimeList's side brings. *)
  | marks_first w a episode now today :
      a <> 0 -> 0 < episode ->
      step w (drift (silent_status w a episode) a (set_db w (fst (mark_first corpus a episode now today (db w)))))
  | marks_second w a today : step w (drift (silent_completion w a today) a (set_db w (mark_second a today (db w))))
  | unwatches w a episode now : step w (set_db w (Unwatch a episode now (db w)))
  | scores w a score now : step w (set_db w (SetScore corpus a score now (db w)))
  | sets_status w a status score now today : step w (set_db w (SetListStatus corpus a status score now today (db w)))
  | applies_remote w r now today : step w (set_db w (fst (ApplyRemote corpus r now today (db w))))
  | notes_failure w tr a now : step w (set_db w (PushFailed tr a now (db w)))
  | notes_told w a progress status score : step w (set_db w (MarkPushed a progress status score (db w)))
  (** [pushLatest], under the lock: read, save, clear. *)
  | push_reads w a e force :
      push w = None -> 0 < a -> row w a = Some e -> dirty e || force = true -> step w (set_push w (Some (mkPush a e None)))
  | push_saves w a e r :
      push w = Some (mkPush a e None) -> listed_ok a r -> holds (sent e) r -> stamp_of w a <= l_UpdatedAt r ->
      step w (drift (pulled_at w a (l_UpdatedAt r)) a (set_push (saved_world a r w) (Some (mkPush a e (Some (l_ID r, l_UpdatedAt r))))))
  | push_fails w p : push w = Some p -> step w (set_push w None)
  | push_clears w a e id u s :
      push w = Some (mkPush a e (Some (id, u))) -> ClearDirtyAt a id u (local_updated e) (db w) = Some s ->
      step w (set_push (set_db w s) None)
  (** [importer.Run]: the list is read, and stored. *)
  | pull_reads w l :
      (forall r, r ∈ l -> site w !! l_AnimeID r = Some r) ->
      step w (mkWorld (db w) (site w) (stamp w) (l :: pulls w) (push w) (unsure w))
  | pull_stores w l mode now :
      l ∈ pulls w ->
      step w (match push w with Some p => drift true (p_anime p) | None => id end (set_db w (ImportList mode now l (db w))))
  (** Changes on the site; one within the second of the last goes unseen. *)
  | site_edits w a r :
      listed_ok a r -> stamp_of w a <= l_UpdatedAt r ->
      step w (drift (l_UpdatedAt r =? stamp_of w a) a (saved_world a r w))
  | site_deletes w a : step w (mkWorld (db w) (delete a (site w)) (stamp w) (pulls w) (push w) (unsure w))
  (** [Remove], under the lock. *)
  | removes w a : push w = None -> step w (set_db w (RemoveListEntry a (db w))).

Definition empty_lists : lists := mkLists ∅ ∅ ∅ ∅ ∅.

Inductive reachable : world -> Prop :=
  | at_first : reachable (mkWorld empty_lists ∅ ∅ [] None ∅)
  | after w w' : reachable w -> step w w' -> reachable w'.

(** ** The invariant *)

(** A row's content, as a push sends it. *)
Definition same_content (e e' : Entry) : Prop :=
  Status e = Status e' /\ Progress e = Progress e' /\ Score e = Score e' /\ Repeat e = Repeat e' /\ score_cleared e = score_cleared e'.

Definition agrees_at (w : world) (a : Z) (e : Entry) : Prop :=
  dirty e = false -> forall r, site w !! a = Some r -> remote_updated e = l_UpdatedAt r -> holds (sent e) r.

Record row_ok (w : world) (a : Z) (e : Entry) : Prop := {
  row_id : ID e <= 0 \/ owner (ID e) = a;
  row_stamp : remote_updated e <= stamp_of w a;
  row_agrees : a ∉ unsure w -> agrees_at w a e;
}.

Record push_ok (w : world) (p : inflight) : Prop := {
  push_row : p_anime p ∉ unsure w -> exists e, row w (p_anime p) = Some e /\
    ((local_updated e = local_updated (p_read p) /\ same_content e (p_read p)) \/
     (local_updated (p_read p) < local_updated e /\ dirty e = true));
  push_id : forall id u, p_saved p = Some (id, u) -> 0 < id /\ owner id = p_anime p /\ u <= stamp_of w (p_anime p);
  push_said : forall id u r, p_saved p = Some (id, u) -> p_anime p ∉ unsure w ->
    site w !! p_anime p = Some r -> l_UpdatedAt r = u -> holds (sent (p_read p)) r;
}.

Record inv (w : world) : Prop := {
  inv_rows : forall a e, row w a = Some e -> row_ok w a e;
  inv_stamp : forall a, 0 <= stamp_of w a;
  inv_site : forall a r, site w !! a = Some r -> listed_ok a r /\ l_UpdatedAt r = stamp_of w a;
  inv_pulls : forall l r, l ∈ pulls w -> r ∈ l ->
    listed_ok (l_AnimeID r) r /\ l_UpdatedAt r <= stamp_of w (l_AnimeID r) /\
    (l_AnimeID r ∉ unsure w -> forall r', site w !! l_AnimeID r = Some r' -> l_UpdatedAt r = l_UpdatedAt r' -> r = r');
  inv_push : forall p, push w = Some p -> push_ok w p;
}.

Lemma sent_same e e' r : same_content e e' -> holds (sent e) r -> holds (sent e') r.
Proof. intros (Hst & Hp & Hs & Hr & Hc). unfold holds, sent. cbn. by rewrite Hst, Hp, Hs, Hr, Hc. Qed.

#[local] Instance same_content_sym : Symmetric same_content.
Proof. unfold same_content. intros e e' (? & ? & ? & ? & ?). by split_and!. Qed.

#[local] Instance same_content_trans : Transitive same_content.
Proof. unfold same_content. intros e f g (? & ? & ? & ? & ?) (? & ? & ? & ? & ?). split_and!; congruence. Qed.

Lemma inv_drift w b a : inv w -> inv (drift b a w).
Proof.
  destruct b; [|done]. intros [Hr Ht Hs Hp Hq]. split; [..|cbn; done|cbn; done| |].
  - intros c e Hc. destruct (Hr c e Hc) as [? ? Ha]. split; [done|done|]. cbn. intros Hn. apply Ha. set_solver.
  - intros l r Hl Hin. cbn in *. destruct (Hp l r Hl Hin) as (? & ? & Hu). split_and!; [done|done|]. intros Hn. apply Hu. set_solver.
  - intros p Hpu. destruct (Hq p Hpu) as [Ha Hi Hd]. split; cbn.
    + intros Hn. apply Ha. set_solver.
    + done.
    + intros id u r Hsv Hn. apply (Hd id u); [done|set_solver].
Qed.

(** ** Edits *)

(** A row's bookkeeping moves, but not what a push would say. *)
Definition quiet (e e' : Entry) : Prop :=
  ID e' = ID e /\ remote_updated e' = remote_updated e /\ local_updated e' = local_updated e /\ dirty e' = dirty e /\ same_content e' e.

(** A row after an edit: as it was, or dirty, and newer if a push has read it. *)
Definition moved (w : world) (a : Z) (e' : Entry) : Prop :=
  (exists e, row w a = Some e /\ quiet e e') \/
  ((ID e' <= 0 /\ remote_updated e' = 0 /\ row w a = None \/ exists e, row w a = Some e /\ ID e' = ID e /\ remote_updated e' = remote_updated e /\
      (a ∈ unsure w \/ pushing w a = false \/ local_updated e < local_updated e')) /\
   (a ∈ unsure w \/ dirty e' = true)).

Lemma edit_inv w s : inv w ->
  (forall a e', entries s !! a = Some e' -> moved w a e') -> (forall a, is_Some (row w a) -> is_Some (entries s !! a)) ->
  inv (set_db w s).
Proof.
  intros [Hr Ht Hs Hp Hq] Hmoved Hkept. split; [|done|done|done|].
  - intros a e' He'. destruct (Hmoved a e' He') as [(e & He & Hid & Hrm & Hl & Hd & Hc)|[Hwhere Hdirty]].
    + destruct (Hr a e He) as [H1 H2 H3]. split; [by rewrite Hid|by rewrite Hrm|]. intros Hn Hd' r Hsite Hst. cbn in Hsite.
      apply (sent_same e); [by symmetry|]. apply (H3 Hn); [congruence|done|congruence].
    + assert ((ID e' <= 0 \/ owner (ID e') = a) /\ remote_updated e' <= stamp_of w a) as [H1 H2].
      { destruct Hwhere as [(H1 & H2 & _)|(e & He & H1 & H2 & _)]; [rewrite H2; auto|]. destruct (Hr a e He). by rewrite H1, H2. }
      split; [done|done|]. intros Hn Hd'. destruct Hdirty as [?|?]; [done|congruence].
  - intros p Hpu. destruct (Hq p Hpu) as [Hrow Hi Hd]. split; [|done|done]. cbn. intros Hn. destruct (Hrow Hn) as (e & He & Hcase).
    destruct (Hkept (p_anime p) ltac:(by eexists)) as [e' He']. exists e'. split; [done|].
    destruct (Hmoved _ e' He') as [(e0 & He0 & _ & _ & Hl & Hd' & Hc)|[Hwhere Hdirty]].
    + replace e0 with e in * by congruence. rewrite Hl, Hd'. destruct Hcase as [[? ?]|?]; [left|by right]. split; [done|by etrans].
    + destruct Hdirty as [?|Hdirty]; [done|]. destruct Hwhere as [(_ & _ & Hnone)|(e0 & He0 & _ & _ & Hnew)]; [congruence|].
      replace e0 with e in * by congruence. destruct Hnew as [?|[Hnp|Hnew]]; [done| |].
      * unfold pushing in Hnp. cbn in Hpu. by rewrite Hpu, Z.eqb_refl in Hnp.
      * right. split; [|done]. destruct Hcase as [[? _]|[? _]]; lia.
Qed.

(** The statements that insert one row or change it where it stands. *)
Lemma insert_inv w a e' : inv w -> moved w a e' -> inv (set_db w (set_entries (db w) (insert a e'))).
Proof.
  intros Hi Hm. apply edit_inv; [done|..]; cbn.
  - intros b e Hb. destruct (decide (b = a)) as [->|Hne].
    + rewrite lookup_insert_eq in Hb. by injection Hb as <-.
    + rewrite lookup_insert_ne in Hb by done. left. exists e. split; [done|]. done.
  - intros b Hb. destruct (decide (b = a)) as [->|Hne]; [by rewrite lookup_insert_eq|by rewrite lookup_insert_ne].
Qed.

Lemma alter_inv w a f : inv w -> (forall e, quiet e (f e)) -> inv (set_db w (set_entries (db w) (alter f a))).
Proof.
  intros Hi Hf. apply edit_inv; [done|..]; cbn.
  - intros b e Hb. left. destruct (decide (b = a)) as [->|Hne].
    + rewrite lookup_alter_eq in Hb. apply fmap_Some in Hb as (e0 & He0 & ->). exists e0. split; [done|apply Hf].
    + rewrite lookup_alter_ne in Hb by done. exists e. done.
  - intros b Hb. destruct (decide (b = a)) as [->|Hne]; [rewrite lookup_alter_eq; by apply fmap_is_Some|by rewrite lookup_alter_ne].
Qed.

(** Tables beside the rows do not matter. *)
Lemma inv_beside w s s' : entries s = entries s' -> inv (set_db w s) -> inv (set_db w s').
Proof.
  intros Heq [Hr Ht Hs Hp Hq]. unfold row in *. cbn in *. split; unfold row; cbn; try done.
  - intros a e. rewrite <- Heq. intros He. destruct (Hr a e He). by split.
  - intros p Hpu. destruct (Hq p Hpu) as [H1 H2 H3]. split; [|done|done]. unfold row in *. cbn in *. by rewrite <- Heq.
Qed.

Lemma fresh_id_low t : fresh_id t <= 0.
Proof.
  unfold fresh_id. apply (map_fold_weak_ind (fun r _ => r - 1 <= 0) (fun _ e lowest => Z.min (ID e) lowest)); [lia|]. intros; lia.
Qed.

Lemma moved_new w a st p sc n b c now : row w a = None -> moved w a (new_entry (entries (db w)) st p sc n b c now).
Proof. intros Hn. right. split; [left|by right]. split; [apply fresh_id_low|done]. Qed.

Lemma moved_edit w a e e' : row w a = Some e -> ID e' = ID e -> remote_updated e' = remote_updated e ->
  dirty e' = true -> (pushing w a = false \/ local_updated e < local_updated e') -> moved w a e'.
Proof. intros He H1 H2 H3 H4. right. split; [right|by right]. exists e. tauto. Qed.

Lemma bump_lt now e : local_updated e < bump now e.
Proof. unfold bump. lia. Qed.

Lemma EnsureAnime_entries a s : entries (EnsureAnime corpus a s) = entries s.
Proof. unfold EnsureAnime. repeat case_match; done. Qed.

(** One row inserted, whatever the other tables do. *)
Lemma insert_inv' w a e' s : inv w -> entries s = <[a := e']> (entries (db w)) -> moved w a e' -> inv (set_db w s).
Proof. intros Hi Hs Hm. apply (inv_beside w (set_entries (db w) (insert a e'))); [done|]. by apply insert_inv. Qed.

Lemma same_inv w s : inv w -> entries s = entries (db w) -> inv (set_db w s).
Proof. intros Hi Hs. apply (inv_beside w (db w)); [done|]. by destruct w. Qed.

Lemma Unwatch_inv w a episode now : inv w -> inv (set_db w (Unwatch a episode now (db w))).
Proof.
  intros Hi. unfold Unwatch. destruct (_ || _); [by apply same_inv|]. destruct (entries (db w) !! a) as [e|] eqn:He.
  2: by apply same_inv.
  destruct (_ || _); [|by apply same_inv]. eapply insert_inv'; [done|reflexivity|].
  eapply moved_edit; [done..|]. right. apply bump_lt.
Qed.

Lemma SetScore_inv w a score now : inv w -> inv (set_db w (SetScore corpus a score now (db w))).
Proof.
  intros Hi. unfold SetScore. destruct (_ || _ || _); [by apply same_inv|].
  eapply insert_inv'; [done|unfold set_entries; cbn [entries]; rewrite EnsureAnime_entries; reflexivity|].
  destruct (entries (db w) !! a) as [e|] eqn:He; [|by apply moved_new]. eapply moved_edit; [done..|]. right. apply bump_lt.
Qed.

Lemma SetListStatus_inv w a status score now today : inv w -> inv (set_db w (SetListStatus corpus a status score now today (db w))).
Proof.
  intros Hi. unfold SetListStatus. destruct ((a =? 0) || _); [by apply same_inv|]. rewrite !EnsureAnime_entries.
  set (new := match entries (db w) !! a with None => _ | Some e => _ end). cbv zeta.
  assert (moved w a new) as Hm.
  { unfold new. destruct (entries (db w) !! a) as [e|] eqn:He; [|by apply moved_new]. eapply moved_edit; [done..|]. right. apply bump_lt. }
  destruct (_ && _); (eapply insert_inv'; [done|reflexivity|done]).
Qed.

Lemma ApplyRemote_inv w r now today : inv w -> inv (set_db w (fst (ApplyRemote corpus r now today (db w)))).
Proof.
  intros Hi. unfold ApplyRemote. destruct (r_AnimeID r =? 0); [by apply same_inv|]. rewrite !EnsureAnime_entries.
  destruct (entries (db w) !! r_AnimeID r) as [e|] eqn:He.
  - destruct (local_updated e <=? Since r); cbn [fst].
    + eapply insert_inv'; [done|cbn; reflexivity|]. eapply moved_edit; [done..|]. right. apply bump_lt.
    + by apply same_inv; [|rewrite EnsureAnime_entries].
  - cbn [fst]. eapply insert_inv'; [done|cbn; reflexivity|]. by apply moved_new.
Qed.

Lemma PushFailed_inv w tr a now : inv w -> inv (set_db w (PushFailed tr a now (db w))).
Proof. intros Hi. by apply alter_inv. Qed.

Lemma MarkPushed_inv w a progress status score : inv w -> inv (set_db w (MarkPushed a progress status score (db w))).
Proof.
  intros Hi. unfold MarkPushed. apply (inv_beside w (set_entries (db w) (alter (fun e =>
    mkEntry (ID e) (Status e) (Progress e) (Score e) (Repeat e) (StartedAt e) (CompletedAt e) (remote_updated e) (local_updated e)
      (dirty e) (score_cleared e) (anilist_failed e) 0) a))); [done|]. by apply alter_inv.
Qed.

(** The first statement leaves a row clean only where [silent_status] says so. *)
Lemma mark_first_inv w a episode now today : inv w ->
  inv (drift (silent_status w a episode) a (set_db w (fst (mark_first corpus a episode now today (db w))))).
Proof.
  intros Hi. change (inv (drift ?b a (set_db w ?s))) with (inv (drift b a (set_db w s))).
  assert (forall b s, drift b a (set_db w s) = set_db (drift b a w) s) as -> by (by intros []).
  pose proof (inv_drift w (silent_status w a episode) a Hi) as Hd. unfold mark_first.
  destruct (mark_upsert _ _ _ _ _) as [t changed] eqn:Ht. cbn [fst]. unfold mark_upsert in Ht. rewrite EnsureAnime_entries in Ht.
  assert (row (drift (silent_status w a episode) a w) a = entries (db w) !! a) as Hrow by (by destruct (silent_status w a episode)).
  assert (db (drift (silent_status w a episode) a w) = db w) as Hdb by (by destruct (silent_status w a episode)).
  destruct (entries (db w) !! a) as [e|] eqn:He.
  - destruct ((Progress e <? episode) || _) eqn:Hc; injection Ht as <- <-.
    2: by apply same_inv; [|rewrite Hdb].
    eapply insert_inv'; [done|cbn; rewrite Hdb; reflexivity|].
    right. split; [right; exists e; split_and!; [done..|]; right; right; cbn; apply bump_lt|]. cbn.
    destruct (Progress e <? episode) eqn:Hp; [by right|]. cbn in Hc. destruct (dirty e) eqn:Hde; [by right|]. left.
    unfold silent_status, row. rewrite He, Hc, Hp, Hde. cbn. set_solver.
  - injection Ht as <- <-. eapply insert_inv'; [done|cbn; rewrite Hdb; reflexivity|].
    rewrite <- Hdb. by apply moved_new.
Qed.

(** The second is silent only on a row a push has read. *)
Lemma mark_second_inv w a today : inv w -> inv (drift (silent_completion w a today) a (set_db w (mark_second a today (db w)))).
Proof.
  intros Hi. assert (forall b s, drift b a (set_db w s) = set_db (drift b a w) s) as -> by (by intros []).
  pose proof (inv_drift w (silent_completion w a today) a Hi) as Hd.
  assert (row (drift (silent_completion w a today) a w) a = entries (db w) !! a) as Hrow by (by destruct (silent_completion w a today)).
  assert (db (drift (silent_completion w a today) a w) = db w) as Hdb by (by destruct (silent_completion w a today)).
  unfold mark_second, set_entries. set (t := mark_complete _ _ _ _) in *.
  destruct (decide (t !! a = row w a)) as [Hsame|Hdiff].
  - apply same_inv; [done|]. rewrite Hdb. cbn. unfold row, t, mark_complete in *. destruct (entries (db w) !! a) as [e|] eqn:He; [|done].
    destruct (_ && _); [|done]. rewrite lookup_insert_eq in Hsame. injection Hsame as ->. by apply insert_id.
  - assert (exists e e', entries (db w) !! a = Some e /\ t = <[a := e']> (entries (db w)) /\ ID e' = ID e /\
      remote_updated e' = remote_updated e /\ dirty e' = true) as (e & e' & He & Ht & Hid & Hr & Hde).
    { unfold t, mark_complete, row in *. destruct (entries (db w) !! a) as [e|] eqn:He; [|done]. destruct (_ && _); [|done].
      eexists e, _. split_and!; try done. }
    eapply insert_inv'; [done|cbn; rewrite Hdb; done|]. right. split; [right|by right]. exists e. split_and!; [congruence..|].
    unfold silent_completion. fold t. rewrite bool_decide_eq_false_2 by done. destruct (pushing w a) eqn:Hpu; cbn.
    + left. set_solver.
    + right. left. done.
Qed.

(** ** Pushing *)

Lemma push_reads_inv w a e : inv w -> row w a = Some e -> inv (set_push w (Some (mkPush a e None))).
Proof.
  intros [Hr Ht Hs Hp Hq] He. split; [|done..|].
  - intros b f Hf. by destruct (Hr b f Hf).
  - intros p [= <-]. split; cbn; try done. intros _. exists e. split; [done|]. left. done.
Qed.

Lemma push_ends_inv w : inv w -> inv (set_push w None).
Proof. intros [Hr Ht Hs Hp Hq]. split; try done. intros b f Hf. by destruct (Hr b f Hf). Qed.

Lemma stamp_saved w a r b : stamp_of (saved_world a r w) b = if decide (b = a) then l_UpdatedAt r else stamp_of w b.
Proof. unfold stamp_of. cbn. case_decide; subst; [by rewrite lookup_insert_eq|by rewrite lookup_insert_ne]. Qed.

Lemma pulled_at_elem w a u l r : l ∈ pulls w -> r ∈ l -> l_AnimeID r = a -> l_UpdatedAt r = u -> pulled_at w a u = true.
Proof.
  intros Hl Hr <- <-. unfold pulled_at. apply existsb_elem. exists l. split; [done|]. apply existsb_elem. exists r. split; [done|].
  by rewrite !Z.eqb_refl.
Qed.

(** A new version on the site, as far as the lists read and the other shows go; the row of its
    own show and the push are the caller's to settle. *)
Lemma new_version w a r b : inv w -> listed_ok a r -> stamp_of w a <= l_UpdatedAt r ->
  (b = false -> pulled_at w a (l_UpdatedAt r) = false) ->
  (forall e, row w a = Some e -> a ∉ unsure (drift b a w) -> agrees_at (saved_world a r w) a e) ->
  (forall p, push w = Some p -> push_ok (drift b a (saved_world a r w)) p) ->
  inv (drift b a (saved_world a r w)).
Proof.
  intros [Hr Ht Hs Hp Hq] Hok Hst Hb Hrow Hpush.
  assert (forall x, stamp_of (drift b a (saved_world a r w)) x = stamp_of (saved_world a r w) x) as Hdst by (by destruct b).
  assert (forall x, stamp_of w x <= stamp_of (saved_world a r w) x) as Hup by (intros x; rewrite stamp_saved; case_decide; subst; lia).
  assert (forall x, x ∉ unsure (drift b a (saved_world a r w)) -> x ∉ unsure w) as Hsub by (destruct b; cbn; set_solver).
  split.
  - intros c e Hc. assert (row w c = Some e) as Hc' by (by destruct b). destruct (Hr c e Hc') as [H1 H2 H3].
    split; [done|rewrite Hdst; specialize (Hup c); lia|]. intros Hn. destruct (decide (c = a)) as [->|Hne].
    + assert (agrees_at (saved_world a r w) a e) as Hag by (apply Hrow; [done|]; by destruct b). by destruct b.
    + intros Hd r' Hsite. assert (site w !! c = Some r') as Hsite' by (destruct b; cbn in Hsite; by rewrite lookup_insert_ne in Hsite).
      by apply (H3 (Hsub c Hn) Hd).
  - intros x. rewrite Hdst, stamp_saved. specialize (Ht x). specialize (Ht) as Ha. case_decide; [subst; lia|done].
  - intros c r' Hc. rewrite Hdst, stamp_saved. assert (<[a := r]> (site w) !! c = Some r') as Hc' by (by destruct b).
    case_decide as Hca; [subst c; rewrite lookup_insert_eq in Hc'; by injection Hc' as <-|].
    rewrite lookup_insert_ne in Hc' by done. by apply Hs.
  - intros l r0 Hl Hin. assert (l ∈ pulls w) as Hl' by (by destruct b). destruct (Hp l r0 Hl' Hin) as (H1 & H2 & H3).
    split_and!; [done|rewrite Hdst; specialize (Hup (l_AnimeID r0)); lia|]. intros Hn r' Hsite Heq.
    assert (<[a := r]> (site w) !! l_AnimeID r0 = Some r') as Hsite' by (by destruct b).
    destruct (decide (l_AnimeID r0 = a)) as [Ha|Hne].
    + rewrite Ha, lookup_insert_eq in Hsite'. injection Hsite' as <-. destruct b.
      * exfalso. apply Hn. cbn. set_solver.
      * rewrite (pulled_at_elem w a _ l r0 Hl' Hin Ha Heq) in Hb. by specialize (Hb eq_refl).
    + rewrite lookup_insert_ne in Hsite' by done. by apply H3; [apply Hsub|..].
  - intros p Hpu. apply Hpush. by destruct b.
Qed.

Lemma set_push_drift b a w p : set_push (drift b a w) p = drift b a (set_push w p).
Proof. by destruct b. Qed.

(** The save: the row, as the push read it or dirty, agrees with what the site now holds. *)
Lemma push_saves_inv w a e r : inv w -> push w = Some (mkPush a e None) -> listed_ok a r -> holds (sent e) r ->
  stamp_of w a <= l_UpdatedAt r ->
  inv (drift (pulled_at w a (l_UpdatedAt r)) a (set_push (saved_world a r w) (Some (mkPush a e (Some (l_ID r, l_UpdatedAt r)))))).
Proof.
  intros Hi Hpu Hok Hh Hst. pose proof (inv_push w Hi _ Hpu) as [Hrow _ _]. cbn in Hrow.
  pose proof (push_ends_inv w Hi) as Hi0.
  change (set_push (saved_world a r w) ?p) with (set_push (saved_world a r (set_push w None)) p).
  rewrite <- set_push_drift. set (b := pulled_at w a (l_UpdatedAt r)).
  assert (inv (drift b a (saved_world a r (set_push w None)))) as [Hr' Ht' Hs' Hp' _].
  { apply new_version; try done.
    - intros f Hf Hn. cbn in Hf. intros Hd r' Hr' Hst'. cbn in Hr'. rewrite lookup_insert_eq in Hr'. injection Hr' as <-.
      destruct Hrow as (f' & Hf' & Hcase); [by destruct b; cbn in Hn; set_solver|]. unfold row in *. cbn in Hf.
      replace f' with f in * by congruence. destruct Hcase as [[_ Hc]|[_ Hdirty]]; [|congruence].
      by apply (sent_same e); [symmetry|].  }
  split; [|done..|].
  - intros c f Hf. assert (row (drift b a (saved_world a r (set_push w None))) c = Some f) as Hf' by (by destruct b).
    by destruct (Hr' c f Hf').
  - intros p [= <-]. split; cbn.
    + intros Hn. destruct Hrow as (f & Hf & Hcase); [by destruct b; cbn in Hn; set_solver|]. exists f. split; [|done]. by destruct b.
    + intros id u [= <- <-]. destruct Hok as (_ & ? & ?). split_and!; [done|done|].
      assert (stamp_of (drift b a (saved_world a r (set_push w None))) a = l_UpdatedAt r) as Hsa.
      { destruct b; unfold stamp_of; cbn; by rewrite lookup_insert_eq. }
      unfold stamp_of in *. cbn in *. rewrite Hsa. done.
    + intros id u r' [= <- <-] Hn Hsite _. assert (<[a := r]> (site w) !! a = Some r') as Hs2 by (by destruct b).
      rewrite lookup_insert_eq in Hs2. by injection Hs2 as <-.
Qed.

(** The answer stored: clean if nothing has been edited since the read. *)
Lemma push_clears_inv w a e id u s : inv w -> push w = Some (mkPush a e (Some (id, u))) ->
  ClearDirtyAt a id u (local_updated e) (db w) = Some s -> inv (set_push (set_db w s) None).
Proof.
  intros Hi Hpu Hcl. pose proof (inv_push w Hi _ Hpu) as [Hrow Hids Hsaid]. cbn in *.
  destruct (Hids id u eq_refl) as (Hid & Hown & Hu). clear Hids. destruct Hi as [Hr Ht Hs Hp _].
  unfold ClearDirtyAt in Hcl. destruct (entries (db w) !! a) as [f|] eqn:Hf.
  2: { injection Hcl as <-. split; try done. intros b g Hg. by destruct (Hr b g Hg). }
  rewrite (proj2 (Z.eqb_neq id 0)) in Hcl by lia. destruct (id_taken _ _ _); [done|]. injection Hcl as <-.
  split; try done. intros b g Hg. unfold row in Hg. cbn in Hg. destruct (decide (b = a)) as [->|Hne].
  2: { rewrite lookup_insert_ne in Hg by done. by destruct (Hr b g Hg). }
  rewrite lookup_insert_eq in Hg. injection Hg as <-. split; cbn; [by right|done|]. intros Hn Hd r Hsite Hst. cbn in *.
  destruct (Hrow Hn) as (f' & Hf' & Hcase). unfold row in Hf'. replace f' with f in * by congruence.
  destruct Hcase as [[Hl Hc]|[Hl Hdirty]].
  - rewrite (proj2 (Z.leb_le _ _)) in * by lia. destruct (Hsaid id u r eq_refl Hn Hsite (eq_sym Hst)) as (H1 & H2 & H3 & H4).
    destruct Hc as (Hc1 & Hc2 & Hc3 & Hc4 & Hc5). unfold holds, sent in *. cbn in *. rewrite <- Hc1, <- Hc2, <- Hc3, <- Hc4 in *.
    split_and!; [done|done| |done]. intros sc. destruct (0 <? Score f); [auto|done].
  - rewrite (proj2 (Z.leb_gt _ _)) in * by lia. congruence.
Qed.

(** ** Pulling, and the site *)

Lemma pull_reads_inv w l : inv w -> (forall r, r ∈ l -> site w !! l_AnimeID r = Some r) ->
  inv (mkWorld (db w) (site w) (stamp w) (l :: pulls w) (push w) (unsure w)).
Proof.
  intros [Hr Ht Hs Hp Hq] Hl. split; [|done..| |].
  - intros b f Hf. by destruct (Hr b f Hf).
  - cbn. intros l' r [->|Hin]%elem_of_cons Hr'; [|by apply (Hp l')].
    destruct (Hs _ _ (Hl r Hr')) as [H1 H2]. split_and!; [done|unfold stamp_of in *; cbn; lia|]. intros _ r' Hr''.
    rewrite Hl in Hr'' by done. congruence.
  - intros p Hpu. by destruct (Hq p Hpu).
Qed.

Lemma site_edits_inv w a r : inv w -> listed_ok a r -> stamp_of w a <= l_UpdatedAt r ->
  inv (drift (l_UpdatedAt r =? stamp_of w a) a (saved_world a r w)).
Proof.
  intros Hi Hok Hst. apply new_version; [done..| | |].
  - intros Hne%Z.eqb_neq. apply not_true_iff_false. intros Hex. unfold pulled_at in Hex.
    apply existsb_elem in Hex as (l & Hl & Hex). apply existsb_elem in Hex as (r0 & Hr0 & Hb). bool_prop.
    destruct (inv_pulls w Hi l r0 Hl Hr0) as (_ & Hle & _). subst a. lia.
  - intros e He Hn Hd r' Hr' Heq. cbn in Hr'. rewrite lookup_insert_eq in Hr'. injection Hr' as <-. exfalso.
    destruct (inv_rows w Hi a e He) as [_ Hle _]. destruct (Z.eqb_spec (l_UpdatedAt r) (stamp_of w a)); [|lia].
    apply Hn. cbn. set_solver.
  - intros p Hpu. destruct (inv_push w Hi p Hpu) as [H1 H2 H3]. set (b := l_UpdatedAt r =? stamp_of w a).
    assert (forall x, x ∉ unsure (drift b a (saved_world a r w)) -> x ∉ unsure w) as Hsub by (destruct b; cbn; set_solver).
    split.
    + intros Hn. destruct (H1 (Hsub _ Hn)) as (e & He & ?). exists e. split; [|done]. by destruct b.
    + intros id u Hsv. destruct (H2 id u Hsv) as (? & ? & ?). split_and!; [done|done|].
      assert (forall x, stamp_of (drift b a (saved_world a r w)) x = stamp_of (saved_world a r w) x) as -> by (by destruct b).
      rewrite stamp_saved. case_decide as Hc; [rewrite Hc in *; lia|done].
    + intros id u r' Hsv Hn Hsite Hu. assert (<[a := r]> (site w) !! p_anime p = Some r') as Hsite' by (by destruct b).
      destruct (decide (p_anime p = a)) as [Hpa|Hne]; [|rewrite lookup_insert_ne in Hsite' by done; by apply (H3 id u); auto].
      rewrite Hpa, lookup_insert_eq in Hsite'. injection Hsite' as <-. destruct (H2 id u Hsv) as (_ & _ & Hle).
      exfalso. apply Hn. unfold b. rewrite (proj2 (Z.eqb_eq _ _)); [cbn; set_solver|]. rewrite Hpa in Hle. lia.
Qed.

Lemma site_deletes_inv w a : inv w -> inv (mkWorld (db w) (delete a (site w)) (stamp w) (pulls w) (push w) (unsure w)).
Proof.
  intros [Hr Ht Hs Hp Hq].
  assert (forall b r, delete a (site w) !! b = Some r -> site w !! b = Some r) as Hdel by (intros b r [_ ?]%lookup_delete_Some; done).
  split; cbn; [|done|..].
  - intros b f Hf. destruct (Hr b f Hf) as [H1 H2 H3]. split; [done|done|]. intros Hn Hd r Hr'. by apply (H3 Hn Hd), Hdel.
  - intros b r Hb. by apply Hs, Hdel.
  - intros l r Hl Hin. destruct (Hp l r Hl Hin) as (H1 & H2 & H3). split_and!; [done|done|]. intros Hn r' Hr'. apply H3; auto.
  - intros p Hpu. destruct (Hq p Hpu) as [H1 H2 H3]. split; [done|done|]. intros id u r Hsv Hn Hr'. apply (H3 id u); auto.
Qed.

Lemma holds_listed e r id : holds (sent (taken_over e r id)) r.
Proof.
  unfold holds, sent, taken_over. cbn. split_and!; [done|..].
  - intros st. destruct (l_Status r) as [x|]; cbn; [|done]. by destruct (String.eqb x "").
  - intros sc. destruct (_ || _); [by intros [= <-]|done].
  - intros n. destruct (_ <? _); [by intros [= <-]|done].
Qed.

Definition rows_ok (w : world) (t : gmap Z Entry) : Prop := forall b e, t !! b = Some e -> row_ok w b e.

(** A row taken from a list agrees with the site unless the site has moved on. *)
Lemma listed_row_ok w l r e : inv w -> l ∈ pulls w -> r ∈ l ->
  (ID e <= 0 \/ owner (ID e) = l_AnimeID r) -> remote_updated e = l_UpdatedAt r -> holds (sent e) r -> row_ok w (l_AnimeID r) e.
Proof.
  intros Hi Hl Hr Hid Hst Hh. destruct (inv_pulls w Hi l r Hl Hr) as ((_ & Hpos & Hown) & Hle & Huniq).
  split; [done|by rewrite Hst|]. intros Hn _ r' Hsite Heq. rewrite <- (Huniq Hn r' Hsite); [done|congruence].
Qed.

Lemma upsert_rows_ok w mode now l r t : inv w -> l ∈ pulls w -> r ∈ l -> rows_ok w t -> rows_ok w (upsert_listed mode now t r).
Proof.
  intros Hi Hl Hr Ht. destruct (inv_pulls w Hi l r Hl Hr) as ((_ & Hpos & Hown) & _ & _). unfold upsert_listed.
  assert (forall b e', (b = l_AnimeID r -> row_ok w b e') -> b = l_AnimeID r -> rows_ok w (<[b := e']> t)) as Hins.
  { intros b e' He' Hb c f Hc. destruct (decide (c = b)) as [->|Hne]; [rewrite lookup_insert_eq in Hc; injection Hc as <-; auto|].
    rewrite lookup_insert_ne in Hc by done. by apply Ht. }
  destruct (List.find _ _) as [[a e]|] eqn:Hf.
  - apply List.find_some in Hf as [Hin Hid]. apply Z.eqb_eq in Hid. cbn in Hid.
    apply list_elem_of_In, elem_of_map_to_list in Hin. destruct (outranked mode r e); [|done].
    assert (a = l_AnimeID r) as Ha by (destruct (Ht a e Hin) as [[?|?] _ _]; [lia|congruence]).
    apply Hins; [|done]. intros ->. apply (listed_row_ok w l); try done; [cbn; right; congruence|apply holds_listed].
  - destruct (t !! l_AnimeID r) as [e|] eqn:He.
    + destruct (outranked mode r e); [|done]. apply Hins; [|done]. intros _.
      apply (listed_row_ok w l); try done; [by right|apply holds_listed].
    + apply Hins; [|done]. intros _. apply (listed_row_ok w l); try done; [by right|].
      exact (holds_listed (mkEntry 0 None 0 0 0 None None 0 now false false 0 0) r (l_ID r)).
Qed.

Lemma foldl_rows_ok w mode now l : inv w -> l ∈ pulls w -> forall l' t, (forall r, r ∈ l' -> r ∈ l) -> rows_ok w t ->
  rows_ok w (foldl (upsert_listed mode now) t l').
Proof.
  intros Hi Hl. induction l' as [|r l' IH]; intros t Hsub Ht; [done|]. cbn [foldl]. apply IH.
  - intros x Hx. apply Hsub. by right.
  - apply (upsert_rows_ok w mode now l); [done|done|apply Hsub; left|done].
Qed.

Lemma pull_stores_inv w l mode now : inv w -> l ∈ pulls w ->
  inv (match push w with Some p => drift true (p_anime p) | None => id end (set_db w (ImportList mode now l (db w)))).
Proof.
  intros Hi Hl. set (b := match push w with Some _ => true | None => false end). set (a := from_option p_anime 0 (push w)).
  assert (match push w with Some p => drift true (p_anime p) | None => id end (set_db w (ImportList mode now l (db w)))
    = set_db (drift b a w) (ImportList mode now l (db w))) as -> by (unfold a, b; by destruct (push w)).
  pose proof (inv_drift w b a Hi) as Hd. assert (l ∈ pulls (drift b a w)) as Hl' by (by destruct b).
  assert (push (drift b a w) = push w) as Hpu by (by destruct b).
  assert (entries (db w) = entries (db (drift b a w))) as Hdb by (by destruct b).
  pose proof Hd as Hd0. destruct Hd as [Hr Ht Hs Hp Hq]. split; try done.
  - intros c e Hc. assert (rows_ok (drift b a w) (foldl (upsert_listed mode now) (entries (db w)) l)) as Hrows.
    { apply (foldl_rows_ok _ mode now l); [done|done|done|]. rewrite Hdb. exact Hr. }
    assert (foldl (upsert_listed mode now) (entries (db w)) l !! c = Some e) as Hc'.
    { unfold row in Hc. cbn in Hc. destruct mode; [done|]. unfold dropMissingEntries in Hc. by apply map_lookup_filter_Some in Hc as [? _]. }
    by destruct (Hrows c e Hc').
  - intros p Hpp. destruct (Hq p Hpp) as [_ H2 _]. cbn in Hpp. rewrite Hpu in Hpp.
    assert (p_anime p ∈ unsure (drift b a w)) as Hin by (unfold b, a; rewrite Hpp; cbn; set_solver).
    split; [done|done|]. done.
Qed.

Lemma removes_inv w a : inv w -> push w = None -> inv (set_db w (RemoveListEntry a (db w))).
Proof.
  intros [Hr Ht Hs Hp Hq] Hpu. split; try done.
  - intros c e Hc. unfold row in Hc. cbn in Hc. apply lookup_delete_Some in Hc as [_ Hc]. by destruct (Hr c e Hc).
  - cbn. rewrite Hpu. done.
Qed.

Lemma sync_inv w : reachable w -> inv w.
Proof.
  induction 1 as [|w w' _ Hi Hstep].
  - split; cbn; try done. intros l r Hl. by apply elem_of_nil in Hl.
  - destruct Hstep; auto using mark_first_inv, mark_second_inv, Unwatch_inv, SetScore_inv, SetListStatus_inv, ApplyRemote_inv,
      PushFailed_inv, MarkPushed_inv, push_reads_inv, push_ends_inv, push_saves_inv, pull_reads_inv, pull_stores_inv, site_edits_inv,
      site_deletes_inv, removes_inv.
    by eapply push_clears_inv.
Qed.

(** ** A round *)

(** Ids never crossing shows, a list's entry finds its own show's row. *)
Lemma upsert_own w mode now l r t : inv w -> l ∈ pulls w -> r ∈ l -> rows_ok w t ->
  upsert_listed mode now t r =
  match t !! l_AnimeID r with
  | Some e => if outranked mode r e then <[l_AnimeID r := taken_over e r (l_ID r)]> t else t
  | None => <[l_AnimeID r := mkEntry (l_ID r) (l_Status r) (l_Progress r) (l_Score r) (l_Repeat r) (l_StartedAt r) (l_CompletedAt r)
                              (l_UpdatedAt r) now false false 0 0]> t
  end.
Proof.
  intros Hi Hl Hr Ht. destruct (inv_pulls w Hi l r Hl Hr) as ((_ & Hpos & Hown) & _ & _). unfold upsert_listed.
  destruct (List.find _ _) as [[a e]|] eqn:Hf; [|done].
  apply List.find_some in Hf as [Hin Hid]. apply Z.eqb_eq in Hid. cbn in Hid. apply list_elem_of_In, elem_of_map_to_list in Hin.
  assert (a = l_AnimeID r) as -> by (destruct (Ht a e Hin) as [[?|?] _ _]; [lia|congruence]). by rewrite Hin, Hid.
Qed.

(** What a merge leaves of a show the site lists. *)
Definition settled (w : world) (t : gmap Z Entry) (a : Z) (r : Listed) : Prop :=
  exists e, t !! a = Some e /\
    ((dirty e = true /\ row w a = Some e) \/ (dirty e = false /\ holds (sent e) r /\ l_UpdatedAt r <= remote_updated e)).

Lemma merge_settles w now l : inv w -> l ∈ pulls w -> (forall r, r ∈ l -> site w !! l_AnimeID r = Some r) ->
  forall l2 l1 t, l = l1 ++ l2 -> rows_ok w t ->
  (forall a r, site w !! a = Some r -> a ∉ unsure w -> (r ∈ l1 -> settled w t a r) /\ (r ∉ l1 -> t !! a = row w a)) ->
  forall a r, site w !! a = Some r -> a ∉ unsure w -> r ∈ l -> settled w (foldl (upsert_listed ImportMerge now) t l2) a r.
Proof.
  intros Hi Hl Hsite. induction l2 as [|r0 l2 IH]; intros l1 t Heq Ht Hinv a r Ha Hn Hin.
  - cbn. apply (Hinv a r Ha Hn). by rewrite app_nil_r in Heq; subst l1.
  - assert (r0 ∈ l) as Hr0 by (rewrite Heq; apply elem_of_app; right; left). cbn [foldl].
    apply (IH (l1 ++ [r0])); try done; [by rewrite <- app_assoc|by apply (upsert_rows_ok w _ now l)|].
    clear a r Ha Hn Hin. intros a r Ha Hn. destruct (inv_site w Hi a r Ha) as [(Hra & _) Hstamp].
    destruct (Hinv a r Ha Hn) as [Hdone Hleft]. rewrite (upsert_own w _ now l) by done.
    destruct (decide (l_AnimeID r0 = a)) as [Ha0|Hne].
    + assert (r0 = r) as -> by (pose proof (Hsite r0 Hr0) as Hs0; rewrite Ha0 in Hs0; congruence). rewrite Ha0.
      split; [intros _|intros Hnot; exfalso; apply Hnot, elem_of_app; right; by left].
      destruct (decide (r ∈ l1)) as [Hin|Hnin].
      * destruct (Hdone Hin) as (e & He & Hcase). rewrite He. unfold outranked. exists e.
        destruct Hcase as [[Hd Hrow]|(Hd & Hh & Hle)]; rewrite Hd; cbn [negb andb]; [auto|].
        rewrite (proj2 (Z.ltb_ge _ _)) by lia. auto.
      * rewrite (Hleft Hnin). destruct (row w a) as [e|] eqn:He.
        -- unfold outranked. destruct (dirty e) eqn:Hd; cbn [negb andb]; [exists e; split; [by rewrite (Hleft Hnin)|auto]|].
           destruct (Z.ltb_spec (remote_updated e) (l_UpdatedAt r)) as [Hlt|Hge].
           ++ eexists. split; [apply lookup_insert_eq|]. right. split_and!; [done|apply holds_listed|cbn; lia].
           ++ destruct (inv_rows w Hi a e He) as [_ Hrs Hag]. exists e. split; [by rewrite (Hleft Hnin)|]. right.
              split_and!; [done| |lia]. apply (Hag Hn Hd); [done|lia].
        -- eexists. split; [apply lookup_insert_eq|]. right. split_and!; [done| |cbn; lia].
           exact (holds_listed (mkEntry 0 None 0 0 0 None None 0 now false false 0 0) r (l_ID r)).
    + assert (forall o : option Entry, match o with
        | Some e => if outranked ImportMerge r0 e then <[l_AnimeID r0 := taken_over e r0 (l_ID r0)]> t else t
        | None => <[l_AnimeID r0 := mkEntry (l_ID r0) (l_Status r0) (l_Progress r0) (l_Score r0) (l_Repeat r0) (l_StartedAt r0)
                     (l_CompletedAt r0) (l_UpdatedAt r0) now false false 0 0]> t
        end !! a = t !! a) as Hsame.
      { intros [e|]; [destruct (outranked _ _ _); [|done]|]; by rewrite lookup_insert_ne. }
      unfold settled. rewrite Hsame. rewrite elem_of_app, list_elem_of_singleton. split.
      * intros [?| ->]; [by apply Hdone|done].
      * intros Hnot. apply Hleft. tauto.
Qed.
End sync.


(** ** Traces *)

Definition seven : Listed := mkListed 7 1 (Some "CURRENT") 3 0 0 None None 50.

(** A show put on AniList's list on the site, and the list read. *)
Definition read_once : world := mkWorld empty_lists {[1 := seven]} {[1 := 50]} [[seven]] None ∅.

Lemma read_once_reachable `{Unicode} : reachable ∅ (fun _ => 1) read_once.
Proof.
  apply (after _ _ (mkWorld empty_lists {[1 := seven]} {[1 := 50]} [] None ∅)).
  - eapply after; [apply at_first|]. 
    refine (site_edits _ _ (mkWorld empty_lists ∅ ∅ [] None ∅) 1 seven _ _); [by vm_compute|by vm_compute].
  - refine (pull_reads _ _ (mkWorld empty_lists {[1 := seven]} {[1 := 50]} [] None ∅) [seven] _). cbn. by intros r ->%list_elem_of_singleton.
Qed.


(** A merge passes over a row that the list does not name. *)
Lemma merge_elsewhere now l : forall t a e, t !! a = Some e ->
  (forall r, r ∈ l -> l_ID r <> ID e /\ l_AnimeID r <> a) -> foldl (upsert_listed ImportMerge now) t l !! a = Some e.
Proof.
  induction l as [|r l IH]; intros t a e Ht Hl; [done|]. cbn [foldl]. apply IH.
  - destruct (Hl r ltac:(left)) as [Hid Hne]. unfold upsert_listed.
    destruct (List.find _ _) as [[b f]|] eqn:Hf.
    + apply List.find_some in Hf as [Hin Hb]. apply Z.eqb_eq in Hb. cbn in Hb. apply list_elem_of_In, elem_of_map_to_list in Hin.
      destruct (outranked _ _ _); [|done]. rewrite lookup_insert_ne; [done|]. intros ->. congruence.
    + destruct (t !! l_AnimeID r); [destruct (outranked _ _ _); [|done]|]; by rewrite lookup_insert_ne.
  - intros r' Hr'. apply Hl. by right.
Qed.

(** A list read before [Remove] and stored after it brings the show back: on the local list, clean,
    with nothing on AniList, and no later merge of a list without it takes it off. *)
Lemma removed_comes_back `{Unicode} : exists w e,
  reachable ∅ (fun _ => 1) w /\ site w !! 1 = None /\ row w 1 = Some e /\ dirty e = false /\
  (forall l now, (forall r, r ∈ l -> l_ID r <> 7 /\ l_AnimeID r <> 1) -> entries (ImportList ImportMerge now l (db w)) !! 1 = Some e).
Proof.
  assert (reachable ∅ (fun _ => 1) (mkWorld empty_lists ∅ {[1 := 50]} [[seven]] None ∅)) as Hdel.
  { eapply after; [apply read_once_reachable|]. apply (site_deletes _ _ read_once 1). }
  eapply after in Hdel; [|apply (removes _ _ _ 1); done].
  eapply after in Hdel; [|apply (pull_stores _ _ _ [seven] ImportMerge 60); left].
  eexists _, _. split; [exact Hdel|]. split_and!; [done|vm_compute; reflexivity|done|].
  intros l now Hl. by apply merge_elsewhere.
Qed.

(** The second statement of [MarkWatched] completes a row a push has already read: the push clears it,
    and AniList is left with a status that nothing will send again. *)
Lemma completion_unsaid `{Unicode} : exists w e r,
  reachable {[1 := mkAnime None (Some 12)]} (fun _ => 1) w /\ push w = None /\ row w 1 = Some e /\ site w !! 1 = Some r /\
  Status e = Some "COMPLETED" /\ dirty e = false /\ l_Status r = Some "CURRENT" /\ remote_updated e = l_UpdatedAt r.
Proof.
  pose (r := mkListed 7 1 (Some "CURRENT") 12 0 0 None None 50).
  epose proof (after {[1 := mkAnime None (Some 12)]} (fun _ => 1) _ _ (at_first _ _) (marks_first _ _ _ 1 12 40 "2024-05-01" ltac:(done) ltac:(done))) as Hw.
  eapply after in Hw; [|eapply (push_reads _ _ _ 1 _ false); [done|done|vm_compute; reflexivity|done]].
  eapply after in Hw; [|eapply (push_saves _ _ _ 1 _ r); [vm_compute; reflexivity|by vm_compute| |by vm_compute]].
  2: { unfold holds, sent, r. cbn. split_and!; [done|by intros st [= <-]|done|done]. }
  eapply after in Hw; [|apply (marks_second _ _ _ 1 "2024-05-01")].
  eapply after in Hw; [|eapply (push_clears _ _ _ 1); [vm_compute; reflexivity|vm_compute; reflexivity]].
  eexists _, _, r. split; [exact Hw|]. split_and!; [done|vm_compute; reflexivity|vm_compute; reflexivity|done|done|done|done].
Qed.
