(* ===== verification/Mal.v ===== *)
(** * MyAnimeList: internal/mal/list.go, internal/library/mal.go, internal/store/tracker.go

    MyAnimeList is driven from the local list: what it was last told is kept ([tracker_push]), a row that
    differs is pushed, and a pull applies only what moved on the site.  [MALSync]'s lock makes [Run],
    [PushOne] and [Pull] exclude each other; the viewer's edits can land between any two of a pull's
    statements ([edits]).  MyAnimeList's answers are arguments; statements on the
    local database are taken to succeed. *)
From stdpp Require Import base gmap sets strings list sorting.
From Stdlib Require Import ZArith Lia.
From S2P Require Import Prelude GoStr Watch Lists.

(** ** MyAnimeList's vocabulary *)

Section vocabulary.
Context `{Unicode}.

Definition fromAniList (s : string) : option string :=
  if String.eqb s "CURRENT" then Some "watching"
  else if String.eqb s "REPEATING" then Some "watching"
  else if String.eqb s "COMPLETED" then Some "completed"
  else if String.eqb s "PAUSED" then Some "on_hold"
  else if String.eqb s "DROPPED" then Some "dropped"
  else if String.eqb s "PLANNING" then Some "plan_to_watch"
  else None.

Definition toAniList (s : string) : option string :=
  if String.eqb s "watching" then Some "CURRENT"
  else if String.eqb s "completed" then Some "COMPLETED"
  else if String.eqb s "on_hold" then Some "PAUSED"
  else if String.eqb s "dropped" then Some "DROPPED"
  else if String.eqb s "plan_to_watch" then Some "PLANNING"
  else None.

Definition MALStatus (status : string) : string := default "" (fromAniList (to_upper status)).
Definition StatusToAniList (status : string) : string := default "" (toAniList (to_lower status)).

(** An entry of the site's list; [m_Updated] is [None] for the zero time. *)
Record MalEntry := mkMal {
  m_AnimeID : Z; m_Status : string; m_Score : Z; Watched : Z; Rewatching : bool; Rewatched : Z; m_Updated : option Z;
}.

Definition LocalScore (m : MalEntry) : Z := m_Score m * 10.

Definition MALScore (score : Z) : Z := if score <=? 0 then 0 else Z.min 10 (Z.quot (score + 5) 10).

Definition ListStatus (m : MalEntry) : string :=
  if Rewatching m && equal_fold (m_Status m) "watching" then "REPEATING" else StatusToAniList (m_Status m).

(** The form of [SetProgress]: a field left out keeps the site's value. *)
Record Form := mkForm {
  num_watched_episodes : Z; num_times_rewatched : option Z; f_score : option Z; f_status : option (string * bool);
}.

(** [clears]: MAL was told a score, and the local one is now unrated. *)
Definition clears (e : TrackerEntry) : bool := (t_Score e =? 0) && (0 <? LastScore e).

Definition malForm (e : TrackerEntry) : Form :=
  mkForm (t_Progress e) (if 0 <? t_Repeat e then Some (t_Repeat e) else None)
    (if (0 <? MALScore (t_Score e)) || clears e then Some (MALScore (t_Score e)) else None)
    (if String.eqb (MALStatus (t_Status e)) "" then None
     else Some (MALStatus (t_Status e), String.eqb (t_Status e) "REPEATING")).

(** What the site's entry holds once it has taken a form. *)
Definition takes (f : Form) (m : MalEntry) : MalEntry :=
  mkMal (m_AnimeID m) (from_option fst (m_Status m) (f_status f)) (default (m_Score m) (f_score f)) (num_watched_episodes f)
    (from_option snd (Rewatching m) (f_status f)) (default (Rewatched m) (num_times_rewatched f)) (m_Updated m).

(** ** Pushing *)

(** How the site answers a request. *)
Inductive reply := Done | Unauthorized | Fault.

(** [requests] are the forms sent, with the site's id, the latest first; [mal_auth_error] the setting of that name. *)
Record malState := mkMalState { tables : lists; mal_auth_error : bool; requests : list (Z * Form) }.

Record MALReport := mkReport { r_Pushed : Z; r_Failed : Z; r_Skipped : Z }.

Definition send (e : TrackerEntry) (st : malState) : malState :=
  mkMalState (tables st) (mal_auth_error st) ((RemoteID e, malForm e) :: requests st).

(** [accepted] and [refused]. *)
Definition set_error (b : bool) (st : malState) : malState := mkMalState (tables st) b (requests st).
Definition set_tables (f : lists -> lists) (st : malState) : malState := mkMalState (f (tables st)) (mal_auth_error st) (requests st).

(** [SetProgress] refuses an id that is not positive before asking. *)
Definition ask (answer : Z -> reply) (e : TrackerEntry) (st : malState) : malState * reply :=
  if RemoteID e <=? 0 then (st, Fault) else (send e st, answer (RemoteID e)).

(** The loop of [Run]; the flag is [ErrMALReconnect]. *)
Fixpoint push_each (answer : Z -> reply) (now : Z) (pend : list TrackerEntry) (st : malState) (rep : MALReport) :
    malState * MALReport * bool :=
  match pend with
  | [] => (st, rep, false)
  | e :: pend' =>
      if String.eqb (MALStatus (t_Status e)) "" && (t_Progress e =? 0) then
        push_each answer now pend' st (mkReport (r_Pushed rep) (r_Failed rep) (r_Skipped rep + 1))
      else
        let '(st, r) := ask answer e st in
        match r with
        | Done =>
            push_each answer now pend' (set_tables (MarkPushed (t_AnimeID e) (t_Progress e) (t_Status e) (t_Score e)) st)
              (mkReport (r_Pushed rep + 1) (r_Failed rep) (r_Skipped rep))
        | Unauthorized => (set_error true st, mkReport (r_Pushed rep) (r_Failed rep + 1) (r_Skipped rep), true)
        | Fault =>
            push_each answer now pend' (set_tables (PushFailed MAL (t_AnimeID e) now) st)
              (mkReport (r_Pushed rep) (r_Failed rep + 1) (r_Skipped rep))
        end
  end.

(** [Run], from the rows in the order the query read them. *)
Definition Run (authenticated : bool) (answer : Z -> reply) (now : Z) (rows : list (Z * Entry)) (st : malState) :
    malState * MALReport * bool :=
  if authenticated then
    let '(st, rep, refused) := push_each answer now (PendingMALPushes (tables st) rows 200) st (mkReport 0 0 0) in
    (if negb refused && (0 <? r_Pushed rep) then set_error false st else st, rep, refused)
  else (st, mkReport 0 0 0, false).

(** [PushOne], and the reply its error carries. *)
Definition PushOne (authenticated : bool) (answer : Z -> reply) (a : Z) (st : malState) : malState * reply :=
  if authenticated then
    match PendingMALPush (tables st) a with
    | None => (st, Done)
    | Some e =>
        let '(st, r) := ask answer e st in
        match r with
        | Done => (set_tables (MarkPushed (t_AnimeID e) (t_Progress e) (t_Status e) (t_Score e)) (set_error false st), Done)
        | Unauthorized => (set_error true st, Unauthorized)
        | Fault => (st, Fault)
        end
    end
  else (st, Done).

(** ** Which show speaks for a MAL id *)

Definition with_mal (malID : Z) (t : gmap Z Anime) : list Z :=
  fst <$> List.filter (fun x => bool_decide (mal_id x.2 = Some malID)) (map_to_list t).

(** [speaksForMAL]'s loop. *)
Definition better_speaker (t : gmap Z Entry) (p : Z * Z) (id : Z) : Z * Z :=
  match t !! id with Some e => if p.2 <? local_updated e then (id, local_updated e) else p | None => p end.

Definition speaksForMAL (t : gmap Z Entry) (ids : list Z) : option Z :=
  match sort_by Z.ltb ids with
  | [] => None
  | (i :: _) as sorted => Some (foldl (better_speaker t) (i, -1) sorted).1
  end.

(** [AniListIDsForMAL], of one id: the corpus and the library both know shows by it. *)
Definition AniListIDForMAL (corpus : gmap Z Anime) (s : lists) (malID : Z) : option Z :=
  match remove_dups (with_mal malID corpus ++ with_mal malID (anime s)) with
  | [a] => Some a
  | ids => speaksForMAL (entries s) ids
  end.

(** ** Pulling *)

Definition agrees (told : Told) (progress : Z) (status : string) (score : Z) : bool :=
  (told_progress told =? progress) && String.eqb (told_status told) status && (told_score told =? score).

(** The entry in kuro's units; unchanged in MAL's whole points keeps the finer score. *)
Definition remote_of (a : Z) (last : option Told) (m : MalEntry) : TrackerEntry :=
  let score := match last with
    | Some t => if MALScore (told_score t) =? m_Score m then told_score t else LocalScore m
    | None => LocalScore m
    end in
  mkTracker a (m_AnimeID m) (ListStatus m) (Watched m) 0 (Rewatched m) score 0.

Definition site_of (r : TrackerEntry) (since : Z) : RemoteEntry :=
  mkRemote (t_AnimeID r) (t_Status r) (t_Progress r) (t_Score r) (t_Repeat r) since.

(** [pulled]: the change to apply, if any, or [None] when an unpushed edit wins. *)
Definition pulled (remote : TrackerEntry) (local : option Entry) (last : option Told) (m : MalEntry) : option (option RemoteEntry) :=
  if match last with Some t => agrees t (t_Progress remote) (t_Status remote) (t_Score remote) | None => false end then Some None
  else
    match local with
    | None => Some (Some (site_of remote 0))
    | Some e =>
        match last with
        | Some t => if agrees t (Progress e) (status_text e) (Score e) then Some (Some (site_of remote (local_updated e))) else None
        | None =>
            let newer := match m_Updated m with Some u => local_updated e <? u | None => false end in
            let status := if newer then t_Status remote else status_text e in
            let progress := if newer then t_Progress remote else Progress e in
            let score := if Score e =? 0 then t_Score remote else Score e in
            let repeat := Z.max (Repeat e) (t_Repeat remote) in
            if String.eqb status (status_text e) && (progress =? Progress e) && (score =? Score e) && (repeat =? Repeat e)
            then Some None
            else Some (Some (mkRemote (t_AnimeID remote) status progress score repeat (local_updated e)))
        end
    end.

Record MALImport := mkImport { Matched : Z; Unmatched : Z; Applied : Z }.

(** One turn of the loop of [Pull].  [edits] is what the viewer does to the list between its reading and the change. *)
Definition pull_entry (corpus : gmap Z Anime) (mapping : Z -> option Z) (edits : Z -> lists -> lists) (now : Z) (today : string)
    (acc : lists * MALImport * list TrackerEntry) (m : MalEntry) : lists * MALImport * list TrackerEntry :=
  let '(s, rep, marks) := acc in
  match mapping (m_AnimeID m) with
  | None => (s, mkImport (Matched rep) (Unmatched rep + 1) (Applied rep), marks)
  | Some a =>
      let rep := mkImport (Matched rep + 1) (Unmatched rep) (Applied rep) in
      let last := pushed s !! a in
      let remote := remote_of a last m in
      let marked := match last with
        | Some t => if agrees t (t_Progress remote) (t_Status remote) (t_Score remote) then marks else marks ++ [remote]
        | None => marks ++ [remote]
        end in
      match pulled remote (entries s !! a) last m with
      | None => (edits a s, rep, marks)
      | Some None => (edits a s, rep, marked)
      | Some (Some r) =>
          let '(s', changed) := ApplyRemote corpus r now today (edits a s) in
          if changed then (s', mkImport (Matched rep) (Unmatched rep) (Applied rep + 1), marked) else (s', rep, marks)
      end
  end.

Definition pull_each (corpus : gmap Z Anime) (mapping : Z -> option Z) (edits : Z -> lists -> lists) (now : Z) (today : string)
    (l : list MalEntry) (s : lists) : lists * MALImport :=
  let '(s, rep, marks) := foldl (pull_entry corpus mapping edits now today) (s, mkImport 0 0 0, []) l in
  (SeedPushed marks s, rep).

(** [Pull]: the site's list, or the error it answers with. *)
Definition Pull (authenticated : bool) (answer : reply) (l : list MalEntry) (corpus : gmap Z Anime) (edits : Z -> lists -> lists)
    (now : Z) (today : string) (st : malState) : malState * MALImport * reply :=
  if authenticated then
    match answer with
    | Done =>
        let '(s, rep) := pull_each corpus (AniListIDForMAL corpus (tables st)) edits now today l (tables st) in
        (mkMalState s false (requests st), rep, Done)
    | Unauthorized => (set_error true st, mkImport 0 0 0, Unauthorized)
    | Fault => (st, mkImport 0 0 0, Fault)
    end
  else (st, mkImport 0 0 0, Done).

(** ** The shared MAL id *)

Lemma elem_of_with_mal malID t a : a ∈ with_mal malID t <-> exists an, t !! a = Some an /\ mal_id an = Some malID.
Proof.
  unfold with_mal. rewrite list_elem_of_fmap. split.
  - intros ([b an] & -> & Hin). apply elem_of_filter_b in Hin as [Hin Hm]. apply elem_of_map_to_list in Hin.
    exists an. by apply bool_decide_eq_true in Hm.
  - intros (an & Ha & Hm). exists (a, an). split; [done|]. apply elem_of_filter_b. rewrite elem_of_map_to_list.
    by rewrite bool_decide_eq_true.
Qed.

(** The loop keeps the row changed last, and of those the first. *)
Definition speaks (t : gmap Z Entry) (seen : list Z) (p : Z * Z) : Prop :=
  (forall c f, c ∈ seen -> t !! c = Some f -> local_updated f <= p.2 /\ (local_updated f = p.2 -> p.1 <= c)) /\
  (forall e, t !! p.1 = Some e -> 0 <= p.2 -> local_updated e = p.2).

Lemma better_speaks t : (forall c f, t !! c = Some f -> 0 <= local_updated f) -> forall ids seen p,
  StronglySorted Z.le ids -> (forall c, c ∈ ids -> p.1 <= c) -> speaks t seen p -> speaks t (seen ++ ids) (foldl (better_speaker t) p ids).
Proof.
  intros Ht. induction ids as [|id ids IH]; intros seen p Hs Hlow Hsp; [by rewrite app_nil_r|]. cbn [foldl].
  apply StronglySorted_inv in Hs as [Hs Hid]. rewrite List.Forall_forall in Hid.
  replace (seen ++ id :: ids) with ((seen ++ [id]) ++ ids) by by rewrite <- app_assoc.
  apply IH; [done|..]; unfold better_speaker; destruct (t !! id) as [f|] eqn:Hf.
  - case_match; intros c Hc; [by apply Hid, list_elem_of_In|apply Hlow; by right].
  - intros c Hc. apply Hlow. by right.
  - destruct Hsp as [Ha Hb]. pose proof (Ht id f Hf). destruct (Z.ltb_spec p.2 (local_updated f)) as [Hlt|Hge]; split; cbn.
    + intros c g [Hc|Hc]%elem_of_app Hg; [destruct (Ha c g Hc Hg); lia|]. apply list_elem_of_singleton in Hc as ->.
      replace g with f by congruence. lia.
    + intros e He _. congruence.
    + intros c g [Hc|Hc]%elem_of_app Hg; [by apply Ha|]. apply list_elem_of_singleton in Hc as ->.
      replace g with f by congruence. split; [done|]. intros _. apply Hlow. left.
    + done.
  - destruct Hsp as [Ha Hb]. split; [|done]. intros c g [Hc|Hc]%elem_of_app Hg; [by apply Ha|].
    apply list_elem_of_singleton in Hc as ->. congruence.
Qed.

Lemma speaksForMAL_first t ids a e : (forall c f, t !! c = Some f -> 0 <= local_updated f) ->
  speaksForMAL t ids = Some a -> t !! a = Some e -> a ∈ ids ->
  forall c f, c ∈ ids -> t !! c = Some f -> local_updated f <= local_updated e /\ (local_updated f = local_updated e -> a <= c).
Proof.
  intros Ht. unfold speaksForMAL. pose proof (sort_by_sorted Z.ltb (fun x => x) ltac:(done) ids) as Hs.
  pose proof (sort_by_perm Z.ltb ids) as Hp. destruct (sort_by Z.ltb ids) as [|i sorted] eqn:Hsort; [done|]. intros Ha He Hin c f Hc Hf.
  assert (speaks t ([] ++ i :: sorted) (foldl (better_speaker t) (i, -1) (i :: sorted))) as [Hall Hbest].
  { apply better_speaks; [done|done|..].
    - apply StronglySorted_inv in Hs as [_ Hi]. rewrite List.Forall_forall in Hi. cbn. intros d [->|Hd]%elem_of_cons; [done|].
      by apply Hi, list_elem_of_In.
    - split; [intros ? ? ?%elem_of_nil; done|]. cbn. lia. }
  apply (inj Some) in Ha. destruct (foldl (better_speaker t) (i, -1) (i :: sorted)) as [j best]. cbn [fst snd app] in *. subst j.
  assert (forall d, d ∈ ids -> d ∈ i :: sorted) as Hperm by (intros d Hd; by rewrite Hp).
  destruct (Hall a e (Hperm a Hin) He) as [Hle _]. pose proof (Ht a e He). rewrite (Hbest e He) by lia. auto.
Qed.

Lemma speaksForMAL_in t ids a : speaksForMAL t ids = Some a -> a ∈ ids.
Proof.
  unfold speaksForMAL. pose proof (sort_by_perm Z.ltb ids) as Hp. destruct (sort_by Z.ltb ids) as [|i sorted]; [done|]. intros [= <-].
  assert (forall l p, p.1 ∈ i :: sorted -> (forall x, x ∈ l -> x ∈ i :: sorted) -> (foldl (better_speaker t) p l).1 ∈ i :: sorted) as Hin.
  { induction l as [|x l IH]; intros p Hpin Hl; [done|]. cbn [foldl]. apply IH; [|intros y Hy; apply Hl; by right].
    unfold better_speaker. destruct (t !! x); [|done]. destruct (_ <? _); [|done]. apply Hl. left. }
  rewrite <- Hp. apply (Hin (i :: sorted) (i, -1)); [left|done].
Qed.

(** ** What MAL is recorded as told *)

Definition told_of (e : TrackerEntry) : Told := mkTold (t_Progress e) (t_Status e) (t_Score e).

Lemma pushed_MarkPushed a p st sc s b :
  pushed (MarkPushed a p st sc s) !! b = if decide (b = a) then Some (mkTold p st sc) else pushed s !! b.
Proof. cbn. case_decide as Hb; [subst b; apply lookup_insert_eq|by rewrite lookup_insert_ne]. Qed.

Lemma push_each_requests answer now : forall pend st rep, exists l,
  requests (push_each answer now pend st rep).1.1 = l ++ requests st.
Proof.
  induction pend as [|e pend IH]; intros st rep; cbn; [by exists []|]. destruct (String.eqb _ _ && _); [apply IH|].
  unfold ask. destruct (RemoteID e <=? 0).
  - destruct (IH (set_tables (PushFailed MAL (t_AnimeID e) now) st) (mkReport (r_Pushed rep) (r_Failed rep + 1) (r_Skipped rep))) as [l Hl].
    by exists l.
  - destruct (answer (RemoteID e)).
    + edestruct IH as [l Hl]. exists (l ++ [(RemoteID e, malForm e)]). rewrite Hl. by rewrite <- app_assoc.
    + by exists [(RemoteID e, malForm e)].
    + edestruct IH as [l Hl]. exists (l ++ [(RemoteID e, malForm e)]). rewrite Hl. by rewrite <- app_assoc.
Qed.

(** A row of [tracker_push] moves only to what MAL has just taken. *)
Lemma push_each_told answer now : forall pend st rep a,
  let st' := (push_each answer now pend st rep).1.1 in
  pushed (tables st') !! a = pushed (tables st) !! a \/
  exists e, e ∈ pend /\ t_AnimeID e = a /\ answer (RemoteID e) = Done /\ (RemoteID e, malForm e) ∈ requests st' /\
    pushed (tables st') !! a = Some (told_of e).
Proof.
  induction pend as [|e pend IH]; intros st rep a; cbn [push_each]; [by left|].
  assert (forall st' rep', pushed (tables st') = pushed (tables st) ->
    let st'' := (push_each answer now pend st' rep').1.1 in
    pushed (tables st'') !! a = pushed (tables st) !! a \/
    exists e', e' ∈ e :: pend /\ t_AnimeID e' = a /\ answer (RemoteID e') = Done /\ (RemoteID e', malForm e') ∈ requests st'' /\
      pushed (tables st'') !! a = Some (told_of e')) as Hnext.
  { intros st' rep' Heq. cbn zeta. destruct (IH st' rep' a) as [Hs|(e' & Hin & Hr)]; [left; by rewrite Hs, Heq|].
    right. exists e'. split; [by right|done]. }
  destruct (String.eqb _ _ && _); [by apply Hnext|]. unfold ask. destruct (RemoteID e <=? 0); [by apply Hnext|].
  destruct (answer (RemoteID e)) eqn:Hans; [|by left|by apply Hnext]. cbn zeta.
  set (st1 := set_tables _ _). set (rep1 := mkReport _ _ _). destruct (IH st1 rep1 a) as [Hs|(e' & Hin & Hr)].
  - destruct (push_each_requests answer now pend st1 rep1) as [l Hl].
    unfold st1 in Hs. cbn [set_tables tables send] in Hs. rewrite pushed_MarkPushed in Hs. case_decide as Ha; [|by left].
    right. exists e. split_and!; [left|done|done| |done]. rewrite Hl. apply elem_of_app. right. left.
  - right. exists e'. split; [by right|done].
Qed.

(** The loop stops where MAL refuses the token. *)
Lemma push_each_refused answer now : forall pend st rep st' rep',
  push_each answer now pend st rep = (st', rep', true) ->
  exists pre e post st1 rep1, pend = pre ++ e :: post /\ push_each answer now pre st rep = (st1, rep1, false) /\
    answer (RemoteID e) = Unauthorized /\ st' = set_error true (send e st1) /\
    rep' = mkReport (r_Pushed rep1) (r_Failed rep1 + 1) (r_Skipped rep1).
Proof.
  induction pend as [|e pend IH]; intros st rep st' rep'; cbn [push_each]; [done|].
  assert (forall st0 rep0, push_each answer now pend st0 rep0 = (st', rep', true) ->
    (forall pre, push_each answer now (e :: pre) st rep = push_each answer now pre st0 rep0) ->
    exists pre e0 post st1 rep1, e :: pend = pre ++ e0 :: post /\ push_each answer now pre st rep = (st1, rep1, false) /\
      answer (RemoteID e0) = Unauthorized /\ st' = set_error true (send e0 st1) /\
      rep' = mkReport (r_Pushed rep1) (r_Failed rep1 + 1) (r_Skipped rep1)) as Hnext.
  { intros st0 rep0 Hrun Heq. destruct (IH st0 rep0 st' rep' Hrun) as (pre & e0 & post & st1 & rep1 & -> & Hpre & Hrest).
    exists (e :: pre), e0, post, st1, rep1. split; [done|]. by rewrite Heq. }
  destruct (String.eqb _ _ && _) eqn:Hskip; [intros Hr; apply (Hnext _ _ Hr); intros pre; cbn [push_each]; by rewrite Hskip|].
  unfold ask. destruct (RemoteID e <=? 0) eqn:Hid.
  { intros Hr. apply (Hnext _ _ Hr). intros pre. cbn [push_each]. unfold ask. by rewrite Hskip, Hid. }
  destruct (answer (RemoteID e)) eqn:Hans.
  - intros Hr. apply (Hnext _ _ Hr). intros pre. cbn [push_each]. unfold ask. by rewrite Hskip, Hid, Hans.
  - intros [= <- <-]. by exists [], e, pend, st, rep.
  - intros Hr. apply (Hnext _ _ Hr). intros pre. cbn [push_each]. unfold ask. by rewrite Hskip, Hid, Hans.
Qed.

(** ** A round with MAL *)

Lemma MALScore_range s : 0 <= MALScore s <= 10.
Proof. unfold MALScore. destruct (Z.leb_spec s 0); [lia|]. pose proof (Z.quot_pos (s + 5) 10). lia. Qed.

Lemma MALScore_points k : 0 <= k <= 10 -> MALScore (k * 10) = k.
Proof.
  intros Hk. unfold MALScore. destruct (Z.leb_spec (k * 10) 0); [lia|]. rewrite Z.quot_div_nonneg by lia.
  assert ((k * 10 + 5) / 10 = k) as -> by (symmetry; apply (Z.div_unique_pos _ _ _ 5); lia). lia.
Qed.

Lemma agrees_told t progress status score : agrees t progress status score = true <-> t = mkTold progress status score.
Proof.
  unfold agrees. destruct t as [p st sc]. cbn. split.
  - intros Ha. apply andb_true_iff in Ha as [Ha Hsc]. apply andb_true_iff in Ha as [Hp Hst].
    apply Z.eqb_eq in Hp, Hsc. apply String.eqb_eq in Hst. congruence.
  - intros [= -> -> ->]. by rewrite !Z.eqb_refl, String.eqb_refl.
Qed.

(** Of an entry that MAL was told as it stands there, a pull takes nothing. *)
Lemma pull_entry_told corpus mapping edits now today s rep marks m a t : mapping (m_AnimeID m) = Some a -> pushed s !! a = Some t ->
  MALScore (told_score t) = m_Score m -> told_progress t = Watched m -> told_status t = ListStatus m ->
  pull_entry corpus mapping edits now today (s, rep, marks) m = (edits a s, mkImport (Matched rep + 1) (Unmatched rep) (Applied rep), marks).
Proof.
  intros Hm Hp Hsc Hpr Hst. unfold pull_entry, pulled, remote_of. rewrite Hm, Hp, Hsc, Z.eqb_refl. cbn [t_Progress t_Status t_Score].
  assert (agrees t (Watched m) (ListStatus m) (told_score t) = true) as ->; [|done].
  apply agrees_told. destruct t. cbn in *. congruence.
Qed.

Lemma ValidStatus_cases st : ValidStatus st = true -> st ∈ ListStatuses.
Proof. unfold ValidStatus. intros (x & Hx & Heq)%existsb_elem. by apply String.eqb_eq in Heq as ->. Qed.

(** A status survives the site's vocabulary. *)
Lemma status_roundtrip st id score watched times u : ValidStatus st = true ->
  MALStatus st <> "" /\ ListStatus (mkMal id (MALStatus st) score watched (String.eqb st "REPEATING") times u) = st.
Proof.
  intros Hv%ValidStatus_cases. unfold ListStatuses in Hv.
  repeat (apply elem_of_cons in Hv as [->|Hv]; [split; [vm_compute; discriminate|vm_compute; reflexivity]|]). by apply elem_of_nil in Hv.
Qed.

(** ** Pulling twice *)

Lemma ApplyRemote_frame corpus r now today s b : b <> r_AnimeID r ->
  entries (ApplyRemote corpus r now today s).1 !! b = entries s !! b.
Proof.
  intros Hb. assert (entries (EnsureAnime corpus (r_AnimeID r) s) = entries s) as He.
  { unfold EnsureAnime. destruct (_ =? 0); [done|]. by destruct (anime s !! _). }
  unfold ApplyRemote. destruct (r_AnimeID r =? 0); [done|]. cbn zeta. rewrite He. destruct (entries s !! r_AnimeID r) as [e|].
  - destruct (local_updated e <=? Since r); cbn; [by rewrite lookup_insert_ne|by rewrite He].
  - cbn. by rewrite lookup_insert_ne.
Qed.

Lemma ApplyRemote_pushed corpus r now today s : pushed (ApplyRemote corpus r now today s).1 = pushed s.
Proof.
  assert (pushed (EnsureAnime corpus (r_AnimeID r) s) = pushed s) as Hp.
  { unfold EnsureAnime. destruct (_ =? 0); [done|]. by destruct (anime s !! _). }
  unfold ApplyRemote. destruct (r_AnimeID r =? 0); [done|]. cbn zeta.
  destruct (entries _ !! r_AnimeID r) as [e|]; [destruct (local_updated e <=? Since r)|]; done.
Qed.

(** A change goes in when the row has not moved since it was read. *)
Lemma ApplyRemote_changed corpus r now today s : r_AnimeID r <> 0 ->
  (forall e, entries s !! r_AnimeID r = Some e -> local_updated e <= Since r) -> (ApplyRemote corpus r now today s).2 = true.
Proof.
  intros Ha Hs. assert (entries (EnsureAnime corpus (r_AnimeID r) s) = entries s) as He.
  { unfold EnsureAnime. destruct (_ =? 0); [done|]. by destruct (anime s !! _). }
  unfold ApplyRemote. rewrite (proj2 (Z.eqb_neq _ _)) by done. cbn zeta. rewrite He.
  destruct (entries s !! r_AnimeID r) as [e|] eqn:Hr; [|done]. by rewrite (proj2 (Z.leb_le _ _)) by (by apply Hs).
Qed.

Definition untouched : Z -> lists -> lists := fun _ s => s.

Definition site_ok (m : MalEntry) : Prop := 0 <= m_Score m <= 10.

Lemma remote_holds a last m : site_ok m -> MALScore (t_Score (remote_of a last m)) = m_Score m.
Proof.
  intros Hm. unfold remote_of, LocalScore. cbn. destruct last as [t|]; [|by apply MALScore_points].
  case_match eqn:He; [by apply Z.eqb_eq in He|by apply MALScore_points].
Qed.

(** The turn leaves the show's row and record such that another would change nothing: already told,
    to be marked, or waiting for a push. *)
Definition at_rest (m : MalEntry) (last : option Told) (e : option Entry) (marks : list TrackerEntry) (a : Z) : Prop :=
  (exists r, r ∈ marks /\ t_AnimeID r = a /\ MALScore (t_Score r) = m_Score m /\ t_Progress r = Watched m /\ t_Status r = ListStatus m) \/
  ((forall r, r ∈ marks -> t_AnimeID r <> a) /\
   ((exists t, last = Some t /\ MALScore (told_score t) = m_Score m /\ told_progress t = Watched m /\ told_status t = ListStatus m) \/
    pulled (remote_of a last m) e last m = None)).

Lemma pulled_id last e m a r : pulled (remote_of a last m) e last m = Some (Some r) ->
  r_AnimeID r = a /\ (forall f, e = Some f -> local_updated f = Since r).
Proof.
  unfold pulled. destruct (match last with Some t => _ | None => false end); [done|]. destruct e as [e|].
  - destruct last as [t|].
    + destruct (agrees _ _ _ _); [|done]. intros [= <-]. by split; [|intros f [= <-]].
    + cbn zeta. destruct (_ && _); [done|]. intros [= <-]. by split; [|intros f [= <-]].
  - intros [= <-]. by split.
Qed.

Lemma pull_entry_rest corpus mapping now today s rep marks m a : site_ok m -> mapping (m_AnimeID m) = Some a -> a <> 0 ->
  (forall r, r ∈ marks -> t_AnimeID r <> a) ->
  exists s' rep' extra, pull_entry corpus mapping untouched now today (s, rep, marks) m = (s', rep', marks ++ extra) /\
    pushed s' = pushed s /\ (forall b, b <> a -> entries s' !! b = entries s !! b) /\
    (forall r, r ∈ extra -> t_AnimeID r = a) /\ (length extra <= 1)%nat /\
    at_rest m (pushed s !! a) (entries s' !! a) (marks ++ extra) a.
Proof.
  intros Hok Hm Ha Hmarks. unfold pull_entry. rewrite Hm. set (last := pushed s !! a). set (remote := remote_of a last m).
  set (told := match last with Some t => agrees t (t_Progress remote) (t_Status remote) (t_Score remote) | None => false end).
  assert (match last with
    | Some t => if agrees t (t_Progress remote) (t_Status remote) (t_Score remote) then marks else marks ++ [remote]
    | None => marks ++ [remote] end = marks ++ (if told then [] else [remote])) as Hmk.
  { unfold told. destruct last as [t|]; [|done]. destruct (agrees t (t_Progress remote) _ _); [by rewrite app_nil_r|done]. }
  cbn zeta. rewrite Hmk. clear Hmk.
  assert (forall e, at_rest m last e (marks ++ (if told then [] else [remote])) a) as Hrest.
  { intros e. destruct told eqn:Htold.
    - right. rewrite app_nil_r. split; [done|left]. unfold told in Htold.
      assert (exists t, last = Some t /\ agrees t (t_Progress remote) (t_Status remote) (t_Score remote) = true) as (t & Hl & Ht)
        by (destruct last as [t|]; [by exists t|done]).
      exists t. split; [done|]. apply agrees_told in Ht as ->. cbn [told_score told_progress told_status]. split_and!; [by apply remote_holds|done|done].
    - left. exists remote. split_and!; [apply elem_of_app; right; left|done|by apply (remote_holds a last)|done|done]. }
  assert (forall r, r ∈ (if told then [] else [remote]) -> t_AnimeID r = a) as Hex.
  { intros r Hr. destruct told; [by apply elem_of_nil in Hr|]. by apply list_elem_of_singleton in Hr as ->. }
  assert (length (if told then [] else [remote]) <= 1)%nat as Hlen by (destruct told; cbn; lia).
  destruct (pulled remote (entries s !! a) last m) as [[r|]|] eqn:Hp.
  - destruct (pulled_id last _ m a r Hp) as [Hr Hs]. unfold untouched.
    pose proof (ApplyRemote_changed corpus r now today s ltac:(congruence)) as Hch. rewrite Hr in Hch.
    pose proof (ApplyRemote_pushed corpus r now today s) as Hpu. pose proof (ApplyRemote_frame corpus r now today s) as Hfr.
    destruct (ApplyRemote corpus r now today s) as [s' changed]. cbn in Hch, Hpu, Hfr.
    rewrite Hch by (intros e He; rewrite (Hs e He); lia). eexists s', _, _. split_and!; [done|done| |done|done|apply Hrest].
    intros b Hb. apply Hfr. congruence.
  - unfold untouched. eexists s, _, _. by split_and!.
  - exists s, (mkImport (Matched rep + 1) (Unmatched rep) (Applied rep)), []. rewrite app_nil_r.
    split_and!; [done|done|done|intros r Hr; by apply elem_of_nil in Hr|cbn; lia|]. right. split; [done|by right].
Qed.

(** The shows a list is about. *)
Definition shows (mapping : Z -> option Z) (l : list MalEntry) : list Z := omap (fun m => mapping (m_AnimeID m)) l.

Lemma elem_of_shows mapping l m a : m ∈ l -> mapping (m_AnimeID m) = Some a -> a ∈ shows mapping l.
Proof. intros Hm Ha. apply list_elem_of_omap. by exists m. Qed.

Lemma at_rest_more m last e marks extra a : at_rest m last e marks a -> (forall r, r ∈ extra -> t_AnimeID r <> a) ->
  at_rest m last e (marks ++ extra) a.
Proof.
  intros [(r & Hr & Hrest)|[Hno Hrest]] Hex; [left|right].
  - exists r. split; [apply elem_of_app; by left|done].
  - split; [|done]. intros r [Hr|Hr]%elem_of_app; auto.
Qed.

Lemma pull_rest corpus mapping now today : forall l s rep marks,
  NoDup (shows mapping l) -> (forall a, a ∈ shows mapping l -> a <> 0 /\ forall r, r ∈ marks -> t_AnimeID r <> a) ->
  (forall m, m ∈ l -> site_ok m) -> NoDup (t_AnimeID <$> marks) ->
  exists s' rep' extra, foldl (pull_entry corpus mapping untouched now today) (s, rep, marks) l = (s', rep', marks ++ extra) /\
    pushed s' = pushed s /\ (forall b, b ∉ shows mapping l -> entries s' !! b = entries s !! b) /\
    (forall r, r ∈ extra -> t_AnimeID r ∈ shows mapping l) /\ NoDup (t_AnimeID <$> marks ++ extra) /\
    forall m a, m ∈ l -> mapping (m_AnimeID m) = Some a -> at_rest m (pushed s !! a) (entries s' !! a) (marks ++ extra) a.
Proof.
  induction l as [|m l IH]; intros s rep marks Hnd Hfree Hok Hmarks.
  { exists s, rep, []. rewrite app_nil_r. split_and!; [done..| |done|]; [intros r Hr|intros m a Hm]; exfalso; by eapply not_elem_of_nil. }
  cbn [foldl]. unfold shows in Hnd, Hfree |- *. cbn [omap list_omap] in Hnd, Hfree |- *.
  destruct (mapping (m_AnimeID m)) as [a|] eqn:Ha.
  - apply NoDup_cons in Hnd as [Hna Hnd]. destruct (Hfree a ltac:(left)) as [Ha0 Hma].
    destruct (pull_entry_rest corpus mapping now today s rep marks m a (Hok m ltac:(left)) Ha Ha0 Hma)
      as (s1 & rep1 & ex1 & -> & Hp1 & He1 & Hx1 & Hlen & Hr1).
    destruct (IH s1 rep1 (marks ++ ex1) Hnd) as (s2 & rep2 & ex2 & -> & Hp2 & He2 & Hx2 & Hnd2 & Hr2).
    + intros b Hb. destruct (Hfree b ltac:(by right)) as [Hb0 Hmb]. split; [done|].
      intros r [Hr|Hr]%elem_of_app; [by apply Hmb|]. rewrite (Hx1 r Hr). by intros ->.
    + intros m' Hm'. apply Hok. by right.
    + rewrite fmap_app. apply NoDup_app. split_and!; [done| |].
      * intros b Hb Hb'. apply list_elem_of_fmap in Hb as (r & -> & Hr). apply list_elem_of_fmap in Hb' as (r' & Heq & Hr').
        apply (Hma r Hr). rewrite Heq. by apply Hx1.
      * destruct ex1 as [|r [|]]; cbn in *; [constructor|apply NoDup_singleton|lia].
    + exists s2, rep2, (ex1 ++ ex2). rewrite <- !app_assoc in *. split_and!; [done|congruence| | |done|].
      * intros b Hb. apply not_elem_of_cons in Hb as [Hba Hb]. rewrite He2 by done. by apply He1.
      * intros r [Hr|Hr]%elem_of_app; [rewrite (Hx1 r Hr); left|right; by apply Hx2].
      * intros m' b [->|Hm']%elem_of_cons Hb.
        -- replace b with a by congruence. rewrite He2 by done. rewrite app_assoc. apply at_rest_more; [done|].
           intros r Hr Heq. apply Hna. rewrite <- Heq. by apply Hx2.
        -- rewrite <- Hp1. by apply Hr2.
  - assert (pull_entry corpus mapping untouched now today (s, rep, marks) m = (s, mkImport (Matched rep) (Unmatched rep + 1) (Applied rep), marks)) as ->
      by (unfold pull_entry; by rewrite Ha).
    destruct (IH s (mkImport (Matched rep) (Unmatched rep + 1) (Applied rep)) marks Hnd Hfree) as (s2 & rep2 & ex2 & -> & Hp2 & He2 & Hx2 & Hnd2 & Hr2);
      [intros m' Hm'; apply Hok; by right|done|].
    exists s2, rep2, ex2. split_and!; try done. intros m' b [->|Hm']%elem_of_cons Hb; [congruence|by apply Hr2].
Qed.

Lemma pushed_SeedPushed marks s : pushed (SeedPushed marks s) =
  foldl (fun p m => if t_AnimeID m =? 0 then p else <[t_AnimeID m := told_of m]> p) (pushed s) marks.
Proof. done. Qed.

Lemma seed_other marks : forall (p : gmap Z Told) a, (forall r, r ∈ marks -> t_AnimeID r <> a) ->
  foldl (fun p m => if t_AnimeID m =? 0 then p else <[t_AnimeID m := told_of m]> p) p marks !! a = p !! a.
Proof.
  induction marks as [|r marks IH]; intros p a Hno; [done|]. cbn [foldl]. rewrite IH by (intros x Hx; apply Hno; by right).
  destruct (_ =? 0); [done|]. apply lookup_insert_ne, Hno. left.
Qed.

Lemma seed_one marks : forall (p : gmap Z Told) r, NoDup (t_AnimeID <$> marks) -> r ∈ marks -> t_AnimeID r <> 0 ->
  foldl (fun p m => if t_AnimeID m =? 0 then p else <[t_AnimeID m := told_of m]> p) p marks !! t_AnimeID r = Some (told_of r).
Proof.
  induction marks as [|x marks IH]; intros p r Hnd Hr H0; [by apply elem_of_nil in Hr|]. cbn [foldl].
  rewrite fmap_cons, NoDup_cons in Hnd. destruct Hnd as [Hx Hnd]. apply elem_of_cons in Hr as [->|Hr]; [|by apply IH].
  rewrite seed_other. 2: { intros y Hy Heq. apply Hx. rewrite <- Heq. by apply list_elem_of_fmap_2. }
  rewrite (proj2 (Z.eqb_neq _ _)) by done. apply lookup_insert_eq.
Qed.

(** An entry at rest leaves the list as it is. *)
Lemma pull_entry_quiet corpus mapping now today s rep m :
  (forall a, mapping (m_AnimeID m) = Some a ->
    (exists t, pushed s !! a = Some t /\ MALScore (told_score t) = m_Score m /\ told_progress t = Watched m /\ told_status t = ListStatus m) \/
    pulled (remote_of a (pushed s !! a) m) (entries s !! a) (pushed s !! a) m = None) ->
  exists rep', pull_entry corpus mapping untouched now today (s, rep, []) m = (s, rep', []) /\ Applied rep' = Applied rep.
Proof.
  intros Hq. destruct (mapping (m_AnimeID m)) as [a|] eqn:Ha.
  - destruct (Hq a eq_refl) as [(t & Ht & Hs & Hp & Hst)|Hn].
    + eexists. by rewrite (pull_entry_told corpus mapping untouched now today s rep [] m a t).
    + eexists. unfold pull_entry. rewrite Ha. cbn zeta. rewrite Hn. done.
  - eexists. unfold pull_entry. by rewrite Ha.
Qed.

Lemma pull_each_quiet corpus mapping now today : forall l s rep,
  (forall m, m ∈ l -> forall rep, exists rep', pull_entry corpus mapping untouched now today (s, rep, []) m = (s, rep', []) /\ Applied rep' = Applied rep) ->
  exists rep', foldl (pull_entry corpus mapping untouched now today) (s, rep, []) l = (s, rep', []) /\ Applied rep' = Applied rep.
Proof.
  induction l as [|m l IH]; intros s rep Hq; [by exists rep|]. cbn [foldl].
  destruct (Hq m ltac:(left) rep) as (rep1 & -> & <-). apply IH. intros m' Hm'. apply Hq. by right.
Qed.
End vocabulary.

(** A pull settles.  Once MAL's list has been applied, applying the same list again changes nothing
    here, neither a row nor what MAL is recorded as told: an edit taken from the site does not come back as
    a change, and a difference left for the next push stays one. *)
Theorem Pull_settles `{Unicode} corpus mapping now today later tomorrow l s
  (Hone : NoDup (shows mapping l)) (Hids : forall a, a ∈ shows mapping l -> a <> 0) (Hsite : forall m, m ∈ l -> site_ok m) :
  let s' := (pull_each corpus mapping untouched now today l s).1 in
  exists rep, pull_each corpus mapping untouched later tomorrow l s' = (s', rep) /\ Applied rep = 0.
Proof.
  destruct (pull_rest corpus mapping now today l s (mkImport 0 0 0) [] Hone) as (s1 & rep1 & marks & Hrun & Hp & He & Hx & Hnd & Hrest).
  { intros a Ha. split; [auto|]. intros r Hr. by apply elem_of_nil in Hr. }
  { done. } { constructor. }
  unfold pull_each. rewrite Hrun. cbn [app fst] in *.
  destruct (pull_each_quiet corpus mapping later tomorrow l (SeedPushed marks s1) (mkImport 0 0 0)) as (rep & -> & Hrep); [|by exists rep].
  intros m Hm rep. apply pull_entry_quiet. intros a Ha. rewrite pushed_SeedPushed, Hp.
  assert (a <> 0) as Ha0 by (by apply Hids, (elem_of_shows mapping l m)).
  destruct (Hrest m a Hm Ha) as [(r & Hr & <- & Hs & Hpr & Hst)|[Hno Hcase]].
  - left. exists (told_of r). split; [by apply seed_one|done].
  - rewrite seed_other by done. destruct Hcase as [Ht|Hn]; [by left|by right].
Qed.

(** What MAL has been told comes back as nothing new.  A pending row pushed and taken by the site, then read
    back in MAL's own statuses, rewatch flag and whole points, is pulled as no change
    and marked as none: the two directions never play ping-pong. *)
Theorem told_stays_told `{Unicode} corpus mapping edits now today s rep marks m a e p (He : entries s !! a = Some e)
  (Hp : pending s a e = Some p) (Hst : ValidStatus (t_Status p) = true) (Hm : mapping (m_AnimeID m) = Some a)
  (Hrated : f_score (malForm p) = None -> m_Score m = MALScore (t_Score p)) :
  let s' := MarkPushed a (t_Progress p) (t_Status p) (t_Score p) s in
  pull_entry corpus mapping edits now today (s', rep, marks) (takes (malForm p) m) =
    (edits a s', mkImport (Matched rep + 1) (Unmatched rep) (Applied rep), marks).
Proof.
  cbn zeta. apply (pull_entry_told _ _ _ _ _ _ _ _ _ a (told_of p)); [done| |..].
  - rewrite pushed_MarkPushed. by rewrite decide_True.
  - unfold takes. cbn [told_of told_score m_Score]. destruct (f_score (malForm p)) as [sc|] eqn:Hf; cbn; [|by rewrite Hrated].
    unfold malForm in Hf. cbn in Hf. destruct (_ || _); congruence.
  - done.
  - destruct (status_roundtrip (t_Status p) 0 0 0 0 None Hst) as [Hne Hback]. unfold takes, malForm, ListStatus in *. cbn in *.
    apply String.eqb_neq in Hne. rewrite Hne. cbn. by rewrite Hback.
Qed.

(** Where MAL refuses the token a run stops, and what it leaves says so.  The rows before are dealt with as
    they would be without the rest, the refused one is neither recorded as told nor put to the back of
    the queue, nothing is sent after it, the setting that asks for a reconnect is on, and, refused or
    not, MAL is recorded as told only what it has just taken. *)
Theorem Run_refused `{Unicode} answer now rows st st' rep (Hrun : Run true answer now rows st = (st', rep, true)) :
  mal_auth_error st' = true /\
  (exists pre e post, PendingMALPushes (tables st) rows 200 = pre ++ e :: post /\ answer (RemoteID e) = Unauthorized /\
     tables st' = tables (push_each answer now pre st (mkReport 0 0 0)).1.1 /\
     requests st' = (RemoteID e, malForm e) :: requests (push_each answer now pre st (mkReport 0 0 0)).1.1) /\
  forall a, pushed (tables st') !! a = pushed (tables st) !! a \/
    exists e, e ∈ PendingMALPushes (tables st) rows 200 /\ t_AnimeID e = a /\ answer (RemoteID e) = Done /\
      (RemoteID e, malForm e) ∈ requests st' /\ pushed (tables st') !! a = Some (told_of e).
Proof.
  unfold Run in Hrun. pose proof (push_each_told answer now (PendingMALPushes (tables st) rows 200) st (mkReport 0 0 0)) as Htold.
  destruct (push_each _ _ _ _ _) as [[st0 rep0] refused] eqn:Hpush. destruct refused; [|done]. cbn in Hrun. injection Hrun as <- <-.
  destruct (push_each_refused _ _ _ _ _ _ _ Hpush) as (pre & e & post & st1 & rep1 & Hl & Hpre & Hans & -> & _).
  split; [done|]. split; [|exact Htold]. exists pre, e, post. split_and!; [done|done|by rewrite Hpre..].
Qed.

(** A pull never takes back an edit it has not told MAL of.  The row the viewer left, whether edited since the last
    push or while the pull ran, is as it was after the entry has been dealt with. *)
Theorem Pull_keeps_edits `{Unicode} corpus mapping edits now today s rep marks m a e' (Hm : mapping (m_AnimeID m) = Some a)
  (He' : entries (edits a s) !! a = Some e')
  (Hunsaid : match entries s !! a with
             | Some e => local_updated e < local_updated e' \/ exists t, pushed s !! a = Some t /\ agrees t (Progress e) (status_text e) (Score e) = false
             | None => 0 < local_updated e'
             end) :
  let '(s', _, marks') := pull_entry corpus mapping edits now today (s, rep, marks) m in
  entries s' !! a = Some e' /\ (marks' = marks \/ s' = edits a s).
Proof.
  unfold pull_entry. rewrite Hm. cbn zeta.
  set (last := pushed s !! a) in *. set (remote := remote_of a last m). destruct (pulled remote (entries s !! a) last m) as [[r|]|] eqn:Hp.
  2,3: by auto.
  destruct (pulled_id last _ m a r Hp) as [Hr Hs]. assert (Since r < local_updated e') as Hlt.
  { destruct (entries s !! a) as [e|] eqn:He.
    - rewrite <- (Hs e eq_refl). destruct Hunsaid as [?|(t & Ht & Hag)]; [done|]. exfalso.
      unfold pulled in Hp. rewrite Ht, Hag in Hp. by repeat case_match.
    - unfold pulled in Hp. case_match; [done|]. by injection Hp as <-. }
  assert (a <> 0 -> entries (ApplyRemote corpus r now today (edits a s)).1 !! a = Some e' /\ (ApplyRemote corpus r now today (edits a s)).2 = false) as Hap.
  { intros Ha0. unfold ApplyRemote. rewrite Hr, (proj2 (Z.eqb_neq _ _)) by done. cbn zeta.
    assert (entries (EnsureAnime corpus a (edits a s)) = entries (edits a s)) as ->
      by (unfold EnsureAnime; destruct (_ =? 0); [done|]; by destruct (anime _ !! _)).
    rewrite He', (proj2 (Z.leb_gt _ _)) by done. cbn. split; [|done]. unfold EnsureAnime. destruct (_ =? 0); [done|]. by destruct (anime _ !! _). }
  destruct (decide (a = 0)) as [->|Ha0].
  - unfold ApplyRemote. rewrite Hr. cbn. auto.
  - destruct (Hap Ha0) as [H1 H2]. destruct (ApplyRemote _ _ _ _ _) as [s' changed]. cbn in *. subst changed. auto.
Qed.

(** Of the shows that share a MAL id, the one a pull gives the id to is the one a push speaks for: no other
    entry keeps it from being sent. *)
Theorem AniListIDForMAL_speaks corpus s malID a e (Hrows : forall c f, entries s !! c = Some f -> 0 <= local_updated f)
  (Ha : AniListIDForMAL corpus s malID = Some a) (He : entries s !! a = Some e) :
  sharesMALID s malID a e = false.
Proof.
  unfold sharesMALID. apply not_true_iff_false. intros ([c f] & Hc & Hb)%existsb_elem. cbn in Hb. apply elem_of_map_to_list in Hc.
  destruct (anime s !! c) as [[[m|] ep]|] eqn:Hcm; try done.
  apply andb_true_iff in Hb as [Hb Hafter]. apply andb_true_iff in Hb as [Hm Hne].
  apply Z.eqb_eq in Hm as ->. apply negb_true_iff, Z.eqb_neq in Hne.
  unfold AniListIDForMAL in Ha. set (ids := remove_dups (with_mal malID corpus ++ with_mal malID (anime s))) in *.
  assert (c ∈ ids) as Hcin.
  { apply elem_of_remove_dups, elem_of_app. right. apply elem_of_with_mal. by exists (mkAnime (Some malID) ep). }
  assert (speaksForMAL (entries s) ids = Some a \/ ids = [a]) as [Hsp|Hone].
  { destruct ids as [|i [|j ids]]; [by left| |by left]. right. by injection Ha as ->. }
  2: { rewrite Hone in Hcin. by apply list_elem_of_singleton in Hcin. }
  destruct (decide (a ∈ ids)) as [Hain|Hnin].
  - destruct (speaksForMAL_first _ ids a e Hrows Hsp He Hain c f Hcin Hc) as [Hle Heq].
    apply orb_true_iff in Hafter as [Hafter|Hafter]; [apply Z.ltb_lt in Hafter; lia|].
    apply andb_true_iff in Hafter as [H1 H2]. apply Z.eqb_eq in H1. apply Z.ltb_lt in H2. specialize (Heq H1). lia.
  - by apply speaksForMAL_in in Hsp.
Qed.

(** ** Instances *)

Definition held : Entry := mkEntry 7 (Some "REPEATING") 4 85 1 None None 50 60 false false 0 0.
Definition mal_lists : lists :=
  mkLists {[1 := held]} {[1 := mkAnime (Some 100) (Some 12)]} {[1 := mkTold 3 "REPEATING" 80]} ∅ ∅.
Definition on_site : MalEntry := mkMal 100 "watching" 8 3 true 1 None.
Definition by_hundred (id : Z) : option Z := if id =? 100 then Some 1 else None.

Definition pending_held : TrackerEntry := mkTracker 1 100 "REPEATING" 4 12 1 85 80.

Lemma told_stays_told_witness :
  pull_entry (H := ascii_unicode) ∅ by_hundred untouched 70 "2024-05-01"
    (MarkPushed 1 4 "REPEATING" 85 mal_lists, mkImport 0 0 0, []) (takes (malForm (H := ascii_unicode) pending_held) on_site)
  = (MarkPushed 1 4 "REPEATING" 85 mal_lists, mkImport 1 0 0, []).
Proof.
  apply (@told_stays_told ascii_unicode ∅ by_hundred untouched 70 "2024-05-01" mal_lists (mkImport 0 0 0) [] on_site 1 held pending_held).
  - done.
  - vm_compute. reflexivity.
  - done.
  - done.
  - vm_compute. discriminate.
Defined.

(** The site has moved on to the fifth episode, from a show told as watched to the third. *)
Definition told_lists : lists := MarkPushed 1 4 "REPEATING" 85 mal_lists.
Definition moved_on : MalEntry := mkMal 100 "completed" 9 12 false 2 (Some 90).

Lemma Pull_settles_witness :
  let s' := (pull_each (H := ascii_unicode) ∅ by_hundred untouched 70 "2024-05-01" [moved_on] told_lists).1 in
  entries s' !! 1 <> entries told_lists !! 1 /\
  exists rep, pull_each (H := ascii_unicode) ∅ by_hundred untouched 80 "2024-05-02" [moved_on] s' = (s', rep) /\ Applied rep = 0.
Proof.
  split; [vm_compute; discriminate|].
  apply (@Pull_settles ascii_unicode ∅ by_hundred 70 "2024-05-01" 80 "2024-05-02" [moved_on] told_lists).
  - apply NoDup_singleton.
  - by intros a ->%list_elem_of_singleton.
  - intros m ->%list_elem_of_singleton. vm_compute. split; discriminate.
Defined.

Definition refusing (id : Z) : reply := if id =? 100 then Done else Unauthorized.
Definition also : Entry := mkEntry 8 (Some "CURRENT") 2 0 0 None None 0 61 true false 0 0.
Definition two_rows : list (Z * Entry) := [(1, held); (2, also)].
Definition two_lists : malState :=
  mkMalState (mkLists (list_to_map two_rows) {[1 := mkAnime (Some 100) None; 2 := mkAnime (Some 200) None]} ∅ ∅ ∅) false [].

Lemma Run_refused_witness :
  let st' := (Run (H := ascii_unicode) true refusing 70 two_rows two_lists).1.1 in
  mal_auth_error st' = true /\ length (requests st') = 2%nat.
Proof.
  split; [|vm_compute; reflexivity].
  refine (proj1 (@Run_refused ascii_unicode refusing 70 two_rows two_lists _ (mkReport 1 1 0) _)). vm_compute. reflexivity.
Defined.

(** The viewer watches an episode while the pull has its row in hand. *)
Definition watches (a : Z) (s : lists) : lists := (MarkWatched ∅ a 6 65 "2024-05-01" s).1.

Lemma Pull_keeps_edits_witness :
  from_option Progress 0 (entries (pull_entry (H := ascii_unicode) ∅ by_hundred watches 70 "2024-05-01"
    (told_lists, mkImport 0 0 0, []) moved_on).1.1 !! 1) = 6.
Proof.
  pose proof (@Pull_keeps_edits ascii_unicode ∅ by_hundred watches 70 "2024-05-01" told_lists (mkImport 0 0 0) [] moved_on 1 _
    eq_refl ltac:(vm_compute; reflexivity) ltac:(vm_compute; by left)) as Hkept.
  destruct (pull_entry _ _ _ _ _ _ _) as [[s' rep] marks]. destruct Hkept as [He _]. cbn [fst]. rewrite He. reflexivity.
Defined.

(** Two shows of one id, both listed. *)
Definition sharing : lists :=
  mkLists (list_to_map two_rows) {[1 := mkAnime (Some 100) None; 2 := mkAnime (Some 100) None]} ∅ ∅ ∅.

Lemma AniListIDForMAL_speaks_witness : sharesMALID sharing 100 1 held = true /\ sharesMALID sharing 100 2 also = false.
Proof.
  split; [vm_compute; reflexivity|]. apply (AniListIDForMAL_speaks ∅ sharing 100 2 also).
  - intros c f Hf. apply elem_of_list_to_map_2 in Hf. unfold two_rows in Hf.
    repeat (apply elem_of_cons in Hf as [[= -> ->]|Hf]; [vm_compute; discriminate|]). by apply elem_of_nil in Hf.
  - vm_compute. reflexivity.
  - vm_compute. reflexivity.
Defined.

(** A score of one to four points of a hundred rounds to none of MAL's, and is left out of the form: the
    site keeps the old score, and the next pull brings that back over the viewer's. *)
Lemma low_score_reverts :
  let s := SetScore ∅ 1 3 90 told_lists in
  exists p s', PendingMALPush s 1 = Some p /\ f_score (malForm (H := ascii_unicode) p) = None /\
    s' = MarkPushed 1 (t_Progress p) (t_Status p) (t_Score p) s /\
    Score <$> entries s' !! 1 = Some 3 /\
    Score <$> entries (pull_each (H := ascii_unicode) ∅ by_hundred untouched 95 "2024-05-02"
      [takes (malForm (H := ascii_unicode) p) (mkMal 100 "watching" 9 4 true 1 None)] s').1 !! 1 = Some 90.
Proof. eexists _, _. split_and!; [vm_compute; reflexivity|reflexivity|reflexivity|vm_compute; reflexivity|vm_compute; reflexivity]. Qed.
