(* ===== verification/Trackers.v ===== *)
(** * A sync with AniList: internal/library/sync.go, internal/store/prefs.go (favourites)

    [Sync.Run] pushes the rows AniList has not been told of, then stores its list, then reconciles the
    favourites, which AniList can only toggle.  What AniList answers a save, a toggle or a read is an
    argument; the interleavings a push allows are in Sync.v, and here its steps follow each
    other.  Statements on the local database are taken to succeed, except for the clash of ids that
    [ClearDirtyAt] can meet. *)
From stdpp Require Import base gmap sets strings list sorting.
From Stdlib Require Import ZArith Lia.
From S2P Require Import Prelude GoStr Watch Lists Sync Mal.

(** ** Pushing *)

Inductive saved := Saved (id updated : Z) | Refused | Failed.

(** [saves] and [deletes] are the requests AniList has taken, the latest first. *)
Record anState := mkAn { tbl : lists; auth_error : bool; saves : list (Z * Sent); deletes : list Z }.

Definition set_tbl (f : lists -> lists) (st : anState) : anState := mkAn (f (tbl st)) (auth_error st) (saves st) (deletes st).
Definition set_auth (b : bool) (st : anState) : anState := mkAn (tbl st) b (saves st) (deletes st).

Record SyncReport := mkSync { Pushed : Z; SyncFailed : Z; Pulled : Z }.

Section sync.
Context `{Unicode} (save : Z -> saved).

(** [push]; a clash of ids is an error of the store's. *)
Definition push_entry (a : Z) (e : Entry) (st : anState) : anState * reply :=
  match save a with
  | Saved id u =>
      let st := mkAn (tbl st) (auth_error st) ((a, sent e) :: saves st) (deletes st) in
      match ClearDirtyAt a id u (local_updated e) (tbl st) with
      | Some s => (set_tbl (fun _ => s) st, Done)
      | None => (st, Fault)
      end
  | Refused => (st, Unauthorized)
  | Failed => (st, Fault)
  end.

(** [pushLatest]: the row as it is now, unless clean and not forced. *)
Definition pushLatest (a : Z) (force : bool) (st : anState) : anState * reply :=
  match entries (tbl st) !! a with
  | Some e => if dirty e || force then push_entry a e st else (st, Done)
  | None => (st, Done)
  end.

Definition pushBatch : Z := 100.

(** The loop of [run]; the flag is [ErrReconnect]. *)
Fixpoint push_dirty (now : Z) (l : list (Z * Entry)) (st : anState) (rep : SyncReport) : anState * SyncReport * bool :=
  match l with
  | [] => (st, rep, false)
  | d :: l' =>
      match pushLatest d.1 false st with
      | (st, Done) => push_dirty now l' st (mkSync (Pushed rep + 1) (SyncFailed rep) (Pulled rep))
      | (st, Unauthorized) => (set_auth true st, mkSync (Pushed rep) (SyncFailed rep + 1) (Pulled rep), true)
      | (st, Fault) =>
          push_dirty now l' (set_tbl (PushFailed AniList d.1 now) st) (mkSync (Pushed rep) (SyncFailed rep + 1) (Pulled rep))
      end
  end.

(** How the read of the whole list ends. *)
Inductive listing := Listing (l : list Listed) | ListRefused | ListFailed.

(** [run] without the favourites, which cannot fail it. *)
Definition run (now : Z) (rows : list (Z * Entry)) (pull : option listing) (st : anState) : anState * SyncReport * reply :=
  let '(st, rep, refused) := push_dirty now (DirtyEntries rows pushBatch) st (mkSync 0 0 0) in
  if refused then (st, rep, Unauthorized)
  else
    match pull with
    | None => (st, rep, Done)
    | Some (Listing l) =>
        (set_tbl (ImportList ImportMerge now l) st, mkSync (Pushed rep) (SyncFailed rep) (Z.of_nat (length l)), Done)
    | Some ListRefused => (set_auth true st, rep, Unauthorized)
    | Some ListFailed => (st, rep, Fault)
    end.

(** [Run]: a sync that went through clears the setting. *)
Definition RunSync (authenticated : bool) (now : Z) (rows : list (Z * Entry)) (pull : option listing) (st : anState) :
    anState * SyncReport * reply :=
  if authenticated then
    let '(st, rep, r) := run now rows pull st in
    match r with Done => (set_auth false st, rep, Done) | _ => (st, rep, r) end
  else (st, mkSync 0 0 0, Done).

(** [Sync.PushOne]: MyAnimeList first, then AniList, forced. *)
Definition PushBoth (malIn alIn : bool) (answer : Z -> reply) (a : Z) (mst : malState) (st : anState) : malState * anState * list reply :=
  let mst := set_tables (fun _ => tbl st) mst in
  let '(mst, r) := PushOne malIn answer a mst in
  let st := set_tbl (fun _ => tables mst) st in
  if alIn && (0 <? a) then
    let '(st, r') := pushLatest a true st in (set_tables (fun _ => tbl st) mst, st, [r; r'])
  else (mst, st, [r]).

(** [Sync.Watched]. *)
Definition Watched (corpus : gmap Z Anime) (malIn alIn : bool) (answer : Z -> reply) (a episode now : Z) (today : string)
    (mst : malState) (st : anState) : malState * anState * list reply :=
  let '(s, changed) := MarkWatched corpus a episode now today (tbl st) in
  let st := set_tbl (fun _ => s) st in
  if changed then PushBoth malIn alIn answer a mst st else (mst, st, []).

(** [MalID]: the library's id of the show, else the corpus's. *)
Definition MalID (corpus : gmap Z Anime) (a : Z) (s : lists) : Z := default 0 (union (anime s !! a ≫= mal_id) (corpus !! a ≫= mal_id)).

(** [Sync.Remove]: AniList, then MAL, then here; a tracker that fails leaves the row.  [None] for a deletion says
    the tracker's API failed. *)
Definition Remove (corpus : gmap Z Anime) (alIn malIn : bool) (del : Z -> option unit) (malDel : Z -> option unit) (a : Z) (st : anState) : anState * reply :=
  let asked := match entries (tbl st) !! a with Some e => (0 <? ID e) && alIn | None => false end in
  let id := from_option ID 0 (entries (tbl st) !! a) in
  match (if asked then del id else Some ()) with
  | None => (st, Fault)
  | Some _ =>
      let st := if asked then mkAn (tbl st) (auth_error st) (saves st) (id :: deletes st) else st in
      let malID := MalID corpus a (tbl st) in
      match (if malIn && negb (malID =? 0) then malDel malID else Some ()) with
      | None => (st, Fault)
      | Some _ => (set_tbl (RemoveListEntry a) st, Done)
      end
  end.

(** ** The batch *)

Lemma push_before_asym x y : push_before x y = true -> push_before y x = false.
Proof.
  unfold push_before. rewrite orb_true_iff, andb_true_iff, orb_false_iff, andb_false_iff, !Z.ltb_lt, !Z.ltb_ge, Z.eqb_eq, Z.eqb_neq. lia.
Qed.

Lemma push_before_weak x y z : push_before y x = false -> push_before z y = false -> push_before z x = false.
Proof.
  unfold push_before. rewrite !orb_false_iff, !andb_false_iff, !Z.ltb_ge, !Z.eqb_neq. lia.
Qed.

Definition sendable (x : Z * Entry) : bool := dirty x.2 && (0 <? x.1).

Lemma DirtyEntries_in rows limit x : x ∈ DirtyEntries rows limit -> x ∈ rows /\ sendable x = true.
Proof.
  intros Hx. apply subseteq_take in Hx. rewrite sort_by_perm in Hx. by apply elem_of_filter_b in Hx.
Qed.

Lemma NoDup_filter_fst {B} (f : Z * B -> bool) (l : list (Z * B)) : NoDup (l.*1) -> NoDup ((List.filter f l).*1).
Proof.
  induction l as [|x l IH]; cbn; [done|]. intros [Hx Hnd]%NoDup_cons. destruct (f x); [|by apply IH].
  cbn. apply NoDup_cons. split; [|by apply IH]. intros Hin. apply Hx. apply list_elem_of_fmap in Hin as (y & -> & Hy).
  apply elem_of_filter_b in Hy as [Hy _]. by apply list_elem_of_fmap_2.
Qed.

Lemma DirtyEntries_NoDup rows limit : NoDup (rows.*1) -> NoDup ((DirtyEntries rows limit).*1).
Proof.
  intros Hnd. unfold DirtyEntries. rewrite fmap_take. eapply sublist_NoDup; [|apply sublist_take].
  rewrite sort_by_perm. by apply NoDup_filter_fst.
Qed.

(** A row the batch leaves out is after every row in it, and the batch is full. *)
Lemma DirtyEntries_full rows limit x : x ∈ rows -> sendable x = true -> x ∉ DirtyEntries rows limit ->
  length (DirtyEntries rows limit) = Z.to_nat (clampLimit limit 25 200) /\
  forall y, y ∈ DirtyEntries rows limit -> push_before x y = false.
Proof.
  intros Hx Hs Hn. unfold DirtyEntries in *. set (n := Z.to_nat _) in *.
  set (l := sort_by push_before _) in *. change (fun x0 : Z * Entry => dirty x0.2 && (0 <? x0.1)) with sendable in *.
  assert (x ∈ l) as Hl by (unfold l; rewrite sort_by_perm; by apply elem_of_filter_b).
  pose proof (sort_by_sorts push_before push_before_asym push_before_weak (List.filter sendable rows)) as Hsort. fold l in Hsort.
  rewrite <- (take_drop n l) in Hsort, Hl. apply elem_of_app in Hl as [?|Hl]; [done|]. split.
  - rewrite length_take. assert (n < length l)%nat; [|lia]. destruct (decide (n < length l)%nat); [done|].
    rewrite drop_ge in Hl by lia. by apply elem_of_nil in Hl.
  - intros y Hy. by apply (StronglySorted_app_1_elem_of _ _ _ y x Hsort).
Qed.

(** ** A run without failures *)

Context (owner : Z -> Z).

(** Ids AniList gave are each a show's own. *)
Definition owned (t : gmap Z Entry) : Prop := forall a e, t !! a = Some e -> ID e <= 0 \/ owner (ID e) = a.

Context (answers_owned : forall a id u, save a = Saved id u -> 0 < id /\ owner id = a).

Lemma pushLatest_saved a e id u st : owned (entries (tbl st)) -> entries (tbl st) !! a = Some e -> dirty e = true ->
  save a = Saved id u -> exists s, pushLatest a false st = (mkAn s (auth_error st) ((a, sent e) :: saves st) (deletes st), Done) /\
    owned (entries s) /\ (exists e', entries s !! a = Some e' /\ dirty e' = false) /\
    forall b, b <> a -> entries s !! b = entries (tbl st) !! b.
Proof using answers_owned.
  intros Ho He Hd Hs. unfold pushLatest, push_entry, ClearDirtyAt. rewrite He, Hd, Hs. cbn [orb set_tbl tbl auth_error saves deletes].
  rewrite He. destruct (answers_owned a id u Hs) as [Hid Hown]. rewrite (proj2 (Z.eqb_neq id 0)) by lia.
  assert (id_taken a id (entries (tbl st)) = false) as ->.
  { apply not_true_iff_false. intros ([b f] & Hb & Hx)%existsb_elem. apply elem_of_map_to_list in Hb. cbn in Hx.
    apply andb_true_iff in Hx as [Hne Heq]. apply negb_true_iff, Z.eqb_neq in Hne. apply Z.eqb_eq in Heq.
    destruct (Ho b f Hb) as [?|?]; [lia|congruence]. }
  rewrite Z.leb_refl. eexists. split; [done|]. cbn. split_and!.
  - intros b f Hb. destruct (decide (b = a)) as [->|Hne].
    + rewrite lookup_insert_eq in Hb. injection Hb as <-. by right.
    + rewrite lookup_insert_ne in Hb by done. by apply Ho.
  - eexists. by rewrite lookup_insert_eq.
  - intros b Hb. by rewrite lookup_insert_ne.
Qed.

Lemma push_dirty_all now : forall l st rep, owned (entries (tbl st)) -> NoDup (l.*1) ->
  (forall a e, (a, e) ∈ l -> entries (tbl st) !! a = Some e /\ dirty e = true /\ exists id u, save a = Saved id u) ->
  exists st', push_dirty now l st rep = (st', mkSync (Pushed rep + Z.of_nat (length l)) (SyncFailed rep) (Pulled rep), false) /\
    auth_error st' = auth_error st /\ (exists more, saves st' = more ++ saves st) /\
    (forall a e, (a, e) ∈ l -> (a, sent e) ∈ saves st' /\ exists e', entries (tbl st') !! a = Some e' /\ dirty e' = false) /\
    forall b, b ∉ l.*1 -> entries (tbl st') !! b = entries (tbl st) !! b.
Proof using answers_owned.
  induction l as [|[a e] l IH]; intros st rep Ho Hnd Hl.
  { exists st. destruct rep. cbn. rewrite Z.add_0_r. split_and!; [done|done|by exists []|intros a e Hin; by apply elem_of_nil in Hin|done]. }
  cbn [push_dirty fst]. rewrite fmap_cons in Hnd. apply NoDup_cons in Hnd as [Ha Hnd].
  destruct (Hl a e ltac:(left)) as (He & Hd & id & u & Hs).
  destruct (pushLatest_saved a e id u st Ho He Hd Hs) as (s & -> & Ho' & Hclean & Hother).
  edestruct (IH (mkAn s (auth_error st) ((a, sent e) :: saves st) (deletes st)) (mkSync (Pushed rep + 1) (SyncFailed rep) (Pulled rep)) Ho' Hnd)
    as (st' & -> & Hau & (more & Hm) & Hsent & Hrest).
  { intros b f Hb. cbn. destruct (Hl b f ltac:(by right)) as (H1 & H2 & H3). split_and!; [|done|done].
    rewrite Hother; [done|]. intros ->. apply Ha. by apply (list_elem_of_fmap_2 fst l (a, f)). }
  exists st'. cbn [Pushed SyncFailed Pulled auth_error saves tbl] in *. split_and!.
  - do 2 f_equal. cbn [length]. f_equal. lia.
  - done.
  - exists (more ++ [(a, sent e)]). by rewrite <- app_assoc.
  - intros b f [[= -> ->]|Hb]%elem_of_cons; [|by apply Hsent]. rewrite Hrest by done. split; [|done].
    rewrite Hm. apply elem_of_app. right. left.
  - intros b Hb. rewrite fmap_cons in Hb. apply not_elem_of_cons in Hb as [Hne Hb]. rewrite Hrest by done. by apply Hother.
Qed.

(** A run stops where AniList refuses the token; the rows before it were dealt with as without the rest. *)
Lemma push_dirty_refused now : forall l st rep st' rep', push_dirty now l st rep = (st', rep', true) ->
  exists pre d post st1 rep1, l = pre ++ d :: post /\ push_dirty now pre st rep = (st1, rep1, false) /\
    save d.1 = Refused /\ st' = set_auth true st1.
Proof.
  induction l as [|d l IH]; intros st rep st' rep'; cbn [push_dirty]; [done|].
  destruct (pushLatest d.1 false st) as [st0 [| |]] eqn:Hp.
  - intros Hr. destruct (IH _ _ _ _ Hr) as (pre & d0 & post & st1 & rep1 & -> & Hpre & Hs & ->).
    exists (d :: pre), d0, post, st1, rep1. split_and!; try done. cbn [push_dirty]. by rewrite Hp.
  - intros [= <- <-]. exists [], d, l, st, rep.
    assert (save d.1 = Refused /\ st0 = st) as [Hs ->].
    { unfold pushLatest, push_entry in Hp. destruct (entries _ !! d.1) as [e|]; [|done]. destruct (dirty e || false); [|done].
      destruct (save d.1) as [id u| |]; [|by injection Hp as <-|done]. by destruct (ClearDirtyAt _ _ _ _ _). }
    by split_and!.
  - intros Hr. destruct (IH _ _ _ _ Hr) as (pre & d0 & post & st1 & rep1 & -> & Hpre & Hs & ->).
    exists (d :: pre), d0, post, st1, rep1. split_and!; try done. cbn [push_dirty]. by rewrite Hp.
Qed.
End sync.

(** ** Favourites *)

(** A row of [user_anime]. *)
Record Fav := mkFav { favourite : bool; pinned : bool; hidden : bool; note : string; updated_at : Z; synced : bool; fav_dirty : bool }.

Record Bookmark := mkBookmark { b_Favourite : bool; b_Pinned : bool; b_Hidden : bool; b_Note : string }.

Definition SetBookmark (a : Z) (b : Bookmark) (now : Z) (t : gmap Z Fav) : gmap Z Fav :=
  let s := from_option synced false (t !! a) in
  <[a := mkFav (b_Favourite b) (b_Pinned b) (b_Hidden b) (b_Note b) now s (xorb (b_Favourite b) s)]> t.

Record BookmarkPatch := mkPatch { p_Favourite : option bool; p_Pinned : option bool; p_Hidden : option bool; p_Note : option string }.

Definition PatchBookmark (a : Z) (p : BookmarkPatch) (now : Z) (t : gmap Z Fav) : gmap Z Fav :=
  let old := default (mkFav false false false "" 0 false false) (t !! a) in
  let fav := default (favourite old) (p_Favourite p) in
  <[a := mkFav fav (default (pinned old) (p_Pinned p)) (default (hidden old) (p_Hidden p)) (default (note old) (p_Note p)) now
           (synced old) (xorb fav (synced old))]> t.

Definition DirtyFavourites (t : gmap Z Fav) : list (Z * bool) :=
  (fun x => (x.1, favourite x.2)) <$> List.filter (fun x => fav_dirty x.2) (map_to_list t).

Definition MarkFavouriteSynced (a : Z) (fav : bool) (t : gmap Z Fav) : gmap Z Fav :=
  alter (fun f => mkFav (favourite f) (pinned f) (hidden f) (note f) (updated_at f) fav (negb (Bool.eqb (favourite f) fav))) a t.

Definition settle (fav : bool) (now : Z) (f : Fav) : Fav :=
  mkFav fav (pinned f) (hidden f) (note f) now fav (fav_dirty f).

(** The favourites among the rows with nothing to push, as read. *)
Definition settled_on (t : gmap Z Fav) (a : Z) : bool :=
  match t !! a with Some f => negb (fav_dirty f) && favourite f | None => false end.

(** [ApplyRemoteFavourites]: [seen] is the table as read, [t] as the transaction finds it. *)
Definition add_remote (now : Z) (seen : gmap Z Fav) (t : gmap Z Fav) (a : Z) : gmap Z Fav :=
  if settled_on seen a then t
  else
    match t !! a with
    | None => <[a := mkFav true false false "" now true false]> t
    | Some f => if fav_dirty f then t else <[a := settle true now f]> t
    end.

Definition ApplyRemoteFavourites (now : Z) (ids : list Z) (seen t : gmap Z Fav) : gmap Z Fav :=
  map_imap (fun a f =>
    Some (if settled_on seen a && negb (bool_decide (a ∈ ids)) && negb (fav_dirty f) then settle false now f else f))
    (foldl (add_remote now seen) t ids).

(** [Sync.favourites]: [site] is AniList's set, [toggle] whether it takes the change.
    A change is sent only where the two disagree; the viewer may click ([clicks]) before it is marked. *)
Definition push_favourite (toggle : Z -> bool) (clicks : Z -> gmap Z Fav -> gmap Z Fav)
    (acc : gmap Z Fav * gset Z) (c : Z * bool) : gmap Z Fav * gset Z :=
  let '(t, on) := acc in
  if Bool.eqb (bool_decide (c.1 ∈ on)) c.2 then (MarkFavouriteSynced c.1 c.2 (clicks c.1 t), on)
  else if toggle c.1 then
    (MarkFavouriteSynced c.1 c.2 (clicks c.1 t), if c.2 then {[c.1]} ∪ on else on ∖ {[c.1]})
  else (clicks c.1 t, on).

Definition favourites (toggle : Z -> bool) (clicks : Z -> gmap Z Fav -> gmap Z Fav) (now : Z) (site : gset Z) (t : gmap Z Fav) :
    gmap Z Fav * gset Z :=
  let '(t, on) := foldl (push_favourite toggle clicks) (t, site) (DirtyFavourites t) in
  (ApplyRemoteFavourites now (elements on) t t, on).

(** *** A row's flags *)

(** A row is marked to be pushed exactly where it differs from what AniList was last known to hold. *)
Definition flagged (t : gmap Z Fav) : Prop := forall a f, t !! a = Some f -> fav_dirty f = xorb (favourite f) (synced f).

Lemma flagged_insert t a f : flagged t -> fav_dirty f = xorb (favourite f) (synced f) -> flagged (<[a := f]> t).
Proof.
  intros Ht Hf b g Hb. destruct (decide (b = a)) as [->|Hne]; [rewrite lookup_insert_eq in Hb; by injection Hb as <-|].
  rewrite lookup_insert_ne in Hb by done. by apply (Ht b).
Qed.

Lemma SetBookmark_flagged a b now t : flagged t -> flagged (SetBookmark a b now t).
Proof. intros Ht. by apply flagged_insert. Qed.

Lemma PatchBookmark_flagged a p now t : flagged t -> flagged (PatchBookmark a p now t).
Proof. intros Ht. by apply flagged_insert. Qed.

Lemma Mark_flagged a fav t : flagged t -> flagged (MarkFavouriteSynced a fav t).
Proof.
  intros Ht b g Hb. unfold MarkFavouriteSynced in Hb. destruct (decide (b = a)) as [->|Hne].
  - rewrite lookup_alter_eq in Hb. apply fmap_Some in Hb as (f & _ & ->). cbn. by destruct (favourite f), fav.
  - rewrite lookup_alter_ne in Hb by done. by apply (Ht b).
Qed.

Lemma add_remote_flagged now seen ids : forall t, flagged t -> flagged (foldl (add_remote now seen) t ids).
Proof.
  induction ids as [|a ids IH]; intros t Ht; [done|]. cbn [foldl]. apply IH. unfold add_remote.
  destruct (settled_on seen a); [done|]. destruct (t !! a) as [f|] eqn:Ha; [|by apply flagged_insert].
  destruct (fav_dirty f) eqn:Hd; [done|]. by apply flagged_insert.
Qed.

Lemma Apply_flagged now ids seen t : flagged t -> flagged (ApplyRemoteFavourites now ids seen t).
Proof.
  intros Ht b g Hb. unfold ApplyRemoteFavourites in Hb. rewrite map_lookup_imap in Hb.
  apply bind_Some in Hb as (f & Hf & [= <-]). apply (add_remote_flagged now seen ids) in Ht.
  destruct (settled_on seen b && _ && negb (fav_dirty f)) eqn:Hc; [|by apply (Ht b)].
  apply andb_true_iff in Hc as [_ Hd]. apply negb_true_iff in Hd. by cbn.
Qed.

(** *** Both sides agree *)

(** What the merge makes of one row. *)
Lemma add_remote_row now seen a : forall ids t,
  foldl (add_remote now seen) t ids !! a =
  if bool_decide (a ∈ ids) && negb (settled_on seen a) then
    match t !! a with
    | None => Some (mkFav true false false "" now true false)
    | Some f => if fav_dirty f then Some f else Some (settle true now f)
    end
  else t !! a.
Proof.
  induction ids as [|b ids IH]; intros t; [done|]. cbn [foldl]. rewrite IH. clear IH.
  destruct (decide (b = a)) as [->|Hne].
  - rewrite (bool_decide_true (a ∈ a :: ids)) by left. unfold add_remote. destruct (settled_on seen a); cbn [negb andb].
    { by rewrite andb_false_r. }
    rewrite andb_true_r. destruct (t !! a) as [f|] eqn:Ha.
    + destruct (fav_dirty f) eqn:Hd; [by rewrite Ha, Hd; case_bool_decide|]. rewrite lookup_insert_eq. cbn. rewrite Hd.
      by case_bool_decide.
    + rewrite lookup_insert_eq. cbn. by case_bool_decide.
  - assert (bool_decide (a ∈ b :: ids) = bool_decide (a ∈ ids)) as ->.
    { apply bool_decide_ext. rewrite elem_of_cons. split; [intros [?|?]; congruence|by right]. }
    assert (add_remote now seen t b !! a = t !! a) as ->; [|done].
    unfold add_remote. destruct (settled_on seen b); [done|]. destruct (t !! b) as [f|]; [destruct (fav_dirty f); [done|]|]; by rewrite lookup_insert_ne.
Qed.

(** A row the merge leaves clean is as on the site, and one still to be pushed is as it was. *)
Lemma merge_row now ids t a :
  match ApplyRemoteFavourites now ids t t !! a with
  | Some f => if fav_dirty f then t !! a = Some f else favourite f = bool_decide (a ∈ ids)
  | None => t !! a = None /\ a ∉ ids
  end.
Proof.
  unfold ApplyRemoteFavourites. rewrite map_lookup_imap, add_remote_row. unfold settled_on.
  destruct (t !! a) as [f|] eqn:Ha; cbn.
  - destruct (fav_dirty f) eqn:Hd; cbn.
    + rewrite andb_true_r. case_bool_decide; cbn; by rewrite Hd.
    + destruct (favourite f) eqn:Hf; cbn; rewrite ?andb_false_r, ?andb_true_r; case_bool_decide; cbn; rewrite ?Hd; cbn;
        rewrite ?Hd; cbn; by rewrite ?Hf.
  - rewrite andb_true_r. by case_bool_decide.
Qed.

(** Clicks go through [SetBookmark] or [PatchBookmark]. *)
Definition honest (clicks : Z -> gmap Z Fav -> gmap Z Fav) : Prop := forall a t, flagged t -> flagged (clicks a t).

Lemma pushes_flagged toggle clicks : honest clicks -> forall l t on, flagged t -> flagged (foldl (push_favourite toggle clicks) (t, on) l).1.
Proof.
  intros Hc. induction l as [|c l IH]; intros t on Ht; [done|]. cbn [foldl push_favourite].
  destruct (Bool.eqb _ _); [by apply IH, Mark_flagged, Hc|]. destruct (toggle c.1); [by apply IH, Mark_flagged, Hc|by apply IH, Hc].
Qed.

(** A sync of the favourites ends with both sides saying the same, whatever AniList refuses and whatever the viewer
    clicks meanwhile: a row with nothing left to push is a favourite exactly if AniList's set has it, every show
    AniList holds has a row, and a row still to be pushed is one whose favourite differs from what AniList was last
    known to hold. *)
Theorem favourites_agree toggle clicks now site t (Hflag : flagged t) (Hclicks : honest clicks) :
  let '(t', site') := favourites toggle clicks now site t in
  flagged t' /\
  (forall a f, t' !! a = Some f -> fav_dirty f = false -> favourite f = bool_decide (a ∈ site')) /\
  (forall a, a ∈ site' -> is_Some (t' !! a)).
Proof.
  unfold favourites. pose proof (pushes_flagged toggle clicks Hclicks (DirtyFavourites t) t site Hflag) as Hf.
  destruct (foldl _ _ _) as [t1 on]. cbn [fst] in Hf. split_and!.
  - by apply Apply_flagged.
  - intros a f Ha Hd. pose proof (merge_row now (elements on) t1 a) as Hm. rewrite Ha, Hd in Hm. rewrite Hm.
    apply bool_decide_ext, elem_of_elements.
  - intros a Ha. pose proof (merge_row now (elements on) t1 a) as Hm. destruct (ApplyRemoteFavourites _ _ _ _ !! a); [by eexists|].
    destruct Hm as [_ Hn]. exfalso. by apply Hn, elem_of_elements.
Qed.

(** A show favourited here and one on the site, with a third that the viewer takes back while it is being sent. *)
Definition faved : Fav := mkFav true false false "" 5 false true.
Definition undone (a : Z) (t : gmap Z Fav) : gmap Z Fav := if a =? 3 then SetBookmark 3 (mkBookmark false false false "") 9 t else t.

Lemma favourites_agree_witness :
  let '(t', site') := favourites (fun _ => true) undone 10 {[2]} {[1 := faved; 3 := faved]} in
  (favourite <$> t' !! 1 = Some true /\ fav_dirty <$> t' !! 3 = Some true) /\
  forall a, a ∈ site' -> is_Some (t' !! a).
Proof.
  pose proof (favourites_agree (fun _ => true) undone 10 {[2]} {[1 := faved; 3 := faved]}) as Hag.
  assert (flagged {[1 := faved; 3 := faved]}) as Hfl.
  { apply flagged_insert; [|done]. apply flagged_insert; [|done]. done. }
  assert (honest undone) as Hh by (intros a t Ht; unfold undone; destruct (a =? 3); [by apply SetBookmark_flagged|done]).
  specialize (Hag Hfl Hh). destruct (favourites _ _ _ _ _) as [t' site'] eqn:Heq. split; [|apply Hag].
  clear Hag. vm_compute in Heq. by injection Heq as <- <-.
Defined.

(** A run that AniList answers leaves nothing it took up unsaid.  Every row of its batch is sent as it stands and then clean,
    every other row is as it was, and a row with something to say that the batch left out found it full of
    rows refused no later than itself. *)
Theorem run_sends `{Unicode} save owner (Hids : forall a id u, save a = Saved id u -> 0 < id /\ owner id = a)
  now rows st (Hrows : rows ≡ₚ map_to_list (entries (tbl st))) (Howned : owned owner (entries (tbl st)))
  (Htaken : forall a e, (a, e) ∈ rows -> dirty e = true -> exists id u, save a = Saved id u) :
  let batch := DirtyEntries rows pushBatch in
  exists st', RunSync save true now rows None st = (st', mkSync (Z.of_nat (length batch)) 0 0, Done) /\ auth_error st' = false /\
    (forall a e, (a, e) ∈ batch -> (a, sent e) ∈ saves st' /\ exists e', entries (tbl st') !! a = Some e' /\ dirty e' = false) /\
    (forall a, a ∉ batch.*1 -> entries (tbl st') !! a = entries (tbl st) !! a) /\
    (forall a e, entries (tbl st') !! a = Some e -> dirty e = true -> 0 < a ->
       length batch = 100%nat /\ forall y, y ∈ batch -> anilist_failed y.2 <= anilist_failed e).
Proof.
  cbn zeta. assert (NoDup (rows.*1)) as Hnd by (rewrite Hrows; apply NoDup_fst_map_to_list).
  destruct (push_dirty_all save owner Hids now (DirtyEntries rows pushBatch) st (mkSync 0 0 0) Howned) as (st1 & Hrun & _ & _ & Hsent & Hrest).
  { by apply DirtyEntries_NoDup. }
  { intros a e Hin. apply DirtyEntries_in in Hin as [Hin Hs]. apply andb_true_iff in Hs as [Hd _]. cbn in Hd.
    split_and!; [by rewrite Hrows, elem_of_map_to_list in Hin|done|by apply (Htaken a e)]. }
  exists (set_auth false st1). unfold RunSync, run. rewrite Hrun. cbn [Pushed SyncFailed Pulled tbl set_auth saves auth_error].
  split_and!; [done|done|exact Hsent|exact Hrest|].
  intros a e He Hd Ha. destruct (decide (a ∈ (DirtyEntries rows pushBatch).*1)) as [Hin|Hnin].
  - apply list_elem_of_fmap in Hin as ([b f] & -> & Hin). destruct (Hsent b f Hin) as (_ & e' & He' & Hc). cbn in *. congruence.
  - rewrite Hrest in He by done. destruct (DirtyEntries_full rows pushBatch (a, e)) as [Hlen Hle].
    + by rewrite Hrows, elem_of_map_to_list.
    + unfold sendable. cbn. rewrite Hd. by apply Z.ltb_lt.
    + intros Hin. apply Hnin. by apply (list_elem_of_fmap_2 fst _ (a, e)).
    + split; [done|]. intros y Hy. specialize (Hle y Hy). unfold push_before in Hle. cbn in Hle.
      apply orb_false_iff in Hle as [Hle _]. by apply Z.ltb_ge in Hle.
Qed.

(** One row to send, and one that is clean. *)
Definition to_send : list (Z * Entry) := [(1, held); (2, also)].
Definition unsent : anState := mkAn (mkLists (list_to_map to_send) ∅ ∅ ∅ ∅) true [] [].
Definition answering (a : Z) : saved := if 0 <? a then Saved (a + 6) 90 else Failed.

Lemma run_sends_witness :
  exists st', RunSync (H := ascii_unicode) answering true 70 to_send None unsent = (st', mkSync 1 0 0, Done) /\ auth_error st' = false.
Proof.
  destruct (@run_sends ascii_unicode answering (fun id => id - 6)) with (now := 70) (rows := to_send) (st := unsent)
    as (st' & Hrun & Hau & _).
  - intros a id u Ha. unfold answering in Ha. destruct (Z.ltb_spec 0 a); [|done]. injection Ha as <- <-. lia.
  - unfold unsent. cbn [tbl entries]. symmetry. apply map_to_list_to_map. by apply (bool_decide_unpack _).
  - intros a e He. apply elem_of_list_to_map_2 in He. unfold to_send in He.
    repeat (apply elem_of_cons in He as [[= -> ->]|He]; [by right|]). by apply elem_of_nil in He.
  - intros a e He _. unfold to_send in He.
    repeat (apply elem_of_cons in He as [[= -> ->]|He]; [by eexists _, _|]). by apply elem_of_nil in He.
  - exists st'. split; [exact Hrun|exact Hau].
Defined.
