(* ===== verification/Race.v ===== *)
(** * Racing releases: internal/library/play.go (race, tryCandidate, discardLosers)

    A start tries its candidates side by side, [raceWidth] at a time, the better ones first.  Each is looked up,
    added to the engine and warmed by its own goroutine, which hands its outcome to the one that
    called; that one returns the best release ready once nothing better is still running, or once its
    patience is out.  The goroutines' moves are the steps of a relation, so that any order
    of theirs is covered.  A candidate is known by its rank and its info-hash; the engine by the set of hashes it holds.
    An [Add] that fails adds nothing, and a deletion goes through. *)
From stdpp Require Import base gmap sets strings list.
From Stdlib Require Import ZArith Lia.
From S2P Require Import Prelude.

(** ** The state of a race *)

Inductive outcome := Ready | Failed.

(** Where a candidate's goroutine is: not started, in [awaitInspect] or [pickFile], in [warmed], at the send of its
    outcome, or past it (taken by the caller, or dropped because the race was decided). *)
Inductive phase := Idle | Inspecting | Warming | Offered (o : outcome) | Received (o : outcome) | Dropped.

#[export] Instance outcome_eq : EqDecision outcome.
Proof. solve_decision. Defined.
#[export] Instance phase_eq : EqDecision phase.
Proof. solve_decision. Defined.

(** How the caller returned; [Won i patient] says whether its patience had run out. *)
Inductive verdict := Won (i : nat) (impatient : bool) | NothingWon | Cancelled.

(** [doomed] is what [discardLosers] has yet to drop; [timer] is whether [patience] is running; [ctx_done] whether the viewer gave up.
    [claimed] are the hashes on record for an episode, and [others] those that someone else has added meanwhile. *)
Record race := mkRace {
  phases : list phase; engine : gset string; doomed : gset string; timer : bool; ctx_done : bool; result : option verdict;
  claimed : gset string; others : gset string;
}.

Definition raceWidth : nat := 3.

Definition running (p : phase) : bool :=
  match p with Inspecting | Warming | Offered _ => true | _ => false end.

(** The slots taken. *)
Definition busy (w : race) : nat := length (List.filter running (phases w)).

(** The first success with every better rival resolved, and the first success at all. *)
Fixpoint settled (l : list phase) : option nat :=
  match l with
  | Received Ready :: _ => Some 0%nat
  | Received Failed :: l' => S <$> settled l'
  | _ => None
  end.

Fixpoint first_ready (l : list phase) : option nat :=
  match l with
  | [] => None
  | Received Ready :: _ => Some 0%nat
  | _ :: l' => S <$> first_ready l'
  end.

Definition received (p : phase) : bool := match p with Received _ => true | _ => false end.

Definition set_phase (w : race) (i : nat) (p : phase) : race :=
  mkRace (<[i := p]> (phases w)) (engine w) (doomed w) (timer w) (ctx_done w) (result w) (claimed w) (others w).
Definition set_engine (w : race) (e : gset string) : race :=
  mkRace (phases w) e (doomed w) (timer w) (ctx_done w) (result w) (claimed w) (others w).

Section race.
(** The candidates' hashes, best first, and what the engine held when the race began. *)
Context (hashes : list string) (held : gset string).

Definition hash_of (i : nat) : string := default "" (hashes !! i).

(** [discardUnclaimed]: a release on record for an episode stays. *)
Definition discard (h : string) (w : race) : race :=
  if bool_decide (h ∈ claimed w) then w else set_engine w (engine w ∖ {[h]}).

(** What [tryCandidate] and a stray winner drop: nothing that was held before. *)
Definition discard_own (i : nat) (w : race) : race :=
  if bool_decide (hash_of i ∈ held) then w else discard (hash_of i) w.

(** [discardLosers]'s share: the received successes but the winner's. *)
Definition losers (l : list phase) (winner : option nat) : gset string :=
  list_to_set (omap (fun i =>
    if bool_decide (l !! i = Some (Received Ready)) && negb (bool_decide (winner = Some i)) && negb (bool_decide (hash_of i ∈ held))
    then Some (hash_of i) else None) (seq 0 (length l))).

Definition winner_of (v : verdict) : option nat := match v with Won i _ => Some i | _ => None end.

Definition finish (v : verdict) (w : race) : race :=
  mkRace (phases w) (engine w) (losers (phases w) (winner_of v) ∪ doomed w) (timer w) (ctx_done w) (Some v) (claimed w) (others w).

(** The caller's turn, an outcome being in. *)
Definition judge (w : race) : race :=
  match settled (phases w) with
  | Some i => finish (Won i false) w
  | None => if forallb received (phases w) then mkRace (phases w) (engine w) (doomed w) (timer w) (ctx_done w) (Some NothingWon) (claimed w) (others w) else w
  end.

Definition take (i : nat) (o : outcome) (w : race) : race :=
  judge (mkRace (<[i := Received o]> (phases w)) (engine w) (doomed w) (timer w || bool_decide (o = Ready)) (ctx_done w) (result w)
           (claimed w) (others w)).

Inductive step : race -> race -> Prop :=
  (** The launcher: the next candidate, if a slot is free. *)
  | launches w i : phases w !! i = Some Idle -> (forall j, (j < i)%nat -> phases w !! j <> Some Idle) -> (busy w < raceWidth)%nat ->
      step w (set_phase w i Inspecting)
  (** [tryCandidate]: not found, not in it, or not added; added; warmed or not. *)
  | gives_up w i : phases w !! i = Some Inspecting -> step w (set_phase w i (Offered Failed))
  | adds w i : phases w !! i = Some Inspecting -> step w (set_engine (set_phase w i Warming) ({[hash_of i]} ∪ engine w))
  | warms w i : phases w !! i = Some Warming -> step w (set_phase w i (Offered Ready))
  | stalls w i : phases w !! i = Some Warming -> step w (discard_own i (set_phase w i (Offered Failed)))
  (** The outcome is taken, or dropped once the race is decided. *)
  | takes w i o : phases w !! i = Some (Offered o) -> result w = None -> step w (take i o w)
  | drops w i o : phases w !! i = Some (Offered o) -> result w <> None \/ ctx_done w = true ->
      step w (let w' := set_phase w i Dropped in match o with Ready => discard_own i w' | Failed => w' end)
  | tires w i : result w = None -> timer w = true -> first_ready (phases w) = Some i -> step w (finish (Won i true) w)
  | returns w : result w = None -> ctx_done w = true -> step w (finish Cancelled w)
  | discards w h : h ∈ doomed w ->
      step w (discard h (mkRace (phases w) (engine w) (doomed w ∖ {[h]}) (timer w) (ctx_done w) (result w) (claimed w) (others w))).

(** What the rest of the program does meanwhile. *)
Inductive outside : race -> race -> Prop :=
  | gives_in w : outside w (mkRace (phases w) (engine w) (doomed w) (timer w) true (result w) (claimed w) (others w))
  | claims w h : outside w (mkRace (phases w) (engine w) (doomed w) (timer w) (ctx_done w) (result w) ({[h]} ∪ claimed w) (others w))
  | also_adds w h :
      outside w (mkRace (phases w) ({[h]} ∪ engine w) (doomed w) (timer w) (ctx_done w) (result w) (claimed w) ({[h]} ∪ others w)).

Definition started : race := mkRace (replicate (length hashes) Idle) held ∅ false false None ∅ ∅.

(** Without candidates the loop is not entered. *)
Definition at_start : race :=
  if decide (hashes = []) then mkRace [] held ∅ false false (Some NothingWon) ∅ ∅ else started.

(** What can come of a race in [k] moves of its own. *)
Inductive reachable : nat -> race -> Prop :=
  | begins : reachable 0 at_start
  | moves k w w' : reachable k w -> step w w' -> reachable (S k) w'
  | meanwhile k w w' : reachable k w -> outside w w' -> reachable k w'.

(** Decided, with nothing of it still running. *)
Definition over (w : race) : Prop :=
  result w <> None /\ (forall i p, phases w !! i = Some p -> running p = false) /\ doomed w = ∅.

(** ** Reading the outcomes *)

Lemma settled_spec l i : settled l = Some i <->
  l !! i = Some (Received Ready) /\ forall j, (j < i)%nat -> l !! j = Some (Received Failed).
Proof.
  revert i. induction l as [|p l IH]; intros i; cbn [settled]; [split; [done|intros [H _]; done]|].
  destruct p as [| | |o|[]|]; try (split; [done|intros [H0 Hall]; destruct i; [done|by specialize (Hall 0%nat ltac:(lia))]]).
  - split; [intros [= <-]; split; [done|lia]|]. intros [H0 Hall]. destruct i; [done|by specialize (Hall 0%nat ltac:(lia))].
  - rewrite fmap_Some. split.
    + intros (j & Hj & ->). apply IH in Hj as [Hj Hall]. split; [done|]. intros [|k] Hk; [done|]. apply Hall. lia.
    + intros [H0 Hall]. destruct i as [|i]; [done|]. exists i. split; [|done]. apply IH. split; [done|].
      intros j Hj. apply (Hall (S j)). lia.
Qed.

Lemma first_ready_spec l i : first_ready l = Some i ->
  l !! i = Some (Received Ready) /\ forall j, (j < i)%nat -> l !! j <> Some (Received Ready).
Proof.
  revert i. induction l as [|p l IH]; intros i; cbn [first_ready]; [done|]. intros Hf.
  destruct (decide (p = Received Ready)) as [->|Hp]; [injection Hf as <-; split; [done|lia]|].
  assert ((S <$> first_ready l) = Some i) as Hf' by (by destruct p as [| | |o|[]|]).
  apply fmap_Some in Hf' as (j & Hj & ->). apply IH in Hj as [Hj Hall]. split; [done|].
  intros [|k] Hk; cbn; [congruence|]. apply Hall. lia.
Qed.

Lemma elem_of_losers l winner h : h ∈ losers l winner <->
  exists i, l !! i = Some (Received Ready) /\ winner <> Some i /\ (hash_of i ∉ held) /\ h = hash_of i.
Proof.
  unfold losers. rewrite elem_of_list_to_set, list_elem_of_omap. split.
  - intros (i & _ & Hi). destruct (bool_decide _ && _ && _) eqn:Hb; [|done]. injection Hi as <-. exists i.
    apply andb_true_iff in Hb as [Hb Hh]. apply andb_true_iff in Hb as [Hr Hw].
    apply bool_decide_eq_true in Hr. apply negb_true_iff, bool_decide_eq_false in Hw, Hh. done.
  - intros (i & Hi & Hw & Hh & ->). exists i. split; [apply elem_of_seq; apply lookup_lt_Some in Hi; lia|].
    by rewrite (bool_decide_true _ Hi), (bool_decide_false _ Hw), (bool_decide_false _ Hh).
Qed.

(** ** The invariant *)

Context (distinct : NoDup hashes).

Lemma hash_of_inj i j h h' : hashes !! i = Some h -> hashes !! j = Some h' -> hash_of i = hash_of j -> i = j.
Proof using distinct.
  unfold hash_of. intros Hi Hj. rewrite Hi, Hj. cbn. intros ->. by eapply NoDup_lookup.
Qed.

(** The candidate has its torrent in the engine, started by this race or found there. *)
Definition has_torrent (w : race) (i : nat) : Prop :=
  match phases w !! i with
  | Some Warming | Some (Offered Ready) => True
  | Some (Received Ready) => result w = None \/ (exists b, result w = Some (Won i b)) \/ hash_of i ∈ doomed w
  | _ => False
  end.

Record inv (w : race) : Prop := {
  inv_len : length (phases w) = length hashes;
  inv_held : held ⊆ engine w;
  inv_open : result w = None -> doomed w = ∅ /\ settled (phases w) = None /\ forallb received (phases w) = false;
  inv_doomed : forall h, h ∈ doomed w -> (h ∉ held) /\
    exists i, hashes !! i = Some h /\ phases w !! i = Some (Received Ready) /\ forall b, result w <> Some (Won i b);
  inv_has : forall i, has_torrent w i -> hash_of i ∈ engine w;
  inv_clean : forall h, h ∈ engine w -> h ∈ held \/ h ∈ claimed w \/ h ∈ others w \/ exists i, hashes !! i = Some h /\ has_torrent w i;
  inv_won : forall i b, result w = Some (Won i b) -> phases w !! i = Some (Received Ready) /\
    forall j, (j < i)%nat -> phases w !! j <> Some (Received Ready) /\ (b = false -> phases w !! j = Some (Received Failed));
  inv_nothing : result w = Some NothingWon -> forall i p, phases w !! i = Some p -> p = Received Failed;
  inv_dropped : forall i, phases w !! i = Some Dropped -> result w <> None \/ ctx_done w = true;
}.

Lemma hash_at w i p : inv w -> phases w !! i = Some p -> hashes !! i = Some (hash_of i).
Proof.
  intros Hi Hp. apply lookup_lt_Some in Hp. rewrite (inv_len w Hi) in Hp. apply lookup_lt_is_Some in Hp as [h Hh].
  unfold hash_of. by rewrite Hh.
Qed.

Lemma insert_lookup (l : list phase) i j p q : l !! i = Some q -> <[i := p]> l !! j = if decide (j = i) then Some p else l !! j.
Proof.
  intros Hq. case_decide as Hj; [subst j; by apply list_lookup_insert_eq, lookup_lt_Some with q|by rewrite list_lookup_insert_ne].
Qed.

Lemma all_failed l : settled l = None -> forallb received l = true -> forall i p, l !! i = Some p -> p = Received Failed.
Proof.
  induction l as [|q l IH]; cbn; [done|]. destruct q as [| | |o|[]|]; try done. intros Hs Hr [|i] p Hp; [by injection Hp as <-|].
  apply (IH) with (i := i); [|done|done]. by destruct (settled l).
Qed.

Lemma not_received l i p : l !! i = Some p -> received p = false -> forallb received l = false.
Proof.
  intros Hl Hp. apply not_true_iff_false. rewrite List.forallb_forall. intros Hall.
  apply list_elem_of_lookup_2, list_elem_of_In in Hl. rewrite (Hall p Hl) in Hp. done.
Qed.

(** *** A goroutine's own moves *)

Definition holding (p : phase) : bool := match p with Warming | Offered Ready => true | _ => false end.

Lemma has_holding w i p : phases w !! i = Some p -> received p = false -> has_torrent w i <-> holding p = true.
Proof. unfold has_torrent. intros ->. by destruct p as [| | |[]|[]|]. Qed.

(** A candidate not yet heard from moves, and its torrent with it. *)
Lemma phase_inv w i q p e : inv w -> phases w !! i = Some q -> received q = false -> q <> Dropped -> received p = false ->
  (forall h, h <> hash_of i -> h ∈ e <-> h ∈ engine w) -> held ⊆ e -> (holding p = true -> hash_of i ∈ e) ->
  (hash_of i ∈ e -> hash_of i ∈ held \/ hash_of i ∈ claimed w \/ hash_of i ∈ others w \/ holding p = true) ->
  (p = Dropped -> result w <> None \/ ctx_done w = true) -> inv (set_engine (set_phase w i p) e).
Proof using distinct.
  intros Hi Hq Hqr Hqd Hpr He Hheld Hhas Hclean Hdrop. pose proof (hash_at w i q Hi Hq) as Hh. pose proof Hi as Hi0.
  destruct Hi as [Hlen Hhe Hopen Hdoom Hhs Hcl Hwon Hno Hdr].
  assert (forall j, phases (set_engine (set_phase w i p) e) !! j = if decide (j = i) then Some p else phases w !! j) as Hlook
    by (intros j; by apply (insert_lookup _ i j p q)).
  assert (forall j, j <> i -> has_torrent (set_engine (set_phase w i p) e) j <-> has_torrent w j) as Hother.
  { intros j Hj. unfold has_torrent. by rewrite Hlook, decide_False. }
  assert (forall j h, hashes !! j = Some h -> has_torrent w j -> hash_of j = h) as Hof by (intros j h Hj _; unfold hash_of; by rewrite Hj).
  assert (forall j o, phases (set_engine (set_phase w i p) e) !! j = Some (Received o) <-> phases w !! j = Some (Received o)) as Hrec.
  { intros j o. rewrite Hlook. case_decide as Hj; [subst j; rewrite Hq|done]. split; intros [= ->]; cbn in *; congruence. }
  split.
  - cbn. by rewrite length_insert.
  - done.
  - intros Hres. destruct (Hopen Hres) as (Hd & Hs & Hf). cbn. split_and!; [done| |by apply (not_received _ i p); [rewrite (insert_lookup _ i i p q), decide_True|]].
    destruct (settled (<[i:=p]> (phases w))) as [k|] eqn:Hk; [|done]. apply settled_spec in Hk as [Hk Hall]. exfalso.
    assert (settled (phases w) = Some k) as Hk'; [|congruence]. apply settled_spec. split; [by apply Hrec|].
    intros j Hj. apply Hrec. by apply Hall.
  - intros h Hhd. destruct (Hdoom h Hhd) as (Hn & j & Hj & Hp & Hr). split; [done|]. exists j. split_and!; [done|by apply Hrec|done].
  - intros j Hj. destruct (decide (j = i)) as [->|Hne].
    + apply Hhas. apply (has_holding _ _ p) in Hj; [done| |done]. by rewrite Hlook, decide_True.
    + cbn. apply Hother in Hj; [|done]. assert (exists h, hashes !! j = Some h) as [h Hjh].
      { unfold has_torrent in Hj. destruct (phases w !! j) as [r|] eqn:Hr; [|done]. eexists. by eapply (hash_at w). }
      apply He; [|by apply Hhs]. intros Heq. apply Hne. by eapply hash_of_inj.
  - intros h Hin. cbn in Hin. destruct (decide (h = hash_of i)) as [->|Hne].
    + destruct (Hclean Hin) as [?|[?|[?|Hho]]]; [by left|right; by left|right; right; by left|].
      right; right; right. exists i. split; [done|]. apply (has_holding _ _ p); [by rewrite Hlook, decide_True|done|done].
    + apply He in Hin; [|done]. destruct (Hcl h Hin) as [?|[?|[?|(j & Hj & Ht)]]]; [by left|right; by left|right; right; by left|].
      right; right; right. exists j. split; [done|]. apply Hother; [|done]. intros ->. congruence.
  - intros k b Hk. destruct (Hwon k b Hk) as [Hp Hall]. split; [by apply Hrec|]. intros j Hj. destruct (Hall j Hj) as [H1 H2].
    split; [intros H3; by apply H1, Hrec|intros Hb; by apply Hrec, H2].
  - intros Hn. specialize (Hno Hn). exfalso. specialize (Hno i q Hq). by subst q.
  - intros j Hj. rewrite Hlook in Hj. case_decide; [by injection Hj as ->; apply Hdrop|by apply (Hdr j)].
Qed.

Lemma free_of_torrent w i q : inv w -> phases w !! i = Some q -> received q = false -> holding q = false ->
  hash_of i ∈ engine w -> hash_of i ∈ held \/ hash_of i ∈ claimed w \/ hash_of i ∈ others w.
Proof using distinct.
  intros Hi Hq Hr Hh Hin. destruct (inv_clean w Hi _ Hin) as [?|[?|[?|(j & Hj & Ht)]]]; auto.
  assert (j = i) as -> by (eapply hash_of_inj; [done|by eapply hash_at|unfold hash_of; by rewrite Hj]).
  apply (has_holding _ _ q) in Ht; [congruence|done|done].
Qed.

Lemma set_same w i p : set_engine (set_phase w i p) (engine w) = set_phase w i p.
Proof. done. Qed.

(** Giving a torrent up, or never having had one. *)
Lemma discard_own_inv w i q p : inv w -> phases w !! i = Some q -> received q = false -> q <> Dropped -> received p = false ->
  holding p = false -> (p = Dropped -> result w <> None \/ ctx_done w = true) -> inv (discard_own i (set_phase w i p)).
Proof using distinct.
  intros Hi Hq Hr Hd Hp Hh Hdr. unfold discard_own, discard. cbn [claimed set_phase]. change (engine (set_phase w i p)) with (engine w).
  pose proof (inv_held w Hi) as Hheld. case_bool_decide as H1; [|case_bool_decide as H2].
  - rewrite <- set_same. apply (phase_inv w i q p); auto; congruence.
  - rewrite <- set_same. apply (phase_inv w i q p); auto; congruence.
  - apply (phase_inv w i q p); try done; [set_solver|set_solver|congruence|]. intros Hin. exfalso. set_solver.
Qed.

Lemma launches_inv w i : inv w -> phases w !! i = Some Idle -> inv (set_phase w i Inspecting).
Proof using distinct.
  intros Hi Hq. rewrite <- set_same. apply (phase_inv w i Idle Inspecting); try done; [by apply inv_held|].
  intros Hin. apply (free_of_torrent w i Idle) in Hin; [tauto|done..].
Qed.

Lemma gives_up_inv w i : inv w -> phases w !! i = Some Inspecting -> inv (set_phase w i (Offered Failed)).
Proof using distinct.
  intros Hi Hq. rewrite <- set_same. apply (phase_inv w i Inspecting (Offered Failed)); try done; [by apply inv_held|].
  intros Hin. apply (free_of_torrent w i Inspecting) in Hin; [tauto|done..].
Qed.

Lemma adds_inv w i : inv w -> phases w !! i = Some Inspecting -> inv (set_engine (set_phase w i Warming) ({[hash_of i]} ∪ engine w)).
Proof using distinct.
  intros Hi Hq. pose proof (inv_held w Hi). apply (phase_inv w i Inspecting Warming); try done; [set_solver|set_solver|set_solver|auto].
Qed.

Lemma warms_inv w i : inv w -> phases w !! i = Some Warming -> inv (set_phase w i (Offered Ready)).
Proof using distinct.
  intros Hi Hq. rewrite <- set_same. apply (phase_inv w i Warming (Offered Ready)); try done; [by apply inv_held| |auto].
  intros _. apply (inv_has w Hi). unfold has_torrent. by rewrite Hq.
Qed.

Lemma drops_inv w i o : inv w -> phases w !! i = Some (Offered o) -> result w <> None \/ ctx_done w = true ->
  inv (let w' := set_phase w i Dropped in match o with Ready => discard_own i w' | Failed => w' end).
Proof using distinct.
  intros Hi Hq Hd. destruct o; [by apply (discard_own_inv w i (Offered Ready))|]. cbn zeta.
  rewrite <- set_same. apply (phase_inv w i (Offered Failed) Dropped); try done; [by apply inv_held|].
  intros Hin. apply (free_of_torrent w i (Offered Failed)) in Hin; [tauto|done..].
Qed.

(** *** The caller's *)

(** A race about to be judged: everything but the guarantee that it is still open. *)
Record open_inv (w : race) : Prop := {
  open_none : result w = None;
  open_len : length (phases w) = length hashes;
  open_held : held ⊆ engine w;
  open_doomed : doomed w = ∅;
  open_has : forall i, has_torrent w i -> hash_of i ∈ engine w;
  open_clean : forall h, h ∈ engine w -> h ∈ held \/ h ∈ claimed w \/ h ∈ others w \/ exists i, hashes !! i = Some h /\ has_torrent w i;
  open_dropped : forall i, phases w !! i = Some Dropped -> ctx_done w = true;
}.

Lemma inv_is_open w : inv w -> result w = None -> open_inv w.
Proof.
  intros Hi Hr. destruct (inv_open w Hi Hr) as (Hd & _). destruct Hi as [? ? _ _ ? ? _ _ Hdr]. split; try done.
  intros i Hp. by destruct (Hdr i Hp).
Qed.

Lemma open_is_inv w : open_inv w -> settled (phases w) = None -> forallb received (phases w) = false -> inv w.
Proof.
  intros [Hr ? ? Hd ? ? Hdr] Hs Hf. split; try done.
  - intros h Hh. rewrite Hd in Hh. by apply not_elem_of_empty in Hh.
  - intros i b Hw. congruence.
  - intros Hn. congruence.
  - intros i Hp. right. by apply (Hdr i).
Qed.

Lemma open_received w i : open_inv w -> phases w !! i = Some (Received Ready) -> has_torrent w i.
Proof. intros Ho Hp. unfold has_torrent. rewrite Hp. left. by apply open_none. Qed.

Lemma open_hash w i p : open_inv w -> phases w !! i = Some p -> hashes !! i = Some (hash_of i).
Proof.
  intros Ho Hp. apply lookup_lt_Some in Hp. rewrite (open_len w Ho) in Hp. apply lookup_lt_is_Some in Hp as [h Hh].
  unfold hash_of. by rewrite Hh.
Qed.

Lemma finish_inv w v : open_inv w -> v <> NothingWon ->
  (forall i b, v = Won i b -> phases w !! i = Some (Received Ready) /\
    forall j, (j < i)%nat -> phases w !! j <> Some (Received Ready) /\ (b = false -> phases w !! j = Some (Received Failed))) ->
  inv (finish v w).
Proof using distinct.
  intros Ho Hv Hall. pose proof Ho as [Hr Hlen Hheld Hd Hhas Hclean Hdr].
  assert (forall h, h ∈ doomed (finish v w) <-> h ∈ losers (phases w) (winner_of v)) as Hdoom by (intros h; cbn; rewrite Hd; set_solver).
  assert (forall i, has_torrent (finish v w) i -> has_torrent w i) as Hsub.
  { intros i. unfold has_torrent. cbn. destruct (phases w !! i) as [[| | |[]|[]|]|]; auto. }
  split.
  - done.
  - done.
  - done.
  - intros h Hh. apply Hdoom, elem_of_losers in Hh as (i & Hi & Hne & Hnh & ->). split; [done|]. exists i.
    split_and!; [by eapply open_hash|done|]. intros b [= Hb]. apply Hne. by rewrite Hb.
  - intros i Hi. by apply Hhas, Hsub.
  - intros h Hh. cbn in Hh. destruct (Hclean h Hh) as [?|[?|[?|(i & Hi & Ht)]]]; [by left|right; by left|right; right; by left|].
    destruct (decide (h ∈ held)) as [?|Hnh]; [by left|]. right; right; right. exists i. split; [done|].
    unfold has_torrent in *. cbn [phases finish result]. destruct (phases w !! i) as [[| | |[]|[]|]|] eqn:Hp; try done.
    right. destruct (decide (winner_of v = Some i)) as [Hw|Hw].
    + left. destruct v as [k b| |]; [|done|done]. injection Hw as ->. by exists b.
    + right. apply Hdoom, elem_of_losers. exists i. split_and!; [done|done| |done].
      unfold hash_of. by rewrite Hi.
  - intros i b [= Hb]. cbn [phases finish]. by apply Hall.
  - intros [= Hn]. done.
  - intros i Hp. by left.
Qed.

Lemma judge_inv w : open_inv w -> inv (judge w).
Proof using distinct.
  intros Ho. unfold judge. destruct (settled (phases w)) as [i|] eqn:Hs.
  - apply finish_inv; [done|done|]. intros k b [= -> ->]. apply settled_spec in Hs as [Hk Hall]. split; [done|].
    intros j Hj. rewrite Hall by done. done.
  - destruct (forallb received (phases w)) eqn:Hf; [|by apply open_is_inv].
    pose proof (all_failed _ Hs Hf) as Hall. destruct Ho as [Hr ? ? Hd Hhas Hclean Hdr].
    assert (forall w', phases w' = phases w -> forall i, has_torrent w' i -> False) as Hnone.
    { intros w' Hw i. unfold has_torrent. rewrite Hw. destruct (phases w !! i) as [p|] eqn:Hp; [|done]. by rewrite (Hall i p Hp). }
    split; cbn; try done.
    + intros h Hh. rewrite Hd in Hh. by apply not_elem_of_empty in Hh.
    + intros i Hi. by apply Hnone in Hi.
    + intros h Hh. destruct (Hclean h Hh) as [?|[?|[?|(i & _ & Ht)]]]; [by left|right; by left|right; right; by left|by apply Hnone in Ht].
    + intros i _. by left.
Qed.

Lemma takes_inv w i o : inv w -> phases w !! i = Some (Offered o) -> result w = None -> inv (take i o w).
Proof using distinct.
  intros Hi Hq Hr. pose proof (inv_is_open w Hi Hr) as [_ Hlen Hheld Hd Hhas Hclean Hdr]. apply judge_inv.
  set (w' := mkRace _ _ _ _ _ _ _ _).
  assert (forall j, phases w' !! j = if decide (j = i) then Some (Received o) else phases w !! j) as Hlook by (intros j; by eapply insert_lookup).
  assert (forall j, has_torrent w' j <-> has_torrent w j) as Hsame.
  { intros j. unfold has_torrent. rewrite Hlook. case_decide as Hj; [subst j; rewrite Hq|].
    - destruct o; [|done]. cbn. rewrite Hr. tauto.
    - cbn. done. }
  split; try done.
  - cbn. by rewrite length_insert.
  - intros j Hj. by apply Hhas, Hsame.
  - intros h Hh. destruct (Hclean h Hh) as [?|[?|[?|(j & Hj & Ht)]]]; [by left|right; by left|right; right; by left|].
    right; right; right. exists j. split; [done|by apply Hsame].
  - intros j Hj. rewrite Hlook in Hj. case_decide; [done|by apply (Hdr j)].
Qed.

Lemma tires_inv w i : inv w -> result w = None -> first_ready (phases w) = Some i -> inv (finish (Won i true) w).
Proof using distinct.
  intros Hi Hr Hf. apply finish_inv; [by apply inv_is_open|done|]. intros k b [= <- <-].
  apply first_ready_spec in Hf as [Hk Hall]. split; [done|]. intros j Hj. split; [by apply Hall|done].
Qed.

Lemma returns_inv w : inv w -> result w = None -> inv (finish Cancelled w).
Proof using distinct. intros Hi Hr. by apply finish_inv; [apply inv_is_open| |]. Qed.

Lemma discards_inv w h : inv w -> h ∈ doomed w ->
  inv (discard h (mkRace (phases w) (engine w) (doomed w ∖ {[h]}) (timer w) (ctx_done w) (result w) (claimed w) (others w))).
Proof using distinct.
  intros Hi Hh. destruct (inv_doomed w Hi h Hh) as (Hnh & i & Hhi & Hpi & Hnw). unfold discard. cbn [claimed].
  assert (result w <> None) as Hres.
  { intros Hr. destruct (inv_open w Hi Hr) as (Hd & _). rewrite Hd in Hh. by apply not_elem_of_empty in Hh. }
  pose proof Hi as Hi0. destruct Hi as [Hlen Hheld Hopen Hdoom Hhas Hcl Hwon Hno Hdr].
  assert (forall j, has_torrent w j -> hash_of j = h -> j = i) as Hone.
  { intros j Hj <-. unfold has_torrent in Hj. destruct (phases w !! j) as [q|] eqn:Hq; [|done].
    pose proof (hash_at w j q Hi0 Hq) as Hhj. eapply hash_of_inj; [done|done|]. unfold hash_of. rewrite Hhj, Hhi. done. }
  assert (forall e, (forall x, x <> h -> x ∈ e <-> x ∈ engine w) -> held ⊆ e -> (h ∈ e -> h ∈ claimed w) ->
    inv (mkRace (phases w) e (doomed w ∖ {[h]}) (timer w) (ctx_done w) (result w) (claimed w) (others w))) as Hgo.
  { intros e He Hhe Hcle. split; cbn; try done.
    - intros x Hx. apply elem_of_difference in Hx as [Hx _]. by apply Hdoom.
    - intros j Hj. assert (has_torrent w j /\ hash_of j <> h) as [Hj' Hne].
      { unfold has_torrent in *. cbn in Hj. destruct (phases w !! j) as [q|] eqn:Hq; [|done].
        assert (hash_of j <> h \/ j = i) as [Hne| ->].
        { destruct (decide (hash_of j = h)) as [Heq|]; [right|by left]. pose proof (hash_at w j q Hi0 Hq) as Hhj.
          eapply hash_of_inj; [done|done|]. rewrite Heq. unfold hash_of. by rewrite Hhi. }
        - split; [|done]. destruct q as [| | |[]|[]|]; try done. destruct Hj as [?|[?|?]]; [by left|right; by left|right; right; set_solver].
        - replace q with (Received Ready) in * by congruence. exfalso. destruct Hj as [?|[[b Hb]|Hin]]; [done|by apply (Hnw b)|].
          unfold hash_of in Hin. rewrite Hhi in Hin. cbn in Hin. set_solver. }
      apply He; [done|by apply Hhas].
    - intros x Hx. destruct (decide (x = h)) as [->|Hne]; [right; left; by apply Hcle|]. apply He in Hx; [|done].
      destruct (Hcl x Hx) as [?|[?|[?|(j & Hj & Ht)]]]; [by left|right; by left|right; right; by left|]. right; right; right. exists j. split; [done|].
      unfold has_torrent in *. cbn. destruct (phases w !! j) as [[| | |[]|[]|]|]; try done.
      destruct Ht as [?|[?|Hd]]; [by left|right; by left|right; right]. apply elem_of_difference. split; [done|].
      unfold hash_of in *. rewrite Hj in *. cbn in *. set_solver. }
  case_bool_decide; [apply Hgo; done|]. apply Hgo; [set_solver|set_solver|set_solver].
Qed.

Lemma outside_inv w w' : inv w -> outside w w' -> inv w'.
Proof.
  intros Hi Ho. destruct Ho as [w|w h|w h]; destruct Hi as [Hlen Hheld Hopen Hdoom Hhas Hcl Hwon Hno Hdr]; split; try done; cbn.
  - by right.
  - intros x Hx. destruct (Hcl x Hx) as [?|[?|[?|?]]]; [by left|right; left; set_solver|right; right; by left|by right; right; right].
  - set_solver.
  - intros i Hi. apply elem_of_union. right. by apply Hhas.
  - intros x [->%elem_of_singleton|Hx]%elem_of_union; [right; right; left; set_solver|].
    destruct (Hcl x Hx) as [?|[?|[?|?]]]; [by left|right; by left|right; right; left; set_solver|by right; right; right].
Qed.

Lemma race_inv k w : reachable k w -> inv w.
Proof using distinct.
  induction 1 as [|k w w' _ Hi Hs|k w w' _ Hi Ho]; [| |by eapply outside_inv].
  - unfold at_start. destruct (decide (hashes = [])) as [Hn|Hn]; split; cbn; try done.
    + by rewrite Hn.
    + by left.
    + by apply length_replicate.
    + intros _. by destruct hashes.
    + intros i Hi. unfold has_torrent in Hi. cbn in Hi. destruct (_ !! i) as [p|] eqn:Hp; [|done].
      by apply lookup_replicate in Hp as [-> _].
    + by left.
    + intros i Hp. by apply lookup_replicate in Hp as [? _].
  - destruct Hs; eauto using launches_inv, gives_up_inv, adds_inv, warms_inv, takes_inv, tires_inv, returns_inv, discards_inv.
    + by eapply discard_own_inv.
    + by apply drops_inv.
Qed.

(** ** It ends *)

Definition weight (p : phase) : nat :=
  match p with Idle => 4 | Inspecting => 3 | Warming => 2 | Offered _ => 1 | _ => 0 end%nat.

Definition measure (w : race) : nat :=
  (sum_list_with weight (phases w) + (if decide (result w = None) then S (length hashes) else 0) + size (doomed w))%nat.

Lemma weight_insert l i p q : l !! i = Some q ->
  (sum_list_with weight (<[i := p]> l) + weight q = sum_list_with weight l + weight p)%nat.
Proof.
  revert i. induction l as [|x l IH]; intros [|i] Hq; [done..| |].
  - injection Hq as ->. change (<[0%nat := p]> (q :: l)) with (p :: l). cbn [sum_list_with]. lia.
  - specialize (IH i Hq). change (<[S i := p]> (x :: l)) with (x :: <[i := p]> l). cbn [sum_list_with]. lia.
Qed.

Lemma size_losers l winner : (size (losers l winner) <= length l)%nat.
Proof.
  unfold losers. assert (forall x, size (list_to_set x : gset string) <= length x)%nat as Hsz.
  { induction x as [|y x IH]; cbn; [by rewrite size_empty|]. rewrite size_union_alt, size_singleton.
    pose proof (subseteq_size (list_to_set x ∖ {[y]}) (list_to_set x : gset string) ltac:(set_solver)). lia. }
  assert (forall (f : nat -> option string) js, length (omap f js) <= length js)%nat as Hom.
  { intros f js. induction js as [|j js IH]; cbn; [done|]. destruct (f j); cbn; lia. }
  etrans; [apply Hsz|]. etrans; [apply Hom|]. by rewrite length_seq.
Qed.

Lemma measure_set w i p q e : phases w !! i = Some q -> (measure (set_engine (set_phase w i p) e) + weight q = measure w + weight p)%nat.
Proof. intros Hq. unfold measure. cbn. pose proof (weight_insert _ i p q Hq). lia. Qed.

Lemma measure_phase w i p q : phases w !! i = Some q -> (measure (set_phase w i p) + weight q = measure w + weight p)%nat.
Proof. intros Hq. rewrite <- set_same. by apply measure_set. Qed.

Lemma measure_discard_own w i p q : phases w !! i = Some q ->
  (measure (discard_own i (set_phase w i p)) + weight q = measure w + weight p)%nat.
Proof.
  intros Hq. unfold discard_own, discard. repeat case_bool_decide; by apply (measure_set w i p q).
Qed.

Lemma finish_measure v w : result w = None -> doomed w = ∅ -> length (phases w) = length hashes -> (measure (finish v w) < measure w)%nat.
Proof.
  intros Hr Hd Hl. unfold measure. cbn. rewrite Hr, Hd. rewrite decide_False, decide_True by done.
  replace (losers (phases w) (winner_of v) ∪ ∅) with (losers (phases w) (winner_of v)) by set_solver.
  pose proof (size_losers (phases w) (winner_of v)). rewrite size_empty. lia.
Qed.

Lemma judge_measure w : result w = None -> doomed w = ∅ -> length (phases w) = length hashes -> (measure (judge w) <= measure w)%nat.
Proof.
  intros Hr Hd Hl. unfold judge. destruct (settled _); [by apply Nat.lt_le_incl, finish_measure|]. destruct (forallb _ _); [|done].
  unfold measure. cbn. rewrite Hr. rewrite decide_False, decide_True by done. lia.
Qed.

Lemma step_measure w w' : inv w -> step w w' -> (measure w' < measure w)%nat.
Proof.
  intros Hi Hs. pose proof (inv_len w Hi) as Hlen. destruct Hs as [w i Hq|w i Hq|w i Hq|w i Hq|w i Hq|w i o Hq Hr|w i o Hq|w i Hr _ _|w Hr|w h Hh].
  - pose proof (measure_phase w i Inspecting _ Hq) as Hm. cbn [weight] in Hm. lia.
  - pose proof (measure_phase w i (Offered Failed) _ Hq) as Hm. cbn [weight] in Hm. lia.
  - pose proof (measure_set w i Warming _ ({[hash_of i]} ∪ engine w) Hq) as Hm. cbn [weight] in Hm. lia.
  - pose proof (measure_phase w i (Offered Ready) _ Hq) as Hm. cbn [weight] in Hm. lia.
  - pose proof (measure_discard_own w i (Offered Failed) _ Hq) as Hm. cbn [weight] in Hm. lia.
  - unfold take. destruct (inv_open w Hi Hr) as (Hd & _).
    eapply Nat.le_lt_trans; [apply judge_measure; cbn; [done|done|by rewrite length_insert]|].
    unfold measure. cbn. rewrite Hr. pose proof (weight_insert _ i (Received o) _ Hq) as Hw. cbn in Hw.
    rewrite !decide_True by done. lia.
  - destruct o; cbn zeta; [pose proof (measure_discard_own w i Dropped _ Hq) as Hm; cbn [weight] in Hm; lia|].
    pose proof (measure_phase w i Dropped _ Hq) as Hm. cbn [weight] in Hm. lia.
  - destruct (inv_open w Hi Hr) as (Hd & _). by apply finish_measure.
  - destruct (inv_open w Hi Hr) as (Hd & _). by apply finish_measure.
  - assert (size (doomed w ∖ {[h]}) < size (doomed w))%nat as Hsz.
    { rewrite size_difference_alt. assert (doomed w ∩ {[h]} = {[h]}) as -> by set_solver. rewrite size_singleton.
      assert (size (doomed w) <> 0)%nat; [|lia]. intros H0%size_empty_inv. set_solver. }
    unfold discard. case_bool_decide; unfold measure; cbn; lia.
Qed.

Lemma outside_measure w w' : outside w w' -> measure w' = measure w.
Proof. by destruct 1. Qed.

Lemma measure_start : (measure at_start <= 5 * length hashes + 1)%nat.
Proof.
  unfold at_start, measure. destruct (decide (hashes = [])) as [Hn|Hn]; cbn [phases result doomed started sum_list_with]; rewrite size_empty;
    [rewrite decide_False by done; lia|rewrite decide_True by done].
  assert (forall n, sum_list_with weight (replicate n Idle) = 4 * n)%nat as -> by (induction n; cbn; lia). lia.
Qed.

Lemma reachable_measure k w : reachable k w -> (k + measure w <= 5 * length hashes + 1)%nat.
Proof using distinct.
  induction 1 as [|k w w' Hr IH Hs|k w w' Hr IH Ho]; [apply measure_start| |rewrite (outside_measure _ _ Ho); lia].
  pose proof (step_measure w w' (race_inv k w Hr) Hs). lia.
Qed.

Lemma least_idle (l : list phase) : Idle ∈ l -> exists i, l !! i = Some Idle /\ forall j, (j < i)%nat -> l !! j <> Some Idle.
Proof.
  induction l as [|p l IH]; intros Hin; [by apply elem_of_nil in Hin|]. destruct (decide (p = Idle)) as [->|Hp].
  - exists 0%nat. split; [done|lia].
  - apply elem_of_cons in Hin as [?|Hin]; [congruence|]. destruct (IH Hin) as (i & Hi & Hl). exists (S i). split; [done|].
    intros [|j] Hj; cbn; [congruence|]. apply Hl. lia.
Qed.

(** Where nothing can move, all is over. *)
Lemma stuck_over w : inv w -> (forall w', ~ step w w') -> over w.
Proof.
  intros Hi Hstuck.
  assert (forall i p, phases w !! i = Some p -> running p = false) as Hidle.
  { intros i p Hp. destruct p as [| | |o| |]; [done| | | |done|done]; exfalso.
    - by eapply Hstuck, (gives_up w i).
    - by eapply Hstuck, (stalls w i).
    - destruct (decide (result w = None)); [by eapply Hstuck, (takes w i)|]. eapply Hstuck, (drops w i); [done|by left]. }
  assert (result w <> None) as Hres.
  { intros Hr. destruct (inv_open w Hi Hr) as (Hd & Hs & Hf). destruct (decide (Idle ∈ phases w)) as [Hin|Hnin].
    - apply least_idle in Hin as (i & Hp & Hl). eapply Hstuck, (launches w i); [done|done|].
      unfold busy. assert (List.filter running (phases w) = []) as ->; [|unfold raceWidth; cbn; lia].
      destruct (List.filter running (phases w)) as [|p l] eqn:Hf'; [done|].
      assert (p ∈ List.filter running (phases w)) as [Hp' Hrun]%elem_of_filter_b by (rewrite Hf'; left).
      apply list_elem_of_lookup in Hp' as [j Hj]. specialize (Hidle j p Hj). congruence.
    - assert (exists i, phases w !! i = Some Dropped) as [i Hdr].
      { apply not_true_iff_false in Hf. destruct (decide (Dropped ∈ phases w)) as [Hin|Hnd]; [by apply list_elem_of_lookup|].
        exfalso. apply Hf, List.forallb_forall. intros p Hp. apply list_elem_of_In in Hp.
        pose proof Hp as Hp'. apply list_elem_of_lookup in Hp' as [j Hj]. specialize (Hidle j p Hj).
        destruct p; try done. }
      destruct (inv_dropped w Hi i Hdr) as [?|Hc]; [done|]. by eapply Hstuck, (returns w). }
  split_and!; [done|done|]. destruct (set_choose_or_empty (doomed w)) as [[h Hh]|Hemp]; [exfalso; by eapply Hstuck, (discards w h)|].
  by apply leibniz_equiv.
Qed.
End race.

(** C3: a race ends.  However its goroutines, the timers and the rest of the program interleave, it makes at most five
    moves per candidate and one more, and where none of its moves is left the caller has its answer, every
    goroutine has returned and every discarded torrent is gone: no order of events leaves a send without
    a receiver, a slot never freed or the caller waiting. *)
Theorem race_ends hashes held k w (Hnd : NoDup hashes) (Hr : reachable hashes held k w) :
  (k <= 5 * length hashes + 1)%nat /\ ((forall w', ~ step hashes held w w') -> over w).
Proof.
  split; [pose proof (reachable_measure hashes held Hnd k w Hr); lia|].
  apply (stuck_over hashes held), (race_inv hashes held Hnd k w Hr).
Qed.

(** C26: the release a race returns is ready and is there to play: its torrent is in the engine, whatever the losers'
    clean-up has done by then; every better release had failed, or, once the caller's patience was out,
    none of them was ready; and a race that found nothing heard every candidate fail. *)
Theorem race_wins hashes held k w (Hnd : NoDup hashes) (Hr : reachable hashes held k w) :
  match result w with
  | Some (Won i impatient) =>
      exists h, hashes !! i = Some h /\ h ∈ engine w /\ phases w !! i = Some (Received Ready) /\
        forall j, (j < i)%nat -> phases w !! j <> Some (Received Ready) /\ (impatient = false -> phases w !! j = Some (Received Failed))
  | Some NothingWon => length (phases w) = length hashes /\ forall i p, phases w !! i = Some p -> p = Received Failed
  | _ => True
  end.
Proof.
  apply (race_inv hashes held Hnd) in Hr as Hi. destruct (result w) as [[i b| |]|] eqn:Hres; [..|done|done].
  - destruct (inv_won _ _ w Hi i b Hres) as [Hp Hall]. pose proof (hash_at hashes held w i _ Hi Hp) as Hh.
    exists (hash_of hashes i). split_and!; [done| |done|done]. apply (inv_has _ _ w Hi). unfold has_torrent. rewrite Hp, Hres. right. left. by exists b.
  - split; [apply (inv_len _ _ w Hi)|by apply (inv_nothing _ _ w Hi)].
Qed.


(** *** An instance *)

(** The better release is slow, the other ready, and the caller's patience out; then the better one warms after all. *)
Definition pair : list string := ["aa"; "bb"].

Lemma impatient_race : exists w, reachable pair {["cc"]} 9 w /\ over w /\ result w = Some (Won 1 true) /\ engine w = {["bb"; "cc"]} /\
  claimed w = ∅ /\ others w = ∅.
Proof.
  pose proof (begins pair {["cc"]}) as Hw.
  eapply moves in Hw; [|apply (launches _ _ _ 0); [vm_compute; done|intros j Hj; lia|vm_compute; lia]].
  eapply moves in Hw; [|apply (adds _ _ _ 0); done].
  eapply moves in Hw; [|apply (launches _ _ _ 1); [done|intros [|j] Hj; [done|lia]|vm_compute; lia]].
  eapply moves in Hw; [|apply (adds _ _ _ 1); done].
  eapply moves in Hw; [|apply (warms _ _ _ 1); done].
  eapply moves in Hw; [|apply (takes _ _ _ 1 Ready); done].
  eapply moves in Hw; [|apply (tires _ _ _ 1); done].
  eapply moves in Hw; [|apply (warms _ _ _ 0); done].
  eapply moves in Hw; [|apply (drops _ _ _ 0 Ready); [done|by left]].
  eexists. split; [exact Hw|]. split_and!; [|done|by apply (bool_decide_unpack _)|done|done].
  split_and!; [done| |done].
  intros [|[|i]] p Hp; [by injection Hp as <-..|done].
Qed.

Lemma pair_distinct : NoDup pair.
Proof. by apply (bool_decide_unpack _). Qed.

Lemma race_ends_witness : exists w, reachable pair {["cc"]} 9 w /\ (9 <= 5 * length pair + 1)%nat.
Proof.
  destruct impatient_race as (w & Hw & _). exists w. split; [done|]. apply (race_ends pair {["cc"]} 9 w pair_distinct Hw).
Defined.

(** The second of two plays while the first is still loading. *)
Lemma race_wins_witness : exists w, reachable pair {["cc"]} 9 w /\ result w = Some (Won 1 true) /\ phases w !! 1%nat = Some (Received Ready).
Proof.
  destruct impatient_race as (w & Hw & _ & Hres & _). exists w. split; [done|]. split; [done|].
  pose proof (race_wins pair {["cc"]} 9 w pair_distinct Hw) as Hwin. rewrite Hres in Hwin. by destruct Hwin as (h & _ & _ & Hp & _).
Defined.

