(* ===== verification/Records.v ===== *)
(** * Releases on record: internal/store/playback.go (RecordTorrent, TorrentForEpisode), cache.go

    The tables that tie a torrent's files to episodes: [torrent], [torrent_file] and [cache_entry],
    keyed as the database keys them.  A statement is a function on the three; the clock ([now], Unix seconds) is an
    argument. *)
From stdpp Require Import base gmap sets strings list sorting.
From Stdlib Require Import ZArith Lia.
From S2P Require Import Prelude GoStr.

(** ** Tables *)

Record TorrentRow := mkTorrent { engine_id : option Z; t_name : string; total_bytes : Z; added_at : Z; manual : bool }.

Record FileRow := mkFile { path : string; size_bytes : Z; anime_id : option Z; ep_key : option string; selected : bool }.

Record CacheRow := mkCache { bytes_on_disk : Z; complete : bool; pinned : bool; kept : bool; last_played_at : Z }.

Abbreviation file := (prod string Z).

Record records := mkRecords { torrent : gmap string TorrentRow; torrent_file : gmap file FileRow; cache_entry : gmap file CacheRow }.

Record TorrentRecord := mkRecord {
  InfoHash : string; EngineID : Z; Name : string; TotalSize : Z; AnimeID : Z; EpKey : string; FileIndex : Z; FilePath : string; Manual : bool;
}.

Definition WholeTorrent : Z := -1.

Definition nullableInt (a : Z) : option Z := if a =? 0 then None else Some a.
Definition nullable (s : string) : option string := if String.eqb s "" then None else Some s.

(** [anime_id = ? AND ep_key = ?]: a null matches nothing, a null parameter included. *)
Definition for_episode (a : option Z) (k : option string) (f : FileRow) : bool :=
  match a, k, anime_id f, ep_key f with
  | Some a, Some k, Some a', Some k' => (a' =? a) && String.eqb k' k
  | _, _, _, _ => false
  end.

(** ** Recording a release *)

Definition upsert_torrent (r : TorrentRecord) (now : Z) (t : gmap string TorrentRow) : gmap string TorrentRow :=
  <[InfoHash r := match t !! InfoHash r with
    | Some old => mkTorrent (Some (EngineID r)) (t_name old) (total_bytes old) (added_at old) (manual old || Manual r)
    | None => mkTorrent (Some (EngineID r)) (Name r) (TotalSize r) now (Manual r)
    end]> t.

Definition key_of (r : TorrentRecord) : file := (InfoHash r, FileIndex r).

Definition upsert_file (r : TorrentRecord) (t : gmap file FileRow) : gmap file FileRow :=
  <[key_of r := match t !! key_of r with
    | Some old => mkFile (path old) (size_bytes old) (nullableInt (AnimeID r)) (nullable (EpKey r)) true
    | None => mkFile (FilePath r) (TotalSize r) (nullableInt (AnimeID r)) (nullable (EpKey r)) true
    end]> t.

Definition unselect (f : FileRow) : FileRow := mkFile (path f) (size_bytes f) (anime_id f) (ep_key f) false.

(** One selected release per episode. *)
Definition deselect_others (r : TorrentRecord) (t : gmap file FileRow) : gmap file FileRow :=
  map_imap (fun k f => Some (if for_episode (nullableInt (AnimeID r)) (nullable (EpKey r)) f && negb (bool_decide (k = key_of r))
                             then unselect f else f)) t.

Definition upsert_cache (r : TorrentRecord) (now : Z) (t : gmap file CacheRow) : gmap file CacheRow :=
  let t := delete (InfoHash r, WholeTorrent) t in
  <[key_of r := match t !! key_of r with
    | Some old => mkCache (bytes_on_disk old) (complete old) (pinned old) (kept old) now
    | None => mkCache 0 false false false now
    end]> t.

(** A kept episode fetched again under another release stays kept. *)
Definition carries_kept (r : TorrentRecord) (files : gmap file FileRow) (t : gmap file CacheRow) : bool :=
  existsb (fun x : file * CacheRow => kept x.2 && negb (bool_decide (x.1 = key_of r)) &&
    match files !! x.1 with Some f => for_episode (nullableInt (AnimeID r)) (nullable (EpKey r)) f | None => false end) (map_to_list t).

Definition keep_row (c : CacheRow) : CacheRow := mkCache (bytes_on_disk c) (complete c) (pinned c) true (last_played_at c).

Definition RecordTorrent (r : TorrentRecord) (now : Z) (s : records) : records :=
  let files := deselect_others r (upsert_file r (torrent_file s)) in
  let cache := upsert_cache r now (cache_entry s) in
  mkRecords (upsert_torrent r now (torrent s)) files
    (if carries_kept r files cache then alter keep_row (key_of r) cache else cache).

(** ** Reading *)

(** The rows of [TorrentForEpisode]'s join, in the query's order from the order they were read in. *)
Definition engine_first (x y : file * FileRow * TorrentRow) : bool :=
  match engine_id x.2, engine_id y.2 with
  | Some _, None => true
  | None, Some _ => false
  | _, _ => added_at y.2 <? added_at x.2
  end.

Definition chosen (a : Z) (k : string) (s : records) : list (file * FileRow * TorrentRow) :=
  omap (fun x : file * FileRow =>
    if selected x.2 && for_episode (Some a) (Some k) x.2 then (fun t => (x.1, x.2, t)) <$> torrent s !! x.1.1 else None)
    (map_to_list (torrent_file s)).

Definition record_of (a : Z) (k : string) (x : file * FileRow * TorrentRow) : TorrentRecord :=
  mkRecord x.1.1.1 (default 0 (engine_id x.2)) (t_name x.2) (size_bytes x.1.2) a k x.1.1.2 (path x.1.2) (manual x.2).

Definition TorrentForEpisode (a : Z) (k : string) (s : records) : option TorrentRecord :=
  record_of a k <$> head (sort_by engine_first (chosen a k s)).

(** SQL's [lower] is ASCII's. *)
Definition sql_lower_char (c : Ascii.ascii) : Ascii.ascii :=
  let n := byte_at c in if (65 <=? n) && (n <=? 90) then byte_of (n + 32) else c.

Fixpoint sql_lower (s : string) : string :=
  match s with EmptyString => EmptyString | String c s' => String (sql_lower_char c) (sql_lower s') end.

Definition HasTorrent (hash : string) (s : records) : bool :=
  existsb (fun x : string * TorrentRow => String.eqb (sql_lower x.1) (sql_lower hash)) (map_to_list (torrent s)).

(** On record for an episode, or by file: not merely adopted by the sweep. *)
Definition TorrentClaimed (hash : string) (s : records) : bool :=
  existsb (fun x : file * FileRow => String.eqb (sql_lower x.1.1) (sql_lower hash) &&
    (negb (x.1.2 =? WholeTorrent) || bool_decide (is_Some (anime_id x.2)))) (map_to_list (torrent_file s)).

(** Some file of the torrent is the one chosen for something. *)
Definition still_chosen (hash : string) (s : records) : bool :=
  existsb (fun x : file * FileRow => String.eqb x.1.1 hash && selected x.2 && negb (x.1.2 =? WholeTorrent)) (map_to_list (torrent_file s)).

Definition Superseded (a : Z) (k : string) (s : records) : list string :=
  remove_dups (omap (fun x : file * FileRow =>
    if for_episode (Some a) (Some k) x.2 && negb (selected x.2) && negb (still_chosen x.1.1 s) then Some x.1.1 else None)
    (map_to_list (torrent_file s))).

Definition CachedFile (a : Z) (k : string) (s : records) : option file :=
  fst <$> head (List.filter (fun x : file * FileRow => selected x.2 && for_episode (Some a) (Some k) x.2) (map_to_list (torrent_file s))).

(** A torrent's rows go with it. *)
Definition DropTorrentCache (hash : string) (s : records) : records :=
  mkRecords (delete hash (torrent s)) (filter (fun x : file * FileRow => x.1.1 <> hash) (torrent_file s))
    (filter (fun x : file * CacheRow => x.1.1 <> hash) (cache_entry s)).

Definition KeepDownload (hash : string) (k : bool) (s : records) : records * bool :=
  (mkRecords (torrent s) (torrent_file s)
     (map_imap (fun x c => Some (if String.eqb x.1 hash then mkCache (bytes_on_disk c) (complete c) (pinned c) k (last_played_at c) else c))
        (cache_entry s)),
   existsb (fun x : file * CacheRow => String.eqb x.1.1 hash) (map_to_list (cache_entry s))).

(** ** One release per episode *)

Definition one_chosen (s : records) : Prop := forall a k x y f g,
  torrent_file s !! x = Some f -> torrent_file s !! y = Some g -> selected f = true -> selected g = true ->
  for_episode (Some a) (Some k) f = true -> for_episode (Some a) (Some k) g = true -> x = y.

Lemma for_episode_spec a k f : for_episode (Some a) (Some k) f = true <-> anime_id f = Some a /\ ep_key f = Some k.
Proof.
  unfold for_episode. destruct (anime_id f) as [b|], (ep_key f) as [l|]; try (split; [done|by intros []]).
  rewrite andb_true_iff, Z.eqb_eq, String.eqb_eq. split; [intros [-> ->]; done|by intros [[= ->] [= ->]]].
Qed.

Lemma for_episode_unselect a k f : for_episode a k (unselect f) = for_episode a k f.
Proof. done. Qed.

(** What recording makes of each file row. *)
Lemma recorded_file r now s k : torrent_file (RecordTorrent r now s) !! k =
  if decide (k = key_of r) then
    Some (mkFile (from_option path (FilePath r) (torrent_file s !! k)) (from_option size_bytes (TotalSize r) (torrent_file s !! k))
            (nullableInt (AnimeID r)) (nullable (EpKey r)) true)
  else (fun f => if for_episode (nullableInt (AnimeID r)) (nullable (EpKey r)) f then unselect f else f) <$> torrent_file s !! k.
Proof.
  unfold RecordTorrent, deselect_others, upsert_file. cbn [torrent_file]. rewrite map_lookup_imap. case_decide as Hk.
  - subst k. rewrite lookup_insert_eq. cbn. rewrite bool_decide_true by done. rewrite andb_false_r. by destruct (torrent_file s !! key_of r).
  - rewrite lookup_insert_ne by done. destruct (torrent_file s !! k) as [f|]; [|done]. cbn.
    rewrite bool_decide_false by done. by rewrite andb_true_r.
Qed.

(** A row still chosen after a recording is the recorded one, or was chosen for something else. *)
Lemma chosen_after r now s k f : torrent_file (RecordTorrent r now s) !! k = Some f -> selected f = true ->
  k = key_of r \/ (torrent_file s !! k = Some f /\ for_episode (nullableInt (AnimeID r)) (nullable (EpKey r)) f = false).
Proof.
  rewrite recorded_file. case_decide as Hk; [by left|]. intros Hf Hs. right. apply fmap_Some in Hf as (g & Hg & ->).
  destruct (for_episode _ _ g) eqn:He; [done|]. done.
Qed.

Lemma RecordTorrent_one r now s : AnimeID r <> 0 -> EpKey r <> "" -> one_chosen s -> one_chosen (RecordTorrent r now s).
Proof.
  intros Ha Hk Hone a k x y f g Hx Hy Hsf Hsg Hef Heg.
  assert (forall z h, torrent_file (RecordTorrent r now s) !! z = Some h -> z = key_of r -> anime_id h = Some (AnimeID r) /\ ep_key h = Some (EpKey r)) as Hrec.
  { intros z h Hz ->. rewrite recorded_file, decide_True in Hz by done. injection Hz as <-. cbn. unfold nullableInt, nullable.
    apply Z.eqb_neq in Ha. apply String.eqb_neq in Hk. by rewrite Ha, Hk. }
  assert (forall h, for_episode (nullableInt (AnimeID r)) (nullable (EpKey r)) h = false -> for_episode (Some a) (Some k) h = true ->
    (a, k) <> (AnimeID r, EpKey r)) as Hdiff.
  { intros h Hn Hh [= -> ->]. unfold nullableInt, nullable in Hn. apply Z.eqb_neq in Ha. apply String.eqb_neq in Hk. rewrite Ha, Hk in Hn. congruence. }
  destruct (chosen_after r now s x f Hx Hsf) as [Hxk|[Hx0 Hnx]], (chosen_after r now s y g Hy Hsg) as [Hyk|[Hy0 Hny]].
  - congruence.
  - exfalso. destruct (Hrec x f Hx Hxk) as [H1 H2]. apply for_episode_spec in Hef as [H3 H4]. apply (Hdiff g Hny Heg). congruence.
  - exfalso. destruct (Hrec y g Hy Hyk) as [H1 H2]. apply for_episode_spec in Heg as [H3 H4]. apply (Hdiff f Hnx Hef). congruence.
  - by apply (Hone a k x y f g).
Qed.

Lemma elem_of_chosen a k s x f t : (x, f, t) ∈ chosen a k s <->
  torrent_file s !! x = Some f /\ selected f = true /\ for_episode (Some a) (Some k) f = true /\ torrent s !! x.1 = Some t.
Proof.
  unfold chosen. rewrite list_elem_of_omap. split.
  - intros ([y g] & Hin & Hy). cbn [fst snd] in Hy. apply elem_of_map_to_list in Hin. destruct (selected g && _) eqn:Hb; [|done].
    apply fmap_Some in Hy as (u & Hu & [= -> -> ->]). apply andb_true_iff in Hb as [H1 H2]. done.
  - intros (Hf & Hs & He & Ht). exists (x, f). split; [by apply elem_of_map_to_list|]. cbn [fst snd]. by rewrite Hs, He, Ht.
Qed.

Lemma sort_by_singleton {A} (lt : A -> A -> bool) (l : list A) x : (forall y, y ∈ l -> y = x) -> x ∈ l -> head (sort_by lt l) = Some x.
Proof.
  intros Hall Hin. pose proof (sort_by_perm lt l) as Hp. destruct (sort_by lt l) as [|y l'] eqn:Hs.
  - exfalso. apply Permutation_nil_l in Hp. subst l. by apply elem_of_nil in Hin.
  - cbn. f_equal. apply Hall. rewrite <- Hp. left.
Qed.

(** The one file chosen for an episode is what is found for it. *)
Lemma TorrentForEpisode_one a k s x f t : torrent_file s !! x = Some f -> selected f = true -> for_episode (Some a) (Some k) f = true ->
  torrent s !! x.1 = Some t ->
  (forall y g, torrent_file s !! y = Some g -> selected g = true -> for_episode (Some a) (Some k) g = true -> y = x) ->
  TorrentForEpisode a k s = Some (record_of a k (x, f, t)).
Proof.
  intros Hf Hs He Ht Hone. unfold TorrentForEpisode. rewrite (sort_by_singleton _ _ (x, f, t)); [done| |by apply elem_of_chosen].
  intros [[y g] u] Hin. apply elem_of_chosen in Hin as (Hg & Hsg & Heg & Hu). assert (y = x) as -> by (by apply (Hone y g)). congruence.
Qed.

Lemma nullable_set a k h : a <> 0 -> k <> "" -> for_episode (nullableInt a) (nullable k) h = for_episode (Some a) (Some k) h.
Proof. intros Ha Hk. unfold nullableInt, nullable. apply Z.eqb_neq in Ha as ->. by apply String.eqb_neq in Hk as ->. Qed.

(** The recorded file's rows, and that no other is chosen for its episode. *)
Lemma RecordTorrent_row r now s : AnimeID r <> 0 -> EpKey r <> "" ->
  exists f t, torrent_file (RecordTorrent r now s) !! key_of r = Some f /\ selected f = true /\
    for_episode (Some (AnimeID r)) (Some (EpKey r)) f = true /\ torrent (RecordTorrent r now s) !! InfoHash r = Some t /\
    engine_id t = Some (EngineID r) /\ (Manual r = true -> manual t = true) /\
    (torrent_file s !! key_of r = None -> path f = FilePath r /\ size_bytes f = TotalSize r) /\
    (torrent s !! InfoHash r = None -> t_name t = Name r /\ manual t = Manual r) /\
    forall y g, torrent_file (RecordTorrent r now s) !! y = Some g -> selected g = true ->
      for_episode (Some (AnimeID r)) (Some (EpKey r)) g = true -> y = key_of r.
Proof.
  intros Ha Hk. eexists _, _. split; [by rewrite recorded_file, decide_True by done|]. cbn [selected]. split; [done|].
  split; [apply for_episode_spec; unfold nullableInt, nullable; cbn; apply Z.eqb_neq in Ha as ->; by apply String.eqb_neq in Hk as ->|].
  split; [unfold RecordTorrent, upsert_torrent; cbn; apply lookup_insert_eq|]. split; [by destruct (torrent s !! InfoHash r)|].
  split; [destruct (torrent s !! InfoHash r); [cbn; intros ->; by rewrite orb_true_r|done]|].
  split; [by intros ->|]. split; [by intros ->|].
  intros y g Hy Hs He. destruct (chosen_after r now s y g Hy Hs) as [?|[_ Hno]]; [done|]. rewrite nullable_set in Hno by done. congruence.
Qed.

(** What is found is a chosen row's, and its torrent is on record. *)
Lemma TorrentForEpisode_in a k s r : TorrentForEpisode a k s = Some r -> exists x f t, r = record_of a k (x, f, t) /\
  torrent_file s !! x = Some f /\ selected f = true /\ for_episode (Some a) (Some k) f = true /\ torrent s !! x.1 = Some t.
Proof.
  unfold TorrentForEpisode. intros Hr. apply fmap_Some in Hr as ([[x f] t] & Hh & ->). exists x, f, t. split; [done|].
  apply elem_of_chosen. rewrite <- (sort_by_perm engine_first). destruct (sort_by _ _) as [|y l]; [done|]. injection Hh as ->. left.
Qed.

Lemma found_claimed a k s r : TorrentForEpisode a k s = Some r -> TorrentClaimed (InfoHash r) s = true.
Proof.
  intros (x & f & t & -> & Hf & _ & He & _)%TorrentForEpisode_in. apply existsb_elem. exists (x, f). split; [by apply elem_of_map_to_list|].
  apply for_episode_spec in He as [Ha _]. cbn. rewrite String.eqb_refl, Ha. cbn. by rewrite orb_true_r.
Qed.

(** Another torrent's rows may go. *)
Lemma DropTorrentCache_other a k s r h : one_chosen s -> TorrentForEpisode a k s = Some r -> InfoHash r <> h ->
  TorrentForEpisode a k (DropTorrentCache h s) = Some r.
Proof.
  intros Hone (x & f & t & -> & Hf & Hs & He & Ht)%TorrentForEpisode_in Hne. cbn in Hne.
  apply TorrentForEpisode_one; [|done|done| |].
  - cbn. by apply map_lookup_filter_Some.
  - cbn. by rewrite lookup_delete_ne.
  - intros y g Hy Hsg Hg. cbn in Hy. apply map_lookup_filter_Some in Hy as [Hy _]. by apply (Hone a k y x g f).
Qed.

(** What is recorded for an episode is what a start of it finds: the same torrent and file, whatever was recorded for it
    before, under any release, and whatever the tables held; a release chosen by hand stays marked as such. *)
Theorem RecordTorrent_found r now s (Hanime : AnimeID r <> 0) (Hkey : EpKey r <> "") :
  exists r', TorrentForEpisode (AnimeID r) (EpKey r) (RecordTorrent r now s) = Some r' /\
    InfoHash r' = InfoHash r /\ FileIndex r' = FileIndex r /\ EngineID r' = EngineID r /\ AnimeID r' = AnimeID r /\ EpKey r' = EpKey r /\
    (Manual r = true -> Manual r' = true) /\
    (torrent_file s !! key_of r = None -> FilePath r' = FilePath r /\ TotalSize r' = TotalSize r) /\
    (torrent s !! InfoHash r = None -> Name r' = Name r /\ Manual r' = Manual r).
Proof.
  destruct (RecordTorrent_row r now s Hanime Hkey) as (f & t & Hf & Hs & He & Ht & Hid & Hm & Hp & Hn & Hone).
  eexists. split; [by apply (TorrentForEpisode_one _ _ _ (key_of r) f t)|]. unfold record_of. cbn. rewrite Hid. by split_and!.
Qed.

Lemma elem_of_Superseded a k s h : h ∈ Superseded a k s <->
  still_chosen h s = false /\ exists i f, torrent_file s !! (h, i) = Some f /\ for_episode (Some a) (Some k) f = true /\ selected f = false.
Proof.
  unfold Superseded. rewrite elem_of_remove_dups, list_elem_of_omap. split.
  - intros ([[h' i] f] & Hin & Hx). cbn [fst snd] in Hx. apply elem_of_map_to_list in Hin. destruct (for_episode _ _ _ && _ && _) eqn:Hb; [|done].
    injection Hx as ->. apply andb_true_iff in Hb as [Hb H1]. apply andb_true_iff in Hb as [H2 H3]. apply negb_true_iff in H1, H3.
    split; [done|]. by exists i, f.
  - intros (Hs & i & f & Hf & He & Hsel). exists ((h, i), f). split; [by apply elem_of_map_to_list|]. cbn [fst snd]. by rewrite He, Hsel, Hs.
Qed.

Lemma still_chosen_spec h s : still_chosen h s = true <-> exists i f, torrent_file s !! (h, i) = Some f /\ selected f = true /\ i <> WholeTorrent.
Proof.
  unfold still_chosen. rewrite existsb_elem. split.
  - intros ([[h' i] f] & Hin & Hb). apply elem_of_map_to_list in Hin. cbn in Hb. apply andb_true_iff in Hb as [Hb H1].
    apply andb_true_iff in Hb as [H2 H3]. apply String.eqb_eq in H2 as ->. apply negb_true_iff, Z.eqb_neq in H1. by exists i, f.
  - intros (i & f & Hf & Hs & Hi). exists ((h, i), f). split; [by apply elem_of_map_to_list|]. cbn.
    rewrite String.eqb_refl, Hs. by apply Z.eqb_neq in Hi as ->.
Qed.

(** What a recording leaves to be cleared away is only what nothing uses.  A torrent it lists as superseded has no file
    chosen for this or any other episode, the recorded release is never among them, and a release the
    recording has just displaced is, unless it is a pack that still serves another episode. *)
Theorem Superseded_safe r now s (Hanime : AnimeID r <> 0) (Hkey : EpKey r <> "") (Hfile : FileIndex r <> WholeTorrent) :
  let s' := RecordTorrent r now s in
  (forall h, h ∈ Superseded (AnimeID r) (EpKey r) s' ->
     h <> InfoHash r /\ forall i f, torrent_file s' !! (h, i) = Some f -> selected f = true -> i = WholeTorrent) /\
  (forall h i f, torrent_file s !! (h, i) = Some f -> for_episode (Some (AnimeID r)) (Some (EpKey r)) f = true -> h <> InfoHash r ->
     h ∈ Superseded (AnimeID r) (EpKey r) s' \/
     exists j g, torrent_file s' !! (h, j) = Some g /\ selected g = true /\ for_episode (Some (AnimeID r)) (Some (EpKey r)) g = false).
Proof.
  cbn zeta. set (s' := RecordTorrent r now s). split.
  - intros h [Hno _]%elem_of_Superseded. split.
    + intros ->. apply not_true_iff_false in Hno. apply Hno, still_chosen_spec. eexists (FileIndex r), _.
      unfold s'. rewrite recorded_file, decide_True by done. done.
    + intros i f Hf Hs. destruct (decide (i = WholeTorrent)) as [|Hi]; [done|]. exfalso. apply not_true_iff_false in Hno.
      apply Hno, still_chosen_spec. by exists i, f.
  - intros h i f Hf He Hh.
    assert (forall x, for_episode (nullableInt (AnimeID r)) (nullable (EpKey r)) x = for_episode (Some (AnimeID r)) (Some (EpKey r)) x) as Hnull.
    { intros x. unfold nullableInt, nullable. apply Z.eqb_neq in Hanime as ->. by apply String.eqb_neq in Hkey as ->. }
    destruct (still_chosen h s') eqn:Hst.
    + right. apply still_chosen_spec in Hst as (j & g & Hg & Hs & Hj). exists j, g. split_and!; [done|done|].
      destruct (chosen_after r now s (h, j) g Hg Hs) as [Heq|[_ Hno]]; [by injection Heq|]. by rewrite <- Hnull.
    + left. apply elem_of_Superseded. split; [done|]. exists i, (unselect f). unfold s'. rewrite recorded_file.
      rewrite decide_False by (intros [= ? _]; done). rewrite Hf. cbn. rewrite Hnull, He. by split_and!.
Qed.

(** *** An instance *)

Definition kept_file : FileRow := mkFile "old.mkv" 700 (Some 1) (Some "3") true.
Definition pack_file (k : string) : FileRow := mkFile "pack.mkv" 500 (Some 1) (Some k) true.

(** An episode held from a release of its own, and two more from a pack. *)
Definition before : records := mkRecords
  {["aa" := mkTorrent (Some 1) "Old" 700 10 false; "pp" := mkTorrent (Some 2) "Pack" 5000 20 false]}
  {[("aa", 0) := kept_file; ("pp", 1) := pack_file "4"; ("pp", 2) := pack_file "5"]}
  {[("aa", 0) := mkCache 700 true false true 10]}.

Definition newer : TorrentRecord := mkRecord "bb" 7 "New" 800 1 "3" 0 "new.mkv" true.

Lemma RecordTorrent_found_witness :
  exists r, TorrentForEpisode 1 "3" (RecordTorrent newer 30 before) = Some r /\ InfoHash r = "bb" /\ FilePath r = "new.mkv" /\
    kept <$> cache_entry (RecordTorrent newer 30 before) !! ("bb", 0) = Some true.
Proof.
  destruct (RecordTorrent_found newer 30 before) as (r & Hr & Hh & _ & _ & _ & _ & _ & Hnew & _); [done|done|].
  exists r. split_and!; [done|done|by apply Hnew|vm_compute; reflexivity].
Defined.

(** The old release goes; of the pack, recorded for the episode in its turn, nothing does. *)
Lemma Superseded_safe_witness :
  Superseded 1 "3" (RecordTorrent newer 30 before) = ["aa"] /\ "bb" ∉ Superseded 1 "3" (RecordTorrent newer 30 before).
Proof.
  split; [vm_compute; reflexivity|]. intros Hin.
  destruct (Superseded_safe newer 30 before ltac:(done) ltac:(done) ltac:(done)) as [Hsafe _].
  by destruct (Hsafe "bb" Hin) as [Hne _].
Defined.
