(* ===== verification/Fetch.v ===== *)
(** * Fetching an episode ahead: internal/library/prefetch.go, filmseries.go (pickFile), play.go (discardUnclaimed)

    A prefetch, or the queue, adds a release of an episode to the engine and records it; play and other fetches may be
    about the same episode.  [fetchRelease] is modelled whole, over the store's records, the
    engine's torrents and the prefetcher's own tables.  Wherever it waits (for a resolve, a file list, the first
    bytes) anything may happen: [meanwhile] is what does.  The indexers', the engine's and the context's
    answers are arguments; statements on the local database are taken to succeed, and so are deletions and
    pauses. *)
From stdpp Require Import base gmap sets strings list sorting pretty.
From Stdlib Require Import ZArith Lia.
From S2P Require Import Prelude GoStr Parse Film Score Pick Records.

(** ** The candidates *)

(** A [score.Result] with what the ranking passes through: the info-hash and the episode's numbers. *)
Record Found := mkFound { f_hash : string; f_result : Result; f_Episode : Z; f_Numbers : list Z }.

Section pickFile.
Context `{Unicode}.

(** The index of the file a release holds for the request. *)
Definition pickFile (files : list PackFile) (r : Found) : option nat :=
  let c := cand (f_result r) in
  match c_film c with
  | None =>
      match PickNumbered files (f_Episode r) (f_Numbers r) with
      | Some i => Some i
      | None => if (TotalEpisodes c =? 1) && negb (Batch (c_release c)) then PickVideo files else None
      end
  | Some key =>
      let named := map (fun f => Film.mkFile (Pick.Name f) (Length f)) files in
      match Film.Pick key named with
      | (Some i, true) => Some i
      | _ =>
          if negb (Batch (c_release c)) && (1 <? Z.of_nat (length (List.filter (fun f => IsVideo (f_name f)) named)))
          then PickVideo files else None
      end
  end.
End pickFile.

(** ** The prefetcher *)

Record Flight := mkFlight { rec : option TorrentRecord; claim_hash : string; taken : bool }.

(** [engine]: by lower-case hash, the torrent's id and whether it is running; [prepared] with the time it was resolved. *)
Record world := mkWorld {
  recs : records; engine : gmap string (Z * bool); flights : gmap (Z * Z) Flight; claimed : gset string;
  prepared : gmap (Z * Z) (Found * Z); inspected : list string;
}.

Definition set_recs (f : records -> records) (w : world) : world :=
  mkWorld (f (recs w)) (engine w) (flights w) (claimed w) (prepared w) (inspected w).
Definition set_engine (f : gmap string (Z * bool) -> gmap string (Z * bool)) (w : world) : world :=
  mkWorld (recs w) (f (engine w)) (flights w) (claimed w) (prepared w) (inspected w).
Definition set_flights (f : gmap (Z * Z) Flight -> gmap (Z * Z) Flight) (w : world) : world :=
  mkWorld (recs w) (engine w) (f (flights w)) (claimed w) (prepared w) (inspected w).
Definition set_claimed (f : gset string -> gset string) (w : world) : world :=
  mkWorld (recs w) (engine w) (flights w) (f (claimed w)) (prepared w) (inspected w).
Definition set_prepared (f : gmap (Z * Z) (Found * Z) -> gmap (Z * Z) (Found * Z)) (w : world) : world :=
  mkWorld (recs w) (engine w) (flights w) (claimed w) (f (prepared w)) (inspected w).
Inductive error := Overtaken | AtBudget | WouldExceed | NoRelease | NotInTorrent | Unreachable | NotAdded | FindFailed | NotFound | Silent | Broken
  | NotInEngine | Stalled | Paused.

#[export] Instance error_eq : EqDecision error.
Proof. solve_decision. Defined.

(** A fetch's torrent once added: the release, the engine's id, the file and the details. *)
Record addition := mkAddition { best : Found; added_ID : Z; index : nat; file_name : string; file_length : Z; d_Name : string }.

(** What the rest of the world answers.  [usage] is the cache's as the fetch begins; [room] the cache's [MakeRoom], if the
    prefetcher was given it, and the usage after it; [ctx_over] says the context is done once the torrent has been waited for;
    [now] is the clock, in nanoseconds. *)
Record answers := mkAnswers {
  names_show : TorrentRecord -> bool;
  localCopy : bool; EpisodeCount : Z; budget : Z; usage : Z; room : option (Z -> bool * Z);
  inspect : bool -> Found -> option (string * list PackFile); add : Found -> option Z; starts : Found -> option error; ctx_over : Found -> bool;
  find : option (list Found); now : Z;
}.

Section fetch.
Context `{Unicode} (o : answers).

(** The points at which it waits. *)
Inductive point := Resolving | Inspecting (h : string) | Adding (h : string) | Starting (h : string) | Searching | Roomed.
Context (meanwhile : point -> world -> world).

Definition epKey (episode : Z) : string := itoa episode.

(** *** One fetch at a time *)

Definition beginFetch (a e : Z) (w : world) : option world :=
  match flights w !! (a, e) with
  | Some _ => None
  | None => Some (set_flights (insert (a, e) (mkFlight None "" false)) w)
  end.

Definition endFetch (a e : Z) (w : world) : world :=
  let h := from_option claim_hash "" (flights w !! (a, e)) in
  set_claimed (fun s => s ∖ {[h]}) (set_flights (delete (a, e)) w).

Definition setTorrent (a e : Z) (r : option TorrentRecord) (w : world) : world :=
  set_flights (alter (fun f => mkFlight r (claim_hash f) (taken f)) (a, e)) w.

(** Play takes the torrent over. *)
Definition Fetching (a e : Z) (w : world) : world * option TorrentRecord :=
  match flights w !! (a, e) with
  | Some (mkFlight (Some r) h _) => (set_flights (insert (a, e) (mkFlight (Some r) h true)) w, Some r)
  | _ => (w, None)
  end.

Definition takenOver (a e : Z) (w : world) : bool := from_option taken false (flights w !! (a, e)).

Definition claim (a e : Z) (hash : string) (w : world) : world :=
  set_claimed (union {[to_lower hash]}) (set_flights (alter (fun f => mkFlight (rec f) (to_lower hash) (taken f)) (a, e)) w).

(** *** The engine *)

Definition held (a e : Z) (w : world) : option TorrentRecord :=
  match TorrentForEpisode a (epKey e) (recs w) with
  | Some r => if Manual r || names_show o r then Some r else None
  | None => None
  end.

Definition inEngine (a e : Z) (w : world) : bool :=
  match held a e w with Some r => bool_decide (is_Some (engine w !! to_lower (InfoHash r))) | None => false end.

(** A torrent whose episode is pinned: a stream has it open. *)
Definition playing (hash : string) (w : world) : bool :=
  existsb (fun x : file * CacheRow => pinned x.2 && equal_fold x.1.1 hash) (map_to_list (cache_entry (recs w))).

Definition stop (hash : string) (w : world) : world :=
  if playing hash w then w else set_engine (alter (fun t => (t.1, false)) (to_lower hash)) w.

Definition discardUnclaimed (hash : string) (w : world) : world :=
  if TorrentClaimed hash (recs w) then w
  else set_recs (DropTorrentCache (to_lower hash)) (set_engine (delete (to_lower hash)) w).

(** [dropSuperseded]. *)
Definition dropSuperseded (a e : Z) (w : world) : world :=
  foldl (fun w h => set_recs (DropTorrentCache h) (set_engine (delete (to_lower h)) w)) w (Superseded a (epKey e) (recs w)).

(** *** Resolved ahead *)

Definition preparedTTL : Z := 4 * 3600 * 1000000000.

Definition fresh (at_ : Z) : bool := now o - at_ <=? preparedTTL.

Definition storePrepared (a e : Z) (r : Found) (w : world) : world :=
  set_prepared (fun p => <[(a, e) := (r, now o)]> (filter (fun x : Z * Z * (Found * Z) => fresh x.2.2 = true) p)) w.

Definition TakePrepared (a e : Z) (w : world) : world * option Found :=
  match prepared w !! (a, e) with
  | Some (r, at_) => (set_prepared (delete (a, e)) w, if fresh at_ then Some r else None)
  | None => (w, None)
  end.

Definition takePreparedUnless (a e : Z) (picked : bool) (w : world) : world * option Found :=
  if picked then (w, None) else TakePrepared a e w.

(** *** The walk down a ranked list *)

Definition fetchAttempts : nat := 3.

Definition bytes_of (c : Found) : Z := EpisodeBytes (cand (f_result c)).

(** The budget's word on one candidate: the walk ends, or goes on with room made. *)
Definition admit_ (keep : bool) (c : Found) (used : Z) (w : world) : option (world * Z) :=
  if negb keep && (0 <? budget o) && (budget o <? used + bytes_of c) then
    match room o with
    | Some r => let '(ok, u) := r (bytes_of c) in if ok then Some (meanwhile Roomed w, u) else None
    | None => None
    end
  else Some (w, used).

(** One candidate, inspected and added. *)
Definition try_one (picked : bool) (c : Found) (w : world) : world * (addition + error) :=
  let w := meanwhile (Inspecting (f_hash c)) (mkWorld (recs w) (engine w) (flights w) (claimed w) (prepared w) (inspected w ++ [f_hash c])) in
  match inspect o picked c with
  | None => (w, inr Unreachable)
  | Some (name, files) =>
      match pickFile files c with
      | None => (w, inr NotInTorrent)
      | Some i =>
          match add o c with
          | None => (meanwhile (Adding (f_hash c)) w, inr NotAdded)
          | Some id =>
              let w := meanwhile (Adding (f_hash c)) w in
              (set_engine (insert (to_lower (f_hash c)) (id, true)) w,
               inl (mkAddition c id i (Pick.Name (file_at files i)) (Length (file_at files i)) name))
          end
      end
  end.

(** How a walk ended: with a torrent added, out of space, or out of candidates; the usage it last knew is returned beside. *)
Inductive walk := Added (ad : addition) | Full | Nothing (last : error).

(** [addFirst]. *)
Fixpoint addFirst (keep picked : bool) (stale : string) (l : list Found) (tried : nat) (last : error) (used : Z) (w : world) :
    world * Z * walk :=
  match l with
  | [] => (w, used, Nothing last)
  | c :: l' =>
      if (negb (AutoPick (f_result c)) && negb picked) || (fetchAttempts <=? tried)%nat || String.eqb (f_hash c) stale
      then addFirst keep picked stale l' tried last used w
      else
        match admit_ keep c used w with
        | None => (w, used, Full)
        | Some (w, used) =>
            match try_one picked c w with
            | (w, inl ad) => (w, used, Added ad)
            | (w, inr e) => addFirst keep picked stale l' (S tried) e used w
            end
        end
  end.

Definition torrentRecord (a e : Z) (picked : bool) (ad : addition) : TorrentRecord :=
  mkRecord (f_hash (best ad)) (added_ID ad) (d_Name ad) (file_length ad) a (epKey e) (Z.of_nat (index ad)) (file_name ad) picked.

(** [record]: a different release recorded meanwhile is the viewer's. *)
Definition record (a e : Z) (keep picked : bool) (prior : option TorrentRecord) (ad : addition) (w : world) : world * option error :=
  let other := match held a e w with
    | Some r => negb (equal_fold (InfoHash r) (f_hash (best ad))) && negb (equal_fold (InfoHash r) (from_option InfoHash "" prior))
    | None => false
    end in
  if other then (w, Some Overtaken)
  else
    let w := set_recs (RecordTorrent (torrentRecord a e picked ad) (now o / 1000000000)) w in
    (if keep then set_recs (fun s => fst (KeepDownload (f_hash (best ad)) true s)) w else w, None).

Definition forget (a e : Z) (hash : string) (w : world) : world := discardUnclaimed hash (setTorrent a e None w).

(** [start]: warmed, or recorded for the retry and stopped. *)
Definition start (a e : Z) (keep picked : bool) (prior : option TorrentRecord) (keepDead : bool) (ad : addition) (w : world) : world * option error :=
  let h := f_hash (best ad) in
  let w := setTorrent a e (Some (torrentRecord a e picked ad)) (claim a e h w) in
  let w := meanwhile (Starting h) w in
  match starts o (best ad) with
  | None => (w, None)
  | Some err =>
      if takenOver a e w then (w, Some Overtaken)
      else if ctx_over o (best ad) || keepDead then
        match record a e keep picked prior ad w with
        | (w, Some _) => (forget a e h w, Some err)
        | (w, None) => (stop h w, Some err)
        end
      else (stop h w, Some err)
  end.

(** The end of a fetch that has its torrent going. *)
Definition finish (a e : Z) (keep picked : bool) (prior : option TorrentRecord) (ad : addition) (w : world) : world * (option Z + error) :=
  match record a e keep picked prior ad w with
  | (w, Some err) => (forget a e (f_hash (best ad)) w, inr err)
  | (w, None) => (dropSuperseded a e w, inl (Some (added_ID ad)))
  end.

(** The search, when nothing resolved ahead would start. *)
Definition search (a e : Z) (keep : bool) (pick : string) (prior : option TorrentRecord) (stale : string) (last : error) (used : Z) (w : world) :
    world * option addition * (option Z + error) :=
  let picked := negb (String.eqb pick "") in
  let w := meanwhile Searching w in
  match find o with
  | None => (w, None, inr FindFailed)
  | Some results =>
      let results := if picked then List.filter (fun r => equal_fold (f_hash r) pick) results else results in
      if picked && match results with [] => true | _ => false end then (w, None, inr NotFound)
      else
        match addFirst keep picked stale results 0 last used w with
        | (w, _, Full) => (w, None, inr WouldExceed)
        | (w, _, Nothing last) => (w, None, inr last)
        | (w, _, Added ad) =>
            match start a e keep picked prior true ad w with
            | (w, Some err) => (w, Some ad, inr err)
            | (w, None) => let '(w, r) := finish a e keep picked prior ad w in (w, Some ad, r)
            end
        end
  end.

(** [fetchRelease] once it has its turn: the last torrent it added, and the id it started, if any. *)
Definition fetch_turn (a e : Z) (keep : bool) (pick : string) (w : world) : world * option addition * (option Z + error) :=
  let picked := negb (String.eqb pick "") in
  if negb picked && inEngine a e w then (w, None, inl None)
  else
    let prior := held a e w in
    let used := if keep then 0 else usage o in
    if localCopy o then (w, None, inl None)
    else if negb keep && match room o with None => (0 <? budget o) && (budget o <=? used) | Some _ => false end then (w, None, inr AtBudget)
    else if (0 <? EpisodeCount o) && (EpisodeCount o <? e) then (w, None, inl None)
    else
      let w := if picked then w else meanwhile Resolving w in
      match takePreparedUnless a e picked w with
      | (w, None) => search a e keep pick prior "" NoRelease used w
      | (w, Some rel) =>
          match addFirst keep picked "" [rel] 0 NoRelease used w with
          | (w, _, Full) => (storePrepared a e rel w, None, inr WouldExceed)
          | (w, used, Nothing last) => search a e keep pick prior "" last used w
          | (w, used, Added ad) =>
              match start a e keep picked prior false ad w with
              | (w, None) => let '(w, r) := finish a e keep picked prior ad w in (w, Some ad, r)
              | (w, Some err) =>
                  if ctx_over o rel || bool_decide (err = Overtaken) then (w, Some ad, inr err)
                  else search a e keep pick prior (f_hash rel) err used (forget a e (f_hash rel) w)
              end
          end
      end.

Definition fetchRelease (a e : Z) (keep : bool) (pick : string) (w : world) : world * option addition * (option Z + error) :=
  match beginFetch a e w with
  | None => (w, None, inr Overtaken)
  | Some w => let '(w, ad, r) := fetch_turn a e keep pick w in (endFetch a e w, ad, r)
  end.

(** *** A queued download *)

(** How the wait for a download ends. *)
Context (await : Z -> option error).

Definition awaitOrStop (hash : string) (id : Z) (w : world) : world * option error :=
  match await id with
  | Some err => (if bool_decide (err = Paused) then w else stop hash w, Some err)
  | None => (w, None)
  end.

(** [resume]: the id, and whether it is running now; [finished] is the engine's word. *)
Definition resume (finished : string -> bool) (r : TorrentRecord) (w : world) : world * (Z * bool + error) :=
  match engine w !! to_lower (InfoHash r) with
  | None => (w, inr NotInEngine)
  | Some (id, _) =>
      if finished (InfoHash r) then (w, inl (id, false))
      else (set_engine (insert (to_lower (InfoHash r)) (id, true)) w, inl (id, true))
  end.

Definition unclaim (hash : string) (w : world) : world := set_claimed (fun s => s ∖ {[to_lower hash]}) w.

(** [download]: a held copy is promoted and resumed; [during] is what happens while it is waited for. *)
Definition download (finished : string -> bool) (during : world -> world) (a e : Z) (pick : string) (w : world) : world * option error :=
  let fetch w :=
    match fetchRelease a e true pick w with
    | (w, _, inr err) => (w, Some err)
    | (w, Some ad, inl (Some id)) => awaitOrStop (f_hash (best ad)) id (during w)
    | (w, _, _) => (w, None)
    end in
  match held a e w with
  | Some r =>
      if String.eqb pick "" || equal_fold (InfoHash r) pick then
        let w := set_recs (fun s => fst (KeepDownload (InfoHash r) true s)) w in
        match resume finished r w with
        | (w, inr err) => if bool_decide (err = NotInEngine) then fetch w else (w, Some err)
        | (w, inl (_, false)) => (w, None)
        | (w, inl (id, true)) =>
            let w := during (set_claimed (union {[to_lower (InfoHash r)]}) w) in
            let '(w, err) := awaitOrStop (InfoHash r) id w in (unclaim (InfoHash r) w, err)
        end
      else fetch w
  | None => fetch w
  end.
End fetch.

(** ** Facts *)

Section facts.
Context `{Unicode} (o : answers) (meanwhile : point -> world -> world).

(** A torrent that takes no bytes for nobody: gone, paused, on record for an episode, or playing. *)
Definition at_rest (h : string) (w : world) : Prop :=
  engine w !! to_lower h = None \/ (exists id, engine w !! to_lower h = Some (id, false)) \/ TorrentClaimed h (recs w) = true \/ playing h w = true.

Lemma stop_rest h w : at_rest h (stop h w).
Proof.
  unfold stop. destruct (playing h w) eqn:Hp; [by right; right; right|]. unfold at_rest. cbn. rewrite lookup_alter_eq.
  destruct (engine w !! to_lower h) as [[id b]|]; [right; left; by exists id|by left].
Qed.

Lemma discard_rest h w : at_rest h (discardUnclaimed h w).
Proof.
  unfold discardUnclaimed. destruct (TorrentClaimed h (recs w)) eqn:Hc; [by right; right; left|]. left. cbn. apply lookup_delete_eq.
Qed.

Lemma start_error a e keep picked prior keepDead ad w w' err :
  start o meanwhile a e keep picked prior keepDead ad w = (w', Some err) ->
  takenOver a e w' = true /\ err = Overtaken \/ at_rest (f_hash (best ad)) w'.
Proof.
  unfold start. cbn zeta. set (w1 := meanwhile _ _). destruct (starts o (best ad)) as [x|]; [|done].
  destruct (takenOver a e w1) eqn:Ht; [intros [= <- <-]; by left|]. intros Hs. right.
  destruct (ctx_over o (best ad) || keepDead).
  - destruct (record _ _ _ _ _ _ _ w1) as [w2 [x2|]].
    + injection Hs as <- <-. apply discard_rest.
    + injection Hs as <- <-. apply stop_rest.
  - injection Hs as <- <-. apply stop_rest.
Qed.

Lemma finish_error a e keep picked prior ad w w' err :
  finish o a e keep picked prior ad w = (w', inr err) -> at_rest (f_hash (best ad)) w'.
Proof. unfold finish. destruct (record _ _ _ _ _ _ _ w) as [w1 [x|]]; [|done]. intros [= <- <-]. apply discard_rest. Qed.

Lemma search_error a e keep pick prior stale last used w w' ad err :
  search o meanwhile a e keep pick prior stale last used w = (w', Some ad, inr err) ->
  takenOver a e w' = true /\ err = Overtaken \/ at_rest (f_hash (best ad)) w'.
Proof.
  unfold search. cbn zeta. destruct (find o) as [results|]; [|done]. destruct (negb _ && _); [done|].
  destruct (addFirst _ _ _ _ _ _ _ _ _ _) as [[w1 u] [ad1| |last1]]; [|done|done].
  destruct (start _ _ _ _ _ _ _ _ ad1 w1) as [w2 [x|]] eqn:Hs; [intros [= <- <- <-]; by apply start_error in Hs|].
  destruct (finish _ _ _ _ _ _ ad1 w2) as [w3 r] eqn:Hf. intros [= <- <- ->]. right. by apply finish_error in Hf.
Qed.

Lemma fetch_turn_error a e keep pick w w' ad err : fetch_turn o meanwhile a e keep pick w = (w', Some ad, inr err) ->
  takenOver a e w' = true \/ at_rest (f_hash (best ad)) w'.
Proof.
  unfold fetch_turn. cbn zeta. destruct (negb _ && inEngine _ _ _ _); [done|]. destruct (localCopy o); [done|].
  destruct (negb keep && _); [done|]. destruct ((0 <? EpisodeCount o) && _); [done|].
  destruct (takePreparedUnless _ _ _ _ _) as [w1 [rel|]]; [|intros Hs; apply search_error in Hs; tauto].
  destruct (addFirst _ _ _ _ _ _ _ _ _ _) as [[w2 u] [ad1| |last1]]; [|done|intros Hs; apply search_error in Hs; tauto].
  destruct (start _ _ _ _ _ _ _ _ ad1 w2) as [w3 [x|]] eqn:Hst.
  - destruct (ctx_over o rel || _); [|intros Hs; apply search_error in Hs; tauto].
    intros [= <- <- <-]. apply start_error in Hst. tauto.
  - destruct (finish _ _ _ _ _ _ ad1 w3) as [w4 r] eqn:Hf. intros [= <- <- ->]. right. by apply finish_error in Hf.
Qed.

(** ** What a fetch that went through leaves *)

Lemma pretty_N_go_length x s : (String.length s <= String.length (pretty_N_go x s))%nat.
Proof.
  revert s. induction (N.lt_wf_0 x) as [x _ IH]. intros s. destruct (decide (0 < x)%N) as [Hx|Hx].
  - rewrite pretty_N_go_step by done. etrans; [|apply IH]. cbn. lia. by apply N.div_lt.
  - replace x with 0%N by lia. by rewrite pretty_N_go_0.
Qed.

Lemma epKey_some e : epKey e <> "".
Proof.
  unfold epKey, itoa. assert (forall n : N, pretty n <> "") as HN.
  { intros n. unfold pretty, pretty_N. case_decide as Hn; [done|]. rewrite pretty_N_go_step by lia. intros He.
    pose proof (pretty_N_go_length (n `div` 10) (String (pretty_N_char (n `mod` 10)) "")) as Hl. rewrite He in Hl. cbn in Hl. lia. }
  destruct e as [|p|p]; cbn; [done|apply (HN (Npos p))|done].
Qed.

(** A record that goes through. *)
Lemma record_done a e keep picked prior ad w w' : record o a e keep picked prior ad w = (w', None) ->
  let s := RecordTorrent (torrentRecord a e picked ad) (now o / 1000000000) (recs w) in
  torrent (recs w') = torrent s /\ torrent_file (recs w') = torrent_file s /\
  cache_entry (recs w') = cache_entry (if keep then fst (KeepDownload (f_hash (best ad)) true s) else s) /\
  engine w' = engine w /\ flights w' = flights w.
Proof. unfold record. destruct (match held _ _ _ _ with Some r => _ | None => false end); [done|]. destruct keep; by intros [= <-]. Qed.

(** Clearing the superseded away leaves what is chosen. *)
Lemma dropped_lookup hs : forall w k f,
  torrent_file (recs (foldl (fun w h => set_recs (DropTorrentCache h) (set_engine (delete (to_lower h)) w)) w hs)) !! k = Some f <->
  torrent_file (recs w) !! k = Some f /\ k.1 ∉ hs.
Proof.
  induction hs as [|h hs IH]; intros w k f; cbn [foldl].
  { split; [|by intros [? _]]. intros ?. split; [done|apply not_elem_of_nil]. }
  rewrite IH. cbn. rewrite map_lookup_filter_Some. cbn. rewrite not_elem_of_cons. tauto.
Qed.

Lemma dropped_torrent hs : forall w h,
  h ∉ hs -> torrent (recs (foldl (fun w h => set_recs (DropTorrentCache h) (set_engine (delete (to_lower h)) w)) w hs)) !! h = torrent (recs w) !! h.
Proof.
  induction hs as [|x hs IH]; intros w h Hh; cbn [foldl]; [done|]. apply not_elem_of_cons in Hh as [Hne Hh]. rewrite IH by done.
  cbn. by rewrite lookup_delete_ne.
Qed.

(** What is recorded is found after the superseded went, and nothing is left to clear away. *)
Lemma recorded_survives r t_ a e w s : AnimeID r = a -> EpKey r = epKey e -> a <> 0 -> FileIndex r <> WholeTorrent ->
  torrent (recs w) = torrent (RecordTorrent r t_ s) -> torrent_file (recs w) = torrent_file (RecordTorrent r t_ s) ->
  exists r', TorrentForEpisode a (epKey e) (recs (dropSuperseded a e w)) = Some r' /\ InfoHash r' = InfoHash r /\
    FileIndex r' = FileIndex r /\ EngineID r' = EngineID r /\ (Manual r = true -> Manual r' = true) /\
    forall h, h ∈ Superseded a (epKey e) (recs (dropSuperseded a e w)) -> False.
Proof.
  intros Hanime Hkey Ha Hi Ht Hf. assert (EpKey r <> "") as Hk by (rewrite Hkey; apply epKey_some). rewrite <- Hanime in Ha.
  destruct (RecordTorrent_row r t_ s Ha Hk) as (f & t & Hff & Hs & He & Htt & Hid & Hm & _ & _ & Hone).
  rewrite <- Hf in Hff, Hone. rewrite <- Ht in Htt. rewrite Hanime, Hkey in *. unfold dropSuperseded.
  set (hs := Superseded a (epKey e) (recs w)).
  assert (InfoHash r ∉ hs) as Hnot.
  { intros Hin. apply elem_of_Superseded in Hin as [Hno _]. apply not_true_iff_false in Hno. apply Hno, still_chosen_spec.
    by exists (FileIndex r), f. }
  exists (record_of a (epKey e) (key_of r, f, t)). split.
  - apply (TorrentForEpisode_one _ _ _ (key_of r) f t); [by apply dropped_lookup|done|done|by rewrite dropped_torrent|].
    intros y g [Hy _]%dropped_lookup. by apply Hone.
  - unfold record_of. cbn. rewrite Hid. split_and!; [done|done|done|exact Hm|].
    intros h [Hno (i & g & Hg & Heg & Hsg)]%elem_of_Superseded. apply dropped_lookup in Hg as [Hg Hh]. apply Hh, elem_of_Superseded.
    split; [|by exists i, g]. apply not_true_iff_false. intros Hst. apply not_true_iff_false in Hno. apply Hno.
    apply still_chosen_spec in Hst as (j & g' & Hg' & Hs' & Hj). apply still_chosen_spec. exists j, g'. split_and!; [|done|done].
    by apply dropped_lookup.
Qed.

Lemma finish_done a e keep picked prior ad w w' id : a <> 0 -> finish o a e keep picked prior ad w = (w', inl id) ->
  id = Some (added_ID ad) /\ exists r, TorrentForEpisode a (epKey e) (recs w') = Some r /\ InfoHash r = f_hash (best ad) /\
    FileIndex r = Z.of_nat (index ad) /\ EngineID r = added_ID ad /\ (picked = true -> Manual r = true) /\
    (forall h, h ∈ Superseded a (epKey e) (recs w') -> False).
Proof.
  intros Ha. unfold finish. destruct (record _ _ _ _ _ _ _ w) as [w1 [x|]] eqn:Hr; [done|]. intros [= <- <-]. split; [done|].
  apply record_done in Hr as (Ht & Hf & _ & _ & _).
  apply (recorded_survives (torrentRecord a e picked ad) (now o / 1000000000) a e w1 (recs w)); try done.
  unfold WholeTorrent. cbn. lia.
Qed.

(** ** What a walk may add *)

Lemma add_best w picked c w' ad : try_one o meanwhile picked c w = (w', inl ad) -> best ad = c.
Proof.
  unfold try_one. cbn zeta. destruct (inspect o picked c) as [[name files]|]; [|done]. destruct (pickFile files c) as [i|]; [|done].
  destruct (add o c) as [id|]; [|done]. by intros [= _ <-].
Qed.

(** The candidates a walk may look at, at most [fetchAttempts] of them. *)
Definition eligible (picked : bool) (stale : string) (c : Found) : Prop := (AutoPick (f_result c) = true \/ picked = true) /\ f_hash c <> stale.

(** The space a candidate was let in with: under the budget, or made for it. *)
Definition fits (keep : bool) (used : Z) (c : Found) : Prop :=
  keep = true \/ budget o <= 0 \/ used + bytes_of c <= budget o \/ exists r u, room o = Some r /\ r (bytes_of c) = (true, u).

Lemma addFirst_spec keep picked stale : forall l tried last used w w' used' ad,
  addFirst o meanwhile keep picked stale l tried last used w = (w', used', Added ad) ->
  best ad ∈ l /\ eligible picked stale (best ad) /\ (tried < fetchAttempts)%nat /\ (room o = None -> used' = used /\ fits keep used (best ad)) /\
  exists u, fits keep u (best ad).
Proof.
  induction l as [|c l IH]; intros tried last used w w' used' ad; cbn [addFirst]; [done|].
  destruct ((negb (AutoPick (f_result c)) && negb picked) || (fetchAttempts <=? tried)%nat || String.eqb (f_hash c) stale) eqn:Hskip.
  { intros Ha. destruct (IH _ _ _ _ _ _ _ Ha) as (Hin & Hrest). split; [by right|done]. }
  apply orb_false_iff in Hskip as [Hskip Hst]. apply orb_false_iff in Hskip as [Hau Htr].
  apply String.eqb_neq in Hst. apply Nat.leb_gt in Htr.
  assert (eligible picked stale c) as Hel.
  { split; [|done]. destruct (AutoPick (f_result c)), picked; cbn in Hau; auto. }
  destruct (admit_ o meanwhile keep c used w) as [[w1 used1]|] eqn:Had; [|done].
  assert (fits keep used c /\ (room o = None -> used1 = used)) as [Hfit Hsame].
  { unfold admit_ in Had. destruct (negb keep && (0 <? budget o) && (budget o <? used + bytes_of c)) eqn:Hb.
    - destruct (room o) as [r|] eqn:Hro; [|done]. destruct (r (bytes_of c)) as [[] u] eqn:Hr; [|done]. split; [|done].
      right; right; right. by exists r, u.
    - injection Had as <- <-. split; [|done]. apply andb_false_iff in Hb as [Hb|Hb]; [apply andb_false_iff in Hb as [Hb|Hb]|].
      + left. by apply negb_false_iff in Hb.
      + right; left. by apply Z.ltb_ge in Hb.
      + right; right; left. by apply Z.ltb_ge in Hb. }
  destruct (try_one o meanwhile picked c w1) as [w2 [ad2|err]] eqn:Ht.
  - intros [= <- <- <-]. pose proof (add_best _ _ _ _ _ Ht) as ->.
    split; [left|]. split; [done|]. split; [done|]. split; [|by exists used]. intros Hro. split; [by apply Hsame|done].
  - intros Ha. destruct (IH _ _ _ _ _ _ _ Ha) as (Hin & Hel' & Htr' & Hro' & Hex). split; [by right|]. split; [done|]. split; [lia|]. split; [|done].
    intros Hro. rewrite <- (Hsame Hro). by apply Hro'.
Qed.

Lemma addFirst_used keep picked stale : forall l tried last used w w' used' k, room o = None ->
  addFirst o meanwhile keep picked stale l tried last used w = (w', used', k) -> used' = used.
Proof.
  induction l as [|c l IH]; intros tried last used w w' used' k Hro; cbn [addFirst]; [by intros [= _ <- _]|].
  destruct (_ || _); [by apply IH|]. unfold admit_. rewrite Hro. destruct (negb keep && _ && _); [by intros [= _ <- _]|].
  destruct (try_one _ _ _ _ _) as [w2 [ad2|err]]; [by intros [= _ <- _]|by apply IH].
Qed.

(** Where the torrent a fetch ends with came from. *)
Definition came_from (keep : bool) (pick : string) (used : Z) (ad : addition) : Prop :=
  exists stale l last u w w' u', addFirst o meanwhile keep (negb (String.eqb pick "")) stale l 0 last u w = (w', u', Added ad) /\
    (room o = None -> u = used) /\ (pick <> "" -> forall c, c ∈ l -> equal_fold (f_hash c) pick = true).

(** What a search or a turn ends in. *)
Lemma search_inv a e keep pick prior stale last used w w' ad r :
  search o meanwhile a e keep pick prior stale last used w = (w', Some ad, r) ->
  came_from keep pick used ad /\ (forall id, r = inl id -> exists w1, finish o a e keep (negb (String.eqb pick "")) prior ad w1 = (w', inl id)).
Proof.
  unfold search. cbn zeta. destruct (find o) as [l|] eqn:Hf; [|done]. destruct (negb _ && _) eqn:Hno; [done|].
  destruct (addFirst _ _ _ _ _ _ _ _ _ _) as [[w1 u] [ad1| |last1]] eqn:Ha; [|done|done]. intros Hs.
  assert (ad1 = ad /\ forall id, r = inl id -> exists w1, finish o a e keep (negb (String.eqb pick "")) prior ad w1 = (w', inl id)) as [-> Hfin].
  { destruct (start _ _ _ _ _ _ _ _ ad1 w1) as [w2 [x|]]; [injection Hs as _ <- <-; split; [done|by intros id]|].
    destruct (finish _ _ _ _ _ _ ad1 w2) as [w3 r1] eqn:Hfi. injection Hs as <- <- <-. split; [done|]. intros id ->. by exists w2. }
  split; [|done]. eexists stale, _, last, used, _, w1, u. split; [exact Ha|]. split; [done|].
  intros Hp c Hc. apply String.eqb_neq in Hp. rewrite Hp in Hc. cbn in Hc. by apply elem_of_filter_b in Hc as [_ Hc].
Qed.

Lemma fetch_turn_inv a e keep pick w w' ad r : fetch_turn o meanwhile a e keep pick w = (w', Some ad, r) ->
  came_from keep pick (if keep then 0 else usage o) ad /\
  (forall id, r = inl id -> exists prior w1, finish o a e keep (negb (String.eqb pick "")) prior ad w1 = (w', inl id)).
Proof.
  assert (forall prior stale last u w1, (room o = None -> u = if keep then 0 else usage o) ->
    search o meanwhile a e keep pick prior stale last u w1 = (w', Some ad, r) ->
    came_from keep pick (if keep then 0 else usage o) ad /\
    (forall id, r = inl id -> exists prior w1, finish o a e keep (negb (String.eqb pick "")) prior ad w1 = (w', inl id))) as Hsearch.
  { intros prior stale last u w1 Hu Hs. apply search_inv in Hs as [Hc Hf]. split.
    - destruct Hc as (st & l & la & u0 & wa & wb & u1 & Ha & Hr & Hp). exists st, l, la, u0, wa, wb, u1.
      split_and!; [done| |done]. intros Hro. rewrite (Hr Hro). by apply Hu.
    - intros id ->. destruct (Hf id eq_refl) as [w2 Hw]. by exists prior, w2. }
  unfold fetch_turn. cbn zeta. destruct (negb _ && inEngine _ _ _ _); [done|]. destruct (localCopy o); [done|].
  destruct (negb keep && _); [done|]. destruct ((0 <? EpisodeCount o) && _); [done|].
  destruct (takePreparedUnless _ _ _ _ _) as [w3 [rel|]] eqn:Htake; [|by apply Hsearch].
  destruct (addFirst _ _ _ _ _ _ _ _ _ _) as [[w4 u] [ad1| |last1]] eqn:Hadd; [|done|apply Hsearch; intros Hro; by apply addFirst_used in Hadd].
  assert (pick <> "" -> False) as Hnp by (intros Hp; unfold takePreparedUnless in Htake; by apply String.eqb_neq in Hp; rewrite Hp in Htake).
  assert (came_from keep pick (if keep then 0 else usage o) ad1) as Hc.
  { eexists "", [rel], NoRelease, _, _, w4, u. split; [exact Hadd|]. split; [done|]. intros Hp. by destruct (Hnp Hp). }
  destruct (start _ _ _ _ _ _ _ _ ad1 w4) as [w5 [x|]].
  - destruct (ctx_over o rel || _); [intros [= _ <- <-]; split; [done|by intros id]|]. apply Hsearch. intros Hro. by apply addFirst_used in Hadd.
  - destruct (finish _ _ _ _ _ _ ad1 w5) as [w6 r1] eqn:Hf. intros [= <- <- <-]. split; [done|]. intros id ->. by eexists _, w5.
Qed.
End facts.


(** A fetch that succeeds is on record.  The episode's release is then the torrent it added and the file it picked, under the id
    the engine gave; a hand-picked one is marked so that no identity check replaces it; no other release of the
    episode is left to clear away; and the episode's slot is free again. *)
Theorem fetch_recorded `{Unicode} o meanwhile a e keep pick w w' ad id (Ha : a <> 0)
  (Hrun : fetchRelease o meanwhile a e keep pick w = (w', Some ad, inl id)) :
  id = Some (added_ID ad) /\ flights w' !! (a, e) = None /\
  exists r, TorrentForEpisode a (epKey e) (recs w') = Some r /\ InfoHash r = f_hash (best ad) /\ FileIndex r = Z.of_nat (index ad) /\
    EngineID r = added_ID ad /\ (pick <> "" -> Manual r = true) /\ Superseded a (epKey e) (recs w') = [].
Proof.
  unfold fetchRelease in Hrun. destruct (beginFetch a e w) as [w0|]; [|done].
  destruct (fetch_turn o meanwhile a e keep pick w0) as [[w2 ad2] r0] eqn:Ht. injection Hrun as <- -> ->.
  apply fetch_turn_inv in Ht as [_ Hfin]. destruct (Hfin id eq_refl) as (prior & w1 & Hf).
  apply finish_done in Hf as (-> & r & Hr & Hh & Hi & He & Hm & Hsup); [|done]. split; [done|].
  split; [cbn; apply lookup_delete_eq|]. exists r. split_and!; [done|done|done|done| |].
  - intros Hp. apply Hm. by apply negb_true_iff, String.eqb_neq.
  - change (recs (endFetch a e w2)) with (recs w2). destruct (Superseded a (epKey e) (recs w2)) as [|h l] eqn:Hsu; [done|]. exfalso. apply (Hsup h). left.
Qed.

(** A fetch takes no more than it may.  What it adds is a release the ranking would pick by itself, or the one chosen by
    hand; it is resolved ahead or found by the search; and unless the episode is to be kept it fits the cache's
    budget beside what was there, or room was made for it. *)
Theorem fetch_bounded `{Unicode} o meanwhile a e keep pick w w' ad r
  (Hrun : fetchRelease o meanwhile a e keep pick w = (w', Some ad, r)) :
  (AutoPick (f_result (best ad)) = true \/ pick <> "" /\ equal_fold (f_hash (best ad)) pick = true) /\
  (exists u, fits o keep u (best ad)) /\
  (keep = false -> room o = None -> 0 < budget o -> usage o + bytes_of (best ad) <= budget o).
Proof.
  unfold fetchRelease in Hrun. destruct (beginFetch a e w) as [w0|]; [|done].
  destruct (fetch_turn o meanwhile a e keep pick w0) as [[w2 ad2] r0] eqn:Ht. injection Hrun as _ -> _.
  apply fetch_turn_inv in Ht as [(stale & l & last & u & wa & wb & u' & Hadd & Hu & Hp) _].
  apply addFirst_spec in Hadd as (Hin & [Hel _] & _ & Hro & Hex). split_and!; [|done|].
  - destruct Hel as [?|Hel]; [by left|right]. apply negb_true_iff, String.eqb_neq in Hel. auto.
  - intros -> Hn Hb. destruct (Hro Hn) as [_ [?|[?|[?|(ro & x & Hr & _)]]]]; [done|lia| |congruence]. rewrite (Hu Hn) in *. done.
Qed.

(** A fetch never replaces what the viewer has meanwhile.  Where, when its torrent is ready to be recorded, another release
    is on record for the episode, neither its own nor the one it set out to replace, the fetch gives way: that release stays
    the episode's, and the fetch's own torrent goes unless it is on record itself. *)
Theorem fetch_gives_way `{Unicode} o a e keep picked prior ad w r
  (Hplain : to_lower (f_hash (best ad)) = f_hash (best ad)) (Hheld : held o a e w = Some r)
  (Hother : equal_fold (InfoHash r) (f_hash (best ad)) = false) (Hprior : equal_fold (InfoHash r) (from_option InfoHash "" prior) = false)
  (Hone : one_chosen (recs w)) :
  let '(w', res) := finish o a e keep picked prior ad w in
  res = inr Overtaken /\ TorrentForEpisode a (epKey e) (recs w') = Some r /\
  (engine w' !! to_lower (f_hash (best ad)) = None \/ TorrentClaimed (f_hash (best ad)) (recs w') = true).
Proof.
  assert (TorrentForEpisode a (epKey e) (recs w) = Some r) as Hr.
  { unfold held in Hheld. destruct (TorrentForEpisode _ _ _) as [r0|]; [|done]. destruct (_ || _); congruence. }
  unfold finish, record. rewrite Hheld, Hother, Hprior. cbn. split; [done|]. unfold forget, discardUnclaimed. cbn [recs setTorrent set_flights].
  destruct (TorrentClaimed (f_hash (best ad)) (recs w)) eqn:Hc; [split; [done|by right]|]. split; [|left; cbn; apply lookup_delete_eq].
  cbn [recs set_recs set_engine]. rewrite Hplain. apply DropTorrentCache_other; [done|done|].
  intros Heq. apply found_claimed in Hr. congruence.
Qed.

(** *** Instances *)

Definition plain_release : Release := Parse (H := ascii_unicode) "[Group] Show - 03 [1080p].mkv".
Definition one_file : Score.Candidate :=
  Score.mkCandidate (Score.mkTorrent "[Group] Show - 03 [1080p].mkv" 700000000 40 true "" false) plain_release false false 12 24 true false None false.
Definition offered : Found :=
  mkFound "bb" (mkResult one_file (Score.zero) [] true true "" [] Score.zero false) 3 [3].

(** The search finds one release, whose swarm stays silent. *)
Definition silent : answers :=
  mkAnswers (fun _ => true) false 12 10000000000 0 None
    (fun _ c => Some ("Show - 03", [mkPackFile "[Group] Show - 03 [1080p].mkv" 700000000])) (fun _ => Some 7)
    (fun _ => Some Silent) (fun _ => false) (Some [offered]) 5000000000.

Definition delivering : answers :=
  mkAnswers (fun _ => true) false 12 10000000000 0 None
    (fun _ c => Some ("Show - 03", [mkPackFile "[Group] Show - 03 [1080p].mkv" 700000000])) (fun _ => Some 7)
    (fun _ => None) (fun _ => false) (Some [offered]) 5000000000.

Definition empty_world : world := mkWorld (mkRecords ∅ ∅ ∅) ∅ ∅ ∅ ∅ [].
Definition undisturbed (_ : point) (w : world) : world := w.

Definition ran (o : answers) : world * option addition * (option Z + error) :=
  fetchRelease (H := ascii_unicode) o undisturbed 1 3 true "" empty_world.

Definition fetched : addition := mkAddition offered 7 0 "[Group] Show - 03 [1080p].mkv" 700000000 "Show - 03".

Lemma ran_silent : exists w, ran silent = (w, Some fetched, inr Silent).
Proof. eexists. vm_compute. reflexivity. Qed.

Lemma ran_delivering : exists w, ran delivering = (w, Some fetched, inl (Some 7)).
Proof. eexists. vm_compute. reflexivity. Qed.


Lemma fetch_recorded_witness : exists w r, ran delivering = (w, Some fetched, inl (Some 7)) /\
  TorrentForEpisode 1 "3" (recs w) = Some r /\ InfoHash r = "bb".
Proof.
  destruct ran_delivering as [w Hw]. exists w.
  destruct (@fetch_recorded ascii_unicode delivering undisturbed 1 3 true "" empty_world w fetched (Some 7) ltac:(done) Hw) as (_ & _ & r & Hr & Hh & _).
  exists r. split; [exact Hw|]. split; [exact Hr|exact Hh].
Defined.

Lemma fetch_bounded_witness : exists w, ran delivering = (w, Some fetched, inl (Some 7)) /\ exists u, fits delivering true u offered.
Proof.
  destruct ran_delivering as [w Hw]. exists w. split; [exact Hw|].
  apply (@fetch_bounded ascii_unicode delivering undisturbed 1 3 true "" empty_world w fetched (inl (Some 7)) Hw).
Defined.

(** The viewer has started the episode from another release. *)
Definition viewers : TorrentRecord := mkRecord "cc" 9 "Theirs" 500 1 "3" 0 "theirs.mkv" true.
Definition started_elsewhere : world :=
  mkWorld (RecordTorrent viewers 1 (mkRecords ∅ ∅ ∅)) {["bb" := (7, true); "cc" := (9, true)]} {[(1, 3) := mkFlight None "bb" false]} {["bb"]} ∅ [].

Lemma fetch_gives_way_witness :
  let '(w', res) := finish (H := ascii_unicode) delivering 1 3 true false None fetched started_elsewhere in
  res = inr Overtaken /\ InfoHash <$> TorrentForEpisode 1 "3" (recs w') = Some "cc".
Proof.
  pose proof (@fetch_gives_way ascii_unicode delivering 1 3 true false None fetched started_elsewhere viewers) as Hway.
  destruct (finish _ _ _ _ _ _ _ _) as [w' res]. destruct Hway as (Hres & Hr & _).
  - vm_compute. reflexivity.
  - vm_compute. reflexivity.
  - vm_compute. reflexivity.
  - vm_compute. reflexivity.
  - apply (RecordTorrent_one viewers 1); [done|done|]. intros b k x y f g Hx. cbn in Hx. by rewrite lookup_empty in Hx.
  - split; [done|]. change "3" with (epKey 3). by rewrite Hr.
Defined.
