(* ===== verification/Decimal.v ===== *)
(** * Numbers as text: strconv's ParseInt, ParseUint, ParseBool and AppendInt in base ten

    What the standard library reads and writes, with the facts the coder of Bencode
    is built on: a number is written in one way, and a text that starts as the writer would start
    it and is read as a number is what the writer writes for it. *)
From stdpp Require Import base list strings pretty.
From Stdlib Require Import ZArith Lia Ascii.
From S2P Require Import Prelude GoStr.

#[local] Open Scope string_scope.
#[local] Open Scope Z_scope.

(** ** Reading *)

(** Digits, at least one. *)
Definition digits (s : string) : option Z := match s with "" => None | _ => digits_value s 0 end.

(** A sign and digits, of any size: [big.Int.SetString] in base ten. *)
Definition int_text (s : string) : option Z :=
  match s with
  | "" => None
  | String c s' =>
      if byte_at c =? 45 then option_map Z.opp (digits s') else if byte_at c =? 43 then digits s' else digits s
  end.

(** [None] where the error is not nil. *)
Definition ParseInt (s : string) : option Z :=
  match int_text s with Some n => if (- 2 ^ 63 <=? n) && (n <? 2 ^ 63) then Some n else None | None => None end.

Definition ParseUint (s : string) : option Z :=
  match digits s with Some n => if n <? 2 ^ 64 then Some n else None | None => None end.

Definition ParseBool (s : string) : option bool :=
  if existsb (String.eqb s) ["1"; "t"; "T"; "true"; "TRUE"; "True"] then Some true
  else if existsb (String.eqb s) ["0"; "f"; "F"; "false"; "FALSE"; "False"] then Some false else None.

(** ** Texts of numbers *)

Definition digit (c : Ascii.ascii) : bool := is_ascii_digit (byte_at c).
Definition leading (s : string) : Z := match s with "" => 0 | String c _ => byte_at c end.

Fixpoint all_digits (s : string) : bool := match s with "" => true | String c s' => digit c && all_digits s' end.

Definition decimal (n : N) : string := pretty n.

Lemma digits_value_app a b acc :
  digits_value (a +:+ b) acc = match digits_value a acc with Some v => digits_value b v | None => None end.
Proof. revert acc. induction a as [|c a IH]; intros acc; simpl; [done|]. destruct (is_ascii_digit _); [apply IH|done]. Qed.

Lemma digits_value_digits s acc v : digits_value s acc = Some v -> all_digits s = true.
Proof. revert acc. induction s as [|c s IH]; intros acc; cbn; [done|]. unfold digit. destruct (is_ascii_digit _); [apply IH|done]. Qed.

Lemma digits_value_some s acc : all_digits s = true -> exists v, digits_value s acc = Some v.
Proof.
  revert acc. induction s as [|c s IH]; intros acc; cbn; [eauto|]. intros [Hc Hs]%andb_true_iff. unfold digit in Hc. rewrite Hc.
  by apply IH.
Qed.

Lemma digit_char n : (n < 10)%N -> digit (pretty_N_char n) = true /\ byte_at (pretty_N_char n) = 48 + Z.of_N n.
Proof. intros Hn. destruct n as [|[[[[]|[]|]|[[]|[]|]|]|[[[]|[]|]|[[]|[]|]|]|]]; try lia; done. Qed.

Lemma digit_of_char c : digit c = true -> exists n, (n < 10)%N /\ pretty_N_char n = c.
Proof.
  unfold digit, is_ascii_digit. intros H. bool_prop. exists (Z.to_N (byte_at c - 48)). split; [lia|].
  assert (Z.to_N (byte_at c - 48) < 10)%N as Hn by lia. pose proof (digit_char _ Hn) as [_ Hb].
  etrans; [symmetry; apply byte_of_at|]. etrans; [|apply byte_of_at]. rewrite Hb. f_equal. lia.
Qed.

Lemma string_snoc (s : string) : s <> "" -> exists s' c, s = s' +:+ String c "".
Proof.
  induction s as [|c s IH]; [done|]. intros _. destruct s as [|c' s']; [by exists "", c|].
  destruct IH as (t & d & Ht); [done|]. exists (String c t), d. cbn. by rewrite Ht.
Qed.

Lemma pretty_N_go_app x s : pretty_N_go x s = pretty_N_go x "" +:+ s.
Proof.
  revert s. induction (N.lt_wf_0 x) as [x _ IH]. intros s. destruct (decide (0 < x)%N) as [Hx|Hx].
  - rewrite (pretty_N_go_step x s), (pretty_N_go_step x "") by done. assert (x `div` 10 < x)%N as Hlt by (by apply N.div_lt).
    rewrite (IH _ Hlt (String _ s)), (IH _ Hlt (String _ "")). by rewrite string_app_assoc.
  - replace x with 0%N by lia. by rewrite !pretty_N_go_0.
Qed.

(** The last digit of what is written. *)
Lemma dec_step n : (10 <= n)%N -> decimal n = decimal (n / 10) +:+ String (pretty_N_char (n mod 10)) "".
Proof.
  intros Hn. assert (0 < n / 10)%N by (apply N.div_str_pos; lia). unfold decimal, pretty, pretty_N.
  rewrite !decide_False by lia. rewrite (pretty_N_go_step n) by lia. apply pretty_N_go_app.
Qed.

Lemma dec_small n : (n < 10)%N -> decimal n = String (pretty_N_char n) "".
Proof. intros Hn. destruct n as [|[[[[]|[]|]|[[]|[]|]|]|[[[]|[]|]|[[]|[]|]|]|]]; try lia; done. Qed.

Lemma dec_value n : digits_value (decimal n) 0 = Some (Z.of_N n).
Proof.
  induction (N.lt_wf_0 n) as [n _ IH]. destruct (decide (n < 10)%N) as [Hn|Hn].
  - rewrite dec_small by done. pose proof (digit_char n Hn) as [Hd Hb]. unfold digit in Hd. cbn [digits_value]. rewrite Hd, Hb.
    f_equal. lia.
  - rewrite dec_step by lia. rewrite digits_value_app, IH by (apply N.div_lt; lia).
    assert (n mod 10 < 10)%N as Hm by (apply N.mod_lt; lia). pose proof (digit_char _ Hm) as [Hd Hb].
    unfold digit in Hd. cbn [digits_value]. rewrite Hd, Hb. f_equal.
    pose proof (N.div_mod n 10 ltac:(lia)). lia.
Qed.

Lemma dec_nonempty n : decimal n <> "".
Proof.
  destruct (decide (n < 10)%N); [by rewrite dec_small|]. rewrite dec_step by lia. by destruct (decimal (n / 10)).
Qed.

Lemma leading_app a b : a <> "" -> leading (a +:+ b) = leading a.
Proof. by destruct a. Qed.

Lemma dec_leading n : (0 < n)%N -> 49 <= leading (decimal n) <= 57.
Proof.
  induction (N.lt_wf_0 n) as [n _ IH]. intros Hp. destruct (decide (n < 10)%N) as [Hn|Hn].
  - rewrite dec_small by done. cbn [leading]. pose proof (digit_char n Hn) as [_ ->]. lia.
  - rewrite dec_step by lia. rewrite leading_app by apply dec_nonempty. apply IH; [apply N.div_lt; lia|].
    apply N.div_str_pos; lia.
Qed.

(** What reads as a number and starts as the writer would start it is what the writer writes. *)
Lemma digits_canonical s v : digits_value s 0 = Some v -> s <> "" -> leading s <> 48 \/ s = "0" -> s = decimal (Z.to_N v).
Proof.
  remember (String.length s) as k eqn:Hk. revert s v Hk. induction k as [k IH] using lt_wf_ind. intros s v Hk Hv Hs Hl.
  destruct (string_snoc s Hs) as (t & c & ->). rewrite digits_value_app in Hv.
  destruct (digits_value t 0) as [u|] eqn:Hu; [|done]. cbn [digits_value] in Hv.
  destruct (is_ascii_digit (byte_at c)) eqn:Hc; [|done]. injection Hv as <-.
  destruct (digit_of_char c Hc) as (d & Hd & <-). pose proof (digit_char d Hd) as [_ ->].
  destruct t as [|c0 t0].
  { cbn in Hu. injection Hu as <-. replace (Z.to_N _) with d by lia. by rewrite dec_small. }
  pose proof (digits_value_bound _ 0 _ (Z.le_refl 0) Hu) as Hb.
  assert (String c0 t0 = decimal (Z.to_N u)) as Ht.
  { apply (IH (String.length (String c0 t0))); [|done|done|done|].
    - rewrite Hk, string_app_length. cbn. lia.
    - left. destruct Hl as [Hl|Hl]; [done|]. by destruct t0. }
  rewrite Ht. assert (0 < u) as Hu0.
  { destruct (decide (u = 0)) as [->|]; [|lia]. cbn in Ht. injection Ht as -> ->. destruct Hl as [Hl|Hl]; [by destruct Hl|done]. }
  assert (Z.to_N (u * 10 + (48 + Z.of_N d - 48)) = (Z.to_N u * 10 + d)%N) as -> by lia.
  rewrite (dec_step (_ + _)) by lia. rewrite N.div_add_l, N.div_small, N.add_0_r by lia. do 3 f_equal.
  rewrite N.add_comm, N.Div0.mod_add. by rewrite N.mod_small.
Qed.

(** ** Integers *)

Lemma itoa_dec n : itoa n = if n <? 0 then "-" +:+ decimal (Z.to_N (- n)) else decimal (Z.to_N n).
Proof. by destruct n. Qed.

Lemma dec_digits n : all_digits (decimal n) = true.
Proof. by apply digits_value_digits with (acc := 0) (v := Z.of_N n), dec_value. Qed.

Lemma digits_dec n : digits (decimal n) = Some (Z.of_N n).
Proof. unfold digits. destruct (decimal n) eqn:E; [by apply dec_nonempty in E|]. rewrite <- E. apply dec_value. Qed.

Lemma digit_bounds c : digit c = true <-> 48 <= byte_at c <= 57.
Proof. unfold digit, is_ascii_digit. rewrite andb_true_iff, !Z.leb_le. lia. Qed.

(** A text that starts with a digit is read by its digits alone. *)
Lemma int_text_digit c s : digit c = true -> int_text (String c s) = digits (String c s).
Proof.
  intros Hc%digit_bounds. cbn [int_text]. destruct (Z.eqb_spec (byte_at c) 45); [lia|]. destruct (Z.eqb_spec (byte_at c) 43); [lia|done].
Qed.

Lemma int_text_dec n : int_text (decimal n) = Some (Z.of_N n).
Proof.
  pose proof (dec_digits n) as Hd. rewrite <- digits_dec. destruct (decimal n) as [|c s]; [done|].
  apply andb_true_iff in Hd as [Hc _]. by apply int_text_digit.
Qed.

Lemma int_text_itoa n : int_text (itoa n) = Some n.
Proof.
  rewrite itoa_dec. destruct (Z.ltb_spec n 0); [|rewrite int_text_dec; f_equal; lia].
  change ("-" +:+ decimal (Z.to_N (- n))) with (String "-"%char (decimal (Z.to_N (- n)))). cbn [int_text].
  change (byte_at "-"%char =? 45) with true. cbn iota. rewrite digits_dec. cbn. f_equal. lia.
Qed.

Lemma ParseInt_itoa n : in64 n -> ParseInt (itoa n) = Some n.
Proof.
  intros Hn. unfold ParseInt. rewrite int_text_itoa. unfold in64 in Hn.
  destruct (Z.leb_spec (- 2 ^ 63) n), (Z.ltb_spec n (2 ^ 63)); try done; lia.
Qed.

Lemma ParseUint_itoa n : 0 <= n < 2 ^ 64 -> ParseUint (itoa n) = Some n.
Proof.
  intros Hn. unfold ParseUint. rewrite itoa_dec. destruct (Z.ltb_spec n 0); [lia|]. rewrite digits_dec, Z2N.id by lia.
  destruct (Z.ltb_spec n (2 ^ 64)); [done|lia].
Qed.

Lemma itoa_nonempty n : itoa n <> "".
Proof. rewrite itoa_dec. destruct (n <? 0); [done|apply dec_nonempty]. Qed.

(** *** The texts the coder takes *)

(** A first digit that is no zero, after a minus sign if there is one; a text of one byte passes. *)
Definition well_led (s : string) : bool :=
  match s with
  | "" | String _ "" => true
  | String c s' =>
      let c := match s' with String d _ => if byte_at c =? 45 then d else c | "" => c end in
      negb ((byte_at c <? 49) || (57 <? byte_at c))
  end.

Lemma well_led_itoa n : well_led (itoa n) = true.
Proof.
  rewrite itoa_dec. destruct (Z.ltb_spec n 0).
  - pose proof (dec_leading (Z.to_N (- n)) ltac:(lia)) as Hl. change ("-" +:+ decimal (Z.to_N (- n))) with (String "-"%char (decimal (Z.to_N (- n)))).
    destruct (decimal (Z.to_N (- n))) as [|c s]; [done|]. cbn [leading] in Hl. unfold well_led. change (byte_at "-"%char =? 45) with true. cbn iota. destruct (Z.ltb_spec (byte_at c) 49), (Z.ltb_spec 57 (byte_at c)); try done; lia.
  - destruct (decide (n = 0)) as [->|]; [done|]. pose proof (dec_leading (Z.to_N n) ltac:(lia)) as Hl.
    destruct (decimal (Z.to_N n)) as [|c s]; [done|]. cbn [leading] in Hl. unfold well_led. destruct s as [|d s]; [done|].
    destruct (Z.eqb_spec (byte_at c) 45); [lia|].
    destruct (Z.ltb_spec (byte_at c) 49), (Z.ltb_spec 57 (byte_at c)); try done; lia.
Qed.

Lemma digits_well_led c s v : digits (String c s) = Some v -> well_led (String c s) = true -> String c s = decimal (Z.to_N v).
Proof.
  intros Hv Hw. apply digits_canonical; [done|done|]. cbn [leading]. destruct s as [|d s].
  - destruct (decide (byte_at c = 48)) as [E|]; [right|by left]. by rewrite <- (byte_of_at c), E.
  - left. unfold well_led in Hw. apply negb_true_iff, orb_false_iff in Hw as [H1 H2].
    destruct (byte_at c =? 45) eqn:E; bool_prop; lia.
Qed.

(** So an integer is read from one text only. *)
Lemma int_text_canonical s n : int_text s = Some n -> well_led s = true -> s = itoa n.
Proof.
  destruct s as [|c s]; [done|]. cbn [int_text]. intros Hn Hw. destruct (Z.eqb_spec (byte_at c) 45) as [E|].
  - assert (c = "-"%char) as -> by (by rewrite <- (byte_of_at c), E).
    destruct (digits s) as [v|] eqn:Hv; [|done]. injection Hn as <-. destruct s as [|d s]; [done|].
    unfold well_led in Hw. change (byte_at "-"%char =? 45) with true in Hw. cbn iota in Hw. bool_prop. pose proof (digits_value_bound _ 0 _ (Z.le_refl 0) Hv) as Hb.
    assert (String d s = decimal (Z.to_N v)) as Hd.
    { apply digits_canonical; [done|done|]. left. cbn [leading]. lia. }
    rewrite itoa_dec. destruct (Z.ltb_spec (- v) 0) as [|Hv0].
    + by rewrite Z.opp_involutive, <- Hd.
    + assert (v = 0) as -> by lia. cbn in Hd. injection Hd as -> ->. done.
  - destruct (Z.eqb_spec (byte_at c) 43) as [E|].
    { exfalso. assert (c = "+"%char) as -> by (by rewrite <- (byte_of_at c), E). destruct s; done. }
    pose proof (digits_value_bound _ 0 _ (Z.le_refl 0) Hn) as Hb. rewrite (digits_well_led _ _ _ Hn Hw), itoa_dec.
    destruct (Z.ltb_spec n 0); [lia|done].
Qed.
