(* ===== verification/Bencode.v ===== *)
(** * Bencode: internal/bt/bencode (decode.go, encode.go, api.go, tags.go, bytes.go)

    The coder reads and writes Go values by reflection, so the model has the types
    it reflects on ([ty]) and the values of a type ([val]); a [reflect.Value] that is set is a value
    given and a value returned.  The decoder's state is its reader, its [Offset] and its buffer,
    which several of its routines append to without clearing it first.  An error a
    routine returns ([Failed]) is told from one it panics with ([Panicked]), since a field tagged
    [ignore_unmarshal_type_error] goes on after the first and not after the second; both carry the value
    as far as it was set.  Maps have string keys and are kept in the order of their keys; structs
    have no embedded fields, and the only type with coding methods of its own is [Bytes].
    [missinggo.IsEmptyValue] is a parameter. *)
From stdpp Require Import base list strings sorting.
From Stdlib Require Import ZArith Lia Ascii.
From S2P Require Import Prelude GoStr Decimal.

#[local] Open Scope string_scope.
#[local] Open Scope Z_scope.

(** ** Types and values *)

Inductive width := W8 | W16 | W32 | W64.

Definition bits (w : width) : Z := match w with W8 => 8 | W16 => 16 | W32 => 32 | W64 => 64 end.

Record fieldOf (T : Type) := mkField { Name : string; Tag : string; FieldType : T }.
Arguments mkField {T}. Arguments Name {T}. Arguments Tag {T}. Arguments FieldType {T}.

Inductive ty :=
  | TInt (w : width) | TUint (w : width) | TBool | TString
  | TSlice (e : ty) | TArray (n : nat) (e : ty) | TMap (e : ty) | TStruct (fs : list (fieldOf ty)) | TPtr (e : ty)
  | TAny
  | TBytes.

Abbreviation field := (fieldOf ty).

(** What an [interface{}] holds after decoding; an [int64] or, beyond it, a [*big.Int]. *)
Inductive item := IInt (n : Z) | IStr (s : string) | IList (l : list item) | IDict (l : list (string * item)).

(** [VNil] is a nil slice, map, pointer or interface. *)
Inductive val :=
  | VInt (n : Z) | VBool (b : bool) | VString (s : string)
  | VNil | VSeq (l : list val) | VMap (l : list (string * val)) | VStruct (l : list val) | VPtr (v : val)
  | VAny (i : item)
  | VBytes (s : string).

Fixpoint zero (t : ty) : val :=
  match t with
  | TInt _ | TUint _ => VInt 0
  | TBool => VBool false
  | TString => VString ""
  | TSlice _ | TMap _ | TPtr _ | TAny => VNil
  | TArray n e => VSeq (replicate n (zero e))
  | TStruct fs => VStruct (map (fun f => zero (FieldType f)) fs)
  | TBytes => VBytes ""
  end.

Definition in_int (w : width) (n : Z) : bool := (- 2 ^ (bits w - 1) <=? n) && (n <? 2 ^ (bits w - 1)).
Definition in_uint (w : width) (n : Z) : bool := (0 <=? n) && (n <? 2 ^ bits w).

(** ** Tags *)

Definition parseTag (tagStr : string) : list string := split tagStr ",".
Definition Key (me : list string) : string := List.hd "" me.
Definition HasOpt (me : list string) (opt : string) : bool := existsb (fun s => String.eqb s opt) (List.tl me).
Definition Ignore (me : list string) : bool := String.eqb (Key me) "-".
Definition OmitEmpty (me : list string) : bool := HasOpt me "omitempty".
Definition IgnoreUnmarshalTypeError (me : list string) : bool := HasOpt me "ignore_unmarshal_type_error".

Definition tag_key (f : field) : string :=
  let k := Key (parseTag (Tag f)) in if String.eqb k "" then Name f else k.

(** The fields a dict's keys are looked up in. *)
Definition decoded (f : field) : bool := negb (String.eqb (Tag f) "-").

(** The last field with the key: [saveStructFields] overwrites. *)
Fixpoint getStructFieldForKey (fs : list field) (key : string) (i : nat) : option (nat * field) :=
  match fs with
  | [] => None
  | f :: fs' =>
      match getStructFieldForKey fs' key (S i) with
      | Some x => Some x
      | None => if decoded f && String.eqb (tag_key f) key then Some (i, f) else None
      end
  end.

(** ** The decoder's state *)

Inductive cause := CutShort | IoError | BadNumber | UnknownType (c : ascii) | Unsorted | NoValue | NotAKey | LoneE.

Inductive error :=
  | SyntaxError (offset : Z) (what : cause)
  | UnmarshalTypeError
  | InvalidDigit | TooLong | ShortRead | DictInto | NotDiscarded | MissingValue
  | EOF | UnexpectedEOF
  | Reflection
  | Wrapped (e : error)
  | TrailingBytes (n : nat).

(** [errors.As] to an [UnmarshalTypeError]. *)
Fixpoint is_type_error (e : error) : bool :=
  match e with UnmarshalTypeError => true | Wrapped e => is_type_error e | _ => false end.

Record dec := mkDec { rest : string; Offset : Z; buf : string }.

Definition reset (d : dec) : dec := mkDec (rest d) (Offset d) "".
Definition write (c : string) (d : dec) : dec := mkDec (rest d) (Offset d) (buf d +:+ c).

(** [ReadByte] and the offset's step. *)
Definition readByte (d : dec) : option (ascii * dec) :=
  match rest d with "" => None | String c r => Some (c, mkDec r (Offset d + 1) (buf d)) end.

Fixpoint until (sep : ascii) (s : string) : string * option string :=
  match s with
  | "" => ("", None)
  | String c s' => if Ascii.eqb c sep then ("", Some s') else let '(p, r) := until sep s' in (String c p, r)
  end.

Definition len (s : string) : Z := Z.of_nat (String.length s).

Definition readUntil (sep : ascii) (d : dec) : result error dec :=
  match until sep (rest d) with
  | (p, Some r) => Ok (mkDec r (Offset d + len p + 1) (buf d +:+ p))
  | (p, None) => Err (SyntaxError (Offset d + len p) CutShort)
  end.

(** The first [n] bytes, if there are that many. *)
Fixpoint split_at (n : nat) (s : string) : option (string * string) :=
  match n, s with
  | O, _ => Some ("", s)
  | S n', String c s' => match split_at n' s' with Some (a, b) => Some (String c a, b) | None => None end
  | S _, "" => None
  end.

(** [checkBufferedInt]: whether it returns nil. *)
Definition checkBufferedInt (d : dec) : bool := well_led (buf d).

(** What a caller of [Decode] gets; the last only from a model run too short. *)
Inductive answer := NoError | Error (e : error) | OutOfFuel.

(** A value set, an end mark, an error returned, or one thrown. *)
Inductive outcome := Value | End | Failed (e : error) | Panicked (e : error) | Unfinished.

Abbreviation res := (dec * val * outcome)%type.

Section coder.
Context (MaxStrLen : Z).

Definition DefaultDecodeMaxStrLen : Z := 2 ^ 27 - 1.
Definition getMaxStrLen : Z := if MaxStrLen =? 0 then DefaultDecodeMaxStrLen else MaxStrLen.

(** The length and the state, an error returned, or one thrown. *)
Inductive length_read := Length (n : nat) (d : dec) | Returned (e : error) (d : dec) | Thrown (e : error).

Definition parseStringLength (d : dec) : length_read :=
  let start := Offset d - 1 in
  match readUntil ":" d with
  | Err e => Thrown e
  | Ok d =>
      if negb (checkBufferedInt d) then Returned InvalidDigit d
      else match ParseInt (buf d) with
        | None => Thrown (SyntaxError start BadNumber)
        | Some n => if getMaxStrLen <? n then Returned TooLong (reset d) else Length (Z.to_nat n) (reset d)
        end
  end.

(** ** Into an empty interface *)

Inductive got := Got (i : item) (d : dec) | Ended (d : dec) | Threw (e : error) | Spent.

Definition parseIntInterface (d : dec) : got :=
  let start := Offset d - 1 in
  match readUntil "e" d with
  | Err e => Threw e
  | Ok d =>
      if negb (checkBufferedInt d) then Threw InvalidDigit
      else match int_text (buf d) with
        | Some n => Got (IInt n) (reset d)
        | None => Threw (SyntaxError start BadNumber)
        end
  end.

Definition readBytes (n : nat) (d : dec) : result error (string * dec) :=
  match split_at n (rest d) with
  | Some (b, r) => Ok (b, mkDec r (Offset d + Z.of_nat n) (buf d))
  | None => Err ShortRead
  end.

Definition parseStringInterface (d : dec) : got :=
  match parseStringLength d with
  | Thrown e | Returned e _ => Threw e
  | Length n d => match readBytes n d with Ok (b, d) => Got (IStr b) d | Err e => Threw e end
  end.

(** [key <= lastKey], of strings compared by their bytes. *)
Fixpoint str_lt (a b : string) : bool :=
  match a, b with
  | _, "" => false
  | "", _ => true
  | String c a', String d b' => (byte_at c <? byte_at d) || ((byte_at c =? byte_at d) && str_lt a' b')
  end.

Fixpoint parseDictInterface (parse : dec -> got) (fuel : nat) (lastKey : option string) (dict : list (string * item)) (d : dec) : got :=
  match fuel with
  | O => Spent
  | S k =>
      match parse d with
      | Spent => Spent
      | Threw e => Threw e
      | Ended d1 => Got (IDict dict) d1
      | Got (IStr key) d1 =>
          if match lastKey with Some l => negb (str_lt l key) | None => false end then Threw (SyntaxError (Offset d) Unsorted)
          else match parse d1 with
            | Spent => Spent
            | Threw e => Threw e
            | Ended _ => Threw (SyntaxError (Offset d1) NoValue)
            | Got x d2 => parseDictInterface parse k (Some key) (dict ++ [(key, x)]) d2
            end
      | Got _ d1 => Threw (SyntaxError (Offset d1) NotAKey)
      end
  end.

Fixpoint parseListInterface (parse : dec -> got) (fuel : nat) (l : list item) (d : dec) : got :=
  match fuel with
  | O => Spent
  | S k =>
      match parse d with
      | Got x d => parseListInterface parse k (l ++ [x]) d
      | Ended d => Got (IList l) d
      | Threw e => Threw e
      | Spent => Spent
      end
  end.

Fixpoint parseValueInterface (fuel : nat) (d : dec) : got :=
  match fuel with
  | O => Spent
  | S k =>
      match readByte d with
      | None => Threw EOF
      | Some (b, d) =>
          if Ascii.eqb b "e" then Ended d
          else if Ascii.eqb b "d" then parseDictInterface (parseValueInterface k) k None [] d
          else if Ascii.eqb b "l" then parseListInterface (parseValueInterface k) k [] d
          else if Ascii.eqb b "i" then parseIntInterface d
          else if digit b then parseStringInterface (write (String b "") d)
          else Threw (SyntaxError (Offset d - 1) (UnknownType b))
      end
  end.

(** ** The bytes of one value *)

Inductive one := One (d : dec) | NoOne (d : dec) | OneThrew (e : error) | OneSpent.

(** Reads until there is nothing to read, then the end mark. *)
Fixpoint read_values (read : dec -> one) (fuel : nat) (d : dec) : one :=
  match fuel with
  | O => OneSpent
  | S k =>
      match read d with
      | One d => read_values read k d
      | NoOne d => match readByte d with Some (b, d) => One (write (String b "") d) | None => OneThrew (SyntaxError (Offset d) CutShort) end
      | x => x
      end
  end.

Fixpoint readOneValue (fuel : nat) (d : dec) : one :=
  match fuel with
  | O => OneSpent
  | S k =>
      match rest d with
      | "" => OneThrew EOF
      | String b r =>
          if Ascii.eqb b "e" then NoOne d
          else
            let start := String.length (buf d) in
            let d := mkDec r (Offset d + 1) (buf d +:+ String b "") in
            if Ascii.eqb b "d" || Ascii.eqb b "l" then read_values (readOneValue k) k d
            else if Ascii.eqb b "i" then
              match readUntil "e" d with Ok d => One (write "e" d) | Err e => OneThrew e end
            else if digit b then
              match readUntil ":" d with
              | Err e => OneThrew e
              | Ok d =>
                  match ParseInt (str_from (buf d) start) with
                  | None => OneThrew (SyntaxError (Offset d - 1) BadNumber)
                  | Some n =>
                      match split_at (Z.to_nat n) (rest d) with
                      | Some (b, r) => One (mkDec r (Offset d + len b) ((buf d +:+ ":") +:+ b))
                      | None => OneThrew (SyntaxError (Offset d + len (rest d)) CutShort)
                      end
                  end
              end
            else OneThrew (SyntaxError (Offset d - 1) (UnknownType b))
      end
  end.

(** ** Into a value of a type *)

Definition parseInt (t : ty) (cur : val) (d : dec) : res :=
  let start := Offset d - 1 in
  match readUntil "e" d with
  | Err e => (d, cur, Panicked e)
  | Ok d =>
      if negb (checkBufferedInt d) then (d, cur, Failed InvalidDigit)
      else
        let number (n : option Z) (fits : Z -> bool) : res :=
          match n with
          | None => (d, cur, Panicked (SyntaxError start BadNumber))
          | Some n => if fits n then (reset d, VInt n, Value) else (d, cur, Failed UnmarshalTypeError)
          end in
        match t with
        | TInt w => number (ParseInt (buf d)) (in_int w)
        | TUint w => number (ParseUint (buf d)) (in_uint w)
        | TBool => (reset d, VBool (negb (String.eqb (buf d) "0")), Value)
        | _ => (d, cur, Failed UnmarshalTypeError)
        end
  end.

(** [io.ReadFull], and what the caller makes of its error. *)
Definition read (n : nat) (d : dec) : result error (string * dec) :=
  match split_at n (rest d) with
  | Some (b, r) => Ok (b, mkDec r (Offset d + Z.of_nat n) (buf d))
  | None => Err (SyntaxError (Offset d + len (rest d)) (if String.eqb (rest d) "" then CutShort else IoError))
  end.

Fixpoint byte_vals (s : string) : list val := match s with "" => [] | String c s' => VInt (byte_at c) :: byte_vals s' end.

(** [reflect.Copy]. *)
Definition copy_into (l src : list val) : list val := firstn (length l) src ++ skipn (length src) l.

Definition parseString (t : ty) (cur : val) (d : dec) : res :=
  match parseStringLength d with
  | Thrown e => (d, cur, Panicked e)
  | Returned e d => (d, cur, Failed e)
  | Length n d =>
      match read n d with
      | Err e => (reset d, cur, Panicked e)
      | Ok (b, d) =>
          let d := reset d in
          match t, cur with
          | TString, _ => (d, VString b, Value)
          | TSlice (TUint W8), _ => (d, VSeq (byte_vals b), Value)
          | TArray _ (TUint W8), VSeq l => (d, VSeq (copy_into l (byte_vals b)), Value)
          | TBool, _ => (d, VBool (default (negb (n =? 0)%nat) (ParseBool b)), Value)
          | _, _ => (d, cur, Failed UnmarshalTypeError)
          end
      end
  end.

Definition seq_of (v : val) : list val := match v with VSeq l => l | _ => [] end.

(** The elements of a list, into a slice that grows or an array that does not. *)
Fixpoint list_loop (rec : ty -> val -> dec -> res) (iface : dec -> got) (e : ty) (grows : bool) (fuel : nat) (i : nat) (l : list val) (d : dec) :
    dec * list val * nat * outcome :=
  match fuel with
  | O => (d, l, i, Unfinished)
  | S k =>
      let l := if grows && (length l <=? i)%nat then (l ++ [zero e])%list else l in
      match l !! i with
      | Some x =>
          match rec e x d with
          | (d, x, Value) => list_loop rec iface e grows k (S i) (<[i := x]> l) d
          | (d, x, o) => (d, <[i := x]> l, i, o)
          end
      | None =>
          match iface d with
          | Got _ d => list_loop rec iface e grows k (S i) l d
          | Ended d => (d, l, i, End)
          | Threw er => (d, l, i, Panicked er)
          | Spent => (d, l, i, Unfinished)
          end
      end
  end.

(** [parseList] into a slice or an array. *)
Definition parseSeq (rec : ty -> val -> dec -> res) (iface : dec -> got) (fuel : nat) (e : ty) (grows : bool) (cur : val) (d : dec) : res :=
  match list_loop rec iface e grows fuel 0 (seq_of cur) d with
  | (d, l, i, End) =>
      let l := if grows then take i l else (take i l ++ replicate (length l - i) (zero e))%list in
      (d, VSeq l, Value)
  | (d, l, _, o) => (d, VSeq l, o)
  end.

Definition parseList (rec : ty -> val -> dec -> res) (iface : dec -> got) (fuel : nat) (t : ty) (cur : val) (d : dec) : res :=
  match t with
  | TSlice e => parseSeq rec iface fuel e true cur d
  | TArray _ e => parseSeq rec iface fuel e false cur d
  | _ =>
      match parseSeq rec iface fuel t true VNil d with
      | (d, VSeq [v], Value) => (d, v, Value)
      | (d, _, Value) => (d, cur, Failed UnmarshalTypeError)
      | (d, _, o) => (d, cur, o)
      end
  end.

Fixpoint map_set (k : string) (v : val) (m : list (string * val)) : list (string * val) :=
  match m with
  | [] => [(k, v)]
  | (k', v') :: m' => if String.eqb k k' then (k, v) :: m' else if str_lt k k' then (k, v) :: m else (k', v') :: map_set k v m'
  end.

Definition map_of (v : val) : list (string * val) := match v with VMap m => m | _ => [] end.

(** [getDictField]: the type of the value, whether its tag ignores type errors, and where it goes; or
    nowhere. *)
Definition getDictField (t : ty) (key : string) : option (ty * bool * (val -> val -> val)) :=
  match t with
  | TMap e => Some (e, false, fun m x => VMap (map_set key x (map_of m)))
  | TStruct fs =>
      match getStructFieldForKey fs key 0 with
      | Some (i, f) => Some (FieldType f, IgnoreUnmarshalTypeError (parseTag (Tag f)),
          fun s x => match s with VStruct l => VStruct (<[i := x]> l) | _ => s end)
      | None => None
      end
  | _ => None
  end.

Fixpoint dict_loop (rec : ty -> val -> dec -> res) (iface : dec -> got) (t : ty) (fuel : nat) (cur : val) (d : dec) : res :=
  match fuel with
  | O => (d, cur, Unfinished)
  | S k =>
      match rec TString (VString "") d with
      | (d, _, End) => (d, cur, Value)
      | (d, _, Failed e) => (d, cur, Failed (Wrapped e))
      | (d, VString key, Value) =>
          match getDictField t key with
          | None =>
              match iface d with
              | Got _ d => dict_loop rec iface t k cur d
              | Ended d => (d, cur, Failed NotDiscarded)
              | Threw e => (d, cur, Panicked e)
              | Spent => (d, cur, Unfinished)
              end
          | Some (ft, ignores, put) =>
              match rec ft (zero ft) d with
              | (d, x, Value) => dict_loop rec iface t k (put cur x) d
              | (d, x, Failed e) =>
                  if is_type_error e && ignores then dict_loop rec iface t k (put cur x) d else (d, cur, Failed (Wrapped e))
              | (d, _, End) => (d, cur, Failed MissingValue)
              | (d, _, o) => (d, cur, o)
              end
          end
      | (d, _, o) => (d, cur, o)
      end
  end.

Definition parseDict (rec : ty -> val -> dec -> res) (iface : dec -> got) (fuel : nat) (t : ty) (cur : val) (d : dec) : res :=
  match t with
  | TMap _ | TStruct _ => dict_loop rec iface t fuel cur d
  | _ => (d, cur, Failed DictInto)
  end.

(** The switch of [parseValue], on a value that is no pointer to a coder of its own. *)
Definition parse_kind (rec : ty -> val -> dec -> res) (iface : dec -> got) (fuel : nat) (t : ty) (cur : val) (d : dec) : res :=
  match readByte d with
  | None => (d, cur, Failed EOF)
  | Some (b, d) =>
      if Ascii.eqb b "e" then (d, cur, End)
      else if Ascii.eqb b "d" then parseDict rec iface fuel t cur d
      else if Ascii.eqb b "l" then parseList rec iface fuel t cur d
      else if Ascii.eqb b "i" then parseInt t cur d
      else if digit b then parseString t cur (write (String b "") (reset d))
      else (d, cur, Panicked (SyntaxError (Offset d - 1) (UnknownType b)))
  end.

(** [parseUnmarshaler] with [UnmarshalBencode] of [Bytes], the common case, and the rest. *)
Definition parse_in (rec : ty -> val -> dec -> res) (iface : dec -> got) (fuel : nat) (t : ty) (cur : val) (d : dec) : res :=
  match t with
  | TBytes =>
      match readOneValue (S fuel) (reset d) with
      | One d => (d, VBytes (buf d), Value)
      | NoOne d => parse_kind rec iface fuel t cur d
      | OneThrew e => (d, cur, Panicked e)
      | OneSpent => (d, cur, Unfinished)
      end
  | TAny =>
      match iface d with
      | Got i d => (d, VAny i, Value)
      | Ended d => (d, cur, Panicked Reflection)
      | Threw e => (d, cur, Panicked e)
      | Spent => (d, cur, Unfinished)
      end
  | _ => parse_kind rec iface fuel t cur d
  end.

Fixpoint parseValue (fuel : nat) (t : ty) (cur : val) (d : dec) : res :=
  match fuel with
  | O => (d, cur, Unfinished)
  | S k =>
      let go := parse_in (parseValue k) (parseValueInterface fuel) k in
      match t with
      | TPtr e => let '(d, v, o) := go e (match cur with VPtr v => v | _ => zero e end) d in (d, VPtr v, o)
      | _ => go t cur d
      end
  end.

(** [Decoder.Decode] into the variable holding [cur]. *)
Definition Decode (t : ty) (cur : val) (d : dec) : dec * val * answer :=
  match parseValue (S (String.length (rest d))) t cur d with
  | (d, v, Value) => (d, v, NoError)
  | (d, v, End) => (d, v, Error (SyntaxError (Offset d - 1) LoneE))
  | (d, v, Failed e) => (d, v, Error e)
  | (d, v, Panicked e) => (d, v, Error (match e with EOF => UnexpectedEOF | _ => e end))
  | (d, v, Unfinished) => (d, v, OutOfFuel)
  end.
End coder.

Definition Unmarshal (data : string) (t : ty) (cur : val) : val * answer :=
  match Decode 0 t cur (mkDec data 0 "") with
  | (d, v, NoError) => (v, if (String.length (rest d) =? 0)%nat then NoError else Error (TrailingBytes (String.length (rest d))))
  | (_, v, a) => (v, a)
  end.

(** ** Encoding *)

Inductive encode_error := MarshalerError | NilMarshaler | ReflectError.

(** A nil marshaler is no error but a crash: the method is called on it. *)
Abbreviation written := (result encode_error string).

Definition reflectString (s : string) : string := itoa (len s) +:+ ":" +:+ s.

Fixpoint concat_written (l : list written) : written :=
  match l with
  | [] => Ok ""
  | Ok s :: l' => match concat_written l' with Ok s' => Ok (s +:+ s') | Err e => Err e end
  | Err e :: _ => Err e
  end.

Definition within (a b : string) (w : written) : written := match w with Ok s => Ok (a +:+ s +:+ b) | Err e => Err e end.

Definition pair_lt {A} (x y : string * A) : bool := str_lt x.1 y.1.

(** Keys with their values' text, sorted by key. *)
Definition write_dict (l : list (string * written)) : written :=
  within "d" "e" (concat_written (map (fun x => within (reflectString x.1) "" x.2) (sort_by pair_lt l))).

Definition write_list (l : list written) : written := within "l" "e" (concat_written l).

Fixpoint write_item (i : item) : written :=
  match i with
  | IInt n => Ok ("i" +:+ itoa n +:+ "e")
  | IStr s => Ok (reflectString s)
  | IList l => write_list (map write_item l)
  | IDict l => write_dict (map (fun x => (x.1, write_item x.2)) l)
  end.

(** The bytes of a slice of bytes. *)
Fixpoint bytes_of_vals (l : list val) : string :=
  match l with VInt n :: l' => String (byte_of n) (bytes_of_vals l') | _ => "" end.

Section encoder.
Context (IsEmptyValue : ty -> val -> bool).

(** [makeEncodeFields], with what each field is written as. *)
Definition encode_field (f : field) (v : val) (w : written) : list (string * written) :=
  let tv := parseTag (Tag f) in
  if Ignore tv || (OmitEmpty tv && IsEmptyValue (FieldType f) v) then [] else [(tag_key f, w)].

Fixpoint reflectValue (t : ty) (v : val) : written :=
  match t, v with
  | TBytes, VBytes s => if String.eqb s "" then Err MarshalerError else Ok s
  | TPtr TBytes, VNil => Err NilMarshaler
  | TBool, VBool b => Ok (if b then "i1e" else "i0e")
  | TInt _, VInt n | TUint _, VInt n => Ok ("i" +:+ itoa n +:+ "e")
  | TString, VString s => Ok (reflectString s)
  | TStruct fs, VStruct vs =>
      write_dict ((fix fields (fs : list field) (vs : list val) : list (string * written) :=
        match fs, vs with
        | (mkField n tg t as f) :: fs', v :: vs' => app (encode_field f v (reflectValue t v)) (fields fs' vs')
        | _, _ => []
        end) fs vs)
  | TMap _, VNil => Ok "de"
  | TMap e, VMap l => write_dict (map (fun x => (x.1, reflectValue e x.2)) l)
  | TSlice (TUint W8), VNil => Ok (reflectString "")
  | TSlice (TUint W8), VSeq l | TArray _ (TUint W8), VSeq l => Ok (reflectString (bytes_of_vals l))
  | TSlice _, VNil => Ok "le"
  | TSlice e, VSeq l => write_list (map (reflectValue e) l)
  | TArray _ _, VSeq _ => Err ReflectError
  | TAny, VAny i => write_item i
  | TPtr e, VNil => reflectValue e (zero e)
  | TPtr e, VPtr v => reflectValue e v
  | _, _ => Err ReflectError
  end.

(** [Marshal]: a nil interface is written as nothing. *)
Definition Marshal (t : ty) (v : val) : written :=
  match t, v with TAny, VNil => Ok "" | _, _ => reflectValue t v end.
End encoder.
