(* ===== verification/Coding.v ===== *)
(** * What the bencode coder promises: internal/bt/bencode

    Decoding ends, reads forward and counts what it reads; it leaves every variable
    holding a value of its type, whatever the input and however it fails; an empty
    interface is read from the one text that is written for it; and a typed value comes
    back as it was written. *)
From stdpp Require Import base list strings sorting.
From Stdlib Require Import ZArith Lia Ascii.
From S2P Require Import Prelude GoStr Decimal Bencode.

#[local] Open Scope string_scope.
#[local] Open Scope Z_scope.

(** ** Reading forward *)

(** [d'] is [d] with some bytes read. *)
Definition moves (d d' : dec) : Prop := exists p, rest d = p +:+ rest d' /\ Offset d' = Offset d + len p.
Definition steps (d d' : dec) : Prop := moves d d' /\ (String.length (rest d') < String.length (rest d))%nat.

Definition size (d : dec) : nat := String.length (rest d).

Lemma len_app a b : len (a +:+ b) = len a + len b.
Proof. unfold len. rewrite string_app_length. lia. Qed.

Lemma moves_refl d : moves d d.
Proof. exists "". split; [done|]. unfold len. cbn. lia. Qed.

Lemma moves_trans a b c : moves a b -> moves b c -> moves a c.
Proof. intros (p & Hp & Ho) (q & Hq & Ho'). exists (p +:+ q). rewrite string_app_assoc, <- Hq, len_app. split; [done|lia]. Qed.

Lemma moves_size a b : moves a b -> (size b <= size a)%nat.
Proof. intros (p & Hp & _). unfold size. rewrite Hp, string_app_length. lia. Qed.

Lemma steps_moves a b : steps a b -> moves a b.
Proof. by intros []. Qed.

Lemma steps_l a b c : steps a b -> moves b c -> steps a c.
Proof. intros [Hm Hs] Hb. split; [by eapply moves_trans|]. apply moves_size in Hb. unfold size in *. lia. Qed.

Lemma steps_r a b c : moves a b -> steps b c -> steps a c.
Proof. intros Hb [Hm Hs]. split; [by eapply moves_trans|]. apply moves_size in Hb. unfold size in *. lia. Qed.

Lemma moves_same a b b' : moves a b -> rest b' = rest b -> Offset b' = Offset b -> moves a b'.
Proof. intros (p & Hp & Ho) Hr Hoff. exists p. by rewrite Hr, Hoff. Qed.

Lemma steps_same a b b' : steps a b -> rest b' = rest b -> Offset b' = Offset b -> steps a b'.
Proof. intros [Hm Hs] Hr Ho. split; [by eapply moves_same|by rewrite Hr]. Qed.

Create HintDb reads.
#[export] Hint Resolve moves_refl moves_trans steps_moves steps_l steps_r : reads.

Lemma readByte_steps d b d' : readByte d = Some (b, d') -> steps d d'.
Proof.
  unfold readByte. destruct (rest d) as [|c r] eqn:Hr; [done|]. intros [= <- <-]. split.
  - exists (String c ""). cbn [rest Offset]. rewrite Hr. split; [done|]. unfold len. cbn. lia.
  - rewrite Hr. cbn. lia.
Qed.

Lemma until_spec sep s p r : until sep s = (p, Some r) -> s = p +:+ String sep r.
Proof.
  revert p. induction s as [|c s IH]; intros p; [done|]. cbn [until]. destruct (Ascii.eqb_spec c sep) as [->|].
  - by intros [= <- <-].
  - destruct (until sep s) as [q o]. intros [= <- ->]. cbn. by rewrite (IH q).
Qed.

Lemma readUntil_steps sep d d' : readUntil sep d = Ok d' -> steps d d'.
Proof.
  unfold readUntil. destruct (until sep (rest d)) as [p [r|]] eqn:Hu; [|done]. intros [= <-]. apply until_spec in Hu. split.
  - exists (p +:+ String sep ""). cbn [rest Offset]. rewrite len_app, string_app_assoc. split; [done|]. unfold len. cbn. lia.
  - cbn [rest]. rewrite Hu, string_app_length. cbn. lia.
Qed.

Lemma split_at_spec n s a b : split_at n s = Some (a, b) -> s = a +:+ b /\ String.length a = n.
Proof.
  revert s a. induction n as [|n IH]; intros s a.
  - destruct s; intros [= <- <-]; done.
  - destruct s as [|c s]; [done|]. cbn [split_at]. destruct (split_at n s) as [[x y]|] eqn:E; [|done]. intros [= <- <-].
    apply IH in E as [-> <-]. done.
Qed.

Lemma split_at_app a b : split_at (String.length a) (a +:+ b) = Some (a, b).
Proof. induction a as [|c a IH]; [by destruct b|]. simpl. by rewrite IH. Qed.

Lemma skip_moves n d a r b' : split_at n (rest d) = Some (a, r) -> moves d (mkDec r (Offset d + Z.of_nat n) b').
Proof. intros [Hr Hn]%split_at_spec. exists a. cbn [rest Offset]. unfold len. by rewrite Hn. Qed.

Section reading.
Context (M : Z).

Lemma parseStringLength_moves d :
  match parseStringLength M d with Length _ d' | Returned _ d' => steps d d' | Thrown _ => True end.
Proof.
  unfold parseStringLength. destruct (readUntil ":" d) as [d1|] eqn:Hr; [|done]. apply readUntil_steps in Hr.
  destruct (negb _); [done|]. destruct (ParseInt _); [|done]. destruct (_ <? _); by eapply steps_same.
Qed.

Definition got_good (n : nat) (d : dec) (g : got) : Prop :=
  match g with Got _ d' | Ended d' => steps d d' | Threw _ => True | Spent => (n <= size d)%nat end.

Lemma parseIntInterface_good n d : got_good n d (parseIntInterface d).
Proof.
  unfold parseIntInterface. destruct (readUntil "e" d) as [d1|] eqn:Hr; [|done]. apply readUntil_steps in Hr.
  destruct (negb _); [done|]. destruct (int_text _); [|done]. cbn. by eapply steps_same.
Qed.

Lemma parseStringInterface_good n d : got_good n d (parseStringInterface M d).
Proof.
  unfold parseStringInterface. pose proof (parseStringLength_moves d) as Hl. destruct (parseStringLength M d) as [k d1|e d1|e]; [|done..].
  unfold readBytes. destruct (split_at k (rest d1)) as [[b r]|] eqn:Hs; [|done]. cbn. eapply steps_l; [done|]. by eapply skip_moves.
Qed.

(** A step of a loop that had [n] or more left to do. *)
Ltac fewer := unfold size in *; repeat match goal with H : steps _ _ |- _ => destruct H end; lia.

Section loops.
Context (parse : dec -> got) (n : nat) (Hparse : forall d, got_good n d (parse d)).

Lemma parseListInterface_good k l d : (k <= n)%nat -> got_good k d (parseListInterface parse k l d).
Proof using Hparse.
  revert l d. induction k as [|k IH]; intros l d Hk; [cbn; lia|]. cbn [parseListInterface]. specialize (Hparse d).
  destruct (parse d) as [x d1|d1|e|]; cbn in *; [|done|done|lia].
  specialize (IH (l ++ [x])%list d1 ltac:(lia)). destruct (parseListInterface _ _ _ _); cbn in *; eauto with reads. fewer.
Qed.

Lemma parseDictInterface_good k last l d : (k <= n)%nat -> got_good k d (parseDictInterface parse k last l d).
Proof using Hparse.
  revert last l d. induction k as [|k IH]; intros last l d Hk; [cbn; lia|]. cbn [parseDictInterface]. pose proof (Hparse d) as H1.
  destruct (parse d) as [x d1|d1|e|]; cbn in *; [|done|done|lia]. destruct x as [z|key|z|z]; try done.
  destruct (match last with Some _ => _ | None => _ end); [done|]. pose proof (Hparse d1) as H2.
  destruct (parse d1) as [y d2|d2|e|]; cbn in *; [|done|done|fewer].
  specialize (IH (Some key) (l ++ [(key, y)])%list d2 ltac:(lia)).
  destruct (parseDictInterface _ _ _ _ _); cbn in *; eauto 6 with reads. fewer.
Qed.
End loops.

Lemma parseValueInterface_good n d : got_good n d (parseValueInterface M n d).
Proof.
  revert d. induction n as [|n IH]; intros d; [cbn; lia|]. cbn [parseValueInterface].
  destruct (readByte d) as [[b d1]|] eqn:Hb; [|done]. apply readByte_steps in Hb.
  assert (forall g, got_good n d1 g -> got_good (S n) d g) as Hgo.
  { intros [] Hg; cbn in *; eauto with reads. fewer. }
  destruct (Ascii.eqb b "e"); [done|]. destruct (Ascii.eqb b "d"); [by apply Hgo, (parseDictInterface_good _ n)|].
  destruct (Ascii.eqb b "l"); [by apply Hgo, (parseListInterface_good _ n)|].
  destruct (Ascii.eqb b "i"); [by apply Hgo, parseIntInterface_good|]. destruct (digit b); [|done].
  apply Hgo. pose proof (parseStringInterface_good n (write (String b "") d1)) as Hs.
  destruct (parseStringInterface _ _); cbn in *; [|done..]. destruct Hs as [[p Hp] Hl]. split; [by exists p|done].
Qed.

Definition one_good (n : nat) (d : dec) (o : one) : Prop :=
  match o with One d' => steps d d' | NoOne d' => d' = d | OneThrew _ => True | OneSpent => (n <= size d)%nat end.

Lemma read_values_some read k d d' : read_values read k d <> NoOne d'.
Proof. revert d. induction k as [|k IH]; intros d; [done|]. cbn. destruct (read d); [apply IH|by destruct (readByte _) as [[]|]|done|done]. Qed.

Lemma read_values_good read n k d : (forall d, one_good n d (read d)) -> (k <= n)%nat -> one_good k d (read_values read k d).
Proof.
  intros Hr. revert d. induction k as [|k IH]; intros d Hk; [cbn; lia|]. cbn [read_values]. pose proof (Hr d) as H1.
  destruct (read d) as [d1|d1|e|]; cbn in *; [|subst d1|done|lia].
  - specialize (IH d1 ltac:(lia)). destruct (read_values _ _ _) as [d2|d2|e|] eqn:E; cbn in *; eauto with reads; [|fewer].
    by apply read_values_some in E.
  - destruct (readByte d) as [[b d2]|] eqn:Hb; [|done]. apply readByte_steps in Hb. by eapply steps_same.
Qed.

Lemma readOneValue_good n d : one_good n d (readOneValue n d).
Proof.
  revert d. induction n as [|n IH]; intros d; [cbn; lia|]. cbn [readOneValue]. destruct (rest d) as [|b r] eqn:Hr; [done|].
  set (d1 := mkDec r _ _). assert (steps d d1) as Hb.
  { apply (steps_same d (mkDec r (Offset d + 1) (buf d))); [|done..]. apply (readByte_steps d b). unfold readByte. by rewrite Hr. }
  assert (forall o, one_good n d1 o -> (forall d', o <> NoOne d') -> one_good (S n) d o) as Hgo.
  { clearbody d1. intros [d2|d2|e|] Ho Hn; cbn in *; [by eauto with reads|by destruct (Hn d2)|done|fewer]. }
  destruct (Ascii.eqb b "e"); [done|]. destruct (_ || _).
  { apply Hgo; [by apply (read_values_good _ n)|intros d'; apply read_values_some]. }
  destruct (Ascii.eqb b "i").
  { destruct (readUntil "e" d1) as [d2|] eqn:Hu; [|done]. apply readUntil_steps in Hu. cbn.
    apply (steps_same d d2); [by eapply steps_l; [|apply steps_moves]|done..]. }
  destruct (digit b); [|done]. destruct (readUntil ":" d1) as [d2|] eqn:Hu; [|done]. apply readUntil_steps in Hu.
  destruct (ParseInt _) as [z|]; [|done]. destruct (split_at _ _) as [[a r']|] eqn:Hs; [|done]. cbn.
  apply (steps_l d d1); [done|]. apply (moves_trans d1 d2); [by apply steps_moves|].
  pose proof (split_at_spec _ _ _ _ Hs) as [_ Hn]. unfold len. rewrite Hn. by eapply skip_moves.
Qed.

(** *** Into a type *)

Definition out_good (n : nat) (d d' : dec) (o : outcome) : Prop :=
  match o with Value | End => steps d d' | Failed _ => moves d d' | Panicked _ => True | Unfinished => (n <= size d)%nat end.
Definition res_good (n : nat) (d : dec) (r : res) : Prop := out_good n d r.1.1 r.2.

Lemma out_good_steps n d d1 d' o : steps d d1 -> out_good n d1 d' o -> out_good (S n) d d' o.
Proof. destruct o; cbn; eauto with reads. intros. fewer. Qed.

Lemma out_good_mono n k d d' o : (k <= n)%nat -> out_good n d d' o -> out_good k d d' o.
Proof. destruct o; cbn; [done..|lia]. Qed.

Lemma parseInt_good n t cur d : res_good n d (parseInt t cur d).
Proof.
  unfold res_good, parseInt. destruct (readUntil "e" d) as [d1|] eqn:Hr; [|done]. apply readUntil_steps in Hr.
  destruct (negb _); [by apply steps_moves|].
  assert (forall f : Z -> bool, forall x : option Z, out_good n d (match x with None => (d1, cur, Panicked (SyntaxError (Offset d - 1) BadNumber))
      | Some z => if f z then (reset d1, VInt z, Value) else (d1, cur, Failed UnmarshalTypeError) end).1.1
    (match x with None => (d1, cur, Panicked (SyntaxError (Offset d - 1) BadNumber))
      | Some z => if f z then (reset d1, VInt z, Value) else (d1, cur, Failed UnmarshalTypeError) end).2) as Hnum.
  { intros f [z|]; [|done]. destruct (f z); cbn; [by eapply steps_same|by apply steps_moves]. }
  destruct t; try apply Hnum; cbn; first [by apply steps_moves|by eapply steps_same].
Qed.

Lemma parseString_good n t cur d : res_good n d (parseString M t cur d).
Proof.
  unfold res_good, parseString. pose proof (parseStringLength_moves d) as Hl. destruct (parseStringLength M d) as [k d1|e d1|e]; [|by apply steps_moves|done].
  unfold Bencode.read. destruct (split_at k (rest d1)) as [[b r]|] eqn:Hs; [|done]. apply (skip_moves _ _ _ _ "") in Hs.
  assert (steps d (reset (mkDec r (Offset d1 + Z.of_nat k) (buf d1)))) as Hd by (by eapply steps_l).
  repeat case_match; cbn; first [exact Hd|by apply steps_moves].
Qed.

Section recursion.
Context (rec : ty -> val -> dec -> res) (iface : dec -> got) (n : nat).
Context (Hrec : forall t cur d, res_good n d (rec t cur d)) (Hiface : forall d, got_good n d (iface d)).

Lemma list_loop_good e grows k i l d : (k <= n)%nat ->
  let '(d', _, _, o) := list_loop rec iface e grows k i l d in out_good k d d' o /\ o <> Value.
Proof using Hrec Hiface.
  revert i l d. induction k as [|k IH]; intros i l d Hk; [split; [cbn; lia|done]|]. cbn [list_loop].
  set (l1 := if grows && _ then _ else _). destruct (l1 !! i) as [x|].
  - pose proof (Hrec e x d) as H1. destruct (rec e x d) as [[d1 y] [| |er|er|]]; unfold res_good in H1; cbn [fst snd] in H1.
    + specialize (IH (S i) (<[i:=y]> l1) d1 ltac:(lia)). destruct (list_loop _ _ _ _ _ _ _ _) as [[[d2 ?] ?] o].
      destruct IH as [IH Ho]. split; [by eapply out_good_steps|done].
    + done.
    + done.
    + done.
    + split; [cbn in *; lia|done].
  - pose proof (Hiface d) as H1. destruct (iface d) as [y d1|d1|er|]; cbn [got_good] in H1.
    + specialize (IH (S i) l1 d1 ltac:(lia)). destruct (list_loop _ _ _ _ _ _ _ _) as [[[d2 ?] ?] o].
      destruct IH as [IH Ho]. split; [by eapply out_good_steps|done].
    + done.
    + done.
    + split; [cbn; lia|done].
Qed.

Lemma parseSeq_good e grows cur d : res_good n d (parseSeq rec iface n e grows cur d).
Proof using Hrec Hiface.
  unfold res_good, parseSeq. pose proof (list_loop_good e grows n 0 (seq_of cur) d (le_n _)) as H.
  destruct (list_loop _ _ _ _ _ _ _ _) as [[[d1 l] i] o]. destruct H as [H Ho]. by destruct o.
Qed.

Lemma parseList_good t cur d : res_good n d (parseList rec iface n t cur d).
Proof using Hrec Hiface.
  assert (res_good n d match parseSeq rec iface n t true VNil d with
      | (d, VSeq [v], Value) => (d, v, Value)
      | (d, _, Value) => (d, cur, Failed UnmarshalTypeError)
      | (d, _, o) => (d, cur, o) end) as Hone.
  { pose proof (parseSeq_good t true VNil d) as H. unfold res_good in *. destruct (parseSeq _ _ _ _ _ _ _) as [[d1 v] o].
    destruct o; cbn [fst snd] in *; [|repeat case_match; done..]. cbn in H.
    destruct v as [| | | |[|v [|]]| | | | |]; cbn; eauto with reads. }
  destruct t; cbn [parseList]; first [exact Hone|apply parseSeq_good].
Qed.

Lemma dict_loop_good t k cur d : (k <= n)%nat -> res_good k d (dict_loop rec iface t k cur d).
Proof using Hrec Hiface.
  unfold res_good. revert cur d. induction k as [|k IH]; intros cur d Hk; [cbn; lia|]. cbn [dict_loop].
  pose proof (Hrec TString (VString "") d) as H1. unfold res_good in H1. destruct (rec TString _ d) as [[d1 kv] o]. cbn [fst snd] in H1.
  destruct o; [|by destruct kv|by destruct kv|by destruct kv|destruct kv; cbn in *; lia].
  destruct kv as [| |key| | | | | | |]; cbn [fst snd]; try by exact H1.
  destruct (getDictField t key) as [[[ft ign] put]|].
  - pose proof (Hrec ft (zero ft) d1) as H2. unfold res_good in H2. destruct (rec ft _ d1) as [[d2 x] o2]. cbn [fst snd] in H2.
    destruct o2 as [| |e|e|]; cbn [fst snd out_good] in *.
    + eapply out_good_steps; [exact (steps_l _ _ _ H1 (steps_moves _ _ H2))|]. apply IH. lia.
    + apply steps_moves. by eapply steps_l; [|apply steps_moves].
    + destruct (is_type_error e && ign); [|by apply steps_moves; eapply steps_l].
      eapply out_good_steps; [exact (steps_l _ _ _ H1 H2)|]. apply IH. lia.
    + done.
    + fewer.
  - pose proof (Hiface d1) as H2. destruct (iface d1) as [y d2|d2|er|]; cbn [got_good fst snd out_good] in *.
    + eapply out_good_steps; [exact (steps_l _ _ _ H1 (steps_moves _ _ H2))|]. apply IH. lia.
    + apply steps_moves. by eapply steps_l; [|apply steps_moves].
    + done.
    + fewer.
Qed.

Lemma parse_kind_good t cur d : res_good (S n) d (parse_kind M rec iface n t cur d).
Proof using Hrec Hiface.
  unfold parse_kind. destruct (readByte d) as [[b d1]|] eqn:Hb; [|by apply moves_refl]. apply readByte_steps in Hb.
  assert (forall r, res_good n d1 r -> res_good (S n) d r) as Hgo by (intros r; by apply out_good_steps).
  destruct (Ascii.eqb b "e"); [done|].
  destruct (Ascii.eqb b "d").
  { apply Hgo. destruct t; try apply moves_refl; by apply dict_loop_good. }
  destruct (Ascii.eqb b "l"); [by apply Hgo, parseList_good|]. destruct (Ascii.eqb b "i"); [by apply Hgo, parseInt_good|].
  destruct (digit b); [|done]. apply Hgo. pose proof (parseString_good n t cur (write (String b "") (reset d1))) as Hs.
  unfold res_good in *. destruct (parseString _ _ _ _) as [[d2 v] o]. by destruct o.
Qed.
End recursion.

Lemma parse_in_good n t cur d :
  (forall t cur d, res_good n d (parseValue M n t cur d)) ->
  res_good (S n) d (parse_in M (parseValue M n) (parseValueInterface M (S n)) n t cur d).
Proof.
  intros IH. assert (forall d, got_good n d (parseValueInterface M (S n) d)) as Hi.
  { intros d0. pose proof (parseValueInterface_good (S n) d0) as H. destruct (parseValueInterface M (S n) d0); cbn [got_good] in *; [done..|lia]. }
  destruct t; cbn [parse_in]; try by apply parse_kind_good.
  - unfold res_good. pose proof (parseValueInterface_good (S n) d) as H. by destruct (parseValueInterface M (S n) d).
  - pose proof (readOneValue_good (S n) (reset d)) as H. destruct (readOneValue (S n) (reset d)) as [d1|d1|e|]; cbn [one_good] in H; try done.
    subst d1. exact (parse_kind_good _ _ n IH Hi TBytes cur (reset d)).
Qed.

Lemma parseValue_good n t cur d : res_good n d (parseValue M n t cur d).
Proof.
  revert t cur d. induction n as [|n IH]; intros t cur d; [unfold res_good; cbn; lia|]. cbn [parseValue].
  destruct t; try by apply parse_in_good.
  pose proof (parse_in_good n t (match cur with VPtr v => v | _ => zero t end) d IH) as H.
  by destruct (parse_in _ _ _ _ _ _ _) as [[d1 v] o].
Qed.

Lemma Decode_forward t cur d :
  let '(d', _, a) := Decode M t cur d in a <> OutOfFuel /\ (a = NoError -> steps d d').
Proof.
  unfold Decode. pose proof (parseValue_good (S (size d)) t cur d) as H. unfold res_good, size in H.
  destruct (parseValue _ _ _ _ _) as [[d1 v] o]. destruct o; cbn [fst snd out_good] in H; try (split; [done|done]).
  exfalso. unfold size in H. lia.
Qed.
End reading.

(** ** Values of their types *)

Fixpoint item_ok (i : item) : Prop :=
  match i with
  | IInt _ | IStr _ => True
  | IList l => foldr (fun x P => item_ok x /\ P) True l
  | IDict l => StronglySorted (fun a b => str_lt a b = true) (map fst l) /\ foldr (fun x P => item_ok x.2 /\ P) True l
  end.

Fixpoint has_type (t : ty) (v : val) : Prop :=
  match t, v with
  | TInt w, VInt n => in_int w n = true
  | TUint w, VInt n => in_uint w n = true
  | TBool, VBool _ | TString, VString _ | TBytes, VBytes _ => True
  | (TSlice _ | TMap _ | TPtr _ | TAny), VNil => True
  | TSlice e, VSeq l => Forall (has_type e) l
  | TArray n e, VSeq l => length l = n /\ Forall (has_type e) l
  | TMap e, VMap l => StronglySorted (fun a b => str_lt a b = true) (map fst l) /\ Forall (fun x => has_type e x.2) l
  | TStruct fs, VStruct vs =>
      (fix fields (fs : list field) (vs : list val) : Prop :=
        match fs, vs with
        | [], [] => True
        | mkField _ _ t :: fs', v :: vs' => has_type t v /\ fields fs' vs'
        | _, _ => False
        end) fs vs
  | TPtr e, VPtr v => has_type e v
  | TAny, VAny i => item_ok i
  | _, _ => False
  end.

Section ty_ind.
Context (P : ty -> Prop).
Context (HInt : forall w, P (TInt w)) (HUint : forall w, P (TUint w)) (HBool : P TBool) (HString : P TString).
Context (HSlice : forall e, P e -> P (TSlice e)) (HArray : forall n e, P e -> P (TArray n e)) (HMap : forall e, P e -> P (TMap e)).
Context (HStruct : forall fs, Forall (fun f => P (FieldType f)) fs -> P (TStruct fs)).
Context (HPtr : forall e, P e -> P (TPtr e)) (HAny : P TAny) (HBytes : P TBytes).

Fixpoint ty_induction (t : ty) : P t :=
  match t with
  | TInt w => HInt w | TUint w => HUint w | TBool => HBool | TString => HString
  | TSlice e => HSlice e (ty_induction e) | TArray n e => HArray n e (ty_induction e) | TMap e => HMap e (ty_induction e)
  | TStruct fs => HStruct fs ((fix all (fs : list field) : Forall (fun f => P (FieldType f)) fs :=
      match fs with
      | [] => List.Forall_nil _
      | f :: fs' => List.Forall_cons _ f fs' (match f return P (FieldType f) with mkField _ _ t => ty_induction t end) (all fs')
      end) fs)
  | TPtr e => HPtr e (ty_induction e) | TAny => HAny | TBytes => HBytes
  end.
End ty_ind.

(** A struct has a value of its type for each field. *)
Lemma has_type_struct fs vs : has_type (TStruct fs) (VStruct vs) <-> Forall2 (fun f v => has_type (FieldType f) v) fs vs.
Proof.
  cbn [has_type]. revert vs. induction fs as [|[nm tg t] fs IH]; intros [|v vs]; split; try done; try by inversion 1.
  - intros [Hv Hvs]. constructor; [done|by apply IH].
  - intros [Hv Hvs]%Forall2_cons. split; [done|by apply IH].
Qed.

Lemma zero_typed t : has_type t (zero t).
Proof.
  induction t as [w|w| | |e IH|n e IH|e IH|fs IH|e IH| |] using ty_induction; try done; try by destruct w.
  - cbn. split; [apply length_replicate|]. by apply Forall_replicate.
  - apply has_type_struct. cbn. induction IH as [|f fs Hf _ IH]; cbn; by constructor.
Qed.

(** *** Order of keys *)

Lemma str_lt_trans a b c : str_lt a b = true -> str_lt b c = true -> str_lt a c = true.
Proof.
  revert b c. induction a as [|x a IH]; intros [|y b] [|z c]; cbn; try done.
  rewrite !orb_true_iff, !andb_true_iff, !Z.ltb_lt, !Z.eqb_eq. intros [H1|[H1 H1']] [H2|[H2 H2']]; [left; lia..|].
  right. split; [lia|by eapply IH].
Qed.

Lemma str_lt_irrefl a : str_lt a a = false.
Proof. induction a as [|x a IH]; [done|]. cbn. by rewrite Z.ltb_irrefl, Z.eqb_refl, IH. Qed.

Lemma byte_at_inj c d : byte_at c = byte_at d -> c = d.
Proof. intros H. by rewrite <- (byte_of_at c), H, byte_of_at. Qed.

Lemma str_lt_total a b : a <> b -> str_lt a b = false -> str_lt b a = true.
Proof.
  revert b. induction a as [|x a IH]; intros [|y b] Hn; cbn; try done.
  rewrite orb_false_iff, andb_false_iff, Z.ltb_ge, Z.eqb_neq, orb_true_iff, andb_true_iff, Z.ltb_lt, Z.eqb_eq.
  intros [H1 H2]. destruct (decide (byte_at x = byte_at y)) as [E|E]; [|left; lia]. right. split; [done|].
  apply byte_at_inj in E as ->. destruct H2 as [H2|H2]; [done|]. apply IH; [congruence|done].
Qed.

Lemma map_set_keys k v m x : x ∈ map fst (map_set k v m) -> x = k \/ x ∈ map fst m.
Proof.
  induction m as [|[k' v'] m IH]; cbn; [rewrite list_elem_of_singleton; by left|].
  destruct (String.eqb_spec k k') as [->|]; cbn; rewrite ?elem_of_cons; [tauto|]. destruct (str_lt k k'); cbn; rewrite ?elem_of_cons; tauto.
Qed.

Lemma map_set_sorted k v m :
  StronglySorted (fun a b => str_lt a b = true) (map fst m) -> StronglySorted (fun a b => str_lt a b = true) (map fst (map_set k v m)).
Proof.
  induction m as [|[k' v'] m IH]; cbn; [repeat constructor|]. intros [Hs Hk]%StronglySorted_inv.
  destruct (String.eqb_spec k k') as [->|]; [by constructor|]. destruct (str_lt k k') eqn:E; cbn.
  - constructor; [by constructor|]. constructor; [done|]. eapply List.Forall_impl; [|exact Hk]. intros z. by apply str_lt_trans.
  - constructor; [by apply IH|]. apply List.Forall_forall. intros z Hz%list_elem_of_In. apply map_set_keys in Hz as [->|Hz].
    + by apply str_lt_total.
    + apply list_elem_of_In in Hz. rewrite List.Forall_forall in Hk. by apply Hk.
Qed.

Lemma map_set_typed e k v m : has_type e v -> Forall (fun x : string * val => has_type e x.2) m -> Forall (fun x => has_type e x.2) (map_set k v m).
Proof.
  intros Hv. induction 1 as [|[k' v'] m Hx Hm IH]; cbn; [by repeat constructor|].
  destruct (String.eqb k k'); [by constructor|]. destruct (str_lt k k'); by repeat constructor.
Qed.

(** *** What is read has its type *)

Definition keys_up (l : list string) : Prop := StronglySorted (fun a b => str_lt a b = true) l.

Lemma keys_up_snoc (l : list string) o k :
  keys_up l -> last l = o -> match o with Some x => str_lt x k = true | None => True end -> keys_up (l ++ [k]).
Proof.
  intros Hl <-. destruct (last l) as [y|] eqn:E; [|intros _; destruct l using rev_ind; [by repeat constructor|by rewrite last_snoc in E]].
  intros Hk. apply last_Some in E as [l' ->]. unfold keys_up. apply sorted_snoc. split; [done|].
  apply sorted_snoc in Hl as [Hs Hy]. apply Forall_app. split; [|by constructor].
  eapply List.Forall_impl; [|exact Hy]. intros z Hz. exact (str_lt_trans _ _ _ Hz Hk).
Qed.

Definition items_ok (l : list item) : Prop := Forall item_ok l.

Lemma item_ok_list l : item_ok (IList l) <-> items_ok l.
Proof. cbn. unfold items_ok. induction l as [|x l IH]; cbn; [split; [constructor|done]|]. rewrite Forall_cons, IH. done. Qed.

Lemma item_ok_dict l : item_ok (IDict l) <-> keys_up (map fst l) /\ items_ok (map snd l).
Proof.
  cbn. unfold keys_up, items_ok. apply and_iff_compat_l. induction l as [|x l IH]; cbn; [split; [constructor|done]|]. by rewrite Forall_cons, IH.
Qed.

Definition got_ok (g : got) : Prop := match g with Got i _ => item_ok i | _ => True end.

Section typed.
Context (M : Z).

Lemma parseListInterface_ok parse k l d : (forall d, got_ok (parse d)) -> items_ok l -> got_ok (parseListInterface parse k l d).
Proof.
  intros Hp. revert l d. induction k as [|k IH]; intros l d Hl; [done|]. cbn [parseListInterface]. specialize (Hp d).
  destruct (parse d) as [x d1|d1|e|]; [|by apply item_ok_list|done..]. apply IH, Forall_app. by repeat constructor.
Qed.

Lemma parseDictInterface_ok parse k lastk l d : (forall d, got_ok (parse d)) -> item_ok (IDict l) -> last (map fst l) = lastk ->
  got_ok (parseDictInterface parse k lastk l d).
Proof.
  intros Hp. revert lastk l d. induction k as [|k IH]; intros lastk l d Hl Hlast; [done|]. cbn [parseDictInterface].
  destruct (parse d) as [x d1|d1|e|]; [|done..]. destruct x as [|key| |]; try done.
  destruct (match lastk with Some _ => _ | None => _ end) eqn:Hk; [done|]. specialize (Hp d1).
  destruct (parse d1) as [y d2|d2|e|]; [|done..]. apply IH; [|rewrite map_app; apply last_snoc].
  apply item_ok_dict in Hl as [Hu Hi]. apply item_ok_dict. rewrite !map_app. split.
  - apply (keys_up_snoc _ lastk); [done|done|]. destruct lastk; [by apply negb_false_iff in Hk|done].
  - apply Forall_app. by repeat constructor.
Qed.

Lemma parseValueInterface_ok n d : got_ok (parseValueInterface M n d).
Proof.
  revert d. induction n as [|n IH]; intros d; [done|]. cbn [parseValueInterface]. destruct (readByte d) as [[b d1]|]; [|done].
  destruct (Ascii.eqb b "e"); [done|]. destruct (Ascii.eqb b "d"); [by apply parseDictInterface_ok; [|split; [constructor|]|]|].
  destruct (Ascii.eqb b "l"); [by apply parseListInterface_ok; [|constructor]|].
  destruct (Ascii.eqb b "i"); [unfold parseIntInterface|destruct (digit b); [unfold parseStringInterface|done]]; by repeat case_match.
Qed.

Lemma byte_vals_typed s : Forall (has_type (TUint W8)) (byte_vals s).
Proof.
  induction s as [|c s IH]; cbn; constructor; [|done]. unfold in_uint. cbn. pose proof (byte_at_range c).
  destruct (Z.leb_spec 0 (byte_at c)), (Z.ltb_spec (byte_at c) 256); try done; lia.
Qed.

Lemma byte_vals_length s : length (byte_vals s) = String.length s.
Proof. induction s as [|c s IH]; cbn; [done|by rewrite IH]. Qed.

Lemma copy_into_length l src : length (copy_into l src) = length l.
Proof. unfold copy_into. rewrite length_app, length_firstn, length_skipn. lia. Qed.

Lemma parseInt_typed t cur d : has_type t cur -> has_type t (parseInt t cur d).1.2.
Proof.
  intros Hc. unfold parseInt. destruct (readUntil "e" d); [|done]. destruct (negb _); [done|]. destruct t; try done.
  - destruct (ParseInt _) as [n|]; [|done]. by destruct (in_int w n) eqn:E.
  - destruct (ParseUint _) as [n|]; [|done]. by destruct (in_uint w n) eqn:E.
Qed.

Lemma parseString_typed t cur d : has_type t cur -> has_type t (parseString M t cur d).1.2.
Proof.
  intros Hc. unfold parseString. destruct (parseStringLength M d) as [n d1|e d1|e]; [|done..]. destruct (Bencode.read n d1) as [[b d2]|e]; [|done].
  destruct t as [w|w| | |e|m e|e|fs|e| |]; try done.
  - destruct e as [|[]| | | | | | | | |]; try done. cbn. apply byte_vals_typed.
  - destruct e as [|[]| | | | | | | | |]; try done. destruct cur; try done. destruct Hc as [Hm Hl]. split; [by rewrite copy_into_length|].
    unfold copy_into. apply Forall_app. split; [|by apply Forall_drop]. by apply Forall_take, byte_vals_typed.
Qed.

Section recursion.
Context (rec : ty -> val -> dec -> res) (iface : dec -> got) (n : nat).
Context (Hrec : forall t cur d, has_type t cur -> has_type t (rec t cur d).1.2).

Lemma list_loop_typed e grows k i l d : Forall (has_type e) l ->
  let '(_, l', _, _) := list_loop rec iface e grows k i l d in Forall (has_type e) l' /\ (grows = false -> length l' = length l).
Proof using Hrec.
  revert i l d. induction k as [|k IH]; intros i l d Hl; [done|]. cbn [list_loop].
  set (l1 := if grows && _ then _ else _). assert (Forall (has_type e) l1 /\ (grows = false -> length l1 = length l)) as [Hl1 Hn].
  { unfold l1. destruct grows; [|done]. split; [|done]. destruct (_ && _); [|done]. apply Forall_app. split; [done|].
    constructor; [apply zero_typed|done]. }
  clearbody l1. destruct (l1 !! i) as [x|] eqn:Hx.
  - pose proof (Hrec e x d) as H1. rewrite Forall_lookup in Hl1. specialize (H1 (Hl1 _ _ Hx)). rewrite <- Forall_lookup in Hl1.
    destruct (rec e x d) as [[d1 y] o]. cbn in H1.
    assert (Forall (has_type e) (<[i:=y]> l1)) as Hy by (by apply Forall_insert).
    destruct o; try (split; [done|intros; rewrite length_insert; auto]).
    specialize (IH (S i) _ d1 Hy). destruct (list_loop _ _ _ _ _ _ _ _) as [[[? l'] ?] ?]. destruct IH as [IH1 IH2].
    split; [done|]. intros Hg. rewrite IH2, length_insert by done. auto.
  - destruct (iface d); try done. specialize (IH (S i) l1 d0 Hl1). destruct (list_loop _ _ _ _ _ _ _ _) as [[[? l'] ?] ?].
    destruct IH as [IH1 IH2]. split; [done|]. intros Hg. rewrite IH2 by done. auto.
Qed.

Lemma parseSeq_typed e grows cur d : Forall (has_type e) (seq_of cur) ->
  exists l, (parseSeq rec iface n e grows cur d).1.2 = VSeq l /\ Forall (has_type e) l /\ (grows = false -> length l = length (seq_of cur)).
Proof using Hrec.
  intros Hc. unfold parseSeq. pose proof (list_loop_typed e grows n 0 (seq_of cur) d Hc) as H.
  destruct (list_loop _ _ _ _ _ _ _ _) as [[[d1 l] i] o]. destruct H as [Hl Hn]. destruct o; cbn; try by exists l.
  eexists. split; [done|]. destruct grows; [split; [by apply Forall_take|done]|]. split.
  - apply Forall_app. split; [by apply Forall_take|]. apply Forall_replicate, zero_typed.
  - intros _. rewrite length_app, length_take, length_replicate, Hn by done. lia.
Qed.

Lemma parseList_typed t cur d : has_type t cur -> has_type t (parseList rec iface n t cur d).1.2.
Proof using Hrec.
  intros Hc. assert (has_type t (match parseSeq rec iface n t true VNil d with
      | (d, VSeq [v], Value) => (d, v, Value)
      | (d, _, Value) => (d, cur, Failed UnmarshalTypeError)
      | (d, _, o) => (d, cur, o) end).1.2) as Hone.
  { destruct (parseSeq_typed t true VNil d) as (l & Hl & Ht & _); [constructor|].
    destruct (parseSeq _ _ _ _ _ _ _) as [[d1 v] o]. cbn in Hl. subst v. destruct o; try done; [|by destruct l as [|? []]..].
    destruct l as [|v [|]]; cbn; try done. apply Forall_cons in Ht as [Ht _]. exact Ht. }
  destruct t as [w|w| | |e|m e|e|fs|e| |]; cbn [parseList]; try exact Hone.
  - destruct (parseSeq_typed e true cur d) as (l & -> & Ht & _); [destruct cur; try done; constructor|done].
  - destruct cur; try done. destruct Hc as [Hm Hl]. destruct (parseSeq_typed e false (VSeq l) d Hl) as (l' & -> & Ht & Hn).
    split; [rewrite Hn by done; exact Hm|done].
Qed.

Lemma getStructFieldForKey_spec fs key i j f : getStructFieldForKey fs key i = Some (j, f) ->
  (i <= j)%nat /\ fs !! (j - i)%nat = Some f /\ decoded f = true /\ tag_key f = key.
Proof.
  revert i. induction fs as [|g fs IH]; intros i; [done|]. cbn [getStructFieldForKey].
  destruct (getStructFieldForKey fs key (S i)) as [[j' f']|] eqn:E.
  - intros [= -> ->]. apply IH in E as (Hi & Hf & Hk). split; [lia|]. replace (j - i)%nat with (S (j - S i)) by lia. done.
  - destruct (decoded g && _) eqn:Hd; [|done]. intros [= <- <-]. apply andb_true_iff in Hd as [Hd Hk]. apply String.eqb_eq in Hk.
    by rewrite Nat.sub_diag.
Qed.

Lemma getDictField_typed t key ft ign put cur x : getDictField t key = Some (ft, ign, put) ->
  has_type t cur -> has_type ft x -> has_type t (put cur x).
Proof.
  destruct t as [w|w| | |e|m e|e|fs|e| |]; try done; cbn [getDictField].
  - intros [= <- <- <-] Hc Hx. assert (keys_up (map fst (map_of cur)) /\ Forall (fun y => has_type e y.2) (map_of cur)) as [Hs Hm].
    { destruct cur; try done; cbn; by repeat constructor. }
    split; [by apply map_set_sorted|by apply map_set_typed].
  - destruct (getStructFieldForKey fs key 0) as [[j f]|] eqn:E; [|done]. intros [= <- <- <-] Hc Hx.
    apply getStructFieldForKey_spec in E as (_ & Hf & _). rewrite Nat.sub_0_r in Hf. destruct cur; try done.
    apply has_type_struct. apply has_type_struct in Hc. rewrite <- (list_insert_id fs j f Hf). by apply Forall2_insert.
Qed.

Lemma dict_loop_typed t k cur d : has_type t cur -> has_type t (dict_loop rec iface t k cur d).1.2.
Proof using Hrec.
  revert cur d. induction k as [|k IH]; intros cur d Hc; [done|]. cbn [dict_loop].
  destruct (rec TString _ d) as [[d1 kv] o]. destruct o; try by destruct kv. destruct kv as [| |key| | | | | | |]; try done.
  destruct (getDictField t key) as [[[ft ign] put]|] eqn:Hf.
  - pose proof (Hrec ft (zero ft) d1 (zero_typed ft)) as Hx. destruct (rec ft _ d1) as [[d2 x] o2]. cbn in Hx.
    destruct o2; try done; [|destruct (_ && _); [|done]]; apply IH; by eapply getDictField_typed.
  - destruct (iface d1); try done. by apply IH.
Qed.

Lemma parse_kind_typed t cur d : has_type t cur -> has_type t (parse_kind M rec iface n t cur d).1.2.
Proof using Hrec.
  intros Hc. unfold parse_kind. destruct (readByte d) as [[b d1]|]; [|done]. destruct (Ascii.eqb b "e"); [done|].
  destruct (Ascii.eqb b "d"); [unfold parseDict; destruct t; try done; by apply dict_loop_typed|].
  destruct (Ascii.eqb b "l"); [by apply parseList_typed|]. destruct (Ascii.eqb b "i"); [by apply parseInt_typed|].
  destruct (digit b); [by apply parseString_typed|done].
Qed.
End recursion.

Lemma parse_in_typed n t cur d : (forall t cur d, has_type t cur -> has_type t (parseValue M n t cur d).1.2) -> has_type t cur ->
  has_type t (parse_in M (parseValue M n) (parseValueInterface M (S n)) n t cur d).1.2.
Proof.
  intros IH Hc. destruct t; cbn [parse_in]; try by apply parse_kind_typed.
  - pose proof (parseValueInterface_ok (S n) d) as H. by destruct (parseValueInterface M (S n) d).
  - destruct (readOneValue _ _); try done. by apply parse_kind_typed.
Qed.

Lemma parseValue_typed n t cur d : has_type t cur -> has_type t (parseValue M n t cur d).1.2.
Proof.
  revert t cur d. induction n as [|n IH]; intros t cur d Hc; [done|]. cbn [parseValue].
  destruct t; try by apply parse_in_typed.
  assert (has_type t match cur with VPtr v => v | _ => zero t end) as Ht by (destruct cur; try done; apply zero_typed).
  pose proof (parse_in_typed n t _ d IH Ht) as H. by destruct (parse_in _ _ _ _ _ _ _) as [[d1 v] o].
Qed.
End typed.

(** ** The one text of a value *)

Lemma string_app_inj a b b' : a +:+ b = a +:+ b' -> b = b'.
Proof. induction a as [|c a IH]; [done|]. cbn. intros [= H]. by apply IH. Qed.

Lemma readUntil_spec sep d d' : readUntil sep d = Ok d' ->
  exists p, rest d = p +:+ String sep (rest d') /\ buf d' = buf d +:+ p.
Proof.
  unfold readUntil. destruct (until sep (rest d)) as [p [r|]] eqn:Hu; [|done]. intros [= <-]. apply until_spec in Hu. by exists p.
Qed.

(** No byte of a number ends it. *)
Fixpoint free_of (sep : ascii) (s : string) : bool := match s with "" => true | String c s' => negb (Ascii.eqb c sep) && free_of sep s' end.

Lemma until_free sep p r : free_of sep p = true -> until sep (p +:+ String sep r) = (p, Some r).
Proof.
  induction p as [|c p IH]; intros Hf.
  - change ("" +:+ String sep r) with (String sep r). cbn [until]. by rewrite Ascii.eqb_refl.
  - change (String c p +:+ String sep r) with (String c (p +:+ String sep r)). cbn [until free_of] in *. revert Hf. intros [Hc Hp]%andb_true_iff. apply negb_true_iff in Hc. by rewrite Hc, IH.
Qed.

Lemma digits_free sep s : digit sep = false -> all_digits s = true -> free_of sep s = true.
Proof.
  intros Hsep. induction s as [|c s IH]; cbn; [done|]. intros [Hc Hs]%andb_true_iff. rewrite IH by done.
  destruct (Ascii.eqb_spec c sep) as [->|]; [congruence|done].
Qed.

Lemma itoa_free sep n : digit sep = false -> sep <> "-"%char -> free_of sep (itoa n) = true.
Proof.
  intros Hd Hm. rewrite itoa_dec. pose proof dec_digits. destruct (n <? 0); [|by apply digits_free].
  change ("-" +:+ decimal (Z.to_N (- n))) with (String "-"%char (decimal (Z.to_N (- n)))). cbn [free_of]. rewrite digits_free by done.
  by destruct (Ascii.eqb_spec "-"%char sep) as [<-|].
Qed.

(** The number before a string starts with a digit. *)
Lemma itoa_digit n : 0 <= n -> exists c p, itoa n = String c p /\ digit c = true /\ free_of ":" p = true.
Proof.
  intros Hn. pose proof (itoa_free ":" n eq_refl ltac:(done)) as Hf. rewrite itoa_dec in *. destruct (Z.ltb_spec n 0); [lia|].
  pose proof (dec_digits (Z.to_N n)) as Hd. pose proof (dec_nonempty (Z.to_N n)). destruct (decimal (Z.to_N n)) as [|c p]; [done|].
  exists c, p. cbn in Hd, Hf. apply andb_true_iff in Hd as [Hc _]. by apply andb_true_iff in Hf as [_ Hf].
Qed.

Section canonical.
Context (M : Z).

(** A length is written one way, once its first byte is known to be a digit. *)
Lemma parseStringLength_text c d n d' : buf d = String c "" -> digit c = true -> parseStringLength M d = Length n d' ->
  exists p, rest d = p +:+ String ":" (rest d') /\ String c p = itoa (Z.of_nat n) /\ buf d' = "" /\ Z.of_nat n <= getMaxStrLen M.
Proof.
  intros Hb Hc. unfold parseStringLength. destruct (readUntil ":" d) as [d1|] eqn:Hr; [|done].
  apply readUntil_spec in Hr as (p & Hp & Hb1). rewrite Hb in Hb1. change (String c "" +:+ p) with (String c p) in Hb1.
  unfold checkBufferedInt. rewrite Hb1. destruct (well_led (String c p)) eqn:Hw; [|done]. cbn [negb].
  destruct (ParseInt (String c p)) as [z|] eqn:Hz; [|done]. destruct (Z.ltb_spec (getMaxStrLen M) z); [done|].
  intros [= <- <-]. unfold ParseInt in Hz. destruct (int_text _) as [z'|] eqn:Ht; [|done].
  assert (z' = z) as -> by (by repeat case_match; simplify_eq). pose proof Ht as Ht'. rewrite (int_text_digit c p Hc) in Ht'.
  pose proof (digits_value_bound _ 0 _ (Z.le_refl 0) Ht') as Hz0. exists p. rewrite Z2Nat.id by lia. cbn [rest buf reset].
  split_and!; [done|by apply int_text_canonical|done|done].
Qed.

(** What the interface parser takes and leaves, its buffer clean before. *)
Definition took (d : dec) (g : got) : Prop :=
  match g with
  | Got i d' => exists s, write_item i = Ok s /\ rest d = s +:+ rest d' /\ buf d' = ""
  | Ended d' => rest d = String "e" (rest d') /\ buf d' = ""
  | _ => True
  end.

Lemma text_within a s b r : String a (s +:+ String b r) = (String a "" +:+ s +:+ String b "") +:+ r.
Proof. change (String b r) with (String b "" +:+ r). by rewrite <- !string_app_assoc. Qed.

Lemma within_ok a b s : within a b (Ok s) = Ok (a +:+ s +:+ b).
Proof. done. Qed.

Lemma concat_written_app l l' s s' : concat_written l = Ok s -> concat_written l' = Ok s' -> concat_written (l ++ l') = Ok (s +:+ s').
Proof.
  revert s. induction l as [|[x|] l IH]; intros s; cbn [concat_written app]; [by intros [= <-]| |done].
  destruct (concat_written l) as [y|]; [|done]. intros [= <-] H'. rewrite (IH y) by done. by rewrite string_app_assoc.
Qed.

Lemma sort_by_id {A} (lt : A -> A -> bool) l : (forall a b, lt a b = true -> lt b a = false) ->
  StronglySorted (fun a b => lt a b = true) l -> sort_by lt l = l.
Proof.
  intros Hlt. assert (forall x acc, Forall (fun y => lt y x = true) acc -> insert_sorted lt x acc = (acc ++ [x])%list) as Hins.
  { intros x. induction 1 as [|y acc Hy _ IH]; cbn; [done|]. by rewrite (Hlt _ _ Hy), IH. }
  unfold sort_by. change l with ([] ++ l)%list at 1 3. generalize (@nil A) as acc.
  induction l as [|x l IH]; intros acc Hs; [by rewrite app_nil_r|]. cbn [foldl]. rewrite Hins.
  - rewrite IH; [by rewrite <- app_assoc|by rewrite <- app_assoc].
  - apply Forall_forall. intros y Hy. apply (StronglySorted_app_1_elem_of _ _ _ _ _ Hs); [done|by left].
Qed.

Lemma pair_sorted {A B} (f : A -> B) (l : list (string * A)) :
  keys_up (map fst l) -> sort_by pair_lt (map (fun x => (x.1, f x.2)) l) = map (fun x => (x.1, f x.2)) l.
Proof.
  intros Hl. apply sort_by_id.
  { intros [a x] [b y]. unfold pair_lt. cbn. intros Hab. destruct (str_lt b a) eqn:E; [|done].
    pose proof (str_lt_trans _ _ _ Hab E) as Haa. by rewrite str_lt_irrefl in Haa. }
  unfold keys_up in Hl. induction l as [|[k x] l IH]; cbn in *; [constructor|]. apply StronglySorted_inv in Hl as [Hs Hk].
  constructor; [by apply IH|]. rewrite Forall_map in Hk. apply Forall_map. exact Hk.
Qed.

Definition write_pair (x : string * item) : written := within (reflectString x.1) "" (write_item x.2).

Lemma write_dict_sorted l s : keys_up (map fst l) -> concat_written (map write_pair l) = Ok s ->
  write_item (IDict l) = Ok ("d" +:+ s +:+ "e").
Proof.
  intros Hl Hs. cbn [write_item]. unfold write_dict. rewrite pair_sorted by done. rewrite map_map. trans (within "d" "e" (concat_written (map write_pair l))); [done|by rewrite Hs].
Qed.

Lemma parseIntInterface_took d : buf d = "" -> match parseIntInterface d with
  | Got i d' => exists s, write_item i = Ok (String "i" s) /\ rest d = s +:+ rest d' /\ buf d' = "" | Ended _ => False | _ => True end.
Proof.
  intros Hb. unfold parseIntInterface. destruct (readUntil "e" d) as [d1|] eqn:Hr; [|done].
  apply readUntil_spec in Hr as (p & Hp & Hb1). rewrite Hb in Hb1. change ("" +:+ p) with p in Hb1. unfold checkBufferedInt. rewrite Hb1.
  destruct (well_led p) eqn:Hw; [|done]. cbn [negb]. destruct (int_text p) as [n|] eqn:Ht; [|done].
  exists (itoa n +:+ "e"). rewrite (int_text_canonical p n Ht Hw) in Hp. cbn [rest buf reset]. by rewrite string_app_assoc.
Qed.

Lemma parseStringInterface_took c d : digit c = true -> buf d = String c "" -> match parseStringInterface M d with
  | Got i d' => exists s, write_item i = Ok (String c s) /\ rest d = s +:+ rest d' /\ buf d' = "" | Ended _ => False | _ => True end.
Proof.
  intros Hc Hb. unfold parseStringInterface. destruct (parseStringLength M d) as [n d1|e d1|e] eqn:Hl; [|done..].
  apply (parseStringLength_text c) in Hl as (p & Hp & Hn & Hb1 & _); [|done..]. unfold readBytes.
  destruct (split_at n (rest d1)) as [[b r]|] eqn:Hs; [|done]. apply split_at_spec in Hs as [Hs Hlen].
  exists (p +:+ String ":" b). cbn [rest buf write_item]. unfold reflectString, len. rewrite Hlen, <- Hn.
  split_and!; [done| |done]. by rewrite Hp, Hs, string_app_assoc.
Qed.

Section loops.
Context (parse : dec -> got) (Hparse : forall d, buf d = "" -> took d (parse d)).

Lemma parseListInterface_took k l d : buf d = "" -> match parseListInterface parse k l d with
  | Got i d' => exists l2 s, i = IList (l ++ l2) /\ concat_written (map write_item l2) = Ok s /\ rest d = s +:+ String "e" (rest d') /\ buf d' = ""
  | Ended _ => False | _ => True end.
Proof using Hparse.
  revert l d. induction k as [|k IH]; intros l d Hb; [done|]. cbn [parseListInterface]. specialize (Hparse d Hb).
  destruct (parse d) as [x d1|d1|e|]; [| |done..].
  - destruct Hparse as (s & Hw & Hr & Hb1). specialize (IH (l ++ [x])%list d1 Hb1). destruct (parseListInterface _ _ _ _); try done.
    destruct IH as (l2 & s2 & -> & Hs2 & Hr2 & Hb2). exists (x :: l2), (s +:+ s2). rewrite <- app_assoc. split; [done|].
    cbn [map concat_written]. rewrite Hw, Hs2, Hr, Hr2, string_app_assoc. done.
  - destruct Hparse as [Hr Hb1]. exists [], "". by rewrite app_nil_r.
Qed.

Lemma parseDictInterface_took k lastk l d : buf d = "" -> match parseDictInterface parse k lastk l d with
  | Got i d' => exists l2 s, i = IDict (l ++ l2) /\ concat_written (map write_pair l2) = Ok s /\ rest d = s +:+ String "e" (rest d') /\ buf d' = ""
  | Ended _ => False | _ => True end.
Proof using Hparse.
  revert lastk l d. induction k as [|k IH]; intros lastk l d Hb; [done|]. cbn [parseDictInterface]. pose proof (Hparse d Hb) as H1.
  destruct (parse d) as [x d1|d1|e|]; [| |done..].
  - destruct x as [|key| |]; try done. destruct H1 as (s & Hw & Hr & Hb1). destruct (match lastk with Some _ => _ | None => _ end); [done|].
    pose proof (Hparse d1 Hb1) as H2. destruct (parse d1) as [y d2|d2|e|]; [|done..]. destruct H2 as (s2 & Hw2 & Hr2 & Hb2).
    specialize (IH (Some key) (l ++ [(key, y)])%list d2 Hb2). destruct (parseDictInterface _ _ _ _ _); try done.
    destruct IH as (l2 & s3 & -> & Hs3 & Hr3 & Hb3). exists ((key, y) :: l2), ((s +:+ s2) +:+ s3). rewrite <- app_assoc. split; [done|].
    cbn [map concat_written]. unfold write_pair at 1. cbn [fst snd]. rewrite Hw2, within_ok, Hs3. injection Hw as <-.
    rewrite string_app_nil_r, Hr, Hr2, Hr3, !string_app_assoc. done.
  - destruct H1 as [Hr Hb1]. exists [], "". by rewrite app_nil_r.
Qed.
End loops.

Lemma readByte_spec d b d' : readByte d = Some (b, d') -> rest d = String b (rest d') /\ buf d' = buf d.
Proof. unfold readByte. destruct (rest d); [done|]. by intros [= <- <-]. Qed.

Lemma parseValueInterface_took n d : buf d = "" -> took d (parseValueInterface M n d).
Proof.
  revert d. induction n as [|n IH]; intros d Hb; [done|]. cbn [parseValueInterface]. destruct (readByte d) as [[b d1]|] eqn:Hr; [|done].
  apply readByte_spec in Hr as [Hr Hb1]. rewrite Hb in Hb1. destruct (Ascii.eqb_spec b "e") as [->|]; [done|].
  destruct (Ascii.eqb_spec b "d") as [->|].
  { pose proof (parseDictInterface_took _ IH n None [] d1 Hb1) as H.
    pose proof (parseDictInterface_ok (parseValueInterface M n) n None [] d1 (parseValueInterface_ok M n) ltac:(split; [constructor|done]) eq_refl) as Hok.
    destruct (parseDictInterface _ _ _ _ _); try done. destruct H as (l2 & s & -> & Hs & Hr2 & Hb2). apply item_ok_dict in Hok as [Hup _].
    exists ("d" +:+ s +:+ "e"). split; [by apply write_dict_sorted|]. rewrite Hr, Hr2. split; [apply text_within|done]. }
  destruct (Ascii.eqb_spec b "l") as [->|].
  { pose proof (parseListInterface_took _ IH n [] d1 Hb1) as H. destruct (parseListInterface _ _ _ _); try done.
    destruct H as (l2 & s & -> & Hs & Hr2 & Hb2). exists ("l" +:+ s +:+ "e"). cbn [app write_item]. unfold write_list. rewrite Hs.
    split; [done|]. rewrite Hr, Hr2. split; [apply text_within|done]. }
  destruct (Ascii.eqb_spec b "i") as [->|].
  { pose proof (parseIntInterface_took d1 Hb1) as H. destruct (parseIntInterface d1); try done.
    destruct H as (s & Hw & Hr2 & Hb2). exists (String "i" s). by rewrite Hr, Hr2. }
  destruct (digit b) eqn:Hd; [|done]. pose proof (parseStringInterface_took b (write (String b "") d1) Hd) as H. cbn [write buf rest] in H.
  rewrite Hb1 in H. specialize (H eq_refl). destruct (parseStringInterface _ _); try done.
  destruct H as (s & Hw & Hr2 & Hb2). exists (String b s). by rewrite Hr, Hr2.
Qed.
End canonical.

(** ** What is written is read *)

Fixpoint item_fits (max : Z) (i : item) : Prop :=
  match i with
  | IInt _ => True
  | IStr s => len s <= max
  | IList l => foldr (fun x P => item_fits max x /\ P) True l
  | IDict l => foldr (fun x P => (len x.1 <= max /\ item_fits max x.2) /\ P) True l
  end.

Section reread.
Context (M : Z) (HM : in64 M).

Abbreviation max := (getMaxStrLen M).

Lemma max64 n : n <= max -> n < 2 ^ 63.
Proof using HM. unfold getMaxStrLen, DefaultDecodeMaxStrLen, in64 in *. destruct (M =? 0); lia. Qed.

Definition after (d : dec) (s r : string) : dec := mkDec r (Offset d + len s) "".

Lemma after_after d s r s' r' : after (after d s r) s' r' = after d (s +:+ s') r'.
Proof. unfold after. cbn. rewrite len_app. f_equal. lia. Qed.

Lemma after_self d s s' r : s = s' -> after d s r = after d s' r.
Proof. by intros ->. Qed.

Lemma readByte_at d c r : rest d = String c r -> readByte d = Some (c, mkDec r (Offset d + 1) (buf d)).
Proof. intros Hr. unfold readByte. by rewrite Hr. Qed.

Lemma readUntil_at d sep p r : free_of sep p = true -> rest d = p +:+ String sep r ->
  readUntil sep d = Ok (mkDec r (Offset d + len p + 1) (buf d +:+ p)).
Proof. intros Hp Hr. unfold readUntil. by rewrite Hr, until_free. Qed.

Lemma len_cons c s : len (String c s) = 1 + len s.
Proof. unfold len. cbn [String.length]. lia. Qed.

(** The length of a string and its colon. *)
Lemma parseStringLength_at c p n d r : 0 <= n <= max -> itoa n = String c p -> buf d = String c "" -> rest d = p +:+ String ":" r ->
  parseStringLength M d = Length (Z.to_nat n) (mkDec r (Offset d + len p + 1) "").
Proof using HM.
  intros Hn Hc Hb Hr. destruct (itoa_digit n) as (c' & p' & Hc' & Hd & Hf); [lia|]. rewrite Hc in Hc'. injection Hc' as <- <-.
  unfold parseStringLength. rewrite (readUntil_at d ":" p r Hf Hr). unfold checkBufferedInt. cbn [buf]. rewrite Hb.
  change (String c "" +:+ p) with (String c p). rewrite <- Hc, well_led_itoa. cbn [negb].
  rewrite ParseInt_itoa by (unfold in64; pose proof (max64 n); lia). destruct (Z.ltb_spec max n); [lia|done].
Qed.

Lemma parseStringInterface_at d c p s r : len s <= max -> reflectString s = String c p -> buf d = String c "" -> rest d = p +:+ r ->
  parseStringInterface M d = Got (IStr s) (mkDec r (Offset d + len p) "").
Proof using HM.
  intros Hs Hc Hb Hr. unfold reflectString in Hc. destruct (itoa_digit (len s)) as (c' & q & Hq & Hd & Hf); [unfold len; lia|].
  rewrite Hq in Hc. injection Hc as -> <-. unfold parseStringInterface.
  rewrite (parseStringLength_at c q (len s) d (s +:+ r)); [|unfold len in *; lia|done|done|by rewrite Hr, string_app_assoc].
  unfold readBytes. cbn [rest Offset buf]. replace (Z.to_nat (len s)) with (String.length s) by (unfold len; lia).
  rewrite split_at_app. do 2 f_equal. change (String.append q (":" +:+ s)) with (q +:+ (String ":" s)). rewrite len_app, len_cons. unfold len. lia.
Qed.

Lemma parseIntInterface_at d n r : buf d = "" -> rest d = itoa n +:+ String "e" r ->
  parseIntInterface d = Got (IInt n) (mkDec r (Offset d + len (itoa n) + 1) "").
Proof.
  intros Hb Hr. unfold parseIntInterface. rewrite (readUntil_at d "e" (itoa n) r); [|by apply itoa_free|done].
  unfold checkBufferedInt. cbn [buf]. rewrite Hb. change ("" +:+ itoa n) with (itoa n). rewrite well_led_itoa. cbn [negb].
  by rewrite int_text_itoa.
Qed.

Lemma write_item_some i s : write_item i = Ok s -> s <> "".
Proof.
  destruct i as [n|x|l|l]; cbn [write_item].
  - by intros [= <-].
  - intros [= <-]. unfold reflectString. pose proof (itoa_nonempty (len x)). by destruct (itoa (len x)).
  - unfold write_list, within. destruct (concat_written _); [|done]. by intros [= <-].
  - unfold write_dict, within. destruct (concat_written _); [|done]. by intros [= <-].
Qed.

Definition rereads (n : nat) (parse : dec -> got) : Prop := forall i s d r,
  item_ok i -> item_fits max i -> write_item i = Ok s -> rest d = s +:+ r -> buf d = "" -> (size d < n)%nat -> parse d = Got i (after d s r).

Definition ends (n : nat) (parse : dec -> got) : Prop := forall d r,
  rest d = String "e" r -> buf d = "" -> (size d < n)%nat -> parse d = Ended (after d "e" r).

Section loops.
Context (parse : dec -> got) (n : nat) (Hparse : rereads n parse) (Hends : ends n parse).

Lemma parseListInterface_at l2 k acc s d r : items_ok l2 -> Forall (item_fits max) l2 -> concat_written (map write_item l2) = Ok s ->
  rest d = s +:+ String "e" r -> buf d = "" -> (size d < k <= n)%nat ->
  parseListInterface parse k acc d = Got (IList (acc ++ l2)) (after d (s +:+ "e") r).
Proof using Hparse Hends.
  revert k acc s d. induction l2 as [|i l2 IH]; intros k acc s d Hok Hfit Hs Hr Hb Hk; (destruct k as [|k]; [lia|]); cbn [parseListInterface].
  - injection Hs as <-. rewrite (Hends d r Hr Hb) by lia. by rewrite app_nil_r.
  - cbn [map concat_written] in Hs. destruct (write_item i) as [x|] eqn:Hx; [|done]. destruct (concat_written _) as [y|] eqn:Hy; [|done].
    injection Hs as <-. apply Forall_cons in Hok as [Ho Hok]. apply Forall_cons in Hfit as [Hf Hfit]. rewrite string_app_assoc in Hr.
    rewrite (Hparse i x d _ Ho Hf Hx Hr Hb) by lia. rewrite (IH k (acc ++ [i])%list y (after d x (y +:+ String "e" r))); [|done..|].
    + by rewrite <- app_assoc, after_after, string_app_assoc.
    + unfold size in *. cbn [after rest]. rewrite Hr, string_app_length in Hk. pose proof (write_item_some _ _ Hx).
      destruct x; [done|]. cbn [String.length] in Hk. lia.
Qed.

Lemma parseDictInterface_at l2 k acc s d r : keys_up (map fst (acc ++ l2)) -> items_ok (map snd l2) ->
  Forall (fun x => len x.1 <= max /\ item_fits max x.2) l2 -> concat_written (map write_pair l2) = Ok s ->
  rest d = s +:+ String "e" r -> buf d = "" -> (size d < k <= n)%nat ->
  parseDictInterface parse k (last (map fst acc)) acc d = Got (IDict (acc ++ l2)) (after d (s +:+ "e") r).
Proof using Hparse Hends.
  revert k acc s d. induction l2 as [|[key i] l2 IH]; intros k acc s d Hup Hok Hfit Hs Hr Hb Hk; (destruct k as [|k]; [lia|]); cbn [parseDictInterface].
  - injection Hs as <-. rewrite (Hends d r Hr Hb) by lia. by rewrite app_nil_r.
  - cbn [map concat_written] in Hs. unfold write_pair at 1 in Hs. cbn [fst snd] in Hs. destruct (write_item i) as [x|] eqn:Hx; [|done].
    rewrite within_ok, string_app_nil_r in Hs. destruct (concat_written _) as [y|] eqn:Hy; [|done]. injection Hs as <-.
    apply Forall_cons in Hok as [Ho Hok]. apply Forall_cons in Hfit as [[Hfk Hf] Hfit]. rewrite !string_app_assoc in Hr.
    rewrite (Hparse (IStr key) (reflectString key) d _ I Hfk eq_refl Hr Hb) by lia.
    assert (match last (map fst acc) with Some l => negb (str_lt l key) | None => false end = false) as ->.
    { destruct (last (map fst acc)) as [z|] eqn:Hz; [|done]. apply last_Some in Hz as [l' Hz]. apply negb_false_iff.
      rewrite map_app, Hz in Hup. apply (StronglySorted_app_1_elem_of _ _ _ z key Hup); [apply elem_of_app; right; by left|by left]. }
    assert (size (after d (reflectString key) (x +:+ (y +:+ String "e" r))) < size d)%nat as Hsz.
    { unfold size. cbn [after rest]. rewrite Hr, (string_app_length (reflectString key)). pose proof (write_item_some (IStr key) _ eq_refl) as Hne.
      destruct (reflectString key); [done|]. cbn [String.length]. lia. }
    rewrite (Hparse i x (after d (reflectString key) _) _ Ho Hf Hx eq_refl eq_refl) by lia.
    replace (Some key) with (last (map fst (acc ++ [(key, i)]))) by (rewrite map_app; apply last_snoc).
    rewrite (IH k (acc ++ [(key, i)])%list y); [|by rewrite <- app_assoc|done..|].
    + by rewrite <- app_assoc, !after_after, !string_app_assoc.
    + unfold size in *. cbn [after rest] in *. rewrite string_app_length in Hsz. lia.
Qed.
End loops.

Lemma item_fits_list l : item_fits max (IList l) <-> Forall (item_fits max) l.
Proof. cbn. induction l as [|x l IH]; cbn; [split; [constructor|done]|]. by rewrite Forall_cons, IH. Qed.

Lemma item_fits_dict l : item_fits max (IDict l) <-> Forall (fun x => len x.1 <= max /\ item_fits max x.2) l.
Proof. cbn. induction l as [|x l IH]; cbn; [split; [constructor|done]|]. by rewrite Forall_cons, IH. Qed.

Lemma parseValueInterface_end n d r : rest d = String "e" r -> buf d = "" -> (size d < n)%nat -> parseValueInterface M n d = Ended (after d "e" r).
Proof. intros Hr Hb Hn. destruct n as [|n]; [lia|]. cbn [parseValueInterface]. rewrite (readByte_at d "e" r Hr). cbn. by rewrite Hb. Qed.

Lemma within_inv a b w s : within a b w = Ok s -> exists x, w = Ok x /\ s = a +:+ x +:+ b.
Proof. destruct w as [x|]; [|done]. intros [= <-]. by exists x. Qed.

Lemma parseValueInterface_at n : rereads n (parseValueInterface M n).
Proof using HM.
  induction n as [|n IH]; intros i s d r Hok Hfit Hw Hr Hb Hn; [lia|]. cbn [parseValueInterface].
  assert (ends n (parseValueInterface M n)) as Hends by (intros d0 r0; apply parseValueInterface_end).
  assert (forall c p, s = String c p -> readByte d = Some (c, mkDec (p +:+ r) (Offset d + 1) "")) as Hbyte.
  { intros c p ->. rewrite <- Hb. by apply readByte_at. }
  assert (forall c p, s = String c p -> (size (mkDec (p +:+ r) (Offset d + 1) "") < n)%nat) as Hsize.
  { intros c p ->. unfold size in *. rewrite Hr in Hn. change (String c p +:+ r) with (String c (p +:+ r)) in Hn. cbn [String.length rest] in *. lia. }
  destruct i as [z|x|l|l]; cbn [write_item] in Hw.
  - injection Hw as <-. rewrite (Hbyte "i"%char _ eq_refl). cbn [Ascii.eqb]. cbn.
    rewrite (parseIntInterface_at _ z r); [|done|cbn [rest]; by rewrite string_app_assoc].
    f_equal. unfold after. cbn [Offset]. f_equal. change ("i" +:+ (itoa z +:+ "e")) with (String "i" (itoa z +:+ "e")).
    rewrite len_cons, len_app. unfold len. cbn. lia.
  - injection Hw as <-. destruct (itoa_digit (len x)) as (c & p & Hc & Hd & Hf); [unfold len; lia|].
    assert (reflectString x = String c (p +:+ ":" +:+ x)) as Hx by (unfold reflectString; by rewrite Hc).
    rewrite (Hbyte _ _ Hx). pose proof (proj1 (digit_bounds c) Hd) as Hcb.
    assert (forall a : ascii, byte_at a < 48 \/ 57 < byte_at a -> Ascii.eqb c a = false) as Hne.
    { intros a Ha. destruct (Ascii.eqb_spec c a) as [->|]; [lia|done]. }
    rewrite !Hne by (right; done). rewrite Hd. cbn [write rest Offset buf].
    rewrite (parseStringInterface_at _ c (p +:+ ":" +:+ x) x r); [|done|done|done|done].
    unfold after, write. cbn [Offset]. rewrite Hx, len_cons. do 2 f_equal. lia.
  - unfold write_list in Hw. apply within_inv in Hw as (x & Hx & ->). rewrite (Hbyte "l"%char _ eq_refl). cbn [Ascii.eqb]. cbn -[parseListInterface parseValueInterface].
    apply item_ok_list in Hok. apply item_fits_list in Hfit.
    rewrite (parseListInterface_at _ n IH Hends l n [] x _ r Hok Hfit Hx); [|by cbn [rest]; rewrite string_app_assoc|done|].
    + cbn [app]. f_equal. unfold after. cbn [Offset]. change ("l" +:+ (x +:+ "e")) with (String "l" (x +:+ "e")). rewrite len_cons. f_equal. lia.
    + split; [|done]. by apply (Hsize "l"%char).
  - apply item_ok_dict in Hok as [Hup Hok]. apply item_fits_dict in Hfit. unfold write_dict in Hw. rewrite pair_sorted in Hw by done.
    apply within_inv in Hw as (x & Hx & ->). rewrite map_map in Hx.
    change (concat_written (map write_pair l) = Ok x) in Hx. rewrite (Hbyte "d"%char _ eq_refl). cbn -[parseDictInterface parseValueInterface].
    rewrite (parseDictInterface_at _ n IH Hends l n [] x _ r Hup Hok Hfit Hx); [|by cbn [rest]; rewrite string_app_assoc|done|].
    + cbn [app]. f_equal. unfold after. cbn [Offset]. change ("d" +:+ (x +:+ "e")) with (String "d" (x +:+ "e")). rewrite len_cons. f_equal. lia.
    + split; [|done]. by apply (Hsize "d"%char).
Qed.

(** *** Values of a type

    What comes back as it was written: nothing a reader would allocate is nil, nothing an empty text
    stands for is anything but nil, and every string is within the reader's limit. *)

Definition one_value (s : string) : Prop := readOneValue (S (String.length s)) (mkDec s 0 "") = One (mkDec "" (len s) s).

Definition field_keys (fs : list field) : list string := map tag_key (List.filter decoded fs).

(** An end mark is told from an element of a list, which for an interface it is not. *)
Definition told_apart (e : ty) : bool := match e with TAny | TPtr TAny => false | _ => true end.

Section faithful.
Context (IsEmptyValue : ty -> val -> bool).

Fixpoint faithful (t : ty) (v : val) : Prop :=
  match t, v with
  | TString, VString s => len s <= max
  | TSlice (TUint W8), VSeq l | TArray _ (TUint W8), VSeq l => Z.of_nat (length l) <= max
  | TSlice e, VSeq l => told_apart e = true /\ Forall (faithful e) l
  | TMap e, VMap l => l <> [] /\ Forall (fun x => len x.1 <= max /\ faithful e x.2) l
  | TStruct fs, VStruct vs => NoDup (field_keys fs) /\
      (fix fields (fs : list field) (vs : list val) : Prop :=
        match fs, vs with
        | (mkField nm tg t as f) :: fs', v :: vs' =>
            (if Ignore (parseTag tg) || (OmitEmpty (parseTag tg) && IsEmptyValue t v) then v = zero t
             else len (tag_key f) <= max /\ faithful t v) /\ fields fs' vs'
        | _, _ => True
        end) fs vs
  | TPtr e, VPtr v => match e with TPtr _ => False | _ => faithful e v end
  | TAny, VAny i => item_fits max i
  | TBytes, VBytes s => one_value s
  | (TInt _ | TUint _ | TBool | TMap _), _ => True
  | _, _ => False
  end.

(** What a parser of a value may leave in the buffer, and what needs it clean. *)
Fixpoint leaves (t : ty) : bool :=
  match t with
  | TBytes => true
  | TSlice e | TArray _ e | TMap e | TPtr e => leaves e
  | TStruct fs => existsb (fun f => leaves (FieldType f)) fs
  | _ => false
  end.

Fixpoint needs (t : ty) : bool :=
  match t with TInt _ | TUint _ | TBool | TAny => true | TSlice e | TArray _ e | TPtr e => needs e | _ => false end.

Lemma needs_leaves t : needs t = true -> leaves t = false.
Proof. induction t using ty_induction; cbn; auto; done. Qed.

(** The value read, with the input and the count where they should be. *)
Definition arrives (t : ty) (d : dec) (s r : string) (v : val) (x : res) : Prop :=
  exists d', x = (d', v, Value) /\ rest d' = r /\ Offset d' = Offset d + len s /\ (leaves t = false -> buf d = "" -> buf d' = "").

Lemma arrives_after t d s r v x : x = (after d s r, v, Value) -> arrives t d s r v x.
Proof. intros ->. exists (after d s r). done. Qed.

Lemma parse_kind_end rec iface n t cur d r : rest d = String "e" r ->
  parse_kind M rec iface n t cur d = (mkDec r (Offset d + 1) (buf d), cur, End).
Proof. intros Hr. unfold parse_kind. by rewrite (readByte_at d "e" r Hr). Qed.

Lemma parseValue_end n t cur d r : told_apart t = true -> rest d = String "e" r ->
  exists d' v, parseValue M (S n) t cur d = (d', v, End) /\ rest d' = r /\ Offset d' = Offset d + 1 /\ (buf d = "" -> buf d' = "").
Proof.
  intros Ht Hr. assert (forall t cur, t <> TAny -> exists d' v,
      parse_in M (parseValue M n) (parseValueInterface M (S n)) n t cur d = (d', v, End) /\ rest d' = r /\ Offset d' = Offset d + 1 /\ (buf d = "" -> buf d' = "")) as Hin.
  { clear t cur Ht. intros t cur Ht. destruct t; try done; cbn [parse_in]; try (rewrite (parse_kind_end _ _ _ _ _ _ r Hr); by eexists _, _).
    cbn [readOneValue reset rest]. rewrite Hr. cbn. rewrite (parse_kind_end _ _ _ _ _ _ r) by (exact Hr). by eexists _, _. }
  cbn [parseValue]. destruct t as [| | | | | | | |e| |]; try (by apply Hin).
  destruct (Hin e (match cur with VPtr v => v | _ => zero e end)) as (d' & v & -> & H); [by destruct e|]. by exists d', (VPtr v).
Qed.

Lemma ascii_distinct c a : digit c = true -> digit a = false -> Ascii.eqb c a = false.
Proof. intros Hc Ha. destruct (Ascii.eqb_spec c a) as [->|]; [congruence|done]. Qed.

(** A string's text is read by [parseString], whatever is in the buffer. *)
Lemma parse_kind_string rec iface n t cur d s r : rest d = reflectString s +:+ r -> len s <= max -> exists d1,
  parse_kind M rec iface n t cur d = parseString M t cur d1 /\
  parseStringLength M d1 = Length (String.length s) (mkDec (s +:+ r) (Offset d + (len (reflectString s) - len s)) "").
Proof using HM.
  intros Hr Hs. destruct (itoa_digit (len s)) as (c & p & Hc & Hd & Hf); [unfold len; lia|].
  assert (reflectString s = String c (p +:+ ":" +:+ s)) as Hx by (unfold reflectString; by rewrite Hc).
  assert (rest d = String c (p +:+ String ":" (s +:+ r))) as Hr' by (rewrite Hr, Hx; trans (String c ((p +:+ ":" +:+ s) +:+ r)); [done|by rewrite string_app_assoc]).
  unfold parse_kind. rewrite (readByte_at d c _ Hr'). rewrite !ascii_distinct by done. rewrite Hd. eexists. split; [done|].
  rewrite (parseStringLength_at c p (len s) _ (s +:+ r)); [|unfold len in *; lia|done..]. cbn [write reset Offset].
  f_equal; [unfold len; lia|]. f_equal. rewrite Hx, len_cons, len_app. change (":" +:+ s) with (String ":" s). rewrite len_cons. lia.
Qed.

Lemma read_at d s r : rest d = s +:+ r -> Bencode.read (String.length s) d = Ok (s, mkDec r (Offset d + len s) (buf d)).
Proof. intros Hr. unfold Bencode.read. rewrite Hr, split_at_app. done. Qed.

Lemma parse_string_at rec iface n t cur d s r v : rest d = reflectString s +:+ r -> len s <= max ->
  (forall d : dec, match t, cur return res with
    | TString, _ => (d, VString s, Value)
    | TSlice (TUint W8), _ => (d, VSeq (byte_vals s), Value)
    | TArray _ (TUint W8), VSeq l => (d, VSeq (copy_into l (byte_vals s)), Value)
    | TBool, _ => (d, VBool (default (negb (String.length s =? 0)%nat) (ParseBool s)), Value)
    | _, _ => (d, cur, Failed UnmarshalTypeError)
    end = (d, v, Value)) ->
  parse_kind M rec iface n t cur d = (after d (reflectString s) r, v, Value).
Proof using HM.
  intros Hr Hs Hv. destruct (parse_kind_string rec iface n t cur d s r Hr Hs) as (d1 & -> & Hl). unfold parseString. rewrite Hl.
  rewrite (read_at _ s r) by done. cbn [Offset buf]. rewrite Hv. unfold after, reset. cbn [rest Offset]. do 3 f_equal. lia.
Qed.

Lemma parse_kind_int rec iface n t cur d z r : rest d = ("i" +:+ itoa z +:+ "e") +:+ r -> buf d = "" -> exists d1,
  parse_kind M rec iface n t cur d = parseInt t cur d1 /\
  readUntil "e" d1 = Ok (mkDec r (Offset d + len ("i" +:+ itoa z +:+ "e")) (itoa z)).
Proof.
  intros Hr Hb. assert (rest d = String "i" (itoa z +:+ String "e" r)) as Hr'.
  { rewrite Hr. trans (String "i" ((itoa z +:+ "e") +:+ r)); [done|by rewrite string_app_assoc]. }
  unfold parse_kind. rewrite (readByte_at d "i" _ Hr'). eexists. split; [done|].
  rewrite (readUntil_at _ "e" (itoa z) r); [|by apply itoa_free|done]. cbn [Offset buf]. rewrite Hb.
  do 2 f_equal. change ("i" +:+ itoa z +:+ "e") with (String "i" (itoa z +:+ "e")). rewrite len_cons, len_app. unfold len at 3. cbn. lia.
Qed.

Lemma parse_int_at rec iface n w cur d z r : in_int w z = true -> rest d = ("i" +:+ itoa z +:+ "e") +:+ r -> buf d = "" ->
  parse_kind M rec iface n (TInt w) cur d = (after d ("i" +:+ itoa z +:+ "e") r, VInt z, Value).
Proof.
  intros Hw Hr Hb. destruct (parse_kind_int rec iface n (TInt w) cur d z r Hr Hb) as (d1 & -> & Hu). unfold parseInt. rewrite Hu.
  unfold checkBufferedInt. cbn [buf]. rewrite well_led_itoa. cbn [negb]. rewrite ParseInt_itoa; [by rewrite Hw|].
  unfold in_int in Hw. apply andb_true_iff in Hw as [H1 H2]. bool_prop. unfold in64. destruct w; cbn in *; lia.
Qed.

Lemma parse_uint_at rec iface n w cur d z r : in_uint w z = true -> rest d = ("i" +:+ itoa z +:+ "e") +:+ r -> buf d = "" ->
  parse_kind M rec iface n (TUint w) cur d = (after d ("i" +:+ itoa z +:+ "e") r, VInt z, Value).
Proof.
  intros Hw Hr Hb. destruct (parse_kind_int rec iface n (TUint w) cur d z r Hr Hb) as (d1 & -> & Hu). unfold parseInt. rewrite Hu.
  unfold checkBufferedInt. cbn [buf]. rewrite well_led_itoa. cbn [negb]. rewrite ParseUint_itoa; [by rewrite Hw|].
  unfold in_uint in Hw. apply andb_true_iff in Hw as [H1 H2]. bool_prop. destruct w; cbn in *; lia.
Qed.

Lemma parse_bool_at rec iface n cur d b r : rest d = (if b : bool then "i1e" else "i0e") +:+ r -> buf d = "" ->
  parse_kind M rec iface n TBool cur d = (after d (if b then "i1e" else "i0e") r, VBool b, Value).
Proof.
  intros Hr Hb. destruct (parse_kind_int rec iface n TBool cur d (if b then 1 else 0) r) as (d1 & -> & Hu); [by destruct b|done|].
  unfold parseInt. rewrite Hu. unfold checkBufferedInt. cbn [buf]. rewrite well_led_itoa. cbn [negb]. by destruct b.
Qed.

(** *** Byte strings *)

Lemma byte_vals_of l : Forall (has_type (TUint W8)) l -> byte_vals (bytes_of_vals l) = l /\ String.length (bytes_of_vals l) = length l.
Proof.
  induction 1 as [|v l Hv _ [IH1 IH2]]; [done|]. destruct v as [z| | | | | | | | |]; try done. cbn in *. unfold in_uint in Hv. cbn in Hv.
  apply andb_true_iff in Hv as [H1 H2]. bool_prop. rewrite byte_at_of by lia. by rewrite IH1, IH2.
Qed.

(** *** Lists *)

Lemma insert_last {A} (l : list A) x y : <[length l := y]> (l ++ [x])%list = (l ++ [y])%list.
Proof. rewrite <- (Nat.add_0_r (length l)). by rewrite insert_app_r. Qed.

Lemma reflectString_some s : reflectString s <> "".
Proof. by apply (write_item_some (IStr s)). Qed.

Lemma within_some a b w s : a <> "" -> within a b w = Ok s -> s <> "".
Proof. intros Ha (x & _ & ->)%within_inv. by destruct a. Qed.

Lemma reflectValue_some t v s : reflectValue IsEmptyValue t v = Ok s -> s <> "".
Proof.
  revert v s. induction t as [w|w| | |e IH|n e IH|e IH|fs IH|e IH| |] using ty_induction; intros v s Hs; destruct v; try done; cbn [reflectValue] in Hs.
  all: try (by eapply write_item_some).
  all: unfold write_list, write_dict in Hs; try (by eapply within_some in Hs).
  all: repeat match type of Hs with match ?x with _ => _ end = Ok _ => destruct x eqn:?; try done end.
  all: try (by eapply within_some in Hs).
  all: try (injection Hs as <-; first [done|by destruct b|apply reflectString_some|by apply String.eqb_neq]).
  all: by apply IH in Hs.
Qed.

Lemma shorter d d1 x r k : x <> "" -> rest d = x +:+ r -> rest d1 = r -> (size d < S k)%nat -> (size d1 < k)%nat.
Proof. intros Hx Hr Hr1 Hk. unfold size in *. rewrite Hr1. rewrite Hr, string_app_length in Hk. destruct x; [done|]. cbn [String.length] in Hk. lia. Qed.

Definition reads (n : nat) (rec : ty -> val -> dec -> res) : Prop := forall t v s d r,
  has_type t v -> faithful t v -> reflectValue IsEmptyValue t v = Ok s -> rest d = s +:+ r -> (size d < n)%nat ->
  (needs t = true -> buf d = "") -> arrives t d s r v (rec t (zero t) d).

Definition stops (n : nat) (rec : ty -> val -> dec -> res) : Prop := forall t cur d r,
  told_apart t = true -> rest d = String "e" r -> (size d < n)%nat ->
  exists d' v, rec t cur d = (d', v, End) /\ rest d' = r /\ Offset d' = Offset d + 1 /\ (buf d = "" -> buf d' = "").

Lemma concat_cons_inv (w : written) l s : concat_written (w :: l) = Ok s -> exists x y, w = Ok x /\ concat_written l = Ok y /\ s = x +:+ y.
Proof. cbn. destruct w as [x|]; [|done]. destruct (concat_written l) as [y|]; [|done]. intros [= <-]. by exists x, y. Qed.

Section loops.
Context (rec : ty -> val -> dec -> res) (iface : dec -> got) (n : nat) (Hrec : reads n rec) (Hstop : stops n rec).

Lemma list_loop_at e l2 k acc s d r : told_apart e = true -> Forall (has_type e) l2 -> Forall (faithful e) l2 ->
  concat_written (map (reflectValue IsEmptyValue e) l2) = Ok s -> rest d = s +:+ String "e" r -> (size d < k <= n)%nat ->
  (needs e = true -> buf d = "") ->
  exists d' y, list_loop rec iface e true k (length acc) acc d = (d', (acc ++ l2) ++ [y], length (acc ++ l2), End)%list /\
    rest d' = r /\ Offset d' = Offset d + len s + 1 /\ (leaves e = false -> buf d = "" -> buf d' = "").
Proof using Hrec Hstop.
  intros He. revert k acc s d. induction l2 as [|v l2 IH]; intros k acc s d Ht Hf Hs Hr Hk Hb; (destruct k as [|k]; [lia|]);
    cbn [list_loop]; rewrite Nat.leb_refl; cbn [andb]; rewrite list_lookup_middle by done.
  - injection Hs as <-. destruct (Hstop e (zero e) d r He Hr) as (d' & y & -> & Hr' & Ho & Hb'); [lia|]. exists d', y.
    rewrite app_nil_r, insert_last. split_and!; [done|done|unfold len; cbn; lia|by intros _].
  - cbn [map] in Hs. apply concat_cons_inv in Hs as (x & y & Hx & Hy & ->). apply Forall_cons in Ht as [Hv Ht]. apply Forall_cons in Hf as [Hfv Hf].
    rewrite string_app_assoc in Hr. destruct (Hrec e v x d _ Hv Hfv Hx Hr) as (d1 & -> & Hr1 & Ho1 & Hb1); [lia|done|].
    rewrite insert_last. replace (S (length acc)) with (length (acc ++ [v])) by (rewrite length_app; cbn; lia).
    destruct (IH k (acc ++ [v])%list y d1 Ht Hf Hy Hr1) as (d' & z & -> & Hr' & Ho' & Hb').
    + split; [|lia]. eapply shorter; [by eapply reflectValue_some|done|done|lia].
    + intros Hn. apply Hb1; [by apply needs_leaves|by apply Hb].
    + exists d', z. rewrite <- !(app_assoc acc). cbn [app]. split_and!; [done|done|rewrite len_app; lia|]. intros Hl Hd. by apply Hb', Hb1.
Qed.

Lemma parse_list_at e l d s r : told_apart e = true -> Forall (has_type e) l -> Forall (faithful e) l ->
  write_list (map (reflectValue IsEmptyValue e) l) = Ok s -> rest d = s +:+ r -> (size d < S n)%nat -> (needs e = true -> buf d = "") ->
  arrives (TSlice e) d s r (VSeq l) (parse_kind M rec iface n (TSlice e) VNil d).
Proof using Hrec Hstop.
  intros He Ht Hf Hs Hr Hn Hb. apply within_inv in Hs as (x & Hx & ->).
  assert (rest d = String "l" (x +:+ String "e" r)) as Hr'.
  { rewrite Hr. trans (String "l" ((x +:+ "e") +:+ r)); [done|by rewrite string_app_assoc]. }
  unfold parse_kind. rewrite (readByte_at d "l" _ Hr'). cbn -[parseSeq]. unfold parseSeq.
  destruct (list_loop_at e l n [] x (mkDec (x +:+ String "e" r) (Offset d + 1) (buf d)) r He Ht Hf Hx) as (d' & y & Heq & Hr1 & Ho & Hb1).
  - done.
  - split; [|done]. unfold size in *. rewrite Hr' in Hn. cbn in *. lia.
  - done.
  - cbn [seq_of length app] in Heq |- *. rewrite Heq. exists d'. cbn [Offset buf] in *. split_and!; [|done| |done].
    + by rewrite take_app_length.
    + change ("l" +:+ (x +:+ "e")) with (String "l" (x +:+ "e")). rewrite len_cons, len_app. unfold len at 2. cbn. lia.
Qed.

(** *** Dicts *)

Abbreviation entry := (string * (ty * val))%type.

Definition keyed (parse : ty -> val -> dec -> res) : Prop := forall key d r, rest d = reflectString key +:+ r -> len key <= max -> (size d < n)%nat ->
  parse TString (VString "") d = (after d (reflectString key) r, VString key, Value).

Definition text_of (x : entry) : written := within (reflectString x.1) "" (reflectValue IsEmptyValue x.2.1 x.2.2).

Definition goes (t : ty) (x : entry) : Prop :=
  len x.1 <= max /\ has_type x.2.1 x.2.2 /\ faithful x.2.1 x.2.2 /\ (leaves t = false -> leaves x.2.1 = false) /\
  exists ign put, getDictField t x.1 = Some (x.2.1, ign, put).

Definition dict_set (t : ty) (c : val) (x : entry) : val :=
  match getDictField t x.1 with Some (_, _, put) => put c x.2.2 | None => c end.

Lemma dict_loop_at t l k cur s d r (Hkey : keyed rec) : Forall (goes t) l ->
  concat_written (map text_of l) = Ok s -> rest d = s +:+ String "e" r -> (size d < k <= n)%nat ->
  exists d', dict_loop rec iface t k cur d = (d', foldl (dict_set t) cur l, Value) /\
    rest d' = r /\ Offset d' = Offset d + len s + 1 /\ (leaves t = false -> buf d = "" -> buf d' = "").
Proof using Hrec Hstop.
  revert k cur s d. induction l as [|[key [ft v]] l IH]; intros k cur s d Hg Hs Hr Hk; (destruct k as [|k]; [lia|]); cbn [dict_loop].
  - injection Hs as <-. destruct (Hstop TString (VString "") d r eq_refl Hr) as (d' & y & -> & Hr' & Ho & Hb'); [lia|].
    exists d'. split_and!; [by destruct y|done|unfold len; cbn; lia|by intros _].
  - cbn [map] in Hs. apply concat_cons_inv in Hs as (x & y & Hx & Hy & ->). unfold text_of in Hx. cbn [fst snd] in Hx.
    apply within_inv in Hx as (z & Hz & ->). rewrite string_app_nil_r, !string_app_assoc in Hr.
    apply Forall_cons in Hg as [(Hlen & Ht & Hf & Hlv & ign & put & Hfield) Hg]. cbn [fst snd] in *.
    rewrite (Hkey key d _ Hr Hlen) by lia. rewrite Hfield.
    assert (size (after d (reflectString key) (z +:+ (y +:+ String "e" r))) < k)%nat as Hsz.
    { eapply shorter; [apply reflectString_some|exact Hr|done|lia]. }
    destruct (Hrec ft v z (after d (reflectString key) (z +:+ (y +:+ String "e" r))) _ Ht Hf Hz eq_refl) as (d2 & -> & Hr2 & Ho2 & Hb2); [lia|done|].
    destruct (IH k (put cur v) y d2 Hg Hy Hr2) as (d' & -> & Hr' & Ho' & Hb').
    + split; [|lia]. apply (shorter (after d (reflectString key) (z +:+ (y +:+ String "e" r))) d2 z (y +:+ String "e" r) k);
        [by eapply reflectValue_some|reflexivity|done|lia].
    + exists d'. cbn [foldl]. unfold dict_set at 3. cbn [fst snd]. rewrite Hfield. split_and!; [done|done| |].
      * rewrite Ho', Ho2. cbn [after Offset]. rewrite string_app_nil_r, !len_app. lia.
      * intros Hl _. apply Hb'; [done|]. apply Hb2; [by apply Hlv|done].
Qed.

Lemma parse_dict_at t l cur s d r (Hkey : keyed rec) : (forall c, parseDict rec iface n t c = dict_loop rec iface t n c) ->
  Forall (goes t) l -> within "d" "e" (concat_written (map text_of l)) = Ok s -> rest d = s +:+ r -> (size d < S n)%nat ->
  arrives t d s r (foldl (dict_set t) cur l) (parse_kind M rec iface n t cur d).
Proof using Hrec Hstop.
  intros Hd Hg (x & Hx & ->)%within_inv Hr Hn. assert (rest d = String "d" (x +:+ String "e" r)) as Hr'.
  { rewrite Hr. trans (String "d" ((x +:+ "e") +:+ r)); [done|by rewrite string_app_assoc]. }
  unfold parse_kind. rewrite (readByte_at d "d" _ Hr'). cbn -[parseDict]. rewrite Hd.
  destruct (dict_loop_at t l n cur x (mkDec (x +:+ String "e" r) (Offset d + 1) (buf d)) r Hkey Hg Hx eq_refl) as (d' & -> & Hr1 & Ho & Hb1).
  - split; [|done]. unfold size in *. rewrite Hr' in Hn. cbn in *. lia.
  - exists d'. cbn [Offset buf] in *. split_and!; [done|done| |done].
    change ("d" +:+ (x +:+ "e")) with (String "d" (x +:+ "e")). rewrite len_cons, len_app. unfold len at 2. cbn. lia.
Qed.

(** A map's values go in under its keys, in the order they were written. *)
Lemma map_set_last l k v : Forall (fun x : string * val => str_lt x.1 k = true) l -> map_set k v l = (l ++ [(k, v)])%list.
Proof.
  induction 1 as [|[k' v'] l Hk _ IH]; cbn; [done|]. cbn in Hk. destruct (String.eqb_spec k k') as [->|]; [by rewrite str_lt_irrefl in Hk|].
  destruct (str_lt k k') eqn:E; [|by rewrite IH]. pose proof (str_lt_trans _ _ _ Hk E) as H. by rewrite str_lt_irrefl in H.
Qed.

Lemma map_built e l acc : keys_up (map fst (acc ++ l)) ->
  foldl (dict_set (TMap e)) (VMap acc) (map (fun x => (x.1, (e, x.2))) l) = VMap (acc ++ l).
Proof.
  revert acc. induction l as [|[k v] l IH]; intros acc Hup; cbn [map foldl]; [by rewrite app_nil_r|].
  unfold dict_set at 2. cbn [fst snd getDictField map_of]. rewrite map_set_last.
  - rewrite IH; [by rewrite <- app_assoc|by rewrite <- app_assoc].
  - apply Forall_forall. intros x Hx. rewrite map_app in Hup. eapply (StronglySorted_app_1_elem_of _ _ _ _ _ Hup); [by apply list_elem_of_fmap_2|by left].
Qed.

Lemma parse_map_at e l s d r (Hkey : keyed rec) : has_type (TMap e) (VMap l) -> faithful (TMap e) (VMap l) ->
  reflectValue IsEmptyValue (TMap e) (VMap l) = Ok s -> rest d = s +:+ r -> (size d < S n)%nat ->
  arrives (TMap e) d s r (VMap l) (parse_kind M rec iface n (TMap e) VNil d).
Proof using Hrec Hstop.
  intros [Hup Ht] [Hne Hf] Hs Hr Hn. cbn [reflectValue] in Hs. unfold write_dict in Hs. rewrite pair_sorted in Hs by done. rewrite map_map in Hs.
  assert (foldl (dict_set (TMap e)) VNil (map (fun x => (x.1, (e, x.2))) l) = VMap l) as <-.
  { destruct l as [|x l]; [done|]. exact (map_built e (x :: l) [] Hup). }
  apply parse_dict_at; [done|done| |by rewrite map_map|done|done].
  apply Forall_map. rewrite Forall_forall in Ht, Hf. apply Forall_forall. intros x Hx. destruct (Hf x Hx) as [Hl Hfx].
  split_and!; [done|by apply Ht|done|done|by eexists _, _].
Qed.

(** A struct's values go in under its fields, in the order of their keys. *)
Definition skipped (f : field) (v : val) : bool :=
  Ignore (parseTag (Tag f)) || (OmitEmpty (parseTag (Tag f)) && IsEmptyValue (FieldType f) v).

Fixpoint kept (fs : list field) (vs : list val) (i : nat) : list (nat * entry) :=
  match fs, vs with
  | f :: fs', v :: vs' => ((if skipped f v then [] else [(i, (tag_key f, (FieldType f, v)))]) ++ kept fs' vs' (S i))%list
  | _, _ => []
  end.

Definition by_key (x y : nat * entry) : bool := str_lt x.2.1 y.2.1.

Lemma sort_by_map {A B} (lt : A -> A -> bool) (lt' : B -> B -> bool) (g : A -> B) l :
  (forall a b, lt' (g a) (g b) = lt a b) -> sort_by lt' (map g l) = map g (sort_by lt l).
Proof.
  intros Hg. assert (forall x acc, insert_sorted lt' (g x) (map g acc) = map g (insert_sorted lt x acc)) as Hins.
  { intros x acc. induction acc as [|y acc IH]; cbn; [done|]. rewrite Hg. destruct (lt x y); cbn; [done|by rewrite IH]. }
  unfold sort_by. change (@nil B) with (map g []). generalize (@nil A) as acc. induction l as [|x l IH]; intros acc; cbn [map foldl]; [done|].
  by rewrite Hins, IH.
Qed.

Lemma struct_text fs vs : reflectValue IsEmptyValue (TStruct fs) (VStruct vs) =
  within "d" "e" (concat_written (map text_of (map snd (sort_by by_key (kept fs vs 0))))).
Proof.
  cbn [reflectValue]. unfold write_dict.
  assert (forall i, (fix fields (fs : list field) (vs : list val) : list (string * written) :=
        match fs, vs with
        | (mkField n tg t as f) :: fs', v :: vs' => app (encode_field IsEmptyValue f v (reflectValue IsEmptyValue t v)) (fields fs' vs')
        | _, _ => []
        end) fs vs = map (fun x => (x.2.1, reflectValue IsEmptyValue x.2.2.1 x.2.2.2)) (kept fs vs i)) as Hall.
  { revert vs. induction fs as [|[nm tg ft] fs IH]; intros [|v vs] i; try done. rewrite (IH vs (S i)). cbn [kept]. rewrite map_app. f_equal.
    unfold encode_field, skipped. cbn [Tag FieldType]. by destruct (_ || _). }
  rewrite (Hall 0%nat). rewrite (sort_by_map by_key) by done. by rewrite !map_map.
Qed.

Lemma faithful_fields fs vs : faithful (TStruct fs) (VStruct vs) -> NoDup (field_keys fs) /\
  forall i f v, fs !! i = Some f -> vs !! i = Some v -> if skipped f v then v = zero (FieldType f) else len (tag_key f) <= max /\ faithful (FieldType f) v.
Proof.
  intros [Hnd Hf]. split; [done|]. clear Hnd. revert vs Hf. induction fs as [|[nm tg ft] fs IH]; intros [|v vs] Hf [|i] f w Hi Hw; try done.
  - injection Hi as <-. injection Hw as <-. by destruct Hf.
  - destruct Hf as [_ Hf]. by apply (IH vs Hf i).
Qed.

Lemma kept_spec fs vs j x : x ∈ kept fs vs j -> exists f v, (j <= x.1)%nat /\ fs !! (x.1 - j)%nat = Some f /\ vs !! (x.1 - j)%nat = Some v /\
  x.2 = (tag_key f, (FieldType f, v)) /\ skipped f v = false.
Proof.
  revert vs j. induction fs as [|f fs IH]; intros [|v vs] j; cbn [kept]; try by intros ?%elem_of_nil.
  intros [Hx|Hx]%elem_of_app.
  - destruct (skipped f v) eqn:Hs; [by apply elem_of_nil in Hx|]. apply list_elem_of_singleton in Hx as ->. exists f, v. cbn. by rewrite Nat.sub_diag.
  - apply IH in Hx as (g & w & Hj & Hg & Hw & He & Hs). exists g, w. replace (x.1 - j)%nat with (S (x.1 - S j)) by lia. split_and!; [lia|done..].
Qed.

Lemma kept_all fs vs i j f v : fs !! i = Some f -> vs !! i = Some v -> skipped f v = false -> (j + i)%nat ∈ map fst (kept fs vs j).
Proof.
  revert vs i j. induction fs as [|g fs IH]; intros [|w vs] [|i] j Hf Hv Hs; try done; cbn [kept]; rewrite map_app; apply elem_of_app.
  - injection Hf as ->. injection Hv as ->. rewrite Hs. left. rewrite Nat.add_0_r. by left.
  - right. rewrite <- Nat.add_succ_comm. by apply (IH vs i (S j)).
Qed.

Lemma decoded_kept f v : skipped f v = false -> decoded f = true.
Proof.
  unfold skipped, decoded. intros [Hi _]%orb_false_iff. destruct (String.eqb_spec (Tag f) "-") as [E|]; [|done]. by rewrite E in Hi.
Qed.

Lemma same_key fs i j f g : NoDup (field_keys fs) -> fs !! i = Some f -> fs !! j = Some g -> decoded f = true -> decoded g = true ->
  tag_key f = tag_key g -> i = j.
Proof.
  unfold field_keys. revert i j. induction fs as [|h fs IH]; intros [|i] [|j] Hnd Hf Hg Hdf Hdg Hk; try done; cbn in *.
  - injection Hf as ->. rewrite Hdf in Hnd. apply NoDup_cons in Hnd as [Hn _]. exfalso. apply Hn. rewrite Hk.
    apply list_elem_of_In, in_map, filter_In. split; [by apply list_elem_of_In, list_elem_of_lookup_2 with j|done].
  - injection Hg as ->. rewrite Hdg in Hnd. apply NoDup_cons in Hnd as [Hn _]. exfalso. apply Hn. rewrite <- Hk.
    apply list_elem_of_In, in_map, filter_In. split; [by apply list_elem_of_In, list_elem_of_lookup_2 with i|done].
  - f_equal. apply IH; [|done..]. destruct (decoded h); [by apply NoDup_cons in Hnd as [_ Hnd]|done].
Qed.

Lemma getStructFieldForKey_found fs i f : NoDup (field_keys fs) -> fs !! i = Some f -> decoded f = true ->
  getStructFieldForKey fs (tag_key f) 0 = Some (i, f).
Proof.
  intros Hnd Hi Hd. destruct (getStructFieldForKey fs (tag_key f) 0) as [[j g]|] eqn:E.
  - apply getStructFieldForKey_spec in E as (_ & Hg & Hdg & Hk). rewrite Nat.sub_0_r in Hg.
    assert (i = j) as <- by by apply (same_key fs i j f g). rewrite Hi in Hg. by injection Hg as <-.
  - exfalso. clear Hnd. revert i Hi E. generalize 0%nat as k. induction fs as [|h fs IH]; intros k [|i] Hi E; try done; cbn in *.
    + injection Hi as ->. destruct (getStructFieldForKey fs _ _) as [[]|]; [done|]. by rewrite Hd, String.eqb_refl in E.
    + destruct (getStructFieldForKey fs _ (S k)) as [[]|] eqn:E'; [done|]. by apply (IH (S k) i Hi).
Qed.

Lemma fields_built fs vs K l : length l = length vs ->
  (forall x, x ∈ K -> exists f v, fs !! x.1 = Some f /\ vs !! x.1 = Some v /\ x.2 = (tag_key f, (FieldType f, v)) /\
     getStructFieldForKey fs (tag_key f) 0 = Some (x.1, f)) ->
  (forall j, j ∉ map fst K -> l !! j = vs !! j) ->
  foldl (dict_set (TStruct fs)) (VStruct l) (map snd K) = VStruct vs.
Proof.
  revert l. induction K as [|[i x] K IH]; intros l Hl HK Hrest; cbn [map foldl].
  - f_equal. apply list_eq. intros j. apply Hrest. apply not_elem_of_nil.
  - destruct (HK (i, x)) as (f & v & Hf & Hv & Hx & Hget); [by left|]. cbn [fst snd] in *. subst x.
    unfold dict_set at 2. cbn [fst snd getDictField]. rewrite Hget. apply IH.
    + by rewrite length_insert.
    + intros y Hy. apply HK. by right.
    + intros j Hj. destruct (decide (j = i)) as [->|Hne].
      * rewrite list_lookup_insert_eq; [done|]. rewrite Hl. by eapply lookup_lt_Some.
      * rewrite list_lookup_insert_ne by done. apply Hrest. cbn. rewrite elem_of_cons. tauto.
Qed.

Lemma parse_struct_at fs vs s d r (Hkey : keyed rec) : has_type (TStruct fs) (VStruct vs) -> faithful (TStruct fs) (VStruct vs) ->
  reflectValue IsEmptyValue (TStruct fs) (VStruct vs) = Ok s -> rest d = s +:+ r -> (size d < S n)%nat ->
  arrives (TStruct fs) d s r (VStruct vs) (parse_kind M rec iface n (TStruct fs) (zero (TStruct fs)) d).
Proof using Hrec Hstop.
  intros Ht Hf Hs Hr Hn. apply has_type_struct in Ht. apply faithful_fields in Hf as [Hnd Hf]. rewrite struct_text in Hs.
  set (K := sort_by by_key (kept fs vs 0)) in *.
  assert (forall x, x ∈ K -> exists f v, fs !! x.1 = Some f /\ vs !! x.1 = Some v /\ x.2 = (tag_key f, (FieldType f, v)) /\ skipped f v = false) as HK.
  { intros x Hx. unfold K in Hx. rewrite sort_by_perm in Hx. apply kept_spec in Hx as (f & v & _ & Hfx & Hvx & H). rewrite Nat.sub_0_r in *. by exists f, v. }
  assert (foldl (dict_set (TStruct fs)) (zero (TStruct fs)) (map snd K) = VStruct vs) as Hbuilt.
  { cbn [zero]. apply fields_built.
    - rewrite length_map. by eapply Forall2_length.
    - intros x Hx. destruct (HK x Hx) as (f & v & Hfx & Hvx & He & Hsk). exists f, v. split_and!; [done..|].
      apply getStructFieldForKey_found; [done..|by eapply decoded_kept].
    - intros j Hj. rewrite list_lookup_fmap. destruct (fs !! j) as [f|] eqn:Hfj; cbn.
      + destruct (Forall2_lookup_l _ _ _ _ _ Ht Hfj) as (v & Hv & _). rewrite Hv. f_equal. specialize (Hf j f v Hfj Hv).
        destruct (skipped f v) eqn:Hsk; [done|]. exfalso. apply Hj. unfold K. rewrite sort_by_perm. by apply (kept_all fs vs j 0 f v).
      + symmetry. apply lookup_ge_None. rewrite <- (Forall2_length _ _ _ Ht). by apply lookup_ge_None. }
  rewrite <- Hbuilt. apply parse_dict_at; [done|done| |done|done|done].
  apply Forall_forall. intros e He. apply list_elem_of_fmap in He as (x & -> & Hx). destruct (HK x Hx) as (f & v & Hfx & Hvx & -> & Hsk).
  pose proof (Hf _ _ _ Hfx Hvx) as Hfv. rewrite Hsk in Hfv. destruct Hfv as [Hlen Hfv]. split_and!; [done| |done| |].
  - pose proof (Forall2_lookup_lr _ _ _ _ _ _ Ht Hfx Hvx) as Htv. exact Htv.
  - cbn [leaves fst snd]. intros Hl. apply (existsb_none _ _ f Hl). by eapply list_elem_of_lookup_2.
  - cbn [getDictField fst snd]. rewrite (getStructFieldForKey_found fs x.1 f Hnd Hfx (decoded_kept _ _ Hsk)). by eexists _, _.
Qed.
End loops.

(** *** Raw values: what is read does not depend on what follows *)

Definition ext (d : dec) (o : Z) (x : string) : dec := mkDec (rest d +:+ x) (Offset d + o) (buf d).

Lemma until_ext sep s p r x : until sep s = (p, Some r) -> until sep (s +:+ x) = (p, Some (r +:+ x)).
Proof.
  revert p. induction s as [|c s IH]; intros p; [done|]. change (String c s +:+ x) with (String c (s +:+ x)). cbn [until].
  destruct (Ascii.eqb c sep); [by intros [= <- <-]|]. destruct (until sep s) as [q y]. intros [= <- ->]. by rewrite (IH q).
Qed.

Lemma readUntil_ext sep d d' o x : readUntil sep d = Ok d' -> readUntil sep (ext d o x) = Ok (ext d' o x).
Proof.
  unfold readUntil. destruct (until sep (rest d)) as [p [r|]] eqn:Hu; [|done]. intros [= <-]. cbn [ext rest].
  rewrite (until_ext _ _ _ _ x Hu). unfold ext. cbn [rest Offset buf]. do 2 f_equal. lia.
Qed.

Lemma split_at_ext n s a b x : split_at n s = Some (a, b) -> split_at n (s +:+ x) = Some (a, b +:+ x).
Proof. intros [-> <-]%split_at_spec. rewrite string_app_assoc. apply split_at_app. Qed.

Definition one_ext (o : Z) (x : string) (y : one) : one :=
  match y with One d => One (ext d o x) | NoOne d => NoOne (ext d o x) | _ => y end.

Definition sure (y : one) : bool := match y with One _ | NoOne _ => true | _ => false end.

Lemma read_values_ext read read' k k' d o x : (k <= k')%nat ->
  (forall d, sure (read d) = true -> read' (ext d o x) = one_ext o x (read d)) ->
  sure (read_values read k d) = true -> read_values read' k' (ext d o x) = one_ext o x (read_values read k d).
Proof.
  intros Hk Hr. revert k' Hk d. induction k as [|k IH]; intros k' Hk d; [done|]. destruct k' as [|k']; [lia|]. cbn [read_values].
  destruct (read d) as [d1|d1|e|] eqn:E; [| |done..]; rewrite (Hr d) by (by rewrite E); rewrite E; cbn [one_ext].
  - intros Hs. apply IH; [lia|done].
  - destruct (readByte d1) as [[b d2]|] eqn:Hb; [|done]. intros _. apply readByte_spec in Hb as Hb'. destruct Hb' as [Hr1 Hb1].
    unfold readByte in Hb. rewrite Hr1 in Hb. injection Hb as Hb. rewrite (readByte_at (ext d1 o x) b (rest d2 +:+ x)); [|cbn; by rewrite Hr1].
    assert (Offset d2 = Offset d1 + 1) as Ho by (by rewrite <- Hb).
    cbn [one_ext]. unfold write, ext. cbn [rest Offset buf]. rewrite Ho, Hb1. do 2 f_equal. lia.
Qed.

Lemma readOneValue_ext k k' d o x : (k <= k')%nat -> sure (readOneValue k d) = true ->
  readOneValue k' (ext d o x) = one_ext o x (readOneValue k d).
Proof.
  revert k' d. induction k as [|k IH]; intros k' d Hk; [done|]. destruct k' as [|k']; [lia|]. cbn [readOneValue].
  destruct (rest d) as [|b r] eqn:Hr; [done|]. cbn [ext rest]. rewrite Hr. change (String b r +:+ x) with (String b (r +:+ x)). cbn match.
  destruct (Ascii.eqb b "e"); [intros _; cbn [one_ext]; unfold ext; by rewrite ?Hr|]. cbn [buf].
  set (d1 := mkDec r (Offset d + 1) _).
  replace (mkDec (r +:+ x) _ _) with (ext d1 o x) by (unfold ext, d1; cbn [rest Offset buf]; f_equal; lia). destruct (_ || _).
  { intros Hs. apply read_values_ext; [lia|intros d0; apply IH; lia|done]. }
  destruct (Ascii.eqb b "i").
  { destruct (readUntil "e" d1) as [d2|] eqn:Hu; [|done]. intros _. by rewrite (readUntil_ext _ _ _ o x Hu). }
  destruct (digit b); [|done]. destruct (readUntil ":" d1) as [d2|] eqn:Hu; [|done]. rewrite (readUntil_ext _ _ _ o x Hu). cbn [ext buf rest Offset].
  destruct (ParseInt _) as [z|]; [|done]. destruct (split_at _ (rest d2)) as [[a y]|] eqn:Hs; [|done]. intros _.
  rewrite (split_at_ext _ _ _ _ x Hs). unfold one_ext, ext. cbn [rest Offset buf]. do 2 f_equal. lia.
Qed.

Lemma parse_bytes_at rec iface n d s r : one_value s -> rest d = s +:+ r -> (size d < S n)%nat ->
  arrives TBytes d s r (VBytes s) (parse_in M rec iface n TBytes (zero TBytes) d).
Proof.
  intros Ho Hr Hn. cbn [parse_in]. assert (reset d = ext (mkDec s 0 "") (Offset d) r) as -> by (unfold reset, ext; cbn; by rewrite Hr).
  unfold one_value in Ho. rewrite (readOneValue_ext (S (String.length s))); [| |by rewrite Ho].
  - rewrite Ho. cbn [one_ext]. eexists. split; [done|]. unfold ext. cbn [rest Offset buf]. split_and!; [done|lia|done].
  - unfold size in Hn. rewrite Hr, string_app_length in Hn. lia.
Qed.

(** *** Any type *)

Lemma parse_in_at n t v s d r : reads n (parseValue M n) -> stops n (parseValue M n) -> keyed n (parseValue M n) -> (forall e, t <> TPtr e) ->
  has_type t v -> faithful t v -> reflectValue IsEmptyValue t v = Ok s -> rest d = s +:+ r -> (size d < S n)%nat ->
  (needs t = true -> buf d = "") -> arrives t d s r v (parse_in M (parseValue M n) (parseValueInterface M (S n)) n t (zero t) d).
Proof using HM.
  intros Hrec Hstop Hkey Hp Ht Hf Hs Hr Hn Hb. destruct t as [w|w| | |e|m e|e|fs|e| |]; cbn [needs] in Hb.
  - destruct v; try done. injection Hs as <-. cbn [parse_in]. apply arrives_after, parse_int_at; auto.
  - destruct v; try done. injection Hs as <-. cbn [parse_in]. apply arrives_after, parse_uint_at; auto.
  - destruct v; try done. injection Hs as <-. cbn [parse_in]. apply arrives_after, parse_bool_at; auto.
  - destruct v; try done. injection Hs as <-. cbn [parse_in]. by apply arrives_after, parse_string_at.
  - cbn [parse_in zero]. destruct v as [| | | |l| | | | |]; try done; try (by destruct e as [|[]| | | | | | | | |]).
    destruct e as [|[]| | | | | | | | |]; try (by destruct Hf; apply parse_list_at).
    injection Hs as <-. destruct (byte_vals_of l Ht) as [Hv Hl]. apply arrives_after, parse_string_at; [done|unfold len; by rewrite Hl|intros; by rewrite Hv].
  - destruct v as [| | | |l| | | | |]; try done; try (by destruct e as [|[]| | | | | | | | |]).
    destruct e as [|[]| | | | | | | | |]; try done. destruct Ht as [Hm Ht]. injection Hs as <-. destruct (byte_vals_of l Ht) as [Hv Hl].
    cbn [parse_in]. apply arrives_after, parse_string_at; [done|unfold len; by rewrite Hl|]. intros d0. cbn [zero]. do 3 f_equal.
    rewrite Hv. unfold copy_into. rewrite length_replicate, <- Hm, firstn_all, skipn_all2, app_nil_r; [done|]. rewrite length_replicate. lia.
  - cbn [parse_in zero]. destruct v as [| | | | |l| | | |]; try done.
    + injection Hs as <-. exact (parse_dict_at _ _ _ Hrec Hstop (TMap e) [] VNil "de" d r Hkey (fun _ => eq_refl) (List.Forall_nil _) eq_refl Hr Hn).
    + by apply parse_map_at.
  - destruct v; try done. by apply parse_struct_at.
  - by destruct (Hp e).
  - destruct v as [| | | | | | | |i|]; try done. cbn [parse_in reflectValue] in *.
    rewrite (parseValueInterface_at (S n) i s d r); [by apply arrives_after|done|done|done|done|by apply Hb|done].
  - destruct v as [| | | | | | | | |y]; try done. cbn [reflectValue] in Hs. destruct (String.eqb y ""); [done|]. injection Hs as <-. by apply parse_bytes_at.
Qed.

Lemma parseValue_at n : reads n (parseValue M n).
Proof using HM.
  induction n as [|n IH]; [intros t v s d r; lia|].
  assert (stops n (parseValue M n)) as Hstop by (intros t cur d r Ht Hr Hn; destruct n; [lia|]; by apply parseValue_end).
  assert (keyed n (parseValue M n)) as Hkey.
  { intros key d r Hr Hk Hn. destruct n; [lia|]. cbn [parseValue parse_in]. by apply parse_string_at. }
  intros t v s d r Ht Hf Hs Hr Hn Hb. cbn [parseValue]. destruct t as [w|w| | |e|m e|e|fs|e| |]; try by apply parse_in_at.
  destruct v as [| | | | | | |v| |]; try done; try (by destruct e). cbn [zero].
  assert ((forall e', e <> TPtr e') /\ faithful e v) as [He Hfe] by (cbn in Hf; by destruct e).
  destruct (parse_in_at n e v s d r IH Hstop Hkey He Ht Hfe) as (d' & Heq & H); [by destruct e|done|done|done|].
  rewrite Heq. by exists d'.
Qed.
End faithful.
End reread.

(** C13: decoding ends and reads forward.  Whatever the bytes, the type and the variable, [Decode] comes to an
    answer with the steps the length of its input allows; and when the answer is no error, it has
    read at least one byte, what it has not read is left to the next call, and [Offset] has grown by
    the number of bytes read. *)
Theorem Decode_returns M t cur d :
  let '(d', _, a) := Decode M t cur d in
  a <> OutOfFuel /\ (a = NoError -> exists p, p <> "" /\ rest d = p +:+ rest d' /\ Offset d' = Offset d + len p).
Proof.
  pose proof (Decode_forward M t cur d) as H. destruct (Decode M t cur d) as [[d' v] a]. destruct H as [Ha Hs]. split; [done|].
  intros E. destruct (Hs E) as [(p & Hp & Ho) Hlt]. exists p. split_and!; [|done|done]. intros ->. rewrite Hp in Hlt. change ("" +:+ rest d') with (rest d') in Hlt. lia.
Qed.

(** C8: reflection sets nothing to a value of another type.  From a variable holding a value of its
    type, [Decode] leaves it holding one, whether it returns no error, an error or recovers from
    a panic, and wherever in the input that happens: integers are within their width, arrays keep their
    length, structs their fields, and a map's keys are distinct. *)
Theorem Decode_typed M t cur d (Hc : has_type t cur) : has_type t (Decode M t cur d).1.2.
Proof.
  unfold Decode. pose proof (parseValue_typed M (S (String.length (rest d))) t cur d Hc) as H.
  destruct (parseValue _ _ _ _ _) as [[d1 v] o]. by destruct o.
Qed.

(** An empty interface is read from one text only.  What [Unmarshal] takes into an [interface{}] without
    an error, [Marshal] writes back byte for byte: no number has a second spelling, no dict a
    second order of keys, and nothing is left over. *)
Theorem Unmarshal_canonical IsEmptyValue data cur v (Hu : Unmarshal data TAny cur = (v, NoError)) :
  Marshal IsEmptyValue TAny v = Ok data.
Proof.
  revert Hu. unfold Unmarshal, Decode. set (n := String.length (rest (mkDec data 0 ""))). cbn [parseValue parse_in].
  pose proof (parseValueInterface_took 0 (S n) (mkDec data 0 "") eq_refl) as H. change (parseValueInterface 0 (S n)) with (parseValueInterface 0 (S n)) in *.
  destruct (parseValueInterface 0 (S n) (mkDec data 0 "")) as [i d|d|e|]; try done.
  destruct H as (s & Hw & Hr & _). cbn [rest] in Hr. destruct (Nat.eqb_spec (String.length (rest d)) 0) as [Hz|]; [|done].
  intros [= <-]. cbn [Marshal reflectValue]. rewrite Hw, Hr. destruct (rest d); [by rewrite string_app_nil_r|done].
Qed.

(** C7: a value comes back as it was written.  A value of its type that [Marshal] writes, and that has a text
    of its own ([faithful]), [Unmarshal] reads back into a new variable of that type, whole and with
    nothing left over. *)
Theorem Unmarshal_Marshal IsEmptyValue t v data (Ht : has_type t v) (Hf : faithful 0 IsEmptyValue t v)
    (Hm : Marshal IsEmptyValue t v = Ok data) : Unmarshal data t (zero t) = (v, NoError).
Proof.
  assert (reflectValue IsEmptyValue t v = Ok data) as Hs by (unfold Marshal in Hm; by destruct t, v).
  unfold Unmarshal, Decode. cbn [rest].
  destruct (parseValue_at 0 ltac:(done) IsEmptyValue (S (String.length data)) t v data (mkDec data 0 "") "" Ht Hf Hs) as (d' & -> & Hr & _).
  - cbn [rest]. by rewrite string_app_nil_r.
  - unfold size. cbn [rest]. lia.
  - done.
  - cbn. by rewrite Hr.
Qed.

(** ** On real values *)

Definition none_empty (_ : ty) (v : val) : bool :=
  match v with VNil | VInt 0 | VString "" | VBool false | VSeq [] => true | _ => false end.

(** The shape of a metainfo file. *)
Definition torrentFile : ty := TStruct
  [mkField "InfoBytes" "info,omitempty" TBytes;
   mkField "Announce" "announce,omitempty" TString;
   mkField "AnnounceList" "announce-list,omitempty" (TSlice (TSlice TString));
   mkField "CreationDate" "creation date,omitempty,ignore_unmarshal_type_error" (TInt W64);
   mkField "Skipped" "-" (TInt W8);
   mkField "Private" "private,omitempty" (TPtr TBool);
   mkField "PieceLayers" "piece layers,omitempty" (TMap TString);
   mkField "Extra" "" TAny].

Definition a_torrent : val := VStruct
  [VBytes "d4:name1:ae"; VString "udp://t"; VSeq [VSeq [VString "a"; VString "b"]; VSeq []]; VInt (-12); VInt 0;
   VPtr (VBool true); VMap [("k", VString "x"); ("l", VString "")]; VAny (IDict [("a", IInt 5); ("b", IList [IStr "c"])])].

Definition a_text : string :=
  "d5:Extrad1:ai5e1:bl1:cee8:announce7:udp://t13:announce-listll1:a1:belee13:creation datei-12e4:infod4:name1:ae12:piece layersd1:k1:x1:l0:e7:privatei1ee".

Lemma a_torrent_typed : has_type torrentFile a_torrent.
Proof. repeat split; repeat constructor. Qed.

Lemma short (s : string) : (len s <=? DefaultDecodeMaxStrLen) = true -> len s <= getMaxStrLen 0.
Proof. intros H. by apply Z.leb_le in H. Qed.

Lemma a_torrent_faithful : faithful 0 none_empty torrentFile a_torrent.
Proof.
  split; [by apply (bool_decide_unpack _); vm_compute|].
  repeat match goal with
  | |- _ /\ _ => split
  | |- if ?b then _ else _ => let x := eval vm_compute in b in change b with x; cbn iota
  | |- Forall _ _ => constructor
  | |- len _ <= _ => apply short; vm_compute; reflexivity
  | |- _ <> [] => discriminate
  | |- one_value _ => vm_compute; reflexivity
  | |- _ => first [reflexivity|exact I|progress (cbn [faithful fst snd told_apart item_fits foldr])]
  end.
Qed.

Lemma Decode_typed_witness : has_type torrentFile (zero torrentFile) /\
  has_type torrentFile (Decode 0 torrentFile (zero torrentFile) (mkDec "d8:announcei5ee" 0 "")).1.2.
Proof. split; [exact (zero_typed torrentFile)|apply Decode_typed; exact (zero_typed torrentFile)]. Defined.

Lemma Unmarshal_canonical_witness : Unmarshal "d1:ai5e1:bl0:ee" TAny VNil = (VAny (IDict [("a", IInt 5); ("b", IList [IStr ""])]), NoError) /\
  Marshal none_empty TAny (VAny (IDict [("a", IInt 5); ("b", IList [IStr ""])])) = Ok "d1:ai5e1:bl0:ee".
Proof. split; [vm_compute; reflexivity|]. apply (Unmarshal_canonical none_empty _ VNil). vm_compute. reflexivity. Defined.

Lemma Unmarshal_Marshal_witness : Marshal none_empty torrentFile a_torrent = Ok a_text /\ Unmarshal a_text torrentFile (zero torrentFile) = (a_torrent, NoError).
Proof.
  split; [vm_compute; reflexivity|].
  apply (Unmarshal_Marshal none_empty); [exact a_torrent_typed|exact a_torrent_faithful|vm_compute; reflexivity].
Defined.

(** *** Where the code falls short of what it means to do *)

(** The tag [ignore_unmarshal_type_error] is there so that a field of the wrong kind is passed over.  A
    list whose first element is of another kind is left half read: its end mark ends the dict, and the
    fields that follow are lost. *)
Lemma ignored_list_left_open :
  Unmarshal "d13:creation date5:today4:infod4:name1:aee" torrentFile (zero torrentFile) =
    (VStruct [VBytes "d4:name1:ae"; VString ""; VNil; VInt 0; VInt 0; VNil; VNil; VNil], NoError) /\
  Unmarshal "d13:creation datel5:todaye4:infod4:name1:aee" torrentFile (zero torrentFile) =
    (zero torrentFile, Error (TrailingBytes 18)).
Proof. split; vm_compute; reflexivity. Qed.

(** No list is read into a slice of interfaces: its end mark is taken for an element. *)
Lemma slice_of_interfaces : Unmarshal "le" (TSlice TAny) VNil = (VSeq [VNil], Error Reflection) /\
  Unmarshal "li1ee" (TSlice TAny) VNil = (VSeq [VAny (IInt 1); VNil], Error Reflection).
Proof. split; vm_compute; reflexivity. Qed.

(** An array of anything but bytes is read but cannot be written. *)
Lemma array_not_written IsEmptyValue :
  Unmarshal "li1ei2ee" (TArray 2 (TInt W64)) (zero (TArray 2 (TInt W64))) = (VSeq [VInt 1; VInt 2], NoError) /\
  Marshal IsEmptyValue (TArray 2 (TInt W64)) (VSeq [VInt 1; VInt 2]) = Err ReflectError.
Proof. split; vm_compute; reflexivity. Qed.
