(* ===== verification/Yield.v ===== *)
(** * Making way for an episode: internal/library/play.go (yield, yieldWanted, resumeYielded, Suspend)

    While an episode starts, other shows' background downloads are paused, and they are resumed once
    nothing is playing or starting.  Starts, streams that close and the rest of the program run side by side, so the
    moves of [yield] and [resumeYielded] are the steps of a relation: each goroutine is at a point of
    its code, and between two of its store or engine calls anything may happen ([others]).  The engine is known by
    lower-case hash.  [Suspend] is a function of what its calls answer. *)
From stdpp Require Import base gmap sets strings list relations.
From Stdlib Require Import ZArith Lia.
From S2P Require Import Prelude GoStr.

(** ** The state *)

(** A [store.CacheEntry], the columns read here. *)
Record row := mkRow { InfoHash : string; FileIndex : Z; AnimeID : option Z; EpKey : string; Complete : bool; Pinned : bool; Kept : bool }.

(** A torrent in the engine: [Stats]'s state is not "paused"; [Finished]. *)
Record tor := mkTor { id : Z; running : bool; finished : bool }.

(** Where a [Start] is in its [yield]: it has been counted; it has the cache's entries; it goes through them with the
    engine's list, and what it has paused; or it has returned. *)
Inductive starter :=
  | Counted (anime : Z)
  | Listed (anime : Z) (entries : list row)
  | Pausing (anime : Z) (entries : list row) (live : gset string) (paused : gset string)
  | Waiting.

(** Where a [resumeYielded] is: entered; past the check that nothing starts; past the check that nothing is
    pinned; with the hashes it took; or starting them again. *)
Inductive resumer := Entered | Idle | Unwatched | Took (hashes : list string) | Starting (hashes : list string) (live : gset string).

(** [asleep] follows what [yield] paused and nothing has resumed since, and [lost] what a [resumeYielded] took
    and could not resume. *)
Record world := mkWorld {
  rows : list row; engine : gmap string tor; yielded : list string; starting : Z;
  starters : list starter; resumers : list resumer; asleep : gset string; lost : gset string;
}.

Definition set_engine (e : gmap string tor) (w : world) : world :=
  mkWorld (rows w) e (yielded w) (starting w) (starters w) (resumers w) (asleep w) (lost w).
Definition set_starters (s : list starter) (w : world) : world :=
  mkWorld (rows w) (engine w) (yielded w) (starting w) s (resumers w) (asleep w) (lost w).
Definition set_resumers (r : list resumer) (w : world) : world :=
  mkWorld (rows w) (engine w) (yielded w) (starting w) (starters w) r (asleep w) (lost w).
Definition set_yielded (y : list string) (w : world) : world :=
  mkWorld (rows w) (engine w) y (starting w) (starters w) (resumers w) (asleep w) (lost w).
Definition set_starting (n : Z) (w : world) : world :=
  mkWorld (rows w) (engine w) (yielded w) n (starters w) (resumers w) (asleep w) (lost w).
Definition set_asleep (a : gset string) (w : world) : world :=
  mkWorld (rows w) (engine w) (yielded w) (starting w) (starters w) (resumers w) a (lost w).
Definition set_lost (l : gset string) (w : world) : world :=
  mkWorld (rows w) (engine w) (yielded w) (starting w) (starters w) (resumers w) (asleep w) l.

Section yield.
Context `{Unicode}.

Definition hash_of (e : row) : string := to_lower (InfoHash e).

(** ** The tests *)

(** The rows [yield] goes past. *)
Definition spared (anime : Z) (paused : gset string) (e : row) : bool :=
  Complete e || Pinned e || Kept e || match AnimeID e with None => true | Some a => a =? anime end || bool_decide (hash_of e ∈ paused).

(** [yieldWanted], from the preference, the episode's file if it has one, and whether that is whole. *)
Definition yieldWanted (while_watching : option string) (file : option (string * Z)) (complete finished : bool) : bool :=
  if match while_watching with Some v => String.eqb v "continue" | None => false end then false
  else match file with
    | None => true
    | Some (h, _) => if String.eqb h "" then true else negb complete && negb finished
    end.

Definition pause (h : string) (e : gmap string tor) : gmap string tor := alter (fun t => mkTor (id t) false (finished t)) h e.
Definition restart (h : string) (e : gmap string tor) : gmap string tor := alter (fun t => mkTor (id t) true (finished t)) h e.

Definition pauses (t : tor) : bool := negb (finished t) && running t.

(** ** The steps *)

Definition replace {A} (i : nat) (x : option A) (l : list A) : list A :=
  match x with Some x => <[i := x]> l | None => delete i l end.

Definition starter_to (i : nat) (s : starter) (w : world) : world := set_starters (<[i := s]> (starters w)) w.
Definition resumer_to (i : nat) (r : option resumer) (w : world) : world := set_resumers (replace i r (resumers w)) w.

Inductive step : world -> world -> Prop :=
  (** A [Start] counts itself and yields. *)
  | counts w a : step w (set_starters (starters w ++ [Counted a]) (set_starting (starting w + 1) w))
  | unwanted w i a : starters w !! i = Some (Counted a) -> step w (starter_to i Waiting w)
  | lists w i a : starters w !! i = Some (Counted a) -> step w (starter_to i (Listed a (rows w)) w)
  | no_engine w i a l : starters w !! i = Some (Listed a l) -> step w (starter_to i Waiting w)
  | sees w i a l : starters w !! i = Some (Listed a l) -> step w (starter_to i (Pausing a l (dom (engine w)) ∅) w)
  (** A row spared, not in the engine, or gone, done or paused since. *)
  | passes w i a e l live p : starters w !! i = Some (Pausing a (e :: l) live p) ->
      spared a p e = true \/ hash_of e ∉ live \/ (forall t, engine w !! hash_of e = Some t -> pauses t = false) ->
      step w (starter_to i (Pausing a l live p) w)
  (** The engine did not say, or would not pause it. *)
  | refused w i a e l live p : starters w !! i = Some (Pausing a (e :: l) live p) -> spared a p e = false -> hash_of e ∈ live ->
      step w (starter_to i (Pausing a l live p) w)
  | puts_to_sleep w i a e l live p t : starters w !! i = Some (Pausing a (e :: l) live p) -> spared a p e = false ->
      hash_of e ∈ live -> engine w !! hash_of e = Some t -> pauses t = true ->
      step w (starter_to i (Pausing a l live ({[hash_of e]} ∪ p))
               (set_asleep ({[hash_of e]} ∪ asleep w) (set_engine (pause (hash_of e) (engine w)) w)))
  | publishes w i a live p : starters w !! i = Some (Pausing a [] live p) ->
      step w (starter_to i Waiting (set_yielded (yielded w ++ elements p) w))
  (** The [Start] returns, and resumes what it had paused unless it plays. *)
  | plays w i : starters w !! i = Some Waiting ->
      step w (set_starters (delete i (starters w)) (set_starting (starting w - 1) w))
  | gives_up w i : starters w !! i = Some Waiting ->
      step w (set_resumers (resumers w ++ [Entered]) (set_starters (delete i (starters w)) (set_starting (starting w - 1) w)))
  (** A stream or the player closes: the end of a [Suspend]. *)
  | closes w : step w (set_resumers (resumers w ++ [Entered]) w)
  | is_busy w i : resumers w !! i = Some Entered -> 0 < starting w -> step w (resumer_to i None w)
  | is_idle w i : resumers w !! i = Some Entered -> starting w <= 0 -> step w (resumer_to i (Some Idle) w)
  | is_watched w i e : resumers w !! i = Some Idle -> e ∈ rows w -> Pinned e = true -> step w (resumer_to i None w)
  | is_unwatched w i : resumers w !! i = Some Idle -> Forall (fun e => Pinned e = false) (rows w) ->
      step w (resumer_to i (Some Unwatched) w)
  (** The store did not say. *)
  | is_untold w i : resumers w !! i = Some Idle -> step w (resumer_to i (Some Unwatched) w)
  | takes w i : resumers w !! i = Some Unwatched -> step w (resumer_to i (Some (Took (yielded w))) (set_yielded [] w))
  | fails w i l : resumers w !! i = Some (Took l) -> step w (resumer_to i None (set_lost (list_to_set l ∪ lost w) w))
  | looks w i l : resumers w !! i = Some (Took l) -> step w (resumer_to i (Some (Starting l (dom (engine w)))) w)
  | wakes w i h l live : resumers w !! i = Some (Starting (h :: l) live) -> h ∈ live ->
      step w (resumer_to i (Some (Starting l live)) (set_asleep (asleep w ∖ {[h]}) (set_engine (restart h (engine w)) w)))
  (** Gone from the engine: there is nothing left to wake. *)
  | is_gone w i h l live : resumers w !! i = Some (Starting (h :: l) live) -> h ∉ live ->
      step w (resumer_to i (Some (Starting l live)) (set_asleep (asleep w ∖ {[h]}) w))
  (** The engine would not start it. *)
  | leaves w i h l live : resumers w !! i = Some (Starting (h :: l) live) -> h ∈ live ->
      step w (resumer_to i (Some (Starting l live)) (set_lost ({[h]} ∪ lost w) w))
  | finishes w i live : resumers w !! i = Some (Starting [] live) -> step w (resumer_to i None w)
  (** The rest of the program: streams that pin, sweeps, downloads, the user. *)
  | others w r e : step w (mkWorld r e (yielded w) (starting w) (starters w) (resumers w) (asleep w) (lost w)).

Definition at_rest (r : list row) (e : gmap string tor) : world := mkWorld r e [] 0 [] [] ∅ ∅.

Inductive reachable : world -> Prop :=
  | begins r e : reachable (at_rest r e)
  | goes_on w w' : reachable w -> step w w' -> reachable w'.

(** ** [resumeYielded], alone *)

(** One hash of the loop. *)
Definition wake (starts : string -> bool) (live : gset string) (w : world) (h : string) : world :=
  if bool_decide (h ∈ live) then
    if starts h then set_asleep (asleep w ∖ {[h]}) (set_engine (restart h (engine w)) w) else set_lost ({[h]} ∪ lost w) w
  else set_asleep (asleep w ∖ {[h]}) w.

(** What the store and the engine answer: the entries, the list of torrents, and which starts go through. *)
Definition resumeYielded (entries : option (list row)) (answers : bool) (starts : string -> bool) (w : world) : world :=
  if 0 <? starting w then w
  else if match entries with Some l => existsb Pinned l | None => false end then w
  else
    let hashes := yielded w in
    let w := set_yielded [] w in
    if match hashes with [] => true | _ => false end then w
    else if negb answers then set_lost (list_to_set hashes ∪ lost w) w
    else
      let live := dom (engine w) in
      foldl (wake starts live) w hashes.

(** ** [Suspend] *)

(** The file on record for the episode, whether the engine answers, and the preference to keep whole episodes.  The
    state it leaves before [resumeYielded] and the clean-up that follow. *)
Definition unpin (h : string) (index : Z) (l : list row) : list row :=
  map (fun e => if String.eqb (InfoHash e) h && (FileIndex e =? index)
                then mkRow (InfoHash e) (FileIndex e) (AnimeID e) (EpKey e) (Complete e) false (Kept e) else e) l.

Definition suspended (episode : Z) (anime : Z) (file : option (string * Z)) (answers : bool) (prefetch_full : option bool) (w : world) : world :=
  if (anime =? 0) || (episode <=? 0) then w
  else match file with
    | None => w
    | Some (h, index) =>
        let w := mkWorld (unpin h index (rows w)) (engine w) (yielded w) (starting w) (starters w) (resumers w) (asleep w) (lost w) in
        if negb answers then w
        else match engine w !! to_lower h with
          | None => w
          | Some t =>
              if finished t then w
              else if default false prefetch_full then w
              else set_engine (pause (to_lower h) (engine w)) w
          end
    end.

(** ** What is asleep is known *)

Definition paused_by (s : starter) : gset string := match s with Pausing _ _ _ p => p | _ => ∅ end.
Definition taken_by (r : resumer) : gset string := match r with Took l | Starting l _ => list_to_set l | _ => ∅ end.

Definition known (w : world) : gset string :=
  list_to_set (yielded w) ∪ ⋃ (map paused_by (starters w)) ∪ ⋃ (map taken_by (resumers w)) ∪ lost w.

Record inv (w : world) : Prop := {
  inv_starting : starting w = Z.of_nat (length (starters w));
  inv_known : asleep w ⊆ known w;
}.

Lemma union_insert_sub {A} (f : A -> gset string) l i x y :
  l !! i = Some x -> f x ⊆ f y -> ⋃ (map f l) ⊆ ⋃ (map f (<[i := y]> l)).
Proof.
  intros Hi Hxy z Hz. apply elem_of_union_list in Hz as (s & Hs & Hz). apply list_elem_of_fmap in Hs as (v & -> & Hv).
  apply list_elem_of_lookup in Hv as [j Hj]. apply elem_of_union_list. destruct (decide (i = j)) as [->|Hne].
  - rewrite Hi in Hj. injection Hj as <-. exists (f y). split; [|by apply Hxy]. apply list_elem_of_fmap_2, (list_elem_of_lookup_2 _ j).
    rewrite list_lookup_insert_eq; [done|]. by eapply lookup_lt_Some.
  - exists (f v). split; [|done]. apply list_elem_of_fmap_2, (list_elem_of_lookup_2 _ j). by rewrite list_lookup_insert_ne.
Qed.

Lemma union_insert_new {A} (f : A -> gset string) l i x y : l !! i = Some x -> f y ⊆ ⋃ (map f (<[i := y]> l)).
Proof.
  intros Hi z Hz. apply elem_of_union_list. exists (f y). split; [|done]. apply list_elem_of_fmap. exists y. split; [done|].
  apply (list_elem_of_lookup_2 _ i). rewrite list_lookup_insert_eq; [done|]. by eapply lookup_lt_Some.
Qed.

Lemma union_delete_sub {A} (f : A -> gset string) l i x : l !! i = Some x -> ⋃ (map f l) ⊆ f x ∪ ⋃ (map f (delete i l)).
Proof.
  intros Hi. rewrite <- (take_drop_middle l i x Hi) at 1. rewrite delete_take_drop, !map_app. cbn [map]. rewrite !union_list_app.
  cbn. set_solver.
Qed.

Lemma known_starter i s s' w : starters w !! i = Some s -> paused_by s ⊆ paused_by s' -> known w ⊆ known (starter_to i s' w).
Proof. intros Hi Hs. unfold known. cbn. pose proof (union_insert_sub paused_by _ _ _ _ Hi Hs). set_solver. Qed.

Lemma known_resumer i r r' w : resumers w !! i = Some r -> taken_by r ⊆ from_option taken_by ∅ r' -> known w ⊆ known (resumer_to i r' w).
Proof.
  intros Hi Hr. unfold known. cbn. destruct r' as [r'|]; cbn in *.
  - pose proof (union_insert_sub taken_by _ _ _ _ Hi Hr). set_solver.
  - pose proof (union_delete_sub taken_by _ _ _ Hi). set_solver.
Qed.

(** A resumer that drops some of what it took knows the rest. *)
Lemma known_resumer_less i r r' w x : resumers w !! i = Some r -> taken_by r ⊆ x ∪ from_option taken_by ∅ r' -> known w ⊆ x ∪ known (resumer_to i r' w).
Proof.
  intros Hi Hr. unfold known. cbn. pose proof (union_delete_sub taken_by _ _ _ Hi) as Hd. destruct r' as [r'|]; cbn in *; [|set_solver].
  assert (⋃ (map taken_by (delete i (resumers w))) ∪ taken_by r' ⊆ ⋃ (map taken_by (<[i:=r']> (resumers w)))) as Hin; [|set_solver].
  rewrite insert_take_drop by (by eapply lookup_lt_Some). rewrite delete_take_drop, !map_app. cbn [map]. rewrite !union_list_app. cbn. set_solver.
Qed.

Lemma deleted_length {A} (l : list A) i x : l !! i = Some x -> Z.of_nat (length (delete i l)) = Z.of_nat (length l) - 1.
Proof. intros Hi. pose proof (lookup_lt_Some _ _ _ Hi). rewrite length_delete; [lia|done]. Qed.

Lemma step_starting w w' : step w w' -> starting w = Z.of_nat (length (starters w)) -> starting w' = Z.of_nat (length (starters w')).
Proof.
  intros Hs Hn. destruct Hs; cbn [starting starters set_starters set_starting set_resumers set_yielded set_asleep set_lost set_engine starter_to resumer_to];
    rewrite ?length_app, ?length_insert, ?(deleted_length _ _ _ ltac:(eassumption)); cbn [length]; lia.
Qed.

Lemma step_known w w' : step w w' -> asleep w ⊆ known w -> asleep w' ⊆ known w'.
Proof.
  intros Hs Hk. destruct Hs as [w a|w i a Hi|w i a Hi|w i a l Hi|w i a l Hi|w i a e l live p Hi Hp|w i a e l live p Hi Hsp Hl|w i a e l live p t Hi Hsp Hl Ht Hpa|w i a live p Hi
    |w i Hi|w i Hi|w|w i Hi Hb|w i Hi Hb|w i e Hi He Hp|w i Hi Hp|w i Hi|w i Hi|w i l Hi|w i l Hi|w i h l live Hi Hh|w i h l live Hi Hh|w i h l live Hi Hh|w i live Hi|w r e].
  all: try (etrans; [exact Hk|]; by eapply known_starter).
  all: try (etrans; [exact Hk|]; by eapply known_resumer).
  all: try (etrans; [exact Hk|]; unfold known; cbn; rewrite ?map_app, ?union_list_app; cbn; set_solver).
  - (* puts_to_sleep *)
    pose proof (union_insert_sub paused_by _ _ _ (Pausing a l live ({[hash_of e]} ∪ p)) Hi ltac:(cbn; set_solver)) as Hsub.
    assert ({[hash_of e]} ⊆ ⋃ (map paused_by (<[i:=Pausing a l live ({[hash_of e]} ∪ p)]> (starters w)))) as Hin.
    { pose proof (union_insert_new paused_by _ _ _ (Pausing a l live ({[hash_of e]} ∪ p)) Hi). set_solver. }
    unfold known in *. cbn in *. set_solver.
  - (* publishes *)
    unfold known in *. cbn. rewrite list_to_set_app_L, list_to_set_elements_L.
    assert (⋃ (map paused_by (starters w)) ⊆ p ∪ ⋃ (map paused_by (<[i:=Waiting]> (starters w)))) as Hsub; [|set_solver].
    pose proof (union_delete_sub paused_by _ _ _ Hi) as Hd. cbn in Hd. etrans; [exact Hd|]. apply union_mono_l.
    rewrite insert_take_drop by (by eapply lookup_lt_Some). rewrite delete_take_drop, !map_app. cbn [map]. rewrite !union_list_app. cbn. set_solver.
  - (* plays *) pose proof (union_delete_sub paused_by _ _ _ Hi). unfold known in *. cbn in *. set_solver.
  - (* gives_up *) pose proof (union_delete_sub paused_by _ _ _ Hi). unfold known in *. cbn in *. rewrite map_app, union_list_app. cbn. set_solver.
  - (* takes *)
    assert (list_to_set (yielded w) ⊆ ⋃ (map taken_by (<[i:=Took (yielded w)]> (resumers w)))) as Hin.
    { exact (union_insert_new taken_by _ _ _ (Took (yielded w)) Hi). }
    pose proof (union_insert_sub taken_by _ _ _ (Took (yielded w)) Hi ltac:(cbn; set_solver)) as Hsub.
    unfold known in *. cbn in *. set_solver.
  - (* fails *) pose proof (known_resumer_less i _ None w (list_to_set l) Hi ltac:(cbn; set_solver)) as Hsub. unfold known in *. cbn in *. set_solver.
  - (* wakes *) pose proof (known_resumer_less i _ (Some (Starting l live)) w {[h]} Hi ltac:(cbn; set_solver)) as Hsub. unfold known in *. cbn in *. set_solver.
  - (* is_gone *) pose proof (known_resumer_less i _ (Some (Starting l live)) w {[h]} Hi ltac:(cbn; set_solver)) as Hsub. unfold known in *. cbn in *. set_solver.
  - (* leaves *) pose proof (known_resumer_less i _ (Some (Starting l live)) w {[h]} Hi ltac:(cbn; set_solver)) as Hsub. unfold known in *. cbn in *. set_solver.
Qed.

Lemma reachable_known w : reachable w -> inv w.
Proof.
  induction 1 as [r e|w w' _ [IH1 IH2] Hs]; [split; [done|set_solver]|]. split; [by eapply step_starting|by eapply step_known].
Qed.

(** ** What a resume does *)

Lemma restart_lookup h h' e t : restart h e !! h' = Some t ->
  exists t0, e !! h' = Some t0 /\ id t = id t0 /\ finished t = finished t0 /\ running t = (if bool_decide (h = h') then true else running t0).
Proof.
  unfold restart. intros Ht. destruct (decide (h = h')) as [->|Hne].
  - rewrite lookup_alter_eq in Ht. destruct (e !! h') as [t0|]; [|done]. injection Ht as <-. exists t0. by rewrite bool_decide_true.
  - rewrite lookup_alter_ne in Ht by done. exists t. by rewrite bool_decide_false.
Qed.

Lemma wake_frame starts live w h : rows (wake starts live w h) = rows w /\ yielded (wake starts live w h) = yielded w /\
  starting (wake starts live w h) = starting w /\ starters (wake starts live w h) = starters w /\ resumers (wake starts live w h) = resumers w.
Proof. unfold wake. destruct (bool_decide _); [destruct (starts h)|]; done. Qed.

(** One resumer's walk down what it took is steps of its own. *)
Lemma wakes_steps starts live i l w : resumers w !! i = Some (Starting l live) ->
  rtc step w (resumer_to i None (foldl (wake starts live) w l)).
Proof.
  revert w. induction l as [|h l IH]; intros w Hi; cbn [foldl]; [apply rtc_once; by eapply finishes|].
  assert (step w (resumer_to i (Some (Starting l live)) (wake starts live w h))) as Hs.
  { pose proof (wake_frame starts live w h) as (_ & _ & _ & _ & Hr). unfold wake in *. destruct (bool_decide (h ∈ live)) eqn:Hl; bool_prop.
    - destruct (starts h); [by apply (wakes w i h l live)|by apply (leaves w i h l live)].
    - by apply (is_gone w i h l live). }
  eapply rtc_l; [exact Hs|].
  assert (forall v, foldl (wake starts live) (resumer_to i (Some (Starting l live)) v) l =
                    set_resumers (<[i := Starting l live]> (resumers v)) (foldl (wake starts live) v l)) as Hout.
  { intros v. unfold resumer_to. cbn [replace]. generalize (<[i:=Starting l live]> (resumers v)) as r. intros r. generalize l as k. intros k.
    revert v. induction k as [|x k IHk]; intros v; cbn [foldl]; [done|]. rewrite <- IHk. f_equal.
    unfold wake. destruct (bool_decide _); [destruct (starts x)|]; done. }
  assert (i < length (resumers w))%nat as Hlt by (by eapply lookup_lt_Some).
  pose proof (wake_frame starts live w h) as (_ & _ & _ & _ & Hr).
  assert (resumers (foldl (wake starts live) (wake starts live w h) l) = resumers w) as Hrs.
  { rewrite <- Hr. clear. generalize (wake starts live w h) as v. induction l as [|x l IHl]; intros v; cbn [foldl]; [done|].
    rewrite IHl. apply wake_frame. }
  specialize (IH (resumer_to i (Some (Starting l live)) (wake starts live w h))). rewrite Hout in IH.
  replace (resumer_to i None (foldl (wake starts live) (wake starts live w h) l))
    with (resumer_to i None (set_resumers (<[i:=Starting l live]> (resumers (wake starts live w h))) (foldl (wake starts live) (wake starts live w h) l))).
  - apply IH. unfold resumer_to. cbn [resumers set_resumers replace]. rewrite list_lookup_insert_eq; [done|]. by rewrite Hr.
  - unfold resumer_to. cbn [resumers set_resumers replace]. rewrite Hrs, Hr.
    match goal with |- set_resumers ?a (set_resumers _ ?v) = _ => change (set_resumers a v = set_resumers (delete i (resumers w)) v) end.
    f_equal. rewrite !delete_take_drop.
    rewrite take_insert_ge by lia. rewrite drop_insert_lt by lia. done.
Qed.

(** [resumeYielded] alone is one run of a resumer. *)
Lemma resumeYielded_steps answers starts told w : 0 <= starting w ->
  rtc step w (resumeYielded (if told : bool then Some (rows w) else None) answers starts w).
Proof.
  intros Hn. unfold resumeYielded. set (i := length (resumers w)).
  assert (forall r, (resumers w ++ [r]) !! i = Some r) as Hat by (intros r; unfold i; by rewrite list_lookup_middle).
  assert (forall r r', <[i := r']> (resumers w ++ [r]) = (resumers w ++ [r'])%list) as Hput.
  { intros r r'. unfold i. rewrite <- (Nat.add_0_r (length _)). by rewrite insert_app_r. }
  assert (forall r, delete i (resumers w ++ [r]) = resumers w) as Hout.
  { intros r. unfold i. rewrite delete_take_drop, take_app_length, drop_ge, app_nil_r; [done|]. rewrite length_app. cbn. lia. }
  set (at_ r v := set_resumers (resumers w ++ [r]) v).
  assert (step w (at_ Entered w)) as H0 by apply closes.
  assert (forall r r' v, resumer_to i (Some r') (at_ r v) = at_ r' v) as Hto by (intros r r' v; unfold resumer_to, at_; cbn; by rewrite Hput).
  assert (forall r v, resumers v = resumers w -> resumer_to i None (at_ r v) = v) as Hgone.
  { intros r [] Hv. unfold resumer_to, at_. cbn in *. by rewrite Hout, Hv. }
  destruct (Z.ltb_spec 0 (starting w)) as [Hb|Hb]; [done|].
  assert (step (at_ Entered w) (at_ Idle w)) as H1 by (rewrite <- (Hto Entered Idle); apply is_idle; [apply Hat|done]).
  destruct (match (if told then Some (rows w) else None) with Some l => existsb Pinned l | None => false end) eqn:Hp.
  { destruct told; [|done]. done. }
  assert (step (at_ Idle w) (at_ Unwatched w)) as H2.
  { rewrite <- (Hto Idle Unwatched). destruct told; [|apply is_untold, Hat]. apply is_unwatched; [apply Hat|]. cbn. apply Forall_forall. intros e He. by apply (existsb_none _ _ e Hp). }
  assert (step (at_ Unwatched w) (at_ (Took (yielded w)) (set_yielded [] w))) as H3.
  { pose proof (takes (at_ Unwatched w) i (Hat _)) as H3. unfold resumer_to in H3. cbn in H3. by rewrite Hput in H3. }
  assert (rtc step w (at_ (Took (yielded w)) (set_yielded [] w))) as Hpath by (do 4 (eapply rtc_l; [eassumption|]); apply rtc_refl).
  set (v := set_yielded [] w) in *.
  destruct (match yielded w with [] => true | _ => false end) eqn:He.
  { destruct (yielded w) as [|]; [|done]. etrans; [exact Hpath|]. eapply rtc_l; [apply (looks _ i []); apply Hat|].
    rewrite Hto. eapply rtc_l; [apply (finishes _ i (dom (engine w))); apply Hat|]. rewrite Hgone by done. apply rtc_refl. }
  destruct answers; cbn [negb].
  - etrans; [exact Hpath|]. eapply rtc_l; [apply (looks _ i (yielded w)); apply Hat|]. rewrite Hto.
    pose proof (wakes_steps starts (dom (engine w)) i (yielded w) (at_ (Starting (yielded w) (dom (engine w))) v) (Hat _)) as Hw.
    assert (forall l r v, foldl (wake starts (dom (engine w))) (at_ r v) l = at_ r (foldl (wake starts (dom (engine w))) v l)) as Hfold.
    { clear. induction l as [|x l IH]; intros r v; cbn [foldl]; [done|]. rewrite <- IH. f_equal. unfold wake, at_. destruct (bool_decide _); [destruct (starts x)|]; done. }
    rewrite Hfold, Hgone in Hw; [done|]. clear. generalize (yielded w) as l. intros l.
    assert (resumers v = resumers w) as Hv by done. revert Hv. generalize v as u. induction l as [|x l IH]; intros u Hu; cbn [foldl]; [done|].
    apply IH. rewrite <- Hu. apply wake_frame.
  - etrans; [exact Hpath|]. eapply rtc_l; [apply (fails _ i (yielded w)); apply Hat|]. unfold resumer_to, at_. cbn. rewrite Hout. apply rtc_refl.
Qed.

Lemma wakes_asleep starts live l w : Forall (fun h => starts h = true) l -> lost (foldl (wake starts live) w l) = lost w /\
  asleep (foldl (wake starts live) w l) = asleep w ∖ list_to_set l /\ yielded (foldl (wake starts live) w l) = yielded w.
Proof.
  revert w. induction l as [|h l IH]; intros w Hl; cbn [foldl list_to_set]; [split_and!; [done|set_solver|done]|].
  apply Forall_cons in Hl as [Hh Hl]. destruct (IH (wake starts live w h) Hl) as (-> & -> & ->). unfold wake.
  destruct (bool_decide _); [rewrite Hh|]; (split_and!; [done|cbn; set_solver|done]).
Qed.

Lemma wakes_running starts live l w h t : Forall (fun h => starts h = true) l -> h ∈ l -> h ∈ live ->
  engine (foldl (wake starts live) w l) !! h = Some t -> running t = true.
Proof.
  intros Hl Hin Hlive. revert w t. induction l as [|x l IH] using rev_ind; intros w t; [by apply elem_of_nil in Hin|].
  rewrite foldl_app. cbn [foldl]. apply Forall_app in Hl as [Hl Hx]. apply Forall_cons in Hx as [Hx _].
  unfold wake at 1. destruct (bool_decide (x ∈ live)) eqn:Hxl; bool_prop.
  - rewrite Hx. cbn [engine set_asleep set_engine]. intros (t0 & Ht0 & _ & _ & ->)%restart_lookup. destruct (decide (x = h)) as [->|Hne]; [by rewrite bool_decide_true|].
    rewrite bool_decide_false by done. apply elem_of_app in Hin as [Hin|Hin]; [by eapply IH|]. apply list_elem_of_singleton in Hin. by subst.
  - cbn [engine set_asleep]. apply elem_of_app in Hin as [Hin|Hin]; [by apply IH|]. apply list_elem_of_singleton in Hin. by subst.
Qed.

Lemma wakes_dom starts live l w : dom (engine (foldl (wake starts live) w l)) = dom (engine w).
Proof.
  revert w. induction l as [|h l IH]; intros w; cbn [foldl]; [done|]. rewrite IH. unfold wake. destruct (bool_decide _); [destruct (starts h)|]; try done.
  cbn. unfold restart. apply dom_alter_L.
Qed.
End yield.

(** C5: what was paused to make way is resumed.  In every state the starts, the resumers and the rest of the program
    can reach, once no start and no resumer is under way, a [resumeYielded] that finds nothing pinned and an engine that
    answers forgets nothing: every download paused for some start since, and still in the engine, is
    running again, except what an earlier resume had taken and an engine error kept it from starting. *)
Theorem yielded_come_back `{Unicode} w entries starts (Hw : reachable w) (Hs : starters w = []) (Hr : resumers w = [])
    (Hp : match entries with Some l => existsb Pinned l = false | None => True end) (Hstarts : forall h, starts h = true) :
  let w' := resumeYielded entries true starts w in
  yielded w' = [] /\ asleep w' ⊆ lost w /\
  forall h t, h ∈ asleep w -> h ∉ lost w -> engine w' !! h = Some t -> running t = true.
Proof.
  apply reachable_known in Hw as [Hn Hk]. unfold known in Hk. rewrite Hs, Hr in *. cbn in Hn, Hk. cbv zeta. unfold resumeYielded.
  rewrite Hn. change (0 <? Z.of_nat 0) with false. cbn iota. replace (match entries with Some l => existsb Pinned l | None => false end) with false by (by destruct entries).
  assert (Forall (fun h => starts h = true) (yielded w)) as Hall by (apply Forall_forall; auto).
  destruct (match yielded w with [] => true | _ => false end) eqn:He.
  - destruct (yielded w) as [|]; [|done]. cbn in *. split_and!; [done|set_solver|set_solver].
  - cbn [negb]. destruct (wakes_asleep starts (dom (engine w)) (yielded w) (set_yielded [] w) Hall) as (Hl & Ha & Hy).
    change (engine (set_yielded [] w)) with (engine w). rewrite Ha, Hy. split_and!; [done|cbn; set_solver|]. intros h t Hh Hnl Ht.
    apply (wakes_running _ _ _ _ _ _ Hall) in Ht; [done| |].
    + assert (h ∈ (list_to_set (yielded w) : gset string)) as Hin by set_solver. by apply elem_of_list_to_set in Hin.
    + pose proof (wakes_dom starts (dom (engine w)) (yielded w) (set_yielded [] w)) as Hd. change (engine (set_yielded [] w)) with (engine w) in Hd. rewrite <- Hd. by apply elem_of_dom_2 in Ht.
Qed.

(** ** Traces *)

(** Another show's download, in the way of an episode that starts. *)
Definition background : row := mkRow "bb" 0 (Some 2) "1" false false false.
Definition busy_line : world := at_rest [background] {["bb" := mkTor 7 true false]}.

(** One start that gave up: its [yield] over, nothing under way. *)
Definition given_up : world :=
  mkWorld [background] {["bb" := mkTor 7 false false]} ["bb"] 0 [] [] {["bb"]} ∅.

#[local] Instance ascii_only : Unicode := ascii_unicode.

Lemma then_ w w' v : reachable w -> step w w' -> w' = v -> reachable v.
Proof. intros Hw Hs <-. by eapply goes_on. Qed.

(** A start that has paused the other show's download, its [yield] at its end. *)
Definition making_way (r : list resumer) : world :=
  mkWorld [background] {["bb" := mkTor 7 false false]} [] 1 [Pausing 1 [] {["bb"]} {["bb"]}] r {["bb"]} ∅.

(** One more step of a trace, by a rule and proofs of its premises. *)
Tactic Notation "and_then" constr(R) "as" ident(R') "by" tactic3(tac) :=
  eassert (reachable _) as R' by (eapply (goes_on _ _ R); tac).

Lemma making_way_reachable : reachable (making_way []) /\ reachable (making_way [Idle]).
Proof.
  assert (forall r, reachable (set_resumers r busy_line) -> reachable (making_way r)) as Hgo.
  { intros r R. and_then R as R1 by (apply (counts _ 1)). and_then R1 as R2 by (by apply (lists _ 0 1)).
    and_then R2 as R3 by (by apply (sees _ 0 1 [background])).
    eapply then_; [exact R3|apply (puts_to_sleep _ 0 1 background [] (dom (engine busy_line)) ∅ (mkTor 7 true false)); try reflexivity|vm_compute; reflexivity]. }
  split; apply Hgo; [apply begins|]. and_then (begins [background] {["bb" := mkTor 7 true false]}) as R1 by (apply closes).
  and_then R1 as R2 by (by apply (is_idle _ 0)). exact R2.
Qed.

(** The start gave up while another stream was playing, so nothing was resumed; then that stream closed. *)
Lemma given_up_reachable : reachable given_up.
Proof.
  and_then (proj1 making_way_reachable) as R1 by (by eapply (publishes _ 0 1)). and_then R1 as R2 by (by apply (gives_up _ 0)).
  and_then R2 as R3 by (by apply (is_idle _ 0)). set (playing := mkRow "cc" 0 (Some 3) "1" false true false).
  and_then R3 as R4 by (apply (others _ [playing] {["bb" := mkTor 7 false false]})).
  and_then R4 as R5 by (apply (is_watched _ 0 playing); [reflexivity|by left|reflexivity]).
  eapply then_; [exact R5|apply (others _ [background] {["bb" := mkTor 7 false false]})|vm_compute; reflexivity].
Qed.

Lemma yielded_come_back_witness :
  engine given_up !! "bb" = Some (mkTor 7 false false) /\
  engine (resumeYielded (Some [background]) true (fun _ => true) given_up) !! "bb" = Some (mkTor 7 true false) /\
  yielded (resumeYielded (Some [background]) true (fun _ => true) given_up) = [].
Proof.
  split; [reflexivity|]. split; [vm_compute; reflexivity|].
  exact (proj1 (yielded_come_back given_up (Some [background]) (fun _ => true) given_up_reachable eq_refl eq_refl eq_refl (fun _ => eq_refl))).
Defined.

(** The count a [Start] makes before it yields is there so that a stream closing meanwhile does not resume what was
    just paused.  One that had looked at the count before goes on to do it: the download is awake and forgotten while
    the start it made way for still waits. *)
Lemma resumed_under_a_start : exists w, reachable w /\ starting w = 1 /\ starters w = [Waiting] /\ yielded w = [] /\
  engine w !! "bb" = Some (mkTor 7 true false).
Proof.
  and_then (proj2 making_way_reachable) as R1 by (by eapply (publishes _ 0 1)).
  and_then R1 as R2 by (apply (is_unwatched _ 0); [reflexivity|by repeat constructor]).
  and_then R2 as R3 by (by apply (takes _ 0)). and_then R3 as R4 by (by apply (looks _ 0)).
  eexists. split; [eapply (goes_on _ _ R4), (wakes _ 0 "bb" []); reflexivity|vm_compute; split_and!; reflexivity].
Qed.
