(* ===== verification/Player.v ===== *)
(** * The desktop players: internal/player (mpv.go, vlc.go, chapters.go, anime4k.go)

    A player reports where it is, [Event]s, and skips an opening or an ending by
    itself.  mpv's reader and VLC's poller are folds over what the player said: the
    decoded lines of mpv's socket, VLC's status at every tick.  [emit] puts
    an event in a bounded channel that the tracker drains, and drops it when the channel is full.
    Processes, sockets and HTTP are arguments: what was read, and whether a request failed. *)
From stdpp Require Import base list strings.
From Stdlib Require Import ZArith Lia Floats.SpecFloat.
From S2P Require Import Prelude GoStr Float64.

#[local] Open Scope string_scope.
#[local] Open Scope Z_scope.
#[local] Open Scope list_scope.

Inductive EventKind := EventPosition | EventPause | EventEnd | EventExit.

#[export] Instance EventKind_eq_dec : EqDecision EventKind.
Proof. solve_decision. Defined.

Definition zero : f64 := S754_zero false.

Record Event := mkEvent { Kind : EventKind; Position : f64; Duration : f64; Paused : bool; Reason : string }.

Definition position_event (pos dur : f64) : Event := mkEvent EventPosition pos dur false "".
Definition pause_event (paused : bool) (dur : f64) : Event := mkEvent EventPause zero dur paused "".
Definition end_event (pos dur : f64) (reason : string) : Event := mkEvent EventEnd pos dur false reason.
Definition exit_event (pos dur : f64) (reason : string) : Event := mkEvent EventExit pos dur false reason.

(** ** What to skip *)

Record SkipRange := mkSkip { skip_kind : string; Start : f64; End : f64 }.

Definition Contains (s : SkipRange) (t : f64) : bool := fge t (Start s) && flt t (End s).

(** The range [pos] is in, unless it was the last skipped. *)
Fixpoint skipTarget (ranges : list SkipRange) (pos last : f64) : option SkipRange :=
  match ranges with
  | [] => None
  | r :: rest => if Contains r pos && negb (feq last (End r)) then Some r else skipTarget rest pos last
  end.

Definition hasKind (ranges : list SkipRange) (kind : string) : bool := existsb (fun r => String.eqb (skip_kind r) kind) ranges.

Section Text.
Context `{Unicode}.

(** ** Chapters *)

Definition chapterTitle (kind : string) : string :=
  let k := to_lower kind in
  if String.eqb k "op" || String.eqb k "mixed-op" then "Opening"
  else if String.eqb k "ed" || String.eqb k "mixed-ed" then "Ending"
  else if String.eqb k "recap" then "Recap"
  else to_upper kind.

Definition chapter : Type := f64 * f64 * string.

Definition nl : string := String (Ascii.ascii_of_nat 10) "".
Definition thousand : f64 := Eval vm_compute in of_int 1000.

Definition writeChapter (c : chapter) : string :=
  let '(start, stop, title) := c in
  nl +:+ "[CHAPTER]" +:+ nl +:+ "TIMEBASE=1/1000" +:+ nl +:+ "START=" +:+ itoa (to_i64 (fmul start thousand)) +:+ nl +:+
  "END=" +:+ itoa (to_i64 (fmul stop thousand)) +:+ nl +:+ "title=" +:+ title +:+ nl.

(** The chapters of [WriteChapters], in the order it writes them: [prev] is where the last one stopped. *)
Fixpoint chapters_from (ranges : list SkipRange) (prev duration : f64) : list chapter :=
  match ranges with
  | [] => if fgt duration prev then [(prev, duration, "Episode")] else []
  | r :: rest =>
      if fle (End r) (Start r) then chapters_from rest prev duration
      else (if fgt (Start r) prev then [(prev, Start r, "Episode")] else []) ++
           (Start r, End r, chapterTitle (skip_kind r)) :: chapters_from rest (End r) duration
  end.

Definition WriteChapters (ranges : list SkipRange) (duration : f64) : string :=
  ";FFMETADATA1" +:+ nl +:+ String.concat "" (map writeChapter (chapters_from ranges zero duration)).

(** ** What the players are told *)

Definition AudioLanguages (pref : string) : string :=
  if String.eqb pref "dub" then "eng,en,english" else if String.eqb pref "sub" then "jpn,ja,jp,japanese" else "".

Definition languageTags : list (string * list string) :=
  [("en", ["en"; "eng"; "english"]); ("es", ["es"; "spa"; "spanish"; "es-419"; "es-es"]);
   ("pt", ["pt"; "por"; "portuguese"; "pt-br"]); ("fr", ["fr"; "fre"; "fra"; "french"]);
   ("de", ["de"; "ger"; "deu"; "german"]); ("it", ["it"; "ita"; "italian"]); ("ru", ["ru"; "rus"; "russian"]);
   ("ar", ["ar"; "ara"; "arabic"]); ("zh", ["zh"; "chi"; "zho"; "chinese"]); ("ko", ["ko"; "kor"; "korean"]);
   ("id", ["id"; "ind"; "indonesian"]); ("vi", ["vi"; "vie"; "vietnamese"]); ("th", ["th"; "tha"; "thai"])].

Definition tags_of (code : string) : option (list string) :=
  option_map snd (List.find (fun e => String.eqb (fst e) (to_lower code)) languageTags).

Definition SubtitleLanguages (codes : list string) : string :=
  join (flat_map (fun c => match tags_of c with Some tags => tags | None => if String.eqb c "" then [] else [c] end) codes) ",".

Definition shaderSizes : list string := ["S"; "M"; "L"; "VL"; "UL"].

Definition shaderClamp : string := "Anime4K_Clamp_Highlights.glsl".
Definition shaderDownscale2 : string := "Anime4K_AutoDownscalePre_x2.glsl".
Definition shaderDownscale4 : string := "Anime4K_AutoDownscalePre_x4.glsl".
Definition shaderUpscaleM : string := "Anime4K_Upscale_CNN_x2_M.glsl".
Definition shaderRestoreM : string := "Anime4K_Restore_CNN_M.glsl".
Definition shaderSoftM : string := "Anime4K_Restore_CNN_Soft_M.glsl".

Definition Anime4KChain (mode size : string) : list string :=
  let size := to_upper (trim_space size) in
  let size := if existsb (String.eqb size) shaderSizes then size else "M" in
  let restore := "Anime4K_Restore_CNN_" +:+ size +:+ ".glsl" in
  let soft := "Anime4K_Restore_CNN_Soft_" +:+ size +:+ ".glsl" in
  let upscale := "Anime4K_Upscale_CNN_x2_" +:+ size +:+ ".glsl" in
  let denoise := "Anime4K_Upscale_Denoise_CNN_x2_" +:+ size +:+ ".glsl" in
  let mode := to_upper (trim_space mode) in
  if String.eqb mode "B" then [shaderClamp; soft; upscale; shaderDownscale2; shaderDownscale4; shaderUpscaleM]
  else if String.eqb mode "C" then [shaderClamp; denoise; shaderDownscale2; shaderDownscale4; shaderUpscaleM]
  else if String.eqb mode "A+A" then [shaderClamp; restore; upscale; shaderRestoreM; shaderDownscale2; shaderDownscale4; shaderUpscaleM]
  else if String.eqb mode "B+B" then [shaderClamp; soft; upscale; shaderDownscale2; shaderDownscale4; shaderSoftM; shaderUpscaleM]
  else if String.eqb mode "C+A" then [shaderClamp; denoise; shaderDownscale2; shaderDownscale4; shaderRestoreM; shaderUpscaleM]
  else [shaderClamp; restore; upscale; shaderDownscale2; shaderDownscale4; shaderUpscaleM].

(** [present] says which shader files are there; [joined] is their path beside the binary. *)
Fixpoint chain_args (present : string -> bool) (joined : string -> string) (chain args : list string) : list string :=
  match chain with
  | [] => args
  | name :: rest => if present name then chain_args present joined rest (args ++ ["--glsl-shaders-append=" +:+ joined name]) else []
  end.

Definition anime4kArgs (shaders : string) (present : string -> bool) (joined : string -> string) (mode size : string) : list string :=
  if String.eqb shaders "" then [] else chain_args present joined (Anime4KChain mode size) [].

End Text.

(** ** mpv's lines *)

(** The [data] of a line: absent, null, a number, a truth value, anything else. *)
Inductive Data := Absent | Null | Number (v : f64) | Boolean (b : bool) | Other.

Record ipcMessage := mkLine { ipc_event : string; ipc_name : string; ipc_data : Data; ipc_reason : string }.

(** [json.Unmarshal] into a number and into a truth value: what the variable holds
    after, and whether there was no error.  A null leaves it as it was. *)
Definition into_number (d : Data) (old : f64) : f64 * bool :=
  match d with Number v => (v, true) | Null => (old, true) | _ => (old, false) end.

Definition into_bool (d : Data) (old : bool) : bool := match d with Boolean b => b | _ => old end.

Record Skipping := mkSkipping { AutoSkip : bool; SkipRanges : list SkipRange }.

Record mpv := mkMpv { mpv_opts : Skipping; lastSkip : f64; mpv_duration : f64 }.

Definition minus_one : f64 := Eval vm_compute in of_int (-1).

(** As [Play] leaves it for the new run. *)
Definition started_mpv (opts : Skipping) : mpv := mkMpv opts minus_one zero.

(** [onPosition]: the event, and the seek if a range is to be skipped. *)
Definition onPosition (m : mpv) (pos : f64) : mpv * list Event * list f64 :=
  let ev := [position_event pos (mpv_duration m)] in
  if negb (AutoSkip (mpv_opts m)) then (m, ev, [])
  else match skipTarget (SkipRanges (mpv_opts m)) pos (lastSkip m) with
       | Some r => (mkMpv (mpv_opts m) (End r) (mpv_duration m), ev, [End r])
       | None => (m, ev, [])
       end.

(** One turn of [readLoop]; a line that is not JSON is [None]. *)
Definition read_line (m : mpv) (line : option ipcMessage) : mpv * list Event * list f64 :=
  match line with
  | None => (m, [], [])
  | Some msg =>
      if String.eqb (ipc_event msg) "property-change" then
        if String.eqb (ipc_name msg) "duration" then
          (mkMpv (mpv_opts m) (lastSkip m) (into_number (ipc_data msg) (mpv_duration m)).1, [], [])
        else if String.eqb (ipc_name msg) "time-pos" then
          let '(pos, ok) := into_number (ipc_data msg) zero in
          if ok then onPosition m pos else (m, [], [])
        else if String.eqb (ipc_name msg) "pause" then
          (m, [pause_event (into_bool (ipc_data msg) false) (mpv_duration m)], [])
        else (m, [], [])
      else if String.eqb (ipc_event msg) "end-file" then
        (m, [end_event zero (mpv_duration m) (ipc_reason msg)], [])
      else (m, [], [])
  end.

Fixpoint readLoop (m : mpv) (lines : list (option ipcMessage)) : list Event * list f64 :=
  match lines with
  | [] => ([], [])
  | l :: rest =>
      let '(m', evs, seeks) := read_line m l in
      let '(evs', seeks') := readLoop m' rest in
      (evs ++ evs', seeks ++ seeks')
  end.

(** [reap]: the process is gone. *)
Definition reaped : Event := exit_event zero zero "".

(** ** VLC, polled *)

Record vlcStatus := mkStatus { State : string; Time : f64; Length : f64; st_position : f64 }.

(** A turn of [watch]: the process ended, or a tick with the status read, if it was, and whether a seek would succeed. *)
Inductive turn := Exited | Tick (st : option vlcStatus) (seeks : bool).

Record vlc := mkVlc {
  started : bool; paused : bool; ended : bool; contacted : bool; failures : Z;
  lastPos : f64; lastLen : f64; vlc_lastSkip : f64; killed : bool; closed : bool;
}.

Definition vlc_start : vlc := mkVlc false false false false 0 zero zero minus_one false false.

Definition three : f64 := Eval vm_compute in of_int 3.

Definition status_position (st : vlcStatus) : f64 :=
  if fgt (Length st) zero && fgt (st_position st) zero then fmul (st_position st) (Length st) else Time st.

(** The status of a playing or paused VLC. *)
Definition on_playing (opts : Skipping) (v : vlc) (st : vlcStatus) (seeks : bool) : vlc * list Event * list f64 :=
  let pos := status_position st in
  let p := String.eqb (State st) "paused" in
  let pauses := if Bool.eqb p (paused v) then [] else [pause_event p (Length st)] in
  let evs := pauses ++ [position_event pos (Length st)] in
  let after last skip := mkVlc true p (ended v) true (failures v) last (Length st) skip (killed v) (closed v) in
  if negb (AutoSkip opts) then (after pos (vlc_lastSkip v), evs, [])
  else match skipTarget (SkipRanges opts) pos (vlc_lastSkip v) with
       | Some r => (after (if seeks then End r else pos) (End r), evs, [End r])
       | None => (after pos (vlc_lastSkip v), evs, [])
       end.

Definition stop_reason (v : vlc) : string :=
  if fgt (lastLen v) zero && fle (fsub (lastLen v) (lastPos v)) three then "eof" else "stop".

Definition on_turn (opts : Skipping) (v : vlc) (t : turn) : vlc * list Event * list f64 :=
  if closed v then (v, [], [])
  else match t with
  | Exited =>
      (mkVlc (started v) (paused v) (ended v) (contacted v) (failures v) (lastPos v) (lastLen v) (vlc_lastSkip v) (killed v) true,
       if ended v then [] else [exit_event (lastPos v) (lastLen v) "vlc"], [])
  | Tick st seeks =>
      if ended v then (v, [], [])
      else match st with
      | None => (mkVlc (started v) (paused v) (ended v) (contacted v) (failures v + 1) (lastPos v) (lastLen v) (vlc_lastSkip v) (killed v) (closed v), [], [])
      | Some st =>
          let v := mkVlc (started v) (paused v) (ended v) true (failures v) (lastPos v) (lastLen v) (vlc_lastSkip v) (killed v) (closed v) in
          if String.eqb (State st) "playing" || String.eqb (State st) "paused" then on_playing opts v st seeks
          else if String.eqb (State st) "stopped" then
            if negb (started v) then (v, [], [])
            else (mkVlc (started v) (paused v) true true (failures v) (lastPos v) (lastLen v) (vlc_lastSkip v) true (closed v),
                  [end_event (lastPos v) (lastLen v) (stop_reason v)], [])
          else (v, [], [])
      end
  end.

Fixpoint watch (opts : Skipping) (v : vlc) (turns : list turn) : vlc * list Event * list f64 :=
  match turns with
  | [] => (v, [], [])
  | t :: rest =>
      let '(v', evs, seeks) := on_turn opts v t in
      let '(v'', evs', seeks') := watch opts v' rest in
      (v'', evs ++ evs', seeks ++ seeks')
  end.

(** ** The channel between the player and its tracker *)

Definition eventBuffer : nat := 64.
Definition vlcBuffer : nat := 8.

Definition emit (capacity : nat) (queue : list Event) (e : Event) : list Event :=
  if (List.length queue <? capacity)%nat then queue ++ [e] else queue.

(** The player sends; the tracker takes one. *)
Inductive transfer := Sent (e : Event) | Taken.

(** What the tracker receives, the last ones after the player has gone. *)
Fixpoint delivered (capacity : nat) (queue : list Event) (moves : list transfer) : list Event :=
  match moves with
  | [] => queue
  | Sent e :: rest => delivered capacity (emit capacity queue e) rest
  | Taken :: rest => match queue with [] => delivered capacity [] rest | e :: q => e :: delivered capacity q rest end
  end.

Definition sent (moves : list transfer) : list Event := omap (fun m => match m with Sent e => Some e | Taken => None end) moves.

(** ** Skipping *)

Lemma skipTarget_some ranges pos last r :
  skipTarget ranges pos last = Some r -> r ∈ ranges /\ Contains r pos = true /\ feq last (End r) = false.
Proof.
  induction ranges as [|x rest IH]; simpl; [done|]. destruct (Contains x pos && negb (feq last (End x))) eqn:E.
  - intros [= ->]. apply andb_true_iff in E as [? ?%negb_true_iff]. split; [left|done].
  - intros (? & ? & ?)%IH. split; [by right|done].
Qed.

Lemma skipTarget_none ranges pos last :
  skipTarget ranges pos last = None -> forall r, r ∈ ranges -> Contains r pos = true -> feq last (End r) = true.
Proof.
  induction ranges as [|x rest IH]; simpl; [intros _ r ?%elem_of_nil; done|].
  destruct (Contains x pos) eqn:C; simpl; [destruct (feq last (End x)) eqn:F; simpl; [|done]|];
    intros Hn r [->|Hr]%elem_of_cons Hc; [done|by eapply IH|congruence|by eapply IH].
Qed.

(** No two seeks in a row to the same place: what would loop. *)
Fixpoint seeks_apart (last : f64) (seeks : list f64) : Prop :=
  match seeks with [] => True | s :: rest => feq last s = false /\ seeks_apart s rest end.

Lemma seeks_apart_app last a b :
  seeks_apart last (a ++ b) <-> seeks_apart last a /\ seeks_apart (default last (list.last a)) b.
Proof.
  revert last. induction a as [|x a IH]; intros last; simpl; [naive_solver|].
  rewrite IH. destruct a as [|y a]; simpl; [naive_solver|].
  assert (is_Some (list.last (y :: a))) as [z ->] by (rewrite last_is_Some; done). simpl. naive_solver.
Qed.

Lemma onPosition_seeks m pos m' evs seeks :
  onPosition m pos = (m', evs, seeks) -> seeks_apart (lastSkip m) seeks /\ lastSkip m' = default (lastSkip m) (list.last seeks).
Proof.
  unfold onPosition. destruct (AutoSkip _); simpl; [|by intros [= <- <- <-]].
  destruct (skipTarget _ _ _) as [r|] eqn:E; intros [= <- <- <-]; simpl; [|done].
  by apply skipTarget_some in E as (_ & _ & ?).
Qed.

Lemma read_line_seeks m l m' evs seeks :
  read_line m l = (m', evs, seeks) -> seeks_apart (lastSkip m) seeks /\ lastSkip m' = default (lastSkip m) (list.last seeks).
Proof.
  unfold read_line. destruct l as [msg|]; [|by intros [= <- <- <-]].
  repeat case_match; try (by intros [= <- <- <-]); by intros ?%onPosition_seeks.
Qed.

Lemma readLoop_apart m lines : seeks_apart (lastSkip m) (readLoop m lines).2.
Proof.
  revert m. induction lines as [|l rest IH]; intros m; simpl; [done|].
  destruct (read_line m l) as [[m' evs] seeks] eqn:E. apply read_line_seeks in E as [A L].
  specialize (IH m'). destruct (readLoop m' rest) as [evs' seeks']. simpl in *.
  apply seeks_apart_app. by rewrite <- L.
Qed.

Lemma on_turn_seeks opts v t v' evs seeks :
  on_turn opts v t = (v', evs, seeks) -> seeks_apart (vlc_lastSkip v) seeks /\ vlc_lastSkip v' = default (vlc_lastSkip v) (list.last seeks).
Proof.
  unfold on_turn, on_playing. intros H. repeat case_match; simplify_eq; simpl; try done.
  all: match goal with E : skipTarget _ _ _ = Some _ |- _ => by apply skipTarget_some in E as (_ & _ & ?) end.
Qed.

Lemma watch_apart opts v turns : seeks_apart (vlc_lastSkip v) (watch opts v turns).2.
Proof.
  revert v. induction turns as [|t rest IH]; intros v; simpl; [done|].
  destruct (on_turn opts v t) as [[v' evs] seeks] eqn:E. apply on_turn_seeks in E as [A L].
  specialize (IH v'). destruct (watch opts v' rest) as [[v'' evs'] seeks']. simpl in *.
  apply seeks_apart_app. by rewrite <- L.
Qed.

(** Both players, from their start: skipping never answers a landing with the seek that made it. *)
(** Whatever mpv says on its socket and whatever VLC answers when polled, no two consecutive automatic
    seeks go to the same place, so landing where a skip ended never starts it again; and each seek goes forward from a position inside
    the range it leaves. *)
Theorem skipping_settles opts lines turns :
  seeks_apart minus_one (readLoop (started_mpv opts) lines).2 /\
  seeks_apart minus_one (watch opts vlc_start turns).2 /\
  forall pos last r, skipTarget (SkipRanges opts) pos last = Some r -> flt pos (End r) = true /\ fle (Start r) pos = true.
Proof.
  split; [apply (readLoop_apart (started_mpv opts))|]. split; [apply (watch_apart opts vlc_start)|].
  intros pos last r (_ & Hc%andb_true_iff & _)%skipTarget_some. unfold fge in Hc. naive_solver.
Qed.

(** ** The chapters of a file *)

(** From [p] on, each chapter starts where the last stopped and takes some time. *)
Fixpoint tiles (p : f64) (l : list chapter) : Prop :=
  match l with
  | [] => True
  | (start, stop, _) :: rest => feq p start = true /\ flt start stop = true /\ tiles stop rest
  end.

Fixpoint stops_at (p : f64) (l : list chapter) : f64 :=
  match l with [] => p | (_, stop, _) :: rest => stops_at stop rest end.

(** The ranges that take time come one after another, from [p] on. *)
Fixpoint in_order (p : f64) (ranges : list SkipRange) : Prop :=
  match ranges with
  | [] => True
  | r :: rest =>
      if fle (End r) (Start r) then in_order p rest
      else fle p (Start r) = true /\ is_nan (End r) = false /\ in_order (End r) rest
  end.

Lemma feq_refl a : is_nan a = false -> feq a a = true.
Proof. intros. by apply feq_key. Qed.

Lemma fle_split a b : fle a b = true -> flt a b = true \/ feq a b = true.
Proof. unfold fle, flt, feq, SFleb, SFltb, SFeqb. repeat case_match; naive_solver. Qed.

Lemma fle_not_nan a b : fle a b = true -> is_nan a = false /\ is_nan b = false.
Proof. by destruct a, b. Qed.

Lemma not_fle_lt a b : is_nan a = false -> is_nan b = false -> fle b a = false -> flt a b = true.
Proof.
  intros Ha Hb Hn. rewrite flt_key by done.
  assert (~ key_lt (key b) (key a)) as H1 by (rewrite <- flt_key by done; intros H; revert Hn H; unfold fle, flt, SFleb, SFltb; repeat case_match; done).
  assert (key b <> key a) as H2 by (rewrite <- feq_key by done; intros H; revert Hn H; unfold fle, feq, SFleb, SFeqb; repeat case_match; done).
  unfold key_lt in *. destruct (key a) as [[? ?] ?], (key b) as [[? ?] ?].
  assert (forall x y z x' y' z' : Z, (x, y, z) <> (x', y', z') -> x <> x' \/ y <> y' \/ z <> z') as G.
  { intros. destruct (decide (x = x')), (decide (y = y')), (decide (z1 = z')); subst; naive_solver. }
  apply G in H2. lia.
Qed.

Section Chapters.
Context `{Unicode}.

Lemma chapters_tile ranges duration : forall p, is_nan p = false -> is_nan duration = false -> in_order p ranges ->
  tiles p (chapters_from ranges p duration) /\
  fle duration (stops_at p (chapters_from ranges p duration)) = true.
Proof.
  induction ranges as [|r rest IH]; intros p Hp Hd Ho; simpl in *.
  - unfold fgt. destruct (flt p duration) eqn:E; simpl.
    + split; [by repeat split; [apply feq_refl|]|]. pose proof (feq_refl duration Hd) as F.
      revert F. unfold fle, feq, SFleb, SFeqb. by repeat case_match.
    + split; [done|]. destruct (fle duration p) eqn:F; [done|]. by rewrite (not_fle_lt p duration Hp Hd F) in E.
  - destruct (fle (End r) (Start r)) eqn:E; [by apply IH|]. destruct Ho as (Hs & He & Ho).
    destruct (fle_not_nan _ _ Hs) as [_ Hsn]. pose proof (not_fle_lt _ _ Hsn He E) as Hlt.
    destruct (IH (End r) He Hd Ho) as [T S]. unfold fgt. destruct (flt p (Start r)) eqn:F; simpl.
    + repeat split; try done; by apply feq_refl.
    + destruct (fle_split _ _ Hs) as [?|?]; [congruence|]. by repeat split.
Qed.

(** What is named: each range that takes time, in order, and nothing else but the episode. *)
Lemma chapters_titles ranges duration : forall p,
  List.filter (fun c : chapter => negb (String.eqb c.2 "Episode")) (chapters_from ranges p duration) =
  List.filter (fun c : chapter => negb (String.eqb c.2 "Episode"))
    (map (fun r => (Start r, End r, chapterTitle (skip_kind r))) (List.filter (fun r => negb (fle (End r) (Start r))) ranges)).
Proof.
  induction ranges as [|r rest IH]; intros p; simpl; [by destruct (fgt _ _)|].
  destruct (fle (End r) (Start r)); simpl; [apply IH|].
  destruct (fgt (Start r) p); simpl; rewrite IH; done.
Qed.

End Chapters.

(** ** How VLC's run ends *)

Definition terminal (e : Event) : bool := bool_decide (Kind e = EventEnd) || bool_decide (Kind e = EventExit).

Definition over (v : vlc) : bool := ended v || closed v.

(** Where the run stopped: the last position told, when nothing was skipped. *)
Definition positions (evs : list Event) : list f64 :=
  omap (fun e => if bool_decide (Kind e = EventPosition) then Some (Position e) else None) evs.

Lemma positions_app a b : positions (a ++ b) = positions a ++ positions b.
Proof. apply omap_app. Qed.

Lemma default_last_app {A} (d : A) (a b : list A) : default d (list.last (a ++ b)) = default (default d (list.last a)) (list.last b).
Proof. rewrite last_app. by destruct (list.last b). Qed.

Lemma over_quiet opts v turns : over v = true -> (watch opts v turns).1.2 = [].
Proof.
  revert v. induction turns as [|t rest IH]; intros v Ho; simpl; [done|].
  assert (exists v', on_turn opts v t = (v', [], []) /\ over v' = true) as (v' & -> & Ho').
  { unfold on_turn, over in *. destruct (closed v) eqn:C; [by exists v; rewrite C, orb_true_r|].
    rewrite orb_false_r in Ho. rewrite Ho. destruct t; eexists; (split; [done|]); simpl; by rewrite ?Ho, ?orb_true_r. }
  specialize (IH v' Ho'). destruct (watch opts v' rest) as [[? ?] ?]. by simpl in *; subst.
Qed.

Lemma over_stays opts v turns : over v = true -> over (watch opts v turns).1.1 = true.
Proof.
  revert v. induction turns as [|t l IH]; intros v Ho; simpl; [done|].
  destruct (on_turn opts v t) as [[u evs] seeks] eqn:E. specialize (IH u).
  destruct (watch opts u l) as [[? ?] ?]. simpl in *. apply IH. unfold over, on_turn in *.
  destruct (closed v) eqn:C; [simplify_eq; by rewrite C, orb_true_r|]. rewrite orb_false_r in Ho.
  destruct t; rewrite Ho in E; simplify_eq; simpl; by rewrite ?Ho, ?orb_true_r.
Qed.

(** One turn of a run under way: quiet, or its one terminal event, which ends it. *)
Lemma on_turn_ends opts v t v' evs seeks : over v = false -> on_turn opts v t = (v', evs, seeks) ->
  (AutoSkip opts = false -> lastPos v' = default (lastPos v) (list.last (positions evs))) /\
  if over v' then exists e, evs = [e] /\ terminal e = true /\ Position e = lastPos v /\ Duration e = lastLen v
  else Forall (fun e => terminal e = false) evs.
Proof.
  intros [Hen Hcl]%orb_false_iff. unfold on_turn. rewrite Hcl.
  destruct t as [|[st|] seek]; simpl; rewrite ?Hen; [| |intros [= <- <- <-]; by split; [done|unfold over; simpl; rewrite ?Hen, ?Hcl; constructor]].
  { intros [= <- <- <-]. split; [done|]. unfold over; simpl. rewrite ?Hen, ?orb_true_r. by eexists. }
  destruct (_ || _).
  - unfold on_playing. cbv zeta. simpl.
    set (pauses := if Bool.eqb _ _ then _ else _).
    assert (positions pauses = [] /\ Forall (fun e => terminal e = false) pauses) as [Pp Pt]
      by (unfold pauses; destruct (Bool.eqb _ _); split; try done; by constructor).
    intros E. assert (evs = pauses ++ [position_event (status_position st) (Length st)] /\ ended v' = ended v /\ closed v' = closed v /\
      (AutoSkip opts = false -> lastPos v' = status_position st)) as (-> & E1 & E2 & E3)
      by (destruct (AutoSkip opts); simpl in E; [destruct (skipTarget _ _ _)|]; simplify_eq; done).
    split; [intros; rewrite positions_app, Pp; simpl; auto|].
    unfold over. rewrite E1, E2, Hen, Hcl. simpl. apply Forall_app. split; [done|]. by constructor.
  - destruct (String.eqb (State st) "stopped"); [destruct (started v)|]; simpl; intros [= <- <- <-]; simpl; split; try done.
    all: unfold over; simpl; rewrite ?Hen, ?Hcl; first [by constructor|by eexists].
Qed.

Lemma watch_ends opts turns : forall v, over v = false ->
  if over (watch opts v turns).1.1 then
    exists pre e, (watch opts v turns).1.2 = pre ++ [e] /\ terminal e = true /\ Forall (fun e => terminal e = false) pre /\
      (AutoSkip opts = false -> Position e = default (lastPos v) (list.last (positions pre)))
  else Forall (fun e => terminal e = false) (watch opts v turns).1.2.
Proof.
  induction turns as [|t rest IH]; intros v Ho; simpl; [by rewrite Ho|].
  destruct (on_turn opts v t) as [[v' evs] seeks] eqn:E. pose proof (on_turn_ends _ _ _ _ _ _ Ho E) as [HP HT].
  specialize (IH v'). pose proof (over_quiet opts v' rest) as HQ.
  destruct (over v') eqn:Ho'.
  - clear IH. pose proof (over_stays opts v' rest Ho') as HO. specialize (HQ eq_refl). destruct (watch opts v' rest) as [[v'' evs'] seeks']. simpl in *. rewrite HO, HQ.
    destruct HT as (e & -> & ? & ? & ?). exists [], e. simpl. repeat split; [done|constructor|done].
  - specialize (IH eq_refl). destruct (watch opts v' rest) as [[v'' evs'] seeks']. simpl in *.
    destruct (over v''); [|by apply Forall_app].
    destruct IH as (pre & e & -> & ? & ? & HP'). exists (evs ++ pre), e. rewrite <- app_assoc. repeat split; [done|by apply Forall_app|].
    intros Ha. rewrite HP' by done. rewrite HP by done. by rewrite positions_app, default_last_app.
Qed.

Lemma watch_closes opts turns : forall v, Exited ∈ turns -> closed (watch opts v turns).1.1 = true.
Proof.
  assert (forall l v, closed v = true -> closed (watch opts v l).1.1 = true) as HC.
  { induction l as [|t l IH]; intros v Hc; simpl; [done|]. unfold on_turn. rewrite Hc. specialize (IH v Hc). by destruct (watch opts v l) as [[? ?] ?]. }
  induction turns as [|t rest IH]; intros v Hin; [by apply elem_of_nil in Hin|]. simpl.
  destruct (on_turn opts v t) as [[v' evs] seeks] eqn:E. specialize (IH v'). specialize (HC rest v').
  destruct (watch opts v' rest) as [[v'' evs'] seeks']. simpl in *.
  apply elem_of_cons in Hin as [<-|Hin]; [|by apply IH]. apply HC. unfold on_turn in E. destruct (closed v) eqn:C; by simplify_eq.
Qed.

(** ** What reaches the tracker *)

Lemma emit_sublist capacity queue e : sublist (emit capacity queue e) (queue ++ [e]).
Proof. unfold emit. destruct (_ <? _)%nat; [done|]. by apply sublist_inserts_r. Qed.

Lemma delivered_sublist capacity moves : forall queue, sublist (delivered capacity queue moves) (queue ++ sent moves).
Proof.
  induction moves as [|[e|] rest IH]; intros queue; simpl.
  - by rewrite app_nil_r.
  - etransitivity; [apply IH|]. change (e :: sent rest) with ([e] ++ sent rest). rewrite app_assoc.
    apply sublist_app; [apply emit_sublist|done].
  - destruct queue as [|x queue]; simpl; [apply (IH [])|]. constructor. apply IH.
Qed.

(** The tracker keeps up: the channel is never full when something is sent. *)
Fixpoint keeps_up (capacity : nat) (queue : nat) (moves : list transfer) : bool :=
  match moves with
  | [] => true
  | Sent _ :: rest => (queue <? capacity)%nat && keeps_up capacity (S queue) rest
  | Taken :: rest => keeps_up capacity (pred queue) rest
  end.

Lemma delivered_all capacity moves : forall queue, keeps_up capacity (List.length queue) moves = true ->
  delivered capacity queue moves = queue ++ sent moves.
Proof.
  induction moves as [|[e|] rest IH]; intros queue Hk; simpl in *.
  - by rewrite app_nil_r.
  - apply andb_true_iff in Hk as [Hl Hk]. unfold emit. rewrite Hl, IH; [by rewrite <- app_assoc|].
    by rewrite length_app, Nat.add_1_r.
  - destruct queue as [|x queue]; simpl in *; [by apply (IH [])|]. f_equal. by apply IH.
Qed.

(** VLC's process ends: whatever was answered before, its tracker is sent one event that ends
    the episode, and it is the last. *)
Lemma vlc_one_end opts turns : Exited ∈ turns ->
  exists pre e, (watch opts vlc_start turns).1.2 = pre ++ [e] /\ terminal e = true /\ Forall (fun e => terminal e = false) pre /\
    (AutoSkip opts = false -> Position e = default zero (list.last (positions pre))).
Proof.
  intros Hin. pose proof (watch_ends opts turns vlc_start eq_refl) as H. unfold over in H.
  rewrite (watch_closes opts turns vlc_start Hin), orb_true_r in H. exact H.
Qed.

(** ** Chapters: the property *)

(** When the ranges to skip come one after another, the chapters file covers the episode from zero
    to its duration without a gap or an overlap, each chapter taking some time, and
    names exactly the ranges that take time, in order, the rest being the episode. *)
Theorem chapters_cover `{Unicode} ranges duration (Ho : in_order zero ranges) (Hd : is_nan duration = false) :
  let l := chapters_from ranges zero duration in
  tiles zero l /\ fle duration (stops_at zero l) = true /\
  List.filter (fun c : chapter => negb (String.eqb c.2 "Episode")) l =
  List.filter (fun c : chapter => negb (String.eqb c.2 "Episode"))
    (map (fun r => (Start r, End r, chapterTitle (skip_kind r))) (List.filter (fun r => negb (fle (End r) (Start r))) ranges)).
Proof.
  cbv zeta. destruct (chapters_tile ranges duration zero eq_refl Hd Ho). split; [done|]. split; [done|]. apply chapters_titles.
Qed.

Definition op_ed : list SkipRange := [mkSkip "op" (of_int 128) (of_int 218); mkSkip "none" (of_int 300) (of_int 300); mkSkip "ed" (of_int 1343) (of_int 1433)].

Lemma chapters_cover_witness :
  let l := chapters_from (H := ascii_unicode) op_ed zero (of_int 1440) in
  List.length l = 5%nat /\
  (tiles zero l /\ fle (of_int 1440) (stops_at zero l) = true /\
  List.filter (fun c : chapter => negb (String.eqb c.2 "Episode")) l =
  List.filter (fun c : chapter => negb (String.eqb c.2 "Episode"))
    (map (fun r => (Start r, End r, chapterTitle (H := ascii_unicode) (skip_kind r))) (List.filter (fun r => negb (fle (End r) (Start r))) op_ed))).
Proof.
  split; [vm_compute; reflexivity|].
  apply (chapters_cover (H := ascii_unicode) op_ed (of_int 1440)); [|vm_compute; reflexivity].
  vm_compute. repeat split.
Defined.

(** The file written for an opening alone. *)
Example written_opening : WriteChapters (H := ascii_unicode) [mkSkip "op" (of_int 90) (of_int 180)] zero =
  ";FFMETADATA1" +:+ nl +:+
  nl +:+ "[CHAPTER]" +:+ nl +:+ "TIMEBASE=1/1000" +:+ nl +:+ "START=0" +:+ nl +:+ "END=90000" +:+ nl +:+ "title=Episode" +:+ nl +:+
  nl +:+ "[CHAPTER]" +:+ nl +:+ "TIMEBASE=1/1000" +:+ nl +:+ "START=90000" +:+ nl +:+ "END=180000" +:+ nl +:+ "title=Opening" +:+ nl.
Proof. vm_compute. reflexivity. Qed.
