(* ===== verification/Track.v ===== *)
(** * Following an episode in a desktop player: internal/library/play.go (track, save, watched, advance, skipRanges)

    The tracker reads the player's events one at a time and reports to the store
    ([Watch.SavePlayback]) at most every five seconds and at the end; it tells the viewer's list once that the
    episode is watched, and when the player closes it suspends the episode ([Yield]) and, after
    a natural end, starts the next.  What it does outside the store is a list of [act]s. *)
From stdpp Require Import base gmap strings list.
From Stdlib Require Import ZArith Lia Floats.SpecFloat.
From S2P Require Import Prelude GoStr Float64 Watch Player.

#[local] Open Scope string_scope.
#[local] Open Scope Z_scope.
#[local] Open Scope list_scope.

(** ** What to skip *)

(** [skipRanges]: the file's marked chapters, unless the probe failed, and what is
    stored for the kinds they lack.  [stored] is [None] when reading it failed. *)
Definition skipRanges (probed : option (list SkipRange)) (stored : option (list SkipRange)) : list SkipRange :=
  let chapters := List.filter (fun c => negb (String.eqb (skip_kind c) "")) (default [] probed) in
  if hasKind chapters "op" && hasKind chapters "ed" then chapters
  else match stored with
       | None => chapters
       | Some stored => fold_left (fun acc r => if hasKind acc (skip_kind r) then acc else acc ++ [r]) stored chapters
       end.

(** [launch], as far as the player is told what to open and skip: the local file when there is one;
    ranges, all of which it skips by itself; and the chapters file, when writing it succeeds. *)
Record launching := mkLaunching { URL : string; skipping : Skipping; ChaptersFile : option string }.

Definition launch `{Unicode} (streamURL localPath : string) (ranges : list SkipRange) (written : bool) : launching :=
  let url := if String.eqb localPath "" then streamURL else localPath in
  match ranges with
  | [] => mkLaunching url (mkSkipping false []) None
  | _ => mkLaunching url (mkSkipping true ranges) (if written then Some (WriteChapters ranges zero) else None)
  end.

(** ** The tracker *)

Definition saveEvery : Z := 5000000000.
Definition maxStep : f64 := Eval vm_compute in of_int 5.

(** What holds when an event is read: whether this tracker's generation is still the
    player's, the monotone clock in nanoseconds, and for the store the
    threshold, the day, the time and whether the transaction commits. *)
Record moment := mkMoment { owns : bool; now : Z; threshold : f64; today : string; clock : Z; commits : bool }.

Inductive act := Saved (p : PlaybackState) | Told | AutoDeleted | Suspended | Advanced.

Record tracker := mkTracker {
  last : option Z; reported : bool; positioned : bool; played : f64; lastPos : f64; lastDur : f64;
  store : watching; acts : list act; returned : bool;
}.

Definition start (s : watching) : tracker := mkTracker None false false zero zero zero s [] false.

Section Track.
Variables animeID episode : Z.
Variables has_sync has_cache : bool.

Definition report_of (pos dur : f64) (tr : tracker) : PlaybackState := mkReport animeID (itoa episode) pos dur (played tr).

(** [save]: whether the store says the episode is watched; a failed one says no. *)
Definition save (m : moment) (p : PlaybackState) (s : watching) : watching * bool :=
  if commits m then SavePlayback (threshold m) (today m) (clock m) p s else (s, false).

(** [watched], with [autoDelete]. *)
Definition watched : list act := if has_sync then Told :: (if has_cache then [AutoDeleted] else []) else [].

(** A save, the list told if it is the first to say watched, and the count begun again. *)
Definition judge (m : moment) (pos dur : f64) (tr : tracker) : tracker :=
  let p := report_of pos dur tr in
  let '(s, w) := save m p (store tr) in
  let first := w && negb (reported tr) in
  mkTracker (last tr) (reported tr || first) (positioned tr) zero (lastPos tr) (lastDur tr) s
    (acts tr ++ Saved p :: (if first then watched else [])) (returned tr).

Definition doing (l : list act) (tr : tracker) : tracker :=
  mkTracker (last tr) (reported tr) (positioned tr) (played tr) (lastPos tr) (lastDur tr) (store tr) (acts tr ++ l) (returned tr).

Definition return_ (tr : tracker) : tracker :=
  mkTracker (last tr) (reported tr) (positioned tr) (played tr) (lastPos tr) (lastDur tr) (store tr) (acts tr) true.

(** The step from the last position, when it is one of playing and not a seek. *)
Definition step_played (tr : tracker) (pos : f64) : f64 :=
  let step := fsub pos (lastPos tr) in
  if fgt step zero && fle step maxStep then fadd (played tr) step else played tr.

Definition on_position (m : moment) (ev : Event) (tr : tracker) : tracker :=
  let tr := mkTracker (last tr) (reported tr) true (step_played tr (Position ev)) (Position ev)
              (if fgt (Duration ev) zero then Duration ev else lastDur tr) (store tr) (acts tr) (returned tr) in
  match last tr with
  | Some l => if now m - l <? saveEvery then tr else
      judge m (Position ev) (Duration ev)
        (mkTracker (Some (now m)) (reported tr) (positioned tr) (played tr) (lastPos tr) (lastDur tr) (store tr) (acts tr) (returned tr))
  | None =>
      judge m (Position ev) (Duration ev)
        (mkTracker (Some (now m)) (reported tr) (positioned tr) (played tr) (lastPos tr) (lastDur tr) (store tr) (acts tr) (returned tr))
  end.

Definition on_end (m : moment) (ev : Event) (tr : tracker) : tracker :=
  let eof := String.eqb (Reason ev) "eof" in
  let pos := if feq (Position ev) zero then lastPos tr else Position ev in
  let '(pos, dur) := if eof && fgt (lastDur tr) zero then (lastDur tr, lastDur tr) else (pos, Duration ev) in
  let tr := if positioned tr || fgt pos zero then judge m pos dur tr else tr in
  let tr := if negb (reported tr) && negb (positioned tr) && eof then doing watched tr else tr in
  let tr := doing [Suspended] tr in
  return_ (if bool_decide (Kind ev = EventEnd) && eof then doing [Advanced] tr else tr).

Definition on_event (m : moment) (ev : Event) (tr : tracker) : tracker :=
  if returned tr then tr
  else if negb (owns m) then return_ tr
  else match Kind ev with
       | EventPosition => on_position m ev tr
       | EventPause => tr
       | EventEnd | EventExit => on_end m ev tr
       end.

(** The loop over the events; it also ends when the channel is closed. *)
Fixpoint track (tr : tracker) (l : list (moment * Event)) : tracker :=
  match l with [] => tr | (m, ev) :: rest => track (on_event m ev tr) rest end.

(** [advance]: what the next start asks for, if the viewer wants it and there is a next. *)
Definition advance (season : Z) (autonext : option bool) (next : option Z) : option (Z * Z * Z) :=
  match autonext, next with
  | Some true, Some n => if n =? 0 then None else Some (animeID, n, season)
  | _, _ => None
  end.

(** ** What was heard *)

(** The events read while the player was this tracker's, up to the one that ends the episode. *)
Fixpoint heard (l : list (moment * Event)) : list Event :=
  match l with
  | [] => []
  | (m, e) :: rest => if owns m then e :: (if terminal e then [] else heard rest) else []
  end.

Definition durations (evs : list Event) : list f64 :=
  omap (fun e => if bool_decide (Kind e = EventPosition) && fgt (Duration e) zero then Some (Duration e) else None) evs.

(** The steps of playing among positions, seeks left out. *)
Fixpoint steps (from : f64) (ps : list f64) : list f64 :=
  match ps with
  | [] => []
  | p :: rest => let d := fsub p from in (if fgt d zero && fle d maxStep then [d] else []) ++ steps p rest
  end.

Definition total (l : list f64) : f64 := fold_left fadd l zero.

Definition saved (l : list act) : list PlaybackState := omap (fun a => match a with Saved p => Some p | _ => None end) l.

Definition times (x : act -> bool) (l : list act) : nat := List.length (List.filter x l).
Definition is_told (a : act) : bool := match a with Told => true | _ => false end.
Definition is_suspended (a : act) : bool := match a with Suspended => true | _ => false end.
Definition is_advanced (a : act) : bool := match a with Advanced => true | _ => false end.

Definition seen (s : watching) : bool := p_watched (row_of (playback s) (animeID, itoa episode)).

Lemma times_app x a b : times x (a ++ b) = (times x a + times x b)%nat.
Proof. unfold times. by rewrite List.filter_app, length_app. Qed.

Lemma saved_app a b : saved (a ++ b) = saved a ++ saved b.
Proof. apply omap_app. Qed.

Lemma steps_app from a b : steps from (a ++ b) = steps from a ++ steps (default from (list.last a)) b.
Proof.
  revert from. induction a as [|p a IH]; intros from; simpl; [done|]. rewrite IH, app_assoc. do 2 f_equal.
  destruct a as [|q a]; [done|]. change (list.last (p :: q :: a)) with (list.last (q :: a)).
  assert (is_Some (list.last (q :: a))) as [z ->] by (rewrite last_is_Some; done). done.
Qed.

Lemma watched_acts : times is_told watched = (if has_sync then 1 else 0)%nat /\ saved watched = [] /\
  times is_suspended watched = 0%nat /\ times is_advanced watched = 0%nat.
Proof. unfold watched. by destruct has_sync, has_cache. Qed.

Lemma save_seen m p s s' w : save m p s = (s', w) -> AnimeID p = animeID -> EpKey p = itoa episode ->
  (w = true -> seen s' = true) /\ (seen s = true -> seen s' = true).
Proof.
  unfold save, seen. destruct (commits m); [|intros [= <- <-]; done]. intros E Ha Hk.
  pose proof (SavePlayback_row (threshold m) (today m) (clock m) p s) as H. rewrite E in H.
  unfold key_of in H. rewrite Ha, Hk in H. destruct H as (Hw & r & -> & Hr & _).
  replace (row_of (<[_ := r]> _) _) with r by (unfold row_of; by rewrite lookup_insert_eq). rewrite Hr. split; [done|].
  intros Hs. rewrite Hw. unfold watched_after. by rewrite Hs.
Qed.

(** The reports group the steps of playing, each step in one report; [g] are those not reported yet. *)
Definition accounted (sent : list PlaybackState) (ps : list f64) (g : list f64) : Prop :=
  exists gs, map Played sent = map total gs /\ List.concat gs ++ g = steps zero ps.

Record Inv (past : list Event) (tr : tracker) : Prop := mkInv {
  i_pos : lastPos tr = default zero (list.last (positions past));
  i_positioned : positioned tr = negb (bool_decide (positions past = []));
  i_dur : lastDur tr = zero \/ (lastDur tr ∈ durations past /\ fgt (lastDur tr) zero = true);
  i_saved : Forall (fun p => Watch.Position p ∈ positions past) (saved (acts tr));
  i_told : times is_told (acts tr) = if has_sync && reported tr then 1%nat else 0%nat;
  i_quiet : times is_suspended (acts tr) = 0%nat /\ times is_advanced (acts tr) = 0%nat;
  i_seen : reported tr = true -> seen (store tr) = true;
  i_played : exists g, accounted (saved (acts tr)) (positions past) g /\ played tr = total g;
}.

Lemma Inv_start s : Inv [] (start s).
Proof.
  split; cbn; rewrite ?andb_false_r; try done; [by constructor|]. exists []. split; [by exists []|done].
Qed.

(** What a report does to the tracker. *)
Lemma judge_spec m pos dur tr : let tr' := judge m pos dur tr in let p := report_of pos dur tr in
  saved (acts tr') = saved (acts tr) ++ [p] /\
  times is_suspended (acts tr') = times is_suspended (acts tr) /\ times is_advanced (acts tr') = times is_advanced (acts tr) /\
  (times is_told (acts tr) = (if has_sync && reported tr then 1 else 0) ->
   times is_told (acts tr') = if has_sync && reported tr' then 1 else 0)%nat /\
  ((reported tr = true -> seen (store tr) = true) -> reported tr' = true -> seen (store tr') = true) /\
  positioned tr' = positioned tr.
Proof.
  cbv zeta. unfold judge. destruct (save m _ _) as [s w] eqn:E. cbn [acts store reported positioned].
  destruct (save_seen _ _ _ _ _ E eq_refl eq_refl) as [S1 S2]. destruct watched_acts as (W1 & W2 & W3 & W4).
  assert (forall b : bool, saved (if b then watched else []) = [] /\ times is_suspended (if b then watched else []) = 0%nat /\
    times is_advanced (if b then watched else []) = 0%nat) as HW by by intros [].
  destruct (HW (w && negb (reported tr))) as (X1 & X2 & X3).
  set (told := if w && negb (reported tr) then watched else []) in *.
  change (Saved ?p :: told) with ([Saved p] ++ told). rewrite !saved_app, !times_app, X1, X2, X3.
  change (saved [Saved (report_of pos dur tr)]) with [report_of pos dur tr].
  change (times ?f [Saved (report_of pos dur tr)]) with 0%nat. rewrite app_nil_r, !Nat.add_0_r. split_and!; try done.
  - intros ->. subst told. destruct w, (reported tr), has_sync; simpl in *; rewrite ?W1; done.
  - intros Hs. destruct w, (reported tr); simpl; auto.
Qed.

Lemma total_snoc g d : total (g ++ [d]) = fadd (total g) d.
Proof. unfold total. by rewrite fold_left_app. Qed.

Lemma positions_snoc past e : Kind e = EventPosition -> positions (past ++ [e]) = positions past ++ [Position e].
Proof. intros He. rewrite positions_app. unfold positions at 2. simpl. by rewrite bool_decide_eq_true_2. Qed.

(** The step from the last position joins those to report. *)
Lemma step_accounted past tr e : Kind e = EventPosition -> Inv past tr ->
  exists g, accounted (saved (acts tr)) (positions (past ++ [e])) g /\ step_played tr (Position e) = total g.
Proof.
  intros He I. destruct (i_played _ _ I) as (g & (gs & Hm & Hc) & Ht). unfold step_played, accounted.
  rewrite positions_snoc, steps_app, <- (i_pos _ _ I) by done. cbn [steps]. rewrite app_nil_r.
  destruct (fgt _ zero && _).
  - exists (g ++ [fsub (Position e) (lastPos tr)]). rewrite total_snoc, Ht. split; [|done]. exists gs. by rewrite app_assoc, Hc.
  - exists g. split; [|done]. exists gs. by rewrite app_nil_r, Hc.
Qed.

(** A report sends what was gathered. *)
Lemma accounted_sent sent ps g p : accounted sent ps g -> Played p = total g -> accounted (sent ++ [p]) ps [].
Proof.
  intros (gs & Hm & Hc) Hp. exists (gs ++ [g]). rewrite !map_app, Hm. cbn [map]. rewrite Hp.
  split; [done|]. by rewrite List.concat_app, app_nil_r; cbn; rewrite app_nil_r.
Qed.

Lemma on_position_inv past m e tr : Kind e = EventPosition -> Inv past tr -> Inv (past ++ [e]) (on_position m e tr).
Proof.
  intros He I. pose proof (positions_snoc past e He) as HP.
  destruct (step_accounted past tr e He I) as (g & Hg & Hs).
  set (tr1 := mkTracker (last tr) (reported tr) true (step_played tr (Position e)) (Position e)
                (if fgt (Duration e) zero then Duration e else lastDur tr) (store tr) (acts tr) (returned tr)).
  assert (Inv (past ++ [e]) tr1) as I1.
  { split; cbn [lastPos positioned lastDur acts reported store played tr1]; rewrite ?HP.
    - by rewrite last_snoc.
    - by rewrite bool_decide_eq_false_2 by (by destruct (positions past)).
    - unfold durations. rewrite omap_app, elem_of_app. fold (durations past). cbn. rewrite He.
      destruct (fgt (Duration e) zero) eqn:F; cbn; [by right; split; [right; left|]|].
      destruct (i_dur _ _ I) as [?|[? ?]]; [by left|by right; split; [left|]].
    - eapply Forall_impl; [apply (i_saved _ _ I)|]. intros p Hp. apply elem_of_app. by left.
    - apply (i_told _ _ I).
    - apply (i_quiet _ _ I).
    - apply (i_seen _ _ I).
    - exists g. by rewrite <- HP. }
  assert (forall l, Inv (past ++ [e]) (judge m (Position e) (Duration e)
    (mkTracker l (reported tr1) (positioned tr1) (played tr1) (lastPos tr1) (lastDur tr1) (store tr1) (acts tr1) (returned tr1)))) as I2.
  { intros l. set (tr2 := mkTracker l _ _ _ _ _ _ _ _).
    destruct (judge_spec m (Position e) (Duration e) tr2) as (J1 & J2 & J3 & J4 & J5 & J6).
    set (tr3 := judge m _ _ tr2) in *.
    assert (lastPos tr3 = lastPos tr1 /\ lastDur tr3 = lastDur tr1 /\ played tr3 = zero) as (L1 & L2 & L3)
      by (subst tr3; unfold judge; by destruct (save m _ _)).
    split; rewrite ?L1, ?L2, ?L3, ?J1, ?J2, ?J3, ?J6; try apply I1.
    - apply Forall_app. split; [apply (i_saved _ _ I1)|]. constructor; [|by constructor]. cbn. rewrite HP. set_solver.
    - apply J4, (i_told _ _ I1).
    - apply J5, (i_seen _ _ I1).
    - exists []. split; [|done]. destruct (i_played _ _ I1) as (g' & Hg' & Ht'). by eapply accounted_sent. }
  unfold on_position. cbn [last]. destruct (last tr) as [l|] eqn:El; [destruct (now m - l <? saveEvery); [exact I1|]|]; apply I2.
Qed.

Lemma Inv_pause past e tr : Kind e = EventPause -> Inv past tr -> Inv (past ++ [e]) tr.
Proof.
  intros He I. assert (positions (past ++ [e]) = positions past /\ durations (past ++ [e]) = durations past) as [P D].
  { unfold positions, durations. rewrite !omap_app. cbn. rewrite He. cbn. by rewrite !app_nil_r. }
  destruct I. split; by rewrite ?P, ?D.
Qed.

(** A tracker under way either still is, or ended at the one event that ends it. *)
Lemma track_shape l : forall past tr, returned tr = false -> Inv past tr ->
  (Forall (fun e => terminal e = false) (heard l) /\ Inv (past ++ heard l) (track tr l)) \/
  (exists pre m e tr', heard l = pre ++ [e] /\ terminal e = true /\ Forall (fun e => terminal e = false) pre /\
     Inv (past ++ pre) tr' /\ track tr l = on_end m e tr').
Proof.
  assert (forall l tr, returned tr = true -> track tr l = tr) as HR.
  { induction l0 as [|[m e] l0 IH]; intros tr Hr; cbn; [done|]. unfold on_event. rewrite Hr. by apply IH. }
  induction l as [|[m e] rest IH]; intros past tr Hr I; cbn [heard track].
  { left. rewrite app_nil_r. by split; [constructor|]. }
  unfold on_event. rewrite Hr. destruct (owns m); cbn [negb].
  2:{ rewrite HR by done. left. rewrite app_nil_r. split; [constructor|]. by destruct I. }
  assert (forall tr', terminal e = false -> returned tr' = false -> Inv (past ++ [e]) tr' ->
    (Forall (fun e => terminal e = false) (e :: heard rest) /\ Inv (past ++ e :: heard rest) (track tr' rest)) \/
    (exists pre m0 e0 tr'', e :: heard rest = pre ++ [e0] /\ terminal e0 = true /\ Forall (fun e => terminal e = false) pre /\
       Inv (past ++ pre) tr'' /\ track tr' rest = on_end m0 e0 tr'')) as HG.
  { intros tr' Ht Hr' I'. destruct (IH _ _ Hr' I') as [[HF HI]|(pre & m0 & e0 & tr'' & HH & HT & HF & HI & HE)].
    - left. split; [by constructor|]. by rewrite <- app_assoc in HI.
    - right. exists (e :: pre), m0, e0, tr''. rewrite HH. rewrite <- app_assoc in HI. split_and!; try done. by constructor. }
  destruct (Kind e) eqn:K.
  - assert (terminal e = false) as -> by (unfold terminal; by rewrite K). apply HG; [unfold terminal; by rewrite K| |by apply on_position_inv].
    unfold on_position, judge. cbn [last]. destruct (last tr) as [t|]; [destruct (now m - t <? saveEvery)|]; try destruct (save m _ _); done.
  - assert (terminal e = false) as -> by (unfold terminal; by rewrite K). apply HG; [unfold terminal; by rewrite K|done|by apply Inv_pause].
  - right. exists [], m, e, tr. assert (terminal e = true) as -> by (unfold terminal; by rewrite K). rewrite app_nil_r.
    refine (conj eq_refl (conj eq_refl (conj (Forall_nil_2 _) (conj I _)))).
    apply HR. by unfold on_end; repeat case_match.
  - right. exists [], m, e, tr. assert (terminal e = true) as -> by (unfold terminal; by rewrite K). rewrite app_nil_r.
    refine (conj eq_refl (conj eq_refl (conj (Forall_nil_2 _) (conj I _)))).
    apply HR. by unfold on_end; repeat case_match.
Qed.

(** ** The end of an episode *)

Definition eof (e : Event) : bool := String.eqb (Reason e) "eof".

(** Where a report's position may come from, after [evs]. *)
Definition vouched (evs : list Event) (q : f64) : Prop :=
  q ∈ positions evs \/
  exists e, e ∈ evs /\ terminal e = true /\
    ((q = Position e /\ feq q zero = false) \/ (eof e = true /\ q ∈ durations evs)).

(** The end's own report, if any. *)
Definition last_report (past : list Event) (e : Event) (tr tr1 : tracker) : Prop :=
  (tr1 = tr /\ positions past = []) \/
  (exists m pos dur, tr1 = judge m pos dur tr /\ vouched (past ++ [e]) pos).

Lemma vouched_grows past e q : q ∈ positions past -> vouched (past ++ [e]) q.
Proof. intros Hq. left. rewrite positions_app. apply elem_of_app. by left. Qed.

Lemma durations_app a b : durations (a ++ b) = durations a ++ durations b.
Proof. apply omap_app. Qed.

Lemma on_end_shape past m e tr : terminal e = true -> Inv past tr ->
  exists tr1, last_report past e tr tr1 /\
    let said := if negb (reported tr1) && bool_decide (positions past = []) && eof e then watched else [] in
    acts (on_end m e tr) = acts tr1 ++ said ++ Suspended :: (if bool_decide (Kind e = EventEnd) && eof e then [Advanced] else []) /\
    store (on_end m e tr) = store tr1.
Proof.
  intros Ht I. unfold on_end. cbv zeta. fold (eof e). set (p0 := if feq (Position e) zero then lastPos tr else Position e).
  destruct (if eof e && fgt (lastDur tr) zero then (lastDur tr, lastDur tr) else (p0, Duration e)) as [pos dur] eqn:E.
  set (tr1 := if positioned tr || fgt pos zero then judge m pos dur tr else tr).
  assert (positioned tr1 = positioned tr) as Hp by (unfold tr1, judge; destruct (_ || _); [by destruct (save m _ _)|done]).
  exists tr1. split.
  - unfold tr1. rewrite (i_positioned _ _ I). destruct (bool_decide_reflect (positions past = [])) as [Hn|Hn]; cbn [negb orb].
    + assert (lastDur tr = zero \/ False) as [Hd|[]].
      { destruct (i_dur _ _ I) as [?|[Hd _]]; [by left|right]. revert Hn Hd. clear. induction past as [|x past IH]; cbn; [intros _ ?%elem_of_nil; done|].
        destruct (bool_decide (Kind x = EventPosition)); cbn; [done|]. done. }
      rewrite Hd in E. rewrite andb_false_r in E. injection E as <- <-.
      destruct (fgt p0 zero) eqn:F; [|by left]. right. exists m, p0, (Duration e). split; [done|].
      right. exists e. split; [set_solver|]. split; [done|]. left. unfold p0 in *. destruct (feq (Position e) zero) eqn:G; [|done].
      rewrite (i_pos _ _ I), Hn in F. done.
    + right. exists m, pos, dur. split; [done|]. destruct (eof e && fgt (lastDur tr) zero) eqn:F; injection E as <- <-.
      * apply andb_true_iff in F as [F1 F2]. destruct (i_dur _ _ I) as [Hz|[Hd _]]; [by rewrite Hz in F2|].
        right. exists e. split; [set_solver|]. split; [done|]. right. split; [done|]. rewrite durations_app. set_solver.
      * unfold p0. destruct (feq (Position e) zero) eqn:G.
        -- apply vouched_grows. rewrite (i_pos _ _ I).
           destruct (list.last (positions past)) as [z|] eqn:L; [|by apply last_None in L]. apply last_Some in L as [? ->]. set_solver.
        -- right. exists e. split; [set_solver|]. split; [done|]. by left.
  - cbv zeta. fold tr1. rewrite Hp, (i_positioned _ _ I), negb_involutive.
    destruct (negb (reported tr1) && bool_decide (positions past = []) && eof e), (bool_decide (Kind e = EventEnd) && eof e);
      cbn [doing return_ acts store]; by rewrite <- ?app_assoc.
Qed.

(** The report of the end, in numbers. *)
Lemma last_report_spec past e tr tr1 : Inv past tr -> last_report past e tr tr1 ->
  Forall (fun p => vouched (past ++ [e]) (Watch.Position p)) (saved (acts tr1)) /\
  times is_suspended (acts tr1) = 0%nat /\ times is_advanced (acts tr1) = 0%nat /\
  times is_told (acts tr1) = (if has_sync && reported tr1 then 1 else 0)%nat /\
  (reported tr1 = true -> seen (store tr1) = true) /\
  accounted (saved (acts tr1)) (positions past) [].
Proof.
  intros I HL. destruct (i_played _ _ I) as (g & Hg & Hp). destruct (i_quiet _ _ I) as [Q1 Q2].
  assert (Forall (fun p => vouched (past ++ [e]) (Watch.Position p)) (saved (acts tr))) as HF
    by (eapply Forall_impl; [apply (i_saved _ _ I)|]; intros; by apply vouched_grows).
  destruct HL as [[-> Hn]|(m & pos & dur & -> & Hv)].
  - split_and!; try done; [apply (i_told _ _ I)|apply (i_seen _ _ I)|].
    destruct Hg as (gs & Hm & Hc). rewrite Hn in *. cbn in Hc. apply app_eq_nil in Hc as [Hc ->].
    exists gs. rewrite Hc. done.
  - destruct (judge_spec m pos dur tr) as (J1 & J2 & J3 & J4 & J5 & J6). rewrite J1, J2, J3.
    split_and!; try done.
    + apply Forall_app. split; [done|]. constructor; [done|by constructor].
    + apply J4, (i_told _ _ I).
    + apply J5, (i_seen _ _ I).
    + by eapply accounted_sent.
Qed.

Lemma terminal_nonterminal past e : terminal e = true -> positions (past ++ [e]) = positions past.
Proof.
  intros Ht. rewrite positions_app. unfold terminal in Ht. unfold positions at 2. cbn. destruct (Kind e); try done; by rewrite app_nil_r.
Qed.

Lemma existsb_quiet (x : Event -> bool) l : Forall (fun e => x e = false) l -> existsb x l = false.
Proof. induction 1 as [|y l Hy _ IH]; cbn; [done|]. by rewrite Hy. Qed.

(** C36: every position the tracker saves is one the player reported, or that of the event that ended
    the episode when not zero, or at a natural end a duration the player reported, so a session never saves an invented zero over the resume point;
    the reports group the steps of playing exactly (a seek is none, no step is reported twice,
    and once the episode ended none is left over). *)
Theorem reports_truthful s l :
  let tr := track (start s) l in
  Forall (fun p => vouched (heard l) (Watch.Position p)) (saved (acts tr)) /\
  exists g, accounted (saved (acts tr)) (positions (heard l)) g /\ (existsb terminal (heard l) = true -> g = []).
Proof.
  cbv zeta. destruct (track_shape l [] (start s) eq_refl (Inv_start s)) as [[HF HI]|(pre & m & e & tr & HH & HT & HF & HI & ->)]; rewrite app_nil_l in HI.
  - split; [eapply Forall_impl; [apply (i_saved _ _ HI)|]; by left|].
    destruct (i_played _ _ HI) as (g & Hg & _). exists g. split; [done|]. by rewrite existsb_quiet.
  - destruct (on_end_shape pre m e tr HT HI) as (tr1 & HL & -> & _). destruct (last_report_spec pre e tr tr1 HI HL) as (S1 & _ & _ & _ & _ & S2).
    rewrite HH, !saved_app, terminal_nonterminal by done.
    set (said := if negb _ && _ && _ then _ else _). assert (saved said = []) as -> by (unfold said, watched; by repeat case_match).
    change (Suspended :: ?x) with ([Suspended] ++ x). rewrite saved_app. cbn [saved omap list_omap].
    assert (saved (if bool_decide (Kind e = EventEnd) && eof e then [Advanced] else []) = []) as -> by (clear; case_match; reflexivity).
    rewrite !app_nil_r. split; [done|by exists []].
Qed.

(** Told once, and only of what was watched, or of an episode that ended without a position ever. *)
Lemma told_spec s l : let tr := track (start s) l in
  (times is_told (acts tr) <= 1)%nat /\
  (times is_told (acts tr) <> 0%nat -> seen (store tr) = true \/
    (positions (heard l) = [] /\ exists e, e ∈ heard l /\ terminal e = true /\ eof e = true)).
Proof.
  cbv zeta. destruct watched_acts as (W & _).
  destruct (track_shape l [] (start s) eq_refl (Inv_start s)) as [[HF HI]|(pre & m & e & tr & HH & HT & HF & HI & ->)]; rewrite app_nil_l in HI.
  - rewrite (i_told _ _ HI). pose proof (i_seen _ _ HI). destruct has_sync, (reported _); cbn; split; auto; lia.
  - destruct (on_end_shape pre m e tr HT HI) as (tr1 & HL & -> & ->). destruct (last_report_spec pre e tr tr1 HI HL) as (_ & _ & _ & S1 & S2 & _).
    rewrite HH, terminal_nonterminal, !times_app, S1 by done. change (times is_told (Suspended :: ?x)) with (times is_told x).
    assert (times is_told (if bool_decide (Kind e = EventEnd) && eof e then [Advanced] else []) = 0%nat) as -> by (clear; case_match; reflexivity).
    destruct (reported tr1) eqn:R; cbn [negb andb].
    + rewrite andb_true_r. destruct has_sync; cbn; split; auto; lia.
    + rewrite andb_false_r. destruct (bool_decide_reflect (positions pre = [])); cbn [andb]; [destruct (eof e) eqn:He|]; cbn; rewrite ?W; [|split; [lia|done]..].
      split; [destruct has_sync; lia|]. intros _. right. split; [done|]. exists e. split; [set_solver|done].
Qed.

(** Suspended exactly when the episode's end was heard, and the next started exactly after a natural one. *)
Lemma ends_spec s l : let tr := track (start s) l in
  times is_suspended (acts tr) = (if existsb terminal (heard l) then 1 else 0)%nat /\
  times is_advanced (acts tr) = (if existsb (fun e => bool_decide (Kind e = EventEnd) && eof e) (heard l) then 1 else 0)%nat.
Proof.
  cbv zeta. destruct watched_acts as (_ & _ & W1 & W2).
  destruct (track_shape l [] (start s) eq_refl (Inv_start s)) as [[HF HI]|(pre & m & e & tr & HH & HT & HF & HI & ->)]; rewrite app_nil_l in HI.
  - destruct (i_quiet _ _ HI) as [-> ->]. rewrite existsb_quiet by done. rewrite existsb_quiet; [done|].
    eapply Forall_impl; [exact HF|]. intros e He%orb_false_iff. cbn in *. destruct He as [-> _]. done.
  - destruct (on_end_shape pre m e tr HT HI) as (tr1 & HL & -> & _). destruct (last_report_spec pre e tr tr1 HI HL) as (_ & S1 & S2 & _).
    rewrite HH, !existsb_app, !times_app, S1, S2, (existsb_quiet terminal) by done.
    rewrite (existsb_quiet (fun e => _) pre). 2:{ eapply Forall_impl; [exact HF|]. intros x Hx%orb_false_iff. cbn in *. destruct Hx as [-> _]. done. }
    set (said := if negb _ && _ && _ then _ else _).
    assert (times is_suspended said = 0%nat /\ times is_advanced said = 0%nat) as [-> ->] by (unfold said; by destruct (_ && _)).
    cbn [existsb]. rewrite HT. cbn [orb]. by destruct (bool_decide _ && _).
Qed.

End Track.

(** ** VLC, its channel and the tracker *)

Lemma heard_owned l pre e : Forall (fun x => owns x.1 = true) l -> map snd l = pre ++ [e] ->
  Forall (fun x => terminal x = false) pre -> heard l = pre ++ [e].
Proof.
  revert pre. induction l as [|[m x] l IH]; intros pre Ho Hl Hp; cbn in *; [by destruct pre|].
  inversion Ho as [|? ? Hm Ho']; subst. cbn in Hm. rewrite Hm. destruct pre as [|y pre]; cbn in Hl.
  - injection Hl as -> Hl. apply map_eq_nil in Hl as ->. cbn. by destruct (terminal e).
  - injection Hl as -> Hl. inversion Hp as [|? ? Hy Hp']; subst. rewrite Hy. cbn. f_equal. by apply IH.
Qed.


Definition seconds (n : Z) : f64 := of_int n.
Definition at_ (n : Z) : moment := mkMoment true (n * 1000000000) defaultThreshold "2024-05-01" n true.
Definition playing (n len : Z) : turn := Tick (Some (mkStatus "playing" (seconds n) (seconds len) zero)) true.
Definition stopped : turn := Tick (Some (mkStatus "stopped" zero zero zero)) true.
Definition no_skips : Skipping := mkSkipping false [].
Definition nothing_stored : watching := mkWatching ∅ ∅.

(** A short one, watched whole. *)
Definition short_run : list turn := [playing 1 10; playing 4 10; playing 8 10; stopped; Exited].
Definition in_step (evs : list Event) : list transfer := flat_map (fun e => [Sent e; Taken]) evs.
Definition heard_at (evs : list Event) : list (moment * Event) := imap (fun i e => (at_ (Z.of_nat i), e)) evs.


(** It is told, and the next one starts. *)
Example short_run_told :
  let tr := track 1 2 true true (start nothing_stored) (heard_at (watch no_skips vlc_start short_run).1.2) in
  (times is_told (acts tr), times is_advanced (acts tr), List.length (saved (acts tr))) = (1%nat, 1%nat, 2%nat).
Proof. vm_compute. reflexivity. Qed.

(** A tracker that does not keep up: eight positions wait, the end is dropped, and the episode is
    never suspended. *)
Definition busy_run : list turn := map (fun n => playing (Z.of_nat n) 20) (seq 1 9) ++ [stopped; Exited].
Definition behind (evs : list Event) : list transfer :=
  match evs with e :: rest => Sent e :: Taken :: map Sent rest | [] => [] end.

Lemma dropped_end_lost :
  let evs := (watch no_skips vlc_start busy_run).1.2 in
  let got := delivered vlcBuffer [] (behind evs) in
  sent (behind evs) = evs /\ existsb terminal evs = true /\ existsb terminal got = false /\
  times is_suspended (acts (track 1 2 true true (start nothing_stored) (heard_at got))) = 0%nat.
Proof. vm_compute. split_and!; reflexivity. Qed.

(** ** Chapters out of order

    A file that marks its ending only has the stored opening appended after it, and the
    chapters written are not in order: the episode's first chapter runs over the opening. *)
Definition ending : SkipRange := mkSkip "ed" (of_int 1300) (of_int 1390).
Definition opening : SkipRange := mkSkip "op" (of_int 90) (of_int 180).

Lemma chapters_overlap `{Unicode} :
  skipRanges (Some [ending]) (Some [opening]) = [ending; opening] /\
  map fst (chapters_from (skipRanges (Some [ending]) (Some [opening])) zero zero) =
    [(zero, of_int 1300); (of_int 1300, of_int 1390); (of_int 90, of_int 180)].
Proof. split; vm_compute; reflexivity. Qed.
