(* ===== verification/Start.v ===== *)
(** * Starting an episode: internal/library/play.go (Start, startLocal, reattach, warmed, awaitHead, attach, candidates), stage.go, prefetch.go (localCopy)

    What pressing play does: a file of the library, the release already held, the one
    resolved ahead, or a search, in that order, and the session that comes of it.  The store's
    records, the engine's torrents and the prefetcher's tables are those of [Fetch]; the race of
    candidates is [Race]'s, here the argument [attachFrom].  While it waits anything may happen: [meanwhile].
    What else the engine, the file system and the players answer is in [answers]. *)
From stdpp Require Import base gmap sets strings list.
From Stdlib Require Import ZArith Lia.
From S2P Require Import Prelude GoStr Float64 Parse Score Records Fetch Watch Await.

#[local] Open Scope string_scope.
#[local] Open Scope Z_scope.
#[local] Open Scope list_scope.

Record PlayRequest := mkRequest {
  AnimeID : Z; Episode : Z; Season : Z; req_InfoHash : string; External : bool; req_AllowRaw : bool; AudioChosen : bool;
  Prefs : Preferences;
}.

Record Session := mkSession {
  Title : string; Source : string; s_InfoHash : string; TorrentID : Z; s_FileIndex : Z; LocalPath : string; StartAt : f64;
}.

(** A row of the library's files, in the order [LocalEpisode] prefers. *)
Record LocalFile := mkLocal { ID : Z; Path : string }.

(** ** What the player shows of a start *)

Record Stage := mkStage { Step : string; Release_ : string; st_Peers : Z; Bytes : Z; rank : Z }.

Definition setStage (key : Z * Z) (r : Z) (s : Stage) (m : gmap (Z * Z) Stage) : gmap (Z * Z) Stage :=
  match m !! key with
  | Some old => if negb (String.eqb (Step old) "search") && (rank old <? r) then m
                else <[key := mkStage (Step s) (Release_ s) (st_Peers s) (Bytes s) r]> m
  | None => <[key := mkStage (Step s) (Release_ s) (st_Peers s) (Bytes s) r]> m
  end.

Definition dropStage (key : Z * Z) (r : Z) (m : gmap (Z * Z) Stage) : gmap (Z * Z) Stage :=
  match m !! key with
  | Some old => if rank old =? r then <[key := mkStage "search" "" 0 0 0]> m else m
  | None => m
  end.

Definition ClearStage (key : Z * Z) (m : gmap (Z * Z) Stage) : gmap (Z * Z) Stage := delete key m.

(** ** The head of a file

    [polls], [reads] and [checked]: at each round, the statistics, whether the read has returned and how,
    and the clock when the statistics are there. *)
Inductive head := Read_ok | Read_failed | Head_stalled.

Section head.
Context (polls : nat -> option Stats) (reads : nat -> option bool) (checked : nat -> Z) (stall : Z).

(** One round of [awaitHead] on [seen] and [moved]. *)
Definition head_body (k : nat) (v : Z * Z) : (Z * Z) + head :=
  let '(seen, moved) := v in
  match reads k with
  | Some ok => inr (if ok then Read_ok else Read_failed)
  | None =>
      match polls k with
      | None => inl (seen, moved)
      | Some stats =>
          let '(seen, moved) := if seen <? Received stats then (Received stats, checked k) else (seen, moved) in
          if stall <? checked k - moved then inr Head_stalled else inl (seen, moved)
      end
  end.

Definition awaitHead (seen start : Z) (fuel : nat) : option head := loop head_body fuel 0 (seen, start).
End head.

(** ** The wait for the head *)

Section head_facts.
Context (polls : nat -> option Stats) (reads : nat -> option bool) (checked : nat -> Z) (stall seen0 start : Z).

(** What has arrived before round [k], and when the last of it did. *)
Definition head_inv (k : nat) (v : Z * Z) : Prop :=
  (forall j, (j < k)%nat -> reads j = None) /\
  (forall j s, (j < k)%nat -> polls j = Some s -> Received s <= v.1) /\ seen0 <= v.1 /\
  (v = (seen0, start) \/ exists j s, (j < k)%nat /\ polls j = Some s /\ Received s = v.1 /\ v.2 = checked j).

Lemma head_step k v v' : head_inv k v -> head_body polls reads checked stall k v = inl v' -> head_inv (S k) v'.
Proof.
  destruct v as [seen moved]. intros (Hr & Hp & Hs & Hm). unfold head_body. destruct (reads k) eqn:E; [done|].
  assert (forall j, (j < S k)%nat -> reads j = None) as Hr'.
  { intros j Hj. destruct (decide (j = k)) as [->|]; [done|]. apply Hr. lia. }
  destruct (polls k) as [st|] eqn:Ep.
  - destruct (Z.ltb_spec seen (Received st)).
    + destruct (stall <? _); [done|]. intros [= <-]. unfold head_inv; cbn [fst snd] in *. split_and!; [done| |lia|right; exists k, st; split_and!; [lia|done..]].
      intros j s' Hj Hps. destruct (decide (j = k)) as [->|]; [simplify_eq; lia|]. specialize (Hp j s' ltac:(lia) Hps). lia.
    + destruct (stall <? _); [done|]. intros [= <-]. unfold head_inv; cbn [fst snd] in *. split_and!; [done| |lia|].
      * intros j s' Hj Hps. destruct (decide (j = k)) as [->|]; [simplify_eq; lia|]. apply (Hp j s'); [lia|done].
      * destruct Hm as [?|(j & s' & ? & ?)]; [by left|right; exists j, s'; split; [lia|done]].
  - intros [= <-]. unfold head_inv; cbn [fst snd] in *. split_and!; [done| |lia|].
    + intros j s' Hj Hps. destruct (decide (j = k)) as [->|]; [congruence|]. apply (Hp j s'); [lia|done].
    + destruct Hm as [?|(j & s' & ? & ?)]; [by left|right; exists j, s'; split; [lia|done]].
Qed.

(** The wait is over when the read is; its context ends after six minutes, so some round finds it so. *)
Lemma awaitHead_ends K ok (HK : reads K = Some ok) :
  exists k v h, (k <= K)%nat /\ head_inv k v /\ head_body polls reads checked stall k v = inr h /\
    returns (head_body polls reads checked stall) (seen0, start) k h.
Proof.
  destruct (loop_returns (head_body polls reads checked stall) (fun k v => head_inv k v /\ (k <= K)%nat) (fun k _ => K - k)%nat (seen0, start))
    as (k & v & h & Hk & [HI _] & Hb & Hr).
  - split; [|lia]. unfold head_inv; cbn [fst snd]; split_and!; [lia|lia|lia|by left].
  - intros k v v' [HI Hle] Hb. pose proof (head_step _ _ _ HI Hb) as HI'. split; [split; [done|]|].
    all: destruct (decide (k = K)) as [->|]; [destruct HI' as [Hn _]; rewrite (Hn K) in HK by lia; done|lia].
  - exists k, v, h. split_and!; [lia|done..].
Qed.
End head_facts.

Definition headStall : Z := 45 * 1000000000.
Definition pickedStall : Z := 3 * 60 * 1000000000.

Inductive warm := Delivering | Not_ready | Over | No_peers | Head (h : head).

(** [warmed]: [live] is WaitLive's answer, [first] the first read's, [over] whether the context ended,
    [stats] the statistics after it, and [rest stall seen] the wait for the head. *)
Definition warmed (picked : bool) (live first over : bool) (stats : option Stats) (rest : Z -> Z -> head) : warm :=
  if negb live then Not_ready
  else if first then Delivering
  else if over then Over
  else match stats with
       | None => Not_ready
       | Some s =>
           if negb picked && (Received s =? 0) && (Peers s =? 0) then No_peers
           else match rest (if picked then pickedStall else headStall) (Received s) with Read_ok => Delivering | h => Head h end
       end.

Section Start.
Context `{Unicode}.

(** ** What is not wanted *)

(** [filepath.Ext], on Unix. *)
Definition Ext (path : string) : string :=
  let base := match last_index path "/" with Some i => str_from path (S i) | None => path end in
  match last_index base "." with Some i => str_from base i | None => "" end.

Definition with_extension (e : string) (r : Release) : Release :=
  Parse.mkRelease (Raw r) (Parse.Title r) (Group r) (Parse.Season r) (Part r) (Parse.Episode r) (EpisodeEnd r) (Version r) (Resolution r)
    (Parse.Source r) (Codec r) (BitDepth r) (Audio r) (DualAudio r) (Subtitles r) (HardSub r) (Batch r) (CRC32 r) e.

Definition with_choices (raw : bool) (audio : string) (p : Preferences) : Preferences :=
  mkPreferences (Ladder p) (MaxAutoBytes p) (AllowHi10P p) (PreferGroups p) audio raw (SubLanguages p) (HardwareTranscode p).

(** A candidate that is only a release. *)
Definition named_only (r : Release) : Score.Candidate :=
  mkCandidate (Score.mkTorrent "" 0 0 false "" false) r false false 0 0 false false None false.

Definition ruledOut (req : PlayRequest) (name file : string) : bool :=
  let rel := Parse name in
  let rel := if equal_fold (Ext file) ".ts" then with_extension "ts" rel else rel in
  Unwanted (named_only rel)
    (with_choices (req_AllowRaw req) (if AudioChosen req then AudioWanted (Prefs req) else "") (Prefs req)).

(** ** Candidates *)

(** [Candidates]: what a search found, ranked, and its best. *)
Record Candidates := mkCandidates { Queries : Z; Results : list Found; Best : option Found }.

Inductive why := Unaired | RawOnly (title : string) | Nothing_found | None_met.

(** [noRelease], with the wait it phrases left out: see [airsIn]. *)
Definition noRelease (found : Candidates) (aired : bool) : why :=
  if negb aired then Unaired
  else match List.find (fun r => RejectedOnlyAsRaw (f_result r)) (Results found) with
       | Some r => RawOnly (Score.Title (c_torrent (cand (f_result r))))
       | None => if Z.of_nat (length (Results found)) =? 0 then Nothing_found else None_met
       end.

Definition day_ns : Z := 24 * 3600 * 1000000000.

(** [time.Until] saturates; [Duration.Hours] is a double. *)
Definition until_ns (at_ now : Z) : Z := Z.max (- 2 ^ 63) (Z.min (2 ^ 63 - 1) (at_ * 1000000000 - now)).
Definition unit_of (ns u : Z) : f64 := fadd (of_int (Z.quot ns u)) (fdiv (of_int (Z.rem ns u)) (of_int u)).

Definition airsIn (at_ now : Z) : string :=
  if at_ <=? 0 then ""
  else
    let d := until_ns at_ now in
    if d <=? 0 then ""
    else if d <? 3600 * 1000000000 then "; it airs in " +:+ itoa (to_i64 (unit_of d (60 * 1000000000))) +:+ " minutes"
    else if d <? day_ns then "; it airs in " +:+ itoa (to_i64 (unit_of d (3600 * 1000000000))) +:+ " hours"
    else "; it airs in " +:+ itoa (to_i64 (fdiv (unit_of d (3600 * 1000000000)) (of_int 24))) +:+ " days".

Inductive error := Search_failed | Not_in_results | No_release (w : why) | Not_delivering | Race_failed | Lists_failed | Being_verified | Not_launched.

Definition maxAttempts : nat := 4.

(** The fallbacks, in the ranking's order, as long as [room] is left. *)
Fixpoint fallbacks (best : Found) (room : nat) (l : list Found) : list Found :=
  match room, l with
  | O, _ | _, [] => []
  | S n, r :: rest =>
      if negb (String.eqb (f_hash r) (f_hash best)) && AutoPick (f_result r) then r :: fallbacks best n rest else fallbacks best (S n) rest
  end.

(** [candidates], from the answer of the search. *)
Definition candidates (req : PlayRequest) (found : option Candidates) (aired : bool) : list Found + error :=
  match found with
  | None => inr Search_failed
  | Some found =>
      if negb (String.eqb (req_InfoHash req) "") then
        match List.find (fun r => String.eqb (f_hash r) (req_InfoHash req)) (Results found) with
        | Some r => inl [r]
        | None => inr Not_in_results
        end
      else match Best found with
           | None => inr (No_release (noRelease found aired))
           | Some best => inl (best :: fallbacks best (maxAttempts - 1) (Results found))
           end
  end.

(** ** Starting *)

(** [localCopy]: the first file still on disk; [marks] says whether marking one missing succeeds. *)
Fixpoint localCopy (on_disk : string -> bool) (marks : Z -> bool) (rows : list LocalFile) : list LocalFile * option LocalFile :=
  match rows with
  | [] => ([], None)
  | f :: rest =>
      if ID f =? 0 then (rows, None)
      else if on_disk (Path f) then (rows, Some f)
      else if marks (ID f) then localCopy on_disk marks rest
      else (rows, None)
  end.

(** What a race delivers: the release, its details' name, the engine's id, the file and its index. *)
Record Attached := mkAttached { at_release : Found; at_Name : string; at_ID : Z; at_file : string; at_length : Z; at_index : nat }.

Record world := mkWorld { base : Fetch.world; seen : watching; library : list LocalFile; stages : gmap (Z * Z) Stage }.

Definition set_base (f : Fetch.world -> Fetch.world) (w : world) : world :=
  mkWorld (f (base w)) (seen w) (library w) (stages w).

Inductive point := Yielded | Prepared_ | Warming | Racing (l : list Found) | Launching_.

Record answers := mkAnswers {
  on_disk : string -> bool; marks : Z -> bool; threshold : f64; names_show : string -> bool;
  lists : bool; starts : Z -> bool; warms : TorrentRecord -> warm; checking : option bool;
  fresh_ : Z -> bool; search : option Candidates; aired : bool; commits : bool; launches : Session -> bool; now_s : Z;
}.

Inductive call := Yield | AwaitPrepare | Search | Launch (s : Session) | ResumeYielded | PrefetchAfter.

Context (o : answers) (attachFrom : list Found -> Fetch.world -> Fetch.world * (Attached + error)) (meanwhile : point -> world -> world).

Definition run : Type := world * list call.

Definition resume_at (req : PlayRequest) (w : world) : f64 := ResumeAt (threshold o) (AnimeID req, epKey (Episode req)) (playback (seen w)).

Definition call_ (c : call) (r : run) : run := (r.1, r.2 ++ [c]).
Definition on_world (f : world -> world) (r : run) : run := (f r.1, r.2).

(** [launch], where the request is for a desktop player: whether it went through. *)
Definition maybe_launch (req : PlayRequest) (s : Session) (r : run) : run * bool :=
  if External req then (on_world (meanwhile Launching_) (call_ (Launch s) r), launches o s) else (r, true).

Definition startLocal (req : PlayRequest) (r : run) : run * (option Session + error) :=
  let '(rows, f) := localCopy (on_disk o) (marks o) (library r.1) in
  let r := on_world (fun w => mkWorld (base w) (seen w) rows (stages w)) r in
  match f with
  | None => (r, inl None)
  | Some f =>
      let s := mkSession (BaseName (Path f)) "local" "" 0 0 (Path f) (resume_at req r.1) in
      let '(r, ok) := maybe_launch req s r in
      if ok then (call_ PrefetchAfter r, inl (Some s)) else (r, inr Not_launched)
  end.

(** The release on record, or the one being fetched this moment, which is taken over. *)
Definition known (req : PlayRequest) (r : run) : run * option TorrentRecord :=
  match TorrentForEpisode (AnimeID req) (epKey (Episode req)) (recs (base r.1)) with
  | Some rec => (r, Some rec)
  | None => let '(b, rec) := Fetching (AnimeID req) (Episode req) (base r.1) in (on_world (set_base (fun _ => b)) r, rec)
  end.

Definition record_world (rec : TorrentRecord) (w : world) : world :=
  if commits o then set_base (set_recs (RecordTorrent rec (now_s o))) w else w.

Definition rerecord (req : PlayRequest) (rec : TorrentRecord) (id : Z) : TorrentRecord :=
  mkRecord (InfoHash rec) id (Name rec) (TotalSize rec) (AnimeID req) (epKey (Episode req)) (FileIndex rec) (FilePath rec) (Manual rec).

Definition torrent_session (req : PlayRequest) (title hash : string) (id index : Z) (w : world) : Session :=
  mkSession title "torrent" hash id index "" (resume_at req w).

(** [reattach]: a session, nothing, or an error that forbids the search. *)
Definition reattach (req : PlayRequest) (r : run) : run * (option Session + error) :=
  match known req r with
  | (r, None) => (r, inl None)
  | (r, Some rec) =>
      if negb (Manual rec) && negb (names_show o (Name rec)) then (r, inl None)
      else if ruledOut req (Name rec) (FilePath rec) then (r, inl None)
      else if negb (lists o) then (r, inr Lists_failed)
      else match engine (base r.1) !! to_lower (InfoHash rec) with
           | None => (r, inl None)
           | Some (id, _) =>
               let r := on_world (set_base (set_engine (alter (fun t => (t.1, t.2 || starts o id)) (to_lower (InfoHash rec))))) r in
               let r := on_world (fun w => mkWorld (base w) (seen w) (library w)
                          (setStage (AnimeID req, Episode req) 0 (mkStage "data" (Name rec) 0 0 0) (stages w))) r in
               let r := on_world (meanwhile Warming) r in
               match warms o rec with
               | Delivering =>
                   let r := on_world (record_world (rerecord req rec id)) r in
                   let s := torrent_session req (Name rec) (InfoHash rec) id (FileIndex rec) r.1 in
                   let '(r, ok) := maybe_launch req s r in
                   if ok then (call_ PrefetchAfter r, inl (Some s)) else (r, inr Not_launched)
               | _ => match checking o with Some true => (r, inr Being_verified) | _ => (r, inl None) end
               end
           end
  end.

(** [TakePrepared], at the time the answers say. *)
Definition take_prepared (req : PlayRequest) (w : Fetch.world) : Fetch.world * option Found :=
  match prepared w !! (AnimeID req, Episode req) with
  | Some (r, at_) => (set_prepared (delete (AnimeID req, Episode req)) w, if fresh_ o at_ then Some r else None)
  | None => (w, None)
  end.

Definition title_of (r : Found) : string := Score.Title (c_torrent (cand (f_result r))).

(** [attachFrom] over the world, and what else happens meanwhile. *)
Definition race (l : list Found) (r : run) : run * (Attached + error) :=
  let r := on_world (meanwhile (Racing l)) r in
  if negb (lists o) then (r, inr Lists_failed)
  else let '(b, x) := attachFrom l (base r.1) in (on_world (set_base (fun _ => b)) r, x).

(** The search, without the release that has just failed. *)
Definition search_and_race (req : PlayRequest) (failed : string) (r : run) : run * (Attached + error) :=
  let r := call_ Search r in
  match candidates req (search o) (aired o) with
  | inr e => (r, inr e)
  | inl l =>
      let l := if String.eqb failed "" then l else List.filter (fun c => negb (equal_fold (f_hash c) failed)) l in
      match l with
      | [] => if String.eqb failed "" then race [] r else (r, inr Not_delivering)
      | _ => race l r
      end
  end.

Definition attach (req : PlayRequest) (r : run) : run * (Attached + error) :=
  if negb (String.eqb (req_InfoHash req) "") then search_and_race req "" r
  else
    let '(b, rel) := take_prepared req (base r.1) in
    let r := on_world (set_base (fun _ => b)) r in
    match rel with
    | None => search_and_race req "" r
    | Some rel =>
        if ruledOut req (title_of rel) (title_of rel) then search_and_race req "" r
        else match race [rel] r with
             | (r, inl a) => (r, inl a)
             | (r, inr _) => search_and_race req (f_hash rel) r
             end
    end.

Definition attached_record (req : PlayRequest) (a : Attached) : TorrentRecord :=
  mkRecord (f_hash (at_release a)) (at_ID a) (at_Name a) (at_length a) (AnimeID req) (epKey (Episode req)) (Z.of_nat (at_index a)) (at_file a)
    (negb (String.eqb (req_InfoHash req) "")).

(** From the race on. *)
Definition start_attached (req : PlayRequest) (r : run) : run * (Session + error) :=
  match attach req r with
  | (r, inr e) => (r, inr e)
  | (r, inl a) =>
      let r := on_world (record_world (attached_record req a)) r in
      let r := on_world (set_base (dropSuperseded (AnimeID req) (Episode req))) r in
      let s := torrent_session req (title_of (at_release a)) (f_hash (at_release a)) (at_ID a) (Z.of_nat (at_index a)) r.1 in
      let '(r, ok) := maybe_launch req s r in
      if ok then (call_ PrefetchAfter r, inl s) else (r, inr Not_launched)
  end.

(** After the local file: yield, what was being resolved, what is held, the race. *)
Definition start_torrent (req : PlayRequest) (r : run) : run * (Session + error) :=
  let picked := negb (String.eqb (req_InfoHash req) "") in
  let r := on_world (meanwhile Yielded) (call_ Yield r) in
  if picked then start_attached req r
  else
    let r := on_world (meanwhile Prepared_) (call_ AwaitPrepare r) in
    match reattach req r with
    | (r, inr e) => (r, inr e)
    | (r, inl (Some s)) => (r, inl s)
    | (r, inl None) => start_attached req r
    end.

Definition set_stages (f : gmap (Z * Z) Stage -> gmap (Z * Z) Stage) (w : world) : world :=
  mkWorld (base w) (seen w) (library w) (f (stages w)).

(** The deferred calls: the yielded downloads resumed unless it started, and the stage cleared. *)
Definition deferred (req : PlayRequest) (x : run * (Session + error)) : run * (Session + error) :=
  let '(r, s) := x in
  let r := match s with inl _ => r | inr _ => call_ ResumeYielded r end in
  (on_world (set_stages (ClearStage (AnimeID req, Episode req))) r, s).

Definition Start (req : PlayRequest) (w : world) : run * (Session + error) :=
  let torrent r := deferred req (start_torrent req
                     (on_world (set_stages (setStage (AnimeID req, Episode req) 0 (mkStage "search" "" 0 0 0))) r)) in
  if negb (String.eqb (req_InfoHash req) "") then torrent (w, [])
  else match startLocal req (w, []) with
       | (r, inr e) => (r, inr e)
       | (r, inl (Some s)) => (r, inl s)
       | (r, inl None) => torrent r
       end.

(** ** What plays is what is on record *)

Definition found_for (req : PlayRequest) (w : world) : option TorrentRecord :=
  TorrentForEpisode (AnimeID req) (epKey (Episode req)) (recs (base w)).

(** The session's release is the one the episode's record names. *)
Definition on_record (req : PlayRequest) (s : Session) (w : world) : Prop :=
  exists r, found_for req w = Some r /\ InfoHash r = s_InfoHash s /\ FileIndex r = s_FileIndex s /\ EngineID r = TorrentID s /\
    (req_InfoHash req <> "" -> Manual r = true).

(** A player's launch may pin and unpin; it records no release and no position. *)
Definition launch_keeps (req : PlayRequest) : Prop :=
  forall w, found_for req (meanwhile Launching_ w) = found_for req w /\ seen (meanwhile Launching_ w) = seen w.

Lemma maybe_launch_keeps req s r r' ok : launch_keeps req -> maybe_launch req s r = (r', ok) ->
  found_for req r'.1 = found_for req r.1 /\ seen r'.1 = seen r.1.
Proof.
  intros Hk. unfold maybe_launch. destruct (External req); intros [= <- <-]; [|done]. apply Hk.
Qed.

Lemma start_attached_recorded req r r' s : launch_keeps req -> commits o = true -> AnimeID req <> 0 ->
  start_attached req r = (r', inl s) -> on_record req s r'.1 /\ Source s = "torrent" /\ StartAt s = resume_at req r'.1.
Proof.
  intros Hk Hc Ha. unfold start_attached. destruct (attach req r) as [r1 [a|e]]; [|done]. cbv zeta.
  set (w1 := on_world (record_world (attached_record req a)) r1). set (w2 := on_world (set_base (dropSuperseded _ _)) w1).
  set (s' := torrent_session _ _ _ _ _ _). destruct (maybe_launch req s' w2) as [r3 [|]] eqn:Em; [|done]. intros [= <- <-].
  destruct (maybe_launch_keeps req s' w2 r3 true Hk Em) as [Hf Hs]. change (call_ PrefetchAfter r3).1 with r3.1.
  split; [|split; [done|unfold resume_at; by rewrite Hs]].
  destruct (recorded_survives (attached_record req a) (now_s o) (AnimeID req) (Episode req) (base w1.1) (recs (base r1.1)))
    as (r0 & Hr & Hh & Hi & He & Hm & _); try done.
  { unfold WholeTorrent. cbn. lia. }
  { unfold w1, record_world, on_world. cbn. by rewrite Hc. }
  { unfold w1, record_world, on_world. cbn. by rewrite Hc. }
  exists r0. rewrite Hf. split_and!; try done. intros Hp. apply Hm. cbn. by apply negb_true_iff, String.eqb_neq.
Qed.

Lemma reattach_recorded req r r' s : launch_keeps req -> commits o = true -> AnimeID req <> 0 -> req_InfoHash req = "" ->
  reattach req r = (r', inl (Some s)) -> on_record req s r'.1 /\ Source s = "torrent" /\ StartAt s = resume_at req r'.1.
Proof.
  intros Hk Hc Ha Hpick. unfold reattach. destruct (known req r) as [r1 [rec|]]; [|done].
  destruct (negb (Manual rec) && _); [done|]. destruct (ruledOut _ _ _); [done|]. destruct (negb (lists o)); [done|].
  destruct (engine _ !! _) as [[id b]|]; [|done]. cbv zeta. set (r2 := on_world (meanwhile Warming) _).
  destruct (warms o rec); try (destruct (checking o) as [[|]|]; done).
  set (w2 := on_world (record_world _) r2). set (s' := torrent_session _ _ _ _ _ _).
  destruct (maybe_launch req s' w2) as [r3 [|]] eqn:Em; [|done]. intros [= <- <-].
  destruct (maybe_launch_keeps req s' w2 r3 true Hk Em) as [Hf Hs]. change (call_ PrefetchAfter r3).1 with r3.1.
  split; [|split; [done|unfold resume_at; by rewrite Hs]].
  destruct (RecordTorrent_found (rerecord req rec id) (now_s o) (recs (base r2.1)) Ha) as (r0 & Hr & Hh & Hi & He & _ & _ & Hm & _);
    [apply epKey_some|].
  exists r0. rewrite Hf. split_and!; try done. unfold found_for, w2, record_world, on_world. cbn. by rewrite Hc.
Qed.

(** A start that gives a torrent's session leaves that very release on record, at the position its record says. *)
Lemma start_recorded req w r' s : launch_keeps req -> commits o = true -> AnimeID req <> 0 ->
  Start req w = (r', inl s) -> Source s = "torrent" -> on_record req s r'.1 /\ StartAt s = resume_at req r'.1.
Proof.
  intros Hk Hc Ha Hst Hsrc.
  assert (forall r, deferred req (start_torrent req r) = (r', inl s) -> on_record req s r'.1 /\ StartAt s = resume_at req r'.1) as HT.
  { intros r. unfold deferred. destruct (start_torrent req r) as [r1 [s1|e1]] eqn:E; [|done]. intros [= <- ->].
    enough (on_record req s r1.1 /\ Source s = "torrent" /\ StartAt s = resume_at req r1.1) as (HR & _ & HS) by done.
    unfold start_torrent in E. destruct (bool_decide_reflect (req_InfoHash req = "")) as [Hp|Hp].
    - rewrite Hp in E. cbn [String.eqb negb] in E. destruct (reattach req _) as [r2 [[s2|]|e2]] eqn:E2; try done.
      + injection E as <- ->. by eapply reattach_recorded.
      + by eapply start_attached_recorded.
    - apply String.eqb_neq in Hp. rewrite Hp in E. cbn [negb] in E. by eapply start_attached_recorded. }
  unfold Start in Hst. destruct (negb _); [by eapply HT|].
  destruct (startLocal req (w, [])) as [r1 [[s1|]|e1]] eqn:E; [|by eapply HT|done]. injection Hst as -> ->. exfalso.
  unfold startLocal in E. destruct (localCopy _ _ _) as [rows [f|]]; [|done].
  destruct (maybe_launch _ _ _) as [? [|]]; [|done]. injection E as _ Es. rewrite <- Es in Hsrc. discriminate Hsrc.
Qed.

(** ** The order of the calls *)

Definition inner (c : call) : bool := match c with Search | Launch _ => true | _ => false end.

(** [r'] comes of [r] by calls of its own, then [last]. *)
Definition adds (r r' : run) (last : list call) : Prop :=
  exists l, r'.2 = r.2 ++ l ++ last /\ Forall (fun c => inner c = true) l.

Lemma adds_nothing r f : adds r (on_world f r) [].
Proof. exists []. by rewrite app_nil_r. Qed.

Lemma adds_trans r r1 r2 last : adds r r1 [] -> adds r1 r2 last -> adds r r2 last.
Proof.
  intros (l & Hl & Fl) (k & Hk & Fk). exists (l ++ k). rewrite Hk, Hl, app_nil_r, <- !app_assoc. split; [done|by apply Forall_app].
Qed.

Lemma adds_on_world f r r' last : adds (on_world f r) r' last -> adds r r' last.
Proof. done. Qed.

Lemma on_world_adds f r r' last : adds r r' last -> adds r (on_world f r') last.
Proof. done. Qed.

Lemma maybe_launch_calls req s r r' ok : maybe_launch req s r = (r', ok) ->
  adds r (if ok then call_ PrefetchAfter r' else r') (if ok then [PrefetchAfter] else []).
Proof.
  unfold maybe_launch. destruct (External req); intros [= <- <-].
  - destruct (launches o s); cbn; exists [Launch s]; cbn; rewrite <- ?app_assoc; split; try done; by constructor.
  - by exists [].
Qed.

Lemma race_calls l r : (race l r).1.2 = r.2.
Proof. unfold race. destruct (lists o); cbn; [|done]. by destruct (attachFrom l _). Qed.

Lemma search_calls req failed r : adds r (search_and_race req failed r).1 [].
Proof.
  exists [Search]. split; [|by constructor]. unfold search_and_race. destruct (candidates _ _ _) as [l|]; [|done].
  destruct (if String.eqb failed "" then l else _); [destruct (String.eqb failed "")|]; by rewrite ?race_calls.
Qed.

Lemma attach_calls req r : adds r (attach req r).1 [].
Proof.
  unfold attach. destruct (negb _); [apply search_calls|]. destruct (take_prepared _ _) as [b [rel|]]; [|apply adds_on_world with (f := set_base (fun _ => b)), search_calls].
  destruct (ruledOut _ _ _); [apply adds_on_world with (f := set_base (fun _ => b)), search_calls|].
  pose proof (race_calls [rel] (on_world (set_base (fun _ => b)) r)) as HR. destruct (race _ _) as [r1 [a|e]]; cbn in *.
  - exists []. by rewrite HR, app_nil_r.
  - eapply adds_trans; [|apply search_calls]. exists []. by rewrite HR, app_nil_r.
Qed.

Lemma start_attached_calls req r r' x : start_attached req r = (r', x) -> adds r r' (match x with inl _ => [PrefetchAfter] | inr _ => [] end).
Proof.
  unfold start_attached. pose proof (attach_calls req r) as HA. destruct (attach req r) as [r1 [a|e]]; cbn in HA; [|by intros [= <- <-]].
  cbv zeta. destruct (maybe_launch req _ _) as [r2 ok] eqn:E. apply maybe_launch_calls in E. do 2 apply adds_on_world in E.
  destruct ok; intros [= <- <-]; by eapply adds_trans.
Qed.

Lemma known_calls req r : (known req r).1.2 = r.2.
Proof. unfold known. destruct (TorrentForEpisode _ _ _); [done|]. by destruct (Fetching _ _ _). Qed.

(** Nothing of what is held is played without a search unless reattached; a reattached one is not searched for. *)
Lemma reattach_calls req r r' x : reattach req r = (r', x) ->
  adds r r' (match x with inl (Some _) => [PrefetchAfter] | _ => [] end) /\ (Search ∈ r'.2 -> Search ∈ r.2).
Proof.
  unfold reattach. pose proof (known_calls req r) as Hkn. destruct (known req r) as [r1 [rec|]]; cbn in Hkn.
  2:{ intros [= <- <-]. rewrite Hkn. split; [exists []; by rewrite Hkn, app_nil_r|done]. }
  assert (forall r2 : run, r2.2 = r.2 -> adds r r2 []) as H0 by (intros r2 H2; exists []; by rewrite H2, app_nil_r).
  destruct (negb (Manual rec) && _); [intros [= <- <-]; rewrite Hkn; auto|].
  destruct (ruledOut _ _ _); [intros [= <- <-]; rewrite Hkn; auto|]. destruct (negb (lists o)); [intros [= <- <-]; rewrite Hkn; auto|].
  destruct (engine _ !! _) as [[id b]|]; [|intros [= <- <-]; rewrite Hkn; auto]. cbv zeta. set (r2 := on_world (meanwhile Warming) _).
  assert (r2.2 = r.2) as H2 by done.
  destruct (warms o rec); try (destruct (checking o) as [[|]|]; intros [= <- <-]; rewrite H2; auto).
  destruct (maybe_launch req _ _) as [r3 ok] eqn:E. pose proof E as E'. apply maybe_launch_calls, adds_on_world in E.
  assert (Search ∈ r3.2 -> Search ∈ r.2) as HS.
  { unfold maybe_launch in E'. destruct (External req); injection E' as <- _; intros HS; [|by rewrite <- H2].
    change (Search ∈ r2.2 ++ [Launch (torrent_session req (Name rec) (InfoHash rec) id (FileIndex rec) (on_world (record_world (rerecord req rec id)) r2).1)]) in HS.
    rewrite H2 in HS. apply elem_of_app in HS as [?|Hs]; [done|]. apply list_elem_of_singleton in Hs. discriminate Hs. }
  destruct ok; intros [= <- <-]; (split; [by eapply adds_trans; [apply H0, H2|]|]); [|done].
  cbn. rewrite elem_of_app. intros [?|Hs]; [by apply HS|]. apply list_elem_of_singleton in Hs. discriminate Hs.
Qed.

(** ** What is held is played *)

Definition acceptable (req : PlayRequest) (rec : TorrentRecord) : bool :=
  (Manual rec || names_show o (Name rec)) && negb (ruledOut req (Name rec) (FilePath rec)).

Definition plays (rec : TorrentRecord) (id : Z) (s : Session) : Prop :=
  s_InfoHash s = InfoHash rec /\ s_FileIndex s = FileIndex rec /\ TorrentID s = id /\ Source s = "torrent".

(** A release held, acceptable, in the engine, and delivering or still being verified. *)
Lemma reattach_held req r rec id b : found_for req r.1 = Some rec -> acceptable req rec = true -> lists o = true ->
  engine (base r.1) !! to_lower (InfoHash rec) = Some (id, b) -> warms o rec = Delivering \/ checking o = Some true ->
  exists r' x, reattach req r = (r', x) /\
    match x with
    | inl (Some s) => plays rec id s
    | inl None => False
    | inr e => e = Being_verified \/ e = Not_launched
    end.
Proof.
  intros Hrec [Ha Hr%negb_true_iff]%andb_true_iff Hl He Hw. unfold reattach, known. unfold found_for in Hrec. rewrite Hrec.
  assert (negb (Manual rec) && negb (names_show o (Name rec)) = false) as -> by (by destruct (Manual rec), (names_show _ _)).
  rewrite Hr, Hl, He. cbn [negb]. cbv zeta. destruct (warms o rec).
  { destruct (maybe_launch _ _ _) as [r2 [|]]; (eexists _, _; split; [reflexivity|]); [by split_and!|by right]. }
  all: destruct Hw as [|Hc]; [done|]; rewrite Hc; (eexists _, _; split; [reflexivity|]); by left.
Qed.

(** Any session of the torrent path says so. *)
Lemma start_torrent_source req r r' s : start_torrent req r = (r', inl s) -> Source s = "torrent".
Proof.
  assert (forall y z, start_attached req y = (z, inl s) -> Source s = "torrent") as HA.
  { intros y z. unfold start_attached. destruct (attach req y) as [? [a|]]; [|done]. cbv zeta.
    destruct (maybe_launch _ _ _) as [? [|]]; [|done]. by intros [= _ <-]. }
  unfold start_torrent. destruct (negb _); [apply HA|].
  destruct (reattach req _) as [r1 [[s1|]|]] eqn:E; [|apply HA|done]. intros [= _ <-].
  unfold reattach in E. destruct (known req _) as [r2 [rec|]]; [|done]. destruct (negb (Manual rec) && _); [done|].
  destruct (ruledOut _ _ _); [done|]. destruct (negb (lists o)); [done|]. destruct (engine _ !! _) as [[id b]|]; [|done]. cbv zeta in E.
  destruct (warms o rec); try (destruct (checking o) as [[|]|]; done).
  destruct (maybe_launch _ _ _) as [? [|]]; [|done]. by injection E as _ <-.
Qed.

(** A start gives way to the torrent path unless a file of the library answers it. *)
Definition yields (req : PlayRequest) (w : world) : bool :=
  negb (String.eqb (req_InfoHash req) "") || negb (bool_decide (is_Some (localCopy (on_disk o) (marks o) (library w)).2)).

Definition picked (req : PlayRequest) : bool := negb (String.eqb (req_InfoHash req) "").

Definition opening (req : PlayRequest) (w : world) : list call :=
  if yields req w then Yield :: (if picked req then [] else [AwaitPrepare]) else [].

Definition closing {A E} (req : PlayRequest) (w : world) (x : A + E) : list call :=
  match x with inl _ => [PrefetchAfter] | inr _ => if yields req w then [ResumeYielded] else [] end.

Lemma start_torrent_calls req r r' x : start_torrent req r = (r', x) ->
  adds (r.1, r.2 ++ Yield :: (if picked req then [] else [AwaitPrepare])) r' (match x with inl _ => [PrefetchAfter] | inr _ => [] end).
Proof.
  unfold start_torrent. fold (picked req). destruct (picked req).
  - by intros ?%start_attached_calls.
  - set (r1 := on_world (meanwhile Prepared_) _). assert (r1.2 = r.2 ++ [Yield; AwaitPrepare]) as H1 by (cbn; by rewrite <- app_assoc).
    assert (forall y last, adds r1 y last -> adds (r.1, r.2 ++ [Yield; AwaitPrepare]) y last) as HC.
    { intros y last (l & Hl & Fl). exists l. by rewrite Hl, H1. }
    destruct (reattach req r1) as [r2 [[s|]|e]] eqn:E; apply reattach_calls in E as [E _]; apply HC in E; try (by intros [= <- <-]).
    intros ?%start_attached_calls. by eapply adds_trans.
Qed.

(** The rest of a start, by what is known of any start on the torrent path. *)
Ltac under_way HT Hy :=
  match goal with |- context [deferred ?req (start_torrent ?req ?r0)] =>
    specialize (HT r0 eq_refl Hy); destruct (deferred req (start_torrent req r0)) as [r x] end;
  rewrite Hy; destruct HT as (? & ? & ?); auto.

(** What a start does, in order.  A file of the library, unless a release was picked by hand, is
    played without touching the downloads; otherwise the other downloads give way first, then what is
    being resolved is waited for (not for a pick); after the searches and the launch a
    session readies what comes next, and every failure resumes the downloads that gave way; and the stage
    shown is cleared whatever happened. *)
Theorem start_calls req w : let '(r, x) := Start req w in
  (exists l, r.2 = opening req w ++ l ++ closing req w x /\ Forall (fun c => inner c = true) l) /\
  (forall s, x = inl s -> Source s = if yields req w then "torrent" else "local") /\
  (yields req w = true -> stages r.1 !! (AnimeID req, Episode req) = None).
Proof.
  assert (forall r0, r0.2 = [] -> yields req w = true -> let '(r, x) := deferred req (start_torrent req r0) in
    (exists l, r.2 = opening req w ++ l ++ closing req w x /\ Forall (fun c => inner c = true) l) /\
    (forall s, x = inl s -> Source s = "torrent") /\ stages r.1 !! (AnimeID req, Episode req) = None) as HT.
  { intros r0 H0 Hy. pose proof (start_torrent_calls req r0) as HC. pose proof (start_torrent_source req r0) as HS.
    destruct (start_torrent req r0) as [r1 x]. destruct (HC r1 x eq_refl) as (l & Hl & Fl). cbn in Hl. rewrite H0 in Hl. cbn in Hl.
    unfold deferred, opening, closing. rewrite Hy. split; [|split].
    - exists l. split; [|done]. destruct x; cbn; [done|]. rewrite Hl, app_nil_r. cbn. by rewrite <- app_assoc.
    - intros s ->. by eapply HS.
    - cbn. apply lookup_delete_eq. }
  unfold Start. fold (picked req). cbv zeta. destruct (picked req) eqn:Hp.
  { assert (yields req w = true) as Hy by (unfold yields; fold (picked req); by rewrite Hp). under_way HT Hy. }
  unfold startLocal. change (library (w, []).1) with (library w).
  destruct (localCopy _ _ _) as [rows [f|]] eqn:El.
  - assert (yields req w = false) as Hy by (unfold yields; fold (picked req); by rewrite Hp, El).
    cbv zeta. unfold opening, closing. rewrite Hy.
    destruct (maybe_launch req _ _) as [r ok] eqn:E. apply maybe_launch_calls in E as (l & Hl & Fl). cbn in Hl.
    destruct ok; (split; [by exists l|]); (split; [|done]); [by intros ? [= <-]|done].
  - assert (yields req w = true) as Hy by (unfold yields; rewrite El; cbn; by rewrite orb_true_r).
    under_way HT Hy.
Qed.

(** ** The releases tried *)

Lemma fallbacks_spec best : forall l n, (length (fallbacks best n l) <= n)%nat /\ sublist (fallbacks best n l) l /\
  Forall (fun r => AutoPick (f_result r) = true /\ f_hash r <> f_hash best) (fallbacks best n l).
Proof.
  induction l as [|r l IH]; intros [|n]; cbn; try (split_and!; [lia|by try apply sublist_nil_l|by constructor]).
  destruct (negb _ && _) eqn:E.
  - apply andb_true_iff in E as [Hh%negb_true_iff%String.eqb_neq Ha]. destruct (IH n) as (L & S & F). split_and!; [cbn; lia|by constructor|by constructor].
  - destruct (IH (S n)) as (L & S & F). split_and!; [done|by apply sublist_cons|done].
Qed.

(** A pick is the only one tried; otherwise at most four are, the search's best and then releases the ranking would
    pick by itself, in its order, none twice over the best. *)
Lemma candidates_spec req found aired l : candidates req found aired = inl l -> exists f, found = Some f /\
  if picked req then exists r, l = [r] /\ r ∈ Results f /\ f_hash r = req_InfoHash req
  else exists best rest, Best f = Some best /\ l = best :: rest /\ (length l <= maxAttempts)%nat /\ sublist rest (Results f) /\
    Forall (fun r => AutoPick (f_result r) = true /\ f_hash r <> f_hash best) rest.
Proof.
  unfold candidates. destruct found as [f|]; [|done]. fold (picked req). intros Hc. exists f. split; [done|]. destruct (picked req).
  - destruct (List.find _ _) as [r|] eqn:E; [|done]. injection Hc as <-. apply List.find_some in E as [Hin He%String.eqb_eq].
    exists r. split_and!; [done|by apply list_elem_of_In|done].
  - destruct (Best f) as [b|]; [|done]. injection Hc as <-. destruct (fallbacks_spec b (Results f) 3) as (L & S & F).
    exists b, (fallbacks b 3 (Results f)). split_and!; [done..|cbn; unfold maxAttempts; lia|done|done].
Qed.

(** The race delivers one of the releases it was given. *)
Definition delivers_one : Prop := forall l w w' a, attachFrom l w = (w', inl a) -> at_release a ∈ l.

Lemma race_delivers l r r' a : delivers_one -> race l r = (r', inl a) -> at_release a ∈ l.
Proof.
  intros Hd. unfold race. destruct (negb (lists o)); [done|]. destruct (attachFrom l _) as [b x] eqn:E. intros [= _ ->]. by eapply Hd.
Qed.

Lemma picked_attached req r r' a : delivers_one -> req_InfoHash req <> "" -> attach req r = (r', inl a) ->
  f_hash (at_release a) = req_InfoHash req.
Proof.
  intros Hd Hp. assert (picked req = true) as Hpk by (by apply negb_true_iff, String.eqb_neq).
  unfold attach. fold (picked req). rewrite Hpk. unfold search_and_race.
  destruct (candidates _ _ _) as [l|] eqn:E; [|done]. apply candidates_spec in E as (f & _ & Hc). rewrite Hpk in Hc.
  destruct Hc as (c & -> & _ & Hh). cbn. intros Ha%race_delivers; [|done]. apply list_elem_of_singleton in Ha. by rewrite Ha.
Qed.

Lemma picked_session req w r s : delivers_one -> req_InfoHash req <> "" -> Start req w = (r, inl s) -> s_InfoHash s = req_InfoHash req.
Proof.
  intros Hd Hp. assert (picked req = true) as Hpk by (by apply negb_true_iff, String.eqb_neq).
  unfold Start, start_torrent. fold (picked req). rewrite Hpk. cbv zeta. unfold deferred.
  destruct (start_attached req _) as [r1 [s1|]] eqn:E; [|done]. intros [= _ <-]. unfold start_attached in E.
  destruct (attach req _) as [r2 [a|]] eqn:Ea; [|done]. cbv zeta in E. destruct (maybe_launch _ _ _) as [? [|]]; [|done].
  injection E as _ <-. cbn. by eapply picked_attached.
Qed.

End Start.


(** Between two starts, and while the second waits: the episode's record and its torrent in the engine stay. *)
Definition stays `{Unicode} (meanwhile : point -> world -> world) (req : PlayRequest) (hash : string) : Prop :=
  forall p w, found_for req (meanwhile p w) = found_for req w /\
    engine (base (meanwhile p w)) !! to_lower hash = engine (base w) !! to_lower hash.


(** The wait for the head of a file ends, at the latest in the round that finds the read over, with what the
    read said; it gives up before only when the last bytes that came (or the start) are more than the
    patience ago and nothing has come since. *)
Theorem awaitHead_returns polls reads checked stall seen0 start K ok (HK : reads K = Some ok) (Hstall : 0 <= stall) :
  exists k h, (k <= K)%nat /\ (forall fuel, (k < fuel)%nat -> awaitHead polls reads checked stall seen0 start fuel = Some h) /\
    (h <> Head_stalled -> exists b : bool, reads k = Some b /\ h = if b then Read_ok else Read_failed) /\
    (h = Head_stalled -> exists top since, stall < checked k - since /\
      ((top, since) = (seen0, start) \/ exists j s, (j < k)%nat /\ polls j = Some s /\ Received s = top /\ since = checked j) /\
      forall j s, (j <= k)%nat -> polls j = Some s -> Received s <= top).
Proof.
  destruct (awaitHead_ends polls reads checked stall seen0 start K ok HK) as (k & [top since] & h & Hk & (_ & Hp & _ & Hm) & Hb & Hr).
  exists k, h. split_and!; [done|exact Hr|..]; unfold head_body in Hb; destruct (reads k) as [b|]; cbn [fst snd] in *.
  - intros _. exists b. by injection Hb as <-.
  - destruct (polls k) as [st|]; [|done]. destruct (top <? Received st); destruct (stall <? _); by try injection Hb as <-.
  - intros ->. by destruct b.
  - intros ->. destruct (polls k) as [st|] eqn:E; [|done]. destruct (Z.ltb_spec top (Received st)).
    { destruct (Z.ltb_spec stall (checked k - checked k)); [lia|done]. }
    destruct (Z.ltb_spec stall (checked k - since)); [|done]. exists top, since. split_and!; [done| |].
    + destruct Hm as [?|(j & s & ? & ? & ? & ?)]; [by left|right; by exists j, s].
    + intros j s Hj Hs. destruct (decide (j = k)) as [->|]; [by simplify_eq|]. apply (Hp j s); [lia|done].
Qed.

(** ** An episode started twice *)

Definition request : PlayRequest := mkRequest 1 3 1 "" false false false (mkPreferences [] 0 false [] "" false [] false).

(** The race delivers the first release it is given, which is then in the engine under 7. *)
Definition first_delivers (l : list Found) (w : Fetch.world) : Fetch.world * (Attached + error) :=
  match l with
  | [] => (w, inr Race_failed)
  | c :: _ => (set_engine (insert (f_hash c) (7, true)) w, inl (mkAttached c "Show - 03" 7 "[Group] Show - 03 [1080p].mkv" 700000000 0))
  end.

Definition finds (found : option Candidates) : answers :=
  mkAnswers (fun _ => false) (fun _ => true) defaultThreshold (fun _ => true) true (fun _ => true) (fun _ => Delivering) (Some false)
    (fun _ => true) found true true (fun _ => true) 100.

Definition quiet_ (_ : point) (w : world) : world := w.
Definition opened : world := mkWorld Fetch.empty_world (mkWatching ∅ ∅) [] ∅.

Definition one_found : answers := finds (Some (mkCandidates 2 [offered] (Some offered))).
Definition first_run : run * (Session + error) := Start (H := ascii_unicode) one_found first_delivers quiet_ request opened.
Definition first_session : Session := mkSession (title_of offered) "torrent" "bb" 7 0 "" Watch.zero.

Lemma first_ran : exists r, first_run = (r, inl first_session).
Proof. eexists. vm_compute. reflexivity. Qed.

Lemma quiet_keeps : launch_keeps quiet_ request.
Proof. by intros w. Qed.

Lemma first_delivers_one : delivers_one first_delivers.
Proof. intros [|c l] w w' a; cbn; [done|]. intros [= _ <-]. left. Qed.



(** Two polls without a byte, the second a minute after the start: it is given up. *)
Definition no_bytes : Stats := mkStats "live" "" 0 700 false (Some (mkLive 0 2)).

Lemma awaitHead_returns_witness : exists k h, (k <= 9)%nat /\
  forall fuel, (k < fuel)%nat -> awaitHead (fun _ => Some no_bytes) (fun k => if decide (k = 9%nat) then Some false else None)
    (fun k => Z.of_nat k * 30 * 1000000000) headStall 0 0 fuel = Some h.
Proof.
  destruct (awaitHead_returns (fun _ => Some no_bytes) (fun k => if decide (k = 9%nat) then Some false else None)
    (fun k => Z.of_nat k * 30 * 1000000000) headStall 0 0 9 false) as (k & h & Hk & Hr & _); [reflexivity|vm_compute; discriminate|].
  by exists k, h.
Defined.

Example no_bytes_stalled : awaitHead (fun _ => Some no_bytes) (fun k => if decide (k = 9%nat) then Some false else None)
    (fun k => Z.of_nat k * 30 * 1000000000) headStall 0 0 5 = Some Head_stalled.
Proof. vm_compute. reflexivity. Qed.

Example airs_tomorrow : airsIn 90000 0 = "; it airs in 1 days".
Proof. vm_compute. reflexivity. Qed.
