(* ===== verification/Identity.v ===== *)
(** * Whether a release names a show: internal/library/identity.go

    A release is a show's when its title, as words without symbols, years and season markers, is one of the
    show's names, a short form or the base of one, or a respelling.  The text is normalised by [Match]'s
    [Normalise] and [Fold]; [unicode.IsDigit] above ASCII is a parameter. *)
From stdpp Require Import base gmap sets strings list.
From Stdlib Require Import ZArith Lia.
From S2P Require Import Prelude GoStr Regex Float64 Parse Match.

#[local] Open Scope string_scope.
#[local] Open Scope Z_scope.
#[local] Open Scope list_scope.

Class Digits := { u_digit : Z -> bool }.

Definition shortFormCoverage : f64 := Eval vm_compute in of_ratio 4 10.
Definition sameNameOverlap : f64 := Eval vm_compute in of_ratio 7 10.
Definition altSplit := Eval vm_compute in compile "\s+[|/]\s+".

Section identity.
Context `{Unicode} `{Text} `{Digits}.

(** ** Words *)

Definition is_digit (r : Z) : bool := if r <? 128 then is_ascii_digit r else u_digit r.

Definition stripSymbols (s : string) : string :=
  foldr (fun t acc => (if is_letter (t_rune t) || is_digit (t_rune t) || is_space (t_rune t) then encode_rune (t_rune t) else " ") +:+ acc)
    "" (runes s).

Definition isNumber (s : string) : bool := snd (atoi s).

Definition isYear (s : string) : bool :=
  let '(n, ok) := atoi s in ok && (String.length s =? 4)%nat && (1900 <=? n) && (n <=? 2100).

(** The loop over the fields: a season marker takes its number with it. *)
Fixpoint kept (fields : list string) : list string :=
  match fields with
  | [] => []
  | f :: rest =>
      if isYear f then kept rest
      else if String.eqb f "season" then match rest with n :: rest' => if isNumber n then kept rest' else kept rest | [] => [] end
      else f :: kept rest
  end.

Definition identityTokens (normalised : string) : list string := kept (fields (stripSymbols normalised)).

Definition runeLen (tokens : list string) : Z := foldr (fun t acc => Z.of_nat (List.length (runes t)) + acc) 0 tokens.

Definition startsWith (tokens prefix : list string) : bool :=
  (List.length prefix <=? List.length tokens)%nat && bool_decide (firstn (List.length prefix) tokens = prefix).

Definition shortFormOf (release want : list string) : bool :=
  if (List.length want <=? List.length release)%nat || negb (startsWith want release) then false
  else fge (of_int (runeLen release)) (fmul shortFormCoverage (of_int (runeLen want))).

(** The title before the first of the separators that is not at its start; the dashes are an en dash and an em dash. *)
Definition baseOf (title : string) : string :=
  let cut := foldl (fun cut sep => match index title sep with Some i => if (0 <? i)%nat && (i <? cut)%nat then i else cut | None => cut end)
               (String.length title) [":"; " - "; " " +:+ rune 8211 +:+ " "; " " +:+ rune 8212 +:+ " "] in
  str_to title cut.

Definition tokenSet (tokens : list string) : gset string := list_to_set tokens.

Definition overlap (a b : list string) : f64 :=
  let left := tokenSet a in let right := tokenSet b in
  let shared := Z.of_nat (size (left ∩ right)) in
  let union := Z.of_nat (size left) + Z.of_nat (size right) - shared in
  if union =? 0 then of_int 0 else fdiv (of_int shared) (of_int union).

(** ** The show *)

Record showIdentity := mkIdentity { names : list (list string); bases : list (list string); folded : list (list string) }.

(** A base without the numeral that is its season. *)
Definition base_tokens (k : string) : list string :=
  let base := identityTokens (Normalise (baseOf k)) in
  match list.last base with Some n => if (1 <? List.length base)%nat && isNumber n then removelast base else base | None => base end.

Definition add_name (id : showIdentity) (k : string) : showIdentity :=
  let tokens := identityTokens (Normalise k) in
  match tokens with
  | [] => id
  | _ =>
      let base := base_tokens k in
      mkIdentity (names id ++ [tokens])
        (if (0 <? List.length base)%nat && (List.length base <? List.length tokens)%nat then bases id ++ [base] else bases id)
        (folded id ++ [identityTokens (Fold k)])
  end.

Definition newShowIdentity (known : list string) : showIdentity := foldl add_name (mkIdentity [] [] []) known.

Definition same_words (a b : list string) : bool := bool_decide (a = b).

Definition matchesName (id : showIdentity) (title : string) : bool :=
  let release := identityTokens (Normalise title) in
  match release with
  | [] => false
  | _ =>
      existsb (fun want => same_words release want || shortFormOf release want) (names id) ||
      existsb (fun base => same_words release base || ((1 <? List.length base)%nat && startsWith release base)) (bases id) ||
      (let fold := identityTokens (Fold title) in
       existsb (fun f => (0 <? List.length f)%nat &&
         (same_words fold f || ((List.length fold =? List.length f)%nat && fge (overlap fold f) sameNameOverlap))) (folded id))
  end.

Definition matches_ (id : showIdentity) (rel : Release) (rawTitle : string) : bool :=
  let title := trim_space (Title rel) in
  let title := if String.eqb title "" then rawTitle else title in
  existsb (fun part => matchesName id (trim part " -")) (re_split altSplit title).

Definition identifiesShow (rel : Release) (rawTitle : string) (known : list string) : bool := matches_ (newShowIdentity known) rel rawTitle.

(** [titles] is [None] when they could not be read. *)
Definition heldNamesShow (titles : option (list string)) (name : string) : bool :=
  if String.eqb (trim_space name) "" then true
  else match titles with
       | None => true
       | Some titles =>
           match List.filter (fun t => negb (String.eqb t "" || String.eqb t "Unknown")) titles with
           | [] => true
           | titles => identifiesShow (Parse name) name titles
           end
       end.

(** ** What a show goes by *)

Definition words_of (k : string) : list string := identityTokens (Normalise k).
Definition folded_of (k : string) : list string := identityTokens (Fold k).
Definition named (k : string) : bool := negb (bool_decide (words_of k = [])).

Lemma add_name_spec id k :
  names (add_name id k) = names id ++ map words_of (List.filter named [k]) /\
  folded (add_name id k) = folded id ++ map folded_of (List.filter named [k]) /\
  forall b, b ∈ bases (add_name id k) -> b ∈ bases id \/ (named k = true /\ b = base_tokens k /\ (0 < length b < length (words_of k))%nat).
Proof.
  unfold add_name, named. cbn [List.filter]. change (identityTokens (Normalise k)) with (words_of k).
  destruct (words_of k) as [|w ws] eqn:E; [rewrite bool_decide_eq_true_2 by done|rewrite bool_decide_eq_false_2 by done]; cbn [negb map].
  { rewrite !app_nil_r. split_and!; auto. }
  cbn [names folded bases]. rewrite E. split_and!; [done..|].
  intros b. destruct ((0 <? length (base_tokens k))%nat && _) eqn:F; [|by left].
  apply andb_true_iff in F as [F1%Nat.ltb_lt F2%Nat.ltb_lt]. rewrite elem_of_app, list_elem_of_singleton.
  intros [?| ->]; [by left|]. by right.
Qed.

Lemma newShowIdentity_spec known :
  names (newShowIdentity known) = map words_of (List.filter named known) /\
  folded (newShowIdentity known) = map folded_of (List.filter named known) /\
  forall b, b ∈ bases (newShowIdentity known) -> exists k, k ∈ known /\ b = base_tokens k /\ (0 < length b < length (words_of k))%nat.
Proof.
  induction known as [|k known IH] using rev_ind.
  { split; [reflexivity|]. split; [reflexivity|]. intros b Hb. by apply elem_of_nil in Hb. }
  destruct IH as (N & F & B). unfold newShowIdentity in *. rewrite foldl_app, List.filter_app.
  rewrite (map_app words_of (List.filter named known) _), (map_app folded_of (List.filter named known) _). cbn [foldl].
  set (id := foldl add_name _ known) in *. destruct (add_name_spec id k) as (N' & F' & B'). rewrite N', F', N, F. split_and!; [done..|].
  intros b [Hb|(_ & Hk)]%B'.
  - destruct (B b Hb) as (j & Hj & Hb'). exists j. split; [apply elem_of_app; by left|exact Hb'].
  - exists k. split; [apply elem_of_app; right; left|exact Hk].
Qed.

(** A show's own name is one of its names. *)
Lemma own_name known k : k ∈ known -> named k = true -> matchesName (newShowIdentity known) k = true.
Proof.
  intros Hin Hn. destruct (newShowIdentity_spec known) as (N & _ & _). unfold matchesName. fold (words_of k).
  destruct (words_of k) as [|w ws] eqn:E; [unfold named in Hn; by rewrite E in Hn|].
  apply orb_true_iff. left. apply orb_true_iff. left. apply existsb_exists. exists (words_of k). split.
  - rewrite N. apply in_map, filter_In. split; [by apply list_elem_of_In|done].
  - unfold same_words. rewrite E. by rewrite bool_decide_eq_true_2.
Qed.

Lemma overlap_single a b : fge (overlap [a] [b]) sameNameOverlap = bool_decide (a = b).
Proof.
  unfold overlap, tokenSet. cbn [list_to_set]. rewrite !(right_id_L ∅ (∪)). rewrite !size_singleton.
  destruct (decide (a = b)) as [->|Hne].
  - rewrite (idemp_L (∩)), size_singleton, bool_decide_eq_true_2 by done. by vm_compute.
  - rewrite bool_decide_eq_false_2 by done.
    assert (({[a]} : gset string) ∩ {[b]} = ∅) as -> by set_solver. rewrite size_empty. by vm_compute.
Qed.

(** C28: a show whose names are one word each is named by exactly those words: a release is its own precisely when its
    words, normalised, are one of the names, or its words, folded, are one of the folded names; a longer title ("Re:Monster"
    for "Monster") never is. *)
Theorem one_word_exact known title
  (Hone : forall k, k ∈ known -> length (words_of k) = 1%nat /\ length (folded_of k) = 1%nat) :
  matchesName (newShowIdentity known) title = true <->
  words_of title <> [] /\ exists k, k ∈ known /\ (words_of title = words_of k \/ folded_of title = folded_of k).
Proof.
  destruct (newShowIdentity_spec known) as (N & F & B).
  assert (List.filter named known = known) as Hf.
  { clear -Hone. induction known as [|k l IH]; cbn; [done|]. rewrite IH by (intros; apply Hone; by right).
    destruct (Hone k ltac:(left)) as [Hk _]. unfold named. rewrite bool_decide_eq_false_2; [done|]. intros E. by rewrite E in Hk. }
  rewrite Hf in N, F.
  assert (bases (newShowIdentity known) = []) as HB.
  { destruct (bases (newShowIdentity known)) as [|b l] eqn:Eb; [done|]. exfalso. destruct (B b ltac:(left)) as (k & Hk & _ & Hl).
    destruct (Hone k Hk). lia. }
  unfold matchesName. fold (words_of title) (folded_of title). rewrite N, F, HB. cbn [existsb].
  destruct (words_of title) as [|w ws] eqn:Ew; [split; [discriminate|by intros [? _]]|]. rewrite orb_false_r, orb_true_iff, !existsb_exists.
  split.
  - intros [(want & Hin & Hw)|(f & Hin & Hf')]; (split; [done|]); apply in_map_iff in Hin as (k & <- & Hk%list_elem_of_In); exists k; (split; [done|]).
    + left. apply orb_true_iff in Hw as [Hw|Hw]; [by apply bool_decide_eq_true in Hw|]. unfold shortFormOf in Hw.
      destruct (Hone k Hk) as [Hl _]. rewrite Hl in Hw. done.
    + right. apply andb_true_iff in Hf' as [_ Hf']. apply orb_true_iff in Hf' as [Hf'|Hf']; [by apply bool_decide_eq_true in Hf'|].
      apply andb_true_iff in Hf' as [Hl%Nat.eqb_eq Ho]. destruct (Hone k Hk) as [_ Hk1]. rewrite Hk1 in Hl.
      destruct (folded_of title) as [|a [|? ?]]; try done. destruct (folded_of k) as [|b [|? ?]]; try done.
      rewrite overlap_single in Ho. apply bool_decide_eq_true in Ho. by subst.
  - intros (_ & k & Hk & [He|He]).
    + left. exists (words_of k). split; [by apply in_map, list_elem_of_In|]. unfold same_words. by rewrite bool_decide_eq_true_2.
    + right. exists (folded_of k). split; [by apply in_map, list_elem_of_In|]. destruct (Hone k Hk) as [_ Hl]. rewrite Hl. cbn [Nat.ltb Nat.leb andb].
      unfold same_words. by rewrite bool_decide_eq_true_2.
Qed.

(** Without evidence a held release is taken for the show's. *)
Lemma no_evidence name : heldNamesShow None name = true /\ heldNamesShow (Some [""; "Unknown"]) name = true.
Proof. unfold heldNamesShow. by destruct (String.eqb _ _). Qed.

End identity.

(** ** Instances *)

#[local] Instance ascii_digits : Digits := {| u_digit := fun _ => false |}.

Definition is_monster (title : string) : bool := matchesName (H := ascii_unicode) (H0 := ascii_text) (newShowIdentity (H := ascii_unicode) (H0 := ascii_text) ["Monster"]) title.

Lemma one_word_exact_witness :
  is_monster "Monster" = true /\ (is_monster "Re:Monster" = true <->
    words_of (H := ascii_unicode) (H0 := ascii_text) "Re:Monster" <> [] /\ exists k, k ∈ ["Monster"] /\
    (words_of (H := ascii_unicode) (H0 := ascii_text) "Re:Monster" = words_of (H := ascii_unicode) (H0 := ascii_text) k \/
     folded_of (H := ascii_unicode) (H0 := ascii_text) "Re:Monster" = folded_of (H := ascii_unicode) (H0 := ascii_text) k)).
Proof.
  split; [vm_compute; reflexivity|].
  apply (one_word_exact (H := ascii_unicode) (H0 := ascii_text) ["Monster"] "Re:Monster").
  intros k Hk. apply list_elem_of_singleton in Hk. subst k. split; vm_compute; reflexivity.
Defined.

Example some_names :
  map (fun p => identifiesShow (H := ascii_unicode) (H0 := ascii_text) (Parse (H := ascii_unicode) p.1) p.1 p.2)
    [("[G] Monster - 03 [1080p].mkv", ["Monster"]); ("[G] Re Monster - 03 [1080p].mkv", ["Monster"]);
     ("[G] Made in Abyss - 03 [1080p].mkv", ["Made in Abyss: Retsujitsu no Ougonkyou"]);
     ("[G] Sousou no Frieren - 03.mkv", ["Frieren"; "Sousou no Frieren"])] = [true; false; true; true].
Proof. vm_compute. reflexivity. Qed.
