(* ===== verification/Ahead.v ===== *)
(** * Readying the next episodes: internal/library/prefetch.go (resolveAsync, prepare, storePrepared, TakePrepared, Next, ahead)

    While an episode plays, the next one's release is resolved, so that pressing next is immediate, and, where the viewer wants it, downloaded.
    A resolve is a goroutine; its locked sections, its ends and the starts that take what is resolved interleave: [step].
    The times are readings of one clock that does not go back.  The releases are numbered in the order they are
    stored, to say which is handed to whom. *)
From stdpp Require Import base gmap sets strings list.
From Stdlib Require Import ZArith Lia.
From S2P Require Import Prelude.

#[local] Open Scope Z_scope.

Definition second : Z := 1000000000.
Definition prepareRetry : Z := 10 * 60 * second.
Definition preparedTTL : Z := 4 * 3600 * second.
Definition preparedFresh : Z := 30 * 60 * second.

Definition key : Type := Z * Z.

(** [running]: whether the resolve under way has stored its release; [prepared]: its number and when; of what
    follows, [failed] is when the last resolve of a key to end failed, and [handed] what was taken: the
    number, its age then, and whether it was given. *)
Record state := mkState {
  running : gmap key bool; attempted : gmap key Z; prepared : gmap key (Z * Z); clock : Z;
  failed : gmap key Z; next : Z; handed : list (Z * Z);
}.

Definition new_state (t : Z) : state := mkState ∅ ∅ ∅ t ∅ 0 [].

(** The checks of [resolveAsync], under its lock. *)
Definition admits (s : state) (k : key) : bool :=
  bool_decide (running s !! k = None) &&
  match attempted s !! k with Some at_ => prepareRetry <=? clock s - at_ | None => true end &&
  match prepared s !! k with Some (_, at_) => preparedFresh <=? clock s - at_ | None => true end.

Definition begin (k : key) (s : state) : state :=
  mkState (<[k := false]> (running s)) (attempted s) (prepared s) (clock s) (failed s) (next s) (handed s).

(** [storePrepared]: the stale go. *)
Definition storePrepared (k : key) (s : state) : state :=
  mkState (<[k := true]> (running s)) (attempted s)
    (<[k := (next s, clock s)]> (filter (fun x : key * (Z * Z) => clock s - x.2.2 <= preparedTTL) (prepared s)))
    (clock s) (failed s) (next s + 1) (handed s).

(** The end of the goroutine. *)
Definition finish (k : key) (ok : bool) (s : state) : state :=
  if ok then mkState (delete k (running s)) (delete k (attempted s)) (prepared s) (clock s) (delete k (failed s)) (next s) (handed s)
  else mkState (delete k (running s))
         (<[k := clock s]> (filter (fun x : key * Z => clock s - x.2 < prepareRetry) (attempted s)))
         (prepared s) (clock s) (<[k := clock s]> (failed s)) (next s) (handed s).

Definition TakePrepared (k : key) (s : state) : state * option Z :=
  match prepared s !! k with
  | None => (s, None)
  | Some (n, at_) =>
      if preparedTTL <? clock s - at_
      then (mkState (running s) (attempted s) (delete k (prepared s)) (clock s) (failed s) (next s) (handed s), None)
      else (mkState (running s) (attempted s) (delete k (prepared s)) (clock s) (failed s) (next s) (handed s ++ [(n, clock s - at_)]), Some n)
  end.

Definition waits (t : Z) (s : state) : state := mkState (running s) (attempted s) (prepared s) t (failed s) (next s) (handed s).

Inductive step : state -> state -> Prop :=
| step_time s t : clock s <= t -> step s (waits t s)
| step_resolve s k : admits s k = true -> step s (begin k s)
| step_found s k : running s !! k = Some false -> step s (storePrepared k s)
| step_done s k b : running s !! k = Some b -> step s (finish k true s)
| step_failed s k : running s !! k = Some false -> step s (finish k false s)
| step_take s k : step s (TakePrepared k s).1.

Inductive reachable (t0 : Z) : state -> Prop :=
| opens : reachable t0 (new_state t0)
| goes_on s s' : reachable t0 s -> step s s' -> reachable t0 s'.

(** ** What is asked ahead *)

(** [ahead]: the preferences, [None] when they cannot be read. *)
Definition ahead (prefs : option (bool * Z)) : Z :=
  match prefs with Some (true, count) => Z.min (Z.max count 1) 2 | _ => 0 end.

(** [Next]'s loop: [fetch] says whether a fetch failed or what it started, [await] whether it landed. *)
Fixpoint next_loop (nextEpisode : Z -> option Z) (fetch : Z -> option bool) (await : Z -> bool) (more : nat) (at_ : Z) : list Z :=
  match more with
  | O => []
  | S more =>
      match nextEpisode at_ with
      | None => []
      | Some n =>
          if n =? 0 then []
          else n :: match fetch n with
                    | None => []
                    | Some started =>
                        if started && (0 <? more)%nat && negb (await n) then [] else next_loop nextEpisode fetch await more n
                    end
      end
  end.

(** The episodes fetched, in order; [busy] when another [Next] of the same episode is under way. *)
Definition Next (animeID episode : Z) (prefs : option (bool * Z)) (busy : bool) (nextEpisode : Z -> option Z) (fetch : Z -> option bool)
    (await : Z -> bool) : list Z :=
  if (animeID =? 0) || (episode <=? 0) || (ahead prefs =? 0) || busy then []
  else next_loop nextEpisode fetch await (Z.to_nat (ahead prefs)) episode.

(** [PrepareTarget] and [Ahead]: only the first heeds the switch. *)
Definition PrepareTarget (animeID episode : Z) (wanted : bool) (s : state) : state :=
  if (animeID =? 0) || (episode <=? 0) || negb wanted then s
  else if admits s (animeID, episode) then begin (animeID, episode) s else s.

(** ** What holds throughout *)

Record inv (s : state) : Prop := mkInv {
  i_marks : forall k t, attempted s !! k = Some t -> failed s !! k = Some t;
  i_failed : forall k t, failed s !! k = Some t -> t <= clock s /\ (attempted s !! k = Some t \/ prepareRetry <= clock s - t);
  i_numbers : forall k n t, prepared s !! k = Some (n, t) -> n < next s /\ t <= clock s /\ n ∉ map fst (handed s);
  i_apart : forall j k n t u, prepared s !! j = Some (n, t) -> prepared s !! k = Some (n, u) -> j = k;
  i_handed : NoDup (map fst (handed s)) /\ Forall (fun x => x.1 < next s /\ 0 <= x.2 <= preparedTTL) (handed s);
}.

Lemma inv_new t : inv (new_state t).
Proof. split; cbn; intros *; rewrite ?lookup_empty; try done. split; constructor. Qed.

Lemma waits_inv t s : clock s <= t -> inv s -> inv (waits t s).
Proof.
  intros Ht [M F N A H]. split; cbn; [done| | |done|done].
  - intros k u Hk. destruct (F k u Hk) as [? [?|?]]; (split; [lia|]); [by left|right; lia].
  - intros k n u Hk. destruct (N k n u Hk) as (? & ? & ?). split_and!; [done|lia|done].
Qed.

Lemma begin_inv k s : inv s -> inv (begin k s).
Proof. by intros [M F N A H]. Qed.

Lemma store_inv k s : inv s -> inv (storePrepared k s).
Proof.
  intros [M F N A [D G]]. split; cbn; [done|done| | |].
  - intros j n t. rewrite lookup_insert_Some, map_lookup_filter_Some. intros [[<- [= <- <-]]|(_ & Hj & _)].
    + split_and!; [lia|lia|]. intros Hin. apply list_elem_of_In, in_map_iff in Hin as (x & Hx & Hin%list_elem_of_In).
      rewrite Forall_forall in G. destruct (G _ Hin) as [Hl _]. lia.
    + destruct (N j n t Hj) as (? & ? & ?). split_and!; [lia|done|done].
  - intros i j n t u. rewrite !lookup_insert_Some, !map_lookup_filter_Some.
    intros [[<- [= <- <-]]|(_ & Hi & _)] [[<- E]|(_ & Hj & _)]; [done| | |by eapply A].
    + destruct (N j _ u Hj). lia.
    + injection E as En _. destruct (N i n t Hi). lia.
  - split; [done|]. eapply Forall_impl; [exact G|]. intros x [? ?]. split; [lia|done].
Qed.

Lemma resolve_finish_inv k ok s : inv s -> inv (finish k ok s).
Proof.
  intros [M F N A H]. destruct ok; split; cbn; try done.
  - intros j t. rewrite !lookup_delete_Some. intros [? ?]. auto.
  - intros j t. rewrite !lookup_delete_Some. intros [Hne Hj]. destruct (F j t Hj) as [? [?|?]]; (split; [done|]); [by left|by right].
  - intros j t. rewrite !lookup_insert_Some, map_lookup_filter_Some. intros [?|(? & ? & ?)]; [by left|right; auto].
  - intros j t. rewrite lookup_insert_Some. intros [[<- <-]|[Hne Hj]].
    + split; [lia|]. left. apply lookup_insert_eq.
    + destruct (F j t Hj) as [Hle [Ha|Ho]]; (split; [done|]); [|by right].
      destruct (Z.lt_ge_cases (clock s - t) prepareRetry); [|by right]. left. rewrite lookup_insert_ne, map_lookup_filter_Some by done. done.
Qed.

Lemma take_inv k s : inv s -> inv (TakePrepared k s).1.
Proof.
  intros I. pose proof I as [M F N A [D G]]. unfold TakePrepared. destruct (prepared s !! k) as [[n t]|] eqn:E; [|done].
  destruct (N k n t E) as (Hn & Ht & Hnot). destruct (Z.ltb_spec preparedTTL (clock s - t)) as [Hold|Hok]; split; cbn; try done.
  - intros j m u. rewrite lookup_delete_Some. intros [? ?]. by apply (N j m u).
  - intros i j m u v. rewrite !lookup_delete_Some. intros [? ?] [? ?]. by eapply A.
  - intros j m u. rewrite lookup_delete_Some. intros [Hne Hj]. destruct (N j m u Hj) as (? & ? & ?). split_and!; [done|done|].
    rewrite map_app, elem_of_app. cbn. rewrite list_elem_of_singleton. intros [?| ->]; [done|]. apply Hne. by eapply A.
  - intros i j m u v. rewrite !lookup_delete_Some. intros [? ?] [? ?]. by eapply A.
  - rewrite map_app. split.
    + apply NoDup_app. split_and!; [done| |cbn; apply NoDup_singleton]. intros x Hx Hs. cbn in Hs. apply list_elem_of_singleton in Hs. by subst.
    + apply Forall_app. split; [done|]. constructor; [cbn; lia|by constructor].
Qed.

Lemma ahead_reachable_inv t0 s : reachable t0 s -> inv s.
Proof.
  induction 1 as [|s s' _ IH Hs]; [apply inv_new|].
  destruct Hs; [by apply waits_inv|by apply begin_inv|by apply store_inv|by apply resolve_finish_inv|by apply resolve_finish_inv|by apply take_inv].
Qed.

(** ** What a resolve and a taking may rely on *)


(** The marks kept after a failure are of the last ten minutes. *)
Lemma marks_recent k s j t : attempted (finish k false s) !! j = Some t -> clock s - t < prepareRetry.
Proof.
  cbn. rewrite lookup_insert_Some, map_lookup_filter_Some. intros [[_ <-]|(_ & _ & ?)]; [|done]. unfold prepareRetry, second. lia.
Qed.

(** Each episode is the one after the last, and the one after it is fetched only when it was held or what was started landed. *)
Fixpoint in_turn (nextEpisode : Z -> option Z) (fetch : Z -> option bool) (await : Z -> bool) (from : Z) (l : list Z) : Prop :=
  match l with
  | [] => True
  | n :: rest => nextEpisode from = Some n /\ n <> 0 /\
      (rest <> [] -> exists started, fetch n = Some started /\ (started = true -> await n = true)) /\ in_turn nextEpisode fetch await n rest
  end.

Lemma next_loop_spec nextEpisode fetch await : forall more at_,
  (length (next_loop nextEpisode fetch await more at_) <= more)%nat /\
  in_turn nextEpisode fetch await at_ (next_loop nextEpisode fetch await more at_).
Proof.
  induction more as [|more IH]; intros at_; cbn [next_loop]; [by split; [apply Nat.le_0_l|]|].
  destruct (nextEpisode at_) as [n|] eqn:En; [|by split; [apply Nat.le_0_l|]].
  destruct (Z.eqb_spec n 0) as [|Hn]; [by split; [apply Nat.le_0_l|]|]. destruct (IH n) as [L T].
  assert (forall rest, (length rest <= more)%nat -> in_turn nextEpisode fetch await n rest ->
    (rest <> [] -> exists started, fetch n = Some started /\ (started = true -> await n = true)) ->
    (length (n :: rest) <= S more)%nat /\ in_turn nextEpisode fetch await at_ (n :: rest)) as HC
    by (intros rest; cbn [length in_turn]; split; [lia|done]).
  destruct (fetch n) as [st|] eqn:Ef; [|apply HC; [apply Nat.le_0_l|done|done]].
  destruct (st && (0 <? more)%nat && negb (await n)) eqn:Ew; [apply HC; [apply Nat.le_0_l|done|done]|]. apply HC; [done|done|].
  intros Hr. exists st. split; [done|]. intros ->. destruct more as [|more]; [done|]. cbn in Ew. by apply negb_false_iff.
Qed.

(** At most two episodes are fetched ahead, one after the other, and none unless asked for. *)
Lemma Next_spec animeID episode prefs busy nextEpisode fetch await :
  let l := Next animeID episode prefs busy nextEpisode fetch await in
  (length l <= 2)%nat /\ in_turn nextEpisode fetch await episode l /\ (l <> [] -> exists count, prefs = Some (true, count)).
Proof.
  cbv zeta. unfold Next. destruct (_ || _ || _ || _) eqn:E; [cbn; split_and!; [lia|done|done]|].
  destruct (next_loop_spec nextEpisode fetch await (Z.to_nat (ahead prefs)) episode) as [L T].
  assert (ahead prefs <= 2) by (unfold ahead; destruct prefs as [[[|] c]|]; lia). split_and!; [lia|done|]. intros _.
  destruct prefs as [[[|] c]|]; [by exists c|..]; cbn in E; rewrite !orb_true_r in E; done.
Qed.

(** ** An instance: a resolve that fails, another ten minutes later that finds, and a start that takes it *)

Definition e2 : key := (1, 2).
Definition tried : state := finish e2 false (begin e2 (new_state 0)).
Definition found_later : state := finish e2 true (storePrepared e2 (begin e2 (waits prepareRetry tried))).
Definition taken : state := (TakePrepared e2 (waits (prepareRetry + preparedTTL) found_later)).1.

Lemma taken_reachable : reachable 0 taken.
Proof.
  unfold taken, found_later, tried.
  repeat (eapply goes_on; [|first [apply step_take|apply step_time; vm_compute; discriminate|
    apply step_done with (b := true); vm_compute; reflexivity|apply step_found; vm_compute; reflexivity|
    apply step_failed; vm_compute; reflexivity|apply step_resolve; vm_compute; reflexivity]]). apply opens.
Qed.


Example not_retried : admits (waits (prepareRetry - 1) tried) e2 = false /\ admits (waits prepareRetry tried) e2 = true.
Proof. split; vm_compute; reflexivity. Qed.
