(* ===== verification/Session.v ===== *)
(** * The engine's session: internal/engine/session.go

    Which torrents are held, what of them is wanted and where they lie is written to session.json, with each torrent's metainfo beside it, and read back
    at the next start.  The list on disk is what parsing it gives: its records, or how reading it failed.  A Go map walked is a list in any order. *)
From stdpp Require Import base gmap sets strings list.
From Stdlib Require Import ZArith Lia Permutation.
From S2P Require Import Prelude GoStr Net Paths Storage.

#[local] Open Scope string_scope.
#[local] Open Scope Z_scope.
#[local] Open Scope list_scope.

Record record := mkRecord {
  r_InfoHash : string; r_Trackers : list string; OutputFolder : string; OnlyFiles : list Z; Paused : bool; Verify : bool; Top : string;
}.

(** What reading session.json comes to: [fs.ErrNotExist]; a syntax error or an unexpected end; any other error. *)
Inductive listing := Absent | Broken | Unreadable | Listed (l : list record).

(** The session's folder: the list, and the metainfo that loads, by hash. *)
Record folder := mkFolder { listed : listing; metas : gmap string Info }.

Record entry := mkEntry { e_hash : string; trackers : list string; info : option Info; selected : gset Z; paused : bool; verifying : bool }.

Record engine := mkEngine { entries : list entry; names : tops }.

(** What may be refused: writing a torrent's metainfo, writing the list, adding a torrent. *)
Record answers := mkAnswers { meta_ok : string -> bool; list_ok : bool; add_ok : string -> bool }.

Section session.
Context `{U : Unicode}.

(** ** Saving *)

Definition top_of (n : tops) (name hash : string) : string * tops := let '(t, l) := top (Some n) name hash in (t, default n l).

Definition record_of (n : tops) (en : entry) : record * tops :=
  let '(t, n) := match info en with
                 | Some i => let '(t, n) := top_of n (BestName i) (e_hash en) in (if String.eqb t (BestName i) then "" else t, n)
                 | None => ("", n)
                 end in
  (mkRecord (e_hash en) (trackers en) "" (sort_by Z.ltb (elements (selected en))) (paused en) (verifying en) t, n).

Fixpoint records_of (n : tops) (l : list entry) : list record * tops :=
  match l with
  | [] => ([], n)
  | en :: l => let '(r, n) := record_of n en in let '(rs, n) := records_of n l in (r :: rs, n)
  end.

Definition by_hash (a b : record) : bool := String.ltb (r_InfoHash a) (r_InfoHash b).

(** A metainfo is written once; a write that fails is tried again at the next save. *)
Definition save_meta (o : answers) (m : gmap string Info) (en : entry) : gmap string Info :=
  match info en, m !! e_hash en with
  | Some i, None => if meta_ok o (e_hash en) then <[e_hash en := i]> m else m
  | _, _ => m
  end.

(** [writeSession]; [open] is that there is a client, and that the engine is not closed or this is its last save. *)
Definition writeSession (o : answers) (open : bool) (e : engine) (d : folder) : engine * folder :=
  if negb open then (e, d)
  else
    let '(rs, n) := records_of (names e) (entries e) in
    let m := foldl (save_meta o) (metas d) (entries e) in
    (mkEngine (entries e) n, mkFolder (if list_ok o then Listed (sort_by by_hash rs) else listed d) m).

(** ** Restoring *)

Fixpoint all_hex (s : string) : bool :=
  match s with "" => true | String c s => bool_decide (is_Some (hex_digit (byte_at c))) && all_hex s end.

(** [FromHexString]: whether it is forty hexadecimal digits. *)
Definition is_hash (s : string) : bool := (String.length s =? 40)%nat && all_hex s.

Definition claimed (n : tops) (hash t : string) : tops := default n (claim (Some n) hash t).

(** A torrent added from its metainfo is laid out at once, which decides its name; one added by hash when its info comes. *)
Definition restore_one (o : answers) (m : gmap string Info) (e : engine) (r : record) : engine :=
  let hash := to_lower (r_InfoHash r) in
  if negb (is_hash hash) then e
  else
    let n := claimed (names e) hash (Top r) in
    if negb (add_ok o hash) then mkEngine (entries e) n
    else
      let '(i, n) := match m !! hash with
                     | Some i => (Some i, (top_of n (BestName i) hash).2)
                     | None => (None, n)
                     end in
      mkEngine (entries e ++ [mkEntry hash (r_Trackers r) i (list_to_set (OnlyFiles r)) (Paused r) (Verify r)]) n.

(** Every torrent whose metainfo is on disk, paused, by the order of the files' names. *)
Definition rebuildSession (d : folder) : list record :=
  map (fun x : string * Info => mkRecord x.1 [] "" (map Z.of_nat (seq 0 (length (UpvertedFilesIter x.2)))) true false "")
    (sort_by (fun a b : string * Info => String.ltb a.1 b.1) (map_to_list (metas d))).

(** A session of rqbit: its folder, the records of its map in any order, and the metainfo found there. *)
Record legacy := mkLegacy { l_dir : string; l_listed : listing; l_metas : gmap string Info }.

Definition import_one (o : answers) (cache : string) (l : legacy) (acc : option (list record * gmap string Info)) (r : record) : option (list record * gmap string Info) :=
  match acc with
  | None => None
  | Some (out, m) =>
  if String.eqb (r_InfoHash r) "" || negb (Within cache (OutputFolder r)) then Some (out, m)
  else
    let name := to_lower (r_InfoHash r) in
    let r := mkRecord (r_InfoHash r) (r_Trackers r) (OutputFolder r) (OnlyFiles r) (Paused r) true (Top r) in
    match l_metas l !! name with
    | Some i => if meta_ok o name then Some (out ++ [r], <[name := i]> m) else None
    | None => Some (out ++ [r], m)
    end
  end.

(** The first that is there; [None] on an error. *)
Fixpoint importLegacy (o : answers) (cache : string) (ls : list legacy) (m : gmap string Info) : option (list record * gmap string Info * string) :=
  match ls with
  | [] => Some ([], m, "")
  | l :: ls =>
      if String.eqb (l_dir l) "" then importLegacy o cache ls m
      else match l_listed l with
           | Absent => importLegacy o cache ls m
           | Broken | Unreadable => None
           | Listed rs =>
               match foldl (import_one o cache l) (Some ([], m)) rs with
               | Some (out, m) => Some (sort_by by_hash out, m, l_dir l)
               | None => None
               end
           end
  end.

(** [restore] of a new engine: what it holds, the folder, and the legacy session to remove; [None] on an error. *)
Definition restore (o : answers) (cache : string) (ls : list legacy) (d : folder) : option (engine * folder * option string) :=
  match (match listed d with
         | Listed l => Some (l, d, "")
         | Absent => match importLegacy o cache ls (metas d) with Some (l, m, dir) => Some (l, mkFolder Absent m, dir) | None => None end
         | Broken => Some (rebuildSession d, mkFolder Absent (metas d), "")
         | Unreadable => None
         end) with
  | None => None
  | Some (doc, d, imported) =>
      let e := foldl (restore_one o (metas d)) (mkEngine [] ∅) doc in
      let '(e, d) := writeSession o true e d in
      Some (e, d, if negb (String.eqb imported "") && Within cache imported && negb (match listed d with Absent => true | _ => false end) then Some imported else None)
  end.

(** ** What is saved comes back *)

(** The record of a torrent whose name is decided, if its info is known. *)
Definition rec_of (n : tops) (en : entry) : record :=
  mkRecord (e_hash en) (trackers en) "" (sort_by Z.ltb (elements (selected en))) (paused en) (verifying en)
    (match info en, n !! e_hash en with Some i, Some t => if String.eqb t (BestName i) then "" else t | _, _ => "" end).

Definition named (n : tops) (en : entry) : Prop := is_Some (info en) -> is_Some (n !! e_hash en).

Lemma records_of_named n l : Forall (named n) l -> records_of n l = (map (rec_of n) l, n).
Proof using Type.
  induction 1 as [|en l Hn Hl IH]; [done|]. cbn [records_of map]. unfold record_of. unfold named in Hn. unfold rec_of at 1.
  destruct (info en) as [i|] eqn:Hi; [|by rewrite IH]. destruct (Hn ltac:(by eexists)) as [t Ht].
  unfold top_of. rewrite (top_kept _ _ _ t) by done. cbn [from_option id]. by rewrite Ht, IH.
Qed.

(** A torrent and the metainfo on disk agree. *)
Definition metas_agree (m : gmap string Info) (en : entry) : Prop :=
  match info en with Some i => m !! e_hash en = None \/ m !! e_hash en = Some i | None => m !! e_hash en = None end.

Lemma save_metas o l : (forall h, meta_ok o h = true) -> NoDup (map e_hash l) -> forall m, Forall (metas_agree m) l ->
  (forall en, en ∈ l -> foldl (save_meta o) m l !! e_hash en = info en) /\ (forall h, h ∉ map e_hash l -> foldl (save_meta o) m l !! h = m !! h).
Proof using Type.
  intros Hok. induction l as [|en l IH]; intros Hn m Hm; [split; [intros en H; by apply elem_of_nil in H|done]|].
  cbn [map foldl] in *. apply NoDup_cons in Hn as [Hnot Hn]. apply Forall_cons in Hm as [Hen Hm].
  assert (Hone : save_meta o m en !! e_hash en = info en /\ forall h, h <> e_hash en -> save_meta o m en !! h = m !! h).
  { unfold save_meta, metas_agree in *. rewrite Hok. destruct (info en) as [i|]; [|by split].
    destruct Hen as [Hen|Hen]; rewrite Hen; [|by split]. split; [apply lookup_insert_eq|]. intros h Hh. by apply lookup_insert_ne. }
  destruct Hone as [H1 H2]. assert (Hm' : Forall (metas_agree (save_meta o m en)) l).
  { rewrite Forall_forall in Hm |- *. intros x Hx. specialize (Hm x Hx). unfold metas_agree in *. rewrite !H2; [done|].
    intros Heq. apply Hnot. rewrite <-Heq. by apply list_elem_of_fmap_2. }
  destruct (IH Hn _ Hm') as [IH1 IH2]. split.
  - intros x [->|Hx]%elem_of_cons; [|by apply IH1]. by rewrite IH2.
  - intros h Hh. apply not_elem_of_cons in Hh as [Hh1 Hh2]. by rewrite IH2, H2.
Qed.

(** What an engine holds: hashes in lower case, each once; names decided where the info is known, no two alike. *)
Record well_held (e : engine) : Prop := {
  w_hash : forall en, en ∈ entries e -> is_hash (e_hash en) = true /\ to_lower (e_hash en) = e_hash en;
  w_once : NoDup (map e_hash (entries e));
  w_named : Forall (named (names e)) (entries e);
  w_apart : distinct (names e);
  w_nonempty : forall h, names e !! h <> Some "";
}.

Lemma restored_one o m e en k : well_held e -> en ∈ entries e -> (forall h, add_ok o h = true) -> m !! e_hash en = info en -> names k ⊆ names e ->
  let k' := restore_one o m k (rec_of (names e) en) in
  entries k' = entries k ++ [en] /\ names k ⊆ names k' /\ names k' ⊆ names e /\ named (names k') en.
Proof using Type.
  intros He Hen Hadd Hm Hsub. destruct (w_hash e He en Hen) as [Hh Hlow]. pose proof (w_named e He) as Hnamed. rewrite Forall_forall in Hnamed. specialize (Hnamed en Hen).
  cbn zeta. unfold restore_one. cbn [r_InfoHash r_Trackers OnlyFiles Paused Verify Top rec_of]. rewrite Hlow, Hh, Hadd, Hm. cbn [negb].
  assert (Hsel : list_to_set (sort_by Z.ltb (elements (selected en))) = selected en).
  { apply set_eq. intros x. rewrite elem_of_list_to_set, sort_by_perm, elem_of_elements. done. }
  rewrite Hsel. destruct (info en) as [i|] eqn:Hi.
  2:{ unfold claimed. cbn. rewrite <-Hi. split_and!; [by destruct en|done|done|]. unfold named. rewrite Hi. by intros [? ?]. }
  destruct (Hnamed ltac:(rewrite Hi; by eexists)) as [t Ht]. rewrite Ht. unfold top_of, claimed.
  assert (Hins : <[e_hash en := t]> (names k) ⊆ names e) by (apply insert_subseteq_l; done).
  assert (Hup : names k ⊆ <[e_hash en := t]> (names k)).
  { destruct (names k !! e_hash en) as [t'|] eqn:E; [|by apply insert_subseteq]. pose proof (lookup_weaken _ _ _ _ E Hsub) as E'. rewrite insert_id; [done|congruence]. }
  assert (Hend : forall n, n = <[e_hash en := t]> (names k) -> names k ⊆ n /\ n ⊆ names e /\ named n en).
  { intros n ->. split_and!; [done|done|]. intros _. rewrite lookup_insert_eq. by eexists. }
  assert (Hkeep : mkEntry (e_hash en) (trackers en) (Some i) (selected en) (paused en) (verifying en) = en) by (destruct en; cbn in *; by subst).
  assert (Hlast : forall n, (let '(i0, n0) := (let '(t0, l) := top (Some n) (BestName i) (e_hash en) in (Some i, default n l)) in
      (i0, n0)) = (Some i, <[e_hash en := t]> (names k)) ->
    entries (let '(i0, n0) := (Some i, (let '(t0, l) := top (Some n) (BestName i) (e_hash en) in (t0, default n l)).2) in
      mkEngine (entries k ++ [mkEntry (e_hash en) (trackers en) i0 (selected en) (paused en) (verifying en)]) n0) = entries k ++ [en] /\
    names (let '(i0, n0) := (Some i, (let '(t0, l) := top (Some n) (BestName i) (e_hash en) in (t0, default n l)).2) in
      mkEngine (entries k ++ [mkEntry (e_hash en) (trackers en) i0 (selected en) (paused en) (verifying en)]) n0) = <[e_hash en := t]> (names k)).
  { intros n. destruct (top _ _ _) as [t0 l]. intros [= ->]. cbn. by rewrite Hkeep. }
  destruct (String.eqb_spec t (BestName i)) as [->|Hne].
  - cbn [claim String.eqb from_option id]. destruct (Hlast (names k)) as [-> ->]; [|split; [done|by apply Hend]].
    destruct (names k !! e_hash en) as [t'|] eqn:E.
    + pose proof (lookup_weaken _ _ _ _ E Hsub) as E'. rewrite (top_kept _ _ _ t') by done. cbn. rewrite insert_id; [done|congruence].
    + cbn [top]. rewrite E. destruct (taken (names k) (BestName i) (e_hash en)) eqn:Ht'; [|done].
      apply taken_spec in Ht' as (other & Ho & Hne). exfalso. apply Hne. eapply (w_apart e He); [by eapply lookup_weaken|done].
  - assert (String.eqb t "" = false) as Ht0 by (apply String.eqb_neq; intros ->; by apply (w_nonempty e He (e_hash en))).
    cbn [claim]. rewrite Ht0. cbn [from_option id]. destruct (Hlast (<[e_hash en := t]> (names k))) as [-> ->]; [|split; [done|by apply Hend]].
    rewrite (top_kept _ _ _ t) by apply lookup_insert_eq. done.
Qed.
Lemma named_mono n n' en : n ⊆ n' -> named n en -> named n' en.
Proof using Type. intros Hsub Hn Hi. destruct (Hn Hi) as [t Ht]. exists t. by eapply lookup_weaken. Qed.

Lemma restored_all o m e : well_held e -> (forall h, add_ok o h = true) -> (forall en, en ∈ entries e -> m !! e_hash en = info en) ->
  forall l k, (forall en, en ∈ l -> en ∈ entries e) -> names k ⊆ names e -> Forall (named (names k)) (entries k) ->
  let k' := foldl (restore_one o m) k (map (rec_of (names e)) l) in
  entries k' = entries k ++ l /\ names k' ⊆ names e /\ Forall (named (names k')) (entries k').
Proof using Type.
  intros He Hadd Hm. induction l as [|en l IH]; intros k Hl Hsub Hk; [cbn; by rewrite app_nil_r|]. cbn [map foldl].
  destruct (restored_one o m e en k He ltac:(apply Hl; by left) Hadd ltac:(apply Hm, Hl; by left) Hsub) as (H1 & H2 & H3 & H4).
  set (k1 := restore_one o m k (rec_of (names e) en)) in *. clearbody k1.
  destruct (IH k1) as (I1 & I2 & I3); [intros x Hx; apply Hl; by right|done| |].
  - rewrite H1. apply Forall_app. split; [|by constructor]. eapply Forall_impl; [exact Hk|]. intros x. by apply named_mono.
  - split; [rewrite I1, H1; by rewrite <-app_assoc|done].
Qed.

End session.

(** ** Runs *)

#[local] Existing Instance ascii_unicode.

Definition hash_a : string := "aaaaaaaaaaaaaaaaaaaaaaaaaaaaaaaaaaaaaaaa".
Definition hash_b : string := "bbbbbbbbbbbbbbbbbbbbbbbbbbbbbbbbbbbbbbbb".

Definition granted : answers := mkAnswers (fun _ => true) true (fun _ => true).

(** Two releases of one name; the second was added first and has the name to itself. *)
Definition held_b : entry := mkEntry hash_b ["udp://tracker"] (Some season) {[0]} false false.
Definition held_a : entry := mkEntry hash_a [] (Some season) {[0]} true false.
Definition two_held : engine := mkEngine [held_b; held_a] {[hash_b := "Show"; hash_a := "Show [aaaaaaaa]"]}.

Definition new_folder : folder := mkFolder Absent ∅.
Definition saved : folder := (writeSession granted true two_held new_folder).2.

Lemma two_well_held : well_held two_held.
Proof.
  split.
  - intros en Hen. repeat (apply elem_of_cons in Hen as [->|Hen]); [by vm_compute|by vm_compute|by apply elem_of_nil in Hen].
  - apply (bool_decide_unpack _). by vm_compute.
  - repeat constructor; intros _; by vm_compute; eexists.
  - intros h1 h2 t H1 H2. cbn [names two_held] in *.
    destruct (decide (h1 = hash_b)) as [->|]; [|destruct (decide (h1 = hash_a)) as [->|]; [|by simplify_map_eq]];
      (destruct (decide (h2 = hash_b)) as [->|]; [|destruct (decide (h2 = hash_a)) as [->|]; [|by simplify_map_eq]]); try done;
      vm_compute in H1, H2; congruence.
  - intros h H. cbn [names two_held] in *. apply lookup_insert_Some in H as [[_ H]|[_ H]]; [done|]. by apply lookup_singleton_Some in H as [_ H].
Defined.


(** The list is damaged: the torrents come back from their metainfo without their names, in the order of their hashes, and the first takes the name, and the files, of the second. *)
Example rebuilt_swaps :
  let broken := mkFolder Broken (metas saved) in
  (fun r : engine * folder * option string => (names r.1.1 !! hash_a, names r.1.1 !! hash_b)) <$> restore granted "/cache" [] broken =
    Some (Some "Show", Some "Show [bbbbbbbb]") /\
  (names two_held !! hash_a, names two_held !! hash_b) = (Some "Show [aaaaaaaa]", Some "Show").
Proof. by vm_compute. Qed.

(** The metainfo could not be written when the list was: the next start still knows the name, but drops it from the list it writes at once, and the start after that has forgotten it. *)
Example name_forgotten :
  let o := mkAnswers (fun _ => false) true (fun _ => true) in
  let d1 := (writeSession o true two_held new_folder).2 in
  let d2 := (fun r : engine * folder * option string => r.1.2) <$> restore granted "/cache" [] d1 in
  match listed d1, d2 with
  | Listed l1, Some d2 => map Top l1 = ["Show [aaaaaaaa]"; ""] /\ match listed d2 with Listed l2 => map Top l2 = [""; ""] | _ => False end
  | _, _ => False
  end.
Proof. by vm_compute. Qed.
