(* ===== verification/Peers.v ===== *)
(** * Peers that hold requests and send nothing: internal/engine (peers.go, regroup.go, and engine.go's focus and janitor)

    The engine follows what each connection was asked for and what it sent, by hooks the client calls ([ledger]), to drop the ones that hold requests in
    silence; it remembers the peers of each torrent to try them again after an outage, and keeps complete torrents off the network while
    anything downloads.  Connections, requests and addresses are names; times are readings of one clock. *)
From stdpp Require Import base gmap strings list.
From Stdlib Require Import ZArith Lia Sorted.
From S2P Require Import Prelude.

#[local] Open Scope Z_scope.

Definition second : Z := 1000000000.
Definition shedAfter : Z := 15 * second.
Definition rescueAfter : Z := 8 * second.

(** A request is a piece and a place in it. *)
Abbreviation request := (Z * Z)%type.

(** [lastUseful] is [None] for the zero time. *)
Record peerState := mkPeer { sent : gmap request Z; since : Z; lastUseful : option Z }.

Abbreviation ledger := (gmap positive peerState).

(** ** The hooks *)

Inductive event := Added (p : positive) | Closed (p : positive) | SentRequest (p : positive) (r : request) | DeletedRequest (p : positive) (r : request) | Received (p : positive).

Definition added (l : ledger) (p : positive) (now : Z) : ledger := <[p := mkPeer ∅ now None]> l.
Definition closed (l : ledger) (p : positive) : ledger := delete p l.
Definition sentRequest (l : ledger) (p : positive) (r : request) (now : Z) : ledger :=
  alter (fun s => mkPeer (<[r := now]> (sent s)) (since s) (lastUseful s)) p l.
Definition deletedRequest (l : ledger) (p : positive) (r : request) : ledger :=
  alter (fun s => mkPeer (delete r (sent s)) (since s) (lastUseful s)) p l.
Definition received (l : ledger) (p : positive) (now : Z) : ledger := alter (fun s => mkPeer (sent s) (since s) (Some now)) p l.

Definition hook (l : ledger) (e : Z * event) : ledger :=
  match e.2 with
  | Added p => added l p e.1
  | Closed p => closed l p
  | SentRequest p r => sentRequest l p r e.1
  | DeletedRequest p r => deletedRequest l p r
  | Received p => received l p e.1
  end.

(** What the hooks called in this order leave; the first of the list was called last. *)
Definition after (h : list (Z * event)) : ledger := foldr (fun e l => hook l e) ∅ h.

(** ** Who is silent *)

Definition oldest (s : peerState) : option Z :=
  foldr (fun x acc => match acc with None => Some x.2 | Some at_ => Some (Z.min x.2 at_) end) None (map_to_list (sent s)).

Definition heard (s : peerState) : Z := match lastUseful s with Some t => if since s <? t then t else since s | None => since s end.

Definition is_silent (l : ledger) (now : Z) (p : positive) : bool :=
  match l !! p with
  | Some s => match oldest s with Some at_ => (shedAfter <=? now - at_) && (shedAfter <=? now - heard s) | None => false end
  | None => false
  end.

Definition silent (l : ledger) (conns : list positive) (now : Z) : list positive := List.filter (is_silent l now) conns.

Definition held_in (s : peerState) (piece : Z) : list Z := omap (fun x : request * Z => if x.1.1 =? piece then Some x.2 else None) (map_to_list (sent s)).

Definition holds (l : ledger) (piece : Z) (p : positive) : bool :=
  match l !! p with Some s => negb (bool_decide (held_in s piece = [])) | None => false end.

Definition holds_stale (l : ledger) (piece age now : Z) (p : positive) : bool :=
  match l !! p with
  | Some s => existsb (fun t => age <=? now - t) (held_in s piece) && (age <=? now - heard s)
  | None => false
  end.

Definition holding (l : ledger) (conns : list positive) (piece age now : Z) : list positive * Z :=
  (List.filter (holds_stale l piece age now) conns, Z.of_nat (length (List.filter (holds l piece) conns))).

(** [shed]: only with another peer to take the requests. *)
Definition shed (l : ledger) (info : bool) (active : Z) (conns : list positive) (now : Z) : list positive :=
  if negb info || (active <? 2) then [] else silent l conns now.

(** One read [rescue] finds waiting: the connections it drops, and whether all are to plan their requests again. *)
Definition rescue (l : ledger) (complete : bool) (seeders : Z) (conns : list positive) (piece now : Z) : list positive * bool :=
  if complete then ([], false)
  else
    let '(stale, holders) := holding l conns piece rescueAfter now in
    (if seeders <? 2 then [] else stale, negb (0 <? holders)).

(** ** Who is on the network *)

Record entry := mkEntry { paused : bool; verifying : bool; info : bool; wantsData : bool; quiet : bool }.

(** [quieten], and the call it makes: [Some true] stops uploading, [Some false] allows it. *)
Definition quieten (busy : bool) (en : entry) : entry * option bool :=
  if negb (info en) then (en, None)
  else
    let q := paused en || (busy && negb (wantsData en)) in
    (mkEntry (paused en) (verifying en) (info en) (wantsData en) q, if Bool.eqb q (quiet en) then None else Some q).

Definition is_busy (entries : list entry) (inspecting : Z) : bool :=
  (0 <? inspecting) || existsb (fun en => negb (paused en) && (negb (info en) || wantsData en)) entries.

Definition focus (entries : list entry) (inspecting : Z) : list (entry * option bool) := map (quieten (is_busy entries inspecting)) entries.

(** A download that may move is on the network; a complete torrent is off it while one is, and only then, unless paused. *)
Lemma focus_spec entries inspecting en en' call : (en, (en', call)) ∈ zip entries (focus entries inspecting) -> info en = true ->
  quiet en' = paused en || (is_busy entries inspecting && negb (wantsData en)) /\
  (negb (paused en) && wantsData en = true -> quiet en' = false /\ is_busy entries inspecting = true) /\
  (call = None <-> quiet en' = quiet en).
Proof.
  intros Hin Hi. assert (Hq : quieten (is_busy entries inspecting) en = (en', call) /\ en ∈ entries).
  { unfold focus in Hin. revert Hin. generalize (is_busy entries inspecting) as b. intros b. induction entries as [|x l IH]; intros Hin; [by apply elem_of_nil in Hin|].
    cbn in Hin. apply elem_of_cons in Hin as [Heq|Hin]; [|destruct (IH Hin); split; [done|by right]].
    injection Heq as -> ->. split; [by destruct (quieten b x)|by left]. }
  destruct Hq as [Hq Hen]. unfold quieten in Hq. rewrite Hi in Hq. cbn [negb] in Hq. injection Hq as <- <-. cbn [quiet]. split_and!; [done| |].
  - intros H. bool_prop. rewrite H, H0, andb_false_r. split; [done|]. unfold is_busy. apply orb_true_iff. right. apply existsb_elem. exists en. split; [done|].
    by rewrite H, H0, orb_true_r.
  - destruct (_ || _), (quiet en); cbn; split; congruence.
Qed.

(** ** Trying again the peers it had *)

Definition regroupAfter : Z := 20 * second.
Definition regroupMax : Z := 600 * second.
Definition rememberedPeers : nat := 200.

Abbreviation known := (gmap string Z).

(** The address seen longest ago, strictly before now, in the order the map is walked. *)
Definition longest_ago (k : known) (now : Z) : option string :=
  (foldl (fun acc x => if x.2 <? acc.2 then (Some x.1, x.2) else acc) (None, now) (map_to_list k)).1.

Definition remember_one (now : Z) (k : known) (addr : string) : known :=
  if bool_decide (k !! addr = None) && (rememberedPeers <=? size k)%nat
  then match longest_ago k now with None => k | Some o => <[addr := now]> (delete o k) end
  else <[addr := now]> k.

Definition remember (k : known) (peers : list string) (now : Z) : known := foldl (remember_one now) k peers.

(** [aloneSince] and [regroupWait], [None] for the zero time, and [regroups]. *)
Record alone := mkAlone { aloneSince : option Z; regroupWait : Z; regroups : Z }.

Definition tryAgain (now : Z) (a : alone) : alone * bool :=
  let '(at_, wait) := match aloneSince a with Some t => (t, regroupWait a) | None => (now, regroupAfter) end in
  if now - at_ <? wait then (mkAlone (Some at_) wait (regroups a), false)
  else (mkAlone (Some now) (Z.min (wait * 2) regroupMax) (regroups a + 1), true).

(** [regroup]: a torrent with peers, or that wants none, starts over; the addresses to try when it is time. *)
Definition regroup (k : known) (peers : list string) (active : Z) (en : entry) (now : Z) (a : alone) : known * alone * list string :=
  if negb (info en) then (k, a, [])
  else
    let k := remember k peers now in
    if (bool_decide (peers = []) && (active =? 0)) && negb (paused en) && negb (verifying en) && wantsData en
    then let '(a, due) := tryAgain now a in (k, a, if due then (map_to_list k).*1 else [])
    else (k, mkAlone None 0 0, []).

Lemma longest_ago_in k now o : longest_ago k now = Some o -> is_Some (k !! o).
Proof.
  unfold longest_ago. assert (H : forall (l : list (string * Z)) acc, (foldl (fun acc x => if x.2 <? acc.2 then (Some x.1, x.2) else acc) acc l).1 = Some o ->
    acc.1 = Some o \/ exists t, (o, t) ∈ l).
  { induction l as [|x l IH]; intros acc Ho; [by left|]. cbn in Ho. apply IH in Ho as [Ho|(t & Ho)]; [|right; exists t; by right].
    destruct (x.2 <? acc.2); [|by left]. cbn in Ho. injection Ho as <-. right. exists x.2. destruct x. by left. }
  intros Ho. apply H in Ho as [Ho|(t & Ho)]; [done|]. exists t. by apply elem_of_map_to_list.
Qed.

(** A busy swarm cannot grow what is remembered without end. *)
Lemma remember_bounded k peers now : (size k <= rememberedPeers)%nat -> (size (remember k peers now) <= rememberedPeers)%nat.
Proof.
  unfold remember. revert k. induction peers as [|addr peers IH]; intros k Hk; [done|]. cbn. apply IH. unfold remember_one.
  destruct (k !! addr) as [t|] eqn:E.
  { rewrite bool_decide_eq_false_2 by done. cbn [andb]. rewrite map_size_insert_Some by (by eexists). done. }
  rewrite bool_decide_eq_true_2 by done. cbn [andb]. destruct (Nat.leb_spec rememberedPeers (size k)).
  - destruct (longest_ago k now) as [o|] eqn:Ho; [|exact Hk]. apply longest_ago_in in Ho. rewrite map_size_insert_None; [|rewrite lookup_delete_None; by right].
    rewrite map_size_delete_Some by done. destruct Ho as [t Ht]. assert (size k <> 0%nat) by (intros Hz; apply map_size_empty_iff in Hz; by rewrite Hz, lookup_empty in Ht). lia.
  - rewrite map_size_insert_None by done. lia.
Qed.

(** Alone, it tries after twenty seconds, and then waits twice as long each time, up to ten minutes. *)
Lemma tries_double n t wait : regroupAfter <= wait <= regroupMax ->
  let '(a, due) := tryAgain (t + wait) (mkAlone (Some t) wait n) in
  due = true /\ a = mkAlone (Some (t + wait)) (Z.min (2 * wait) regroupMax) (n + 1) /\ (forall now, now < t + wait -> (tryAgain now (mkAlone (Some t) wait n)).2 = false).
Proof.
  intros Hw. unfold tryAgain. cbn [aloneSince regroupWait regroups]. destruct (Z.ltb_spec (t + wait - t) wait); [lia|]. split_and!; [done|f_equal; lia|].
  intros now Hn. destruct (Z.ltb_spec (now - t) wait); [done|lia].
Qed.

(** ** What happened, from the history alone *)

Definition about (p : positive) (e : event) : Prop := match e with Added q | Closed q => q = p | _ => False end.
Definition of_request (p : positive) (r : request) (e : event) : Prop :=
  match e with SentRequest q r' | DeletedRequest q r' => q = p /\ r' = r | _ => False end.

(** The connection there is now began at [t0], and [h1] happened since. *)
Definition connected (h h1 : list (Z * event)) (p : positive) (t0 : Z) : Prop :=
  exists h2, h = h1 ++ (t0, Added p) :: h2 /\ forall e, e ∈ h1 -> ~ about p e.2.

(** A request went out at [t], and was neither sent again nor taken back. *)
Definition waits (h1 : list (Z * event)) (p : positive) (r : request) (t : Z) : Prop :=
  exists h3 h4, h1 = h3 ++ (t, SentRequest p r) :: h4 /\ forall e, e ∈ h3 -> ~ of_request p r e.2.

Definition last_received (h1 : list (Z * event)) (p : positive) : option Z :=
  (fun e : Z * event => e.1) <$> head (List.filter (fun e : Z * event => match e.2 with Received q => bool_decide (q = p) | _ => false end) h1).

Definition follows (h : list (Z * event)) (p : positive) (s : peerState) : Prop :=
  exists h1, connected h h1 p (since s) /\ (forall r t, sent s !! r = Some t <-> waits h1 p r t) /\ lastUseful s = last_received h1 p.

Lemma connected_snoc e h h1 p t0 : connected h h1 p t0 -> ~ about p e.2 -> connected (e :: h) (e :: h1) p t0.
Proof. intros (h2 & -> & Hno) He. exists h2. split; [done|]. intros x [->|Hx]%elem_of_cons; [done|by apply Hno]. Qed.

Lemma waits_snoc e h1 p r t : waits (e :: h1) p r t <-> (e = (t, SentRequest p r) \/ ~ of_request p r e.2 /\ waits h1 p r t).
Proof.
  split.
  - intros (h3 & h4 & Heq & Hno). destruct h3 as [|x h3]; [left; by injection Heq|]. injection Heq as -> ->. right. split; [apply Hno; by left|].
    exists h3, h4. split; [done|]. intros y Hy. apply Hno. by right.
  - intros [->|[He (h3 & h4 & -> & Hno)]]; [exists [], h1; split; [done|]; intros x Hx; by apply elem_of_nil in Hx|].
    exists (e :: h3), h4. split; [done|]. intros y [->|Hy]%elem_of_cons; [done|by apply Hno].
Qed.

Lemma follows_keep e h p s : follows h p s -> ~ about p e.2 -> (forall r, ~ of_request p r e.2) -> e.2 <> Received p -> follows (e :: h) p s.
Proof.
  intros (h1 & Hc & Hs & Hl) Ha Hr He. exists (e :: h1). split; [apply connected_snoc; [done|cbn; tauto]|]. split.
  - intros r t. rewrite Hs, waits_snoc. split; [intros H; right; split; [apply Hr|done]|]. intros [->|[_ H]]; [|done]. exfalso. by apply (Hr r).
  - rewrite Hl. unfold last_received. cbn [List.filter]. destruct e as [t []]; cbn in *; try done. case_bool_decide; [by subst|done].
Qed.

Lemma connected_inv e h h1 p t0 : connected (e :: h) h1 p t0 ->
  (h1 = [] /\ e = (t0, Added p)) \/ exists h1', h1 = e :: h1' /\ ~ about p e.2 /\ connected h h1' p t0.
Proof.
  intros (h2 & Heq & Hno). destruct h1 as [|x h1]; [left; by injection Heq|]. injection Heq as -> ->. right. exists h1.
  split; [done|]. split; [apply Hno; by left|]. exists h2. split; [done|]. intros y Hy. apply Hno. by right.
Qed.

(** An event that is another connection's. *)
Ltac elsewhere := apply follows_keep; [done | cbn; tauto || congruence | intros ?; cbn; tauto || (intros [? _]; congruence) | cbn; congruence].

(** The ledger is the history's connections. *)
Lemma after_follows h : forall p, match after h !! p with Some s => follows h p s | None => forall h1 t0, ~ connected h h1 p t0 end.
Proof.
  induction h as [|[t e] h IH]; intros p; [cbn; rewrite lookup_empty; intros h1 t0 (h2 & Heq & _); by destruct h1|]. specialize (IH p).
  assert (Hnone : after h !! p = None -> (forall h1 t0, ~ connected h h1 p t0) -> (e <> Added p) -> forall h1 t0, ~ connected ((t, e) :: h) h1 p t0).
  { intros _ Hno Hne h1 t0 Hc. apply connected_inv in Hc as [[_ [= _ ->]]|(h1' & _ & _ & Hc)]; [done|by apply (Hno h1' t0)]. }
  change (after ((t, e) :: h)) with (hook (after h) (t, e)). unfold hook. cbn [fst snd].
  destruct e as [q|q|q r|q r|q]; unfold added, closed, sentRequest, deletedRequest, received.
  - destruct (decide (q = p)) as [->|Hne].
    + rewrite lookup_insert_eq. exists []. split_and!; [exists h; split; [done|]; intros x Hx; by apply elem_of_nil in Hx| |done].
      intros r t'. cbn. rewrite lookup_empty. split; [done|]. intros (h3 & h4 & Heq & _). by destruct h3.
    + rewrite lookup_insert_ne by done. destruct (after h !! p) as [s|] eqn:E; [elsewhere|]. apply Hnone; [done|done|congruence].
  - destruct (decide (q = p)) as [->|Hne].
    + rewrite lookup_delete_eq. intros h1 t0 Hc. apply connected_inv in Hc as [[_ [= ]]|(h1' & _ & Ha & _)]. by apply Ha.
    + rewrite lookup_delete_ne by done. destruct (after h !! p) as [s|] eqn:E; [elsewhere|]. by apply Hnone.
  - destruct (decide (q = p)) as [->|Hne].
    2:{ rewrite lookup_alter_ne by done. destruct (after h !! p) as [s|] eqn:E; [elsewhere|]. by apply Hnone. }
    rewrite lookup_alter_eq. destruct (after h !! p) as [s|] eqn:E; cbn; [|by apply Hnone]. destruct IH as (h1 & Hc & Hs & Hl).
    exists ((t, SentRequest p r) :: h1). cbn [since sent lastUseful]. split_and!; [apply connected_snoc; [done|cbn; tauto]| |done].
    intros r' t'. rewrite waits_snoc. cbn [snd of_request]. destruct (decide (r' = r)) as [->|Hr].
    + rewrite lookup_insert_eq. split; [intros [= ->]; by left|]. intros [[= ->]|[Hn _]]; [done|]. exfalso. by apply Hn.
    + rewrite lookup_insert_ne by done. rewrite Hs. split; [intros H; right; split; [by intros [_ ?]|done]|]. intros [[= ? ?]|[_ H]]; [congruence|done].
  - destruct (decide (q = p)) as [->|Hne].
    2:{ rewrite lookup_alter_ne by done. destruct (after h !! p) as [s|] eqn:E; [elsewhere|]. by apply Hnone. }
    rewrite lookup_alter_eq. destruct (after h !! p) as [s|] eqn:E; cbn; [|by apply Hnone]. destruct IH as (h1 & Hc & Hs & Hl).
    exists ((t, DeletedRequest p r) :: h1). cbn [since sent lastUseful]. split_and!; [apply connected_snoc; [done|cbn; tauto]| |done].
    intros r' t'. rewrite waits_snoc. cbn [snd of_request]. destruct (decide (r' = r)) as [->|Hr].
    + rewrite lookup_delete_eq. split; [done|]. intros [[= ]|[Hn _]]. exfalso. by apply Hn.
    + rewrite lookup_delete_ne by done. rewrite Hs. split; [intros H; right; split; [by intros [_ ?]|done]|]. intros [[= ]|[_ H]]. done.
  - destruct (decide (q = p)) as [->|Hne].
    2:{ rewrite lookup_alter_ne by done. destruct (after h !! p) as [s|] eqn:E; [elsewhere|]. by apply Hnone. }
    rewrite lookup_alter_eq. destruct (after h !! p) as [s|] eqn:E; cbn; [|by apply Hnone]. destruct IH as (h1 & Hc & Hs & Hl).
    exists ((t, Received p) :: h1). cbn [since sent lastUseful]. split_and!; [apply connected_snoc; [done|cbn; tauto]| |].
    + intros r' t'. rewrite Hs, waits_snoc. split; [intros H; right; split; [by intros []|done]|]. by intros [[= ]|[_ H]].
    + unfold last_received. cbn [List.filter snd]. by rewrite bool_decide_eq_true_2.
Qed.

(** The clock does not go back. *)
Definition clocked (h : list (Z * event)) : Prop := StronglySorted (fun x y : Z * event => y.1 <= x.1) h.

Lemma clocked_app h1 h2 : clocked (h1 ++ h2) -> clocked h1 /\ clocked h2 /\ forall x y, x ∈ h1 -> y ∈ h2 -> y.1 <= x.1.
Proof.
  unfold clocked. induction h1 as [|e h1 IH]; cbn; intros H; [split_and!; [constructor|done|intros x y Hx; by apply elem_of_nil in Hx]|].
  apply StronglySorted_inv in H as [H He]. destruct (IH H) as (H1 & H2 & H3). rewrite Forall_forall in He. split_and!; [|done|].
  - constructor; [done|]. apply Forall_forall. intros x Hx. apply He, elem_of_app. by left.
  - intros x y [->|Hx]%elem_of_cons Hy; [apply He, elem_of_app; by right|by apply H3].
Qed.

(** Nothing useful came for [age]: not since it connected, nor since it last sent something. *)
Lemma heard_spec h h1 p s age now : clocked h -> connected h h1 p (since s) -> lastUseful s = last_received h1 p ->
  (age <= now - heard s <-> age <= now - since s /\ forall t, (t, Received p) ∈ h1 -> age <= now - t).
Proof.
  intros Hc (h2 & -> & _) Hl. apply clocked_app in Hc as (Hc1 & _ & Hle). unfold heard. rewrite Hl. unfold last_received.
  set (f := fun e : Z * event => match e.2 with Received q => bool_decide (q = p) | _ => false end).
  assert (Hin : forall t, (t, Received p) ∈ h1 <-> (t, Received p) ∈ List.filter f h1).
  { intros t. rewrite elem_of_filter_b. unfold f. cbn. rewrite bool_decide_eq_true_2 by done. tauto. }
  assert (Hall : forall x, x ∈ List.filter f h1 -> exists t, x = (t, Received p)).
  { intros [t e] Hx. apply elem_of_filter_b in Hx as [_ Hx]. unfold f in Hx. cbn in Hx. destruct e as [| | | |q]; try done. apply bool_decide_eq_true in Hx as ->. by exists t. }
  assert (Hs : clocked (List.filter f h1)).
  { clear -Hc1. unfold clocked in *. induction Hc1 as [|e l Hs IH He]; [constructor|]. cbn. destruct (f e); [|done]. constructor; [done|].
    rewrite Forall_forall in He |- *. intros x Hx. apply elem_of_filter_b in Hx as [Hx _]. by apply He. }
  destruct (List.filter f h1) as [|[t e] l] eqn:E; cbn.
  - split; [intros H; split; [done|]; intros t Ht; apply Hin in Ht; by apply elem_of_nil in Ht|by intros [H _]].
  - destruct (Hall (t, e) ltac:(by left)) as [t' [= -> ->]].
    assert (Ht : since s <= t') by (apply (Hle (t', Received p) (since s, Added p)); [apply Hin; by left|by left]).
    assert (Hmost : forall t, (t, Received p) ∈ h1 -> t <= t').
    { intros t Hx. apply Hin in Hx. apply elem_of_cons in Hx as [[= ->]|Hx]; [lia|]. apply StronglySorted_inv in Hs as [_ Hs]. rewrite Forall_forall in Hs. by apply (Hs _ Hx). }
    destruct (Z.ltb_spec (since s) t').
    + split; [intros H'; split; [lia|]; intros t Hx; specialize (Hmost t Hx); lia|]. intros [_ H']. apply H', Hin. by left.
    + split; [intros H'; split; [lia|]; intros t Hx; specialize (Hmost t Hx); lia|]. by intros [H' _].
Qed.

Lemma oldest_spec s age now : (match oldest s with Some at_ => age <=? now - at_ | None => false end) = true <-> exists r t, sent s !! r = Some t /\ age <= now - t.
Proof.
  assert (H : forall l : list (request * Z), (match foldr (fun x acc => match acc with None => Some x.2 | Some at_ => Some (Z.min x.2 at_) end) None l with
      Some at_ => age <=? now - at_ | None => false end) = true <-> exists r t, (r, t) ∈ l /\ age <= now - t).
  { induction l as [|[r t] l IH]; cbn; [split; [done|]; intros (r & t & Hin & _); by apply elem_of_nil in Hin|].
    destruct (foldr _ None l) as [m|]; rewrite Z.leb_le in *.
    - split.
      + intros H. destruct (Z.min_spec t m) as [[_ Hm]|[_ Hm]]; rewrite Hm in H; [exists r, t; split; [by left|done]|].
        destruct IH as [IH _]. destruct (IH H) as (r' & t' & Hin & Ht). exists r', t'. split; [by right|done].
      + intros (r' & t' & [[= -> ->]|Hin]%elem_of_cons & Ht); [lia|]. destruct IH as [_ IH]. enough (age <= now - m) by lia. apply IH. by exists r', t'.
    - split; [intros H; exists r, t; split; [by left|done]|]. intros (r' & t' & [[= -> ->]|Hin]%elem_of_cons & Ht); [done|].
      destruct IH as [_ IH]. discriminate IH. by exists r', t'. }
  unfold oldest. rewrite H. split; intros (r & t & Hin & Ht); exists r, t; (split; [by apply elem_of_map_to_list|done]).
Qed.

Lemma held_in_spec s piece t : t ∈ held_in s piece <-> exists at_, sent s !! (piece, at_) = Some t.
Proof.
  unfold held_in. rewrite list_elem_of_omap. split.
  - intros ([[i at_] t'] & Hin & Hx). cbn in Hx. destruct (Z.eqb_spec i piece) as [->|]; [|done]. injection Hx as ->. exists at_. by apply elem_of_map_to_list.
  - intros [at_ Ht]. exists ((piece, at_), t). split; [by apply elem_of_map_to_list|]. cbn. by rewrite Z.eqb_refl.
Qed.

(** A connection as the rule for dropping it sees it: nothing useful from it for [age], and a request that [held] admits waiting as long. *)
Definition mute (h : list (Z * event)) (p : positive) (held : request -> Prop) (age now : Z) : Prop :=
  exists h1 t0, connected h h1 p t0 /\ age <= now - t0 /\ (forall t, (t, Received p) ∈ h1 -> age <= now - t) /\
    exists r t, held r /\ waits h1 p r t /\ age <= now - t.

Lemma mute_spec h p held age now : clocked h ->
  mute h p held age now <-> exists s, after h !! p = Some s /\ age <= now - heard s /\ exists r t, held r /\ sent s !! r = Some t /\ age <= now - t.
Proof.
  intros Hc. pose proof (after_follows h p) as Hf. split.
  - intros (h1 & t0 & Hcon & Ht0 & Hrec & r & t & Hheld & Hw & Ht). destruct (after h !! p) as [s|]; [|by apply Hf in Hcon].
    destruct Hf as (h1' & Hcon' & Hs & Hl). assert (h1' = h1 /\ since s = t0) as [-> <-].
    { clear -Hcon Hcon'. revert h1 h1' Hcon Hcon'. induction h as [|e h IH]; intros h1 h1' H H'; [by destruct H as (h2 & Heq & _); destruct h1|].
      apply connected_inv in H as [[-> He]|(x & -> & Ha & H)]; apply connected_inv in H' as [[-> He']|(x' & -> & Ha' & H')].
      - split; [done|]. congruence.
      - subst e. exfalso. by apply Ha'.
      - subst e. exfalso. by apply Ha.
      - by destruct (IH _ _ H H') as [-> <-]. }
    exists s. split; [done|]. split; [by apply (heard_spec h h1 p s age now Hc Hcon' Hl)|]. exists r, t. split; [done|]. split; [by apply Hs|done].
  - intros (s & Hs & Hh & r & t & Hheld & Hr & Ht). rewrite Hs in Hf. destruct Hf as (h1 & Hcon & Hsent & Hl). exists h1, (since s).
    apply (heard_spec h h1 p s age now Hc Hcon Hl) in Hh as [H1 H2]. split_and!; [done|done|done|]. exists r, t. split; [done|]. split; [by apply Hsent|done].
Qed.



Example sheds_one : silent (after [(16 * second, SentRequest 2 (0, 0)); (1 * second, SentRequest 1 (3, 0)); (0, Added 2%positive); (0, Added 1%positive)])
  [1%positive; 2%positive] (17 * second) = [1%positive].
Proof. by vm_compute. Qed.
