(* ===== verification/Segments.v ===== *)
(** * Where a torrent's bytes lie in its files: internal/bt/segments

    A torrent is one run of bytes over its files; [LocateIter] says which bytes of which files an extent
    is.  It searches for the first file that ends after the extent starts and scans from it.  Its positive pieces
    are shown to be the extent's overlaps with each file; iterators are the lists of what they yield. *)
From stdpp Require Import base list.
From Stdlib Require Import ZArith Lia.
From S2P Require Import Prelude.

#[local] Open Scope Z_scope.

Record Extent := mkExtent { Start : Z; Length : Z }.

Definition End (e : Extent) : Z := i64_add (Start e) (Length e).

Definition NewIndex (lengths : list Z) : list Extent :=
  (foldl (fun acc l => (acc.1 ++ [mkExtent acc.2 l], i64_add acc.2 l)) ([], 0) lengths).1.

(** *** [slices.BinarySearchFunc] and [sort.Search]: [p h] when the target is not above the element at [h]. *)

Fixpoint search (p : nat -> bool) (fuel i j : nat) : nat :=
  match fuel with
  | O => i
  | S fuel => if (i <? j)%nat then let h := ((i + j) / 2)%nat in if p h then search p fuel i h else search p fuel (S h) j else i
  end.

Definition Search (n : nat) (p : nat -> bool) : nat := search p n 0 n.

(** Each segment by its distance from the end of the one before; the first by none. *)
Fixpoint iterSegments (last : option Z) (segs : list Extent) : list Extent :=
  match segs with
  | [] => []
  | cur :: rest => mkExtent (i64_sub (Start cur) (default (Start cur) last)) (Length cur) :: iterSegments (Some (End cur)) rest
  end.

Fixpoint scanConsecutive (haystack : list Extent) (needle : Extent) (started : bool) : list Extent :=
  match haystack with
  | [] => []
  | l :: rest =>
      if Length needle =? 0 then []
      else
        let start := Z.max (i64_sub (Start needle) (Start l)) 0 in
        let e1 := mkExtent start (Z.max (i64_sub (Z.min (Length l) (i64_sub (End needle) (Start l))) start) 0) in
        let needle := mkExtent (Z.max 0 (i64_sub (Start needle) (End l))) (i64_sub (Length needle) (i64_add (Length e1) (Start l))) in
        if (0 <? Length e1) || (started && negb (Length needle =? 0)) then e1 :: scanConsecutive rest needle true
        else scanConsecutive rest needle started
  end.

(** The first segment that ends after the extent's start. *)
Definition first_after (me : list Extent) (start : Z) : nat :=
  Search (length me) (fun h => match me !! h with Some s => i64_add start 1 <=? End s | None => true end).

Definition LocateIter (me : list Extent) (e : Extent) : list (nat * Extent) :=
  let first := first_after me (Start e) in
  match me !! first with
  | None => []
  | Some f =>
      let start := i64_sub (Start e) (Start f) in
      let e := if start <? 0 then mkExtent 0 (i64_add (Length e) start) else mkExtent start (Length e) in
      imap (fun j x => (first + j, x)%nat) (scanConsecutive (iterSegments None (drop first me)) e false)
  end.

(** [LocateOffset]: [None] where it panics. *)
Fixpoint located (l : list (nat * Extent)) (ret : option (nat * Z)) : option (option (nat * Z)) :=
  match l with
  | [] => Some ret
  | (i, e) :: rest =>
      match ret with
      | Some _ => None
      | None => if Length e =? 1 then located rest (Some (i, Start e)) else None
      end
  end.

Definition LocateOffset (me : list Extent) (off : Z) : option (option (nat * Z)) := located (LocateIter me (mkExtent off 1)) None.

(** ** Searching *)

Section search.
Context (p : nat -> bool) (n : nat) (Hmono : forall i j, (i <= j < n)%nat -> p i = true -> p j = true).

Lemma search_spec fuel : forall i j, (i <= j <= n)%nat -> (j - i <= fuel)%nat ->
  (forall x, (x < i)%nat -> p x = false) -> (forall x, (j <= x < n)%nat -> p x = true) ->
  (i <= search p fuel i j <= j)%nat /\ (forall x, (x < search p fuel i j)%nat -> p x = false) /\
  (forall x, (search p fuel i j <= x < n)%nat -> p x = true).
Proof using Hmono.
  induction fuel as [|fuel IH]; intros i j Hij Hf Hlo Hhi; cbn [search].
  { assert (i = j) as -> by lia. split_and!; [lia|lia|done|done]. }
  destruct (Nat.ltb_spec i j) as [Hlt|Hge].
  2:{ assert (i = j) as -> by lia. split_and!; [lia|lia|done|done]. }
  assert (i <= (i + j) / 2 < j)%nat as Hh by (split; [apply Nat.div_le_lower_bound | apply Nat.Div0.div_lt_upper_bound]; lia).
  set (h := ((i + j) / 2)%nat) in *. clearbody h.
  destruct (p h) eqn:Hp.
  - destruct (IH i h) as (R & L & G); [lia|lia|done|intros x Hx; apply (Hmono h); [lia|done]|]. split_and!; [lia|lia|done|done].
  - destruct (IH (S h) j) as (R & L & G); [lia|lia| |done|split_and!; [lia|lia|done|done]].
    intros x Hx. destruct (p x) eqn:Hpx; [|done]. rewrite (Hmono x h) in Hp; [done|lia|done].
Qed.

Lemma Search_spec : (Search n p <= n)%nat /\ (forall x, (x < Search n p)%nat -> p x = false) /\ (forall x, (Search n p <= x < n)%nat -> p x = true).
Proof using Hmono. destruct (search_spec n 0 n) as (R & L & G); [lia..|intros; lia|intros; lia|]. split_and!; [unfold Search; lia|done|done]. Qed.
End search.

(** ** A torrent's files: one after the other from 0 *)

Fixpoint contiguous (s : Z) (lengths : list Z) : list Extent :=
  match lengths with [] => [] | l :: rest => mkExtent s l :: contiguous (s + l) rest end.

(** What an extent shares with each file, from the file's own start. *)
Fixpoint overlaps (i : nat) (s : Z) (lengths : list Z) (e : Extent) : list (nat * Extent) :=
  match lengths with
  | [] => []
  | l :: rest =>
      let lo := Z.max s (Start e) in
      let hi := Z.min (s + l) (Start e + Length e) in
      (if lo <? hi then [(i, mkExtent (lo - s) (hi - lo))] else []) ++ overlaps (S i) (s + l) rest e
  end.

Definition total (lengths : list Z) : Z := foldr Z.add 0 lengths.

Definition limit : Z := 2 ^ 61.

Lemma total_cons l lens : total (l :: lens) = l + total lens.
Proof. done. Qed.

Lemma total_nonneg lens : Forall (Z.le 0) lens -> 0 <= total lens.
Proof. induction 1 as [|l lens Hl _ IH]; [done|]. rewrite total_cons. lia. Qed.

Lemma NewIndex_from lens : forall s acc, 0 <= s -> Forall (Z.le 0) lens -> s + total lens < limit ->
  (foldl (fun acc l => (acc.1 ++ [mkExtent acc.2 l], i64_add acc.2 l)) (acc, s) lens).1 = acc ++ contiguous s lens.
Proof.
  induction lens as [|l lens IH]; intros s acc Hs Hpos Hb; cbn [foldl contiguous fst snd]; [by rewrite app_nil_r|].
  apply Forall_cons in Hpos as [Hl Hpos]. pose proof (total_nonneg lens Hpos). rewrite total_cons in Hb. unfold limit in *.
  rewrite i64_add_small by no_overflow. rewrite IH; [by rewrite <-app_assoc|lia|done|lia].
Qed.

Lemma NewIndex_contiguous lens : Forall (Z.le 0) lens -> total lens < limit -> NewIndex lens = contiguous 0 lens.
Proof. intros Hpos Hb. apply (NewIndex_from lens 0 []); [lia|done|lia]. Qed.

(** The gaps between files that touch are all empty. *)
Lemma iterSegments_contiguous lens : forall s, 0 <= s -> Forall (Z.le 0) lens -> s + total lens < limit ->
  iterSegments (Some s) (contiguous s lens) = map (mkExtent 0) lens.
Proof.
  induction lens as [|l lens IH]; intros s Hs Hpos Hb; [done|]. apply Forall_cons in Hpos as [Hl Hpos].
  pose proof (total_nonneg lens Hpos). rewrite total_cons in Hb. cbn [contiguous iterSegments map Start Length]. unfold End. cbn [Start Length].
  change (default s (Some s)) with s. unfold limit in *.
  rewrite i64_sub_small by no_overflow. rewrite i64_add_small by no_overflow. rewrite Z.sub_diag. f_equal. apply IH; [lia|done|lia].
Qed.

Definition yields (k : nat) (l : list Extent) : list (nat * Extent) := imap (fun j x => (k + j, x)%nat) l.

Lemma yields_cons k x l : yields k (x :: l) = (k, x) :: yields (S k) l.
Proof. unfold yields. cbn [imap]. rewrite Nat.add_0_r. f_equal. apply imap_ext. intros i y _. cbn. f_equal. lia. Qed.

Definition positive (x : nat * Extent) : bool := 0 <? Length x.2.

Lemma overlaps_after lens e : forall s k, Forall (Z.le 0) lens -> Start e + Length e <= s -> overlaps k s lens e = [].
Proof.
  induction lens as [|l lens IH]; intros s k Hpos He; [done|]. apply Forall_cons in Hpos as [Hl Hpos]. cbn [overlaps].
  destruct (Z.ltb_spec (Z.max s (Start e)) (Z.min (s + l) (Start e + Length e))); [lia|]. apply IH; [done|lia].
Qed.

(** One file of the scan, from the needle's start in it. *)
Lemma scan_step l rest a L started : 0 <= a -> 0 < L < limit -> 0 <= l < limit -> a < l \/ (a = 0 /\ started = true) ->
  let n := Z.min l (a + L) - a in
  scanConsecutive (mkExtent 0 l :: rest) (mkExtent a L) started = mkExtent a n :: scanConsecutive rest (mkExtent 0 (L - n)) true.
Proof.
  intros Ha HL Hl Hor n. cbn [scanConsecutive Start Length]. unfold End; cbn [Start Length]. unfold limit in *. destruct (Z.eqb_spec L 0); [lia|].
  assert (0 <= n <= L) as Hn by lia.
  rewrite !(i64_add_small a L), !(i64_add_small 0 l) by no_overflow. rewrite !(i64_sub_small _ 0) by no_overflow. rewrite !Z.sub_0_r, !Z.add_0_l.
  rewrite (Z.max_l a 0) by lia. rewrite (i64_sub_small (Z.min l (a + L)) a) by no_overflow. fold n. rewrite (Z.max_l n 0) by lia.
  rewrite (i64_add_small n 0), Z.add_0_r by no_overflow. rewrite (i64_sub_small L n), (i64_sub_small a l) by no_overflow.
  rewrite (Z.max_l 0 (a - l)) by lia.
  assert ((0 <? n) || (started && negb (L - n =? 0)) = true) as ->; [|done].
  destruct Hor as [|[-> ->]]; [assert (0 <? n = true) as -> by lia; done|]. cbn [andb]. lia.
Qed.

(** Once a file has been met, every next one is yielded until the extent ends. *)
Lemma scan_started lens e : forall s L k, 0 <= s -> 0 <= L < limit -> Forall (Z.le 0) lens -> s + total lens < limit ->
  Start e <= s -> Start e + Length e = s + L ->
  List.filter positive (yields k (scanConsecutive (map (mkExtent 0) lens) (mkExtent 0 L) true)) = overlaps k s lens e.
Proof.
  induction lens as [|l lens IH]; intros s L k Hs HL Hpos Hb Hst He; [done|].
  destruct (Z.eq_dec L 0) as [->|HL0].
  { rewrite overlaps_after by (done || lia). done. }
  apply Forall_cons in Hpos as [Hl Hpos]. pose proof (total_nonneg lens Hpos). rewrite total_cons in Hb.
  cbn [map]. rewrite scan_step by (lia || (right; done)). cbn [overlaps]. rewrite yields_cons. cbn [List.filter].
  unfold positive at 1; cbn [Length snd].
  replace (Z.max s (Start e)) with s by lia. replace (Z.min (s + l) (Start e + Length e)) with (s + Z.min l L) by lia.
  rewrite Z.add_0_l, Z.sub_0_r, Z.sub_diag. replace (s + Z.min l L - s) with (Z.min l L) by lia.
  replace (s <? s + Z.min l L) with (0 <? Z.min l L) by lia.
  assert (List.filter positive (yields (S k) (scanConsecutive (map (mkExtent 0) lens) (mkExtent 0 (L - Z.min l L)) true)) = overlaps (S k) (s + l) lens e) as ->.
  { destruct (Z.le_gt_cases L l) as [Hle|Hgt].
    - rewrite overlaps_after by (done || lia). replace (L - Z.min l L) with 0 by lia. by destruct lens.
    - apply IH; [lia|lia|done|lia|lia|lia]. }
  by destruct (0 <? Z.min l L).
Qed.

(** *** The file the search finds *)

Lemma contiguous_lookup lens : forall s i, contiguous s lens !! i = (fun l => mkExtent (s + total (take i lens)) l) <$> lens !! i.
Proof.
  induction lens as [|l lens IH]; intros s [|i]; [done|done| |].
  - cbn. by rewrite Z.add_0_r.
  - cbn [contiguous lookup list_lookup take]. rewrite IH, total_cons. by rewrite Z.add_assoc.
Qed.

Lemma contiguous_drop lens : forall s n, drop n (contiguous s lens) = contiguous (s + total (take n lens)) (drop n lens).
Proof.
  induction lens as [|l lens IH]; intros s [|n]; [done|done| |].
  - cbn. by rewrite Z.add_0_r.
  - cbn [contiguous drop take]. rewrite IH, total_cons. by rewrite Z.add_assoc.
Qed.

Lemma contiguous_length lens : forall s, length (contiguous s lens) = length lens.
Proof. induction lens; intros s; cbn; auto. Qed.

Lemma total_take_le lens n m : Forall (Z.le 0) lens -> (n <= m)%nat -> total (take n lens) <= total (take m lens).
Proof.
  intros Hpos. revert n m. induction Hpos as [|l lens Hl Hpos IH]; intros n m H; [by rewrite !take_nil|].
  destruct n, m; [done| |lia|]; cbn [take]; rewrite ?total_cons.
  - pose proof (total_nonneg (take m lens) (Forall_take _ _ _ Hpos)). cbn. unfold total in *. lia.
  - specialize (IH n m ltac:(lia)). lia.
Qed.

Lemma total_take_S lens i l : lens !! i = Some l -> total (take (S i) lens) = total (take i lens) + l.
Proof.
  revert i. induction lens as [|x lens IH]; intros [|i] H; [done|done| |].
  - injection H as ->. cbn [take]. rewrite total_cons, take_0. lia.
  - cbn [take]. rewrite !total_cons. cbn in H. rewrite (IH i H). lia.
Qed.

Lemma total_take_all lens n : Forall (Z.le 0) lens -> total (take n lens) <= total lens.
Proof.
  intros Hpos. destruct (Nat.le_gt_cases n (length lens)) as [H|H].
  - pose proof (total_take_le lens n (length lens) Hpos H) as Ht. by rewrite firstn_all in Ht.
  - rewrite take_ge by lia. done.
Qed.

Lemma total_take_drop lens n : total lens = total (take n lens) + total (drop n lens).
Proof. revert n. induction lens as [|l lens IH]; intros [|n]; [done|done|done|]. cbn [take drop]. rewrite !total_cons, (IH n). lia. Qed.

(** Files that end before the extent share nothing with it. *)
Lemma overlaps_skip e : forall n lens s k, Forall (Z.le 0) lens -> s + total (take n lens) <= Start e ->
  overlaps k s lens e = overlaps (k + n) (s + total (take n lens)) (drop n lens) e.
Proof.
  induction n as [|n IH]; intros [|l lens] s k Hpos He; [done| |done|].
  - cbn [take drop]. change (total []) with 0. by rewrite Nat.add_0_r, Z.add_0_r.
  - apply Forall_cons in Hpos as [Hl Hpos]. cbn [take drop] in *. rewrite total_cons in *.
    pose proof (total_nonneg (take n lens) (Forall_take _ _ _ Hpos)). cbn [overlaps].
    destruct (Z.ltb_spec (Z.max s (Start e)) (Z.min (s + l) (Start e + Length e))); [lia|]. cbn [app].
    rewrite (IH lens (s + l) (S k) Hpos) by lia. f_equal; lia.
Qed.

(** What the search finds: the files before end by the extent's start, and the found one after it. *)
Lemma first_after_spec lens start : Forall (Z.le 0) lens -> total lens < limit -> 0 <= start < limit ->
  let n := first_after (contiguous 0 lens) start in
  (n <= length lens)%nat /\ total (take n lens) <= start /\ ((n < length lens)%nat -> start < total (take (S n) lens)).
Proof.
  intros Hpos Hb Hst n. set (p := fun h => match contiguous 0 lens !! h with Some s => i64_add start 1 <=? End s | None => true end).
  assert (Hp : forall h, (h < length lens)%nat -> p h = (start <? total (take (S h) lens))).
  { intros h Hh. destruct (lookup_lt_is_Some_2 lens h Hh) as [l Hl]. unfold p. rewrite contiguous_lookup, Hl. cbn [fmap option_fmap option_map].
    unfold End. cbn [Start Length]. pose proof (total_take_S lens h l Hl). pose proof (total_take_all lens (S h) Hpos).
    pose proof (total_nonneg (take h lens) (Forall_take _ _ _ Hpos)). pose proof (Forall_lookup_1 _ _ _ _ Hpos Hl). unfold limit in *.
    rewrite !i64_add_small by no_overflow. lia. }
  destruct (Search_spec p (length lens)) as (R & L & G).
  { intros i j Hij Hi. rewrite Hp in Hi |- * by lia. pose proof (total_take_le lens (S i) (S j) Hpos ltac:(lia)). lia. }
  assert (n = Search (length lens) p) as -> by (unfold n, first_after; by rewrite contiguous_length).
  split_and!; [done| |].
  - destruct (Search (length lens) p) as [|m]; [rewrite take_0; change (total []) with 0; lia|]. specialize (L m). rewrite Hp in L by lia. specialize (L ltac:(lia)). lia.
  - intros Hn. specialize (G (Search (length lens) p)). rewrite Hp in G by lia. specialize (G ltac:(lia)). lia.
Qed.

Lemma overlaps_empty lens e : forall s k, Length e <= 0 -> overlaps k s lens e = [].
Proof.
  induction lens as [|l lens IH]; intros s k He; [done|]. cbn [overlaps].
  destruct (Z.ltb_spec (Z.max s (Start e)) (Z.min (s + l) (Start e + Length e))); [lia|]. by apply IH.
Qed.

(** The iterator on a torrent's files: the file the search finds, then those after it. *)
Lemma LocateIter_files lens e : Forall (Z.le 0) lens -> total lens < limit -> 0 <= Start e < limit -> 0 <= Length e < limit ->
  LocateIter (NewIndex lens) e = [] /\ overlaps 0 0 lens e = [] \/
  exists n l a rest, overlaps 0 0 lens e = overlaps n (Start e - a) (l :: rest) e /\ 0 <= a < l /\ 0 <= Start e - a /\ Forall (Z.le 0) (l :: rest) /\
    Start e - a + total (l :: rest) < limit /\ 0 < Length e /\
    LocateIter (NewIndex lens) e =
      yields n (mkExtent a (Z.min l (a + Length e) - a) :: scanConsecutive (map (mkExtent 0) rest) (mkExtent 0 (Length e - (Z.min l (a + Length e) - a))) true).
Proof.
  intros Hpos Hb Hst HL. rewrite NewIndex_contiguous by done. unfold LocateIter.
  destruct (first_after_spec lens (Start e) Hpos Hb Hst) as (Hn & Hbefore & Hafter). set (n := first_after (contiguous 0 lens) (Start e)) in *. clearbody n.
  rewrite contiguous_lookup. pose proof (overlaps_skip e n lens 0 0 Hpos ltac:(lia)) as Hskip. rewrite Nat.add_0_l, Z.add_0_l in Hskip.
  destruct (lens !! n) as [l|] eqn:Hl; cbn [fmap option_fmap option_map].
  2:{ left. split; [done|]. apply lookup_ge_None_1 in Hl. rewrite Hskip, drop_ge by lia. done. }
  pose proof (lookup_lt_Some _ _ _ Hl) as Hlt. specialize (Hafter Hlt). rewrite (total_take_S _ _ _ Hl) in Hafter.
  pose proof (Forall_drop _ n _ Hpos) as Hd. pose proof (total_take_drop lens n) as Htd. rewrite (drop_S _ _ _ Hl) in Hskip, Hd, Htd.
  rewrite total_cons in Htd. apply Forall_cons in Hd as [Hl0 Hd]. pose proof (total_nonneg _ Hd). pose proof (total_nonneg _ (Forall_take _ n _ Hpos)).
  cbn [Start Length]. remember (total (take n lens)) as b eqn:Eb. unfold limit in *. rewrite Z.add_0_l, i64_sub_small by no_overflow.
  destruct (Z.ltb_spec (Start e - b) 0); [lia|].
  rewrite contiguous_drop, (drop_S _ _ _ Hl). rewrite <-Eb, Z.add_0_l. cbn [contiguous iterSegments Start Length]. unfold End. cbn [Start Length].
  change (default b None) with b. rewrite i64_sub_small, i64_add_small by no_overflow. rewrite Z.sub_diag.
  rewrite iterSegments_contiguous by (done || unfold limit; lia).
  destruct (Z.eq_dec (Length e) 0) as [He|He].
  { left. split; [by rewrite He|]. apply overlaps_empty. lia. }
  right. exists n, l, (Start e - b), (drop (S n) lens). replace (Start e - (Start e - b)) with b by lia.
  rewrite Hskip. split_and!; [done|lia|lia|lia|by constructor|rewrite total_cons; lia|lia|].
  rewrite (scan_step l) by (unfold limit; lia). done.
Qed.



(** ** Segments with gaps between them *)

(** An extent that ends in a gap is given out with an empty piece of every later segment. *)
Example past_a_gap : LocateIter [mkExtent 0 5; mkExtent 10 5; mkExtent 20 5] (mkExtent 3 4) =
  [(0%nat, mkExtent 3 2); (1%nat, mkExtent 0 0); (2%nat, mkExtent 0 0)].
Proof. reflexivity. Qed.

(** An empty segment before the first yield shifts the indices: bytes of the third segment are given as the second's. *)
Example index_shifted : LocateIter [mkExtent 0 5; mkExtent 10 0; mkExtent 10 5] (mkExtent 7 5) = [(1%nat, mkExtent 0 2)].
Proof. reflexivity. Qed.
