(* ===== verification/Watcher.v ===== *)
(** * The watcher of new releases: internal/library/watcher.go and internal/store/notify.go

    A poll goes over the shows followed; of each it looks for the episode that aired last, unless that one is
    behind the viewer or was dealt with, and announces it, queues it, or both.  What is on record of it is kept by release
    and by episode, apart from the list of notifications.  The state's last three fields say what followed: what
    was announced, what was queued, and of which episodes a write failed.  Polls run one after the other. *)
From stdpp Require Import base gmap strings list.
From Stdlib Require Import ZArith Lia.
From S2P Require Import Prelude GoStr Parse Score Rows Lists.

#[local] Open Scope string_scope.
#[local] Open Scope Z_scope.
#[local] Open Scope list_scope.

(** ** Which episode is news *)

Record Follow := mkFollow { f_AnimeID : Z; Episodes : Z; Progress : Z; NextEpisode : Z; NextAiringAt : Z; EndDate : string }.

Definition digit (c : Ascii.ascii) : option Z :=
  let n := Z.of_nat (Ascii.nat_of_ascii c) - 48 in if (0 <=? n) && (n <=? 9) then Some n else None.

Definition leap (y : Z) : bool := (y mod 4 =? 0) && (negb (y mod 100 =? 0) || (y mod 400 =? 0)).

Definition month_days (y m : Z) : Z :=
  if m =? 2 then (if leap y then 29 else 28) else if existsb (Z.eqb m) [4; 6; 9; 11] then 30 else 31.

(** Days from 1970-01-01, by the count of days before a year and before a month. *)
Definition days_before_year (y : Z) : Z := 365 * y + (y - 1) / 4 - (y - 1) / 100 + (y - 1) / 400.

Definition days_before_month (y m : Z) : Z := foldr (fun k acc => month_days y k + acc) 0 (map Z.of_nat (seq 1 (Z.to_nat (m - 1)))).

Definition unix_day (y m d : Z) : Z := days_before_year y - days_before_year 1970 + days_before_month y m + (d - 1).

Definition dash : Ascii.ascii := Ascii.ascii_of_nat 45.

(** [time.Parse("2006-01-02", s)], its [Unix]. *)
Definition parse_date (s : string) : option Z :=
  match String.list_ascii_of_string s with
  | [a; b; c; d; h1; e; f; h2; g; k] =>
      a ← digit a; b ← digit b; c ← digit c; d ← digit d; e ← digit e; f ← digit f; g ← digit g; k ← digit k;
      let y := 1000 * a + 100 * b + 10 * c + d in
      let m := 10 * e + f in
      let day := 10 * g + k in
      if Ascii.eqb h1 dash && Ascii.eqb h2 dash && (1 <=? m) && (m <=? 12) && (1 <=? day) && (day <=? month_days y m)
      then Some (unix_day y m day * 86400) else None
  | _ => None
  end.

Definition Latest (f : Follow) (now : Z) : Z :=
  if (0 <? NextEpisode f) && (0 <? NextAiringAt f) && (NextAiringAt f <=? now) then NextEpisode f
  else if 0 <? NextEpisode f then NextEpisode f - 1
  else match parse_date (EndDate f) with
       | Some ended => if now - ended <? 7 * 24 * 3600 then Episodes f else 0
       | None => 0
       end.

Definition aired (episode nextEpisode airingAt now : Z) : bool :=
  if (nextEpisode <=? 0) || (airingAt <=? 0) || (episode <? nextEpisode) then true
  else if nextEpisode <? episode then false
  else airingAt <=? now.

Definition Aired (f : Follow) (episode now : Z) : bool := aired episode (NextEpisode f) (NextAiringAt f) now.

(** [EpisodeAired]: the catalogue's columns, [None] without a row. *)
Definition EpisodeAired (anime : option (option Z * option Z)) (episode now : Z) : bool * Z :=
  match anime with
  | Some (Some next, Some at_) => (aired episode next at_ now, at_)
  | _ => (true, 0)
  end.

Definition maxBacklog : Z := 200.

(** ** The shows watched *)

(** What [followQuery] reads of a show's row in [anime]. *)
Record schedule := mkSchedule { a_episodes : option Z; a_next : option Z; a_at : option Z; a_end : option string }.

Record sources := mkSources {
  follows : gmap Z unit; prefs_of : gmap (Z * string) string; listed : gmap Z Entry; schedules : gmap Z schedule;
}.

(** [coalesce(e.status, '') NOT IN ('COMPLETED', 'DROPPED')] *)
Definition going (t : sources) (a : Z) : bool :=
  negb (existsb (String.eqb (default "" (listed t !! a ≫= Status))) ["COMPLETED"; "DROPPED"]).

Definition watched_for (t : sources) (a : Z) : bool :=
  (bool_decide (is_Some (follows t !! a)) && going t a) ||
  (bool_decide (prefs_of t !! (a, "autodownload.enabled") = Some "true") && going t a) ||
  (existsb (String.eqb (default "" (listed t !! a ≫= Status))) ["CURRENT"; "REPEATING"] &&
   negb (bool_decide (prefs_of t !! (a, "notify.enabled") = Some "false"))).

(** The rows of a show are the same in every part of the union: a maximum over them is any of them. *)
Definition follow_row (t : sources) (a : Z) : Follow :=
  let s := schedules t !! a in
  mkFollow a (default 0 (s ≫= a_episodes)) (default 0 (Lists.Progress <$> listed t !! a)) (default 0 (s ≫= a_next)) (default 0 (s ≫= a_at))
    (default "" (s ≫= a_end)).

(** [Follows]: the groups in the order they were read. *)
Definition Follows (t : sources) (scan : list Z) : list Follow := map (follow_row t) (List.filter (watched_for t) scan).

Definition SetFollow (t : sources) (a : Z) (on : bool) : sources :=
  mkSources (if on then <[a := tt]> (follows t) else delete a (follows t)) (prefs_of t) (listed t) (schedules t).

(** ** What was dealt with *)

Record Notification := mkNotification {
  n_ID : Z; Kind : string; n_AnimeID : option Z; n_Episode : option Z; n_Title : string; Body : option string; payload : string; CreatedAt : Z; ReadAt : option Z;
}.

(** A release found, with the hash the watcher keys on. *)
Record Found := mkFound { InfoHash : string; result : Result }.

Record state := mkState {
  notified : gmap string (option Z * option Z); notifications : list Notification; sequence : Z; queue : table;
  announced : list (Follow * Z * Found); grabbed : list (Z * Z); missed : list (Z * Z);
}.

Definition nullableInt (v : Z) : option Z := if v =? 0 then None else Some v.

Definition NotifyRelease : string := "release".

Definition AddNotification (now : Z) (kind : string) (a ep : Z) (title body hash : string) (s : state) : state :=
  mkState (notified s) (notifications s ++ [mkNotification (sequence s + 1) kind (nullableInt a) (nullableInt ep) title (nullable body) hash now None])
    (sequence s + 1) (queue s) (announced s) (grabbed s) (missed s).

Definition set_notifications (s : state) (l : list Notification) : state :=
  mkState (notified s) l (sequence s) (queue s) (announced s) (grabbed s) (missed s).

Definition mark_read (now : Z) (n : Notification) : Notification :=
  mkNotification (n_ID n) (Kind n) (n_AnimeID n) (n_Episode n) (n_Title n) (Body n) (payload n) (CreatedAt n)
    (match ReadAt n with None => Some now | r => r end).

Definition MarkRead (now id : Z) (s : state) : state :=
  set_notifications s (map (fun n => if (id =? 0) || (n_ID n =? id) then mark_read now n else n) (notifications s)).

Definition UnreadCount (s : state) : Z := Z.of_nat (length (List.filter (fun n => bool_decide (ReadAt n = None)) (notifications s))).

Definition DeleteNotification (id : Z) (s : state) : state * Z :=
  let kept := if id =? 0 then [] else List.filter (fun n => negb (n_ID n =? id)) (notifications s) in
  (set_notifications s kept, Z.of_nat (length (notifications s) - length kept)).

(** A row of the episode, whichever release it is of. *)
Definition told_of (t : gmap string (option Z * option Z)) (a ep : Z) : bool :=
  existsb (fun x : string * (option Z * option Z) => bool_decide (x.2 = (Some a, Some ep))) (map_to_list t).

Definition AlreadyNotified (infoHash : string) (a ep : Z) (s : state) : bool :=
  if bool_decide (is_Some (notified s !! infoHash)) then true
  else if (a =? 0) || (ep <=? 0) then false
  else told_of (notified s) a ep.

Definition RecordNotified (infoHash : string) (a ep : Z) (s : state) : state :=
  match notified s !! infoHash with
  | Some _ => s
  | None => mkState (<[infoHash := (nullableInt a, nullableInt ep)]> (notified s)) (notifications s) (sequence s) (queue s) (announced s) (grabbed s) (missed s)
  end.

(** ** What a viewer wants announced *)

Section audio.
Context `{U : Unicode}.

Definition mentionsDub (r : Parse.Release) : bool :=
  let lower := to_lower (Raw r) in contains lower "dub" || contains lower "english audio".

Definition audioFilter (pref : string) (r : Parse.Release) : bool :=
  let p := to_lower pref in
  if String.eqb p "dub" then DualAudio r || mentionsDub r
  else if String.eqb p "either" || String.eqb p "both" then true
  else DualAudio r || negb (mentionsDub r).

(** ** A poll *)

(** What a poll's calls answer, by show: the clock in nanoseconds, the preferences, the search, and whether each write goes through. *)
Record answers := mkAnswers {
  clock : Z -> Z; prefs : option (bool * string); rows : option (list Follow); notify_pref : Z -> option bool; auto_pref : Z -> option bool;
  find : Z -> Z -> option (list Found); add_ok : Z -> bool; record_ok : Z -> bool; enqueue_ok : Z -> bool; has_queue : bool;
}.

Record WatchReport := mkReport { Checked : Z; FoundCount : Z; Notified : Z; Downloaded : Z }.

Definition release_of (x : Found) : Parse.Release := c_release (cand (result x)).

Definition usable (s : state) (a ep : Z) (x : Found) : bool :=
  AutoPick (result x) && Confirmed (cand (result x)) && negb (AlreadyNotified (InfoHash x) a ep s).

(** The first to fetch, and the first to announce. *)
Definition choose (s : state) (a ep : Z) (want : Parse.Release -> bool) (results : list Found) : option Found * option Found :=
  foldl (fun acc x =>
    if usable s a ep x
    then (match acc.1 with None => Some x | y => y end, match acc.2 with None => if want (release_of x) then Some x else None | y => y end)
    else acc) (None, None) results.

Definition log_announced (f : Follow) (now : Z) (x : Found) (s : state) : state :=
  mkState (notified s) (notifications s) (sequence s) (queue s) (announced s ++ [(f, now, x)]) (grabbed s) (missed s).
Definition log_missed (a ep : Z) (s : state) : state :=
  mkState (notified s) (notifications s) (sequence s) (queue s) (announced s) (grabbed s) (missed s ++ [(a, ep)]).
Definition set_queue (a ep : Z) (q : table) (s : state) : state :=
  mkState (notified s) (notifications s) (sequence s) q (announced s) (grabbed s ++ [(a, ep)]) (missed s).

Definition available (ep : Z) : string := ("Episode " ++ itoa ep ++ " is available")%string.

(** [notify], and whether it erred. *)
Definition notify (o : answers) (f : Follow) (now ep : Z) (x : Found) (s : state) : state * bool :=
  let a := f_AnimeID f in
  if negb (add_ok o a) then (log_missed a ep s, false)
  else
    let s := log_announced f (unix now) x (AddNotification (unix now) NotifyRelease a ep (available ep) (Score.Title (c_torrent (cand (result x)))) (InfoHash x) s) in
    if negb (record_ok o a) then (log_missed a ep s, false) else (RecordNotified (InfoHash x) a ep s, true).

Definition download (o : answers) (now a ep : Z) (s : state) : state * bool :=
  if negb (has_queue o) then (s, false)
  else if negb (enqueue_ok o a) then (s, false)
  else (set_queue a ep (Enqueue now (queue s) a 0 [ep]).1 s, true).

Definition count_if (b : bool) : Z := if b then 1 else 0.

Definition check (o : answers) (f : Follow) (now ep : Z) (notifyOn auto : bool) (want : Parse.Release -> bool) (s : state) (rep : WatchReport) : state * WatchReport :=
  let a := f_AnimeID f in
  match find o a ep with
  | None => (s, rep)
  | Some results =>
      match choose s a ep want results with
      | (None, _) => (s, rep)
      | (Some fetch, announce) =>
          let '(s, told) :=
            match (if notifyOn then announce else None) with
            | None => ((if record_ok o a then RecordNotified (InfoHash fetch) a ep s else log_missed a ep s), false)
            | Some x => notify o f now ep x s
            end in
          let '(s, queued) := if auto then download o now a ep s else (s, false) in
          (s, mkReport (Checked rep) (FoundCount rep + 1) (Notified rep + count_if told) (Downloaded rep + count_if queued))
      end
  end.

(** Whether an episode is worth looking for. *)
Definition is_news (f : Follow) (latest : Z) : bool :=
  negb ((latest <=? Progress f) || (Progress f + maxBacklog <? latest) || ((0 <? Episodes f) && (Episodes f <? latest))).

Definition consider (o : answers) (notifyOn : bool) (want : Parse.Release -> bool) (acc : state * WatchReport) (f : Follow) : state * WatchReport :=
  let '(s, rep) := acc in
  let a := f_AnimeID f in
  let auto := default false (auto_pref o a) in
  let notifyOn := default notifyOn (notify_pref o a) in
  if negb notifyOn && negb auto then (s, rep)
  else
    let rep := mkReport (Checked rep + 1) (FoundCount rep) (Notified rep) (Downloaded rep) in
    let latest := Latest f (unix (clock o a)) in
    if negb (is_news f latest) then (s, rep)
    else if AlreadyNotified "" a latest s then (s, rep)
    else check o f (clock o a) latest notifyOn auto want s rep.

Definition Poll (o : answers) (s : state) : state * option WatchReport :=
  match prefs o with
  | None => (s, None)
  | Some (notifyOn, releases) =>
      match rows o with
      | None => (s, None)
      | Some l => let r := foldl (consider o notifyOn (audioFilter releases)) (s, mkReport 0 0 0 0) l in (r.1, Some r.2)
      end
  end.

(** *** What a check does *)

Lemma choose_spec s a ep want results : choose s a ep want results =
  (head (List.filter (usable s a ep) results), head (List.filter (fun x => usable s a ep x && want (release_of x)) results)).
Proof.
  unfold choose. induction results as [|x l IH] using rev_ind; [done|].
  rewrite foldl_app, !List.filter_app, IH. cbn [foldl List.filter fst snd].
  destruct (usable s a ep x); cbn [andb]; [|by rewrite !app_nil_r].
  destruct (want (release_of x)); destruct (List.filter (usable s a ep) l), (List.filter (fun x => usable s a ep x && want (release_of x)) l); done.
Qed.

Lemma told_of_spec t a ep : told_of t a ep = true <-> exists h, t !! h = Some (Some a, Some ep).
Proof.
  unfold told_of. rewrite existsb_exists. split.
  - intros ([h v] & Hin & Hv). apply list_elem_of_In, elem_of_map_to_list in Hin. apply bool_decide_eq_true in Hv. cbn in Hv. subst v. by exists h.
  - intros [h Hh]. exists (h, (Some a, Some ep)). split; [by apply list_elem_of_In, elem_of_map_to_list|]. by apply bool_decide_eq_true.
Qed.

Lemma told_of_record t h a ep a' ep' : t !! h = None ->
  told_of (<[h := (Some a, Some ep)]> t) a' ep' = bool_decide ((a', ep') = (a, ep)) || told_of t a' ep'.
Proof.
  intros Hh. apply eq_iff_eq_true. rewrite orb_true_iff, bool_decide_eq_true, !told_of_spec. split.
  - intros [k Hk]. destruct (decide (k = h)) as [->|Hne].
    + rewrite lookup_insert_eq in Hk. left. by simplify_eq.
    + rewrite lookup_insert_ne in Hk by done. right. by exists k.
  - intros [[= -> ->]|[k Hk]]; [exists h; apply lookup_insert_eq|]. exists k. rewrite lookup_insert_ne; [done|]. intros ->. by rewrite Hh in Hk.
Qed.

Lemma usable_unseen s a ep x : usable s a ep x = true -> notified s !! InfoHash x = None.
Proof.
  unfold usable, AlreadyNotified. intros H. bool_prop. case_bool_decide as Hs; [done|]. destruct (notified s !! InfoHash x) eqn:E; [|done].
  exfalso. apply Hs. by eexists.
Qed.

(** What a check that found something leaves: the episode on record, or a write that failed. *)
Definition dealt (a ep : Z) (s s' : state) : Prop :=
  (missed s' = missed s ++ [(a, ep)] /\ notified s' = notified s) \/
  (missed s' = missed s /\ exists h, notified s !! h = None /\ notified s' = <[h := (Some a, Some ep)]> (notified s)).

Definition told_well (f : Follow) (now : Z) (want : Parse.Release -> bool) (x : Found) : Prop :=
  AutoPick (result x) = true /\ Confirmed (cand (result x)) = true /\ want (release_of x) = true.

Lemma RecordNotified_dealt a ep x s s0 : a <> 0 -> ep <> 0 -> notified s !! InfoHash x = None -> notified s = notified s0 -> missed s = missed s0 ->
  dealt a ep s0 (RecordNotified (InfoHash x) a ep s).
Proof.
  intros Ha He Hx Hn Hm. right. unfold RecordNotified. rewrite Hx. cbn [missed notified]. split; [done|]. exists (InfoHash x). rewrite <-Hn. split; [done|].
  unfold nullableInt. by destruct (Z.eqb_spec a 0), (Z.eqb_spec ep 0).
Qed.

Lemma check_effect o f now ep notifyOn auto want s rep : f_AnimeID f <> 0 -> ep <> 0 ->
  let s' := (check o f now ep notifyOn auto want s rep).1 in
  s' = s \/ exists la lg, dealt (f_AnimeID f) ep s s' /\ announced s' = announced s ++ la /\ grabbed s' = grabbed s ++ lg /\
    (la = [] \/ exists x, la = [(f, unix now, x)] /\ notifyOn = true /\ told_well f now want x) /\
    (lg = [] \/ lg = [(f_AnimeID f, ep)] /\ auto = true).
Proof.
  intros Ha He. cbn zeta. unfold check. set (a := f_AnimeID f) in *. destruct (find o a ep) as [results|]; [|by left].
  rewrite choose_spec. destruct (head (List.filter (usable s a ep) results)) as [fetch|] eqn:Hf; [|by left]. right.
  assert (Hfetch : notified s !! InfoHash fetch = None).
  { destruct (List.filter (usable s a ep) results) as [|y l] eqn:E; [done|]. injection Hf as ->.
    assert (Hin : In fetch (List.filter (usable s a ep) results)) by (rewrite E; by left). apply filter_In in Hin as [_ Hu]. by apply usable_unseen in Hu. }
  set (pick := if notifyOn then _ else _).
  assert (Hpick : forall x, pick = Some x -> notified s !! InfoHash x = None /\ notifyOn = true /\ told_well f now want x).
  { intros x Hx. unfold pick in Hx. destruct notifyOn; [|done].
    destruct (List.filter (fun x => usable s a ep x && want (release_of x)) results) as [|y l] eqn:E; [done|]. injection Hx as ->.
    assert (Hin : In x (List.filter (fun x => usable s a ep x && want (release_of x)) results)) by (rewrite E; by left).
    apply filter_In in Hin as [_ Hu]. apply andb_true_iff in Hu as [Hu Hw]. pose proof (usable_unseen _ _ _ _ Hu). unfold usable in Hu. by bool_prop. }
  clearbody pick.
  assert (Hfirst : exists s1 told la, match pick with None => ((if record_ok o a then RecordNotified (InfoHash fetch) a ep s else log_missed a ep s), false)
      | Some x => notify o f now ep x s end = (s1, told) /\ dealt a ep s s1 /\ announced s1 = announced s ++ la /\ grabbed s1 = grabbed s /\
      (la = [] \/ exists x, la = [(f, unix now, x)] /\ notifyOn = true /\ told_well f now want x)).
  { destruct pick as [x|].
    - destruct (Hpick x eq_refl) as (Hx & Hon & Hw). unfold notify. fold a. destruct (add_ok o a); cbn [negb].
      + destruct (record_ok o a); cbn [negb]; do 3 eexists; (split; [reflexivity|]).
        * split; [by apply RecordNotified_dealt|]. unfold RecordNotified. cbn [log_announced AddNotification notified]. rewrite Hx. cbn. split; [reflexivity|]. split; [done|]. right. eauto.
        * split; [by left|]. cbn. split; [reflexivity|]. split; [done|]. right. eauto.
      + do 3 eexists. split; [reflexivity|]. split; [by left|]. cbn. split; [by rewrite app_nil_r|]. eauto.
    - destruct (record_ok o a); do 3 eexists; (split; [reflexivity|]).
      + split; [by apply RecordNotified_dealt|]. unfold RecordNotified. rewrite Hfetch. cbn. split; [by rewrite app_nil_r|]. eauto.
      + split; [by left|]. cbn. split; [by rewrite app_nil_r|]. eauto. }
  destruct Hfirst as (s1 & told & la & -> & Hd & Hl & Hg & Hla).
  assert (Hsecond : exists s2 queued lg, (if auto then download o now a ep s1 else (s1, false)) = (s2, queued) /\ missed s2 = missed s1 /\ notified s2 = notified s1 /\
      announced s2 = announced s1 /\ grabbed s2 = grabbed s1 ++ lg /\ (lg = [] \/ lg = [(a, ep)] /\ auto = true)).
  { assert (Hno : exists s2 queued lg, (s1, false) = (s2, queued) /\ missed s2 = missed s1 /\ notified s2 = notified s1 /\
      announced s2 = announced s1 /\ grabbed s2 = grabbed s1 ++ lg /\ (lg = [] \/ lg = [(a, ep)] /\ auto = true)).
    { exists s1, false, []. rewrite app_nil_r. split_and!; auto. }
    unfold download. destruct auto; [|done]. destruct (has_queue o); [|done]. destruct (enqueue_ok o a); [|done]. cbn [negb].
    eexists _, _, [(a, ep)]. split; [reflexivity|]. split_and!; auto. }
  destruct Hsecond as (s2 & queued & lg & -> & Hm & Hn & Hl2 & Hg2 & Hlg). cbn [fst].
  exists la, lg. split; [|split; [by rewrite Hl2, Hl|split; [by rewrite Hg2, Hg|done]]]. unfold dealt in *. by rewrite Hm, Hn.
Qed.

(** A check whose search finds a release to announce announces the first such, and the next poll finds the episode dealt with. *)
Lemma check_tells o f now ep auto want s rep results x : f_AnimeID f <> 0 -> 0 < ep -> find o (f_AnimeID f) ep = Some results ->
  head (List.filter (fun x => usable s (f_AnimeID f) ep x && want (release_of x)) results) = Some x ->
  add_ok o (f_AnimeID f) = true -> record_ok o (f_AnimeID f) = true ->
  let s' := (check o f now ep true auto want s rep).1 in
  announced s' = announced s ++ [(f, unix now, x)] /\ AlreadyNotified "" (f_AnimeID f) ep s' = true /\
  Notified (check o f now ep true auto want s rep).2 = Notified rep + 1.
Proof.
  intros Ha Hep Hfind Hx Hadd Hrec. cbn zeta. unfold check. rewrite Hfind, choose_spec, Hx. set (a := f_AnimeID f) in *.
  assert (Hin : In x (List.filter (fun x => usable s a ep x && want (release_of x)) results)) by (destruct (List.filter _ results); [done|injection Hx as ->; by left]).
  apply filter_In in Hin as [Hin Hu]. apply andb_true_iff in Hu as [Hu Hw]. pose proof (usable_unseen _ _ _ _ Hu) as Hun.
  assert (Hfetch : exists y, head (List.filter (usable s a ep) results) = Some y).
  { assert (Hi : In x (List.filter (usable s a ep) results)) by (by apply filter_In). destruct (List.filter (usable s a ep) results); [done|by eexists]. }
  destruct Hfetch as [y ->]. unfold notify. fold a. rewrite Hadd, Hrec. cbn [negb].
  set (s1 := RecordNotified _ _ _ _).
  assert (H1 : announced s1 = announced s ++ [(f, unix now, x)]) by (unfold s1, RecordNotified; cbn [log_announced AddNotification notified]; by rewrite Hun).
  assert (H2 : notified s1 = <[InfoHash x := (nullableInt a, nullableInt ep)]> (notified s)) by (unfold s1, RecordNotified; cbn [log_announced AddNotification notified]; by rewrite Hun).
  clearbody s1.
  assert (Hdone : forall s', notified s' = <[InfoHash x := (nullableInt a, nullableInt ep)]> (notified s) -> AlreadyNotified "" a ep s' = true).
  { intros s' Hs'. unfold AlreadyNotified. case_bool_decide; [done|]. destruct (Z.eqb_spec a 0); [done|]. destruct (Z.leb_spec ep 0); [lia|]. cbn [orb].
    rewrite Hs'. apply told_of_spec. exists (InfoHash x). rewrite lookup_insert_eq. unfold nullableInt. by destruct (Z.eqb_spec a 0), (Z.eqb_spec ep 0); try lia. }
  destruct auto; [unfold download; destruct (has_queue o), (enqueue_ok o a)|]; cbn; split_and!; auto.
Qed.

(** ** Every state the program can reach *)

Definition times (k : Z * Z) (l : list (Z * Z)) : nat := length (List.filter (fun x => bool_decide (x = k)) l).

Definition key_told (x : Follow * Z * Found) : Z * Z := (f_AnimeID x.1.1, Latest x.1.1 x.1.2).

(** A row of the query: a show's id, and a progress that is a count. *)
Definition well_read (f : Follow) : Prop := f_AnimeID f <> 0 /\ 0 <= Progress f.

(** Polls, and what the rest of the program does to the notifications and the queue. *)
Inductive reachable : state -> Prop :=
| opens s : announced s = [] -> grabbed s = [] -> missed s = [] -> reachable s
| polls s o : reachable s -> (forall l, rows o = Some l -> Forall well_read l) -> reachable (Poll o s).1
| others s l n q : reachable s -> reachable (mkState (notified s) l n q (announced s) (grabbed s) (missed s)).

Definition good (x : Follow * Z * Found) : Prop :=
  let ep := Latest x.1.1 x.1.2 in
  Aired x.1.1 ep x.1.2 = true /\ is_news x.1.1 ep = true /\ AutoPick (result x.2) = true /\ Confirmed (cand (result x.2)) = true.

Definition on_record (s : state) (k : Z * Z) : nat := if told_of (notified s) k.1 k.2 then 1 else 0.

Definition fair (s : state) : Prop :=
  (forall k, k.1 <> 0 -> 0 < k.2 ->
    (times k (map key_told (announced s)) <= on_record s k + times k (missed s))%nat /\ (times k (grabbed s) <= on_record s k + times k (missed s))%nat) /\
  Forall good (announced s).

Lemma count_app k l1 l2 : times k (l1 ++ l2) = (times k l1 + times k l2)%nat.
Proof. unfold times. by rewrite List.filter_app, length_app. Qed.

Lemma times_one k x : times k [x] = if bool_decide (x = k) then 1%nat else 0%nat.
Proof. unfold times. cbn. by case_bool_decide. Qed.

(** The episode that aired last has aired. *)
Lemma Latest_aired f now : 0 < Latest f now -> Aired f (Latest f now) now = true.
Proof.
  unfold Latest, Aired, aired. intros H.
  destruct (Z.ltb_spec 0 (NextEpisode f)); destruct (Z.ltb_spec 0 (NextAiringAt f)); destruct (Z.leb_spec (NextAiringAt f) now); cbn [andb] in *;
    destruct (Z.leb_spec (NextEpisode f) 0); destruct (Z.leb_spec (NextAiringAt f) 0); cbn [orb]; try lia; try done;
    repeat case_match; bool_prop; lia.
Qed.

Lemma consider_fair o notifyOn want s rep f : well_read f -> fair s -> fair (consider o notifyOn want (s, rep) f).1.
Proof.
  intros [Ha Hp] Hs. unfold consider. destruct (negb _ && negb _); [done|]. set (now := clock o (f_AnimeID f)). set (ep := Latest f (unix now)).
  destruct (is_news f ep) eqn:Hnews; cbn [negb]; [|done]. destruct (AlreadyNotified "" (f_AnimeID f) ep s) eqn:Hseen; [done|].
  assert (Hep : 0 < ep) by (unfold is_news in Hnews; bool_prop; lia).
  assert (Hnot : told_of (notified s) (f_AnimeID f) ep = false).
  { unfold AlreadyNotified in Hseen. case_bool_decide; [done|]. destruct (Z.eqb_spec (f_AnimeID f) 0); [done|]. by destruct (Z.leb_spec ep 0); [lia|]. }
  set (rep1 := mkReport _ _ _ _). set (auto := default false _). set (on := default notifyOn _).
  destruct (check_effect o f now ep on auto want s rep1 Ha ltac:(lia)) as [->|(la & lg & Hd & Hl & Hg & Hla & Hlg)]; [done|].
  set (s' := (check o f now ep on auto want s rep1).1) in *. clearbody s'. destruct Hs as [Hc Hgood]. split.
  - intros [a' ep'] Ha' Hep'. specialize (Hc (a', ep') Ha' Hep'). rewrite Hl, Hg, map_app, !count_app.
    assert (H1 : (times (a', ep') (map key_told la) <= if bool_decide ((a', ep') = (f_AnimeID f, ep)) then 1 else 0)%nat).
    { destruct Hla as [->|(x & -> & _)]; [cbn; lia|]. cbn [map]. rewrite times_one. unfold key_told. cbn [fst snd]. fold ep. repeat case_bool_decide; congruence || lia. }
    assert (H2 : (times (a', ep') lg <= if bool_decide ((a', ep') = (f_AnimeID f, ep)) then 1 else 0)%nat).
    { destruct Hlg as [->|[-> _]]; [cbn; lia|]. rewrite times_one. repeat case_bool_decide; congruence || lia. }
    unfold on_record in *. cbn [fst snd] in *. destruct Hd as [[-> ->]|(-> & h & Hh & ->)].
    + rewrite count_app, times_one. case_bool_decide as E; [|case_bool_decide; [congruence|lia]]. simplify_eq. rewrite Hnot in *. rewrite bool_decide_eq_true_2 by done. lia.
    + rewrite told_of_record by done. case_bool_decide as E; cbn [orb]; [|lia]. simplify_eq. rewrite Hnot in *. lia.
  - rewrite Hl. apply Forall_app. split; [done|]. destruct Hla as [->|(x & -> & _ & H1 & H2 & _)]; [constructor|].
    repeat constructor; cbn [fst snd]; fold ep; auto. by apply Latest_aired.
Qed.

Lemma Poll_fair o s : (forall l, rows o = Some l -> Forall well_read l) -> fair s -> fair (Poll o s).1.
Proof.
  intros Hrows Hs. unfold Poll. destruct (prefs o) as [[on releases]|]; [|done]. destruct (rows o) as [l|] eqn:E; [|done].
  specialize (Hrows l eq_refl). cbn [fst]. generalize (mkReport 0 0 0 0) as rep. intros rep. clear E. revert s rep Hs.
  induction Hrows as [|f l Hf _ IH]; intros s rep Hs; [done|]. cbn [foldl].
  pose proof (consider_fair o on (audioFilter releases) s rep f Hf Hs) as Hc. destruct (consider _ _ _ _ _) as [s1 rep1]. by apply IH.
Qed.

Lemma reachable_fair s : reachable s -> fair s.
Proof.
  induction 1 as [s H1 H2 H3|s o Hs IH Hrows|s l n q Hs IH].
  - unfold fair. rewrite H1, H2, H3. split; [|constructor]. intros k _ _. cbn. lia.
  - by apply Poll_fair.
  - exact IH.
Qed.

End audio.

(** ** Runs *)

Definition offer (hash raw : string) : Found :=
  mkFound hash (mkResult (mkCandidate (mkTorrent raw 700000000 40 true "" false)
    (Parse.mkRelease raw "Show" "Group" 0 0 7 0 0 "1080p" "" "" 0 [] false [] false false "" "mkv") false false 12 24 true false None false)
    Score.zero [] true true "" [] Score.zero false).

(** A show of twelve whose seventh episode aired, watched to the sixth. *)
Definition airing : Follow := mkFollow 1 12 6 8 2000000 "".

Definition poll_finds (pref : string) (l : list Found) : answers :=
  mkAnswers (fun _ => 1000000 * 1000000000) (Some (true, pref)) (Some [airing]) (fun _ => Some true) (fun _ => Some true)
    (fun _ _ => Some l) (fun _ => true) (fun _ => true) (fun _ => true) true.

Definition new_install : state := mkState ∅ [] 0 ∅ [] [] [].

Definition subbed : Found := offer "aa" "[Group] Show - 07 [1080p].mkv".
Definition dubbed : Found := offer "bb" "[Group] Show - 07 [English Dub].mkv".

#[local] Existing Instance ascii_unicode.

Definition polled_twice : state := (Poll (poll_finds "sub" [subbed; offer "cc" "[Other] Show - 07.mkv"]) (Poll (poll_finds "sub" [subbed]) new_install).1).1.


(** The viewer wants dubs.  The subbed release comes first and puts the episode on record; the dub, when it comes, is never announced. *)
Example dub_never_told :
  announced (Poll (poll_finds "dub" [subbed; dubbed]) (Poll (poll_finds "dub" [subbed]) new_install).1).1 = [] /\
  map (fun x => InfoHash x.2) (announced (Poll (poll_finds "dub" [subbed; dubbed]) new_install).1) = ["bb"].
Proof. by vm_compute. Qed.

Example a_date : parse_date "2024-02-29" = Some 1709164800 /\ parse_date "2023-02-29" = None /\ parse_date "1970-01-01" = Some 0 /\ parse_date "" = None.
Proof. by vm_compute. Qed.
