(* ===== verification/Catalogue.v ===== *)
(** * The catalogue of episodes: internal/store/episodes.go

    What the sources say of a show's episodes, layered into the table [episode], with the classification of fillers
    and recaps beside it; the list the pages show, and which episode is next.  Statements succeed, a transaction is one step;
    every insert states the number with the key, so a row's number is never null. *)
From stdpp Require Import base gmap strings list.
From Stdlib Require Import ZArith Lia Floats.SpecFloat Sorted Permutation.
From S2P Require Import Episode.
From S2P Require Import Prelude GoStr Decimal Float64 Rows Watch Watcher.

#[local] Open Scope string_scope.
#[local] Open Scope Z_scope.
#[local] Open Scope list_scope.

(** ** Tables *)

Record Row := mkRow {
  number : Z; tvdb_number : option Z; absolute : option Z; season_number : option Z; is_special : bool; title_en : option string;
  title_ja : option string; overview : option string; still_url : option string; air_date : option Z; runtime : option Z; anidb_eid : option Z;
}.

Abbreviation episodes := (gmap (Z * string) Row).

(** [metadata.Episode], as the sources give it. *)
Record Told := mkTold {
  Number : Z; TvdbNumber : Z; Absolute : Z; Season : Z; TitleEN : string; TitleJA : string; Overview : string; Image : string;
  AirDate : Z; Runtime : Z; AniDBID : Z;
}.

Definition nullableInt64 (v : Z) : option Z := if v =? 0 then None else Some v.

(** SQL's [coalesce] of two. *)
Definition coalesce {A} (a b : option A) : option A := match a with Some _ => a | None => b end.

(** ** What the sources write *)

(** [INSERT ... ON CONFLICT DO UPDATE]: the row made of what was there. *)
Definition upsert {K A} `{Countable K} {V} (key : A -> K) (row : A -> option V -> V) (t : gmap K V) (e : A) : gmap K V := <[key e := row e (t !! key e)]> t.

Definition key_of (a : Z) (e : Told) : Z * string := (a, itoa (Number e)).

Definition saved (e : Told) (old : option Row) : Row :=
  let new := mkRow (Number e) (nullableInt (TvdbNumber e)) (nullableInt (Absolute e)) (nullableInt (Season e)) false (nullable (TitleEN e))
               (nullable (TitleJA e)) (nullable (Overview e)) (nullable (Image e)) (nullableInt64 (AirDate e)) (nullableInt (Runtime e)) (nullableInt (AniDBID e)) in
  match old with
  | None => new
  | Some r => mkRow (number r) (tvdb_number new) (absolute new) (season_number r) (is_special r) (coalesce (title_en new) (title_en r))
                (coalesce (title_ja new) (title_ja r)) (coalesce (overview new) (overview r)) (coalesce (still_url new) (still_url r))
                (coalesce (air_date new) (air_date r)) (coalesce (runtime new) (runtime r)) (anidb_eid r)
  end.

(** The rows of the show that the source no longer numbers. *)
Definition stale (a : Z) (eps : list Told) (k : Z * string) (r : Row) : bool :=
  (k.1 =? a) && negb (is_special r) && negb (existsb (fun e => String.eqb (itoa (Number e)) k.2) eps).

Definition SaveEpisodes (a : Z) (eps : list Told) (t : episodes) : episodes * Z :=
  if bool_decide (eps = []) then (t, 0)
  else (filter (fun x : (Z * string) * Row => stale a eps x.1 x.2 = false) (foldl (upsert (key_of a) saved) t eps), Z.of_nat (length eps)).

Definition countable (n : Z) : bool := negb ((n <=? 0) || (5000 <? n)).

Definition derived (n : Z) (old : option Row) : Row := default (mkRow n None None None false None None None None None None None) old.

Definition SaveDerivedEpisodes (a : Z) (numbers : list Z) (t : episodes) : episodes * Z :=
  let ns := List.filter countable numbers in (foldl (upsert (fun n => (a, itoa n)) derived) t ns, Z.of_nat (length ns)).

Definition filled (e : Told) (old : option Row) : Row :=
  let new := mkRow (Number e) None None None false (nullable (TitleEN e)) (nullable (TitleJA e)) (nullable (Overview e)) None
               (nullableInt64 (AirDate e)) (nullableInt (Runtime e)) None in
  match old with
  | None => new
  | Some r => mkRow (number r) (tvdb_number r) (absolute r) (season_number r) (is_special r) (coalesce (title_en r) (title_en new))
                (coalesce (title_ja r) (title_ja new)) (coalesce (overview r) (overview new)) (still_url r)
                (coalesce (air_date r) (air_date new)) (coalesce (runtime r) (runtime new)) (anidb_eid r)
  end.

Definition FillEpisodes (a : Z) (eps : list Told) (t : episodes) : episodes * Z :=
  let l := List.filter (fun e => countable (Number e)) eps in (foldl (upsert (key_of a) filled) t l, Z.of_nat (length l)).

(** [still_url IS NULL OR still_url = ''] *)
Definition lacks (s : option string) : bool := match s with None => true | Some u => String.eqb u "" end.

Definition with_still (url : string) (r : Row) : Row :=
  mkRow (number r) (tvdb_number r) (absolute r) (season_number r) (is_special r) (title_en r) (title_ja r) (overview r)
    (if lacks (still_url r) then Some url else still_url r) (air_date r) (runtime r) (anidb_eid r).

(** The stills by number, in the order the map was walked; how many found a row is not modelled. *)
Definition SetEpisodeStills (a : Z) (stills : list (Z * string)) (t : episodes) : episodes :=
  foldl (fun t x => map_imap (fun (k : Z * string) r => Some (if (k.1 =? a) && (number r =? x.1) then with_still x.2 r else r)) t) t stills.

(** ** Fillers and recaps *)

Record Filler := mkFiller { kind : string; user_kind : option string; source : string; recap : bool; recap_source : option string }.

Abbreviation fillers := (gmap (Z * Z) Filler).

(** [metadata.Filler] and [metadata.EpisodeFlags]. *)
Record FillerRow := mkFillerRow { MalID : Z; fl_Episode : Z; fl_Kind : string }.
Record EpisodeFlags := mkFlags { ef_Episode : Z; ef_Filler : bool; ef_Recap : bool }.

Definition SaveFillers (l : list FillerRow) (t : fillers) : fillers :=
  foldl (fun t f =>
    let k := (MalID f, fl_Episode f) in
    <[k := match t !! k with
           | None => mkFiller (fl_Kind f) None "anifiller" false None
           | Some r => mkFiller (fl_Kind f) (user_kind r) "anifiller" (recap r) (recap_source r)
           end]> t) t l.

Definition unclassified (k : string) : bool := String.eqb k "" || String.eqb k "unknown".

Definition classifies (f : FillerRow) : bool := negb ((fl_Episode f =? 0) || String.eqb (fl_Kind f) "" || String.eqb (fl_Kind f) "unknown").

Definition SaveFillerGaps (malID : Z) (l : list FillerRow) (t : fillers) : fillers * Z :=
  if malID =? 0 then (t, 0)
  else
    let l := List.filter classifies l in
    (foldl (fun t f =>
       let k := (malID, fl_Episode f) in
       <[k := match t !! k with
              | None => mkFiller (fl_Kind f) None "animefillerlist" false None
              | Some r => if unclassified (kind r) then mkFiller (fl_Kind f) (user_kind r) "animefillerlist" (recap r) (recap_source r) else r
              end]> t) t l, Z.of_nat (length l)).

Definition SaveFlags (malID : Z) (l : list EpisodeFlags) (t : fillers) : fillers * Z :=
  if malID =? 0 then (t, 0)
  else
    (foldl (fun t f =>
       let k := (malID, ef_Episode f) in
       let new := if ef_Filler f then "filler" else "unknown" in
       <[k := match t !! k with
              | None => mkFiller new None "jikan" (ef_Recap f) (Some "jikan")
              | Some r => mkFiller (if unclassified (kind r) then new else kind r) (user_kind r) (source r) (ef_Recap f) (Some "jikan")
              end]> t) t l, Z.of_nat (length (List.filter ef_Recap l))).

(** ** What the list and the player read *)

(** The show's row in [anime] and in the corpus. *)
Record show := mkShow {
  mal_id : option Z; episode_count : option Z; corpus_count : option (option Z); status : string; format : option string; description : option string;
  art : option string; duration : option Z; next_episode : Z; next_airing_at : Z;
}.

Definition EpisodeCount (s : show) : Z :=
  default 0 (match corpus_count s with Some c => coalesce (episode_count s) c | None => episode_count s end).

Record reading := mkReading {
  rows_of : episodes; fillers_of : fillers; show_of : show; progress : Z; played : gmap (Z * string) Play; cached : Z * string -> bool;
  on_shelf : Z -> bool; threshold : f64; plain : string -> string;
}.

Record EpisodeRow := mkEpisode {
  e_key : string; e_number : Z; e_absolute : option Z; e_title_en : option string; e_title_ja : option string; e_overview : option string;
  e_still : option string; e_air : option Z; e_runtime : option Z; Display : Z; Planned : bool; e_filler : string; e_recap : bool;
  e_watched : bool; e_position : f64; e_duration : f64; Resumable : bool; OnDisk : bool; Local : bool;
}.

Definition filler_at (d : reading) (n : Z) : option Filler := mal_id (show_of d) ≫= fun m => fillers_of d !! (m, n).

(** [coalesce(f.user_kind, f.kind, '')] *)
Definition kind_of (f : option Filler) : string := default "" (f ≫= fun f => coalesce (user_kind f) (Some (kind f))).

Definition listed_row (d : reading) (a : Z) (key : string) (r : Row) : EpisodeRow :=
  let f := filler_at d (number r) in
  let p := played d !! (a, key) in
  let watched := default false (p_watched <$> p) || (number r <=? progress d) in
  let position := default Watch.zero (position_s <$> p) in
  let dur := default Watch.zero (p ≫= duration_s) in
  mkEpisode key (number r) (absolute r) (title_en r) (title_ja r) (overview r) (still_url r) (air_date r) (runtime r) (number r) false
    (kind_of f) (default false (recap <$> f)) watched position dur (resumable position dur watched (threshold d)) (cached d (a, key)) (on_shelf d (number r)).

(** [WHERE e.anime_id = ? ORDER BY e.number] *)
Definition rows_for (a : Z) (t : episodes) : list (string * Row) :=
  sort_by (fun x y : string * Row => number x.2 <? number y.2)
    (omap (fun x : (Z * string) * Row => if x.1.1 =? a then Some (x.1.2, x.2) else None) (map_to_list t)).

Definition planned_row (d : reading) (n : Z) : EpisodeRow :=
  mkEpisode (itoa n) n None None None None None None None n true "" false false Watch.zero Watch.zero false false (on_shelf d n).

Fixpoint upto (fuel : nat) (n first last total : Z) : list Z :=
  match fuel with
  | O => []
  | S fuel => if (n - first + 1 <=? total) && (n - last <=? 5000) then n :: upto fuel (n + 1) first last total else []
  end.

Definition padToCount (d : reading) (out : list EpisodeRow) : list EpisodeRow :=
  if existsb (fun e => negb (bool_decide (e_title_en e = None)) || negb (bool_decide (e_air e = None))) out then out
  else match head out, list.last out with
       | Some f, Some l => out ++ map (planned_row d) (upto (Z.to_nat 5001) (e_number l + 1) (e_number f) (e_number l) (default 0 (episode_count (show_of d))))
       | _, _ => out
       end.

Definition plannedEpisodes (d : reading) (a : Z) : list EpisodeRow :=
  let total := Z.min (EpisodeCount (show_of d)) 5000 in
  map (fun i =>
    let n := Z.of_nat i in
    let key := itoa n in
    let p := played d !! (a, key) in
    let position := default Watch.zero (position_s <$> p) in
    let dur := default Watch.zero (p ≫= duration_s) in
    let seen := default false (p_watched <$> p) in
    mkEpisode key n None None None None None None None n true "" false (seen || (n <=? progress d)) position dur
      (bool_decide (is_Some p) && resumable position dur seen (threshold d)) (cached d (a, key)) (on_shelf d n))
    (seq 1 (Z.to_nat total)).

(** An overview without its markup is [plain]: regular expressions and HTML's table of entities. *)
Definition asItself (d : reading) (out : list EpisodeRow) : list EpisodeRow :=
  match out with
  | [row] =>
      if negb (bool_decide (episode_count (show_of d) = Some 1)) then out
      else
        let s := show_of d in
        [mkEpisode (e_key row) (e_number row) (e_absolute row)
           (if bool_decide (e_title_en row = None) && bool_decide (e_title_ja row = None) && bool_decide (format s = Some "MOVIE") then Some "Complete Movie" else e_title_en row)
           (e_title_ja row)
           (if lacks (e_overview row) then match description s with
                                           | Some t => if String.eqb (plain d t) "" then e_overview row else Some (plain d t)
                                           | None => e_overview row
                                           end else e_overview row)
           (if lacks (e_still row) then art s else e_still row) (e_air row)
           (coalesce (e_runtime row) (duration s)) (Display row) (if String.eqb (status s) "NOT_YET_RELEASED" then Planned row else false)
           (e_filler row) (e_recap row) (e_watched row) (e_position row) (e_duration row) (Resumable row) (OnDisk row) (Local row)]
  | _ => out
  end.

Definition Episodes (d : reading) (a : Z) : list EpisodeRow :=
  match rows_for a (rows_of d) with
  | [] => asItself d (plannedEpisodes d a)
  | l => asItself d (padToCount d (map (fun x => listed_row d a x.1 x.2) l))
  end.

(** ** The next episode *)

(** Numbered, past [after], and neither a filler nor a recap. *)
Definition worth (d : reading) (a after : Z) (x : (Z * string) * Row) : bool :=
  (x.1.1 =? a) && negb (is_special x.2) && (after <? number x.2) &&
  negb (String.eqb (kind_of (filler_at d (number x.2))) "filler") && negb (default false (recap <$> filler_at d (number x.2))).

Definition smallest (l : list Z) : option Z := foldr (fun n acc => Some (match acc with Some m => Z.min n m | None => n end)) None l.

Definition last_number (a : Z) (t : episodes) : Z :=
  default 0 (foldr (fun n acc => Some (match acc with Some m => Z.max n m | None => n end)) None
    (map (fun x : (Z * string) * Row => number x.2) (List.filter (fun x : (Z * string) * Row => (x.1.1 =? a) && negb (is_special x.2)) (map_to_list t)))).

Definition onceAired (s : show) (now ep : Z) : Z := if aired ep (next_episode s) (next_airing_at s) now then ep else 0.

Definition NextEpisode (d : reading) (skip_filler : bool) (now a after : Z) : Z :=
  let total := EpisodeCount (show_of d) in
  if negb skip_filler then if (0 <? total) && (total <? after + 1) then 0 else onceAired (show_of d) now (after + 1)
  else
    let next := match smallest (map (fun x : (Z * string) * Row => number x.2) (List.filter (worth d a after) (map_to_list (rows_of d)))) with
                | Some n => n
                | None => Z.max (last_number a (rows_of d)) after + 1
                end in
    if (0 <? total) && (total <? next) then 0 else onceAired (show_of d) now next.

(** ** Other numbers of an episode *)

(** The catalogue's answer, as the numbering of [Episode] takes it. *)
Definition alias_of (t : episodes) (a ep : Z) : Episode.EpisodeAlias :=
  match t !! (a, itoa ep) with
  | None => Episode.mkAlias 0 0 false false
  | Some r =>
      let other v := match v with Some n => if n =? ep then 0 else n | None => 0 end in
      Episode.mkAlias (other (tvdb_number r)) (other (absolute r)) (bool_decide (is_Some (tvdb_number r))) (bool_decide (is_Some (absolute r)))
  end.

(** ** Layering *)

Section upserts.
Context {K A V : Type} `{Countable K} (key : A -> K) (row : A -> option V -> V).

Lemma upsert_other l : forall (t : gmap K V) k, (forall e, e ∈ l -> key e <> k) -> foldl (upsert key row) t l !! k = t !! k.
Proof using Type.
  induction l as [|e l IH]; intros t k Hk; [done|]. cbn [foldl]. rewrite IH by (intros e' He'; apply Hk; by right).
  unfold upsert. apply lookup_insert_ne, Hk. by left.
Qed.

Lemma upsert_there l : forall (t : gmap K V) e, NoDup (map key l) -> e ∈ l -> foldl (upsert key row) t l !! key e = Some (row e (t !! key e)).
Proof using Type.
  induction l as [|x l IH]; intros t e Hn He; [by apply elem_of_nil in He|]. cbn [map foldl] in *. apply NoDup_cons in Hn as [Hx Hn].
  assert (Hother : forall e', e' ∈ l -> key e' <> key x) by (intros e' He' Heq; apply Hx; rewrite <-Heq; by apply list_elem_of_fmap_2).
  apply elem_of_cons in He as [->|He].
  - rewrite upsert_other by done. unfold upsert. apply lookup_insert_eq.
  - rewrite IH by done. unfold upsert. rewrite lookup_insert_ne; [done|]. intros Heq. by apply (Hother e He).
Qed.

(** A property of rows, and one between what was and what is, go through every upsert. *)
Lemma upsert_rows (P : K -> V -> Prop) l : (forall e old, e ∈ l -> (forall v, old = Some v -> P (key e) v) -> P (key e) (row e old)) ->
  forall t : gmap K V, (forall k v, t !! k = Some v -> P k v) -> forall k v, foldl (upsert key row) t l !! k = Some v -> P k v.
Proof using Type.
  induction l as [|e l IH]; intros Hrow t Ht; [done|]. cbn [foldl]. apply IH; [intros e' old He'; apply Hrow; by right|].
  intros k v. unfold upsert. destruct (decide (key e = k)) as [<-|Hne].
  - rewrite lookup_insert_eq. intros [= <-]. apply Hrow; [by left|]. intros v Hv. by apply Ht.
  - rewrite lookup_insert_ne by done. apply Ht.
Qed.

Lemma upsert_keeps (R : V -> V -> Prop) `{!Reflexive R} `{!Transitive R} l : (forall e v, R v (row e (Some v))) ->
  forall (t : gmap K V) k v, t !! k = Some v -> exists v', foldl (upsert key row) t l !! k = Some v' /\ R v v'.
Proof using Type.
  intros Hrow. induction l as [|e l IH]; intros t k v Hv; [by exists v|]. cbn [foldl]. unfold upsert at 2.
  destruct (decide (key e = k)) as [<-|Hne].
  - destruct (IH (<[key e := row e (t !! key e)]> t) (key e) (row e (t !! key e))) as (v' & Hv' & HR); [apply lookup_insert_eq|].
    exists v'. split; [done|]. rewrite Hv in HR. by etrans; [apply Hrow|].
  - apply IH. by rewrite lookup_insert_ne.
Qed.
End upserts.

Lemma itoa_inj n m : itoa n = itoa m -> n = m.
Proof. intros H. pose proof (int_text_itoa n) as Hn. rewrite H, int_text_itoa in Hn. by injection Hn. Qed.

(** A row's key is its number. *)
Definition keyed (k : Z * string) (r : Row) : Prop := k.2 = itoa (number r).
Definition well_keyed (t : episodes) : Prop := forall k r, t !! k = Some r -> keyed k r.

(** What is known stays as it is. *)
Definition stays {A} (x y : option A) : Prop := match x with Some _ => y = x | None => True end.

Definition keeps_row (r r' : Row) : Prop :=
  number r' = number r /\ tvdb_number r' = tvdb_number r /\ absolute r' = absolute r /\ season_number r' = season_number r /\ is_special r' = is_special r /\
  anidb_eid r' = anidb_eid r /\ stays (title_en r) (title_en r') /\ stays (title_ja r) (title_ja r') /\ stays (overview r) (overview r') /\
  (lacks (still_url r) = false -> still_url r' = still_url r) /\ stays (air_date r) (air_date r') /\ stays (runtime r) (runtime r').

Definition keeps (t t' : episodes) : Prop := forall k r, t !! k = Some r -> exists r', t' !! k = Some r' /\ keeps_row r r'.

Lemma stays_refl {A} (x : option A) : stays x x.
Proof. by destruct x. Qed.

Lemma stays_trans {A} (x y z : option A) : stays x y -> stays y z -> stays x z.
Proof. destruct x; [|done]. cbn. by intros ->. Qed.

Lemma stays_coalesce {A} (x y : option A) : stays x (coalesce x y).
Proof. by destruct x. Qed.

#[export] Instance keeps_row_refl : Reflexive keeps_row.
Proof. intros r. unfold keeps_row. split_and!; auto using stays_refl. Qed.

#[export] Instance keeps_row_trans : Transitive keeps_row.
Proof.
  intros x y z (A1 & A2 & A3 & A4 & A5 & A6 & A7 & A8 & A9 & A10 & A11 & A12) (B1 & B2 & B3 & B4 & B5 & B6 & B7 & B8 & B9 & B10 & B11 & B12).
  unfold keeps_row. split_and!; try congruence; eauto using stays_trans. intros H. rewrite B10; [by apply A10|]. by rewrite A10.
Qed.

Lemma with_still_keeps url r : keeps_row r (with_still url r).
Proof. unfold keeps_row, with_still. cbn. split_and!; auto using stays_refl. by intros ->. Qed.

Lemma stills_lookup a l : forall t k r', SetEpisodeStills a l t !! k = Some r' -> exists r, t !! k = Some r /\ keeps_row r r'.
Proof.
  unfold SetEpisodeStills. induction l as [|x l IH]; intros t k r' H; [by exists r'|]. cbn [foldl] in H. apply IH in H as (r & Hr & HR).
  rewrite map_lookup_imap in Hr. destruct (t !! k) as [r0|]; [|done]. cbn in Hr. injection Hr as <-. exists r0. split; [done|].
  destruct (_ && _); [|done]. by etrans; [apply with_still_keeps|].
Qed.

Lemma stills_dom a l : forall t k r, t !! k = Some r -> is_Some (SetEpisodeStills a l t !! k).
Proof.
  unfold SetEpisodeStills. induction l as [|x l IH]; intros t k r H; [by eexists|]. cbn [foldl]. eapply IH. rewrite map_lookup_imap, H. done.
Qed.

(** The sources after the first. *)
Inductive second_source (t : episodes) : episodes -> Prop :=
| derives a numbers : second_source t (SaveDerivedEpisodes a numbers t).1
| fills a eps : second_source t (FillEpisodes a eps t).1
| illustrates a stills : second_source t (SetEpisodeStills a stills t).

Lemma second_keeps t t' : second_source t t' -> keeps t t'.
Proof.
  intros [a ns|a eps|a l] k r Hr.
  - apply upsert_keeps; [apply _|apply _|done|done].
  - apply upsert_keeps; [apply _|apply _| |done]. intros e v. unfold keeps_row, filled. cbn. split_and!; auto using stays_coalesce.
  - destruct (stills_dom a l t k r Hr) as [r' Hr']. exists r'. split; [done|]. destruct (stills_lookup a l t k r' Hr') as (r0 & Hr0 & HR). congruence.
Qed.

Lemma second_keyed t t' : second_source t t' -> well_keyed t -> well_keyed t'.
Proof.
  intros [a ns|a eps|a l] Ht k r.
  - apply (upsert_rows _ _ keyed); [|done]. intros n [v|] _ Hv; [by apply (Hv v)|done].
  - apply (upsert_rows _ _ keyed); [|done]. intros e [v|] _ Hv; [by apply (Hv v)|done].
  - intros Hr. destruct (stills_lookup a l t k r Hr) as (r0 & Hr0 & HR). unfold keyed. destruct HR as [-> _]. by apply Ht.
Qed.

Lemma SaveEpisodes_lookup a eps t k : eps <> [] ->
  (SaveEpisodes a eps t).1 !! k = match foldl (upsert (key_of a) saved) t eps !! k with Some r => if stale a eps k r then None else Some r | None => None end.
Proof.
  intros Hne. unfold SaveEpisodes. rewrite bool_decide_eq_false_2 by done. cbn [fst]. destruct (foldl _ t eps !! k) as [r|] eqn:E.
  - destruct (stale a eps k r) eqn:Hs.
    + apply map_lookup_filter_None. right. intros r' Hr'. cbn. rewrite E in Hr'. injection Hr' as <-. by rewrite Hs.
    + apply map_lookup_filter_Some. done.
  - apply map_lookup_filter_None. by left.
Qed.

Lemma key_of_distinct a eps : NoDup (map Number eps) -> NoDup (map (key_of a) eps).
Proof.
  intros Hn. assert (map (key_of a) eps = map (fun n => (a, itoa n)) (map Number eps)) as -> by (by rewrite map_map).
  apply NoDup_fmap_2; [|done]. intros n m [= H]. by apply itoa_inj.
Qed.


(** ** Which episode is next *)

Lemma smallest_spec l : match smallest l with
  | Some m => m ∈ l /\ forall n, n ∈ l -> m <= n
  | None => l = []
  end.
Proof.
  induction l as [|x l IH]; [done|]. cbn [smallest foldr]. fold (smallest l). destruct (smallest l) as [m|].
  - destruct IH as [Hm Hl]. split.
    + destruct (Z.min_spec x m) as [[_ ->]|[_ ->]]; [by left|by right].
    + intros n [->|Hn]%elem_of_cons; [lia|]. specialize (Hl n Hn). lia.
  - subst l. split; [by left|]. intros n [->|Hn]%elem_of_cons; [lia|by apply elem_of_nil in Hn].
Qed.

Lemma last_number_bound a t k r : t !! k = Some r -> k.1 = a -> is_special r = false -> number r <= last_number a t.
Proof.
  intros Hr Hk Hs. unfold last_number.
  set (l := map _ _). assert (Hin : number r ∈ l).
  { apply list_elem_of_fmap. exists (k, r). split; [done|]. apply elem_of_filter_b. split; [by apply elem_of_map_to_list|]. cbn. by rewrite Hk, Z.eqb_refl, Hs. }
  clearbody l. induction l as [|x l IH]; [by apply elem_of_nil in Hin|]. cbn [foldr from_option id].
  apply elem_of_cons in Hin as [<-|Hin]; [destruct (foldr _ None l); lia|]. specialize (IH Hin). destruct (foldr _ None l) as [m|] eqn:E; cbn [from_option id] in *; [lia|].
  destruct l; [by apply elem_of_nil in Hin|done].
Qed.


(** ** What the pages list *)

Lemma rows_for_spec a t key r : (key, r) ∈ rows_for a t <-> t !! (a, key) = Some r.
Proof.
  unfold rows_for. rewrite sort_by_perm, list_elem_of_omap. split.
  - intros ([[a' key'] r'] & Hin & Hx). cbn in Hx. destruct (Z.eqb_spec a' a); [|done]. simplify_eq. by apply elem_of_map_to_list in Hin.
  - intros Hr. exists ((a, key), r). split; [by apply elem_of_map_to_list|]. cbn. by rewrite Z.eqb_refl.
Qed.

Definition before (x y : EpisodeRow) : Prop := e_number x < e_number y.

Lemma sorted_strict {A} (f : A -> Z) l : StronglySorted (fun a b => f a <= f b) l -> NoDup (map f l) -> StronglySorted (fun a b => f a < f b) l.
Proof.
  induction 1 as [|x l Hs IH Hx]; intros Hn; [constructor|]. cbn in Hn. apply NoDup_cons in Hn as [Hnot Hn]. constructor; [by apply IH|].
  rewrite Forall_forall in Hx |- *. intros y Hy. specialize (Hx y Hy). assert (f x <> f y); [|lia]. intros Heq. apply Hnot. rewrite Heq. by apply list_elem_of_fmap_2.
Qed.

Lemma omap_keys a (l : list ((Z * string) * Row)) : (forall k r, (k, r) ∈ l -> keyed k r) -> NoDup l.*1 ->
  NoDup (map (fun x : string * Row => number x.2) (omap (fun x : (Z * string) * Row => if x.1.1 =? a then Some (x.1.2, x.2) else None) l)).
Proof.
  induction l as [|[[a' key] r] l IH]; intros Hk Hn; [constructor|]. cbn in Hn |- *. apply NoDup_cons in Hn as [Hnot Hn].
  assert (Hl : forall k r', (k, r') ∈ l -> keyed k r') by (intros k r' H; apply Hk; by right). specialize (IH Hl Hn).
  destruct (Z.eqb_spec a' a) as [->|]; [|done]. cbn. apply NoDup_cons. split; [|done]. intros Hin.
  apply list_elem_of_fmap in Hin as ([key' r'] & Heq & Hin). apply list_elem_of_omap in Hin as ([[a2 k2] r2] & Hin & Hx). cbn in *.
  destruct (Z.eqb_spec a2 a) as [->|]; [|done]. simplify_eq. apply Hnot. assert (key = key') as ->.
  { pose proof (Hk (a, key) r ltac:(by left)) as H1. pose proof (Hl (a, key') r' Hin) as H2. unfold keyed in *. cbn in *. congruence. }
  change (a, key') with ((a, key', r').1). by apply list_elem_of_fmap_2.
Qed.

Lemma rows_for_sorted a t : well_keyed t -> StronglySorted (fun x y : string * Row => number x.2 < number y.2) (rows_for a t).
Proof.
  intros Ht. apply (sorted_strict (fun x : string * Row => number x.2)).
  - apply sort_by_sorted. done.
  - unfold rows_for. rewrite sort_by_perm. apply omap_keys; [|apply NoDup_fst_map_to_list]. intros k r Hin. apply Ht. by apply elem_of_map_to_list.
Qed.

(** The numbers added follow one another from the last. *)
Lemma upto_spec fuel : forall n first last total, let l := upto fuel n first last total in
  StronglySorted Z.lt l /\ (forall m, m ∈ l -> n <= m /\ m - first + 1 <= total) /\
  (forall m, n <= m -> m - first + 1 <= total -> m - last <= 5000 -> m - n < Z.of_nat fuel -> m ∈ l).
Proof.
  induction fuel as [|fuel IH]; intros n first last total; cbn [upto]; [split_and!; [constructor|intros m H; by apply elem_of_nil in H|lia]|].
  destruct (Z.leb_spec (n - first + 1) total); destruct (Z.leb_spec (n - last) 5000); cbn [andb];
    [|split_and!; [constructor|intros m Hm; by apply elem_of_nil in Hm|lia]..].
  destruct (IH (n + 1) first last total) as (Hs & Hb & Hin). split_and!.
  - constructor; [done|]. apply Forall_forall. intros m Hm. apply Hb in Hm. lia.
  - intros m [->|Hm]%elem_of_cons; [lia|]. apply Hb in Hm. lia.
  - intros m H1 H2 H3 H4. destruct (Z.eq_dec m n) as [->|]; [by left|]. right. apply Hin; lia.
Qed.

(** What [asItself] leaves as it is. *)
Definition core (e : EpisodeRow) : string * Z * bool * (f64 * f64 * bool * bool) :=
  (e_key e, e_number e, e_watched e, (e_position e, e_duration e, Resumable e, OnDisk e)).

Lemma asItself_core d out : map core (asItself d out) = map core out.
Proof. unfold asItself. destruct out as [|row [|]]; [done| |done]. by destruct (negb _). Qed.

Definition core_of (d : reading) (a : Z) (key : string) (n : Z) : string * Z * bool * (f64 * f64 * bool * bool) :=
  let p := played d !! (a, key) in
  let watched := default false (p_watched <$> p) || (n <=? progress d) in
  let position := default Watch.zero (position_s <$> p) in
  let dur := default Watch.zero (p ≫= duration_s) in
  (key, n, watched, (position, dur, resumable position dur watched (threshold d), cached d (a, key))).

Lemma core_listed d a key r : core (listed_row d a key r) = core_of d a key (number r).
Proof. done. Qed.

Lemma padToCount_app d out : exists ns, padToCount d out = out ++ map (planned_row d) ns /\
  (ns = [] \/ exists f l, head out = Some f /\ list.last out = Some l /\ ns = upto (Z.to_nat 5001) (e_number l + 1) (e_number f) (e_number l) (default 0 (episode_count (show_of d)))).
Proof.
  unfold padToCount. assert (Hno : exists ns, out = out ++ map (planned_row d) ns /\ (ns = [] \/ exists f l, head out = Some f /\ list.last out = Some l /\
      ns = upto (Z.to_nat 5001) (e_number l + 1) (e_number f) (e_number l) (default 0 (episode_count (show_of d))))) by (exists []; rewrite app_nil_r; auto).
  destruct (existsb _ out); [done|]. destruct (head out) as [f|] eqn:Hf; [|done]. destruct (list.last out) as [l|] eqn:Hl; [|done].
  eexists. split; [reflexivity|]. right. by exists f, l.
Qed.

Lemma sorted_last l : forall m, StronglySorted Z.lt l -> list.last l = Some m -> forall x, x ∈ l -> x <= m.
Proof.
  induction l as [|y l IH]; intros m Hs Hl x Hx; [done|]. apply StronglySorted_inv in Hs as [Hs Hy]. destruct l as [|z l].
  - injection Hl as <-. apply elem_of_cons in Hx as [->|Hx]; [lia|by apply elem_of_nil in Hx].
  - change (list.last (z :: l) = Some m) in Hl. apply elem_of_cons in Hx as [->|Hx]; [|by apply IH].
    rewrite Forall_forall in Hy. pose proof (Hy z ltac:(by left)). pose proof (IH m Hs Hl z ltac:(by left)). lia.
Qed.

Lemma last_map {A B} (f : A -> B) l : list.last (map f l) = f <$> list.last l.
Proof. apply fmap_last. Qed.

Lemma seq_sorted n k : StronglySorted Z.lt (map Z.of_nat (seq k n)).
Proof.
  revert k. induction n as [|n IH]; intros k; [constructor|]. cbn. constructor; [done|]. apply Forall_forall. intros x Hx.
  apply list_elem_of_fmap in Hx as (y & -> & Hy). apply elem_of_seq in Hy. lia.
Qed.

Lemma asItself_sorted d out : StronglySorted Z.lt (map e_number out) -> StronglySorted Z.lt (map e_number (asItself d out)).
Proof.
  assert (Hm : forall o, map e_number o = map (fun c => c.1.1.2) (map core o)) by (intros o; by rewrite map_map). by rewrite !Hm, asItself_core.
Qed.

Lemma asItself_in d out e : e ∈ out -> exists e', e' ∈ asItself d out /\ core e' = core e.
Proof.
  intros He. assert (Hin : core e ∈ map core out) by (by apply list_elem_of_fmap_2). rewrite <-(asItself_core d) in Hin.
  apply list_elem_of_fmap in Hin as (e' & Heq & He'). by exists e'.
Qed.

Lemma in_asItself d out e : e ∈ asItself d out -> exists e', e' ∈ out /\ core e' = core e.
Proof.
  intros He. assert (Hin : core e ∈ map core (asItself d out)) by (by apply list_elem_of_fmap_2). rewrite asItself_core in Hin.
  apply list_elem_of_fmap in Hin as (e' & Heq & He'). by exists e'.
Qed.

Lemma padded_sorted d a l : l <> [] -> StronglySorted (fun x y : string * Row => number x.2 < number y.2) l ->
  StronglySorted Z.lt (map e_number (padToCount d (map (fun x => listed_row d a x.1 x.2) l))).
Proof.
  intros Hne Hs. destruct (padToCount_app d (map (fun x => listed_row d a x.1 x.2) l)) as (ns & -> & Hns). rewrite map_app, !map_map. cbn [listed_row planned_row e_number].
  assert (Hrows : StronglySorted Z.lt (map (fun x : string * Row => number x.2) l)).
  { clear -Hs. induction Hs as [|x l Hs IH Hx]; [constructor|]. cbn. constructor; [done|]. apply Forall_forall. intros n Hn.
    apply list_elem_of_fmap in Hn as (y & -> & Hy). rewrite Forall_forall in Hx. by apply Hx. }
  destruct Hns as [->|(f & l0 & _ & Hl & ->)]; [by rewrite app_nil_r|]. rewrite map_id.
  destruct (upto_spec (Z.to_nat 5001) (e_number l0 + 1) (e_number f) (e_number l0) (default 0 (episode_count (show_of d)))) as (Hu & Hb & _).
  apply sorting.StronglySorted_app_2; [|done|done]. intros x y Hx Hy. apply Hb in Hy.
  assert (Hlast : list.last (map (fun x : string * Row => number x.2) l) = Some (e_number l0)).
  { rewrite last_map. rewrite last_map in Hl. destruct (list.last l) as [z|]; [|done]. cbn in *. by injection Hl as <-. }
  pose proof (sorted_last _ _ Hrows Hlast x Hx). lia.
Qed.

(** The list of a show: in the order of the numbers, none twice, keyed as playback looks episodes up; every stored episode with what was played of it, and, when none is stored,
    one for each up to the show's count. *)
Theorem Episodes_listed d a : well_keyed (rows_of d) ->
  let l := Episodes d a in
  StronglySorted Z.lt (map e_number l) /\ (forall e, e ∈ l -> e_key e = itoa (e_number e)) /\
  (forall key r, rows_of d !! (a, key) = Some r -> exists e, e ∈ l /\ core e = core_of d a key (number r)) /\
  (rows_for a (rows_of d) = [] -> forall n, 1 <= n <= Z.min (EpisodeCount (show_of d)) 5000 -> exists e, e ∈ l /\ e_number e = n /\ e_key e = itoa n).
Proof.
  intros Ht. cbn zeta. unfold Episodes. destruct (rows_for a (rows_of d)) as [|x l] eqn:El.
  - split_and!.
    + apply asItself_sorted. unfold plannedEpisodes. rewrite map_map. apply seq_sorted.
    + intros e He. apply in_asItself in He as (e' & He' & Heq). apply list_elem_of_fmap in He' as (i & -> & _). unfold core in Heq. cbn in Heq. by injection Heq as <- <- _.
    + intros key r Hr. apply rows_for_spec in Hr. rewrite El in Hr. by apply elem_of_nil in Hr.
    + intros _ n Hn. assert (Hin : exists e, e ∈ plannedEpisodes d a /\ e_number e = n /\ e_key e = itoa n).
      { eexists. split; [apply list_elem_of_fmap; exists (Z.to_nat n); split; [reflexivity|apply elem_of_seq; lia]|]. cbn. by rewrite Z2Nat.id by lia. }
      destruct Hin as (e & He & Hnum & Hkey). destruct (asItself_in d _ e He) as (e' & He' & Heq). exists e'. split; [done|]. unfold core in Heq. injection Heq as -> -> _. done.
  - rewrite <-El. assert (Hne : rows_for a (rows_of d) <> []) by (by rewrite El). split_and!.
    + apply asItself_sorted, padded_sorted; [done|by apply rows_for_sorted].
    + intros e He. apply in_asItself in He as (e' & He' & Heq). unfold core in Heq. injection Heq as <- <- _.
      destruct (padToCount_app d (map (fun x => listed_row d a x.1 x.2) (rows_for a (rows_of d)))) as (ns & Hp & _). rewrite Hp in He'.
      apply elem_of_app in He' as [He'|He']; apply list_elem_of_fmap in He' as (y & -> & Hy); [|done]. cbn. destruct y as [key r]. apply rows_for_spec in Hy. by apply (Ht (a, key)).
    + intros key r Hr. apply rows_for_spec in Hr. destruct (padToCount_app d (map (fun x => listed_row d a x.1 x.2) (rows_for a (rows_of d)))) as (ns & -> & _).
      destruct (asItself_in d (map (fun x => listed_row d a x.1 x.2) (rows_for a (rows_of d)) ++ map (planned_row d) ns) (listed_row d a key r)) as (e & He & Hc).
      { apply elem_of_app. left. apply list_elem_of_fmap. by exists (key, r). }
      exists e. split; [done|]. by rewrite Hc.
    + done.
Qed.

(** ** Runs *)

Definition told (n : Z) (title : string) : Told := mkTold n 0 0 1 title "" "" "" 0 24 0.

(** Numbers read off releases, then the source's own list of two. *)
Definition derived_rows : episodes := (SaveDerivedEpisodes 1 [1; 2; 3; 9999] ∅).1.


Definition reads (t : episodes) (count seen : Z) : reading :=
  mkReading t ∅ (mkShow None (Some count) None "FINISHED" None None None None 0 0) seen ∅ (fun _ => false) (fun _ => false) (thresholdFor None) (fun s => s).

Definition summary (e : EpisodeRow) : Z * bool * bool := (e_number e, Planned e, e_watched e).

(** Six of twelve are seen, three were read off releases: the list pads to twelve, and of what it adds says nothing was watched; with no row stored it would. *)
Example padded_unwatched :
  map summary (Episodes (reads derived_rows 8 6) 1) =
    [(1, false, true); (2, false, true); (3, false, true); (4, true, false); (5, true, false); (6, true, false); (7, true, false); (8, true, false)] /\
  map summary (Episodes (reads ∅ 8 6) 1) =
    [(1, true, true); (2, true, true); (3, true, true); (4, true, true); (5, true, true); (6, true, true); (7, true, false); (8, true, false)].
Proof. by vm_compute. Qed.

(** A cour of four whose releases are numbered on from thirteen: the list runs to sixteen, and no episode is ever next. *)
Definition second_cour : episodes := (SaveDerivedEpisodes 1 [13; 14] ∅).1.

Example cour_stops :
  map e_number (Episodes (reads second_cour 4 0) 1) = [13; 14; 15; 16] /\ NextEpisode (reads second_cour 4 0) false 0 1 13 = 0 /\ NextEpisode (reads second_cour 4 0) true 0 1 13 = 0.
Proof. by vm_compute. Qed.

(** The dataset has classified the episode: the second source changes nothing and counts it as filled. *)
Example gap_counted :
  let t := SaveFillers [mkFillerRow 5 1 "manga-canon"] ∅ in SaveFillerGaps 5 [mkFillerRow 5 1 "filler"] t = (t, 1).
Proof. by vm_compute. Qed.
