(* ===== verification/Int160.v ===== *)
(** * 160-bit identifiers: internal/bt/dht/int160, and misc.go's randomIdInBucket

    A DHT node and an info-hash are twenty bytes; how near two of them are is the number their
    difference spells ([Distance], a bytewise xor).  The code works on the bytes; the lemmas read them
    as one number, [value], through which [Cmp], [Xor], [BitLen], [GetBit] and [SetBit] are the arithmetic
    their names promise, and show that an identifier made for a bucket falls in it. *)
From stdpp Require Import base list.
From Stdlib Require Import ZArith Lia.
From S2P Require Import Prelude.

(** The bytes of an [int160.T]. *)
Abbreviation T := (list Z).

(** ** The operations *)

(** [math/big]'s [SetBytes]: the number big-endian bytes spell. *)
Fixpoint value (b : T) : Z :=
  match b with [] => 0 | x :: b' => x * 2 ^ (8 * Z.of_nat (length b')) + value b' end.

(** [big.Int]'s [BitLen]. *)
Definition BitLen (me : T) : Z := let v := value me in if v =? 0 then 0 else Z.log2 v + 1.

(** [None] is the panic: fewer than twenty bytes. *)
Definition SetBytes (b : list Z) : option T := if (length b <? 20)%nat then None else Some (take 20 b).

(** A shift of a [uint8]. *)
Definition shl8 (n : Z) : Z := Z.shiftl 1 n mod 256.

Definition SetBit (me : T) (index : Z) (val : bool) : option T :=
  let i := Z.quot index 8 in
  let bit := shl8 (7 - Z.rem index 8) in
  let orVal := if val then bit else 0 in
  let mask := Z.lxor bit 255 in
  if i <? 0 then None
  else x ← me !! Z.to_nat i; Some (<[Z.to_nat i := Z.lor (Z.land x mask) orVal]> me).

Definition GetBit (me : T) (index : Z) : option bool :=
  let i := Z.quot index 8 in
  if i <? 0 then None
  else x ← me !! Z.to_nat i; Some (Z.land (Z.shiftr x (7 - Z.rem index 8)) 1 =? 1).

Fixpoint Cmp (l r : T) : Z :=
  match l, r with
  | x :: l', y :: r' => if x <? y then -1 else if y <? x then 1 else Cmp l' r'
  | _, _ => 0
  end.

Definition SetMax (me : T) : T := map (fun _ => 255) me.

Definition Xor (a b : T) : T := zip_with Z.lxor a b.

Definition IsZero (me : T) : bool := forallb (fun b => b =? 0) me.

Definition Distance (a b : T) : T := Xor a b.

(** [table.bucketIndex]: [None] is the panic. *)
Definition bucketIndex (rootID id : T) : option Z :=
  if bool_decide (id = rootID) then None else Some (160 - BitLen (Xor rootID id)).

(** [randomIdInBucket]: [random] is [RandomNodeID]'s answer; the loop copies the first [bucketIndex] bits of the
    root's, the last one here first. *)
Fixpoint copy_bits (rootId : T) (id : T) (n : nat) : option T :=
  match n with
  | O => Some id
  | S n => id ← copy_bits rootId id n; b ← GetBit rootId (Z.of_nat n); SetBit id (Z.of_nat n) b
  end.

Definition randomIdInBucket (random rootId : T) (bucketIndex : Z) : option T :=
  id ← copy_bits rootId random (Z.to_nat bucketIndex);
  b ← GetBit rootId bucketIndex;
  SetBit id bucketIndex (negb b).

(** ** Bytes as one number *)

Definition bytes_ok (b : list Z) : Prop := Forall (fun x => 0 <= x < 256) b.
Definition ok (id : T) : Prop := length id = 20%nat /\ bytes_ok id.

#[export] Instance ok_dec id : Decision (ok id).
Proof. unfold ok, bytes_ok. apply _. Defined.

(** A given identifier is twenty bytes. *)
Ltac ok_now := match goal with |- ok ?x => refine (bool_decide_unpack (ok x) _); vm_compute; exact I end.

Lemma testbit_high a m j : 0 <= a < 2 ^ m -> m <= j -> Z.testbit a j = false.
Proof.
  intros Ha Hj. destruct (Z.eq_dec a 0) as [->|Hne]; [apply Z.bits_0|]. apply Z.bits_above_log2; [lia|].
  assert (Z.log2 a < m); [|lia]. apply Z.log2_lt_pow2; lia.
Qed.

Lemma testbit_cons x r m j : 0 <= r < 2 ^ m -> 0 <= m -> 0 <= j ->
  Z.testbit (x * 2 ^ m + r) j = if m <=? j then Z.testbit x (j - m) else Z.testbit r j.
Proof.
  intros Hr Hm Hj. destruct (Z.leb_spec m j).
  - replace j with (j - m + m) at 1 by lia. rewrite <- Z.div_pow2_bits by lia.
    rewrite Z.div_add_l by lia. by rewrite (Z.div_small r), Z.add_0_r by lia.
  - rewrite <- (Z.mod_pow2_bits_low _ m) by lia. rewrite Z.add_comm, Z.mod_add by lia. by rewrite Z.mod_small by lia.
Qed.

Lemma value_bound b : bytes_ok b -> 0 <= value b < 2 ^ (8 * Z.of_nat (length b)).
Proof.
  induction 1 as [|x b Hx Hb IH]; cbn [value length]; [lia|].
  replace (8 * Z.of_nat (S (length b))) with (8 + 8 * Z.of_nat (length b)) by lia. rewrite Z.pow_add_r by lia.
  change (2 ^ 8) with 256. nia.
Qed.

Lemma ok_value id : ok id -> 0 <= value id < 2 ^ 160.
Proof. intros [Hl Hb]. pose proof (value_bound _ Hb) as Hv. by rewrite Hl in Hv. Qed.

(** The bits of the number are those of its bytes. *)
Lemma value_testbit b i x j : bytes_ok b -> b !! i = Some x -> 0 <= j < 8 ->
  Z.testbit (value b) (8 * (Z.of_nat (length b) - Z.of_nat i - 1) + j) = Z.testbit x j.
Proof.
  intros Hb. revert i. induction Hb as [|y b Hy Hb IH]; intros i Hi Hj; [done|]. pose proof (value_bound _ Hb).
  cbn [value length]. rewrite testbit_cons by (try lia; apply lookup_lt_Some in Hi; cbn [length] in Hi; lia). destruct i as [|i]; cbn in Hi.
  - injection Hi as ->. destruct (Z.leb_spec (8 * Z.of_nat (length b)) (8 * (Z.of_nat (S (length b)) - Z.of_nat 0 - 1) + j)); [|lia].
    f_equal. lia.
  - pose proof (lookup_lt_Some _ _ _ Hi).
    destruct (Z.leb_spec (8 * Z.of_nat (length b)) (8 * (Z.of_nat (S (length b)) - Z.of_nat (S i) - 1) + j)); [lia|].
    rewrite <- (IH i Hi Hj). f_equal. lia.
Qed.

(** The [i]-th bit from the left. *)
Definition bit (id : T) (i : Z) : bool := Z.testbit (value id) (159 - i).

Lemma byte_at id i : ok id -> 0 <= i < 160 -> exists x, id !! Z.to_nat (Z.quot i 8) = Some x /\ 0 <= x < 256.
Proof.
  intros [Hl Hb] Hi. pose proof (Z.quot_pos i 8 ltac:(lia) ltac:(lia)). pose proof (Z.quot_lt_upper_bound i 8 20 ltac:(lia) ltac:(lia) ltac:(lia)).
  destruct (lookup_lt_is_Some_2 id (Z.to_nat (Z.quot i 8))) as [x Hx]; [lia|]. exists x. split; [done|].
  by apply (Forall_lookup_1 _ _ _ _ Hb Hx).
Qed.

Lemma bit_byte id i x : ok id -> 0 <= i < 160 -> id !! Z.to_nat (Z.quot i 8) = Some x -> bit id i = Z.testbit x (7 - Z.rem i 8).
Proof.
  intros [Hl Hb] Hi Hx. pose proof (Z.quot_rem' i 8). pose proof (Z.rem_bound_pos i 8 ltac:(lia) ltac:(lia)).
  pose proof (Z.quot_pos i 8 ltac:(lia) ltac:(lia)).
  rewrite <- (value_testbit id _ x (7 - Z.rem i 8) Hb Hx) by lia. unfold bit. f_equal. rewrite Hl. lia.
Qed.

Lemma bit_eq_value a b : ok a -> ok b -> (forall i, 0 <= i < 160 -> bit a i = bit b i) -> value a = value b.
Proof.
  intros Ha Hb Heq. apply Z.bits_inj'. intros n Hn. destruct (Z_lt_le_dec n 160) as [Hlt|Hge].
  - specialize (Heq (159 - n) ltac:(lia)). unfold bit in Heq. by replace (159 - (159 - n)) with n in Heq by lia.
  - by rewrite !(testbit_high _ 160) by (try apply ok_value; auto).
Qed.

Lemma value_inj a b : length a = length b -> bytes_ok a -> bytes_ok b -> value a = value b -> a = b.
Proof.
  intros Hl Ha. revert b Hl. induction Ha as [|x a Hx Ha IH]; intros [|y b] Hl Hb; [done..|]. apply Forall_cons in Hb as [Hy Hb]. cbn in Hl.
  pose proof (value_bound _ Ha). pose proof (value_bound _ Hb). injection Hl as Hl. cbn [value]. rewrite Hl in *. intros Hv.
  assert (x = y) as -> by nia. f_equal. apply IH; [done..|lia].
Qed.

Lemma bit_inj a b : ok a -> ok b -> (forall i, 0 <= i < 160 -> bit a i = bit b i) -> a = b.
Proof. intros Ha Hb Heq. apply value_inj; [by rewrite (proj1 Ha), (proj1 Hb)|apply Ha|apply Hb|by apply bit_eq_value]. Qed.

(** ** What the operations do *)

Lemma GetBit_bit id i : ok id -> 0 <= i < 160 -> GetBit id i = Some (bit id i).
Proof.
  intros Hid Hi. destruct (byte_at id i Hid Hi) as (x & Hx & Hb). unfold GetBit. pose proof (Z.quot_pos i 8 ltac:(lia) ltac:(lia)).
  destruct (Z.ltb_spec (Z.quot i 8) 0); [lia|]. rewrite Hx. cbn. f_equal. rewrite (bit_byte _ _ _ Hid Hi Hx).
  pose proof (Z.rem_bound_pos i 8 ltac:(lia) ltac:(lia)). rewrite (Z.land_ones _ 1) by lia.
  rewrite <- Z.bit0_mod, Z.shiftr_spec by lia. rewrite Z.add_0_l. by destruct (Z.testbit x (7 - Z.rem i 8)).
Qed.

Lemma shl8_pow n : 0 <= n < 8 -> shl8 n = 2 ^ n.
Proof.
  intros Hn. unfold shl8. rewrite Z.shiftl_1_l, Z.mod_small; [done|]. split; [lia|]. change 256 with (2 ^ 8). apply Z.pow_lt_mono_r; lia.
Qed.

Lemma byte_ext a b : 0 <= a < 256 -> 0 <= b < 256 -> (forall j, 0 <= j < 8 -> Z.testbit a j = Z.testbit b j) -> a = b.
Proof.
  intros Ha Hb Heq. apply Z.bits_inj'. intros n Hn. destruct (Z_lt_le_dec n 8); [by apply Heq|]. by rewrite !(testbit_high _ 8).
Qed.

Lemma byte_of_bits a : 0 <= a -> (forall j, 8 <= j -> Z.testbit a j = false) -> 0 <= a < 256.
Proof.
  intros Ha Hj. split; [done|]. replace a with (a mod 2 ^ 8); [change 256 with (2 ^ 8); apply Z.mod_pos_bound; lia|].
  apply Z.bits_inj'. intros n Hn. destruct (Z_lt_le_dec n 8); [by rewrite Z.mod_pow2_bits_low|]. by rewrite Z.mod_pow2_bits_high, Hj by lia.
Qed.

(** The byte [SetBit] writes. *)
Definition with_bit (x k : Z) (val : bool) : Z := Z.lor (Z.land x (Z.lxor (shl8 k) 255)) (if val then shl8 k else 0).

Lemma with_bit_spec x k val j : 0 <= x < 256 -> 0 <= k < 8 -> 0 <= j < 8 ->
  Z.testbit (with_bit x k val) j = if j =? k then val else Z.testbit x j.
Proof.
  intros Hx Hk Hj. unfold with_bit. rewrite shl8_pow by done. rewrite Z.lor_spec, Z.land_spec, Z.lxor_spec.
  change 255 with (Z.ones 8). rewrite Z.ones_spec_low by lia. rewrite Z.pow2_bits_eqb by lia.
  assert (Z.testbit (if val then 2 ^ k else 0) j = val && (k =? j)) as ->.
  { destruct val; cbn [andb]; [by rewrite Z.pow2_bits_eqb by lia|apply Z.bits_0]. }
  rewrite (Z.eqb_sym j k). destruct (k =? j), val, (Z.testbit x j); done.
Qed.

Lemma with_bit_byte x k val : 0 <= x < 256 -> 0 <= k < 8 -> 0 <= with_bit x k val < 256.
Proof.
  intros Hx Hk. unfold with_bit. rewrite shl8_pow by done. assert (0 <= 2 ^ k) by lia. apply byte_of_bits.
  - apply Z.lor_nonneg. split; [apply Z.land_nonneg; by left; lia|destruct val; lia].
  - intros j Hj. rewrite Z.lor_spec, Z.land_spec, (testbit_high x 8) by lia. cbn [andb orb].
    destruct val; [rewrite Z.pow2_bits_eqb by lia; apply Z.eqb_neq; lia|apply Z.bits_0].
Qed.

Lemma SetBit_spec id i val : ok id -> 0 <= i < 160 ->
  exists id', SetBit id i val = Some id' /\ ok id' /\ forall j, 0 <= j < 160 -> bit id' j = if j =? i then val else bit id j.
Proof.
  intros Hid Hi. destruct (byte_at id i Hid Hi) as (x & Hx & Hxb). pose proof (Z.quot_pos i 8 ltac:(lia) ltac:(lia)).
  pose proof (Z.rem_bound_pos i 8 ltac:(lia) ltac:(lia)). pose proof (lookup_lt_Some _ _ _ Hx) as Hlt.
  exists (<[Z.to_nat (Z.quot i 8) := with_bit x (7 - Z.rem i 8) val]> id).
  assert (ok (<[Z.to_nat (Z.quot i 8) := with_bit x (7 - Z.rem i 8) val]> id)) as Hok.
  { split; [by rewrite length_insert; apply Hid|]. apply Forall_insert; [apply Hid|]. apply with_bit_byte; lia. }
  split_and!; [unfold SetBit; destruct (Z.ltb_spec (Z.quot i 8) 0); [lia|]; by rewrite Hx|done|].
  intros j Hj. destruct (byte_at id j Hid Hj) as (y & Hy & _). pose proof (Z.quot_rem' i 8). pose proof (Z.quot_rem' j 8).
  pose proof (Z.quot_pos j 8 ltac:(lia) ltac:(lia)). pose proof (Z.rem_bound_pos j 8 ltac:(lia) ltac:(lia)).
  rewrite (bit_byte id j y Hid Hj Hy). destruct (decide (Z.quot i 8 = Z.quot j 8)) as [He|Hne].
  - rewrite <- He, Hx in Hy. injection Hy as ->. erewrite bit_byte; [|done|done|rewrite <- He; by apply list_lookup_insert_eq].
    rewrite with_bit_spec by lia. destruct (Z.eqb_spec (7 - Z.rem j 8) (7 - Z.rem i 8)), (Z.eqb_spec j i); lia || done.
  - erewrite bit_byte; [|done|done|rewrite list_lookup_insert_ne by lia; exact Hy]. destruct (Z.eqb_spec j i); [congruence|done].
Qed.

Lemma Xor_ok a b : ok a -> ok b -> ok (Xor a b).
Proof.
  intros [Ha Hba] [Hb Hbb]. unfold Xor. split; [rewrite length_zip_with; lia|]. clear Ha Hb. revert b Hbb.
  induction Hba as [|x a Hx _ IH]; intros b Hb; [by constructor|]. destruct Hb as [|y b Hy Hb]; [by constructor|]. cbn. constructor; [|by apply IH].
  apply byte_of_bits; [apply Z.lxor_nonneg; lia|]. intros j Hj. by rewrite Z.lxor_spec, !(testbit_high _ 8).
Qed.

Lemma Xor_bit a b i : ok a -> ok b -> 0 <= i < 160 -> bit (Xor a b) i = xorb (bit a i) (bit b i).
Proof.
  intros Ha Hb Hi. destruct (byte_at a i Ha Hi) as (x & Hx & _), (byte_at b i Hb Hi) as (y & Hy & _).
  rewrite (bit_byte a i x), (bit_byte b i y) by done. rewrite (bit_byte (Xor a b) i (Z.lxor x y)); [apply Z.lxor_spec|by apply Xor_ok|done|].
  unfold Xor. rewrite lookup_zip_with, Hx. cbn. by rewrite Hy.
Qed.

(** The xor of two identifiers is the xor of their numbers. *)
Lemma Xor_value a b : ok a -> ok b -> value (Xor a b) = Z.lxor (value a) (value b).
Proof.
  intros Ha Hb. apply Z.bits_inj'. intros n Hn. rewrite Z.lxor_spec. destruct (Z_lt_le_dec n 160) as [Hlt|Hge].
  - pose proof (Xor_bit a b (159 - n) Ha Hb ltac:(lia)) as Hx. unfold bit in Hx. by replace (159 - (159 - n)) with n in Hx by lia.
  - rewrite !(testbit_high _ 160) by (try apply ok_value; auto using Xor_ok). done.
Qed.

(** [Cmp] compares the numbers. *)
Lemma Cmp_value l r : length l = length r -> bytes_ok l -> bytes_ok r ->
  Cmp l r = if value l <? value r then -1 else if value r <? value l then 1 else 0.
Proof.
  intros Hl Hb. revert r Hl. induction Hb as [|x l Hx Hb IH]; intros [|y r] Hl Hr; [done..|]. cbn in Hl. injection Hl as Hl. apply Forall_cons in Hr as [Hy Hr].
  pose proof (value_bound _ Hb). pose proof (value_bound _ Hr). cbn [Cmp value]. rewrite Hl in *.
  assert (0 < 2 ^ (8 * Z.of_nat (length r))) by lia. destruct (Z.ltb_spec x y).
  { destruct (Z.ltb_spec (x * 2 ^ (8 * Z.of_nat (length r)) + value l) (y * 2 ^ (8 * Z.of_nat (length r)) + value r)); [done|nia]. }
  destruct (Z.ltb_spec y x).
  { destruct (Z.ltb_spec (x * 2 ^ (8 * Z.of_nat (length r)) + value l) (y * 2 ^ (8 * Z.of_nat (length r)) + value r)); [nia|].
    destruct (Z.ltb_spec (y * 2 ^ (8 * Z.of_nat (length r)) + value r) (x * 2 ^ (8 * Z.of_nat (length r)) + value l)); [done|nia]. }
  assert (x = y) as -> by lia. rewrite IH by done.
  destruct (Z.ltb_spec (value l) (value r)), (Z.ltb_spec (y * 2 ^ (8 * Z.of_nat (length r)) + value l) (y * 2 ^ (8 * Z.of_nat (length r)) + value r)); [done|lia|lia|].
  destruct (Z.ltb_spec (value r) (value l)), (Z.ltb_spec (y * 2 ^ (8 * Z.of_nat (length r)) + value r) (y * 2 ^ (8 * Z.of_nat (length r)) + value l)); lia || done.
Qed.

Lemma IsZero_value id : bytes_ok id -> IsZero id = (value id =? 0).
Proof.
  induction 1 as [|x b Hx Hb IH]; [done|]. pose proof (value_bound _ Hb). cbn [IsZero forallb value]. unfold IsZero in IH. rewrite IH.
  destruct (Z.eqb_spec x 0), (Z.eqb_spec (value b) 0), (Z.eqb_spec (x * 2 ^ (8 * Z.of_nat (length b)) + value b) 0); cbn; nia.
Qed.

(** ** Buckets *)

(** The bucket of an identifier is the place of the first bit in which it differs from the root. *)
Lemma bucketIndex_first root id i : ok root -> ok id -> 0 <= i < 160 ->
  bucketIndex root id = Some i <-> (forall j, 0 <= j < i -> bit id j = bit root j) /\ bit id i = negb (bit root i).
Proof.
  intros Hr Hid Hi. pose proof (Xor_ok _ _ Hr Hid) as Hx. pose proof (ok_value _ Hx) as Hv. unfold bucketIndex, BitLen. split.
  - destruct (bool_decide (id = root)) eqn:Heq; [done|]. destruct (Z.eqb_spec (value (Xor root id)) 0) as [H0|H0]; [intros [=]; lia|]. intros [= Hlen].
    pose proof (Z.bit_log2 (value (Xor root id)) ltac:(lia)) as Htop. replace (Z.log2 (value (Xor root id))) with (159 - i) in Htop by lia.
    change (Z.testbit _ (159 - i)) with (bit (Xor root id) i) in Htop. rewrite Xor_bit in Htop by done. split.
    + intros j Hj. assert (bit (Xor root id) j = false) as Hb by (unfold bit; apply Z.bits_above_log2; lia).
      rewrite Xor_bit in Hb by (done || lia). by destruct (bit root j), (bit id j).
    + by destruct (bit root i), (bit id i).
  - intros [Hlow Hdiff]. rewrite bool_decide_false by (intros ->; by destruct (bit root i)).
    assert (bit (Xor root id) i = true) as Htop by (rewrite Xor_bit by done; rewrite Hdiff; by destruct (bit root i)).
    assert (value (Xor root id) <> 0) as H0 by (intros H0; unfold bit in Htop; by rewrite H0, Z.bits_0 in Htop).
    destruct (Z.eqb_spec (value (Xor root id)) 0); [done|]. f_equal.
    assert (Z.log2 (value (Xor root id)) = 159 - i); [|lia]. set (v := value (Xor root id)) in *.
    destruct (Z.lt_trichotomy (Z.log2 v) (159 - i)) as [Hlt|[|Hgt]]; [| done|].
    + unfold bit in Htop. fold v in Htop. by rewrite Z.bits_above_log2 in Htop by lia.
    + pose proof (Z.bit_log2 v ltac:(lia)) as Hb. assert (Z.log2 v < 160) by (apply Z.log2_lt_pow2; lia).
      replace (Z.log2 v) with (159 - (159 - Z.log2 v)) in Hb by lia. change (bit (Xor root id) (159 - Z.log2 v) = true) in Hb.
      rewrite Xor_bit, (Hlow (159 - Z.log2 v)) in Hb by (done || lia). by rewrite xorb_nilpotent in Hb.
Qed.

Lemma bucketIndex_bound root id i : ok root -> ok id -> bucketIndex root id = Some i -> 0 <= i < 160.
Proof.
  intros Hr Hid. pose proof (Xor_ok _ _ Hr Hid) as Hx. pose proof (ok_value _ Hx) as Hv. unfold bucketIndex, BitLen.
  destruct (bool_decide (id = root)) eqn:Heq; [done|]. apply bool_decide_eq_false_1 in Heq. destruct (Z.eqb_spec (value (Xor root id)) 0) as [H0|H0].
  - exfalso. apply Heq, bit_inj; [done..|]. intros i' Hi'. pose proof (Xor_bit root id i' Hr Hid Hi') as Hb. unfold bit at 1 in Hb. rewrite H0, Z.bits_0 in Hb.
    by destruct (bit root i'), (bit id i').
  - intros [= <-]. pose proof (Z.log2_nonneg (value (Xor root id))). assert (Z.log2 (value (Xor root id)) < 160) by (apply Z.log2_lt_pow2; lia). lia.
Qed.

Lemma copy_bits_spec root id n : ok root -> ok id -> (n <= 160)%nat ->
  exists id', copy_bits root id n = Some id' /\ ok id' /\ forall j, 0 <= j < 160 -> bit id' j = if j <? Z.of_nat n then bit root j else bit id j.
Proof.
  intros Hr Hid. induction n as [|n IH]; intros Hn; cbn [copy_bits].
  - exists id. split_and!; [done..|]. intros j Hj. by destruct (Z.ltb_spec j (Z.of_nat 0)); [lia|].
  - destruct IH as (id1 & -> & Hok1 & Hb1); [lia|]. cbn. rewrite GetBit_bit by (done || lia). cbn.
    destruct (SetBit_spec id1 (Z.of_nat n) (bit root (Z.of_nat n)) Hok1 ltac:(lia)) as (id2 & -> & Hok2 & Hb2). exists id2. split_and!; [done..|].
    intros j Hj. rewrite Hb2, Hb1 by done. destruct (Z.eqb_spec j (Z.of_nat n)), (Z.ltb_spec j (Z.of_nat n)), (Z.ltb_spec j (Z.of_nat (S n))); lia || congruence.
Qed.

(** ** Distances *)

Lemma value_low id i : ok id -> 0 <= i <= 160 -> (forall j, 0 <= j < i -> bit id j = false) -> value id < 2 ^ (160 - i).
Proof.
  intros Hid Hi Hlow. pose proof (ok_value _ Hid) as Hv. destruct (Z_lt_le_dec (value id) (2 ^ (160 - i))) as [|Hge]; [done|].
  assert (0 < value id) by (pose proof (Z.pow_pos_nonneg 2 (160 - i)); lia). assert (Z.log2 (value id) < 160) by (apply Z.log2_lt_pow2; lia).
  assert (160 - i <= Z.log2 (value id)) by (apply Z.log2_le_pow2; lia). pose proof (Z.bit_log2 (value id) ltac:(lia)) as Hb.
  specialize (Hlow (159 - Z.log2 (value id)) ltac:(lia)). unfold bit in Hlow. replace (159 - (159 - Z.log2 (value id))) with (Z.log2 (value id)) in Hlow by lia. congruence.
Qed.

Lemma value_high id i : ok id -> 0 <= i < 160 -> bit id i = true -> 2 ^ (159 - i) <= value id.
Proof.
  intros Hid Hi Hb. pose proof (ok_value _ Hid). destruct (Z_lt_le_dec (value id) (2 ^ (159 - i))); [|done]. unfold bit in Hb. rewrite (testbit_high _ (159 - i)) in Hb; lia || done.
Qed.

(** Of two identifiers in buckets no deeper than the target's, the one in the deeper bucket is nearer to it. *)
Lemma nearer_bucket root target x y b j : ok root -> ok target -> ok x -> ok y -> 0 <= j < b -> b < 160 ->
  (forall i, 0 <= i < b -> bit target i = bit root i) -> bucketIndex root x = Some b -> bucketIndex root y = Some j ->
  Cmp (Distance x target) (Distance y target) = -1.
Proof.
  intros Hr Ht Hx Hy Hj Hb160 Hagree Hbx Hby. apply (bucketIndex_first root x b Hr Hx) in Hbx as [Hbx _]; [|lia]. apply (bucketIndex_first root y j Hr Hy) in Hby as [_ Hby]; [|lia].
  assert (value (Distance x target) < 2 ^ (160 - b)) as Hlow.
  { apply value_low; [by apply Xor_ok|lia|]. intros i Hi. unfold Distance. rewrite Xor_bit by (done || lia). rewrite Hbx, Hagree by lia. apply xorb_nilpotent. }
  assert (2 ^ (159 - j) <= value (Distance y target)) as Hhigh.
  { apply value_high; [by apply Xor_ok|lia|]. unfold Distance. rewrite Xor_bit by (done || lia). rewrite Hby, Hagree by lia. by destruct (bit root j). }
  assert (2 ^ (160 - b) <= 2 ^ (159 - j)) by (apply Z.pow_le_mono_r; lia).
  pose proof (Xor_ok x target Hx Ht) as [Hlx Hox]. pose proof (Xor_ok y target Hy Ht) as [Hly Hoy].
  rewrite Cmp_value; [|by unfold Distance; rewrite Hlx, Hly|done..]. destruct (Z.ltb_spec (value (Distance x target)) (value (Distance y target))); [done|lia].
Qed.

(** An identifier made at random for a bucket falls in that bucket, so [randomIdForBucket] never panics: the index
    of a bucket is between 0 and 159 for every identifier but the root, and [randomIdInBucket] hits each one. *)
Theorem randomIdInBucket_index random root i (Hr : ok root) (Hrand : ok random) (Hi : 0 <= i < 160) :
  exists id, randomIdInBucket random root i = Some id /\ ok id /\ bucketIndex root id = Some i.
Proof.
  destruct (copy_bits_spec root random (Z.to_nat i) Hr Hrand ltac:(lia)) as (id1 & H1 & Hok1 & Hb1).
  destruct (SetBit_spec id1 i (negb (bit root i)) Hok1 Hi) as (id2 & H2 & Hok2 & Hb2). exists id2. split_and!; [|done|].
  - unfold randomIdInBucket. rewrite H1. cbn. rewrite GetBit_bit by done. cbn. exact H2.
  - apply bucketIndex_first; [done..|]. split.
    + intros j Hj. rewrite Hb2, Hb1 by lia. destruct (Z.eqb_spec j i), (Z.ltb_spec j (Z.of_nat (Z.to_nat i))); lia || done.
    + rewrite Hb2 by done. by rewrite Z.eqb_refl.
Qed.

Lemma randomIdInBucket_index_witness : exists id,
  randomIdInBucket (replicate 20 170) (replicate 20 255) 9 = Some id /\ ok id /\ bucketIndex (replicate 20 255) id = Some 9.
Proof. apply (randomIdInBucket_index (replicate 20 170) (replicate 20 255) 9); [ok_now..|lia]. Defined.
