(* ===== verification/Secure.v ===== *)
(** * Node identifiers bound to addresses: internal/bt/dht/security.go

    A node's identifier is secure when its first 21 bits are a checksum of its address and of its own last
    byte, so that nobody chooses freely where in the identifier space to stand.  The checksum is the
    standard library's CRC-32 over Castagnoli's polynomial, modelled bit by bit. *)
From stdpp Require Import base list.
From Stdlib Require Import ZArith Lia.
From S2P Require Import Prelude Net Int160.

(** ** [hash/crc32] over the Castagnoli table *)

Definition crc_bit (c : Z) : Z := if Z.testbit c 0 then Z.lxor (Z.shiftr c 1) 2197175160 else Z.shiftr c 1.

Definition crc_byte (c b : Z) : Z := Nat.iter 8 crc_bit (Z.lxor c b).

Definition Checksum (data : list Z) : Z := Z.lxor (foldl crc_byte 4294967295 data) 4294967295.

(** ** The code *)

Definition maskForIP (ip : list Z) : list Z :=
  match To4 ip with Some _ => [3; 15; 63; 255] | None => [1; 3; 7; 15; 31; 63; 127; 255] end.

(** The bytes the checksum covers: [None] is the panic of an address shorter than its mask. *)
Definition crcIP (ip : list Z) (rand : Z) : option Z :=
  let ip := default ip (To4 ip) in
  let mask := maskForIP ip in
  if (length ip <? length mask)%nat then None
  else
    let ip := zip_with Z.land (take (length mask) ip) mask in
    let r := Z.land rand 7 in
    match ip with
    | x :: ip => Some (Checksum (Z.lor x (Z.shiftl r 5 mod 256) :: ip))
    | [] => None
    end.

(** The three bytes of the checksum an identifier carries, the last one beside the low bits it had. *)
Definition crc_byte_of (crc n : Z) : Z := Z.land (Z.shiftr crc n) 255.

Definition SecureNodeId (id ip : list Z) : option (list Z) :=
  crc ← crcIP ip (nth 19 id 0);
  Some (crc_byte_of crc 24 :: crc_byte_of crc 16 :: Z.lor (Z.land (Z.shiftr crc 8) 248 mod 256) (Z.land (nth 2 id 0) 7) :: drop 3 id).

(** [net.IPNet]'s [Contains], of an IPv4 network. *)
Definition Contains (net mask ip : list Z) : bool :=
  match To4 ip with
  | Some v4 => bool_decide (zip_with Z.land net mask = zip_with Z.land v4 mask)
  | None => false
  end.

Definition IsLinkLocalUnicast (ip : list Z) : bool :=
  match To4 ip with
  | Some v4 => (nth 0 v4 0 =? 169) && (nth 1 v4 0 =? 254)
  | None => (length ip =? 16)%nat && (nth 0 ip 0 =? 254) && (Z.land (nth 1 ip 0) 192 =? 128)
  end.

Definition isLocalNetwork (ip : list Z) : bool :=
  Contains [10; 0; 0; 0] [255; 0; 0; 0] ip || Contains [172; 16; 0; 0] [255; 240; 0; 0] ip ||
  Contains [192; 168; 0; 0] [255; 255; 0; 0] ip || IsLinkLocalUnicast ip || Net.IsLoopback ip.

Definition NodeIdSecure (id ip : list Z) : option bool :=
  if isLocalNetwork ip then Some true
  else
    crc ← crcIP ip (nth 19 id 0);
    Some ((nth 0 id 0 =? crc_byte_of crc 24) && (nth 1 id 0 =? crc_byte_of crc 16) &&
          (Z.land (nth 2 id 0) 248 =? Z.land (Z.shiftr crc 8) 248 mod 256)).

(** ** What they promise *)

Lemma crcIP_some ip rand : length ip = 4%nat \/ length ip = 16%nat -> exists crc, crcIP ip rand = Some crc.
Proof.
  intros Hl. unfold crcIP, maskForIP. cbv zeta. assert (forall v, To4 ip = Some v -> length v = 4%nat) as Hv.
  { unfold To4. intros v. destruct Hl as [Hl|Hl]; rewrite Hl; cbn; [by intros [= <-]|]. case_bool_decide; [|done]. intros [= <-]. rewrite length_drop, Hl. done. }
  destruct (To4 ip) as [v|] eqn:Hf; unfold default, id.
  - specialize (Hv v eq_refl). assert (To4 v = Some v) as -> by (unfold To4; by rewrite Hv). rewrite Hv. cbn [length Nat.ltb Nat.leb].
    destruct v as [|x v]; [done|]. cbn. by eexists.
  - rewrite Hf. cbn [length]. assert (length ip = 16%nat) as Hl'.
    { destruct Hl as [Hl|]; [|done]. unfold To4 in Hf. rewrite Hl in Hf. done. }
    rewrite Hl'. cbn. destruct ip as [|x ip]; [done|]. cbn. by eexists.
Qed.

(** The kept bits and the checksum's do not meet. *)
Lemma kept_apart c x : Z.land (Z.lor (Z.land c 248 mod 256) (Z.land x 7)) 248 = Z.land c 248 mod 256.
Proof.
  apply Z.bits_inj'. intros n Hn. rewrite Z.land_spec, Z.lor_spec, Z.land_spec. change 256 with (2 ^ 8).
  destruct (Z_lt_le_dec n 8) as [Hlt|Hge].
  - rewrite Z.mod_pow2_bits_low, Z.land_spec by done.
    assert (n = 0 \/ n = 1 \/ n = 2 \/ n = 3 \/ n = 4 \/ n = 5 \/ n = 6 \/ n = 7) as Hc by lia.
    destruct Hc as [-> | [-> | [-> | [-> | [-> | [-> | [-> | ->]]]]]]]; cbn [Z.testbit Pos.testbit]; rewrite ?andb_false_r, ?andb_true_r, ?orb_false_r; done.
  - rewrite Z.mod_pow2_bits_high by lia. rewrite (testbit_high 248 8), andb_false_r by lia. done.
Qed.

(** An identifier made secure for an address passes the check for that address, whatever it was before, and only
    its first three bytes have changed. *)
Theorem SecureNodeId_secure id ip (Hid : length id = 20%nat) (Hip : length ip = 4%nat \/ length ip = 16%nat) :
  exists id', SecureNodeId id ip = Some id' /\ length id' = 20%nat /\ drop 3 id' = drop 3 id /\ NodeIdSecure id' ip = Some true.
Proof.
  destruct (crcIP_some ip (nth 19 id 0) Hip) as [crc Hcrc]. unfold SecureNodeId. rewrite Hcrc. cbn [mbind option_bind]. eexists. split; [done|].
  split; [cbn [length]; rewrite length_drop, Hid; done|]. split; [done|]. unfold NodeIdSecure. destruct (isLocalNetwork ip); [done|].
  assert (nth 19 (crc_byte_of crc 24 :: crc_byte_of crc 16 :: Z.lor (Z.land (Z.shiftr crc 8) 248 mod 256) (Z.land (nth 2 id 0) 7) :: drop 3 id) 0 = nth 19 id 0) as ->.
  { cbn [nth]. by do 3 (destruct id as [|? id]; [done|]). }
  rewrite Hcrc. cbn [mbind option_bind nth]. by rewrite kept_apart, !Z.eqb_refl.
Qed.

Lemma SecureNodeId_secure_witness : exists id',
  SecureNodeId (replicate 20 7) [8; 8; 8; 8] = Some id' /\ length id' = 20%nat /\ drop 3 id' = drop 3 (replicate 20 7) /\ NodeIdSecure id' [8; 8; 8; 8] = Some true.
Proof. apply (SecureNodeId_secure (replicate 20 7) [8; 8; 8; 8]); [reflexivity|by left]. Defined.

(** Two identifiers of the specification's, and one with a checked bit changed. *)
Example spec_identifiers :
  NodeIdSecure ([95; 191; 191] ++ replicate 16 0 ++ [1]) [124; 31; 75; 21] = Some true /\
  NodeIdSecure ([90; 60; 233] ++ replicate 16 0 ++ [86]) [21; 75; 31; 124] = Some true /\
  NodeIdSecure ([90; 60; 225] ++ replicate 16 0 ++ [86]) [21; 75; 31; 124] = Some false.
Proof. split_and!; vm_compute; reflexivity. Qed.
