(* ===== verification/Nodes.v ===== *)
(** * The DHT's node table: internal/bt/dht (table.go, bucket.go, node.go, and server.go's use of them)

    Every node a server hears from is kept under the place of the first bit in which its identifier
    differs from the server's own, at most [k] of them to a place.  A full bucket lets a newcomer in by dropping a
    node gone bad, or, for a good newcomer, one that never answered.  Nodes are behind pointers in the
    code; here a node is known by its address and identifier, which [table_ok] shows to be its own.  A bucket is
    a map, so the order its nodes are gone through in is an argument, [order].  The addresses are those
    of sockets and of compact node lists, of four or sixteen bytes, for which [NodeIdSecure] does not panic
    ([Secure.crcIP_some]). *)
From stdpp Require Import base gmap sets list strings.
From Stdlib Require Import ZArith Lia.
From S2P Require Import Prelude Int160 Secure.

(** ** Data *)

(** [cachedAddr]. *)
Record Addr := mkAddr { IP : list Z; Port : Z; String_ : string }.

(** [node]: times in nanoseconds, [None] the zero [time.Time]. *)
Record node := mkNode {
  Id : T; Addr_ : Addr; lastGotQuery : option Z; lastGotResponse : option Z; numReceivesFrom : Z; failedLastQuestionablePing : bool;
}.

Record bucket := mkBucket { lastChanged : option Z; nodes : list node }.

Record table := mkTable { rootID : T; k : Z; buckets : list bucket; addrs : gmap string (gset T) }.

Definition hasAddrAndID (addr : Addr) (id : T) (n : node) : bool := bool_decide (id = Id n) && String.eqb (String_ (Addr_ n)) (String_ addr).

Definition Len (b : bucket) : Z := Z.of_nat (length (nodes b)).

Definition AddNode (now : Z) (n : node) (b : bucket) : bucket := mkBucket (Some now) (nodes b ++ [n]).

Definition GetNode (b : bucket) (addr : Addr) (id : T) : option node := List.find (hasAddrAndID addr id) (nodes b).

(** ** The table *)

Definition bucketForID (tbl : table) (id : T) : option nat := option_map Z.to_nat (bucketIndex (rootID tbl) id).

Definition set_bucket (tbl : table) (i : nat) (b : bucket) : table := mkTable (rootID tbl) (k tbl) (<[i := b]> (buckets tbl)) (addrs tbl).
Definition set_addrs (tbl : table) (a : gmap string (gset T)) : table := mkTable (rootID tbl) (k tbl) (buckets tbl) a.

Definition getNode (tbl : table) (addr : Addr) (id : T) : option node :=
  if bool_decide (id = rootID tbl) then None
  else i ← bucketForID tbl id; b ← buckets tbl !! i; GetNode b addr id.

(** The identifiers at an address, in the order of the map behind them. *)
Definition addrNodes (tbl : table) (addr : Addr) : list (option node) :=
  map (fun id => getNode tbl addr id) (elements (default ∅ (addrs tbl !! String_ addr))).

Fixpoint remove_first (p : node -> bool) (l : list node) : list node :=
  match l with [] => [] | n :: l => if p n then l else n :: remove_first p l end.

(** [None] is a panic. *)
Definition dropNode (tbl : table) (n : node) : option table :=
  let as_ := String_ (Addr_ n) in
  addrs tbl !! as_ ≫= fun ids : gset T =>
  if negb (bool_decide (Id n ∈ ids)) then None
  else
    let ids := ids ∖ {[Id n]} in
    let a := if bool_decide (ids = ∅) then delete as_ (addrs tbl) else <[as_ := ids]> (addrs tbl) in
    i ← bucketForID tbl (Id n);
    b ← buckets tbl !! i;
    if existsb (hasAddrAndID (Addr_ n) (Id n)) (nodes b)
    then Some (set_bucket (set_addrs tbl a) i (mkBucket (lastChanged b) (remove_first (hasAddrAndID (Addr_ n) (Id n)) (nodes b))))
    else None.

Inductive add_error := IsRootId | AlreadyPresent | BucketIsFull | OutOfRange.

Definition addNode (now : Z) (tbl : table) (n : node) : result add_error table :=
  if bool_decide (Id n = rootID tbl) then Err IsRootId
  else match bucketForID tbl (Id n) with
    | None => Err OutOfRange
    | Some i =>
        match buckets tbl !! i with
        | None => Err OutOfRange
        | Some b =>
            match GetNode b (Addr_ n) (Id n) with
            | Some _ => Err AlreadyPresent
            | None =>
                if k tbl <=? Len b then Err BucketIsFull
                else
                  let as_ := String_ (Addr_ n) in
                  Ok (set_bucket (set_addrs tbl (<[as_ := {[Id n]} ∪ default ∅ (addrs tbl !! as_)]> (addrs tbl))) i (AddNode now n b))
            end
        end
    end.

Definition numNodes (tbl : table) : Z := foldl (fun num b => num + Len b) 0 (buckets tbl).

(** Buckets from [bi] down to the first, until [k] nodes are found. *)
Fixpoint closest_loop (order : list node -> list node) (filter : node -> bool) (k : Z) (tbl : table) (bi : nat) (ret : list node) : list node :=
  if k <=? Z.of_nat (length ret) then ret
  else
    let ret := ret ++ List.filter filter (order (match buckets tbl !! bi with Some b => nodes b | None => [] end)) in
    match bi with O => ret | S bi => closest_loop order filter k tbl bi ret end.

Definition first_bucket (tbl : table) (target : T) : nat :=
  if bool_decide (target = rootID tbl) then Nat.pred (length (buckets tbl)) else default O (bucketForID tbl target).

Definition closestNodes (order : list node -> list node) (tbl : table) (k : Z) (target : T) (filter : node -> bool) : list node :=
  let ret := closest_loop order filter k tbl (first_bucket tbl target) [] in
  if k <? Z.of_nat (length ret) then take (Z.to_nat k) ret else ret.

(** ** The server *)

Inductive node_error := IsSelf | HasZeroId | NotSecure | DidNotRespond.

Section server.
Context (NoSecurity : bool) (order : list node -> list node).

Definition IsSecure (n : node) : bool := default false (NodeIdSecure (Id n) (IP (Addr_ n))).

Definition nodeErr (self : T) (n : node) : option node_error :=
  if bool_decide (Id n = self) then Some IsSelf
  else if IsZero (Id n) then Some HasZeroId
  else if negb (NoSecurity || IsSecure n) then Some NotSecure
  else if failedLastQuestionablePing n then Some DidNotRespond
  else None.

Definition nodeIsBad (self : T) (n : node) : bool := match nodeErr self n with Some _ => true | None => false end.

Definition minute : Z := 60000000000.

(** [time.Since(t) < 15*time.Minute]; the zero time is longer ago than that. *)
Definition recent (now : Z) (t : option Z) : bool := match t with Some t => now - t <? 15 * minute | None => false end.

Definition IsGood (self : T) (now : Z) (n : node) : bool :=
  if nodeIsBad self n then false
  else recent now (lastGotResponse n) || match lastGotResponse n with None => false | Some _ => recent now (lastGotQuery n) end.

Definition IsQuestionable (self : T) (now : Z) (n : node) : bool := negb (IsGood self now n) && negb (nodeIsBad self n).

(** The nodes of a full bucket, gone through until one has made way: whether none has. *)
Fixpoint make_room (now : Z) (n : node) (i : nat) (l : list node) (tbl : table) : option (table * bool) :=
  match l with
  | [] => Some (tbl, true)
  | bn :: l =>
      tbl ← (if nodeIsBad (rootID tbl) bn || (IsGood (rootID tbl) now n && match lastGotResponse bn with None => true | Some _ => false end)
             then dropNode tbl bn else Some tbl);
      b ← buckets tbl !! i;
      if k tbl <=? Len b then make_room now n i l tbl else Some (tbl, false)
  end.

Inductive update_error := IdIsNil | NotAdding | OwnId | NodeIsBad | NoRoom.

(** [Server.addNode]: [None] is a panic. *)
Definition server_addNode (now : Z) (tbl : table) (n : node) : option (table * option update_error) :=
  if nodeIsBad (rootID tbl) n then Some (tbl, Some NodeIsBad)
  else
    i ← bucketForID tbl (Id n);
    b ← buckets tbl !! i;
    r ← (if k tbl <=? Len b then make_room now n i (order (nodes b)) tbl else Some (tbl, false));
    let '(tbl, full) := (r : table * bool) in
    if full then Some (tbl, Some NoRoom)
    else match addNode now tbl n with Ok tbl => Some (tbl, None) | Err _ => None end.

(** What a packet or a failed ping notes of a node. *)
Inductive change := GotResponse | GotQuery | Nothing | FailedPing.

Definition update (c : change) (now : Z) (n : node) : node :=
  match c with
  | GotResponse => mkNode (Id n) (Addr_ n) (lastGotQuery n) (Some now) (i64_add (numReceivesFrom n) 1) false
  | GotQuery => mkNode (Id n) (Addr_ n) (Some now) (lastGotResponse n) (i64_add (numReceivesFrom n) 1) (failedLastQuestionablePing n)
  | Nothing => n
  | FailedPing => mkNode (Id n) (Addr_ n) (lastGotQuery n) (lastGotResponse n) (numReceivesFrom n) true
  end.

Fixpoint update_first (p : node -> bool) (f : node -> node) (l : list node) : list node :=
  match l with [] => [] | n :: l => if p n then f n :: l else n :: update_first p f l end.

Definition updateNode (now : Z) (tbl : table) (addr : Addr) (id : option T) (tryAdd : bool) (c : change) : option (table * option update_error) :=
  match id with
  | None => Some (tbl, Some IdIsNil)
  | Some id =>
      match getNode tbl addr id with
      | Some _ =>
          i ← bucketForID tbl id;
          b ← buckets tbl !! i;
          Some (set_bucket tbl i (mkBucket (lastChanged b) (update_first (hasAddrAndID addr id) (update c now) (nodes b))), None)
      | None =>
          if negb tryAdd then Some (tbl, Some NotAdding)
          else if bool_decide (id = rootID tbl) then Some (tbl, Some OwnId)
          else server_addNode now tbl (update c now (mkNode id addr None None 0 false))
      end
  end.

(** [NodeRespondedToPing] of a reply. *)
Definition NodeRespondedToPing (now : Z) (tbl : table) (addr : Addr) (id : T) : option table :=
  if bool_decide (id = rootID tbl) then Some tbl
  else
    i ← bucketForID tbl id;
    b ← buckets tbl !! i;
    match GetNode b addr id with
    | None => Some tbl
    | Some _ => Some (set_bucket tbl i (mkBucket (Some now) (nodes b)))
    end.

Definition closestGoodNodes (now : Z) (tbl : table) (k : Z) (target : T) (filter : Addr -> bool) : list node :=
  closestNodes order tbl k target (fun n => IsGood (rootID tbl) now n && filter (Addr_ n)).

Definition notBadNodes (tbl : table) : list node :=
  List.filter (fun n => negb (nodeIsBad (rootID tbl) n)) (concat (map (fun b => order (nodes b)) (buckets tbl))).

Definition shouldStopRefreshingBucket (tbl : table) (i : nat) (closed : bool) : bool :=
  if closed then true
  else match buckets tbl !! i with
    | Some b => (Len b =? k tbl) && forallb (fun n => negb (nodeIsBad (rootID tbl) n)) (nodes b)
    | None => false
    end.
End server.

(** A server's table when it begins ([NewServer]). *)
Definition no_nodes : bucket := mkBucket None [].
Definition new_table (id : T) : table := mkTable id 8 (replicate 160 no_nodes) ∅.

(** ** A table in order *)

Definition key (n : node) : string * T := (String_ (Addr_ n), Id n).

Definition has (t : table) (s : string) (id : T) : Prop := exists i b n, buckets t !! i = Some b /\ n ∈ nodes b /\ key n = (s, id).

Record table_ok (t : table) : Prop := {
  ok_root : ok (rootID t);
  ok_len : length (buckets t) = 160%nat;
  ok_placed : forall i b n, buckets t !! i = Some b -> n ∈ nodes b -> ok (Id n) /\ bucketIndex (rootID t) (Id n) = Some (Z.of_nat i);
  ok_room : forall i b, buckets t !! i = Some b -> Len b <= k t;
  ok_keys : forall i b, buckets t !! i = Some b -> NoDup (map key (nodes b));
  ok_nonempty : forall s ids, addrs t !! s = Some ids -> ids <> ∅;
  ok_addrs : forall s id, id ∈ (default ∅ (addrs t !! s) : gset T) <-> has t s id;
}.

Lemma hasAddrAndID_key addr id n : hasAddrAndID addr id n = true <-> key n = (String_ addr, id).
Proof.
  unfold hasAddrAndID, key. split.
  - intros [Hi Hs]%andb_prop. apply bool_decide_eq_true_1 in Hi. apply String.eqb_eq in Hs. congruence.
  - intros [= -> ->]. rewrite bool_decide_true by done. cbn. apply String.eqb_refl.
Qed.

Lemma hasAddrAndID_keys n m : hasAddrAndID (Addr_ n) (Id n) m = true <-> key m = key n.
Proof. apply hasAddrAndID_key. Qed.

Lemma in_remove_first p l x : x ∈ remove_first p l -> x ∈ l.
Proof. induction l as [|y l IH]; cbn; [done|]. destruct (p y); set_solver. Qed.

Lemma remove_first_spec p l kx : (forall n, p n = true <-> key n = kx) -> NoDup (map key l) ->
  forall x, x ∈ remove_first p l <-> x ∈ l /\ key x <> kx.
Proof.
  intros Hp. induction l as [|y l IH]; cbn [map remove_first]; intros Hn x; [set_solver|]. apply NoDup_cons in Hn as [Hy Hn]. destruct (p y) eqn:Hpy.
  - apply Hp in Hpy. split.
    + intros Hx. split; [by right|]. intros He. apply Hy, list_elem_of_fmap. exists x. by rewrite Hpy, He.
    + intros [Hx Hk]. apply elem_of_cons in Hx as [->|Hx]; done.
  - rewrite !elem_of_cons, IH by done. split; [|naive_solver]. intros [->|[Hx Hk]]; [|by split; [right|]]. split; [by left|].
    intros He. apply Hp in He. congruence.
Qed.

Lemma remove_first_keys p l : NoDup (map key l) -> NoDup (map key (remove_first p l)).
Proof.
  induction l as [|y l IH]; cbn [map remove_first]; [done|]. intros [Hy Hn]%NoDup_cons. destruct (p y); [done|]. cbn [map]. apply NoDup_cons. split; [|by apply IH].
  intros (x & Hx & Hin)%list_elem_of_fmap. apply Hy, list_elem_of_fmap. exists x. split; [done|]. by eapply in_remove_first.
Qed.

Lemma remove_first_length p l : existsb p l = true -> S (length (remove_first p l)) = length l.
Proof. induction l as [|y l IH]; cbn; [done|]. destruct (p y); cbn; [done|]. intros He. by rewrite IH. Qed.

Lemma update_first_keys p f l : (forall n, key (f n) = key n) -> map key (update_first p f l) = map key l.
Proof. intros Hf. induction l as [|y l IH]; cbn; [done|]. destruct (p y); cbn; [by rewrite Hf|by rewrite IH]. Qed.

Lemma update_first_in p f l x : x ∈ update_first p f l -> exists y, y ∈ l /\ (x = y \/ x = f y).
Proof.
  induction l as [|y l IH]; cbn; [by intros ?%elem_of_nil|]. destruct (p y); rewrite elem_of_cons; intros [->|Hx].
  - exists y. split; [by left|by right].
  - exists x. split; [by right|by left].
  - exists y. split; [by left|by left].
  - destruct (IH Hx) as (z & Hz & Heq). exists z. split; [by right|done].
Qed.

Lemma update_key c now n : key (update c now n) = key n.
Proof. by destruct c. Qed.

Lemma placed_bucket t i b n : table_ok t -> buckets t !! i = Some b -> n ∈ nodes b -> bucketForID t (Id n) = Some i.
Proof. intros Hok Hb Hn. unfold bucketForID. rewrite (proj2 (ok_placed _ Hok _ _ _ Hb Hn)). cbn. by rewrite Nat2Z.id. Qed.

Lemma bucketForID_some t id : table_ok t -> ok id -> id <> rootID t -> exists i b, bucketForID t id = Some i /\ buckets t !! i = Some b /\
  bucketIndex (rootID t) id = Some (Z.of_nat i).
Proof.
  intros Hok Hid Hne. unfold bucketForID. destruct (bucketIndex (rootID t) id) as [z|] eqn:Hz; cbn.
  - pose proof (bucketIndex_bound _ _ _ (ok_root _ Hok) Hid Hz). destruct (lookup_lt_is_Some_2 (buckets t) (Z.to_nat z)) as [b Hb].
    { rewrite (ok_len _ Hok). lia. }
    exists (Z.to_nat z), b. split_and!; [done..|]. f_equal. lia.
  - unfold bucketIndex in Hz. destruct (bool_decide (id = rootID t)) eqn:Hd; [|done]. by apply bool_decide_eq_true_1 in Hd.
Qed.

(** A bucket replaced by one in order, with the index kept true, leaves the table in order. *)
Lemma set_bucket_ok t i b b' a : table_ok t -> buckets t !! i = Some b ->
  (forall n, n ∈ nodes b' -> ok (Id n) /\ bucketIndex (rootID t) (Id n) = Some (Z.of_nat i)) -> Len b' <= k t -> NoDup (map key (nodes b')) ->
  (forall s ids, a !! s = Some ids -> ids <> ∅) ->
  (forall s id, id ∈ (default ∅ (a !! s) : gset T) <-> (exists n, n ∈ nodes b' /\ key n = (s, id)) \/
     (id ∈ (default ∅ (addrs t !! s) : gset T) /\ forall n, n ∈ nodes b -> key n <> (s, id))) ->
  table_ok (set_bucket (set_addrs t a) i b').
Proof.
  intros Hok Hb Hpl Hroom Hkeys Hne Ha. pose proof (lookup_lt_Some _ _ _ Hb) as Hlt.
  assert (forall j c, buckets (set_bucket (set_addrs t a) i b') !! j = Some c -> (j = i /\ c = b') \/ (j <> i /\ buckets t !! j = Some c)) as Hget.
  { intros j c. cbn. intros Hc. destruct (decide (i = j)) as [->|Hij]; [rewrite list_lookup_insert_eq in Hc by done; left; by injection Hc as ->|].
    rewrite list_lookup_insert_ne in Hc by done. by right. }
  split; cbn [rootID k addrs set_bucket set_addrs].
  - apply (ok_root _ Hok).
  - cbn. rewrite length_insert. apply (ok_len _ Hok).
  - intros j c n Hc Hn. apply Hget in Hc as [[-> ->]|[_ Hc]]; [by apply Hpl|]. by apply (ok_placed _ Hok _ _ _ Hc).
  - intros j c Hc. apply Hget in Hc as [[-> ->]|[_ Hc]]; [done|]. by apply (ok_room _ Hok _ _ Hc).
  - intros j c Hc. apply Hget in Hc as [[-> ->]|[_ Hc]]; [done|]. by apply (ok_keys _ Hok _ _ Hc).
  - done.
  - intros s id. rewrite Ha. split.
    + intros [(n & Hn & Hk)|[Hin Hnot]].
      * exists i, b', n. cbn. by rewrite list_lookup_insert_eq.
      * apply (ok_addrs _ Hok) in Hin as (j & c & n & Hc & Hn & Hk). exists j, c, n. cbn. rewrite list_lookup_insert_ne; [done|]. intros ->.
        rewrite Hb in Hc. injection Hc as ->. by apply (Hnot n).
    + intros (j & c & n & Hc & Hn & Hk). apply Hget in Hc as [[-> ->]|[Hji Hc]]; [left; by exists n|]. right. split.
      * apply (ok_addrs _ Hok). by exists j, c, n.
      * intros m Hm Hkm. assert (Id m = Id n) as He by (unfold key in *; congruence).
        destruct (ok_placed _ Hok _ _ _ Hb Hm) as [_ H1]. destruct (ok_placed _ Hok _ _ _ Hc Hn) as [_ H2]. rewrite He in H1. rewrite H1 in H2. injection H2. lia.
Qed.

(** Two nodes of a bucket with one key are one. *)
Lemma node_same_key t i b n m : table_ok t -> buckets t !! i = Some b -> n ∈ nodes b -> m ∈ nodes b -> key n = key m -> n = m.
Proof.
  intros Hok Hb Hn Hm Hk. pose proof (ok_keys _ Hok _ _ Hb) as Hnd. apply list_elem_of_lookup in Hn as [x Hx], Hm as [y Hy].
  assert (x = y) as ->; [|congruence]. apply (NoDup_lookup (map key (nodes b)) x y (key n)); [done| |].
  - change (map key (nodes b)) with (key <$> nodes b). by rewrite list_lookup_fmap, Hx.
  - change (map key (nodes b)) with (key <$> nodes b). rewrite list_lookup_fmap, Hy. cbn. by rewrite Hk.
Qed.

Lemma default_Some {A} (d x : A) : default d (Some x) = x.
Proof. done. Qed.

Lemma key_or (l : list node) kx : (exists m, m ∈ l /\ key m = kx) \/ forall m, m ∈ l -> key m <> kx.
Proof.
  induction l as [|x l [(m & Hm & Hk)|Hno]]; [right; by intros m ?%elem_of_nil|left; exists m; by split; [right|]|].
  destruct (decide (key x = kx)) as [He|Hne]; [left; exists x; by split; [left|]|]. right. intros m [->|Hm]%elem_of_cons; [done|by apply Hno].
Qed.

Lemma addNode_ok now t n t' : table_ok t -> ok (Id n) -> addNode now t n = Ok t' -> table_ok t'.
Proof.
  intros Hok Hid. unfold addNode. case_bool_decide as Hroot; [done|]. destruct (bucketForID_some t (Id n) Hok Hid Hroot) as (i & b & -> & Hb & Hi). rewrite Hb.
  destruct (GetNode b (Addr_ n) (Id n)) as [|] eqn:Hget; [done|]. destruct (Z.leb_spec (k t) (Len b)) as [|Hroom]; [done|]. intros [= <-].
  assert (forall m, m ∈ nodes b -> key m <> key n) as Hnew.
  { intros m Hm He. apply hasAddrAndID_keys in He. unfold GetNode in Hget. apply list_elem_of_In in Hm. by rewrite (List.find_none _ _ Hget m Hm) in He. }
  apply (set_bucket_ok t i b); [done..| | | | |].
  - intros m. cbn. rewrite elem_of_app, list_elem_of_singleton. intros [Hm| ->]; [by apply (ok_placed _ Hok _ _ _ Hb)|done].
  - unfold Len in *. cbn. rewrite length_app. cbn. lia.
  - cbn. rewrite map_app. apply NoDup_app. split_and!; [by apply (ok_keys _ Hok _ _ Hb)| |apply NoDup_singleton].
    intros x (m & -> & Hm)%list_elem_of_fmap Hx. apply list_elem_of_singleton in Hx. by apply (Hnew m).
  - intros s ids. destruct (decide (String_ (Addr_ n) = s)) as [->|Hs].
    + rewrite lookup_insert_eq. intros [= <-]. set_solver.
    + rewrite lookup_insert_ne by done. apply (ok_nonempty _ Hok).
  - intros s id. destruct (decide (String_ (Addr_ n) = s)) as [<-|Hs].
    + rewrite lookup_insert_eq. rewrite default_Some, elem_of_union, elem_of_singleton. split.
      * intros [->|Hin]; [left; exists n; split; [cbn; apply elem_of_app; right; by left|done]|].
        destruct (key_or (nodes b) (String_ (Addr_ n), id)) as [(m & Hm & Hk)|Hno].
        { left. exists m. split; [cbn; apply elem_of_app; by left|done]. }
        by right.
      * intros [(m & Hm & Hk)|[Hin _]]; [|by right]. cbn in Hm. apply elem_of_app in Hm as [Hm|Hm].
        { right. apply (ok_addrs _ Hok). by exists i, b, m. }
        apply list_elem_of_singleton in Hm as ->. left. by injection Hk.
    + rewrite lookup_insert_ne by done. split.
      * intros Hin. destruct (key_or (nodes b) (s, id)) as [(m & Hm & Hk)|Hno].
        { left. exists m. split; [cbn; apply elem_of_app; by left|done]. }
        by right.
      * intros [(m & Hm & Hk)|[Hin _]]; [|done]. cbn in Hm. apply elem_of_app in Hm as [Hm|Hm]; [apply (ok_addrs _ Hok); by exists i, b, m|].
        apply list_elem_of_singleton in Hm as ->. injection Hk as Hs' _. done.
Qed.

(** A node of the table can be dropped, and only it goes. *)
Lemma dropNode_ok t i b n : table_ok t -> buckets t !! i = Some b -> n ∈ nodes b ->
  exists a, let b' := mkBucket (lastChanged b) (remove_first (hasAddrAndID (Addr_ n) (Id n)) (nodes b)) in
    dropNode t n = Some (set_bucket (set_addrs t a) i b') /\ table_ok (set_bucket (set_addrs t a) i b') /\ Len b' = Len b - 1.
Proof.
  intros Hok Hb Hn. assert (Id n ∈ (default ∅ (addrs t !! String_ (Addr_ n)) : gset T)) as Hin by (apply (ok_addrs _ Hok); by exists i, b, n).
  destruct (addrs t !! String_ (Addr_ n)) as [ids|] eqn:Hids; [|by apply elem_of_empty in Hin]. rewrite default_Some in Hin.
  assert (existsb (hasAddrAndID (Addr_ n) (Id n)) (nodes b) = true) as Hex by (apply existsb_elem; exists n; split; [done|by apply hasAddrAndID_keys]).
  set (a := if bool_decide (ids ∖ {[Id n]} = ∅) then delete (String_ (Addr_ n)) (addrs t) else <[String_ (Addr_ n) := ids ∖ {[Id n]}]> (addrs t)).
  exists a. cbv zeta. set (b' := mkBucket _ _).
  assert (forall s d, d ∈ (default ∅ (a !! s) : gset T) <-> d ∈ (default ∅ (addrs t !! s) : gset T) /\ (s, d) <> key n) as Ha.
  { intros s d. unfold a, key. destruct (decide (String_ (Addr_ n) = s)) as [<-|Hs].
    - rewrite Hids, default_Some. case_bool_decide as He.
      + rewrite lookup_delete_eq. cbn [default from_option]. split; [by intros ?%elem_of_empty|]. intros [Hd Hne]. exfalso. apply Hne. f_equal. set_solver.
      + rewrite lookup_insert_eq, default_Some. rewrite elem_of_difference, elem_of_singleton. split; (intros [Hd Hne]; split; [done|congruence]).
    - case_bool_decide; [rewrite lookup_delete_ne by done|rewrite lookup_insert_ne by done]; (split; [intros Hd; split; [done|congruence]|by intros [Hd _]]). }
  pose proof (remove_first_spec (hasAddrAndID (Addr_ n) (Id n)) (nodes b) (key n) (hasAddrAndID_keys n) (ok_keys _ Hok _ _ Hb)) as Hrem.
  split_and!.
  - unfold dropNode. rewrite Hids. cbn [mbind option_bind]. rewrite bool_decide_true by done. cbn [negb].
    rewrite (placed_bucket _ _ _ _ Hok Hb Hn). cbn [mbind option_bind]. rewrite Hb. cbn [mbind option_bind]. by rewrite Hex.
  - apply (set_bucket_ok t i b); [done..| | | | |].
    + intros m Hm. apply Hrem in Hm as [Hm _]. by apply (ok_placed _ Hok _ _ _ Hb).
    + unfold Len. cbn. pose proof (remove_first_length _ _ Hex). pose proof (ok_room _ Hok _ _ Hb) as Hroom. unfold Len in Hroom. lia.
    + cbn. by apply remove_first_keys, (ok_keys _ Hok _ _ Hb).
    + intros s ds. unfold a. case_bool_decide as He; [intros [_ Hd]%lookup_delete_Some; by apply (ok_nonempty _ Hok _ _ Hd)|].
      intros [[_ <-]|[_ Hd]]%lookup_insert_Some; [done|by apply (ok_nonempty _ Hok _ _ Hd)].
    + intros s d. rewrite Ha. split.
      * intros [Hd Hne]. destruct (key_or (nodes b) (s, d)) as [(m & Hm & Hk)|Hno]; [|by right]. left. exists m. split; [|done]. apply Hrem. split; [done|congruence].
      * intros [(m & Hm & Hk)|[Hd Hno]].
        { apply Hrem in Hm as [Hm Hne]. split; [apply (ok_addrs _ Hok); by exists i, b, m|congruence]. }
        split; [done|]. intros He. by apply (Hno n Hn).
  - unfold Len. cbn. pose proof (remove_first_length _ _ Hex). lia.
Qed.

Lemma alter_bucket_ok t i b b' : table_ok t -> buckets t !! i = Some b -> map key (nodes b') = map key (nodes b) -> table_ok (set_bucket t i b').
Proof.
  intros Hok Hb Hk. assert (forall s d, (exists n, n ∈ nodes b' /\ key n = (s, d)) <-> exists n, n ∈ nodes b /\ key n = (s, d)) as Hiff.
  { intros s d. assert (forall l, (exists n : node, n ∈ l /\ key n = (s, d)) <-> (s, d) ∈ map key l) as Hl by (intros l; setoid_rewrite list_elem_of_fmap; naive_solver).
    by rewrite !Hl, Hk. }
  replace (set_bucket t i b') with (set_bucket (set_addrs t (addrs t)) i b') by done. apply (set_bucket_ok t i b); [done..| | | | |].
  - intros n Hn. destruct (proj1 (Hiff (String_ (Addr_ n)) (Id n))) as (m & Hm & He); [by exists n|].
    assert (Id m = Id n) as <- by (unfold key in He; congruence). by apply (ok_placed _ Hok _ _ _ Hb).
  - unfold Len. rewrite <- (length_map key), Hk, length_map. by apply (ok_room _ Hok _ _ Hb).
  - rewrite Hk. by apply (ok_keys _ Hok _ _ Hb).
  - apply (ok_nonempty _ Hok).
  - intros s d. rewrite Hiff. split; [|intros [(m & Hm & He)|[Hd _]]; [apply (ok_addrs _ Hok); by exists i, b, m|done]].
    intros Hd. destruct (key_or (nodes b) (s, d)) as [Hex|Hno]; [by left|by right].
Qed.

(** [getNode] finds exactly the node of the table with that address and identifier. *)
Lemma getNode_spec t addr id n : table_ok t -> getNode t addr id = Some n <->
  exists i b, buckets t !! i = Some b /\ n ∈ nodes b /\ key n = (String_ addr, id).
Proof.
  intros Hok. unfold getNode. split.
  - case_bool_decide; [done|]. destruct (bucketForID t id) as [i|] eqn:Hi; cbn; [|done]. destruct (buckets t !! i) as [b|] eqn:Hb; cbn; [|done].
    unfold GetNode. intros Hf. apply List.find_some in Hf as [Hn Hp]. exists i, b. split_and!; [done|by apply list_elem_of_In|by apply hasAddrAndID_key].
  - intros (i & b & Hb & Hn & Hk). assert (Id n = id) as <- by (unfold key in Hk; congruence). rewrite bool_decide_false.
    + rewrite (placed_bucket _ _ _ _ Hok Hb Hn). cbn. rewrite Hb. cbn. unfold GetNode. destruct (List.find _ _) as [m|] eqn:Hf.
      * apply List.find_some in Hf as [Hm Hp]. apply list_elem_of_In in Hm. apply hasAddrAndID_key in Hp. f_equal. apply (node_same_key t i b); [done..|congruence].
      * apply list_elem_of_In in Hn. pose proof (List.find_none _ _ Hf n Hn) as Hp. by rewrite (proj2 (hasAddrAndID_key _ _ _) Hk) in Hp.
    + intros He. destruct (ok_placed _ Hok _ _ _ Hb Hn) as [_ Hi]. unfold bucketIndex in Hi. by rewrite bool_decide_true in Hi.
Qed.

Lemma numNodes_bound t : table_ok t -> 0 <= numNodes t <= 160 * k t.
Proof.
  intros Hok. unfold numNodes. assert (forall l z, (forall b, b ∈ l -> Len b <= k t) -> z <= foldl (fun num b => num + Len b) z l <= z + Z.of_nat (length l) * k t) as Hf.
  { induction l as [|b l IH]; intros z Hl; cbn [foldl length]; [lia|]. pose proof (IH (z + Len b) ltac:(intros c Hc; apply Hl; by right)).
    pose proof (Hl b ltac:(by left)). assert (0 <= Len b) by (unfold Len; lia). nia. }
  pose proof (Hf (buckets t) 0) as H. rewrite (ok_len _ Hok) in H. apply H. intros b [i Hb]%list_elem_of_lookup. by apply (ok_room _ Hok i).
Qed.

(** ** What the server does to it *)

Section promises.
Context (NoSecurity : bool) (order : list node -> list node) (Horder : forall l, order l ≡ₚ l).

(** A node that makes way for [n]. *)
Definition gives_way (self : T) (now : Z) (n bn : node) : bool :=
  nodeIsBad NoSecurity self bn || (IsGood NoSecurity self now n && match lastGotResponse bn with None => true | Some _ => false end).

Lemma make_room_spec now n i b l t : table_ok t -> buckets t !! i = Some b -> Len b = k t -> (forall m, m ∈ l -> m ∈ nodes b) ->
  make_room NoSecurity now n i l t = Some (t, true) \/
  exists bn t', bn ∈ l /\ gives_way (rootID t) now n bn = true /\ dropNode t bn = Some t' /\ make_room NoSecurity now n i l t = Some (t', false).
Proof.
  intros Hok Hb Hfull. induction l as [|bn l IH]; intros Hl; cbn [make_room]; [by left|]. fold (gives_way (rootID t) now n bn).
  destruct (gives_way (rootID t) now n bn) eqn:Hw.
  - destruct (dropNode_ok t i b bn Hok Hb (Hl bn ltac:(by left))) as (a & Hd & _ & Hlen). cbv zeta in *. rewrite Hd. cbn [mbind option_bind].
    right. exists bn. eexists. split_and!; [by left|done|done|]. cbn [set_bucket buckets set_addrs]. rewrite list_lookup_insert_eq by (by eapply lookup_lt_Some).
    cbn [mbind option_bind]. rewrite (proj2 (Z.leb_gt _ _)); [done|]. match goal with |- Len ?x < _ => change (Len x < k t) end. lia.
  - cbn [mbind option_bind]. rewrite Hb. cbn [mbind option_bind]. rewrite (proj2 (Z.leb_le _ _)) by lia.
    destruct (IH ltac:(intros m Hm; apply Hl; by right)) as [He|(bn' & t' & Hin & Hr)]; [by left|right]. exists bn', t'. split; [by right|done].
Qed.

Lemma addNode_some now t n i b : table_ok t -> nodeIsBad NoSecurity (rootID t) n = false -> bucketForID t (Id n) = Some i -> buckets t !! i = Some b ->
  GetNode b (Addr_ n) (Id n) = None -> Len b < k t -> exists t', addNode now t n = Ok t' /\ (forall m, m ∈ nodes b -> has t' (String_ (Addr_ m)) (Id m)) /\
    (forall j c m, j <> i -> buckets t !! j = Some c -> m ∈ nodes c -> has t' (String_ (Addr_ m)) (Id m)) /\ has t' (String_ (Addr_ n)) (Id n).
Proof.
  intros Hok Hbad Hi Hb Hg Hroom. unfold addNode. rewrite bool_decide_false.
  - rewrite Hi, Hb, Hg, (proj2 (Z.leb_gt _ _)) by lia. eexists. split; [done|]. pose proof (lookup_lt_Some _ _ _ Hb).
    split_and!; [intros m Hm; exists i, (AddNode now n b), m|intros j c m Hj Hc Hm; exists j, c, m|exists i, (AddNode now n b), n]; cbn;
      rewrite ?list_lookup_insert_eq, ?list_lookup_insert_ne by done; split_and!; try done; apply elem_of_app; [by left|right; by left].
  - intros He. unfold nodeIsBad, nodeErr in Hbad. by rewrite bool_decide_true in Hbad.
Qed.

Lemma addNode_same now t n t' : addNode now t n = Ok t' -> rootID t' = rootID t /\ k t' = k t.
Proof.
  unfold addNode. intros Ht. repeat match type of Ht with context [match ?x with _ => _ end] => destruct x; try done end. by injection Ht as <-.
Qed.

(** What is kept of a table's nodes where [n] comes in. *)
Definition keeps (now : Z) (n : node) (t t' : table) : Prop :=
  rootID t' = rootID t /\ k t' = k t /\
  forall i b m, buckets t !! i = Some b -> m ∈ nodes b -> has t' (String_ (Addr_ m)) (Id m) \/ gives_way (rootID t) now n m = true.

Lemma keeps_refl now n t : keeps now n t t.
Proof. split_and!; [done..|]. intros i b m Hb Hm. left. by exists i, b, m. Qed.

Lemma server_addNode_spec now t n : table_ok t -> ok (Id n) -> Id n <> rootID t -> getNode t (Addr_ n) (Id n) = None ->
  exists t' e, server_addNode NoSecurity order now t n = Some (t', e) /\ table_ok t' /\ keeps now n t t'.
Proof.
  intros Hok Hid Hroot Hget. unfold server_addNode.
  destruct (nodeIsBad NoSecurity (rootID t) n) eqn:Hbad; [do 2 eexists; split_and!; [done..|apply keeps_refl]|].
  destruct (bucketForID_some t (Id n) Hok Hid Hroot) as (i & b & Hi & Hb & _). rewrite Hi. cbn [mbind option_bind]. rewrite Hb. cbn [mbind option_bind].
  assert (forall l, (forall m, m ∈ l -> m ∈ nodes b) -> List.find (hasAddrAndID (Addr_ n) (Id n)) l = None) as Hnone.
  { intros l Hl. destruct (List.find _ _) as [m|] eqn:Hf; [|done]. apply List.find_some in Hf as [Hm Hp]. apply list_elem_of_In, Hl in Hm.
    assert (getNode t (Addr_ n) (Id n) = Some m) as Hg; [|by rewrite Hg in Hget]. apply getNode_spec; [done|]. apply hasAddrAndID_key in Hp. by exists i, b. }
  destruct (Z.leb_spec (k t) (Len b)) as [Hfull|Hroom].
  - pose proof (ok_room _ Hok _ _ Hb). destruct (make_room_spec now n i b (order (nodes b)) t Hok Hb ltac:(lia)) as [->|(bn & t1 & Hin & Hw & Hd & ->)].
    { intros m Hm. by rewrite (Horder (nodes b)) in Hm. }
    { cbn [mbind option_bind]. do 2 eexists; split_and!; [done..|apply keeps_refl]. }
    cbn [mbind option_bind]. rewrite (Horder (nodes b)) in Hin. destruct (dropNode_ok t i b bn Hok Hb Hin) as (a & Hd' & Hok1 & Hlen). cbv zeta in *.
    rewrite Hd in Hd'. injection Hd' as ->. set (b1 := mkBucket _ _) in *. set (t1 := set_bucket _ _ _) in *.
    assert (buckets t1 !! i = Some b1) as Hb1 by (cbn; apply list_lookup_insert_eq; by eapply lookup_lt_Some).
    destruct (addNode_some now t1 n i b1 Hok1 Hbad Hi Hb1) as (t2 & Ht2 & Hsame & Hother & Hn).
    { apply Hnone. intros m Hm. exact (in_remove_first _ _ _ Hm). }
    { cbn. lia. }
    rewrite Ht2. do 2 eexists. split; [done|]. split; [by apply (addNode_ok now t1 n t2)|]. apply addNode_same in Ht2 as [Hr2 Hk2]. split_and!; [exact Hr2|exact Hk2|].
    intros j c0 m Hc Hm. destruct (decide (j = i)) as [->|Hj].
    + rewrite Hb in Hc. injection Hc as <-. destruct (decide (key m = key bn)) as [He|Hne]; [right; by rewrite (node_same_key t i b m bn)|].
      left. apply Hsame. by apply (remove_first_spec _ _ (key bn) (hasAddrAndID_keys bn) (ok_keys _ Hok _ _ Hb)).
    + left. apply (Hother j c0 m Hj); [cbn; by rewrite list_lookup_insert_ne|done].
  - cbn [mbind option_bind]. destruct (addNode_some now t n i b Hok Hbad Hi Hb) as (t2 & Ht2 & Hsame & Hother & Hn); [by apply Hnone|done|].
    rewrite Ht2. do 2 eexists. split; [done|]. split; [by apply (addNode_ok now t n t2)|]. apply addNode_same in Ht2 as [Hr2 Hk2]. split_and!; [exact Hr2|exact Hk2|].
    intros j c0 m Hc Hm. left. destruct (decide (j = i)) as [->|Hj]; [rewrite Hb in Hc; injection Hc as <-; by apply Hsame|by apply (Hother j c0)].
Qed.

(** What an update leaves: never a panic, a table in order, and of its nodes all but one that gave way. *)
Lemma updateNode_spec now t addr id tryAdd c : table_ok t -> ok id ->
  exists t' e, updateNode NoSecurity order now t addr (Some id) tryAdd c = Some (t', e) /\ table_ok t' /\ keeps now (update c now (mkNode id addr None None 0 false)) t t'.
Proof.
  intros Hok Hid. unfold updateNode. destruct (getNode t addr id) as [m|] eqn:Hget.
  - apply getNode_spec in Hget as (i & b & Hb & Hm & Hk); [|done]. assert (Id m = id) as <- by (unfold key in Hk; congruence).
    rewrite (placed_bucket _ _ _ _ Hok Hb Hm). cbn [mbind option_bind]. rewrite Hb. cbn [mbind option_bind]. do 2 eexists. split; [done|].
    assert (map key (update_first (hasAddrAndID addr (Id m)) (update c now) (nodes b)) = map key (nodes b)) as Hkeys by (apply update_first_keys; intros n; apply update_key).
    split; [by apply (alter_bucket_ok t i b)|]. split_and!; [done..|]. intros j b' n Hb' Hn. left. destruct (decide (i = j)) as [->|Hij].
    + rewrite Hb in Hb'. injection Hb' as <-. assert (key n ∈ map key (update_first (hasAddrAndID addr (Id m)) (update c now) (nodes b))) as Hin.
      { rewrite Hkeys. apply list_elem_of_fmap. by exists n. }
      apply list_elem_of_fmap in Hin as (n' & Hn' & Hin). exists j. eexists. exists n'. cbn. rewrite list_lookup_insert_eq by (by eapply lookup_lt_Some). by split_and!.
    + exists j, b', n. cbn. by rewrite list_lookup_insert_ne.
  - destruct (negb tryAdd); [do 2 eexists; split_and!; [done..|apply keeps_refl]|]. case_bool_decide as Hroot; [do 2 eexists; split_and!; [done..|apply keeps_refl]|].
    apply server_addNode_spec; by destruct c.
Qed.

(** The table a server comes to have. *)
Inductive reachable : table -> Prop :=
  | begins id : ok id -> reachable (new_table id)
  | hears now t addr id tryAdd c t' e : reachable t -> match id with Some id => ok id | None => True end ->
      updateNode NoSecurity order now t addr id tryAdd c = Some (t', e) -> reachable t'
  | pinged now t addr id t' : reachable t -> ok id -> NodeRespondedToPing now t addr id = Some t' -> reachable t'.
End promises.

Lemma new_table_ok id : ok id -> table_ok (new_table id).
Proof.
  intros Hid. assert (forall i b, buckets (new_table id) !! i = Some b -> b = no_nodes) as Hb by (intros i b Hb; cbn -[replicate] in Hb; apply lookup_replicate in Hb; apply Hb).
  split; [done|done| | | | |].
  - intros i b n Hi Hn. rewrite (Hb i b Hi) in Hn. by apply elem_of_nil in Hn.
  - intros i b Hi. rewrite (Hb i b Hi). done.
  - intros i b Hi. rewrite (Hb i b Hi). apply NoDup_nil_2.
  - done.
  - intros s d. cbn. split; [done|]. intros (i & b & n & Hi & Hn & _). cbn -[replicate] in Hi. rewrite (Hb i b Hi) in Hn. by apply elem_of_nil in Hn.
Qed.

Lemma NodeRespondedToPing_ok now t addr id : table_ok t -> ok id -> exists t', NodeRespondedToPing now t addr id = Some t' /\ table_ok t' /\ k t' = k t.
Proof.
  intros Hok Hid. unfold NodeRespondedToPing. case_bool_decide as Hroot; [by exists t|]. destruct (bucketForID_some t id Hok Hid Hroot) as (i & b & -> & Hb & _). cbn [mbind option_bind].
  rewrite Hb. cbn [mbind option_bind]. destruct (GetNode b addr id); [|by exists t]. eexists. split; [done|]. split; [by apply (alter_bucket_ok t i b)|done].
Qed.

Lemma reachable_ok NoSecurity order t : (forall l, order l ≡ₚ l) -> reachable NoSecurity order t -> table_ok t /\ k t = 8.
Proof.
  intros Ho. induction 1 as [id Hid|now t addr id tryAdd c t' e _ [IH Hk] Hid Hu|now t addr id t' _ [IH Hk] Hid Hp].
  - split; [by apply new_table_ok|done].
  - destruct id as [id|]; [|cbn in Hu; by injection Hu as <- _]. destruct (updateNode_spec NoSecurity order Ho now t addr id tryAdd c IH Hid) as (t1 & e1 & Ht1 & Hok & _ & Hk1 & _).
    rewrite Hu in Ht1. injection Ht1 as -> _. by rewrite Hk1.
  - destruct (NodeRespondedToPing_ok now t addr id IH Hid) as (t1 & Ht1 & Hok & Hk1). rewrite Hp in Ht1. injection Ht1 as ->. by rewrite Hk1.
Qed.

(** ** The nearest nodes *)

Section closest.
Context (order : list node -> list node) (Horder : forall l, order l ≡ₚ l) (filter : node -> bool) (t : table) (Hok : table_ok t).

(** What bucket [j] gives. *)
Definition passing (j : nat) : list node := List.filter filter (order (match buckets t !! j with Some b => nodes b | None => [] end)).

Lemma passing_elem j n : n ∈ passing j <-> filter n = true /\ exists b, buckets t !! j = Some b /\ n ∈ nodes b.
Proof.
  unfold passing. rewrite elem_of_filter_b, (Horder _). destruct (buckets t !! j) as [b|]; [naive_solver|]. split; [by intros [?%elem_of_nil _]|naive_solver].
Qed.

Lemma passing_bucket j n : n ∈ passing j -> ok (Id n) /\ bucketIndex (rootID t) (Id n) = Some (Z.of_nat j).
Proof. intros (_ & b & Hb & Hn)%passing_elem. by apply (ok_placed _ Hok _ _ _ Hb). Qed.

Lemma passing_disjoint i j n : n ∈ passing i -> n ∈ passing j -> i = j.
Proof. intros [_ Hi]%passing_bucket [_ Hj]%passing_bucket. rewrite Hi in Hj. injection Hj. lia. Qed.

Lemma passing_NoDup j : NoDup (passing j).
Proof.
  unfold passing. assert (forall l, NoDup l -> NoDup (List.filter filter l)) as Hf.
  { induction 1 as [|x l Hx Hl IH]; cbn; [constructor|]. destruct (filter x); [|done]. constructor; [|done]. by intros [Hin _]%elem_of_filter_b. }
  apply Hf. rewrite (Horder _). destruct (buckets t !! j) as [b|] eqn:Hb; [|constructor]. pose proof (ok_keys _ Hok _ _ Hb) as Hk.
  change (map key (nodes b)) with (key <$> nodes b) in Hk. by apply NoDup_fmap_1 in Hk.
Qed.

(** The loop stops in a bucket [m]: all that pass in the buckets above it were taken, too few. *)
Lemma closest_loop_spec k bi ret : NoDup ret -> (forall n j, (j <= bi)%nat -> n ∈ passing j -> n ∉ ret) ->
  NoDup (closest_loop order filter k t bi ret) /\
  ((k <= Z.of_nat (length ret) /\ closest_loop order filter k t bi ret = ret) \/
   exists m A, (m <= bi)%nat /\ closest_loop order filter k t bi ret = A ++ passing m /\ Z.of_nat (length A) < k /\
     (forall n, n ∈ A <-> n ∈ ret \/ exists j, (m < j <= bi)%nat /\ n ∈ passing j) /\
     (m = O \/ k <= Z.of_nat (length (closest_loop order filter k t bi ret)))).
Proof.
  revert ret. induction bi as [|bi IH]; intros ret Hnd Hdis; cbn [closest_loop]; destruct (Z.leb_spec k (Z.of_nat (length ret))) as [Hk|Hk]; fold (passing 0%nat).
  - split; [done|by left].
  - split; [apply NoDup_app; split_and!; [done| |apply passing_NoDup]; intros n Hn Hp; by apply (Hdis n 0%nat)|]. right. exists 0%nat, ret.
    split_and!; [done..| |by left]. intros n. split; [by left|]. intros [Hn|(j & Hj & _)]; [done|lia].
  - split; [done|by left].
  - fold (passing (S bi)). destruct (IH (ret ++ passing (S bi))) as [Hnd' [[Hge ->]|(m & A & Hm & He & HA & Hin & Hstop)]].
    + apply NoDup_app. split_and!; [done| |apply passing_NoDup]. intros n Hn Hp. by apply (Hdis n (S bi)).
    + intros n j Hj Hn [Hr|Hp]%elem_of_app; [by apply (Hdis n j); [lia|..]|]. pose proof (passing_disjoint _ _ _ Hn Hp). lia.
    + split; [apply NoDup_app; split_and!; [done| |apply passing_NoDup]; intros n Hn Hp; by apply (Hdis n (S bi))|]. right. exists (S bi), ret.
      split_and!; [done..| |by right]. intros n. split; [by left|]. intros [Hn|(j & Hj & _)]; [done|lia].
    + split; [done|]. right. exists m, A. split_and!; [lia|done|done| |done]. intros n. rewrite Hin, elem_of_app. split.
      * intros [[Hn|Hn]|(j & Hj & Hn)]; [by left|right; exists (S bi); split; [lia|done]|right; exists j; split; [lia|done]].
      * intros [Hn|(j & Hj & Hn)]; [by left; left|]. destruct (decide (j = S bi)) as [->|]; [left; by right|right; exists j; split; [lia|done]].
Qed.
End closest.

Lemma truncate_eq {A} (l : list A) n : 0 <= n -> (if n <? Z.of_nat (length l) then take (Z.to_nat n) l else l) = take (Z.to_nat n) l.
Proof. intros Hn. destruct (Z.ltb_spec n (Z.of_nat (length l))); [done|]. rewrite take_ge; [done|lia]. Qed.

Lemma elem_of_take_sub {A} n (l : list A) x : x ∈ take n l -> x ∈ l.
Proof. intros Hx. rewrite <- (take_drop n l). apply elem_of_app. by left. Qed.

(** The target shares with the root the bits before the bucket the search begins in. *)
Lemma first_bucket_agree t target : table_ok t -> ok target ->
  (first_bucket t target < 160)%nat /\ forall i, 0 <= i < Z.of_nat (first_bucket t target) -> bit target i = bit (rootID t) i.
Proof.
  intros Hok Ht. unfold first_bucket. case_bool_decide as Hr; [rewrite (ok_len _ Hok), Hr; split; [lia|done]|].
  destruct (bucketForID_some t target Hok Ht Hr) as (i & b & Hi & Hb & Hbi). rewrite Hi, default_Some.
  pose proof (bucketIndex_bound _ _ _ (ok_root _ Hok) Ht Hbi) as Hbound. split; [lia|]. by apply (bucketIndex_first _ _ _ (ok_root _ Hok) Ht Hbound).
Qed.

(** The nodes given for a target are nodes of the table that pass, each once, at most as many as asked for.  A node
    passing but left out is in a bucket deeper than the target's, or as many as asked for were found and
    each of them is in the same bucket as it or strictly nearer to the target. *)
Theorem closestNodes_spec order t n target filter (Ho : forall l, order l ≡ₚ l) (Hok : table_ok t) (Ht : ok target) (Hn : 0 <= n) :
  let ret := closestNodes order t n target filter in
  NoDup ret /\ Z.of_nat (length ret) <= n /\
  (forall x, x ∈ ret -> filter x = true /\ exists i b, buckets t !! i = Some b /\ x ∈ nodes b) /\
  (forall i b y, buckets t !! i = Some b -> y ∈ nodes b -> filter y = true -> y ∉ ret -> (i <= first_bucket t target)%nat ->
     Z.of_nat (length ret) = n /\
     forall x, x ∈ ret -> bucketIndex (rootID t) (Id x) = Some (Z.of_nat i) \/ Cmp (Distance (Id x) target) (Distance (Id y) target) = -1).
Proof.
  cbv zeta. unfold closestNodes. set (fb := first_bucket t target). set (L := closest_loop _ _ _ _ _ _).
  destruct (closest_loop_spec order Ho filter t Hok n fb [] (NoDup_nil_2) ltac:(intros ? ? _ _ ?%elem_of_nil; done)) as [Hnd Hcase]. fold L in Hnd, Hcase.
  rewrite truncate_eq by done. destruct (first_bucket_agree t target Hok Ht) as [Hfb Hagree]. fold fb in Hfb, Hagree.
  assert (forall x, x ∈ L -> exists j, (j <= fb)%nat /\ x ∈ passing order filter t j) as HL.
  { intros x Hx. destruct Hcase as [[_ ->]|(m & A & Hm & -> & _ & Hin & _)]; [by apply elem_of_nil in Hx|]. apply elem_of_app in Hx as [Hx|Hx]; [|by exists m].
    apply Hin in Hx as [Hx|(j & Hj & Hx)]; [by apply elem_of_nil in Hx|]. exists j. split; [lia|done]. }
  assert (forall x, x ∈ take (Z.to_nat n) L -> x ∈ L) as Hsub by (intros x; apply elem_of_take_sub).
  split; [by eapply sublist_NoDup, sublist_take|]. split; [rewrite length_take; lia|]. split.
  { intros x Hx. apply Hsub, HL in Hx as (j & _ & [Hf Hb]%passing_elem); [|done]. split; [done|]. by exists j. }
  intros i b y Hb Hy Hf Hout Hi. assert (y ∈ passing order filter t i) as Hyp by (apply passing_elem; [done|]; split; [done|by exists b]).
  destruct (passing_bucket order Ho filter t Hok _ _ Hyp) as [Hoky Hby].
  destruct Hcase as [[Hle He]|(m & A & Hm & He & HA & Hin & Hstop)].
  { cbn in Hle. assert (n = 0) as -> by lia. split; [done|]. by intros x ?%elem_of_nil. }
  assert (Z.of_nat (length (take (Z.to_nat n) A)) = Z.of_nat (length A)) as HtA by (rewrite length_take; lia).
  assert (y ∉ A) as HyA by (intros HyA; apply Hout; rewrite He, take_app_ge by lia; apply elem_of_app; by left).
  assert (i <= m)%nat as Him by (destruct (decide (i <= m)%nat); [done|]; exfalso; apply HyA, Hin; right; exists i; split; [lia|done]).
  assert (n <= Z.of_nat (length L)) as Hlen.
  { destruct Hstop as [->|]; [|done]. assert (i = 0)%nat as -> by lia. destruct (Z_le_gt_dec n (Z.of_nat (length L))); [done|]. exfalso. apply Hout.
    rewrite take_ge by lia. rewrite He. apply elem_of_app. by right. }
  split; [rewrite length_take; lia|]. intros x Hx. apply Hsub in Hx. rewrite He in Hx.
  assert (exists j, (m <= j <= fb)%nat /\ x ∈ passing order filter t j) as (j & Hj & Hxp).
  { apply elem_of_app in Hx as [Hx|Hx]; [|exists m; split; [lia|done]]. apply Hin in Hx as [Hx|(j & Hj & Hx)]; [by apply elem_of_nil in Hx|]. exists j. split; [lia|done]. }
  destruct (passing_bucket order Ho filter t Hok _ _ Hxp) as [Hokx Hbx]. destruct (decide (j = i)) as [->|Hne]; [by left|right].
  apply (nearer_bucket (rootID t) target _ _ (Z.of_nat j) (Z.of_nat i)); try done; [apply (ok_root _ Hok)|lia|lia|]. intros x' Hx'. apply Hagree. lia.
Qed.

(** ** The table at every moment *)

(** C16: whatever packets a server hears and pings it sends, its table stays in order: every node in the bucket
    its identifier belongs to, no node twice, at most eight to a bucket and so at most 1280 in all, and the index by address exact; and
    none of the panics of [bucketIndex], [dropNode] and [addNode] is ever reached. *)
Theorem table_in_order NoSecurity order t (Ho : forall l, order l ≡ₚ l) (Hr : reachable NoSecurity order t) :
  table_ok t /\ 0 <= numNodes t <= 1280 /\
  (forall now addr id tryAdd c, match id with Some id => ok id | None => True end -> is_Some (updateNode NoSecurity order now t addr id tryAdd c)) /\
  (forall now addr id, ok id -> is_Some (NodeRespondedToPing now t addr id)) /\
  (forall i b n, buckets t !! i = Some b -> n ∈ nodes b -> is_Some (dropNode t n)) /\
  (forall addr, Forall is_Some (addrNodes t addr)).
Proof.
  destruct (reachable_ok NoSecurity order t Ho Hr) as [Hok Hk]. split; [done|]. split; [pose proof (numNodes_bound _ Hok); lia|]. split_and!.
  - intros now addr [id|] tryAdd c Hid; [|by eexists]. destruct (updateNode_spec NoSecurity order Ho now t addr id tryAdd c Hok Hid) as (t' & e & -> & _). by eexists.
  - intros now addr id Hid. destruct (NodeRespondedToPing_ok now t addr id Hok Hid) as (t' & -> & _). by eexists.
  - intros i b n Hb Hn. destruct (dropNode_ok t i b n Hok Hb Hn) as (a & -> & _). by eexists.
  - intros addr. apply Forall_forall. intros o (d & -> & Hd)%list_elem_of_fmap. apply elem_of_elements, (ok_addrs _ Hok) in Hd as (i & b & n & Hb & Hn & Hkey).
    exists n. apply (proj2 (getNode_spec t addr d n Hok)). by exists i, b.
Qed.

(** A node that is not bad and has answered once is never dropped for another: after any update the table still holds it. *)
Theorem answered_stays NoSecurity order t now addr id tryAdd c t' e i b n (Ho : forall l, order l ≡ₚ l) (Hok : table_ok t) (Hid : ok id)
    (Hu : updateNode NoSecurity order now t addr (Some id) tryAdd c = Some (t', e)) (Hb : buckets t !! i = Some b) (Hn : n ∈ nodes b)
    (Hgood : nodeIsBad NoSecurity (rootID t) n = false) (Hans : lastGotResponse n <> None) :
  has t' (String_ (Addr_ n)) (Id n).
Proof.
  destruct (updateNode_spec NoSecurity order Ho now t addr id tryAdd c Hok Hid) as (t1 & e1 & Ht1 & _ & _ & _ & Hkeep). rewrite Hu in Ht1. injection Ht1 as <- <-.
  destruct (Hkeep i b n Hb Hn) as [|Hw]; [done|]. unfold gives_way in Hw. rewrite Hgood in Hw. cbn in Hw. destruct (lastGotResponse n); [|done]. by rewrite andb_false_r in Hw.
Qed.

(** ** A small table *)

Definition root0 : T := replicate 20 0.
Definition id_ (first : Z) : T := first :: replicate 19 1.
Definition host (n : Z) (s : string) : Addr := mkAddr [8; 8; 8; n] 6881 s.
Definition a1 : Addr := host 1 "8.8.8.1:6881".
Definition a2 : Addr := host 2 "8.8.8.2:6881".

Definition heard (now : Z) (addr : Addr) (id : T) (c : change) (t : table) : table :=
  match updateNode true (fun l => l) now t addr (Some id) true c with Some (t', _) => t' | None => t end.

(** Two nodes have answered: one in bucket 0, one in bucket 1. *)
Definition two_nodes : table := heard 2 a2 (id_ 64) GotResponse (heard 1 a1 (id_ 128) GotResponse (new_table root0)).

Lemma heard_reachable now addr id c t : ok id -> reachable true (fun l => l) t -> reachable true (fun l => l) (heard now addr id c t).
Proof.
  intros Hid Hr. unfold heard. destruct (updateNode true (fun l => l) now t addr (Some id) true c) as [[t' e]|] eqn:Hu; [|done].
  by apply (hears true (fun l => l) now t addr (Some id) true c t' e).
Qed.

Lemma two_nodes_reachable : reachable true (fun l => l) two_nodes.
Proof. apply heard_reachable; [ok_now|]. apply heard_reachable; [ok_now|]. apply begins. ok_now. Qed.

Lemma two_nodes_ok : table_ok two_nodes.
Proof. apply (reachable_ok true (fun l => l)); [done|apply two_nodes_reachable]. Qed.

Lemma table_in_order_witness : numNodes two_nodes = 2 /\ 0 <= numNodes two_nodes <= 1280.
Proof.
  split; [vm_compute; reflexivity|].
  exact (proj1 (proj2 (table_in_order true (fun l => l) two_nodes (fun l => Permutation_refl l) two_nodes_reachable))).
Defined.

Definition n1 : node := mkNode (id_ 128) a1 None (Some 1) 1 false.

Lemma answered_stays_witness : has (heard 3 a2 (id_ 65) GotQuery two_nodes) (String_ a1) (id_ 128).
Proof.
  apply (answered_stays true (fun l => l) two_nodes 3 a2 (id_ 65) true GotQuery _ None 0 (mkBucket (Some 1) [n1]) n1);
    [done|apply two_nodes_ok|ok_now|vm_compute; reflexivity|vm_compute; reflexivity|by left|vm_compute; reflexivity|done].
Defined.

Lemma closestNodes_spec_witness : exists x, closestNodes (fun l => l) two_nodes 1 (id_ 64) (fun _ => true) = [x] /\ Id x = id_ 64 /\
  Z.of_nat (length (closestNodes (fun l => l) two_nodes 1 (id_ 64) (fun _ => true))) <= 1.
Proof.
  eexists. split; [vm_compute; reflexivity|]. split; [reflexivity|].
  exact (proj1 (proj2 (closestNodes_spec (fun l => l) two_nodes 1 (id_ 64) (fun _ => true) (fun l => Permutation_refl l) two_nodes_ok ltac:(ok_now) ltac:(lia)))).
Defined.

(** The buckets deeper than the target's are never looked in, though their nodes are nearer than those of the buckets before it:
    with a node in bucket 1 only, nobody is near a target of bucket 0; and for a target of bucket 1 a node of bucket 0 is given
    where one of bucket 2, nearer, is not. *)
Lemma deeper_buckets_missed :
  closestNodes (fun l => l) (heard 2 a2 (id_ 64) GotResponse (new_table root0)) 8 (id_ 200) (fun _ => true) = [] /\
  let t := heard 2 a2 (id_ 32) GotResponse (heard 1 a1 (id_ 128) GotResponse (new_table root0)) in
  map Id (closestNodes (fun l => l) t 8 (id_ 96) (fun _ => true)) = [id_ 128] /\
  Cmp (Distance (id_ 32) (id_ 96)) (Distance (id_ 128) (id_ 96)) = -1.
Proof. split; [|split]; vm_compute; reflexivity. Qed.
