(* ===== verification/Ordered.v ===== *)
(** * Containers kept in order

    What the DHT and the order of pieces ask of the sorted maps and sets of three packages outside the program
    (github.com/benbjohnson/immutable, github.com/anacrolix/stm/stmutil and github.com/anacrolix/btree): that going through one gives its elements in the
    order of a comparison, one for each place in it.  [Container] are the operations, [ContainerLaws] what the
    packages document of them, and sorted lists an implementation that keeps the laws.  Elements that neither
    precede the other share a place ([apart] fails). *)
From stdpp Require Import base list sets sorting.
From Stdlib Require Import ZArith Lia Sorted.
From S2P Require Import Prelude.

Class Container (A S : Type) := { elements_of : S -> list A; none : S; put : A -> S -> S; del : A -> S -> S }.

Section order.
Context {A : Type} (P : A -> Prop) (lt : A -> A -> bool).

Definition apart (x y : A) : bool := lt x y || lt y x.

(** Strict, and what precedes something precedes or follows everything else: on the elements that satisfy [P]. *)
Record weak_order : Prop := {
  wo_irrefl x : P x -> lt x x = false;
  wo_trans x y z : P x -> P y -> P z -> lt x y = true -> lt y z = true -> lt x z = true;
  wo_split x y z : P x -> P y -> P z -> lt x y = true -> lt x z = true \/ lt z y = true;
}.

Definition in_order (l : list A) : Prop := StronglySorted (fun x y => lt x y = true) l /\ Forall P l.
End order.

Class ContainerLaws {A S} `{Container A S} (P : A -> Prop) (lt : A -> A -> bool) := {
  valid : S -> Prop;
  valid_none : valid none;
  valid_put x s : P x -> valid s -> valid (put x s);
  valid_del x s : P x -> valid s -> valid (del x s);
  valid_in_order s : valid s -> in_order P lt (elements_of s);
  elements_none : elements_of none = [];
  elements_put x s : P x -> valid s -> forall y, y ∈ elements_of (put x s) <-> y = x \/ (y ∈ elements_of s /\ apart lt x y = true);
  elements_del x s : P x -> valid s -> forall y, y ∈ elements_of (del x s) <-> y ∈ elements_of s /\ apart lt x y = true;
}.

(** ** Sorted lists *)

Section lists.
Context {A : Type} (P : A -> Prop) (lt : A -> A -> bool) (Hlt : weak_order P lt).

Fixpoint ins (x : A) (l : list A) : list A :=
  match l with [] => [x] | y :: l' => if lt x y then x :: l else if lt y x then y :: ins x l' else x :: l' end.

Definition rem (x : A) (l : list A) : list A := List.filter (apart lt x) l.

Lemma wo_asym x y : P x -> P y -> lt x y = true -> lt y x = false.
Proof. intros Hx Hy Hxy. destruct (lt y x) eqn:Hyx; [|done]. pose proof (wo_trans _ _ Hlt x y x Hx Hy Hx Hxy Hyx) as H. by rewrite (wo_irrefl _ _ Hlt x Hx) in H. Qed.

(** What shares [x]'s place relates to others as [x] does. *)
Lemma same_place x y z : P x -> P y -> P z -> apart lt x y = false -> lt y z = lt x z.
Proof.
  intros Hx Hy Hz [Hxy Hyx]%orb_false_elim. destruct (lt y z) eqn:H1, (lt x z) eqn:H2; try done.
  - destruct (wo_split _ _ Hlt y z x Hy Hz Hx H1); congruence.
  - destruct (wo_split _ _ Hlt x z y Hx Hz Hy H2); congruence.
Qed.

Lemma in_order_cons x l : in_order P lt (x :: l) <-> P x /\ in_order P lt l /\ forall y, y ∈ l -> lt x y = true.
Proof.
  unfold in_order. split.
  - intros [Hs Hf]. apply StronglySorted_inv in Hs as [Hs Hx]. apply Forall_cons in Hf as [Hp Hf]. split_and!; [done..|]. by apply Forall_forall.
  - intros (Hp & [Hs Hf] & Hx). split; [|by constructor]. constructor; [done|]. by apply Forall_forall.
Qed.

Lemma in_order_P l x : in_order P lt l -> x ∈ l -> P x.
Proof. intros [_ Hf] Hx. rewrite Forall_forall in Hf. by apply Hf. Qed.

Lemma ins_elem x l : P x -> in_order P lt l -> forall y, y ∈ ins x l <-> y = x \/ (y ∈ l /\ apart lt x y = true).
Proof.
  intros Hx. induction l as [|z l IH]; intros Ho y; cbn [ins]; [rewrite list_elem_of_singleton; set_solver|].
  apply in_order_cons in Ho as (Hz & Ho & Hzl). destruct (lt x z) eqn:Hxz; [|destruct (lt z x) eqn:Hzx].
  - rewrite (elem_of_cons (z :: l)). split; [|naive_solver]. intros [->|Hy]; [by left|]. right. split; [done|]. apply elem_of_cons in Hy as [->|Hy]; [unfold apart; by rewrite Hxz|].
    unfold apart. rewrite (wo_trans _ _ Hlt x z y Hx Hz (in_order_P _ _ Ho Hy) Hxz (Hzl y Hy)). done.
  - rewrite !elem_of_cons, IH by done. split; [|naive_solver]. intros [->|[->|[Hy Ha]]]; [right; split; [by left|unfold apart; by rewrite Hzx, orb_true_r]|by left|right; split; [by right|done]].
  - rewrite !elem_of_cons. split.
    + intros [->|Hy]; [by left|right]. split; [by right|]. unfold apart. rewrite <- (same_place x z y); [by rewrite (Hzl y Hy)|done..|by apply (in_order_P l)|unfold apart; by rewrite Hxz, Hzx].
    + intros [->|[[->|Hy] Ha]]; [by left| |by right]. exfalso. unfold apart in Ha. by rewrite Hxz, Hzx in Ha.
Qed.

Lemma ins_in_order x l : P x -> in_order P lt l -> in_order P lt (ins x l).
Proof.
  intros Hx. induction l as [|z l IH]; intros Ho; cbn [ins]; [apply in_order_cons; split_and!; [done|by split; constructor|by intros y ?%elem_of_nil]|].
  pose proof Ho as Hzo. apply in_order_cons in Ho as (Hz & Ho & Hzl). destruct (lt x z) eqn:Hxz; [|destruct (lt z x) eqn:Hzx]; apply in_order_cons.
  - split_and!; [done..|]. intros y [->|Hy]%elem_of_cons; [done|]. apply (wo_trans _ _ Hlt x z y); auto. by apply (in_order_P l).
  - split_and!; [done|by apply IH|]. intros y [->|[Hy _]]%ins_elem; [done|by apply Hzl|done..].
  - split_and!; [done..|]. intros y Hy. rewrite <- (same_place x z y); [by apply Hzl|done..|by apply (in_order_P l)|unfold apart; by rewrite Hxz, Hzx].
Qed.

Lemma rem_elem x l y : y ∈ rem x l <-> y ∈ l /\ apart lt x y = true.
Proof. apply elem_of_filter_b. Qed.

Lemma rem_in_order x l : in_order P lt l -> in_order P lt (rem x l).
Proof.
  induction l as [|z l IH]; intros Ho; [done|]. apply in_order_cons in Ho as (Hz & Ho & Hzl). cbn. destruct (apart lt x z); [|by apply IH].
  apply in_order_cons. split_and!; [done|by apply IH|]. intros y [Hy _]%rem_elem. by apply Hzl.
Qed.

(** In order, elements decide the list. *)
Lemma in_order_unique l l' : in_order P lt l -> in_order P lt l' -> (forall y, y ∈ l <-> y ∈ l') -> l = l'.
Proof.
  revert l'. induction l as [|x l IH]; intros [|x' l'] Ho Ho' Heq.
  - done.
  - exfalso. apply (elem_of_nil x'), Heq. by left.
  - exfalso. apply (elem_of_nil x), Heq. by left.
  - apply in_order_cons in Ho as (Hx & Ho & Hl), Ho' as (Hx' & Ho' & Hl').
    assert (x = x') as <-.
    { assert (x ∈ x' :: l') as H1 by (apply Heq; by left). assert (x' ∈ x :: l) as H2 by (apply Heq; by left).
      apply elem_of_cons in H1 as [|H1], H2 as [|H2]; [done..|]. pose proof (wo_asym _ _ Hx' Hx (Hl' _ H1)) as H3. by rewrite (Hl _ H2) in H3. }
    f_equal. apply IH; [done..|]. intros y. split; intros Hy.
    + assert (y ∈ x :: l') as Hy' by (apply Heq; by right). apply elem_of_cons in Hy' as [->|]; [|done]. exfalso. pose proof (Hl _ Hy) as H. by rewrite (wo_irrefl _ _ Hlt x Hx) in H.
    + assert (y ∈ x :: l) as Hy' by (apply Heq; by right). apply elem_of_cons in Hy' as [->|]; [|done]. exfalso. pose proof (Hl' _ Hy) as H. by rewrite (wo_irrefl _ _ Hlt x Hx) in H.
Qed.

(** Cutting a list before putting something in, or after, is the same to what is cut to. *)
Lemma take_ins k x l : take k (ins x (take k l)) = take k (ins x l).
Proof.
  revert l. induction k as [|k IH]; intros l; [done|]. destruct l as [|y l]; [done|]. cbn [take ins]. destruct (lt x y); [|destruct (lt y x)]; cbn [take]; f_equal.
  - destruct k as [|k]; [done|]. cbn [take]. f_equal. rewrite take_take. f_equal. lia.
  - apply IH.
  - rewrite take_take. f_equal. lia.
Qed.

Lemma take_in_order k l : in_order P lt l -> in_order P lt (take k l).
Proof.
  intros Ho. revert k. induction l as [|x l IH]; intros k; [by rewrite take_nil|]. destruct k as [|k]; [by split; constructor|]. cbn [take].
  apply in_order_cons in Ho as (Hx & Ho & Hl). apply in_order_cons. split_and!; [done|by apply IH|]. intros y Hy. apply Hl. rewrite <- (take_drop k l). apply elem_of_app. by left.
Qed.

(** What a cut leaves out comes after all it keeps. *)
Lemma take_before k l x y : in_order P lt l -> x ∈ take k l -> y ∈ l -> y ∉ take k l -> lt x y = true.
Proof.
  intros Ho. revert k. induction l as [|z l IH]; intros k Hx Hy Hout; [by apply elem_of_nil in Hy|]. destruct k as [|k]; [by apply elem_of_nil in Hx|]. cbn [take] in *.
  apply in_order_cons in Ho as (Hz & Ho & Hl). apply not_elem_of_cons in Hout as [Hne Hout]. apply elem_of_cons in Hy as [|Hy]; [done|].
  apply elem_of_cons in Hx as [->|Hx]; [by apply Hl|by apply (IH Ho k)].
Qed.

(** The last element comes after the others, and removing it drops it alone. *)
Lemma rem_last l x : in_order P lt (l ++ [x]) -> rem x (l ++ [x]) = l.
Proof.
  intros Ho. assert (P x) as Hx by (apply (in_order_P _ _ Ho), elem_of_app; right; by left). unfold rem. rewrite List.filter_app. cbn.
  assert (apart lt x x = false) as -> by (unfold apart; by rewrite (wo_irrefl _ _ Hlt x Hx)). rewrite app_nil_r.
  induction l as [|y l IH]; [done|]. cbn [app] in Ho. apply in_order_cons in Ho as (Hy & Ho & Hl). cbn.
  assert (apart lt x y = true) as -> by (unfold apart; rewrite (Hl x); [by rewrite orb_true_r|apply elem_of_app; right; by left]). f_equal. by apply IH.
Qed.

#[local] Instance sorted_list : Container A (list A) := { elements_of l := l; none := []; put := ins; del := rem }.

#[local] Instance sorted_list_laws : ContainerLaws P lt.
Proof using Hlt.
  refine {| valid := in_order P lt |}.
  - split; constructor.
  - intros x s. apply ins_in_order.
  - intros x s _. apply rem_in_order.
  - done.
  - done.
  - intros x s Hx Hs. by apply ins_elem.
  - intros x s _ _. apply rem_elem.
Defined.
End lists.

(** ** Any container with the laws is a sorted list *)

Section laws.
Context {A S : Type} (P : A -> Prop) (lt : A -> A -> bool) `{ContainerLaws A S P lt} (Hlt : weak_order P lt).

Lemma elements_put_ins x s : P x -> valid s -> elements_of (put x s) = ins lt x (elements_of s).
Proof using All.
  intros Hx Hs. apply (in_order_unique P lt Hlt); [by apply valid_in_order, valid_put|apply (ins_in_order P lt Hlt); [done|by apply valid_in_order]|].
  intros y. rewrite elements_put by done. rewrite (ins_elem P lt Hlt); [done..|]. by apply valid_in_order.
Qed.

Lemma elements_del_rem x s : P x -> valid s -> elements_of (del x s) = rem lt x (elements_of s).
Proof using All.
  intros Hx Hs. apply (in_order_unique P lt Hlt); [by apply valid_in_order, valid_del|apply (rem_in_order P lt); by apply valid_in_order|].
  intros y. rewrite elements_del by done. by rewrite rem_elem.
Qed.
End laws.

(** ** Orders by keys *)

Fixpoint lex_lt (a b : list Z) : bool :=
  match a, b with
  | x :: a, y :: b => (x <? y) || ((x =? y) && lex_lt a b)
  | [], _ :: _ => true
  | _, [] => false
  end.

Lemma lex_irrefl a : lex_lt a a = false.
Proof. induction a as [|x a IH]; cbn; [done|]. by rewrite Z.ltb_irrefl, Z.eqb_refl. Qed.

Lemma lex_trans a b c : lex_lt a b = true -> lex_lt b c = true -> lex_lt a c = true.
Proof.
  revert b c. induction a as [|x a IH]; intros [|y b] [|z c]; cbn; try done. intros H1 H2.
  destruct (Z.ltb_spec x y), (Z.ltb_spec y z), (Z.ltb_spec x z), (Z.eqb_spec x y), (Z.eqb_spec y z), (Z.eqb_spec x z); cbn in *; try done; try lia. by apply (IH b).
Qed.

Lemma lex_split a b c : lex_lt a b = true -> lex_lt a c = true \/ lex_lt c b = true.
Proof.
  revert b c. induction a as [|x a IH]; intros [|y b] [|z c]; cbn; try done; try by auto. intros H1.
  destruct (Z.ltb_spec x y), (Z.ltb_spec x z), (Z.ltb_spec z y), (Z.eqb_spec x y), (Z.eqb_spec x z), (Z.eqb_spec z y); cbn in *; try done; try lia; auto.
Qed.

Lemma weak_order_key {A} (P : A -> Prop) lt (f : A -> list Z) : (forall x y, P x -> P y -> lt x y = lex_lt (f x) (f y)) -> weak_order P lt.
Proof.
  intros Hf. split.
  - intros x Hx. rewrite Hf by done. apply lex_irrefl.
  - intros x y z Hx Hy Hz. rewrite !Hf by done. apply lex_trans.
  - intros x y z Hx Hy Hz. rewrite !Hf by done. apply lex_split.
Qed.

Lemma lex_total a b : lex_lt a b = false -> lex_lt b a = false -> a = b.
Proof.
  revert b. induction a as [|x a IH]; intros [|y b]; cbn; try done. intros [H1 H2]%orb_false_elim [H3 H4]%orb_false_elim.
  assert (x = y) as -> by lia. rewrite Z.eqb_refl in *. cbn in *. f_equal. by apply IH.
Qed.
