(* ===== verification/Nearest.v ===== *)
(** * The nearest nodes that answered: internal/bt/dht/k-nearest-nodes

    A traversal keeps the [k] nodes nearest to its target among those that answered, with what they
    answered.  Each is put in a sorted map ([Ordered.Container], a package outside the program) and the farthest are deleted while there
    are too many.  Nodes at one distance, which have one identifier, are told apart by a hash of their addresses under a
    random seed; the hash is a parameter. *)
From stdpp Require Import base list sets strings.
From Stdlib Require Import ZArith Lia Sorted.
From S2P Require Import Prelude Int160 Ordered.

(** [netip.AddrPort]: the address's bytes, none for the zero [netip.Addr]. *)
Record AddrPort := mkAddrPort { addr : list Z; port : Z }.

(** [krpc.NodeInfoAddrPort]. *)
Record Key := mkKey { ID : T; Addr : AddrPort }.

(** The data is an answer's token, if it had one. *)
Record Elem := mkElem { key : Key; Data : option string }.

#[export] Instance AddrPort_eq_dec : EqDecision AddrPort.
Proof. solve_decision. Defined.
#[export] Instance Key_eq_dec : EqDecision Key.
Proof. solve_decision. Defined.
#[export] Instance Elem_eq_dec : EqDecision Elem.
Proof. solve_decision. Defined.

(** The comparison of [New]: by distance, then by hash. *)
Definition less (hash : AddrPort -> Z) (target : T) (l r : Elem) : bool :=
  let c := Cmp (Distance (ID (key l)) target) (Distance (ID (key r)) target) in
  if c =? 0 then hash (Addr (key l)) <? hash (Addr (key r)) else c <? 0.

Section nearest.
Context {S : Type} `{Container Elem S}.

Record Type_ := mkType { inner : S; k : Z }.

Definition New (k : Z) : Type_ := mkType none k.

Definition Len (me : Type_) : Z := Z.of_nat (length (elements_of (inner me))).

(** The loop of [Push]: the last element goes while there are too many. *)
Fixpoint trim (k : Z) (s : S) (fuel : nat) : S :=
  match fuel with
  | O => s
  | Datatypes.S fuel =>
      if k <? Z.of_nat (length (elements_of s))
      then match last (elements_of s) with Some e => trim k (del e s) fuel | None => s end
      else s
  end.

Definition Push (me : Type_) (elem : Elem) : Type_ :=
  let s := put elem (inner me) in
  mkType (trim (k me) s (length (elements_of s))) (k me).

(** [None] is the panic. *)
Definition Farthest (me : Type_) : option Elem := last (elements_of (inner me)).

Definition Full (me : Type_) : bool := k me <=? Len me.
End nearest.
Arguments Type_ : clear implicits.

(** ** The order *)

Definition wf_elem (e : Elem) : Prop := ok (ID (key e)).

Lemma Cmp_ok a b : ok a -> ok b -> Cmp a b = if value a <? value b then -1 else if value b <? value a then 1 else 0.
Proof. intros [Ha Hba] [Hb Hbb]. apply Cmp_value; [congruence|done..]. Qed.

Lemma less_weak hash target : ok target -> weak_order wf_elem (less hash target).
Proof.
  intros Ht. apply (weak_order_key _ _ (fun e => [value (Distance (ID (key e)) target); hash (Addr (key e))])). intros x y Hx Hy. unfold less.
  rewrite Cmp_ok by (by apply Xor_ok). cbn. set (a := value _). set (b := value (Distance (ID (key y)) target)).
  destruct (Z.ltb_spec a b), (Z.ltb_spec b a), (Z.eqb_spec a b); cbn; try lia; try done.
Qed.

(** ** What is kept *)

Section promises.
Context {S : Type} (P : Elem -> Prop) (lt : Elem -> Elem -> bool) `{ContainerLaws Elem S P lt} (Hlt : weak_order P lt).

Definition put_all (l : list Elem) : list Elem := foldl (fun s e => ins lt e s) [] l.

Lemma put_all_in_order l : Forall P l -> in_order P lt (put_all l).
Proof using Hlt.
  unfold put_all. assert (in_order P lt ([] : list Elem)) as Hnil by (split; constructor). revert Hnil. generalize ([] : list Elem) as s.
  induction l as [|e l IH]; intros s Hs Hl; cbn [foldl]; [done|]. apply Forall_cons in Hl as [He Hl]. apply IH; [by apply ins_in_order|done].
Qed.

Lemma trim_spec k s n : 0 <= k -> valid s -> (length (elements_of s) <= n + Z.to_nat k)%nat ->
  valid (trim k s n) /\ elements_of (trim k s n) = take (Z.to_nat k) (elements_of s).
Proof using All.
  intros Hk. revert s. induction n as [|n IH]; intros s Hs Hlen; cbn [trim]; [split; [done|]; by rewrite take_ge by lia|].
  destruct (Z.ltb_spec k (Z.of_nat (length (elements_of s)))) as [Hlt'|Hge]; [|split; [done|]; by rewrite take_ge by lia].
  destruct (last (elements_of s)) as [e|] eqn:He; [|apply last_None in He; rewrite He in Hlt'; cbn in Hlt'; lia].
  apply last_Some in He as [l' He]. pose proof (valid_in_order s Hs) as Ho.
  assert (P e) as HPe by (apply (in_order_P _ _ _ _ Ho); rewrite He; apply elem_of_app; right; by left).
  assert (elements_of (del e s) = l') as Hdel by (rewrite (elements_del_rem P lt Hlt) by done; rewrite He; apply (rem_last P lt Hlt); by rewrite He in Ho).
  destruct (IH (del e s)) as [Hv Hel]; [by apply valid_del|rewrite Hdel; rewrite He, length_app in Hlen; cbn in Hlen; lia|]. split; [done|]. rewrite Hel, Hdel, He.
  rewrite take_app_le; [done|]. rewrite He, length_app in Hlt'. cbn in Hlt'. lia.
Qed.

Lemma Push_elements me e : 0 <= k me -> P e -> valid (inner me) ->
  valid (inner (Push me e)) /\ elements_of (inner (Push me e)) = take (Z.to_nat (k me)) (ins lt e (elements_of (inner me))) /\ k (Push me e) = k me.
Proof using All.
  intros Hk He Hv. unfold Push. cbn [inner Nearest.k]. destruct (trim_spec (k me) (put e (inner me)) (length (elements_of (put e (inner me)))) Hk) as [H1 H2]; [by apply valid_put|lia|].
  split; [done|]. split; [|done]. rewrite H2. by rewrite (elements_put_ins P lt Hlt).
Qed.

(** Truncating at every push is truncating once, at the end. *)
Lemma pushes_elements n l : 0 <= n -> Forall P l ->
  valid (inner (foldl Push (New n) l)) /\ elements_of (inner (foldl Push (New n) l)) = take (Z.to_nat n) (put_all l) /\ k (foldl Push (New n) l) = n.
Proof using All.
  intros Hn. induction l as [|e l IH] using rev_ind; intros Hl.
  - cbn. split; [apply valid_none|]. split; [|done]. rewrite elements_none. by rewrite take_nil.
  - apply Forall_app in Hl as [Hl [He _]%Forall_cons]. destruct (IH Hl) as (Hv & Hel & Hk). rewrite foldl_app. cbn [foldl].
    destruct (Push_elements (foldl Push (New n) l) e ltac:(by rewrite Hk) He Hv) as (Hv' & Hel' & Hk'). split; [done|]. split; [|congruence].
    rewrite Hel', Hel, Hk. unfold put_all. rewrite foldl_app. cbn [foldl]. apply take_ins.
Qed.

Lemma put_all_sub l x : Forall P l -> x ∈ put_all l -> x ∈ l.
Proof using Hlt.
  induction l as [|e l IH] using rev_ind; intros Hl; [done|]. apply Forall_app in Hl as [Hl [He _]%Forall_cons]. unfold put_all. rewrite foldl_app. cbn [foldl].
  intros [->|[Hx _]]%(ins_elem P lt Hlt); [apply elem_of_app; right; by left|apply elem_of_app; left; by apply IH|done|by apply put_all_in_order].
Qed.

Lemma put_all_place l x : Forall P l -> x ∈ l -> exists y, y ∈ put_all l /\ apart lt y x = false.
Proof using Hlt.
  induction l as [|e l IH] using rev_ind; intros Hl Hx; [by apply elem_of_nil in Hx|]. pose proof Hl as HPx. rewrite Forall_forall in HPx. specialize (HPx x Hx).
  apply Forall_app in Hl as [Hl [He _]%Forall_cons]. pose proof (put_all_in_order l Hl) as Ho. unfold put_all. rewrite foldl_app. cbn [foldl]. fold (put_all l).
  apply elem_of_app in Hx as [Hx|Hx].
  - destruct (IH Hl Hx) as (y & Hy & Hyx). assert (P y) as HPy by (by apply (in_order_P _ _ _ _ Ho)). destruct (apart lt e y) eqn:Hey.
    + exists y. split; [|done]. apply (ins_elem P lt Hlt); [done..|]. by right.
    + exists e. split; [apply (ins_elem P lt Hlt); [done..|by left]|]. unfold apart. rewrite <- (same_place P lt Hlt e y x) by done.
      apply orb_false_elim in Hyx as [Hyx Hxy]. rewrite Hyx. cbn. apply not_true_is_false. intros Hxe.
      destruct (wo_split _ _ Hlt x e y HPx He HPy Hxe) as [H1|H1]; [congruence|]. unfold apart in Hey. by rewrite H1, orb_true_r in Hey.
  - apply list_elem_of_singleton in Hx as ->. exists e. split; [apply (ins_elem P lt Hlt); [done..|by left]|]. unfold apart. by rewrite (wo_irrefl _ _ Hlt).
Qed.
End promises.

(** Pushing nodes one by one, the farthest dropped each time there are more than [k], keeps what sorting them all and
    keeping the first [k] would: the kept ones are in order, every node pushed is at a place that is kept or comes
    after all of the [k] kept, and so no dropped node was among the nearest. *)
Theorem pushes_keep_nearest {S} `{Container Elem S} hash target n l (HL : ContainerLaws wf_elem (less hash target)) (Ht : ok target) (Hn : 0 <= n)
    (Hl : Forall wf_elem l) :
  let c := foldl Push (New n) l in
  elements_of (inner c) = take (Z.to_nat n) (put_all (less hash target) l) /\ Len c <= n /\
  StronglySorted (fun x y => less hash target x y = true) (elements_of (inner c)) /\
  forall x, x ∈ l -> (exists y, y ∈ elements_of (inner c) /\ apart (less hash target) y x = false) \/
    (Full c = true /\ forall y, y ∈ elements_of (inner c) -> less hash target y x = true).
Proof.
  cbv zeta. pose proof (less_weak hash target Ht) as Hlt. destruct (pushes_elements _ _ Hlt n l Hn Hl) as (Hv & Hel & Hk). split; [done|].
  pose proof (put_all_in_order _ _ Hlt l Hl) as Ho. unfold Len, Full. rewrite Hk. unfold Len. rewrite Hel. split; [rewrite length_take; lia|].
  split; [by apply (take_in_order wf_elem)|]. intros x Hx. destruct (put_all_place _ _ Hlt l x Hl Hx) as (y & Hy & Hyx).
  destruct (decide (y ∈ take (Z.to_nat n) (put_all (less hash target) l))) as [|Hout]; [left; by exists y|right]. split.
  - apply Z.leb_le. rewrite length_take. destruct (le_lt_dec (length (put_all (less hash target) l)) (Z.to_nat n)); [|lia]. exfalso. apply Hout. by rewrite take_ge by lia.
  - intros z Hz. pose proof (take_before wf_elem _ _ _ z y Ho Hz Hy Hout) as Hzy. assert (wf_elem z /\ wf_elem y /\ wf_elem x) as (Hwz & Hwy & Hwx).
    { split_and!; [|by apply (in_order_P wf_elem (less hash target) _ _ Ho)|rewrite Forall_forall in Hl; by apply Hl].
      apply (in_order_P wf_elem (less hash target) _ _ Ho). rewrite <- (take_drop (Z.to_nat n) (put_all _ l)). apply elem_of_app. by left. }
    destruct (wo_split _ _ Hlt z y x Hwz Hwy Hwx Hzy) as [|Hxy]; [done|]. unfold apart in Hyx. by rewrite Hxy, orb_true_r in Hyx.
Qed.

(** Three nodes around the zero identifier, two of them kept. *)
Definition node_at (first : Z) : Elem := mkElem (mkKey (first :: replicate 19 0) (mkAddrPort [8; 8; 8; first] 6881)) None.
Definition zero_id : T := replicate 20 0.

Lemma pushes_keep_nearest_witness :
  let H := sorted_list (less port zero_id) in
  elements_of (inner (foldl Push (New 2) [node_at 9; node_at 1; node_at 4])) = [node_at 1; node_at 4] /\
  Len (foldl Push (New 2) [node_at 9; node_at 1; node_at 4]) <= 2.
Proof.
  cbv zeta. split; [vm_compute; reflexivity|].
  refine (proj1 (proj2 (@pushes_keep_nearest (list Elem) (sorted_list (less port zero_id)) port zero_id 2 [node_at 9; node_at 1; node_at 4] _ _ _ _)));
    [apply sorted_list_laws, less_weak; ok_now|ok_now|lia|do 3 (apply Forall_cons; split; [unfold wf_elem; ok_now|]); by apply Forall_nil].
Defined.
