(* ===== verification/Traverse.v ===== *)
(** * Walking towards a target: internal/bt/dht/traversal, types/addr-maybe-id.go

    A traversal asks nodes for nodes nearer to its target, [Alpha] of them at a time, the nearest not yet asked first, until
    none left is nearer than the [K] nearest that answered.  Its goroutines (one that starts queries and one per query) meet
    at a lock; each stretch under it is a step.  What a query answers is not the traversal's to choose.  The two
    containers are interfaces ([Ordered]).  [asked] and [told] record what has happened: the nodes queried
    and those offered. *)
From stdpp Require Import base gmap sets list strings relations.
From Stdlib Require Import ZArith Lia Sorted.
From S2P Require Import Prelude Int160 Ordered Nearest.

(** [types.AddrMaybeId]. *)
Record AddrMaybeId := mkAmi { addr : AddrPort; id : option T }.

#[export] Instance AddrMaybeId_eq_dec : EqDecision AddrMaybeId.
Proof. solve_decision. Defined.

(** [netip.Addr]'s [Compare]: by length, then byte by byte. *)
Definition compare_addr (l r : list Z) : Z :=
  if (length l <? length r)%nat then -1 else if (length r <? length l)%nat then 1 else Cmp l r.

(** Those with an identifier first, the nearer before the farther, then by address. *)
Definition CloserThan (target : T) (l r : AddrMaybeId) : bool :=
  match id l, id r with
  | Some _, None => true
  | None, Some _ => false
  | l', r' =>
      let c := match l', r' with Some a, Some b => Cmp (Distance a target) (Distance b target) | _, _ => 0 end in
      if negb (c =? 0) then c <? 0
      else
        let c := compare_addr (Nearest.addr (addr l)) (Nearest.addr (addr r)) in
        if negb (c =? 0) then c <? 0 else port (addr l) <? port (addr r)
  end.

(** [krpc.NodeInfo], its address as [ToNodeAddrPort] reads it. *)
Definition FromNodeInfo (ni : Key) : AddrMaybeId := mkAmi (Nearest.Addr ni) (Some (ID ni)).

Record QueryResult := mkResult { ResponseFrom : option Key; ClosestData : option string; Nodes : list Key; Nodes6 : list Key }.

(** Where a query's goroutine is. *)
Inductive flight := Asking (a : AddrMaybeId) | Answered (r : QueryResult) | Counted (r : QueryResult) | Listed (r : QueryResult) | Listed6.

(** Identifiers are twenty bytes, and addresses bytes. *)
Definition wf_addr (a : AddrPort) : Prop := bytes_ok (Nearest.addr a).
Definition wf_ami (n : AddrMaybeId) : Prop := wf_addr (addr n) /\ match id n with Some d => ok d | None => True end.
Definition wf_key (n : Key) : Prop := wf_addr (Nearest.Addr n) /\ ok (ID n).
Definition wf_result (r : QueryResult) : Prop :=
  match ResponseFrom r with Some n => wf_key n | None => True end /\ Forall wf_key (Nodes r) /\ Forall wf_key (Nodes6 r).

Section traverse.
Context {S : Type} {HS : Container AddrMaybeId S} {S' : Type} {HS' : Container Elem S'}.

(** [OperationInput], its defaults applied. *)
Record input := mkInput {
  target : T; Alpha : Z; K : Z; NodeFilter : AddrMaybeId -> bool; DataFilter : option string -> bool; addr_string : AddrPort -> string;
}.

Record op := mkOp {
  unqueried : S; queried : gset string; closest : Nearest.Type_ S'; outstanding : Z; flights : list flight; stopping : bool;
  asked : list AddrMaybeId; told : list AddrMaybeId; responded : list Elem;
}.

Definition Start (i : input) : op := mkOp none ∅ (Nearest.New (K i)) 0 [] false [] [] [].

Definition set_unqueried (u : S) (o : op) : op := mkOp u (queried o) (closest o) (outstanding o) (flights o) (stopping o) (asked o) (told o) (responded o).
Definition set_flights (f : list flight) (o : op) : op := mkOp (unqueried o) (queried o) (closest o) (outstanding o) f (stopping o) (asked o) (told o) (responded o).

(** One node of [AddNodes]: whether it was added. *)
Definition addNodeLocked (i : input) (o : op) (n : AddrMaybeId) : op * bool :=
  let o := mkOp (unqueried o) (queried o) (closest o) (outstanding o) (flights o) (stopping o) (asked o) (told o ++ [n]) (responded o) in
  if bool_decide (addr_string i (addr n) ∈ queried o) then (o, false)
  else if negb (NodeFilter i n) then (o, false)
  else (set_unqueried (put n (unqueried o)) o, true).

Definition AddNodes (i : input) (nodes : list AddrMaybeId) (o : op) : op := foldl (fun o n => (addNodeLocked i o n).1) o nodes.

Definition closestUnqueried (o : op) : option AddrMaybeId := head (elements_of (unqueried o)).

Definition haveQuery (i : input) (o : op) : bool :=
  match elements_of (unqueried o) with
  | [] => false
  | cu :: _ =>
      if negb (Nearest.Full (closest o)) then true
      else match id cu, Nearest.Farthest (closest o) with
        | Some d, Some far => Cmp (Distance d (target i)) (Distance (ID (Nearest.key far)) (target i)) <=? 0
        | None, _ => false
        | Some _, None => false
        end
  end.

(** [startQuery]: [None] where nothing is left to query. *)
Definition startQuery (i : input) (o : op) : option op :=
  a ← closestUnqueried o;
  Some (mkOp (del a (unqueried o)) ({[addr_string i (addr a)]} ∪ queried o) (closest o) (outstanding o + 1) (flights o ++ [Asking a]) (stopping o)
          (asked o ++ [a]) (told o) (responded o)).

Definition addClosest (i : input) (node : Key) (data : option string) (o : op) : op :=
  if negb (NodeFilter i (FromNodeInfo node)) then o
  else if negb (DataFilter i data) then o
  else
    let e := mkElem node data in
    mkOp (unqueried o) (queried o) (Nearest.Push (closest o) e) (outstanding o) (flights o) (stopping o) (asked o) (told o) (responded o ++ [e]).

Definition finish (o : op) : op :=
  mkOp (unqueried o) (queried o) (closest o) (outstanding o - 1) (flights o) (stopping o) (asked o) (told o) (responded o).

Definition stop (o : op) : op :=
  mkOp (unqueried o) (queried o) (closest o) (outstanding o) (flights o) true (asked o) (told o) (responded o).

(** [run] offers to signal that it is stalled. *)
Definition stalled (i : input) (o : op) : bool := (negb (haveQuery i o) || (Alpha i =? 0)) && (outstanding o =? 0).

Inductive step (i : input) : op -> op -> Prop :=
  | adds nodes o : Forall wf_ami nodes -> step i o (AddNodes i nodes o)
  | starts o o' : stopping o = false -> outstanding o < Alpha i -> haveQuery i o = true -> startQuery i o = Some o' -> step i o o'
  | answers o j a r : flights o !! j = Some (Asking a) -> wf_result r -> step i o (set_flights (<[j := Answered r]> (flights o)) o)
  | counts o j r : flights o !! j = Some (Answered r) ->
      step i o (set_flights (<[j := Counted r]> (flights o)) (match ResponseFrom r with Some n => addClosest i n (ClosestData r) o | None => o end))
  | lists o j r : flights o !! j = Some (Counted r) ->
      step i o (set_flights (<[j := Listed r]> (flights o)) (AddNodes i (map FromNodeInfo (Nodes r)) o))
  | lists6 o j r : flights o !! j = Some (Listed r) ->
      step i o (set_flights (<[j := Listed6]> (flights o)) (AddNodes i (map FromNodeInfo (Nodes6 r)) o))
  | ends o j : flights o !! j = Some Listed6 -> step i o (set_flights (delete j (flights o)) (finish o))
  | stops o : step i o (stop o).
End traverse.
Arguments op : clear implicits.

(** ** The order *)

(** What [CloserThan] compares, one after the other. *)
Definition place (target : T) (n : AddrMaybeId) : list Z :=
  [match id n with Some _ => 0 | None => 1 end; match id n with Some d => value (Distance d target) | None => 0 end;
   Z.of_nat (length (Nearest.addr (addr n))); value (Nearest.addr (addr n)); port (addr n)].

Lemma compare_addr_place l r : bytes_ok l -> bytes_ok r -> forall a b,
  (if negb (compare_addr l r =? 0) then compare_addr l r <? 0 else lex_lt a b) = lex_lt (Z.of_nat (length l) :: value l :: a) (Z.of_nat (length r) :: value r :: b).
Proof.
  intros Hl Hr a b. unfold compare_addr. cbn [lex_lt]. destruct (Nat.ltb_spec (length l) (length r)), (Z.ltb_spec (Z.of_nat (length l)) (Z.of_nat (length r))); try lia; [done|].
  destruct (Nat.ltb_spec (length r) (length l)), (Z.eqb_spec (Z.of_nat (length l)) (Z.of_nat (length r))); try lia; [done|]. cbn [orb andb].
  rewrite Cmp_value by (done || lia). destruct (Z.ltb_spec (value l) (value r)), (Z.ltb_spec (value r) (value l)), (Z.eqb_spec (value l) (value r)); cbn; try lia; done.
Qed.

Lemma CloserThan_place target x y : ok target -> wf_ami x -> wf_ami y -> CloserThan target x y = lex_lt (place target x) (place target y).
Proof.
  intros Ht [Hax Hix] [Hay Hiy]. unfold CloserThan, place. pose proof (compare_addr_place _ _ Hax Hay [port (addr x)] [port (addr y)]) as Ha.
  assert (lex_lt [port (addr x)] [port (addr y)] = (port (addr x) <? port (addr y))) as Hp by (cbn; by rewrite andb_false_r, orb_false_r). rewrite Hp in Ha.
  destruct (id x) as [a|], (id y) as [b|]; [|done|done|].
  - rewrite Cmp_ok by (by apply Xor_ok). change (lex_lt (0 :: ?p) (0 :: ?q)) with (lex_lt p q).
    set (va := value (Distance a target)). set (vb := value (Distance b target)). rewrite Ha. cbn [lex_lt].
    destruct (Z.ltb_spec va vb), (Z.ltb_spec vb va), (Z.eqb_spec va vb); cbn; lia || done.
  - cbv zeta. change (0 =? 0) with true. cbn [negb]. rewrite Ha. done.
Qed.

Lemma CloserThan_weak target : ok target -> weak_order wf_ami (CloserThan target).
Proof. intros Ht. apply (weak_order_key _ _ (place target)). intros x y. by apply CloserThan_place. Qed.

(** Two nodes at one place are one. *)
Lemma CloserThan_same target x y : ok target -> wf_ami x -> wf_ami y -> apart (CloserThan target) x y = false -> x = y.
Proof.
  intros Ht Hx Hy [H1 H2]%orb_false_elim. rewrite CloserThan_place in H1, H2 by done. pose proof (lex_total _ _ H1 H2) as He.
  destruct Hx as [Hax Hix], Hy as [Hay Hiy]. destruct x as [[ax px] ix], y as [[ay py] iy]. unfold place in He. cbn in *. injection He as H3 H4 H5 H6 H7.
  assert (ax = ay) as -> by (apply value_inj; [lia|done..]). subst py. f_equal. destruct ix as [a|], iy as [b|]; try done. f_equal. apply bit_inj; [done..|].
  intros j Hj. pose proof (Xor_bit a target j Hix Ht Hj) as Ha. pose proof (Xor_bit b target j Hiy Ht Hj) as Hb. unfold Distance in H4. unfold bit in Ha at 1, Hb at 1. rewrite H4, Hb in Ha.
  by destruct (bit a j), (bit b j), (bit target j).
Qed.

(** ** What holds at every moment *)

Section promises.
Context {S S' : Type} {HS : Container AddrMaybeId S} {HS' : Container Elem S'} (i : input) (hash : AddrPort -> Z).
Context {HL : ContainerLaws wf_ami (CloserThan (target i))} {HL' : ContainerLaws wf_elem (less hash (target i))}.
Context (Ht : ok (target i)) (HAlpha : 0 < Alpha i).

Let closer := CloserThan_weak (target i) Ht.
Let nearer := less_weak hash (target i) Ht.

(** The results a goroutine carries. *)
Definition wf_flight (f : flight) : Prop := match f with Answered r | Counted r | Listed r => wf_result r | _ => True end.

Record good (o : op S S') : Prop := {
  g_valid : valid (unqueried o);
  g_closest : closest o = foldl Nearest.Push (Nearest.New (K i)) (responded o);
  g_responded : Forall wf_elem (responded o);
  g_outstanding : outstanding o = Z.of_nat (length (flights o)) /\ outstanding o <= Alpha i;
  g_flights : Forall wf_flight (flights o);
  g_queried : forall s, s ∈ queried o <-> exists a, a ∈ asked o /\ addr_string i (addr a) = s;
  g_asked : NoDup (asked o) /\ forall a, a ∈ asked o -> a ∈ told o /\ NodeFilter i a = true;
  g_unqueried : forall n, n ∈ elements_of (unqueried o) -> n ∈ told o /\ NodeFilter i n = true /\ n ∉ asked o;
  g_told : forall n, n ∈ told o -> wf_ami n /\ (NodeFilter i n = true -> addr_string i (addr n) ∈ queried o \/ n ∈ elements_of (unqueried o));
}.

Inductive reachable : op S S' -> Prop :=
  | begins : reachable (Start i)
  | goes_on o o' : reachable o -> step i o o' -> reachable o'.

Lemma unqueried_wf (o : op S S') n : good o -> n ∈ elements_of (unqueried o) -> wf_ami n.
Proof using HL. intros Hg Hn. eapply in_order_P; [apply valid_in_order, (g_valid _ Hg)|done]. Qed.

Lemma addNode_good (o : op S S') n : good o -> wf_ami n -> good (addNodeLocked i o n).1.
Proof using HL HL' Ht HAlpha.
  intros Hg Hn. pose proof (unqueried_wf o) as Hwf. destruct Hg as [Hv Hc Hr Ho Hf Hq [Hnd Ha] Hu Hto].
  set (o1 := mkOp (unqueried o) (queried o) (closest o) (outstanding o) (flights o) (stopping o) (asked o) (told o ++ [n]) (responded o)).
  assert (forall a, a ∈ told o -> a ∈ told o1) as Hmore by (intros a Hin; cbn; apply elem_of_app; by left).
  assert (forall k : list AddrMaybeId, (NodeFilter i n = true -> addr_string i (addr n) ∈ queried o \/ n ∈ k) -> (forall m, m ∈ elements_of (unqueried o) -> m ∈ k) ->
    forall m, m ∈ told o1 -> wf_ami m /\ (NodeFilter i m = true -> addr_string i (addr m) ∈ queried o \/ m ∈ k)) as Htold.
  { intros k Hnew Hold m Hm. cbn in Hm. apply elem_of_app in Hm as [Hm|Hm%list_elem_of_singleton]; [|by subst m]. destruct (Hto m Hm) as [Hw Hcase]. split; [done|].
    intros Hfm. destruct (Hcase Hfm) as [|Hin]; [by left|right; by apply Hold]. }
  unfold addNodeLocked. fold o1. case_bool_decide as Hsq; [|destruct (NodeFilter i n) eqn:Hfn]; cbn [fst negb].
  - split; try done; cbn; [split; [done|]; intros a Hin; destruct (Ha a Hin); auto|intros m Hin; destruct (Hu m Hin) as (? & ? & ?); auto|]. apply Htold; [by left|done].
  - assert (n ∉ asked o) as Hnot by (intros Hin; apply Hsq; change (addr_string i (addr n) ∈ queried o); apply Hq; by exists n).
    assert (forall m, m ∈ elements_of (put n (unqueried o)) <-> m = n \/ m ∈ elements_of (unqueried o)) as Hput.
    { intros m. rewrite (elements_put (P := wf_ami) (lt := CloserThan (target i))) by done. split; [naive_solver|]. intros [->|Hin]; [by left|]. destruct (apart (CloserThan (target i)) n m) eqn:Hap; [by right|left].
      symmetry. apply (CloserThan_same (target i)); [done..| |done]. by apply Hwf. }
    split; try done; cbn; [by apply valid_put|split; [done|]; intros a Hin; destruct (Ha a Hin); auto| |].
    + intros m [->|Hin]%Hput; [split_and!; [apply elem_of_app; right; by left|done..]|]. destruct (Hu m Hin) as (? & ? & ?). auto.
    + apply Htold; [right; apply Hput; by left|]. intros m Hin. apply Hput. by right.
  - split; try done; cbn; [split; [done|]; intros a Hin; destruct (Ha a Hin); auto|intros m Hin; destruct (Hu m Hin) as (? & ? & ?); auto|]. apply Htold; [done|done].
Qed.

Lemma addNodes_good (o : op S S') l : good o -> Forall wf_ami l -> good (AddNodes i l o).
Proof using HL HL' Ht HAlpha.
  intros Hg Hl. revert o Hg. induction Hl as [|n l Hn Hl IH]; intros o Hg; [done|]. unfold AddNodes. cbn [foldl]. apply IH. by apply addNode_good.
Qed.

Lemma addNode_flights (o : op S S') n : flights (addNodeLocked i o n).1 = flights o.
Proof. unfold addNodeLocked. case_bool_decide; [done|]. by destruct (NodeFilter i n). Qed.

Lemma addNodes_flights (o : op S S') l : flights (AddNodes i l o) = flights o.
Proof. revert o. induction l as [|n l IH]; intros o; [done|]. unfold AddNodes. cbn [foldl]. unfold AddNodes in IH. by rewrite IH, addNode_flights. Qed.

Lemma set_flight_good (o : op S S') j f f' : good o -> flights o !! j = Some f -> wf_flight f' -> good (set_flights (<[j := f']> (flights o)) o).
Proof.
  intros [Hv Hc Hr [Ho1 Ho2] Hf Hq Ha Hu Hto] Hj Hf'. split; try done; cbn; [by rewrite length_insert|]. by apply Forall_insert.
Qed.

Lemma addClosest_good (o : op S S') n d : good o -> wf_key n -> good (addClosest i n d o).
Proof.
  intros [Hv Hc Hr Ho Hf Hq Ha Hu Hto] Hn. unfold addClosest. destruct (NodeFilter i (FromNodeInfo n)); [|done]. destruct (DataFilter i d); [|done]. cbn [negb].
  split; try done; cbn; [by rewrite foldl_app, Hc|]. apply Forall_app. split; [done|]. apply Forall_cons. split; [apply Hn|done].
Qed.

Lemma startQuery_good o o' : good o -> startQuery i o = Some o' -> outstanding o < Alpha i -> good o'.
Proof using HL HL' Ht HAlpha.
  intros Hg Hs Hlt. pose proof (unqueried_wf o) as Hwf. destruct (Hg) as [Hv Hc Hr [Ho1 Ho2] Hf Hq [Hnd Ha] Hu Hto]. unfold startQuery, closestUnqueried in Hs.
  destruct (elements_of (unqueried o)) as [|a l] eqn:He; [done|]. cbn in Hs. injection Hs as <-.
  assert (a ∈ elements_of (unqueried o)) as Hin by (rewrite He; by left). rewrite <- He in Hu, Hto, Hwf. specialize (Hwf a Hg Hin). destruct (Hu a Hin) as (Hat & Haf & Hna).
  pose proof (elements_del (P := wf_ami) (lt := CloserThan (target i)) a (unqueried o) Hwf Hv) as Hdel.
  split; try done; cbn.
  - by apply valid_del.
  - rewrite length_app. cbn. lia.
  - apply Forall_app. by split; [|constructor].
  - intros s. rewrite elem_of_union, elem_of_singleton, Hq. setoid_rewrite elem_of_app. setoid_rewrite list_elem_of_singleton. naive_solver.
  - split; [apply NoDup_app; split_and!; [done| |apply NoDup_singleton]; by intros x Hx ->%list_elem_of_singleton|].
    intros x [Hx|Hx%list_elem_of_singleton]%elem_of_app; [by apply Ha|by subst].
  - intros n [Hn Hap]%Hdel. destruct (Hu n Hn) as (? & ? & Hnot). split_and!; [done..|]. intros [Hx|Hx%list_elem_of_singleton]%elem_of_app; [done|]. subst.
    unfold apart in Hap. by rewrite (wo_irrefl _ _ closer) in Hap.
  - intros n Hn. destruct (Hto n Hn) as [Hw Hcase]. split; [done|]. intros Hfn. rewrite elem_of_union, elem_of_singleton. destruct (Hcase Hfn) as [|Hin']; [left; by right|].
    destruct (apart (CloserThan (target i)) a n) eqn:Hap; [right; by apply Hdel|]. left. left. by rewrite (CloserThan_same (target i) a n).
Qed.

Lemma addClosest_flights (o : op S S') n d : flights (addClosest i n d o) = flights o.
Proof. unfold addClosest. destruct (NodeFilter i (FromNodeInfo n)); [|done]. by destruct (DataFilter i d). Qed.

(** A goroutine that has done its stretch [o1] is at the next. *)
Lemma flight_goes_on (o o1 : op S S') j f f' : good o1 -> flights o !! j = Some f -> flights o1 = flights o -> wf_flight f' -> good (set_flights (<[j := f']> (flights o)) o1).
Proof. intros Hg Hj He Hf. rewrite <- He in *. by eapply set_flight_good. Qed.

Lemma keys_wf l : Forall wf_key l -> Forall wf_ami (map FromNodeInfo l).
Proof. intros Hl. apply Forall_forall. intros a (n & -> & Hn)%list_elem_of_fmap. rewrite Forall_forall in Hl. apply (Hl n Hn). Qed.

Lemma step_good o o' : good o -> step i o o' -> good o'.
Proof using HL HL' Ht HAlpha.
  intros Hg Hs. destruct Hs as [nodes o Hn|o o' Hs Hlt Hh Hq|o j a r Hj Hr|o j r Hj|o j r Hj|o j r Hj|o j Hj|o].
  - by apply addNodes_good.
  - by eapply startQuery_good.
  - by eapply set_flight_good.
  - pose proof (Forall_lookup_1 _ _ _ _ (g_flights _ Hg) Hj) as [Hr1 Hr2]. eapply flight_goes_on; [|exact Hj| |]; [|by destruct (ResponseFrom r); [apply addClosest_flights|]|done].
    destruct (ResponseFrom r) as [n|]; [|done]. by apply addClosest_good.
  - pose proof (Forall_lookup_1 _ _ _ _ (g_flights _ Hg) Hj) as Hr. eapply flight_goes_on; [|exact Hj|apply addNodes_flights|done].
    apply addNodes_good; [done|]. apply keys_wf, Hr.
  - pose proof (Forall_lookup_1 _ _ _ _ (g_flights _ Hg) Hj) as Hr. eapply flight_goes_on; [|exact Hj|apply addNodes_flights|done].
    apply addNodes_good; [done|]. apply keys_wf, Hr.
  - destruct Hg as [Hv Hc Hr [Ho1 Ho2] Hf Hq Ha Hu Hto]. pose proof (lookup_lt_Some _ _ _ Hj). split; try done; cbn; [rewrite length_delete by done; lia|]. by apply Forall_delete.
  - by destruct Hg.
Qed.

Lemma Start_good : good (Start i).
Proof using HL HL' Ht HAlpha.
  split; cbn.
  - apply valid_none.
  - done.
  - done.
  - lia.
  - done.
  - intros s. split; [by intros ?%elem_of_empty|]. by intros (a & ?%elem_of_nil & _).
  - split; [apply NoDup_nil_2|]. by intros a ?%elem_of_nil.
  - intros n Hn. rewrite elements_none in Hn. by apply elem_of_nil in Hn.
  - by intros n ?%elem_of_nil.
Qed.

Lemma reachable_good o : reachable o -> good o.
Proof using HL HL' Ht HAlpha. induction 1 as [|o o' _ IH Hs]; [apply Start_good|by eapply step_good]. Qed.
End promises.

(** ** What a traversal finds *)

Section found.
Context {S S' : Type} {HS : Container AddrMaybeId S} {HS' : Container Elem S'}.

(** The last of an ordered list is no nearer than any other. *)
Lemma last_farthest hash target (l : list Elem) far e : ok target -> in_order wf_elem (less hash target) l -> last l = Some far -> e ∈ l ->
  value (Distance (ID (key e)) target) <= value (Distance (ID (key far)) target).
Proof.
  intros Ht Ho [l' ->]%last_Some He. apply elem_of_app in He as [He| ->%list_elem_of_singleton]; [|lia].
  assert (wf_elem e /\ wf_elem far) as [Hwe Hwf] by (split; apply (in_order_P _ _ _ _ Ho), elem_of_app; [by left|right; by left]).
  assert (less hash target e far = true) as Hlt.
  { clear -Ho He. induction l' as [|x l' IH]; [by apply elem_of_nil in He|]. cbn [app] in Ho. apply in_order_cons in Ho as (_ & Ho & Hx).
    apply elem_of_cons in He as [->|He]; [apply Hx, elem_of_app; right; by left|by apply IH]. }
  unfold less in Hlt. rewrite Cmp_ok in Hlt by (by apply Xor_ok). destruct (Z.ltb_spec (value (Distance (ID (key e)) target)) (value (Distance (ID (key far)) target))); [lia|].
  destruct (Z.ltb_spec (value (Distance (ID (key far)) target)) (value (Distance (ID (key e)) target))); [done|lia].
Qed.

(** A head without an identifier is followed by none with one; one with an identifier is the nearest. *)
Lemma head_nearest target cu l n : ok target -> in_order wf_ami (CloserThan target) (cu :: l) -> n ∈ cu :: l ->
  match id n with
  | None => True
  | Some d => exists c, id cu = Some c /\ value (Distance c target) <= value (Distance d target)
  end.
Proof.
  intros Ht Ho Hn. pose proof (in_order_P _ _ _ _ Ho Hn) as [_ Hwn]. apply in_order_cons in Ho as ([_ Hwc] & Ho & Hl). destruct (id n) as [d|] eqn:Hd; [|done].
  apply elem_of_cons in Hn as [->|Hn]; [exists d; split; [done|lia]|]. specialize (Hl n Hn). unfold CloserThan in Hl. rewrite Hd in Hl. destruct (id cu) as [c|]; [|done].
  exists c. split; [done|]. rewrite Cmp_ok in Hl by (by apply Xor_ok). destruct (Z.ltb_spec (value (Distance c target)) (value (Distance d target))); [lia|].
  destruct (Z.ltb_spec (value (Distance d target)) (value (Distance c target))); [done|lia].
Qed.

Lemma no_query_left i hash {HL : ContainerLaws wf_ami (CloserThan (target i))} {HL' : ContainerLaws wf_elem (less hash (target i))} (o : op S S') n :
  ok (target i) -> 0 < K i -> good i o -> haveQuery i o = false -> n ∈ elements_of (unqueried o) ->
  Nearest.Full (closest o) = true /\
  match id n with None => True | Some d => forall e, e ∈ elements_of (inner (closest o)) -> Cmp (Distance (ID (key e)) (target i)) (Distance d (target i)) = -1 end.
Proof.
  intros Ht HK Hg Hh Hn. pose proof (valid_in_order _ (g_valid i o Hg)) as Ho. unfold haveQuery in Hh.
  destruct (pushes_elements _ _ (less_weak hash _ Ht) (K i) (responded o) ltac:(lia) (g_responded i o Hg)) as (Hv & Hel & Hk). rewrite <- (g_closest i o Hg) in Hv, Hel, Hk.
  pose proof (valid_in_order _ Hv) as Hoc. destruct (elements_of (unqueried o)) as [|cu l] eqn:He; [by apply elem_of_nil in Hn|].
  destruct (Full (closest o)) eqn:Hfull; [|done]. split; [done|]. cbn [negb] in Hh. pose proof (head_nearest _ cu l n Ht Ho Hn) as Hhead.
  pose proof (in_order_P _ _ _ _ Ho Hn) as [_ Hwn]. destruct (id n) as [d|]; [|done]. destruct Hhead as (c & Hc & Hcd). rewrite Hc in Hh.
  assert (wf_ami cu) as [_ Hwc] by (apply (in_order_P _ _ _ _ Ho); by left). rewrite Hc in Hwc.
  intros e Hin. assert (wf_elem e) as Hwe by (by apply (in_order_P _ _ _ _ Hoc)).
  unfold Farthest in Hh. destruct (last (elements_of (inner (closest o)))) as [far|] eqn:Hfar; [|apply last_None in Hfar; rewrite Hfar in Hin; by apply elem_of_nil in Hin].
  pose proof (last_farthest hash (target i) _ far e Ht Hoc Hfar Hin) as Hle.
  assert (wf_elem far) as Hwf by (apply (in_order_P _ _ _ _ Hoc); apply last_Some in Hfar as [l' ->]; apply elem_of_app; right; by left).
  rewrite Cmp_ok in Hh |- * by (by apply Xor_ok). destruct (Z.ltb_spec (value (Distance c (target i))) (value (Distance (ID (key far)) (target i)))); [done|].
  destruct (Z.ltb_spec (value (Distance (ID (key far)) (target i))) (value (Distance c (target i)))); [|done].
  destruct (Z.ltb_spec (value (Distance (ID (key e)) (target i))) (value (Distance d (target i)))); [done|lia].
Qed.
End found.

(** C17: what a traversal has found when it stalls.  However its queries interleave and whatever they answer, no query is
    under way, the nodes kept are exactly the [K] nearest of those that answered and passed the filters, and nothing it was told of
    could improve on them: every node that passes the filter has been asked at its address, or [K] are kept and each of
    them is strictly nearer than it (or its identifier is unknown). *)
Theorem stalled_nearest {S S'} `{Container AddrMaybeId S} `{Container Elem S'} i hash (HL : ContainerLaws wf_ami (CloserThan (target i)))
    (HL' : ContainerLaws wf_elem (less hash (target i))) (o : op S S') (Ht : ok (target i)) (HK : 0 < K i) (HA : 0 < Alpha i)
    (Hr : reachable i o) (Hs : stalled i o = true) :
  flights o = [] /\
  elements_of (inner (closest o)) = take (Z.to_nat (K i)) (put_all (less hash (target i)) (responded o)) /\
  forall n, n ∈ told o -> NodeFilter i n = true ->
    (exists a, a ∈ asked o /\ addr_string i (addr a) = addr_string i (addr n)) \/
    (Nearest.Full (closest o) = true /\
     match id n with None => True | Some d => forall e, e ∈ elements_of (inner (closest o)) -> Cmp (Distance (ID (key e)) (target i)) (Distance d (target i)) = -1 end).
Proof.
  pose proof (reachable_good i hash Ht HA o Hr) as Hg. unfold stalled in Hs. apply andb_prop in Hs as [Hh Hout]. apply Z.eqb_eq in Hout.
  assert (haveQuery i o = false) as Hno by (apply orb_prop in Hh as [Hh|Hh]; [by apply negb_true_iff|apply Z.eqb_eq in Hh; lia]).
  split; [destruct (g_outstanding i o Hg) as [Ho _]; destruct (flights o); [done|cbn in Ho; lia]|]. split.
  - rewrite (g_closest i o Hg). apply (pushes_elements _ _ (less_weak hash _ Ht)); [lia|apply (g_responded i o Hg)].
  - intros n Hn Hf. destruct (g_told i o Hg n Hn) as [_ Hcase]. destruct (Hcase Hf) as [Hq|Hu]; [left; by apply (g_queried i o Hg)|right].
    by apply (no_query_left i hash o n Ht HK Hg Hno).
Qed.

(** C19: a traversal asks no node twice, only nodes it was told of that pass its filter, and no more than [Alpha] at a time;
    so among finitely many nodes it makes finitely many queries. *)
Theorem asks_once {S S'} `{Container AddrMaybeId S} `{Container Elem S'} i hash (HL : ContainerLaws wf_ami (CloserThan (target i)))
    (HL' : ContainerLaws wf_elem (less hash (target i))) (o : op S S') (Ht : ok (target i)) (HA : 0 < Alpha i) (Hr : reachable i o) :
  NoDup (asked o) /\ (forall a, a ∈ asked o -> a ∈ told o /\ NodeFilter i a = true) /\
  outstanding o = Z.of_nat (length (flights o)) /\ outstanding o <= Alpha i /\
  forall network, (forall n, n ∈ told o -> n ∈ network) -> (length (asked o) <= length network)%nat.
Proof.
  pose proof (reachable_good i hash Ht HA o Hr) as Hg. destruct (g_asked i o Hg) as [Hnd Ha], (g_outstanding i o Hg) as [Ho1 Ho2]. split_and!; [done..|].
  intros network Hnet. apply submseteq_length, NoDup_submseteq; [done|]. intros a Hin. apply Hnet. by apply Ha.
Qed.

(** ** Traces *)

(** The two containers as sorted lists, a zero target, one query at a time, one node kept. *)
Definition one : input := mkInput zero_id 1 1 (fun _ => true) (fun _ => true) (fun a => match Nearest.addr a with [_; _; _; 1] => "one" | _ => "other" end).

#[local] Instance unasked : Container AddrMaybeId (list AddrMaybeId) := sorted_list (CloserThan zero_id).
#[local] Instance nearest : Container Elem (list Elem) := sorted_list (less port zero_id).

Lemma zero_id_ok : ok zero_id.
Proof. ok_now. Qed.

Definition ami (first last : Z) : AddrMaybeId := mkAmi (mkAddrPort [8; 8; 8; last] 6881) (Some (first :: replicate 19 0)).

#[local] Instance wf_ami_dec n : Decision (wf_ami n).
Proof. unfold wf_ami, wf_addr, bytes_ok. destruct (id n); apply _. Defined.
#[local] Instance wf_key_dec n : Decision (wf_key n).
Proof. unfold wf_key, wf_addr, bytes_ok. apply _. Defined.
#[local] Instance wf_result_dec r : Decision (wf_result r).
Proof. unfold wf_result. destruct (ResponseFrom r); apply _. Defined.

Ltac wf_now := refine (bool_decide_unpack _ _); vm_compute; exact I.

(** One node is told of and answers, naming another, farther one: nothing more is worth asking. *)
Definition answer : QueryResult := mkResult (Some (key (node_at 2))) None [mkKey (9 :: replicate 19 0) (mkAddrPort [8; 8; 8; 9] 6881)] [].

Tactic Notation "and_then" constr(R) "as" ident(R') "by" tactic3(tac) := eassert (reachable one _) as R' by (eapply (goes_on one _ _ R); tac).

Definition begun : op (list AddrMaybeId) (list Elem) := Start one.

(** A state of a trace. *)
Definition state_of {o : op (list AddrMaybeId) (list Elem)} (_ : reachable one o) : op (list AddrMaybeId) (list Elem) := o.

Lemma answer_wf : wf_result answer.
Proof. wf_now. Qed.

Lemma asked_one : exists o : op (list AddrMaybeId) (list Elem), reachable one o /\ stalled one o = true /\ asked o = [ami 2 1] /\ told o = [ami 2 1; ami 9 9] /\
  elements_of (inner (closest o)) = [node_at 2].
Proof.
  and_then (begins one : reachable one begun) as R1 by (apply (adds one [ami 2 1]); wf_now).
  and_then R1 as R2 by (eapply starts; vm_compute; reflexivity).
  and_then R2 as R3 by (apply (answers one _ 0 (ami 2 1) answer); [vm_compute; reflexivity|apply answer_wf]).
  and_then R3 as R4 by (apply (counts one _ 0 answer); vm_compute; reflexivity). and_then R4 as R5 by (apply (lists one _ 0 answer); vm_compute; reflexivity).
  and_then R5 as R6 by (apply (lists6 one _ 0 answer); vm_compute; reflexivity). and_then R6 as R7 by (apply (ends one _ 0); vm_compute; reflexivity).
  eexists. split; [exact R7|]. split_and!; vm_compute; reflexivity.
Qed.

#[local] Instance unasked_laws : ContainerLaws wf_ami (CloserThan zero_id) := sorted_list_laws _ _ (CloserThan_weak zero_id zero_id_ok).
#[local] Instance nearest_laws : ContainerLaws wf_elem (less port zero_id) := sorted_list_laws _ _ (less_weak port zero_id zero_id_ok).

Lemma stalled_nearest_witness : exists o : op (list AddrMaybeId) (list Elem), reachable one o /\ told o = [ami 2 1; ami 9 9] /\ flights o = [] /\
  elements_of (inner (closest o)) = take 1 (put_all (less port zero_id) (responded o)).
Proof.
  destruct asked_one as (o & Hr & Hs & _ & Ht & _). exists o. split; [exact Hr|]. split; [exact Ht|].
  destruct (stalled_nearest one port unasked_laws nearest_laws o zero_id_ok ltac:(cbn; lia) ltac:(cbn; lia) Hr Hs) as (H1 & H2 & _). split; [exact H1|exact H2].
Defined.

Lemma asks_once_witness : exists o : op (list AddrMaybeId) (list Elem), reachable one o /\ asked o = [ami 2 1] /\ NoDup (asked o) /\ (length (asked o) <= 2)%nat.
Proof.
  destruct asked_one as (o & Hr & _ & Ha & Ht & _). exists o. split; [exact Hr|]. split; [exact Ha|].
  destruct (asks_once one port unasked_laws nearest_laws o zero_id_ok ltac:(cbn; lia) Hr) as (H1 & _ & _ & _ & H2). split; [exact H1|].
  apply (H2 [ami 2 1; ami 9 9]). by rewrite Ht.
Defined.

(** An address is asked as often as it is named with different identifiers before its first query: the set of addresses
    queried is only looked at when a node is added.  Here one address is asked twice. *)
Lemma address_asked_twice : exists o : op (list AddrMaybeId) (list Elem), reachable one o /\ asked o = [ami 2 1; ami 3 1] /\ size (queried o) = 1%nat.
Proof.
  set (silent := mkResult None None [] []). assert (wf_result silent) as Hw by wf_now.
  and_then (begins one : reachable one begun) as R1 by (apply (adds one [ami 2 1; ami 3 1]); wf_now).
  and_then R1 as R2 by (eapply starts; vm_compute; reflexivity). and_then R2 as R3 by (apply (answers one _ 0 (ami 2 1) silent); [vm_compute; reflexivity|exact Hw]).
  and_then R3 as R4 by (apply (counts one _ 0 silent); vm_compute; reflexivity). and_then R4 as R5 by (apply (lists one _ 0 silent); vm_compute; reflexivity).
  and_then R5 as R6 by (apply (lists6 one _ 0 silent); vm_compute; reflexivity). and_then R6 as R7 by (apply (ends one _ 0); vm_compute; reflexivity).
  and_then R7 as R8 by (eapply starts; vm_compute; reflexivity). eexists. split; [exact R8|]. split; vm_compute; reflexivity.
Qed.
