(* ===== verification/Bep44.v ===== *)
(** * Items kept for others: internal/bt/dht/bep44

    The DHT stores small values: immutable ones under the hash of what they are, mutable ones under the hash of a
    key and a salt, signed by the key and numbered.  [Wrapper] decides what a put may replace and when an item has expired,
    over a map ([Memory]).  SHA-1 and Ed25519 are parameters. *)
From stdpp Require Import base gmap strings list.
From Stdlib Require Import ZArith Lia Ascii.
From S2P Require Import Prelude GoStr Decimal Bencode.

Class Signing := { sha1 : string -> string; ed25519_verify : string -> string -> string -> bool }.

Section bep44.
Context `{Signing}.

(** [Item]: [V] is a decoded value, or none; byte arrays are strings. *)
Record Item := mkItem { created : Z; V : option item; K : string; Salt : string; Sig : string; Cas : Z; Seq : Z }.

(** 32 zero bytes. *)
Definition zeroes (n : nat) : string := Nat.iter n (String Ascii.zero) "".
Definition Empty32ByteArray : string := zeroes 32.

Definition IsMutable (i : Item) : bool := negb (String.eqb (K i) Empty32ByteArray).

(** [bencode.Marshal] of an interface. *)
Definition marshal_V (v : option item) : written := Marshal (fun _ _ => false) TAny (match v with Some x => VAny x | None => VNil end).

Definition MustMarshal (v : option item) : option string := match marshal_V v with Ok s => Some s | Err _ => None end.

(** [None] is the panic of [MustMarshal]. *)
Definition Target (i : Item) : option string :=
  if IsMutable i then Some (sha1 (K i +:+ Salt i)) else s ← MustMarshal (V i); Some (sha1 s).

Definition bufferToSign (salt bv : string) (seq : Z) : string :=
  (if String.eqb salt "" then "" else "4:salt" +:+ reflectString salt) +:+ "3:seqi" +:+ itoa seq +:+ "e1:v" +:+ bv.

Definition Verify (k salt : string) (seq : Z) (bv sig : string) : bool := ed25519_verify k (bufferToSign salt bv seq) sig.

Inductive error := MarshalFailed | ErrValueFieldTooBig | ErrSaltFieldTooBig | ErrInvalidSignature | ErrCasHashMismatched | ErrSequenceNumberLessThanCurrent.

Definition Check (i : Item) : option error :=
  match marshal_V (V i) with
  | Err _ => Some MarshalFailed
  | Ok bv =>
      if 1000 <? Z.of_nat (String.length bv) then Some ErrValueFieldTooBig
      else if negb (IsMutable i) then None
      else if 64 <? Z.of_nat (String.length (Salt i)) then Some ErrSaltFieldTooBig
      else if negb (Verify (K i) (Salt i) (Seq i) bv (Sig i)) then Some ErrInvalidSignature
      else None
  end.

(** The outer [None] is a panic. *)
Definition CheckIncoming (stored incoming : Item) : option (option error) :=
  let rest :=
    if Seq incoming <=? Seq stored then Some ErrSequenceNumberLessThanCurrent
    else if Cas stored =? 0 then None
    else if negb (Cas stored =? Cas incoming) then Some ErrCasHashMismatched
    else None in
  if Seq stored =? Seq incoming then
    a ← MustMarshal (V stored); b ← MustMarshal (V incoming);
    Some (if String.eqb a b then None else rest)
  else Some rest.

(** [Memory]'s map. *)
Definition store := gmap string Item.

Definition with_created (now : Z) (i : Item) : Item := mkItem now (V i) (K i) (Salt i) (Sig i) (Cas i) (Seq i).

(** [Wrapper.Put]. *)
Definition Put (now : Z) (s : store) (i : Item) : option (store * option error) :=
  match Check i with
  | Some e => Some (s, Some e)
  | None =>
      t ← Target i;
      match s !! t with
      | None => Some (<[t := with_created now i]> s, None)
      | Some stored =>
          r ← CheckIncoming stored i;
          match (r : option error) with
          | Some e => Some (s, Some e)
          | None => Some (<[t := with_created now i]> s, None)
          end
      end
  end.

(** [Wrapper.Get]: the store it leaves, and the item unless there is none or it has expired. *)
Definition Get (now exp : Z) (s : store) (t : string) : store * option Item :=
  match s !! t with
  | None => (s, None)
  | Some i => if now <? created i + exp then (s, Some i) else (delete t s, None)
  end.

(** ** What is kept *)

(** The store after puts and gets. *)
Inductive reachable (exp : Z) : store -> Prop :=
  | empty_store : reachable exp ∅
  | after_put now s i s' e : reachable exp s -> Put now s i = Some (s', e) -> reachable exp s'
  | after_get now s t : reachable exp s -> reachable exp (Get now exp s t).1.

Definition item_ok (t : string) (i : Item) : Prop := Target i = Some t /\ Check i = None.

Lemma item_ok_created now t i : item_ok t (with_created now i) <-> item_ok t i.
Proof. done. Qed.

Lemma check_marshals i : Check i = None -> exists s, MustMarshal (V i) = Some s.
Proof. unfold Check, MustMarshal. destruct (marshal_V (V i)); [|done]. by eexists. Qed.

Lemma check_target i : Check i = None -> exists t, Target i = Some t.
Proof. intros Hc. destruct (check_marshals i Hc) as [s Hs]. unfold Target. rewrite Hs. destruct (IsMutable i); by eexists. Qed.

Lemma reachable_items exp s : reachable exp s -> forall t i, s !! t = Some i -> item_ok t i.
Proof.
  induction 1 as [|now s i s' e _ IH Hp|now s t _ IH]; intros u j Hj; [done| |].
  - unfold Put in Hp. destruct (Check i) as [|] eqn:Hc; [injection Hp as <- _; by apply IH|]. destruct (Target i) as [t|] eqn:Ht; [|done]. cbn [mbind option_bind] in Hp.
    assert (forall v, <[t := with_created now i]> s = v -> v !! u = Some j -> item_ok u j) as Hnew.
    { intros v <- Hv. apply lookup_insert_Some in Hv as [[<- <-]|[_ Hv]]; [by split|by apply IH]. }
    destruct (s !! t) as [stored|]; [|injection Hp as <- _; by eapply Hnew]. destruct (CheckIncoming stored i) as [[e'|]|]; cbn [mbind option_bind] in Hp; [injection Hp as <- _; by apply IH|injection Hp as <- _; by eapply Hnew|done].
  - unfold Get in Hj. destruct (s !! t) as [i|]; [|by apply IH]. destruct (_ <? _); [by apply IH|]. cbn in Hj. apply lookup_delete_Some in Hj as [_ Hj]. by apply IH.
Qed.

Lemma CheckIncoming_spec t stored i : item_ok t stored -> Check i = None ->
  exists r, CheckIncoming stored i = Some r /\ (r = None -> Seq stored < Seq i \/ (Seq stored = Seq i /\ MustMarshal (V stored) = MustMarshal (V i))).
Proof.
  intros [_ Hs] Hi. destruct (check_marshals _ Hs) as [a Ha], (check_marshals _ Hi) as [b Hb]. unfold CheckIncoming. rewrite Ha, Hb.
  destruct (Z.eqb_spec (Seq stored) (Seq i)) as [He|Hne]; cbn [mbind option_bind]; eexists; (split; [done|]).
  - destruct (String.eqb_spec a b) as [->|]; [intros _; by right|]. rewrite (proj2 (Z.leb_le _ _)) by lia. done.
  - destruct (Z.leb_spec (Seq i) (Seq stored)); [done|]. intros _. left. lia.
Qed.

Lemma Put_returns exp now s i : reachable exp s -> exists s' e, Put now s i = Some (s', e) /\ reachable exp s'.
Proof.
  intros Hr. assert (forall r, Put now s i = Some r -> exists s' e, Put now s i = Some (s', e) /\ reachable exp s') as Hgo.
  { intros [s' e] He. exists s', e. split; [done|]. by eapply after_put. }
  unfold Put in *. destruct (Check i) as [|] eqn:Hc; [by eapply Hgo|]. destruct (check_target i Hc) as [t Ht]. rewrite Ht in *. cbn [mbind option_bind] in *.
  destruct (s !! t) as [stored|] eqn:Hst; [|by eapply Hgo].
  destruct (CheckIncoming_spec t stored i (reachable_items exp s Hr t stored Hst) Hc) as ([e|] & Hci & _); rewrite Hci in *; cbn [mbind option_bind] in *; by eapply Hgo.
Qed.
End bep44.

(** A put never panics; it either leaves the store as it was, with an error, or sets the one item of its target, whose value is
    not too long and, for a mutable target, is signed by its key; and it never takes a numbered item back:
    what it replaces had a smaller number, or the same number and the same value. *)
Theorem Put_spec `{Signing} exp now s i (Hr : reachable exp s) :
  exists s' e, Put now s i = Some (s', e) /\
    match e with
    | Some _ => s' = s
    | None => exists t bv, s' = <[t := with_created now i]> s /\ Target i = Some t /\ MustMarshal (V i) = Some bv /\ (String.length bv <= 1000)%nat /\
        (IsMutable i = true -> (String.length (Salt i) <= 64)%nat /\ Verify (K i) (Salt i) (Seq i) bv (Sig i) = true) /\
        forall stored, s !! t = Some stored -> Seq stored < Seq i \/ (Seq stored = Seq i /\ MustMarshal (V stored) = MustMarshal (V i))
    end.
Proof.
  unfold Put. destruct (Check i) as [e|] eqn:Hc; [do 2 eexists; split; [done|done]|].
  destruct (check_target i Hc) as [t Ht], (check_marshals i Hc) as [bv Hbv]. rewrite Ht. cbn [mbind option_bind].
  assert ((String.length bv <= 1000)%nat /\ (IsMutable i = true -> (String.length (Salt i) <= 64)%nat /\ Verify (K i) (Salt i) (Seq i) bv (Sig i) = true)) as [Hlen Hmut].
  { unfold Check, MustMarshal in *. destruct (marshal_V (V i)) as [s0|]; [|done]. injection Hbv as ->. destruct (Z.ltb_spec 1000 (Z.of_nat (String.length bv))); [done|]. split; [lia|].
    intros Hm. rewrite Hm in Hc. cbn [negb] in Hc. destruct (Z.ltb_spec 64 (Z.of_nat (String.length (Salt i)))); [done|]. split; [lia|]. by destruct (Verify _ _ _ _ _). }
  destruct (s !! t) as [stored|] eqn:Hst.
  - pose proof (reachable_items exp s Hr t stored Hst) as Hok. destruct (CheckIncoming_spec t stored i Hok Hc) as ([e|] & -> & Hseq); cbn [mbind option_bind]; [do 2 eexists; split; [done|done]|].
    do 2 eexists. split; [done|]. exists t, bv. split_and!; try done. intros st Hst'. rewrite Hst in Hst'. injection Hst' as <-. by apply Hseq.
  - do 2 eexists. split; [done|]. exists t, bv. split_and!; try done. intros st Hst'. congruence.
Qed.

(** What is stored with no time to live is gone when it is asked for. *)
Lemma expired_at_once `{Signing} now s t i : s !! t = Some i -> created i <= now -> Get now 0 s t = (delete t s, None).
Proof. intros Hs Hc. unfold Get. rewrite Hs. by rewrite (proj2 (Z.ltb_ge _ _)) by lia. Qed.

(** The number an update names as the one it replaces is compared with the number the stored item named, not with the
    stored item's own: an update that expects the stored number is refused. *)
Lemma cas_against_cas `{Signing} : exists stored incoming, Seq stored = 5 /\ Cas incoming = 5 /\ Seq incoming = 6 /\ CheckIncoming stored incoming = Some (Some ErrCasHashMismatched).
Proof.
  exists (mkItem 0 (Some (IStr "a")) "k" "" "" 4 5), (mkItem 0 (Some (IStr "b")) "k" "" "" 5 6). split_and!; vm_compute; reflexivity.
Qed.

Definition toy : Signing := {| sha1 s := s; ed25519_verify _ _ sig := String.eqb sig "signed" |}.
Definition numbered (n : Z) (v sig : string) : Item := mkItem 0 (Some (IStr v)) "key" "" sig 0 n.

Lemma Put_spec_witness : exists s' e, @Put toy 10 ∅ (numbered 1 "a" "signed") = Some (s', e) /\ e = None /\ s' !! "key" = Some (with_created 10 (numbered 1 "a" "signed")).
Proof.
  destruct (@Put_spec toy 60 10 ∅ (numbered 1 "a" "signed") (@empty_store toy 60)) as (s' & e & Hp & He). exists s', e. split; [exact Hp|].
  assert (@Put toy 10 ∅ (numbered 1 "a" "signed") = Some ({[ "key" := with_created 10 (numbered 1 "a" "signed") ]}, None)) as Hc by (vm_compute; reflexivity).
  rewrite Hp in Hc. injection Hc as -> ->. split; reflexivity.
Defined.
