(* ===== verification/Kad.v ===== *)
(** * A DHT node's answers: internal/bt/dht (server.go, tokens.go, transactions, peer-store, krpc/msg.go)

    What a server does with a packet: a query is noted in the node table and answered from it, from the
    peers announced and from the items stored; anything else has to be the reply to a query of its own
    ([transactions]).  A token, handed out with an answer and good for a few minutes, is what lets its address announce or store.
    [handleQuery] and [processPacket] are functions from the state to the new state and what is sent; decoding
    the packet is [Bencode]'s.  A panic takes the program with it: it is an outcome of its own. *)
From stdpp Require Import base gmap sets list strings.
From Stdlib Require Import ZArith Lia Ascii.
From S2P Require Import Prelude GoStr Net Bencode Bep44 Int160 Secure Nodes.

(** ** Messages *)

(** [krpc.NodeAddr]. *)
Record NodeAddr := mkNodeAddr { na_IP : list Z; na_Port : Z }.

Record NodeInfo := mkNodeInfo { ni_ID : T; ni_Addr : NodeAddr }.

Record MsgArgs := mkArgs {
  a_ID : T; InfoHash : T; a_Target : string; Token : string; a_Port : option Z; ImpliedPort : bool; Want : list string;
  a_V : option item; a_Seq : option Z; a_Cas : Z; a_K : string; a_Salt : string; a_Sig : string;
}.

Record Msg := mkMsg { Q : string; A : option MsgArgs; Tid : string; Y : string; R : option T; ReadOnly : bool }.

(** [krpc.Return], the fields set here. *)
Record Return := mkReturn {
  r_Nodes : list NodeInfo; r_Nodes6 : list NodeInfo; r_Token : option string; Values : list NodeAddr; r_Seq : option Z; r_V : string; r_K : string; r_Sig : string;
}.

Definition no_return : Return := mkReturn [] [] None [] None "" "" "".

(** A response's sender: [R] is its identifier. *)
Definition SenderID (m : Msg) : option T :=
  if String.eqb (Y m) "q" then option_map a_ID (A m) else if String.eqb (Y m) "r" then R m else None.

(** ** Tokens *)

Definition be64 (n : Z) : list Z := map (fun i => Z.shiftr n (8 * (7 - Z.of_nat i)) mod 256) (seq 0 8).

Definition To16 (ip : list Z) : option (list Z) :=
  if (length ip =? 4)%nat then Some (replicate 10 0 ++ [255; 255] ++ ip) else if (length ip =? 16)%nat then Some ip else None.

(** [tokenServer]: the hash is SHA-1 on bytes. *)
Record tokenServer := mkTokens { secret : list Z; interval : Z; maxIntervalDelta : Z }.

Class Digest := digest : list Z -> string.

Section server.
Context `{Digest} `{Signing}.

(** [None] is the panic of an address that is none. *)
Definition createToken (ts : tokenServer) (ip : list Z) (t : Z) : option string :=
  ip ← To16 ip; Some (digest (ip ++ be64 (Z.quot t (interval ts) mod 2 ^ 64) ++ secret ts)).

Fixpoint valid_loop (ts : tokenServer) (token : string) (ip : list Z) (t : Z) (n : nat) : option bool :=
  match n with
  | O => Some false
  | S n => c ← createToken ts ip t; if String.eqb c token then Some true else valid_loop ts token ip (t - interval ts) n
  end.

Definition ValidToken (ts : tokenServer) (now : Z) (token : string) (ip : list Z) : option bool :=
  valid_loop ts token ip now (Z.to_nat (maxIntervalDelta ts + 1)).

(** ** Peers announced: peer-store/in-memory.go *)

Definition peers := gmap T (gmap (list Z) (NodeAddr * Z)).

Definition AddPeer (now : Z) (ih : T) (na : NodeAddr) (p : peers) : peers :=
  <[ih := <[na_IP na := (na, now)]> (default ∅ (p !! ih))]> p.

(** [NodeAddr.UnmarshalBinary]: [None] is the panic of a slice of negative length. *)
Definition UnmarshalBinary (b : list Z) : option NodeAddr :=
  if (length b <? 2)%nat then None
  else Some (mkNodeAddr (take (length b - 2) b) (256 * nth (length b - 2) b 0 + nth (length b - 1) b 0)).

Definition GetPeers (p : peers) (ih : T) : option (list NodeAddr) :=
  mapM (fun x => UnmarshalBinary x.1) (map_to_list (default ∅ (p !! ih))).

(** ** The server *)

Record config := mkConfig { NoSecurity : bool; Passive : bool; OnQuery : Msg -> bool; HasPeerStore : bool; Exp : Z }.

Record server := mkServer { table_ : table; peers_ : peers; store_ : store; transactions : gset (string * string); next : Z }.

Definition set_table (t : table) (s : server) : server := mkServer t (peers_ s) (store_ s) (transactions s) (next s).
Definition set_store (i : store) (s : server) : server := mkServer (table_ s) (peers_ s) i (transactions s) (next s).
Definition set_peers (p : peers) (s : server) : server := mkServer (table_ s) p (store_ s) (transactions s) (next s).

Inductive sent := Reply (r : Return) | SendError (code : Z) | Silence.

(** What a packet comes to; [Panics] ends the program. *)
Inductive outcome := Done (s : server) (m : sent) | Panics.

Definition wantsContain (ws : list string) (w : string) : bool := existsb (String.eqb w) ws.

Definition shouldReturnNodes (wants : list string) (ip : list Z) : bool :=
  match wants with [] => match To4 ip with Some _ => true | None => false end | _ => wantsContain wants "n4" end.

Definition shouldReturnNodes6 (wants : list string) (ip : list Z) : bool :=
  match wants with [] => match To4 ip with Some _ => false | None => true end | _ => wantsContain wants "n6" end.

Definition filterPeers (ip : list Z) (wants : list string) (all : list NodeAddr) : list NodeAddr :=
  let retain4 := shouldReturnNodes wants ip in
  let retain6 := shouldReturnNodes6 wants ip in
  omap (fun peer =>
    let ip := na_IP peer in
    let as4 := To4 ip in
    let as16 := To16 ip in
    let r :=
      if retain4 && (length ip =? 4)%nat then Some ip
      else if retain6 && (length ip =? 16)%nat then Some ip
      else if retain4 && match as4 with Some _ => true | None => false end then as4
      else if retain6 && match as16 with Some _ => true | None => false end then as16
      else None in
    option_map (fun ip => mkNodeAddr ip (na_Port peer)) r) all.

Definition info_of (n : node) : NodeInfo := mkNodeInfo (Id n) (mkNodeAddr (IP (Addr_ n)) (Port (Addr_ n))).

Context (c : config) (order : list node -> list node).

Definition makeReturnNodes (now : Z) (t : table) (target : T) (filter : list Z -> bool) : list NodeInfo :=
  map info_of (closestGoodNodes (NoSecurity c) order now t 8 target (fun a => filter (IP a))).

(** [None] is the error of a query without arguments. *)
Definition setReturnNodes (now : Z) (t : table) (r : Return) (m : Msg) (source : Addr) : option Return :=
  a ← A m;
  let r := if shouldReturnNodes (Want a) (IP source)
           then mkReturn (makeReturnNodes now t (InfoHash a) (fun ip => match To4 ip with Some _ => true | None => false end)) (r_Nodes6 r) (r_Token r) (Values r) (r_Seq r) (r_V r) (r_K r) (r_Sig r)
           else r in
  Some (if shouldReturnNodes6 (Want a) (IP source)
        then mkReturn (r_Nodes r) (makeReturnNodes now t (InfoHash a) (fun _ => true)) (r_Token r) (Values r) (r_Seq r) (r_V r) (r_K r) (r_Sig r)
        else r).

Definition with_token (t : string) (r : Return) : Return := mkReturn (r_Nodes r) (r_Nodes6 r) (Some t) (Values r) (r_Seq r) (r_V r) (r_K r) (r_Sig r).
Definition with_values (v : list NodeAddr) (r : Return) : Return := mkReturn (r_Nodes r) (r_Nodes6 r) (r_Token r) v (r_Seq r) (r_V r) (r_K r) (r_Sig r).

Definition ProtocolError : Z := 203.
Definition MethodUnknown : Z := 204.

Definition code_of (e : Bep44.error) : Z :=
  match e with
  | MarshalFailed => MethodUnknown
  | ErrValueFieldTooBig => 205 | ErrInvalidSignature => 206 | ErrSaltFieldTooBig => 207
  | ErrCasHashMismatched => 301 | ErrSequenceNumberLessThanCurrent => 302
  end.

Definition or_panic {B} (o : option B) (k : B -> outcome) : outcome := match o with Some b => k b | None => Panics end.

(** The nodes near the target, or the error of a query without arguments. *)
Definition reply_nodes (now : Z) (s : server) (m : Msg) (source : Addr) (r : Return) : outcome :=
  match setReturnNodes now (table_ s) r m source with Some r => Done s (Reply r) | None => Done s (SendError ProtocolError) end.

Definition get_peers (now : Z) (ts : tokenServer) (s : server) (m : Msg) (source : Addr) : outcome :=
  match A m with
  | None => Done s (SendError ProtocolError)
  | Some a =>
      or_panic (if HasPeerStore c
                then all ← GetPeers (peers_ s) (InfoHash a); t ← createToken ts (IP source) now; Some (with_token t (with_values (filterPeers (IP source) (Want a) all) no_return))
                else Some no_return) (fun r =>
        match Values r with [] => reply_nodes now s m source r | _ => Done s (Reply r) end)
  end.

(** Where the arguments are needed and not looked for: [None] is the nil dereference. *)
Definition announce_peer (now : Z) (ts : tokenServer) (s : server) (m : Msg) (source : Addr) : outcome :=
  or_panic (A m) (fun a => or_panic (ValidToken ts now (Token a) (IP source)) (fun valid =>
    if negb valid then Done s Silence
    else
      let port := if ImpliedPort a then Port source else default 0 (a_Port a) in
      let s := if HasPeerStore c then set_peers (AddPeer now (InfoHash a) (mkNodeAddr (IP source) port) (peers_ s)) s else s in
      Done s (Reply no_return))).

Definition put (now : Z) (ts : tokenServer) (s : server) (m : Msg) (source : Addr) : outcome :=
  or_panic (A m) (fun a => or_panic (ValidToken ts now (Token a) (IP source)) (fun valid =>
    if negb valid then Done s Silence
    else match a_Seq a with
      | None => Done s (SendError ProtocolError)
      | Some seq =>
          or_panic (Bep44.Put now (store_ s) (mkItem 0 (a_V a) (a_K a) (a_Salt a) (a_Sig a) (a_Cas a) seq)) (fun r =>
            match r with
            | (_, Some e) => Done s (SendError (code_of e))
            | (i, None) => Done (set_store i s) (Reply no_return)
            end)
      end)).

Definition get (now : Z) (ts : tokenServer) (s : server) (m : Msg) (source : Addr) : outcome :=
  match A m, setReturnNodes now (table_ s) no_return m source with
  | Some a, Some r =>
      or_panic (createToken ts (IP source) now) (fun t =>
        let r := with_token t r in
        let '(i, found) := Bep44.Get now (Exp c) (store_ s) (a_Target a) in
        let s := set_store i s in
        match found with
        | None => Done s (Reply r)
        | Some it =>
            let r := mkReturn (r_Nodes r) (r_Nodes6 r) (r_Token r) (Values r) (Some (Bep44.Seq it)) (r_V r) (r_K r) (r_Sig r) in
            if match a_Seq a with Some q => Bep44.Seq it <=? q | None => false end then Done s (Reply r)
            else or_panic (MustMarshal (Bep44.V it)) (fun v =>
              Done s (Reply (mkReturn (r_Nodes r) (r_Nodes6 r) (r_Token r) (Values r) (r_Seq r) v (Bep44.K it) (Bep44.Sig it))))
        end)
  | _, _ => Done s (SendError ProtocolError)
  end.

Definition handleQuery (now : Z) (ts : tokenServer) (s : server) (source : Addr) (m : Msg) : outcome :=
  match updateNode (NoSecurity c) order now (table_ s) source (SenderID m) (negb (ReadOnly m)) GotQuery with
  | None => Panics
  | Some (t, _) =>
      let s := set_table t s in
      if negb (OnQuery c m) then Done s Silence
      else if Passive c then Done s Silence
      else if String.eqb (Q m) "ping" then Done s (Reply no_return)
      else if String.eqb (Q m) "get_peers" then get_peers now ts s m source
      else if String.eqb (Q m) "find_node" then reply_nodes now s m source no_return
      else if String.eqb (Q m) "announce_peer" then announce_peer now ts s m source
      else if String.eqb (Q m) "put" then put now ts s m source
      else if String.eqb (Q m) "get" then get now ts s m source
      else Done s (SendError MethodUnknown)
  end.

(** A packet once decoded, while the server is open. *)
Definition processPacket (now : Z) (ts : tokenServer) (s : server) (source : Addr) (m : Msg) : outcome :=
  if String.eqb (Y m) "q" then handleQuery now ts s source m
  else
    let tk := (String_ source, Tid m) in
    if negb (bool_decide (tk ∈ transactions s)) then Done s Silence
    else
      let s := mkServer (table_ s) (peers_ s) (store_ s) (transactions s ∖ {[tk]}) (next s) in
      match updateNode (NoSecurity c) order now (table_ s) source (SenderID m) (negb (ReadOnly m)) GotResponse with
      | None => Panics
      | Some (t, _) => Done (set_table t s) Silence
      end.
End server.

(** ** Queries of its own *)

(** [binary.PutUvarint]. *)
Fixpoint PutUvarint (n : Z) (fuel : nat) : list Z :=
  match fuel with
  | O => []
  | S fuel => if n <? 128 then [n] else (n mod 128 + 128) :: PutUvarint (Z.shiftr n 7) fuel
  end.

Definition to_string (l : list Z) : string := foldr (fun b s => String (byte_of b) s) "" l.

(** [Issue], and [addTransaction] under its key: [None] is the panic of a key in use. *)
Definition begin_query (s : server) (addr : string) : option server :=
  let tk := (addr, to_string (PutUvarint (next s) 10)) in
  if bool_decide (tk ∈ transactions s) then None
  else Some (mkServer (table_ s) (peers_ s) (store_ s) ({[tk]} ∪ transactions s) ((next s + 1) mod 2 ^ 64)).

(** [deleteTransaction]. *)
Definition end_query (s : server) (tk : string * string) : server :=
  mkServer (table_ s) (peers_ s) (store_ s) (transactions s ∖ {[tk]}) (next s).

(** ** The numbers of queries *)

Fixpoint Uvarint (l : list Z) : Z :=
  match l with [] => 0 | b :: l => if b <? 128 then b else (b - 128) + 128 * Uvarint l end.

Lemma Uvarint_PutUvarint n fuel : 0 <= n < 2 ^ (7 * Z.of_nat fuel) -> Uvarint (PutUvarint n fuel) = n.
Proof.
  revert n. induction fuel as [|fuel IH]; intros n Hn; [cbn in *; lia|]. cbn [PutUvarint]. destruct (Z.ltb_spec n 128); cbn [Uvarint].
  - by rewrite (proj2 (Z.ltb_lt _ _)).
  - pose proof (Z.mod_pos_bound n 128 ltac:(lia)). rewrite (proj2 (Z.ltb_ge _ _)) by lia. rewrite Z.shiftr_div_pow2 by lia. change (2 ^ 7) with 128. rewrite IH.
    + pose proof (Z.div_mod n 128 ltac:(lia)). lia.
    + replace (7 * Z.of_nat (S fuel)) with (7 + 7 * Z.of_nat fuel) in Hn by lia. rewrite Z.pow_add_r in Hn by lia. change (2 ^ 7) with 128 in Hn.
      split; [apply Z.div_pos; lia|]. apply Z.div_lt_upper_bound; lia.
Qed.

Lemma PutUvarint_bytes n fuel : 0 <= n -> bytes_ok (PutUvarint n fuel).
Proof.
  revert n. induction fuel as [|fuel IH]; intros n Hn; cbn [PutUvarint]; [constructor|]. destruct (Z.ltb_spec n 128); [by constructor; [lia|constructor]|].
  pose proof (Z.mod_pos_bound n 128 ltac:(lia)). constructor; [lia|]. apply IH, Z.shiftr_nonneg. lia.
Qed.

Lemma to_string_inj a b : bytes_ok a -> bytes_ok b -> to_string a = to_string b -> a = b.
Proof.
  intros Ha. revert b. induction Ha as [|x a Hx Ha IH]; intros b Hb He; destruct Hb as [|y b Hy Hb]; [done..|]. cbn in He. injection He as H1 H2.
  f_equal; [|by apply IH]. rewrite <- (byte_at_of x Hx), <- (byte_at_of y Hy). by rewrite H1.
Qed.

(** Every query has a number of its own. *)
Lemma issued_distinct n m : 0 <= n < 2 ^ 64 -> 0 <= m < 2 ^ 64 -> to_string (PutUvarint n 10) = to_string (PutUvarint m 10) -> n = m.
Proof.
  intros Hn Hm He. apply to_string_inj in He; [|apply PutUvarint_bytes; lia..]. rewrite <- (Uvarint_PutUvarint n 10), <- (Uvarint_PutUvarint m 10) by (cbn; lia). by rewrite He.
Qed.

(** ** The server at every moment *)

Definition wf_source (a : Addr) : Prop := length (IP a) = 4%nat \/ length (IP a) = 16%nat.
Definition wf_msg (m : Msg) : Prop := match SenderID m with Some id => ok id | None => True end.

Section reachable.
Context `{Digest} `{Signing} (c : config) (order : list node -> list node) (ts : tokenServer).

(** Packets of well-formed sources, queries begun (fewer than 2^64 of them) and ended, and pings that failed. *)
Inductive step : server -> server -> Prop :=
  | packet now s source m s' r : wf_source source -> wf_msg m -> processPacket c order now ts s source m = Done s' r -> step s s'
  | begins_query s addr s' : next s + 1 < 2 ^ 64 -> begin_query s addr = Some s' -> step s s'
  | ends_query s tk : step s (end_query s tk)
  | fails_ping now s addr id t e : ok id -> updateNode (NoSecurity c) order now (table_ s) addr (Some id) false FailedPing = Some (t, e) -> step s (set_table t s)
  | answers_ping now s addr id t : ok id -> NodeRespondedToPing now (table_ s) addr id = Some t -> step s (set_table t s).

Inductive reachable : server -> Prop :=
  | opens id : ok id -> reachable (mkServer (new_table id) ∅ ∅ ∅ 0)
  | goes_on s s' : reachable s -> step s s' -> reachable s'.

Record good (s : server) : Prop := {
  g_table : table_ok (table_ s);
  g_store : Bep44.reachable (Exp c) (store_ s);
  g_peers : forall ih m ip v, peers_ s !! ih = Some m -> m !! ip = Some v -> length ip = 4%nat \/ length ip = 16%nat;
  g_next : 0 <= next s < 2 ^ 64;
  g_transactions : forall a t, (a, t) ∈ transactions s -> exists n, 0 <= n < next s /\ t = to_string (PutUvarint n 10);
}.

Context (Horder : forall l, order l ≡ₚ l).

Lemma set_table_good s t : good s -> table_ok t -> good (set_table t s).
Proof. by intros [] Ht. Qed.

Lemma update_good now s addr id tryAdd ch : good s -> match id with Some id => ok id | None => True end ->
  exists t e, updateNode (NoSecurity c) order now (table_ s) addr id tryAdd ch = Some (t, e) /\ good (set_table t s).
Proof using Horder.
  intros Hg Hid. destruct id as [id|]; [|do 2 eexists; split; [done|by destruct Hg]].
  destruct (updateNode_spec (NoSecurity c) order Horder now (table_ s) addr id tryAdd ch (g_table _ Hg) Hid) as (t & e & He & Hok & _). exists t, e. split; [done|by apply set_table_good].
Qed.

Lemma To16_some ip : length ip = 4%nat \/ length ip = 16%nat -> exists ip', To16 ip = Some ip'.
Proof. intros [Hl|Hl]; unfold To16; rewrite Hl; cbn; by eexists. Qed.

Lemma createToken_some ip t : length ip = 4%nat \/ length ip = 16%nat -> exists k, createToken ts ip t = Some k.
Proof. intros Hip. destruct (To16_some ip Hip) as [ip' He]. unfold createToken. rewrite He. cbn [mbind option_bind]. by eexists. Qed.

Lemma ValidToken_some now token ip : length ip = 4%nat \/ length ip = 16%nat -> exists b, ValidToken ts now token ip = Some b.
Proof.
  intros Hip. unfold ValidToken. generalize (Z.to_nat (maxIntervalDelta ts + 1)) as n. intros n. revert now. induction n as [|n IH]; intros now; cbn [valid_loop]; [by eexists|].
  destruct (createToken_some ip now Hip) as [k ->]. cbn [mbind option_bind]. destruct (String.eqb k token); [by eexists|apply IH].
Qed.

Lemma GetPeers_some s ih : good s -> exists l, GetPeers (peers_ s) ih = Some l /\ Forall (fun na => length (na_IP na) = 2%nat \/ length (na_IP na) = 14%nat) l.
Proof.
  intros Hg. unfold GetPeers. assert (Forall (fun x : list Z * (NodeAddr * Z) => length x.1 = 4%nat \/ length x.1 = 16%nat) (map_to_list (default ∅ (peers_ s !! ih)))) as Hf.
  { apply Forall_forall. intros [ip v] Hx%elem_of_map_to_list. destruct (peers_ s !! ih) as [m|] eqn:Hm; [|cbn in Hx; by rewrite lookup_empty in Hx]. by apply (g_peers _ Hg ih m ip v). }
  induction Hf as [|[ip v] l Hip Hl IH]; [by exists []|]. destruct IH as (l' & Hl' & Hf'). cbn [fst] in Hip.
  set (f := fun x : list Z * (NodeAddr * Z) => UnmarshalBinary x.1) in *. change (mapM f ((ip, v) :: l)) with (y ← UnmarshalBinary ip; k ← mapM f l; mret (y :: k)).
  unfold UnmarshalBinary at 1. destruct (Nat.ltb_spec (length ip) 2) as [|]; [destruct Hip; lia|]. cbn [mbind option_bind]. rewrite Hl'. cbn [mbind option_bind mret option_ret].
  eexists. split; [done|]. constructor; [|done]. cbn [na_IP]. rewrite length_take. destruct Hip as [->| ->]; [left|right]; cbn; lia.
Qed.

Lemma AddPeer_good now s ih na : good s -> length (na_IP na) = 4%nat \/ length (na_IP na) = 16%nat -> good (set_peers (AddPeer now ih na (peers_ s)) s).
Proof.
  intros [Ht Hs Hp Hn Htr] Hna. split; try done. cbn. intros ih' m ip v Hm Hv. unfold AddPeer in Hm. apply lookup_insert_Some in Hm as [[<- <-]|[_ Hm]]; [|by apply (Hp ih' m ip v)].
  apply lookup_insert_Some in Hv as [[<- _]|[_ Hv]]; [done|]. destruct (peers_ s !! ih) as [m'|] eqn:Hm'; [by apply (Hp ih m' ip v)|cbn in Hv; by rewrite lookup_empty in Hv].
Qed.

(** A query that reads its arguments without looking whether there are any. *)
Definition careless (m : Msg) : Prop := (Q m = "announce_peer" \/ Q m = "put") /\ A m = None.

Lemma announce_returns now s m source : good s -> wf_source source ->
  match A m with
  | None => announce_peer c now ts s m source = Panics
  | Some _ => exists s' r, announce_peer c now ts s m source = Done s' r /\ good s'
  end.
Proof.
  intros Hg Hsrc. unfold announce_peer. destruct (A m) as [a|]; [|done]. cbn [or_panic]. destruct (ValidToken_some now (Token a) (IP source) Hsrc) as [b ->]. cbn [or_panic].
  destruct b; cbn [negb]; [|by do 2 eexists]. do 2 eexists. split; [done|]. destruct (HasPeerStore c); [|done]. by apply AddPeer_good.
Qed.

Lemma put_returns now s m source : good s -> wf_source source ->
  match A m with
  | None => put now ts s m source = Panics
  | Some _ => exists s' r, put now ts s m source = Done s' r /\ good s'
  end.
Proof.
  intros Hg Hsrc. unfold put. destruct (A m) as [a|]; [|done]. cbn [or_panic]. destruct (ValidToken_some now (Token a) (IP source) Hsrc) as [b ->]. cbn [or_panic].
  destruct b; cbn [negb]; [|by do 2 eexists]. destruct (a_Seq a) as [seq|]; [|by do 2 eexists].
  destruct (Put_returns (Exp c) now (store_ s) (mkItem 0 (a_V a) (a_K a) (a_Salt a) (a_Sig a) (a_Cas a) seq) (g_store _ Hg)) as (i & e & -> & Hi). cbn [or_panic].
  destruct e; [by do 2 eexists|]. do 2 eexists. split; [done|]. by destruct Hg.
Qed.

Lemma get_returns now s m source : good s -> wf_source source -> exists s' r, get c order now ts s m source = Done s' r /\ good s'.
Proof.
  intros Hg Hsrc. unfold get. destruct (A m) as [a|]; [|by do 2 eexists]. destruct (setReturnNodes _ _ _ _ _ _ _) as [r|]; [|by do 2 eexists].
  destruct (createToken_some (IP source) now Hsrc) as [t ->]. cbn [or_panic]. pose proof (after_get (Exp c) now (store_ s) (a_Target a) (g_store _ Hg)) as Hr.
  pose proof (reachable_items (Exp c) (store_ s) (g_store _ Hg) (a_Target a)) as Hit. unfold Bep44.Get in *. destruct (store_ s !! a_Target a) as [it|].
  - destruct (now <? created it + Exp c); cbn [fst] in Hr.
    + destruct (match a_Seq a with Some q => Bep44.Seq it <=? q | None => false end); [do 2 eexists; split; [done|by destruct Hg]|].
      destruct (check_marshals it (proj2 (Hit it eq_refl))) as [v ->]. cbn [or_panic]. do 2 eexists. split; [done|by destruct Hg].
    + do 2 eexists. split; [done|by destruct Hg].
  - do 2 eexists. split; [done|by destruct Hg].
Qed.

Lemma reply_nodes_returns now s m source r : exists r', reply_nodes c order now s m source r = Done s r'.
Proof. unfold reply_nodes. destruct (setReturnNodes _ _ _ _ _ _ _); by eexists. Qed.

(** The peers stored come back with two bytes less, and so as no address at all. *)
Lemma filterPeers_none ip wants l : Forall (fun na => length (na_IP na) = 2%nat \/ length (na_IP na) = 14%nat) l -> filterPeers ip wants l = [].
Proof.
  induction 1 as [|na l Hna Hl IH]; [done|]. unfold filterPeers in *. cbn [omap list_omap]. rewrite IH.
  assert (To4 (na_IP na) = None /\ To16 (na_IP na) = None) as [-> ->].
  { assert (length (na_IP na) <> 4%nat /\ length (na_IP na) <> 16%nat) as [H4 H16] by lia. unfold To4, To16. rewrite (proj2 (Nat.eqb_neq _ _) H4), (proj2 (Nat.eqb_neq _ _) H16).
    done. }
  assert ((length (na_IP na) =? 4)%nat = false /\ (length (na_IP na) =? 16)%nat = false) as [-> ->] by (by destruct Hna as [->| ->]). rewrite !andb_false_r. done.
Qed.

Lemma get_peers_returns now s m source : good s -> wf_source source ->
  exists r, get_peers c order now ts s m source = Done s r /\ match r with Reply r => Values r = [] | _ => True end.
Proof.
  intros Hg Hsrc. unfold get_peers. destruct (A m) as [a|] eqn:Ha; [|by eexists].
  assert (forall r, Values r = [] -> exists r', reply_nodes c order now s m source r = Done s r' /\ match r' with Reply r' => Values r' = [] | _ => True end) as Hrep.
  { intros r Hr. unfold reply_nodes, setReturnNodes. rewrite Ha. cbn [mbind option_bind].
    destruct (shouldReturnNodes (Want a) (IP source)), (shouldReturnNodes6 (Want a) (IP source)); by eexists. }
  destruct (HasPeerStore c); cbn [or_panic]; [|apply (Hrep no_return eq_refl)].
  destruct (GetPeers_some s (InfoHash a) Hg) as (l & -> & Hl). cbn [mbind option_bind]. destruct (createToken_some (IP source) now Hsrc) as [t ->]. cbn [mbind option_bind or_panic].
  rewrite (filterPeers_none _ _ _ Hl). apply (Hrep (with_token t (with_values [] no_return)) eq_refl).
Qed.

Lemma handleQuery_returns now s m source : good s -> wf_source source -> wf_msg m ->
  (handleQuery c order now ts s source m = Panics <-> OnQuery c m = true /\ Passive c = false /\ careless m) /\
  forall s' r, handleQuery c order now ts s source m = Done s' r -> good s'.
Proof using Horder.
  intros Hg Hsrc Hm. unfold handleQuery, careless. destruct (update_good now s source (SenderID m) (negb (ReadOnly m)) GotQuery Hg Hm) as (t & e & -> & Hg').
  assert (forall o : outcome, (exists s' r, o = Done s' r /\ good s') -> forall P : Prop, ~ P -> (o = Panics <-> P) /\ forall s' r, o = Done s' r -> good s') as Hdone.
  { intros o (s' & r & -> & Hs) P HP. split; [split; [done|tauto]|]. by intros s1 r1 [= <- <-]. }
  destruct (OnQuery c m); cbn [negb]; [|apply Hdone; [by do 2 eexists|by intros [? _]]]. destruct (Passive c); [apply Hdone; [by do 2 eexists|by intros (_ & ? & _)]|].
  destruct (String.eqb_spec (Q m) "ping") as [Hq|_]; [apply Hdone; [by do 2 eexists|rewrite Hq; by intros (_ & _ & [[?|?] _])]|].
  destruct (String.eqb_spec (Q m) "get_peers") as [Hq|_].
  { destruct (get_peers_returns now (set_table t s) m source Hg' Hsrc) as (r & -> & _). apply Hdone; [by do 2 eexists|rewrite Hq; by intros (_ & _ & [[?|?] _])]. }
  destruct (String.eqb_spec (Q m) "find_node") as [Hq|_].
  { destruct (reply_nodes_returns now (set_table t s) m source no_return) as [r ->]. apply Hdone; [by do 2 eexists|rewrite Hq; by intros (_ & _ & [[?|?] _])]. }
  destruct (String.eqb_spec (Q m) "announce_peer") as [Hq|Hna].
  { pose proof (announce_returns now (set_table t s) m source Hg' Hsrc) as Ha. destruct (A m) as [a|]; [apply Hdone; [done|by intros (_ & _ & [_ ?])]|]. rewrite Ha. split; [|done].
    split; [|done]. intros _. split_and!; [done..|by left|done]. }
  destruct (String.eqb_spec (Q m) "put") as [Hq|Hnp].
  { pose proof (put_returns now (set_table t s) m source Hg' Hsrc) as Ha. destruct (A m) as [a|]; [apply Hdone; [done|by intros (_ & _ & [_ ?])]|]. rewrite Ha. split; [|done].
    split; [|done]. intros _. split_and!; [done..|by right|done]. }
  destruct (String.eqb (Q m) "get"); [apply Hdone; [by apply get_returns|]|apply Hdone; [by do 2 eexists|]]; by intros (_ & _ & [[?|?] _]).
Qed.

Lemma processPacket_returns now s m source : good s -> wf_source source -> wf_msg m ->
  (processPacket c order now ts s source m = Panics <-> Y m = "q" /\ OnQuery c m = true /\ Passive c = false /\ careless m) /\
  forall s' r, processPacket c order now ts s source m = Done s' r -> good s'.
Proof using Horder.
  intros Hg Hsrc Hm. unfold processPacket. destruct (String.eqb_spec (Y m) "q") as [Hy|Hy].
  { destruct (handleQuery_returns now s m source Hg Hsrc Hm) as [Hp Hd]. split; [|done]. rewrite Hp. tauto. }
  destruct (negb _); [split; [split; [done|tauto]|by intros s' r [= <- <-]]|]. set (s1 := mkServer _ _ _ _ _).
  assert (good s1) as Hg1 by (destruct Hg as [H1 H2 H3 H4 H5]; split; try done; cbn; intros a k Hin; apply elem_of_difference in Hin as [Hin _]; by apply (H5 a k)).
  destruct (update_good now s1 source (SenderID m) (negb (ReadOnly m)) GotResponse Hg1 Hm) as (t & e & -> & Hg'). split; [split; [done|tauto]|]. by intros s' r [= <- <-].
Qed.

Lemma begin_query_good s addr : good s -> next s + 1 < 2 ^ 64 -> exists s', begin_query s addr = Some s' /\ good s'.
Proof.
  intros [H1 H2 H3 H4 H5] Hn. unfold begin_query. rewrite bool_decide_false.
  - eexists. split; [done|]. split; try done; cbn; [rewrite Z.mod_small; lia|]. intros a t [Hin|Hin]%elem_of_union.
    + apply elem_of_singleton, (f_equal snd) in Hin. exists (next s). rewrite Z.mod_small by lia. split; [lia|done].
    + destruct (H5 a t Hin) as (n & Hb & He). exists n. rewrite Z.mod_small by lia. split; [lia|done].
  - intros Hin. destruct (H5 _ _ Hin) as (n & Hb & He). apply issued_distinct in He; lia.
Qed.

Lemma kad_step_good s s' : good s -> step s s' -> good s'.
Proof using Horder.
  intros Hg Hs. destruct Hs as [now s source m s' r Hsrc Hm Hp|s addr s' Hn Hq|s tk|now s addr id t e Hid Hu|now s addr id t Hid Hu].
  - by apply (proj2 (processPacket_returns now s m source Hg Hsrc Hm) s' r).
  - destruct (begin_query_good s addr Hg Hn) as (s1 & H1 & H2). rewrite Hq in H1. by injection H1 as ->.
  - destruct Hg as [H1 H2 H3 H4 H5]. split; try done. cbn. intros a t [Hin _]%elem_of_difference. by apply (H5 a t).
  - destruct (update_good now s addr (Some id) false FailedPing Hg Hid) as (t1 & e1 & H1 & H2). rewrite Hu in H1. by injection H1 as -> _.
  - destruct (NodeRespondedToPing_ok now (table_ s) addr id (g_table _ Hg) Hid) as (t1 & H1 & H2 & _). rewrite Hu in H1. injection H1 as ->. by apply set_table_good.
Qed.

Lemma kad_reachable_good s : reachable s -> good s.
Proof using Horder.
  induction 1 as [id Hid|s s' _ IH Hs]; [|by eapply kad_step_good]. split; cbn.
  - by apply new_table_ok.
  - apply Bep44.empty_store.
  - done.
  - lia.
  - intros a t Hin. by apply elem_of_empty in Hin.
Qed.
End reachable.


(** A query to announce or to put, with arguments, whose token is good for the address it came from. *)
Definition by_token `{Digest} (ts : tokenServer) (now : Z) (m : Msg) (source : Addr) : Prop :=
  exists a, A m = Some a /\ (Q m = "announce_peer" \/ Q m = "put") /\ ValidToken ts now (Token a) (IP source) = Some true.

(** Nothing is announced or stored without a token.  A packet that changes the peers on record, or puts an item, is a query to announce or
    to put whose token the server gave that address lately. *)
Theorem changed_by_token `{Digest} `{Signing} c order ts s now source m s' r (Hp : processPacket c order now ts s source m = Done s' r)
    (Hchange : peers_ s' <> peers_ s \/ exists t i, store_ s' !! t = Some i /\ store_ s !! t <> Some i) :
  by_token ts now m source.
Proof.
  assert (forall v, peers_ v = peers_ s -> (forall t i, store_ v !! t = Some i -> store_ s !! t = Some i) -> Done v r = Done s' r -> by_token ts now m source) as Hsame.
  { intros v Hv Hst [= ->]. exfalso. destruct Hchange as [Hc|(t & i & Hi & Hni)]; [done|]. by apply Hni, Hst. }
  unfold processPacket in Hp. destruct (String.eqb (Y m) "q").
  - unfold handleQuery in Hp. destruct (updateNode _ _ _ _ _ _ _ _) as [[t e]|]; [|done]. set (s1 := set_table t s) in *.
    assert (forall v x, v = s1 -> Done v x = Done s' r -> by_token ts now m source) as Hs1 by (intros v x -> [= <- <-]; by apply (Hsame s1)).
    destruct (OnQuery c m); [|by eapply Hs1, Hp]. destruct (Passive c); [by eapply Hs1, Hp|]. cbn [negb] in Hp. destruct (String.eqb (Q m) "ping"); [by eapply Hs1, Hp|].
    assert (forall r0, reply_nodes c order now s1 m source r0 = Done s' r -> s' = s1) as Hrep by (intros r0; unfold reply_nodes; destruct (setReturnNodes _ _ _ _ _ _ _); by intros [= <- _]).
    destruct (String.eqb (Q m) "get_peers").
    { assert (s' = s1) as ->; [|by apply (Hs1 s1 r)]. unfold get_peers in Hp. destruct (A m) as [a|]; [|by injection Hp as <- _]. unfold or_panic in Hp.
      match type of Hp with context [match ?o with Some _ => _ | None => Panics end] => destruct o as [r0|] end; [|done]. destruct (Values r0); [by apply Hrep in Hp|by injection Hp as <- _]. }
    destruct (String.eqb (Q m) "find_node"); [apply Hrep in Hp as ->; by apply (Hs1 s1 r)|].
    destruct (String.eqb_spec (Q m) "announce_peer") as [Hq|_].
    { unfold announce_peer, or_panic in Hp. destruct (A m) as [a|] eqn:Ham; [|done]. destruct (ValidToken ts now (Token a) (IP source)) as [[|]|] eqn:Hv; [|by eapply Hs1, Hp|done]. exists a. split_and!; [done|by left|done]. }
    destruct (String.eqb_spec (Q m) "put") as [Hq|_].
    { unfold put, or_panic in Hp. destruct (A m) as [a|] eqn:Ham; [|done]. destruct (ValidToken ts now (Token a) (IP source)) as [[|]|] eqn:Hv; [|by eapply Hs1, Hp|done]. exists a. split_and!; [done|by right|done]. }
    destruct (String.eqb (Q m) "get"); [|by eapply Hs1, Hp].
    unfold get, or_panic in Hp. destruct (A m) as [a|]; [|by eapply Hs1, Hp]. destruct (setReturnNodes _ _ _ _ _ _ _) as [r0|]; [|by eapply Hs1, Hp]. destruct (createToken ts (IP source) now); [|done].
    destruct (Bep44.Get now (Exp c) (store_ s1) (a_Target a)) as [i found] eqn:Hget.
    assert (forall x, Done (set_store i s1) x = Done s' r -> by_token ts now m source) as Hgot.
    { intros x [= <- <-]. apply (Hsame (set_store i s1)); [done| |done]. intros u j. cbn. unfold Bep44.Get in Hget. destruct (store_ s1 !! a_Target a) as [it|]; [|by injection Hget as <- _].
      destruct (_ <? _); injection Hget as <- _; [done|]. by intros [_ Hj]%lookup_delete_Some. }
    destruct found as [it|]; [|by eapply Hgot, Hp]. match type of Hp with context [if ?b then _ else _] => destruct b end; [by eapply Hgot, Hp|].
    destruct (MustMarshal (Bep44.V it)); [by eapply Hgot, Hp|done].
  - destruct (negb _); [injection Hp as <- <-; by apply (Hsame s)|]. destruct (updateNode _ _ _ _ _ _ _ _) as [[t e]|]; [|done]. injection Hp as <- <-. by refine (Hsame _ _ _ eq_refl).
Qed.

(** ** How long a token is good *)

Lemma be64_length n : length (be64 n) = 8%nat.
Proof. done. Qed.

Lemma be64_bytes n : bytes_ok (be64 n).
Proof. unfold be64, bytes_ok. apply Forall_forall. intros x (i & -> & _)%list_elem_of_fmap. apply Z.mod_pos_bound. lia. Qed.

Lemma be64_inj x y : 0 <= x < 2 ^ 64 -> 0 <= y < 2 ^ 64 -> be64 x = be64 y -> x = y.
Proof.
  intros Hx Hy He. apply Z.bits_inj'. intros n Hn. destruct (Z_lt_le_dec n 64) as [Hlt|Hge]; [|by rewrite !(testbit_high _ 64)].
  pose proof (Z.div_mod n 8 ltac:(lia)) as Hdm. pose proof (Z.mod_pos_bound n 8 ltac:(lia)). assert (0 <= n / 8 < 8) as Hq by (split; [apply Z.div_pos; lia|apply Z.div_lt_upper_bound; lia]).
  set (i := Z.to_nat (7 - n / 8)). assert (forall z, be64 z !! i = Some (Z.shiftr z (8 * (n / 8)) mod 256)) as Hbyte.
  { intros z. unfold be64. change (map ?f ?l) with (f <$> l). rewrite list_lookup_fmap, lookup_seq_lt by lia. cbn. do 3 f_equal. lia. }
  pose proof (Hbyte x) as Bx. rewrite He, Hbyte in Bx. injection Bx as Bx. apply (f_equal (fun z => Z.testbit z (n mod 8))) in Bx. change 256 with (2 ^ 8) in Bx.
  rewrite !Z.mod_pow2_bits_low, !Z.shiftr_spec in Bx by lia. replace (n mod 8 + 8 * (n / 8)) with n in Bx by lia. done.
Qed.

Section tokens.
Context `{Digest} (ts : tokenServer) (Hinj : forall a b, bytes_ok a -> bytes_ok b -> digest a = digest b -> a = b) (Hsecret : bytes_ok (secret ts)).
Context (Hint : 0 < interval ts).

Lemma To16_bytes ip ip' : bytes_ok ip -> To16 ip = Some ip' -> bytes_ok ip' /\ length ip' = 16%nat.
Proof.
  intros Hb. unfold To16. destruct (Nat.eqb_spec (length ip) 4) as [H4|_]; [|destruct (Nat.eqb_spec (length ip) 16); intros [= <-]; done].
  intros [= <-]. split; [|cbn; lia]. do 12 (apply Forall_cons; split; [lia|]). done.
Qed.

Lemma createToken_eq ip t ip' t' : bytes_ok ip -> bytes_ok ip' -> 0 <= t < 2 ^ 63 -> 0 <= t' < 2 ^ 63 -> is_Some (To16 ip) ->
  createToken ts ip t = createToken ts ip' t' <-> To16 ip = To16 ip' /\ t / interval ts = t' / interval ts.
Proof using All.
  intros Hb Hb' Ht Ht' [v Hv]. unfold createToken. rewrite Hv. cbn [mbind option_bind]. rewrite !Z.quot_div_nonneg by lia.
  assert (forall z, 0 <= z < 2 ^ 63 -> 0 <= z / interval ts < 2 ^ 64) as Hdiv by (intros z Hz; split; [apply Z.div_pos; lia|apply Z.div_lt_upper_bound; nia]).
  rewrite !Z.mod_small by (by apply Hdiv). split.
  - destruct (To16 ip') as [v'|] eqn:Hv'; cbn [mbind option_bind]; [|done]. intros He%(inj Some). destruct (To16_bytes _ _ Hb Hv) as [Hbv Hlv], (To16_bytes _ _ Hb' Hv') as [Hbv' Hlv'].
    apply Hinj in He; [|repeat (apply Forall_app; split); try apply be64_bytes; done..]. apply app_inj_1 in He as [-> He]; [|lia]. apply app_inj_1 in He as [He _]; [|done].
    split; [done|]. by apply be64_inj; [apply Hdiv..|].
  - intros [<- ->]. by rewrite ?Hv.
Qed.

Lemma valid_loop_spec token ip now n : is_Some (To16 ip) -> valid_loop ts token ip now n = Some true <-> exists j, (j < n)%nat /\ createToken ts ip (now - Z.of_nat j * interval ts) = Some token.
Proof using All.
  intros [v Hv]. revert now. induction n as [|n IH]; intros now; cbn [valid_loop]; [split; [done|]; by intros (j & ? & _); lia|].
  destruct (createToken ts ip now) as [k|] eqn:Hk; [|unfold createToken in Hk; by rewrite Hv in Hk]. cbn [mbind option_bind]. destruct (String.eqb_spec k token) as [->|Hne].
  - split; [|done]. intros _. exists 0%nat. split; [lia|]. rewrite <- Hk. f_equal. lia.
  - rewrite IH. split; intros (j & Hj & Hc).
    + exists (S j). split; [lia|]. rewrite <- Hc. f_equal. lia.
    + destruct j as [|j]; [replace (now - Z.of_nat 0 * interval ts) with now in Hc by lia; congruence|]. exists j. split; [lia|]. rewrite <- Hc. f_equal. lia.
Qed.
End tokens.


(** A peer is stored under its address without the port, and read back as if the port were there: no answer ever has a peer in it. *)
Lemma peers_never_given `{Digest} `{Signing} c order ts s now source m s' r : (forall l, order l ≡ₚ l) -> reachable c order ts s -> wf_source source -> wf_msg m ->
  get_peers c order now ts s m source = Done s' (Reply r) -> Values r = [].
Proof.
  intros Ho Hr Hsrc Hm Hp. apply kad_reachable_good in Hr; [|done]. destruct (get_peers_returns c order ts now s m source Hr Hsrc) as (r' & He & Hv). rewrite Hp in He. by injection He as <- <-.
Qed.

(** ** A small server *)

Definition plain : config := mkConfig true false (fun _ => true) true 60.
Definition five_minutes : tokenServer := mkTokens [1; 2; 3] (300 * 1000000000) 2.
#[local] Instance spelled : Digest := to_string.
#[local] Instance unsigned : Signing := toy.

Definition opened : server := mkServer (new_table root0) ∅ ∅ ∅ 0.

Lemma opened_reachable : reachable plain (fun l => l) five_minutes opened.
Proof. apply opens. ok_now. Qed.

(** A datagram that ends the program: an announcement without arguments. *)
Definition bare : Msg := mkMsg "announce_peer" None "t" "q" None false.

Lemma bare_panics : processPacket plain (fun l => l) 5 five_minutes opened a1 bare = Panics.
Proof. vm_compute. reflexivity. Qed.


Definition hour : Z := 3600 * 1000000000.
Definition given : string := default "" (createToken five_minutes (IP a1) hour).
Definition announces : Msg := mkMsg "announce_peer" (Some (mkArgs (id_ 3) (id_ 9) "" given (Some 5) false [] None None 0 "" "" "")) "t" "q" None false.

Lemma changed_by_token_witness : exists s', processPacket plain (fun l => l) (hour + 1) five_minutes opened a1 announces = Done s' (Reply no_return) /\
  by_token five_minutes (hour + 1) announces a1.
Proof.
  eexists. split; [vm_compute; reflexivity|].
  eapply (changed_by_token plain (fun l => l) five_minutes opened (hour + 1) a1 announces); [vm_compute; reflexivity|]. left. intros He. apply (f_equal size) in He. vm_compute in He. discriminate He.
Defined.

Lemma small_bytes : bytes_ok (secret five_minutes) /\ bytes_ok (IP a1).
Proof. split; refine (bool_decide_unpack (Forall _ _) _); vm_compute; exact I. Qed.

Lemma given_at_hour : createToken five_minutes (IP a1) hour = Some given.
Proof. vm_compute. reflexivity. Qed.

