(* ===== verification/Pieces.v ===== *)
(** * Which pieces are asked for, in which order: internal/bt/internal/request-strategy

    The pieces a client may ask for are kept in a tree ([Ordered.Container], packages outside the program), in the order of their priority, and in a map from
    their keys to what they were filed under.  [GetRequestablePieces] walks the tree within the room the storage has and a bound on what is downloaded but not verified.
    The comparison is a chain of multiless: the first comparison that tells two items apart decides. *)
From stdpp Require Import base gmap list.
From Stdlib Require Import ZArith Lia Sorted.
From S2P Require Import Prelude Ordered.

#[local] Open Scope Z_scope.

(** The info-hash's twenty bytes, and the piece's index. *)
Record Key := mkKey { InfoHash : list Z; Index : Z }.

Record State := mkState { Availability : Z; Priority : Z; Partial : bool }.

Record Item := mkItem { key : Key; state : State }.

#[export] Instance Key_eq : EqDecision Key.
Proof. solve_decision. Defined.
#[export] Instance State_eq : EqDecision State.
Proof. solve_decision. Defined.
#[export] Instance Item_eq : EqDecision Item.
Proof. solve_decision. Defined.
#[export] Instance Key_countable : Countable Key.
Proof. refine (inj_countable' (fun k => (InfoHash k, Index k)) (fun x => mkKey x.1 x.2) _). by intros []. Defined.

(** [bytes.Compare]. *)
Fixpoint compare_bytes (a b : list Z) : Z :=
  match a, b with
  | [], [] => 0
  | [], _ => -1
  | _, [] => 1
  | x :: a, y :: b => if x <? y then -1 else if y <? x then 1 else compare_bytes a b
  end.

(** [multiless.Int] and [Bool], which puts false before true. *)
Definition by_int (a b : Z) (rest : bool) : bool := if a =? b then rest else a <? b.
Definition by_bool (a b : bool) (rest : bool) : bool := if Bool.eqb a b then rest else negb a.

Definition pieceOrderLess (i j : Item) : bool :=
  by_int (Priority (state j)) (Priority (state i))
    (by_bool (Partial (state j)) (Partial (state i))
       (by_int (Availability (state i)) (Availability (state j))
          (by_int (Index (key i)) (Index (key j)) (compare_bytes (InfoHash (key i)) (InfoHash (key j)) <? 0)))).

Section order.
Context {S : Type} `{Container Item S}.

Record PieceRequestOrder := mkOrder { tree : S; keys : gmap Key State }.

Definition NewPieceOrder : PieceRequestOrder := mkOrder none ∅.

Definition Contains (s : S) (x : Item) : bool := existsb (fun y => negb (apart pieceOrderLess x y)) (elements_of s).

(** [Delete] panics on an item that is not there, [Add] on one that is: [None]. *)
Definition tree_Delete (s : S) (x : Item) : option S := if Contains s x then Some (del x s) else None.
Definition tree_Add (s : S) (x : Item) : option S := if Contains s x then None else Some (put x s).

Definition Add (me : PieceRequestOrder) (k : Key) (st : State) : option (PieceRequestOrder * option State) :=
  match keys me !! k with
  | Some old =>
      if bool_decide (st = old) then Some (me, Some old)
      else s ← tree_Delete (tree me) (mkItem k old); s ← tree_Add s (mkItem k st); Some (mkOrder s (<[k := st]> (keys me)), Some old)
  | None => s ← tree_Add (tree me) (mkItem k st); Some (mkOrder s (<[k := st]> (keys me)), None)
  end.

Definition Update (me : PieceRequestOrder) (k : Key) (st : State) : option (PieceRequestOrder * bool) :=
  match Add me k st with
  | Some (me, Some old) => Some (me, negb (bool_decide (old = st)))
  | _ => None
  end.

Definition Delete (me : PieceRequestOrder) (k : Key) : option (PieceRequestOrder * bool) :=
  match keys me !! k with
  | None => Some (me, false)
  | Some st => s ← tree_Delete (tree me) (mkItem k st); Some (mkOrder s (delete k (keys me)), true)
  end.

Definition Len (me : PieceRequestOrder) : Z := Z.of_nat (size (keys me)).

Definition zero_state : State := mkState 0 0 false.

Definition Get (me : PieceRequestOrder) (k : Key) : option (option State) :=
  let ret := keys me !! k in
  if Bool.eqb (bool_decide (is_Some ret)) (Contains (tree me) (mkItem k (default zero_state ret))) then Some ret else None.

(** ** The walk *)

(** What the walk asks of the torrents, the storage and its caller; [requestPiece] answers by what it has been given so far. *)
Record Input := mkInput {
  PieceLength : list Z -> Z; Request : Key -> bool; CountUnverified : Key -> bool; Capacity : option Z; MaxUnverifiedBytes : Z;
  requestPiece : list Item -> Item -> bool;
}.

Fixpoint scan (o : Input) (l : list Item) (left_ : option Z) (unverified : Z) (given : list Item) : list Item * bool :=
  match l with
  | [] => (given, true)
  | x :: l =>
      let n := PieceLength o (InfoHash (key x)) in
      if match left_ with Some room => room <? n | None => false end then (given, true)
      else
        let left_ := (fun room => i64_sub room n) <$> left_ in
        let go given :=
          let unverified := i64_add unverified n in
          if negb (MaxUnverifiedBytes o =? 0) && (MaxUnverifiedBytes o <=? unverified) then (given, true) else scan o l left_ unverified given in
        if Request o (key x)
        then if requestPiece o given x then go (given ++ [x]) else (given ++ [x], false)
        else if CountUnverified o (key x) then go given else scan o l left_ unverified given
  end.

Definition GetRequestablePieces (o : Input) (me : PieceRequestOrder) : list Item * bool := scan o (elements_of (tree me)) (Capacity o) 0 [].
End order.
Arguments PieceRequestOrder : clear implicits.

(** ** The order *)

Definition wf_item (x : Item) : Prop := length (InfoHash (key x)) = 20%nat.

Definition place (x : Item) : list Z :=
  [- Priority (state x); if Partial (state x) then 0 else 1; Availability (state x); Index (key x)] ++ InfoHash (key x).

Lemma compare_bytes_lex a b : (compare_bytes a b <? 0) = lex_lt a b.
Proof.
  revert b. induction a as [|x a IH]; intros [|y b]; try done. cbn [compare_bytes lex_lt].
  destruct (Z.ltb_spec x y); [done|]. destruct (Z.ltb_spec y x); cbn [orb].
  - destruct (Z.eqb_spec x y); [lia|done].
  - destruct (Z.eqb_spec x y); [apply IH|lia].
Qed.

Lemma less_place x y : pieceOrderLess x y = lex_lt (place x) (place y).
Proof.
  unfold pieceOrderLess, place, by_int, by_bool. rewrite compare_bytes_lex. cbn [app lex_lt].
  destruct (Z.eqb_spec (Priority (state y)) (Priority (state x))) as [->|Hne].
  2:{ destruct (Z.eqb_spec (- Priority (state x)) (- Priority (state y))); [lia|]. cbn [andb]. rewrite orb_false_r.
      destruct (Z.ltb_spec (Priority (state y)) (Priority (state x))), (Z.ltb_spec (- Priority (state x)) (- Priority (state y))); try done; lia. }
  rewrite Z.ltb_irrefl, Z.eqb_refl. cbn [orb andb].
  destruct (Partial (state x)), (Partial (state y)); cbn [Bool.eqb negb]; try done; cbn [Z.ltb Z.eqb Z.compare Pos.compare Pos.compare_cont orb andb].
  - destruct (Z.eqb_spec (Availability (state x)) (Availability (state y))) as [->|]; [|by rewrite andb_false_l, orb_false_r].
    rewrite Z.ltb_irrefl. cbn [orb andb]. destruct (Z.eqb_spec (Index (key x)) (Index (key y))) as [->|]; [by rewrite Z.ltb_irrefl|by rewrite andb_false_l, orb_false_r].
  - destruct (Z.eqb_spec (Availability (state x)) (Availability (state y))) as [->|]; [|by rewrite andb_false_l, orb_false_r].
    rewrite Z.ltb_irrefl. cbn [orb andb]. destruct (Z.eqb_spec (Index (key x)) (Index (key y))) as [->|]; [by rewrite Z.ltb_irrefl|by rewrite andb_false_l, orb_false_r].
Qed.

Lemma pieceOrder_weak : weak_order wf_item pieceOrderLess.
Proof. apply (weak_order_key _ _ place). intros x y _ _. apply less_place. Qed.

Lemma by_place l : in_order wf_item pieceOrderLess l -> StronglySorted (fun x y => lex_lt (place x) (place y) = true) l.
Proof.
  intros [Ho _]. induction Ho as [|x l _ IH Hx]; constructor; [done|]. eapply Forall_impl; [exact Hx|]. intros y. cbn. by rewrite less_place.
Qed.

Lemma place_inj x y : place x = place y -> x = y.
Proof.
  unfold place. destruct x as [[h i] [a p b]], y as [[h' i'] [a' p' b']]. cbn. intros [= Hp Hb -> -> ->].
  assert (p = p') as -> by lia. by destruct b, b'.
Qed.

(** Two items that share a place are one. *)
Lemma apart_false x y : apart pieceOrderLess x y = false -> x = y.
Proof. unfold apart. rewrite !less_place. intros [H1 H2]%orb_false_elim. by apply place_inj, lex_total. Qed.

Lemma apart_refl x : apart pieceOrderLess x x = false.
Proof. unfold apart. by rewrite !less_place, lex_irrefl. Qed.

Section sync.
Context {S : Type} `{ContainerLaws Item S wf_item pieceOrderLess}.

(** The tree holds the map's pieces, each filed under its state. *)
Definition in_sync (me : PieceRequestOrder S) : Prop :=
  valid (tree me) /\ (forall k st, keys me !! k = Some st -> length (InfoHash k) = 20%nat) /\
  forall x, x ∈ elements_of (tree me) <-> keys me !! key x = Some (state x).

Lemma Contains_spec s x : Contains s x = true <-> x ∈ elements_of s.
Proof using Type.
  unfold Contains. rewrite existsb_elem. split; [|intros Hx; exists x; by rewrite apart_refl].
  intros (y & Hy & Ha). apply negb_true_iff, apart_false in Ha. by subst.
Qed.

Lemma apart_spec x y : apart pieceOrderLess x y = true <-> x <> y.
Proof using Type.
  split; [intros Ha ->; by rewrite apart_refl in Ha|]. intros Hne. destruct (apart pieceOrderLess x y) eqn:E; [done|]. by apply apart_false in E.
Qed.

Lemma file_in me k st : in_sync me -> length (InfoHash k) = 20%nat -> keys me !! k = None ->
  exists s, tree_Add (tree me) (mkItem k st) = Some s /\ in_sync (mkOrder s (<[k := st]> (keys me))).
Proof using Type.
  intros (Hv & Hwf & Hs) Hk Hnone. unfold tree_Add. destruct (Contains (tree me) (mkItem k st)) eqn:E.
  { apply Contains_spec, Hs in E. cbn in E. congruence. }
  eexists. split; [done|]. unfold in_sync. cbn [tree keys]. split_and!.
  - by apply valid_put.
  - intros k' st'. destruct (decide (k = k')) as [<-|]; [done|]. rewrite lookup_insert_ne by done. apply Hwf.
  - intros x. rewrite elements_put by done. rewrite apart_spec. destruct (decide (k = key x)) as [->|Hne].
    + rewrite lookup_insert_eq, Hs. split; [intros [->|[Hx _]]; [done|congruence]|]. intros [= Heq]. left. destruct x; cbn in *. by subst.
    + rewrite lookup_insert_ne, Hs by done. split; [intros [->|[Hx _]]; done|]. intros Hx. right. split; [done|]. by intros <-.
Qed.

Lemma take_out me k st : in_sync me -> keys me !! k = Some st ->
  exists s, tree_Delete (tree me) (mkItem k st) = Some s /\ in_sync (mkOrder s (delete k (keys me))).
Proof using Type.
  intros (Hv & Hwf & Hs) Hk. unfold tree_Delete. assert (Contains (tree me) (mkItem k st) = true) as -> by (by apply Contains_spec, Hs).
  pose proof (Hwf _ _ Hk) as Hlen. eexists. split; [done|]. unfold in_sync. cbn [tree keys]. split_and!.
  - by apply valid_del.
  - intros k' st'. destruct (decide (k = k')) as [<-|]; [by rewrite lookup_delete_eq|]. rewrite lookup_delete_ne by done. apply Hwf.
  - intros x. rewrite elements_del by done. rewrite apart_spec, Hs. destruct (decide (k = key x)) as [->|Hne].
    + rewrite lookup_delete_eq. split; [|done]. intros [Hx Hne]. exfalso. apply Hne. rewrite Hk in Hx. injection Hx as ->. by destruct x.
    + rewrite lookup_delete_ne by done. split; [by intros [Hx _]|]. intros Hx. split; [done|]. by intros <-.
Qed.

Lemma Add_in_sync me k st : in_sync me -> length (InfoHash k) = 20%nat ->
  exists me', Add me k st = Some (me', keys me !! k) /\ in_sync me' /\ keys me' = <[k := st]> (keys me).
Proof using Type.
  intros Hs Hk. unfold Add. destruct (keys me !! k) as [old|] eqn:E.
  - case_bool_decide as Heq.
    + subst old. exists me. split; [done|]. split; [done|]. by rewrite insert_id.
    + destruct (take_out me k old Hs E) as (s & -> & Hs1). cbn [mbind option_bind].
      destruct (file_in _ k st Hs1 Hk) as (s' & Hadd & Hs2); [apply lookup_delete_eq|]. cbn [tree keys] in *. rewrite Hadd. cbn.
      eexists. split; [done|]. rewrite insert_delete_eq in Hs2. by split.
  - destruct (file_in me k st Hs Hk E) as (s & -> & Hs'). cbn. by eexists.
Qed.

Lemma Delete_in_sync me k : in_sync me -> exists me', Delete me k = Some (me', bool_decide (is_Some (keys me !! k))) /\ in_sync me' /\ keys me' = delete k (keys me).
Proof using Type.
  intros Hs. unfold Delete. destruct (keys me !! k) as [st|] eqn:E.
  - destruct (take_out me k st Hs E) as (s & -> & Hs'). cbn. by eexists.
  - exists me. split; [done|]. split; [done|]. by rewrite delete_id.
Qed.

Lemma Get_in_sync me k : in_sync me -> Get me k = Some (keys me !! k).
Proof using Type.
  intros (_ & _ & Hs). unfold Get. assert (Contains (tree me) (mkItem k (default zero_state (keys me !! k))) = bool_decide (is_Some (keys me !! k))) as ->; [|by rewrite eqb_reflx].
  apply eq_iff_eq_true. rewrite Contains_spec, Hs, bool_decide_eq_true. cbn. destruct (keys me !! k); cbn; split; done.
Qed.
End sync.

(** ** What the walk gives *)

Section walk.
Context (o : Input).

Fixpoint lengths (l : list Item) : Z := match l with [] => 0 | x :: l => PieceLength o (InfoHash (key x)) + lengths l end.
Definition wanted (l : list Item) : list Item := List.filter (fun x => Request o (key x)) l.
Definition counted (x : Item) : bool := Request o (key x) || CountUnverified o (key x).
Definition unverified_of (l : list Item) : Z := lengths (List.filter counted l).

(** After the pieces [w] the walk goes on past [x]: it is not refused, and what is unverified stays under the bound. *)
Definition goes_on (w : list Item) (x : Item) : bool :=
  (negb (Request o (key x)) || requestPiece o (wanted w) x) &&
  (negb (counted x) || (MaxUnverifiedBytes o =? 0) || (unverified_of (w ++ [x]) <? MaxUnverifiedBytes o)).

Definition fits (l : list Item) : Prop := forall room, Capacity o = Some room -> lengths l <= room.

(** The walk over [l] from the start: it goes past each of [w], gives those to be requested, and stops for a reason. *)
Definition walks (p l : list Item) (given : list Item) (more : bool) : Prop :=
  exists w rest, l = w ++ rest /\ given = wanted (p ++ w) /\ fits (p ++ w) /\
    (forall a x b, w = a ++ x :: b -> b <> [] -> goes_on (p ++ a) x = true) /\
    (rest <> [] -> (exists a x, w = a ++ [x] /\ goes_on (p ++ a) x = false) \/ (exists x b, rest = x :: b /\ ~ fits (p ++ w ++ [x]))) /\
    (more = false <-> exists a x, w = a ++ [x] /\ Request o (key x) = true /\ requestPiece o (wanted (p ++ a)) x = false).

Lemma lengths_app a b : lengths (a ++ b) = lengths a + lengths b.
Proof using Type. induction a as [|x a IH]; cbn; [done|]. rewrite IH. lia. Qed.

Lemma wanted_snoc l x : wanted (l ++ [x]) = wanted l ++ if Request o (key x) then [x] else [].
Proof using Type. unfold wanted. rewrite List.filter_app. cbn. by destruct (Request o (key x)). Qed.

Lemma unverified_snoc l x : unverified_of (l ++ [x]) = unverified_of l + if counted x then PieceLength o (InfoHash (key x)) else 0.
Proof using Type. unfold unverified_of. rewrite List.filter_app, lengths_app. cbn. destruct (counted x); cbn; lia. Qed.

Definition lengths_ok (l : list Item) : Prop := Forall (fun x => 0 <= PieceLength o (InfoHash (key x))) l /\ in64 (lengths l).

Lemma lengths_nonneg l : Forall (fun x => 0 <= PieceLength o (InfoHash (key x))) l -> 0 <= lengths l.
Proof using Type. induction 1; cbn; lia. Qed.

Lemma unverified_le l : Forall (fun x => 0 <= PieceLength o (InfoHash (key x))) l -> 0 <= unverified_of l <= lengths l.
Proof using Type. unfold unverified_of. induction 1 as [|x l Hx _ IH]; cbn; [lia|]. destruct (counted x); cbn; lia. Qed.

(** One piece is walked past, and the walk goes on. *)
Lemma walks_on p x l given more : goes_on p x = true -> fits (p ++ [x]) -> walks (p ++ [x]) l given more -> walks p (x :: l) given more.
Proof using Type.
  intros Hx Hfx (w & rest & -> & -> & Hf & Hgo & Hstop & Hmore). exists (x :: w), rest. cbn. rewrite <- (assoc_L (++)) in *. cbn in *.
  split_and!; [done..| |intros Hr; destruct (Hstop Hr) as [(a & y & -> & Hy)|Hy]|].
  - intros [|y a] z b; intros [= <- ->] Hb; [by rewrite app_nil_r|]. specialize (Hgo a z b eq_refl Hb). by rewrite <- (assoc_L (++)) in Hgo.
  - left. exists (x :: a), y. split; [done|]. by rewrite <- (assoc_L (++)) in Hy.
  - destruct Hy as (y & b & -> & Hy). right. exists y, b. split; [done|]. by rewrite <- (assoc_L (++)) in Hy.
  - rewrite Hmore. split.
    + intros (a & y & -> & Hy). exists (x :: a), y. by rewrite <- (assoc_L (++)) in Hy.
    + intros ([|y a] & z & [= <- ->] & Hr & Hz); cbn.
      * unfold goes_on in Hx. rewrite app_nil_r in Hz. by rewrite Hr, Hz in Hx.
      * exists a, z. rewrite <- (assoc_L (++)). done.
Qed.

(** It is the last. *)
Lemma walks_last p x l more : goes_on p x = false -> fits (p ++ [x]) ->
  (more = false <-> Request o (key x) = true /\ requestPiece o (wanted p) x = false) -> walks p (x :: l) (wanted (p ++ [x])) more.
Proof using Type.
  intros Hx Hf Hmore. exists [x], l. split_and!; [done..| |left; exists [], x; by rewrite app_nil_r|].
  - intros [|? [|]] z b; intros [= <- ->]; done.
  - rewrite Hmore. split; [intros Hr; exists [], x; by rewrite app_nil_r|]. intros (a & y & E & Hr).
    destruct a as [|? [|]]; injection E as; subst; try done. by rewrite app_nil_r in Hr.
Qed.

Lemma walks_none p l : fits p -> match l with [] => True | x :: _ => ~ fits (p ++ [x]) end -> walks p l (wanted p) true.
Proof using Type.
  intros Hf Hl. exists [], l. rewrite app_nil_r. split_and!; [done..| | |].
  - by intros [].
  - intros Hne. right. destruct l as [|x b]; [done|]. by exists x, b.
  - split; [done|]. by intros ([] & ? & ? & _).
Qed.

Lemma scan_walks l p given more :
  lengths_ok (p ++ l) -> fits p -> (forall room, Capacity o = Some room -> in64 room) ->
  scan o l ((fun room => room - lengths p) <$> Capacity o) (unverified_of p) (wanted p) = (given, more) -> walks p l given more.
Proof using Type.
  revert p. induction l as [|x l IH]; intros p [Hnn Hmax] Hf Hroom He; cbn [scan] in He; [injection He as <- <-; by apply walks_none|].
  pose proof Hnn as Hnn'. apply Forall_app in Hnn as [Hp [Hx Hl]%Forall_cons].
  assert (lengths (p ++ x :: l) = lengths p + (PieceLength o (InfoHash (key x)) + lengths l)) as Hs by (by rewrite lengths_app).
  pose proof Hmax as Hmax'. rewrite Hs in Hmax.
  set (n := PieceLength o (InfoHash (key x))) in *. pose proof (lengths_nonneg p Hp) as Hp0. pose proof (lengths_nonneg l Hl). pose proof (unverified_le p Hp) as Hu.
  assert (lengths (p ++ [x]) = lengths p + n) as Hsx by (rewrite lengths_app; cbn; lia).
  destruct (match _ with Some room => room <? n | None => false end) eqn:Efit.
  { injection He as <- <-. apply walks_none; [done|]. intros Hfx. destruct (Capacity o) as [room|] eqn:Ec; [|done]. cbn in Efit.
    specialize (Hfx room Ec). apply Z.ltb_lt in Efit. lia. }
  assert (fits (p ++ [x])) as Hfx.
  { intros room Ec. rewrite Ec in Efit. cbn in Efit. apply Z.ltb_ge in Efit. lia. }
  assert ((fun room => i64_sub room n) <$> ((fun room => room - lengths p) <$> Capacity o) = (fun room => room - lengths (p ++ [x])) <$> Capacity o) as Hleft.
  { destruct (Capacity o) as [room|] eqn:Ec; [|done]. cbn. f_equal. specialize (Hroom room eq_refl). specialize (Hfx room Ec). rewrite i64_sub_small by no_overflow. lia. }
  assert (i64_add (unverified_of p) n = unverified_of p + n) as Hadd by (apply i64_add_small; no_overflow).
  rewrite Hleft, Hadd in He. specialize (IH (p ++ [x])). rewrite <- (assoc_L (++)) in IH. cbn [app] in IH.
  assert (lengths_ok (p ++ x :: l)) as Hok by done.
  specialize (IH Hok Hfx Hroom). rewrite unverified_snoc, wanted_snoc in IH.
  pose proof (walks_on p x l) as Hon. pose proof (walks_last p x l) as Hlast. rewrite wanted_snoc in Hlast.
  unfold goes_on in Hon, Hlast. rewrite unverified_snoc in Hon, Hlast. unfold counted in *. fold n in Hon, Hlast, IH.
  assert (forall u, (negb (MaxUnverifiedBytes o =? 0) && (MaxUnverifiedBytes o <=? u)) = negb ((MaxUnverifiedBytes o =? 0) || (u <? MaxUnverifiedBytes o))) as Hb.
  { intros u. rewrite negb_orb, Z.leb_antisym. done. }
  rewrite Hb in He.
  destruct (Request o (key x)) eqn:Er; cbn [orb negb andb] in *; [destruct (requestPiece o (wanted p) x) eqn:Ea|destruct (CountUnverified o (key x)) eqn:Ec]; cbn [orb negb andb] in *.
  - destruct ((_ =? 0) || _) eqn:Eb; cbn [negb] in He.
    + by apply Hon, IH.
    + injection He as <- <-. by apply Hlast; [..|split; [|intros []]].
  - injection He as <- <-. by apply Hlast.
  - rewrite app_nil_r in *. destruct ((_ =? 0) || _) eqn:Eb; cbn [negb] in He.
    + by apply Hon, IH.
    + injection He as <- <-. by apply Hlast; [..|split; [|intros []]].
  - rewrite Z.add_0_r, app_nil_r in *. by apply Hon, IH.
Qed.
End walk.

Section requests.
Context {S : Type} `{ContainerLaws Item S wf_item pieceOrderLess}.

(** The orders that are made: from an empty one, by adding, updating and deleting pieces of twenty-byte hashes. *)
Inductive made : PieceRequestOrder S -> Prop :=
| made_new : made NewPieceOrder
| made_add me k st me' old : made me -> length (InfoHash k) = 20%nat -> Add me k st = Some (me', old) -> made me'
| made_update me k st me' b : made me -> length (InfoHash k) = 20%nat -> Update me k st = Some (me', b) -> made me'
| made_delete me k me' b : made me -> Delete me k = Some (me', b) -> made me'.

Lemma made_in_sync me : made me -> in_sync me.
Proof using All.
  induction 1 as [|me k st me' old _ IH Hk Ha|me k st me' b _ IH Hk Hu|me k me' b _ IH Hd].
  - split_and!; cbn; [apply valid_none|intros k st; by rewrite lookup_empty|]. intros x. rewrite elements_none, lookup_empty. split; [by intros ?%elem_of_nil|done].
  - destruct (Add_in_sync me k st IH Hk) as (me1 & E & Hs & _). rewrite E in Ha. by injection Ha as <- <-.
  - destruct (Add_in_sync me k st IH Hk) as (me1 & E & Hs & _). unfold Update in Hu. rewrite E in Hu. destruct (keys me !! k); [|done]. by injection Hu as <- <-.
  - destruct (Delete_in_sync me k IH) as (me1 & E & Hs & _). rewrite E in Hd. by injection Hd as <- <-.
Qed.

(** C32: the pieces to request are found in the order of their priority: whatever pieces were added, changed and removed, the tree's panics never come,
    what an operation says was there is what the last one left, and a walk goes through each piece on record once under its present state, the more
    urgent, the begun, the rarer first; it gives exactly those to be requested among the first pieces, which fit in the storage together and, all but the last,
    stay under the bound on what is unverified, none of them refused; it ends before the pieces do only where the next does not fit, the bound is reached or the caller
    refuses, and only then says that nothing more can be requested. *)
Theorem requests_in_order me k st (Hmade : made me) (Hk : length (InfoHash k) = 20%nat) :
  Get me k = Some (keys me !! k) /\
  (exists me', Add me k st = Some (me', keys me !! k) /\ keys me' = <[k := st]> (keys me)) /\
  (forall old, keys me !! k = Some old -> exists me', Update me k st = Some (me', negb (bool_decide (old = st))) /\ keys me' = <[k := st]> (keys me)) /\
  (exists me', Delete me k = Some (me', bool_decide (is_Some (keys me !! k))) /\ keys me' = delete k (keys me)) /\
  StronglySorted (fun x y => lex_lt (place x) (place y) = true) (elements_of (tree me)) /\
  (forall x, x ∈ elements_of (tree me) <-> keys me !! key x = Some (state x)) /\
  forall o given more, GetRequestablePieces o me = (given, more) -> lengths_ok o (elements_of (tree me)) ->
    (forall room, Capacity o = Some room -> 0 <= room /\ in64 room) -> walks o [] (elements_of (tree me)) given more.
Proof using All.
  pose proof (made_in_sync me Hmade) as Hs. pose proof Hs as (Hv & _ & Hel).
  split; [by apply Get_in_sync|]. split; [destruct (Add_in_sync me k st Hs Hk) as (me' & ? & _ & ?); by exists me'|].
  split; [intros old Ho; destruct (Add_in_sync me k st Hs Hk) as (me' & E & _ & ?); exists me'; split; [|done]; unfold Update; by rewrite E, Ho|].
  split; [destruct (Delete_in_sync me k Hs) as (me' & ? & _ & ?); by exists me'|].
  split; [by apply by_place, valid_in_order|]. split; [done|].
  intros o given more He Hok Hroom. apply scan_walks; [done|intros room Hc; by destruct (Hroom room Hc)|intros room Hc; by destruct (Hroom room Hc)|].
  unfold GetRequestablePieces in He. rewrite <- He. f_equal. destruct (Capacity o) as [room|]; [|done]. cbn. by rewrite Z.sub_0_r.
Qed.
End requests.

(** ** A torrent of three pieces *)

#[local] Instance filed : Container Item (list Item) := sorted_list pieceOrderLess.
#[local] Instance filed_laws : ContainerLaws wf_item pieceOrderLess := sorted_list_laws _ _ pieceOrder_weak.

Definition piece_key (i : Z) : Key := mkKey (repeat 7 20) i.

Definition add_piece (i : Z) (st : State) (me : PieceRequestOrder (list Item)) : PieceRequestOrder (list Item) :=
  match Add me (piece_key i) st with Some (me, _) => me | None => me end.

(** The second piece became urgent, the third was begun. *)
Definition three_pieces : PieceRequestOrder (list Item) :=
  add_piece 2 (mkState 1 0 true) (add_piece 1 (mkState 1 4 false) (add_piece 2 (mkState 1 0 false)
    (add_piece 1 (mkState 1 0 false) (add_piece 0 (mkState 1 0 false) NewPieceOrder)))).

Definition room_for_two : Input := mkInput (fun _ => 10) (fun k => Index k =? 1) (fun _ => true) (Some 25) 0 (fun _ _ => true).

Lemma add_piece_made i st me : made me -> made (add_piece i st me).
Proof.
  intros Hm. unfold add_piece. destruct (Add me (piece_key i) st) as [[me' old]|] eqn:E; [|done]. by apply (made_add me (piece_key i) st me' old).
Qed.

Lemma three_pieces_made : made three_pieces.
Proof. do 5 apply add_piece_made. apply made_new. Qed.

Lemma requests_in_order_witness :
  map (fun x => Index (key x)) (elements_of (tree three_pieces)) = [1; 2; 0] /\
  GetRequestablePieces room_for_two three_pieces = ([mkItem (piece_key 1) (mkState 1 4 false)], true) /\
  walks room_for_two [] (elements_of (tree three_pieces)) [mkItem (piece_key 1) (mkState 1 4 false)] true.
Proof.
  split; [by vm_compute|]. split; [by vm_compute|].
  destruct (requests_in_order three_pieces (piece_key 0) (mkState 1 0 false) three_pieces_made eq_refl) as (_ & _ & _ & _ & _ & _ & Hw).
  apply (Hw room_for_two); [by vm_compute| |].
  - split; [apply Forall_true; intros x; by vm_compute|by vm_compute].
  - intros room [= <-]. by vm_compute.
Defined.
